(* ===== verification/_CoqProject ===== *)
-Q . S2P
Prelude.v
Keys.v
Message.v
Errors.v
InstructionsSysvar.v
Transaction.v
AccountLocks.v
Float64.v
ComputeBudget.v
StakeHistory.v
Account.v
Invocation.v
Nonce.v
SystemProgram.v
SystemSafety.v
EpochSchedule.v
RentCollector.v
BlockhashQueue.v
StatusCache.v
PreAccount.v
Runtime.v
RuntimeSafety.v
Arbitrage.v
ArbitrageOptimal.v
Mev.v
MevCorrect.v
AccountsLoad.v
AccountsLoadSafety.v
Bank.v
BankSample.v
BankSafety.v
MevCandidate.v
BankSystem.v
Merkle.v
Poh.v
PohChain.v
PohRecorder.v
PohRecorderSafety.v
AuthorizedVoters.v
VoteState.v
VoteTower.v
VoteChecks.v
VoteProgram.v
VoteProcessor.v
VoteSafety.v
StakeState.v
StakeActivation.v
StakeProgram.v
StakeProcessor.v
StakeEffects.v
StakeSafety.v
StakeGuarantees.v
StakeRewards.v
StakeSample.v
CostModel.v
CostTracker.v
BankingStage.v
BankingStageSafety.v
ForkChoice.v
ForkTree.v
ForkUpdate.v
ForkVotes.v
ForkGrow.v
ForkMarks.v
ForkGhost.v
ForkSample.v
LatestVotes.v
ClusterSlots.v
ClusterSlotsSafety.v
SlotHistory.v
ProgressMap.v
Propagation.v
Tower.v
TowerSafety.v
TowerCollect.v
TowerSwitch.v
TowerRestore.v
ReplayVote.v
ReplayVoteSafety.v
VotingSample.v
