(* ===== verification/Prelude.v ===== *)
(** * A verification development for Solana-MEV

    Solana-MEV is a fork of the Solana validator.  Its banking stage takes
    batches of transactions, selects those that fit the block, locks their
    accounts, executes and commits them; the fork watches the accounts of
    configured Orca pools while it does so and, when a transaction opens an
    arbitrage opportunity, crafts a transaction of its own and executes it
    right after the batch.  Its replay stage follows the blocks of the other
    validators, chooses the fork to build on and votes.  The development is a
    shallow embedding of these two paths and of the programs they rest on:
    each function of the sources is a Rocq function, a panic is a value
    ([outcome]), an error is a value ([result]), mutable state is passed
    explicitly, and integers keep their width: [Z] with saturation, wrapping
    or overflow checks written out where the sources have them.

    ** Parts, files and sources (paths under src/)

    - Prelude: this file.  Results, panics, machine integers, lemmas on lists
      and maps, the development's tactics and hint databases.
    - Keys: program and sysvar ids; base58 literals are evaluated.
    - Message: sdk/program/src/message: legacy and v0 messages, key
      compilation, account keys, sanitization, writable and signer flags.
    - Errors: the error enumerations of sdk and of the vote program.
    - Transaction: sdk/src/transaction: signing, [SanitizedTransaction], the
      MEV keys of the fork and the locks a transaction asks for.
    - AccountLocks: runtime/src/accounts.rs, the lock tables; each batch
      operation runs under one mutex and is one step of the relation [step].
    - Float64, Arbitrage, ArbitrageOptimal: runtime/src/mev/arbitrage.rs.
      The formula is written once over the class [Arith]; the code is the
      IEEE binary64 instance, the optimality theorem is about the instance
      over the real numbers.
    - Mev, MevCorrect: runtime/src/mev.rs: the watched accounts, the pool
      states read back after a transaction, the simulation of each path, the
      crafted transaction and the choice of the best one.
    - Account: sdk/src/account.rs and sdk/program/src/rent.rs.
    - AuthorizedVoters, VoteState, VoteTower, VoteChecks: the vote state of
      programs/vote, its tower invariant and the checks of submitted votes.
    - VoteProgram, VoteProcessor, VoteSafety: the handlers of the vote
      program on accounts, its dispatcher and its safety theorems.
    - CostModel, CostTracker: runtime/src/cost_model.rs,
      execute_cost_table.rs, block_cost_limits.rs, cost_tracker.rs and the
      selection and settlement of core/src/qos_service.rs.
    - Invocation: what a native program sees: keyed accounts, the sysvar
      cache, features, the store of accounts.
    - Nonce, SystemProgram, SystemSafety: sdk/program/src/nonce, the handlers
      of runtime/src/nonce_keyed_account.rs and the system program of
      runtime/src/system_instruction_processor.rs.
    - StakeHistory, StakeState, StakeActivation: sdk/program/src/stake_history.rs
      and sdk/program/src/stake: the state of a stake account, and how much of
      a delegation is effective at an epoch, in floating point.
    - StakeProgram, StakeProcessor: the handlers and the processor of
      programs/stake/src, in a monad of accounts, errors and panics.
    - StakeEffects, StakeSafety, StakeGuarantees: a weakest precondition for
      that monad and the effect of each handler; the invariant that a
      delegation is backed by lamports; the theorems on the processor, and
      the sequence of handlers that leaves a delegation without its lamports.
    - StakeRewards, StakeSample: rewards, and their payment in
      runtime/src/bank.rs; a concrete format, witnesses and counterexamples.
    - EpochSchedule, RentCollector: sdk/program/src/epoch_schedule.rs and
      runtime/src/rent_collector.rs with account_rent_state.rs.
    - BlockhashQueue, StatusCache: runtime/src/blockhash_queue.rs and
      status_cache.rs.
    - ComputeBudget: program-runtime/src/compute_budget.rs and
      prioritization_fee.rs, and the fee of a message in runtime/src/bank.rs.
    - InstructionsSysvar: sdk/program/src/sysvar/instructions.rs, the
      instructions of a transaction as its programs read them.
    - PreAccount, Runtime, RuntimeSafety: program-runtime/src/pre_account.rs,
      accounts_data_meter.rs and invoke_context.rs,
      sdk/src/transaction_context.rs and runtime/src/message_processor.rs.
      A program is a tree of writes and calls ([ProgramRun]), so that the
      theorems hold for any program; [process_instruction] has the depth of
      calls as fuel.
    - AccountsLoad, AccountsLoadSafety: the loading and storing half of
      runtime/src/accounts.rs over the class [AccountsDb].
    - Bank, BankSample, BankSafety: runtime/src/bank.rs, the checks,
      execution and commit of a batch, with a sample bank for witnesses.
    - BankSystem: batches of several threads interleaved: locks, execution,
      commit and release as one step relation.
    - MevCandidate: the accounts of a crafted transaction, followed from the
      configuration to the compiled message.
    - Merkle, Poh, PohChain: merkle-tree/src/merkle_tree.rs, entry/src/poh.rs
      and entry/src/entry.rs over the class [Sha256]: the hash chain, its
      entries and their three verifiers.
    - PohRecorder, PohRecorderSafety: poh/src/poh_recorder.rs, with the
      operations of its three clients as one step relation.
    - BankingStage, BankingStageSafety: core/src/banking_stage.rs from
      [process_transactions] on, over the interface [TransactionRecorder]
      that PohRecorder implements; the composition of all of the above.
    - ForkChoice, ForkTree, ForkUpdate, ForkVotes, ForkGrow, ForkMarks,
      ForkGhost, ForkSample: core/src/heaviest_subtree_fork_choice.rs and
      tree_diff.rs.  ForkTree has the shape of the tree, ForkUpdate the
      batches of updates, the next three one kind of operation each, and
      ForkGhost the reachable states and what they promise.
    - LatestVotes: core/src/latest_validator_votes_for_frozen_banks.rs.
    - ClusterSlots, ClusterSlotsSafety:
      core/src/cluster_slot_state_verifier.rs.
    - SlotHistory: sdk/program/src/slot_history.rs.
    - ProgressMap, Propagation: core/src/progress_map.rs and the counting of
      validators in core/src/replay_stage.rs.
    - Tower, TowerSafety, TowerCollect, TowerSwitch, TowerRestore:
      core/src/consensus.rs: lockouts, the votes landed in a bank, the switch
      decision and the restored tower.
    - ReplayVote, ReplayVoteSafety, VotingSample: core/src/replay_stage.rs
      from the frozen banks to the vote, the composition of the above, with a
      sample for witnesses.
    ** What the theorems show

    - Arbitrage: a crafted transaction cannot lose tokens; the reported
      profit is that of the simulation; the formula for the input is optimal
      for pools without a host fee; the step returns without panicking on
      paths of up to 25 swaps; the accounts it reads are locked.
    - Locks: the lock tables refine a set of held readers-writer locks; no
      two holders ever conflict; a batch gives back exactly what it took.
    - Votes: the tower invariant is preserved; an accepted tower violates no
      lockout; no assertion of the checks can fail; every instruction of the
      vote program is safe, conserves lamports and needs its signatures.
    - Costs: the tracker refines the multiset of the costs it holds and
      accepts exactly what keeps the block's limits; a settled batch leaves
      its committed transactions at their actual units, a discarded one
      leaves nothing.
    - System program: lamports move only with the consent of their holder;
      an advanced nonce invalidates what was signed for the old one.
    - Stake program: every instruction returns and conserves lamports; a
      delegation that is not deactivated is covered by the lamports of its
      account, except when a deactivation is rescinded, which leaves every
      partly effective stake without its lamports; funds and authorities only change with
      the signatures and lockups the account asks for; deactivated stake only
      shrinks; rewards stay within their budget, where the points fit in 128
      bits, and are paid once.
    - Epochs, rent, blockhashes: conversions are exact, rent is collected
      once, a blockhash lives for a fixed number of blocks.
    - Execution: whatever programs do, a message conserves the lamports of
      its accounts and changes only those it takes as writable; calls are
      bounded by the depth limit; the budget is what the message asks for;
      programs read the instructions of their message back exactly.
    - Bank: interleaved batches never create lamports, never commit one
      transaction twice and can always give their locks back; the arbitrage
      transaction of a batch is the first best one found.
    - Ledger: what is hashed, recorded and ticked verifies, with whichever
      verifier; an entry commits to its signatures; from a reset on, what the
      recorder sends is one chain inside the ranges of its banks.
    - Block production: the banking stage is a thread of the system of
      batches; the block it records is exactly what it commits, arbitrage
      transactions included, which can write only configured accounts.
    - Fork choice: the best slot is that of the heaviest eligible subtree by
      the latest votes; no operation panics in a reachable state; a block
      marked invalid is never built on; confirmations decide between versions
      of a slot, whichever signal comes first, unless the local one is
      confirmed already.
    - Voting: a vote that is cast obeys the lockouts of the tower, the stake
      threshold and the switch rule, and leaves a tower on one fork, unless
      the tower adopted a vote state in the same round, where a sample shows
      a broken lockout; a restart drops only rooted or outdated votes.
    ** Parameters, bounds and fuel

    Code outside src/ is a parameter: ed25519 and the message hash
    ([Signing]), SHA-256 in address derivation, the layout of SPL token and
    Orca accounts and the swap instruction ([TokenSwap] and its companions),
    bincode ([Bincode], [InstructionCodec], [SystemCodec]), the iteration
    order of hash maps ([HashOrder]), SHA-256 ([Sha256]) and the SIMD and GPU
    kernels of the entry verification ([PerfLibs]).  What a theorem needs of them is a named
    law class or hypothesis, and its witness gives an instance.  Loops of the
    sources that are not structural carry the length of the data they consume
    as fuel, so that running out is impossible and no theorem is conditional
    on it; [sqrt] and division in [f64] are total functions of the standard
    library's model.  Lengths of vectors are [nat]: a vector in memory has
    fewer than 2^64 elements.

    ** Not modelled, and why

    The BPF virtual machine and the ledger's storage are external crates;
    gossip, the network stages, the accounts database, snapshots and the RPC
    services are input and output around the modelled paths; metrics, logging
    text and timing have no effect on them.  The config, lookup-table and
    zk-token programs are independent of them.  Of the rewards, loading the
    delegations from the stakes cache and the inflation schedule are left out.  Of the replay stage, the
    replay of entries into banks, the start of leader slots, and the dumping
    and repair of blocks are left out: they drive the blockstore and the
    block verification of other crates.
*)

From stdpp Require Export base tactics option list gmap numbers sorting.
From Stdlib Require Export ZArith Lia.

#[global] Open Scope Z_scope.
#[global] Set Default Goal Selector "!".
#[global] Arguments Nat.ltb : simpl never.
#[global] Arguments Nat.leb : simpl never.
#[global] Arguments Nat.eqb : simpl never.
#[global] Arguments Nat.modulo : simpl never.
#[global] Arguments N.eqb : simpl never.
#[global] Arguments Z.ltb : simpl never.
#[global] Arguments Z.leb : simpl never.
#[global] Arguments Z.eqb : simpl never.

(** ** Results and panics *)

(** Rust's [Result<A, E>]. *)
Inductive result (E A : Type) : Type :=
| Ok (a : A)
| Err (e : E).
Arguments Ok {E A} _.
Arguments Err {E A} _.

(** A call that may abort the thread: [Returns a] when it returns [a],
    [Panics] for a failed [assert!], [unwrap], [expect] or slice index. *)
Inductive outcome (A : Type) : Type :=
| Returns (a : A)
| Panics.
Arguments Returns {A} _.
Arguments Panics {A}.

#[global] Instance result_ret E : MRet (result E) := fun A a => Ok a.
#[global] Instance result_bind E : MBind (result E) := fun A B f m =>
  match m with Ok a => f a | Err e => Err e end.
#[global] Instance outcome_ret : MRet outcome := fun A a => Returns a.
#[global] Instance outcome_bind : MBind outcome := fun A B f m =>
  match m with Returns a => f a | Panics => Panics end.

(** [opt.ok_or(e)]. *)
Definition ok_or {E A} (o : option A) (e : E) : result E A :=
  match o with Some a => Ok a | None => Err e end.

(** [res.ok()]. *)
Definition result_ok {E A} (r : result E A) : option A :=
  match r with Ok a => Some a | Err _ => None end.

(** [res.is_ok()]. *)
Definition is_ok {E A} (r : result E A) : bool :=
  match r with Ok _ => true | Err _ => false end.

(** [opt.is_some()]. *)
Definition is_some {A} (o : option A) : bool :=
  match o with Some _ => true | None => false end.

(** [res.map_err(f)]. *)
Definition map_err {E F A} (f : E -> F) (r : result E A) : result F A :=
  match r with Ok a => Ok a | Err e => Err (f e) end.

(** [opt.unwrap()] and [opt.expect(..)]. *)
Definition unwrap {A} (o : option A) : outcome A :=
  match o with Some a => Returns a | None => Panics end.

(** [assert!(b)]. *)
Definition assert_ (b : bool) : outcome unit :=
  if b then Returns tt else Panics.

(** The [?] operator in a function that may also panic. *)
Definition try_bind {E A B} (m : outcome (result E A)) (f : A -> outcome (result E B))
    : outcome (result E B) :=
  match m with
  | Returns (Ok a) => f a
  | Returns (Err e) => Returns (Err e)
  | Panics => Panics
  end.

Notation "'let?' x := m 'in' k" := (try_bind m (fun x => k))
  (at level 10, x pattern, m at level 200, k at level 200,
   format "'let?'  x  :=  m  'in' '//' k").

(** ** Machine integers

    A [w]-bit unsigned integer is a [Z] in [0, 2^w).  Release builds wrap on
    [+], [-], [*] and [as]; [saturating_*] clamp; [checked_*] return [None]. *)

Definition U8_MAX : Z := 255.
Definition U32_MAX : Z := 4294967295.
Definition U64_MAX : Z := 18446744073709551615.
Definition U128_MAX : Z := 340282366920938463463374607431768211455.

Definition u8 (z : Z) : Prop := 0 <= z <= U8_MAX.
Definition u64 (z : Z) : Prop := 0 <= z <= U64_MAX.
Definition u128 (z : Z) : Prop := 0 <= z <= U128_MAX.

Definition wrap8 (z : Z) : Z := z mod 256.
Definition wrap32 (z : Z) : Z := z mod 4294967296.
Definition wrap64 (z : Z) : Z := z mod 18446744073709551616.
Definition wrap128 (z : Z) : Z := z mod 340282366920938463463374607431768211456.

Definition sat_add64 (a b : Z) : Z := Z.min (a + b) U64_MAX.
Definition sat_sub64 (a b : Z) : Z := Z.max (a - b) 0.
Definition sat_mul64 (a b : Z) : Z := Z.min U64_MAX (a * b).
Definition sat_sub128 (a b : Z) : Z := Z.max (a - b) 0.

Definition checked_add64 (a b : Z) : option Z :=
  if a + b <=? U64_MAX then Some (a + b) else None.
Definition checked_sub64 (a b : Z) : option Z :=
  if b <=? a then Some (a - b) else None.
Definition checked_add128 (a b : Z) : option Z :=
  if a + b <=? U128_MAX then Some (a + b) else None.
Definition checked_sub128 (a b : Z) : option Z :=
  if b <=? a then Some (a - b) else None.

(** [u8::try_from(n).ok()] for a [usize]. *)
Definition u8_try_from (n : nat) : option Z :=
  if Z.of_nat n <=? U8_MAX then Some (Z.of_nat n) else None.

(** ** Keys and hashes *)

(** A [Pubkey] is 32 bytes; the model reads them as one natural number, so
    that [Ord] on keys (big-endian byte order) is [N.le]. *)
Abbreviation Pubkey := N (only parsing).
Abbreviation Hash := N (only parsing).
Abbreviation Signature := N (only parsing).
Abbreviation Slot := Z (only parsing).
Abbreviation Epoch := Z (only parsing).

(** [Pubkey::default()]. *)
Definition pubkey_default : Pubkey := 0%N.

(** ** Ordered maps

    A [BTreeMap] is a [gmap]; [btree_iter] lists it in key order, which is
    how the sources iterate over it. *)

Definition key_leN {V} (p q : N * V) : Prop := (p.1 <= q.1)%N.
Definition key_leZ {V} (p q : Z * V) : Prop := p.1 <= q.1.
#[global] Instance key_leN_dec {V} : RelDecision (@key_leN V).
Proof. intros p q. unfold key_leN. apply _. Defined.
#[global] Instance key_leZ_dec {V} : RelDecision (@key_leZ V).
Proof. intros p q. unfold key_leZ. apply _. Defined.

Definition btree_iter {V} (m : gmap N V) : list (N * V) :=
  merge_sort key_leN (map_to_list m).
Definition btree_iterZ {V} (m : gmap Z V) : list (Z * V) :=
  merge_sort key_leZ (map_to_list m).

(** [slice.iter().position(|x| x == key)]. *)
Fixpoint position (key : N) (l : list N) : option nat :=
  match l with
  | [] => None
  | k :: rest => if N.eqb k key then Some O else S <$> position key rest
  end.

(** ** Sums *)

Fixpoint zsum {A} (f : A -> Z) (l : list A) : Z :=
  match l with [] => 0 | x :: l => f x + zsum f l end.

(** The sum of a function over the entries of a map. *)
Definition msum `{Countable K} {A} (f : K -> A -> Z) (m : gmap K A) : Z :=
  zsum (fun e => f e.1 e.2) (map_to_list m).

(** ** Automation *)

Create HintDb sol.

(** Splits the conditionals and matches of the goal and of the hypotheses,
    keeping the equations, and cleans up. *)
Ltac split_step :=
  match goal with
  | H : context [match ?x with _ => _ end] |- _ =>
      lazymatch x with context [match _ with _ => _ end] => fail | _ => destruct x eqn:? end
  | |- context [match ?x with _ => _ end] =>
      lazymatch x with context [match _ with _ => _ end] => fail | _ => destruct x eqn:? end
  end.
Ltac splits := repeat (split_step; simplify_eq/=).

(** Turns boolean comparisons on [Z] into propositions. *)
Ltac zbool :=
  repeat match goal with
  | H : (_ <=? _) = true |- _ => apply Z.leb_le in H
  | H : (_ <=? _) = false |- _ => apply Z.leb_gt in H
  | H : (_ <? _) = true |- _ => apply Z.ltb_lt in H
  | H : (_ <? _) = false |- _ => apply Z.ltb_ge in H
  | H : (_ =? _) = true |- _ => apply Z.eqb_eq in H
  | H : (_ =? _) = false |- _ => apply Z.eqb_neq in H
  | H : (_ && _) = true |- _ => apply andb_true_iff in H; destruct H
  | H : (_ || _) = false |- _ => apply orb_false_iff in H; destruct H
  | H : negb _ = true |- _ => apply negb_true_iff in H
  | H : negb _ = false |- _ => apply negb_false_iff in H
  end.

Ltac u_unfold :=
  unfold u8, u64, u128, sat_add64, sat_sub64, sat_sub128, checked_add64,
    checked_sub64, checked_add128, checked_sub128, U8_MAX, U32_MAX, U64_MAX, U128_MAX in *.

(** ** Shared lemmas *)

Lemma wrap64_small (z : Z) : u64 z -> wrap64 z = z.
Proof. u_unfold. intros. apply Z.mod_small. lia. Qed.

Lemma wrap64_bound (z : Z) : u64 (wrap64 z).
Proof. u_unfold. unfold wrap64. pose proof (Z.mod_pos_bound z 18446744073709551616). lia. Qed.

Lemma wrap32_small (z : Z) : 0 <= z <= U32_MAX -> wrap32 z = z.
Proof. u_unfold. intros. apply Z.mod_small. lia. Qed.

Lemma sat_add64_bound (a b : Z) : u64 a -> u64 b -> u64 (sat_add64 a b).
Proof. u_unfold. lia. Qed.

Lemma sat_sub64_bound (a b : Z) : u64 a -> u64 b -> u64 (sat_sub64 a b).
Proof. u_unfold. lia. Qed.

(** Below the largest integer, saturation does not hide an excess. *)
Lemma sat_add64_le (a b l : Z) : l < U64_MAX -> sat_add64 a b <= l <-> a + b <= l.
Proof. u_unfold. lia. Qed.

#[export] Hint Resolve wrap64_bound sat_add64_bound sat_sub64_bound : sol.

(** Binds that return. *)
Lemma result_bind_Ok {E A B} (m : result E A) (f : A -> result E B) b :
  (a ← m; f a) = Ok b -> exists a, m = Ok a /\ f a = Ok b.
Proof. destruct m; cbn; [eauto | discriminate]. Qed.

(** Follows a computation that ended in [Ok] back through its binds and
    branches, keeping their equations. *)
Ltac inv_Ok H :=
  cbn beta zeta in H;
  lazymatch type of H with
  | Err _ = Ok _ => discriminate H
  | Ok _ = Ok _ => apply (f_equal result_ok) in H; cbn in H; injection H as H
  | mbind _ ?m = Ok _ =>
      let a := fresh "a" in let Ha := fresh "Ha" in
      apply result_bind_Ok in H as (a & Ha & H); inv_Ok H
  | match ?x with _ => _ end = Ok _ => destruct x eqn:?; inv_Ok H
  | _ => idtac
  end.

Lemma ok_or_Ok {E A} (o : option A) (e : E) a : ok_or o e = Ok a <-> o = Some a.
Proof. destruct o; cbn; split; congruence. Qed.

Lemma map_err_Ok {E F A} (f : E -> F) (r : result E A) a : map_err f r = Ok a <-> r = Ok a.
Proof. destruct r; cbn; split; congruence. Qed.

Lemma result_ok_Some {E A} (r : result E A) a : result_ok r = Some a <-> r = Ok a.
Proof. destruct r; cbn; split; congruence. Qed.

Lemma option_bind_Some {A B} (m : option A) (f : A -> option B) b :
  (a ← m; f a) = Some b -> exists a, m = Some a /\ f a = Some b.
Proof. destruct m; cbn; [eauto | discriminate]. Qed.

Lemma outcome_bind_Returns {A B} (m : outcome A) (f : A -> outcome B) b :
  (a ← m; f a) = Returns b -> exists a, m = Returns a /\ f a = Returns b.
Proof. destruct m; cbn; [eauto | discriminate]. Qed.

Lemma btree_iter_perm {V} (m : gmap N V) : btree_iter m ≡ₚ map_to_list m.
Proof. apply merge_sort_Permutation. Qed.

Lemma btree_iterZ_perm {V} (m : gmap Z V) : btree_iterZ m ≡ₚ map_to_list m.
Proof. apply merge_sort_Permutation. Qed.

Lemma elem_of_btree_iter {V} (m : gmap N V) k v :
  (k, v) ∈ btree_iter m <-> m !! k = Some v.
Proof. rewrite btree_iter_perm. apply elem_of_map_to_list. Qed.

Lemma elem_of_btree_iterZ {V} (m : gmap Z V) k v :
  (k, v) ∈ btree_iterZ m <-> m !! k = Some v.
Proof. rewrite btree_iterZ_perm. apply elem_of_map_to_list. Qed.

#[global] Instance key_leZ_trans {V} : Transitive (@key_leZ V).
Proof. intros ???. unfold key_leZ. lia. Qed.
#[global] Instance key_leZ_total {V} : Total (@key_leZ V).
Proof. intros ??. unfold key_leZ. lia. Qed.

Lemma btree_iterZ_sorted {V} (m : gmap Z V) : StronglySorted key_leZ (btree_iterZ m).
Proof. apply StronglySorted_merge_sort; apply _. Qed.

Lemma position_Some key l i :
  position key l = Some i -> l !! i = Some key.
Proof.
  revert i. induction l as [|k l IH]; intros i; cbn; [done|].
  destruct (N.eqb_spec k key) as [->|]; [by intros [= <-]|].
  destruct (position key l) eqn:E; cbn; [|done]. intros [= <-]. cbn. auto.
Qed.

Lemma position_is_Some key l : key ∈ l -> is_Some (position key l).
Proof.
  induction l as [|k l IH]; cbn; [by intros ?%not_elem_of_nil|].
  destruct (N.eqb_spec k key); [eauto|].
  rewrite elem_of_cons. intros [->|[i ->]%IH]; [done|eauto].
Qed.

(** Arithmetic modulo [2^64]. *)
Lemma wrap64_add_l (a b : Z) : wrap64 (wrap64 a + b) = wrap64 (a + b).
Proof. apply Zplus_mod_idemp_l. Qed.

Lemma wrap64_add_r (a b : Z) : wrap64 (a + wrap64 b) = wrap64 (a + b).
Proof. apply Zplus_mod_idemp_r. Qed.

Lemma wrap64_sub_l (a b : Z) : wrap64 (wrap64 a - b) = wrap64 (a - b).
Proof. apply Zminus_mod_idemp_l. Qed.

Lemma wrap64_sub_r (a b : Z) : wrap64 (a - wrap64 b) = wrap64 (a - b).
Proof. apply Zminus_mod_idemp_r. Qed.

Lemma wrap64_eq_iff (a b : Z) : wrap64 a = wrap64 b <-> exists q, a = b + q * 18446744073709551616.
Proof.
  unfold wrap64. split.
  - intros H. exists (a / 18446744073709551616 - b / 18446744073709551616).
    pose proof (Z.div_mod a 18446744073709551616). pose proof (Z.div_mod b 18446744073709551616). lia.
  - intros [q ->]. apply Z_mod_plus_full.
Qed.

(** Compares two sums that wrap. *)
Ltac wrap64_eq :=
  rewrite ?wrap64_add_l, ?wrap64_add_r, ?wrap64_sub_l, ?wrap64_sub_r; f_equal; lia.

(** Sums. *)
Lemma zsum_app {A} (f : A -> Z) l1 l2 : zsum f (l1 ++ l2) = zsum f l1 + zsum f l2.
Proof. induction l1 as [|x l1 IH]; cbn; [done|]. rewrite IH. lia. Qed.

#[global] Instance zsum_perm {A} (f : A -> Z) : Proper ((≡ₚ) ==> eq) (zsum f).
Proof. induction 1; cbn; lia. Qed.

Lemma zsum_ext {A} (f g : A -> Z) l : (forall x, x ∈ l -> f x = g x) -> zsum f l = zsum g l.
Proof.
  induction l as [|x l IH]; cbn; [done|]. intros H.
  rewrite (H x), IH; [done| |by left]. intros y Hy. apply H. by right.
Qed.

Lemma zsum_plus {A} (f g : A -> Z) l : zsum (fun x => f x + g x) l = zsum f l + zsum g l.
Proof. induction l as [|x l IH]; cbn; lia. Qed.

Lemma zsum_zero {A} (f : A -> Z) l : (forall x, x ∈ l -> f x = 0) -> zsum f l = 0.
Proof.
  induction l as [|x l IH]; cbn; [done|]. intros H.
  rewrite (H x), IH; [done| |by left]. intros y Hy. apply H. by right.
Qed.

Lemma zsum_nonneg {A} (f : A -> Z) l : (forall x, x ∈ l -> 0 <= f x) -> 0 <= zsum f l.
Proof.
  induction l as [|x l IH]; cbn; [lia|]. intros H.
  pose proof (H x (list_elem_of_here _ _)).
  assert (0 <= zsum f l) by (apply IH; intros y Hy; apply H; by right). lia.
Qed.

Lemma zsum_le {A} (f g : A -> Z) l : (forall x, x ∈ l -> f x <= g x) -> zsum f l <= zsum g l.
Proof.
  induction l as [|x l IH]; cbn; [lia|]. intros H.
  pose proof (H x (list_elem_of_here _ _)).
  assert (zsum f l <= zsum g l) by (apply IH; intros y Hy; apply H; by right). lia.
Qed.

Lemma zsum_fmap {A B} (f : B -> Z) (g : A -> B) l : zsum f (g <$> l) = zsum (fun x => f (g x)) l.
Proof. induction l as [|x l IH]; cbn; [done|]. by rewrite IH. Qed.

(** Sums in either order. *)
Lemma zsum_swap {A B} (f : A -> B -> Z) (l1 : list A) (l2 : list B) :
  zsum (fun x => zsum (f x) l2) l1 = zsum (fun y => zsum (fun x => f x y) l1) l2.
Proof.
  induction l1 as [|x l1 IH]; cbn.
  - symmetry. by apply zsum_zero.
  - rewrite IH. symmetry. apply zsum_plus.
Qed.

Section MapSum.
Context `{Countable K} {A : Type}.
Implicit Types (f : K -> A -> Z) (m : gmap K A).

Lemma msum_empty f : msum f ∅ = 0.
Proof. unfold msum. by rewrite map_to_list_empty. Qed.

Lemma msum_insert_new f m k v : m !! k = None -> msum f (<[k := v]> m) = f k v + msum f m.
Proof. intros Hk. unfold msum. by rewrite map_to_list_insert. Qed.

Lemma msum_delete f m k v : m !! k = Some v -> msum f m = f k v + msum f (delete k m).
Proof.
  intros Hk. rewrite <- (insert_delete_id m k v Hk) at 1.
  apply msum_insert_new, lookup_delete_eq.
Qed.

Lemma msum_insert f m k v :
  msum f (<[k := v]> m) = f k v + msum f m - match m !! k with Some w => f k w | None => 0 end.
Proof.
  destruct (m !! k) as [w|] eqn:Hk.
  - rewrite <- insert_delete_eq, msum_insert_new by apply lookup_delete_eq.
    rewrite (msum_delete f m k w Hk). lia.
  - rewrite msum_insert_new by done. lia.
Qed.

Lemma msum_ext f g m : (forall k v, m !! k = Some v -> f k v = g k v) -> msum f m = msum g m.
Proof. intros Hfg. apply zsum_ext. intros [k v] Hkv%elem_of_map_to_list. by apply Hfg. Qed.

Lemma msum_nonneg f m : (forall k v, m !! k = Some v -> 0 <= f k v) -> 0 <= msum f m.
Proof. intros Hf. apply zsum_nonneg. intros [k v] Hkv%elem_of_map_to_list. by apply Hf. Qed.

Lemma msum_le f g m : (forall k v, m !! k = Some v -> f k v <= g k v) -> msum f m <= msum g m.
Proof. intros Hfg. apply zsum_le. intros [k v] Hkv%elem_of_map_to_list. by apply Hfg. Qed.
End MapSum.
