(* ===== verification/Keys.v ===== *)
(** * Well-known program and sysvar ids

    The ids that the modelled code compares account keys with.  The sources
    write them as base58 literals ([declare_id!]); [b58] reads such a literal
    as the big-endian number of its bytes, the representation of a [Pubkey]
    chosen in Prelude. *)

From Stdlib Require Import Ascii String.
From S2P Require Import Prelude.

Definition b58_alphabet : string :=
  "123456789ABCDEFGHJKLMNPQRSTUVWXYZabcdefghijkmnopqrstuvwxyz"%string.

Fixpoint b58_digit (c : ascii) (alphabet : string) (i : N) : N :=
  match alphabet with
  | EmptyString => 0%N
  | String a rest => if Ascii.eqb a c then i else b58_digit c rest (i + 1)
  end.

Fixpoint b58_acc (acc : N) (s : string) : N :=
  match s with
  | EmptyString => acc
  | String c rest => b58_acc (acc * 58 + b58_digit c b58_alphabet 0) rest
  end.

Definition b58 (s : string) : Pubkey := b58_acc 0 s.

Definition system_program_id : Pubkey :=
  Eval vm_compute in b58 "11111111111111111111111111111111".
Definition bpf_loader_id : Pubkey :=
  Eval vm_compute in b58 "BPFLoader2111111111111111111111111111111111".
Definition bpf_loader_deprecated_id : Pubkey :=
  Eval vm_compute in b58 "BPFLoader1111111111111111111111111111111111".
Definition bpf_loader_upgradeable_id : Pubkey :=
  Eval vm_compute in b58 "BPFLoaderUpgradeab1e11111111111111111111111".
Definition native_loader_id : Pubkey :=
  Eval vm_compute in b58 "NativeLoader1111111111111111111111111111111".
Definition feature_id : Pubkey :=
  Eval vm_compute in b58 "Feature111111111111111111111111111111111111".
Definition incinerator_id : Pubkey :=
  Eval vm_compute in b58 "1nc1nerator11111111111111111111111111111111".
Definition secp256k1_program_id : Pubkey :=
  Eval vm_compute in b58 "KeccakSecp256k11111111111111111111111111111".
Definition ed25519_program_id : Pubkey :=
  Eval vm_compute in b58 "Ed25519SigVerify111111111111111111111111111".
Definition compute_budget_id : Pubkey :=
  Eval vm_compute in b58 "ComputeBudget111111111111111111111111111111".
Definition neon_evm_program_id : Pubkey :=
  Eval vm_compute in b58 "eeLSJgWzzxrqKv1UxtRVVH8FX3qCQWUs9QuAjJpETGU".
Definition stake_config_id : Pubkey :=
  Eval vm_compute in b58 "StakeConfig11111111111111111111111111111111".
Definition stake_program_id : Pubkey :=
  Eval vm_compute in b58 "Stake11111111111111111111111111111111111111".
Definition config_program_id : Pubkey :=
  Eval vm_compute in b58 "Config1111111111111111111111111111111111111".
Definition vote_program_id : Pubkey :=
  Eval vm_compute in b58 "Vote111111111111111111111111111111111111111".
Definition spl_token_id : Pubkey :=
  Eval vm_compute in b58 "TokenkegQfeZyiNwAJbNbGKPFXCWuBvf9Ss623VQ5DA".
(** [sysvar::id()], the owner of sysvars. *)
Definition sysvar_program_id : Pubkey :=
  Eval vm_compute in b58 "Sysvar1111111111111111111111111111111111111".
Definition sysvar_instructions_id : Pubkey :=
  Eval vm_compute in b58 "Sysvar1nstructions1111111111111111111111111".

Definition sysvar_clock_id : Pubkey :=
  Eval vm_compute in b58 "SysvarC1ock11111111111111111111111111111111".
Definition sysvar_rent_id : Pubkey :=
  Eval vm_compute in b58 "SysvarRent111111111111111111111111111111111".
Definition sysvar_slot_hashes_id : Pubkey :=
  Eval vm_compute in b58 "SysvarS1otHashes111111111111111111111111111".
Definition sysvar_recent_blockhashes_id : Pubkey :=
  Eval vm_compute in b58 "SysvarRecentB1ockHashes11111111111111111111".
Definition sysvar_stake_history_id : Pubkey :=
  Eval vm_compute in b58 "SysvarStakeHistory1111111111111111111111111".

(** [sysvar::ALL_IDS]. *)
Definition ALL_IDS : list Pubkey := Eval vm_compute in
  [ sysvar_clock_id;
    b58 "SysvarEpochSchedu1e111111111111111111111111";
    b58 "SysvarFees111111111111111111111111111111111";
    sysvar_recent_blockhashes_id;
    sysvar_rent_id;
    b58 "SysvarRewards111111111111111111111111111111";
    sysvar_slot_hashes_id;
    b58 "SysvarS1otHistory11111111111111111111111111";
    sysvar_stake_history_id;
    sysvar_instructions_id ].

(** [sysvar::is_sysvar_id]. *)
Definition is_sysvar_id (id : Pubkey) : bool := existsb (N.eqb id) ALL_IDS.

(** [legacy::BUILTIN_PROGRAMS_KEYS]. *)
Definition BUILTIN_PROGRAMS_KEYS : list Pubkey :=
  [ config_program_id; feature_id; native_loader_id; stake_program_id; stake_config_id;
    vote_program_id; system_program_id; bpf_loader_id; bpf_loader_deprecated_id;
    bpf_loader_upgradeable_id ].
