(* ===== verification/Message.v ===== *)
(** * Transaction messages

    Models sdk/program/src/message: the legacy and v0 messages, the key
    compiler ([compiled_keys.rs]), [AccountKeys], [SanitizedMessage] and the
    [Sanitize] checks.

    Indices and vector lengths are [nat] ([usize] and [u8] in the sources);
    lengths of vectors in memory never reach [2^64], so [saturating_add] on
    them is [+].  Where the source indexes a slice or unwraps, the definition
    returns an [outcome]. *)

From S2P Require Import Prelude Keys.

(** ** Data *)

Record MessageHeader := {
  num_required_signatures : nat;
  num_readonly_signed_accounts : nat;
  num_readonly_unsigned_accounts : nat;
}.

Record AccountMeta := {
  am_pubkey : Pubkey;
  am_is_signer : bool;
  am_is_writable : bool;
}.

(** [AccountMeta::new] and [AccountMeta::new_readonly]. *)
Definition account_meta_new (pubkey : Pubkey) (is_signer : bool) : AccountMeta :=
  {| am_pubkey := pubkey; am_is_signer := is_signer; am_is_writable := true |}.
Definition account_meta_new_readonly (pubkey : Pubkey) (is_signer : bool) : AccountMeta :=
  {| am_pubkey := pubkey; am_is_signer := is_signer; am_is_writable := false |}.

Record Instruction := {
  ix_program_id : Pubkey;
  ix_accounts : list AccountMeta;
  ix_data : list Z;
}.

Record CompiledInstruction := {
  program_id_index : nat;
  ci_accounts : list nat;
  ci_data : list Z;
}.

Record LegacyMessage := {
  lm_header : MessageHeader;
  lm_account_keys : list Pubkey;
  lm_recent_blockhash : Hash;
  lm_instructions : list CompiledInstruction;
}.

Record MessageAddressTableLookup := {
  atl_account_key : Pubkey;
  atl_writable_indexes : list nat;
  atl_readonly_indexes : list nat;
}.

Record V0Message := {
  v0_header : MessageHeader;
  v0_account_keys : list Pubkey;
  v0_recent_blockhash : Hash;
  v0_instructions : list CompiledInstruction;
  v0_address_table_lookups : list MessageAddressTableLookup;
}.

Record LoadedAddresses := {
  la_writable : list Pubkey;
  la_readonly : list Pubkey;
}.

Record LoadedMessage := {
  lo_message : V0Message;
  lo_loaded_addresses : LoadedAddresses;
}.

Inductive SanitizedMessage :=
| SanitizedLegacy (message : LegacyMessage)
| SanitizedV0 (message : LoadedMessage).

Inductive VersionedMessage :=
| VersionedLegacy (message : LegacyMessage)
| VersionedV0 (message : V0Message).

Inductive SanitizeError := IndexOutOfBounds | ValueOutOfBounds | InvalidValue.

(** ** Account keys *)

Record AccountKeys := {
  static_keys : list Pubkey;
  dynamic_keys : option LoadedAddresses;
}.

Definition key_segment_iter (ak : AccountKeys) : list (list Pubkey) :=
  match dynamic_keys ak with
  | Some dyn => [static_keys ak; la_writable dyn; la_readonly dyn]
  | None => [static_keys ak; []; []]
  end.

(** The loop of [AccountKeys::get] over the segments. *)
Fixpoint account_keys_get_loop (segments : list (list Pubkey)) (index : nat) : option Pubkey :=
  match segments with
  | [] => None
  | seg :: rest =>
      if (index <? length seg)%nat then seg !! index
      else account_keys_get_loop rest (index - length seg)
  end.

Definition account_keys_get (ak : AccountKeys) (index : nat) : option Pubkey :=
  account_keys_get_loop (key_segment_iter ak) index.

Definition account_keys_len (ak : AccountKeys) : nat :=
  fold_left (fun len seg => (len + length seg)%nat) (key_segment_iter ak) 0%nat.

Definition account_keys_iter (ak : AccountKeys) : list Pubkey :=
  concat (key_segment_iter ak).

(** ** Legacy messages *)

(** [position(keys, key)]: panics when the key is absent, truncates to [u8]. *)
Definition key_position (keys : list Pubkey) (key : Pubkey) : outcome nat :=
  i ← unwrap (position key keys); Returns (i mod 256)%nat.

(** Maps a function that may panic over a slice. *)
Fixpoint map_outcome {A B} (f : A -> outcome B) (l : list A) : outcome (list B) :=
  match l with
  | [] => Returns []
  | x :: rest => y ← f x; ys ← map_outcome f rest; Returns (y :: ys)
  end.

Definition compile_instruction (keys : list Pubkey) (ix : Instruction) : outcome CompiledInstruction :=
  accounts ← map_outcome (fun m => key_position keys (am_pubkey m)) (ix_accounts ix);
  program_id_index ← key_position keys (ix_program_id ix);
  Returns {| program_id_index := program_id_index; ci_accounts := accounts; ci_data := ix_data ix |}.

Definition compile_instructions (ixs : list Instruction) (keys : list Pubkey)
    : outcome (list CompiledInstruction) :=
  map_outcome (compile_instruction keys) ixs.

(** The loop of [Sanitize for Message] over the compiled instructions. *)
Fixpoint legacy_sanitize_instructions (len : nat) (cis : list CompiledInstruction)
    : result SanitizeError unit :=
  match cis with
  | [] => Ok tt
  | ci :: rest =>
      if (len <=? program_id_index ci)%nat then Err IndexOutOfBounds
      else if (program_id_index ci =? 0)%nat then Err IndexOutOfBounds
      else if existsb (fun ai => len <=? ai)%nat (ci_accounts ci) then Err IndexOutOfBounds
      else legacy_sanitize_instructions len rest
  end.

(** The [sanitize] of keys, hash and compiled instructions is the trait's
    default, which always succeeds. *)
Definition legacy_sanitize (m : LegacyMessage) : result SanitizeError unit :=
  if (length (lm_account_keys m)
      <? num_required_signatures (lm_header m) + num_readonly_unsigned_accounts (lm_header m))%nat
  then Err IndexOutOfBounds
  else if (num_required_signatures (lm_header m) <=? num_readonly_signed_accounts (lm_header m))%nat
  then Err IndexOutOfBounds
  else legacy_sanitize_instructions (length (lm_account_keys m)) (lm_instructions m).

Definition legacy_is_key_passed_to_program (m : LegacyMessage) (key_index : nat) : bool :=
  if (key_index <? 256)%nat
  then existsb (fun ix => existsb (Nat.eqb key_index) (ci_accounts ix)) (lm_instructions m)
  else false.

Definition legacy_is_key_called_as_program (m : LegacyMessage) (key_index : nat) : bool :=
  if (key_index <? 256)%nat
  then existsb (fun ix => program_id_index ix =? key_index)%nat (lm_instructions m)
  else false.

Definition legacy_is_upgradeable_loader_present (m : LegacyMessage) : bool :=
  existsb (fun key => N.eqb key bpf_loader_upgradeable_id) (lm_account_keys m).

(** [Message::is_writable]: the [u8] and [usize] subtractions wrap, and the
    key is read only when the index is in one of the writable ranges. *)
Definition legacy_is_writable (m : LegacyMessage) (i : nat) : outcome bool :=
  let h := lm_header m in
  let demote_program_id :=
    legacy_is_key_called_as_program m i && negb (legacy_is_upgradeable_loader_present m) in
  let in_range :=
    (Z.of_nat i <? wrap8 (Z.of_nat (num_required_signatures h)
                          - Z.of_nat (num_readonly_signed_accounts h)))
    || ((Z.of_nat (num_required_signatures h) <=? Z.of_nat i)
        && (Z.of_nat i <? wrap64 (Z.of_nat (length (lm_account_keys m))
                                  - Z.of_nat (num_readonly_unsigned_accounts h)))) in
  if in_range then
    key ← unwrap (lm_account_keys m !! i);
    Returns (negb (is_sysvar_id key || existsb (N.eqb key) BUILTIN_PROGRAMS_KEYS)
             && negb demote_program_id)
  else Returns false.

(** [Message::has_duplicates]: the quadratic scan. *)
Definition legacy_has_duplicates (m : LegacyMessage) : bool :=
  let keys := lm_account_keys m in
  existsb (fun i => match keys !! (i - 1)%nat with
                    | Some k => existsb (N.eqb k) (drop i keys)
                    | None => false
                    end)
    (seq 1 (length keys - 1)).

(** ** Loaded v0 messages *)

Definition v0_account_keys_all (m : LoadedMessage) : AccountKeys :=
  {| static_keys := v0_account_keys (lo_message m);
     dynamic_keys := Some (lo_loaded_addresses m) |}.

(** [LoadedMessage::has_duplicates]: the scan with a [HashSet]. *)
Fixpoint any_seen (seen : gset N) (keys : list Pubkey) : bool :=
  match keys with
  | [] => false
  | k :: rest => if bool_decide (k ∈ seen) then true else any_seen ({[k]} ∪ seen) rest
  end.

Definition v0_has_duplicates (m : LoadedMessage) : bool :=
  any_seen ∅ (account_keys_iter (v0_account_keys_all m)).

Definition v0_is_key_called_as_program (m : LoadedMessage) (key_index : nat) : bool :=
  if (key_index <? 256)%nat
  then existsb (fun ix => program_id_index ix =? key_index)%nat (v0_instructions (lo_message m))
  else false.

Definition v0_is_upgradeable_loader_present (m : LoadedMessage) : bool :=
  existsb (fun key => N.eqb key bpf_loader_upgradeable_id)
    (account_keys_iter (v0_account_keys_all m)).

Definition v0_is_writable_index (m : LoadedMessage) (key_index : nat) : bool :=
  let header := v0_header (lo_message m) in
  let num_account_keys := length (v0_account_keys (lo_message m)) in
  let num_signed_accounts := num_required_signatures header in
  if (num_account_keys <=? key_index)%nat then
    (key_index - num_account_keys <? length (la_writable (lo_loaded_addresses m)))%nat
  else if (num_signed_accounts <=? key_index)%nat then
    let num_unsigned_accounts := (num_account_keys - num_signed_accounts)%nat in
    let num_writable_unsigned_accounts :=
      (num_unsigned_accounts - num_readonly_unsigned_accounts header)%nat in
    (key_index - num_signed_accounts <? num_writable_unsigned_accounts)%nat
  else
    (key_index <? num_signed_accounts - num_readonly_signed_accounts header)%nat.

Definition v0_is_writable (m : LoadedMessage) (key_index : nat) : bool :=
  if v0_is_writable_index m key_index then
    match account_keys_get (v0_account_keys_all m) key_index with
    | Some key =>
        let demote_program_id :=
          v0_is_key_called_as_program m key_index
          && negb (v0_is_upgradeable_loader_present m) in
        negb (is_sysvar_id key || existsb (N.eqb key) BUILTIN_PROGRAMS_KEYS || demote_program_id)
    | None => false
    end
  else false.

(** The loop of [v0::Message::sanitize] over the table lookups. *)
Fixpoint v0_total_lookup_keys (total : nat) (ls : list MessageAddressTableLookup)
    : result SanitizeError nat :=
  match ls with
  | [] => Ok total
  | l :: rest =>
      let n := (length (atl_writable_indexes l) + length (atl_readonly_indexes l))%nat in
      if (n =? 0)%nat then Err InvalidValue else v0_total_lookup_keys (total + n) rest
  end.

Fixpoint v0_sanitize_instructions (max_program_id_ix max_account_ix : nat)
    (cis : list CompiledInstruction) : result SanitizeError unit :=
  match cis with
  | [] => Ok tt
  | ci :: rest =>
      if (max_program_id_ix <? program_id_index ci)%nat then Err IndexOutOfBounds
      else if (program_id_index ci =? 0)%nat then Err IndexOutOfBounds
      else if existsb (fun ai => max_account_ix <? ai)%nat (ci_accounts ci)
      then Err IndexOutOfBounds
      else v0_sanitize_instructions max_program_id_ix max_account_ix rest
  end.

Definition v0_sanitize (m : V0Message) (reject_dynamic_program_ids : bool)
    : result SanitizeError unit :=
  let header := v0_header m in
  let num_static := length (v0_account_keys m) in
  if (num_static <? num_required_signatures header + num_readonly_unsigned_accounts header)%nat
  then Err IndexOutOfBounds
  else if (num_required_signatures header <=? num_readonly_signed_accounts header)%nat
  then Err InvalidValue
  else
    num_dynamic ← v0_total_lookup_keys 0 (v0_address_table_lookups m);
    if (num_static =? 0)%nat then Err InvalidValue
    else
      let total := (num_static + num_dynamic)%nat in
      if (256 <? total)%nat then Err IndexOutOfBounds
      else
        let max_account_ix := (total - 1)%nat in
        let max_program_id_ix :=
          if reject_dynamic_program_ids then (num_static - 1)%nat else max_account_ix in
        v0_sanitize_instructions max_program_id_ix max_account_ix (v0_instructions m).

(** ** Sanitized messages *)

Definition versioned_sanitize (m : VersionedMessage) (require_static_program_ids : bool)
    : result SanitizeError unit :=
  match m with
  | VersionedLegacy m => legacy_sanitize m
  | VersionedV0 m => v0_sanitize m require_static_program_ids
  end.

Definition message_has_duplicates (m : SanitizedMessage) : bool :=
  match m with
  | SanitizedLegacy m => legacy_has_duplicates m
  | SanitizedV0 m => v0_has_duplicates m
  end.

Definition message_header (m : SanitizedMessage) : MessageHeader :=
  match m with
  | SanitizedLegacy m => lm_header m
  | SanitizedV0 m => v0_header (lo_message m)
  end.

Definition message_recent_blockhash (m : SanitizedMessage) : Hash :=
  match m with
  | SanitizedLegacy m => lm_recent_blockhash m
  | SanitizedV0 m => v0_recent_blockhash (lo_message m)
  end.

Definition message_instructions (m : SanitizedMessage) : list CompiledInstruction :=
  match m with
  | SanitizedLegacy m => lm_instructions m
  | SanitizedV0 m => v0_instructions (lo_message m)
  end.

Definition message_account_keys (m : SanitizedMessage) : AccountKeys :=
  match m with
  | SanitizedLegacy m => {| static_keys := lm_account_keys m; dynamic_keys := None |}
  | SanitizedV0 m => v0_account_keys_all m
  end.

(** [program_instructions_iter]: each instruction with its program id; a
    program index out of range panics. *)
Definition program_instructions_iter (m : SanitizedMessage)
    : outcome (list (Pubkey * CompiledInstruction)) :=
  map_outcome (fun ix =>
      program_id ← unwrap (account_keys_get (message_account_keys m) (program_id_index ix));
      Returns (program_id, ix)) (message_instructions m).

Definition message_is_key_passed_to_program (m : SanitizedMessage) (key_index : nat) : bool :=
  if (key_index <? 256)%nat
  then existsb (fun ix => existsb (Nat.eqb key_index) (ci_accounts ix)) (message_instructions m)
  else false.

Definition message_is_invoked (m : SanitizedMessage) (key_index : nat) : bool :=
  match m with
  | SanitizedLegacy m => legacy_is_key_called_as_program m key_index
  | SanitizedV0 m => v0_is_key_called_as_program m key_index
  end.

Definition message_is_non_loader_key (m : SanitizedMessage) (key_index : nat) : bool :=
  negb (message_is_invoked m key_index) || message_is_key_passed_to_program m key_index.

Definition message_is_writable (m : SanitizedMessage) (index : nat) : outcome bool :=
  match m with
  | SanitizedLegacy m => legacy_is_writable m index
  | SanitizedV0 m => Returns (v0_is_writable m index)
  end.

Definition message_is_signer (m : SanitizedMessage) (index : nat) : bool :=
  (index <? num_required_signatures (message_header m))%nat.

Definition message_num_readonly_accounts (m : SanitizedMessage) : nat :=
  let loaded_readonly_addresses :=
    match m with
    | SanitizedV0 m => length (la_readonly (lo_loaded_addresses m))
    | SanitizedLegacy _ => 0%nat
    end in
  (loaded_readonly_addresses + num_readonly_signed_accounts (message_header m)
   + num_readonly_unsigned_accounts (message_header m))%nat.

Definition message_is_upgradeable_loader_present (m : SanitizedMessage) : bool :=
  match m with
  | SanitizedLegacy m => legacy_is_upgradeable_loader_present m
  | SanitizedV0 m => v0_is_upgradeable_loader_present m
  end.

(** ** Key compilation *)

Record CompiledKeyMeta := { ck_is_signer : bool; ck_is_writable : bool }.

Record CompiledKeys := {
  writable_signer_keys : list Pubkey;
  readonly_signer_keys : list Pubkey;
  writable_non_signer_keys : list Pubkey;
  readonly_non_signer_keys : list Pubkey;
}.

Definition default_key_meta : CompiledKeyMeta :=
  {| ck_is_signer := false; ck_is_writable := false |}.

(** [key_meta_map.entry(key).or_default()], then [|=] on both flags. *)
Definition merge_key_meta (m : gmap N CompiledKeyMeta) (key : Pubkey) (is_signer is_writable : bool)
    : gmap N CompiledKeyMeta :=
  let meta := default default_key_meta (m !! key) in
  <[key := {| ck_is_signer := ck_is_signer meta || is_signer;
              ck_is_writable := ck_is_writable meta || is_writable |}]> m.

Definition compile_key_meta (m : gmap N CompiledKeyMeta) (ix : Instruction) : gmap N CompiledKeyMeta :=
  fold_left (fun m am => merge_key_meta m (am_pubkey am) (am_is_signer am) (am_is_writable am))
    (ix_accounts ix) (merge_key_meta m (ix_program_id ix) false false).

Definition key_meta_map (instructions : list Instruction) (payer : option Pubkey)
    : gmap N CompiledKeyMeta :=
  let m := fold_left compile_key_meta instructions ∅ in
  match payer with Some p => delete p m | None => m end.

(** The keys an instruction names: its program and its accounts. *)
Definition instruction_keys (ix : Instruction) : list Pubkey :=
  ix_program_id ix :: map am_pubkey (ix_accounts ix).

Definition keys_with (is_signer is_writable : bool) (m : gmap N CompiledKeyMeta) : list Pubkey :=
  (List.filter (fun p => Bool.eqb (ck_is_signer p.2) is_signer
                && Bool.eqb (ck_is_writable p.2) is_writable) (btree_iter m)).*1.

Definition compile_keys (instructions : list Instruction) (payer : option Pubkey) : CompiledKeys :=
  let m := key_meta_map instructions payer in
  {| writable_signer_keys := option_list payer ++ keys_with true true m;
     readonly_signer_keys := keys_with true false m;
     writable_non_signer_keys := keys_with false true m;
     readonly_non_signer_keys := keys_with false false m |}.

#[global] Arguments compile_keys : simpl never.
#[global] Arguments key_meta_map : simpl never.

Definition try_into_message_components (ck : CompiledKeys)
    : option (MessageHeader * list Pubkey) :=
  num_required ← u8_try_from (length (writable_signer_keys ck) + length (readonly_signer_keys ck));
  num_ro_signed ← u8_try_from (length (readonly_signer_keys ck));
  num_ro_unsigned ← u8_try_from (length (readonly_non_signer_keys ck));
  Some ({| num_required_signatures := Z.to_nat num_required;
           num_readonly_signed_accounts := Z.to_nat num_ro_signed;
           num_readonly_unsigned_accounts := Z.to_nat num_ro_unsigned |},
        writable_signer_keys ck ++ readonly_signer_keys ck
        ++ writable_non_signer_keys ck ++ readonly_non_signer_keys ck).

(** [Message::new_with_blockhash]. *)
Definition legacy_new_with_blockhash (instructions : list Instruction) (payer : option Pubkey)
    (blockhash : Hash) : outcome LegacyMessage :=
  '(header, account_keys) ← unwrap (try_into_message_components (compile_keys instructions payer));
  cis ← compile_instructions instructions account_keys;
  Returns {| lm_header := header; lm_account_keys := account_keys;
             lm_recent_blockhash := blockhash; lm_instructions := cis |}.

(** [Message::new]. *)
Definition legacy_new (instructions : list Instruction) (payer : option Pubkey)
    : outcome LegacyMessage :=
  legacy_new_with_blockhash instructions payer 0%N.

(** ** Account key lookup *)

Lemma account_keys_get_loop_concat segs i :
  account_keys_get_loop segs i = concat segs !! i.
Proof.
  revert i. induction segs as [|seg segs IH]; intros i; cbn; [done|].
  destruct (Nat.ltb_spec i (length seg)).
  - by rewrite lookup_app_l.
  - by rewrite lookup_app_r, IH.
Qed.

Lemma account_keys_get_iter ak i : account_keys_get ak i = account_keys_iter ak !! i.
Proof. apply account_keys_get_loop_concat. Qed.

Lemma account_keys_len_iter ak : account_keys_len ak = length (account_keys_iter ak).
Proof.
  unfold account_keys_len, account_keys_iter, key_segment_iter.
  destruct (dynamic_keys ak); cbn; rewrite ?length_app; cbn; lia.
Qed.

(** ** Duplicate keys *)

Lemma existsb_eqb_elem k l : existsb (N.eqb k) l = bool_decide (k ∈ l).
Proof.
  induction l as [|x l IH]; cbn; [done|]. rewrite IH.
  destruct (N.eqb_spec k x); cbn.
  - symmetry. apply bool_decide_eq_true. set_solver.
  - apply bool_decide_ext. set_solver.
Qed.

Lemma legacy_scan_spec keys n :
  existsb (fun i => match keys !! (i - 1)%nat with
                    | Some k => existsb (N.eqb k) (drop i keys)
                    | None => false
                    end) (seq (S n) (length keys - S n)) = negb (bool_decide (NoDup (drop n keys))).
Proof.
  remember (length keys - S n)%nat as d eqn:Hd. revert n Hd.
  induction d as [|d IH]; intros n Hd; cbn [seq existsb].
  - assert (length (drop n keys) <= 1)%nat by (rewrite length_drop; lia).
    destruct (drop n keys) as [|x [|y l]]; cbn in *; [done| |lia].
    rewrite bool_decide_true; [done|]. apply NoDup_singleton.
  - rewrite IH by lia. replace (S n - 1)%nat with n by lia.
    destruct (keys !! n) as [k|] eqn:E; [|apply lookup_ge_None in E; lia].
    rewrite (drop_S _ _ _ E), existsb_eqb_elem.
    repeat case_bool_decide; cbn; rewrite ?NoDup_cons in *; naive_solver.
Qed.

Lemma legacy_has_duplicates_spec m :
  legacy_has_duplicates m = negb (bool_decide (NoDup (lm_account_keys m))).
Proof. unfold legacy_has_duplicates. by rewrite (legacy_scan_spec _ 0). Qed.

Lemma any_seen_false seen keys :
  any_seen seen keys = false <-> NoDup keys /\ forall k, k ∈ keys -> k ∉ seen.
Proof.
  revert seen. induction keys as [|k keys IH]; intros seen; cbn.
  - split; [|done]. split; [constructor|set_solver].
  - rewrite NoDup_cons. case_bool_decide as Hk; [set_solver|].
    rewrite IH. set_solver.
Qed.

Lemma v0_has_duplicates_spec m :
  v0_has_duplicates m = negb (bool_decide (NoDup (account_keys_iter (v0_account_keys_all m)))).
Proof.
  unfold v0_has_duplicates. pose proof (any_seen_false ∅ (account_keys_iter (v0_account_keys_all m))).
  destruct (any_seen _ _); case_bool_decide; set_solver.
Qed.

(** ** Writability *)

Definition header_u8 (h : MessageHeader) : Prop :=
  (num_required_signatures h <= 255 /\ num_readonly_signed_accounts h <= 255
   /\ num_readonly_unsigned_accounts h <= 255)%nat.

(** On a sanitized legacy message the index arithmetic of [is_writable]
    neither wraps nor leaves the key vector. *)
Lemma legacy_is_writable_returns m i :
  header_u8 (lm_header m) -> legacy_sanitize m = Ok tt ->
  Z.of_nat (length (lm_account_keys m)) <= U64_MAX ->
  legacy_is_writable m i =
    Returns (match lm_account_keys m !! i with
             | Some key =>
                 ((i <? num_required_signatures (lm_header m)
                        - num_readonly_signed_accounts (lm_header m))
                  || ((num_required_signatures (lm_header m) <=? i)
                      && (i <? length (lm_account_keys m)
                               - num_readonly_unsigned_accounts (lm_header m))))%nat
                 && negb (is_sysvar_id key || existsb (N.eqb key) BUILTIN_PROGRAMS_KEYS)
                 && negb (legacy_is_key_called_as_program m i
                          && negb (legacy_is_upgradeable_loader_present m))
             | None => false
             end).
Proof.
  intros Hu Hs Hlen. unfold legacy_sanitize in Hs. unfold header_u8 in Hu.
  destruct m as [[req ros rou] keys bh ixs]; cbn in *. unfold legacy_is_writable; cbn.
  destruct (Nat.ltb_spec (length keys) (req + rou)); [done|].
  destruct (Nat.leb_spec req ros); [done|]. clear Hs. u_unfold. unfold wrap8, wrap64.
  rewrite !Z.mod_small by lia.
  replace (Z.of_nat i <? Z.of_nat req - Z.of_nat ros) with (i <? req - ros)%nat
    by (apply eq_bool_prop_intro; rewrite !Is_true_true, Nat.ltb_lt, Z.ltb_lt; lia).
  replace (Z.of_nat req <=? Z.of_nat i) with (req <=? i)%nat
    by (apply eq_bool_prop_intro; rewrite !Is_true_true, Nat.leb_le, Z.leb_le; lia).
  replace (Z.of_nat i <? Z.of_nat (length keys) - Z.of_nat rou) with (i <? length keys - rou)%nat
    by (apply eq_bool_prop_intro; rewrite !Is_true_true, Nat.ltb_lt, Z.ltb_lt; lia).
  destruct (keys !! i) as [key|] eqn:E; cbn.
  - destruct (_ || _); cbn; [|done]. done.
  - apply lookup_ge_None in E.
    destruct (Nat.ltb_spec i (req - ros)); [lia|]; cbn.
    destruct (Nat.ltb_spec i (length keys - rou)); [lia|]. by rewrite andb_false_r.
Qed.

(** ** Key compilation *)

Lemma keys_with_partition (l : list (N * CompiledKeyMeta)) :
  l ≡ₚ List.filter (fun p => Bool.eqb (ck_is_signer p.2) true && Bool.eqb (ck_is_writable p.2) true) l
    ++ List.filter (fun p => Bool.eqb (ck_is_signer p.2) true && Bool.eqb (ck_is_writable p.2) false) l
    ++ List.filter (fun p => Bool.eqb (ck_is_signer p.2) false && Bool.eqb (ck_is_writable p.2) true) l
    ++ List.filter (fun p => Bool.eqb (ck_is_signer p.2) false && Bool.eqb (ck_is_writable p.2) false) l.
Proof.
  induction l as [|[k [[] []]] l IH]; [done|..]; cbn; rewrite IH at 1; solve_Permutation.
Qed.

(** The four groups of keys list exactly the keys of the map, once each. *)
Lemma keys_with_all m :
  keys_with true true m ++ keys_with true false m ++ keys_with false true m
    ++ keys_with false false m ≡ₚ (map_to_list m).*1.
Proof. unfold keys_with. rewrite <- !fmap_app, <- keys_with_partition. by rewrite btree_iter_perm. Qed.

Definition compiled_list (ck : CompiledKeys) : list Pubkey :=
  writable_signer_keys ck ++ readonly_signer_keys ck
  ++ writable_non_signer_keys ck ++ readonly_non_signer_keys ck.

Lemma compiled_list_perm ixs p :
  compiled_list (compile_keys ixs (Some p)) ≡ₚ p :: (map_to_list (key_meta_map ixs (Some p))).*1.
Proof. unfold compiled_list, compile_keys; cbn. by rewrite keys_with_all. Qed.

Lemma compiled_list_head ixs p : compiled_list (compile_keys ixs (Some p)) !! 0%nat = Some p.
Proof. done. Qed.

Lemma compiled_list_NoDup ixs p : NoDup (compiled_list (compile_keys ixs (Some p))).
Proof.
  rewrite compiled_list_perm. apply NoDup_cons. split; [|apply NoDup_fst_map_to_list].
  intros ([k meta] & -> & Hin)%list_elem_of_fmap. apply elem_of_map_to_list in Hin.
  unfold key_meta_map in Hin. by rewrite lookup_delete_eq in Hin.
Qed.

Lemma compiled_list_length ixs p :
  length (compiled_list (compile_keys ixs (Some p))) = S (size (key_meta_map ixs (Some p))).
Proof. rewrite compiled_list_perm. cbn. by rewrite length_fmap, length_map_to_list. Qed.

(** Merging never forgets a key. *)
Lemma merge_key_meta_mono m k s w k' :
  is_Some (m !! k') -> is_Some (merge_key_meta m k s w !! k').
Proof.
  intros H. unfold merge_key_meta.
  destruct (decide (k = k')) as [->|]; [rewrite lookup_insert_eq|rewrite lookup_insert_ne]; eauto.
Qed.

Lemma merge_key_meta_here m k s w : is_Some (merge_key_meta m k s w !! k).
Proof. unfold merge_key_meta. rewrite lookup_insert_eq. eauto. Qed.

Lemma fold_merge_mono ams m k' :
  is_Some (m !! k') ->
  is_Some (fold_left (fun m am => merge_key_meta m (am_pubkey am) (am_is_signer am)
                                    (am_is_writable am)) ams m !! k').
Proof. revert m. induction ams; intros m H; cbn; [done|]. by apply IHams, merge_key_meta_mono. Qed.

Lemma compile_key_meta_mono ixs m k' :
  is_Some (m !! k') -> is_Some (fold_left compile_key_meta ixs m !! k').
Proof.
  revert m. induction ixs; intros m H; cbn; [done|].
  by apply IHixs, fold_merge_mono, merge_key_meta_mono.
Qed.

Lemma compile_key_meta_program m ix : is_Some (compile_key_meta m ix !! ix_program_id ix).
Proof. apply fold_merge_mono, merge_key_meta_here. Qed.

Lemma compile_key_meta_account m ix am :
  am ∈ ix_accounts ix -> is_Some (compile_key_meta m ix !! am_pubkey am).
Proof.
  unfold compile_key_meta. generalize (merge_key_meta m (ix_program_id ix) false false).
  induction (ix_accounts ix) as [|a l IH]; intros m'; cbn; [by intros ?%not_elem_of_nil|].
  rewrite elem_of_cons. intros [->|H]; [apply fold_merge_mono, merge_key_meta_here|by apply IH].
Qed.

(** Every key an instruction names is among the compiled keys. *)
Lemma compiled_list_complete ixs p ix k :
  ix ∈ ixs -> (k = ix_program_id ix \/ exists am, am ∈ ix_accounts ix /\ k = am_pubkey am) ->
  k ∈ compiled_list (compile_keys ixs (Some p)).
Proof.
  intros Hix Hk. rewrite compiled_list_perm, elem_of_cons.
  destruct (decide (k = p)) as [|Hne]; [by left|right].
  assert (is_Some (fold_left compile_key_meta ixs ∅ !! k)) as [meta Hmeta].
  { apply list_elem_of_split in Hix as (l1 & l2 & ->). rewrite fold_left_app. cbn.
    apply compile_key_meta_mono.
    destruct Hk as [->|(am & Ham & ->)];
      [apply compile_key_meta_program|by apply compile_key_meta_account]. }
  apply list_elem_of_fmap. exists (k, meta). split; [done|]. apply elem_of_map_to_list.
  unfold key_meta_map. by rewrite lookup_delete_ne.
Qed.

Lemma map_outcome_Forall2 {A B} (f : A -> outcome B) (P : A -> B -> Prop) l :
  (forall x, x ∈ l -> exists y, f x = Returns y /\ P x y) ->
  exists ys, map_outcome f l = Returns ys /\ Forall2 P l ys.
Proof.
  induction l as [|x l IH]; intros H; [by exists []; split; [|constructor]|].
  destruct (H x) as (y & Hy & HP); [set_solver|].
  destruct IH as (ys & Hys & HPs); [intros; apply H; set_solver|].
  exists (y :: ys). split; [cbn; by rewrite Hy; cbn; rewrite Hys|by constructor].
Qed.

(** [compile_instruction] resolves every key to an index that holds it. *)
Definition compiled_as (keys : list Pubkey) (ix : Instruction) (ci : CompiledInstruction) : Prop :=
  keys !! program_id_index ci = Some (ix_program_id ix)
  /\ Forall2 (fun am i => keys !! i = Some (am_pubkey am)) (ix_accounts ix) (ci_accounts ci)
  /\ ci_data ci = ix_data ix.

Lemma key_position_returns keys k :
  k ∈ keys -> (length keys <= 256)%nat ->
  exists i, key_position keys k = Returns i /\ keys !! i = Some k.
Proof.
  intros [i Hi]%position_is_Some Hlen. unfold key_position. rewrite Hi; cbn.
  apply position_Some in Hi. pose proof (lookup_lt_Some _ _ _ Hi).
  rewrite Nat.mod_small by lia. eauto.
Qed.

Lemma compile_instruction_returns keys ix :
  ix_program_id ix ∈ keys -> (forall am, am ∈ ix_accounts ix -> am_pubkey am ∈ keys) ->
  (length keys <= 256)%nat ->
  exists ci, compile_instruction keys ix = Returns ci /\ compiled_as keys ix ci.
Proof.
  intros Hp Ha Hlen.
  destruct (map_outcome_Forall2 (fun m => key_position keys (am_pubkey m))
              (fun am i => keys !! i = Some (am_pubkey am)) (ix_accounts ix)) as (idxs & His & Hf).
  { intros am Ham. by apply key_position_returns; [apply Ha|]. }
  destruct (key_position_returns keys (ix_program_id ix)) as (i & Hi & Hk); [done..|].
  unfold compile_instruction. rewrite His; cbn. rewrite Hi; cbn. eexists; split; [done|].
  split; [done|]. by split.
Qed.

Lemma legacy_sanitize_instructions_ok len cis :
  Forall (fun ci => (0 < program_id_index ci < len)%nat
                    /\ Forall (fun i => i < len)%nat (ci_accounts ci)) cis ->
  legacy_sanitize_instructions len cis = Ok tt.
Proof.
  induction 1 as [|ci cis [Hp Ha] _ IH]; [done|]. cbn.
  destruct (Nat.leb_spec len (program_id_index ci)); [lia|].
  destruct (Nat.eqb_spec (program_id_index ci) 0); [lia|].
  replace (existsb _ _) with false; [done|]. symmetry. apply not_true_is_false.
  intros (i & Hi & Hle)%existsb_exists. rewrite Forall_forall in Ha.
  apply Nat.leb_le in Hle. apply list_elem_of_In, Ha in Hi. lia.
Qed.

(** The header of a compiled message, when the keys fit in a [u8]. *)
Lemma try_into_message_components_fits ck :
  (length (compiled_list ck) <= 255)%nat ->
  try_into_message_components ck =
    Some ({| num_required_signatures :=
               length (writable_signer_keys ck) + length (readonly_signer_keys ck);
             num_readonly_signed_accounts := length (readonly_signer_keys ck);
             num_readonly_unsigned_accounts := length (readonly_non_signer_keys ck) |},
          compiled_list ck)%nat.
Proof.
  unfold compiled_list, try_into_message_components, u8_try_from, U8_MAX.
  rewrite !length_app. intros Hlen.
  repeat match goal with |- context [Z.of_nat ?a <=? 255] =>
    destruct (Z.leb_spec (Z.of_nat a) 255); [|lia]; cbn end.
  by rewrite !Nat2Z.id.
Qed.

(** What the message built by [Message::new] for a paying signer satisfies. *)
Record message_for (ixs : list Instruction) (p : Pubkey) (bh : Hash) (m : LegacyMessage) : Prop := {
  mf_keys : lm_account_keys m = compiled_list (compile_keys ixs (Some p));
  mf_header : header_u8 (lm_header m);
  mf_signed : num_required_signatures (lm_header m) =
    S (length (keys_with true true (key_meta_map ixs (Some p)))
       + length (readonly_signer_keys (compile_keys ixs (Some p))));
  mf_readonly_signed : num_readonly_signed_accounts (lm_header m) =
    length (readonly_signer_keys (compile_keys ixs (Some p)));
  mf_readonly_unsigned : num_readonly_unsigned_accounts (lm_header m) =
    length (readonly_non_signer_keys (compile_keys ixs (Some p)));
  mf_payer : lm_account_keys m !! 0%nat = Some p;
  mf_nodup : NoDup (lm_account_keys m);
  mf_blockhash : lm_recent_blockhash m = bh;
  mf_instructions : Forall2 (compiled_as (lm_account_keys m)) ixs (lm_instructions m);
  mf_sanitized : (forall ix, ix ∈ ixs -> ix_program_id ix <> p) -> legacy_sanitize m = Ok tt;
}.

(** [Message::new_with_blockhash] returns a message whenever the distinct keys
    fit in a [u8]; the message passes [sanitize] when the payer is no program. *)
Lemma legacy_new_with_blockhash_sanitized ixs p bh :
  (size (key_meta_map ixs (Some p)) < 255)%nat ->
  exists m, legacy_new_with_blockhash ixs (Some p) bh = Returns m /\ message_for ixs p bh m.
Proof.
  intros Hsize. pose proof (compiled_list_length ixs p) as Hlen.
  set (ck := compile_keys ixs (Some p)) in *.
  destruct (map_outcome_Forall2 (compile_instruction (compiled_list ck))
              (compiled_as (compiled_list ck)) ixs) as (cis & Hcis & Hf).
  { intros ix Hix. apply compile_instruction_returns; [..|lia].
    - by apply (compiled_list_complete _ _ ix); [|left].
    - intros am Ham. apply (compiled_list_complete _ _ ix); [done|]. eauto. }
  eexists. split.
  { unfold legacy_new_with_blockhash. rewrite try_into_message_components_fits by (fold ck; lia).
    fold ck. cbn [unwrap mbind outcome_bind]. unfold compile_instructions. by rewrite Hcis. }
  assert (length (compiled_list ck) =
          length (writable_signer_keys ck) + length (readonly_signer_keys ck)
          + length (writable_non_signer_keys ck) + length (readonly_non_signer_keys ck))%nat as Hsum.
  { unfold compiled_list. rewrite !length_app. lia. }
  assert (length (writable_signer_keys ck) =
          S (length (keys_with true true (key_meta_map ixs (Some p)))))%nat as Hws by done.
  split; cbn; try done.
  - unfold header_u8; cbn. fold ck. lia.
  - apply compiled_list_NoDup.
  - intros Hprog. unfold legacy_sanitize; cbn. fold ck.
    destruct (Nat.ltb_spec (length (compiled_list ck))
      (length (writable_signer_keys ck) + length (readonly_signer_keys ck)
       + length (readonly_non_signer_keys ck))); [lia|].
    destruct (Nat.leb_spec (length (writable_signer_keys ck) + length (readonly_signer_keys ck))
      (length (readonly_signer_keys ck))); [lia|].
    apply legacy_sanitize_instructions_ok, Forall_forall. intros ci Hci.
    apply list_elem_of_lookup in Hci as [n Hn].
    destruct (Forall2_lookup_r _ _ _ _ _ Hf Hn) as (ix & Hix & Hp & Ha & _). split.
    + split; [|by apply lookup_lt_Some in Hp]. destruct (program_id_index ci) eqn:E; [|lia].
      exfalso. apply (Hprog ix); [by eapply list_elem_of_lookup_2|].
      pose proof (compiled_list_head ixs p) as Hh. fold ck in Hh. congruence.
    + apply Forall_forall. intros i Hi. apply list_elem_of_lookup in Hi as [j Hj].
      destruct (Forall2_lookup_r _ _ _ _ _ Ha Hj) as (am & _ & Ham).
      by apply lookup_lt_Some in Ham.
Qed.

(** Where a compiled key and its flags come from: the account metas and the
    program ids of the instructions, in order. *)
Lemma fold_compile_key_meta_origin ixs m k meta :
  fold_left compile_key_meta ixs m !! k = Some meta ->
  (k ∈ dom m \/ k ∈ concat (map instruction_keys ixs))
  /\ (ck_is_signer meta = true ->
      (exists meta0, m !! k = Some meta0 /\ ck_is_signer meta0 = true)
      \/ exists ix am, ix ∈ ixs /\ am ∈ ix_accounts ix /\ am_pubkey am = k /\ am_is_signer am = true).
Proof.
  revert m. induction ixs as [|ix ixs IH]; intros m H; cbn in H.
  { split; [left; by eapply elem_of_dom_2|eauto]. }
  apply IH in H as [H1 H2]. clear IH.
  assert (forall ams m k meta,
    fold_left (fun m am => merge_key_meta m (am_pubkey am) (am_is_signer am) (am_is_writable am)) ams m
      !! k = Some meta ->
    (k ∈ dom m \/ k ∈ map am_pubkey ams)
    /\ (ck_is_signer meta = true ->
        (exists meta0, m !! k = Some meta0 /\ ck_is_signer meta0 = true)
        \/ exists am, am ∈ ams /\ am_pubkey am = k /\ am_is_signer am = true)) as Hams.
  { clear. intros ams. induction ams as [|am ams IH]; intros m k meta H; cbn in H.
    { split; [left; by eapply elem_of_dom_2|eauto]. }
    apply IH in H as [H1 H2]. unfold merge_key_meta in H1, H2. split.
    - cbn. destruct H1 as [H1|H1]; set_solver.
    - intros Hs. destruct (H2 Hs) as [(meta0 & Hm & Hs0)|(am' & ? & ? & ?)].
      + destruct (decide (am_pubkey am = k)) as [<-|Hne].
        * rewrite lookup_insert_eq in Hm. injection Hm as <-. cbn in Hs0.
          apply orb_true_iff in Hs0 as [Hs0|Hs0]; [|right; exists am; set_solver].
          left. destruct (m !! am_pubkey am); cbn in Hs0; [eauto|done].
        * rewrite lookup_insert_ne in Hm by done. eauto.
      + right. exists am'. set_solver. }
  unfold compile_key_meta in H1, H2. split.
  - destruct H1 as [H1|H1]; [|right; cbn; set_solver].
    apply elem_of_dom in H1 as [meta1 Hm1]. apply Hams in Hm1 as [[H1|H1] _].
    + unfold merge_key_meta in H1. cbn. unfold instruction_keys. set_solver.
    + right; cbn. unfold instruction_keys. set_solver.
  - intros Hs. destruct (H2 Hs) as [(meta0 & Hm & Hs0)|(ix' & am & ? & ?)];
      [|right; exists ix', am; set_solver].
    apply Hams in Hm as [_ Hm]. destruct (Hm Hs0) as [(meta1 & Hm1 & Hs1)|(am & ? & ?)];
      [|right; exists ix, am; set_solver].
    left. unfold merge_key_meta in Hm1. destruct (decide (ix_program_id ix = k)) as [<-|Hne].
    + rewrite lookup_insert_eq in Hm1. injection Hm1 as <-. cbn in Hs1. rewrite orb_false_r in Hs1.
      destruct (m !! ix_program_id ix); cbn in Hs1; [eauto|done].
    + rewrite lookup_insert_ne in Hm1 by done. eauto.
Qed.

(** The keys to compile besides the payer's are among those the
    instructions name. *)
Lemma key_meta_map_size ixs p keys :
  (forall ix k, ix ∈ ixs -> k ∈ instruction_keys ix -> k = p \/ k ∈ keys) ->
  (size (key_meta_map ixs (Some p)) <= length keys)%nat.
Proof.
  intros Hk. rewrite <- (size_dom (D := gset N)).
  apply submseteq_length, NoDup_submseteq; [apply NoDup_elements|].
  intros k Hd. apply elem_of_elements, elem_of_dom in Hd as [meta Hm]. unfold key_meta_map in Hm.
  apply lookup_delete_Some in Hm as [Hne Hm].
  apply fold_compile_key_meta_origin in Hm as [[Hd|Hd] _]; [set_solver|].
  apply list_elem_of_In, in_concat in Hd as (ks & Hks & Hin).
  apply in_map_iff in Hks as (ix & <- & Hix).
  destruct (Hk ix k); [by apply list_elem_of_In..| |]; done.
Qed.

(** When only the payer signs, no other key is compiled as a signer. *)
Lemma keys_with_signer_nil ixs p w :
  (forall ix am, ix ∈ ixs -> am ∈ ix_accounts ix -> am_is_signer am = true -> am_pubkey am = p) ->
  keys_with true w (key_meta_map ixs (Some p)) = [].
Proof.
  intros Hs. unfold keys_with. rewrite (elem_of_nil_inv (List.filter _ _)); [done|]. intros [k meta] Hin.
  apply list_elem_of_In, filter_In in Hin as [Hin Hf]. apply list_elem_of_In in Hin.
  apply elem_of_btree_iter in Hin. cbn in Hf. apply andb_true_iff in Hf as [Hf _].
  apply eqb_prop in Hf. unfold key_meta_map in Hin. apply lookup_delete_Some in Hin as [Hne Hin].
  apply fold_compile_key_meta_origin in Hin as [_ Ho].
  destruct (Ho Hf) as [(m0 & Hm0 & _)|(ix & am & Hix & Ham & Hk & Hsig)]; [by rewrite lookup_empty in Hm0|].
  apply Hne. rewrite <- Hk. symmetry. by eapply Hs.
Qed.

(** ** Where writable keys come from *)

Definition writable_meta (m : gmap N CompiledKeyMeta) (k : Pubkey) : Prop :=
  exists meta, m !! k = Some meta /\ ck_is_writable meta = true.

Lemma merge_key_meta_writable m k s w k' :
  writable_meta (merge_key_meta m k s w) k' -> writable_meta m k' \/ (k' = k /\ w = true).
Proof.
  intros (meta & Hm & Hw). unfold merge_key_meta in Hm.
  destruct (decide (k = k')) as [<-|Hne]; [rewrite lookup_insert_eq in Hm|rewrite lookup_insert_ne in Hm by done; left; by exists meta].
  injection Hm as <-. cbn in Hw. apply orb_true_iff in Hw as [Hw|Hw]; [left|by right].
  destruct (m !! k) as [meta|] eqn:E; [|done]. by exists meta.
Qed.

Lemma fold_merge_writable ams : forall m k,
  writable_meta (fold_left (fun m am => merge_key_meta m (am_pubkey am) (am_is_signer am)
                                          (am_is_writable am)) ams m) k ->
  writable_meta m k \/ exists am, am ∈ ams /\ am_pubkey am = k /\ am_is_writable am = true.
Proof.
  induction ams as [|am ams IH]; intros m k Hw; cbn in Hw; [by left|].
  apply IH in Hw as [[Hw|[-> Hw]]%merge_key_meta_writable|(am' & Ham & Hk)]; [by left|right..].
  - exists am. set_solver.
  - exists am'. set_solver.
Qed.

Lemma fold_compile_writable ixs : forall m k,
  writable_meta (fold_left compile_key_meta ixs m) k ->
  writable_meta m k
  \/ exists ix am, ix ∈ ixs /\ am ∈ ix_accounts ix /\ am_pubkey am = k /\ am_is_writable am = true.
Proof.
  induction ixs as [|ix ixs IH]; intros m k Hw; cbn in Hw; [by left|].
  apply IH in Hw as [[[Hw|[_ Hw]]%merge_key_meta_writable|(am & Ham & Hk)]%fold_merge_writable|(ix' & am & Hix & Ham)].
  - by left.
  - done.
  - right. exists ix, am. set_solver.
  - right. exists ix', am. set_solver.
Qed.

(** A key compiled as writable is a writable account of an instruction. *)
Lemma keys_with_writable s ixs p k : k ∈ keys_with s true (key_meta_map ixs (Some p)) ->
  exists ix am, ix ∈ ixs /\ am ∈ ix_accounts ix /\ am_pubkey am = k /\ am_is_writable am = true.
Proof.
  unfold keys_with. intros ([k' meta] & -> & Hin)%list_elem_of_fmap.
  apply list_elem_of_In, filter_In in Hin as [Hin Hf]. apply list_elem_of_In, elem_of_btree_iter in Hin.
  cbn in Hf. apply andb_true_iff in Hf as [_ Hw%eqb_prop]. unfold key_meta_map in Hin.
  apply lookup_delete_Some in Hin as [_ Hin].
  destruct (fold_compile_writable ixs ∅ k') as [(meta' & Hm & _)|Hix]; [by exists meta|by rewrite lookup_empty in Hm|done].
Qed.

(** The accounts that a built message may write: the payer, and what the
    instructions mark as writable. *)
Lemma message_for_writable ixs p bh m i k :
  message_for ixs p bh m -> (length (lm_account_keys m) <= 255)%nat ->
  lm_account_keys m !! i = Some k -> legacy_is_writable m i = Returns true ->
  k = p \/ exists ix am, ix ∈ ixs /\ am ∈ ix_accounts ix /\ am_pubkey am = k /\ am_is_writable am = true.
Proof.
  intros [] Hlen Hk Hw. unfold legacy_is_writable in Hw. destruct (_ || _) eqn:Hr in Hw; [clear Hw|done].
  rewrite mf_keys0 in *. unfold compiled_list in *. set (ck := compile_keys ixs (Some p)) in *.
  set (m0 := key_meta_map ixs (Some p)) in *.
  assert (writable_signer_keys ck = p :: keys_with true true m0) as Hws by done.
  assert (k ∈ writable_signer_keys ck \/ k ∈ writable_non_signer_keys ck) as [Hin|Hin].
  { rewrite mf_signed0, mf_readonly_signed0, mf_readonly_unsigned0, !length_app in Hr. rewrite !length_app in Hlen.
    rewrite Hws in *. cbn [length] in *. fold ck m0 in Hr.
    apply orb_true_iff in Hr as [Hi%Z.ltb_lt|[Hi%Z.leb_le Hj%Z.ltb_lt]%andb_true_iff].
    - left. unfold wrap8 in Hi. rewrite Z.mod_small in Hi by lia.
      rewrite lookup_app_l in Hk by (cbn; lia). by eapply list_elem_of_lookup_2.
    - right. rewrite wrap64_small in Hj by (u_unfold; lia).
      rewrite lookup_app_r in Hk by (cbn; lia). rewrite lookup_app_r in Hk by (cbn; lia).
      rewrite lookup_app_l in Hk by (cbn; lia). by eapply list_elem_of_lookup_2. }
  - rewrite Hws in Hin. apply elem_of_cons in Hin as [->|Hin]; [by left|right; by eapply keys_with_writable].
  - right. exact (keys_with_writable false ixs p k Hin).
Qed.
