(* ===== verification/Errors.v ===== *)
(** * Error types

    The runtime's error enumerations (sdk/src/transaction/error.rs,
    sdk/program/src/instruction.rs, programs/vote/src/vote_error.rs) with the
    sources' constructors. Each lives in a short module, because the sources
    reuse constructor names. *)

From Stdlib Require Import String.
From S2P Require Import Prelude Message.

Module IE.
Inductive InstructionError :=
| GenericError | InvalidArgument | InvalidInstructionData | InvalidAccountData
| AccountDataTooSmall | InsufficientFunds | IncorrectProgramId | MissingRequiredSignature
| AccountAlreadyInitialized | UninitializedAccount | UnbalancedInstruction | ModifiedProgramId
| ExternalAccountLamportSpend | ExternalAccountDataModified | ReadonlyLamportChange
| ReadonlyDataModified | DuplicateAccountIndex | ExecutableModified | RentEpochModified
| NotEnoughAccountKeys | AccountDataSizeChanged | AccountNotExecutable | AccountBorrowFailed
| AccountBorrowOutstanding | DuplicateAccountOutOfSync | Custom (code : Z) | InvalidError
| ExecutableDataModified | ExecutableLamportChange | ExecutableAccountNotRentExempt
| UnsupportedProgramId | CallDepth | MissingAccount | ReentrancyNotAllowed
| MaxSeedLengthExceeded | InvalidSeeds | InvalidRealloc | ComputationalBudgetExceeded
| PrivilegeEscalation | ProgramEnvironmentSetupFailure | ProgramFailedToComplete
| ProgramFailedToCompile | Immutable | IncorrectAuthority | BorshIoError (msg : string)
| AccountNotRentExempt | InvalidAccountOwner | ArithmeticOverflow | UnsupportedSysvar
| IllegalOwner | MaxAccountsDataSizeExceeded | ActiveVoteAccountClose.
End IE.

Module TE.
Inductive TransactionError :=
| AccountInUse | AccountLoadedTwice | AccountNotFound | ProgramAccountNotFound
| InsufficientFundsForFee | InvalidAccountForFee | AlreadyProcessed | BlockhashNotFound
| InstructionErr (index : Z) (err : IE.InstructionError) | CallChainTooDeep
| MissingSignatureForFee | InvalidAccountIndex | SignatureFailure | InvalidProgramForExecution
| SanitizeFailure | ClusterMaintenance | AccountBorrowOutstanding | WouldExceedMaxBlockCostLimit
| UnsupportedVersion | InvalidWritableAccount | WouldExceedMaxAccountCostLimit
| WouldExceedAccountDataBlockLimit | TooManyAccountLocks | AddressLookupTableNotFound
| InvalidAddressLookupTableOwner | InvalidAddressLookupTableData
| InvalidAddressLookupTableIndex | InvalidRentPayingAccount | WouldExceedMaxVoteCostLimit
| WouldExceedAccountDataTotalLimit | DuplicateInstruction (index : Z)
| InsufficientFundsForRent (account_index : Z).
End TE.

Abbreviation InstructionError := IE.InstructionError.
Abbreviation TransactionError := TE.TransactionError.

(** [From<SanitizeError> for TransactionError]. *)
Definition sanitize_to_transaction_error (_ : SanitizeError) : TransactionError :=
  TE.SanitizeFailure.

Module VE.
Inductive VoteError :=
| VoteTooOld | SlotsMismatch | SlotHashMismatch | EmptySlots | TimestampTooOld
| TooSoonToReauthorize | LockoutConflict | NewVoteStateLockoutMismatch | SlotsNotOrdered
| ConfirmationsNotOrdered | ZeroConfirmations | ConfirmationTooLarge | RootRollBack
| ConfirmationRollBack | SlotSmallerThanRoot | TooManyVotes | VotesTooOldAllFiltered
| RootOnDifferentFork | ActiveVoteAccountClose.

(** [ToPrimitive]: the discriminant, which is the custom error code. *)
Definition to_u32 (e : VoteError) : Z :=
  match e with
  | VoteTooOld => 0 | SlotsMismatch => 1 | SlotHashMismatch => 2 | EmptySlots => 3
  | TimestampTooOld => 4 | TooSoonToReauthorize => 5 | LockoutConflict => 6
  | NewVoteStateLockoutMismatch => 7 | SlotsNotOrdered => 8 | ConfirmationsNotOrdered => 9
  | ZeroConfirmations => 10 | ConfirmationTooLarge => 11 | RootRollBack => 12
  | ConfirmationRollBack => 13 | SlotSmallerThanRoot => 14 | TooManyVotes => 15
  | VotesTooOldAllFiltered => 16 | RootOnDifferentFork => 17 | ActiveVoteAccountClose => 18
  end.
End VE.

Abbreviation VoteError := VE.VoteError.

(** [From<VoteError> for InstructionError], by the blanket conversion of
    custom errors. *)
Definition vote_error_into (e : VoteError) : InstructionError := IE.Custom (VE.to_u32 e).
