(* ===== verification/InstructionsSysvar.v ===== *)
(** * The instructions sysvar

    Models sdk/program/src/sysvar/instructions.rs: the account in which a
    program finds the instructions of its transaction, written by the runtime
    ([construct_instructions_data]) and read by programs
    ([load_instruction_at]), with the helpers of serialize_utils.rs.  Bytes
    are [Z]s below 256. *)

From S2P Require Import Prelude Keys Message.

(** ** Bytes *)

Definition u16_bytes (n : Z) : list Z := [n mod 256; (n / 256) mod 256].

(** The 32 bytes of a key, the most significant first. *)
Fixpoint be_bytes (len : nat) (n : N) : list Z :=
  match len with
  | O => []
  | S len => be_bytes len (n / 256) ++ [Z.of_N (n mod 256)]
  end.

Definition pubkey_bytes (key : Pubkey) : list Z := be_bytes 32 key.
Definition hash_bytes (h : Hash) : list Z := be_bytes 32 h.
Definition signature_bytes (s : Signature) : list Z := be_bytes 64 s.

Definition pubkey_of_bytes (bytes : list Z) : Pubkey :=
  fold_left (fun acc b => acc * 256 + Z.to_N b)%N bytes 0%N.

(** [data[start..start + len].copy_from_slice(bytes)]. *)
Definition copy_at (data : list Z) (start : nat) (bytes : list Z) : list Z :=
  take start data ++ bytes ++ drop (start + length bytes) data.

Definition append_u16 (buf : list Z) (n : nat) : list Z := buf ++ u16_bytes (Z.of_nat n mod 65536).
Definition append_u8 (buf : list Z) (b : Z) : list Z := buf ++ [b].
Definition append_slice (buf : list Z) (bytes : list Z) : list Z := buf ++ bytes.

Section Read.
Variable data : list Z.

Definition read_u8 (current : nat) : result SanitizeError (Z * nat) :=
  match data !! current with
  | Some b => Ok (b, S current)
  | None => Err IndexOutOfBounds
  end.

Definition read_slice (current len : nat) : result SanitizeError (list Z * nat) :=
  if (length data <? current + len)%nat then Err IndexOutOfBounds
  else Ok (take len (drop current data), (current + len)%nat).

Definition read_pubkey (current : nat) : result SanitizeError (Pubkey * nat) :=
  '(bytes, current) ← read_slice current 32; Ok (pubkey_of_bytes bytes, current).

Definition read_u16 (current : nat) : result SanitizeError (nat * nat) :=
  '(bytes, current) ← read_slice current 2;
  match bytes with
  | [lo; hi] => Ok (Z.to_nat (lo + 256 * hi), current)
  | _ => Err IndexOutOfBounds
  end.

(** The loop over the account metas. *)
Fixpoint read_metas (num_accounts : nat) (current : nat)
    : result SanitizeError (list AccountMeta * nat) :=
  match num_accounts with
  | O => Ok ([], current)
  | S num_accounts =>
      '(meta_byte, current) ← read_u8 current;
      '(pubkey, current) ← read_pubkey current;
      '(metas, current) ← read_metas num_accounts current;
      Ok ({| am_pubkey := pubkey; am_is_signer := Z.testbit meta_byte 0;
             am_is_writable := Z.testbit meta_byte 1 |} :: metas, current)
  end.

(** [load_instruction_at]. *)
Definition deserialize_instruction (index : nat) : result SanitizeError Instruction :=
  '(num_instructions, current) ← read_u16 0;
  if (num_instructions <=? index)%nat then Err IndexOutOfBounds
  else
    '(start, _) ← read_u16 (current + index * 2);
    '(num_accounts, current) ← read_u16 start;
    '(accounts, current) ← read_metas num_accounts current;
    '(program_id, current) ← read_pubkey current;
    '(data_len, current) ← read_u16 current;
    '(bytes, _) ← read_slice current data_len;
    Ok {| ix_program_id := program_id; ix_accounts := accounts; ix_data := bytes |}.

End Read.

(** ** Writing *)

Definition meta_flags (meta : AccountMeta) : Z :=
  Z.lor (if am_is_signer meta then 1 else 0) (if am_is_writable meta then 2 else 0).

Definition append_meta (buf : list Z) (meta : AccountMeta) : list Z :=
  append_slice (append_u8 buf (meta_flags meta)) (pubkey_bytes (am_pubkey meta)).

(** One iteration of the loop: the offset of the instruction is written into
    the table, the instruction is appended. *)
Definition serialize_instruction (buf : list Z) (i : nat) (ix : Instruction) : list Z :=
  let buf := copy_at buf (2 + 2 * i) (u16_bytes (Z.of_nat (length buf) mod 65536)) in
  let buf := append_u16 buf (length (ix_accounts ix)) in
  let buf := fold_left append_meta (ix_accounts ix) buf in
  let buf := append_slice buf (pubkey_bytes (ix_program_id ix)) in
  let buf := append_u16 buf (length (ix_data ix)) in
  append_slice buf (ix_data ix).

Fixpoint serialize_loop (buf : list Z) (i : nat) (ixs : list Instruction) : list Z :=
  match ixs with
  | [] => buf
  | ix :: rest => serialize_loop (serialize_instruction buf i ix) (S i) rest
  end.

Definition serialize_instructions (ixs : list Instruction) : list Z :=
  let buf := append_u16 [] (length ixs) in
  let buf := fold_left (fun buf _ => append_u16 buf 0) ixs buf in
  serialize_loop buf 0 ixs.

Definition construct_instructions_data (ixs : list Instruction) : list Z :=
  serialize_instructions ixs ++ [0; 0].

(** [SanitizedMessage::decompile_instructions]. *)
Definition decompile_instruction (m : SanitizedMessage) (program_id : Pubkey)
    (ix : CompiledInstruction) : outcome Instruction :=
  accounts ← map_outcome (fun account_index =>
      is_writable ← message_is_writable m account_index;
      pubkey ← unwrap (account_keys_get (message_account_keys m) account_index);
      Returns {| am_pubkey := pubkey; am_is_signer := message_is_signer m account_index;
                 am_is_writable := is_writable |}) (ci_accounts ix);
  Returns {| ix_program_id := program_id; ix_accounts := accounts; ix_data := ci_data ix |}.

Definition decompile_instructions (m : SanitizedMessage) : outcome (list Instruction) :=
  instructions ← program_instructions_iter m;
  map_outcome (fun '(program_id, ix) => decompile_instruction m program_id ix) instructions.

(** ** The index of the running instruction, in the last two bytes *)

Definition store_current_index (data : list Z) (instruction_index : nat) : outcome (list Z) :=
  if (length data <? 2)%nat then Panics
  else Returns (copy_at data (length data - 2) (u16_bytes (Z.of_nat instruction_index mod 65536))).

Definition load_current_index (data : list Z) : outcome nat :=
  if (length data <? 2)%nat then Panics
  else match drop (length data - 2) data with
       | [lo; hi] => Returns (Z.to_nat (lo + 256 * hi))
       | _ => Panics
       end.

(** ** The layout the writer produces

    The count, the table of offsets, then the instructions one after another. *)

Definition u16_of (n : nat) : list Z := u16_bytes (Z.of_nat n mod 65536).

Definition meta_encoding (meta : AccountMeta) : list Z :=
  [meta_flags meta] ++ pubkey_bytes (am_pubkey meta).

Definition encoding (ix : Instruction) : list Z :=
  u16_of (length (ix_accounts ix)) ++ concat (map meta_encoding (ix_accounts ix))
  ++ pubkey_bytes (ix_program_id ix) ++ u16_of (length (ix_data ix)) ++ ix_data ix.

Definition encodings (ixs : list Instruction) : list Z := concat (map encoding ixs).

Fixpoint offsets (pos : nat) (ixs : list Instruction) : list Z :=
  match ixs with
  | [] => []
  | ix :: rest => u16_of pos ++ offsets (pos + length (encoding ix)) rest
  end.

Definition key_ok (key : Pubkey) : Prop := (key < 256 ^ 32)%N.
Definition instruction_keys_ok (ix : Instruction) : Prop :=
  key_ok (ix_program_id ix) /\ Forall (fun meta => key_ok (am_pubkey meta)) (ix_accounts ix).

(** What an instruction takes in a packet at least: the program index, the
    two vector lengths, a byte for each account index, the data. *)
Definition PACKET_DATA_SIZE : Z := 1280 - 40 - 8.
Definition wire_size (ix : CompiledInstruction) : nat :=
  3 + length (ci_accounts ix) + length (ci_data ix).

Lemma length_u16_of n : length (u16_of n) = 2%nat.
Proof. done. Qed.

Lemma length_be_bytes len n : length (be_bytes len n) = len.
Proof. revert n; induction len as [|len IH]; intros n; simpl; [done|]. rewrite length_app, IH; simpl; lia. Qed.

Lemma fold_be_bytes len n acc :
  fold_left (fun acc b => acc * 256 + Z.to_N b)%N (be_bytes len n) acc
  = (acc * 256 ^ N.of_nat len + n mod 256 ^ N.of_nat len)%N.
Proof.
  revert n; induction len as [|len IH]; intros n; [simpl; rewrite N.mod_1_r; lia|].
  cbn [be_bytes]; rewrite fold_left_app, IH; cbn [fold_left].
  rewrite N2Z.id, Nat2N.inj_succ, N.pow_succ_r', N.Div0.mod_mul_r; lia.
Qed.

Lemma u16_of_bytes n :
  Z.of_nat n < 65536 ->
  exists lo hi, u16_of n = [lo; hi] /\ Z.to_nat (lo + 256 * hi) = n.
Proof.
  intros Hn; unfold u16_of, u16_bytes; do 2 eexists; split; [done|].
  rewrite (Z.mod_small _ 65536) by lia.
  rewrite (Z.mod_small (_ / _)) by (split; [apply Z.div_pos|apply Z.div_lt_upper_bound]; lia).
  pose proof (Z.div_mod (Z.of_nat n) 256); lia.
Qed.

Lemma append_u16_eq buf n : append_u16 buf n = buf ++ u16_of n.
Proof. done. Qed.

Lemma serialize_instruction_unfold buf i ix :
  serialize_instruction buf i ix
  = append_slice (append_u16 (append_slice (fold_left append_meta (ix_accounts ix)
      (append_u16 (copy_at buf (2 + 2 * i) (u16_of (length buf))) (length (ix_accounts ix))))
      (pubkey_bytes (ix_program_id ix))) (length (ix_data ix))) (ix_data ix).
Proof. done. Qed.

Lemma store_current_index_eq data index :
  (2 <= length data)%nat ->
  store_current_index data index = Returns (copy_at data (length data - 2) (u16_of index)).
Proof. intros; unfold store_current_index; by rewrite (proj2 (Nat.ltb_ge _ _)) by lia. Qed.

#[local] Opaque be_bytes u16_of.
#[local] Arguments Z.testbit : simpl never.

Lemma length_pubkey_bytes key : length (pubkey_bytes key) = 32%nat.
Proof. apply length_be_bytes. Qed.

Lemma length_offsets pos ixs : length (offsets pos ixs) = (2 * length ixs)%nat.
Proof.
  revert pos; induction ixs as [|ix ixs IH]; intros pos; [done|].
  cbn [offsets]; rewrite length_app, IH, length_u16_of; cbn [length]; lia.
Qed.

Lemma length_metas metas : length (concat (map meta_encoding metas)) = (33 * length metas)%nat.
Proof.
  induction metas as [|meta metas IH]; [done|].
  cbn [map concat]; unfold meta_encoding at 1; rewrite !length_app, IH.
  rewrite length_pubkey_bytes; cbn [length]; lia.
Qed.

Lemma length_encoding ix :
  length (encoding ix) = (36 + 33 * length (ix_accounts ix) + length (ix_data ix))%nat.
Proof.
  unfold encoding; rewrite !length_app, length_metas, !length_u16_of, length_pubkey_bytes; lia.
Qed.

Lemma append_metas metas buf :
  fold_left append_meta metas buf = buf ++ concat (map meta_encoding metas).
Proof.
  revert buf; induction metas as [|meta metas IH]; intros buf; simpl; [by rewrite app_nil_r|].
  rewrite IH; unfold append_meta, append_slice, append_u8; by rewrite <- !app_assoc.
Qed.

Lemma copy_at_middle head old tail new start :
  length head = start -> length old = length new ->
  copy_at (head ++ old ++ tail) start new = head ++ new ++ tail.
Proof.
  intros Hs Hl; unfold copy_at; rewrite take_app_length' by done.
  do 2 f_equal; rewrite app_assoc; apply drop_app_length'; rewrite length_app; lia.
Qed.

Lemma serialize_instruction_eq head z0 z1 zeros body i ix :
  length head = (2 + 2 * i)%nat ->
  let buf := head ++ [z0; z1] ++ zeros ++ body in
  serialize_instruction buf i ix
  = (head ++ u16_of (length buf)) ++ zeros ++ body ++ encoding ix.
Proof.
  intros Hh buf; rewrite serialize_instruction_unfold; unfold append_slice.
  rewrite !append_u16_eq, append_metas; subst buf.
  rewrite copy_at_middle by (rewrite ?length_u16_of; done); unfold encoding.
  by rewrite <- !app_assoc.
Qed.

Lemma serialize_loop_eq ixs : forall head zeros body i,
  length head = (2 + 2 * i)%nat -> length zeros = (2 * length ixs)%nat ->
  serialize_loop (head ++ zeros ++ body) i ixs
  = head ++ offsets (length head + length zeros + length body) ixs ++ body ++ encodings ixs.
Proof.
  induction ixs as [|ix ixs IH]; intros head zeros body i Hh Hz.
  { destruct zeros; [|done]; simpl; unfold encodings; simpl; by rewrite app_nil_r. }
  destruct zeros as [|z0 [|z1 zeros]]; simpl in Hz; try lia.
  cbn [serialize_loop]; pose proof (serialize_instruction_eq head z0 z1 zeros body i ix Hh) as E.
  cbn [app] in E |- *; rewrite E.
  rewrite IH by (rewrite ?length_app, ?length_u16_of; lia).
  cbn [offsets]; unfold encodings; cbn [map concat]; rewrite <- !app_assoc; do 2 f_equal.
  - f_equal; rewrite length_app; cbn [length]; rewrite length_app; lia.
  - f_equal; f_equal; rewrite !length_app, length_u16_of; cbn [length]; lia.
Qed.

Lemma zero_table {A} (l : list A) buf :
  exists zeros, length zeros = (2 * length l)%nat
    /\ fold_left (fun buf _ => append_u16 buf 0) l buf = buf ++ zeros.
Proof.
  revert buf; induction l as [|x l IH]; intros buf; simpl; [exists []; by rewrite app_nil_r|].
  destruct (IH (append_u16 buf 0)) as (zeros & Hl & ->).
  exists (u16_of 0 ++ zeros); split; [rewrite length_app, length_u16_of; lia|].
  by rewrite append_u16_eq, <- app_assoc.
Qed.

Lemma serialize_instructions_layout ixs :
  serialize_instructions ixs
  = u16_of (length ixs) ++ offsets (2 + 2 * length ixs) ixs ++ encodings ixs.
Proof.
  unfold serialize_instructions.
  destruct (zero_table ixs (append_u16 [] (length ixs))) as (zeros & Hl & ->).
  pose proof (serialize_loop_eq ixs (u16_of (length ixs)) zeros [] 0) as E.
  rewrite app_nil_r in E; rewrite append_u16_eq; simpl app; rewrite E by done; simpl app.
  by rewrite length_u16_of, Hl, Nat.add_0_r.
Qed.

(** ** Reading it back *)

Definition at_pos (data : list Z) (current : nat) (rest : list Z) : Prop :=
  exists before, data = before ++ rest /\ length before = current.

Lemma at_pos_skip data current bytes rest :
  at_pos data current (bytes ++ rest) -> at_pos data (current + length bytes) rest.
Proof.
  intros (before & -> & <-); exists (before ++ bytes); by rewrite <- app_assoc, length_app.
Qed.

Lemma read_slice_at data current bytes rest :
  at_pos data current (bytes ++ rest) ->
  read_slice data current (length bytes) = Ok (bytes, (current + length bytes)%nat).
Proof.
  intros (before & -> & <-); unfold read_slice.
  rewrite (proj2 (Nat.ltb_ge _ _)) by (rewrite !length_app; lia).
  by rewrite drop_app_length, take_app_length.
Qed.

Lemma read_u16_at data current n rest :
  Z.of_nat n < 65536 -> at_pos data current (u16_of n ++ rest) ->
  read_u16 data current = Ok (n, (current + 2)%nat).
Proof.
  intros Hn Hat; destruct (u16_of_bytes n Hn) as (lo & hi & E & Hv); rewrite E in Hat.
  unfold read_u16; rewrite (read_slice_at _ _ [lo; hi] _ Hat : read_slice _ _ 2 = _); simpl.
  by rewrite Hv.
Qed.

Lemma read_pubkey_at data current key rest :
  key_ok key -> at_pos data current (pubkey_bytes key ++ rest) ->
  read_pubkey data current = Ok (key, (current + 32)%nat).
Proof.
  intros Hk Hat; unfold read_pubkey.
  pose proof (read_slice_at _ _ _ _ Hat) as E; rewrite length_pubkey_bytes in E; rewrite E; simpl.
  do 2 f_equal; unfold pubkey_of_bytes, pubkey_bytes; rewrite fold_be_bytes.
  by rewrite N.mod_small.
Qed.

Lemma meta_flags_bits meta :
  Z.testbit (meta_flags meta) 0 = am_is_signer meta
  /\ Z.testbit (meta_flags meta) 1 = am_is_writable meta.
Proof. by destruct meta as [? [] []]. Qed.

Lemma read_metas_at data metas : forall current rest,
  Forall (fun meta => key_ok (am_pubkey meta)) metas ->
  at_pos data current (concat (map meta_encoding metas) ++ rest) ->
  read_metas data (length metas) current = Ok (metas, (current + 33 * length metas)%nat).
Proof.
  induction metas as [|meta metas IH]; intros current rest Hk Hat; [by rewrite Nat.add_0_r|].
  inversion_clear Hk as [|?? Hkey Hrest]; cbn [map concat] in Hat.
  unfold meta_encoding at 1 in Hat; rewrite <- !app_assoc in Hat.
  pose proof (at_pos_skip _ _ _ _ Hat) as Hat1; cbn [length] in Hat1.
  pose proof (at_pos_skip _ _ _ _ Hat1) as Hat2; rewrite length_pubkey_bytes in Hat2.
  cbn [length read_metas]; unfold read_u8.
  destruct Hat as (before & Hd & Hl); rewrite Hd at 1.
  rewrite (lookup_app_r before) by lia; replace (current - length before)%nat with 0%nat by lia.
  simpl; rewrite <- Nat.add_1_r, (read_pubkey_at _ _ _ _ Hkey Hat1); simpl.
  rewrite (IH _ _ Hrest Hat2); simpl; destruct (meta_flags_bits meta) as [-> ->].
  destruct meta; do 2 f_equal; lia.
Qed.

Lemma offsets_app pos before ixs :
  offsets pos (before ++ ixs) = offsets pos before ++ offsets (pos + length (encodings before)) ixs.
Proof.
  revert pos; induction before as [|ix before IH]; intros pos; cbn [app offsets].
  { by rewrite Nat.add_0_r. }
  rewrite IH, <- app_assoc; do 3 f_equal; unfold encodings; cbn [map concat].
  rewrite length_app; lia.
Qed.

Lemma encodings_app before ixs : encodings (before ++ ixs) = encodings before ++ encodings ixs.
Proof. unfold encodings; by rewrite map_app, concat_app. Qed.

Lemma encodings_cons ix ixs : encodings (ix :: ixs) = encoding ix ++ encodings ixs.
Proof. done. Qed.

Local Ltac skip Hat :=
  apply at_pos_skip in Hat;
  rewrite ?length_u16_of, ?length_metas, ?length_pubkey_bytes, ?length_offsets in Hat.

(** Reading one instruction where its encoding starts. *)
Lemma read_instruction_at data start ix rest :
  instruction_keys_ok ix -> Z.of_nat (length (encoding ix)) < 65536 ->
  at_pos data start (encoding ix ++ rest) ->
  ('(num_accounts, current) ← read_u16 data start;
   '(accounts, current) ← read_metas data num_accounts current;
   '(program_id, current) ← read_pubkey data current;
   '(data_len, current) ← read_u16 data current;
   '(bytes, _) ← read_slice data current data_len;
   Ok {| ix_program_id := program_id; ix_accounts := accounts; ix_data := bytes |}) = Ok ix.
Proof.
  intros [Hk Hks] Hlen Hat; rewrite length_encoding in Hlen.
  assert (Hna : Z.of_nat (length (ix_accounts ix)) < 65536) by lia.
  assert (Hnd : Z.of_nat (length (ix_data ix)) < 65536) by lia.
  unfold encoding in Hat; rewrite <- !app_assoc in Hat.
  rewrite (read_u16_at _ _ _ _ Hna Hat); skip Hat; cbn [mbind result_bind].
  rewrite (read_metas_at _ _ _ _ Hks Hat); skip Hat; cbn [mbind result_bind].
  rewrite (read_pubkey_at _ _ _ _ Hk Hat); skip Hat; cbn [mbind result_bind].
  rewrite (read_u16_at _ _ _ _ Hnd Hat); skip Hat; cbn [mbind result_bind].
  rewrite (read_slice_at _ _ _ _ Hat); simpl; by destruct ix.
Qed.

(** Where the offset and the encoding of an instruction are. *)
Lemma layout_positions before ix after tail :
  let n := (2 + 2 * length (before ++ ix :: after))%nat in
  let data := serialize_instructions (before ++ ix :: after) ++ tail in
  let start := (n + length (encodings before))%nat in
  (exists rest, at_pos data (2 + length before * 2) (u16_of start ++ rest))
  /\ (exists rest, at_pos data start (encoding ix ++ rest)).
Proof.
  intros n data start; subst data; rewrite serialize_instructions_layout; fold n.
  rewrite offsets_app, encodings_app, encodings_cons; cbn [offsets]; fold start.
  rewrite <- !app_assoc.
  set (data := u16_of _ ++ _); assert (Hat : at_pos data 0 data) by (by exists []).
  unfold data in Hat at 2; skip Hat; skip Hat; split; eexists.
  { replace (2 + length before * 2)%nat with (0 + 2 + 2 * length before)%nat by lia; exact Hat. }
  skip Hat; skip Hat; apply at_pos_skip in Hat.
  assert (E : (0 + 2 + 2 * length before + 2 + 2 * length after + length (encodings before)
               = start)%nat) by (subst start n; rewrite length_app; cbn [length]; lia).
  rewrite E in Hat; exact Hat.
Qed.

(** The whole reader on what the writer produces, whatever follows it. *)
Lemma deserialize_serialized ixs tail i :
  Forall instruction_keys_ok ixs ->
  Z.of_nat (length (serialize_instructions ixs)) < 65536 ->
  deserialize_instruction (serialize_instructions ixs ++ tail) i
  = ok_or (ixs !! i) IndexOutOfBounds.
Proof.
  intros Hks Hlen; rewrite serialize_instructions_layout in Hlen.
  rewrite !length_app, length_u16_of, length_offsets in Hlen.
  unfold deserialize_instruction; erewrite (read_u16_at _ 0 (length ixs)); [|lia|].
  2:{ rewrite serialize_instructions_layout, <- app_assoc; by exists []. }
  cbn [mbind result_bind]; destruct (ixs !! i) as [ix|] eqn:Hi.
  2:{ apply lookup_ge_None in Hi; by rewrite (proj2 (Nat.leb_le _ _)). }
  rewrite (proj2 (Nat.leb_gt _ _)) by (by apply lookup_lt_Some in Hi).
  apply list_elem_of_split_length in Hi as (before & after & -> & ->).
  apply Forall_app in Hks as [_ Hks]; inversion_clear Hks as [|?? Hk _].
  destruct (layout_positions before ix after tail) as [[r1 Hat1] [r2 Hat2]].
  rewrite encodings_app, encodings_cons, !length_app in Hlen; cbn [length] in Hlen.
  assert (Hb : Z.of_nat (2 + 2 * length (before ++ ix :: after) + length (encodings before)) < 65536)
    by (rewrite length_app; cbn [length]; lia).
  change (0 + 2)%nat with 2%nat; rewrite (read_u16_at _ _ _ _ Hb Hat1).
  cbn [mbind result_bind].
  apply (read_instruction_at _ _ _ _ Hk ltac:(lia) Hat2).
Qed.

(** ** The sysvar of a message *)

Lemma decompile_instruction_shape m program_id ci ix :
  decompile_instruction m program_id ci = Returns ix ->
  length (ix_accounts ix) = length (ci_accounts ci) /\ ix_data ix = ci_data ci.
Proof.
  unfold decompile_instruction; intros H.
  apply outcome_bind_Returns in H as (accounts & Ha & [= <-]); simpl; split; [|done].
  revert accounts Ha; induction (ci_accounts ci) as [|a l IH]; intros accounts Ha.
  { by injection Ha as <-. }
  apply outcome_bind_Returns in Ha as (y & _ & Ha).
  apply outcome_bind_Returns in Ha as (ys & Hys & [= <-]); simpl; f_equal; by apply IH.
Qed.

(** Each byte of an instruction in a packet becomes at most 33 bytes. *)
Lemma decompiled_size m ixs :
  decompile_instructions m = Returns ixs ->
  length ixs = length (message_instructions m)
  /\ (2 * length ixs + length (encodings ixs)
      <= 33 * sum_list (map wire_size (message_instructions m)))%nat.
Proof.
  unfold decompile_instructions, program_instructions_iter; intros H.
  apply outcome_bind_Returns in H as (pairs & Hp & Hd); revert pairs ixs Hp Hd.
  induction (message_instructions m) as [|ci cis IH]; intros pairs ixs Hp Hd.
  { injection Hp as <-; injection Hd as <-; simpl; lia. }
  apply outcome_bind_Returns in Hp as (pr & Hpr & Hp).
  apply outcome_bind_Returns in Hpr as (program_id & _ & [= <-]).
  apply outcome_bind_Returns in Hp as (pairs' & Hp & [= <-]).
  apply outcome_bind_Returns in Hd as (ix & Hix & Hd).
  apply outcome_bind_Returns in Hd as (ixs' & Hd & [= <-]).
  apply decompile_instruction_shape in Hix as [Hl Hdata]; destruct (IH _ _ Hp Hd) as [IHl IHs].
  rewrite encodings_cons, length_app, length_encoding, Hl, Hdata; cbn [length map].
  cbn [sum_list sum_list_with id foldr]; unfold wire_size at 1; lia.
Qed.

Lemma u16_last_two data index :
  (2 <= length data)%nat -> Z.of_nat index < 65536 ->
  exists data', store_current_index data index = Returns data'
    /\ data' = take (length data - 2) data ++ u16_of index
    /\ load_current_index data' = Returns index.
Proof.
  intros Hlen Hi; rewrite store_current_index_eq by done; eexists; split; [done|].
  destruct (u16_of_bytes index Hi) as (lo & hi & E & Hv).
  assert (Heq : copy_at data (length data - 2) (u16_of index)
                = take (length data - 2) data ++ u16_of index).
  { unfold copy_at; rewrite length_u16_of, (drop_ge _ (_ + 2)) by lia; by rewrite app_nil_r. }
  split; [exact Heq|]; rewrite Heq, E; unfold load_current_index.
  assert (Ht : length (take (length data - 2) data) = (length data - 2)%nat)
    by (apply length_take_le; lia).
  rewrite length_app, Ht; cbn [length]; rewrite (proj2 (Nat.ltb_ge _ _)) by lia.
  rewrite drop_app_length' by lia; by rewrite Hv.
Qed.

(** C34: a program that reads the instructions sysvar of its transaction
    finds in it every instruction of the message, with its program, data and
    accounts (key, signer and writable flags as the message gives them), in
    order, an out-of-bounds error at every index past the last one, and the
    index of the instruction that runs: for every message that fits in a
    packet no 16-bit length or offset of the format is truncated. *)
Theorem instructions_sysvar_roundtrip m ixs index :
  decompile_instructions m = Returns ixs ->
  Z.of_nat (sum_list (map wire_size (message_instructions m))) <= PACKET_DATA_SIZE ->
  Forall instruction_keys_ok ixs ->
  Z.of_nat index < 65536 ->
  exists data,
    store_current_index (construct_instructions_data ixs) index = Returns data
    /\ load_current_index data = Returns index
    /\ forall i, deserialize_instruction data i = ok_or (ixs !! i) IndexOutOfBounds.
Proof.
  intros Hd Hw Hks Hi; destruct (decompiled_size m ixs Hd) as [_ Hs].
  destruct (u16_last_two (construct_instructions_data ixs) index) as (data & Hst & Heq & Hld).
  { unfold construct_instructions_data; rewrite length_app; simpl; lia. }
  { done. }
  exists data; split_and!; [done|done|]; intros i; subst data.
  unfold construct_instructions_data; rewrite length_app; cbn [length].
  rewrite Nat.add_sub, take_app_length.
  apply deserialize_serialized; [done|]; rewrite serialize_instructions_layout, !length_app.
  rewrite length_u16_of, length_offsets; unfold PACKET_DATA_SIZE in Hw; lia.
Qed.

Module Sample.

(** Two instructions of the programs 12 and 13, accounts signed and not. *)
Definition message : SanitizedMessage := SanitizedLegacy {|
  lm_header := {| num_required_signatures := 1; num_readonly_signed_accounts := 0;
                  num_readonly_unsigned_accounts := 2 |};
  lm_account_keys := [10; 11; 12; 13]%N; lm_recent_blockhash := 5%N;
  lm_instructions := [{| program_id_index := 2; ci_accounts := [0; 1; 1]%nat; ci_data := [7; 8] |};
                      {| program_id_index := 3; ci_accounts := [1]%nat; ci_data := [] |}] |}.

Definition instructions : list Instruction :=
  [{| ix_program_id := 12%N; ix_data := [7; 8];
      ix_accounts := [account_meta_new 10%N true; account_meta_new 11%N false;
                      account_meta_new 11%N false] |};
   {| ix_program_id := 13%N; ix_data := []; ix_accounts := [account_meta_new 11%N false] |}].

End Sample.

Lemma instructions_sysvar_roundtrip_witness :
  exists data,
    store_current_index (construct_instructions_data Sample.instructions) 1 = Returns data
    /\ load_current_index data = Returns 1%nat
    /\ forall i, deserialize_instruction data i
                 = ok_or (Sample.instructions !! i) IndexOutOfBounds.
Proof.
  apply (instructions_sysvar_roundtrip Sample.message).
  - vm_compute; reflexivity.
  - vm_compute; discriminate.
  - repeat constructor.
  - reflexivity.
Defined.
