(* ===== verification/Transaction.v ===== *)
(** * Transactions

    Models sdk/src/transaction: [Transaction] and its signing, and
    [SanitizedTransaction] with the MEV keys that Solana-MEV adds to it
    ([MevKeys]) and the account locks it asks for.

    ed25519 signatures and the blake3 hash of a message are third-party code:
    they are the operations of the class [Signing], with the one documented
    fact the code relies on in [SigningLaws]. *)

From S2P Require Import Prelude Keys Message Errors.

Class Signing := {
  Keypair : Type;
  keypair_pubkey : Keypair -> Pubkey;
  (** [keypair.sign_message(&message.serialize())] *)
  keypair_sign : Keypair -> LegacyMessage -> Signature;
  (** [message.hash()], the blake3 hash of the serialized message *)
  message_hash : LegacyMessage -> Hash;
}.

(** An ed25519 signature is never the all-zero [Signature::default()], the
    value that marks a missing signature. *)
Class SigningLaws `(Signing) : Prop :=
  keypair_sign_nonzero : forall kp m, keypair_sign kp m <> 0%N.

(** ** MEV keys *)

Record MevPoolKeys := {
  mpk_pool : Pubkey;
  mpk_source : option Pubkey;
  mpk_destination : option Pubkey;
  mpk_token_a : Pubkey;
  mpk_token_b : Pubkey;
  mpk_pool_mint : Pubkey;
  mpk_pool_fee : Pubkey;
  mpk_pool_authority : Pubkey;
}.

Record MevKeys := {
  mk_pool_keys : list MevPoolKeys;
  mk_token_program : Pubkey;
  mk_user_authority : option Pubkey;
}.

(** The body of the loop of [get_readonly_accounts]. *)
Definition pool_readonly_accounts (s : gset N) (pk : MevPoolKeys) : gset N :=
  let s := {[mpk_pool_authority pk]} ∪ ({[mpk_pool pk]} ∪ s) in
  match mpk_source pk, mpk_destination pk with
  | Some _, Some _ => s
  | _, _ => {[mpk_pool_fee pk]} ∪ ({[mpk_pool_mint pk]}
              ∪ ({[mpk_token_b pk]} ∪ ({[mpk_token_a pk]} ∪ s)))
  end.

Definition get_readonly_accounts (mk : MevKeys) (readonly_accounts : gset N) : gset N :=
  let s := fold_left pool_readonly_accounts (mk_pool_keys mk) readonly_accounts in
  let s := match mk_user_authority mk with Some ua => {[ua]} ∪ s | None => s end in
  {[mk_token_program mk]} ∪ s.

(** The body of the loop of [get_write_accounts]. *)
Definition pool_write_accounts (s : gset N) (pk : MevPoolKeys) : gset N :=
  match mpk_source pk, mpk_destination pk with
  | Some source, Some destination =>
      {[mpk_pool_fee pk]} ∪ ({[mpk_pool_mint pk]} ∪ ({[mpk_token_b pk]}
        ∪ ({[mpk_token_a pk]} ∪ ({[destination]} ∪ ({[source]} ∪ s)))))
  | _, _ => s
  end.

Definition get_write_accounts (mk : MevKeys) (write_accounts : gset N) : gset N :=
  fold_left pool_write_accounts (mk_pool_keys mk) write_accounts.

(** ** Legacy transactions *)

Record Transaction := {
  tx_signatures : list Signature;
  tx_message : LegacyMessage;
}.

Inductive SignerError :=
| KeypairPubkeyMismatch
| NotEnoughSigners
| SignerTransactionError (e : TransactionError).

(** [Sanitize for Transaction]. *)
Definition transaction_sanitize (tx : Transaction) : result SanitizeError unit :=
  if (length (tx_signatures tx) <? num_required_signatures (lm_header (tx_message tx)))%nat
  then Err IndexOutOfBounds
  else if (length (lm_account_keys (tx_message tx)) <? length (tx_signatures tx))%nat
  then Err IndexOutOfBounds
  else legacy_sanitize (tx_message tx).

Definition new_unsigned (message : LegacyMessage) : Transaction :=
  {| tx_signatures := replicate (num_required_signatures (lm_header message)) 0%N;
     tx_message := message |}.

Definition get_signing_keypair_positions (tx : Transaction) (pubkeys : list Pubkey)
    : result TransactionError (list (option nat)) :=
  let m := tx_message tx in
  let req := num_required_signatures (lm_header m) in
  if (length (lm_account_keys m) <? req)%nat then Err TE.InvalidAccountIndex
  else
    let signed_keys := take req (lm_account_keys m) in
    Ok (map (fun pubkey => position pubkey signed_keys) pubkeys).

Definition is_signed (tx : Transaction) : bool :=
  forallb (fun s => negb (N.eqb s 0)) (tx_signatures tx).

(** [slice[i] = x]: panics out of range. *)
Definition vec_set {A} (l : list A) (i : nat) (x : A) : outcome (list A) :=
  if (i <? length l)%nat then Returns (<[i := x]> l) else Panics.

Fixpoint set_signatures (sigs : list Signature) (updates : list (nat * Signature))
    : outcome (list Signature) :=
  match updates with
  | [] => Returns sigs
  | (i, s) :: rest => sigs ← vec_set sigs i s; set_signatures sigs rest
  end.

Section Sign.
Context `{Signing}.

Definition set_blockhash (m : LegacyMessage) (bh : Hash) : LegacyMessage :=
  {| lm_header := lm_header m; lm_account_keys := lm_account_keys m;
     lm_recent_blockhash := bh; lm_instructions := lm_instructions m |}.

Definition try_partial_sign_unchecked (tx : Transaction) (keypairs : list Keypair)
    (positions : list nat) (recent_blockhash : Hash) : outcome (result SignerError Transaction) :=
  let tx :=
    if N.eqb recent_blockhash (lm_recent_blockhash (tx_message tx)) then tx
    else {| tx_signatures := map (fun _ => 0%N) (tx_signatures tx);
            tx_message := set_blockhash (tx_message tx) recent_blockhash |} in
  let signatures := map (fun kp => keypair_sign kp (tx_message tx)) keypairs in
  sigs ← set_signatures (tx_signatures tx) (zip positions signatures);
  Returns (Ok {| tx_signatures := sigs; tx_message := tx_message tx |}).

Definition try_partial_sign (tx : Transaction) (keypairs : list Keypair) (recent_blockhash : Hash)
    : outcome (result SignerError Transaction) :=
  match get_signing_keypair_positions tx (map keypair_pubkey keypairs) with
  | Err e => Returns (Err (SignerTransactionError e))
  | Ok positions =>
      match mapM (M := option) id positions with
      | None => Returns (Err KeypairPubkeyMismatch)
      | Some positions => try_partial_sign_unchecked tx keypairs positions recent_blockhash
      end
  end.

Definition try_sign (tx : Transaction) (keypairs : list Keypair) (recent_blockhash : Hash)
    : outcome (result SignerError Transaction) :=
  r ← try_partial_sign tx keypairs recent_blockhash;
  match r with
  | Err e => Returns (Err e)
  | Ok tx => if is_signed tx then Returns (Ok tx) else Returns (Err NotEnoughSigners)
  end.

(** [Transaction::sign]: panics on an error. *)
Definition transaction_sign (tx : Transaction) (keypairs : list Keypair) (recent_blockhash : Hash)
    : outcome Transaction :=
  r ← try_sign tx keypairs recent_blockhash;
  match r with Ok tx => Returns tx | Err _ => Panics end.

(** [Transaction::new]. *)
Definition transaction_new (keypairs : list Keypair) (message : LegacyMessage)
    (recent_blockhash : Hash) : outcome Transaction :=
  transaction_sign (new_unsigned message) keypairs recent_blockhash.

(** [Transaction::new_signed_with_payer]. *)
Definition new_signed_with_payer (instructions : list Instruction) (payer : option Pubkey)
    (keypairs : list Keypair) (recent_blockhash : Hash) : outcome Transaction :=
  message ← legacy_new instructions payer;
  transaction_new keypairs message recent_blockhash.

End Sign.

(** ** Sanitized transactions *)

Record SanitizedTransaction := {
  st_message : SanitizedMessage;
  st_message_hash : Hash;
  st_is_simple_vote_tx : bool;
  st_signatures : list Signature;
  st_mev_keys : option MevKeys;
}.

Record VersionedTransaction := {
  vt_signatures : list Signature;
  vt_message : VersionedMessage;
}.

Definition try_from_legacy_transaction `{Signing} (tx : Transaction)
    : result TransactionError SanitizedTransaction :=
  _ ← map_err sanitize_to_transaction_error (transaction_sanitize tx);
  Ok {| st_message := SanitizedLegacy (tx_message tx);
        st_message_hash := message_hash (tx_message tx);
        st_is_simple_vote_tx := false;
        st_signatures := tx_signatures tx;
        st_mev_keys := None |}.

(** [signature()]: the first signature; the slice index panics on none. *)
Definition tx_signature (tx : SanitizedTransaction) : outcome Signature :=
  unwrap (st_signatures tx !! 0%nat).

Definition to_versioned_transaction (tx : SanitizedTransaction) : VersionedTransaction :=
  {| vt_signatures := st_signatures tx;
     vt_message := match st_message tx with
                   | SanitizedV0 m => VersionedV0 (lo_message m)
                   | SanitizedLegacy m => VersionedLegacy m
                   end |}.

Definition get_loaded_addresses (tx : SanitizedTransaction) : LoadedAddresses :=
  match st_message tx with
  | SanitizedLegacy _ => {| la_writable := []; la_readonly := [] |}
  | SanitizedV0 m => lo_loaded_addresses m
  end.

(** ** Account locks of a transaction *)

Record TransactionAccountLocks := {
  tal_readonly : list Pubkey;
  tal_writable : list Pubkey;
  tal_readonly_mev : option MevKeys;
}.

(** The loop over the enumerated keys: each key goes to one of two vectors. *)
Fixpoint split_keys (m : SanitizedMessage) (i : nat) (keys : list Pubkey)
    : outcome (list Pubkey * list Pubkey) :=
  match keys with
  | [] => Returns ([], [])
  | key :: rest =>
      is_writable ← message_is_writable m i;
      '(writable, readonly) ← split_keys m (S i) rest;
      Returns (if is_writable : bool then (key :: writable, readonly)
               else (writable, key :: readonly))
  end.

Definition get_account_locks_unchecked (tx : SanitizedTransaction)
    : outcome TransactionAccountLocks :=
  '(writable, readonly) ←
    split_keys (st_message tx) 0 (account_keys_iter (message_account_keys (st_message tx)));
  Returns {| tal_readonly := readonly; tal_writable := writable;
             tal_readonly_mev := st_mev_keys tx |}.

Definition get_account_locks (tx : SanitizedTransaction) (tx_account_lock_limit : nat)
    : outcome (result TransactionError TransactionAccountLocks) :=
  if message_has_duplicates (st_message tx) then Returns (Err TE.AccountLoadedTwice)
  else if (tx_account_lock_limit <? account_keys_len (message_account_keys (st_message tx)))%nat
  then Returns (Err TE.TooManyAccountLocks)
  else locks ← get_account_locks_unchecked tx; Returns (Ok locks).

(** ** Specification *)

(** The locks of a transaction as a value; [locks_unchecked_returns] shows
    that the code computes it. *)
Definition tx_locks (tx : SanitizedTransaction) : TransactionAccountLocks :=
  match get_account_locks_unchecked tx with
  | Returns l => l
  | Panics => {| tal_readonly := []; tal_writable := []; tal_readonly_mev := None |}
  end.

(** ** Lemmas *)

(** The key vector is indexed only inside its bounds here, so the index
    check of [is_writable] cannot fail. *)
Lemma message_is_writable_in_range m i :
  (i < length (account_keys_iter (message_account_keys m)))%nat ->
  exists b, message_is_writable m i = Returns b.
Proof.
  destruct m as [m|m]; cbn [message_is_writable message_account_keys]; [|eauto].
  unfold account_keys_iter; cbn. rewrite !app_nil_r. intros Hi.
  apply lookup_lt_is_Some in Hi as [k Hk]. unfold legacy_is_writable. rewrite Hk.
  case_match; cbn; eauto.
Qed.

Lemma split_keys_returns m i keys :
  (i + length keys <= length (account_keys_iter (message_account_keys m)))%nat ->
  exists w r, split_keys m i keys = Returns (w, r) /\ w ++ r ≡ₚ keys.
Proof.
  revert i. induction keys as [|k keys IH]; intros i Hi; cbn in *; [by exists [], []|].
  destruct (message_is_writable_in_range m i) as [b ->]; [lia|].
  destruct (IH (S i)) as (w & r & -> & Hp); [lia|].
  destruct b; cbn; do 2 eexists; (split; [done|]); cbn; rewrite <- Hp; solve_Permutation.
Qed.

Lemma locks_unchecked_returns tx : get_account_locks_unchecked tx = Returns (tx_locks tx).
Proof.
  unfold tx_locks, get_account_locks_unchecked.
  destruct (split_keys_returns (st_message tx) 0
    (account_keys_iter (message_account_keys (st_message tx)))) as (w & r & -> & _); [lia|done].
Qed.

(** The keys of a transaction, each in one of the two lock lists. *)
Lemma locks_unchecked_perm tx :
  tal_writable (tx_locks tx) ++ tal_readonly (tx_locks tx)
  ≡ₚ account_keys_iter (message_account_keys (st_message tx)).
Proof.
  unfold tx_locks, get_account_locks_unchecked.
  by destruct (split_keys_returns (st_message tx) 0
    (account_keys_iter (message_account_keys (st_message tx)))) as (w & r & -> & Hp); [lia|].
Qed.

Lemma message_has_duplicates_spec m :
  message_has_duplicates m =
    negb (bool_decide (NoDup (account_keys_iter (message_account_keys m)))).
Proof.
  destruct m as [m|m]; cbn [message_has_duplicates message_account_keys].
  - rewrite legacy_has_duplicates_spec. unfold account_keys_iter; cbn.
    by rewrite !app_nil_r.
  - apply v0_has_duplicates_spec.
Qed.

(** A transaction that gets its locks names every key once, so that no key
    is in both lists or twice in one. *)
Lemma get_account_locks_Ok tx limit locks :
  get_account_locks tx limit = Returns (Ok locks) ->
  locks = tx_locks tx
  /\ NoDup (tal_writable locks ++ tal_readonly locks)
  /\ (length (tal_writable locks ++ tal_readonly locks) <= limit)%nat.
Proof.
  unfold get_account_locks.
  rewrite message_has_duplicates_spec, account_keys_len_iter, locks_unchecked_returns.
  case_bool_decide; cbn; [|done].
  destruct (Nat.ltb_spec limit (length (account_keys_iter (message_account_keys (st_message tx)))));
    intros [= <-]. rewrite locks_unchecked_perm. auto.
Qed.

(** Computing the locks never panics, and its only errors are the two that
    [unlock_accounts] skips. *)
Lemma get_account_locks_cases tx limit :
  get_account_locks tx limit = Returns (Ok (tx_locks tx))
  \/ get_account_locks tx limit = Returns (Err TE.AccountLoadedTwice)
  \/ get_account_locks tx limit = Returns (Err TE.TooManyAccountLocks).
Proof.
  unfold get_account_locks. rewrite locks_unchecked_returns. repeat case_match; cbn; auto.
Qed.

Lemma vec_set_single {A} (a x : A) : vec_set [a] 0 x = Returns [x].
Proof. done. Qed.

Section SignLemmas.
Context `{!Signing} `{!SigningLaws _}.

(** A message whose only required signer is the keypair is signed and keeps
    its content. *)
Lemma transaction_new_single kp m bh :
  lm_account_keys m !! 0%nat = Some (keypair_pubkey kp) ->
  num_required_signatures (lm_header m) = 1%nat ->
  transaction_new [kp] m bh =
    Returns {| tx_signatures := [keypair_sign kp (set_blockhash m bh)];
               tx_message := set_blockhash m bh |}.
Proof.
  intros Hk Hreq. unfold transaction_new, transaction_sign, try_sign, try_partial_sign,
    get_signing_keypair_positions, new_unsigned; cbn [tx_message map].
  rewrite Hreq. destruct (lm_account_keys m) as [|k keys] eqn:E; [done|].
  cbn in Hk. injection Hk as ->.
  replace (length _ <? 1)%nat with false by done.
  cbn [take position]. rewrite N.eqb_refl; cbn [mapM id mbind option_bind mret option_ret].
  unfold try_partial_sign_unchecked; cbn [tx_message tx_signatures].
  assert (forall s, s <> 0%N -> is_signed {| tx_signatures := [s]; tx_message := set_blockhash m bh |} = true)
    as Hsigned.
  { intros s Hs. unfold is_signed; cbn. by destruct (N.eqb_spec s 0). }
  destruct (N.eqb_spec bh (lm_recent_blockhash m)) as [->|].
  - assert (set_blockhash m (lm_recent_blockhash m) = m) as Hm by (by destruct m).
    rewrite !Hm in *. cbn -[is_signed].
    rewrite vec_set_single; cbn -[is_signed]. by rewrite Hsigned by apply keypair_sign_nonzero.
  - cbn -[is_signed]. rewrite vec_set_single; cbn -[is_signed].
    by rewrite Hsigned by apply keypair_sign_nonzero.
Qed.

End SignLemmas.
