(* ===== verification/AccountLocks.v ===== *)
(** * Account locks

    Models the locking half of runtime/src/accounts.rs: [AccountLocks], the
    lock sets that Solana-MEV extends with the pool accounts it watches
    ([get_readable_and_writable_locks_vec]), and the batch operations
    [lock_accounts] and [unlock_accounts], each of which runs under the
    [account_locks] mutex and is therefore one atomic step.

    The abstract specification is a list of held lock sets ([held]): a
    transaction may lock when it conflicts with none of them.  [represents]
    is the simulation relation between the hash tables and that list. *)

From S2P Require Import Prelude Message Errors Transaction.

(** ** Data and operations *)

Record AccountLocks := {
  write_locks : gset N;
  readonly_locks : gmap N Z;
}.

(** [AccountLocks::default()]. *)
Definition no_locks : AccountLocks := {| write_locks := ∅; readonly_locks := ∅ |}.

Definition is_locked_readonly (al : AccountLocks) (key : Pubkey) : bool :=
  match readonly_locks al !! key with Some count => 0 <? count | None => false end.

Definition is_locked_write (al : AccountLocks) (key : Pubkey) : bool :=
  bool_decide (key ∈ write_locks al).

(** [assert!(self.readonly_locks.insert(key, 1).is_none())]. *)
Definition insert_new_readonly (al : AccountLocks) (key : Pubkey) : outcome AccountLocks :=
  match readonly_locks al !! key with
  | Some _ => Panics
  | None => Returns {| write_locks := write_locks al;
                       readonly_locks := <[key := 1]> (readonly_locks al) |}
  end.

Definition lock_readonly (al : AccountLocks) (key : Pubkey) : bool * AccountLocks :=
  match readonly_locks al !! key with
  | Some count => (true, {| write_locks := write_locks al;
                            readonly_locks := <[key := wrap64 (count + 1)]> (readonly_locks al) |})
  | None => (false, al)
  end.

Definition unlock_readonly (al : AccountLocks) (key : Pubkey) : AccountLocks :=
  match readonly_locks al !! key with
  | Some count =>
      let count := wrap64 (count - 1) in
      {| write_locks := write_locks al;
         readonly_locks := if count =? 0 then delete key (readonly_locks al)
                           else <[key := count]> (readonly_locks al) |}
  | None => al
  end.

Definition unlock_write (al : AccountLocks) (key : Pubkey) : AccountLocks :=
  {| write_locks := write_locks al ∖ {[key]}; readonly_locks := readonly_locks al |}.

(** The keys to lock, [(readonly, writable)].  Collecting a [HashSet] into a
    vector yields its elements in some order; the model takes [elements]. *)
Definition get_readable_and_writable_locks_vec (writable_keys readonly_keys : list Pubkey)
    (mev_keys : option MevKeys) : list Pubkey * list Pubkey :=
  match mev_keys with
  | Some mk =>
      let readable_set := get_readonly_accounts mk (list_to_set readonly_keys) in
      let writable_set := get_write_accounts mk (list_to_set writable_keys) in
      let readable_set := readable_set ∖ writable_set in
      (elements readable_set, elements writable_set)
  | None => (readonly_keys, writable_keys)
  end.

(** [if !account_locks.lock_readonly(k) { account_locks.insert_new_readonly(k) }] *)
Definition take_readonly (al : AccountLocks) (key : Pubkey) : outcome AccountLocks :=
  let '(locked, al) := lock_readonly al key in
  if locked then Returns al else insert_new_readonly al key.

Fixpoint take_readonly_all (al : AccountLocks) (keys : list Pubkey) : outcome AccountLocks :=
  match keys with
  | [] => Returns al
  | k :: rest => al ← take_readonly al k; take_readonly_all al rest
  end.

Definition insert_write (al : AccountLocks) (key : Pubkey) : AccountLocks :=
  {| write_locks := {[key]} ∪ write_locks al; readonly_locks := readonly_locks al |}.

Definition lock_account (al : AccountLocks) (writable_keys readonly_keys : list Pubkey)
    (mev_keys : option MevKeys) : outcome (result TransactionError unit * AccountLocks) :=
  let '(all_read_only_keys, all_writable_keys) :=
    get_readable_and_writable_locks_vec writable_keys readonly_keys mev_keys in
  if existsb (fun k => is_locked_write al k || is_locked_readonly al k) all_writable_keys
  then Returns (Err TE.AccountInUse, al)
  else if existsb (is_locked_write al) all_read_only_keys
  then Returns (Err TE.AccountInUse, al)
  else
    let al := fold_left insert_write all_writable_keys al in
    al ← take_readonly_all al all_read_only_keys;
    Returns (Ok tt, al).

Definition unlock_account (al : AccountLocks) (writable_keys readonly_keys : list Pubkey)
    (mev_keys : option MevKeys) : AccountLocks :=
  let '(all_read_only_keys, all_writable_keys) :=
    get_readable_and_writable_locks_vec writable_keys readonly_keys mev_keys in
  fold_left unlock_readonly all_read_only_keys (fold_left unlock_write all_writable_keys al).

Fixpoint lock_accounts_inner (al : AccountLocks)
    (rs : list (result TransactionError TransactionAccountLocks))
    : outcome (list (result TransactionError unit) * AccountLocks) :=
  match rs with
  | [] => Returns ([], al)
  | r :: rest =>
      '(res, al) ← match r with
                   | Ok l => lock_account al (tal_writable l) (tal_readonly l) (tal_readonly_mev l)
                   | Err err => Returns (Err err, al)
                   end;
      '(ress, al) ← lock_accounts_inner al rest;
      Returns (res :: ress, al)
  end.

Definition lock_accounts (al : AccountLocks) (txs : list SanitizedTransaction)
    (tx_account_lock_limit : nat) : outcome (list (result TransactionError unit) * AccountLocks) :=
  rs ← map_outcome (fun tx => get_account_locks tx tx_account_lock_limit) txs;
  lock_accounts_inner al rs.

Definition lock_accounts_with_results (al : AccountLocks) (txs : list SanitizedTransaction)
    (results : list (result TransactionError unit)) (tx_account_lock_limit : nat)
    : outcome (list (result TransactionError unit) * AccountLocks) :=
  rs ← map_outcome (fun '(tx, res) => match res with
                                      | Ok _ => get_account_locks tx tx_account_lock_limit
                                      | Err err => Returns (Err err)
                                      end) (zip txs results);
  lock_accounts_inner al rs.

(** The results after which [unlock_accounts] leaves a transaction alone. *)
Definition never_locked (r : result TransactionError unit) : bool :=
  match r with
  | Err TE.AccountLoadedTwice | Err TE.AccountInUse | Err TE.SanitizeFailure
  | Err TE.TooManyAccountLocks | Err TE.WouldExceedMaxBlockCostLimit
  | Err TE.WouldExceedMaxVoteCostLimit | Err TE.WouldExceedMaxAccountCostLimit
  | Err TE.WouldExceedAccountDataBlockLimit | Err TE.WouldExceedAccountDataTotalLimit => true
  | _ => false
  end.

Definition unlock_accounts (al : AccountLocks) (txs : list SanitizedTransaction)
    (results : list (result TransactionError unit)) : outcome AccountLocks :=
  let to_unlock := List.filter (fun '(tx, res) => negb (never_locked res)) (zip txs results) in
  keys ← map_outcome (fun '(tx, _) => get_account_locks_unchecked tx) to_unlock;
  Returns (fold_left
    (fun al l => unlock_account al (tal_writable l) (tal_readonly l) (tal_readonly_mev l)) keys al).

(** ** Specification: the held lock sets *)

(** The write set and the read set of one transaction. *)
Record lockset := { ls_write : gset N; ls_read : gset N }.

(** What a transaction locks: the sets behind
    [get_readable_and_writable_locks_vec]. *)
Definition lockset_of (l : TransactionAccountLocks) : lockset :=
  let '(r, w) :=
    get_readable_and_writable_locks_vec (tal_writable l) (tal_readonly l) (tal_readonly_mev l) in
  {| ls_write := list_to_set w; ls_read := list_to_set r |}.

(** Two lock sets conflict when one writes what the other reads or writes. *)
Definition compatible (a b : lockset) : Prop :=
  ls_write a ## ls_write b /\ ls_write a ## ls_read b /\ ls_read a ## ls_write b.

(** The vectors of a well-formed transaction: no key twice, no key in both. *)
Definition locks_wf (l : TransactionAccountLocks) : Prop :=
  NoDup (tal_writable l ++ tal_readonly l).

Definition readers (held : list lockset) (k : N) : nat :=
  length (List.filter (fun h => bool_decide (k ∈ ls_read h)) held).
#[global] Arguments readers : simpl never.

(** The simulation relation: the tables describe the list of held sets. *)
Record represents (held : list lockset) (al : AccountLocks) : Prop := {
  rep_write : forall k, k ∈ write_locks al <-> exists h, h ∈ held /\ k ∈ ls_write h;
  rep_read : forall k, readonly_locks al !! k =
               (if decide (readers held k = 0%nat) then None
                else Some (Z.of_nat (readers held k)));
  rep_compat : ForallOrdPairs compatible held;
  rep_bound : Z.of_nat (length held) <= U64_MAX;
}.

(** ** The lock service as a transition system *)

(** The locks table and the batches that hold locks: their transactions and
    the lock results that [TransactionBatch] keeps for unlocking. *)
Record lock_state := {
  ls_table : AccountLocks;
  ls_batches : list (list SanitizedTransaction * list (result TransactionError unit));
}.

(** The lock sets a batch holds: those of the transactions locked with [Ok]. *)
Definition batch_locksets (txs : list SanitizedTransaction)
    (results : list (result TransactionError unit)) : list lockset :=
  omap (fun '(tx, r) => if is_ok r then Some (lockset_of (tx_locks tx)) else None)
    (zip txs results).

#[global] Arguments batch_locksets : simpl never.

Definition held_locksets (s : lock_state) : list lockset :=
  concat (map (fun '(txs, rs) => batch_locksets txs rs) (ls_batches s)).

(** A result with which a batch may be prepared: the quality-of-service
    check answers [Ok] or one of the limit errors. *)
Definition may_prepare (r : result TransactionError unit) : bool := is_ok r || never_locked r.

(** One thread prepares a batch, or one thread drops a batch it holds; the
    mutex makes each a single step.  Fewer than 2^64 locks are held. *)
Inductive lock_step (limit : nat) : lock_state -> lock_state -> Prop :=
| step_prepare al batches txs qos results al' :
    forallb may_prepare qos = true ->
    Z.of_nat (length (held_locksets {| ls_table := al; ls_batches := batches |}) + length txs)
      <= U64_MAX ->
    lock_accounts_with_results al txs qos limit = Returns (results, al') ->
    lock_step limit {| ls_table := al; ls_batches := batches |}
      {| ls_table := al'; ls_batches := (txs, results) :: batches |}
| step_drop al b1 b2 txs results al' :
    unlock_accounts al txs results = Returns al' ->
    lock_step limit {| ls_table := al; ls_batches := b1 ++ (txs, results) :: b2 |}
      {| ls_table := al'; ls_batches := b1 ++ b2 |}.

Definition lock_reachable (limit : nat) : lock_state -> Prop :=
  rtc (lock_step limit) {| ls_table := no_locks; ls_batches := [] |}.

(** What a prepared batch guarantees to [unlock_accounts]: every result is
    [Ok] with well-formed locks, or an error that is skipped. *)
Definition batch_ok (txs : list SanitizedTransaction)
    (results : list (result TransactionError unit)) : Prop :=
  Forall (fun '(tx, r) => may_prepare r = true /\ (is_ok r = true -> locks_wf (tx_locks tx)))
    (zip txs results).

(** The invariant of the transition system. *)
Definition lock_inv (s : lock_state) : Prop :=
  represents (held_locksets s) (ls_table s)
  /\ Forall (fun '(txs, rs) => batch_ok txs rs) (ls_batches s).

(** What locking and unlocking do to the count of one key. *)
Definition tick (o : option Z) : option Z :=
  Some (match o with Some c => wrap64 (c + 1) | None => 1 end).
Definition untick (o : option Z) : option Z :=
  match o with
  | Some c => if wrap64 (c - 1) =? 0 then None else Some (wrap64 (c - 1))
  | None => None
  end.

Definition alter_all (f : option Z -> option Z) (ks : list N) (m : gmap N Z) : gmap N Z :=
  fold_left (fun m k => partial_alter f k m) ks m.

(** ** Lemmas: the primitive operations *)

Lemma compatible_sym a b : compatible a b -> compatible b a.
Proof. unfold compatible. set_solver. Qed.

Lemma readers_cons h held k :
  readers (h :: held) k = ((if decide (k ∈ ls_read h) then 1 else 0) + readers held k)%nat.
Proof. unfold readers; cbn. case_bool_decide; case_decide; done. Qed.

Lemma readers_le held k : (readers held k <= length held)%nat.
Proof. unfold readers. apply List.filter_length_le. Qed.

Lemma readers_pos held k : readers held k <> 0%nat <-> exists h, h ∈ held /\ k ∈ ls_read h.
Proof.
  induction held as [|h held IH].
  { split; [done|]. intros (h & Hh & _). by apply not_elem_of_nil in Hh. }
  rewrite readers_cons. setoid_rewrite elem_of_cons. case_decide; [split; [eauto|lia]|].
  cbn. rewrite IH. naive_solver.
Qed.

Lemma readers_app h1 h2 k : readers (h1 ++ h2) k = (readers h1 k + readers h2 k)%nat.
Proof. unfold readers. by rewrite List.filter_app, length_app. Qed.

Lemma ForallOrdPairs_perm l l' :
  l ≡ₚ l' -> ForallOrdPairs compatible l -> ForallOrdPairs compatible l'.
Proof.
  induction 1 as [| x l l' Hp IH | x y l | l l' l'' ? IH1 ? IH2]; intros Hl; auto.
  - inversion Hl; subst. constructor; [by rewrite <- Hp|auto].
  - inversion Hl as [|? ? Hy Hl']; subst. inversion Hl' as [|? ? Hx Hl'']; subst.
    inversion Hy; subst.
    constructor; [constructor; [by apply compatible_sym|done]|by constructor].
Qed.

Lemma represents_perm_impl held held' al :
  held ≡ₚ held' -> represents held al -> represents held' al.
Proof.
  intros Hp [Hw Hr Hc Hb].
  assert (forall k, readers held' k = readers held k) as Hn.
  { intros k. clear -Hp. induction Hp; rewrite ?readers_cons; try lia. }
  split.
  - intros k. rewrite Hw. by setoid_rewrite Hp.
  - intros k. by rewrite Hn.
  - by eapply ForallOrdPairs_perm.
  - by rewrite <- Hp.
Qed.

(** The order of the held sets does not matter. *)
#[global] Instance represents_proper : Proper ((≡ₚ) ==> (=) ==> iff) represents.
Proof.
  intros h h' Hp al ? <-. split; apply represents_perm_impl; [done|by symmetry].
Qed.

Lemma fold_insert_write ks al :
  fold_left insert_write ks al =
    {| write_locks := list_to_set ks ∪ write_locks al; readonly_locks := readonly_locks al |}.
Proof.
  revert al. induction ks as [|k ks IH]; intros al; cbn.
  - destruct al; cbn. f_equal. set_solver.
  - rewrite IH; cbn. f_equal. set_solver.
Qed.

Lemma fold_unlock_write ks al :
  fold_left unlock_write ks al =
    {| write_locks := write_locks al ∖ list_to_set ks; readonly_locks := readonly_locks al |}.
Proof.
  revert al. induction ks as [|k ks IH]; intros al; cbn.
  - destruct al; cbn. f_equal. set_solver.
  - rewrite IH; cbn. f_equal. set_solver.
Qed.

(** The assertion of [insert_new_readonly] never fails: it runs only when
    [lock_readonly] has found no entry. *)
Lemma take_readonly_returns al k :
  take_readonly al k = Returns {| write_locks := write_locks al;
                                  readonly_locks := partial_alter tick k (readonly_locks al) |}.
Proof.
  unfold take_readonly, lock_readonly, insert_new_readonly.
  destruct (readonly_locks al !! k) as [c|] eqn:E; cbn; rewrite ?E; do 2 f_equal;
    apply map_eq; intros k'; (destruct (decide (k' = k)) as [->|];
      [rewrite lookup_insert_eq, lookup_partial_alter_eq, E; done
      |rewrite lookup_insert_ne, lookup_partial_alter_ne; done]).
Qed.

Lemma unlock_readonly_alter al k :
  unlock_readonly al k = {| write_locks := write_locks al;
                            readonly_locks := partial_alter untick k (readonly_locks al) |}.
Proof.
  unfold unlock_readonly. destruct (readonly_locks al !! k) as [c|] eqn:E.
  - f_equal. apply map_eq. intros k'. destruct (decide (k' = k)) as [->|].
    + rewrite lookup_partial_alter_eq, E; cbn.
      case_match; by rewrite ?lookup_delete_eq, ?lookup_insert_eq.
    + rewrite lookup_partial_alter_ne by done.
      case_match; by rewrite ?lookup_delete_ne, ?lookup_insert_ne.
  - destruct al as [w m]; cbn in *. f_equal. apply map_eq. intros k'.
    destruct (decide (k' = k)) as [->|].
    + by rewrite lookup_partial_alter_eq, E.
    + by rewrite lookup_partial_alter_ne.
Qed.

Lemma lookup_alter_all f ks m k :
  NoDup ks -> alter_all f ks m !! k = if decide (k ∈ ks) then f (m !! k) else m !! k.
Proof.
  revert m. unfold alter_all. induction ks as [|k' ks IH]; intros m Hnd; cbn.
  { by rewrite decide_False by apply not_elem_of_nil. }
  apply NoDup_cons in Hnd as [Hk' Hnd]. rewrite IH by done.
  destruct (decide (k = k')) as [->|Hne].
  - rewrite decide_False, decide_True by set_solver. by rewrite lookup_partial_alter_eq.
  - rewrite lookup_partial_alter_ne by done.
    destruct (decide (k ∈ ks)); [rewrite decide_True by set_solver
                                |rewrite decide_False by set_solver]; done.
Qed.

Lemma take_readonly_all_returns ks al :
  take_readonly_all al ks = Returns {| write_locks := write_locks al;
                                       readonly_locks := alter_all tick ks (readonly_locks al) |}.
Proof.
  revert al. induction ks as [|k ks IH]; intros al; cbn; [by destruct al|].
  rewrite take_readonly_returns; cbn. apply IH.
Qed.

Lemma fold_unlock_readonly ks al :
  fold_left unlock_readonly ks al =
    {| write_locks := write_locks al; readonly_locks := alter_all untick ks (readonly_locks al) |}.
Proof.
  revert al. induction ks as [|k ks IH]; intros al; cbn; [by destruct al|].
  rewrite unlock_readonly_alter, IH. done.
Qed.

(** ** Lemmas: one transaction refines the specification *)

Lemma locks_vec_wf l :
  locks_wf l ->
  let '(r, w) :=
    get_readable_and_writable_locks_vec (tal_writable l) (tal_readonly l) (tal_readonly_mev l) in
  NoDup r /\ (forall k, k ∈ r -> k ∈ w -> False).
Proof.
  unfold locks_wf, get_readable_and_writable_locks_vec. intros Hwf.
  destruct (tal_readonly_mev l) as [mk|].
  - split; [apply NoDup_elements|]. intros k. rewrite !elem_of_elements. set_solver.
  - apply NoDup_app in Hwf as (? & ? & ?). split; [done|]. naive_solver.
Qed.

Lemma readers_Some held al k c :
  represents held al -> readonly_locks al !! k = Some c ->
  c = Z.of_nat (readers held k) /\ readers held k <> 0%nat.
Proof. intros [_ Hr _ _]. rewrite Hr. case_decide; naive_solver. Qed.

Lemma is_locked_write_spec held al k :
  represents held al -> is_locked_write al k = true <-> exists h, h ∈ held /\ k ∈ ls_write h.
Proof. intros Hrep. unfold is_locked_write. rewrite bool_decide_eq_true. apply Hrep. Qed.

Lemma is_locked_readonly_spec held al k :
  represents held al -> is_locked_readonly al k = true <-> exists h, h ∈ held /\ k ∈ ls_read h.
Proof.
  intros Hrep. rewrite <- readers_pos. unfold is_locked_readonly. rewrite (rep_read _ _ Hrep).
  case_decide; [naive_solver|]. rewrite Z.ltb_lt. lia.
Qed.

Lemma existsb_false_forall {A} (f : A -> bool) l :
  existsb f l = false -> forall x, x ∈ l -> f x = false.
Proof.
  intros H x Hx. destruct (f x) eqn:E; [|done].
  rewrite <- H. symmetry. apply existsb_exists. exists x. by rewrite <- list_elem_of_In.
Qed.

Lemma existsb_true_elem {A} (f : A -> bool) l :
  existsb f l = true -> exists x, x ∈ l /\ f x = true.
Proof. intros (x & Hx & ?)%existsb_exists. exists x. by rewrite list_elem_of_In. Qed.

(** The two scans of [lock_account] decide compatibility with what is held. *)
Lemma lock_scans_spec held al l r w :
  represents held al ->
  get_readable_and_writable_locks_vec (tal_writable l) (tal_readonly l) (tal_readonly_mev l)
    = (r, w) ->
  existsb (fun k => is_locked_write al k || is_locked_readonly al k) w
    || existsb (is_locked_write al) r = false
  <-> Forall (compatible (lockset_of l)) held.
Proof.
  intros Hrep E. unfold lockset_of. rewrite E. rewrite orb_false_iff, Forall_forall. split.
  - intros [Hw Hr] h Hh. unfold compatible; cbn.
    pose proof (existsb_false_forall _ _ Hw) as Hw'. pose proof (existsb_false_forall _ _ Hr) as Hr'.
    cbn in Hw'. setoid_rewrite orb_false_iff in Hw'.
    split_and!; intros k; rewrite elem_of_list_to_set; intros Hk Hk'.
    + destruct (Hw' k Hk) as [HF _]. apply eq_true_false_abs in HF; [done|].
      apply (is_locked_write_spec held); eauto.
    + destruct (Hw' k Hk) as [_ HF]. apply eq_true_false_abs in HF; [done|].
      apply (is_locked_readonly_spec held); eauto.
    + specialize (Hr' k Hk). apply eq_true_false_abs in Hr'; [done|].
      apply (is_locked_write_spec held); eauto.
  - intros Hc. split; apply not_true_is_false; intros (k & Hk & HT)%existsb_true_elem.
    + apply orb_true_iff in HT as [(h & Hh & Hkh)%(is_locked_write_spec held)
                                  |(h & Hh & Hkh)%(is_locked_readonly_spec held)]; try done;
        specialize (Hc h Hh) as (H1 & H2 & H3); cbn in *; set_solver.
    + apply (is_locked_write_spec held) in HT as (h & Hh & Hkh); [|done].
      specialize (Hc h Hh) as (H1 & H2 & H3); cbn in *; set_solver.
Qed.

(** The tables after the locks of [l] are added. *)
Lemma represents_lock held al l r w :
  represents held al -> locks_wf l -> Z.of_nat (length held) < U64_MAX ->
  Forall (compatible (lockset_of l)) held ->
  get_readable_and_writable_locks_vec (tal_writable l) (tal_readonly l) (tal_readonly_mev l)
    = (r, w) ->
  represents (lockset_of l :: held)
    {| write_locks := list_to_set w ∪ write_locks al;
       readonly_locks := alter_all tick r (readonly_locks al) |}.
Proof.
  intros Hrep Hwf Hlen Hc E. pose proof (locks_vec_wf l Hwf) as Hv. rewrite E in Hv.
  destruct Hv as [Hnd _]. unfold lockset_of in *. rewrite E in *. split; cbn.
  - intros k. rewrite elem_of_union, elem_of_list_to_set, (rep_write _ _ Hrep).
    setoid_rewrite elem_of_cons. split.
    + intros [Hk|(h & ? & ?)]; [|eauto]. eexists. split; [by left|]. cbn. set_solver.
    + intros (h & [->|Hh] & Hk); [left; cbn in *; set_solver|eauto].
  - intros k. rewrite lookup_alter_all by done. rewrite readers_cons; cbn.
    pose proof (readers_le held k). rewrite (rep_read _ _ Hrep k).
    destruct (decide (k ∈ r)) as [Hk|Hk].
    + rewrite (decide_True (P := k ∈ list_to_set r)) by set_solver.
      rewrite (decide_False (P := (1 + _ = 0)%nat)) by lia. unfold tick. f_equal.
      case_decide; [lia|]. rewrite wrap64_small; [lia|u_unfold; lia].
    + rewrite (decide_False (P := k ∈ list_to_set r)) by set_solver. done.
  - constructor; [done|apply Hrep].
  - cbn. lia.
Qed.

(** [lock_account] takes the locks exactly when the transaction is
    compatible with everything held, and otherwise changes nothing. *)
Lemma lock_account_cases held al l :
  represents held al -> locks_wf l -> Z.of_nat (length held) < U64_MAX ->
  (Forall (compatible (lockset_of l)) held /\
     exists al', lock_account al (tal_writable l) (tal_readonly l) (tal_readonly_mev l)
                   = Returns (Ok tt, al')
       /\ represents (lockset_of l :: held) al')
  \/ (~ Forall (compatible (lockset_of l)) held /\
      lock_account al (tal_writable l) (tal_readonly l) (tal_readonly_mev l)
        = Returns (Err TE.AccountInUse, al)).
Proof.
  intros Hrep Hwf Hlen. unfold lock_account.
  destruct (get_readable_and_writable_locks_vec _ _ _) as [r w] eqn:E.
  pose proof (lock_scans_spec held al l r w Hrep E) as Hs.
  destruct (existsb _ w) eqn:Hw; [right; split; [by rewrite <- Hs|done]|].
  destruct (existsb _ r) eqn:Hr; [right; split; [by rewrite <- Hs|done]|].
  left. assert (Forall (compatible (lockset_of l)) held) as Hc by by apply Hs.
  split; [done|]. rewrite fold_insert_write, take_readonly_all_returns; cbn.
  eexists. split; [done|]. by apply represents_lock.
Qed.

(** Unlocking a held transaction gives back exactly its locks. *)
Lemma unlock_account_refines held al l :
  represents (lockset_of l :: held) al -> locks_wf l ->
  represents held (unlock_account al (tal_writable l) (tal_readonly l) (tal_readonly_mev l)).
Proof.
  intros Hrep Hwf. pose proof (locks_vec_wf l Hwf) as Hv. unfold unlock_account, lockset_of in *.
  destruct (get_readable_and_writable_locks_vec _ _ _) as [r w] eqn:E.
  destruct Hv as [Hnd _]. rewrite fold_unlock_write, fold_unlock_readonly; cbn.
  destruct Hrep as [Hw Hr Hc Hb]. inversion Hc as [|? ? Hc0 Hc']; subst. split; cbn.
  - intros k. rewrite elem_of_difference, elem_of_list_to_set, Hw. setoid_rewrite elem_of_cons.
    rewrite Forall_forall in Hc0. split.
    + intros [(h & [->|Hh] & Hk) Hn]; [cbn in *; set_solver|eauto].
    + intros (h & Hh & Hk). split; [eauto|].
      destruct (Hc0 h Hh) as (H1 & _ & _); cbn in H1. set_solver.
  - intros k. rewrite lookup_alter_all by done. rewrite Hr, readers_cons; cbn.
    pose proof (readers_le held k). cbn in Hb. destruct (decide (k ∈ r)) as [Hk|Hk].
    + rewrite (decide_True (P := k ∈ list_to_set r)) by set_solver.
      rewrite (decide_False (P := (1 + _ = 0)%nat)) by lia. unfold untick.
      rewrite wrap64_small by (u_unfold; lia).
      destruct (Z.eqb_spec (Z.of_nat (1 + readers held k) - 1) 0); case_decide; try lia; f_equal; lia.
    + rewrite (decide_False (P := k ∈ list_to_set r)) by set_solver. done.
  - done.
  - cbn in Hb. lia.
Qed.

(** The held sets determine the tables. *)
Lemma represents_inj held al al' : represents held al -> represents held al' -> al = al'.
Proof.
  intros [Hw Hr _ _] [Hw' Hr' _ _]. destruct al as [w m], al' as [w' m']; cbn in *. f_equal.
  - apply set_eq. intros k. by rewrite Hw, Hw'.
  - apply map_eq. intros k. by rewrite Hr, Hr'.
Qed.

(** ** Lemmas: batches *)

Lemma batch_locksets_cons tx txs r rs :
  batch_locksets (tx :: txs) (r :: rs) =
    (if is_ok r then [lockset_of (tx_locks tx)] else []) ++ batch_locksets txs rs.
Proof. unfold batch_locksets; cbn. by destruct (is_ok r). Qed.

Lemma lock_inner_cons al r rs :
  lock_accounts_inner al (r :: rs) =
    '(res, al) ← match r with
                 | Ok l => lock_account al (tal_writable l) (tal_readonly l) (tal_readonly_mev l)
                 | Err err => Returns (Err err, al)
                 end;
    '(ress, al) ← lock_accounts_inner al rs;
    Returns (res :: ress, al).
Proof. done. Qed.

Lemma with_results_cons al tx txs q qos limit :
  lock_accounts_with_results al (tx :: txs) (q :: qos) limit =
    r ← match q with Ok _ => get_account_locks tx limit | Err err => Returns (Err err) end;
    '(res, al) ← match r with
                 | Ok l => lock_account al (tal_writable l) (tal_readonly l) (tal_readonly_mev l)
                 | Err err => Returns (Err err, al)
                 end;
    '(ress, al) ← lock_accounts_with_results al txs qos limit;
    Returns (res :: ress, al).
Proof.
  unfold lock_accounts_with_results; cbn [zip zip_with map_outcome].
  destruct (match q with Ok _ => _ | Err _ => _ end) as [r|]; cbn; [|done].
  destruct (map_outcome _ _) as [rs|]; cbn; [done|].
  by destruct r; cbn; [destruct (lock_account _ _ _ _) as [[? ?]|]|].
Qed.

Lemma lock_batch_refines txs qos limit : forall held al,
  represents held al -> forallb may_prepare qos = true ->
  Z.of_nat (length held + length txs) <= U64_MAX ->
  exists results al', lock_accounts_with_results al txs qos limit = Returns (results, al')
    /\ represents (batch_locksets txs results ++ held) al'
    /\ batch_ok txs results /\ length results = Nat.min (length txs) (length qos).
Proof.
  revert qos. induction txs as [|tx txs IH]; intros [|q qos] held al Hrep Hq Hlen;
    try (exists [], al; split_and!; [done|exact Hrep|constructor|cbn; lia]).
  cbn in Hq, Hlen. apply andb_true_iff in Hq as [Hq0 Hq]. rewrite with_results_cons.
  assert (forall e, never_locked (Err e) = true ->
    exists results al',
      ('(ress, al) ← lock_accounts_with_results al txs qos limit; Returns (Err e :: ress, al))
        = Returns (results, al')
      /\ represents (batch_locksets (tx :: txs) results ++ held) al'
      /\ batch_ok (tx :: txs) results
      /\ length results = Nat.min (length (tx :: txs)) (length (q :: qos))) as Hskip.
  { intros e He. destruct (IH qos held al) as (rs & al' & -> & Hr & Hok & Hl); [done..|lia|].
    exists (Err e :: rs), al'. split_and!; [done|by rewrite batch_locksets_cons| |cbn; lia].
    constructor; [|done]. unfold may_prepare; cbn in *. by rewrite He. }
  destruct q as [[]|e]; cbn; [|by apply Hskip].
  destruct (get_account_locks_cases tx limit) as [E|[E|E]]; [|rewrite E; by apply Hskip..].
  pose proof (get_account_locks_Ok _ _ _ E) as (_ & Hwf & _). rewrite E; cbn.
  destruct (lock_account_cases held al (tx_locks tx)) as [(_ & al1 & -> & Hr1)|(_ & ->)];
    [done..|lia| |by apply Hskip].
  cbn. destruct (IH qos (lockset_of (tx_locks tx) :: held) al1)
    as (rs & al' & -> & Hr & Hok & Hl); [done..|cbn; lia|].
  exists (Ok tt :: rs), al'. split_and!; [done| |by constructor|cbn; lia].
  rewrite batch_locksets_cons; cbn. by rewrite Permutation_middle.
Qed.

Lemma unlock_accounts_cons al tx txs r rs :
  unlock_accounts al (tx :: txs) (r :: rs) =
    unlock_accounts (if never_locked r then al
                     else unlock_account al (tal_writable (tx_locks tx)) (tal_readonly (tx_locks tx))
                            (tal_readonly_mev (tx_locks tx))) txs rs.
Proof.
  unfold unlock_accounts; cbn [zip zip_with List.filter]. destruct (never_locked r); cbn; [done|].
  rewrite locks_unchecked_returns; cbn. by destruct (map_outcome _ _).
Qed.

Lemma unlock_batch_refines txs results : forall held al,
  represents (batch_locksets txs results ++ held) al -> batch_ok txs results ->
  exists al', unlock_accounts al txs results = Returns al' /\ represents held al'.
Proof.
  revert results. induction txs as [|tx txs IH]; intros [|r rs] held al Hrep Hok;
    try (by exists al).
  rewrite unlock_accounts_cons. rewrite batch_locksets_cons in Hrep.
  unfold batch_ok in Hok; cbn in Hok. apply Forall_cons in Hok as [[Hp Hwf] Hok'].
  unfold may_prepare in Hp.
  destruct r as [[]|e]; cbn in *.
  - apply IH; [|done]. apply unlock_account_refines; auto.
  - rewrite Hp. by apply IH.
Qed.

(** ** Lemmas: the transition system *)

Lemma lock_inv_step limit s s' : lock_step limit s s' -> lock_inv s -> lock_inv s'.
Proof.
  intros Hstep [Hrep Hok].
  destruct Hstep as [al bs txs qos rs al' Hq Hlen E | al b1 b2 txs rs al' E]; cbn in *.
  - destruct (lock_batch_refines txs qos limit _ _ Hrep Hq Hlen) as (rs' & al1 & E' & Hr & Hb & _).
    rewrite E in E'. injection E' as <- <-. split; [done|]. by constructor.
  - apply Forall_app in Hok as [Hok1 Hok2]. inversion Hok2; subst.
    unfold held_locksets in *; cbn in *. rewrite map_app, concat_app in *; cbn in *.
    rewrite Permutation_app_swap_app in Hrep.
    destruct (unlock_batch_refines txs rs _ _ Hrep) as (al1 & E' & Hr); [done|].
    rewrite E in E'. injection E' as <-. split; [|by apply Forall_app].
    unfold held_locksets; cbn. by rewrite map_app, concat_app.
Qed.

Lemma lock_inv_reachable limit s : lock_reachable limit s -> lock_inv s.
Proof.
  unfold lock_reachable. intros H.
  refine (rtc_ind_l (fun x => lock_inv x -> lock_inv s) s _ _ _ H _); [done| |].
  - intros x y Hxy _ IH Hx. apply IH. by eapply lock_inv_step.
  - split; [|constructor]. split; cbn; [|done|constructor|done].
    intros k. split; [set_solver|]. intros (h & Hh & _). by apply not_elem_of_nil in Hh.
Qed.

Lemma ForallOrdPairs_lookup held i j a b :
  ForallOrdPairs compatible held -> i <> j ->
  held !! i = Some a -> held !! j = Some b -> compatible a b.
Proof.
  intros H. revert i j. induction H as [|h held Hh H IH]; intros i j Hij Hi Hj; [done|].
  rewrite Forall_forall in Hh. destruct i as [|i], j as [|j]; cbn in *; simplify_eq.
  - apply Hh. by eapply list_elem_of_lookup_2.
  - apply compatible_sym, Hh. by eapply list_elem_of_lookup_2.
  - eapply (IH i j); eauto.
Qed.

(** ** Sample transactions for the witnesses *)

Definition sample_message (payer target : Pubkey) : LegacyMessage :=
  {| lm_header := {| num_required_signatures := 1; num_readonly_signed_accounts := 0;
                     num_readonly_unsigned_accounts := 1 |};
     lm_account_keys := [payer; target; 900%N];
     lm_recent_blockhash := 7%N;
     lm_instructions := [{| program_id_index := 2; ci_accounts := [0%nat; 1%nat]; ci_data := [] |}] |}.

Definition sample_tx (payer target : Pubkey) : SanitizedTransaction :=
  {| st_message := SanitizedLegacy (sample_message payer target);
     st_message_hash := 1%N; st_is_simple_vote_tx := false; st_signatures := [5%N];
     st_mev_keys := None |}.

(** ** Properties *)

(** [lock_account] refines the specification "a transaction may lock when it
    conflicts with nothing that is held".  Whenever the tables represent the
    held lock sets, the call returns (its internal assertion cannot fail); it
    answers [Ok] exactly when the transaction's read and write sets, with the
    monitored pool accounts included, are compatible with every held set, and
    then the tables represent the extended list; otherwise it answers
    [AccountInUse] and leaves the tables untouched. *)
Theorem lock_account_refines (held : list lockset) (al : AccountLocks)
    (l : TransactionAccountLocks) (Hrep : represents held al) (Hwf : locks_wf l)
    (Hlen : Z.of_nat (length held) < U64_MAX) :
  exists r al', lock_account al (tal_writable l) (tal_readonly l) (tal_readonly_mev l)
                  = Returns (r, al')
    /\ (r = Ok tt <-> Forall (compatible (lockset_of l)) held)
    /\ (r = Ok tt -> represents (lockset_of l :: held) al')
    /\ (r <> Ok tt -> r = Err TE.AccountInUse /\ al' = al).
Proof.
  destruct (lock_account_cases held al l Hrep Hwf Hlen) as [(Hc & al' & -> & Hr)|(Hc & ->)].
  - exists (Ok tt), al'. naive_solver.
  - exists (Err TE.AccountInUse), al. naive_solver.
Qed.

Lemma represents_no_locks : represents [] no_locks.
Proof.
  split; cbn; [|done|constructor|done].
  intros k. split; [set_solver|]. intros (h & Hh & _). by apply not_elem_of_nil in Hh.
Qed.

Lemma lock_account_refines_witness :
  exists r al', lock_account no_locks [1%N; 2%N] [3%N] None = Returns (r, al')
    /\ (r = Ok tt <-> Forall (compatible (lockset_of {| tal_readonly := [3%N];
          tal_writable := [1%N; 2%N]; tal_readonly_mev := None |})) [])
    /\ (r = Ok tt -> represents [lockset_of {| tal_readonly := [3%N];
          tal_writable := [1%N; 2%N]; tal_readonly_mev := None |}] al')
    /\ (r <> Ok tt -> r = Err TE.AccountInUse /\ al' = no_locks).
Proof.
  apply (lock_account_refines [] no_locks
    {| tal_readonly := [3%N]; tal_writable := [1%N; 2%N]; tal_readonly_mev := None |}).
  - apply represents_no_locks.
  - unfold locks_wf; cbn. by apply (bool_decide_unpack _).
  - cbn. unfold U64_MAX. lia.
Defined.

(** C10: Mutual exclusion.  In every state the lock service reaches, by any
    interleaving of batch preparations and batch drops, two different
    transactions that hold locks never conflict: neither writes an account
    the other reads or writes; and an account is marked write-locked exactly
    when some holder writes it. *)
Theorem account_locks_mutual_exclusion (limit : nat) (s : lock_state)
    (Hs : lock_reachable limit s) :
  (forall i j a b, i <> j -> held_locksets s !! i = Some a -> held_locksets s !! j = Some b ->
     compatible a b)
  /\ (forall k, is_locked_write (ls_table s) k = true <->
        exists h, h ∈ held_locksets s /\ k ∈ ls_write h)
  /\ (forall k, is_locked_readonly (ls_table s) k = true <->
        exists h, h ∈ held_locksets s /\ k ∈ ls_read h).
Proof.
  destruct (lock_inv_reachable limit s Hs) as [Hrep _]. split_and!.
  - intros i j a b. apply ForallOrdPairs_lookup, Hrep.
  - intros k. by apply is_locked_write_spec.
  - intros k. by apply is_locked_readonly_spec.
Qed.

Lemma account_locks_mutual_exclusion_witness :
  exists al, lock_reachable 64 {| ls_table := al;
      ls_batches := [([sample_tx 1 2; sample_tx 3 4], [Ok tt; Ok tt])] |}
    /\ (forall k, is_locked_write al k = true <->
          exists h, h ∈ held_locksets {| ls_table := al;
             ls_batches := [([sample_tx 1 2; sample_tx 3 4], [Ok tt; Ok tt])] |} /\ k ∈ ls_write h).
Proof.
  assert (exists al, lock_reachable 64 {| ls_table := al;
      ls_batches := [([sample_tx 1 2; sample_tx 3 4], [Ok tt; Ok tt])] |}) as [al Hal].
  { eexists. apply rtc_once. eapply (step_prepare 64 _ _ _ [Ok tt; Ok tt]);
      [reflexivity| |vm_compute; reflexivity]. vm_compute. discriminate. }
  exists al. split; [exact Hal|]. apply (account_locks_mutual_exclusion 64 _ Hal).
Defined.

(** A batch can always be prepared and given back without a trace.  From any
    reachable state, preparing a batch returns (no panic), its results line
    up with the transactions, and unlocking with those results returns the
    lock tables to exactly what they were. *)
Theorem prepare_unlock_roundtrip (limit : nat) (s : lock_state)
    (txs : list SanitizedTransaction) (qos : list (result TransactionError unit))
    (Hs : lock_reachable limit s) (Hqos : forallb may_prepare qos = true)
    (Hlen : Z.of_nat (length (held_locksets s) + length txs) <= U64_MAX) :
  exists results al', lock_accounts_with_results (ls_table s) txs qos limit = Returns (results, al')
    /\ length results = Nat.min (length txs) (length qos)
    /\ unlock_accounts al' txs results = Returns (ls_table s).
Proof.
  destruct (lock_inv_reachable limit s Hs) as [Hrep _].
  destruct (lock_batch_refines txs qos limit _ _ Hrep Hqos Hlen) as (rs & al' & E & Hr & Hok & Hl).
  destruct (unlock_batch_refines txs rs _ _ Hr Hok) as (al'' & E' & Hr'').
  exists rs, al'. split_and!; [done..|]. rewrite E'. f_equal. by eapply represents_inj.
Qed.

Lemma prepare_unlock_roundtrip_witness :
  exists results al',
    lock_accounts_with_results no_locks [sample_tx 1 2; sample_tx 1 4; sample_tx 5 6]
      [Ok tt; Ok tt; Err TE.WouldExceedMaxBlockCostLimit] 64 = Returns (results, al')
    /\ length results = 3%nat
    /\ unlock_accounts al' [sample_tx 1 2; sample_tx 1 4; sample_tx 5 6] results = Returns no_locks.
Proof.
  apply (prepare_unlock_roundtrip 64 {| ls_table := no_locks; ls_batches := [] |}).
  - apply rtc_refl.
  - reflexivity.
  - vm_compute. discriminate.
Defined.
