(* ===== verification/Float64.v ===== *)
(** * Floating point arithmetic

    The path calculation of runtime/src/mev/arbitrage.rs is written in [f64].
    [Arith] is the signature of the operations it uses; the code is the
    instance [f64_arith], IEEE 754 binary64 with rounding to nearest even as
    specified by the Standard Library's [SpecFloat].  The instance over the
    real numbers, in ArbitrageOptimal, gives the formula in exact arithmetic. *)

From S2P Require Import Prelude.
From Stdlib Require Import SpecFloat.

Class Arith (F : Type) := {
  of_u64 : Z -> F;
  f_add : F -> F -> F;
  f_sub : F -> F -> F;
  f_mul : F -> F -> F;
  f_div : F -> F -> F;
  f_sqrt : F -> F;
  f_gtb : F -> F -> bool;
}.

Abbreviation f64 := spec_float.

#[global] Instance f64_arith : Arith f64 := {
  of_u64 z := binary_normalize 53 1024 z 0 false;
  f_add := SFadd 53 1024;
  f_sub := SFsub 53 1024;
  f_mul := SFmul 53 1024;
  f_div := SFdiv 53 1024;
  f_sqrt := SFsqrt 53 1024;
  f_gtb x y := SFltb y x;
}.

(** [x.floor() as u128]: the cast saturates, and NaN becomes 0.  A negative
    number has a negative floor (or is -0) and becomes 0. *)
Definition f64_floor_as_u128 (x : f64) : Z :=
  match x with
  | S754_nan | S754_zero _ | S754_infinity true | S754_finite true _ _ => 0
  | S754_infinity false => U128_MAX
  | S754_finite false m e =>
      Z.min U128_MAX (if 0 <=? e then Z.pos m * 2 ^ e else Z.pos m / 2 ^ (- e))
  end.

Declare Scope arith_scope.
Delimit Scope arith_scope with arith.
Infix "⊕" := f_add (at level 50, left associativity) : arith_scope.
Infix "⊖" := f_sub (at level 50, left associativity) : arith_scope.
Infix "⊗" := f_mul (at level 40, left associativity) : arith_scope.
Infix "⊘" := f_div (at level 40, left associativity) : arith_scope.

(** The cast yields a [u128]. *)
Lemma f64_floor_as_u128_bound x : u128 (f64_floor_as_u128 x).
Proof.
  unfold u128, f64_floor_as_u128. destruct x as [s|s| |s m e]; try destruct s; try (u_unfold; lia).
  assert (0 <= (if 0 <=? e then Z.pos m * 2 ^ e else Z.pos m / 2 ^ (- e))).
  { destruct (Z.leb_spec 0 e).
    - pose proof (Z.pow_nonneg 2 e). lia.
    - apply Z.div_pos; [lia|]. apply Z.pow_pos_nonneg; lia. }
  u_unfold. lia.
Qed.
