(* ===== verification/ComputeBudget.v ===== *)
(** * Compute budgets and transaction fees

    Models program-runtime/src/compute_budget.rs and prioritization_fee.rs,
    the instruction type of sdk/src/compute_budget.rs, the fee structure of
    sdk/src/fee.rs and [Bank::calculate_fee].  The borsh decoder of the
    instruction data is the class [BudgetCodec]. *)

From S2P Require Import Prelude Keys Message Errors Float64.
From Stdlib Require Import SpecFloat.

Definition DEFAULT_INSTRUCTION_COMPUTE_UNIT_LIMIT : Z := 200000.
Definition MAX_COMPUTE_UNIT_LIMIT : Z := 1400000.
Definition MAX_HEAP_FRAME_BYTES : Z := 256 * 1024.
Definition MIN_HEAP_FRAME_BYTES : Z := 32 * 1024.
Definition MICRO_LAMPORTS_PER_LAMPORT : Z := 1000000.

Inductive ComputeBudgetInstruction :=
| RequestUnitsDeprecated (units additional_fee : Z)
| RequestHeapFrame (bytes : Z)
| SetComputeUnitLimit (units : Z)
| SetComputeUnitPrice (micro_lamports : Z).

(** [try_from_slice_unchecked]. *)
Class BudgetCodec := { decode_budget_instruction : list Z -> option ComputeBudgetInstruction }.

(** ** Prioritization fees *)

Inductive PrioritizationFeeType := ComputeUnitPrice (price : Z) | Deprecated (fee : Z).

Record PrioritizationFeeDetails := { pf_fee : Z; pf_priority : Z }.

Definition fee_details_default : PrioritizationFeeDetails := {| pf_fee := 0; pf_priority := 0 |}.

(** [u64::try_from(x).unwrap_or(u64::MAX)] for a [u128]. *)
Definition u128_to_u64 (x : Z) : Z := Z.min x U64_MAX.

Definition sat_add128 (a b : Z) : Z := Z.min (a + b) U128_MAX.
Definition sat_mul128 (a b : Z) : Z := Z.min (a * b) U128_MAX.

Definition fee_details_new (fee_type : PrioritizationFeeType) (compute_unit_limit : Z)
    : PrioritizationFeeDetails :=
  match fee_type with
  | Deprecated fee =>
      {| pf_fee := fee;
         pf_priority :=
           if compute_unit_limit =? 0 then 0
           else u128_to_u64 (sat_mul128 fee MICRO_LAMPORTS_PER_LAMPORT / compute_unit_limit) |}
  | ComputeUnitPrice cu_price =>
      {| pf_fee :=
           u128_to_u64 (sat_add128 (sat_mul128 cu_price compute_unit_limit)
                          (sat_sub64 MICRO_LAMPORTS_PER_LAMPORT 1) / MICRO_LAMPORTS_PER_LAMPORT);
         pf_priority := cu_price |}
  end.

(** ** Compute budgets *)

(** The fields that are constant after construction. *)
Record BudgetCosts := {
  log_64_units : Z;
  create_program_address_units : Z;
  invoke_units : Z;
  max_invoke_depth : nat;
  sha256_base_cost : Z;
  sha256_byte_cost : Z;
  sha256_max_slices : Z;
  max_call_depth : nat;
  stack_frame_size : Z;
  log_pubkey_units : Z;
  max_cpi_instruction_size : Z;
  cpi_bytes_per_unit : Z;
  sysvar_base_cost : Z;
  secp256k1_recover_cost : Z;
  syscall_base_cost : Z;
  zk_token_elgamal_op_cost : Z;
  curve25519_edwards_validate_point_cost : Z;
  curve25519_edwards_add_cost : Z;
  curve25519_edwards_subtract_cost : Z;
  curve25519_edwards_multiply_cost : Z;
  curve25519_ristretto_validate_point_cost : Z;
  curve25519_ristretto_add_cost : Z;
  curve25519_ristretto_subtract_cost : Z;
  curve25519_ristretto_multiply_cost : Z;
  heap_cost : Z;
  mem_op_base_cost : Z;
}.

Record ComputeBudget := {
  compute_unit_limit : Z;
  heap_size : option Z;
  budget_costs : BudgetCosts;
}.

Definition default_costs : BudgetCosts :=
  {| log_64_units := 100; create_program_address_units := 1500; invoke_units := 1000;
     max_invoke_depth := 4; sha256_base_cost := 85; sha256_byte_cost := 1;
     sha256_max_slices := 20000; max_call_depth := 64; stack_frame_size := 4096;
     log_pubkey_units := 100; max_cpi_instruction_size := 1280; cpi_bytes_per_unit := 250;
     sysvar_base_cost := 100; secp256k1_recover_cost := 25000; syscall_base_cost := 100;
     zk_token_elgamal_op_cost := 25000; curve25519_edwards_validate_point_cost := 5000;
     curve25519_edwards_add_cost := 5000; curve25519_edwards_subtract_cost := 5000;
     curve25519_edwards_multiply_cost := 10000; curve25519_ristretto_validate_point_cost := 5000;
     curve25519_ristretto_add_cost := 5000; curve25519_ristretto_subtract_cost := 5000;
     curve25519_ristretto_multiply_cost := 10000; heap_cost := 8; mem_op_base_cost := 10 |}.

Definition budget_new (limit : Z) : ComputeBudget :=
  {| compute_unit_limit := limit; heap_size := None; budget_costs := default_costs |}.

Definition budget_default : ComputeBudget := budget_new MAX_COMPUTE_UNIT_LIMIT.

(** The variables of the loop of [process_instructions]. *)
Record BudgetRequests := {
  num_non_compute_budget_instructions : nat;
  updated_compute_unit_limit : option Z;
  requested_heap_size : option (Z * Z);
  prioritization_fee : option PrioritizationFeeType;
}.

Definition no_requests : BudgetRequests :=
  {| num_non_compute_budget_instructions := 0; updated_compute_unit_limit := None;
     requested_heap_size := None; prioritization_fee := None |}.

Definition set_limit (r : BudgetRequests) (limit : Z) : BudgetRequests :=
  {| num_non_compute_budget_instructions := num_non_compute_budget_instructions r;
     updated_compute_unit_limit := Some limit; requested_heap_size := requested_heap_size r;
     prioritization_fee := prioritization_fee r |}.

Definition set_heap (r : BudgetRequests) (bytes i : Z) : BudgetRequests :=
  {| num_non_compute_budget_instructions := num_non_compute_budget_instructions r;
     updated_compute_unit_limit := updated_compute_unit_limit r;
     requested_heap_size := Some (bytes, i); prioritization_fee := prioritization_fee r |}.

Definition set_fee (r : BudgetRequests) (fee : PrioritizationFeeType) : BudgetRequests :=
  {| num_non_compute_budget_instructions := num_non_compute_budget_instructions r;
     updated_compute_unit_limit := updated_compute_unit_limit r;
     requested_heap_size := requested_heap_size r; prioritization_fee := Some fee |}.

Definition count_instruction (r : BudgetRequests) : BudgetRequests :=
  {| num_non_compute_budget_instructions := S (num_non_compute_budget_instructions r);
     updated_compute_unit_limit := updated_compute_unit_limit r;
     requested_heap_size := requested_heap_size r; prioritization_fee := prioritization_fee r |}.

Section Budget.
Context `{BudgetCodec}.

(** One compute budget instruction, with the feature that adds
    [SetComputeUnitPrice]. *)
Definition request (i : nat) (data : list Z) (r : BudgetRequests)
    : result TransactionError BudgetRequests :=
  let invalid_instruction_data_error :=
    TE.InstructionErr (wrap8 (Z.of_nat i)) IE.InvalidInstructionData in
  let duplicate_instruction_error := TE.DuplicateInstruction (wrap8 (Z.of_nat i)) in
  match decode_budget_instruction data with
  | Some (RequestUnitsDeprecated units additional_fee) =>
      if is_some (updated_compute_unit_limit r) then Err duplicate_instruction_error
      else if is_some (prioritization_fee r) then Err duplicate_instruction_error
      else Ok (set_fee (set_limit r units) (Deprecated additional_fee))
  | Some (RequestHeapFrame bytes) =>
      if is_some (requested_heap_size r) then Err duplicate_instruction_error
      else Ok (set_heap r bytes (wrap8 (Z.of_nat i)))
  | Some (SetComputeUnitLimit units) =>
      if is_some (updated_compute_unit_limit r) then Err duplicate_instruction_error
      else Ok (set_limit r units)
  | Some (SetComputeUnitPrice micro_lamports) =>
      if is_some (prioritization_fee r) then Err duplicate_instruction_error
      else Ok (set_fee r (ComputeUnitPrice micro_lamports))
  | None => Err invalid_instruction_data_error
  end.

(** One of the first three instructions, without that feature. *)
Definition request_before_price (data : list Z) (r : BudgetRequests)
    : result TransactionError BudgetRequests :=
  match decode_budget_instruction data with
  | Some (RequestUnitsDeprecated units additional_fee) =>
      Ok (set_fee (set_limit r units) (Deprecated additional_fee))
  | Some (RequestHeapFrame bytes) => Ok (set_heap r bytes 0)
  | _ => Err (TE.InstructionErr 0 IE.InvalidInstructionData)
  end.

Fixpoint requests_loop (support_set_compute_unit_price_ix : bool) (i : nat)
    (instructions : list (Pubkey * CompiledInstruction)) (r : BudgetRequests)
    : result TransactionError BudgetRequests :=
  match instructions with
  | [] => Ok r
  | (program_id, ix) :: rest =>
      r ← (if N.eqb program_id compute_budget_id then
             if support_set_compute_unit_price_ix then request i (ci_data ix) r
             else if (i <? 3)%nat then request_before_price (ci_data ix) r
             else Ok r
           else Ok (count_instruction r));
      requests_loop support_set_compute_unit_price_ix (S i) rest r
  end.

Definition process_instructions (b : ComputeBudget)
    (instructions : list (Pubkey * CompiledInstruction)) (requestable_heap_size
    default_units_per_instruction support_set_compute_unit_price_ix : bool)
    : result TransactionError (ComputeBudget * PrioritizationFeeDetails) :=
  r ← requests_loop support_set_compute_unit_price_ix 0 instructions no_requests;
  heap ← match requested_heap_size r with
         | Some (bytes, i) =>
             if negb requestable_heap_size || (MAX_HEAP_FRAME_BYTES <? bytes)
                || (bytes <? MIN_HEAP_FRAME_BYTES) || negb (bytes mod 1024 =? 0)
             then Err (TE.InstructionErr i IE.InvalidInstructionData)
             else Ok (Some bytes)
         | None => Ok (heap_size b)
         end;
  let requested :=
    if default_units_per_instruction then
      match updated_compute_unit_limit r with
      | Some limit => Some limit
      | None =>
          Some (Z.min U32_MAX (wrap32 (Z.of_nat (num_non_compute_budget_instructions r))
                               * DEFAULT_INSTRUCTION_COMPUTE_UNIT_LIMIT))
      end
    else updated_compute_unit_limit r in
  let limit := Z.min (default MAX_COMPUTE_UNIT_LIMIT requested) MAX_COMPUTE_UNIT_LIMIT in
  Ok ({| compute_unit_limit := limit; heap_size := heap; budget_costs := budget_costs b |},
      match prioritization_fee r with
      | Some fee_type => fee_details_new fee_type limit
      | None => fee_details_default
      end).

(** ** Fees *)

Record FeeBin := { fb_limit : Z; fb_fee : Z }.

Record FeeStructure := {
  fs_lamports_per_signature : Z;
  fs_lamports_per_write_lock : Z;
  compute_fee_bins : list FeeBin;
}.

(** [x.round() as u64]: ties go away from zero, the cast saturates. *)
Definition f64_round_as_u64 (x : f64) : Z :=
  match x with
  | S754_nan | S754_zero _ | S754_infinity true | S754_finite true _ _ => 0
  | S754_infinity false => U64_MAX
  | S754_finite false m e =>
      Z.min U64_MAX
        (if 0 <=? e then Z.pos m * 2 ^ e else (Z.pos m + 2 ^ (- e - 1)) / 2 ^ (- e))
  end.

(** A precompile instruction counts its verifications as signatures. *)
Definition count_signatures (num_signatures : Z) (pix : Pubkey * CompiledInstruction) : Z :=
  let '(program_id, ix) := pix in
  if N.eqb program_id secp256k1_program_id || N.eqb program_id ed25519_program_id then
    match ci_data ix !! 0%nat with
    | Some num_verifies => sat_add64 num_signatures num_verifies
    | None => num_signatures
    end
  else num_signatures.

Definition get_num_signatures_in_message (m : SanitizedMessage) : outcome Z :=
  instructions ← program_instructions_iter m;
  Returns (fold_left count_signatures instructions
             (Z.of_nat (num_required_signatures (message_header m)))).

Definition get_num_write_locks_in_message (m : SanitizedMessage) : Z :=
  Z.of_nat (account_keys_len (message_account_keys m) - message_num_readonly_accounts m).

(** The fee of the first bin that holds the limit, or of the last bin. *)
Definition compute_fee (fs : FeeStructure) (limit : Z) : Z :=
  match find (fun bin => limit <=? fb_limit bin) (compute_fee_bins fs) with
  | Some bin => fb_fee bin
  | None => match last (compute_fee_bins fs) with Some bin => fb_fee bin | None => 0 end
  end.

Definition congestion_multiplier (lamports_per_signature : Z) : f64 :=
  let base_congestion : f64 := of_u64 5000 in
  let lps : f64 := of_u64 lamports_per_signature in
  let current_congestion := if f_gtb lps base_congestion then lps else base_congestion in
  if lamports_per_signature =? 0 then of_u64 0 else f_div base_congestion current_congestion.

Definition calculate_fee (m : SanitizedMessage) (lamports_per_signature : Z) (fs : FeeStructure)
    (tx_wide_compute_cap support_set_compute_unit_price_ix : bool) : outcome Z :=
  num_signatures ← get_num_signatures_in_message m;
  if tx_wide_compute_cap then
    instructions ← program_instructions_iter m;
    let '(budget, details) :=
      match process_instructions budget_default instructions false false
              support_set_compute_unit_price_ix with
      | Ok bd => bd
      | Err _ => (budget_default, fee_details_default)
      end in
    let signature_fee := sat_mul64 num_signatures (fs_lamports_per_signature fs) in
    let write_lock_fee :=
      sat_mul64 (get_num_write_locks_in_message m) (fs_lamports_per_write_lock fs) in
    let total :=
      sat_add64 (sat_add64 (sat_add64 (pf_fee details) signature_fee) write_lock_fee)
        (compute_fee fs (compute_unit_limit budget)) in
    Returns (f64_round_as_u64
      (f_mul (of_u64 total) (congestion_multiplier lamports_per_signature)))
  else Returns (sat_mul64 lamports_per_signature num_signatures).

End Budget.

(** ** Lemmas *)

(** What a decoded instruction asks for. *)
Definition limit_requests (i : ComputeBudgetInstruction) : list Z :=
  match i with
  | RequestUnitsDeprecated units _ => [units]
  | SetComputeUnitLimit units => [units]
  | _ => []
  end.

Definition fee_requests (i : ComputeBudgetInstruction) : list PrioritizationFeeType :=
  match i with
  | RequestUnitsDeprecated _ fee => [Deprecated fee]
  | SetComputeUnitPrice price => [ComputeUnitPrice price]
  | _ => []
  end.

Definition heap_requests (i : ComputeBudgetInstruction) : list Z :=
  match i with RequestHeapFrame bytes => [bytes] | _ => [] end.

(** The data of the compute budget instructions, and the number of others. *)
Definition budget_data (l : list (Pubkey * CompiledInstruction)) : list (list Z) :=
  map (fun pix => ci_data pix.2) (filter (fun pix => pix.1 = compute_budget_id) l).

Definition other_instructions (l : list (Pubkey * CompiledInstruction)) : nat :=
  length (filter (fun pix => pix.1 <> compute_budget_id) l).

Section Lemmas.
Context `{BudgetCodec}.

(** [ds] can be added to the requests of [r], and [r'] is the result. *)
Definition requested (r r' : BudgetRequests) (ds : list ComputeBudgetInstruction) : Prop :=
  option_list (updated_compute_unit_limit r) ++ concat (map limit_requests ds)
    = option_list (updated_compute_unit_limit r')
  /\ option_list (prioritization_fee r) ++ concat (map fee_requests ds)
    = option_list (prioritization_fee r')
  /\ option_list (fst <$> requested_heap_size r) ++ concat (map heap_requests ds)
    = option_list (fst <$> requested_heap_size r').

Lemma option_list_inj {A} (a b : option A) : option_list a = option_list b <-> b = a.
Proof. destruct a, b; cbn; intuition congruence. Qed.

Lemma requested_nil r r' :
  requested r r' [] <-> updated_compute_unit_limit r' = updated_compute_unit_limit r
    /\ prioritization_fee r' = prioritization_fee r
    /\ fst <$> requested_heap_size r' = fst <$> requested_heap_size r.
Proof. unfold requested. cbn. by rewrite !app_nil_r, !option_list_inj. Qed.

Lemma requested_cons r r1 r' d ds :
  requested r r1 [d] -> requested r r' (d :: ds) <-> requested r1 r' ds.
Proof.
  unfold requested. cbn. rewrite !app_nil_r, !app_assoc. intros (-> & -> & ->). done.
Qed.

Lemma request_Ok i data r r1 :
  request i data r = Ok r1 ->
  exists d, decode_budget_instruction data = Some d /\ requested r r1 [d]
    /\ num_non_compute_budget_instructions r1 = num_non_compute_budget_instructions r.
Proof.
  unfold request, requested. intros Hr. inv_Ok Hr; subst; eexists; split; try done; cbn;
    repeat match goal with H : is_some ?o = false |- _ => destruct o; [done|]; clear H end;
    by rewrite ?app_nil_r.
Qed.

Lemma request_accepts i data d r r' ds :
  decode_budget_instruction data = Some d -> requested r r' (d :: ds) ->
  exists r1, request i data r = Ok r1.
Proof.
  unfold request, requested. intros -> (Hl & Hf & Hh).
  destruct d; cbn in *; destruct (updated_compute_unit_limit r), (prioritization_fee r),
    (requested_heap_size r), (updated_compute_unit_limit r'), (prioritization_fee r'),
    (requested_heap_size r'); cbn in *; eauto; done.
Qed.

Lemma budget_data_cons pid ix l :
  budget_data ((pid, ix) :: l)
  = if N.eqb pid compute_budget_id then ci_data ix :: budget_data l else budget_data l.
Proof.
  unfold budget_data. rewrite filter_cons. cbn [fst]. destruct (N.eqb_spec pid compute_budget_id).
  - by rewrite decide_True.
  - by rewrite decide_False.
Qed.

Lemma other_instructions_cons pid ix l :
  other_instructions ((pid, ix) :: l)
  = if N.eqb pid compute_budget_id then other_instructions l else S (other_instructions l).
Proof.
  unfold other_instructions. rewrite filter_cons. cbn [fst].
  destruct (N.eqb_spec pid compute_budget_id).
  - by rewrite decide_False by tauto.
  - by rewrite decide_True.
Qed.

(** The loop accepts exactly the lists whose requests do not repeat. *)
Lemma requests_loop_Ok l i r r' :
  requests_loop true i l r = Ok r' ->
  exists ds, mapM decode_budget_instruction (budget_data l) = Some ds /\ requested r r' ds
    /\ num_non_compute_budget_instructions r'
       = (num_non_compute_budget_instructions r + other_instructions l)%nat.
Proof.
  revert i r. induction l as [|[pid ix] l IH]; intros i r; cbn [requests_loop].
  { intros [= <-]. exists []. by rewrite requested_nil, Nat.add_0_r. }
  rewrite budget_data_cons, other_instructions_cons. intros Hl.
  apply result_bind_Ok in Hl as (r1 & Hr & Hl). apply IH in Hl as (ds & Hds & Hreq & ->).
  destruct (N.eqb pid compute_budget_id).
  - apply request_Ok in Hr as (d & Hd & Hreq1 & ->). exists (d :: ds). cbn. rewrite Hd, Hds.
    by rewrite (requested_cons _ _ _ _ _ Hreq1).
  - injection Hr as <-. exists ds. split; [done|]. split; [done|]. cbn. lia.
Qed.

Lemma requests_loop_accepts l i r r' ds :
  mapM decode_budget_instruction (budget_data l) = Some ds -> requested r r' ds ->
  exists r1, requests_loop true i l r = Ok r1.
Proof.
  revert i r ds. induction l as [|[pid ix] l IH]; intros i r ds; cbn [requests_loop]; [eauto|].
  rewrite budget_data_cons. destruct (N.eqb pid compute_budget_id).
  - cbn. intros Hds Hreq.
    destruct (decode_budget_instruction (ci_data ix)) as [d|] eqn:Hd; cbn in Hds; [|done].
    destruct (mapM _ (budget_data l)) as [ds'|] eqn:Hds'; cbn in Hds; [|done].
    injection Hds as <-. destruct (request_accepts i _ _ _ _ _ Hd Hreq) as [r1 Hr1].
    rewrite Hr1. cbn. apply request_Ok in Hr1 as (d' & Hd' & Hreq1 & _).
    assert (d' = d) as -> by congruence. apply (IH _ _ ds'); [done|].
    by apply (requested_cons _ _ _ _ _ Hreq1).
  - intros Hds Hreq. by apply (IH _ _ ds).
Qed.

(** Saturation at 32 bits does not show below the maximal limit. *)
Lemma default_limit (n : nat) (limit : option Z) :
  Z.of_nat n <= U32_MAX ->
  Z.min (default MAX_COMPUTE_UNIT_LIMIT
           (match limit with
            | Some limit => Some limit
            | None =>
                Some (Z.min U32_MAX (wrap32 (Z.of_nat n) * DEFAULT_INSTRUCTION_COMPUTE_UNIT_LIMIT))
            end)) MAX_COMPUTE_UNIT_LIMIT
  = Z.min MAX_COMPUTE_UNIT_LIMIT (default (200000 * Z.of_nat n) limit).
Proof.
  intros Hn. rewrite wrap32_small by lia.
  unfold DEFAULT_INSTRUCTION_COMPUTE_UNIT_LIMIT, MAX_COMPUTE_UNIT_LIMIT.
  destruct limit; cbn; u_unfold; lia.
Qed.

Lemma other_instructions_le l : (other_instructions l <= length l)%nat.
Proof. apply length_filter. Qed.

End Lemmas.

(** ** Properties *)

(** The data bytes of the samples: a tag and an amount. *)
Module Sample.
#[local] Instance codec : BudgetCodec := {|
  decode_budget_instruction data :=
    match data with
    | [0; u; f] => Some (RequestUnitsDeprecated u f)
    | [1; b] => Some (RequestHeapFrame b)
    | [2; u] => Some (SetComputeUnitLimit u)
    | [3; p] => Some (SetComputeUnitPrice p)
    | _ => None
    end |}.

Definition ix (data : list Z) : CompiledInstruction :=
  {| program_id_index := 1; ci_accounts := []; ci_data := data |}.

Definition instructions : list (Pubkey * CompiledInstruction) :=
  [(compute_budget_id, ix [2; 300000]); (7%N, ix []); (compute_budget_id, ix [3; 1500])].
End Sample.

#[local] Existing Instance Sample.codec.

(** A transaction's compute budget is what it asked for, once.  The
    budget instructions are accepted exactly when all of them decode, no
    setting is requested twice, and a requested heap size is allowed; then
    the unit limit is the requested one, or 200,000 for each other
    instruction, and never above 1,400,000, the heap is the requested one, and
    the fee is computed from the requested price and that limit. *)
Theorem compute_budget_requested_once `{BudgetCodec} (b b' : ComputeBudget)
    (l : list (Pubkey * CompiledInstruction)) (heap_ok : bool) (fee : PrioritizationFeeDetails)
    (Hlen : Z.of_nat (length l) <= U32_MAX) :
  process_instructions b l heap_ok true true = Ok (b', fee)
  <-> exists ds (limit : option Z) (heap : option Z) (fee_type : option PrioritizationFeeType),
        mapM decode_budget_instruction (budget_data l) = Some ds
        /\ concat (map limit_requests ds) = option_list limit
        /\ concat (map heap_requests ds) = option_list heap
        /\ concat (map fee_requests ds) = option_list fee_type
        /\ (forall bytes, heap = Some bytes ->
              heap_ok = true /\ MIN_HEAP_FRAME_BYTES <= bytes <= MAX_HEAP_FRAME_BYTES
              /\ bytes mod 1024 = 0)
        /\ compute_unit_limit b'
           = Z.min MAX_COMPUTE_UNIT_LIMIT
               (default (200000 * Z.of_nat (other_instructions l)) limit)
        /\ heap_size b' = (match heap with Some bytes => Some bytes | None => heap_size b end)
        /\ budget_costs b' = budget_costs b
        /\ fee = (match fee_type with
                  | Some t => fee_details_new t (compute_unit_limit b')
                  | None => fee_details_default
                  end).
Proof.
  pose proof (other_instructions_le l).
  unfold process_instructions. split.
  - intros Hp. apply result_bind_Ok in Hp as (r & Hr & Hp). apply result_bind_Ok in Hp as (h & Hh & Hp).
    apply (f_equal result_ok) in Hp. cbn in Hp. injection Hp as <- <-.
    apply requests_loop_Ok in Hr as (ds & Hds & (Hl & Hf & Hb) & Hn). cbn in *.
    exists ds, (updated_compute_unit_limit r), (fst <$> requested_heap_size r), (prioritization_fee r).
    rewrite Hn in *. split_and!; try done.
    + intros bytes Hheap. destruct (requested_heap_size r) as [[by' j]|]; [|done].
      injection Hheap as ->. inv_Ok Hh. zbool. done.
    + by rewrite default_limit by lia.
    + destruct (requested_heap_size r) as [[by' j]|]; cbn; inv_Ok Hh; done.
  - intros (ds & limit & heap & fee_type & Hds & Hl & Hb & Hf & Hok & Hlim & Hheap & Hcosts & ->).
    destruct (requests_loop_accepts l 0 no_requests
      {| num_non_compute_budget_instructions := 0; updated_compute_unit_limit := limit;
         requested_heap_size := (fun x => (x, 0)) <$> heap; prioritization_fee := fee_type |} ds Hds)
      as [r Hr].
    { unfold requested. cbn. split_and!; try done. by destruct heap. }
    rewrite Hr. cbn [mbind result_bind].
    apply requests_loop_Ok in Hr as (ds' & Hds' & (Hl' & Hf' & Hb') & Hn). cbn in Hn, Hl', Hf', Hb'.
    assert (ds' = ds) as -> by congruence.
    rewrite Hl in Hl'. rewrite Hf in Hf'. rewrite Hb in Hb'.
    apply option_list_inj in Hl', Hf', Hb'. rewrite Hl', Hf', Hn. clear Hn Hl' Hf' Hl Hf Hb.
    destruct b' as [lim' heap' costs']; cbn in *. subst.
    destruct (requested_heap_size r) as [[bytes j]|]; cbn in *.
    + destruct (Hok bytes eq_refl) as (-> & Hr & Hm). cbn.
      replace (MAX_HEAP_FRAME_BYTES <? bytes) with false by lia.
      replace (bytes <? MIN_HEAP_FRAME_BYTES) with false by lia. rewrite Hm. cbn.
      by rewrite default_limit by lia.
    + cbn. by rewrite default_limit by lia.
Qed.

Lemma compute_budget_requested_once_witness :
  exists b' fee, process_instructions budget_default Sample.instructions true true true = Ok (b', fee)
    /\ compute_unit_limit b' = 300000 /\ pf_fee fee = 450
    /\ exists ds, mapM decode_budget_instruction (budget_data Sample.instructions) = Some ds
         /\ concat (map limit_requests ds) = [300000].
Proof.
  destruct (process_instructions budget_default Sample.instructions true true true)
    as [[b' fee]|e] eqn:E; [|by vm_compute in E].
  exists b', fee. split; [done|].
  destruct (proj1 (compute_budget_requested_once budget_default b' Sample.instructions true fee
    ltac:(by vm_compute)) E) as (ds & limit & heap & ft & Hds & Hl & _ & _ & _ & Hlim & _ & _ & Hfee).
  vm_compute in Hds. injection Hds as <-. vm_compute in E. injection E as <- <-.
  split_and!; [done|done|]. eexists; split; [by vm_compute|done].
Defined.
