(* ===== verification/StakeHistory.v ===== *)
(** * The stake history

    sdk/program/src/stake_history.rs: the stake of the cluster at the last 512 epochs,
    newest first, searched by bisection.  On a history that is sorted, the search
    finds exactly the entries that are there, and adding an entry keeps it sorted. *)

From S2P Require Import Prelude.

Definition STAKE_HISTORY_MAX_ENTRIES : nat := 512.

Record StakeHistoryEntry := {
  effective : Z;
  activating : Z;
  deactivating : Z;
}.

Definition entry_default : StakeHistoryEntry := {| effective := 0; activating := 0; deactivating := 0 |}.

Definition with_effective (e : Z) : StakeHistoryEntry :=
  {| effective := e; activating := 0; deactivating := 0 |}.
Definition with_effective_and_activating (e a : Z) : StakeHistoryEntry :=
  {| effective := e; activating := a; deactivating := 0 |}.
Definition with_deactivating (d : Z) : StakeHistoryEntry :=
  {| effective := d; activating := 0; deactivating := d |}.

(** [Add for StakeHistoryEntry]. *)
Definition entry_add (a b : StakeHistoryEntry) : StakeHistoryEntry :=
  {| effective := sat_add64 (effective a) (effective b);
     activating := sat_add64 (activating a) (activating b);
     deactivating := sat_add64 (deactivating a) (deactivating b) |}.

Abbreviation StakeHistory := (list (Epoch * StakeHistoryEntry)).

(** [binary_search_by(|probe| epoch.cmp(&probe.0))] on the positions from [left] up to
    [left + size]: the index of the entry, or where it would be inserted. *)
Fixpoint history_search (h : StakeHistory) (epoch : Epoch) (fuel left size : nat) : result nat nat :=
  match fuel with
  | O => Err left
  | S fuel =>
      if (size =? 0)%nat then Err left
      else
        let mid := (left + size / 2)%nat in
        match h !! mid with
        | None => Err left
        | Some probe =>
            match epoch ?= probe.1 with
            | Lt => history_search h epoch fuel (mid + 1) (left + size - (mid + 1))
            | Gt => history_search h epoch fuel left (mid - left)
            | Eq => Ok mid
            end
        end
  end.

Definition search_epoch (h : StakeHistory) (epoch : Epoch) : result nat nat :=
  history_search h epoch (S (length h)) 0 (length h).

(** [StakeHistory::get]. *)
Definition stake_history_get (h : StakeHistory) (epoch : Epoch) : option StakeHistoryEntry :=
  match search_epoch h epoch with Ok i => snd <$> h !! i | Err _ => None end.

(** [StakeHistory::add]. *)
Definition stake_history_add (h : StakeHistory) (epoch : Epoch) (entry : StakeHistoryEntry) : StakeHistory :=
  take STAKE_HISTORY_MAX_ENTRIES
    (match search_epoch h epoch with
     | Ok i => <[i := (epoch, entry)]> h
     | Err i => take i h ++ (epoch, entry) :: drop i h
     end).

(** ** The search *)

(** Newest first, each epoch once. *)
Definition history_sorted (h : StakeHistory) : Prop := StronglySorted (fun a b => b.1 < a.1) h.

Lemma sorted_lookup (h : StakeHistory) i j a b :
  history_sorted h -> h !! i = Some a -> h !! j = Some b -> (i < j)%nat -> b.1 < a.1.
Proof.
  intros Hs. revert i j. induction Hs as [|x l Hs IH Hx]; intros i j; [done|].
  destruct i as [|i], j as [|j]; cbn; try lia.
  - intros [= ->] Hj _. rewrite Forall_forall in Hx. apply Hx. by eapply list_elem_of_lookup_2.
  - intros Hi Hj Hlt. eapply IH; [exact Hi|exact Hj|lia].
Qed.

(** What the search answers: the index of the epoch, or the place between the newer
    and the older entries. *)
Definition found_at (h : StakeHistory) (epoch : Epoch) (r : result nat nat) : Prop :=
  match r with
  | Ok i => exists e, h !! i = Some (epoch, e)
  | Err i => (i <= length h)%nat /\ Forall (fun p => epoch < p.1) (take i h)
             /\ Forall (fun p => p.1 < epoch) (drop i h)
  end.

Lemma history_search_spec (h : StakeHistory) epoch fuel : forall left size,
  history_sorted h -> (size < fuel)%nat -> (left + size <= length h)%nat ->
  Forall (fun p => epoch < p.1) (take left h) -> Forall (fun p => p.1 < epoch) (drop (left + size) h) ->
  found_at h epoch (history_search h epoch fuel left size).
Proof.
  induction fuel as [|fuel IH]; intros left size Hs Hf Hl Hlo Hhi; [lia|]. cbn [history_search].
  destruct (Nat.eqb_spec size 0) as [->|Hne]; [rewrite Nat.add_0_r in *; by cbn|].
  assert (size / 2 < size)%nat by (apply Nat.div_lt; lia).
  destruct (lookup_lt_is_Some_2 h (left + size / 2)) as [probe Hp]; [lia|]. rewrite Hp.
  destruct (Z.compare_spec epoch probe.1) as [He|Hlt|Hgt].
  - exists probe.2. rewrite He. by destruct probe.
  - apply IH; try done; try lia.
    + rewrite Forall_forall. intros x (i & Hi & Hx)%elem_of_take.
      assert (i = left + size / 2 \/ i < left + size / 2)%nat as [->|Hi'] by lia.
      * rewrite Hp in Hi. by injection Hi as <-.
      * pose proof (sorted_lookup _ _ _ _ _ Hs Hi Hp Hi'). lia.
    + by replace (left + size / 2 + 1 + (left + size - (left + size / 2 + 1)))%nat with (left + size)%nat by lia.
  - apply IH; try done; try lia.
    replace (left + (left + size / 2 - left))%nat with (left + size / 2)%nat by lia.
    rewrite Forall_forall. intros x (i & Hi)%list_elem_of_lookup. rewrite lookup_drop in Hi.
    destruct i as [|i]; [rewrite Nat.add_0_r, Hp in Hi; injection Hi as <-; lia|].
    pose proof (sorted_lookup _ _ _ _ _ Hs Hp Hi ltac:(lia)). lia.
Qed.

Lemma search_epoch_spec (h : StakeHistory) epoch : history_sorted h -> found_at h epoch (search_epoch h epoch).
Proof.
  intros Hs. apply history_search_spec; [done|lia|lia|constructor|]. cbn. rewrite drop_all. constructor.
Qed.

Lemma take_sorted n (h : StakeHistory) : history_sorted h -> history_sorted (take n h).
Proof. intros Hs. rewrite <- (take_drop n h) in Hs. by apply StronglySorted_app in Hs as (_ & ? & _). Qed.

Lemma stake_history_get_spec (h : StakeHistory) epoch entry :
  history_sorted h -> stake_history_get h epoch = Some entry <-> (epoch, entry) ∈ h.
Proof.
  intros Hs. unfold stake_history_get. pose proof (search_epoch_spec h epoch Hs) as Hf.
  destruct (search_epoch h epoch) as [i|i]; cbn in Hf.
  - destruct Hf as [e He]. rewrite He. cbn. split.
    + intros [= <-]. by eapply list_elem_of_lookup_2.
    + intros (j & Hj)%list_elem_of_lookup. destruct (Nat.lt_trichotomy i j) as [Hlt|[->|Hgt]].
      * pose proof (sorted_lookup _ _ _ _ _ Hs He Hj Hlt). cbn in *. lia.
      * by simplify_eq.
      * pose proof (sorted_lookup _ _ _ _ _ Hs Hj He Hgt). cbn in *. lia.
  - split; [done|]. destruct Hf as (_ & Hlo & Hhi). rewrite <- (take_drop i h). intros [Hin|Hin]%elem_of_app.
    + rewrite Forall_forall in Hlo. apply Hlo in Hin. cbn in Hin. lia.
    + rewrite Forall_forall in Hhi. apply Hhi in Hin. cbn in Hin. lia.
Qed.

(** The history with the entry, before it is cut to its length. *)
Lemma inserted_spec (h : StakeHistory) epoch entry :
  history_sorted h ->
  exists l, stake_history_add h epoch entry = take STAKE_HISTORY_MAX_ENTRIES l /\ history_sorted l
    /\ (length l <= S (length h))%nat
    /\ forall p, p ∈ l <-> p = (epoch, entry) \/ (p ∈ h /\ p.1 <> epoch).
Proof.
  intros Hs. unfold stake_history_add. pose proof (search_epoch_spec h epoch Hs) as Hf.
  destruct (search_epoch h epoch) as [i|i]; cbn in Hf; eexists; (split; [reflexivity|]).
  - destruct Hf as [e He]. rewrite insert_take_drop by (by eapply lookup_lt_Some).
    pose proof (take_drop_middle _ _ _ He) as Hh. rewrite <- Hh in Hs.
    apply StronglySorted_app in Hs as (Hcross & Ht & Hd).
    apply StronglySorted_inv in Hd as [Hd Hx]. rewrite Forall_forall in Hx. split_and!.
    + apply StronglySorted_app. split_and!; [|done|].
      * intros a b Ha [->|Hb]%elem_of_cons; [apply (Hcross a (epoch, e)); [done|by left]|].
        apply Hcross; [done|by right].
      * constructor; [done|]. apply Forall_forall. intros b Hb. by apply (Hx b).
    + rewrite length_app. cbn. rewrite length_take, length_drop. lia.
    + intros p. assert (p ∈ h <-> p ∈ take i h \/ p = (epoch, e) \/ p ∈ drop (S i) h) as ->
        by (rewrite <- Hh at 1; by rewrite elem_of_app, elem_of_cons).
      rewrite elem_of_app, elem_of_cons. split.
      * intros [Hp|[->|Hp]]; [right|by left|right].
        -- split; [by left|]. specialize (Hcross p (epoch, e) Hp ltac:(by left)). cbn in Hcross. lia.
        -- split; [by do 2 right|]. specialize (Hx p Hp). cbn in Hx. lia.
      * intros [->|[[Hp|[->|Hp]] Hne]]; [by right; left|by left|done|by do 2 right].
  - destruct Hf as (Hi & Hlo & Hhi). pose proof (take_drop i h) as Hh. rewrite <- Hh in Hs.
    apply StronglySorted_app in Hs as (Hcross & Ht & Hd). rewrite Forall_forall in Hlo. split_and!.
    + apply StronglySorted_app. split_and!; [|done|by constructor].
      intros a b Ha [->|Hb]%elem_of_cons; [by apply Hlo|by apply Hcross].
    + rewrite length_app. cbn. rewrite length_take, length_drop. lia.
    + intros p. assert (p ∈ h <-> p ∈ take i h \/ p ∈ drop i h) as -> by (rewrite <- Hh at 1; by rewrite elem_of_app).
      rewrite elem_of_app, elem_of_cons. rewrite Forall_forall in Hhi. split.
      * intros [Hp|[->|Hp]]; [right|by left|right].
        -- split; [by left|]. specialize (Hlo p Hp). cbn in Hlo. lia.
        -- split; [by right|]. specialize (Hhi p Hp). cbn in Hhi. lia.
      * tauto.
Qed.

(** The history stays sorted and within its length; what it answers after an entry was
    added is the new entry or an old one; nothing is lost while there is room; and the
    newest entry is always there. *)
Theorem stake_history_roundtrip (h : StakeHistory) epoch entry :
  history_sorted h ->
  let h' := stake_history_add h epoch entry in
  history_sorted h' /\ (length h' <= STAKE_HISTORY_MAX_ENTRIES)%nat
  /\ (forall x e, stake_history_get h' x = Some e ->
        if decide (x = epoch) then e = entry else stake_history_get h x = Some e)
  /\ ((length h < STAKE_HISTORY_MAX_ENTRIES)%nat -> forall x,
        stake_history_get h' x = if decide (x = epoch) then Some entry else stake_history_get h x)
  /\ (Forall (fun p => p.1 < epoch) h -> stake_history_get h' epoch = Some entry).
Proof.
  intros Hs h'. destruct (inserted_spec h epoch entry Hs) as (l & El & Hl & Hlen & Hin).
  assert (history_sorted h') as Hs' by (unfold h'; rewrite El; by apply take_sorted).
  split_and!; [done|unfold h'; rewrite El, length_take; lia|..].
  - intros x e. rewrite stake_history_get_spec by done. unfold h'. rewrite El.
    intros (i & H%list_elem_of_lookup_2 & _)%elem_of_take. apply Hin in H.
    destruct (decide (x = epoch)) as [->|Hne]; destruct H as [[=]|[? ?]]; try done.
    by apply stake_history_get_spec.
  - intros Hroom x. apply option_eq. intros e. rewrite stake_history_get_spec by done. unfold h'.
    rewrite El, take_ge, Hin by lia.
    destruct (decide (x = epoch)) as [->|Hne].
    + split; [intros [[= ->]|[_ ?]]; done|intros [= ->]; by left].
    + rewrite stake_history_get_spec by done. split; [intros [[= -> _]|[? _]]; done|intros ?; by right].
  - intros Hold. apply stake_history_get_spec; [done|]. unfold h'. rewrite El.
    assert ((epoch, entry) ∈ l) as (i & Hi)%list_elem_of_lookup by (apply Hin; by left).
    destruct i as [|i]; [destruct l as [|p l]; [done|]; injection Hi as ->; by left|].
    destruct (l !! 0%nat) as [p|] eqn:E0; [|apply lookup_ge_None in E0; pose proof (lookup_lt_Some _ _ _ Hi); lia].
    pose proof (sorted_lookup _ _ _ _ _ Hl E0 Hi ltac:(lia)) as Hlt. cbn in Hlt.
    assert (p ∈ l) as [->|[Hp _]]%Hin by (by eapply list_elem_of_lookup_2); [cbn in Hlt; lia|].
    rewrite Forall_forall in Hold. specialize (Hold p Hp). lia.
Qed.
