(* ===== verification/Account.v ===== *)
(** * Accounts and rent

    Models the account record of sdk/src/account.rs with its checked lamport
    arithmetic, and sdk/program/src/rent.rs, whose amounts are computed in
    [f64]. *)

From S2P Require Import Prelude Errors Float64.
From Stdlib Require Import SpecFloat.

(** ** Accounts *)

Record AccountSharedData := {
  acc_lamports : Z;
  acc_data : list Z;
  acc_owner : Pubkey;
  acc_executable : bool;
  acc_rent_epoch : Epoch;
}.

Definition account_default : AccountSharedData :=
  {| acc_lamports := 0; acc_data := []; acc_owner := pubkey_default; acc_executable := false;
     acc_rent_epoch := 0 |}.

(** [AccountSharedData::new]: zeroed data of the given size. *)
Definition account_new (lamports : Z) (space : nat) (owner : Pubkey) : AccountSharedData :=
  {| acc_lamports := lamports; acc_data := replicate space 0; acc_owner := owner;
     acc_executable := false; acc_rent_epoch := 0 |}.

Definition set_lamports (a : AccountSharedData) (l : Z) : AccountSharedData :=
  {| acc_lamports := l; acc_data := acc_data a; acc_owner := acc_owner a;
     acc_executable := acc_executable a; acc_rent_epoch := acc_rent_epoch a |}.

Definition set_data (a : AccountSharedData) (d : list Z) : AccountSharedData :=
  {| acc_lamports := acc_lamports a; acc_data := d; acc_owner := acc_owner a;
     acc_executable := acc_executable a; acc_rent_epoch := acc_rent_epoch a |}.

Inductive LamportsError := ArithmeticUnderflow | ArithmeticOverflow.

(** [From<LamportsError> for InstructionError]. *)
Definition lamports_error_into (e : LamportsError) : InstructionError :=
  match e with
  | ArithmeticOverflow => IE.ArithmeticOverflow
  | ArithmeticUnderflow => IE.ArithmeticOverflow
  end.

Definition checked_add_lamports (a : AccountSharedData) (l : Z)
    : result LamportsError AccountSharedData :=
  n ← ok_or (checked_add64 (acc_lamports a) l) ArithmeticOverflow; Ok (set_lamports a n).

Definition checked_sub_lamports (a : AccountSharedData) (l : Z)
    : result LamportsError AccountSharedData :=
  n ← ok_or (checked_sub64 (acc_lamports a) l) ArithmeticUnderflow; Ok (set_lamports a n).

(** ** Rent *)

Record Rent := {
  lamports_per_byte_year : Z;
  exemption_threshold : f64;
  burn_percent : Z;
}.

Definition DEFAULT_LAMPORTS_PER_BYTE_YEAR : Z := 1000000000 / 100 * 365 / (1024 * 1024).
Definition DEFAULT_EXEMPTION_THRESHOLD : f64 := of_u64 2.
Definition DEFAULT_BURN_PERCENT : Z := 50.
Definition ACCOUNT_STORAGE_OVERHEAD : Z := 128.

Definition rent_default : Rent :=
  {| lamports_per_byte_year := DEFAULT_LAMPORTS_PER_BYTE_YEAR;
     exemption_threshold := DEFAULT_EXEMPTION_THRESHOLD;
     burn_percent := DEFAULT_BURN_PERCENT |}.

(** [x as u64]: truncates, saturates, and maps NaN to 0. *)
Definition f64_as_u64 (x : f64) : Z := Z.min U64_MAX (f64_floor_as_u128 x).

(** [(burned, to distribute)]. *)
Definition calculate_burn (r : Rent) (rent_collected : Z) : Z * Z :=
  let burned_portion := wrap64 (rent_collected * burn_percent r) / 100 in
  (burned_portion, wrap64 (rent_collected - burned_portion)).

Definition minimum_balance (r : Rent) (data_len : nat) : Z :=
  let bytes := Z.of_nat data_len in
  f64_as_u64 (f_mul (of_u64 (wrap64 (wrap64 (ACCOUNT_STORAGE_OVERHEAD + bytes)
                                     * lamports_per_byte_year r)))
                (exemption_threshold r)).

Definition is_exempt (r : Rent) (balance : Z) (data_len : nat) : bool :=
  minimum_balance r data_len <=? balance.

Definition due_amount (r : Rent) (data_len : nat) (years_elapsed : f64) : Z :=
  let actual_data_len := wrap64 (Z.of_nat data_len + ACCOUNT_STORAGE_OVERHEAD) in
  let lamports_per_year := wrap64 (lamports_per_byte_year r * actual_data_len) in
  f64_as_u64 (f_mul (of_u64 lamports_per_year) years_elapsed).

Inductive RentDue := Exempt | Paying (lamports : Z).

Definition rent_due (r : Rent) (balance : Z) (data_len : nat) (years_elapsed : f64) : RentDue :=
  if is_exempt r balance data_len then Exempt else Paying (due_amount r data_len years_elapsed).

Definition rent_free : Rent :=
  {| lamports_per_byte_year := 0; exemption_threshold := DEFAULT_EXEMPTION_THRESHOLD;
     burn_percent := DEFAULT_BURN_PERCENT |}.

Definition DEFAULT_SLOTS_PER_EPOCH : Z := 2 * 24 * 60 * 60 * 160 / 64.

Definition with_slots_per_epoch (slots_per_epoch : Z) : Rent :=
  let ratio := f_div (of_u64 slots_per_epoch) (of_u64 DEFAULT_SLOTS_PER_EPOCH) in
  {| lamports_per_byte_year :=
       f64_as_u64 (f_div (of_u64 DEFAULT_LAMPORTS_PER_BYTE_YEAR) ratio);
     exemption_threshold := f_mul DEFAULT_EXEMPTION_THRESHOLD ratio;
     burn_percent := DEFAULT_BURN_PERCENT |}.

(** ** Lemmas *)

Lemma checked_sub_lamports_Ok a l a' :
  checked_sub_lamports a l = Ok a' -> a' = set_lamports a (acc_lamports a - l) /\ l <= acc_lamports a.
Proof.
  unfold checked_sub_lamports, checked_sub64. destruct (_ <=? _) eqn:E; cbn; [|done].
  intros [= <-]. zbool. split; [done|lia].
Qed.

Lemma checked_add_lamports_Ok a l a' :
  checked_add_lamports a l = Ok a' ->
  a' = set_lamports a (acc_lamports a + l) /\ acc_lamports a + l <= U64_MAX.
Proof.
  unfold checked_add_lamports, checked_add64. destruct (_ <=? _) eqn:E; cbn; [|done].
  intros [= <-]. zbool. done.
Qed.
