(* ===== verification/Invocation.v ===== *)
(** * Accounts of an instruction

    What the native programs share: the accounts of a transaction, the keyed
    accounts of an instruction (sdk/src/keyed_account.rs), serialized states
    (sdk/src/account_utils.rs), keys derived from a seed
    (sdk/program/src/pubkey.rs), the sysvar cache and the features. *)

From S2P Require Import Prelude Keys Errors StakeHistory Account.

(** ** Accounts *)

(** The accounts of a transaction.  Two keyed accounts with the same key are
    one account, so that a handler that updates two accounts is modelled on
    the store. *)
Abbreviation accounts_store := (Pubkey -> AccountSharedData).

Definition store_set (accounts : accounts_store) (key : Pubkey) (a : AccountSharedData)
    : accounts_store := fun k => if N.eqb k key then a else accounts k.

Record KeyedAccount := {
  ka_is_signer : bool;
  ka_is_writable : bool;
  ka_key : Pubkey;
}.

Definition signer_key (ka : KeyedAccount) : option Pubkey :=
  if ka_is_signer ka then Some (ka_key ka) else None.

Definition get_signers (keyed_accounts : list KeyedAccount) : gset N :=
  list_to_set (omap signer_key keyed_accounts).

Definition keyed_account_at_index (keyed_accounts : list KeyedAccount) (index : nat)
    : result InstructionError KeyedAccount :=
  ok_or (keyed_accounts !! index) IE.NotEnoughAccountKeys.

(** ** Serialized accounts *)

(** [bincode::serialize] and [bincode::deserialize] at a type. *)
Class Bincode (A : Type) := {
  serialize : A -> list Z;
  deserialize : list Z -> option A;
}.

(** Bincode's documented behaviour: what was serialized is read back, and
    bytes after it are ignored. *)
Class BincodeLaws (A : Type) `{Bincode A} : Prop := {
  deserialize_serialize : forall (v : A) rest, deserialize (serialize v ++ rest) = Some v;
}.

Definition state {A} `{Bincode A} (a : AccountSharedData) : result InstructionError A :=
  ok_or (deserialize (acc_data a)) IE.InvalidAccountData.

(** Refuses a state larger than the account; otherwise overwrites the
    beginning of the data. *)
Definition set_state {A} `{Bincode A} (a : AccountSharedData) (v : A)
    : result InstructionError AccountSharedData :=
  let bytes := serialize v in
  if (length (acc_data a) <? length bytes)%nat then Err IE.AccountDataTooSmall
  else Ok (set_data a (bytes ++ drop (length bytes) (acc_data a))).

(** ** Derived keys *)

(** The hash of the three parts of a derived key (sha256). *)
Class SeedHash := { hashv : Pubkey -> list Z -> Pubkey -> Pubkey }.

Inductive PubkeyError := MaxSeedLengthExceeded | InvalidSeeds | IllegalOwner.

(** By the blanket conversion of error codes. *)
Definition pubkey_error_into (e : PubkeyError) : InstructionError :=
  IE.Custom match e with MaxSeedLengthExceeded => 0 | InvalidSeeds => 1 | IllegalOwner => 2 end.

Definition MAX_SEED_LEN : nat := 32.

(** [b"ProgramDerivedAddress"], read big-endian like a key. *)
Definition PDA_MARKER : N :=
  fold_left (fun acc b => acc * 256 + b)%N
    [80; 114; 111; 103; 114; 97; 109; 68; 101; 114; 105; 118; 101; 100; 65; 100; 100; 114;
     101; 115; 115]%N 0%N.

(** The last 21 of the 32 bytes of the owner are compared with the marker. *)
Definition create_with_seed `{SeedHash} (base : Pubkey) (seed : list Z) (owner : Pubkey)
    : result PubkeyError Pubkey :=
  if (MAX_SEED_LEN <? length seed)%nat then Err MaxSeedLengthExceeded
  else if N.eqb (owner mod 2 ^ (8 * 21))%N PDA_MARKER then Err IllegalOwner
  else Ok (hashv base seed owner).

(** ** The context of an instruction *)

Record Clock := {
  clk_slot : Slot;
  clk_epoch_start_timestamp : Z;
  clk_epoch : Epoch;
  clk_leader_schedule_epoch : Epoch;
  clk_unix_timestamp : Z;
}.

Record SysvarCache := {
  sv_clock : option Clock;
  sv_rent : option Rent;
  sv_slot_hashes : option (list (Slot * Hash));
  sv_recent_blockhashes : option (list Hash);
  sv_stake_history : option StakeHistory;
}.

(** The features the modelled code asks for, named as in
    sdk/src/feature_set.rs. *)
Inductive Feature :=
| vote_withdraw_authority_may_change_authorized_voter
| filter_votes_outside_slot_hashes
| vote_authorize_with_seed
| allow_votes_to_directly_update_vote_state
| reject_non_rent_exempt_vote_withdraws
| reject_vote_account_close_unless_zero_credit_epoch
| vote_stake_checked_instructions
| separate_nonce_from_blockhash
| nonce_must_be_writable
| merge_nonce_error_into_system_error
| system_transfer_zero_check
| enable_durable_nonce
| nonce_must_be_authorized
| nonce_must_be_advanceable
| leave_nonce_on_success
| return_none_for_zero_lamport_accounts
| preserve_rent_epoch_for_rent_exempt_accounts
| instructions_sysvar_owned_by_sysvar
| do_support_realloc
| include_account_index_in_rent_error
| prevent_crediting_accounts_that_end_rent_paying
| require_rent_exempt_accounts
| tx_wide_compute_cap
| add_set_compute_unit_price_ix
| requestable_heap_size
| default_units_per_instruction
| bank_tranaction_count_fix
| record_instruction_in_transaction_context_push
| reject_empty_instruction_without_program
| neon_evm_compute_budget
| remove_native_loader
| cap_accounts_data_len
| prevent_calling_precompiles_as_programs
| increase_tx_account_lock_limit
| require_custodian_for_locked_stake_authorize
| stake_merge_with_unmatched_credits_observed.

(** The features with an activation slot. *)
Abbreviation FeatureSet := (Feature -> bool).

Definition is_active (fs : FeatureSet) (feature : Feature) : bool := fs feature.

Record InvokeContext := {
  ic_keyed_accounts : list KeyedAccount;
  ic_accounts : accounts_store;
  ic_sysvar_cache : SysvarCache;
  ic_feature_set : FeatureSet;
  ic_blockhash : Hash;
  ic_lamports_per_signature : Z;
}.

Definition get_clock (cache : SysvarCache) : result InstructionError Clock :=
  ok_or (sv_clock cache) IE.UnsupportedSysvar.

Definition get_rent (cache : SysvarCache) : result InstructionError Rent :=
  ok_or (sv_rent cache) IE.UnsupportedSysvar.

Definition get_slot_hashes (cache : SysvarCache)
    : result InstructionError (list (Slot * Hash)) :=
  ok_or (sv_slot_hashes cache) IE.UnsupportedSysvar.

Definition get_recent_blockhashes (cache : SysvarCache)
    : result InstructionError (list Hash) :=
  ok_or (sv_recent_blockhashes cache) IE.UnsupportedSysvar.

Definition get_stake_history (cache : SysvarCache) : result InstructionError StakeHistory :=
  ok_or (sv_stake_history cache) IE.UnsupportedSysvar.

Definition check_sysvar_keyed_account (id : Pubkey) (ka : KeyedAccount)
    : result InstructionError unit :=
  if negb (N.eqb (ka_key ka) id) then Err IE.InvalidArgument else Ok tt.

Definition sysvar_clock (ka : KeyedAccount) (ctx : InvokeContext) : result InstructionError Clock :=
  _ ← check_sysvar_keyed_account sysvar_clock_id ka; get_clock (ic_sysvar_cache ctx).

Definition sysvar_rent (ka : KeyedAccount) (ctx : InvokeContext) : result InstructionError Rent :=
  _ ← check_sysvar_keyed_account sysvar_rent_id ka; get_rent (ic_sysvar_cache ctx).

Definition sysvar_slot_hashes (ka : KeyedAccount) (ctx : InvokeContext)
    : result InstructionError (list (Slot * Hash)) :=
  _ ← check_sysvar_keyed_account sysvar_slot_hashes_id ka; get_slot_hashes (ic_sysvar_cache ctx).

Definition sysvar_recent_blockhashes (ka : KeyedAccount) (ctx : InvokeContext)
    : result InstructionError (list Hash) :=
  _ ← check_sysvar_keyed_account sysvar_recent_blockhashes_id ka;
  get_recent_blockhashes (ic_sysvar_cache ctx).

Definition sysvar_stake_history (ka : KeyedAccount) (ctx : InvokeContext)
    : result InstructionError StakeHistory :=
  _ ← check_sysvar_keyed_account sysvar_stake_history_id ka;
  get_stake_history (ic_sysvar_cache ctx).

(** What an instruction leaves: the accounts, and its result.  On an error
    the runtime discards the accounts. *)
Abbreviation instruction_result := (accounts_store * result InstructionError unit)%type.

(** The body of an instruction: a fallible fetch of an account or sysvar
    ends it, and a handler's updated account is written back. *)
Definition fetch {A} (ctx : InvokeContext) (r : result InstructionError A)
    (k : A -> outcome instruction_result) : outcome instruction_result :=
  match r with Ok a => k a | Err e => Returns (ic_accounts ctx, Err e) end.

Definition fails (ctx : InvokeContext) (e : InstructionError) : outcome instruction_result :=
  Returns (ic_accounts ctx, Err e).

(** ** Lamports *)

(** The lamports of some accounts. *)
Definition total_lamports (accounts : accounts_store) (keys : list Pubkey) : Z :=
  fold_right (fun k acc => acc_lamports (accounts k) + acc) 0 keys.

Lemma store_set_eq accounts k a : store_set accounts k a k = a.
Proof. unfold store_set. by rewrite N.eqb_refl. Qed.

Lemma store_set_ne accounts k a k' : k' <> k -> store_set accounts k a k' = accounts k'.
Proof. unfold store_set. by intros ->%N.eqb_neq. Qed.

Lemma total_lamports_set accounts k a keys :
  NoDup keys ->
  total_lamports (store_set accounts k a) keys =
    total_lamports accounts keys
    + if decide (k ∈ keys) then acc_lamports a - acc_lamports (accounts k) else 0.
Proof.
  induction 1 as [|x keys Hx Hnd IH]; cbn.
  { rewrite decide_False by apply not_elem_of_nil. lia. }
  fold (total_lamports (store_set accounts k a) keys). fold (total_lamports accounts keys). rewrite IH.
  destruct (decide (x = k)) as [->|Hne].
  - rewrite store_set_eq, (decide_False (P := k ∈ keys)), decide_True by set_solver. lia.
  - rewrite store_set_ne by done. destruct (decide (k ∈ keys)).
    + rewrite decide_True by set_solver. lia.
    + rewrite decide_False by set_solver. lia.
Qed.

(** ** Serialized states *)

Lemma set_state_Ok {A} `{BincodeLaws A} a (v : A) a' :
  set_state a v = Ok a' ->
  deserialize (acc_data a') = Some v /\ acc_lamports a' = acc_lamports a
  /\ acc_owner a' = acc_owner a /\ length (acc_data a') = length (acc_data a).
Proof.
  unfold set_state. destruct (Nat.ltb_spec (length (acc_data a)) (length (serialize v))); [done|].
  intros [= <-]. cbn. split_and!; [apply deserialize_serialize|done|done|].
  rewrite length_app, length_drop. lia.
Qed.
