(* ===== verification/Nonce.v ===== *)
(** * Durable nonces

    Models sdk/program/src/nonce/state (the versioned state of a nonce
    account), sdk/src/nonce_account.rs (what the bank reads of it) and
    runtime/src/nonce_keyed_account.rs (the instructions on it).  The hash
    that separates durable nonces from blockhashes (sha256) is the class
    [NonceHash]. *)

From S2P Require Import Prelude Keys Errors Account Invocation.

(** ** States *)

(** [hashv(&[DURABLE_NONCE_HASH_PREFIX, blockhash])]. *)
Class NonceHash := { nonce_hash : Hash -> Hash }.

Abbreviation DurableNonce := N (only parsing).

(** [Data]; the fee calculator is its only field. *)
Record NonceData := {
  nd_authority : Pubkey;
  nd_durable_nonce : DurableNonce;
  nd_lamports_per_signature : Z;
}.

Inductive NonceState := NS_Uninitialized | NS_Initialized (data : NonceData).

Inductive NonceVersions := NV_Legacy (s : NonceState) | NV_Current (s : NonceState).

Definition from_blockhash `{NonceHash} (blockhash : Hash) (separate_domains : bool) : DurableNonce :=
  if separate_domains then nonce_hash blockhash else blockhash.

Definition nonce_data_new (authority : Pubkey) (durable_nonce : DurableNonce)
    (lamports_per_signature : Z) : NonceData :=
  {| nd_authority := authority; nd_durable_nonce := durable_nonce;
     nd_lamports_per_signature := lamports_per_signature |}.

(** [Data::blockhash]. *)
Definition nd_blockhash (d : NonceData) : Hash := nd_durable_nonce d.

Definition new_initialized (authority : Pubkey) (durable_nonce : DurableNonce)
    (lamports_per_signature : Z) : NonceState :=
  NS_Initialized (nonce_data_new authority durable_nonce lamports_per_signature).

Definition versions_new (s : NonceState) (separate_domains : bool) : NonceVersions :=
  if separate_domains then NV_Current s else NV_Legacy s.

Definition versions_state (v : NonceVersions) : NonceState :=
  match v with NV_Legacy s => s | NV_Current s => s end.

Definition versions_separate_domains (v : NonceVersions) : bool :=
  match v with NV_Legacy _ => false | NV_Current _ => true end.

Definition verify_recent_blockhash (v : NonceVersions) (recent_blockhash : Hash)
    (separate_domains : bool) : option NonceData :=
  match
    match v with
    | NV_Legacy s => if separate_domains then None else Some s
    | NV_Current s => Some s
    end
  with
  | Some (NS_Initialized data) =>
      if N.eqb recent_blockhash (nd_blockhash data) then Some data else None
  | _ => None
  end.

(** Moves the durable nonce of a legacy state out of the blockhash domain. *)
Definition versions_upgrade `{NonceHash} (v : NonceVersions) : option NonceVersions :=
  match v with
  | NV_Legacy (NS_Initialized data) =>
      Some (NV_Current (NS_Initialized
        (nonce_data_new (nd_authority data) (from_blockhash (nd_blockhash data) true)
           (nd_lamports_per_signature data))))
  | _ => None
  end.

Section NonceAccounts.
Context `{Bincode NonceVersions}.

(** [State::size()]: the serialized size of the largest state. *)
Definition nonce_state_size : nat :=
  length (serialize (versions_new (NS_Initialized (nonce_data_new pubkey_default 0%N 0)) true)).

Definition verify_nonce_account (account : AccountSharedData) (recent_blockhash : Hash)
    (separate_domains : bool) : option NonceData :=
  if N.eqb (acc_owner account) system_program_id then
    v ← result_ok (state account);
    verify_recent_blockhash v recent_blockhash separate_domains
  else None.

Definition lamports_per_signature_of (account : AccountSharedData) : option Z :=
  v ← result_ok (state account);
  match versions_state v with
  | NS_Initialized data => Some (nd_lamports_per_signature data)
  | NS_Uninitialized => None
  end.

Inductive SystemAccountKind := SAK_System | SAK_Nonce.

Definition get_system_account_kind (account : AccountSharedData) : option SystemAccountKind :=
  if N.eqb (acc_owner account) system_program_id then
    if (length (acc_data account) =? 0)%nat then Some SAK_System
    else if (length (acc_data account) =? nonce_state_size)%nat then
      v ← result_ok (state account);
      match versions_state v with
      | NS_Uninitialized => None
      | NS_Initialized _ => Some SAK_Nonce
      end
    else None
  else None.

End NonceAccounts.

(** ** Errors *)

Module SE.
Inductive SystemError :=
| AccountAlreadyInUse | ResultWithNegativeLamports | InvalidProgramId | InvalidAccountDataLength
| MaxSeedLengthExceeded | AddressWithSeedMismatch | NonceNoRecentBlockhashes
| NonceBlockhashNotExpired | NonceUnexpectedBlockhashValue.

Definition to_u32 (e : SystemError) : Z :=
  match e with
  | AccountAlreadyInUse => 0 | ResultWithNegativeLamports => 1 | InvalidProgramId => 2
  | InvalidAccountDataLength => 3 | MaxSeedLengthExceeded => 4 | AddressWithSeedMismatch => 5
  | NonceNoRecentBlockhashes => 6 | NonceBlockhashNotExpired => 7
  | NonceUnexpectedBlockhashValue => 8
  end.
End SE.

Module NE.
Inductive NonceError := NoRecentBlockhashes | NotExpired | UnexpectedValue | BadAccountState.

Definition to_u32 (e : NonceError) : Z :=
  match e with
  | NoRecentBlockhashes => 0 | NotExpired => 1 | UnexpectedValue => 2 | BadAccountState => 3
  end.
End NE.

Definition system_error_into (e : SE.SystemError) : InstructionError := IE.Custom (SE.to_u32 e).

(** [From<NonceError> for InstructionError]. *)
Definition nonce_error_into (e : NE.NonceError) : InstructionError := IE.Custom (NE.to_u32 e).

Definition nonce_to_instruction_error (error : NE.NonceError) (use_system_variant : bool)
    : InstructionError :=
  if use_system_variant then
    match error with
    | NE.NoRecentBlockhashes => system_error_into SE.NonceNoRecentBlockhashes
    | NE.NotExpired => system_error_into SE.NonceBlockhashNotExpired
    | NE.UnexpectedValue => system_error_into SE.NonceUnexpectedBlockhashValue
    | NE.BadAccountState => IE.InvalidAccountData
    end
  else nonce_error_into error.

(** ** Instructions on a nonce account *)

Section NonceKeyedAccount.
Context `{NonceHash} `{Bincode NonceVersions}.

Definition get_durable_nonce (ctx : InvokeContext) : DurableNonce * bool :=
  let separate := is_active (ic_feature_set ctx) separate_nonce_from_blockhash in
  (from_blockhash (ic_blockhash ctx) separate, separate).

(** The nonce error in the form the features ask for. *)
Definition nonce_fails (ctx : InvokeContext) (e : NE.NonceError) : InstructionError :=
  nonce_to_instruction_error e (is_active (ic_feature_set ctx) merge_nonce_error_into_system_error).

(** The check every handler starts with. *)
Definition check_writable (ctx : InvokeContext) (me : KeyedAccount) : result InstructionError unit :=
  if is_active (ic_feature_set ctx) nonce_must_be_writable && negb (ka_is_writable me)
  then Err IE.InvalidArgument else Ok tt.

(** [signers.contains(key)], or the missing signature. *)
Definition check_signer (signers : gset N) (key : Pubkey) : result InstructionError unit :=
  if bool_decide (key ∈ signers) then Ok tt else Err IE.MissingRequiredSignature.

Definition advance_nonce_account (me : KeyedAccount) (signers : gset N) (ctx : InvokeContext)
    : result InstructionError accounts_store :=
  let account := ic_accounts ctx (ka_key me) in
  _ ← check_writable ctx me;
  versions ← state account;
  match versions_state versions with
  | NS_Initialized data =>
      _ ← check_signer signers (nd_authority data);
      let '(next_durable_nonce, separate_domains) := get_durable_nonce ctx in
      if N.eqb (nd_durable_nonce data) next_durable_nonce then Err (nonce_fails ctx NE.NotExpired)
      else
        let new_data := nonce_data_new (nd_authority data) next_durable_nonce
                          (ic_lamports_per_signature ctx) in
        a ← set_state account (versions_new (NS_Initialized new_data) separate_domains);
        Ok (store_set (ic_accounts ctx) (ka_key me) a)
  | NS_Uninitialized => Err (nonce_fails ctx NE.BadAccountState)
  end.

(** The checks before the lamports move: the key that must sign, and the
    account, uninitialized when it is emptied. *)
Definition withdraw_checks (me : KeyedAccount) (lamports : Z) (rent : Rent) (ctx : InvokeContext)
    : result InstructionError (Pubkey * accounts_store) :=
  let account := ic_accounts ctx (ka_key me) in
  versions ← state account;
  match versions_state versions with
  | NS_Uninitialized =>
      if acc_lamports account <? lamports then Err IE.InsufficientFunds
      else Ok (ka_key me, ic_accounts ctx)
  | NS_Initialized data =>
      if lamports =? acc_lamports account then
        let '(durable_nonce, separate_domains) := get_durable_nonce ctx in
        if N.eqb (nd_durable_nonce data) durable_nonce then Err (nonce_fails ctx NE.NotExpired)
        else
          a ← set_state account (versions_new NS_Uninitialized separate_domains);
          Ok (nd_authority data, store_set (ic_accounts ctx) (ka_key me) a)
      else
        let min_balance := minimum_balance rent (length (acc_data account)) in
        amount ← ok_or (checked_add64 lamports min_balance) IE.InsufficientFunds;
        if acc_lamports account <? amount then Err IE.InsufficientFunds
        else Ok (nd_authority data, ic_accounts ctx)
  end.

Definition withdraw_nonce_account (me : KeyedAccount) (lamports : Z) (to : KeyedAccount)
    (rent : Rent) (signers : gset N) (ctx : InvokeContext)
    : result InstructionError accounts_store :=
  _ ← check_writable ctx me;
  '(signer, accounts) ← withdraw_checks me lamports rent ctx;
  _ ← check_signer signers signer;
  let nonce_account := accounts (ka_key me) in
  left ← ok_or (checked_sub64 (acc_lamports nonce_account) lamports) IE.ArithmeticOverflow;
  let accounts := store_set accounts (ka_key me) (set_lamports nonce_account left) in
  let to_account := accounts (ka_key to) in
  sum ← ok_or (checked_add64 (acc_lamports to_account) lamports) IE.ArithmeticOverflow;
  Ok (store_set accounts (ka_key to) (set_lamports to_account sum)).

Definition initialize_nonce_account (me : KeyedAccount) (nonce_authority : Pubkey) (rent : Rent)
    (ctx : InvokeContext) : result InstructionError accounts_store :=
  let account := ic_accounts ctx (ka_key me) in
  _ ← check_writable ctx me;
  versions ← state account;
  match versions_state versions with
  | NS_Uninitialized =>
      if acc_lamports account <? minimum_balance rent (length (acc_data account))
      then Err IE.InsufficientFunds
      else
        let '(durable_nonce, separate_domains) := get_durable_nonce ctx in
        let data := nonce_data_new nonce_authority durable_nonce (ic_lamports_per_signature ctx) in
        a ← set_state account (versions_new (NS_Initialized data) separate_domains);
        Ok (store_set (ic_accounts ctx) (ka_key me) a)
  | NS_Initialized _ => Err (nonce_fails ctx NE.BadAccountState)
  end.

Definition authorize_nonce_account (me : KeyedAccount) (nonce_authority : Pubkey)
    (signers : gset N) (ctx : InvokeContext) : result InstructionError accounts_store :=
  let account := ic_accounts ctx (ka_key me) in
  _ ← check_writable ctx me;
  versions ← state account;
  match versions_state versions with
  | NS_Initialized data =>
      _ ← check_signer signers (nd_authority data);
      let new_data := nonce_data_new nonce_authority (nd_durable_nonce data)
                        (nd_lamports_per_signature data) in
      a ← set_state account
            (versions_new (NS_Initialized new_data) (versions_separate_domains versions));
      Ok (store_set (ic_accounts ctx) (ka_key me) a)
  | NS_Uninitialized => Err (nonce_fails ctx NE.BadAccountState)
  end.

End NonceKeyedAccount.
