(* ===== verification/SystemProgram.v ===== *)
(** * The system program

    Models runtime/src/system_instruction_processor.rs with the instruction
    type of sdk/program/src/system_instruction.rs: creating, allocating and
    assigning accounts, transfers, and the instructions on nonce accounts.

    A handler answers the accounts it leaves, or the error; the accounts of a
    failed instruction are discarded with its transaction. *)

From S2P Require Import Prelude Keys Errors Account Invocation Nonce.

(** ** Instructions *)

(** A seed is the bytes of the source's string. *)
Inductive SystemInstruction :=
| CreateAccount (lamports space : Z) (owner : Pubkey)
| Assign (owner : Pubkey)
| Transfer (lamports : Z)
| CreateAccountWithSeed (base : Pubkey) (seed : list Z) (lamports space : Z) (owner : Pubkey)
| AdvanceNonceAccount
| WithdrawNonceAccount (lamports : Z)
| InitializeNonceAccount (pubkey : Pubkey)
| AuthorizeNonceAccount (pubkey : Pubkey)
| Allocate (space : Z)
| AllocateWithSeed (base : Pubkey) (seed : list Z) (space : Z) (owner : Pubkey)
| AssignWithSeed (base : Pubkey) (seed : list Z) (owner : Pubkey)
| TransferWithSeed (lamports : Z) (from_seed : list Z) (from_owner : Pubkey)
| UpgradeNonceAccount.

(** Bincode at [SystemInstruction]. *)
Class SystemCodec := { decode_system_instruction : list Z -> option SystemInstruction }.

Definition MAX_PERMITTED_DATA_LENGTH : Z := 10 * 1024 * 1024.

(** ** Addresses *)

(** An address that may have been generated from a seed. *)
Record Address := { ad_address : Pubkey; ad_base : option Pubkey }.

Definition address_is_signer (a : Address) (signers : gset N) : bool :=
  match ad_base a with
  | Some base => bool_decide (base ∈ signers)
  | None => bool_decide (ad_address a ∈ signers)
  end.

Definition address_create `{SeedHash} (address : Pubkey)
    (with_seed : option (Pubkey * list Z * Pubkey)) : result InstructionError Address :=
  base ← match with_seed with
    | Some (base, seed, owner) =>
        address_with_seed ← map_err pubkey_error_into (create_with_seed base seed owner);
        if negb (N.eqb address address_with_seed)
        then Err (system_error_into SE.AddressWithSeedMismatch) else Ok (Some base)
    | None => Ok None
    end;
  Ok {| ad_address := address; ad_base := base |}.

(** ** Handlers *)

Definition allocate (account : AccountSharedData) (address : Address) (space : Z)
    (signers : gset N) : result InstructionError AccountSharedData :=
  if negb (address_is_signer address signers) then Err IE.MissingRequiredSignature
  else if negb (length (acc_data account) =? 0)%nat
          || negb (N.eqb (acc_owner account) system_program_id)
  then Err (system_error_into SE.AccountAlreadyInUse)
  else if MAX_PERMITTED_DATA_LENGTH <? space
  then Err (system_error_into SE.InvalidAccountDataLength)
  else Ok (set_data account (replicate (Z.to_nat space) 0)).

Definition set_owner (a : AccountSharedData) (owner : Pubkey) : AccountSharedData :=
  {| acc_lamports := acc_lamports a; acc_data := acc_data a; acc_owner := owner;
     acc_executable := acc_executable a; acc_rent_epoch := acc_rent_epoch a |}.

Definition assign (account : AccountSharedData) (address : Address) (owner : Pubkey)
    (signers : gset N) : result InstructionError AccountSharedData :=
  if N.eqb (acc_owner account) owner then Ok account
  else if negb (address_is_signer address signers) then Err IE.MissingRequiredSignature
  else Ok (set_owner account owner).

Definition allocate_and_assign (to : AccountSharedData) (to_address : Address) (space : Z)
    (owner : Pubkey) (signers : gset N) : result InstructionError AccountSharedData :=
  to ← allocate to to_address space signers;
  assign to to_address owner signers.

Definition transfer_verified (accounts : accounts_store) (from to : KeyedAccount) (lamports : Z)
    : result InstructionError accounts_store :=
  let from_account := accounts (ka_key from) in
  if negb (length (acc_data from_account) =? 0)%nat then Err IE.InvalidArgument
  else if acc_lamports from_account <? lamports
  then Err (system_error_into SE.ResultWithNegativeLamports)
  else
    a ← map_err lamports_error_into (checked_sub_lamports from_account lamports);
    let accounts := store_set accounts (ka_key from) a in
    b ← map_err lamports_error_into (checked_add_lamports (accounts (ka_key to)) lamports);
    Ok (store_set accounts (ka_key to) b).

Definition transfer (accounts : accounts_store) (from to : KeyedAccount) (lamports : Z)
    (features : FeatureSet) : result InstructionError accounts_store :=
  if negb (is_active features system_transfer_zero_check) && (lamports =? 0) then Ok accounts
  else match signer_key from with
  | None => Err IE.MissingRequiredSignature
  | Some _ => transfer_verified accounts from to lamports
  end.

Definition create_account (accounts : accounts_store) (from to : KeyedAccount)
    (to_address : Address) (lamports space : Z) (owner : Pubkey) (signers : gset N)
    (features : FeatureSet) : result InstructionError accounts_store :=
  let to_account := accounts (ka_key to) in
  if 0 <? acc_lamports to_account then Err (system_error_into SE.AccountAlreadyInUse)
  else
    a ← allocate_and_assign to_account to_address space owner signers;
    transfer (store_set accounts (ka_key to) a) from to lamports features.

Definition transfer_with_seed `{SeedHash} (accounts : accounts_store) (from from_base : KeyedAccount)
    (from_seed : list Z) (from_owner : Pubkey) (to : KeyedAccount) (lamports : Z)
    (features : FeatureSet) : result InstructionError accounts_store :=
  if negb (is_active features system_transfer_zero_check) && (lamports =? 0) then Ok accounts
  else match signer_key from_base with
  | None => Err IE.MissingRequiredSignature
  | Some _ =>
      address_from_seed ← map_err pubkey_error_into
        (create_with_seed (ka_key from_base) from_seed from_owner);
      if negb (N.eqb (ka_key from) address_from_seed)
      then Err (system_error_into SE.AddressWithSeedMismatch)
      else transfer_verified accounts from to lamports
  end.

Section Processor.
Context `{SeedHash} `{NonceHash} `{Bincode NonceVersions} `{SystemCodec}.

(** [UpgradeNonceAccount]. *)
Definition upgrade_nonce_account (me : KeyedAccount) (ctx : InvokeContext)
    : result InstructionError accounts_store :=
  let account := ic_accounts ctx (ka_key me) in
  if negb (N.eqb (acc_owner account) system_program_id) then Err IE.InvalidAccountOwner
  else if negb (ka_is_writable me) then Err IE.InvalidArgument
  else
    nonce_versions ← state account;
    match versions_upgrade nonce_versions with
    | None => Err IE.InvalidArgument
    | Some nonce_versions =>
        a ← set_state account nonce_versions;
        Ok (store_set (ic_accounts ctx) (ka_key me) a)
    end.

(** The [match] of [process_instruction] over the decoded instruction, on the
    account at [first_instruction_account]. *)
Definition system_dispatch (first : nat) (ctx : InvokeContext) (me : KeyedAccount)
    (signers : gset N) (instruction : SystemInstruction) : result InstructionError accounts_store :=
  let accounts := ic_accounts ctx in
  let features := ic_feature_set ctx in
  let account_at i := keyed_account_at_index (ic_keyed_accounts ctx) (first + i) in
  let update (r : result InstructionError AccountSharedData) :=
    a ← r; Ok (store_set accounts (ka_key me) a) in
  match instruction with
  | CreateAccount lamports space owner =>
      to ← account_at 1%nat;
      to_address ← address_create (ka_key to) None;
      create_account accounts me to to_address lamports space owner signers features
  | CreateAccountWithSeed base seed lamports space owner =>
      to ← account_at 1%nat;
      to_address ← address_create (ka_key to) (Some (base, seed, owner));
      create_account accounts me to to_address lamports space owner signers features
  | Assign owner =>
      address ← address_create (ka_key me) None;
      update (assign (accounts (ka_key me)) address owner signers)
  | Transfer lamports =>
      to ← account_at 1%nat;
      transfer accounts me to lamports features
  | TransferWithSeed lamports from_seed from_owner =>
      base ← account_at 1%nat;
      to ← account_at 2%nat;
      transfer_with_seed accounts me base from_seed from_owner to lamports features
  | AdvanceNonceAccount =>
      ka ← account_at 1%nat;
      recent_blockhashes ← sysvar_recent_blockhashes ka ctx;
      if (length recent_blockhashes =? 0)%nat then Err (nonce_error_into NE.NoRecentBlockhashes)
      else advance_nonce_account me signers ctx
  | WithdrawNonceAccount lamports =>
      to ← account_at 1%nat;
      ka ← account_at 2%nat;
      _ ← sysvar_recent_blockhashes ka ctx;
      ka ← account_at 3%nat;
      rent ← sysvar_rent ka ctx;
      withdraw_nonce_account me lamports to rent signers ctx
  | InitializeNonceAccount authorized =>
      ka ← account_at 1%nat;
      recent_blockhashes ← sysvar_recent_blockhashes ka ctx;
      if (length recent_blockhashes =? 0)%nat then Err (nonce_error_into NE.NoRecentBlockhashes)
      else
        ka ← account_at 2%nat;
        rent ← sysvar_rent ka ctx;
        initialize_nonce_account me authorized rent ctx
  | AuthorizeNonceAccount nonce_authority =>
      authorize_nonce_account me nonce_authority signers ctx
  | UpgradeNonceAccount =>
      if negb (is_active features separate_nonce_from_blockhash) then Err IE.InvalidInstructionData
      else upgrade_nonce_account me ctx
  | Allocate space =>
      address ← address_create (ka_key me) None;
      update (allocate (accounts (ka_key me)) address space signers)
  | AllocateWithSeed base seed space owner =>
      address ← address_create (ka_key me) (Some (base, seed, owner));
      update (allocate_and_assign (accounts (ka_key me)) address space owner signers)
  | AssignWithSeed base seed owner =>
      address ← address_create (ka_key me) (Some (base, seed, owner));
      update (assign (accounts (ka_key me)) address owner signers)
  end.

Definition system_process_instruction (first_instruction_account : nat) (data : list Z)
    (ctx : InvokeContext) : result InstructionError accounts_store :=
  instruction ← ok_or (decode_system_instruction data) IE.InvalidInstructionData;
  me ← keyed_account_at_index (ic_keyed_accounts ctx) first_instruction_account;
  let signers := get_signers (drop first_instruction_account (ic_keyed_accounts ctx)) in
  system_dispatch first_instruction_account ctx me signers instruction.

End Processor.
