(* ===== verification/SystemSafety.v ===== *)
(** * Safety of the system program

    A successful system instruction conserves lamports, touches only the
    accounts it names, takes lamports and ownership only from accounts whose
    key, base key or nonce authority signed, and an advanced nonce no longer
    verifies the transactions signed for its old value. *)

From S2P Require Import Prelude Keys Errors Account Invocation Nonce SystemProgram.

(** ** Specification *)

(** The key signed, or the base of a seed it is derived from. *)
Definition signs `{SeedHash} (signers : gset N) (k : Pubkey) : Prop :=
  k ∈ signers \/ exists base seed owner, base ∈ signers /\ create_with_seed base seed owner = Ok k.

(** The nonce authority recorded in the account signed. *)
Definition nonce_signs `{Bincode NonceVersions} (signers : gset N) (a : AccountSharedData) : Prop :=
  exists v data, state a = Ok v /\ versions_state v = NS_Initialized data /\ nd_authority data ∈ signers.

(** What an instruction may do to the accounts: move lamports between the
    accounts [ks], out of the accounts in [debited]; change owners of those in
    [owned]. *)
Record change_ok (ks : list Pubkey) (debited owned : Pubkey -> Prop)
    (accounts accounts' : accounts_store) : Prop := {
  co_total : forall keys, NoDup keys -> (forall k, k ∈ ks -> k ∈ keys) ->
    total_lamports accounts' keys = total_lamports accounts keys;
  co_frame : forall k, k ∉ ks -> accounts' k = accounts k;
  co_debit : forall k, acc_lamports (accounts' k) < acc_lamports (accounts k) -> debited k;
  co_owner : forall k, acc_owner (accounts' k) <> acc_owner (accounts k) -> owned k;
  co_u64 : (forall k, u64 (acc_lamports (accounts k))) -> forall k, u64 (acc_lamports (accounts' k));
}.

(** The amounts of an instruction are unsigned. *)
Definition amounts_typed (i : SystemInstruction) : Prop :=
  match i with
  | CreateAccount l _ _ | CreateAccountWithSeed _ _ l _ _ | Transfer l | TransferWithSeed l _ _
  | WithdrawNonceAccount l => 0 <= l
  | _ => True
  end.

(** ** Lemmas: changes *)

Lemma change_refl ks P Q accounts : change_ok ks P Q accounts accounts.
Proof. split; intros; [done|done|lia|congruence|auto]. Qed.

Lemma change_trans ks P Q a b c :
  change_ok ks P Q a b -> change_ok ks P Q b c -> change_ok ks P Q a c.
Proof.
  intros H1 H2. split.
  - intros keys Hnd Hks. by rewrite (co_total _ _ _ _ _ H2), (co_total _ _ _ _ _ H1).
  - intros k Hk. by rewrite (co_frame _ _ _ _ _ H2), (co_frame _ _ _ _ _ H1).
  - intros k Hlt. destruct (decide (acc_lamports (b k) < acc_lamports (a k))).
    + by apply (co_debit _ _ _ _ _ H1).
    + apply (co_debit _ _ _ _ _ H2). lia.
  - intros k Hne. destruct (decide (acc_owner (b k) = acc_owner (a k))) as [Heq|].
    + apply (co_owner _ _ _ _ _ H2). congruence.
    + by apply (co_owner _ _ _ _ _ H1).
  - intros Hu. by apply (co_u64 _ _ _ _ _ H2), (co_u64 _ _ _ _ _ H1).
Qed.

Lemma change_weaken ks (P P' Q Q' : Pubkey -> Prop) a b :
  (forall k, P k -> P' k) -> (forall k, Q k -> Q' k) -> change_ok ks P Q a b -> change_ok ks P' Q' a b.
Proof. intros HP HQ []. split; auto. Qed.

(** Replacing one account by one with the same lamports. *)
Lemma change_update ks P Q accounts k a :
  k ∈ ks -> acc_lamports a = acc_lamports (accounts k) ->
  (acc_owner a <> acc_owner (accounts k) -> Q k) ->
  change_ok ks P Q accounts (store_set accounts k a).
Proof.
  intros Hk Hl Ho. split.
  - intros keys Hnd Hks. rewrite total_lamports_set by done. case_decide; lia.
  - intros k' Hk'. apply store_set_ne. congruence.
  - intros k'. destruct (decide (k' = k)) as [->|]; rewrite ?store_set_eq, ?store_set_ne by done; lia.
  - intros k'. destruct (decide (k' = k)) as [->|]; rewrite ?store_set_eq, ?store_set_ne by done; [done|].
    congruence.
  - intros Hu k'. destruct (decide (k' = k)) as [->|]; rewrite ?store_set_eq, ?store_set_ne by done; [|done].
    by rewrite Hl.
Qed.

(** Moving lamports from one account to another, which may be the same. *)
Lemma change_move ks P Q accounts f t l :
  f ∈ ks -> t ∈ ks -> P f -> 0 <= l <= acc_lamports (accounts f) ->
  let mid := store_set accounts f (set_lamports (accounts f) (acc_lamports (accounts f) - l)) in
  acc_lamports (mid t) + l <= U64_MAX ->
  change_ok ks P Q accounts (store_set mid t (set_lamports (mid t) (acc_lamports (mid t) + l))).
Proof.
  intros Hf Ht HP Hl mid Hmax.
  assert (forall k, acc_lamports (mid k) = acc_lamports (accounts k) - if decide (k = f) then l else 0) as Hmid.
  { intros k. unfold mid. destruct (decide (k = f)) as [->|]; rewrite ?store_set_eq, ?store_set_ne by done;
      cbn; lia. }
  assert (forall k, acc_owner (mid k) = acc_owner (accounts k)) as Hown.
  { intros k. unfold mid. by destruct (decide (k = f)) as [->|]; rewrite ?store_set_eq, ?store_set_ne by done. }
  rewrite Hmid in Hmax. split.
  - intros keys Hnd Hks. rewrite total_lamports_set, decide_True by auto. unfold mid at 1.
    rewrite total_lamports_set, decide_True by auto. cbn. lia.
  - intros k Hk. rewrite store_set_ne by congruence. unfold mid. apply store_set_ne. congruence.
  - intros k. destruct (decide (k = t)) as [->|]; rewrite ?store_set_eq, ?store_set_ne by done; cbn;
      rewrite Hmid; repeat case_decide; subst; intros ?; try done; lia.
  - intros k Hne. exfalso. apply Hne.
    destruct (decide (k = t)) as [->|]; rewrite ?store_set_eq, ?store_set_ne by done; apply Hown.
  - intros Hu k. pose proof (Hu k) as Hk. destruct (decide (k = t)) as [->|];
      rewrite ?store_set_eq, ?store_set_ne by done; cbn; rewrite Hmid; unfold u64 in *;
      repeat case_decide; subst; lia.
Qed.

(** ** Lemmas: handlers *)

Section Handlers.
Context `{SeedHash} `{NonceHash} `{BincodeLaws NonceVersions}.
Variables (first : nat) (ctx : InvokeContext).
Let kas := drop first (ic_keyed_accounts ctx).
Let ks := map ka_key kas.
Let signers := get_signers kas.

Lemma account_at_named i ka :
  keyed_account_at_index (ic_keyed_accounts ctx) (first + i) = Ok ka -> ka ∈ kas.
Proof.
  unfold keyed_account_at_index. rewrite ok_or_Ok. intros Hka.
  apply list_elem_of_lookup. exists i. unfold kas. by rewrite lookup_drop.
Qed.

Lemma named_key ka : ka ∈ kas -> ka_key ka ∈ ks.
Proof. apply list_elem_of_fmap_2. Qed.

Lemma named_signer ka k : ka ∈ kas -> signer_key ka = Some k -> ka_key ka ∈ signers.
Proof.
  intros Hka Hk. unfold signers, get_signers. rewrite elem_of_list_to_set, list_elem_of_omap.
  exists ka. split; [done|]. unfold signer_key in *. by destruct (ka_is_signer ka).
Qed.

Lemma address_signs k w ad :
  address_create k w = Ok ad -> address_is_signer ad signers = true -> signs signers k.
Proof.
  unfold address_create. intros Had. destruct w as [[[base seed] owner]|]; inv_Ok Had; subst ad.
  - inv_Ok Ha. rewrite map_err_Ok in Ha0. zbool. apply N.eqb_eq in Heqb as ->.
    subst a. cbn. rewrite bool_decide_eq_true. intros Hb. right. by exists base, seed, owner.
  - inv_Ok Ha. subst a. cbn. rewrite bool_decide_eq_true. by left.
Qed.

Lemma assign_changes a k w ad owner a' :
  address_create k w = Ok ad -> assign a ad owner signers = Ok a' ->
  acc_lamports a' = acc_lamports a /\ (acc_owner a' <> acc_owner a -> signs signers k).
Proof.
  intros Had Ha. unfold assign in Ha. inv_Ok Ha; subst a'; [done|].
  zbool. split; [done|]. intros _. by eapply address_signs.
Qed.

Lemma allocate_changes a ad space a' :
  allocate a ad space signers = Ok a' ->
  acc_lamports a' = acc_lamports a /\ acc_owner a' = acc_owner a.
Proof. unfold allocate. intros Ha. inv_Ok Ha; subst a'; done. Qed.

Lemma allocate_assign_changes a k w ad space owner a' :
  address_create k w = Ok ad -> allocate_and_assign a ad space owner signers = Ok a' ->
  acc_lamports a' = acc_lamports a /\ (acc_owner a' <> acc_owner a -> signs signers k).
Proof.
  intros Had Ha. unfold allocate_and_assign in Ha. inv_Ok Ha.
  apply allocate_changes in Ha0 as [<- <-]. by eapply assign_changes.
Qed.

Lemma transfer_verified_changes P Q accounts from to l accounts' :
  from ∈ kas -> to ∈ kas -> 0 <= l -> P (ka_key from) ->
  transfer_verified accounts from to l = Ok accounts' -> change_ok ks P Q accounts accounts'.
Proof.
  intros Hf Ht Hl HP Ha. unfold transfer_verified in Ha. inv_Ok Ha. subst accounts'.
  rewrite map_err_Ok in *. apply checked_sub_lamports_Ok in Ha0 as [-> Hle].
  apply checked_add_lamports_Ok in Ha1 as [-> Hmax].
  apply change_move; auto using named_key.
Qed.

Lemma transfer_changes Q accounts from to l features accounts' :
  from ∈ kas -> to ∈ kas -> 0 <= l ->
  transfer accounts from to l features = Ok accounts' ->
  change_ok ks (signs signers) Q accounts accounts'.
Proof.
  intros Hf Ht Hl Ha. unfold transfer in Ha. inv_Ok Ha; [subst; apply change_refl|].
  eapply transfer_verified_changes in Ha; [done|done|done|done|]. left. by eapply named_signer.
Qed.

Lemma transfer_with_seed_changes Q accounts from base seed owner to l features accounts' :
  from ∈ kas -> base ∈ kas -> to ∈ kas -> 0 <= l ->
  transfer_with_seed accounts from base seed owner to l features = Ok accounts' ->
  change_ok ks (signs signers) Q accounts accounts'.
Proof.
  intros Hf Hb Ht Hl Ha. unfold transfer_with_seed in Ha. inv_Ok Ha; [subst; apply change_refl|].
  zbool. apply N.eqb_eq in Heqb0. subst a. rewrite map_err_Ok in Ha0.
  eapply transfer_verified_changes in Ha; [done|done|done|done|].
  right. exists (ka_key base), seed, owner. split; [by eapply named_signer|done].
Qed.

Lemma create_account_changes accounts from to w ad l space owner features accounts' :
  from ∈ kas -> to ∈ kas -> 0 <= l -> address_create (ka_key to) w = Ok ad ->
  create_account accounts from to ad l space owner signers features = Ok accounts' ->
  change_ok ks (signs signers) (signs signers) accounts accounts'.
Proof.
  intros Hf Ht Hl Had Ha. unfold create_account in Ha. inv_Ok Ha.
  eapply allocate_assign_changes in Ha0 as [Hla Hoa]; [|done].
  eapply change_trans; [apply change_update; [by apply named_key|exact Hla|exact Hoa]|].
  exact (transfer_changes _ _ from to l features _ Hf Ht Hl Ha).
Qed.

(** Writing a nonce state leaves lamports and owner. *)
Lemma nonce_update_changes P Q me (v : NonceVersions) a :
  me ∈ kas -> set_state (ic_accounts ctx (ka_key me)) v = Ok a ->
  change_ok ks P Q (ic_accounts ctx) (store_set (ic_accounts ctx) (ka_key me) a).
Proof.
  intros Hme Ha. apply set_state_Ok in Ha as (_ & Hl & Ho & _).
  apply change_update; [by apply named_key|done|congruence].
Qed.

Lemma check_signer_Ok k x : check_signer signers k = Ok x -> k ∈ signers.
Proof. unfold check_signer. case_bool_decide; done. Qed.

(** The accounts an instruction may take lamports from. *)
Definition debitable (k : Pubkey) : Prop :=
  signs signers k \/ nonce_signs signers (ic_accounts ctx k).

Lemma withdraw_changes me l to rent accounts' :
  me ∈ kas -> to ∈ kas -> 0 <= l ->
  withdraw_nonce_account me l to rent signers ctx = Ok accounts' ->
  change_ok ks debitable (signs signers) (ic_accounts ctx) accounts'.
Proof.
  intros Hme Hto Hl Ha. unfold withdraw_nonce_account in Ha. inv_Ok Ha. subst accounts'.
  rewrite ok_or_Ok in *. rename Ha1 into Hchecks, Ha2 into Hsig, Ha3 into Hsub, Ha4 into Hadd.
  apply check_signer_Ok in Hsig.
  assert (debitable (ka_key me)
    /\ change_ok ks debitable (signs signers) (ic_accounts ctx) a1) as [Hd Hc].
  { unfold withdraw_checks in Hchecks. inv_Ok Hchecks; simplify_eq/=.
    - split; [by left; left|apply change_refl].
    - split; [by right; eexists _, _|by eapply nonce_update_changes].
    - split; [by right; eexists _, _|apply change_refl]. }
  eapply change_trans; [exact Hc|].
  unfold checked_sub64 in Hsub. unfold checked_add64 in Hadd. splits. zbool.
  apply change_move; auto using named_key.
Qed.

Lemma dispatch_changes me i accounts' :
  me ∈ kas -> amounts_typed i -> system_dispatch first ctx me signers i = Ok accounts' ->
  change_ok ks debitable (signs signers) (ic_accounts ctx) accounts'.
Proof.
  intros Hme Hi Ha.
  assert (forall accounts', change_ok ks (signs signers) (signs signers) (ic_accounts ctx) accounts' ->
    change_ok ks debitable (signs signers) (ic_accounts ctx) accounts') as Hweak.
  { intros ?. apply change_weaken; [by left|done]. }
  destruct i; cbn in Hi; unfold system_dispatch in Ha; cbn zeta in Ha.
  all: inv_Ok Ha;
    repeat match goal with
    | Hk : keyed_account_at_index _ _ = Ok _ |- _ => apply account_at_named in Hk
    end.
  - (* CreateAccount *) by apply Hweak; eapply (create_account_changes _ me a).
  - (* Assign *) subst accounts'. eapply assign_changes in Ha1 as [? ?]; [|done].
    apply change_update; auto using named_key.
  - (* Transfer *) by apply Hweak; eapply (transfer_changes _ _ me a).
  - (* CreateAccountWithSeed *) by apply Hweak; eapply (create_account_changes _ me a).
  - (* AdvanceNonceAccount *) unfold advance_nonce_account in Ha. inv_Ok Ha. subst accounts'.
    by eapply nonce_update_changes.
  - (* WithdrawNonceAccount *) by eapply (withdraw_changes me lamports a).
  - (* InitializeNonceAccount *) unfold initialize_nonce_account in Ha. inv_Ok Ha. subst accounts'.
    by eapply nonce_update_changes.
  - (* AuthorizeNonceAccount *) unfold authorize_nonce_account in Ha. inv_Ok Ha. subst accounts'.
    by eapply nonce_update_changes.
  - (* Allocate *) subst accounts'. apply allocate_changes in Ha1 as [? ?].
    apply change_update; [by apply named_key|done|congruence].
  - (* AllocateWithSeed *) subst accounts'. eapply allocate_assign_changes in Ha1 as [? ?]; [|done].
    apply change_update; auto using named_key.
  - (* AssignWithSeed *) subst accounts'. eapply assign_changes in Ha1 as [? ?]; [|done].
    apply change_update; auto using named_key.
  - (* TransferWithSeed *) by apply Hweak; eapply (transfer_with_seed_changes _ _ me a _ _ a0).
  - (* UpgradeNonceAccount *) unfold upgrade_nonce_account in Ha. inv_Ok Ha. subst accounts'.
    by eapply nonce_update_changes.
Qed.

End Handlers.

(** ** A concrete context *)

Module Sample.

(** A word per field stands for bincode's bytes. *)
Definition put_state (s : NonceState) : list Z :=
  match s with
  | NS_Uninitialized => [0]
  | NS_Initialized d => [1; Z.of_N (nd_authority d); Z.of_N (nd_durable_nonce d); nd_lamports_per_signature d]
  end.

Definition get_state (l : list Z) : option NonceState :=
  match l with
  | 0 :: _ => Some NS_Uninitialized
  | 1 :: a :: n :: f :: _ => Some (new_initialized (Z.to_N a) (Z.to_N n) f)
  | _ => None
  end.

#[global] Instance nonce_bincode : Bincode NonceVersions := {
  serialize := fun v => match v with NV_Legacy s => 0 :: put_state s | NV_Current s => 1 :: put_state s end;
  deserialize := fun l =>
    match l with
    | 0 :: l => NV_Legacy <$> get_state l
    | 1 :: l => NV_Current <$> get_state l
    | _ => None
    end;
}.

Lemma get_put_state s rest : get_state (put_state s ++ rest) = Some s.
Proof. destruct s as [|[]]; cbn; [done|]. unfold new_initialized, nonce_data_new. by rewrite !N2Z.id. Qed.

#[global] Instance nonce_bincode_laws : BincodeLaws NonceVersions.
Proof. constructor. intros [s|s] rest; cbn -[get_state]; by rewrite get_put_state. Qed.

#[global] Instance nonce_hash_succ : NonceHash := { nonce_hash := fun h => (h + 1000)%N }.
#[global] Instance seed_hash : SeedHash := { hashv := fun base _ owner => (base + owner)%N }.
#[global] Instance codec : SystemCodec := {
  decode_system_instruction := fun data =>
    match data with
    | [0; l] => if 0 <=? l then Some (Transfer l) else None
    | [1] => Some AdvanceNonceAccount
    | _ => None
    end;
}.

Definition nonce_data : NonceData := nonce_data_new 7%N 5%N 5000.

(** Account 1 is a nonce account of authority 7; account 7 signs. *)
Definition accounts : accounts_store := fun k =>
  if N.eqb k 1 then set_data (account_new 100 0 system_program_id)
                      (serialize (NV_Legacy (NS_Initialized nonce_data)))
  else account_new 50 0 system_program_id.

Definition ctx : InvokeContext :=
  {| ic_keyed_accounts := [{| ka_is_signer := true; ka_is_writable := true; ka_key := 7%N |};
                           {| ka_is_signer := false; ka_is_writable := true; ka_key := 1%N |};
                           {| ka_is_signer := false; ka_is_writable := false;
                              ka_key := sysvar_recent_blockhashes_id |};
                           {| ka_is_signer := true; ka_is_writable := true; ka_key := 7%N |}];
     ic_accounts := accounts;
     ic_sysvar_cache := {| sv_clock := None; sv_rent := None; sv_slot_hashes := None;
                           sv_recent_blockhashes := Some [3%N]; sv_stake_history := None |};
     ic_feature_set := fun _ => true;
     ic_blockhash := 9%N; ic_lamports_per_signature := 6000 |}.

End Sample.

(** ** Properties *)

(** C40: A system instruction moves lamports only with consent.  Whatever a
    successful instruction of the system program does, it keeps the sum of
    the lamports of any set of accounts that includes the ones it names,
    leaves every other account as it was, and keeps balances within 64 bits.
    An account loses lamports only if its key signed, the base it is derived
    from signed, or it is a nonce account whose recorded authority signed; it
    changes owner only if its key or base signed. *)
Theorem system_instruction_safe `{SeedHash} `{NonceHash} `{BincodeLaws NonceVersions} `{SystemCodec}
    (first : nat) (data : list Z) (ctx : InvokeContext) (accounts' : accounts_store)
    (Htyped : forall i, decode_system_instruction data = Some i -> amounts_typed i)
    (Hrun : system_process_instruction first data ctx = Ok accounts') :
  let kas := drop first (ic_keyed_accounts ctx) in
  change_ok (map ka_key kas)
    (fun k => signs (get_signers kas) k \/ nonce_signs (get_signers kas) (ic_accounts ctx k))
    (signs (get_signers kas)) (ic_accounts ctx) accounts'.
Proof.
  cbn zeta. unfold system_process_instruction in Hrun. inv_Ok Hrun.
  rewrite ok_or_Ok in Ha. eapply dispatch_changes; [|by apply Htyped|exact Hrun].
  eapply (account_at_named first ctx 0). by rewrite Nat.add_0_r.
Qed.

Lemma system_instruction_safe_witness :
  exists accounts', system_process_instruction 0 [0; 30] Sample.ctx = Ok accounts'
    /\ change_ok (map ka_key (ic_keyed_accounts Sample.ctx))
         (fun k => signs (get_signers (ic_keyed_accounts Sample.ctx)) k
                   \/ nonce_signs (get_signers (ic_keyed_accounts Sample.ctx)) (Sample.accounts k))
         (signs (get_signers (ic_keyed_accounts Sample.ctx))) Sample.accounts accounts'
    /\ acc_lamports (accounts' 1%N) = 130 /\ acc_lamports (accounts' 7%N) = 20.
Proof.
  destruct (system_process_instruction 0 [0; 30] Sample.ctx) as [accounts'|e] eqn:E; [|by vm_compute in E].
  exists accounts'. split; [done|]. split.
  - apply (system_instruction_safe 0 [0; 30] Sample.ctx accounts'); [|done].
    intros i [= <-]. cbn. lia.
  - injection E as <-. by vm_compute.
Defined.

(** Advancing a nonce invalidates the transactions signed for it.  A
    successful AdvanceNonceAccount was signed by the recorded authority,
    keeps that authority, and stores the durable nonce of the bank's
    blockhash, which differs from the old one: the old value does not verify
    any more, under either setting of the domain separation, and on an
    account of the system program the new one does. *)
Theorem advance_nonce_invalidates `{SeedHash} `{NonceHash} `{BincodeLaws NonceVersions} `{SystemCodec}
    (first : nat) (data : list Z) (ctx : InvokeContext) (me : KeyedAccount) (accounts' : accounts_store)
    (Hme : ic_keyed_accounts ctx !! first = Some me)
    (Hdata : decode_system_instruction data = Some AdvanceNonceAccount)
    (Hrun : system_process_instruction first data ctx = Ok accounts') :
  let a := ic_accounts ctx (ka_key me) in
  let a' := accounts' (ka_key me) in
  let separate := is_active (ic_feature_set ctx) separate_nonce_from_blockhash in
  exists v d d', state a = Ok v /\ versions_state v = NS_Initialized d
    /\ nd_authority d ∈ get_signers (drop first (ic_keyed_accounts ctx))
    /\ state a' = Ok (versions_new (NS_Initialized d') separate)
    /\ nd_authority d' = nd_authority d
    /\ nd_blockhash d' = from_blockhash (ic_blockhash ctx) separate
    /\ (forall s, verify_nonce_account a' (nd_blockhash d) s = None)
    /\ (acc_owner a = system_program_id -> verify_nonce_account a' (nd_blockhash d') separate = Some d').
Proof.
  cbn zeta. unfold system_process_instruction, keyed_account_at_index in Hrun. rewrite Hdata, Hme in Hrun.
  cbn [ok_or mbind result_bind] in Hrun. unfold system_dispatch, advance_nonce_account in Hrun.
  inv_Ok Hrun. subst accounts'. rewrite store_set_eq.
  match goal with H : set_state _ (versions_new (NS_Initialized ?n) _) = Ok _ |- _ =>
    apply set_state_Ok in H as (Hd & _ & Ho & _); set (d' := n) in * end.
  match goal with H : N.eqb _ _ = false |- _ => apply N.eqb_neq in H; rename H into Hne end.
  match goal with H : get_durable_nonce _ = _ |- _ => injection H as <- <- end.
  match goal with H : check_signer _ _ = Ok _ |- _ => unfold check_signer in H; case_bool_decide; [|done] end.
  match goal with H : state ?a = Ok ?v, H' : versions_state ?v = NS_Initialized ?d |- _ =>
    exists v, d, d'; rename H into Hs, H' into Hv end.
  split_and!; try done.
  - unfold state. by rewrite Hd.
  - intros s. unfold verify_nonce_account, state. rewrite Hd. case_match; [|done]. cbn.
    unfold versions_new. destruct (is_active _ _), s; cbn; try done; rewrite (proj2 (N.eqb_neq _ _)); done.
  - intros Hsys. unfold verify_nonce_account, state. rewrite Hd, Ho, Hsys, N.eqb_refl. cbn.
    unfold versions_new. by destruct (is_active _ _); cbn; rewrite N.eqb_refl.
Qed.

Lemma advance_nonce_invalidates_witness :
  exists accounts', system_process_instruction 1 [1] Sample.ctx = Ok accounts'
    /\ (forall s, verify_nonce_account (accounts' 1%N) 5%N s = None)
    /\ verify_nonce_account (accounts' 1%N) 1009%N true = Some (nonce_data_new 7%N 1009%N 6000).
Proof.
  destruct (system_process_instruction 1 [1] Sample.ctx) as [accounts'|e] eqn:E; [|by vm_compute in E].
  exists accounts'. split; [done|].
  pose proof (advance_nonce_invalidates 1 [1] Sample.ctx
    {| ka_is_signer := false; ka_is_writable := true; ka_key := 1%N |} accounts') as Hadv.
  destruct (Hadv eq_refl eq_refl E) as (v & d & d' & Hv & Hd & _ & _ & _ & _ & Hold & _).
  vm_compute in Hv. injection Hv as <-. injection Hd as <-. split; [exact Hold|].
  injection E as <-. by vm_compute.
Defined.
