(* ===== verification/EpochSchedule.v ===== *)
(** * Epochs

    Models sdk/program/src/epoch_schedule.rs: the slots of an epoch, which
    double from 32 during warmup until the configured length is reached, the
    epoch of a slot and the slots at which an epoch starts and ends. *)

From S2P Require Import Prelude Errors Float64 Account.

(** ** Machine arithmetic *)

(** [next_power_of_two], at most [2^63]. *)
Definition next_power_of_two (z : Z) : Z := if z <=? 1 then 1 else 2 ^ Z.log2_up z.

Fixpoint pos_trailing_zeros (p : positive) : Z :=
  match p with xO p => 1 + pos_trailing_zeros p | _ => 0 end.

(** [trailing_zeros] of a 64-bit integer. *)
Definition trailing_zeros (z : Z) : Z :=
  match z with Zpos p => pos_trailing_zeros p | _ => 64 end.

(** [2u64.saturating_pow(e)]. *)
Definition sat_pow2 (e : Z) : Z := Z.min U64_MAX (2 ^ e).

(** [checked_div(..).unwrap_or(0)] and [checked_rem(..).unwrap_or(0)]. *)
Definition div_or_0 (a b : Z) : Z := if b =? 0 then 0 else a / b.
Definition rem_or_0 (a b : Z) : Z := if b =? 0 then 0 else a mod b.

(** ** The schedule *)

Definition MINIMUM_SLOTS_PER_EPOCH : Z := 32.
Definition DEFAULT_LEADER_SCHEDULE_SLOT_OFFSET : Z := DEFAULT_SLOTS_PER_EPOCH.

Record EpochSchedule := {
  slots_per_epoch : Z;
  leader_schedule_slot_offset : Z;
  warmup : bool;
  first_normal_epoch : Epoch;
  first_normal_slot : Slot;
}.

Definition es_custom (slots_per_epoch leader_schedule_slot_offset : Z) (warmup : bool)
    : outcome EpochSchedule :=
  if slots_per_epoch <? MINIMUM_SLOTS_PER_EPOCH then Panics
  else
    let '(first_normal_epoch, first_normal_slot) :=
      if warmup then
        let next := next_power_of_two slots_per_epoch in
        (sat_sub64 (trailing_zeros next) (trailing_zeros MINIMUM_SLOTS_PER_EPOCH),
         sat_sub64 next MINIMUM_SLOTS_PER_EPOCH)
      else (0, 0) in
    Returns {| slots_per_epoch := slots_per_epoch;
               leader_schedule_slot_offset := leader_schedule_slot_offset;
               warmup := warmup;
               first_normal_epoch := first_normal_epoch;
               first_normal_slot := first_normal_slot |}.

Definition es_new (slots_per_epoch : Z) : outcome EpochSchedule :=
  es_custom slots_per_epoch slots_per_epoch true.

Definition es_default : outcome EpochSchedule :=
  es_custom DEFAULT_SLOTS_PER_EPOCH DEFAULT_LEADER_SCHEDULE_SLOT_OFFSET true.

Definition without_warmup : outcome EpochSchedule :=
  es_custom DEFAULT_SLOTS_PER_EPOCH DEFAULT_LEADER_SCHEDULE_SLOT_OFFSET false.

Definition get_slots_in_epoch (s : EpochSchedule) (epoch : Epoch) : Z :=
  if epoch <? first_normal_epoch s
  then sat_pow2 (Z.min U32_MAX (wrap32 epoch + trailing_zeros MINIMUM_SLOTS_PER_EPOCH))
  else slots_per_epoch s.

Definition get_epoch_and_slot_index (s : EpochSchedule) (slot : Slot) : Epoch * Z :=
  if slot <? first_normal_slot s then
    let epoch :=
      sat_sub64 (sat_sub64
        (trailing_zeros
           (next_power_of_two (sat_add64 (sat_add64 slot MINIMUM_SLOTS_PER_EPOCH) 1)))
        (trailing_zeros MINIMUM_SLOTS_PER_EPOCH)) 1 in
    let epoch_len := sat_pow2 (epoch + trailing_zeros MINIMUM_SLOTS_PER_EPOCH) in
    (epoch, sat_sub64 slot (sat_sub64 epoch_len MINIMUM_SLOTS_PER_EPOCH))
  else
    let normal_slot_index := sat_sub64 slot (first_normal_slot s) in
    (sat_add64 (first_normal_epoch s) (div_or_0 normal_slot_index (slots_per_epoch s)),
     rem_or_0 normal_slot_index (slots_per_epoch s)).

Definition get_epoch (s : EpochSchedule) (slot : Slot) : Epoch := (get_epoch_and_slot_index s slot).1.

Definition get_leader_schedule_epoch (s : EpochSchedule) (slot : Slot) : Epoch :=
  if slot <? first_normal_slot s then sat_add64 (get_epoch_and_slot_index s slot).1 1
  else
    sat_add64 (first_normal_epoch s)
      (div_or_0 (sat_add64 (sat_sub64 slot (first_normal_slot s)) (leader_schedule_slot_offset s))
         (slots_per_epoch s)).

Definition get_first_slot_in_epoch (s : EpochSchedule) (epoch : Epoch) : Slot :=
  if epoch <=? first_normal_epoch s
  then sat_mul64 (sat_sub64 (sat_pow2 (wrap32 epoch)) 1) MINIMUM_SLOTS_PER_EPOCH
  else
    sat_add64 (sat_mul64 (sat_sub64 epoch (first_normal_epoch s)) (slots_per_epoch s))
      (first_normal_slot s).

Definition get_last_slot_in_epoch (s : EpochSchedule) (epoch : Epoch) : Slot :=
  sat_sub64 (sat_add64 (get_first_slot_in_epoch s epoch) (get_slots_in_epoch s epoch)) 1.

(** ** Lemmas *)

Lemma trailing_zeros_pow2 (k : Z) : 0 <= k -> trailing_zeros (2 ^ k) = k.
Proof.
  intros Hk. pattern k. apply natlike_ind; [done| |done]. intros x Hx IH.
  rewrite Z.pow_succ_r by done. pose proof (Z.pow_pos_nonneg 2 x ltac:(lia) Hx).
  destruct (2 ^ x) as [|p|p]; [lia| |lia]. change (1 + pos_trailing_zeros p = Z.succ x). cbn in IH. lia.
Qed.

Lemma pow2_pos k : 0 <= k -> 0 < 2 ^ k.
Proof. intros. by apply Z.pow_pos_nonneg. Qed.

Lemma next_pow2 z k : 0 <= k -> 2 ^ k < z <= 2 ^ (k + 1) -> next_power_of_two z = 2 ^ (k + 1).
Proof.
  intros Hk Hz. pose proof (pow2_pos k Hk). unfold next_power_of_two. replace (z <=? 1) with false by lia.
  f_equal. apply Z.log2_up_unique; [lia|]. by replace (Z.pred (k + 1)) with k by lia.
Qed.

(** The schedules [custom] builds: [n] short epochs before the normal ones. *)
Record schedule_ok (s : EpochSchedule) (n : Z) : Prop := {
  so_n : 0 <= n <= 58;
  so_epoch : first_normal_epoch s = n;
  so_slot : first_normal_slot s = 32 * (2 ^ n - 1);
  so_len : 32 <= slots_per_epoch s <= 2 ^ 63;
}.

Lemma custom_ok spe off w s :
  es_custom spe off w = Returns s -> spe <= 2 ^ 63 -> exists n, schedule_ok s n.
Proof.
  unfold es_custom, MINIMUM_SLOTS_PER_EPOCH. intros Hs Hmax.
  destruct (Z.ltb_spec spe 32) as [|Hmin]; [done|]. destruct w; injection Hs as <-; [|by exists 0].
  exists (Z.log2_up spe - 5). assert (5 <= Z.log2_up spe <= 63) as Hl.
  { split; [change 5 with (Z.log2_up 32)|change 63 with (Z.log2_up (2 ^ 63))]; by apply Z.log2_up_le_mono. }
  unfold next_power_of_two. replace (spe <=? 1) with false by lia. rewrite trailing_zeros_pow2 by lia.
  change (trailing_zeros 32) with 5. pose proof (pow2_pos (Z.log2_up spe - 5)).
  assert (2 ^ Z.log2_up spe = 32 * 2 ^ (Z.log2_up spe - 5)) as ->.
  { change 32 with (2 ^ 5). rewrite <- Z.pow_add_r by lia. f_equal. lia. }
  unfold sat_sub64. split; cbn; lia.
Qed.

Section Schedule.
Variables (s : EpochSchedule) (n : Z).
Hypothesis (Hs : schedule_ok s n).

Lemma wrap32_small' e : 0 <= e <= 58 -> wrap32 e = e.
Proof. intros. apply wrap32_small. u_unfold. lia. Qed.

Lemma pow2_small e : 0 <= e <= 63 -> sat_pow2 e = 2 ^ e.
Proof.
  intros He. unfold sat_pow2. assert (2 ^ e <= 2 ^ 63) by (apply Z.pow_le_mono_r; lia). u_unfold. lia.
Qed.

Lemma short_len e : 0 <= e < n -> get_slots_in_epoch s e = 32 * 2 ^ e.
Proof.
  intros He. destruct Hs. unfold get_slots_in_epoch. rewrite so_epoch0. replace (e <? n) with true by lia.
  rewrite wrap32_small' by lia. change (trailing_zeros _) with 5. rewrite Z.min_r by (u_unfold; lia).
  rewrite pow2_small, Z.pow_add_r by lia. lia.
Qed.

Lemma normal_len e : n <= e -> get_slots_in_epoch s e = slots_per_epoch s.
Proof. intros He. destruct Hs. unfold get_slots_in_epoch. by replace (e <? _) with false by lia. Qed.

Lemma short_first e : 0 <= e <= n -> get_first_slot_in_epoch s e = 32 * (2 ^ e - 1).
Proof.
  intros He. destruct Hs. unfold get_first_slot_in_epoch. replace (e <=? _) with true by lia.
  rewrite wrap32_small', pow2_small by lia. pose proof (pow2_pos e ltac:(lia)).
  assert (2 ^ e <= 2 ^ 58) by (apply Z.pow_le_mono_r; lia).
  unfold sat_sub64, sat_mul64, MINIMUM_SLOTS_PER_EPOCH. u_unfold. lia.
Qed.

(** The epoch of a slot during warmup. *)
Lemma short_epoch slot :
  0 <= slot < first_normal_slot s ->
  exists e, 0 <= e < n /\ 32 * (2 ^ e - 1) <= slot < 32 * (2 ^ (e + 1) - 1)
    /\ get_epoch_and_slot_index s slot = (e, slot - 32 * (2 ^ e - 1)).
Proof.
  intros Hslot. destruct Hs. rewrite so_slot0 in *.
  set (e := Z.log2 (slot + 32) - 5). assert (0 <= e) as He.
  { unfold e. assert (Z.log2 32 <= Z.log2 (slot + 32)) by (apply Z.log2_le_mono; lia).
    change (Z.log2 32) with 5 in *. lia. }
  pose proof (Z.log2_spec (slot + 32) ltac:(lia)) as [Hlo Hhi].
  replace (Z.log2 (slot + 32)) with (5 + e) in Hlo, Hhi by (unfold e; lia).
  replace (Z.succ (5 + e)) with (5 + (e + 1)) in Hhi by lia. rewrite !Z.pow_add_r in Hlo, Hhi by lia.
  change (2 ^ 5) with 32 in *. change (2 ^ 1) with 2 in *.
  assert (e < n) as Hen. { apply (Z.pow_lt_mono_r_iff 2); lia. }
  exists e. rewrite (Z.pow_add_r 2 e 1) in Hhi |- * by lia. change (2 ^ 1) with 2 in *.
  split_and!; [lia|lia|lia|lia|].
  unfold get_epoch_and_slot_index. rewrite so_slot0. replace (slot <? _) with true by lia.
  assert (2 ^ e <= 2 ^ 57) as Hp by (apply Z.pow_le_mono_r; lia).
  assert (sat_add64 (sat_add64 slot MINIMUM_SLOTS_PER_EPOCH) 1 = slot + 33) as ->.
  { unfold MINIMUM_SLOTS_PER_EPOCH. u_unfold. lia. }
  assert (2 ^ (5 + e) = 32 * 2 ^ e) as E1 by (by rewrite Z.pow_add_r by lia).
  assert (2 ^ (5 + e + 1) = 64 * 2 ^ e) as E2 by (rewrite Z.pow_add_r, E1 by lia; change (2 ^ 1) with 2; lia).
  rewrite (next_pow2 _ (5 + e)) by lia.
  rewrite trailing_zeros_pow2 by lia. change (trailing_zeros MINIMUM_SLOTS_PER_EPOCH) with 5.
  replace (sat_sub64 (sat_sub64 (5 + e + 1) 5) 1) with e by (unfold sat_sub64; lia).
  rewrite pow2_small, Z.pow_add_r by lia. change (2 ^ 5) with 32.
  f_equal. unfold sat_sub64, MINIMUM_SLOTS_PER_EPOCH. lia.
Qed.

Lemma normal_epoch slot :
  u64 slot -> first_normal_slot s <= slot ->
  exists q, 0 <= q /\ get_epoch_and_slot_index s slot
    = (n + q, slot - (first_normal_slot s + q * slots_per_epoch s))
    /\ first_normal_slot s + q * slots_per_epoch s <= slot
        < first_normal_slot s + (q + 1) * slots_per_epoch s.
Proof.
  intros Hu Hslot. destruct Hs. exists ((slot - first_normal_slot s) / slots_per_epoch s).
  assert (0 <= first_normal_slot s) as Hf. { rewrite so_slot0. pose proof (pow2_pos n ltac:(lia)). lia. }
  pose proof (Z.div_mod (slot - first_normal_slot s) (slots_per_epoch s) ltac:(lia)) as Hdm.
  pose proof (Z.mod_pos_bound (slot - first_normal_slot s) (slots_per_epoch s) ltac:(lia)).
  assert (0 <= (slot - first_normal_slot s) / slots_per_epoch s <= slot - first_normal_slot s) as Hq.
  { split; [apply Z.div_pos; lia|]. apply Z.div_le_upper_bound; [lia|]. nia. }
  split; [lia|]. split; [|lia].
  unfold get_epoch_and_slot_index. replace (slot <? _) with false by lia.
  replace (sat_sub64 slot (first_normal_slot s)) with (slot - first_normal_slot s) by (unfold sat_sub64; lia).
  unfold div_or_0, rem_or_0. replace (slots_per_epoch s =? 0) with false by lia. rewrite so_epoch0.
  f_equal; [|lia]. unfold sat_add64. rewrite so_slot0 in *. u_unfold.
  assert (n <= 32 * (2 ^ n - 1)); [|lia].
  pose proof (Z.pow_gt_lin_r 2 n ltac:(lia) ltac:(lia)). destruct (decide (n = 0)) as [->|]; cbn in *; lia.
Qed.

End Schedule.

(** The first slot of a normal epoch, as long as it is a 64-bit slot. *)
Lemma normal_first s n q :
  schedule_ok s n -> 0 <= q -> first_normal_slot s + q * slots_per_epoch s <= U64_MAX ->
  get_first_slot_in_epoch s (n + q) = first_normal_slot s + q * slots_per_epoch s.
Proof.
  intros Hs Hq Hmax. destruct (decide (q = 0)) as [->|Hne].
  - rewrite Z.add_0_r, (short_first s n Hs) by (destruct Hs; lia). destruct Hs. lia.
  - destruct Hs. unfold get_first_slot_in_epoch. replace (n + q <=? _) with false by lia.
    rewrite so_epoch0. replace (sat_sub64 (n + q) n) with q by (unfold sat_sub64; lia).
    pose proof (pow2_pos n ltac:(lia)). unfold sat_mul64, sat_add64. u_unfold. lia.
Qed.

(** ** Properties *)

(** Slots and epochs are converted back and forth exactly.  For every
    schedule the constructor builds, with or without warmup, a slot lies in
    its epoch: the first slot of the epoch and the index give the slot back,
    the index is below the epoch's length, the last slot is the end of the
    epoch, and the next epoch starts right after it. *)
Theorem epoch_slot_roundtrip (spe off : Z) (w : bool) (s : EpochSchedule) (slot : Slot)
    (Hs : es_custom spe off w = Returns s) (Hspe : spe <= 2 ^ 63)
    (Hslot : 0 <= slot) (Hend : slot + spe <= U64_MAX) :
  let '(e, i) := get_epoch_and_slot_index s slot in
  0 <= i < get_slots_in_epoch s e
  /\ get_first_slot_in_epoch s e + i = slot
  /\ slot <= get_last_slot_in_epoch s e
  /\ get_first_slot_in_epoch s (e + 1) = get_last_slot_in_epoch s e + 1.
Proof.
  assert (slots_per_epoch s = spe) as Hlen.
  { unfold es_custom in Hs. destruct (_ <? _); [done|]. by destruct w; injection Hs as <-. }
  apply custom_ok in Hs as [n Hok]; [|done]. pose proof Hok as [Hn Hepoch Hfirst Hlen'].
  unfold get_last_slot_in_epoch. rewrite Hlen in *.
  destruct (decide (slot < first_normal_slot s)) as [Hwarm|Hnormal].
  - destruct (short_epoch s n Hok slot ltac:(lia)) as (e & He & Hb & ->).
    rewrite (short_len s n Hok), !(short_first s n Hok) by lia.
    assert (2 ^ (e + 1) = 2 * 2 ^ e) as Hp by (rewrite Z.pow_add_r by lia; lia).
    assert (2 ^ e <= 2 ^ 57) by (apply Z.pow_le_mono_r; lia). pose proof (pow2_pos e ltac:(lia)).
    unfold sat_add64, sat_sub64. u_unfold. lia.
  - destruct (normal_epoch s n Hok slot ltac:(u_unfold; lia) ltac:(lia)) as (q & Hq & -> & Hb).
    rewrite Hlen in *. rewrite (normal_len s n Hok) by lia.
    rewrite (normal_first s n q Hok) by lia. replace (n + q + 1) with (n + (q + 1)) by lia.
    rewrite (normal_first s n (q + 1) Hok) by lia. rewrite Hlen.
    pose proof (pow2_pos n ltac:(lia)). unfold sat_add64, sat_sub64. u_unfold. lia.
Qed.

Lemma epoch_slot_roundtrip_witness :
  exists s, es_custom 432000 432000 true = Returns s
    /\ get_epoch_and_slot_index s 1000 = (5, 8) /\ get_first_slot_in_epoch s 5 + 8 = 1000
    /\ get_first_slot_in_epoch s 6 = get_last_slot_in_epoch s 5 + 1.
Proof.
  destruct (es_custom 432000 432000 true) as [s|] eqn:E; [|by vm_compute in E]. exists s. split; [done|].
  pose proof (epoch_slot_roundtrip 432000 432000 true s 1000 E ltac:(lia) ltac:(lia)) as H.
  assert (get_epoch_and_slot_index s 1000 = (5, 8)) as Hi by (injection E as <-; by vm_compute).
  rewrite Hi in H. split; [done|]. destruct H as (_ & H1 & _ & H2); [vm_compute; discriminate|].
  split; [exact H1|exact H2].
Defined.
