(* ===== verification/RentCollector.v ===== *)
(** * Rent

    Models runtime/src/rent_collector.rs (the rent that is taken from an
    account when it is loaded or created) and
    runtime/src/account_rent_state.rs (whether a transaction may leave an
    account with a balance below the rent-exempt minimum), with the rent
    debits of runtime/src/bank.rs. *)

From S2P Require Import Prelude Keys Errors Float64 Account EpochSchedule.
From Stdlib Require Import SpecFloat.

(** ** Rent states *)

Inductive RentState :=
| RS_Uninitialized
| RS_RentPaying (lamports : Z) (data_size : nat)
| RS_RentExempt.

Definition rent_state_from_account (account : AccountSharedData) (rent : Rent) : RentState :=
  if acc_lamports account =? 0 then RS_Uninitialized
  else if is_exempt rent (acc_lamports account) (length (acc_data account)) then RS_RentExempt
  else RS_RentPaying (acc_lamports account) (length (acc_data account)).

(** [do_support_realloc] and [prevent_crediting] are the features of these
    names. *)
Definition transition_allowed_from (post pre : RentState) (do_support_realloc : bool)
    (prevent_crediting_accounts_that_end_rent_paying : bool) : bool :=
  match post with
  | RS_Uninitialized | RS_RentExempt => true
  | RS_RentPaying post_lamports post_data_size =>
      match pre with
      | RS_Uninitialized | RS_RentExempt => false
      | RS_RentPaying pre_lamports pre_data_size =>
          if do_support_realloc && negb (post_data_size =? pre_data_size)%nat then false
          else if prevent_crediting_accounts_that_end_rent_paying then post_lamports <=? pre_lamports
          else true
      end
  end.

Definition check_rent_state_with_account (pre_rent_state post_rent_state : RentState)
    (address : Pubkey) (do_support_realloc : bool) (account_index : option nat)
    (prevent_crediting_accounts_that_end_rent_paying : bool) : result TransactionError unit :=
  if negb (N.eqb address incinerator_id)
     && negb (transition_allowed_from post_rent_state pre_rent_state do_support_realloc
                prevent_crediting_accounts_that_end_rent_paying)
  then match account_index with
       | Some account_index => Err (TE.InsufficientFundsForRent (wrap8 (Z.of_nat account_index)))
       | None => Err TE.InvalidRentPayingAccount
       end
  else Ok tt.

(** ** Collecting rent *)

Record RentCollector := {
  rc_epoch : Epoch;
  rc_epoch_schedule : EpochSchedule;
  rc_slots_per_year : f64;
  rc_rent : Rent;
}.

Inductive RentResult :=
| LeaveAloneNoRent
| CollectRent (new_rent_epoch : Epoch) (rent_due : Z).

Record CollectedInfo := {
  ci_rent_amount : Z;
  ci_account_data_len_reclaimed : Z;
}.

Definition should_collect_rent (address : Pubkey) (account : AccountSharedData) : bool :=
  negb (acc_executable account || N.eqb address incinerator_id).

(** Compares the keys from byte 12 on. *)
Definition is_filler_account_helper (pubkey : Pubkey) (filler_account_suffix : option Pubkey) : bool :=
  match filler_account_suffix with
  | Some suffix => N.eqb (pubkey mod 2 ^ (8 * 20))%N (suffix mod 2 ^ (8 * 20))%N
  | None => false
  end.

Definition can_skip_rent_collection (rc : RentCollector) (address : Pubkey)
    (account : AccountSharedData) (filler_account_suffix : option Pubkey) : bool :=
  negb (should_collect_rent address account)
  || (rc_epoch rc <? acc_rent_epoch account)
  || is_filler_account_helper address filler_account_suffix.

Definition get_rent_due (rc : RentCollector) (account : AccountSharedData) : RentDue :=
  if is_exempt (rc_rent rc) (acc_lamports account) (length (acc_data account)) then Exempt
  else
    let slots_elapsed :=
      fold_left (fun acc epoch => wrap64 (acc + get_slots_in_epoch (rc_epoch_schedule rc) (epoch + 1)))
        (seqZ (acc_rent_epoch account) (rc_epoch rc - acc_rent_epoch account + 1)) 0 in
    let years_elapsed :=
      if SFeqb (rc_slots_per_year rc) (of_u64 0) then of_u64 0
      else f_div (of_u64 slots_elapsed) (rc_slots_per_year rc) in
    Paying (due_amount (rc_rent rc) (length (acc_data account)) years_elapsed).

(** [preserve] stands for the feature
    [preserve_rent_epoch_for_rent_exempt_accounts]. *)
Definition calculate_rent_result (rc : RentCollector) (address : Pubkey)
    (account : AccountSharedData) (filler_account_suffix : option Pubkey) (preserve : bool)
    : RentResult :=
  if can_skip_rent_collection rc address account filler_account_suffix then LeaveAloneNoRent
  else match get_rent_due rc account with
  | Exempt => if preserve then LeaveAloneNoRent else CollectRent (rc_epoch rc) 0
  | Paying due => if due =? 0 then LeaveAloneNoRent else CollectRent (wrap64 (rc_epoch rc + 1)) due
  end.

Definition set_rent_epoch (a : AccountSharedData) (e : Epoch) : AccountSharedData :=
  {| acc_lamports := acc_lamports a; acc_data := acc_data a; acc_owner := acc_owner a;
     acc_executable := acc_executable a; acc_rent_epoch := e |}.

Definition no_rent : CollectedInfo := {| ci_rent_amount := 0; ci_account_data_len_reclaimed := 0 |}.

Definition collect_from_existing_account (rc : RentCollector) (address : Pubkey)
    (account : AccountSharedData) (filler_account_suffix : option Pubkey) (preserve : bool)
    : AccountSharedData * CollectedInfo :=
  match calculate_rent_result rc address account filler_account_suffix preserve with
  | LeaveAloneNoRent => (account, no_rent)
  | CollectRent new_rent_epoch rent_due =>
      let take_all :=
        (account_default,
         {| ci_rent_amount := acc_lamports account;
            ci_account_data_len_reclaimed := Z.of_nat (length (acc_data account)) |}) in
      match checked_sub64 (acc_lamports account) rent_due with
      | None => take_all
      | Some lamports =>
          if lamports =? 0 then take_all
          else (set_rent_epoch (set_lamports account lamports) new_rent_epoch,
                {| ci_rent_amount := rent_due; ci_account_data_len_reclaimed := 0 |})
      end
  end.

Definition collect_from_created_account (rc : RentCollector) (address : Pubkey)
    (account : AccountSharedData) (preserve : bool) : AccountSharedData * CollectedInfo :=
  collect_from_existing_account rc address (set_rent_epoch account (rc_epoch rc)) None preserve.

(** ** Rent debits *)

Record RentDebit := { rd_rent_collected : Z; rd_post_balance : Z }.

Abbreviation RentDebits := (gmap N RentDebit).

Definition get_account_rent_debit (d : RentDebits) (address : Pubkey) : Z :=
  match d !! address with Some r => rd_rent_collected r | None => 0 end.

Definition rent_debits_insert (d : RentDebits) (address : Pubkey) (rent_collected post_balance : Z)
    : RentDebits :=
  if rent_collected =? 0 then d
  else <[address := {| rd_rent_collected := rent_collected; rd_post_balance := post_balance |}]> d.

(** ** Lemmas *)

Lemma f64_as_u64_bound x : u64 (f64_as_u64 x).
Proof. pose proof (f64_floor_as_u128_bound x). unfold f64_as_u64. u_unfold. lia. Qed.

Lemma minimum_balance_bound r n : u64 (minimum_balance r n).
Proof. apply f64_as_u64_bound. Qed.

#[export] Hint Resolve f64_as_u64_bound minimum_balance_bound : sol.

(** The rent of a collection, when it is not the whole balance. *)
Lemma collect_cases rc k a suffix preserve :
  let '(a', i) := collect_from_existing_account rc k a suffix preserve in
  (calculate_rent_result rc k a suffix preserve = LeaveAloneNoRent /\ a' = a /\ i = no_rent)
  \/ (a' = account_default /\ ci_rent_amount i = acc_lamports a)
  \/ (exists e due, calculate_rent_result rc k a suffix preserve = CollectRent e due
       /\ due < acc_lamports a /\ 0 <= due /\ ci_rent_amount i = due
       /\ a' = set_rent_epoch (set_lamports a (acc_lamports a - due)) e).
Proof.
  unfold collect_from_existing_account. destruct (calculate_rent_result _ _ _ _ _) as [|e due] eqn:E; cbn; [by left|].
  assert (0 <= due) as Hdue.
  { unfold calculate_rent_result in E. destruct (can_skip_rent_collection _ _ _ _); [done|].
    unfold get_rent_due in E. destruct (is_exempt _ _ _); [by destruct preserve; simplify_eq|].
    destruct (_ =? _); [done|]. injection E as <- <-. apply f64_as_u64_bound. }
  unfold checked_sub64. destruct (Z.leb_spec due (acc_lamports a)) as [Hle|]; [|by right; left].
  destruct (Z.eqb_spec (acc_lamports a - due) 0); [by right; left|]. right; right. exists e, due. split_and!; [done|lia|done..].
Qed.

Lemma collect_conserves rc k a suffix preserve :
  0 <= acc_lamports a ->
  let '(a', i) := collect_from_existing_account rc k a suffix preserve in
  acc_lamports a' + ci_rent_amount i = acc_lamports a
  /\ 0 <= ci_rent_amount i /\ 0 <= acc_lamports a'.
Proof.
  intros Ha. pose proof (collect_cases rc k a suffix preserve) as H.
  destruct (collect_from_existing_account _ _ _ _ _) as [a' i].
  destruct H as [(_ & -> & ->)|[(-> & ->)|(e & due & _ & H1 & H2 & -> & ->)]]; cbn; lia.
Qed.

(** An account that paid is not asked again in the same epoch. *)
Lemma collect_again rc k a suffix preserve e due :
  0 <= rc_epoch rc < U64_MAX -> calculate_rent_result rc k a suffix preserve = CollectRent e due ->
  let a' := set_rent_epoch (set_lamports a (acc_lamports a - due)) e in
  (calculate_rent_result rc k a' suffix preserve = LeaveAloneNoRent
   \/ calculate_rent_result rc k a' suffix preserve = CollectRent (rc_epoch rc) 0)
  /\ (is_exempt (rc_rent rc) (acc_lamports a) (length (acc_data a)) = true -> due = 0).
Proof.
  intros He Hc. cbn zeta. unfold calculate_rent_result in *.
  destruct (can_skip_rent_collection rc k a suffix) eqn:Hskip; [done|].
  unfold can_skip_rent_collection, should_collect_rent in Hskip.
  apply orb_false_iff in Hskip as [[Hs1 Hs2]%orb_false_iff Hs3].
  unfold get_rent_due in Hc. destruct (is_exempt _ _ _) eqn:Hex.
  - destruct preserve; [done|]. injection Hc as <- <-. split; [right|done].
    unfold can_skip_rent_collection, should_collect_rent. cbn. rewrite Hs1, Hs3, Z.ltb_irrefl. cbn.
    unfold get_rent_due. cbn. by rewrite Z.sub_0_r, Hex.
  - destruct (_ =? 0); [done|]. injection Hc as <- _. split; [left|done].
    unfold can_skip_rent_collection. cbn. rewrite wrap64_small by (u_unfold; lia).
    replace (rc_epoch rc <? rc_epoch rc + 1) with true by lia. by rewrite orb_true_r.
Qed.

(** Nothing is taken from an exempt or an empty account. *)
Lemma collect_nothing rc k a suffix preserve :
  0 <= acc_lamports a ->
  calculate_rent_result rc k a suffix preserve = LeaveAloneNoRent
  \/ calculate_rent_result rc k a suffix preserve = CollectRent (rc_epoch rc) 0
  \/ acc_lamports a = 0 ->
  let '(a', i) := collect_from_existing_account rc k a suffix preserve in
  ci_rent_amount i = 0 /\ acc_lamports a' = acc_lamports a.
Proof.
  intros Ha Hr. pose proof (collect_cases rc k a suffix preserve) as H.
  unfold collect_from_existing_account in *.
  destruct (calculate_rent_result _ _ _ _ _) as [|e due]; [done|].
  destruct Hr as [?|[[= -> ->]|Hr]]; [done|..]; unfold checked_sub64 in *.
  - replace (0 <=? acc_lamports a) with true by lia. rewrite Z.sub_0_r.
    destruct (Z.eqb_spec (acc_lamports a) 0); cbn; lia.
  - rewrite Hr in *. destruct (Z.leb_spec due 0); [|done]. destruct (Z.eqb_spec (0 - due) 0); [done|].
    destruct H as [(_ & H1 & H2)|[(H1 & H2)|(? & ? & ? & ? & ? & ? & ?)]]; cbn in *; try lia.
    apply (f_equal ci_rent_amount) in H2. cbn in H2. lia.
Qed.

Module Sample.

Definition collector : RentCollector :=
  {| rc_epoch := 1;
     rc_epoch_schedule := {| slots_per_epoch := 32; leader_schedule_slot_offset := 32; warmup := false;
                             first_normal_epoch := 0; first_normal_slot := 0 |};
     rc_slots_per_year := of_u64 1000000; rc_rent := rent_default |}.

(** Ten bytes of data, rent due from epoch 1 on. *)
Definition account : AccountSharedData := set_rent_epoch (account_new 100000 10 7%N) 1.

End Sample.

(** ** Properties *)

(** Rent is collected once, and only what is due.  Collecting rent from an
    account takes from its balance exactly what it reports, nothing from an
    account that is rent exempt, and either leaves its data, owner and
    executable flag or empties the whole account; collecting again in the
    same epoch takes nothing more. *)
Theorem rent_collected_once (rc : RentCollector) (k : Pubkey) (a : AccountSharedData)
    (suffix : option Pubkey) (preserve : bool)
    (Ha : u64 (acc_lamports a)) (He : 0 <= rc_epoch rc < U64_MAX) :
  let '(a', i) := collect_from_existing_account rc k a suffix preserve in
  let '(a'', i') := collect_from_existing_account rc k a' suffix preserve in
  acc_lamports a' + ci_rent_amount i = acc_lamports a
  /\ (is_exempt (rc_rent rc) (acc_lamports a) (length (acc_data a)) = true -> ci_rent_amount i = 0)
  /\ (a' = account_default \/ (acc_data a' = acc_data a /\ acc_owner a' = acc_owner a
        /\ acc_executable a' = acc_executable a))
  /\ ci_rent_amount i' = 0 /\ acc_lamports a'' = acc_lamports a'.
Proof.
  pose proof (collect_cases rc k a suffix preserve) as H.
  destruct (collect_from_existing_account _ _ a _ _) as [a' i] eqn:E.
  assert (acc_lamports a' + ci_rent_amount i = acc_lamports a) as Hsum.
  { pose proof (collect_conserves rc k a suffix preserve ltac:(u_unfold; lia)) as Hc. rewrite E in Hc. apply Hc. }
  assert (is_exempt (rc_rent rc) (acc_lamports a) (length (acc_data a)) = true -> ci_rent_amount i = 0) as Hex.
  { intros Hex. assert (calculate_rent_result rc k a suffix preserve = LeaveAloneNoRent
      \/ calculate_rent_result rc k a suffix preserve = CollectRent (rc_epoch rc) 0) as Hr.
    { unfold calculate_rent_result. destruct (can_skip_rent_collection _ _ _ _); [by left|].
      unfold get_rent_due. rewrite Hex. destruct preserve; auto. }
    pose proof (collect_nothing rc k a suffix preserve ltac:(u_unfold; lia) ltac:(tauto)) as Hn.
    rewrite E in Hn. apply Hn. }
  assert (calculate_rent_result rc k a' suffix preserve = LeaveAloneNoRent
    \/ calculate_rent_result rc k a' suffix preserve = CollectRent (rc_epoch rc) 0
    \/ acc_lamports a' = 0) as Hagain.
  { destruct H as [(Hc & -> & ->)|[(-> & _)|(e & due & Hc & _ & _ & _ & ->)]]; [by left|by right; right|].
    destruct (collect_again rc k a suffix preserve e due He Hc) as [[?|?] _]; auto. }
  pose proof (collect_nothing rc k a' suffix preserve) as Hn.
  destruct (collect_from_existing_account _ _ a' _ _) as [a'' i'].
  destruct Hn as [Hn1 Hn2]; [|done|].
  { pose proof (collect_conserves rc k a suffix preserve ltac:(u_unfold; lia)) as Hc. rewrite E in Hc. apply Hc. }
  split_and!; try done.
  destruct H as [(_ & -> & _)|[(-> & _)|(? & ? & _ & _ & _ & _ & ->)]]; auto.
Qed.

Lemma rent_collected_once_witness :
  let '(a', i) := collect_from_existing_account Sample.collector 5%N Sample.account None false in
  let '(a'', i') := collect_from_existing_account Sample.collector 5%N a' None false in
  acc_lamports a' + ci_rent_amount i = 100000 /\ ci_rent_amount i' = 0 /\ ci_rent_amount i = 15.
Proof.
  pose proof (rent_collected_once Sample.collector 5%N Sample.account None false
    ltac:(split; vm_compute; discriminate) ltac:(split; vm_compute; (discriminate || reflexivity))) as H.
  destruct (collect_from_existing_account _ _ Sample.account _ _) as [a' i] eqn:E.
  destruct (collect_from_existing_account _ _ a' _ _) as [a'' i'].
  destruct H as (H1 & _ & _ & H2 & _). split_and!; [exact H1|exact H2|].
  apply (f_equal (fun p => ci_rent_amount p.2)) in E. vm_compute in E. done.
Defined.
