(* ===== verification/BlockhashQueue.v ===== *)
(** * Recent blockhashes

    Models runtime/src/blockhash_queue.rs: the hashes a transaction may use as
    its recent blockhash, with their fee rates and ages. *)

From S2P Require Import Prelude.

Record HashAge := {
  ha_lamports_per_signature : Z;
  ha_hash_height : Z;
  ha_timestamp : Z;
}.

Record BlockhashQueue := {
  bq_hash_height : Z;
  bq_last_hash : option Hash;
  bq_ages : gmap N HashAge;
  bq_max_age : nat;
}.

Definition bq_new (max_age : nat) : BlockhashQueue :=
  {| bq_hash_height := 0; bq_last_hash := None; bq_ages := ∅; bq_max_age := max_age |}.

(** Panics before the first hash is set. *)
Definition last_hash (q : BlockhashQueue) : outcome Hash := unwrap (bq_last_hash q).

Definition get_lamports_per_signature (q : BlockhashQueue) (hash : Hash) : option Z :=
  ha_lamports_per_signature <$> bq_ages q !! hash.

Definition get_hash_age (q : BlockhashQueue) (hash : Hash) : option Z :=
  (fun age => wrap64 (bq_hash_height q - ha_hash_height age)) <$> bq_ages q !! hash.

Definition check_hash_age (q : BlockhashQueue) (hash : Hash) (max_age : nat) : option bool :=
  (fun age => wrap64 (bq_hash_height q - ha_hash_height age) <=? Z.of_nat max_age) <$> bq_ages q !! hash.

Definition check_hash (q : BlockhashQueue) (hash : Hash) : bool :=
  bool_decide (is_Some (bq_ages q !! hash)).

(** [now] is the [timestamp()] of the call. *)
Definition genesis_hash (q : BlockhashQueue) (hash : Hash) (lamports_per_signature now : Z)
    : BlockhashQueue :=
  {| bq_hash_height := bq_hash_height q; bq_last_hash := Some hash;
     bq_ages := <[hash := {| ha_lamports_per_signature := lamports_per_signature;
                             ha_hash_height := 0; ha_timestamp := now |}]> (bq_ages q);
     bq_max_age := bq_max_age q |}.

Definition check_age (hash_height : Z) (max_age : nat) (age : HashAge) : bool :=
  wrap64 (hash_height - ha_hash_height age) <=? Z.of_nat max_age.

Definition register_hash (q : BlockhashQueue) (hash : Hash) (lamports_per_signature now : Z)
    : BlockhashQueue :=
  let hash_height := wrap64 (bq_hash_height q + 1) in
  let ages :=
    if (bq_max_age q <=? size (bq_ages q))%nat
    then filter (fun '(_, age) => check_age hash_height (bq_max_age q) age = true) (bq_ages q)
    else bq_ages q in
  {| bq_hash_height := hash_height; bq_last_hash := Some hash;
     bq_ages := <[hash := {| ha_lamports_per_signature := lamports_per_signature;
                             ha_hash_height := hash_height; ha_timestamp := now |}]> ages;
     bq_max_age := bq_max_age q |}.

(** ** Specification *)

(** Heights are past, and the height counter is far from wrapping. *)
Definition queue_ok (q : BlockhashQueue) : Prop :=
  0 <= bq_hash_height q
  /\ forall h age, bq_ages q !! h = Some age -> 0 <= ha_hash_height age <= bq_hash_height q.

(** A sequence of registrations: hash, fee rate and time. *)
Definition register_all (q : BlockhashQueue) (l : list (Hash * Z * Z)) : BlockhashQueue :=
  fold_left (fun q '(h, f, t) => register_hash q h f t) l q.

(** ** Lemmas *)

Lemma register_ok q h f t :
  queue_ok q -> bq_hash_height q < U64_MAX ->
  queue_ok (register_hash q h f t) /\ bq_hash_height (register_hash q h f t) = bq_hash_height q + 1.
Proof.
  intros [H0 Hq] Hmax. unfold register_hash. rewrite wrap64_small by (u_unfold; lia).
  split; [|done]. split; cbn; [lia|]. intros h' age. destruct (decide (h = h')) as [<-|Hne].
  - rewrite lookup_insert_eq. intros [= <-]. cbn. lia.
  - rewrite lookup_insert_ne by done. intros Hage.
    assert (bq_ages q !! h' = Some age) as Hage'.
    { destruct (_ <=? _)%nat; [|done]. by apply map_lookup_filter_Some in Hage as [? _]. }
    apply Hq in Hage'. lia.
Qed.

(** The entry of a hash that is not too old survives other registrations. *)
Lemma register_keeps q h age h' f t :
  queue_ok q -> bq_hash_height q < U64_MAX -> h' <> h -> bq_ages q !! h = Some age ->
  bq_hash_height q + 1 - ha_hash_height age <= Z.of_nat (bq_max_age q) ->
  bq_ages (register_hash q h' f t) !! h = Some age.
Proof.
  intros [H0 Hq] Hmax Hne Hage Hold. cbn. rewrite lookup_insert_ne by done.
  destruct (_ <=? _)%nat; [|done]. apply map_lookup_filter_Some. split; [done|].
  unfold check_age. apply Hq in Hage. rewrite !wrap64_small by (rewrite ?wrap64_small; u_unfold; lia). lia.
Qed.

(** An entry is never changed but by a registration of its hash. *)
Lemma register_other q h h' f t age :
  h' <> h -> bq_ages (register_hash q h' f t) !! h = Some age -> bq_ages q !! h = Some age.
Proof.
  intros Hne. cbn. rewrite lookup_insert_ne by done. destruct (_ <=? _)%nat; [|done].
  by intros [? _]%map_lookup_filter_Some.
Qed.

(** After other registrations: the height, the entry of [h] if it is young
    enough, and no other entry for it. *)
Lemma register_all_spec q h age l :
  queue_ok q -> bq_ages q !! h = Some age -> Forall (fun '(h', _, _) => h' <> h) l ->
  bq_hash_height q + Z.of_nat (length l) <= U64_MAX ->
  let q' := register_all q l in
  queue_ok q' /\ bq_hash_height q' = bq_hash_height q + Z.of_nat (length l)
  /\ bq_max_age q' = bq_max_age q
  /\ (forall age', bq_ages q' !! h = Some age' -> age' = age)
  /\ (bq_hash_height q' - ha_hash_height age <= Z.of_nat (bq_max_age q) -> bq_ages q' !! h = Some age).
Proof.
  intros Hq Hage Hne Hmax. unfold register_all.
  induction l as [|[[h' f] t] l IH] using rev_ind; cbn.
  { split_and!; [done|lia|done|congruence|done]. }
  apply Forall_app in Hne as [Hne1 Hne2]. apply Forall_cons in Hne2 as [Hne2 _]. rewrite length_app in Hmax. cbn in Hmax.
  rewrite fold_left_app, length_app. cbn [fold_left length].
  destruct (IH Hne1 ltac:(lia)) as (Hok & Hh & Hm & Hu & Hk).
  destruct (register_ok _ h' f t Hok ltac:(lia)) as [Hok' Hh'].
  split_and!; [done|lia|done|..].
  - intros age' Ha. apply Hu. by eapply register_other.
  - intros Hold. rewrite Hh' in Hold. apply register_keeps; [done|lia|done|apply Hk; lia|].
    rewrite Hm. lia.
Qed.

(** ** Properties *)

(** A blockhash is usable for a fixed number of blocks.  After a hash is
    registered, it passes the age check, with the fee rate it was registered
    with, as long as at most [m] other hashes have been registered since, and
    fails it from then on; the pruning of the queue never drops a hash that
    is still young enough, for any [m] up to the queue's maximal age. *)
Theorem blockhash_window (q : BlockhashQueue) (h : Hash) (f t : Z) (l : list (Hash * Z * Z)) (m : nat)
    (Hq : queue_ok q) (Hmax : bq_hash_height q + 1 + Z.of_nat (length l) <= U64_MAX)
    (Hfresh : Forall (fun '(h', _, _) => h' <> h) l) (Hm : (m <= bq_max_age q)%nat) :
  let q' := register_all (register_hash q h f t) l in
  ((length l <= m)%nat ->
     check_hash_age q' h m = Some true /\ get_lamports_per_signature q' h = Some f)
  /\ ((m < length l)%nat -> check_hash_age q' h m <> Some true).
Proof.
  cbn zeta. destruct (register_ok q h f t Hq ltac:(lia)) as [Hok Hheight].
  assert (exists age, bq_ages (register_hash q h f t) !! h = Some age
    /\ ha_hash_height age = bq_hash_height q + 1 /\ ha_lamports_per_signature age = f) as (age & Hage & Hh & Hf).
  { eexists. split; [apply lookup_insert_eq|]. cbn in *. done. }
  destruct (register_all_spec _ h age l Hok Hage Hfresh ltac:(lia)) as (_ & Hl & Hma & Hu & Hk).
  rewrite Hheight in *. unfold check_hash_age, get_lamports_per_signature. split.
  - intros Hle. rewrite Hk by (cbn; lia). cbn. rewrite Hl, Hh, Hf, wrap64_small by (u_unfold; destruct Hq; lia).
    split; [|done]. f_equal. lia.
  - intros Hlt. destruct (bq_ages (register_all _ l) !! h) as [age'|] eqn:E; [|done]. rewrite (Hu age' eq_refl). cbn.
    rewrite Hl, Hh, wrap64_small by (u_unfold; destruct Hq; lia). intros [= H]. lia.
Qed.

Lemma blockhash_window_witness :
  let q := bq_new 300 in
  let q' := register_all (register_hash q 7%N 5000 0) [(8%N, 5000, 1); (9%N, 5000, 2)] in
  queue_ok q /\ check_hash_age q' 7%N 2 = Some true /\ check_hash_age q' 7%N 1 <> Some true.
Proof.
  assert (queue_ok (bq_new 300)) as Hq by (split; [done|intros h age H; done]).
  split; [done|]. split.
  - by apply (blockhash_window (bq_new 300) 7%N 5000 0 [(8%N, 5000, 1); (9%N, 5000, 2)] 2 Hq);
      [vm_compute; discriminate|repeat constructor; done|cbn; lia|cbn; lia].
  - by apply (blockhash_window (bq_new 300) 7%N 5000 0 [(8%N, 5000, 1); (9%N, 5000, 2)] 1 Hq);
      [vm_compute; discriminate|repeat constructor; done|cbn; lia|cbn; lia].
Defined.
