(* ===== verification/StatusCache.v ===== *)
(** * Processed transactions

    Models runtime/src/status_cache.rs: for each recent blockhash, the
    transactions processed with it, by a slice of 20 bytes of their key, with
    the slots of the forks they were processed in and their results. *)

From S2P Require Import Prelude.

Definition CACHED_KEY_SIZE : nat := 20.

(** [MAX_RECENT_BLOCKHASHES]. *)
Definition MAX_CACHE_ENTRIES : nat := 300.

Abbreviation KeySlice := (list Z).

Section StatusCache.
Context {T : Type}.

Abbreviation ForkStatus := (list (Slot * T)).
Abbreviation KeyMap := (gmap KeySlice ForkStatus).

Record StatusCache := {
  (** by blockhash: the highest slot, the offset of the key slices, and the
      statuses by key slice *)
  sc_cache : gmap N (Slot * nat * KeyMap);
  sc_roots : gset Z;
  (** by slot and blockhash: what was inserted *)
  sc_slot_deltas : gmap Z (gmap N (nat * list (KeySlice * T)));
}.

Definition status_cache_default : StatusCache :=
  {| sc_cache := ∅; sc_roots := {[ 0 ]}; sc_slot_deltas := ∅ |}.

Definition with_cache (s : StatusCache) (c : gmap N (Slot * nat * KeyMap)) : StatusCache :=
  {| sc_cache := c; sc_roots := sc_roots s; sc_slot_deltas := sc_slot_deltas s |}.

(** [key.as_ref().len().saturating_sub(CACHED_KEY_SIZE + 1)]. *)
Definition max_key_index (key : list Z) : nat := length key - (CACHED_KEY_SIZE + 1).

(** [key[index..index + CACHED_KEY_SIZE]], which panics out of range. *)
Definition key_slice (key : list Z) (index : nat) : outcome KeySlice :=
  if (index + CACHED_KEY_SIZE <=? length key)%nat then Returns (take CACHED_KEY_SIZE (drop index key))
  else Panics.

(** The slot and status of the first fork that is an ancestor or a root. *)
Definition get_status (s : StatusCache) (key : list Z) (transaction_blockhash : Hash)
    (ancestors : gset Z) : outcome (option (Slot * T)) :=
  match sc_cache s !! transaction_blockhash with
  | None => Returns None
  | Some (_, index, keymap) =>
      slice ← key_slice key (Nat.min index (max_key_index key));
      match keymap !! slice with
      | Some stored_forks =>
          Returns (List.find (fun '(f, _) => bool_decide (f ∈ ancestors) || bool_decide (f ∈ sc_roots s))
                     stored_forks)
      | None => Returns None
      end
  end.

Definition insert_with_slice (s : StatusCache) (transaction_blockhash : Hash) (slot : Slot)
    (key_index : nat) (slice : KeySlice) (res : T) : StatusCache :=
  let '(fork, index, keymap) := default (slot, key_index, ∅) (sc_cache s !! transaction_blockhash) in
  let forks := default [] (keymap !! slice) ++ [(slot, res)] in
  let delta := default ∅ (sc_slot_deltas s !! slot) in
  let '(i, entries) := default (key_index, []) (delta !! transaction_blockhash) in
  {| sc_cache := <[transaction_blockhash := (Z.max slot fork, index, <[slice := forks]> keymap)]> (sc_cache s);
     sc_roots := sc_roots s;
     sc_slot_deltas :=
       <[slot := <[transaction_blockhash := (i, entries ++ [(slice, res)])]> delta]> (sc_slot_deltas s) |}.

(** [random] is the offset drawn in [0..=max_key_index] for a new blockhash. *)
Definition sc_insert (s : StatusCache) (transaction_blockhash : Hash) (key : list Z) (slot : Slot)
    (res : T) (random : nat) : outcome StatusCache :=
  let '(fork, index, keymap) := default (slot, random, ∅) (sc_cache s !! transaction_blockhash) in
  let s := with_cache s (<[transaction_blockhash := (Z.max slot fork, index, keymap)]> (sc_cache s)) in
  let key_index := Nat.min index (max_key_index key) in
  slice ← key_slice key key_index;
  Returns (insert_with_slice s transaction_blockhash slot key_index slice res).

(** The least element of a set of slots. *)
Definition min_slot (roots : gset Z) : option Slot :=
  match elements roots with [] => None | r :: rest => Some (fold_left Z.min rest r) end.

Definition purge_roots (s : StatusCache) : StatusCache :=
  if (MAX_CACHE_ENTRIES <? size (sc_roots s))%nat then
    match min_slot (sc_roots s) with
    | Some min =>
        {| sc_cache := filter (fun '(_, (fork, _, _)) => min < fork) (sc_cache s);
           sc_roots := sc_roots s ∖ {[ min ]};
           sc_slot_deltas := filter (fun '(slot, _) => min < slot) (sc_slot_deltas s) |}
    | None => s
    end
  else s.

Definition sc_add_root (s : StatusCache) (fork : Slot) : StatusCache :=
  purge_roots {| sc_cache := sc_cache s; sc_roots := {[ fork ]} ∪ sc_roots s;
                 sc_slot_deltas := sc_slot_deltas s |}.

(** Forgets the statuses of one slot for one key slice. *)
Definition clear_key (slot : Slot) (keymap : KeyMap) (slice : KeySlice) : outcome KeyMap :=
  forks ← unwrap (keymap !! slice);
  let forks := List.filter (fun '(updated_slot, _) => negb (updated_slot =? slot)) forks in
  Returns (match forks with [] => delete slice keymap | _ => <[slice := forks]> keymap end).

(** The body of the loop of [clear_slot_entries] for one blockhash. *)
Definition clear_blockhash (slot : Slot) (cache : gmap N (Slot * nat * KeyMap)) (blockhash : Hash)
    (key_list : list (KeySlice * T)) : outcome (gmap N (Slot * nat * KeyMap)) :=
  '(fork, index, keymap) ← unwrap (cache !! blockhash);
  keymap ← fold_left (fun m '(slice, _) => m ← m; clear_key slot m slice) key_list (Returns keymap);
  Returns (if decide (keymap = ∅) then delete blockhash cache
           else <[blockhash := (fork, index, keymap)]> cache).

Definition clear_slot_entries (s : StatusCache) (slot : Slot) : outcome StatusCache :=
  match sc_slot_deltas s !! slot with
  | None => Returns s
  | Some deltas =>
      cache ← fold_left (fun c '(blockhash, (_, key_list)) => c ← c; clear_blockhash slot c blockhash key_list)
                (map_to_list deltas) (Returns (sc_cache s));
      Returns {| sc_cache := cache; sc_roots := sc_roots s;
                 sc_slot_deltas := delete slot (sc_slot_deltas s) |}
  end.

(** What was inserted in the given slots, with whether each is a root. *)
Definition slot_deltas (s : StatusCache) (slots : list Slot)
    : list (Slot * bool * gmap N (nat * list (KeySlice * T))) :=
  map (fun slot => (slot, bool_decide (slot ∈ sc_roots s), default ∅ (sc_slot_deltas s !! slot))) slots.

Definition sc_append (s : StatusCache)
    (deltas : list (Slot * bool * gmap N (nat * list (KeySlice * T)))) : StatusCache :=
  fold_left (fun s '(slot, is_root, statuses) =>
      let s := fold_left (fun s '(tx_hash, (key_index, statuses)) =>
                   fold_left (fun s '(slice, res) => insert_with_slice s tx_hash slot key_index slice res)
                     statuses s) (map_to_list statuses) s in
      if is_root : bool then sc_add_root s slot else s) deltas s.

Definition from_slot_deltas (deltas : list (Slot * bool * gmap N (nat * list (KeySlice * T))))
    : StatusCache := sc_append status_cache_default deltas.

(** ** Lemmas *)

Lemma key_slice_returns key index :
  (CACHED_KEY_SIZE < length key)%nat -> is_Some (match key_slice key (Nat.min index (max_key_index key)) with
                                                | Returns x => Some x | Panics => None end).
Proof.
  intros Hlen. unfold key_slice, max_key_index, CACHED_KEY_SIZE in *.
  destruct (Nat.leb_spec (Nat.min index (length key - (20 + 1)) + 20) (length key)); [by eexists|lia].
Qed.

(** A status is there when some fork of its slice is an ancestor or a root. *)
Definition recorded (s : StatusCache) (key : list Z) (bh : Hash) (ancestors : gset Z) : Prop :=
  exists fork index keymap slice forks f t,
    sc_cache s !! bh = Some (fork, index, keymap)
    /\ key_slice key (Nat.min index (max_key_index key)) = Returns slice
    /\ keymap !! slice = Some forks /\ (f, t) ∈ forks /\ (f ∈ ancestors \/ f ∈ sc_roots s).

Lemma find_elem {A} (P : A -> bool) (l : list A) x : x ∈ l -> P x = true -> is_Some (List.find P l).
Proof.
  intros Hx HP. induction l as [|y l IH]; [by apply not_elem_of_nil in Hx|]. cbn.
  destruct (P y) eqn:Hy; [by eexists|]. apply elem_of_cons in Hx as [->|Hx]; [congruence|auto].
Qed.

Lemma recorded_status s key bh ancestors :
  recorded s key bh ancestors -> exists st, get_status s key bh ancestors = Returns (Some st).
Proof.
  intros (fork & index & keymap & slice & forks & f & t & Hc & Hs & Hk & Hf & Ha).
  unfold get_status. rewrite Hc, Hs. cbn. rewrite Hk.
  destruct (find_elem (fun '(f, _) => bool_decide (f ∈ ancestors) || bool_decide (f ∈ sc_roots s)) forks (f, t) Hf)
    as [st Hst]; [|rewrite Hst; eauto].
  destruct Ha; [rewrite bool_decide_eq_true_2 by done|rewrite (bool_decide_eq_true_2 (f ∈ sc_roots s)) by done];
    [done|apply orb_true_r].
Qed.

(** What is inserted is recorded. *)
Lemma insert_recorded s bh key slot res r s' ancestors :
  sc_insert s bh key slot res r = Returns s' -> slot ∈ ancestors -> recorded s' key bh ancestors.
Proof.
  unfold sc_insert. intros Hi Hslot.
  destruct (default _ _) as [[fork index] keymap]. apply outcome_bind_Returns in Hi as (slice & Hs & Hi).
  injection Hi as <-. unfold insert_with_slice. cbn [with_cache sc_cache sc_slot_deltas sc_roots].
  rewrite lookup_insert_eq. cbn. destruct (default _ (default _ _ !! _)) as [i entries].
  eexists _, index, _, slice, _, slot, res. cbn. rewrite lookup_insert_eq.
  split_and!; [done|exact Hs|apply lookup_insert_eq|set_solver|by left].
Qed.

(** Later insertions keep what is recorded. *)
Lemma insert_with_slice_keeps s bh slot i slice res key bh' ancestors :
  recorded s key bh' ancestors -> recorded (insert_with_slice s bh slot i slice res) key bh' ancestors.
Proof.
  intros (fork & index & keymap & sl & forks & f & t & Hc & Hs & Hk & Hf & Ha).
  unfold insert_with_slice. destruct (default _ (_ !! bh)) as [[fork0 index0] keymap0] eqn:Ed.
  destruct (default _ (default _ _ !! _)) as [j entries].
  destruct (decide (bh = bh')) as [->|Hne].
  - rewrite Hc in Ed. cbn in Ed. injection Ed as <- <- <-.
    destruct (decide (slice = sl)) as [->|Hsl].
    + eexists _, index, _, sl, _, f, t. cbn. rewrite lookup_insert_eq.
      split_and!; [done|exact Hs|apply lookup_insert_eq|rewrite Hk; cbn; set_solver|done].
    + eexists _, index, _, sl, forks, f, t. cbn. rewrite lookup_insert_eq.
      split_and!; [done|exact Hs|by rewrite lookup_insert_ne|done|done].
  - exists fork, index, keymap, sl, forks, f, t. cbn. rewrite lookup_insert_ne by done. by split_and!.
Qed.

Lemma insert_keeps s bh key slot res r s' key' bh' ancestors :
  sc_insert s bh key slot res r = Returns s' ->
  recorded s key' bh' ancestors -> recorded s' key' bh' ancestors.
Proof.
  unfold sc_insert. intros Hi Hrec. destruct (default _ _) as [[fork index] keymap] eqn:Ed.
  apply outcome_bind_Returns in Hi as (slice & Hs & Hi). injection Hi as <-.
  apply insert_with_slice_keeps.
  destruct Hrec as (fork1 & index1 & keymap1 & sl & forks & f & t & Hc & Hsl & Hk & Hf & Ha).
  destruct (decide (bh = bh')) as [->|Hne].
  - rewrite Hc in Ed. cbn in Ed. injection Ed as <- <- <-.
    eexists _, index1, keymap1, sl, forks, f, t. cbn. rewrite lookup_insert_eq. by split_and!.
  - exists fork1, index1, keymap1, sl, forks, f, t. cbn. rewrite lookup_insert_ne by done. by split_and!.
Qed.

(** An insertion of a key of more than 20 bytes does not panic. *)
Lemma insert_returns s bh key slot res r :
  (CACHED_KEY_SIZE < length key)%nat -> exists s', sc_insert s bh key slot res r = Returns s'.
Proof.
  intros Hlen. unfold sc_insert. destruct (default _ _) as [[fork index] keymap].
  destruct (key_slice_returns key index Hlen) as [x Hx].
  destruct (key_slice _ _) as [slice|]; [|done]. cbn. eauto.
Qed.

Lemma get_status_returns s key bh ancestors :
  (CACHED_KEY_SIZE < length key)%nat -> exists st, get_status s key bh ancestors = Returns st.
Proof.
  intros Hlen. unfold get_status. destruct (sc_cache s !! bh) as [[[fork index] keymap]|]; [|eauto].
  destruct (key_slice_returns key index Hlen) as [x Hx].
  destruct (key_slice _ _) as [slice|]; [|done]. cbn. destruct (keymap !! slice); eauto.
Qed.

End StatusCache.
Arguments StatusCache T : clear implicits.
