(* ===== verification/PreAccount.v ===== *)
(** * The rules an instruction must obey

    Models program-runtime/src/pre_account.rs, which compares each account
    before and after an instruction, and accounts_data_meter.rs, which tracks
    the total size of account data. *)

From S2P Require Import Prelude Keys Errors Float64 Account Invocation Nonce SystemProgram RentCollector.

(** ** Account changes *)

Record PreAccount := {
  pa_key : Pubkey;
  pa_account : AccountSharedData;
  pa_changed : bool;
}.

Definition pre_account_new (key : Pubkey) (account : AccountSharedData) : PreAccount :=
  {| pa_key := key; pa_account := account; pa_changed := false |}.

Definition ZEROS_LEN : nat := Z.to_nat 1024.

(** The chunks of the buffer, and its remainder, are compared with zeros. *)
Fixpoint is_zeroed_chunks (chunks : nat) (buf : list Z) : bool :=
  match chunks with
  | O => forallb (Z.eqb 0) buf
  | S chunks => forallb (Z.eqb 0) (take ZEROS_LEN buf) && is_zeroed_chunks chunks (drop ZEROS_LEN buf)
  end.

Definition is_zeroed (buf : list Z) : bool :=
  is_zeroed_chunks (length buf / ZEROS_LEN) buf.

(** [PreAccount::verify] without its timings. *)
Definition pre_account_verify (self : PreAccount) (program_id : Pubkey) (is_writable : bool)
    (rent : Rent) (post : AccountSharedData) (do_support_realloc : bool)
    : result InstructionError unit :=
  let pre := pa_account self in
  let is_owner := N.eqb program_id (acc_owner pre) in
  let owner_changed := negb (N.eqb (acc_owner pre) (acc_owner post)) in
  if owner_changed
     && (negb is_writable || acc_executable pre || negb is_owner || negb (is_zeroed (acc_data post)))
  then Err IE.ModifiedProgramId
  else if negb is_owner && (acc_lamports post <? acc_lamports pre)
  then Err IE.ExternalAccountLamportSpend
  else
  let lamports_changed := negb (acc_lamports pre =? acc_lamports post) in
  if lamports_changed && negb is_writable then Err IE.ReadonlyLamportChange
  else if lamports_changed && acc_executable pre then Err IE.ExecutableLamportChange
  else
  let data_len_changed := negb (length (acc_data pre) =? length (acc_data post))%nat in
  _ ← (if do_support_realloc then
         if MAX_PERMITTED_DATA_LENGTH <? Z.of_nat (length (acc_data post)) then Err IE.InvalidRealloc
         else if data_len_changed && negb is_owner then Err IE.AccountDataSizeChanged
         else Ok tt
       else if data_len_changed && (negb (N.eqb program_id system_program_id)
                                    || negb (N.eqb (acc_owner pre) system_program_id))
       then Err IE.AccountDataSizeChanged
       else Ok tt);
  if negb (is_owner && is_writable && negb (acc_executable pre))
     && negb (bool_decide (acc_data pre = acc_data post))
  then
    if acc_executable pre then Err IE.ExecutableDataModified
    else if is_writable then Err IE.ExternalAccountDataModified
    else Err IE.ReadonlyDataModified
  else
  let executable_changed := negb (Bool.eqb (acc_executable pre) (acc_executable post)) in
  if executable_changed && negb (is_exempt rent (acc_lamports post) (length (acc_data post)))
  then Err IE.ExecutableAccountNotRentExempt
  else if executable_changed
          && (negb is_writable || acc_executable pre || negb (N.eqb program_id (acc_owner post)))
  then Err IE.ExecutableModified
  else if negb (acc_rent_epoch pre =? acc_rent_epoch post) then Err IE.RentEpochModified
  else Ok tt.

Definition pre_account_update (self : PreAccount) (account : AccountSharedData) : PreAccount :=
  {| pa_key := pa_key self;
     pa_account := set_rent_epoch account (acc_rent_epoch (pa_account self));
     pa_changed := true |}.

(** ** The accounts data meter *)

Definition MAX_ACCOUNTS_DATA_LEN : Z := 128000000000.
Definition I64_MAX : Z := 9223372036854775807.
Definition I64_MIN : Z := -9223372036854775808.

(** Signed addition that saturates, and the cast of a [u64]. *)
Definition sat_add_i64 (a b : Z) : Z := Z.max I64_MIN (Z.min I64_MAX (a + b)).
Definition sat_sub_i64 (a b : Z) : Z := Z.max I64_MIN (Z.min I64_MAX (a - b)).
Definition as_i64 (z : Z) : Z := if z <=? I64_MAX then z else z - 18446744073709551616.

Record AccountsDataMeter := { adm_maximum : Z; adm_initial : Z; adm_delta : Z }.

Definition meter_new (initial : Z) : AccountsDataMeter :=
  {| adm_maximum := MAX_ACCOUNTS_DATA_LEN; adm_initial := initial; adm_delta := 0 |}.

(** [saturating_add_signed]. *)
Definition sat_add_signed (lhs rhs : Z) : Z := Z.max 0 (Z.min U64_MAX (lhs + rhs)).

Definition meter_current (m : AccountsDataMeter) : Z := sat_add_signed (adm_initial m) (adm_delta m).

Definition meter_remaining (m : AccountsDataMeter) : Z :=
  sat_sub64 (adm_maximum m) (meter_current m).

Definition adjust_delta_unchecked (m : AccountsDataMeter) (amount : Z) : AccountsDataMeter :=
  {| adm_maximum := adm_maximum m; adm_initial := adm_initial m;
     adm_delta := sat_add_i64 (adm_delta m) amount |}.

Definition adjust_delta (m : AccountsDataMeter) (amount : Z)
    : result InstructionError AccountsDataMeter :=
  if as_i64 (meter_remaining m) <? amount then Err IE.MaxAccountsDataSizeExceeded
  else Ok (adjust_delta_unchecked m amount).

(** ** Lemmas *)

Lemma is_zeroed_spec buf : is_zeroed buf = forallb (Z.eqb 0) buf.
Proof.
  unfold is_zeroed. generalize (length buf / ZEROS_LEN)%nat as n. intros n. revert buf.
  induction n as [|n IH]; intros buf; cbn; [done|].
  by rewrite IH, <- forallb_app, take_drop.
Qed.

(** What a change that passed the check may be, by the privileges of the
    program: the owner of a writable account is free within the rules of the
    executable flag, any other program may only add lamports. *)
Record change_allowed (program_id : Pubkey) (is_writable : bool) (pre post : AccountSharedData)
    : Prop := {
  ca_readonly : is_writable = false -> post = pre;
  ca_executable : acc_executable pre = true -> post = pre;
  ca_foreign : program_id <> acc_owner pre ->
    acc_owner post = acc_owner pre /\ acc_data post = acc_data pre
    /\ acc_executable post = acc_executable pre /\ acc_lamports pre <= acc_lamports post;
  ca_assigned : acc_owner post <> acc_owner pre -> Forall (eq 0) (acc_data post);
  ca_rent_epoch : acc_rent_epoch post = acc_rent_epoch pre;
}.

Lemma account_eq (a b : AccountSharedData) :
  acc_lamports a = acc_lamports b -> acc_data a = acc_data b -> acc_owner a = acc_owner b ->
  acc_executable a = acc_executable b -> acc_rent_epoch a = acc_rent_epoch b -> a = b.
Proof. destruct a, b; cbn; congruence. Qed.

Lemma pre_account_verify_allowed self program_id is_writable rent post realloc :
  pre_account_verify self program_id is_writable rent post realloc = Ok tt ->
  change_allowed program_id is_writable (pa_account self) post.
Proof.
  unfold pre_account_verify. set (pre := pa_account self). intros Hv.
  repeat match type of Hv with (if ?b then _ else _) = _ => destruct b eqn:?; [done|] end.
  apply result_bind_Ok in Hv as ([] & _ & Hv).
  repeat match type of Hv with (if ?b then _ else _) = _ => destruct b eqn:?; [by splits|] end.
  clear Hv Heqb4. rewrite is_zeroed_spec in *. apply negb_false_iff, Z.eqb_eq in Heqb6.
  assert (acc_owner post <> acc_owner pre -> Forall (eq 0) (acc_data post)) as Hzero.
  { intros Hne. apply Forall_forall. intros x Hx. destruct (N.eqb_spec (acc_owner pre) (acc_owner post)); [by subst|].
    cbn in Heqb. zbool. apply forallb_forall with (x := x) in H0; [lia|by apply list_elem_of_In]. }
  destruct (N.eqb_spec (acc_owner pre) (acc_owner post)), (N.eqb_spec program_id (acc_owner pre)),
    (Z.eqb_spec (acc_lamports pre) (acc_lamports post)), is_writable, (acc_executable pre) eqn:?,
    (acc_executable post) eqn:?, (bool_decide_reflect (acc_data pre = acc_data post));
    cbn in *; zbool; rewrite ?N.eqb_eq in *; try discriminate;
    (split; [intros; try discriminate; apply account_eq; congruence
            |intros; try congruence; apply account_eq; congruence
            |intros; try congruence; split_and!; try congruence; lia
            |exact Hzero|done]).
Qed.
