(* ===== verification/Runtime.v ===== *)
(** * Instructions and cross-program calls

    Models sdk/src/transaction_context.rs and
    program-runtime/src/invoke_context.rs (the accounts and the call stack of
    a transaction, the checks around each instruction, cross-program
    invocation) and runtime/src/message_processor.rs.

    A program is any function from what it sees to a [ProgramRun]: it writes
    to the accounts of its instruction, consumes compute units, and calls
    other programs, in any order and as often as it likes.  The accounts are [RefCell]s in the sources; the model assumes
    that a program holds no borrow while it calls or returns.  Return data,
    logs and timings are left out: no check reads them. *)

From S2P Require Import Prelude Keys Message Errors InstructionsSysvar Float64 ComputeBudget Account Invocation Nonce SystemProgram RentCollector PreAccount.

(** ** The transaction context *)

Record InstructionAccount := {
  index_in_transaction : nat;
  index_in_caller : nat;
  ia_is_signer : bool;
  ia_is_writable : bool;
}.

Record InstructionContext := {
  nesting_level : nat;
  program_accounts : list nat;
  instruction_accounts : list InstructionAccount;
  instruction_data : list Z;
}.

(** The top of the stack is its last element. *)
Record TransactionContext := {
  tc_account_keys : list Pubkey;
  tc_accounts : list AccountSharedData;
  instruction_context_capacity : nat;
  instruction_stack : list nat;
  instruction_trace : list (list InstructionContext);
}.

Definition transaction_context_new (transaction_accounts : list (Pubkey * AccountSharedData))
    (capacity : nat) : TransactionContext :=
  {| tc_account_keys := map fst transaction_accounts;
     tc_accounts := map snd transaction_accounts;
     instruction_context_capacity := capacity; instruction_stack := []; instruction_trace := [] |}.

Definition deconstruct (tc : TransactionContext) : list (Pubkey * AccountSharedData) :=
  zip (tc_account_keys tc) (tc_accounts tc).

Definition get_key_of_account_at_index (tc : TransactionContext) (i : nat)
    : result InstructionError Pubkey :=
  ok_or (tc_account_keys tc !! i) IE.NotEnoughAccountKeys.

Definition get_account_at_index (tc : TransactionContext) (i : nat)
    : result InstructionError AccountSharedData :=
  ok_or (tc_accounts tc !! i) IE.NotEnoughAccountKeys.

Definition find_index_of_account (tc : TransactionContext) (key : Pubkey) : option nat :=
  position key (tc_account_keys tc).

(** [rposition]. *)
Definition find_index_of_program_account (tc : TransactionContext) (key : Pubkey) : option nat :=
  i ← position key (reverse (tc_account_keys tc));
  Some (length (tc_account_keys tc) - 1 - i)%nat.

Definition stack_height (tc : TransactionContext) : nat := length (instruction_stack tc).

Definition get_instruction_context_at (tc : TransactionContext) (level : nat)
    : result InstructionError InstructionContext :=
  top_level_index ← ok_or (instruction_stack tc !! 0%nat) IE.CallDepth;
  cpi_index ← (if (level =? 0)%nat then Ok 0%nat
               else ok_or (instruction_stack tc !! level) IE.CallDepth);
  ok_or (trace ← instruction_trace tc !! top_level_index; trace !! cpi_index) IE.CallDepth.

Definition get_current_instruction_context (tc : TransactionContext)
    : result InstructionError InstructionContext :=
  if (stack_height tc =? 0)%nat then Err IE.CallDepth
  else get_instruction_context_at tc (stack_height tc - 1).

Definition with_trace (tc : TransactionContext) (trace : list (list InstructionContext))
    : TransactionContext :=
  {| tc_account_keys := tc_account_keys tc; tc_accounts := tc_accounts tc;
     instruction_context_capacity := instruction_context_capacity tc;
     instruction_stack := instruction_stack tc; instruction_trace := trace |}.

Definition with_stack (tc : TransactionContext) (stack : list nat) : TransactionContext :=
  {| tc_account_keys := tc_account_keys tc; tc_accounts := tc_accounts tc;
     instruction_context_capacity := instruction_context_capacity tc;
     instruction_stack := stack; instruction_trace := instruction_trace tc |}.

Definition with_accounts (tc : TransactionContext) (accounts : list AccountSharedData)
    : TransactionContext :=
  {| tc_account_keys := tc_account_keys tc; tc_accounts := accounts;
     instruction_context_capacity := instruction_context_capacity tc;
     instruction_stack := instruction_stack tc; instruction_trace := instruction_trace tc |}.

(** Appends to the trace of the current top-level instruction. *)
Definition record_instruction (tc : TransactionContext) (ic : InstructionContext)
    : TransactionContext :=
  match last (instruction_trace tc) with
  | Some records =>
      with_trace tc (take (length (instruction_trace tc) - 1) (instruction_trace tc)
                     ++ [records ++ [ic]])
  | None => tc
  end.

Definition tc_push (tc : TransactionContext) (program_accounts : list nat)
    (instruction_accounts : list InstructionAccount) (data : list Z) (record : bool)
    : TransactionContext * result InstructionError unit :=
  let ic := {| nesting_level := stack_height tc; program_accounts := program_accounts;
               instruction_accounts := instruction_accounts; instruction_data := data |} in
  let finish (tc : TransactionContext) (index_in_trace : nat) :=
    if (instruction_context_capacity tc <=? stack_height tc)%nat then (tc, Err IE.CallDepth)
    else (with_stack tc (instruction_stack tc ++ [index_in_trace]), Ok tt) in
  if (stack_height tc =? 0)%nat then
    finish (with_trace tc (instruction_trace tc ++ [[ic]])) (length (instruction_trace tc))
  else
    match last (instruction_trace tc) with
    | Some records =>
        if record then finish (record_instruction tc ic) (length records)
        else finish tc (length records - 1)%nat
    | None => (tc, Err IE.CallDepth)
    end.

Definition tc_pop (tc : TransactionContext) : TransactionContext :=
  with_stack tc (take (stack_height tc - 1) (instruction_stack tc)).

(** ** The instruction context *)

Definition get_index_in_transaction (ic : InstructionContext) (i : nat)
    : result InstructionError nat :=
  if (i <? length (program_accounts ic))%nat
  then ok_or (program_accounts ic !! i) IE.NotEnoughAccountKeys
  else ok_or (index_in_transaction <$> instruction_accounts ic !! (i - length (program_accounts ic))%nat)
         IE.NotEnoughAccountKeys.

Definition get_program_key (tc : TransactionContext) (ic : InstructionContext)
    : result InstructionError Pubkey :=
  i ← get_index_in_transaction ic (length (program_accounts ic) - 1);
  get_key_of_account_at_index tc i.

(** The position of the key among the instruction accounts, after the
    program accounts. *)
Definition ic_find_index_of_account (tc : TransactionContext) (ic : InstructionContext)
    (key : Pubkey) : option nat :=
  '(i, _) ← list_find (fun ia => tc_account_keys tc !! index_in_transaction ia = Some key)
              (instruction_accounts ic);
  Some (i + length (program_accounts ic))%nat.

(** [try_borrow_account]: the index of the borrowed account. *)
Definition try_borrow_account (tc : TransactionContext) (ic : InstructionContext) (i : nat)
    : result InstructionError nat :=
  index ← get_index_in_transaction ic i;
  if (length (tc_accounts tc) <=? index)%nat then Err IE.MissingAccount else Ok index.

Definition try_borrow_program_account (tc : TransactionContext) (ic : InstructionContext)
    : result InstructionError nat :=
  try_borrow_account tc ic (length (program_accounts ic) - 1).

(** [is_signer] and [is_writable] of a borrowed account. *)
Definition privilege (flag : InstructionAccount -> bool) (ic : InstructionContext) (i : nat) : bool :=
  if (i <? length (program_accounts ic))%nat then false
  else match instruction_accounts ic !! (i - length (program_accounts ic))%nat with
       | Some ia => flag ia
       | None => false
       end.

(** ** The invoke context *)

Inductive UpgradeableLoaderState :=
| ULS_Uninitialized
| ULS_Buffer (authority_address : option Pubkey)
| ULS_Program (programdata_address : Pubkey)
| ULS_ProgramData (slot : Slot) (upgrade_authority_address : option Pubkey).

Record Runtime := {
  rt_tc : TransactionContext;
  rt_rent : Rent;
  rt_pre_accounts : list PreAccount;
  rt_sysvar_cache : SysvarCache;
  rt_compute_budget : ComputeBudget;
  rt_current_compute_budget : ComputeBudget;
  rt_remaining : Z;
  rt_meter : AccountsDataMeter;
  rt_feature_set : FeatureSet;
  rt_blockhash : Hash;
  rt_lamports_per_signature : Z;
}.

Definition runtime_new (tc : TransactionContext) (rent : Rent) (cache : SysvarCache)
    (budget : ComputeBudget) (fs : FeatureSet) (blockhash : Hash) (lamports_per_signature : Z)
    (initial_accounts_data_len : Z) : Runtime :=
  {| rt_tc := tc; rt_rent := rent; rt_pre_accounts := []; rt_sysvar_cache := cache;
     rt_compute_budget := budget; rt_current_compute_budget := budget;
     rt_remaining := compute_unit_limit budget; rt_meter := meter_new initial_accounts_data_len;
     rt_feature_set := fs; rt_blockhash := blockhash;
     rt_lamports_per_signature := lamports_per_signature |}.

Definition set_tc (rt : Runtime) (tc : TransactionContext) : Runtime :=
  {| rt_tc := tc; rt_rent := rt_rent rt; rt_pre_accounts := rt_pre_accounts rt;
     rt_sysvar_cache := rt_sysvar_cache rt; rt_compute_budget := rt_compute_budget rt;
     rt_current_compute_budget := rt_current_compute_budget rt; rt_remaining := rt_remaining rt;
     rt_meter := rt_meter rt; rt_feature_set := rt_feature_set rt;
     rt_blockhash := rt_blockhash rt; rt_lamports_per_signature := rt_lamports_per_signature rt |}.

Definition set_pre_accounts (rt : Runtime) (pre : list PreAccount) : Runtime :=
  {| rt_tc := rt_tc rt; rt_rent := rt_rent rt; rt_pre_accounts := pre;
     rt_sysvar_cache := rt_sysvar_cache rt; rt_compute_budget := rt_compute_budget rt;
     rt_current_compute_budget := rt_current_compute_budget rt; rt_remaining := rt_remaining rt;
     rt_meter := rt_meter rt; rt_feature_set := rt_feature_set rt;
     rt_blockhash := rt_blockhash rt; rt_lamports_per_signature := rt_lamports_per_signature rt |}.

Definition set_budget (rt : Runtime) (budget : ComputeBudget) (remaining : Z) : Runtime :=
  {| rt_tc := rt_tc rt; rt_rent := rt_rent rt; rt_pre_accounts := rt_pre_accounts rt;
     rt_sysvar_cache := rt_sysvar_cache rt; rt_compute_budget := rt_compute_budget rt;
     rt_current_compute_budget := budget; rt_remaining := remaining;
     rt_meter := rt_meter rt; rt_feature_set := rt_feature_set rt;
     rt_blockhash := rt_blockhash rt; rt_lamports_per_signature := rt_lamports_per_signature rt |}.

Definition set_meter (rt : Runtime) (meter : AccountsDataMeter) : Runtime :=
  {| rt_tc := rt_tc rt; rt_rent := rt_rent rt; rt_pre_accounts := rt_pre_accounts rt;
     rt_sysvar_cache := rt_sysvar_cache rt; rt_compute_budget := rt_compute_budget rt;
     rt_current_compute_budget := rt_current_compute_budget rt; rt_remaining := rt_remaining rt;
     rt_meter := meter; rt_feature_set := rt_feature_set rt;
     rt_blockhash := rt_blockhash rt; rt_lamports_per_signature := rt_lamports_per_signature rt |}.

Definition feature (f : Feature) (rt : Runtime) : bool := is_active (rt_feature_set rt) f.

(** ** The monad of [&mut self] methods: an error keeps the changes made
    before it. *)

Definition M (A : Type) : Type := Runtime -> Runtime * result InstructionError A.

#[global] Instance M_bind : MBind M := fun A B f m rt =>
  match m rt with
  | (rt, Ok a) => f a rt
  | (rt, Err e) => (rt, Err e)
  end.

Definition ret {A} (a : A) : M A := fun rt => (rt, Ok a).
Definition gets {A} (f : Runtime -> A) : M A := fun rt => (rt, Ok (f rt)).
Definition modify (f : Runtime -> Runtime) : M unit := fun rt => (f rt, Ok tt).
Definition lift {A} (f : Runtime -> result InstructionError A) : M A := fun rt => (rt, f rt).
Definition act {A} (f : Runtime -> Runtime * result InstructionError A) : M A := f.
Definition fail {A} (e : InstructionError) : M A := fun rt => (rt, Err e).
Definition reject_if (b : bool) (e : InstructionError) : M unit := if b then fail e else ret tt.

(** [visit_each_account_once]: the closure's variables are the accumulator. *)
Fixpoint visit_loop {S} (work : InstructionAccount -> S -> M S) (before : list nat)
    (l : list InstructionAccount) (s : S) : M S :=
  match l with
  | [] => ret s
  | ia :: rest =>
      s ← (if bool_decide (index_in_transaction ia ∈ before) then ret s else work ia s);
      visit_loop work (index_in_transaction ia :: before) rest s
  end.

Definition visit_each_account_once {S} (l : list InstructionAccount)
    (work : InstructionAccount -> S -> M S) (s : S) : M S :=
  visit_loop work [] l s.

(** ** Programs *)

(** What a program does next: finish, or call another program (through
    [native_invoke], or directly as the BPF loader does) and continue from
    the state after the call.  A failed call ends the caller with its error:
    the virtual machine stops, and the callers of [native_invoke] return the
    error.  Writes are given by the index of the account in the
    instruction. *)
Inductive ProgramRun :=
| Finish (writes : list (nat * AccountSharedData)) (remaining : Z) (r : result InstructionError unit)
| Invoke (writes : list (nat * AccountSharedData)) (remaining : Z) (native : bool)
    (ix : Instruction) (signers : list Pubkey)
    (continue : Runtime -> ProgramRun).

(** An entry point: the index of the first instruction account among the
    keyed accounts, the instruction data and the context. *)
Abbreviation Entrypoint := (nat -> list Z -> Runtime -> ProgramRun).

Record BuiltinProgram := { bp_program_id : Pubkey; bp_process_instruction : Entrypoint }.

(** The lamports of an account are a 64-bit field, whatever a program writes. *)
Definition as_written (a : AccountSharedData) : AccountSharedData :=
  set_lamports a (wrap64 (acc_lamports a)).

(** The accounts with a write to an instruction account applied. *)
Definition write_account (ic : InstructionContext) (accounts : list AccountSharedData)
    (w : nat * AccountSharedData) : list AccountSharedData :=
  match instruction_accounts ic !! w.1 with
  | Some ia => <[index_in_transaction ia := as_written w.2]> accounts
  | None => accounts
  end.

Definition apply_writes (writes : list (nat * AccountSharedData)) (remaining : Z) (rt : Runtime)
    : Runtime :=
  let rt := set_budget rt (rt_current_compute_budget rt) remaining in
  match get_current_instruction_context (rt_tc rt) with
  | Ok ic =>
      set_tc rt (with_accounts (rt_tc rt) (fold_left (write_account ic) writes (tc_accounts (rt_tc rt))))
  | Err _ => rt
  end.

Fixpoint run (invoke : bool -> Instruction -> list Pubkey -> M unit) (p : ProgramRun) : M unit :=
  match p with
  | Finish writes remaining r => fun rt => (apply_writes writes remaining rt, r)
  | Invoke writes remaining native ix signers continue => fun rt =>
      match invoke native ix signers (apply_writes writes remaining rt) with
      | (rt, Ok _) => run invoke (continue rt) rt
      | (rt, Err e) => (rt, Err e)
      end
  end.

(** ** Checks around an instruction *)

(** The meter, checked when the feature is active. *)
Definition adjust_meter (delta : Z) : M unit :=
  cap ← gets (feature cap_accounts_data_len);
  if (cap : bool) then
    meter ← lift (fun rt => adjust_delta (rt_meter rt) delta);
    modify (fun rt => set_meter rt meter)
  else modify (fun rt => set_meter rt (adjust_delta_unchecked (rt_meter rt) delta)).

Definition data_len_delta (pre post : AccountSharedData) : Z :=
  sat_sub_i64 (as_i64 (Z.of_nat (length (acc_data post)))) (as_i64 (Z.of_nat (length (acc_data pre)))).

Definition add_lamports (sum : Z) (a : AccountSharedData) : result InstructionError Z :=
  ok_or (checked_add128 sum (acc_lamports a)) IE.UnbalancedInstruction.

(** The closure of [verify]: the sums, and the index of the next pre-account. *)
Definition verify_account (program_id : Pubkey) (ia : InstructionAccount) (s : Z * Z * nat)
    : M (Z * Z * nat) :=
  let '(pre_sum, post_sum, pre_account_index) := s in
  account ← lift (fun rt => get_account_at_index (rt_tc rt) (index_in_transaction ia));
  pre ← lift (fun rt => ok_or (rt_pre_accounts rt !! pre_account_index) IE.NotEnoughAccountKeys);
  _ ← lift (fun rt => pre_account_verify pre program_id (ia_is_writable ia) (rt_rent rt) account
                        (feature do_support_realloc rt));
  pre_sum ← lift (fun _ => add_lamports pre_sum (pa_account pre));
  post_sum ← lift (fun _ => add_lamports post_sum account);
  _ ← adjust_meter (data_len_delta (pa_account pre) account);
  ret (pre_sum, post_sum, S pre_account_index).

Definition verify (instruction_accounts : list InstructionAccount) (program_indices : list nat)
    : M unit :=
  ic ← lift (fun rt => map_err (fun _ => IE.CallDepth) (get_current_instruction_context (rt_tc rt)));
  program_id ← lift (fun rt => map_err (fun _ => IE.CallDepth) (get_program_key (rt_tc rt) ic));
  _ ← lift (fun rt => foldr (fun i r => _ ← get_account_at_index (rt_tc rt) i; r) (Ok tt) program_indices);
  '(pre_sum, post_sum, _) ←
    visit_each_account_once instruction_accounts (verify_account program_id) (0, 0, 0%nat);
  reject_if (negb (pre_sum =? post_sum)) IE.UnbalancedInstruction.

(** The closure of [verify_and_update]; the data length is compared with the
    pre-account as it is after the update. *)
Definition verify_and_update_account (program_id : Pubkey) (ic : InstructionContext)
    (before_instruction_context_push : bool) (ia : InstructionAccount) (s : Z * Z) : M (Z * Z) :=
  let '(pre_sum, post_sum) := s in
  n ← gets (fun rt => length (tc_accounts (rt_tc rt)));
  _ ← reject_if (n <=? index_in_transaction ia)%nat IE.MissingAccount;
  key ← lift (fun rt => get_key_of_account_at_index (rt_tc rt) (index_in_transaction ia));
  account ← lift (fun rt => get_account_at_index (rt_tc rt) (index_in_transaction ia));
  is_writable ← (if before_instruction_context_push then
                   _ ← lift (fun rt => try_borrow_account (rt_tc rt) ic (index_in_caller ia));
                   ret (privilege ia_is_writable ic (index_in_caller ia))
                 else ret (ia_is_writable ia));
  '(i, pre) ← lift (fun rt => ok_or (list_find (fun pre => pa_key pre = key) (rt_pre_accounts rt))
                                IE.MissingAccount);
  _ ← lift (fun rt => pre_account_verify pre program_id is_writable (rt_rent rt) account
                        (feature do_support_realloc rt));
  pre_sum ← lift (fun _ => add_lamports pre_sum (pa_account pre));
  post_sum ← lift (fun _ => add_lamports post_sum account);
  let pre' := if is_writable && negb (acc_executable (pa_account pre))
              then pre_account_update pre account else pre in
  _ ← modify (fun rt => set_pre_accounts rt (<[i := pre']> (rt_pre_accounts rt)));
  _ ← adjust_meter (data_len_delta (pa_account pre') account);
  ret (pre_sum, post_sum).

Definition verify_and_update (instruction_accounts : list InstructionAccount)
    (before_instruction_context_push : bool) : M unit :=
  ic ← lift (fun rt => get_current_instruction_context (rt_tc rt));
  program_id ← lift (fun rt => map_err (fun _ => IE.CallDepth) (get_program_key (rt_tc rt) ic));
  '(pre_sum, post_sum) ←
    visit_each_account_once instruction_accounts
      (verify_and_update_account program_id ic before_instruction_context_push) (0, 0);
  reject_if (negb (pre_sum =? post_sum)) IE.UnbalancedInstruction.

(** ** Calls *)

(** The first part of [push] for a top-level instruction: the budget of the
    instruction and the accounts before it. *)
Definition neon_budget (program_id : option Pubkey) (rt : Runtime) : ComputeBudget :=
  let budget := rt_compute_budget rt in
  let is_neon := feature neon_evm_compute_budget rt
                 && bool_decide (program_id = Some neon_evm_program_id) in
  {| compute_unit_limit :=
       if negb (feature tx_wide_compute_cap rt) && is_neon
       then Z.max (compute_unit_limit budget) 500000 else compute_unit_limit budget;
     heap_size :=
       if negb (feature requestable_heap_size rt) && is_neon
       then Some (256 * 1024) else heap_size budget;
     budget_costs := budget_costs budget |}.

Definition push_pre_account (ia : InstructionAccount) (_ : unit) : M unit :=
  n ← gets (fun rt => length (tc_accounts (rt_tc rt)));
  _ ← reject_if (n <=? index_in_transaction ia)%nat IE.MissingAccount;
  account ← lift (fun rt => get_account_at_index (rt_tc rt) (index_in_transaction ia));
  key ← lift (fun rt => get_key_of_account_at_index (rt_tc rt) (index_in_transaction ia));
  modify (fun rt => set_pre_accounts rt (rt_pre_accounts rt ++ [pre_account_new key account])).

Definition push_top_level (program_id : option Pubkey) (instruction_accounts : list InstructionAccount)
    : M unit :=
  _ ← modify (fun rt =>
        let budget := neon_budget program_id rt in
        set_budget rt budget (if feature tx_wide_compute_cap rt then rt_remaining rt
                              else compute_unit_limit budget));
  _ ← modify (fun rt => set_pre_accounts rt []);
  visit_each_account_once instruction_accounts push_pre_account tt.

(** Whether the instruction at a level runs this program. *)
Definition runs_program (tc : TransactionContext) (program_id : option Pubkey)
    (ic : result InstructionError InstructionContext) : bool :=
  match i ← (ic ← ic; try_borrow_program_account tc ic); get_key_of_account_at_index tc i with
  | Ok key => bool_decide (program_id = Some key)
  | Err _ => negb (is_some program_id)
  end.

(** Reentrancy is allowed only for a program that calls itself. *)
Definition check_reentrancy (program_id : option Pubkey) : M unit :=
  tc ← gets rt_tc;
  let contains := existsb (fun level => runs_program tc program_id (get_instruction_context_at tc level))
                    (seq 0 (stack_height tc)) in
  let is_last := runs_program tc program_id (get_current_instruction_context tc) in
  reject_if (contains && negb is_last) IE.ReentrancyNotAllowed.

(** The keyed accounts of a frame; an index out of range is an error. *)
Definition keyed_accounts (tc : TransactionContext) (program_indices : list nat)
    (instruction_accounts : list InstructionAccount) : result InstructionError (list KeyedAccount) :=
  let keyed (is_signer is_writable : bool) (i : nat) :=
    key ← get_key_of_account_at_index tc i;
    _ ← get_account_at_index tc i;
    Ok {| ka_is_signer := is_signer; ka_is_writable := is_writable; ka_key := key |} in
  foldr (fun r rest => ka ← r; kas ← rest; Ok (ka :: kas)) (Ok [])
    (map (keyed false false) program_indices
     ++ map (fun ia => keyed (ia_is_signer ia) (ia_is_writable ia) (index_in_transaction ia))
          instruction_accounts).

(** What a native program sees of the context, and its run: it writes every
    account of its instruction back. *)
Definition native_context (rt : Runtime) : result InstructionError (InstructionContext * InvokeContext) :=
  let tc := rt_tc rt in
  ic ← get_current_instruction_context tc;
  kas ← keyed_accounts tc (program_accounts ic) (instruction_accounts ic);
  Ok (ic, {| ic_keyed_accounts := kas;
             ic_accounts := fun key =>
               default account_default (i ← find_index_of_account tc key; tc_accounts tc !! i);
             ic_sysvar_cache := rt_sysvar_cache rt; ic_feature_set := rt_feature_set rt;
             ic_blockhash := rt_blockhash rt;
             ic_lamports_per_signature := rt_lamports_per_signature rt |}).

Definition native_entrypoint
    (process : nat -> list Z -> InvokeContext -> accounts_store * result InstructionError unit)
    : Entrypoint := fun first_instruction_account data rt =>
  match native_context rt with
  | Err e => Finish [] (rt_remaining rt) (Err e)
  | Ok (ic, ctx) =>
      let '(store, r) := process first_instruction_account data ctx in
      let write (i : nat) (ia : InstructionAccount) :=
        (i, store (default pubkey_default (tc_account_keys (rt_tc rt) !! index_in_transaction ia))) in
      Finish (imap write (instruction_accounts ic)) (rt_remaining rt) r
  end.

(** The system program as an entry point. *)
Definition system_entrypoint `{SeedHash} `{NonceHash} `{Bincode NonceVersions} `{SystemCodec} : Entrypoint :=
  native_entrypoint (fun first data ctx =>
    match system_process_instruction first data ctx with
    | Ok accounts => (accounts, Ok tt)
    | Err e => (ic_accounts ctx, Err e)
    end).

Definition push (instruction_accounts : list InstructionAccount) (program_indices : list nat)
    (data : list Z) : M unit :=
  too_deep ← gets (fun rt =>
    negb (feature record_instruction_in_transaction_context_push rt)
    && (max_invoke_depth (budget_costs (rt_compute_budget rt)) <? stack_height (rt_tc rt))%nat);
  _ ← reject_if too_deep IE.CallDepth;
  program_id ← lift (fun rt =>
    match last program_indices with
    | Some i => key ← get_key_of_account_at_index (rt_tc rt) i; Ok (Some key)
    | None => Ok None
    end);
  rejects_empty ← gets (feature reject_empty_instruction_without_program);
  _ ← reject_if (negb (is_some program_id) && rejects_empty) IE.UnsupportedProgramId;
  height ← gets (fun rt => stack_height (rt_tc rt));
  _ ← (if (height =? 0)%nat then push_top_level program_id instruction_accounts
       else check_reentrancy program_id);
  _ ← lift (fun rt => keyed_accounts (rt_tc rt) program_indices instruction_accounts);
  act (fun rt =>
    let '(tc, r) := tc_push (rt_tc rt) program_indices instruction_accounts data
                      (feature record_instruction_in_transaction_context_push rt) in
    (set_tc rt tc, r)).

Definition pop (rt : Runtime) : Runtime := set_tc rt (tc_pop (rt_tc rt)).

(** The first loop of [prepare_instruction]: the distinct accounts with
    unified privileges, and the position of each account among them. *)
Fixpoint deduplicate (tc : TransactionContext) (ic : InstructionContext)
    (metas : list AccountMeta) (acc : list InstructionAccount * list nat)
    : result InstructionError (list InstructionAccount * list nat) :=
  match metas with
  | [] => Ok acc
  | meta :: rest =>
      let '(dedup, indices) := acc in
      index ← ok_or (find_index_of_account tc (am_pubkey meta)) IE.MissingAccount;
      match list_find (fun ia => index_in_transaction ia = index) dedup with
      | Some (i, ia) =>
          let ia := {| index_in_transaction := index_in_transaction ia;
                       index_in_caller := index_in_caller ia;
                       ia_is_signer := ia_is_signer ia || am_is_signer meta;
                       ia_is_writable := ia_is_writable ia || am_is_writable meta |} in
          deduplicate tc ic rest (<[i := ia]> dedup, indices ++ [i])
      | None =>
          caller ← ok_or (ic_find_index_of_account tc ic (am_pubkey meta)) IE.MissingAccount;
          let ia := {| index_in_transaction := index; index_in_caller := caller;
                       ia_is_signer := am_is_signer meta; ia_is_writable := am_is_writable meta |} in
          deduplicate tc ic rest (dedup ++ [ia], indices ++ [length dedup])
      end
  end.

(** The second loop: a callee gets no privilege its caller does not have. *)
Fixpoint check_privileges (tc : TransactionContext) (ic : InstructionContext) (signers : list Pubkey)
    (dedup : list InstructionAccount) : result InstructionError unit :=
  match dedup with
  | [] => Ok tt
  | ia :: rest =>
      i ← try_borrow_account tc ic (index_in_caller ia);
      if ia_is_writable ia && negb (privilege ia_is_writable ic (index_in_caller ia))
      then Err IE.PrivilegeEscalation
      else
        key ← get_key_of_account_at_index tc i;
        if ia_is_signer ia
           && negb (privilege ia_is_signer ic (index_in_caller ia) || bool_decide (key ∈ signers))
        then Err IE.PrivilegeEscalation
        else check_privileges tc ic signers rest
  end.

Section Calls.
Context `{Bincode UpgradeableLoaderState}.
Variable builtin_programs : list BuiltinProgram.
(** The loader of shared libraries, which the feature [remove_native_loader]
    switches off. *)
Variable native_loader : Entrypoint.

(** The accounts of the callee's program. *)
Definition find_program (tc : TransactionContext) (ic : InstructionContext) (program_id : Pubkey)
    : result InstructionError (list nat) :=
  in_caller ← ok_or (ic_find_index_of_account tc ic program_id) IE.MissingAccount;
  index ← try_borrow_account tc ic in_caller;
  account ← get_account_at_index tc index;
  if negb (acc_executable account) then Err IE.AccountNotExecutable
  else if N.eqb (acc_owner account) bpf_loader_upgradeable_id then
    s ← state account;
    match s with
    | ULS_Program programdata_address =>
        i ← ok_or (find_index_of_program_account tc programdata_address) IE.MissingAccount;
        Ok [i; index]
    | _ => Err IE.MissingAccount
    end
  else Ok [index].

Definition prepare_instruction (tc : TransactionContext) (ix : Instruction) (signers : list Pubkey)
    : result InstructionError (list InstructionAccount * list nat) :=
  ic ← get_current_instruction_context tc;
  '(dedup, indices) ← deduplicate tc ic (ix_accounts ix) ([], []);
  _ ← check_privileges tc ic signers dedup;
  ias ← foldr (fun i r => ia ← ok_or (dedup !! i) IE.NotEnoughAccountKeys; ias ← r; Ok (ia :: ias))
          (Ok []) indices;
  program_indices ← find_program tc ic (ix_program_id ix);
  Ok (ias, program_indices).

(** Sizes of the accounts before a native call. *)
Definition account_sizes (tc : TransactionContext) (ias : list InstructionAccount)
    : result InstructionError (list (nat * nat)) :=
  foldr (fun ia r =>
      a ← get_account_at_index tc (index_in_transaction ia); rest ← r;
      Ok ((index_in_transaction ia, length (acc_data a)) :: rest)) (Ok []) ias.

Fixpoint check_sizes (tc : TransactionContext) (sizes : list (nat * nat))
    : result InstructionError unit :=
  match sizes with
  | [] => Ok tt
  | (i, prev_size) :: rest =>
      a ← get_account_at_index tc i;
      if negb (prev_size =? length (acc_data a))%nat && negb (prev_size =? 0)%nat
      then Err IE.InvalidRealloc else check_sizes tc rest
  end.

(** A cross-program call: by [native_invoke], which also checks the sizes, or
    by the BPF loader. *)
Definition invoke_with
    (process : list Z -> list InstructionAccount -> list nat -> Runtime
               -> Runtime * Z * result InstructionError unit)
    (native : bool) (ix : Instruction) (signers : list Pubkey) : M unit :=
  '(ias, program_indices) ← lift (fun rt => prepare_instruction (rt_tc rt) ix signers);
  sizes ← lift (fun rt => if native then account_sizes (rt_tc rt) ias else Ok []);
  _ ← act (fun rt => let '(rt, _, r) := process (ix_data ix) ias program_indices rt in (rt, r));
  realloc ← gets (feature do_support_realloc);
  if (realloc : bool) then ret tt else lift (fun rt => check_sizes (rt_tc rt) sizes).

Definition process_executable_chain (invoke : bool -> Instruction -> list Pubkey -> M unit)
    (data : list Z) : M unit :=
  ic ← lift (fun rt => get_current_instruction_context (rt_tc rt));
  root ← lift (fun rt => map_err (fun _ => IE.UnsupportedProgramId) (try_borrow_account (rt_tc rt) ic 0));
  account ← lift (fun rt => get_account_at_index (rt_tc rt) root);
  key ← lift (fun rt => get_key_of_account_at_index (rt_tc rt) root);
  let '(first_instruction_account, builtin_id) :=
    if N.eqb (acc_owner account) native_loader_id then (1%nat, key) else (0%nat, acc_owner account) in
  match find (fun entry => N.eqb (bp_program_id entry) builtin_id) builtin_programs with
  | Some entry =>
      act (fun rt => run invoke (bp_process_instruction entry first_instruction_account data rt) rt)
  | None => act (fun rt =>
      let program_id := tc_account_keys (rt_tc rt) !! default 0%nat (last (program_accounts ic)) in
      if negb (feature remove_native_loader rt) && bool_decide (program_id = Some builtin_id)
      then run invoke (native_loader 0 data rt) rt
      else (rt, Err IE.UnsupportedProgramId))
  end.

(** [process_instruction] returns the consumed units also with an error.
    The fuel bounds the nesting of calls; the capacity of the stack is
    enough (see [process_instruction_fuel]). *)
Fixpoint process_instruction (fuel : nat) (data : list Z)
    (instruction_accounts : list InstructionAccount) (program_indices : list nat) (rt : Runtime)
    : Runtime * Z * result InstructionError unit :=
  match fuel with
  | O => (rt, 0, Err IE.CallDepth)
  | S fuel =>
  match (match last program_indices with
         | Some i => get_key_of_account_at_index (rt_tc rt) i
         | None => Ok native_loader_id
         end) with
  | Err e => (rt, 0, Err e)
  | Ok _ =>
  let nesting_level := stack_height (rt_tc rt) in
  let is_top_level_instruction := (nesting_level =? 0)%nat in
  let '(rt, r) := if is_top_level_instruction then (rt, Ok tt)
                  else verify_and_update instruction_accounts true rt in
  match r with
  | Err e => (rt, 0, Err e)
  | Ok _ =>
  let rt :=
    if negb is_top_level_instruction && negb (feature record_instruction_in_transaction_context_push rt)
    then set_tc rt (record_instruction (rt_tc rt)
           {| nesting_level := nesting_level; program_accounts := program_indices;
              instruction_accounts := instruction_accounts; instruction_data := data |})
    else rt in
  let '(rt, r) := push instruction_accounts program_indices data rt in
  let '(rt, units, r) :=
    match r with
    | Err e => (rt, 0, Err e)
    | Ok _ =>
        let pre_remaining_units := rt_remaining rt in
        let '(rt, r) := process_executable_chain (invoke_with (process_instruction fuel)) data rt in
        let units := sat_sub64 pre_remaining_units (rt_remaining rt) in
        let '(rt, r) :=
          match r with
          | Err e => (rt, Err e)
          | Ok _ => if is_top_level_instruction then verify instruction_accounts program_indices rt
                    else verify_and_update instruction_accounts false rt
          end in
        (rt, units, r)
    end in
  (pop rt, units, r)
  end
  end
  end.

(** ** Messages *)

(** The precompiles and their common feature. *)
Definition is_precompile (program_id : Pubkey) (fs : FeatureSet) : bool :=
  is_active fs prevent_calling_precompiles_as_programs
  && (N.eqb secp256k1_program_id program_id || N.eqb ed25519_program_id program_id).

Definition fixup_instructions_sysvar (instruction_index : nat) (tc : TransactionContext)
    : outcome (result TransactionError TransactionContext) :=
  match find_index_of_account tc sysvar_instructions_id with
  | None => Returns (Ok tc)
  | Some i =>
      match get_account_at_index tc i with
      | Err _ => Returns (Err TE.InvalidAccountIndex)
      | Ok a =>
          data ← store_current_index (acc_data a) instruction_index;
          Returns (Ok (with_accounts tc (<[i := set_data a data]> (tc_accounts tc))))
      end
  end.

Definition message_instruction_accounts (m : SanitizedMessage) (ix : CompiledInstruction)
    (program_indices : list nat) : outcome (list InstructionAccount) :=
  map_outcome (fun i =>
      is_writable ← message_is_writable m i;
      Returns {| index_in_transaction := i; index_in_caller := (length program_indices + i)%nat;
                 ia_is_signer := message_is_signer m i; ia_is_writable := is_writable |})
    (ci_accounts ix).

(** A precompile is only recorded in the trace. *)
Definition record_precompile (ias : list InstructionAccount) (program_indices : list nat)
    (data : list Z) : M unit :=
  act (fun rt =>
    match tc_push (rt_tc rt) program_indices ias data true with
    | (tc, Ok _) => (set_tc rt (tc_pop tc), Ok tt)
    | (tc, Err e) => (set_tc rt tc, Err e)
    end).

(** One iteration of the loop over the instructions. *)
Definition process_message_instruction (m : SanitizedMessage) (instruction_index : nat)
    (program_id : Pubkey) (ix : CompiledInstruction) (program_indices : list nat) (rt : Runtime)
    : outcome (Runtime * Z * result TransactionError unit) :=
  let precompile := is_precompile program_id (rt_feature_set rt) in
  let record := feature record_instruction_in_transaction_context_push rt in
  if precompile && negb record then Returns (rt, 0, Ok tt)
  else
    fixed ← fixup_instructions_sysvar instruction_index (rt_tc rt);
    match fixed with
    | Err e => Returns (rt, 0, Err e)
    | Ok tc =>
        ias ← message_instruction_accounts m ix program_indices;
        let '(rt, units, r) :=
          if precompile then
            let '(rt, r) := record_precompile ias program_indices (ci_data ix) (set_tc rt tc) in
            (rt, 0, r)
          else process_instruction (S (instruction_context_capacity tc)) (ci_data ix) ias
                 program_indices (set_tc rt tc) in
        Returns (rt, units, map_err (TE.InstructionErr (wrap8 (Z.of_nat instruction_index))) r)
    end.

Fixpoint process_message_loop (m : SanitizedMessage) (instruction_index : nat)
    (l : list (Pubkey * CompiledInstruction * list nat)) (rt : Runtime) (units : Z)
    : outcome (Runtime * Z * result TransactionError unit) :=
  match l with
  | [] => Returns (rt, units, Ok tt)
  | (program_id, ix, program_indices) :: rest =>
      '(rt, consumed, r) ←
        process_message_instruction m instruction_index program_id ix program_indices rt;
      let units := sat_add64 units consumed in
      match r with
      | Err e => Returns (rt, units, Err e)
      | Ok _ => process_message_loop m (S instruction_index) rest rt units
      end
  end.

(** The result carries the change of the accounts' data length. *)
Definition process_message (m : SanitizedMessage) (program_indices : list (list nat)) (rt : Runtime)
    : outcome (Runtime * Z * result TransactionError Z) :=
  instructions ← program_instructions_iter m;
  '(rt, units, r) ← process_message_loop m 0 (zip instructions program_indices) rt 0;
  Returns (rt, units, match r with Ok _ => Ok (adm_delta (rt_meter rt)) | Err e => Err e end).

End Calls.
