(* ===== verification/RuntimeSafety.v ===== *)
(** * The isolation of programs

    The theorems about Runtime: whatever the programs of a transaction do,
    the checks around instructions and cross-program calls conserve lamports,
    keep read-only and executable accounts as they were, and let only the
    owner of an account debit or modify it.  [run_inv] is the invariant that
    holds at every point of a top-level instruction between calls. *)

From S2P Require Import Prelude Keys Message Errors Float64 ComputeBudget Account Invocation Nonce SystemProgram SystemSafety RentCollector PreAccount Runtime.

(** ** Lemmas: the monad *)

Lemma M_bind_Ok {A B} (m : M A) (f : A -> M B) rt rt' b :
  (a ← m; f a) rt = (rt', Ok b) ->
  exists rt1 a, m rt = (rt1, Ok a) /\ f a rt1 = (rt', Ok b).
Proof. unfold mbind, M_bind. destruct (m rt) as [rt1 [a|e]] eqn:E; [eauto|done]. Qed.

Lemma lift_Ok {A} (f : Runtime -> result InstructionError A) rt rt' a :
  lift f rt = (rt', Ok a) -> rt' = rt /\ f rt = Ok a.
Proof. unfold lift. by intros [= -> ->]. Qed.

Lemma reject_if_Ok b e rt rt' x : reject_if b e rt = (rt', Ok x) -> rt' = rt /\ b = false.
Proof. unfold reject_if. by destruct b; intros [= ->]. Qed.

(** Follows a computation that ended in [Ok] back through its steps. *)
Ltac inv_M H :=
  cbn beta iota zeta in H;
  lazymatch type of H with
  | (_ ≫= _) _ = (_, Ok _) =>
      let rt := fresh "rt" in let a := fresh "a" in let Ha := fresh "Ha" in
      apply M_bind_Ok in H as (rt & a & Ha & H); inv_M Ha; inv_M H
  | lift _ _ = (_, Ok _) => apply lift_Ok in H as [-> H]
  | gets _ _ = (_, Ok _) => injection H as <- <-
  | modify _ _ = (_, Ok _) => injection H as <- <-
  | ret _ _ = (_, Ok _) => injection H as <- <-
  | reject_if _ _ _ = (_, Ok _) => apply reject_if_Ok in H as [-> H]
  | fail _ _ = (_, Ok _) => discriminate H
  | (match ?x with pair _ _ => _ end) _ = (_, Ok _) => destruct x eqn:?; inv_M H
  | _ => idtac
  end.

(** The indices that [visit_each_account_once] visits, in order. *)
Fixpoint visited (before : list nat) (l : list InstructionAccount) : list nat :=
  match l with
  | [] => []
  | ia :: rest =>
      if bool_decide (index_in_transaction ia ∈ before)
      then visited (index_in_transaction ia :: before) rest
      else index_in_transaction ia :: visited (index_in_transaction ia :: before) rest
  end.

(** An invariant of the closure is one of the visit; [done] are the visited
    indices. *)
Lemma visit_loop_inv {S} (I : list nat -> S -> Runtime -> Prop) (work : InstructionAccount -> S -> M S)
    (l : list InstructionAccount) :
  (forall done ia s rt rt' s', ia ∈ l -> I done s rt -> work ia s rt = (rt', Ok s') ->
     I (done ++ [index_in_transaction ia]) s' rt') ->
  forall before done s rt rt' s', I done s rt ->
  visit_loop work before l s rt = (rt', Ok s') -> I (done ++ visited before l) s' rt'.
Proof.
  induction l as [|ia l IH]; intros Hwork before don s rt rt' s' HI; cbn.
  { intros [= <- <-]. by rewrite app_nil_r. }
  intros Hv. apply M_bind_Ok in Hv as (rt1 & s1 & H1 & Hv).
  assert (forall done ia s rt rt' s', ia ∈ l -> I done s rt -> work ia s rt = (rt', Ok s') ->
     I (done ++ [index_in_transaction ia]) s' rt') as Hwork'.
  { intros. eapply Hwork; eauto. by apply list_elem_of_further. }
  case_bool_decide.
  - injection H1 as <- <-. by eapply IH.
  - rewrite cons_middle, app_assoc. eapply IH; [done| |done]. eapply Hwork; [apply list_elem_of_here|done|done].
Qed.

Lemma visited_spec l before i :
  i ∈ visited before l <-> (i ∉ before) /\ exists ia, ia ∈ l /\ index_in_transaction ia = i.
Proof.
  revert before. induction l as [|ia l IH]; intros before; cbn.
  { split; [by intros ?%not_elem_of_nil|]. intros [_ (ia & []%not_elem_of_nil & _)]. }
  case_bool_decide as Hb; rewrite ?elem_of_cons, IH, ?not_elem_of_cons.
  - split.
    + intros [[Hne Hi] (ia' & Hin & <-)]. split; [done|]. exists ia'. rewrite elem_of_cons. auto.
    + intros [Hi (ia' & [->|Hin]%elem_of_cons & <-)]; [done|]. split; [|eauto]. split; [by intros E; rewrite E in Hi|done].
  - split.
    + intros [->|[[Hne Hi] (ia' & Hin & <-)]]; split; try done; [exists ia|exists ia']; rewrite elem_of_cons; auto.
    + intros [Hi (ia' & [->|Hin]%elem_of_cons & <-)]; [by left|].
      destruct (decide (index_in_transaction ia' = index_in_transaction ia)) as [->|]; [by left|]. right. eauto.
Qed.

Lemma visited_NoDup l before : NoDup (visited before l).
Proof.
  revert before. induction l as [|ia l IH]; intros before; cbn; [constructor|].
  case_bool_decide; [done|]. constructor; [|done]. rewrite visited_spec. intros [Hn _].
  apply Hn, list_elem_of_here.
Qed.

(** ** Lemmas: sums of lamports *)

Fixpoint lamports_of (accounts : list AccountSharedData) : Z :=
  match accounts with [] => 0 | a :: rest => acc_lamports a + lamports_of rest end.

Definition pre_lamports (pre : list PreAccount) : Z := lamports_of (map pa_account pre).

(** The lamports at the given indices. *)
Fixpoint lamports_at (indices : list nat) (accounts : list AccountSharedData) : Z :=
  match indices with
  | [] => 0
  | i :: rest => default 0 (acc_lamports <$> accounts !! i) + lamports_at rest accounts
  end.

Lemma lamports_insert i a b accounts :
  accounts !! i = Some a ->
  lamports_of (<[i := b]> accounts) = lamports_of accounts + acc_lamports b - acc_lamports a.
Proof.
  revert i. induction accounts as [|c l IH]; intros [|i]; simpl; try done.
  - intros [= ->]. lia.
  - intros Hi. rewrite (IH i Hi). lia.
Qed.

Lemma lamports_at_insert_ne indices i b accounts :
  i ∉ indices -> lamports_at indices (<[i := b]> accounts) = lamports_at indices accounts.
Proof.
  induction indices as [|j l IH]; cbn; [done|]. intros [Hne Hl]%not_elem_of_cons.
  by rewrite IH, list_lookup_insert_ne by done.
Qed.

(** Accounts that agree outside of some indices differ in total by the
    difference there. *)
Lemma lamports_frame indices a b :
  NoDup indices -> length a = length b -> (forall i, i ∉ indices -> a !! i = b !! i) ->
  Forall (fun i => i < length b)%nat indices ->
  lamports_of a - lamports_of b = lamports_at indices a - lamports_at indices b.
Proof.
  revert b. induction indices as [|i l IH]; intros b Hnd Hlen Heq Hin; cbn.
  { assert (a = b) as -> by (apply list_eq; intros i; apply Heq, not_elem_of_nil). lia. }
  apply NoDup_cons in Hnd as [Hi Hnd]. apply Forall_cons in Hin as [Hib Hin].
  destruct (lookup_lt_is_Some_2 b i Hib) as [bi Hbi].
  destruct (lookup_lt_is_Some_2 a i ltac:(lia)) as [ai Hai].
  specialize (IH (<[i := ai]> b) Hnd ltac:(by rewrite length_insert)).
  rewrite (lamports_insert i bi) in IH by done. rewrite lamports_at_insert_ne in IH by done.
  rewrite Hai, Hbi. cbn. enough (lamports_of a - (lamports_of b + acc_lamports ai - acc_lamports bi)
    = lamports_at l a - lamports_at l b) by lia.
  apply IH.
  - intros j Hj. destruct (decide (j = i)) as [->|].
    + by rewrite list_lookup_insert_eq.
    + rewrite list_lookup_insert_ne by done. apply Heq. by apply not_elem_of_cons.
  - eapply Forall_impl; [done|]. intros j Hj. cbn. by rewrite length_insert.
Qed.

(** ** The invariant *)

(** The key of the program that an instruction runs. *)
Definition program_of (keys : list Pubkey) (ic : InstructionContext) : option Pubkey :=
  i ← result_ok (get_index_in_transaction ic (length (program_accounts ic) - 1));
  keys !! i.

(** The programs that the recorded instructions run. *)
Definition invoked (keys : list Pubkey) (calls : list InstructionContext) (program_id : Pubkey) : Prop :=
  exists ic, ic ∈ calls /\ program_of keys ic = Some program_id.

Definition writable_in (ias : list InstructionAccount) (i : nat) : Prop :=
  exists ia, ia ∈ ias /\ index_in_transaction ia = i /\ ia_is_writable ia = true.

(** What may happen to an account [a0] during an instruction that names it
    as writable ([w]) and runs the programs [ran]. *)
Record evolved (w : Prop) (ran : Pubkey -> Prop) (a0 a : AccountSharedData) : Prop := {
  ev_rent_epoch : acc_rent_epoch a = acc_rent_epoch a0;
  ev_frozen : ~ w \/ acc_executable a0 = true -> a = a0;
  ev_foreign : ran (acc_owner a0)
    \/ (acc_owner a = acc_owner a0 /\ acc_data a = acc_data a0
        /\ acc_executable a = acc_executable a0 /\ acc_lamports a0 <= acc_lamports a);
}.

Lemma evolved_weaken (w w' : Prop) (ran ran' : Pubkey -> Prop) a0 a :
  (w -> w') -> (forall p, ran p -> ran' p) -> evolved w ran a0 a -> evolved w' ran' a0 a.
Proof. intros Hw Hr []. split; [done| |]; [|destruct ev_foreign0; auto]. intros [?|?]; apply ev_frozen0; auto. Qed.

Lemma evolved_refl w ran a : evolved w ran a a.
Proof. split; [done|done|right]. split_and!; try done; lia. Qed.

(** The instruction accounts of a call stay within those of the top level. *)
Definition bounded (ias : list InstructionAccount) (ic : InstructionContext) : Prop :=
  Forall (fun ia => index_in_transaction ia ∈ visited [] ias
    /\ (ia_is_writable ia = true -> writable_in ias (index_in_transaction ia)))
    (instruction_accounts ic).

(** The calls recorded for the current top-level instruction. *)
Definition calls (tc : TransactionContext) : list InstructionContext :=
  default [] (last (instruction_trace tc)).

Section Invariant.
Variable keys : list Pubkey.
Variable accounts0 : list AccountSharedData.
Variable ias : list InstructionAccount.
(** The trace of the earlier top-level instructions. *)
Variable trace0 : list (list InstructionContext).

(** Lamports are 64-bit. *)
Definition typed (accounts : list AccountSharedData) : Prop :=
  Forall (fun a => u64 (acc_lamports a)) accounts.

Definition traced (tc : TransactionContext) : Prop := instruction_trace tc = trace0 ++ [calls tc].

Definition pre_ok (ran : Pubkey -> Prop) (i : nat) (pre : PreAccount) : Prop :=
  keys !! i = Some (pa_key pre)
  /\ exists a0, accounts0 !! i = Some a0 /\ evolved (writable_in ias i) ran a0 (pa_account pre).

Record run_inv (rt : Runtime) : Prop := {
  ri_keys : tc_account_keys (rt_tc rt) = keys;
  ri_length : length (tc_accounts (rt_tc rt)) = length accounts0;
  ri_frame : forall i, i ∉ visited [] ias -> tc_accounts (rt_tc rt) !! i = accounts0 !! i;
  ri_pre : Forall2 (pre_ok (invoked keys (calls (rt_tc rt)))) (visited [] ias) (rt_pre_accounts rt);
  ri_sum : pre_lamports (rt_pre_accounts rt) = lamports_at (visited [] ias) accounts0;
  ri_trace : traced (rt_tc rt);
  ri_base : forall i, instruction_stack (rt_tc rt) !! 0%nat = Some i ->
    i = length trace0;
  ri_stack : forall level i, instruction_stack (rt_tc rt) !! level = Some i ->
    exists ic, calls (rt_tc rt) !! (match level with O => O | S _ => i end) = Some ic
      /\ bounded ias ic;
  ri_typed : typed accounts0 -> typed (tc_accounts (rt_tc rt));
}.

(** ** Lemmas: the checks *)

Lemma evolved_step w ran a0 a b program_id is_writable :
  evolved w ran a0 a -> change_allowed program_id is_writable a b ->
  (is_writable = true -> w) -> ran program_id -> evolved w ran a0 b.
Proof.
  intros [He Hf Ho] [Hr Hx Hforeign _ Hepoch] Hw Hran. split; [congruence| |].
  - intros Hfz. specialize (Hf Hfz). subst a. destruct Hfz as [Hnw|Hexec]; [|auto].
    apply Hr. destruct is_writable; [exfalso; auto|done].
  - destruct Ho as [?|(Howner & Hdata & Hex & Hl)]; [by left|].
    destruct (decide (program_id = acc_owner a)) as [->|Hne].
    + left. by rewrite <- Howner.
    + right. destruct (Hforeign Hne) as (-> & -> & -> & ?). split_and!; try done; lia.
Qed.

Lemma adjust_meter_Ok delta rt rt' x :
  adjust_meter delta rt = (rt', Ok x) ->
  rt_tc rt' = rt_tc rt /\ rt_pre_accounts rt' = rt_pre_accounts rt.
Proof.
  unfold adjust_meter. intros H. apply M_bind_Ok in H as (rt1 & cap & Hc & H). injection Hc as <- <-.
  destruct (feature _ _); inv_M H; done.
Qed.

(** Updated or not, a checked pre-account holds the account. *)
Lemma updated_pre_account program_id w pre account :
  change_allowed program_id w (pa_account pre) account ->
  let pre' := if w && negb (acc_executable (pa_account pre))
              then pre_account_update pre account else pre in
  pa_key pre' = pa_key pre /\ pa_account pre' = account.
Proof.
  intros [Hr Hx _ _ He]. destruct w; cbn.
  - destruct (acc_executable (pa_account pre)); cbn; [by rewrite Hx|]. split; [done|].
    rewrite <- He. by destruct account.
  - by rewrite Hr.
Qed.

Lemma add_lamports_Ok sum a sum' : add_lamports sum a = Ok sum' -> sum' = sum + acc_lamports a.
Proof. unfold add_lamports, checked_add128. destruct (_ <=? _); cbn; congruence. Qed.

(** What one step of [verify_and_update] does: the account differs from its
    pre-account by an allowed change and becomes the new pre-account. *)
Lemma verify_and_update_account_Ok program_id ic before ia pre_sum post_sum rt rt' s' :
  verify_and_update_account program_id ic before ia (pre_sum, post_sum) rt = (rt', Ok s') ->
  exists i key pre pre' account,
    tc_account_keys (rt_tc rt) !! index_in_transaction ia = Some key
    /\ tc_accounts (rt_tc rt) !! index_in_transaction ia = Some account
    /\ rt_pre_accounts rt !! i = Some pre /\ pa_key pre = key
    /\ change_allowed program_id
         (if before then privilege ia_is_writable ic (index_in_caller ia) else ia_is_writable ia)
         (pa_account pre) account
    /\ pa_key pre' = key /\ pa_account pre' = account
    /\ rt_pre_accounts rt' = <[i := pre']> (rt_pre_accounts rt)
    /\ rt_tc rt' = rt_tc rt
    /\ s' = (pre_sum + acc_lamports (pa_account pre), post_sum + acc_lamports account).
Proof.
  unfold verify_and_update_account. intros H. inv_M H.
  assert (rt0 = rt /\ a2 = (if before then privilege ia_is_writable ic (index_in_caller ia)
    else ia_is_writable ia)) as [-> ->] by (destruct before; inv_M Ha2; done).
  apply ok_or_Ok in Ha0, Ha1, Ha3. apply list_find_Some in Ha3 as (Hn & Hk & _). destruct a4.
  apply pre_account_verify_allowed in Ha4. apply add_lamports_Ok in Ha5 as ->, Ha6 as ->.
  apply adjust_meter_Ok in Ha7 as [Htc Hpre].
  destruct (updated_pre_account _ _ _ _ Ha4) as [Hk' Ha'].
  cbn in Htc, Hpre.
  match type of Hpre with _ = <[n := ?q]> _ => exists n, a0, p, q, a1 end.
  split_and!; try done. by rewrite Hk'.
Qed.

(** The accounts of the instruction are the first with their key. *)
Hypothesis Hfirst : forall i, i ∈ visited [] ias ->
  exists key, keys !! i = Some key /\ position key keys = Some i.

Lemma visited_same_key i j key :
  i ∈ visited [] ias -> j ∈ visited [] ias -> keys !! i = Some key -> keys !! j = Some key -> i = j.
Proof.
  intros Hi Hj Hki Hkj. destruct (Hfirst i Hi) as (k & ? & ?), (Hfirst j Hj) as (k' & ? & ?). congruence.
Qed.

Lemma calls_lookup tc : traced tc -> instruction_trace tc !! length trace0 = Some (calls tc).
Proof. unfold traced. intros ->. by apply list_lookup_middle. Qed.

(** The context of the current call. *)
Lemma context_on_top rt st i ic :
  run_inv rt -> instruction_stack (rt_tc rt) = st ++ [i] ->
  calls (rt_tc rt) !! (match st with [] => O | _ => i end) = Some ic ->
  get_current_instruction_context (rt_tc rt) = Ok ic.
Proof.
  intros Hinv Hst Hic. unfold get_current_instruction_context, get_instruction_context_at, stack_height.
  assert (exists b, instruction_stack (rt_tc rt) !! 0%nat = Some b) as [b Hb]
    by (rewrite Hst; destruct st; cbn; eauto).
  rewrite Hb, (ri_base _ Hinv b Hb). cbn [ok_or mbind result_bind]. rewrite Hst, length_app. cbn [length].
  replace (length st + 1 =? 0)%nat with false by (symmetry; apply Nat.eqb_neq; lia).
  replace (length st + 1 - 1)%nat with (length st) by lia.
  destruct st as [|j st]; cbn [length].
  - change (0 =? 0)%nat with true. cbn [mbind result_bind]. rewrite calls_lookup by apply Hinv.
    cbn [mbind option_bind]. by rewrite Hic.
  - change (S (length st) =? 0)%nat with false. change (S (length st)) with (length (j :: st)).
    rewrite list_lookup_middle by done. cbn [ok_or mbind result_bind].
    rewrite calls_lookup by apply Hinv. cbn [mbind option_bind]. by rewrite Hic.
Qed.

Lemma current_context rt ic :
  run_inv rt -> get_current_instruction_context (rt_tc rt) = Ok ic ->
  exists st i, instruction_stack (rt_tc rt) = st ++ [i]
    /\ calls (rt_tc rt) !! (match st with [] => O | _ => i end) = Some ic /\ bounded ias ic.
Proof.
  intros Hinv Hic. destruct (instruction_stack (rt_tc rt)) as [|i st _] eqn:E using rev_ind.
  { unfold get_current_instruction_context, stack_height in Hic. by rewrite E in Hic. }
  exists st, i. split; [done|].
  destruct (ri_stack _ Hinv (length st) i) as (ic0 & Hic0 & Hb); [rewrite E; by apply list_lookup_middle|].
  assert (calls (rt_tc rt) !! (match st with [] => O | _ => i end) = Some ic0) as H0 by (by destruct st).
  pose proof (context_on_top rt st i ic0 Hinv E H0). split; congruence.
Qed.

Lemma current_called rt ic :
  run_inv rt -> get_current_instruction_context (rt_tc rt) = Ok ic -> ic ∈ calls (rt_tc rt).
Proof.
  intros Hinv Hic. apply current_context in Hic as (st & i & _ & Hi & _); [|done].
  by eapply list_elem_of_lookup_2.
Qed.

Lemma program_key tc ic program_id :
  tc_account_keys tc = keys -> get_program_key tc ic = Ok program_id ->
  program_of keys ic = Some program_id.
Proof.
  intros Hk H. unfold get_program_key in H. inv_Ok H. unfold program_of.
  apply ok_or_Ok in H. rewrite Ha. cbn. by rewrite <- Hk.
Qed.

Lemma pre_update program_id w ran visited_pre i idx pre pre' account key :
  Forall2 (pre_ok ran) (visited [] ias) visited_pre ->
  visited_pre !! i = Some pre -> pa_key pre = key -> keys !! idx = Some key ->
  idx ∈ visited [] ias -> (w = true -> writable_in ias idx) -> ran program_id ->
  change_allowed program_id w (pa_account pre) account ->
  pa_key pre' = key -> pa_account pre' = account ->
  Forall2 (pre_ok ran) (visited [] ias) (<[i := pre']> visited_pre)
  /\ pre_lamports (<[i := pre']> visited_pre)
     = pre_lamports visited_pre + acc_lamports account - acc_lamports (pa_account pre).
Proof.
  intros Hpre Hi Hk Hidx Hvis Hw Hran Hch Hk' Ha'. split.
  - destruct (Forall2_lookup_r _ _ _ _ _ Hpre Hi) as (j & Hj & Hkj & a0 & Ha0 & Hev).
    assert (j = idx) as -> by (eapply visited_same_key; [by eapply list_elem_of_lookup_2|done|exact Hkj|congruence]).
    rewrite <- (list_insert_id _ _ _ Hj). apply Forall2_insert; [done|].
    split; [congruence|]. exists a0. split; [done|]. rewrite Ha'. by eapply evolved_step.
  - unfold pre_lamports. rewrite list_fmap_insert. erewrite lamports_insert; [by rewrite Ha'|].
    by rewrite list_lookup_fmap, Hi.
Qed.

Lemma run_inv_pre rt rt' :
  run_inv rt -> rt_tc rt' = rt_tc rt ->
  Forall2 (pre_ok (invoked keys (calls (rt_tc rt)))) (visited [] ias) (rt_pre_accounts rt') ->
  pre_lamports (rt_pre_accounts rt') = pre_lamports (rt_pre_accounts rt) -> run_inv rt'.
Proof. intros [] Htc Hpre Hsum. split; rewrite ?Htc; try done. by rewrite Hsum. Qed.

(** The accounts of a call that the checks accept: named at the top level,
    and writable only if they are writable there. *)
Definition callable (before : bool) (ic : InstructionContext) (l : list InstructionAccount) : Prop :=
  Forall (fun ia => index_in_transaction ia ∈ visited [] ias
    /\ ((if before then privilege ia_is_writable ic (index_in_caller ia) else ia_is_writable ia) = true
        -> writable_in ias (index_in_transaction ia))) l.

Lemma verify_and_update_inv before l rt rt' ic x :
  run_inv rt -> get_current_instruction_context (rt_tc rt) = Ok ic -> callable before ic l ->
  verify_and_update l before rt = (rt', Ok x) -> run_inv rt' /\ rt_tc rt' = rt_tc rt.
Proof.
  intros Hinv Hic Hcall Hv. unfold verify_and_update in Hv. inv_M Hv.
  rewrite Hic in Ha. injection Ha as <-. apply map_err_Ok, program_key in Ha0; [|apply Hinv].
  assert (invoked keys (calls (rt_tc rt)) a0) as Hran.
  { exists ic. split; [|done]. by apply current_called. }
  apply (visit_loop_inv (fun _ s rt1 => rt_tc rt1 = rt_tc rt
    /\ Forall2 (pre_ok (invoked keys (calls (rt_tc rt)))) (visited [] ias) (rt_pre_accounts rt1)
    /\ pre_lamports (rt_pre_accounts rt1) - s.2 = pre_lamports (rt_pre_accounts rt) - s.1)
    _ l) with (done := []) in Ha1 as (Htc & Hpre & Hsum); cbn in *.
  - split; [|done]. apply negb_false_iff, Z.eqb_eq in Hv. apply (run_inv_pre rt); try done. lia.
  - clear -Hinv Hcall Hran Hfirst. intros _ ia [s1 s2] rt1 rt2 s' Hin (Htc & Hpre & Hsum) Hw.
    apply verify_and_update_account_Ok in Hw as (i & key & pre & pre' & account & Hkey & _ & Hi & Hk & Hch & Hk' & Ha' & Hpre' & Htc' & ->).
    unfold callable in Hcall. rewrite Forall_forall in Hcall. destruct (Hcall ia Hin) as [Hvis Hwr].
    rewrite Htc, (ri_keys _ Hinv) in Hkey. rewrite Hpre', Htc'.
    destruct (pre_update _ _ _ _ i (index_in_transaction ia) pre pre' account key Hpre Hi Hk Hkey Hvis Hwr Hran Hch Hk' Ha')
      as [Hpre1 Hsum1].
    split_and!; [done|done|]. rewrite Hsum1. cbn in *. lia.
  - split_and!; [done|apply Hinv|lia].
Qed.

(** ** Lemmas: calls *)

Lemma calls_record tc ic :
  traced tc -> calls (record_instruction tc ic) = calls tc ++ [ic] /\ traced (record_instruction tc ic).
Proof.
  unfold traced. intros Ht. assert (calls (record_instruction tc ic) = calls tc ++ [ic]) as Hc.
  { unfold record_instruction. rewrite Ht, last_snoc. unfold calls at 1. cbn. by rewrite last_snoc. }
  split; [done|]. rewrite Hc. unfold record_instruction. rewrite Ht, last_snoc. cbn.
  rewrite length_app. cbn. replace (length trace0 + 1 - 1)%nat with (length trace0) by lia.
  by rewrite take_app_length.
Qed.

Lemma invoked_app cs cs' p : invoked keys cs p -> invoked keys (cs ++ cs') p.
Proof. intros (ic & Hic & Hp). exists ic. split; [|done]. apply elem_of_app. by left. Qed.

(** More calls may be recorded, and the stack may grow by a recorded one. *)
Lemma run_inv_extend rt tc cs stack :
  run_inv rt -> tc_account_keys tc = keys -> tc_accounts tc = tc_accounts (rt_tc rt) ->
  traced tc -> calls tc = calls (rt_tc rt) ++ cs ->
  instruction_stack tc = instruction_stack (rt_tc rt) ++ stack ->
  (stack <> [] -> instruction_stack (rt_tc rt) <> []) ->
  Forall (fun i => exists ic, calls tc !! i = Some ic /\ bounded ias ic) stack ->
  run_inv (set_tc rt tc).
Proof.
  intros [] Hk Ha Hlen Hcalls Hstack Hne Hnew. split; cbn; rewrite ?Hk, ?Ha; try done.
  - eapply Forall2_impl; [exact ri_pre0|]. intros i pre (? & a0 & ? & Hev). split; [done|].
    exists a0. split; [done|]. eapply evolved_weaken; [done| |done]. intros q. rewrite Hcalls. apply invoked_app.
  - intros i. rewrite Hstack. destruct stack; [rewrite app_nil_r; auto|].
    rewrite lookup_app_l; [auto|]. destruct (instruction_stack (rt_tc rt)); [by destruct Hne|]. cbn. lia.
  - intros level i. rewrite Hstack. intros [Hl|[Hge Hl]]%lookup_app_Some.
    + destruct (ri_stack0 _ _ Hl) as (ic & Hic & Hb). exists ic. split; [|done].
      rewrite Hcalls. by apply lookup_app_l_Some.
    + rewrite Forall_forall in Hnew. apply list_elem_of_lookup_2 in Hl as Hin.
      destruct level as [|level]; [|by apply Hnew]. exfalso.
      destruct (instruction_stack (rt_tc rt)); [|cbn in Hge; lia]. apply Hne; [|done].
      intros ->. by apply not_elem_of_nil in Hin.
Qed.

Lemma push_nested_Ok l pis data rt rt' x :
  stack_height (rt_tc rt) <> 0%nat -> push l pis data rt = (rt', Ok x) ->
  exists tc, tc_push (rt_tc rt) pis l data (feature record_instruction_in_transaction_context_push rt)
    = (tc, Ok tt) /\ rt' = set_tc rt tc.
Proof.
  intros Hh H. unfold push in H. inv_M H.
  apply Nat.eqb_neq in Hh. rewrite Hh in *. unfold check_reentrancy in Ha2. inv_M Ha2.
  unfold act in H. destruct (tc_push _ _ _ _ _) as [tc r]. injection H as <- ->. destruct x. eauto.
Qed.

Lemma tc_push_nested tc pis l data record tc' x :
  stack_height tc <> 0%nat -> traced tc -> tc_push tc pis l data record = (tc', Ok x) ->
  tc_account_keys tc' = tc_account_keys tc /\ tc_accounts tc' = tc_accounts tc
  /\ traced tc'
  /\ exists cs, calls tc' = calls tc ++ cs
     /\ cs = (if record then [{| nesting_level := stack_height tc; program_accounts := pis;
                                instruction_accounts := l; instruction_data := data |}] else [])
     /\ instruction_stack tc' = instruction_stack tc ++ [(length (calls tc ++ cs) - 1)%nat].
Proof.
  intros Hh Ht. unfold tc_push. apply Nat.eqb_neq in Hh. rewrite Hh.
  destruct (last (instruction_trace tc)) as [records|] eqn:E; [|done].
  assert (calls tc = records) as Hc by (unfold calls; by rewrite E).
  destruct record; destruct (_ <=? _)%nat; try done; intros [= <- _]; cbn.
  - destruct (calls_record tc {| nesting_level := stack_height tc; program_accounts := pis;
      instruction_accounts := l; instruction_data := data |} Ht) as [Hr Hl].
    split_and!; [unfold record_instruction; by rewrite E..|exact Hl|].
    eexists; split_and!; [exact Hr|done|]. unfold record_instruction. rewrite E, Hc, length_app. cbn.
    do 2 f_equal. lia.
  - split_and!; try done. exists []. rewrite !app_nil_r, Hc. done.
Qed.

(** A nested call: the context is recorded and becomes the current one. *)
Lemma call_frame rt rt2 l pis data x :
  let new := {| nesting_level := stack_height (rt_tc rt); program_accounts := pis;
                instruction_accounts := l; instruction_data := data |} in
  run_inv rt -> stack_height (rt_tc rt) <> 0%nat ->
  push l pis data
    (if negb (feature record_instruction_in_transaction_context_push rt)
     then set_tc rt (record_instruction (rt_tc rt) new) else rt) = (rt2, Ok x) ->
  bounded ias new ->
  run_inv rt2 /\ calls (rt_tc rt2) = calls (rt_tc rt) ++ [new]
  /\ instruction_stack (rt_tc rt2) = instruction_stack (rt_tc rt) ++ [length (calls (rt_tc rt))]
  /\ get_current_instruction_context (rt_tc rt2) = Ok new.
Proof.
  intros new Hinv Hh Hp Hb. pose proof (ri_trace _ Hinv) as Ht.
  assert (exists tc, rt2 = set_tc rt tc /\ tc_account_keys tc = keys
    /\ tc_accounts tc = tc_accounts (rt_tc rt)
    /\ traced tc
    /\ calls tc = calls (rt_tc rt) ++ [new]
    /\ instruction_stack tc = instruction_stack (rt_tc rt) ++ [length (calls (rt_tc rt))])
    as (tc & -> & Hk & Ha & Hl & Hc & Hs).
  { destruct (feature _ rt) eqn:Ef; cbn [negb] in Hp.
    - apply push_nested_Ok in Hp as (tc & Hp & ->); [|done]. rewrite Ef in Hp.
      apply tc_push_nested in Hp as (Hk & Ha & Hl & cs & Hc & -> & Hs); try done.
      exists tc. rewrite Hk, (ri_keys _ Hinv). rewrite Hs, length_app. cbn.
      replace (length (calls (rt_tc rt)) + 1 - 1)%nat with (length (calls (rt_tc rt))) by lia. done.
    - destruct (calls_record (rt_tc rt) new Ht) as [Hcr Hlr].
      apply push_nested_Ok in Hp as (tc & Hp & ->).
      2: { cbn. unfold record_instruction, stack_height. by destruct (last _). }
      cbn [rt_tc set_tc] in Hp. change (feature _ (set_tc rt _)) with (feature record_instruction_in_transaction_context_push rt) in Hp.
      rewrite Ef in Hp. apply tc_push_nested in Hp as (Hk & Ha & Hl & cs & Hc & -> & Hs); try done.
      2: { unfold record_instruction, stack_height. by destruct (last _). }
      exists tc. rewrite app_nil_r in *. rewrite Hk, Ha, Hc, Hcr, Hs.
      rewrite Hcr, length_app. cbn.
      replace (length (calls (rt_tc rt)) + 1 - 1)%nat with (length (calls (rt_tc rt))) by lia.
      unfold record_instruction. destruct (last _); cbn; rewrite (ri_keys _ Hinv); done. }
  assert (calls tc !! length (calls (rt_tc rt)) = Some new) as Hnew
    by (rewrite Hc; by apply list_lookup_middle).
  assert (instruction_stack (rt_tc rt) <> []) as Hne by (intros E; unfold stack_height in Hh; by rewrite E in Hh).
  assert (run_inv (set_tc rt tc)) as Hinv2.
  { eapply run_inv_extend; [done..|]. apply Forall_singleton. eauto. }
  split_and!; [done|done|done|]. eapply context_on_top; [done|exact Hs|]. cbn.
  by destruct (instruction_stack (rt_tc rt)).
Qed.

(** Between two points of the same call the stack is the same, and the
    recorded calls have only become more. *)
Definition extends (rt rt' : Runtime) : Prop :=
  instruction_stack (rt_tc rt') = instruction_stack (rt_tc rt)
  /\ exists cs, calls (rt_tc rt') = calls (rt_tc rt) ++ cs.

Lemma extends_refl rt : extends rt rt.
Proof. split; [done|]. exists []. by rewrite app_nil_r. Qed.

Lemma extends_trans rt1 rt2 rt3 : extends rt1 rt2 -> extends rt2 rt3 -> extends rt1 rt3.
Proof.
  intros [H1 [cs1 Hc1]] [H2 [cs2 Hc2]]. split; [congruence|]. exists (cs1 ++ cs2).
  by rewrite Hc2, Hc1, app_assoc.
Qed.

Lemma extends_current rt rt' ic :
  run_inv rt -> run_inv rt' -> extends rt rt' ->
  get_current_instruction_context (rt_tc rt) = Ok ic ->
  get_current_instruction_context (rt_tc rt') = Ok ic.
Proof.
  intros Hinv Hinv' [Hs [cs Hc]] (st & i & Hst & Hi & _)%current_context; [|done].
  eapply context_on_top; [done|by rewrite Hs|]. rewrite Hc. by apply lookup_app_l_Some.
Qed.

(** Writes of the program touch only accounts of its instruction. *)
Lemma write_account_frame ic acc w i :
  bounded ias ic -> length (write_account ic acc w) = length acc
  /\ (i ∉ visited [] ias -> write_account ic acc w !! i = acc !! i).
Proof.
  intros Hb. unfold write_account. destruct (instruction_accounts ic !! w.1) as [ia|] eqn:E; [|done].
  rewrite length_insert. split; [done|]. intros Hi.
  unfold bounded in Hb. rewrite Forall_forall in Hb.
  destruct (Hb ia (list_elem_of_lookup_2 _ _ _ E)) as [Hv _].
  rewrite list_lookup_insert_ne; [done|]. intros E'. apply Hi. by rewrite <- E'.
Qed.

Lemma apply_writes_inv rt ic writes remaining :
  run_inv rt -> get_current_instruction_context (rt_tc rt) = Ok ic ->
  run_inv (apply_writes writes remaining rt) /\ extends rt (apply_writes writes remaining rt).
Proof.
  intros Hinv Hic. unfold apply_writes. cbn [rt_tc set_budget].
  rewrite Hic. destruct (current_context _ _ Hinv Hic) as (_ & _ & _ & _ & Hb).
  set (accs := fold_left _ _ _).
  assert (typed accounts0 -> typed accs) as Htyped.
  { intros H0. apply (ri_typed _ Hinv) in H0. unfold accs. clear -H0. revert H0.
    generalize (tc_accounts (rt_tc rt)) as acc.
    induction writes as [|w writes IH]; intros acc H0; cbn; [done|]. apply IH. unfold write_account.
    destruct (instruction_accounts ic !! w.1); [|done]. apply Forall_insert; [done|apply wrap64_bound]. }
  assert (length accs = length accounts0
    /\ forall i, i ∉ visited [] ias -> accs !! i = accounts0 !! i) as [Hlen Hframe].
  { clear Htyped. unfold accs. pose proof (ri_length _ Hinv) as Hl. pose proof (ri_frame _ Hinv) as Hf.
    clear Hic accs. revert Hl Hf. generalize (tc_accounts (rt_tc rt)) as acc.
    induction writes as [|w writes IH]; intros acc Hl Hf; cbn; [done|]. apply IH.
    - by rewrite (proj1 (write_account_frame _ acc w 0%nat Hb)).
    - intros i Hi. rewrite (proj2 (write_account_frame _ acc w i Hb)); auto. }
  split; [|split; [done|]; exists []; by rewrite app_nil_r].
  destruct Hinv. split; try done.
Qed.

(** An account of a callee is one of its caller. *)
Definition from_caller (ic : InstructionContext) (ia : InstructionAccount) : Prop :=
  exists j c, index_in_caller ia = (j + length (program_accounts ic))%nat
    /\ instruction_accounts ic !! j = Some c /\ index_in_transaction c = index_in_transaction ia.

Lemma deduplicate_from_caller tc ic metas dedup indices dedup' indices' :
  tc_account_keys tc = keys -> bounded ias ic -> Forall (from_caller ic) dedup ->
  deduplicate tc ic metas (dedup, indices) = Ok (dedup', indices') -> Forall (from_caller ic) dedup'.
Proof.
  intros Hk Hb. revert dedup indices. induction metas as [|meta metas IH]; intros dedup indices Hd H; cbn in H.
  { by injection H as -> _. }
  apply result_bind_Ok in H as (index & Hidx & H). apply ok_or_Ok in Hidx.
  destruct (list_find _ dedup) as [[i ia]|] eqn:Ef.
  - apply list_find_Some in Ef as (Hi & Hia & _). eapply IH; [|exact H].
    apply Forall_insert; [done|]. rewrite Forall_lookup in Hd. exact (Hd i ia Hi).
  - apply result_bind_Ok in H as (caller & Hc & H). apply ok_or_Ok in Hc. eapply IH; [|exact H].
    apply Forall_app. split; [done|]. apply Forall_singleton.
    unfold ic_find_index_of_account in Hc. apply option_bind_Some in Hc as ([j c] & Hf & Hc). injection Hc as <-.
    apply list_find_Some in Hf as (Hj & Hkey & _). exists j, c. cbn. split_and!; try done.
    unfold bounded in Hb. rewrite Forall_lookup in Hb. destruct (Hb j c Hj) as [Hvis _].
    destruct (Hfirst _ Hvis) as (key & Hkc & Hpos). unfold find_index_of_account in Hidx.
    rewrite Hk in *. congruence.
Qed.

Lemma check_privileges_writable tc ic signers dedup x :
  check_privileges tc ic signers dedup = Ok x ->
  Forall (fun ia => ia_is_writable ia = true -> privilege ia_is_writable ic (index_in_caller ia) = true) dedup.
Proof.
  induction dedup as [|ia dedup IH]; cbn; [constructor|]. intros H. inv_Ok H.
  constructor; [|auto]. intros Hw. rewrite Hw in *. cbn in *. by apply negb_false_iff.
Qed.

Lemma prepare_instruction_callable `{Bincode UpgradeableLoaderState} tc ic ix signers l pis :
  tc_account_keys tc = keys -> get_current_instruction_context tc = Ok ic -> bounded ias ic ->
  prepare_instruction tc ix signers = Ok (l, pis) -> callable true ic l /\ callable false ic l.
Proof.
  intros Hk Hic Hb Hp. unfold prepare_instruction in Hp. rewrite Hic in Hp. cbn [mbind result_bind] in Hp.
  apply result_bind_Ok in Hp as ([dedup indices] & Hd & Hp). apply result_bind_Ok in Hp as (u & Hc & Hp).
  apply result_bind_Ok in Hp as (ias' & Hl & Hp). apply result_bind_Ok in Hp as (pis' & _ & Hp).
  injection Hp as -> _. apply deduplicate_from_caller in Hd; [|done..|constructor].
  apply check_privileges_writable in Hc. rewrite Forall_forall in Hd, Hc.
  assert (forall ia, ia ∈ l -> ia ∈ dedup) as Hsub.
  { clear -Hl. revert l Hl. induction indices as [|i indices IH]; intros l Hl; cbn in Hl.
    - injection Hl as <-. by intros ia ?%not_elem_of_nil.
    - apply result_bind_Ok in Hl as (ia & Hia & Hl). apply result_bind_Ok in Hl as (rest & Hr & [= <-]).
      apply ok_or_Ok in Hia. intros ia' [->|Hin]%elem_of_cons; [by eapply list_elem_of_lookup_2|by apply (IH rest)]. }
  assert (forall ia, ia ∈ l -> index_in_transaction ia ∈ visited [] ias
    /\ (privilege ia_is_writable ic (index_in_caller ia) = true -> writable_in ias (index_in_transaction ia)))
    as Hcaller.
  { intros ia (j & c & Hj & Hjc & <-)%Hsub%Hd. unfold bounded in Hb. rewrite Forall_lookup in Hb.
    destruct (Hb j c Hjc) as [Hvis Hw]. split; [done|]. intros Hpriv. apply Hw.
    unfold privilege in Hpriv. rewrite Hj in Hpriv.
    replace (j + length (program_accounts ic) <? length (program_accounts ic))%nat with false in Hpriv
      by (symmetry; apply Nat.ltb_ge; lia).
    replace (j + length (program_accounts ic) - length (program_accounts ic))%nat with j in Hpriv by lia.
    by rewrite Hjc in Hpriv. }
  split; apply Forall_forall; intros ia Hin; [by apply Hcaller|].
  destruct (Hcaller ia Hin) as [Hvis Hw]. split; [done|]. intros Hia. apply Hw, Hc; auto.
Qed.

Lemma run_inv_pop rt : run_inv rt -> run_inv (pop rt).
Proof.
  intros []. split; try done.
  - intros i Hi. apply ri_base0. cbn in Hi. by apply lookup_take_Some in Hi as [? _].
  - intros level i Hi. apply ri_stack0. cbn in Hi. by apply lookup_take_Some in Hi as [? _].
Qed.

(** ** The invariant is preserved *)

Section Programs.
Context `{Bincode UpgradeableLoaderState}.
Variable builtin_programs : list BuiltinProgram.
Variable native_loader : Entrypoint.

Definition preserves (m : M unit) : Prop :=
  forall rt rt' ic x, run_inv rt -> get_current_instruction_context (rt_tc rt) = Ok ic ->
  m rt = (rt', Ok x) -> run_inv rt' /\ extends rt rt'.

Definition preserves_call (process : list Z -> list InstructionAccount -> list nat -> Runtime
    -> Runtime * Z * result InstructionError unit) : Prop :=
  forall data l pis rt rt' u ic, run_inv rt -> get_current_instruction_context (rt_tc rt) = Ok ic ->
  callable true ic l -> callable false ic l ->
  process data l pis rt = (rt', u, Ok tt) -> run_inv rt' /\ extends rt rt'.

Lemma run_preserves invoke p :
  (forall native ix signers, preserves (invoke native ix signers)) -> preserves (run invoke p).
Proof.
  intros Hinvoke. induction p as [writes n r|writes n native ix signers k IH];
    intros rt rt' ic x Hinv Hic Hrun; cbn in Hrun;
    destruct (apply_writes_inv rt ic writes n Hinv Hic) as [Hinv1 Hext1].
  - by injection Hrun as <- _.
  - pose proof (extends_current _ _ _ Hinv Hinv1 Hext1 Hic) as Hic1.
    destruct (invoke native ix signers _) as [rt2 [y|e]] eqn:Hcall; [|done].
    destruct (Hinvoke _ _ _ _ _ _ _ Hinv1 Hic1 Hcall) as [Hinv2 Hext2].
    pose proof (extends_current _ _ _ Hinv1 Hinv2 Hext2 Hic1) as Hic2.
    destruct (IH _ _ _ _ _ Hinv2 Hic2 Hrun) as [Hinv3 Hext3].
    split; [done|]. eauto using extends_trans.
Qed.

Lemma invoke_preserves process native ix signers :
  preserves_call process -> preserves (invoke_with process native ix signers).
Proof.
  intros Hproc rt rt' ic x Hinv Hic Hcall. unfold invoke_with in Hcall. inv_M Hcall.
  destruct (current_context _ _ Hinv Hic) as (_ & _ & _ & _ & Hb).
  destruct (prepare_instruction_callable _ _ _ _ _ _ (ri_keys _ Hinv) Hic Hb Ha) as [Hct Hcf].
  unfold act in Ha1. destruct (process _ _ _ rt) as [[rt2 u] r] eqn:Hp. injection Ha1 as <- ->.
  destruct a1. destruct (Hproc _ _ _ _ _ _ _ Hinv Hic Hct Hcf Hp) as [Hinv2 Hext2].
  destruct (feature do_support_realloc rt2); inv_M Hcall; done.
Qed.

Lemma chain_preserves invoke data :
  (forall native ix signers, preserves (invoke native ix signers)) ->
  preserves (process_executable_chain builtin_programs native_loader invoke data).
Proof.
  intros Hinvoke rt rt' ic x Hinv Hic Hrun. unfold process_executable_chain in Hrun. inv_M Hrun.
  destruct (if N.eqb _ _ then _ else _) as [first builtin_id].
  destruct (find _ _); [by eapply run_preserves|].
  unfold act in Hrun. destruct (_ && _); [by eapply run_preserves|done].
Qed.

Lemma pop_stack rt st i : instruction_stack (rt_tc rt) = st ++ [i] -> instruction_stack (rt_tc (pop rt)) = st.
Proof.
  intros Hs. cbn. unfold stack_height. rewrite Hs, length_app. cbn.
  replace (length st + 1 - 1)%nat with (length st) by lia. by rewrite take_app_length.
Qed.

Lemma process_preserves fuel :
  preserves_call (process_instruction builtin_programs native_loader fuel).
Proof.
  induction fuel as [|fuel IH]; intros data l pis rt rt' u ic Hinv Hic Hct Hcf Hp; [done|].
  cbn [process_instruction] in Hp.
  destruct (match last pis with Some i => _ | None => _ end); [|done].
  destruct (current_context _ _ Hinv Hic) as (st & top & Hst & _ & _).
  assert (stack_height (rt_tc rt) <> 0%nat) as Hh by (unfold stack_height; rewrite Hst, length_app; cbn; lia).
  apply Nat.eqb_neq in Hh as Hh'. rewrite Hh' in Hp.
  destruct (verify_and_update l true rt) as [rt1 [x|e]] eqn:Hv1; [|done].
  destruct (verify_and_update_inv _ _ _ _ _ _ Hinv Hic Hct Hv1) as [Hinv1 Htc1]. cbn [negb andb] in Hp.
  rewrite <- Htc1 in Hp, Hh.
  destruct (push l pis data _) as [rt2 [y|e]] eqn:Hpush; [|done]. destruct (call_frame rt1 rt2 l pis data y Hinv1 Hh Hpush) as (Hinv2 & Hc2 & Hs2 & Hic2).
  { apply Hcf. }
  destruct (process_executable_chain _ _ _ data rt2) as [rt3 [z|e]] eqn:Hrun; [|done].
  destruct (chain_preserves _ _ (fun native ix signers => invoke_preserves _ native ix signers IH) _ _ _ _ Hinv2 Hic2 Hrun) as [Hinv3 Hext3].
  pose proof (extends_current _ _ _ Hinv2 Hinv3 Hext3 Hic2) as Hic3.
  destruct (verify_and_update l false rt3) as [rt4 r] eqn:Hv2. injection Hp as <- _ ->.
  destruct (verify_and_update_inv false l rt3 rt4 _ tt Hinv3 Hic3 Hcf Hv2) as [Hinv4 Htc4].
  destruct Hext3 as [Hs3 [cs3 Hc3]].
  split; [by apply run_inv_pop|]. split.
  - erewrite pop_stack; [|rewrite Htc4, Hs3; exact Hs2]. by rewrite Htc1.
  - change (calls (rt_tc (pop rt4))) with (calls (rt_tc rt4)). rewrite Htc4, Hc3, Hc2, Htc1, <- app_assoc. eauto.
Qed.

(** ** Lemmas: top-level instructions *)

Lemma verify_account_Ok program_id ia ps qs k rt rt' s' :
  verify_account program_id ia (ps, qs, k) rt = (rt', Ok s') ->
  rt_tc rt' = rt_tc rt /\ rt_pre_accounts rt' = rt_pre_accounts rt
  /\ exists pre account, rt_pre_accounts rt !! k = Some pre
     /\ tc_accounts (rt_tc rt) !! index_in_transaction ia = Some account
     /\ change_allowed program_id (ia_is_writable ia) (pa_account pre) account
     /\ s' = (ps + acc_lamports (pa_account pre), qs + acc_lamports account, S k).
Proof.
  unfold verify_account. intros Hv. inv_M Hv. apply ok_or_Ok in Ha, Ha0. destruct a1.
  apply pre_account_verify_allowed in Ha1. apply add_lamports_Ok in Ha2 as ->, Ha3 as ->.
  apply adjust_meter_Ok in Ha4 as [? ?]. split_and!; try done. by eexists _, _.
Qed.

Lemma lamports_at_app l l' acc : lamports_at (l ++ l') acc = lamports_at l acc + lamports_at l' acc.
Proof. induction l as [|i l IH]; cbn; [done|]. rewrite IH. lia. Qed.

Lemma lamports_of_app l l' : lamports_of (l ++ l') = lamports_of l + lamports_of l'.
Proof. induction l as [|a l IH]; cbn; [done|]. rewrite IH. lia. Qed.

(** The final check: every account is an allowed change of its pre-account,
    and the sums agree. *)
Lemma verify_sound pis rt rt' ic x :
  run_inv rt -> get_current_instruction_context (rt_tc rt) = Ok ic ->
  verify ias pis rt = (rt', Ok x) ->
  rt_tc rt' = rt_tc rt
  /\ Forall (fun i => exists a0 a, accounts0 !! i = Some a0 /\ tc_accounts (rt_tc rt) !! i = Some a
       /\ evolved (writable_in ias i) (invoked keys (calls (rt_tc rt))) a0 a) (visited [] ias)
  /\ lamports_at (visited [] ias) (tc_accounts (rt_tc rt)) = lamports_at (visited [] ias) accounts0.
Proof.
  intros Hinv Hic Hv. unfold verify in Hv. inv_M Hv.
  apply map_err_Ok in Ha, Ha0. rewrite Hic in Ha. injection Ha as <-. apply program_key in Ha0; [|apply Hinv].
  assert (invoked keys (calls (rt_tc rt)) a0) as Hran by (exists ic; split; [by apply current_called|done]).
  apply negb_false_iff, Z.eqb_eq in Hv. subst z0.
  apply (visit_loop_inv (fun don s rt1 => rt_tc rt1 = rt_tc rt /\ rt_pre_accounts rt1 = rt_pre_accounts rt
    /\ s.2 = length don /\ s.1.1 = pre_lamports (take (length don) (rt_pre_accounts rt))
    /\ s.1.2 = lamports_at don (tc_accounts (rt_tc rt))
    /\ Forall2 (fun i pre => exists account w, tc_accounts (rt_tc rt) !! i = Some account
         /\ change_allowed a0 w (pa_account pre) account /\ (w = true -> writable_in ias i))
         don (take (length don) (rt_pre_accounts rt))) _ ias) with (done := []) in Ha2; cbn in *.
  - destruct Ha2 as (Htc & _ & _ & Hps & Hqs & Hch).
    pose proof (ri_pre _ Hinv) as Hpre. pose proof (Forall2_length _ _ _ Hpre) as Hlen.
    rewrite Hlen, take_ge in Hps, Hch by lia. split; [done|]. split.
    + rewrite Forall_forall. intros i Hi. apply list_elem_of_lookup in Hi as [k Hk].
      destruct (Forall2_lookup_l _ _ _ _ _ Hpre Hk) as (pre & Hp & _ & b & Hb & Hev).
      destruct (Forall2_lookup_lr _ _ _ _ _ _ Hch Hk Hp) as (account & w & Hacc & Hal & Hw).
      exists b, account. split_and!; try done. by eapply evolved_step.
    + rewrite <- Hqs, Hps. apply Hinv.
  - intros don ia [[ps qs] k] rt1 rt2 s' Hin (Htc & Hpre & Hk0 & Hp0 & Hq0 & Hch) Hw. cbn in Hk0, Hp0, Hq0. subst k ps qs.
    apply verify_account_Ok in Hw as (Htc' & Hpre' & pre & account & Hk & Hacc & Hal & ->). cbn.
    rewrite Htc in Hacc. rewrite Hpre in Hk. rewrite Htc', Hpre', Htc, Hpre, length_app. cbn.
    rewrite Nat.add_1_r, (take_S_r _ _ _ Hk), lamports_at_app. unfold pre_lamports. rewrite map_app, lamports_of_app.
    cbn. rewrite Hacc. cbn. split_and!; try done; [lia|lia|].
    apply Forall2_app; [done|]. constructor; [|constructor]. exists account, (ia_is_writable ia).
    split_and!; [done|done|]. intros Hwr. by exists ia.
  - by rewrite take_0.
Qed.

(** The pre-accounts of a top-level instruction are its accounts. *)
Lemma push_top_level_Ok program_id rt rt' x :
  push_top_level program_id ias rt = (rt', Ok x) ->
  rt_tc rt' = rt_tc rt
  /\ Forall2 (fun i pre => tc_account_keys (rt_tc rt) !! i = Some (pa_key pre)
       /\ tc_accounts (rt_tc rt) !! i = Some (pa_account pre)) (visited [] ias) (rt_pre_accounts rt').
Proof.
  unfold push_top_level. intros Hv. inv_M Hv.
  match type of Hv with visit_each_account_once _ _ _ ?r = _ => set (rt1 := r) in Hv end.
  change (rt_tc rt) with (rt_tc rt1). 
  apply (visit_loop_inv (fun don _ rt2 => rt_tc rt2 = rt_tc rt1
    /\ Forall2 (fun i pre => tc_account_keys (rt_tc rt1) !! i = Some (pa_key pre)
       /\ tc_accounts (rt_tc rt1) !! i = Some (pa_account pre)) don (rt_pre_accounts rt2)) _ ias)
    with (done := []) in Hv; [exact Hv| |by split; [|constructor]].
  clear Hv. intros don ia s rt2 rt3 s' Hin [Htc Hpre] Hw. unfold push_pre_account in Hw. inv_M Hw.
  apply ok_or_Ok in Ha0, Ha1. rewrite Htc in *. cbn. split; [done|].
  apply Forall2_app; [done|]. by constructor.
Qed.

Lemma bounded_self n pis data :
  bounded ias {| nesting_level := n; program_accounts := pis; instruction_accounts := ias; instruction_data := data |}.
Proof.
  unfold bounded. cbn. apply Forall_forall. intros ia Hin. rewrite visited_spec. split.
  - split; [apply not_elem_of_nil|eauto].
  - intros Hw. by exists ia.
Qed.

Lemma top_frame rt rt2 pis data x :
  let new := {| nesting_level := 0; program_accounts := pis; instruction_accounts := ias;
                instruction_data := data |} in
  instruction_stack (rt_tc rt) = [] -> tc_account_keys (rt_tc rt) = keys ->
  tc_accounts (rt_tc rt) = accounts0 -> instruction_trace (rt_tc rt) = trace0 ->
  push ias pis data rt = (rt2, Ok x) ->
  run_inv rt2 /\ get_current_instruction_context (rt_tc rt2) = Ok new
  /\ instruction_stack (rt_tc rt2) = [length trace0].
Proof.
  intros new Hs Hk Ha Htr Hp. unfold push in Hp. inv_M Hp. unfold stack_height in *. rewrite Hs in *.
  cbn [length Nat.eqb] in *. change (0 =? 0)%nat with true in *. cbn iota in *.
  apply push_top_level_Ok in Ha3 as [Htc Hpre]. unfold act in Hp. rewrite Htc in Hp.
  unfold tc_push, stack_height in Hp. rewrite Hs in Hp. cbn [length] in Hp.
  change (0 =? 0)%nat with true in Hp. cbn iota in Hp. cbn [with_trace instruction_stack instruction_context_capacity] in Hp.
  rewrite Hs in Hp. destruct (_ <=? _)%nat; [done|]. injection Hp as <- _. fold new.
  set (rt2 := set_tc rt0 _).
  assert (calls (rt_tc rt2) = [new]) as Hc by (unfold calls; cbn; by rewrite last_snoc).
  assert (run_inv rt2) as Hinv.
  { rewrite Hk, Ha in Hpre. split; try done.
    - by cbn; rewrite Ha.
    - intros i _. cbn. by rewrite Ha.
    - eapply Forall2_impl; [exact Hpre|]. intros i pre [Hki Hai]. split; [done|].
      exists (pa_account pre). split; [done|]. apply evolved_refl.
    - unfold pre_lamports. clear -Hpre. cbn. induction Hpre as [|i pre idx pres [_ Hi] _ IH]; cbn; [done|].
      by rewrite Hi, <- IH.
    - unfold traced. rewrite Hc. cbn. by rewrite Htr.
    - intros i. cbn. rewrite Htr. by intros [= <-].
    - intros level i Hi. apply list_lookup_singleton_Some in Hi as [-> _]. rewrite Hc. exists new.
      split; [done|]. apply bounded_self.
    - by cbn; rewrite Ha. }
  split_and!; [done| |by cbn; rewrite Htr].
  apply (context_on_top rt2 [] (length (instruction_trace (rt_tc rt)))); [done..|]. by rewrite Hc.
Qed.

(** A top-level instruction that succeeds is isolated. *)
Lemma top_level_isolated fuel data pis rt rt' u :
  instruction_stack (rt_tc rt) = [] -> tc_account_keys (rt_tc rt) = keys ->
  tc_accounts (rt_tc rt) = accounts0 -> instruction_trace (rt_tc rt) = trace0 ->
  process_instruction builtin_programs native_loader fuel data ias pis rt = (rt', u, Ok tt) ->
  instruction_stack (rt_tc rt') = [] /\ tc_account_keys (rt_tc rt') = keys /\ traced (rt_tc rt')
  /\ length (tc_accounts (rt_tc rt')) = length accounts0
  /\ lamports_of (tc_accounts (rt_tc rt')) = lamports_of accounts0
  /\ (typed accounts0 -> typed (tc_accounts (rt_tc rt')))
  /\ forall i a0, accounts0 !! i = Some a0 ->
       exists a, tc_accounts (rt_tc rt') !! i = Some a
         /\ evolved (writable_in ias i) (invoked keys (calls (rt_tc rt'))) a0 a.
Proof.
  intros Hs Hk Ha Htr Hp. destruct fuel as [|fuel]; [done|]. cbn [process_instruction] in Hp.
  destruct (match last pis with Some i => _ | None => _ end); [|done].
  unfold stack_height in Hp. rewrite Hs in Hp. cbn [length] in Hp. change (0 =? 0)%nat with true in Hp. cbn [negb andb] in Hp.
  destruct (push ias pis data rt) as [rt2 [y|e]] eqn:Hpush; [|done].
  destruct (top_frame _ _ _ _ _ Hs Hk Ha Htr Hpush) as (Hinv2 & Hic2 & Hs2).
  destruct (process_executable_chain _ _ _ data rt2) as [rt3 [z|e]] eqn:Hrun; [|done].
  destruct (chain_preserves _ _ (fun native ix signers => invoke_preserves _ native ix signers (process_preserves fuel))
    _ _ _ _ Hinv2 Hic2 Hrun) as [Hinv3 Hext3].
  pose proof (extends_current _ _ _ Hinv2 Hinv3 Hext3 Hic2) as Hic3.
  destruct (verify ias pis rt3) as [rt4 r] eqn:Hv. injection Hp as <- _ ->.
  destruct (verify_sound _ _ _ _ _ Hinv3 Hic3 Hv) as (Htc & Hev & Hsum).
  change (traced (rt_tc (pop rt4))) with (traced (rt_tc rt4)).
  change (calls (rt_tc (pop rt4))) with (calls (rt_tc rt4)).
  change (tc_accounts (rt_tc (pop rt4))) with (tc_accounts (rt_tc rt4)).
  change (tc_account_keys (rt_tc (pop rt4))) with (tc_account_keys (rt_tc rt4)). rewrite Htc.
  split_and!; try apply Hinv3.
  - eapply pop_stack. rewrite Htc. destruct Hext3 as [-> _]. exact Hs2.
  - enough (lamports_of (tc_accounts (rt_tc rt3)) - lamports_of accounts0 = 0) by lia.
    rewrite (lamports_frame (visited [] ias)); [lia|apply visited_NoDup|apply Hinv3|apply Hinv3|].
    eapply Forall_impl; [exact Hev|]. intros i (b & acc & Hb & _). by eapply lookup_lt_Some.
  - intros i a0 Hi. destruct (decide (i ∈ visited [] ias)) as [Hin|Hnot].
    + rewrite Forall_forall in Hev. destruct (Hev i Hin) as (b & acc & Hb & Hacc & He).
      exists acc. split; [done|]. congruence.
    + exists a0. split; [by rewrite (ri_frame _ Hinv3)|apply evolved_refl].
Qed.

End Programs.
End Invariant.

(** ** Lemmas: messages *)

Lemma map_outcome_elem {A B} (f : A -> outcome B) l l' y :
  map_outcome f l = Returns l' -> y ∈ l' -> exists x, x ∈ l /\ f x = Returns y.
Proof.
  revert l'. induction l as [|x l IH]; intros l'; cbn.
  { intros [= <-] []%not_elem_of_nil. }
  intros H. apply outcome_bind_Returns in H as (z & Hz & H).
  apply outcome_bind_Returns in H as (zs & Hzs & [= <-]).
  intros [->|Hin]%elem_of_cons; [exists x; split; [apply list_elem_of_here|done]|].
  destruct (IH zs Hzs Hin) as (x' & ? & ?). exists x'. split; [by apply list_elem_of_further|done].
Qed.

Lemma position_first n keys i key :
  NoDup (take n keys) -> (i < n)%nat -> keys !! i = Some key -> position key keys = Some i.
Proof.
  revert n i. induction keys as [|k keys IH]; intros n i Hnd Hi Hk; [done|].
  destruct n as [|n]; [lia|]. cbn in Hnd. apply NoDup_cons in Hnd as [Hn Hnd]. cbn.
  destruct i as [|i]; cbn in Hk.
  - injection Hk as ->. by rewrite N.eqb_refl.
  - destruct (N.eqb_spec k key) as [->|]; [|by rewrite (IH n i Hnd) by (done || lia)].
    exfalso. apply Hn. eapply (list_elem_of_lookup_2 _ i). rewrite lookup_take_lt by lia. done.
Qed.

Lemma evolved_trans w ran a b c : evolved w ran a b -> evolved w ran b c -> evolved w ran a c.
Proof.
  intros [He Hf Ho] [He' Hf' Ho']. split; [congruence| |].
  - intros Hfz. specialize (Hf Hfz). subst b. auto.
  - destruct Ho as [?|(Hown & Hd & Hx & Hl)]; [by left|].
    destruct Ho' as [Hr|(Hown' & Hd' & Hx' & Hl')]; [left; by rewrite <- Hown|right].
    split_and!; try congruence; lia.
Qed.

(** The programs that ran in any of the recorded instructions. *)
Definition ran_in (keys : list Pubkey) (trace : list (list InstructionContext)) (p : Pubkey) : Prop :=
  exists cs, cs ∈ trace /\ invoked keys cs p.

Lemma ran_in_app keys trace t p : ran_in keys trace p -> ran_in keys (trace ++ t) p.
Proof. intros (cs & Hcs & Hp). exists cs. split; [|done]. apply elem_of_app. by left. Qed.

(** Some instruction of the message names the account as writable. *)
Definition names_writable (m : SanitizedMessage) (i : nat) : Prop :=
  message_is_writable m i = Returns true
  /\ exists ix, ix ∈ message_instructions m /\ i ∈ ci_accounts ix.

Section Messages.
Context `{Bincode UpgradeableLoaderState}.
Variable builtin_programs : list BuiltinProgram.
Variable native_loader : Entrypoint.
Variable m : SanitizedMessage.
Variable keys : list Pubkey.
Variable accounts0 : list AccountSharedData.
Let n := account_keys_len (message_account_keys m).
Hypothesis Hkeys : NoDup (take n keys).
Hypothesis Hlen : (n <= length keys)%nat.

(** The invariant between the instructions of a message. *)
Record message_inv (tc : TransactionContext) : Prop := {
  mi_stack : instruction_stack tc = [];
  mi_keys : tc_account_keys tc = keys;
  mi_length : length (tc_accounts tc) = length accounts0;
  mi_lamports : lamports_of (tc_accounts tc) = lamports_of accounts0;
  mi_evolved : forall i a0, keys !! i <> Some sysvar_instructions_id -> accounts0 !! i = Some a0 ->
    exists a, tc_accounts tc !! i = Some a
      /\ evolved (names_writable m i) (ran_in keys (instruction_trace tc)) a0 a;
  mi_unnamed : forall i a0, accounts0 !! i = Some a0 -> ~ names_writable m i ->
    exists a, tc_accounts tc !! i = Some a /\ acc_lamports a = acc_lamports a0;
  mi_typed : typed accounts0 -> typed (tc_accounts tc);
}.

Lemma fixup_inv index tc tc' :
  message_inv tc -> fixup_instructions_sysvar index tc = Returns (Ok tc') ->
  message_inv tc' /\ instruction_trace tc' = instruction_trace tc.
Proof.
  intros Hinv Hf. unfold fixup_instructions_sysvar in Hf.
  destruct (find_index_of_account tc sysvar_instructions_id) as [i|] eqn:Ei; [|by injection Hf as <-].
  destruct (get_account_at_index tc i) as [a|] eqn:Ea; [|done]. apply ok_or_Ok in Ea.
  apply outcome_bind_Returns in Hf as (data & _ & [= <-]). split; [|done].
  apply position_Some in Ei. destruct Hinv. split; try done; cbn.
  - by rewrite length_insert.
  - rewrite (lamports_insert i a) by done. cbn. lia.
  - intros j a0 Hj Ha0. rewrite list_lookup_insert_ne; [by apply mi_evolved0|].
    intros ->. apply Hj. by rewrite <- mi_keys0.
  - intros j a0 Ha0 Hj. destruct (mi_unnamed0 j a0 Ha0 Hj) as (a1 & Ha1 & Hl).
    destruct (decide (i = j)) as [<-|]; [|rewrite list_lookup_insert_ne by done; eauto].
    rewrite list_lookup_insert_eq by (by eapply lookup_lt_Some). eexists. split; [done|]. cbn. congruence.
  - intros H0. apply mi_typed0 in H0. apply Forall_insert; [done|]. cbn. unfold typed in H0.
    rewrite Forall_forall in H0. apply H0. by eapply list_elem_of_lookup_2.
Qed.

Lemma message_inv_trace tc tc' :
  message_inv tc -> instruction_stack tc' = [] -> tc_account_keys tc' = tc_account_keys tc ->
  tc_accounts tc' = tc_accounts tc -> (exists t, instruction_trace tc' = instruction_trace tc ++ t) ->
  message_inv tc'.
Proof.
  intros [] Hs Hk Ha [t Ht]. split; rewrite ?Hk, ?Ha; try done. intros i a0 Hi Ha0.
  destruct (mi_evolved0 i a0 Hi Ha0) as (a & ? & He). exists a. split; [done|].
  eapply evolved_weaken; [| |exact He]; [done|]. rewrite Ht. intros p. apply ran_in_app.
Qed.

Lemma instruction_account_index ix pis l ia :
  message_instruction_accounts m ix pis = Returns l -> ia ∈ l -> index_in_transaction ia ∈ ci_accounts ix
  /\ message_is_writable m (index_in_transaction ia) = Returns (ia_is_writable ia).
Proof.
  intros Hl Hin. destruct (map_outcome_elem _ _ _ _ Hl Hin) as (i & Hi & Hf).
  apply outcome_bind_Returns in Hf as (w & Hw & [= <-]). done.
Qed.

Lemma instruction_account_writable ix pis l ia :
  message_instruction_accounts m ix pis = Returns l -> ia ∈ l -> ia_is_writable ia = true ->
  ix ∈ message_instructions m -> names_writable m (index_in_transaction ia).
Proof.
  intros Hl Hin Hw Hix. destruct (instruction_account_index _ _ _ _ Hl Hin) as [Hc Hm].
  split; [by rewrite Hm, Hw|eauto].
Qed.

Lemma visited_first ix pis l :
  message_instruction_accounts m ix pis = Returns l -> Forall (fun i => i < n)%nat (ci_accounts ix) ->
  forall i, i ∈ visited [] l -> exists key, keys !! i = Some key /\ position key keys = Some i.
Proof.
  intros Hl Hix i Hi. apply visited_spec in Hi as [_ (ia & Hin & <-)].
  destruct (instruction_account_index _ _ _ _ Hl Hin) as [Hc _]. rewrite Forall_forall in Hix.
  specialize (Hix _ Hc). destruct (lookup_lt_is_Some_2 keys (index_in_transaction ia) ltac:(lia)) as [key Hkey].
  exists key. split; [done|]. by eapply position_first.
Qed.

Lemma instruction_inv index pid ix pis rt rt' u :
  message_inv (rt_tc rt) -> ix ∈ message_instructions m -> Forall (fun i => i < n)%nat (ci_accounts ix) ->
  process_message_instruction builtin_programs native_loader m index pid ix pis rt = Returns (rt', u, Ok tt) ->
  message_inv (rt_tc rt').
Proof.
  intros Hinv Hm Hix Hp. unfold process_message_instruction in Hp.
  destruct (_ && _) in Hp; [by injection Hp as <- _|].
  apply outcome_bind_Returns in Hp as ([tc|e] & Hf & Hp); [|done].
  apply (fixup_inv _ _ _ Hinv) in Hf as [Hinv1 _].
  apply outcome_bind_Returns in Hp as (l & Hl & Hp).
  destruct (is_precompile _ _) in Hp.
  - unfold record_precompile, act in Hp. cbn [rt_tc set_tc] in Hp.
    unfold tc_push, stack_height in Hp. rewrite (mi_stack _ Hinv1) in Hp. cbn [length] in Hp.
    change (0 =? 0)%nat with true in Hp. cbn iota zeta in Hp. cbn [with_trace instruction_context_capacity instruction_stack] in Hp.
    rewrite (mi_stack _ Hinv1) in Hp. destruct (_ <=? _)%nat in Hp; [done|]. injection Hp as <- _.
    apply (message_inv_trace tc); try done. eauto.
  - destruct (process_instruction _ _ _ _ _ _ _) as [[rt1 u1] r] eqn:Hrun. injection Hp as -> _ Hr.
    destruct r as [[]|]; [|done].
    apply (top_level_isolated keys (tc_accounts tc) l (instruction_trace tc)) in Hrun
      as (Hs & Hk & Htr & Hl1 & Hsum & Hty & Hev); try done; [|exact (visited_first _ _ _ Hl Hix)|by apply Hinv1..].
    assert (forall i, writable_in l i -> names_writable m i) as Hnamed
      by (intros i (ia & Hin & <- & Hw); by eapply instruction_account_writable).
    destruct Hinv1. split; try done; [congruence..| | |auto].
    + intros i a0 Hi Ha0.
      destruct (mi_evolved0 i a0 Hi Ha0) as (a1 & Ha1 & He1). destruct (Hev i a1 Ha1) as (a2 & Ha2 & He2).
      exists a2. split; [done|]. rewrite Htr. eapply evolved_trans.
      * eapply evolved_weaken; [| |exact He1]; [done|]. intros p. apply ran_in_app.
      * eapply evolved_weaken; [apply Hnamed| |exact He2].
        intros p Hp. exists (calls (rt_tc rt')). split; [|done]. apply elem_of_app. right. by apply list_elem_of_singleton.
    + intros i a0 Ha0 Hi. destruct (mi_unnamed0 i a0 Ha0 Hi) as (a1 & Ha1 & Hl0).
      destruct (Hev i a1 Ha1) as (a2 & Ha2 & He2). exists a2. split; [done|].
      rewrite (ev_frozen _ _ _ _ He2); [done|]. left. auto.
Qed.

Lemma message_loop_inv l index rt rt' u u' :
  message_inv (rt_tc rt) ->
  Forall (fun '(_, ix, _) => ix ∈ message_instructions m /\ Forall (fun i => i < n)%nat (ci_accounts ix)) l ->
  process_message_loop builtin_programs native_loader m index l rt u = Returns (rt', u', Ok tt) ->
  message_inv (rt_tc rt').
Proof.
  revert index rt u. induction l as [|[[pid ix] pis] l IH]; intros index rt u Hinv Hl Hp; cbn in Hp.
  { by injection Hp as <- _. }
  apply Forall_cons in Hl as [[Hm Hix] Hl]. apply outcome_bind_Returns in Hp as ([[rt1 u1] [[]|e]] & Hi & Hp); [|done].
  apply (IH (S index) rt1 (sat_add64 u u1)); try done. by eapply instruction_inv.
Qed.

(** A message that succeeds keeps the invariant. *)
Lemma message_isolated pis rt rt' units delta :
  message_inv (rt_tc rt) ->
  Forall (fun ix => Forall (fun i => i < n)%nat (ci_accounts ix)) (message_instructions m) ->
  process_message builtin_programs native_loader m pis rt = Returns (rt', units, Ok delta) ->
  message_inv (rt_tc rt').
Proof.
  intros Hinv Hsane Hrun. unfold process_message in Hrun.
  apply outcome_bind_Returns in Hrun as (ixs & Hixs & Hrun).
  apply outcome_bind_Returns in Hrun as ([[rt1 u1] [[]|e]] & Hrun & Hres); [|done]. injection Hres as -> _ _.
  apply message_loop_inv in Hrun; try done.
  apply Forall_forall. intros [[pid ix] pi] Hin. apply elem_of_zip_l in Hin.
  destruct (map_outcome_elem _ _ _ _ Hixs Hin) as (ix0 & Hix0 & Hf).
  apply outcome_bind_Returns in Hf as (pid0 & _ & [= _ <-]). rewrite Forall_forall in Hsane.
  split; [done|by apply Hsane].
Qed.

End Messages.

Lemma message_inv_new m loaded capacity :
  message_inv m (map fst loaded) (map snd loaded) (transaction_context_new loaded capacity).
Proof.
  split; try done; cbn; rewrite ?length_map; try done.
  - intros i a0 _ Ha0. exists a0. split; [done|apply evolved_refl].
  - eauto.
Qed.

(** ** Lemmas: what holds of failed runs too *)

(** The keys and the number of accounts stay, whatever the result. *)
Definition same_keys (rt rt' : Runtime) : Prop :=
  tc_account_keys (rt_tc rt') = tc_account_keys (rt_tc rt)
  /\ length (tc_accounts (rt_tc rt')) = length (tc_accounts (rt_tc rt)).

#[local] Instance same_keys_preorder : PreOrder same_keys.
Proof. split; [done|]. intros x y z [H1 H2] [H3 H4]. split; congruence. Qed.

Definition keeps_keys {A} (m : M A) : Prop := forall rt, same_keys rt (m rt).1.

Lemma keeps_keys_bind {A B} (m : M A) (f : A -> M B) :
  keeps_keys m -> (forall a, keeps_keys (f a)) -> keeps_keys (m ≫= f).
Proof.
  intros Hm Hf rt. specialize (Hm rt). unfold mbind, M_bind. destruct (m rt) as [rt1 [a|e]]; [|done].
  etrans; [exact Hm|apply Hf].
Qed.

Lemma keeps_keys_reject b e : keeps_keys (reject_if b e).
Proof. by destruct b. Qed.

Create HintDb keys_kept.
#[local] Hint Resolve keeps_keys_bind keeps_keys_reject : keys_kept.
#[local] Hint Extern 1 (keeps_keys (lift _)) => (intros ?; done) : keys_kept.
#[local] Hint Extern 1 (keeps_keys (gets _)) => (intros ?; done) : keys_kept.
#[local] Hint Extern 1 (keeps_keys (ret _)) => (intros ?; done) : keys_kept.
#[local] Hint Extern 1 (keeps_keys (modify _)) => (intros ?; done) : keys_kept.

Lemma visit_keeps_keys {S} (work : InstructionAccount -> S -> M S) l s :
  (forall ia s, keeps_keys (work ia s)) -> keeps_keys (visit_each_account_once l work s).
Proof.
  intros Hw. unfold visit_each_account_once. generalize (@nil nat) as before. revert s.
  induction l as [|ia l IH]; intros s before; cbn [visit_loop]; [by intros ?|].
  apply keeps_keys_bind; [|auto]. by destruct (bool_decide _); [intros ?|].
Qed.

(** Follows a computation through its steps. *)
Ltac keep_keys :=
  repeat first
    [ progress auto with keys_kept
    | apply keeps_keys_bind
    | apply visit_keeps_keys
    | match goal with
      | |- forall _, _ => intros ?
      | |- keeps_keys (match ?x with _ => _ end) => destruct x
      end ].

Lemma adjust_meter_keys delta : keeps_keys (adjust_meter delta).
Proof. unfold adjust_meter. keep_keys. Qed.

#[local] Hint Resolve adjust_meter_keys : keys_kept.

Lemma verify_keys l pis : keeps_keys (verify l pis).
Proof. unfold verify, verify_account. keep_keys. Qed.

Lemma verify_and_update_keys l before : keeps_keys (verify_and_update l before).
Proof. unfold verify_and_update, verify_and_update_account. keep_keys. Qed.

Lemma record_keys tc ic :
  tc_account_keys (record_instruction tc ic) = tc_account_keys tc
  /\ tc_accounts (record_instruction tc ic) = tc_accounts tc.
Proof. unfold record_instruction. by destruct (last _). Qed.

Lemma tc_push_keys tc pis l data record :
  tc_account_keys (tc_push tc pis l data record).1 = tc_account_keys tc
  /\ tc_accounts (tc_push tc pis l data record).1 = tc_accounts tc.
Proof. unfold tc_push. cbv beta zeta. repeat case_match; try done; apply record_keys. Qed.

Lemma push_keys l pis data : keeps_keys (push l pis data).
Proof.
  unfold push, push_top_level, push_pre_account, check_reentrancy. keep_keys.
  all: intros rt; unfold act; pose proof (tc_push_keys (rt_tc rt) pis l data
    (feature record_instruction_in_transaction_context_push rt)) as [Hk Ha];
    destruct (tc_push _ _ _ _ _); unfold same_keys; cbn in *; by rewrite Hk, Ha.
Qed.

Lemma apply_writes_keys writes remaining rt : same_keys rt (apply_writes writes remaining rt).
Proof.
  unfold apply_writes. destruct (get_current_instruction_context _) as [ic|]; [|done]. split; [done|].
  cbn. generalize (tc_accounts (rt_tc rt)) as acc. induction writes as [|w writes IH]; intros acc; cbn; [done|].
  rewrite IH. unfold write_account. destruct (_ !! _); [apply length_insert|done].
Qed.

Lemma run_keys invoke p :
  (forall native ix signers, keeps_keys (invoke native ix signers)) -> keeps_keys (run invoke p).
Proof.
  intros Hi. induction p as [writes remaining r|writes remaining native ix signers continue IH]; intros rt; cbn.
  { apply apply_writes_keys. }
  pose proof (Hi native ix signers (apply_writes writes remaining rt)) as Hk.
  pose proof (apply_writes_keys writes remaining rt) as Hw.
  destruct (invoke native ix signers _) as [rt1 [[]|e]]; cbn in Hk; [|by etrans].
  etrans; [exact Hw|]. etrans; [exact Hk|apply IH].
Qed.

Section Failures.
Context `{Bincode UpgradeableLoaderState}.
Variable builtin_programs : list BuiltinProgram.
Variable native_loader : Entrypoint.

Lemma invoke_keys process native ix signers :
  (forall data l pis rt, same_keys rt (process data l pis rt).1.1) ->
  keeps_keys (invoke_with process native ix signers).
Proof.
  intros Hp. unfold invoke_with. keep_keys. intros rt. unfold act. specialize (Hp (ix_data ix) l l0 rt).
  by destruct (process _ _ _ _) as [[rt1 u] r].
Qed.

Lemma chain_keys invoke data :
  (forall native ix signers, keeps_keys (invoke native ix signers)) ->
  keeps_keys (process_executable_chain builtin_programs native_loader invoke data).
Proof.
  intros Hi. unfold process_executable_chain. keep_keys; intros rt; unfold act; [by apply run_keys|].
  destruct (_ && _); [by apply run_keys|done].
Qed.

Lemma process_keys fuel : forall data l pis rt,
  same_keys rt (process_instruction builtin_programs native_loader fuel data l pis rt).1.1.
Proof.
  induction fuel as [|fuel IH]; intros data l pis rt; cbn [process_instruction]; [done|].
  destruct (match last pis with Some i => _ | None => _ end); [|done].
  destruct (if (stack_height (rt_tc rt) =? 0)%nat then _ else _) as [rt1 r1] eqn:E1.
  assert (same_keys rt rt1) as H1.
  { destruct (_ =? _)%nat; [by injection E1 as <- _|]. by rewrite <- (f_equal fst E1 : _ = rt1); apply verify_and_update_keys. }
  destruct r1 as [[]|]; [|done].
  set (rt2 := if _ && _ then _ else _). assert (same_keys rt rt2) as H2.
  { etrans; [exact H1|]. unfold rt2. destruct (_ && _); [|done]. unfold same_keys. cbn.
    pose proof (record_keys (rt_tc rt1)) as Hr. by rewrite !(proj1 (Hr _)), !(proj2 (Hr _)). }
  pose proof (push_keys l pis data rt2) as H3. destruct (push l pis data rt2) as [rt3 [[]|e]]; cbn in H3.
  2: { by etrans. }
  pose proof (chain_keys (invoke_with (process_instruction builtin_programs native_loader fuel)) data
    (fun native ix signers => invoke_keys _ native ix signers IH) rt3) as H4.
  destruct (process_executable_chain _ _ _ data rt3) as [rt4 [[]|e]]; cbn in H4.
  2: { etrans; [exact H2|]. by etrans. }
  destruct (if (stack_height (rt_tc rt) =? 0)%nat then verify l pis rt4 else _) as [rt5 r5] eqn:E5.
  assert (same_keys rt4 rt5) as H5.
  { rewrite <- (f_equal fst E5 : _ = rt5). destruct (_ =? _)%nat; [apply verify_keys|apply verify_and_update_keys]. }
  etrans; [exact H2|]. etrans; [exact H3|]. by etrans.
Qed.

Lemma message_instruction_keys m index pid ix pis rt rt' u r :
  process_message_instruction builtin_programs native_loader m index pid ix pis rt = Returns (rt', u, r) ->
  same_keys rt rt'.
Proof.
  unfold process_message_instruction. intros Hp. destruct (_ && _) in Hp; [by injection Hp as <- _ _|].
  apply outcome_bind_Returns in Hp as ([tc|e] & Hf & Hp); [|by injection Hp as <- _ _].
  assert (same_keys rt (set_tc rt tc)) as H1.
  { unfold fixup_instructions_sysvar in Hf. destruct (find_index_of_account _ _); [|by injection Hf as <-].
    destruct (get_account_at_index _ _); [|done]. apply outcome_bind_Returns in Hf as (data & _ & [= <-]).
    split; cbn; [done|]. apply length_insert. }
  apply outcome_bind_Returns in Hp as (l & _ & Hp). destruct (is_precompile _ _) in Hp.
  - unfold record_precompile, act in Hp. pose proof (tc_push_keys (rt_tc (set_tc rt tc)) pis l (ci_data ix) true) as [Hk Ha].
    etrans; [exact H1|]. destruct (tc_push _ _ _ _ _) as [tc1 [[]|e]]; cbn in *; injection Hp as <- _ _; split; cbn; congruence.
  - pose proof (process_keys (S (instruction_context_capacity tc)) (ci_data ix) l pis (set_tc rt tc)) as H2.
    destruct (process_instruction _ _ _ _ _ _ _) as [[rt1 u1] r1]. injection Hp as <- _ _. by etrans.
Qed.

Lemma message_keys_kept m pis rt rt' units r :
  process_message builtin_programs native_loader m pis rt = Returns (rt', units, r) -> same_keys rt rt'.
Proof.
  unfold process_message. intros Hp. apply outcome_bind_Returns in Hp as (ixs & _ & Hp).
  apply outcome_bind_Returns in Hp as ([[rt1 u1] r1] & Hl & [= <- _ _]). revert Hl.
  generalize (zip ixs pis) as l, 0%nat as index, 0 as u. clear. intros l. revert rt.
  induction l as [|[[pid ix] pis] l IH]; intros rt index u Hl; cbn in Hl; [by injection Hl as <- _ _|].
  apply outcome_bind_Returns in Hl as ([[rt2 u2] r2] & Hi & Hl). apply message_instruction_keys in Hi.
  destruct r2; [|by injection Hl as <- _ _]. etrans; [exact Hi|by eapply IH].
Qed.

End Failures.

(** ** Lemmas: the nesting of calls *)

(** The stack and its capacity. *)
Definition shape (rt : Runtime) : list nat * nat :=
  (instruction_stack (rt_tc rt), instruction_context_capacity (rt_tc rt)).

Definition keeps_shape {A} (m : M A) : Prop := forall rt rt' x, m rt = (rt', Ok x) -> shape rt' = shape rt.

Lemma keeps_shape_tc {A} (m : M A) :
  (forall rt rt' x, m rt = (rt', Ok x) -> rt_tc rt' = rt_tc rt) -> keeps_shape m.
Proof. intros Hm rt rt' x H. unfold shape. by rewrite (Hm _ _ _ H). Qed.

Lemma visit_keeps_tc {S} (work : InstructionAccount -> S -> M S) l s rt rt' s' :
  (forall ia s rt rt' s', work ia s rt = (rt', Ok s') -> rt_tc rt' = rt_tc rt) ->
  visit_each_account_once l work s rt = (rt', Ok s') -> rt_tc rt' = rt_tc rt.
Proof.
  intros Hw Hv. apply (visit_loop_inv (fun _ _ rt1 => rt_tc rt1 = rt_tc rt) _ l) with (done := []) in Hv; [done| |done].
  intros _ ia s1 rt1 rt2 s2 _ Hrt H1. rewrite <- Hrt. by eapply Hw.
Qed.

Lemma verify_and_update_keeps l before : keeps_shape (verify_and_update l before).
Proof.
  apply keeps_shape_tc. intros rt rt' x Hv. unfold verify_and_update in Hv. inv_M Hv.
  eapply visit_keeps_tc; [|exact Ha1]. clear. intros ia [ps qs] rt rt' s' Hw.
  apply verify_and_update_account_Ok in Hw as (? & ? & ? & ? & ? & Hw). apply Hw.
Qed.

Lemma verify_keeps l pis : keeps_shape (verify l pis).
Proof.
  apply keeps_shape_tc. intros rt rt' x Hv. unfold verify in Hv. inv_M Hv.
  eapply visit_keeps_tc; [|exact Ha2]. clear. intros ia [[ps qs] k] rt rt' s' Hw.
  apply verify_account_Ok in Hw. apply Hw.
Qed.

Lemma tc_push_shape tc pis l data record tc' x :
  tc_push tc pis l data record = (tc', Ok x) ->
  (exists i, instruction_stack tc' = instruction_stack tc ++ [i])
  /\ instruction_context_capacity tc' = instruction_context_capacity tc
  /\ (stack_height tc < instruction_context_capacity tc)%nat.
Proof.
  unfold tc_push, record_instruction, stack_height. intros H.
  repeat case_match; try done; simplify_eq/=; rewrite ?Nat.leb_gt in *; split_and!; try done; eauto.
Qed.

Lemma push_shape l pis data rt rt' x :
  push l pis data rt = (rt', Ok x) ->
  (exists i, instruction_stack (rt_tc rt') = instruction_stack (rt_tc rt) ++ [i])
  /\ instruction_context_capacity (rt_tc rt') = instruction_context_capacity (rt_tc rt)
  /\ (stack_height (rt_tc rt) < instruction_context_capacity (rt_tc rt))%nat.
Proof.
  unfold push. intros Hp. inv_M Hp.
  match type of Hp with act _ ?r = _ => assert (rt_tc r = rt_tc rt) as Htc end.
  { destruct (_ =? _)%nat in Ha2; [by apply push_top_level_Ok in Ha2 as [? _]|].
    unfold check_reentrancy in Ha2. by inv_M Ha2. }
  unfold act in Hp. rewrite Htc in Hp. destruct (tc_push _ _ _ _ _) as [tc r] eqn:E.
  injection Hp as <- ->. by apply tc_push_shape in E.
Qed.

Lemma apply_writes_shape writes remaining rt : shape (apply_writes writes remaining rt) = shape rt.
Proof. unfold apply_writes. by destruct (get_current_instruction_context _). Qed.

(** Runs depend on calls only at their own level of the stack. *)
Lemma run_agree invoke invoke' p sh :
  (forall native ix signers rt, shape rt = sh ->
     invoke native ix signers rt = invoke' native ix signers rt) ->
  (forall native ix signers, keeps_shape (invoke native ix signers)) ->
  forall rt, shape rt = sh -> run invoke p rt = run invoke' p rt
  /\ (forall rt' x, run invoke p rt = (rt', Ok x) -> shape rt' = sh).
Proof.
  intros Heq Hkeep. induction p as [writes n r|writes n native ix signers k IH]; intros rt Hsh; cbn.
  - split; [done|]. intros rt' x [= <- _]. by rewrite apply_writes_shape.
  - rewrite <- (apply_writes_shape writes n) in Hsh. rewrite <- Heq by done.
    destruct (invoke native ix signers _) as [rt2 [y|e]] eqn:E; [|done].
    apply Hkeep in E. apply IH. by rewrite E.
Qed.

Section Nesting.
Context `{Bincode UpgradeableLoaderState}.
Variable builtin_programs : list BuiltinProgram.
Variable native_loader : Entrypoint.
Abbreviation process := (process_instruction builtin_programs native_loader).

Lemma chain_agree invoke invoke' data rt :
  (forall native ix signers rt', shape rt' = shape rt ->
     invoke native ix signers rt' = invoke' native ix signers rt') ->
  (forall native ix signers, keeps_shape (invoke native ix signers)) ->
  process_executable_chain builtin_programs native_loader invoke data rt
    = process_executable_chain builtin_programs native_loader invoke' data rt
  /\ (forall rt' x, process_executable_chain builtin_programs native_loader invoke data rt = (rt', Ok x) ->
        shape rt' = shape rt).
Proof.
  intros Heq Hkeep. unfold process_executable_chain, lift, mbind, M_bind.
  repeat (match goal with |- context [match ?r with Ok _ => _ | Err _ => _ end] => destruct r; [|done] end).
  destruct (if N.eqb _ _ then _ else _) as [first builtin_id].
  destruct (find _ _); unfold act.
  - by apply (run_agree _ _ _ (shape rt)).
  - destruct (_ && _); [by apply (run_agree _ _ _ (shape rt))|done].
Qed.

Lemma invoke_agree proc proc' native ix signers rt :
  (forall data l pis, proc data l pis rt = proc' data l pis rt) ->
  invoke_with proc native ix signers rt = invoke_with proc' native ix signers rt.
Proof.
  intros Heq. unfold invoke_with, lift, mbind, M_bind, act.
  destruct (prepare_instruction _ _ _) as [[l pis]|]; [|done].
  destruct (if native then _ else _); [|done]. by rewrite Heq.
Qed.

Lemma invoke_keeps proc native ix signers :
  (forall data l pis rt rt' u, proc data l pis rt = (rt', u, Ok tt) -> shape rt' = shape rt) ->
  keeps_shape (invoke_with proc native ix signers).
Proof.
  intros Hproc rt rt' x Hi. unfold invoke_with in Hi. inv_M Hi.
  unfold act in Ha1. destruct (proc _ _ _ rt) as [[rt2 u] r] eqn:Hp. injection Ha1 as <- ->. destruct a1.
  apply Hproc in Hp. destruct (feature do_support_realloc rt2); by inv_M Hi.
Qed.

Lemma record_shape rt (b : bool) ic :
  shape (if b then set_tc rt (record_instruction (rt_tc rt) ic) else rt) = shape rt.
Proof. destruct b; [|done]. unfold shape, record_instruction. cbn. by destruct (last _). Qed.

(** The shape before and after a pushed call. *)
Lemma pop_shape rt rt2 i :
  instruction_stack (rt_tc rt2) = instruction_stack (rt_tc rt) ++ [i] ->
  instruction_context_capacity (rt_tc rt2) = instruction_context_capacity (rt_tc rt) ->
  shape (pop rt2) = shape rt.
Proof. intros Hs Hc. unfold shape. rewrite (pop_stack rt2 _ i Hs). cbn. by rewrite Hc. Qed.

Lemma shape_eq rt rt' :
  shape rt' = shape rt <-> instruction_stack (rt_tc rt') = instruction_stack (rt_tc rt)
    /\ instruction_context_capacity (rt_tc rt') = instruction_context_capacity (rt_tc rt).
Proof. unfold shape. split; [by intros [= -> ->]|]. by intros [-> ->]. Qed.

(** A call that succeeds keeps the shape. *)
Lemma process_keeps fuel data l pis rt rt' u :
  process fuel data l pis rt = (rt', u, Ok tt) -> shape rt' = shape rt.
Proof.
  revert data l pis rt rt' u. induction fuel as [|fuel IH]; [done|].
  intros data l pis rt rt' u Hp. cbn [process_instruction] in Hp.
  destruct (match last pis with Some i => _ | None => _ end); [|done].
  destruct (if (stack_height (rt_tc rt) =? 0)%nat then _ else _) as [rt1 [x|e]] eqn:Hv; [|done].
  assert (shape rt1 = shape rt) as Hsh1.
  { destruct (stack_height (rt_tc rt) =? 0)%nat; [by injection Hv as <- _|]. by apply verify_and_update_keeps in Hv. }
  clear Hv.
  destruct (push l pis data _) as [rt2 [y|e]] eqn:Hpush; [|done].
  apply push_shape in Hpush as ([i Hs2] & Hc2 & _).
  destruct (process_executable_chain _ _ _ data rt2) as [rt3 [z|e]] eqn:Hrun; [|done].
  apply (chain_agree _ _ data rt2 (fun _ _ _ _ _ => eq_refl)) in Hrun; [|intros; by apply invoke_keeps].
  destruct (if (stack_height (rt_tc rt) =? 0)%nat then _ else _) as [rt4 r] eqn:Hv2. injection Hp as <- _ ->.
  assert (shape rt4 = shape rt3) as Hsh4.
  { destruct (stack_height (rt_tc rt) =? 0)%nat; [by apply verify_keeps in Hv2|by apply verify_and_update_keeps in Hv2]. }
  rewrite Hrun in Hsh4. apply shape_eq in Hsh4 as [Hs4 Hc4].
  rewrite <- Hsh1. erewrite <- (record_shape rt1). eapply (pop_shape _ rt4 i); [by rewrite Hs4|by rewrite Hc4].
Qed.

(** Fuel that the capacity of the stack does not use does not matter. *)
Lemma process_fuel fuel fuel' data l pis rt :
  (instruction_context_capacity (rt_tc rt) - stack_height (rt_tc rt) < fuel <= fuel')%nat ->
  process fuel' data l pis rt = process fuel data l pis rt.
Proof.
  revert fuel' data l pis rt. induction fuel as [|fuel IH]; intros fuel' data l pis rt Hf; [lia|].
  destruct fuel' as [|fuel']; [lia|]. cbn [process_instruction].
  destruct (match last pis with Some i => _ | None => _ end); [|done].
  destruct (if (stack_height (rt_tc rt) =? 0)%nat then _ else _) as [rt1 [x|e]] eqn:Hv; [|done].
  assert (shape rt1 = shape rt) as Hsh1.
  { destruct (stack_height (rt_tc rt) =? 0)%nat; [by injection Hv as <- _|]. by apply verify_and_update_keeps in Hv. }
  clear Hv.
  match goal with |- context [push l pis data ?r] => set (rtr := r) end.
  assert (shape rtr = shape rt) as Hshr by (unfold rtr; by rewrite record_shape).
  destruct (push l pis data rtr) as [rt2 [y|e]] eqn:Hpush; [|done].
  apply push_shape in Hpush as ([i Hs2] & Hc2 & Hlt). apply shape_eq in Hshr as [Hsr Hcr].
  rewrite Hsr in Hs2. rewrite Hcr in Hc2, Hlt. unfold stack_height in *. rewrite Hsr in Hlt.
  replace (process_executable_chain _ _ (invoke_with (process fuel')) data rt2)
    with (process_executable_chain builtin_programs native_loader (invoke_with (process fuel)) data rt2); [done|].
  apply chain_agree; [|intros; apply invoke_keeps, process_keeps].
  intros native ix signers rt3 Hsh3. apply invoke_agree. intros data' l' pis'. symmetry.
  apply shape_eq in Hsh3 as [Hs3 Hc3]. apply IH. rewrite Hc3, Hc2. unfold stack_height.
  rewrite Hs3, Hs2, length_app. cbn. lia.
Qed.

End Nesting.

(** ** Lemmas: the meter *)

Lemma adjust_meter_0 rt rt' x :
  I64_MIN <= adm_delta (rt_meter rt) <= I64_MAX -> adjust_meter 0 rt = (rt', Ok x) -> rt_meter rt' = rt_meter rt.
Proof.
  intros Hd Ha. assert (adjust_delta_unchecked (rt_meter rt) 0 = rt_meter rt) as Hm.
  { unfold adjust_delta_unchecked, sat_add_i64. destruct (rt_meter rt) as [mx ini d]. cbn in *. f_equal. lia. }
  unfold adjust_meter in Ha. apply M_bind_Ok in Ha as (rt1 & cap & Hc & Ha). injection Hc as <- <-.
  destruct (feature _ _); inv_M Ha; [|done]. cbn.
  unfold adjust_delta in Ha0. destruct (_ <? _); [done|]. injection Ha0 as <-. done.
Qed.

Lemma account_meter_kept program_id ic before ia s rt rt' s' :
  I64_MIN <= adm_delta (rt_meter rt) <= I64_MAX ->
  verify_and_update_account program_id ic before ia s rt = (rt', Ok s') -> rt_meter rt' = rt_meter rt.
Proof.
  destruct s as [ps qs]. unfold verify_and_update_account. intros Hd H. inv_M H.
  assert (rt0 = rt) as -> by (destruct before; inv_M Ha2; done). destruct a4.
  apply pre_account_verify_allowed, updated_pre_account in Ha4 as [_ Hpa]. rewrite Hpa in Ha7.
  unfold data_len_delta, sat_sub_i64 in Ha7. rewrite Z.sub_diag in Ha7.
  change (Z.max I64_MIN (Z.min I64_MAX 0)) with 0 in Ha7. by apply adjust_meter_0 in Ha7.
Qed.

(** ** Samples *)

(** Program 77 passes a transfer of the payer 7 to the account 8 on to the
    system program.  It is deployed under the loader, whose entry point
    stands for the virtual machine running it. *)
Module Sample.

#[local] Instance loader_bincode : Bincode UpgradeableLoaderState := {
  serialize := fun _ => []; deserialize := fun _ => None;
}.

Definition transfer_ix : Instruction :=
  {| ix_program_id := system_program_id;
     ix_accounts := [{| am_pubkey := 7%N; am_is_signer := true; am_is_writable := true |};
                     {| am_pubkey := 8%N; am_is_signer := false; am_is_writable := true |}];
     ix_data := [0; 30] |}.

Definition programs : list BuiltinProgram :=
  [{| bp_program_id := bpf_loader_id;
      bp_process_instruction := fun _ _ rt =>
        Invoke [] (rt_remaining rt - 100) false transfer_ix []
          (fun rt => Finish [] (rt_remaining rt) (Ok tt)) |};
   {| bp_program_id := system_program_id; bp_process_instruction := system_entrypoint |}].

Definition no_loader : Entrypoint := fun _ _ rt => Finish [] (rt_remaining rt) (Err IE.UnsupportedProgramId).

Definition message : SanitizedMessage :=
  SanitizedLegacy
    {| lm_header := {| num_required_signatures := 1; num_readonly_signed_accounts := 0;
                       num_readonly_unsigned_accounts := 2 |};
       lm_account_keys := [7%N; 8%N; system_program_id; 77%N];
       lm_recent_blockhash := 9%N;
       lm_instructions := [{| program_id_index := 3; ci_accounts := [0%nat; 1%nat; 2%nat]; ci_data := [] |}] |}.

Definition executable (owner : Pubkey) : AccountSharedData :=
  {| acc_lamports := 1; acc_data := []; acc_owner := owner; acc_executable := true; acc_rent_epoch := 0 |}.

Definition loaded : list (Pubkey * AccountSharedData) :=
  [(7%N, account_new 100 0 system_program_id); (8%N, account_new 50 0 system_program_id);
   (system_program_id, executable native_loader_id); (77%N, account_default);
   (77%N, executable bpf_loader_id); (bpf_loader_id, executable native_loader_id)].

Definition sysvars : SysvarCache :=
  {| sv_clock := None; sv_rent := None; sv_slot_hashes := None; sv_recent_blockhashes := None;
     sv_stake_history := None |}.

Definition runtime : Runtime :=
  runtime_new (transaction_context_new loaded 5) rent_default sysvars budget_default
    (fun _ => true) 9%N 5000 0.

(** In the middle of a call of program 77 that has grown its account 8. *)
Definition growing : Runtime :=
  let a := account_new 50 0 77%N in
  let ia := {| index_in_transaction := 0; index_in_caller := 1; ia_is_signer := false;
               ia_is_writable := true |} in
  set_pre_accounts
    (runtime_new
       {| tc_account_keys := [8%N; 77%N];
          tc_accounts := [set_data a [0; 0; 0]; executable bpf_loader_id];
          instruction_context_capacity := 5; instruction_stack := [0%nat];
          instruction_trace := [[{| nesting_level := 0; program_accounts := [1%nat];
                                    instruction_accounts := [ia]; instruction_data := [] |}]] |}
       rent_default sysvars budget_default (fun _ => true) 9%N 5000 0)
    [pre_account_new 8%N a].

End Sample.

#[local] Existing Instance Sample.loader_bincode.

(** ** Properties *)

(** C15: Programs are isolated from each other.  Whatever programs a message
    runs, and however they call each other, a message that succeeds conserves
    the lamports of its accounts; an account that no instruction names as
    writable, and an executable account, is exactly as it was; rent epochs
    do not change; and an account whose owner did not run keeps its data,
    owner and flags and loses no lamports.  The account of the instructions
    sysvar, which the runtime itself updates, is exempt. *)
Theorem message_isolation `{Bincode UpgradeableLoaderState} (builtin_programs : list BuiltinProgram)
    (native_loader : Entrypoint) (m : SanitizedMessage) (program_indices : list (list nat))
    (loaded : list (Pubkey * AccountSharedData)) (capacity : nat) (rent : Rent) (cache : SysvarCache)
    (budget : ComputeBudget) (fs : FeatureSet) (blockhash : Hash) (lamports_per_signature data_len : Z)
    (rt' : Runtime) (units delta : Z)
    (Hlen : (account_keys_len (message_account_keys m) <= length loaded)%nat)
    (Hkeys : NoDup (take (account_keys_len (message_account_keys m)) (map fst loaded)))
    (Hsane : Forall (fun ix => Forall (fun i => i < account_keys_len (message_account_keys m))%nat
                                 (ci_accounts ix)) (message_instructions m))
    (Hrun : process_message builtin_programs native_loader m program_indices
              (runtime_new (transaction_context_new loaded capacity) rent cache budget fs blockhash
                 lamports_per_signature data_len) = Returns (rt', units, Ok delta)) :
  let loaded' := deconstruct (rt_tc rt') in
  map fst loaded' = map fst loaded
  /\ lamports_of (map snd loaded') = lamports_of (map snd loaded)
  /\ forall i key a, loaded !! i = Some (key, a) -> key <> sysvar_instructions_id ->
       exists a', loaded' !! i = Some (key, a')
         /\ evolved (names_writable m i)
              (ran_in (map fst loaded) (instruction_trace (rt_tc rt'))) a a'.
Proof.
  cbn zeta. apply (message_isolated _ _ m (map fst loaded) (map snd loaded)) in Hrun;
    [|done|by rewrite length_map|apply message_inv_new|done].
  destruct Hrun as [_ Hk Hl Hsum Hev _ _]. unfold deconstruct. rewrite Hk. rewrite !length_map in Hl.
  assert (length (map fst loaded) = length (tc_accounts (rt_tc rt'))) as Hlens by (rewrite length_map; lia).
  split; [by apply fst_zip; lia|]. split.
  { rewrite <- Hsum. f_equal. apply snd_zip. lia. }
  intros i key a Hi Hne. destruct (Hev i a) as (a' & Ha' & He).
  - rewrite list_lookup_fmap, Hi. by intros [= ->].
  - by rewrite list_lookup_fmap, Hi.
  - exists a'. split; [|done]. apply lookup_zip_with_Some. eexists _, _. split; [done|].
    by rewrite list_lookup_fmap, Hi.
Qed.

Lemma message_isolation_witness :
  exists rt' units delta,
    process_message Sample.programs Sample.no_loader Sample.message [[5%nat; 4%nat]] Sample.runtime
      = Returns (rt', units, Ok delta)
    /\ map acc_lamports (tc_accounts (rt_tc rt')) = [70; 80; 1; 0; 1; 1]
    /\ lamports_of (map snd (deconstruct (rt_tc rt'))) = lamports_of (map snd Sample.loaded).
Proof.
  destruct (process_message Sample.programs Sample.no_loader Sample.message [[5%nat; 4%nat]] Sample.runtime)
    as [[[rt' units] [delta|e]]|] eqn:E; [|by vm_compute in E..].
  exists rt', units, delta. split; [done|]. split.
  - vm_compute in E. injection E as <- _ _. done.
  - apply (message_isolation Sample.programs Sample.no_loader Sample.message [[5%nat; 4%nat]] Sample.loaded 5
      rent_default Sample.sysvars budget_default (fun _ => true) 9%N 5000 0 rt' units delta); [..|exact E].
    + vm_compute. lia.
    + refine (bool_decide_unpack _ _). by vm_compute.
    + repeat constructor; vm_compute; lia.
Defined.

(** The nesting of calls is bounded.  The depth that a message's
    instructions are run with is enough: any greater depth of recursion gives
    the same result, because the capacity of the stack ends the calls first. *)
Theorem process_instruction_fuel `{Bincode UpgradeableLoaderState} (builtin_programs : list BuiltinProgram)
    (native_loader : Entrypoint) (fuel : nat) (data : list Z) (l : list InstructionAccount)
    (pis : list nat) (rt : Runtime)
    (Hfuel : (instruction_context_capacity (rt_tc rt) - stack_height (rt_tc rt) < fuel)%nat) :
  process_instruction builtin_programs native_loader fuel data l pis rt
  = process_instruction builtin_programs native_loader
      (S (instruction_context_capacity (rt_tc rt) - stack_height (rt_tc rt))) data l pis rt.
Proof. apply process_fuel. lia. Qed.

Lemma process_instruction_fuel_witness :
  let l := [{| index_in_transaction := 0; index_in_caller := 2; ia_is_signer := true; ia_is_writable := true |};
            {| index_in_transaction := 1; index_in_caller := 3; ia_is_signer := false; ia_is_writable := true |};
            {| index_in_transaction := 2; index_in_caller := 4; ia_is_signer := false; ia_is_writable := false |}] in
  process_instruction Sample.programs Sample.no_loader 100 [] l [5%nat; 4%nat] Sample.runtime
  = process_instruction Sample.programs Sample.no_loader 6 [] l [5%nat; 4%nat] Sample.runtime
  /\ (process_instruction Sample.programs Sample.no_loader 6 [] l [5%nat; 4%nat] Sample.runtime).2 = Ok tt.
Proof.
  intros l. split; [|by vm_compute].
  apply (process_instruction_fuel Sample.programs Sample.no_loader 100 [] l [5%nat; 4%nat] Sample.runtime).
  vm_compute. lia.
Defined.

(** Growth of accounts inside calls is not metered.  The check around a
    cross-program call compares the length of an account's data with the
    pre-account that it has just updated, so that it never changes the
    accounts data meter, however much the accounts have grown. *)
Theorem call_growth_unmetered (before : bool) (l : list InstructionAccount) (rt rt' : Runtime) (x : unit)
    (Hdelta : I64_MIN <= adm_delta (rt_meter rt) <= I64_MAX)
    (Hrun : verify_and_update l before rt = (rt', Ok x)) :
  rt_meter rt' = rt_meter rt.
Proof.
  unfold verify_and_update in Hrun. inv_M Hrun.
  apply (visit_loop_inv (fun _ _ rt1 => rt_meter rt1 = rt_meter rt) _ l) with (done := []) in Ha1; [done| |done].
  intros _ ia [ps qs] rt1 rt2 s' _ Hm Hw. rewrite <- Hm in Hdelta |- *. by eapply account_meter_kept.
Qed.

(** The account of the sample has grown by three bytes. *)
Lemma call_growth_unmetered_witness :
  let l := [{| index_in_transaction := 0; index_in_caller := 1; ia_is_signer := false; ia_is_writable := true |}] in
  exists rt', verify_and_update l true Sample.growing = (rt', Ok tt)
    /\ rt_meter rt' = rt_meter Sample.growing
    /\ map (fun a => length (acc_data a)) (tc_accounts (rt_tc rt')) = [3%nat; 0%nat]
    /\ map (fun p => length (acc_data (pa_account p))) (rt_pre_accounts Sample.growing) = [0%nat].
Proof.
  intros l. destruct (verify_and_update l true Sample.growing) as [rt' [[]|e]] eqn:E; [|by vm_compute in E].
  exists rt'. split; [done|]. split.
  - apply (call_growth_unmetered true l Sample.growing rt' tt); [|exact E]. vm_compute. split; discriminate.
  - vm_compute in E. injection E as <-. done.
Defined.
