(* ===== verification/Arbitrage.v ===== *)
(** * Arbitrage paths

    Models runtime/src/mev/arbitrage.rs and the data types of
    runtime/src/mev.rs: paths through Orca pools, the optimal input of a path
    ([get_path_calculation_output]), and the swap transaction built for it
    ([create_swap_tx]).  The token swap program (crate spl-token-swap) is the
    parameter [TokenSwap]. *)

From S2P Require Import Prelude Keys Message Errors Transaction Float64.
From Stdlib Require String.
From Stdlib Require Import SpecFloat.

(** ** Data *)

Inductive TradeDirection := AtoB | BtoA.

Record PairInfo := {
  pi_pool : Pubkey;
  pi_direction : TradeDirection;
}.

#[global] Instance TradeDirection_eq_dec : EqDecision TradeDirection.
Proof. solve_decision. Defined.
#[global] Instance PairInfo_eq_dec : EqDecision PairInfo.
Proof. solve_decision. Defined.

Record MevPath := {
  mp_name : String.string;
  mp_path : list PairInfo;
}.

Record InputOutputPairs := { token_in : Z; token_out : Z }.

Record MevOpportunityWithInput := {
  mo_opportunity : MevPath;
  mo_input_output_pairs : list InputOutputPairs;
}.

Record PathCalculationOutput (F : Type) := {
  optimal_input : F;
  marginal_price : F;
  source_token_balance : option Z;
}.
Arguments Build_PathCalculationOutput {F} _ _ _.
Arguments optimal_input {F} _.
Arguments marginal_price {F} _.
Arguments source_token_balance {F} _.

Record MevTxOutput := {
  mto_sanitized_tx : option SanitizedTransaction;
  mto_path_idx : nat;
  mto_input_output_pairs : list InputOutputPairs;
  mto_profit : Z;
  mto_marginal_price : f64;
}.

(** The fields of [spl_token_swap::curve::fees::Fees]. *)
Record Fees := {
  trade_fee_numerator : Z;
  trade_fee_denominator : Z;
  owner_trade_fee_numerator : Z;
  owner_trade_fee_denominator : Z;
  owner_withdraw_fee_numerator : Z;
  owner_withdraw_fee_denominator : Z;
  host_fee_numerator : Z;
  host_fee_denominator : Z;
}.

(** What the code calls of spl-token-swap: the two fees of an amount, the
    swap curve ([CurveCalculator::swap_without_fees], returning the source
    and the destination amount swapped), and the encoding of a swap
    instruction. *)
Class TokenSwap := {
  Calculator : Type;
  trading_fee : Fees -> Z -> option Z;
  owner_trading_fee : Fees -> Z -> option Z;
  swap_without_fees : Calculator -> Z -> Z -> Z -> TradeDirection -> option (Z * Z);
  pack_swap : Z -> Z -> list Z;
}.

(** A curve never pays out more than the pool's destination balance. *)
Class TokenSwapLaws `(TokenSwap) : Prop :=
  swap_pays_from_pool : forall c amount src dst dir s d,
    swap_without_fees c amount src dst dir = Some (s, d) -> 0 <= d <= dst.

Record OrcaPoolAddresses := {
  program_id : Pubkey;
  address : Pubkey;
  pool_a_account : Pubkey;
  pool_b_account : Pubkey;
  source : option Pubkey;
  destination : option Pubkey;
  pool_mint : Pubkey;
  pool_fee : Pubkey;
  pool_authority : Pubkey;
  pool_a_mint : Pubkey;
  pool_b_mint : Pubkey;
}.

Record OrcaPoolWithBalance `{TokenSwap} := {
  pool : OrcaPoolAddresses;
  pool_a_balance : Z;
  pool_b_balance : Z;
  source_balance : option Z;
  destination_balance : option Z;
  fees : Fees;
  curve_calculator : Calculator;
}.

(** [PoolStates(HashMap<Pubkey, OrcaPoolWithBalance>)]. *)
Definition PoolStates `{TokenSwap} : Type := gmap N OrcaPoolWithBalance.

(** ** The optimal input of a path *)

Section PathCalculation.
Context `{TokenSwap} {F : Type} `{Arith F}.
Local Open Scope arith_scope.

(** The four accumulators of the loop. *)
Record path_acc := {
  marginal_prices_acc : F;
  optimal_input_denominator : F;
  previous_ratio : F;
  total_fee_acc : F;
}.

Definition path_acc_init : path_acc :=
  {| marginal_prices_acc := of_u64 1; optimal_input_denominator := of_u64 0;
     previous_ratio := of_u64 1; total_fee_acc := of_u64 1 |}.

(** One of the three fees, [0] when its numerator is 0. *)
Definition fee_ratio (numerator denominator : Z) : F :=
  if numerator =? 0 then of_u64 0 else of_u64 numerator ⊘ of_u64 denominator.

(** [1_f64 - (host_fee + owner_fee + trade_fee)]. *)
Definition total_fee (fs : Fees) : F :=
  of_u64 1 ⊖ (fee_ratio (host_fee_numerator fs) (host_fee_denominator fs)
               ⊕ fee_ratio (owner_trade_fee_numerator fs) (owner_trade_fee_denominator fs)
               ⊕ fee_ratio (trade_fee_numerator fs) (trade_fee_denominator fs)).

(** [(token_balance_from, token_balance_to)]. *)
Definition balances_from_to (st : OrcaPoolWithBalance) (d : TradeDirection) : Z * Z :=
  match d with
  | AtoB => (pool_a_balance st, pool_b_balance st)
  | BtoA => (pool_b_balance st, pool_a_balance st)
  end.

(** The body of the loop over the pairs. *)
Definition path_step (pool_states : PoolStates) (acc : path_acc) (pair_info : PairInfo)
    : option path_acc :=
  tokens_state ← pool_states !! pi_pool pair_info;
  let '(from, to) := balances_from_to tokens_state (pi_direction pair_info) in
  let token_balance_from := of_u64 from in
  let token_balance_to := of_u64 to in
  let total_fee := total_fee (fees tokens_state) in
  let ratio := token_balance_to ⊘ token_balance_from in
  let marginal := marginal_prices_acc acc ⊗ ratio ⊗ total_fee in
  let fee_acc := total_fee_acc acc ⊗ total_fee in
  Some {| marginal_prices_acc := marginal;
          optimal_input_denominator :=
            optimal_input_denominator acc
            ⊕ fee_acc ⊗ (previous_ratio acc ⊘ token_balance_from);
          previous_ratio := previous_ratio acc ⊗ ratio;
          total_fee_acc := fee_acc |}.

Fixpoint path_loop (pool_states : PoolStates) (acc : path_acc) (path : list PairInfo)
    : option path_acc :=
  match path with
  | [] => Some acc
  | pair_info :: rest => acc ← path_step pool_states acc pair_info; path_loop pool_states acc rest
  end.

Definition get_path_calculation_output (self : MevPath) (pool_states : PoolStates)
    : option (PathCalculationOutput F) :=
  first ← head (mp_path self);
  first_state ← pool_states !! pi_pool first;
  let source_amount := source_balance first_state in
  acc ← path_loop pool_states path_acc_init (mp_path self);
  if f_gtb (marginal_prices_acc acc) (of_u64 1) then
    let optimal_input_numerator := f_sqrt (marginal_prices_acc acc) ⊖ of_u64 1 in
    Some {| optimal_input := optimal_input_numerator ⊘ optimal_input_denominator acc;
            marginal_price := marginal_prices_acc acc;
            source_token_balance := source_amount |}
  else None.

End PathCalculation.
Arguments path_acc : clear implicits.

(** ** The swap transaction *)

Record SwapArguments := {
  sa_program_id : Pubkey;
  swap_pubkey : Pubkey;
  authority_pubkey : Pubkey;
  source_pubkey : Pubkey;
  swap_source_pubkey : Pubkey;
  swap_destination_pubkey : Pubkey;
  destination_pubkey : Pubkey;
  pool_mint_pubkey : Pubkey;
  pool_fee_pubkey : Pubkey;
  token_program : Pubkey;
  amount_in : Z;
  minimum_amount_out : Z;
}.

Section SwapTransaction.
Context `{TokenSwap} `{Signing}.

Definition swap_instruction (user : Pubkey) (a : SwapArguments) : Instruction :=
  let is_signer := false in
  {| ix_program_id := sa_program_id a;
     ix_accounts :=
       [account_meta_new_readonly (swap_pubkey a) is_signer;
        account_meta_new_readonly (authority_pubkey a) is_signer;
        account_meta_new_readonly user true;
        account_meta_new (source_pubkey a) is_signer;
        account_meta_new (swap_source_pubkey a) is_signer;
        account_meta_new (swap_destination_pubkey a) is_signer;
        account_meta_new (destination_pubkey a) is_signer;
        account_meta_new (pool_mint_pubkey a) is_signer;
        account_meta_new (pool_fee_pubkey a) is_signer;
        account_meta_new_readonly (token_program a) is_signer];
     ix_data := pack_swap (amount_in a) (minimum_amount_out a) |}.

Definition create_swap_tx (swap_args_vec : list SwapArguments) (blockhash : Hash)
    (user_transfer_authority : Keypair) : outcome SanitizedTransaction :=
  let user := keypair_pubkey user_transfer_authority in
  let instructions := map (swap_instruction user) swap_args_vec in
  signed_tx ← new_signed_with_payer instructions (Some user) [user_transfer_authority] blockhash;
  unwrap (result_ok (try_from_legacy_transaction signed_tx)).

End SwapTransaction.

(** ** Lemmas: the swap transaction *)

(** What the built transaction is: a sanitized legacy transaction on the
    given blockhash, signed and paid by the user authority alone, whose
    instructions are the swaps in order. *)
Record swap_tx_for `{TokenSwap} `{Signing} (args : list SwapArguments) (bh : Hash) (kp : Keypair)
    (tx : SanitizedTransaction) (m : LegacyMessage) : Prop := {
  stf_message : st_message tx = SanitizedLegacy m;
  stf_signatures : st_signatures tx = [keypair_sign kp m];
  stf_signers : num_required_signatures (lm_header m) = 1%nat;
  stf_payer : lm_account_keys m !! 0%nat = Some (keypair_pubkey kp);
  stf_nodup : NoDup (lm_account_keys m);
  stf_blockhash : lm_recent_blockhash m = bh;
  stf_instructions : Forall2 (compiled_as (lm_account_keys m))
    (map (swap_instruction (keypair_pubkey kp)) args) (lm_instructions m);
  stf_sanitized : legacy_sanitize m = Ok tt;
  stf_mev : st_mev_keys tx = None;
}.

Section SwapLemmas.
Context `{TokenSwap} `{!Signing} `{!SigningLaws _}.

(** The ten keys of a swap besides the user's. *)
Lemma swap_keys_bound args user :
  (size (key_meta_map (map (swap_instruction user) args) (Some user)) <= 10 * length args)%nat.
Proof.
  pose (ks := fun a => [sa_program_id a; swap_pubkey a; authority_pubkey a; source_pubkey a;
                        swap_source_pubkey a; swap_destination_pubkey a; destination_pubkey a;
                        pool_mint_pubkey a; pool_fee_pubkey a; token_program a]).
  etrans; [apply (key_meta_map_size _ _ (concat (map ks args)))|].
  - intros ix k Hix Hk. apply list_elem_of_In, in_map_iff in Hix as (a & <- & Ha).
    assert (k = user \/ k ∈ ks a) as [->|Hin] by (cbn in Hk; set_solver); [by left|right].
    apply list_elem_of_In, in_concat. exists (ks a). split; [by apply in_map|].
    by apply list_elem_of_In.
  - induction args as [|a args IH]; cbn [map concat]; [done|]. rewrite length_app. cbn. lia.
Qed.

Lemma swap_signers args user ix am :
  ix ∈ map (swap_instruction user) args -> am ∈ ix_accounts ix -> am_is_signer am = true ->
  am_pubkey am = user.
Proof.
  intros Hix Ham Hs. apply list_elem_of_In, in_map_iff in Hix as (a & <- & _).
  apply list_elem_of_In in Ham. cbn in Ham.
  by repeat (destruct Ham as [<-|Ham]; [by cbn in Hs|]).
Qed.

Lemma create_swap_tx_returns args bh kp :
  (length args <= 25)%nat -> (forall a, a ∈ args -> sa_program_id a <> keypair_pubkey kp) ->
  exists tx m, create_swap_tx args bh kp = Returns tx /\ swap_tx_for args bh kp tx m.
Proof.
  intros Hlen Hprog. unfold create_swap_tx, new_signed_with_payer, legacy_new.
  set (user := keypair_pubkey kp). set (ixs := map (swap_instruction user) args).
  destruct (legacy_new_with_blockhash_sanitized ixs user 0%N) as (m & -> & Hm).
  { pose proof (swap_keys_bound args user) as Hb. fold ixs in Hb. lia. }
  assert (forall ix, ix ∈ ixs -> ix_program_id ix <> user) as Hne.
  { intros ix Hix. apply list_elem_of_In, in_map_iff in Hix as (a & <- & Ha).
    apply Hprog. by apply list_elem_of_In. }
  assert (num_required_signatures (lm_header m) = 1%nat) as Hreq.
  { rewrite (mf_signed _ _ _ _ Hm). unfold compile_keys; cbn.
    rewrite !keys_with_signer_nil by (intros; by eapply swap_signers). done. }
  cbn [mbind outcome_bind]. rewrite transaction_new_single by (done || apply Hm).
  assert (legacy_sanitize (set_blockhash m bh) = Ok tt) as Hsan by exact (mf_sanitized _ _ _ _ Hm Hne).
  pose proof (lookup_lt_Some _ _ _ (mf_payer _ _ _ _ Hm)) as Hpos.
  unfold try_from_legacy_transaction, transaction_sanitize; cbn -[legacy_sanitize].
  rewrite Hreq, Hsan. replace (1 <? 1)%nat with false by done.
  destruct (Nat.ltb_spec (length (lm_account_keys m)) 1); [lia|]. cbn.
  eexists _, (set_blockhash m bh). split; [done|]. by split; try apply Hm.
Qed.

End SwapLemmas.
