(* ===== verification/ArbitrageOptimal.v ===== *)
(** * The path formula in exact arithmetic

    [get_path_calculation_output] is generic in its arithmetic ([Arith]).
    Here it runs over the real numbers, where it is compared with the
    composition of the constant product swaps along the path: the input it
    answers is the one of greatest profit, and it answers nothing exactly
    when no input makes a profit. *)

From S2P Require Import Prelude Keys Message Errors Transaction Float64 Arbitrage.
From Stdlib Require String.
From Stdlib Require Import Reals Lra.

(** ** The real instance and the specification *)

#[global] Instance R_arith : Arith R := {
  of_u64 := IZR;
  f_add := Rplus;
  f_sub := Rminus;
  f_mul := Rmult;
  f_div := Rdiv;
  f_sqrt := sqrt;
  f_gtb x y := if Rlt_dec y x then true else false;
}.

#[local] Arguments total_fee : simpl never.

Section Exact.
Context `{TokenSwap}.
Local Open Scope R_scope.

(** What a pool keeps of [x] tokens: the trading fee and the owner's trading fee, the two
    that [get_arbitrage_tx_outputs] takes off before a swap. *)
Definition charged (fs : Fees) (x : R) : R :=
  x * (IZR (trade_fee_numerator fs) / IZR (trade_fee_denominator fs))
  + x * (IZR (owner_trade_fee_numerator fs) / IZR (owner_trade_fee_denominator fs)).

(** A constant product swap of [x] tokens: the fees are kept from the input, and what is
    paid out leaves the product of the two balances as it is. *)
Definition swap_out (st : OrcaPoolWithBalance) (d : TradeDirection) (x : R) : R :=
  let '(from, to) := balances_from_to st d in
  let net := x - charged (fees st) x in
  IZR to - IZR from * IZR to / (IZR from + net).

(** What [x] tokens become along a path. *)
Fixpoint path_out (ps : PoolStates) (path : list PairInfo) (x : R) : option R :=
  match path with
  | [] => Some x
  | p :: rest =>
      st ← ps !! pi_pool p; path_out ps rest (swap_out st (pi_direction p) x)
  end.

(** Fees with no host fee, below 100%, and no division by zero. *)
Definition plain_fees (fs : Fees) : Prop :=
  host_fee_numerator fs = 0%Z
  /\ (trade_fee_numerator fs <> 0 -> trade_fee_denominator fs <> 0)%Z
  /\ (owner_trade_fee_numerator fs <> 0 -> owner_trade_fee_denominator fs <> 0)%Z
  /\ charged fs 1 < 1.

(** Pools that can trade: positive balances, and such fees. *)
Definition tradable (ps : PoolStates) (path : list PairInfo) : Prop :=
  forall p, p ∈ path -> exists st, ps !! pi_pool p = Some st
    /\ (0 < pool_a_balance st)%Z /\ (0 < pool_b_balance st)%Z /\ plain_fees (fees st).

(** The accumulators describe the output so far as [A x / (1 + D x)]. *)
Record acc_ok (acc : path_acc R) : Prop := {
  acc_product : marginal_prices_acc acc = previous_ratio acc * total_fee_acc acc;
  acc_ratio_pos : 0 < previous_ratio acc;
  acc_fee_pos : 0 < total_fee_acc acc;
  acc_denominator : 0 <= optimal_input_denominator acc;
}.

Definition acc_out (acc : path_acc R) (x : R) : R :=
  marginal_prices_acc acc * x / (1 + optimal_input_denominator acc * x).

(** ** Lemmas *)

Lemma fee_ratio_exact n d : fee_ratio (F := R) n d = IZR n / IZR d.
Proof. unfold fee_ratio. destruct (Z.eqb_spec n 0) as [->|]; cbn; [unfold Rdiv; ring|done]. Qed.

(** Without a host fee the factor of the formula is what a pool does not keep. *)
Lemma total_fee_exact fs : plain_fees fs ->
  0 < total_fee (F := R) fs /\ forall x, x - charged fs x = total_fee fs * x.
Proof.
  intros (Hhost & _ & _ & Hlt). unfold total_fee, charged in *. rewrite !fee_ratio_exact, Hhost. cbn.
  replace (0 / IZR (host_fee_denominator fs)) with 0 by (unfold Rdiv; ring). split; [lra|]. intros x. ring.
Qed.

Lemma path_step_exact ps acc p :
  acc_ok acc -> tradable ps [p] ->
  exists st acc', ps !! pi_pool p = Some st /\ path_step ps acc p = Some acc' /\ acc_ok acc'
    /\ 0 < optimal_input_denominator acc'
    /\ forall x, 0 <= x -> acc_out acc' x = swap_out st (pi_direction p) (acc_out acc x).
Proof.
  intros [HA Hr Hf HD] Ht. destruct (Ht p) as (st & Hst & Ha & Hb & [Hfee Hnet]%total_fee_exact); [by left|].
  unfold path_step. rewrite Hst. cbn [mbind option_bind].
  destruct (balances_from_to st (pi_direction p)) as [from to] eqn:E.
  assert (0 < IZR from /\ 0 < IZR to) as [Hfrom Hto].
  { destruct (pi_direction p); cbn in E; injection E as <- <-; split; by apply IZR_lt. }
  set (f := total_fee (fees st)) in *.
  eexists st, _. split; [done|]. split; [done|]. unfold acc_out. cbn. fold f.
  assert (0 < optimal_input_denominator acc + total_fee_acc acc * f * (previous_ratio acc / IZR from)).
  { apply Rplus_le_lt_0_compat; [done|].
    repeat apply Rmult_lt_0_compat; try done. by apply Rinv_0_lt_compat. }
  split; [|split; [done|]].
  - split; cbn; [rewrite HA; unfold Rdiv; ring| | |by left].
    + repeat apply Rmult_lt_0_compat; try done. by apply Rinv_0_lt_compat.
    + by apply Rmult_lt_0_compat.
  - intros x Hx. unfold swap_out. rewrite E. cbv zeta. rewrite Hnet. fold f. rewrite HA.
    assert (0 < 1 + optimal_input_denominator acc * x).
    { pose proof (Rmult_le_pos _ _ HD Hx). lra. }
    assert (0 <= f * (previous_ratio acc * total_fee_acc acc * x)).
    { repeat apply Rmult_le_pos; lra. }
    assert (0 <= IZR from * (optimal_input_denominator acc * x)).
    { repeat apply Rmult_le_pos; lra. }
    field. split_and!; nra.
Qed.

Lemma path_loop_exact ps path : forall acc,
  acc_ok acc -> tradable ps path ->
  exists acc', path_loop ps acc path = Some acc' /\ acc_ok acc'
    /\ (path <> [] -> 0 < optimal_input_denominator acc')
    /\ forall x, 0 <= x -> path_out ps path (acc_out acc x) = Some (acc_out acc' x).
Proof.
  induction path as [|p path IH]; intros acc Hok Ht; cbn [path_loop path_out].
  { exists acc. by split_and!. }
  destruct (path_step_exact ps acc p Hok) as (st & acc1 & Hst & -> & Hok1 & HD1 & Hout).
  { intros q Hq. apply list_elem_of_singleton in Hq as ->. apply Ht. by left. }
  destruct (IH acc1 Hok1) as (acc' & E & Hok' & HD' & Hout').
  { intros q Hq. apply Ht. by right. }
  exists acc'. cbn. rewrite E, Hst. cbn. split_and!; [done..| |].
  - intros _. destruct path; [cbn in E; injection E as <-; done|by apply HD'].
  - intros x Hx. rewrite <- Hout by done. by apply Hout'.
Qed.

Lemma acc_init_out x : acc_out path_acc_init x = x.
Proof. unfold acc_out; cbn. field. Qed.

Lemma acc_init_ok : acc_ok path_acc_init.
Proof. split; cbn; lra. Qed.

(** [(sqrt A - 1) / D] maximises [A x / (1 + D x) - x] over [x >= 0]. *)
Lemma hyperbola_max A D x :
  1 < A -> 0 < D -> 0 <= x ->
  A * x / (1 + D * x) - x <= (sqrt A - 1) * (sqrt A - 1) / D.
Proof.
  intros HA HD Hx. assert (sqrt A * sqrt A = A) as Hs by (apply sqrt_sqrt; lra).
  set (s := sqrt A) in *. assert (0 <= D * x) as Hu by (apply Rmult_le_pos; lra).
  apply (Rmult_le_reg_r (D * (1 + D * x))); [apply Rmult_lt_0_compat; lra|].
  replace ((A * x / (1 + D * x) - x) * (D * (1 + D * x)))
    with (A * (D * x) - D * x * (1 + D * x)) by (field; lra).
  replace ((s - 1) * (s - 1) / D * (D * (1 + D * x)))
    with ((s - 1) * (s - 1) * (1 + D * x)) by (field; lra).
  rewrite <- Hs. pose proof (Rle_0_sqr (s - 1 - D * x)) as Hsq. unfold Rsqr in Hsq. nra.
Qed.

Lemma hyperbola_max_reached A D :
  1 < A -> 0 < D ->
  A * ((sqrt A - 1) / D) / (1 + D * ((sqrt A - 1) / D)) - (sqrt A - 1) / D
    = (sqrt A - 1) * (sqrt A - 1) / D.
Proof.
  intros HA HD. assert (sqrt A * sqrt A = A) as Hs by (apply sqrt_sqrt; lra).
  assert (0 < sqrt A) by (apply sqrt_lt_R0; lra). set (s := sqrt A) in *. rewrite <- Hs.
  field. lra.
Qed.

Lemma sqrt_above_one A : 1 < A -> 1 < sqrt A.
Proof. intros HA. rewrite <- sqrt_1 at 1. apply sqrt_lt_1; lra. Qed.

End Exact.

(** ** Sample *)

Module ExactSample.

#[global] Instance token_swap : TokenSwap := {
  Calculator := unit;
  trading_fee _ _ := Some 0;
  owner_trading_fee _ _ := Some 0;
  swap_without_fees _ _ _ _ _ := None;
  pack_swap _ _ := [];
}.

(** 0.25% for the pool, 0.05% for its owner, and a host fee. *)
Definition fees_with_host (host : Z) : Fees :=
  {| trade_fee_numerator := 25; trade_fee_denominator := 10000;
     owner_trade_fee_numerator := 5; owner_trade_fee_denominator := 10000;
     owner_withdraw_fee_numerator := 0; owner_withdraw_fee_denominator := 0;
     host_fee_numerator := host; host_fee_denominator := 10 |}.

Definition state (host a b : Z) : OrcaPoolWithBalance :=
  {| pool := {| program_id := 1%N; address := 1%N; pool_a_account := 1%N; pool_b_account := 1%N;
                source := None; destination := None; pool_mint := 1%N; pool_fee := 1%N;
                pool_authority := 1%N; pool_a_mint := 1%N; pool_b_mint := 1%N |};
     pool_a_balance := a; pool_b_balance := b; source_balance := None;
     destination_balance := None; fees := fees_with_host host; curve_calculator := tt |}.

Definition pools : PoolStates := {[ 1%N := state 0 10 40; 2%N := state 0 10 10 ]}.

(** Two pools that pay a tenth to the host, whose prices differ by a tenth. *)
Definition host_pools : PoolStates := {[ 1%N := state 1 10 11; 2%N := state 1 10 10 ]}.

Definition path : MevPath :=
  {| mp_name := String.EmptyString;
     mp_path := [{| pi_pool := 1%N; pi_direction := AtoB |};
                 {| pi_pool := 2%N; pi_direction := AtoB |}] |}.

End ExactSample.

Lemma sample_tradable : tradable ExactSample.pools (mp_path ExactSample.path).
Proof.
  intros p Hp. cbn in Hp.
  assert (plain_fees (ExactSample.fees_with_host 0)) as Hfee.
  { split_and!; try done. unfold charged. cbn. lra. }
  repeat (apply elem_of_cons in Hp as [->|Hp];
    [eexists; split; [reflexivity|]; cbn; split_and!; [lia|lia|exact Hfee]|]).
  by apply not_elem_of_nil in Hp.
Qed.

(** ** Property *)

(** C33: In exact arithmetic the path formula is optimal for pools without a host fee.
    For a non-empty path through pools with positive balances, no host fee and other fees
    below 100%, let [out x] be what [x] tokens become by the constant product swaps of the
    path, each of which keeps the pool's trading fee and the owner's trading fee from its
    input.  If the formula answers an input, that input is positive, makes a positive
    profit, and no non-negative input makes a larger one; if it answers nothing, no
    non-negative input makes a profit. *)
Theorem optimal_input_maximises_profit `{TokenSwap} (path : MevPath) (ps : PoolStates)
    (Hne : mp_path path <> []) (Ht : tradable ps (mp_path path)) :
  exists out, (forall x, (0 <= x)%R -> path_out ps (mp_path path) x = Some (out x))
    /\ match get_path_calculation_output (F := R) path ps with
       | Some r =>
           (0 < optimal_input r /\ 0 < out (optimal_input r) - optimal_input r
            /\ forall x, 0 <= x -> out x - x <= out (optimal_input r) - optimal_input r)%R
       | None => forall x, (0 <= x)%R -> (out x <= x)%R
       end.
Proof.
  destruct (path_loop_exact ps (mp_path path) path_acc_init acc_init_ok Ht)
    as (acc & E & Hok & HD & Hout). specialize (HD Hne).
  exists (acc_out acc). split.
  { intros x Hx. rewrite <- (Hout x Hx). by rewrite acc_init_out. }
  unfold get_path_calculation_output. rewrite E.
  destruct (mp_path path) as [|p rest] eqn:Ep; [done|]. cbn [head mbind option_bind].
  destruct (Ht p) as (st & Hst & _); [by left|]. rewrite Hst. cbn -[sqrt].
  destruct Hok as [HA Hr Hf HD0].
  destruct (Rlt_dec 1 (marginal_prices_acc acc)) as [H1|H1]; cbn -[sqrt].
  - pose proof (sqrt_above_one _ H1) as Hs. unfold acc_out.
    rewrite hyperbola_max_reached by done. split_and!.
    + apply Rdiv_lt_0_compat; lra.
    + apply Rdiv_lt_0_compat; [apply Rmult_lt_0_compat; lra|done].
    + intros x Hx. by apply hyperbola_max.
  - intros x Hx. unfold acc_out.
    assert (0 <= optimal_input_denominator acc * x)%R by (apply Rmult_le_pos; lra).
    apply (Rmult_le_reg_r (1 + optimal_input_denominator acc * x)); [lra|].
    unfold Rdiv. rewrite Rmult_assoc, Rinv_l by lra. nra.
Qed.

Lemma optimal_input_maximises_profit_witness :
  exists out, (forall x, (0 <= x)%R ->
                 path_out ExactSample.pools (mp_path ExactSample.path) x = Some (out x))
    /\ match get_path_calculation_output (F := R) ExactSample.path ExactSample.pools with
       | Some r =>
           (0 < optimal_input r /\ 0 < out (optimal_input r) - optimal_input r
            /\ forall x, 0 <= x -> out x - x <= out (optimal_input r) - optimal_input r)%R
       | None => forall x, (0 <= x)%R -> (out x <= x)%R
       end.
Proof.
  apply (optimal_input_maximises_profit ExactSample.path ExactSample.pools);
    [discriminate|exact sample_tradable].
Defined.

(** With a host fee it is not: the formula takes the host fee off as well, although it is
    not taken off the input of a swap.  On two pools that pay a tenth to the host it answers
    nothing, while a tenth of a token makes a profit. *)
Theorem host_fee_hides_profit :
  get_path_calculation_output (F := R) ExactSample.path ExactSample.host_pools = None
  /\ exists y, path_out ExactSample.host_pools (mp_path ExactSample.path) (1 / 10)%R = Some y /\ (1 / 10 < y)%R.
Proof.
  assert (ExactSample.host_pools !! 1%N = Some (ExactSample.state 1 10 11)) as H1 by reflexivity.
  assert (ExactSample.host_pools !! 2%N = Some (ExactSample.state 1 10 10)) as H2 by reflexivity.
  split.
  - unfold get_path_calculation_output, path_loop, path_step. cbn -[total_fee sqrt ExactSample.host_pools].
    rewrite H1, H2. cbn -[total_fee sqrt].
    destruct (Rlt_dec _ _) as [Hlt|]; [exfalso|done]. revert Hlt. unfold total_fee. rewrite !fee_ratio_exact. cbn. lra.
  - cbn -[swap_out ExactSample.host_pools]. rewrite H1, H2. eexists. split; [reflexivity|].
    unfold swap_out, charged. cbn. lra.
Qed.
