(* ===== verification/Mev.v ===== *)
(** * The MEV component

    Models runtime/src/mev.rs ([Mev] and its methods), runtime/src/mev/utils.rs
    ([MevConfig]) and the part of runtime/src/accounts.rs that collects the
    monitored accounts of a transaction ([MevAccounts::get_accounts_data]).

    The log channel is modelled by its output: the list of messages a call
    sends, in order.  The formats of pool and token accounts and program
    address derivation belong to spl-token-swap, spl-token and the
    cryptographic library and are the parameter [OnChain]; the accounts
    database at a fixed root is a lookup function. *)

From S2P Require Import Prelude Keys Message Errors Transaction AccountLocks Float64 Account EpochSchedule RentCollector Arbitrage.
From Stdlib Require String.
From Stdlib Require Import SpecFloat.

(** ** Loaded accounts *)

Abbreviation TransactionAccount := (Pubkey * AccountSharedData)%type.

Inductive MevAccountOrIdx :=
| Idx (idx : nat)
| ReadAccount (acc : TransactionAccount).

Record MevPoolAccounts := {
  mpa_pool : Pubkey;
  mpa_source : option Pubkey;
  mpa_destination : option Pubkey;
  mpa_token_a : Pubkey;
  mpa_token_b : Pubkey;
  mpa_pool_mint : Pubkey;
  mpa_pool_fee : Pubkey;
  mpa_pool_authority : Pubkey;
}.

Record MevAccounts := {
  pool_accounts : list MevPoolAccounts;
  ma_token_program : Pubkey;
  ma_user_authority : option Pubkey;
  pubkey_account_map : gmap N MevAccountOrIdx;
}.

Section GetAccountsData.
(** [accounts_db.load_with_fixed_root(ancestors, pubkey, load_zero_lamports)]. *)
Variable load_with_fixed_root : Pubkey -> option (AccountSharedData * Slot).
Variable writable_accounts_map : gmap N nat.

(** The closure [insert_account_in_map]. *)
Definition insert_account_in_map (m : gmap N MevAccountOrIdx) (pubkey : Pubkey)
    : gmap N MevAccountOrIdx :=
  let acc := match writable_accounts_map !! pubkey with
             | Some idx => Idx idx
             | None =>
                 let '(account, _) := default (account_default, 0) (load_with_fixed_root pubkey) in
                 ReadAccount (pubkey, account)
             end in
  <[pubkey := acc]> m.

(** The keys of a pool in the order the loop inserts them. *)
Definition pool_keys_in_order (pk : MevPoolKeys) : list Pubkey :=
  [mpk_pool pk; mpk_token_a pk; mpk_token_b pk; mpk_pool_mint pk; mpk_pool_fee pk;
   mpk_pool_authority pk] ++ option_list (mpk_source pk) ++ option_list (mpk_destination pk).

Definition pool_accounts_of (pk : MevPoolKeys) : MevPoolAccounts :=
  {| mpa_pool := mpk_pool pk; mpa_source := mpk_source pk; mpa_destination := mpk_destination pk;
     mpa_token_a := mpk_token_a pk; mpa_token_b := mpk_token_b pk;
     mpa_pool_mint := mpk_pool_mint pk; mpa_pool_fee := mpk_pool_fee pk;
     mpa_pool_authority := mpk_pool_authority pk |}.

Definition get_accounts_data (mev_keys : MevKeys) : MevAccounts :=
  let m := fold_left (fun m pk => fold_left insert_account_in_map (pool_keys_in_order pk) m)
             (mk_pool_keys mev_keys) ∅ in
  let m := insert_account_in_map m (mk_token_program mev_keys) in
  let m := fold_left insert_account_in_map (option_list (mk_user_authority mev_keys)) m in
  {| pool_accounts := map pool_accounts_of (mk_pool_keys mev_keys);
     ma_token_program := mk_token_program mev_keys;
     ma_user_authority := mk_user_authority mev_keys;
     pubkey_account_map := m |}.

End GetAccountsData.

Record LoadedTransaction := {
  lt_accounts : list TransactionAccount;
  lt_mev_accounts : option MevAccounts;
  lt_program_indices : list (list nat);
  lt_rent : Z;
  lt_rent_debits : RentDebits;
}.

(** ** Parameters *)

(** The token account fields the code reads. *)
Record TokenAccount := { ta_mint : Pubkey; ta_amount : Z }.

(** [SwapVersion::unpack] with [fees()] and [swap_curve().calculator],
    [spl_token::state::Account::unpack], and the address part of
    [Pubkey::find_program_address]. *)
Class OnChain `{TokenSwap} := {
  ProgramError : Type;
  swap_unpack : list Z -> result ProgramError (Fees * Calculator);
  token_unpack : list Z -> result ProgramError TokenAccount;
  find_program_address : Pubkey -> Pubkey -> Pubkey;
}.

(** Token amounts are 64-bit. *)
Class OnChainLaws `(OnChain) : Prop :=
  token_amount_u64 : forall data acc, token_unpack data = Ok acc -> u64 (ta_amount acc).

(** ** Configuration and state *)

Record MevConfig := {
  log_path : String.string;
  cfg_watched_programs : list Pubkey;
  cfg_orca_accounts : list OrcaPoolAddresses;
  cfg_mev_paths : list MevPath;
  user_authority_path : option String.string;
  cfg_minimum_profit : gmap N Z;
}.

Record Mev `{Signing} := {
  watched_programs : gset N;
  orca_monitored_accounts : list OrcaPoolAddresses;
  mev_paths : list MevPath;
  user_authority : option Keypair;
  minimum_profit : gmap N Z;
}.

Record ExecutedTransactionOutput := {
  eto_transaction_hash : Hash;
  eto_transaction_signature : Signature;
  is_successful : bool;
  possible_profit : Z;
}.

Record PrePostPoolStates `{TokenSwap} := {
  pp_transaction_hash : Hash;
  pp_transaction_signature : Signature;
  pp_slot : Slot;
  orca_pre_tx_pool : PoolStates;
  orca_post_tx_pool : PoolStates;
}.

Inductive MevMsg `{TokenSwap} :=
| Log (states : PrePostPoolStates)
| Opportunities (outputs : list MevTxOutput)
| ExecutedTransaction (output : ExecutedTransactionOutput)
| Exit.

(** The check of one configured path in [Mev::new]. *)
Definition check_path (path : MevPath) : outcome MevPath :=
  match head (mp_path path), last (mp_path path) with
  | Some pair_a, Some pair_b => if decide (pair_a = pair_b) then Panics else Returns path
  | _, _ => Panics
  end.

(** [Mev::new]; [read_keypair] reads and parses the authority's key file. *)
Definition mev_new `{Signing} (read_keypair : String.string -> option Keypair) (config : MevConfig)
    : outcome Mev :=
  paths ← map_outcome check_path (cfg_mev_paths config);
  authority ← match user_authority_path config with
              | None => Returns None
              | Some path => kp ← unwrap (read_keypair path); Returns (Some kp)
              end;
  Returns {| watched_programs := list_to_set (cfg_watched_programs config);
             orca_monitored_accounts := cfg_orca_accounts config;
             mev_paths := paths;
             user_authority := authority;
             minimum_profit := cfg_minimum_profit config |}.

(** ** Marking a transaction *)

Section Monitoring.
Context `{Signing}.

Definition is_monitored_account (self : Mev) (tx : SanitizedTransaction) : bool :=
  existsb (fun account_key => bool_decide (account_key ∈ watched_programs self))
    (account_keys_iter (message_account_keys (st_message tx))).

Definition mev_pool_keys (p : OrcaPoolAddresses) : MevPoolKeys :=
  {| mpk_pool := address p; mpk_source := source p; mpk_destination := destination p;
     mpk_token_a := pool_a_account p; mpk_token_b := pool_b_account p;
     mpk_pool_mint := pool_mint p; mpk_pool_fee := pool_fee p;
     mpk_pool_authority := pool_authority p |}.

Definition mev_keys_of (self : Mev) : MevKeys :=
  {| mk_pool_keys := map mev_pool_keys (orca_monitored_accounts self);
     mk_token_program := spl_token_id;
     mk_user_authority := keypair_pubkey <$> user_authority self |}.

Definition fill_tx_mev_accounts (self : Mev) (tx : SanitizedTransaction) : SanitizedTransaction :=
  if is_monitored_account self tx then
    {| st_message := st_message tx; st_message_hash := st_message_hash tx;
       st_is_simple_vote_tx := st_is_simple_vote_tx tx; st_signatures := st_signatures tx;
       st_mev_keys := Some (mev_keys_of self) |}
  else tx.

End Monitoring.

(** ** Reading the pools of a loaded transaction *)

Section PoolReading.
Context `{OnChain}.

(** The closure [get_account]: both index operations panic when absent. *)
Definition get_account (lt : LoadedTransaction) (ma : MevAccounts) (pubkey : Pubkey)
    : outcome TransactionAccount :=
  entry ← unwrap (pubkey_account_map ma !! pubkey);
  match entry with
  | Idx idx => unwrap (lt_accounts lt !! idx)
  | ReadAccount acc => Returns acc
  end.

(** The owned token account of a pool, with its amount, when configured. *)
Definition owned_token_account (lt : LoadedTransaction) (ma : MevAccounts) (key : option Pubkey)
    : outcome (result ProgramError (option (Pubkey * Z))) :=
  match key with
  | None => Returns (Ok None)
  | Some k =>
      '(pubkey, account) ← get_account lt ma k;
      Returns (match token_unpack (acc_data account) with
               | Ok spl_acc => Ok (Some (pubkey, ta_amount spl_acc))
               | Err e => Err e
               end)
  end.

(** [r?] in a closure that may also panic. *)
Definition try_ {A B} (r : result ProgramError A) (k : A -> outcome (result ProgramError B))
    : outcome (result ProgramError B) :=
  match r with Ok a => k a | Err e => Returns (Err e) end.

Definition read_pool (lt : LoadedTransaction) (ma : MevAccounts) (mev_account : MevPoolAccounts)
    : outcome (result ProgramError (Pubkey * OrcaPoolWithBalance)) :=
  pool_acc ← get_account lt ma (mpa_pool mev_account);
  let program_id := acc_owner pool_acc.2 in
  let pool_authority := find_program_address (mpa_pool mev_account) program_id in
  try_ (swap_unpack (acc_data pool_acc.2)) (fun '(pool_fees, calculator) =>
  pool_a_acc ← get_account lt ma (mpa_token_a mev_account);
  try_ (token_unpack (acc_data pool_a_acc.2)) (fun pool_a_account =>
  pool_b_acc ← get_account lt ma (mpa_token_b mev_account);
  try_ (token_unpack (acc_data pool_b_acc.2)) (fun pool_b_account =>
  src ← owned_token_account lt ma (mpa_source mev_account);
  try_ src (fun pool_source_pubkey_amount =>
  dst ← owned_token_account lt ma (mpa_destination mev_account);
  try_ dst (fun pool_destination_pubkey_amount =>
  mint_acc ← get_account lt ma (mpa_pool_mint mev_account);
  fee_acc ← get_account lt ma (mpa_pool_fee mev_account);
  Returns (Ok (pool_acc.1,
    {| pool := {| program_id := program_id;
                  address := pool_acc.1;
                  pool_a_account := pool_a_acc.1;
                  pool_b_account := pool_b_acc.1;
                  source := fst <$> pool_source_pubkey_amount;
                  destination := fst <$> pool_destination_pubkey_amount;
                  pool_mint := mint_acc.1;
                  pool_fee := fee_acc.1;
                  pool_authority := pool_authority;
                  pool_a_mint := ta_mint pool_a_account;
                  pool_b_mint := ta_mint pool_b_account |};
       pool_a_balance := ta_amount pool_a_account;
       pool_b_balance := ta_amount pool_b_account;
       source_balance := snd <$> pool_source_pubkey_amount;
       destination_balance := snd <$> pool_destination_pubkey_amount;
       fees := pool_fees;
       curve_calculator := calculator |}))))))).

(** [collect::<Result<PoolStates, _>>()]: stops at the first error; a later
    pool with the same key replaces an earlier one. *)
Fixpoint collect_pools (lt : LoadedTransaction) (ma : MevAccounts) (l : list MevPoolAccounts)
    (acc : PoolStates) : outcome (result ProgramError PoolStates) :=
  match l with
  | [] => Returns (Ok acc)
  | p :: rest =>
      r ← read_pool lt ma p;
      match r with
      | Err e => Returns (Err e)
      | Ok (k, st) => collect_pools lt ma rest (<[k := st]> acc)
      end
  end.

Definition get_all_orca_monitored_accounts (loaded_transaction : LoadedTransaction)
    : outcome (option (result ProgramError PoolStates)) :=
  match lt_mev_accounts loaded_transaction with
  | None => Returns None
  | Some ma =>
      r ← collect_pools loaded_transaction ma (pool_accounts ma) ∅;
      Returns (Some r)
  end.

End PoolReading.

(** ** Searching for arbitrage *)

(** [vec.last_mut()] then an assignment to [minimum_amount_out]. *)
Definition set_minimum_amount_out (a : SwapArguments) (m : Z) : SwapArguments :=
  {| sa_program_id := sa_program_id a; swap_pubkey := swap_pubkey a;
     authority_pubkey := authority_pubkey a; source_pubkey := source_pubkey a;
     swap_source_pubkey := swap_source_pubkey a;
     swap_destination_pubkey := swap_destination_pubkey a;
     destination_pubkey := destination_pubkey a; pool_mint_pubkey := pool_mint_pubkey a;
     pool_fee_pubkey := pool_fee_pubkey a; token_program := token_program a;
     amount_in := amount_in a; minimum_amount_out := m |}.

Fixpoint set_last_minimum (args : list SwapArguments) (m : Z) : list SwapArguments :=
  match args with
  | [] => []
  | [a] => [set_minimum_amount_out a m]
  | a :: rest => a :: set_last_minimum rest m
  end.

Section Arbitrage.
Context `{TokenSwap} `{Signing}.

(** The variables the loop over the pairs updates. *)
Record swap_state := {
  ss_amount_in : Z;
  ss_pairs : list InputOutputPairs;
  ss_args : list SwapArguments;
}.

(** The owned and the pool's accounts of a swap in its direction:
    [(source, swap_source, destination, swap_destination)]. *)
Definition swap_accounts (p : OrcaPoolAddresses) (d : TradeDirection)
    : option Pubkey * Pubkey * option Pubkey * Pubkey :=
  match d with
  | AtoB => (source p, pool_a_account p, destination p, pool_b_account p)
  | BtoA => (destination p, pool_b_account p, source p, pool_a_account p)
  end.

(** One iteration of the loop; [None] is an early return of the closure. *)
Definition swap_step (pool_states : PoolStates) (s : swap_state) (pair_info : PairInfo)
    : option swap_state :=
  pool_state ← pool_states !! pi_pool pair_info;
  trade_fee ← trading_fee (fees pool_state) (ss_amount_in s);
  owner_fee ← owner_trading_fee (fees pool_state) (ss_amount_in s);
  total_fees ← checked_add128 trade_fee owner_fee;
  source_amount_less_fees ← checked_sub128 (ss_amount_in s) total_fees;
  let '(source_pubkey, swap_source_pubkey, destination_pubkey, swap_destination_pubkey) :=
    swap_accounts (pool pool_state) (pi_direction pair_info) in
  let '(swap_source_amount, swap_destination_amount) :=
    balances_from_to pool_state (pi_direction pair_info) in
  '(_, destination_amount_swapped) ←
    swap_without_fees (curve_calculator pool_state) source_amount_less_fees swap_source_amount
      swap_destination_amount (pi_direction pair_info);
  let pairs := ss_pairs s ++ [{| token_in := wrap64 (ss_amount_in s);
                                 token_out := wrap64 destination_amount_swapped |}] in
  let args :=
    match source_pubkey, destination_pubkey with
    | Some source, Some destination =>
        set_last_minimum (ss_args s) (wrap64 (ss_amount_in s)) ++
        [{| sa_program_id := program_id (pool pool_state);
            swap_pubkey := pi_pool pair_info;
            authority_pubkey := pool_authority (pool pool_state);
            source_pubkey := source;
            swap_source_pubkey := swap_source_pubkey;
            swap_destination_pubkey := swap_destination_pubkey;
            destination_pubkey := destination;
            pool_mint_pubkey := pool_mint (pool pool_state);
            pool_fee_pubkey := pool_fee (pool pool_state);
            token_program := spl_token_id;
            amount_in := wrap64 (ss_amount_in s);
            minimum_amount_out := 0 |}]
    | _, _ => ss_args s
    end in
  Some {| ss_amount_in := destination_amount_swapped; ss_pairs := pairs; ss_args := args |}.

Fixpoint swap_loop (pool_states : PoolStates) (s : swap_state) (path : list PairInfo)
    : option swap_state :=
  match path with
  | [] => Some s
  | p :: rest => s ← swap_step pool_states s p; swap_loop pool_states s rest
  end.

(** The balance of the token that starts the path, owned by us. *)
Definition initial_balance (st : OrcaPoolWithBalance) (d : TradeDirection) : option Z :=
  match d with AtoB => source_balance st | BtoA => destination_balance st end.

Definition initial_mint (st : OrcaPoolWithBalance) (d : TradeDirection) : Pubkey :=
  match d with AtoB => pool_a_mint (pool st) | BtoA => pool_b_mint (pool st) end.

(** The closure before the profit check: the first pair, its pool, the
    input, and the loop's final state with the last minimum set. *)
Definition simulate_path (pool_states : PoolStates) (path_output : PathCalculationOutput f64)
    (mev_path : MevPath) : option (PairInfo * OrcaPoolWithBalance * Z * swap_state) :=
  let initial_amount := f64_floor_as_u128 (optimal_input path_output) in
  first_pair_info ← head (mp_path mev_path);
  first_pool ← pool_states !! pi_pool first_pair_info;
  let initial_amount :=
    match initial_balance first_pool (pi_direction first_pair_info) with
    | Some balance => Z.min initial_amount balance
    | None => initial_amount
    end in
  s ← swap_loop pool_states {| ss_amount_in := initial_amount; ss_pairs := []; ss_args := [] |}
        (mp_path mev_path);
  let args := set_last_minimum (ss_args s) (wrap64 initial_amount) in
  Some (first_pair_info, first_pool, initial_amount,
        {| ss_amount_in := ss_amount_in s; ss_pairs := ss_pairs s; ss_args := args |}).

(** The closure of [get_arbitrage_tx_outputs] for one path. *)
Definition arbitrage_for_path (self : Mev) (pool_states : PoolStates) (blockhash : Hash)
    (path_idx : nat) (mev_path : MevPath) : outcome (option MevTxOutput) :=
  match get_path_calculation_output mev_path pool_states with
  | None => Returns None
  | Some path_output =>
  match simulate_path pool_states path_output mev_path with
  | None => Returns None
  | Some (first_pair_info, first_pool, initial_amount, s) =>
      let profit := wrap64 (sat_sub128 (ss_amount_in s) initial_amount) in
      let mint_pubkey := initial_mint first_pool (pi_direction first_pair_info) in
      let min_profit := default 0 (minimum_profit self !! mint_pubkey) in
      if profit <? min_profit then Returns None
      else if ss_amount_in s <? initial_amount then Returns None
      else
        let output tx := {| mto_sanitized_tx := tx; mto_path_idx := path_idx;
                            mto_input_output_pairs := ss_pairs s; mto_profit := profit;
                            mto_marginal_price := marginal_price path_output |} in
        if (length (ss_args s) =? length (mp_path mev_path))%nat then
          match user_authority self with
          | None => Returns None
          | Some kp => tx ← create_swap_tx (ss_args s) blockhash kp; Returns (Some (output (Some tx)))
          end
        else Returns (Some (output None))
  end end.

(** [filter_map(..).collect()] over the enumerated paths. *)
Fixpoint arbitrage_loop (self : Mev) (pool_states : PoolStates) (blockhash : Hash)
    (path_idx : nat) (paths : list MevPath) : outcome (list MevTxOutput) :=
  match paths with
  | [] => Returns []
  | p :: rest =>
      o ← arbitrage_for_path self pool_states blockhash path_idx p;
      os ← arbitrage_loop self pool_states blockhash (S path_idx) rest;
      Returns (option_list o ++ os)
  end.

Definition get_arbitrage_tx_outputs (self : Mev) (pool_states : PoolStates) (blockhash : Hash)
    : outcome (list MevTxOutput) :=
  arbitrage_loop self pool_states blockhash 0 (mev_paths self).

(** [iter_mut().max_by(|a, b| a.profit.cmp(&b.profit))]: the position of the
    last element of greatest profit. *)
Fixpoint max_by_profit (best : option (nat * MevTxOutput)) (i : nat) (l : list MevTxOutput)
    : option (nat * MevTxOutput) :=
  match l with
  | [] => best
  | o :: rest =>
      max_by_profit
        (match best with
         | Some (j, b) => if mto_profit o <? mto_profit b then Some (j, b) else Some (i, o)
         | None => Some (i, o)
         end) (S i) rest
  end.

Definition take_sanitized_tx (o : MevTxOutput) : MevTxOutput :=
  {| mto_sanitized_tx := None; mto_path_idx := mto_path_idx o;
     mto_input_output_pairs := mto_input_output_pairs o; mto_profit := mto_profit o;
     mto_marginal_price := mto_marginal_price o |}.

End Arbitrage.

Section MaxProfit.
Context `{OnChain} `{Signing}.

(** Returns the messages sent and the most profitable transaction. *)
Definition log_mev_opportunities_get_max_profit_tx (self : Mev) (tx : SanitizedTransaction)
    (slot : Slot) (pre_tx_pool_state : PoolStates) (loaded_tx : LoadedTransaction)
    (blockhash : Hash) : outcome (list MevMsg * option (SanitizedTransaction * Z)) :=
  post ← get_all_orca_monitored_accounts loaded_tx;
  match post with
  | None | Some (Err _) => Returns ([], None)
  | Some (Ok post_tx_pool_state) =>
      outputs ← get_arbitrage_tx_outputs self post_tx_pool_state blockhash;
      signature ← tx_signature tx;
      let log := Log {| pp_transaction_hash := st_message_hash tx;
                        pp_transaction_signature := signature; pp_slot := slot;
                        orca_pre_tx_pool := pre_tx_pool_state;
                        orca_post_tx_pool := post_tx_pool_state |} in
      match max_by_profit None 0 outputs with
      | None => Returns ([log], None)
      | Some (i, best) =>
          let msgs := [log; Opportunities (<[i := take_sanitized_tx best]> outputs)] in
          Returns (msgs, sanitized_tx ← mto_sanitized_tx best; Some (sanitized_tx, mto_profit best))
      end
  end.

End MaxProfit.

(** The log thread's reading of a message ([MevLog::new]): the paths it
    indexes for [Opportunities]; [None] ends the loop. *)
Definition log_opportunities (mev_paths : list MevPath) (outputs : list MevTxOutput)
    : outcome (list MevOpportunityWithInput) :=
  map_outcome (fun o =>
      p ← unwrap (mev_paths !! mto_path_idx o);
      Returns {| mo_opportunity := p; mo_input_output_pairs := mto_input_output_pairs o |}) outputs.
