(* ===== verification/MevCorrect.v ===== *)
(** * Correctness of the MEV component

    What the definitions of Mev.v guarantee: which amounts a crafted
    transaction commits to and why it cannot lose tokens, when the search
    can abort the thread, which accounts are locked for the simulation, and
    how the transaction to execute is selected. *)

From S2P Require Import Prelude Keys Message Errors Transaction AccountLocks Float64 Account Arbitrage Mev.
From Stdlib Require String.
From Stdlib Require Import SpecFloat.

(** ** Specification: swap chains *)

(** Each swap demands at least what the next one spends; the last one
    demands [final]. *)
Fixpoint min_out_chain (args : list SwapArguments) (final : Z) : Prop :=
  match args with
  | [] => True
  | a :: rest =>
      minimum_amount_out a = match rest with [] => final | b :: _ => amount_in b end
      /\ min_out_chain rest final
  end.

(** Each swap pays into the account the next one spends from; the last one
    pays into [final]. *)
Fixpoint account_chain (args : list SwapArguments) (final : Pubkey) : Prop :=
  match args with
  | [] => True
  | a :: rest =>
      destination_pubkey a = match rest with [] => final | b :: _ => source_pubkey b end
      /\ account_chain rest final
  end.

(** The token swap program's contract for a transaction that succeeds: each
    swap takes at most [amount_in] from the source account and pays at least
    [minimum_amount_out] into the destination account. *)
Inductive executes : list SwapArguments -> (Pubkey -> Z) -> (Pubkey -> Z) -> Prop :=
| executes_nil l : executes [] l l
| executes_cons a args l l' spent paid :
    0 <= spent <= amount_in a -> minimum_amount_out a <= paid ->
    executes args (fun k => l k - (if N.eqb k (source_pubkey a) then spent else 0)
                            + (if N.eqb k (destination_pubkey a) then paid else 0)) l' ->
    executes (a :: args) l l'.

(** The output of a swap is the input of the next; the first input is
    [first] and the last output [final]. *)
Fixpoint pairs_chained (first : Z) (pairs : list InputOutputPairs) (final : Z) : Prop :=
  match pairs with
  | [] => first = final
  | p :: rest => token_in p = first /\ pairs_chained (token_out p) rest final
  end.

(** The entry of a monitored key: the index of the transaction's own copy
    when the transaction writes it, and the stored account otherwise. *)
Definition mev_entry (db : Pubkey -> option (AccountSharedData * Slot)) (wm : gmap N nat)
    (k : Pubkey) : MevAccountOrIdx :=
  match wm !! k with
  | Some idx => Idx idx
  | None => let '(account, _) := default (account_default, 0) (db k) in ReadAccount (k, account)
  end.

(** Every key the monitored pools name. *)
Definition mev_keys_all (mk : MevKeys) : list Pubkey :=
  concat (map pool_keys_in_order (mk_pool_keys mk)) ++ [mk_token_program mk]
  ++ option_list (mk_user_authority mk).

Section PathSpec.
Context `{TokenSwap}.

(** The arguments of a swap against the pair of the path it stands for. *)
Definition arg_for (ps : PoolStates) (p : PairInfo) (a : SwapArguments) : Prop :=
  exists st, ps !! pi_pool p = Some st
    /\ swap_pubkey a = pi_pool p
    /\ sa_program_id a = program_id (pool st)
    /\ swap_accounts (pool st) (pi_direction p) =
         (Some (source_pubkey a), swap_source_pubkey a,
          Some (destination_pubkey a), swap_destination_pubkey a)
    /\ pool_mint_pubkey a = pool_mint (pool st) /\ pool_fee_pubkey a = pool_fee (pool st).

(** Pool states with the ranges of the fields they are read from. *)
Definition pools_wf (ps : PoolStates) : Prop :=
  forall k st, ps !! k = Some st ->
    u64 (pool_a_balance st) /\ u64 (pool_b_balance st)
    /\ (forall b, source_balance st = Some b -> u64 b)
    /\ (forall b, destination_balance st = Some b -> u64 b).

(** What the loop over a path has established after the pairs [done]. *)
Record loop_inv (ps : PoolStates) (initial : Z) (done : list PairInfo) (s : swap_state) : Prop := {
  li_chain : forall x, min_out_chain (set_last_minimum (ss_args s) x) x;
  li_length : (length (ss_args s) <= length done)%nat;
  li_full : length (ss_args s) = length done ->
    Forall2 (arg_for ps) done (ss_args s)
    /\ match ss_args s with a :: _ => amount_in a = wrap64 initial | [] => True end;
  li_pairs_length : length (ss_pairs s) = length done;
  li_pairs : pairs_chained (wrap64 initial) (ss_pairs s) (wrap64 (ss_amount_in s));
}.

End PathSpec.

(** ** Lemmas: chains *)

Lemma set_last_minimum_snoc args a m :
  set_last_minimum (args ++ [a]) m = args ++ [set_minimum_amount_out a m].
Proof.
  induction args as [|b args IH]; cbn; [done|].
  destruct (args ++ [a]) eqn:E; [by destruct args|]. by rewrite IH.
Qed.

Lemma set_last_minimum_map {B} (f : SwapArguments -> B) args m :
  (forall a, f (set_minimum_amount_out a m) = f a) -> map f (set_last_minimum args m) = map f args.
Proof.
  intros Hf. induction args as [|a args IH]; cbn; [done|].
  destruct args; cbn in *; [by rewrite Hf|]. by rewrite IH.
Qed.

Lemma set_last_minimum_length args m : length (set_last_minimum args m) = length args.
Proof.
  rewrite <- (length_map (fun _ => tt)), set_last_minimum_map, length_map by done. done.
Qed.

Lemma min_out_chain_snoc args a final :
  min_out_chain (args ++ [a]) final <->
    min_out_chain args (amount_in a) /\ minimum_amount_out a = final.
Proof.
  induction args as [|b args IH]; cbn; [tauto|]. rewrite IH. destruct args; cbn; tauto.
Qed.

Lemma set_last_chain args a m :
  (forall x, min_out_chain (set_last_minimum args x) x) -> amount_in a = m ->
  forall x, min_out_chain (set_last_minimum (set_last_minimum args m ++ [a]) x) x.
Proof.
  intros Hc Ha x. rewrite set_last_minimum_snoc, min_out_chain_snoc; cbn. by rewrite Ha.
Qed.

Lemma pairs_chained_snoc first pairs mid p final :
  pairs_chained first pairs mid -> token_in p = mid -> token_out p = final ->
  pairs_chained first (pairs ++ [p]) final.
Proof.
  revert first. induction pairs as [|q pairs IH]; intros first; cbn.
  - intros -> <- <-. done.
  - intros [-> Hc]. eauto.
Qed.

(** No account ends lower than it started when the swaps form a cycle in
    accounts and in minimum amounts. *)
Lemma executes_no_loss args l l' first f F :
  executes args l l' -> min_out_chain args f -> account_chain args F ->
  match args with a :: _ => a = first | [] => False end ->
  forall k, l k - (if N.eqb k (source_pubkey first) then amount_in first else 0)
            + (if N.eqb k F then f else 0) <= l' k.
Proof.
  intros He. revert first. induction He as [|a args l l' spent paid Hs Hp He IH];
    intros first Hm Ha Hf k; [done|]. subst first. destruct Hm as [Hm1 Hm2], Ha as [Ha1 Ha2].
  destruct args as [|b args].
  - inversion He; subst. destruct (N.eqb_spec k (source_pubkey a)),
      (N.eqb_spec k (destination_pubkey a)); lia.
  - specialize (IH b Hm2 Ha2 eq_refl k). rewrite <- Ha1 in IH.
    destruct (N.eqb_spec k (source_pubkey a)), (N.eqb_spec k (destination_pubkey a)); lia.
Qed.

(** ** Lemmas: the loop over a path *)

Section LoopLemmas.
Context `{TokenSwap}.

(** The parts of a successful iteration. *)
Lemma swap_step_Some ps s p s' :
  swap_step ps s p = Some s' ->
  exists st paid, ps !! pi_pool p = Some st
    /\ ss_amount_in s' = paid
    /\ (exists net in_ , swap_without_fees (curve_calculator st) net
          (balances_from_to st (pi_direction p)).1 (balances_from_to st (pi_direction p)).2
          (pi_direction p) = Some (in_, paid))
    /\ ss_pairs s' = ss_pairs s ++ [{| token_in := wrap64 (ss_amount_in s); token_out := wrap64 paid |}]
    /\ (ss_args s' = ss_args s
        \/ exists a, ss_args s' = set_last_minimum (ss_args s) (wrap64 (ss_amount_in s)) ++ [a]
            /\ arg_for ps p a /\ amount_in a = wrap64 (ss_amount_in s)).
Proof.
  unfold swap_step. intros E.
  apply bind_Some in E as (st & Hst & E). apply bind_Some in E as (tf & _ & E).
  apply bind_Some in E as (own & _ & E). apply bind_Some in E as (tot & _ & E).
  apply bind_Some in E as (net & _ & E).
  destruct (swap_accounts _ _) as [[[src ssrc] dst] sdst] eqn:Hacc.
  destruct (balances_from_to _ _) as [bf bt] eqn:Hbal.
  apply bind_Some in E as ([in_ paid] & Hswap & E). injection E as <-. cbn.
  exists st, paid. rewrite Hbal. split_and!; eauto.
  destruct src as [src|], dst as [dst|]; auto. right. eexists. split_and!; [done| |done].
  exists st. by rewrite Hacc.
Qed.

Lemma set_last_arg_for ps done args m :
  Forall2 (arg_for ps) done args -> Forall2 (arg_for ps) done (set_last_minimum args m).
Proof.
  induction 1 as [|p a done args Ha Hf IH]; cbn; [constructor|].
  destruct args; [by inversion Hf; subst; repeat constructor|]. by constructor.
Qed.

Lemma loop_inv_step ps initial done s p s' :
  loop_inv ps initial done s -> swap_step ps s p = Some s' -> loop_inv ps initial (done ++ [p]) s'.
Proof.
  intros [Hc Hl Hf Hpl Hp] E.
  apply swap_step_Some in E as (st & paid & Hst & Ha & _ & Hpairs & Hargs).
  split; rewrite ?length_app; cbn.
  - destruct Hargs as [->|(a & -> & _ & Hin)]; [done|]. by apply set_last_chain.
  - destruct Hargs as [->|(a & -> & _)]; rewrite ?length_app, ?set_last_minimum_length; cbn; lia.
  - destruct Hargs as [->|(a & -> & Harg & Hin)]; [lia|].
    rewrite length_app, set_last_minimum_length; cbn. intros Hlen.
    destruct Hf as [Hf Hh]; [lia|]. split.
    + apply Forall2_app; [by apply set_last_arg_for|by constructor].
    + destruct (ss_args s) as [|a0 args]; cbn in *.
      * destruct done; [|cbn in *; lia]. destruct (ss_pairs s); [|done]. cbn in Hp. by rewrite Hp.
      * destruct args; cbn in *; done.
  - rewrite Hpairs, length_app; cbn. lia.
  - rewrite Hpairs, Ha. by eapply pairs_chained_snoc.
Qed.

Lemma loop_inv_loop ps initial path : forall done s s',
  loop_inv ps initial done s -> swap_loop ps s path = Some s' ->
  loop_inv ps initial (done ++ path) s'.
Proof.
  induction path as [|p path IH]; intros done s s' Hi E; cbn in E.
  - injection E as <-. by rewrite app_nil_r.
  - apply bind_Some in E as (s1 & E1 & E). replace (done ++ p :: path) with ((done ++ [p]) ++ path).
    + eapply IH; [|done]. by eapply loop_inv_step.
    + by rewrite <- app_assoc.
Qed.

Lemma loop_inv_init ps initial :
  loop_inv ps initial [] {| ss_amount_in := initial; ss_pairs := []; ss_args := [] |}.
Proof. by split; cbn; auto. Qed.

(** The final amount of a path comes out of a pool. *)
Lemma swap_loop_bound `{!TokenSwapLaws _} ps path : forall s s',
  pools_wf ps -> swap_loop ps s path = Some s' -> path <> [] \/ u64 (ss_amount_in s) ->
  u64 (ss_amount_in s').
Proof.
  induction path as [|p path IH]; intros s s' Hwf E Hs; cbn in E.
  - injection E as <-. by destruct Hs.
  - apply bind_Some in E as (s1 & E1 & E). eapply IH; [done..|]. right.
    apply swap_step_Some in E1 as (st & paid & Hst & -> & (net & in_ & Hsw) & _).
    apply swap_pays_from_pool in Hsw. destruct (Hwf _ _ Hst) as (Ha & Hb & _).
    unfold u64 in *. destruct (pi_direction p); cbn in Hsw; lia.
Qed.

(** What an accepted path simulation has established. *)
Record simulated (ps : PoolStates) (path : MevPath) (first : PairInfo)
    (first_pool : OrcaPoolWithBalance) (initial : Z) (s : swap_state) : Prop := {
  sim_first : head (mp_path path) = Some first;
  sim_pool : ps !! pi_pool first = Some first_pool;
  sim_initial : 0 <= initial;
  sim_balance : forall b, initial_balance first_pool (pi_direction first) = Some b -> initial <= b;
  sim_min_chain : min_out_chain (ss_args s) (wrap64 initial);
  sim_full : length (ss_args s) = length (mp_path path) ->
    Forall2 (arg_for ps) (mp_path path) (ss_args s)
    /\ match ss_args s with a :: _ => amount_in a = wrap64 initial | [] => True end;
  sim_pairs_length : length (ss_pairs s) = length (mp_path path);
  sim_pairs : pairs_chained (wrap64 initial) (ss_pairs s) (wrap64 (ss_amount_in s));
}.

Lemma simulate_path_Some ps out path first first_pool initial s :
  pools_wf ps -> simulate_path ps out path = Some (first, first_pool, initial, s) ->
  simulated ps path first first_pool initial s.
Proof.
  intros Hwf E. unfold simulate_path in E.
  apply bind_Some in E as (p & Hp & E). apply bind_Some in E as (st & Hst & E).
  apply bind_Some in E as (s1 & Hs1 & E). injection E as <- <- <- <-.
  pose proof (loop_inv_loop _ _ _ [] _ _ (loop_inv_init ps _) Hs1) as [Hc Hl Hf Hpl Hpp].
  cbn in *. pose proof (f64_floor_as_u128_bound (optimal_input out)) as [Hlo _].
  destruct (Hwf _ _ Hst) as (_ & _ & Hsb & Hdb).
  assert (forall b, initial_balance st (pi_direction p) = Some b -> 0 <= b) as Hpos.
  { intros b Hb. destruct (pi_direction p); cbn in Hb; [apply Hsb in Hb|apply Hdb in Hb];
      unfold u64 in Hb; lia. }
  split; cbn; try done.
  - destruct (initial_balance _ _) as [b|]; [|done]. specialize (Hpos b eq_refl). lia.
  - intros b Hb. rewrite Hb. lia.
  - rewrite set_last_minimum_length. intros Hlen. destruct (Hf Hlen) as [Hf1 Hf2].
    split; [by apply set_last_arg_for|]. by destruct (ss_args s1) as [|a [|b args]].
Qed.

End LoopLemmas.

(** ** Lemmas: one path *)

Section PathLemmas.
Context `{TokenSwap} `{Signing}.

Lemma arbitrage_for_path_Some self ps bh i path out :
  arbitrage_for_path self ps bh i path = Returns (Some out) ->
  exists po first fp initial s,
    get_path_calculation_output path ps = Some po
    /\ simulate_path ps po path = Some (first, fp, initial, s)
    /\ mto_profit out = wrap64 (sat_sub128 (ss_amount_in s) initial)
    /\ default 0 (minimum_profit self !! initial_mint fp (pi_direction first)) <= mto_profit out
    /\ initial <= ss_amount_in s
    /\ mto_input_output_pairs out = ss_pairs s /\ mto_path_idx out = i
    /\ ((length (ss_args s) = length (mp_path path)
         /\ exists kp tx, user_authority self = Some kp
              /\ create_swap_tx (ss_args s) bh kp = Returns tx /\ mto_sanitized_tx out = Some tx)
        \/ (length (ss_args s) <> length (mp_path path) /\ mto_sanitized_tx out = None)).
Proof.
  unfold arbitrage_for_path. intros E.
  destruct (get_path_calculation_output path ps) as [po|] eqn:Epo; [|done].
  destruct (simulate_path ps po path) as [[[[first fp] initial] s]|] eqn:Es; [|done].
  destruct (Z.ltb_spec (wrap64 (sat_sub128 (ss_amount_in s) initial))
    (default 0 (minimum_profit self !! initial_mint fp (pi_direction first)))); [done|].
  destruct (Z.ltb_spec (ss_amount_in s) initial); [done|].
  exists po, first, fp, initial, s.
  destruct (Nat.eqb_spec (length (ss_args s)) (length (mp_path path))) as [Hlen|Hlen].
  - destruct (user_authority self) as [kp|]; [|done].
    destruct (create_swap_tx (ss_args s) bh kp) as [tx|] eqn:Etx; [|done].
    cbn in E. injection E as <-. cbn. naive_solver.
  - injection E as <-. cbn. naive_solver.
Qed.

(** The search for one path returns when its transaction can be built. *)
Lemma arbitrage_for_path_returns `{!SigningLaws _} self ps bh i path :
  pools_wf ps -> (length (mp_path path) <= 25)%nat ->
  (forall kp k st, user_authority self = Some kp -> ps !! k = Some st ->
     program_id (pool st) <> keypair_pubkey kp) ->
  exists o, arbitrage_for_path self ps bh i path = Returns o.
Proof.
  intros Hwf Hlen Hprog. unfold arbitrage_for_path.
  destruct (get_path_calculation_output path ps) as [po|] eqn:Epo; [|eauto].
  destruct (simulate_path ps po path) as [[[[first fp] initial] s]|] eqn:Es; [|eauto].
  destruct (wrap64 _ <? _); [eauto|]. destruct (ss_amount_in s <? initial); [eauto|].
  destruct (Nat.eqb_spec (length (ss_args s)) (length (mp_path path))) as [E|E]; [|eauto].
  destruct (user_authority self) as [kp|]; [|eauto].
  destruct (sim_full _ _ _ _ _ _ (simulate_path_Some _ _ _ _ _ _ _ Hwf Es) E) as [Hf _].
  destruct (create_swap_tx_returns (ss_args s) bh kp) as (tx & m & -> & _); [lia| |cbn; eauto].
  intros a Ha. apply list_elem_of_lookup in Ha as [n Hn].
  destruct (Forall2_lookup_r _ _ _ _ _ Hf Hn) as (p & _ & st & Hst & _ & -> & _). eauto.
Qed.

Lemma arbitrage_loop_returns self ps bh i paths :
  (forall j p, p ∈ paths -> exists o, arbitrage_for_path self ps bh j p = Returns o) ->
  exists outs, arbitrage_loop self ps bh i paths = Returns outs.
Proof.
  revert i. induction paths as [|p paths IH]; intros i Hp; cbn; [eauto|].
  destruct (Hp i p) as [o ->]; [by left|]. cbn.
  destruct (IH (S i)) as [os ->]; [|cbn; eauto]. intros j q Hq. apply Hp. by right.
Qed.

(** Every output of the search is the output of some configured path. *)
Lemma arbitrage_loop_elem self ps bh i paths outs o :
  arbitrage_loop self ps bh i paths = Returns outs -> o ∈ outs ->
  exists j p, paths !! j = Some p /\ arbitrage_for_path self ps bh (i + j) p = Returns (Some o).
Proof.
  revert i outs. induction paths as [|p paths IH]; intros i outs E Ho; cbn in E.
  { injection E as <-. by apply not_elem_of_nil in Ho. }
  destruct (arbitrage_for_path self ps bh i p) as [o1|] eqn:E1; [|done]. cbn in E.
  destruct (arbitrage_loop self ps bh (S i) paths) as [os|] eqn:E2; [|done]. cbn in E.
  injection E as <-. apply elem_of_app in Ho as [Ho|Ho].
  - destruct o1 as [o1|]; cbn in Ho; [|by apply not_elem_of_nil in Ho].
    apply list_elem_of_singleton in Ho as ->. exists 0%nat, p. by rewrite Nat.add_0_r.
  - destruct (IH (S i) os E2 Ho) as (j & q & Hq & Hqo). exists (S j), q.
    split; [done|]. by rewrite Nat.add_succ_r.
Qed.

(** [max_by] answers a last maximum of the outputs seen. *)
Lemma max_by_profit_spec l : forall best i j b,
  max_by_profit best i l = Some (j, b) ->
  (best = Some (j, b) \/ ((i <= j)%nat /\ l !! (j - i)%nat = Some b))
  /\ (forall o, o ∈ l -> mto_profit o <= mto_profit b)
  /\ (forall k o, best = Some (k, o) -> mto_profit o <= mto_profit b).
Proof.
  induction l as [|o l IH]; intros best i j b E; cbn in E.
  { split_and!; [by left| |intros; simplify_eq; lia]. intros o Ho. by apply not_elem_of_nil in Ho. }
  apply IH in E as (H1 & H2 & H3). clear IH.
  assert (forall (P : Prop), (i = j -> b = o -> P) -> (best = Some (j, b) -> P) ->
    ((S i <= j)%nat -> l !! (j - S i)%nat = Some b -> P) -> P) as Hcase.
  { intros P P1 P2 P3. destruct H1 as [H1|[H1 H1']]; [|by apply P3].
    destruct best as [[k b0]|]; [destruct (mto_profit o <? mto_profit b0)|]; simplify_eq; auto. }
  split_and!.
  - apply Hcase.
    + intros -> ->. right. by rewrite Nat.sub_diag.
    + by left.
    + intros Hle Hl. right. split; [lia|]. by replace (j - i)%nat with (S (j - S i)) by lia.
  - intros o' Ho'. apply elem_of_cons in Ho' as [->|Ho']; [|by apply H2].
    destruct best as [[k b0]|]; [|by eapply H3]. destruct (Z.ltb_spec (mto_profit o) (mto_profit b0)).
    + specialize (H3 k b0 eq_refl). lia.
    + by eapply H3.
  - intros k o' ->. destruct (Z.ltb_spec (mto_profit o) (mto_profit o')).
    + by eapply H3.
    + specialize (H3 i o eq_refl). lia.
Qed.

Lemma max_by_profit_is_Some b l i : is_Some (max_by_profit (Some b) i l).
Proof.
  revert b i. induction l as [|o l IH]; intros [k b] i; cbn; [eauto|].
  destruct (mto_profit o <? mto_profit b); apply IH.
Qed.

Lemma max_by_profit_None l i : max_by_profit None i l = None <-> l = [].
Proof.
  split; [|by intros ->]. destruct l as [|o l]; [done|]. cbn. intros E.
  destruct (max_by_profit_is_Some (i, o) l (S i)) as [x Hx]. congruence.
Qed.

Lemma search_returns `{!SigningLaws _} self ps bh :
  pools_wf ps -> (forall p, p ∈ mev_paths self -> (length (mp_path p) <= 25)%nat) ->
  (forall kp k st, user_authority self = Some kp -> ps !! k = Some st ->
     program_id (pool st) <> keypair_pubkey kp) ->
  exists outs, get_arbitrage_tx_outputs self ps bh = Returns outs.
Proof.
  intros Hwf Hpaths Hprog. apply arbitrage_loop_returns. intros j p Hp.
  apply arbitrage_for_path_returns; auto.
Qed.

End PathLemmas.

(** ** Lemmas: monitored accounts *)

Section AccountsLemmas.
Variable db : Pubkey -> option (AccountSharedData * Slot).
Variable wm : gmap N nat.

Lemma lookup_fold_insert ks m k :
  (fold_left (insert_account_in_map db wm) ks m) !! k =
    if decide (k ∈ ks) then Some (mev_entry db wm k) else m !! k.
Proof.
  revert m. induction ks as [|k' ks IH]; intros m; cbn.
  { by rewrite decide_False by apply not_elem_of_nil. }
  rewrite IH. destruct (decide (k ∈ ks)); [by rewrite decide_True by set_solver|].
  unfold insert_account_in_map. destruct (decide (k = k')) as [->|].
  - rewrite lookup_insert_eq, decide_True by set_solver. done.
  - rewrite lookup_insert_ne, decide_False by set_solver. done.
Qed.

Lemma lookup_fold_pools pks m k :
  fold_left (fun m pk => fold_left (insert_account_in_map db wm) (pool_keys_in_order pk) m) pks m !! k =
    if decide (k ∈ concat (map pool_keys_in_order pks)) then Some (mev_entry db wm k) else m !! k.
Proof.
  revert m. induction pks as [|pk pks IH]; intros m; cbn [fold_left map concat].
  { by rewrite decide_False by apply not_elem_of_nil. }
  rewrite IH, lookup_fold_insert. repeat case_decide; set_solver.
Qed.

(** The map holds exactly the monitored keys, each with its entry. *)
Lemma lookup_accounts_data mk k :
  pubkey_account_map (get_accounts_data db wm mk) !! k =
    if decide (k ∈ mev_keys_all mk) then Some (mev_entry db wm k) else None.
Proof.
  unfold get_accounts_data, mev_keys_all; cbn [pubkey_account_map].
  rewrite lookup_fold_insert.
  change (insert_account_in_map db wm ?m (mk_token_program mk))
    with (fold_left (insert_account_in_map db wm) [mk_token_program mk] m).
  rewrite lookup_fold_insert, lookup_fold_pools, lookup_empty.
  repeat case_decide; set_solver.
Qed.

Lemma get_account_monitored lt mk k :
  (forall k i, wm !! k = Some i -> (i < length (lt_accounts lt))%nat) -> k ∈ mev_keys_all mk ->
  exists acc, get_account lt (get_accounts_data db wm mk) k = Returns acc
    /\ match wm !! k with
       | Some i => lt_accounts lt !! i = Some acc
       | None => acc = (k, (default (account_default, 0) (db k)).1)
       end.
Proof.
  intros Hwm Hk. unfold get_account. rewrite lookup_accounts_data, decide_True by done. cbn.
  unfold mev_entry. destruct (wm !! k) as [i|] eqn:E.
  - apply Hwm in E. apply lookup_lt_is_Some in E as [acc Hacc]. exists acc. by rewrite Hacc.
  - destruct (default _ _) as [a sl]. eauto.
Qed.

End AccountsLemmas.

(** ** Lemmas: locks of a monitored transaction *)

Lemma elem_of_write_fold pks s k :
  k ∈ fold_left pool_write_accounts pks s <->
    k ∈ s \/ exists pk, pk ∈ pks /\ k ∈ pool_write_accounts ∅ pk.
Proof.
  revert s. induction pks as [|pk pks IH]; intros s; cbn.
  { split; [auto|]. intros [?|(pk & Hpk & _)]; [done|]. by apply not_elem_of_nil in Hpk. }
  rewrite IH. setoid_rewrite elem_of_cons.
  assert (k ∈ pool_write_accounts s pk <-> k ∈ s \/ k ∈ pool_write_accounts ∅ pk) as ->.
  { unfold pool_write_accounts. repeat case_match; set_solver. }
  naive_solver.
Qed.

Lemma elem_of_readonly_fold pks s k :
  k ∈ fold_left pool_readonly_accounts pks s <->
    k ∈ s \/ exists pk, pk ∈ pks /\ k ∈ pool_readonly_accounts ∅ pk.
Proof.
  revert s. induction pks as [|pk pks IH]; intros s; cbn.
  { split; [auto|]. intros [?|(pk & Hpk & _)]; [done|]. by apply not_elem_of_nil in Hpk. }
  rewrite IH. setoid_rewrite elem_of_cons.
  assert (k ∈ pool_readonly_accounts s pk <-> k ∈ s \/ k ∈ pool_readonly_accounts ∅ pk) as ->.
  { unfold pool_readonly_accounts. repeat case_match; set_solver. }
  naive_solver.
Qed.

(** A pool with both or neither of our accounts: each of its keys is among
    those it adds to the write set or to the read set. *)
Lemma pool_keys_covered pk k :
  (is_Some (mpk_source pk) <-> is_Some (mpk_destination pk)) -> k ∈ pool_keys_in_order pk ->
  k ∈ pool_write_accounts ∅ pk \/ k ∈ pool_readonly_accounts ∅ pk.
Proof.
  unfold pool_keys_in_order, pool_write_accounts, pool_readonly_accounts.
  destruct (mpk_source pk), (mpk_destination pk); cbn; intros Hb Hk.
  - set_solver.
  - destruct Hb as [Hb _]. by destruct Hb; eauto.
  - destruct Hb as [_ Hb]. by destruct Hb; eauto.
  - set_solver.
Qed.

(** The lock set of a transaction with monitored keys. *)
Lemma mev_lockset tx mk :
  st_mev_keys tx = Some mk ->
  let locks := lockset_of (tx_locks tx) in
  (forall k, k ∈ get_write_accounts mk ∅ -> k ∈ ls_write locks)
  /\ (forall k, k ∈ get_readonly_accounts mk ∅ -> k ∈ ls_write locks \/ k ∈ ls_read locks).
Proof.
  intros Hmk. assert (tal_readonly_mev (tx_locks tx) = Some mk) as E.
  { unfold tx_locks, get_account_locks_unchecked.
    destruct (split_keys_returns (st_message tx) 0
      (account_keys_iter (message_account_keys (st_message tx)))) as (w & r & -> & _); [lia|done]. }
  unfold lockset_of, get_readable_and_writable_locks_vec. rewrite E. cbn.
  set (w := list_to_set (tal_writable (tx_locks tx)) : gset N).
  set (r := list_to_set (tal_readonly (tx_locks tx)) : gset N).
  assert (forall k, k ∈ get_write_accounts mk ∅ -> k ∈ get_write_accounts mk w) as Hw.
  { intros k. unfold get_write_accounts. rewrite !elem_of_write_fold. set_solver. }
  assert (forall k, k ∈ get_readonly_accounts mk ∅ -> k ∈ get_readonly_accounts mk r) as Hr.
  { intros k. unfold get_readonly_accounts.
    destruct (mk_user_authority mk); rewrite !elem_of_union, !elem_of_readonly_fold; set_solver. }
  split; intros k Hk; rewrite !elem_of_list_to_set, ?elem_of_elements; [auto|].
  rewrite elem_of_difference. destruct (decide (k ∈ get_write_accounts mk w)); auto.
Qed.

(** ** Lemmas: configured paths *)

Lemma check_path_spec p :
  check_path p = Returns p <->
    exists a b, head (mp_path p) = Some a /\ last (mp_path p) = Some b /\ a <> b.
Proof.
  unfold check_path. destruct (head _) as [a|], (last _) as [b|]; try naive_solver.
  case_decide; naive_solver.
Qed.

Lemma check_path_same p q : check_path p = Returns q -> q = p.
Proof. unfold check_path. repeat case_match; congruence. Qed.

Lemma check_path_length p : check_path p = Returns p -> (2 <= length (mp_path p))%nat.
Proof.
  rewrite check_path_spec. intros (a & b & Ha & Hb & Hne).
  destruct (mp_path p) as [|x [|y l]]; cbn in *; [done|congruence|lia].
Qed.

Lemma check_paths_same ps qs : map_outcome check_path ps = Returns qs -> qs = ps.
Proof.
  revert qs. induction ps as [|p ps IH]; intros qs E; cbn in E; [by injection E as <-|].
  destruct (check_path p) as [q|] eqn:Ep; [|done]. cbn in E.
  destruct (map_outcome check_path ps) as [qs'|]; [|done]. injection E as <-.
  by rewrite (check_path_same _ _ Ep), (IH qs' eq_refl).
Qed.

Lemma check_paths_spec ps :
  map_outcome check_path ps = Returns ps <-> forall p, p ∈ ps -> check_path p = Returns p.
Proof.
  induction ps as [|p ps IH]; cbn.
  { split; [|done]. intros _ p Hp. by apply not_elem_of_nil in Hp. }
  setoid_rewrite elem_of_cons. destruct (check_path p) as [q|] eqn:Ep; cbn.
  - apply check_path_same in Ep as Hq. subst q.
    destruct (map_outcome check_path ps) as [qs|] eqn:Eps; cbn.
    + rewrite (check_paths_same _ _ Eps) in *. split; [|done]. intros _ p' [->|Hp']; [done|].
      by apply IH.
    + split; [done|]. intros Hall. destruct IH as [_ IH]. discriminate IH. auto.
  - split; [done|]. intros Hall. rewrite (Hall p) in Ep; [done|auto].
Qed.

Section ReadingLemmas.
Context `{OnChain}.

Lemma pool_key_monitored mk pk k :
  pk ∈ mk_pool_keys mk -> k ∈ pool_keys_in_order pk -> k ∈ mev_keys_all mk.
Proof.
  intros Hpk Hk. unfold mev_keys_all. rewrite !elem_of_app. left.
  apply list_elem_of_In, in_concat. exists (pool_keys_in_order pk).
  split; [apply in_map; by apply list_elem_of_In|by apply list_elem_of_In].
Qed.

Lemma owned_token_account_returns lt ma o :
  (forall k, o = Some k -> exists acc, get_account lt ma k = Returns acc) ->
  exists r, owned_token_account lt ma o = Returns r.
Proof.
  intros Ho. unfold owned_token_account. destruct o as [k|]; [|eauto].
  destruct (Ho k eq_refl) as [[k' acc] ->]. cbn. eauto.
Qed.

(** Reading one pool does not panic when its keys can be read. *)
Lemma read_pool_returns lt ma pk :
  (forall k, k ∈ pool_keys_in_order pk -> exists acc, get_account lt ma k = Returns acc) ->
  exists r, read_pool lt ma (pool_accounts_of pk) = Returns r.
Proof.
  intros Hg. unfold pool_keys_in_order in Hg. unfold read_pool, pool_accounts_of; cbn.
  destruct (Hg (mpk_pool pk)) as [acc1 ->]; [set_solver|]. cbn.
  destruct (swap_unpack _) as [[fs c]|]; cbn; [|eauto].
  destruct (Hg (mpk_token_a pk)) as [acc2 ->]; [set_solver|]. cbn.
  destruct (token_unpack (acc_data acc2.2)); cbn; [|eauto].
  destruct (Hg (mpk_token_b pk)) as [acc3 ->]; [set_solver|]. cbn.
  destruct (token_unpack (acc_data acc3.2)); cbn; [|eauto].
  destruct (owned_token_account_returns lt ma (mpk_source pk)) as [r1 ->].
  { intros k Hk. apply Hg. rewrite Hk. set_solver. }
  destruct r1 as [r1|]; cbn; [|eauto].
  destruct (owned_token_account_returns lt ma (mpk_destination pk)) as [r2 ->].
  { intros k Hk. apply Hg. rewrite Hk. set_solver. }
  destruct r2 as [r2|]; cbn; [|eauto].
  destruct (Hg (mpk_pool_mint pk)) as [acc4 ->]; [set_solver|].
  destruct (Hg (mpk_pool_fee pk)) as [acc5 ->]; [set_solver|]. cbn. eauto.
Qed.

(** What a pool state read from the accounts satisfies: its ranges, and that
    the pool's program is the owner of an account read. *)
Lemma read_pool_Ok `{!OnChainLaws _} lt ma p k st :
  read_pool lt ma p = Returns (Ok (k, st)) ->
  (u64 (pool_a_balance st) /\ u64 (pool_b_balance st)
   /\ (forall b, source_balance st = Some b -> u64 b)
   /\ (forall b, destination_balance st = Some b -> u64 b))
  /\ exists key acc, get_account lt ma key = Returns acc /\ program_id (pool st) = acc_owner acc.2.
Proof.
  assert (forall o key amount, owned_token_account lt ma o = Returns (Ok (Some (key, amount))) ->
    u64 amount) as Howned.
  { intros [q|] key amount; cbn; [|done]. destruct (get_account lt ma q) as [[q' acc]|]; [|done].
    cbn. destruct (token_unpack _) eqn:E; [|done]. intros [= <- <-]. by eapply token_amount_u64. }
  unfold read_pool. intros E. destruct (get_account lt ma (mpa_pool p)) as [acc1|] eqn:E1; [|done].
  cbn in E. destruct (swap_unpack _) as [[fs c]|]; cbn in E; [|done].
  destruct (get_account lt ma (mpa_token_a p)) as [acc2|]; [|done]. cbn in E.
  destruct (token_unpack (acc_data acc2.2)) as [ta|] eqn:Eta; cbn in E; [|done].
  destruct (get_account lt ma (mpa_token_b p)) as [acc3|]; [|done]. cbn in E.
  destruct (token_unpack (acc_data acc3.2)) as [tb|] eqn:Etb; cbn in E; [|done].
  destruct (owned_token_account lt ma (mpa_source p)) as [[src|]|] eqn:Es; cbn in E; try done.
  destruct (owned_token_account lt ma (mpa_destination p)) as [[dst|]|] eqn:Ed; cbn in E; try done.
  destruct (get_account lt ma (mpa_pool_mint p)) as [acc4|]; [|done]. cbn in E.
  destruct (get_account lt ma (mpa_pool_fee p)) as [acc5|]; [|done]. cbn in E.
  injection E as <- <-. cbn. split; [|eauto].
  split_and!; [by eapply token_amount_u64..| |].
  - intros b Hb. destruct src as [[ks bs]|]; [|done]. injection Hb as <-. by eapply Howned.
  - intros b Hb. destruct dst as [[kd bd]|]; [|done]. injection Hb as <-. by eapply Howned.
Qed.

Lemma pool_states_insert (ps : PoolStates) k st k' st' :
  (<[k := st]> ps : PoolStates) !! k' = Some st' -> st' = st \/ ps !! k' = Some st'.
Proof. unfold PoolStates in *. intros [[_ <-]|[_ ?]]%lookup_insert_Some; auto. Qed.

Lemma collect_pools_Ok `{!OnChainLaws _} lt ma l : forall acc ps,
  collect_pools lt ma l acc = Returns (Ok ps) ->
  pools_wf acc ->
  (forall k st, acc !! k = Some st ->
     exists key a, get_account lt ma key = Returns a /\ program_id (pool st) = acc_owner a.2) ->
  pools_wf ps
  /\ forall k st, ps !! k = Some st ->
       exists key a, get_account lt ma key = Returns a /\ program_id (pool st) = acc_owner a.2.
Proof.
  induction l as [|p l IH]; intros acc ps E Hwf Hown; cbn in E.
  { by injection E as <-. }
  destruct (read_pool lt ma p) as [[[k st]|]|] eqn:Er; cbn in E; try done.
  apply read_pool_Ok in Er as [Hst Hkey].
  apply IH in E; [done| |].
  - intros k' st' [->|Hk']%pool_states_insert; eauto.
  - intros k' st' [->|Hk']%pool_states_insert; eauto.
Qed.

Lemma collect_pools_returns lt ma pks acc :
  (forall pk k, pk ∈ pks -> k ∈ pool_keys_in_order pk -> exists a, get_account lt ma k = Returns a) ->
  exists r, collect_pools lt ma (map pool_accounts_of pks) acc = Returns r.
Proof.
  revert acc. induction pks as [|pk pks IH]; intros acc Hg; cbn; [eauto|].
  destruct (read_pool_returns lt ma pk) as [r ->]; [intros k; apply Hg; by left|]. cbn.
  destruct r as [[k st]|]; [|eauto]. apply IH. intros pk' k' Hpk'. apply Hg. by right.
Qed.

End ReadingLemmas.

(** ** Sample instances for the witnesses *)

Module Sample.

(** A token swap program: fees rounded down but at least one token, and the
    constant product curve with the new source balance rounded up. *)
Definition fee_of (num den amount : Z) : option Z :=
  if (num =? 0) || (amount =? 0) then Some 0
  else let fee := amount * num / den in Some (if fee =? 0 then 1 else fee).

Definition ceil_div (a b : Z) : Z := (a + b - 1) / b.

Definition constant_product (amount src dst : Z) : option (Z * Z) :=
  let new_source := src + amount in
  if (new_source <=? 0) || (dst <? 0) || (src <? 0) then None
  else
    let new_destination := ceil_div (src * dst) new_source in
    let paid := dst - new_destination in
    if (0 <? paid) && (paid <=? dst) then Some (amount, paid) else None.

(** Eight bytes, the least significant one first. *)
Definition le_bytes (n : Z) : list Z :=
  map (fun i => Z.shiftr n (8 * i) mod 256) [0; 1; 2; 3; 4; 5; 6; 7].

#[global] Instance token_swap : TokenSwap := {
  Calculator := unit;
  trading_fee fs a := fee_of (trade_fee_numerator fs) (trade_fee_denominator fs) a;
  owner_trading_fee fs a := fee_of (owner_trade_fee_numerator fs) (owner_trade_fee_denominator fs) a;
  swap_without_fees _ a s d _ := constant_product a s d;
  pack_swap a m := 1 :: le_bytes a ++ le_bytes m;
}.

#[global] Instance token_swap_laws : TokenSwapLaws token_swap.
Proof.
  intros [] amount src dst dir s d. cbn. unfold constant_product.
  repeat case_match; try done. intros [= <- <-].
  apply andb_true_iff in H0 as [?%Z.ltb_lt ?%Z.leb_le]. lia.
Qed.

(** A signer whose public key is the keypair and whose signatures are 1. *)
#[global] Instance signing : Signing := {
  Keypair := N;
  keypair_pubkey kp := kp;
  keypair_sign _ _ := 1%N;
  message_hash _ := (104 * 2 ^ 100)%N;
}.

#[global] Instance signing_laws : SigningLaws signing.
Proof. done. Qed.

Definition orca_fees : Fees :=
  {| trade_fee_numerator := 25; trade_fee_denominator := 10000;
     owner_trade_fee_numerator := 5; owner_trade_fee_denominator := 10000;
     owner_withdraw_fee_numerator := 0; owner_withdraw_fee_denominator := 1;
     host_fee_numerator := 0; host_fee_denominator := 1 |}.

Definition pool_at (key : Pubkey) (src dst : option Pubkey) : OrcaPoolAddresses :=
  {| program_id := 500%N; address := key; pool_a_account := (key + 1)%N;
     pool_b_account := (key + 2)%N; source := src; destination := dst;
     pool_mint := (key + 3)%N; pool_fee := (key + 4)%N; pool_authority := (key + 5)%N;
     pool_a_mint := (key + 6)%N; pool_b_mint := (key + 7)%N |}.

Definition pool_state (key : Pubkey) (a b : Z) (src dst : option (Pubkey * Z)) : OrcaPoolWithBalance :=
  {| pool := pool_at key (fst <$> src) (fst <$> dst); pool_a_balance := a; pool_b_balance := b;
     source_balance := snd <$> src; destination_balance := snd <$> dst;
     fees := orca_fees; curve_calculator := tt |}.

(** The pools and the path of the repository's own test
    ([test_get_arbitrage]), without and with accounts of ours. *)
Definition pools (src1 dst1 src2 dst2 src3 dst3 : option (Pubkey * Z)) : PoolStates :=
  {[ 10%N := pool_state 10 4618233234 6400518033 src1 dst1;
     20%N := pool_state 20 54896627850684 13408494240 src2 dst2;
     30%N := pool_state 30 400881658679 138436018345 src3 dst3 ]}.

Definition test_pools : PoolStates := pools None None None None None None.

(** Our accounts: 101 holds USDC, 102 stETH, 103 stSOL. *)
Definition owned_pools : PoolStates :=
  pools (Some (102%N, 0)) (Some (101%N, 1000000000)) (Some (103%N, 0)) (Some (102%N, 0))
    (Some (103%N, 0)) (Some (101%N, 1000000000)).

Definition path : MevPath :=
  {| mp_name := String.EmptyString;
     mp_path := [{| pi_pool := 10%N; pi_direction := BtoA |};
                 {| pi_pool := 20%N; pi_direction := BtoA |};
                 {| pi_pool := 30%N; pi_direction := AtoB |}] |}.

Definition mev (authority : option N) : Mev :=
  {| watched_programs := {[ 500%N ]}; orca_monitored_accounts := [];
     mev_paths := [path]; user_authority := authority; minimum_profit := ∅ |}.

(** Account formats: a pool is the single byte 1, a token account its mint
    and its amount. *)
#[global] Instance on_chain : OnChain := {
  ProgramError := unit;
  swap_unpack d := match d with [1] => Ok (orca_fees, tt) | _ => Err tt end;
  token_unpack d := match d with
                    | [mint; amount] =>
                        if (0 <=? amount) && (amount <=? U64_MAX)
                        then Ok {| ta_mint := Z.to_N mint; ta_amount := amount |} else Err tt
                    | _ => Err tt
                    end;
  find_program_address seed _ := (seed + 5)%N;
}.

#[global] Instance on_chain_laws : OnChainLaws on_chain.
Proof.
  intros data acc. cbn. repeat case_match; try done. intros [= <-].
  apply andb_true_iff in H2 as [?%Z.leb_le ?%Z.leb_le]. by split.
Qed.

Definition account (owner : Pubkey) (data : list Z) : AccountSharedData :=
  {| acc_lamports := 1; acc_data := data; acc_owner := owner; acc_executable := false;
     acc_rent_epoch := 0 |}.

(** The accounts database behind [owned_pools]. *)
Definition db (k : Pubkey) : option (AccountSharedData * Slot) :=
  (fun a => (a, 0)) <$>
  (list_to_map (M := gmap N _)
    [(10%N, account 500 [1]); (11%N, account 5 [16; 4618233234]); (12%N, account 5 [17; 6400518033]);
     (20%N, account 500 [1]); (21%N, account 5 [26; 54896627850684]);
     (22%N, account 5 [27; 13408494240]);
     (30%N, account 500 [1]); (31%N, account 5 [36; 400881658679]);
     (32%N, account 5 [37; 138436018345]);
     (101%N, account 5 [17; 1000000000]); (102%N, account 5 [16; 0]);
     (103%N, account 5 [26; 0])] !! k).

Definition monitored : list OrcaPoolAddresses :=
  [pool_at 10 (Some 102%N) (Some 101%N); pool_at 20 (Some 103%N) (Some 102%N);
   pool_at 30 (Some 103%N) (Some 101%N)].

Definition monitoring_mev : Mev :=
  {| watched_programs := {[ 900%N ]}; orca_monitored_accounts := monitored;
     mev_paths := [path]; user_authority := Some 77%N; minimum_profit := ∅ |}.

(** A transaction that has made account 11 writable, at index 1. *)
Definition loaded : LoadedTransaction :=
  {| lt_accounts := [(1%N, account 0 []); (11%N, account 5 [16; 4618233234]); (900%N, account 0 [])];
     lt_mev_accounts :=
       Some (get_accounts_data db {[ 11%N := 1%nat ]} (mev_keys_of monitoring_mev));
     lt_program_indices := [[2%nat]]; lt_rent := 0; lt_rent_debits := ∅ |}.

End Sample.

Lemma sample_pools_wf : pools_wf Sample.owned_pools.
Proof.
  unfold pools_wf, Sample.owned_pools, Sample.pools, PoolStates. intros k st Hk.
  repeat (apply lookup_insert_Some in Hk as [[<- <-]|[_ Hk]];
    [cbn; unfold u64, U64_MAX; split_and!; try lia; intros b [= <-]; lia|]).
  apply lookup_singleton_Some in Hk as [<- <-].
  cbn; unfold u64, U64_MAX; split_and!; try lia; intros b [= <-]; lia.
Qed.

(** ** Properties *)

(** C5: A crafted arbitrage transaction cannot lose tokens.  Whenever the search
    for a path outputs a transaction, that transaction is built from one swap
    per pair of the path, in order, and the amounts chain: every swap demands
    at least what the next one spends, and the last demands the amount the
    first one spends.  Consequently, if our accounts form a cycle along the
    path, any successful execution under the token swap contract leaves the
    balance of every account at least what it was. *)
Theorem arbitrage_tx_no_loss `{TokenSwap} `{!Signing} (self : Mev) (ps : PoolStates) (bh : Hash)
    (i : nat) (path : MevPath) (out : MevTxOutput) (tx : SanitizedTransaction)
    (Hwf : pools_wf ps)
    (Hout : arbitrage_for_path self ps bh i path = Returns (Some out))
    (Htx : mto_sanitized_tx out = Some tx) :
  exists kp args first, user_authority self = Some kp
    /\ create_swap_tx args bh kp = Returns tx
    /\ Forall2 (arg_for ps) (mp_path path) args
    /\ head args = Some first
    /\ min_out_chain args (amount_in first)
    /\ (account_chain args (source_pubkey first) ->
        forall l l', executes args l l' -> forall k, l k <= l' k).
Proof.
  destruct (arbitrage_for_path_Some _ _ _ _ _ _ Hout)
    as (po & fp & st & ini & s & _ & Hsim & _ & _ & _ & _ & _ & [(Hlen & kp & tx' & Hkp & Hc & Ho)|[_ Hn]]);
    [|congruence].
  apply (simulate_path_Some _ _ _ _ _ _ _ Hwf) in Hsim as [Hfirst _ _ _ Hmin Hfull _ _].
  destruct (Hfull Hlen) as [Hargs Hhead].
  destruct (ss_args s) as [|a args] eqn:Ea; [by destruct (mp_path path)|].
  rewrite <- Hhead in Hmin. exists kp, (a :: args), a. split_and!; try done; [congruence|].
  intros Hcyc l l' He k.
  pose proof (executes_no_loss _ _ _ a _ _ He Hmin Hcyc eq_refl k) as Hk.
  destruct (N.eqb k (source_pubkey a)); lia.
Qed.

Lemma arbitrage_tx_no_loss_witness :
  exists out tx, arbitrage_for_path (Sample.mev (Some 77%N)) Sample.owned_pools 7%N 0 Sample.path
                   = Returns (Some out)
    /\ mto_sanitized_tx out = Some tx
    /\ exists kp args first, user_authority (Sample.mev (Some 77%N)) = Some kp
        /\ create_swap_tx args 7%N kp = Returns tx
        /\ Forall2 (arg_for Sample.owned_pools) (mp_path Sample.path) args
        /\ head args = Some first
        /\ min_out_chain args (amount_in first)
        /\ (account_chain args (source_pubkey first) ->
            forall l l', executes args l l' -> forall k, l k <= l' k).
Proof.
  eexists _, _. assert (forall a b : Prop, a -> (a -> b) -> a /\ b) as Hand by tauto.
  apply Hand; [vm_compute; reflexivity|intros Hout].
  apply Hand; [reflexivity|intros Htx].
  exact (arbitrage_tx_no_loss _ _ _ _ _ _ _ sample_pools_wf Hout Htx).
Defined.

(** The numbers of an output are the true ones.  With 64-bit pool balances
    and a curve that pays out of the pool, no cast truncates: the input and
    output pairs cover the path and chain from the initial to the final
    amount, the reported profit is exactly their difference, it reaches the
    minimum configured for the token the path starts with, and the initial
    amount does not exceed our balance of that token when we hold an account
    for it. *)
Theorem arbitrage_profit_exact `{TokenSwap} `{!TokenSwapLaws _} `{!Signing} (self : Mev)
    (ps : PoolStates) (bh : Hash) (i : nat) (path : MevPath) (out : MevTxOutput)
    (Hwf : pools_wf ps)
    (Hout : arbitrage_for_path self ps bh i path = Returns (Some out)) :
  exists initial final first st, head (mp_path path) = Some first
    /\ ps !! pi_pool first = Some st
    /\ length (mto_input_output_pairs out) = length (mp_path path)
    /\ pairs_chained initial (mto_input_output_pairs out) final
    /\ 0 <= initial <= final /\ final <= U64_MAX
    /\ mto_profit out = final - initial
    /\ default 0 (minimum_profit self !! initial_mint st (pi_direction first)) <= final - initial
    /\ (forall b, initial_balance st (pi_direction first) = Some b -> initial <= b).
Proof.
  destruct (arbitrage_for_path_Some _ _ _ _ _ _ Hout)
    as (po & first & st & ini & s & _ & Hsim & Hprofit & Hmin & Hle & Hpairs & _ & _).
  assert (u64 (ss_amount_in s)) as [_ Hu].
  { pose proof Hsim as E. unfold simulate_path in E.
    apply bind_Some in E as (p & Hp & E). apply bind_Some in E as (st0 & Hst0 & E).
    apply bind_Some in E as (s1 & Hs1 & E). injection E as <- <- <- <-.
    eapply (swap_loop_bound _ _ _ _ Hwf Hs1). left. by destruct (mp_path path). }
  apply (simulate_path_Some _ _ _ _ _ _ _ Hwf) in Hsim as [Hf Hst Hini Hb _ _ Hpl Hpc].
  rewrite Hpairs. rewrite !wrap64_small in Hpc by (u_unfold; lia).
  assert (mto_profit out = ss_amount_in s - ini) as Hp.
  { rewrite Hprofit. unfold sat_sub128. rewrite wrap64_small; u_unfold; lia. }
  exists ini, (ss_amount_in s), first, st. rewrite Hp in *. by split_and!.
Qed.

Lemma arbitrage_profit_exact_witness :
  exists out, arbitrage_for_path (Sample.mev (Some 77%N)) Sample.owned_pools 7%N 0 Sample.path
                = Returns (Some out)
    /\ exists initial final first st, head (mp_path Sample.path) = Some first
        /\ Sample.owned_pools !! pi_pool first = Some st
        /\ length (mto_input_output_pairs out) = length (mp_path Sample.path)
        /\ pairs_chained initial (mto_input_output_pairs out) final
        /\ 0 <= initial <= final /\ final <= U64_MAX
        /\ mto_profit out = final - initial
        /\ default 0 (minimum_profit (Sample.mev (Some 77%N))
             !! initial_mint st (pi_direction first)) <= final - initial
        /\ (forall b, initial_balance st (pi_direction first) = Some b -> initial <= b).
Proof.
  eexists. assert (forall a b : Prop, a -> (a -> b) -> a /\ b) as Hand by tauto.
  apply Hand; [vm_compute; reflexivity|intros Hout].
  exact (arbitrage_profit_exact _ _ _ _ _ _ sample_pools_wf Hout).
Defined.

(** The selection is by greatest profit.  When the function answers a
    transaction with a profit, they are those of an output of the search on
    the pool states after the triggering transaction, no output has a larger
    profit, and the logged opportunities are all the outputs with only that
    transaction taken out. *)
Theorem max_profit_tx_selected `{OnChain} `{!Signing} (self : Mev) (tx : SanitizedTransaction)
    (slot : Slot) (pre : PoolStates) (lt : LoadedTransaction) (bh : Hash) (msgs : list MevMsg)
    (mev_tx : SanitizedTransaction) (profit : Z)
    (Hres : log_mev_opportunities_get_max_profit_tx self tx slot pre lt bh
              = Returns (msgs, Some (mev_tx, profit))) :
  exists post outs n best logged, get_all_orca_monitored_accounts lt = Returns (Some (Ok post))
    /\ get_arbitrage_tx_outputs self post bh = Returns outs
    /\ outs !! n = Some best /\ mto_sanitized_tx best = Some mev_tx /\ mto_profit best = profit
    /\ (forall o, o ∈ outs -> mto_profit o <= profit)
    /\ msgs = [Log logged; Opportunities (<[n := take_sanitized_tx best]> outs)]
    /\ orca_pre_tx_pool logged = pre /\ orca_post_tx_pool logged = post.
Proof.
  unfold log_mev_opportunities_get_max_profit_tx in Hres.
  destruct (get_all_orca_monitored_accounts lt) as [[[post|]|]|] eqn:Epost; try done. cbn in Hres.
  destruct (get_arbitrage_tx_outputs self post bh) as [outs|] eqn:Eouts; [|done]. cbn in Hres.
  destruct (tx_signature tx) as [sig|]; [|done]. cbn in Hres.
  destruct (max_by_profit None 0 outs) as [[n best]|] eqn:Emax; [|done].
  destruct (mto_sanitized_tx best) as [t|] eqn:Et; [|done]. cbn in Hres. injection Hres as <- <- <-.
  apply max_by_profit_spec in Emax as ([Hf|[_ Hn]] & Hmax & _); [done|].
  rewrite Nat.sub_0_r in Hn. eexists post, outs, n, best, _. by split_and!.
Qed.

Lemma max_profit_tx_selected_witness :
  exists msgs mev_tx profit,
    log_mev_opportunities_get_max_profit_tx Sample.monitoring_mev (sample_tx 1 11) 3 ∅
      Sample.loaded 7%N = Returns (msgs, Some (mev_tx, profit))
    /\ exists post outs n best logged,
        get_all_orca_monitored_accounts Sample.loaded = Returns (Some (Ok post))
        /\ get_arbitrage_tx_outputs Sample.monitoring_mev post 7%N = Returns outs
        /\ outs !! n = Some best /\ mto_sanitized_tx best = Some mev_tx /\ mto_profit best = profit
        /\ (forall o, o ∈ outs -> mto_profit o <= profit)
        /\ msgs = [Log logged; Opportunities (<[n := take_sanitized_tx best]> outs)]
        /\ orca_pre_tx_pool logged = ∅ /\ orca_post_tx_pool logged = post.
Proof.
  destruct (log_mev_opportunities_get_max_profit_tx Sample.monitoring_mev (sample_tx 1 11) 3 ∅
    Sample.loaded 7%N) as [[msgs [[mev_tx profit]|]]|] eqn:Hres.
  - exists msgs, mev_tx, profit. split; [reflexivity|].
    exact (max_profit_tx_selected _ _ _ _ _ _ _ _ _ Hres).
  - exfalso. apply (f_equal (fun o => match o with Returns (_, Some _) => true | _ => false end)) in Hres.
    revert Hres. vm_compute. discriminate.
  - exfalso. apply (f_equal (fun o => match o with Returns (_, Some _) => true | _ => false end)) in Hres.
    revert Hres. vm_compute. discriminate.
Defined.

(** C38: The whole post-transaction step is free of panics, for paths of at most 25 swaps and
    monitored accounts that are not owned by our own authority.  For a loaded transaction
    with a signature whose monitored accounts were collected by [get_accounts_data], with
    writable indices inside the loaded accounts, every map and vector index in reading the
    pools succeeds, a monitored account the transaction writes is read from the transaction's
    own copy, and the search, the crafted transaction and the selection all return.  The two
    conditions are not checked when the paths and pools are configured: the keys of a longer
    path may not fit one-byte indices, and a program at index zero, by wrapping or because it
    is the payer, makes the construction of the transaction panic. *)
Theorem mev_step_returns `{OnChain} `{!OnChainLaws _} `{!Signing} `{!SigningLaws _}
    (self : Mev) (tx : SanitizedTransaction) (slot : Slot) (pre : PoolStates)
    (db : Pubkey -> option (AccountSharedData * Slot)) (wm : gmap N nat) (mk : MevKeys)
    (lt : LoadedTransaction) (bh : Hash)
    (Hma : lt_mev_accounts lt = Some (get_accounts_data db wm mk))
    (Hwm : forall k i, wm !! k = Some i -> (i < length (lt_accounts lt))%nat)
    (Hsig : st_signatures tx <> [])
    (Hpaths : forall p, p ∈ mev_paths self -> (length (mp_path p) <= 25)%nat)
    (Howner : forall kp k acc, user_authority self = Some kp ->
       get_account lt (get_accounts_data db wm mk) k = Returns acc ->
       acc_owner acc.2 <> keypair_pubkey kp) :
  (exists r, log_mev_opportunities_get_max_profit_tx self tx slot pre lt bh = Returns r)
  /\ (forall k, k ∈ mev_keys_all mk ->
        exists acc, get_account lt (get_accounts_data db wm mk) k = Returns acc
          /\ match wm !! k with
             | Some i => lt_accounts lt !! i = Some acc
             | None => acc = (k, (default (account_default, 0) (db k)).1)
             end).
Proof.
  assert (forall k, k ∈ mev_keys_all mk ->
        exists acc, get_account lt (get_accounts_data db wm mk) k = Returns acc
          /\ match wm !! k with
             | Some i => lt_accounts lt !! i = Some acc
             | None => acc = (k, (default (account_default, 0) (db k)).1)
             end) as Hget by (intros k Hk; by apply get_account_monitored).
  split; [|done].
  unfold log_mev_opportunities_get_max_profit_tx, get_all_orca_monitored_accounts. rewrite Hma.
  destruct (collect_pools_returns lt (get_accounts_data db wm mk) (mk_pool_keys mk) ∅) as [r Er].
  { intros pk k Hpk Hk. destruct (Hget k) as (acc & ? & _); [by eapply pool_key_monitored|eauto]. }
  cbn [pool_accounts get_accounts_data] in *. rewrite Er. cbn.
  destruct r as [post|]; [|eauto].
  apply collect_pools_Ok in Er as [Hwf Hprog]; [|done..].
  destruct (search_returns self post bh) as [outs ->]; [done..| |].
  { intros kp k st Hkp Hst. destruct (Hprog _ _ Hst) as (key & a & Ha & ->). eauto. }
  cbn. unfold tx_signature. destruct (st_signatures tx); [done|]. cbn.
  destruct (max_by_profit None 0 outs) as [[j best]|]; eauto.
Qed.

Lemma mev_step_returns_witness :
  exists r, log_mev_opportunities_get_max_profit_tx Sample.monitoring_mev (sample_tx 1 11) 3 ∅
              Sample.loaded 7%N = Returns r.
Proof.
  apply (mev_step_returns Sample.monitoring_mev (sample_tx 1 11) 3 ∅ Sample.db
           {[ 11%N := 1%nat ]} (mev_keys_of Sample.monitoring_mev) Sample.loaded 7%N).
  - reflexivity.
  - intros k i [<- <-]%lookup_singleton_Some. cbn. lia.
  - discriminate.
  - intros p Hp. apply list_elem_of_singleton in Hp as ->. cbn. lia.
  - intros kp k acc [= <-] Ha. unfold get_account in Ha.
    rewrite lookup_accounts_data in Ha. case_decide as Hk; [|done]. cbn in Ha. unfold mev_entry in Ha.
    vm_compute in Hk. repeat (apply elem_of_cons in Hk as [->|Hk];
      [vm_compute in Ha; injection Ha as <-; discriminate|]). by apply not_elem_of_nil in Hk.
Defined.

(** C36: Every account the simulation reads is locked.  When each monitored pool
    has both or neither of our token accounts configured, every key whose
    account is collected for a monitored transaction is in the transaction's
    write set or read set, so no other batch can write it meanwhile; and all
    the accounts a crafted swap writes are in the write set. *)
Theorem monitored_accounts_locked `{Signing} (self : Mev) (tx : SanitizedTransaction)
    (db : Pubkey -> option (AccountSharedData * Slot)) (wm : gmap N nat)
    (Hmon : is_monitored_account self tx = true)
    (Hboth : forall p, p ∈ orca_monitored_accounts self ->
       (is_Some (source p) <-> is_Some (destination p))) :
  let locks := lockset_of (tx_locks (fill_tx_mev_accounts self tx)) in
  (forall k, k ∈ dom (pubkey_account_map (get_accounts_data db wm (mev_keys_of self))) ->
     k ∈ ls_write locks \/ k ∈ ls_read locks)
  /\ (forall p src dst, p ∈ orca_monitored_accounts self ->
        source p = Some src -> destination p = Some dst ->
        {[ src; dst; pool_a_account p; pool_b_account p; pool_mint p; pool_fee p ]} ⊆ ls_write locks).
Proof.
  assert (st_mev_keys (fill_tx_mev_accounts self tx) = Some (mev_keys_of self)) as Hmk.
  { unfold fill_tx_mev_accounts. by rewrite Hmon. }
  destruct (mev_lockset _ _ Hmk) as [Hw Hr]. cbn zeta. split.
  - intros k Hk. apply elem_of_dom in Hk as [e Hk]. rewrite lookup_accounts_data in Hk.
    case_decide as Hin; [|done]. clear Hk e. unfold mev_keys_all in Hin.
    rewrite !elem_of_app in Hin. destruct Hin as [Hin|Hin].
    + apply list_elem_of_In, in_concat in Hin as (ks & Hks & Hin).
      apply in_map_iff in Hks as (pk & <- & Hpk). apply list_elem_of_In in Hpk, Hin.
      pose proof Hpk as Hpk'. apply list_elem_of_In, in_map_iff in Hpk' as (p & <- & Hp).
      apply pool_keys_covered in Hin as [Hin|Hin]; [| |by apply Hboth, list_elem_of_In].
      * left. apply Hw. unfold get_write_accounts. rewrite elem_of_write_fold. eauto.
      * apply Hr. unfold get_readonly_accounts.
        destruct (mk_user_authority _); rewrite !elem_of_union, elem_of_readonly_fold; eauto 6.
    + apply Hr. unfold get_readonly_accounts.
      destruct (mk_user_authority _); rewrite !elem_of_union; cbn in Hin; set_solver.
  - intros p src dst Hp Hs Hd k Hk. apply Hw. unfold get_write_accounts.
    rewrite elem_of_write_fold. right. exists (mev_pool_keys p). split.
    + apply list_elem_of_In, in_map. by apply list_elem_of_In.
    + unfold pool_write_accounts; cbn. rewrite Hs, Hd. set_solver.
Qed.

Lemma monitored_accounts_locked_witness :
  is_monitored_account Sample.monitoring_mev (sample_tx 1 11) = true
  /\ forall k, k ∈ dom (pubkey_account_map (get_accounts_data Sample.db ∅
                    (mev_keys_of Sample.monitoring_mev))) ->
      k ∈ ls_write (lockset_of (tx_locks (fill_tx_mev_accounts Sample.monitoring_mev (sample_tx 1 11))))
      \/ k ∈ ls_read (lockset_of (tx_locks (fill_tx_mev_accounts Sample.monitoring_mev (sample_tx 1 11)))).
Proof.
  split; [vm_compute; reflexivity|].
  apply (monitored_accounts_locked Sample.monitoring_mev (sample_tx 1 11) Sample.db ∅).
  - vm_compute. reflexivity.
  - intros p Hp. unfold Sample.monitoring_mev, Sample.monitored in Hp. cbn in Hp.
    repeat (apply elem_of_cons in Hp as [->|Hp]; [by split; intros; eexists|]).
    by apply not_elem_of_nil in Hp.
Defined.

(** A pool needs both or neither of our token accounts configured: with
    only one of the two, that account is collected for
    the simulation, yet it is in neither lock set of the transaction. *)
Theorem one_sided_pool_not_locked :
  let self := {| watched_programs := {[ 900%N ]};
                 orca_monitored_accounts := [Sample.pool_at 10 (Some 102%N) None];
                 mev_paths := []; user_authority := None; minimum_profit := ∅ |} in
  let tx := fill_tx_mev_accounts self (sample_tx 1 2) in
  st_mev_keys tx = Some (mev_keys_of self)
  /\ 102%N ∈ dom (pubkey_account_map (get_accounts_data Sample.db ∅ (mev_keys_of self)))
  /\ ~ (102%N ∈ ls_write (lockset_of (tx_locks tx)))
  /\ ~ (102%N ∈ ls_read (lockset_of (tx_locks tx))).
Proof.
  cbn zeta. split_and!; [reflexivity|by apply (bool_decide_unpack _); vm_compute..].
Qed.

(** What [Mev::new] accepts.  It returns exactly when every configured path
    has a first and a last pair that differ (so at least two pairs) and the
    authority's key file, if configured, can be read; otherwise it panics.
    The paths are kept as configured. *)
Theorem mev_new_accepts `{Signing} (read_keypair : String.string -> option Keypair)
    (config : MevConfig) :
  ((exists self, mev_new read_keypair config = Returns self) <->
   (forall p, p ∈ cfg_mev_paths config ->
      exists a b, head (mp_path p) = Some a /\ last (mp_path p) = Some b /\ a <> b)
   /\ (forall f, user_authority_path config = Some f -> is_Some (read_keypair f)))
  /\ (forall self, mev_new read_keypair config = Returns self ->
        mev_paths self = cfg_mev_paths config
        /\ forall p, p ∈ mev_paths self -> (2 <= length (mp_path p))%nat).
Proof.
  unfold mev_new. split.
  - setoid_rewrite <- check_path_spec. rewrite <- check_paths_spec. split.
    + intros [self E]. destruct (map_outcome check_path _) as [ps|] eqn:Ep; [|done]. cbn in E.
      pose proof (check_paths_same _ _ Ep) as ->. split; [done|].
      intros f Hf. rewrite Hf in E. destruct (read_keypair f); [eauto|done].
    + intros [-> Hk]. cbn. destruct (user_authority_path config) as [f|]; [|cbn; eauto].
      destruct (Hk f eq_refl) as [kp ->]. cbn. eauto.
  - intros self E. destruct (map_outcome check_path _) as [ps|] eqn:Ep; [|done]. cbn in E.
    pose proof (check_paths_same _ _ Ep) as ->.
    assert (mev_paths self = cfg_mev_paths config) as ->.
    { destruct (match user_authority_path config with None => _ | Some _ => _ end); [|done].
      cbn in E. by injection E as <-. }
    split; [done|]. intros p Hp. apply check_paths_spec with (p := p) in Ep; [|done].
    by apply check_path_length.
Qed.

(** The model reproduces the repository's own test of the search
    ([test_get_arbitrage]) bit for bit: the optimal input and the marginal
    price as binary64 numbers, the three input and output pairs, and the
    profit; and with the perturbed pools of the test no opportunity is found. *)
Theorem test_get_arbitrage_reproduced :
  get_path_calculation_output (F := f64) Sample.path Sample.test_pools =
    Some {| optimal_input := S754_finite false 8597240186895994 (-21);
            marginal_price := S754_finite false 8892719552536666 (-43);
            source_token_balance := None |}
  /\ get_arbitrage_tx_outputs (Sample.mev None) Sample.test_pools 7%N =
    Returns [{| mto_sanitized_tx := None; mto_path_idx := 0;
                mto_input_output_pairs :=
                  [{| token_in := 4099483579; token_out := 1799781506 |};
                   {| token_in := 1799781506; token_out := 6479400819484 |};
                   {| token_in := 6479400819484; token_out := 130347150790 |}];
                mto_profit := 126247667211;
                mto_marginal_price := S754_finite false 8892719552536666 (-43) |}]
  /\ get_arbitrage_tx_outputs (Sample.mev None)
       ({[ 10%N := Sample.pool_state 10 64005199 6400518033 None None;
           20%N := Sample.pool_state 20 13408494240 13408494240 None None;
           30%N := Sample.pool_state 30 1384360183450 138436018345 None None ]} : PoolStates) 7%N
     = Returns [].
Proof. split_and!; vm_compute; reflexivity. Qed.
