(* ===== verification/AccountsLoad.v ===== *)
(** * Loading and storing the accounts of a transaction

    Models the part of runtime/src/accounts.rs between the accounts database
    and the execution of transactions: a transaction's accounts are loaded,
    rent and the fee are taken, and after execution the accounts to write back
    are collected; with the nonce information of runtime/src/bank.rs.

    The accounts database (runtime/src/accounts_db.rs) is the class
    [AccountsDb]: what its clients see of it along the ancestors of one bank.
    Error counters and metrics are left out. *)

From S2P Require Import Prelude Keys Message Errors InstructionsSysvar Transaction AccountLocks Float64 ComputeBudget Account Invocation Nonce SystemProgram EpochSchedule RentCollector BlockhashQueue PreAccount Runtime Arbitrage Mev.

(** ** The accounts database *)

Class AccountsDb := {
  adb : Type;
  (** [accounts_db.load(ancestors, pubkey, LoadHint::FixedMaxRoot)] *)
  adb_load : adb -> Pubkey -> option (AccountSharedData * Slot);
  (** [accounts_db.store_cached(slot, accounts)] *)
  adb_store_cached : adb -> Slot -> list (Pubkey * AccountSharedData) -> adb;
  filler_account_suffix : option Pubkey;
}.

(** What is stored in the bank's slot is what its ancestors show from then
    on; nothing else changes. *)
Class AccountsDbLaws `(AccountsDb) : Prop := {
  adb_load_stored : forall db slot l k a,
    NoDup (map fst l) -> (k, a) ∈ l -> adb_load (adb_store_cached db slot l) k = Some (a, slot);
  adb_load_other : forall db slot l k,
    k ∉ map fst l -> adb_load (adb_store_cached db slot l) k = adb_load db k;
}.

(** ** Nonces of a transaction *)

Record NoncePartial := { np_address : Pubkey; np_account : AccountSharedData }.

Record NonceFull := {
  nf_address : Pubkey;
  nf_account : AccountSharedData;
  nf_fee_payer_account : option AccountSharedData;
}.

Abbreviation TransactionCheckResult := (result TransactionError unit * option NoncePartial)%type.
Abbreviation TransactionLoadResult :=
  (result TransactionError LoadedTransaction * option NonceFull)%type.

Inductive LoadZeroLamports := LZ_None | LZ_SomeWithZeroLamportAccount.

Section Load.
Context `{AccountsDb}.

(** [AccountsDb::load_with_fixed_root]. *)
Definition load_with_fixed_root (db : adb) (load_zero_lamports : LoadZeroLamports) (pubkey : Pubkey)
    : option (AccountSharedData * Slot) :=
  match adb_load db pubkey with
  | Some (account, slot) =>
      match load_zero_lamports with
      | LZ_SomeWithZeroLamportAccount => Some (account, slot)
      | LZ_None => if acc_lamports account =? 0 then None else Some (account, slot)
      end
  | None => None
  end.

(** [Bank::get_account_with_fixed_root], through [Accounts::load_slow], which
    hides accounts without lamports. *)
Definition get_account_with_fixed_root (db : adb) (pubkey : Pubkey) : option AccountSharedData :=
  match adb_load db pubkey with
  | Some (account, _) => if 0 <? acc_lamports account then Some account else None
  | None => None
  end.

(** ** Nonces with the fee taken *)

(** The first account of the message that is not only a program. *)
Fixpoint find_fee_payer (message : SanitizedMessage) (i : nat) (accounts : list TransactionAccount)
    : option TransactionAccount :=
  match accounts with
  | [] => None
  | acc :: rest =>
      if message_is_non_loader_key message i then Some acc
      else find_fee_payer message (S i) rest
  end.

(** [NonceFull::from_partial]. *)
Definition from_partial (partial : NoncePartial) (message : SanitizedMessage)
    (accounts : list TransactionAccount) (rent_debits : RentDebits)
    : result TransactionError NonceFull :=
  match find_fee_payer message 0
          (take (account_keys_len (message_account_keys message)) accounts) with
  | Some (fee_payer_address, fee_payer_account) =>
      let rent_debit := get_account_rent_debit rent_debits fee_payer_address in
      let fee_payer_account :=
        set_lamports fee_payer_account (sat_add64 (acc_lamports fee_payer_account) rent_debit) in
      Ok (if N.eqb fee_payer_address (np_address partial)
          then {| nf_address := np_address partial; nf_account := fee_payer_account;
                  nf_fee_payer_account := None |}
          else {| nf_address := np_address partial; nf_account := np_account partial;
                  nf_fee_payer_account := Some fee_payer_account |})
  | None => Err TE.AccountNotFound
  end.

(** ** Loading *)

Definition construct_instructions_account (message : SanitizedMessage) (is_owned_by_sysvar : bool)
    : outcome AccountSharedData :=
  instructions ← decompile_instructions message;
  Returns {| acc_lamports := 0; acc_data := construct_instructions_data instructions;
             acc_owner := if is_owned_by_sysvar then sysvar_program_id else system_program_id;
             acc_executable := false; acc_rent_epoch := 0 |}.

Section Transaction.
Context `{Bincode NonceVersions} `{Bincode UpgradeableLoaderState}.

Definition validate_fee_payer (payer_address : Pubkey) (payer_account : AccountSharedData)
    (payer_index : nat) (rc : RentCollector) (fs : FeatureSet) (fee : Z)
    : result TransactionError AccountSharedData :=
  if acc_lamports payer_account =? 0 then Err TE.AccountNotFound
  else
    kind ← ok_or (get_system_account_kind payer_account) TE.InvalidAccountForFee;
    let min_balance := match kind with
                       | SAK_System => 0
                       | SAK_Nonce => minimum_balance (rc_rent rc) nonce_state_size
                       end in
    if acc_lamports payer_account <? wrap64 (fee + min_balance) then Err TE.InsufficientFundsForFee
    else
      let payer_pre_rent_state := rent_state_from_account payer_account (rc_rent rc) in
      payer_account ← map_err (fun _ => TE.InsufficientFundsForFee)
                        (checked_sub_lamports payer_account fee);
      let payer_post_rent_state := rent_state_from_account payer_account (rc_rent rc) in
      let rent_state_result :=
        check_rent_state_with_account payer_pre_rent_state payer_post_rent_state payer_address
          (is_active fs do_support_realloc)
          (if is_active fs include_account_index_in_rent_error then Some payer_index else None)
          (is_active fs prevent_crediting_accounts_that_end_rent_paying) in
      _ ← (if (is_active fs require_rent_exempt_accounts : bool) then rent_state_result else Ok tt);
      Ok payer_account.

(** What the loop over the account keys has gathered. *)
Record LoadState := {
  ls_validated_fee_payer : bool;
  ls_tx_rent : Z;
  ls_accounts : list TransactionAccount;
  ls_mev_writable_accounts_map : gmap N nat;
  ls_account_deps : list TransactionAccount;
  ls_rent_debits : RentDebits;
}.

Definition load_state_new : LoadState :=
  {| ls_validated_fee_payer := false; ls_tx_rent := 0; ls_accounts := [];
     ls_mev_writable_accounts_map := ∅; ls_account_deps := []; ls_rent_debits := ∅ |}.

Definition push_account (s : LoadState) (key : Pubkey) (account : AccountSharedData) : LoadState :=
  {| ls_validated_fee_payer := ls_validated_fee_payer s; ls_tx_rent := ls_tx_rent s;
     ls_accounts := ls_accounts s ++ [(key, account)];
     ls_mev_writable_accounts_map := ls_mev_writable_accounts_map s;
     ls_account_deps := ls_account_deps s; ls_rent_debits := ls_rent_debits s |}.

Variable db : adb.
Variable rent_collector : RentCollector.
Variable feature_set : FeatureSet.
(** [account_overrides.and_then(|overrides| overrides.get(key))]. *)
Variable account_overrides : Pubkey -> option AccountSharedData.

Definition load_zero_lamports : LoadZeroLamports :=
  if is_active feature_set return_none_for_zero_lamport_accounts then LZ_None
  else LZ_SomeWithZeroLamportAccount.

Definition preserve : bool := is_active feature_set preserve_rent_epoch_for_rent_exempt_accounts.

(** The account at a key with the rent taken from it, and the map of writable
    accounts for the MEV code. *)
Definition load_existing (i : nat) (key : Pubkey) (is_writable : bool) (writable : gmap N nat)
    : AccountSharedData * Z * gmap N nat :=
  match account_overrides key with
  | Some account => (account, 0, writable)
  | None =>
      match load_with_fixed_root db load_zero_lamports key with
      | Some (account, _) =>
          if is_writable then
            let '(account, info) :=
              collect_from_existing_account rent_collector key account filler_account_suffix preserve in
            (account, ci_rent_amount info, <[key := i]> writable)
          else (account, 0, writable)
      | None => (account_default, 0, writable)
      end
  end.

(** The checks of the owner and of the executable flag; the accounts that
    have to be loaded with the account. *)
Definition load_deps (message : SanitizedMessage) (account : AccountSharedData) (is_writable : bool)
    : result TransactionError (list TransactionAccount) :=
  if N.eqb (acc_owner account) bpf_loader_upgradeable_id then
    if is_writable && negb (message_is_upgradeable_loader_present message)
    then Err TE.InvalidWritableAccount
    else if acc_executable account then
      match state account with
      | Ok (ULS_Program programdata_address) =>
          match load_with_fixed_root db load_zero_lamports programdata_address with
          | Some (programdata_account, _) => Ok [(programdata_address, programdata_account)]
          | None => Err TE.ProgramAccountNotFound
          end
      | _ => Err TE.InvalidProgramForExecution
      end
    else Ok []
  else if acc_executable account && is_writable then Err TE.InvalidWritableAccount
  else Ok [].

(** One iteration of the loop over the account keys. *)
Definition load_account (message : SanitizedMessage) (fee : Z) (i : nat) (key : Pubkey) (s : LoadState)
    : outcome (result TransactionError LoadState) :=
  if negb (message_is_non_loader_key message i) then Returns (Ok (push_account s key account_default))
  else if N.eqb key sysvar_instructions_id then
    account ← construct_instructions_account message
                (is_active feature_set instructions_sysvar_owned_by_sysvar);
    Returns (Ok (push_account s key account))
  else
    is_writable ← message_is_writable message i;
    let '(account, rent, writable) :=
      load_existing i key is_writable (ls_mev_writable_accounts_map s) in
    let? account :=
      Returns (if ls_validated_fee_payer s then Ok account
               else validate_fee_payer key account i rent_collector feature_set fee) in
    let? deps := Returns (load_deps message account is_writable) in
    Returns (Ok {| ls_validated_fee_payer := true;
                   ls_tx_rent := wrap64 (ls_tx_rent s + rent);
                   ls_accounts := ls_accounts s ++ [(key, account)];
                   ls_mev_writable_accounts_map := writable;
                   ls_account_deps := ls_account_deps s ++ deps;
                   ls_rent_debits := rent_debits_insert (ls_rent_debits s) key rent
                                       (acc_lamports account) |}).

Fixpoint load_loop (message : SanitizedMessage) (fee : Z) (i : nat) (keys : list Pubkey) (s : LoadState)
    : outcome (result TransactionError LoadState) :=
  match keys with
  | [] => Returns (Ok s)
  | key :: rest =>
      let? s := load_account message fee i key s in
      load_loop message fee (S i) rest s
  end.

(** The [while] loop of [load_executable_accounts]; [depth] counts down from
    5.  The indices are those of the chain, the last loader first. *)
Fixpoint load_chain (depth : nat) (accounts : list TransactionAccount) (program_id : Pubkey)
    (account_indices : list nat) : result TransactionError (list TransactionAccount * list nat) :=
  if N.eqb program_id native_loader_id then Ok (accounts, account_indices)
  else match depth with
  | O => Err TE.CallChainTooDeep
  | S depth =>
      match load_with_fixed_root db load_zero_lamports program_id with
      | None => Err TE.ProgramAccountNotFound
      | Some (program, _) =>
          let account_indices := length accounts :: account_indices in
          let accounts := accounts ++ [(program_id, program)] in
          if negb (acc_executable program) then Err TE.InvalidProgramForExecution
          else if N.eqb (acc_owner program) bpf_loader_upgradeable_id then
            match state program with
            | Ok (ULS_Program programdata_address) =>
                match load_with_fixed_root db load_zero_lamports programdata_address with
                | Some (programdata_account, _) =>
                    load_chain depth (accounts ++ [(programdata_address, programdata_account)])
                      (acc_owner program) (length accounts :: account_indices)
                | None => Err TE.ProgramAccountNotFound
                end
            | _ => Err TE.InvalidProgramForExecution
            end
          else load_chain depth accounts (acc_owner program) account_indices
      end
  end.

Definition load_executable_accounts (accounts : list TransactionAccount) (program_account_index : nat)
    : outcome (result TransactionError (list TransactionAccount * list nat)) :=
  '(program_id, _) ← unwrap (accounts !! program_account_index);
  Returns (load_chain 5 accounts program_id []).

Fixpoint load_programs (accounts : list TransactionAccount) (ixs : list CompiledInstruction)
    : outcome (result TransactionError (list TransactionAccount * list (list nat))) :=
  match ixs with
  | [] => Returns (Ok (accounts, []))
  | ix :: rest =>
      let? (accounts, indices) := load_executable_accounts accounts (program_id_index ix) in
      let? (accounts, all_indices) := load_programs accounts rest in
      Returns (Ok (accounts, indices :: all_indices))
  end.

Definition load_transaction (tx : SanitizedTransaction) (fee : Z)
    : outcome (result TransactionError LoadedTransaction) :=
  let message := st_message tx in
  if (length (st_signatures tx) =? 0)%nat && negb (fee =? 0)
  then Returns (Err TE.MissingSignatureForFee)
  else
    let? s := load_loop message fee 0 (account_keys_iter (message_account_keys message))
                load_state_new in
    let mev_accounts :=
      get_accounts_data (load_with_fixed_root db load_zero_lamports)
        (ls_mev_writable_accounts_map s) <$> st_mev_keys tx in
    let accounts := ls_accounts s ++ ls_account_deps s in
    if ls_validated_fee_payer s then
      let? (accounts, program_indices) := load_programs accounts (message_instructions message) in
      Returns (Ok {| lt_accounts := accounts; lt_program_indices := program_indices;
                     lt_rent := ls_tx_rent s; lt_rent_debits := ls_rent_debits s;
                     lt_mev_accounts := mev_accounts |})
    else Returns (Err TE.AccountNotFound).

(** ** Loading a batch *)

Context `{BudgetCodec}.
Variable hash_queue : BlockhashQueue.
Variable fee_structure : FeeStructure.

Definition load_checked (tx : SanitizedTransaction) (lock_result : TransactionCheckResult)
    : outcome TransactionLoadResult :=
  match lock_result with
  | (Err e, _) => Returns (Err e, None)
  | (Ok _, nonce) =>
      let lamports_per_signature :=
        match nonce with
        | Some nonce => lamports_per_signature_of (np_account nonce)
        | None => get_lamports_per_signature hash_queue (message_recent_blockhash (st_message tx))
        end in
      match lamports_per_signature with
      | None => Returns (Err TE.BlockhashNotFound, None)
      | Some lamports_per_signature =>
          fee ← calculate_fee (st_message tx) lamports_per_signature fee_structure
                  (is_active feature_set tx_wide_compute_cap)
                  (is_active feature_set add_set_compute_unit_price_ix);
          loaded ← load_transaction tx fee;
          match loaded, nonce with
          | Err e, _ => Returns (Err e, None)
          | Ok loaded_transaction, None => Returns (Ok loaded_transaction, None)
          | Ok loaded_transaction, Some nonce =>
              match from_partial nonce (st_message tx) (lt_accounts loaded_transaction)
                      (lt_rent_debits loaded_transaction) with
              | Ok nonce => Returns (Ok loaded_transaction, Some nonce)
              | Err e => Returns (Err e, None)
              end
          end
      end
  end.

Definition load_accounts (txs : list SanitizedTransaction) (lock_results : list TransactionCheckResult)
    : outcome (list TransactionLoadResult) :=
  map_outcome (fun '(tx, lock_result) => load_checked tx lock_result) (zip txs lock_results).

End Transaction.

(** ** Results of execution *)

Inductive DurableNonceFee := DNF_Valid (lamports_per_signature : Z) | DNF_Invalid.

(** The log messages and the inner instructions are left out. *)
Record TransactionExecutionDetails := {
  ted_status : result TransactionError unit;
  ted_durable_nonce_fee : option DurableNonceFee;
  ted_executed_units : Z;
  ted_accounts_data_len_delta : Z;
}.

Inductive TransactionExecutionResult :=
| Executed (details : TransactionExecutionDetails)
| NotExecuted (err : TransactionError).

Definition was_executed (r : TransactionExecutionResult) : bool :=
  match r with Executed _ => true | NotExecuted _ => false end.

Definition was_executed_successfully (r : TransactionExecutionResult) : bool :=
  match r with Executed details => is_ok (ted_status details) | NotExecuted _ => false end.

Definition flattened_result (r : TransactionExecutionResult) : result TransactionError unit :=
  match r with Executed details => ted_status details | NotExecuted err => Err err end.

(** ** Storing *)

Section Store.
Context `{Bincode NonceVersions}.
Variable rent_collector : RentCollector.
Variable durable_nonce : DurableNonce.
Variable separate_domains : bool.
Variable lamports_per_signature : Z.
Variable leave_nonce_on_success : bool.
Variable preserve_rent_epoch_for_rent_exempt_accounts : bool.

(** The account as it is written, and whether it is the nonce account. *)
Definition prepare_if_nonce_account (address : Pubkey) (account : AccountSharedData)
    (execution_result : result TransactionError unit) (is_fee_payer : bool)
    (maybe_nonce : option (NonceFull * bool)) : outcome (AccountSharedData * bool) :=
  match maybe_nonce with
  | None => Returns (account, false)
  | Some (nonce, rollback) =>
      if N.eqb address (nf_address nonce) then
        let account := if (rollback : bool) then nf_account nonce else account in
        nonce_versions ← unwrap (result_ok (state (nf_account nonce)));
        match versions_state nonce_versions with
        | NS_Initialized data =>
            let nonce_state :=
              new_initialized (nd_authority data) durable_nonce lamports_per_signature in
            account ← unwrap (result_ok (set_state account (versions_new nonce_state separate_domains)));
            Returns (account, true)
        | NS_Uninitialized => Returns (account, true)
        end
      else if negb (is_ok execution_result) && is_fee_payer then
        match nf_fee_payer_account nonce with
        | Some fee_payer_account => Returns (fee_payer_account, false)
        | None => Returns (account, false)
        end
      else Returns (account, false)
  end.

(** The nonce that has to be handled for a transaction, if its accounts are
    stored at all. *)
Definition nonce_to_store (execution_status : result TransactionError unit) (nonce : option NonceFull)
    : option (option (NonceFull * bool)) :=
  match execution_status, nonce with
  | Ok _, Some nonce => Some (if leave_nonce_on_success then None else Some (nonce, false))
  | Err _, Some nonce => Some (Some (nonce, true))
  | Ok _, None => Some None
  | Err _, None => None
  end.

(** What the loop over the accounts of a transaction has gathered; the
    accounts of the loaded transaction are changed in place. *)
Record StoreState := {
  ss_fee_payer_index : option nat;
  ss_accounts : list TransactionAccount;
  ss_rent : Z;
  ss_rent_debits : RentDebits;
  ss_to_store : list TransactionAccount;
}.

Definition keep_account (s : StoreState) (fee_payer_index : option nat) (acc : TransactionAccount)
    : StoreState :=
  {| ss_fee_payer_index := fee_payer_index; ss_accounts := ss_accounts s ++ [acc];
     ss_rent := ss_rent s; ss_rent_debits := ss_rent_debits s; ss_to_store := ss_to_store s |}.

(** One iteration for the account at index [i]. *)
Definition store_account_step (message : SanitizedMessage)
    (execution_status : result TransactionError unit) (maybe_nonce : option (NonceFull * bool))
    (i : nat) (acc : TransactionAccount) (s : StoreState) : outcome StoreState :=
  if negb (message_is_non_loader_key message i)
  then Returns (keep_account s (ss_fee_payer_index s) acc)
  else
    let '(address, account) := acc in
    let fee_payer_index := match ss_fee_payer_index s with Some j => j | None => i end in
    let is_fee_payer := (i =? fee_payer_index)%nat in
    is_writable ← message_is_writable message i;
    if (is_writable : bool) then
      '(account, is_nonce_account) ←
        prepare_if_nonce_account address account execution_status is_fee_payer maybe_nonce;
      if is_ok execution_status || is_nonce_account || is_fee_payer then
        let '(account, rent, rent_debits) :=
          if negb preserve_rent_epoch_for_rent_exempt_accounts && (acc_rent_epoch account =? 0) then
            let '(account, info) := collect_from_created_account rent_collector address account
                                      preserve_rent_epoch_for_rent_exempt_accounts in
            (account, wrap64 (ss_rent s + ci_rent_amount info),
             rent_debits_insert (ss_rent_debits s) address (ci_rent_amount info) (acc_lamports account))
          else (account, ss_rent s, ss_rent_debits s) in
        Returns {| ss_fee_payer_index := Some fee_payer_index;
                   ss_accounts := ss_accounts s ++ [(address, account)];
                   ss_rent := rent; ss_rent_debits := rent_debits;
                   ss_to_store := ss_to_store s ++ [(address, account)] |}
      else Returns (keep_account s (Some fee_payer_index) (address, account))
    else Returns (keep_account s (Some fee_payer_index) (address, account)).

Fixpoint store_loop (message : SanitizedMessage) (execution_status : result TransactionError unit)
    (maybe_nonce : option (NonceFull * bool)) (i : nat) (accounts : list TransactionAccount)
    (s : StoreState) : outcome StoreState :=
  match accounts with
  | [] => Returns s
  | acc :: rest =>
      s ← store_account_step message execution_status maybe_nonce i acc s;
      store_loop message execution_status maybe_nonce (S i) rest s
  end.

(** The accounts of one transaction: those to store, and the loaded
    transaction as it is left. *)
Definition collect_transaction (tx : SanitizedTransaction) (execution_result : TransactionExecutionResult)
    (load_result : TransactionLoadResult) : outcome (TransactionLoadResult * list TransactionAccount) :=
  match load_result, execution_result with
  | (Ok loaded, nonce), Executed details =>
      match nonce_to_store (ted_status details) nonce with
      | None => Returns (load_result, [])
      | Some maybe_nonce =>
          let message := st_message tx in
          let n := account_keys_len (message_account_keys message) in
          s ← store_loop message (ted_status details) maybe_nonce 0 (take n (lt_accounts loaded))
                {| ss_fee_payer_index := None; ss_accounts := []; ss_rent := lt_rent loaded;
                   ss_rent_debits := lt_rent_debits loaded; ss_to_store := [] |};
          Returns ((Ok {| lt_accounts := ss_accounts s ++ drop n (lt_accounts loaded);
                          lt_mev_accounts := lt_mev_accounts loaded;
                          lt_program_indices := lt_program_indices loaded;
                          lt_rent := ss_rent s; lt_rent_debits := ss_rent_debits s |}, nonce),
                   ss_to_store s)
      end
  | _, _ => Returns (load_result, [])
  end.

Fixpoint collect_accounts_to_store (txs : list SanitizedTransaction)
    (execution_results : list TransactionExecutionResult) (load_results : list TransactionLoadResult)
    : outcome (list TransactionLoadResult * list TransactionAccount) :=
  match load_results, txs, execution_results with
  | load_result :: load_results', tx :: txs', execution_result :: execution_results' =>
      '(load_result, accounts) ← collect_transaction tx execution_result load_result;
      '(load_results', accounts') ← collect_accounts_to_store txs' execution_results' load_results';
      Returns (load_result :: load_results', accounts ++ accounts')
  | (Ok _, _) :: _, _ :: _, [] => Panics
  | (Err _, _) as load_result :: load_results', _ :: txs', [] =>
      '(load_results', accounts') ← collect_accounts_to_store txs' [] load_results';
      Returns (load_result :: load_results', accounts')
  | _, _, _ => Returns (load_results, [])
  end.

(** [Accounts::store_cached]: the database and the loaded transactions as
    they are left. *)
Definition store_cached (db : adb) (slot : Slot) (txs : list SanitizedTransaction)
    (res : list TransactionExecutionResult) (loaded : list TransactionLoadResult)
    : outcome (adb * list TransactionLoadResult) :=
  '(loaded, accounts_to_store) ← collect_accounts_to_store txs res loaded;
  Returns (adb_store_cached db slot accounts_to_store, loaded).

End Store.
End Load.
