(* ===== verification/AccountsLoadSafety.v ===== *)
(** * Lamports of loaded and stored accounts

    What loading takes from the accounts of a transaction (rent and the fee)
    and what storing them back gives: the lemmas with which the bank's
    conservation theorem is proved. *)

From S2P Require Import Prelude Keys Message Errors InstructionsSysvar Transaction AccountLocks Float64 ComputeBudget Account Invocation Nonce SystemProgram EpochSchedule RentCollector BlockhashQueue PreAccount Runtime RuntimeSafety Arbitrage Mev AccountsLoad.

(** ** The accounts a transaction stores *)

(** The index is written back: not only a program, and writable. *)
Definition stored_index (m : SanitizedMessage) (i : nat) : bool :=
  message_is_non_loader_key m i
  && match message_is_writable m i with Returns w => w | Panics => false end.

(** The elements of a list at such indices, counted from [i]. *)
Fixpoint pick {A} (m : SanitizedMessage) (i : nat) (l : list A) : list A :=
  match l with
  | [] => []
  | x :: rest => if stored_index m i then x :: pick m (S i) rest else pick m (S i) rest
  end.

(** No account is overridden: the path of a block producer. *)
Abbreviation no_overrides := (fun _ : Pubkey => @None AccountSharedData).

Abbreviation message_keys m := (account_keys_iter (message_account_keys m)).

(** What sanitization gives: every key once, account indices in range, data
    of bytes, and a fee payer that is writable and not a program. *)
Record message_ok (m : SanitizedMessage) : Prop := {
  mo_keys : NoDup (message_keys m);
  mo_length : (length (message_keys m) <= 256)%nat;
  mo_indices : Forall (fun ix => Forall (fun i => i < length (message_keys m))%nat (ci_accounts ix))
                 (message_instructions m);
  mo_data : Forall (fun ix => Forall u8 (ci_data ix)) (message_instructions m);
  mo_payer : stored_index m 0 = true;
  mo_nonempty : message_keys m <> [];
}.

Lemma elem_of_pick {A} m i (l : list A) x : x ∈ pick m i l -> x ∈ l.
Proof.
  revert i. induction l as [|y l IH]; intros i; cbn; [done|].
  destruct (stored_index m i); rewrite ?elem_of_cons; naive_solver.
Qed.

Lemma pick_map {A B} (f : A -> B) m i l : pick m i (map f l) = map f (pick m i l).
Proof.
  revert i. induction l as [|y l IH]; intros i; cbn; [done|]. rewrite IH. by destruct (stored_index m i).
Qed.

Lemma NoDup_pick {A} m i (l : list A) : NoDup l -> NoDup (pick m i l).
Proof.
  revert i. induction l as [|y l IH]; intros i Hl; cbn; [done|]. apply NoDup_cons in Hl as [Hy Hl].
  destruct (stored_index m i); [|auto]. constructor; [|auto]. intros Hin. by apply Hy, (elem_of_pick m (S i)).
Qed.

(** The instructions sysvar is never writable. *)
Lemma sysvar_not_stored m i :
  message_keys m !! i = Some sysvar_instructions_id -> stored_index m i = false.
Proof.
  intros Hi. unfold stored_index. apply andb_false_iff; right.
  assert (is_sysvar_id sysvar_instructions_id = true) as Hs by by vm_compute.
  destruct m as [m|m]; cbn [message_is_writable].
  - unfold account_keys_iter in Hi; cbn in Hi; rewrite !app_nil_r in Hi.
    unfold legacy_is_writable. rewrite Hi. destruct (_ || _); [|done].
    cbn [unwrap mbind outcome_bind]. by rewrite Hs.
  - unfold v0_is_writable. destruct (v0_is_writable_index m i); [|done].
    change (message_account_keys (SanitizedV0 m)) with (v0_account_keys_all m) in Hi.
    rewrite account_keys_get_iter, Hi. by rewrite Hs.
Qed.

(** The stored keys are locked for writing. *)
Lemma pick_locked tx k :
  k ∈ pick (st_message tx) 0 (message_keys (st_message tx)) -> k ∈ tal_writable (tx_locks tx).
Proof.
  pose proof (locks_unchecked_returns tx) as H. unfold get_account_locks_unchecked in H.
  apply outcome_bind_Returns in H as ([w r] & Hs & [= H]). rewrite <- H. cbn. clear H.
  revert w r Hs. generalize (message_keys (st_message tx)) as keys, 0%nat as i.
  induction keys as [|k' keys IH]; intros i w r Hs; cbn in *; [by injection Hs as <- _|].
  apply outcome_bind_Returns in Hs as (b & Hb & Hs). apply outcome_bind_Returns in Hs as ([w' r'] & Hs & Hr).
  unfold stored_index at 1. rewrite Hb. injection Hr as Hr. specialize (IH _ _ _ Hs).
  destruct b; injection Hr as <- _; rewrite ?andb_true_r, ?andb_false_r; [|done].
  destruct (message_is_non_loader_key _ _); rewrite ?elem_of_cons; naive_solver.
Qed.

Section Conserve.
Context `{AccountsDb} {Hlaws : AccountsDbLaws _}.

(** ** The lamports of the database *)

Definition lam (db : adb) (k : Pubkey) : Z :=
  match adb_load db k with Some (a, _) => acc_lamports a | None => 0 end.

Fixpoint lam_total (db : adb) (ks : list Pubkey) : Z :=
  match ks with [] => 0 | k :: rest => lam db k + lam_total db rest end.

Definition db_typed (db : adb) : Prop :=
  forall k a slot, adb_load db k = Some (a, slot) -> u64 (acc_lamports a).

Lemma lam_bound db k : db_typed db -> u64 (lam db k).
Proof.
  intros Hdb. unfold lam. destruct (adb_load db k) as [[a s]|] eqn:E; [by eapply Hdb|]. u_unfold; lia.
Qed.

Lemma lam_total_nonneg db ks : db_typed db -> 0 <= lam_total db ks.
Proof.
  intros Hdb. induction ks as [|k ks IH]; cbn; [lia|]. pose proof (lam_bound db k Hdb). u_unfold. lia.
Qed.

Lemma lam_total_app db l l' : lam_total db (l ++ l') = lam_total db l + lam_total db l'.
Proof. induction l as [|k l IH]; cbn; [lia|]. rewrite IH. lia. Qed.

Lemma load_lam db z k a slot :
  load_with_fixed_root db z k = Some (a, slot) -> adb_load db k = Some (a, slot).
Proof.
  unfold load_with_fixed_root. destruct (adb_load db k) as [[a' s']|]; [|done].
  destruct z; [|done]. by destruct (_ =? _).
Qed.

Lemma load_none_lam db z k : load_with_fixed_root db z k = None -> lam db k = 0.
Proof.
  unfold load_with_fixed_root, lam. destruct (adb_load db k) as [[a' s']|]; [|done].
  destruct z; [|done]. destruct (Z.eqb_spec (acc_lamports a') 0); done.
Qed.

Lemma split_keys (l K : list Pubkey) :
  NoDup l -> NoDup K -> (forall k, k ∈ l -> k ∈ K) ->
  exists rest, K ≡ₚ l ++ rest /\ forall k, k ∈ rest -> k ∉ l.
Proof.
  intros Hl HK Hin. exists (filter (fun k => k ∉ l) K). split.
  - apply NoDup_Permutation; [done| |].
    + apply NoDup_app. split_and!; [done| |by apply NoDup_filter].
      intros k Hk Hf. by apply list_elem_of_filter in Hf as [? _].
    + intros k. rewrite elem_of_app, list_elem_of_filter. destruct (decide (k ∈ l)); naive_solver.
  - intros k [? _]%list_elem_of_filter. done.
Qed.

#[global] Instance lam_total_Proper db : Proper ((≡ₚ) ==> (=)) (lam_total db).
Proof. induction 1; cbn; lia. Qed.

Lemma lam_total_mono db l K :
  db_typed db -> NoDup l -> NoDup K -> (forall k, k ∈ l -> k ∈ K) -> lam_total db l <= lam_total db K.
Proof.
  intros Hdb Hl HK Hin. destruct (split_keys l K Hl HK Hin) as (rest & Hperm & _).
  rewrite Hperm, lam_total_app. pose proof (lam_total_nonneg db rest Hdb). lia.
Qed.

Lemma lam_total_ext db db' l : (forall k, k ∈ l -> lam db' k = lam db k) -> lam_total db' l = lam_total db l.
Proof. induction l as [|k l IH]; intros He; cbn; [done|]. rewrite He, IH; set_solver. Qed.

(** Storing some accounts moves the total by what they differ. *)
Lemma lam_total_store db slot l ks :
  NoDup (map fst l) -> NoDup ks -> (forall k, k ∈ map fst l -> k ∈ ks) ->
  lam_total (adb_store_cached db slot l) ks
  = lam_total db ks + lamports_of (map snd l) - lam_total db (map fst l).
Proof.
  intros Hl Hks Hin. destruct (split_keys (map fst l) ks Hl Hks Hin) as (rest & Hperm & Hrest).
  rewrite Hperm, !lam_total_app.
  assert (lam_total (adb_store_cached db slot l) rest = lam_total db rest) as ->.
  { apply lam_total_ext. intros k Hk. unfold lam. by rewrite adb_load_other by auto. }
  enough (lam_total (adb_store_cached db slot l) (map fst l) = lamports_of (map snd l)) by lia.
  assert (forall k a, (k, a) ∈ l -> lam (adb_store_cached db slot l) k = acc_lamports a) as Hlam.
  { intros k a Hka. unfold lam. by rewrite (adb_load_stored db slot l k a). }
  clear -Hlam. revert Hlam. generalize (adb_store_cached db slot l) as d.
  intros d Hlam. induction l as [|[k a] l IH]; cbn; [done|].
  rewrite (Hlam k a) by set_solver. rewrite IH; [done|]. set_solver.
Qed.

Lemma store_typed db slot l :
  NoDup (map fst l) -> db_typed db -> typed (map snd l) -> db_typed (adb_store_cached db slot l).
Proof.
  intros Hnd Hdb Hl k a s Hk. destruct (decide (k ∈ map fst l)) as [Hin|]; [|rewrite adb_load_other in Hk by done; eauto].
  apply list_elem_of_fmap in Hin as ([k' a'] & -> & Hin). cbn in Hk.
  rewrite (adb_load_stored db slot l k' a') in Hk by done. injection Hk as <- _.
  unfold typed in Hl. rewrite Forall_forall in Hl. apply Hl. apply list_elem_of_fmap. by exists (k', a').
Qed.

(** ** Loading *)

Section Load.
Context `{Bincode NonceVersions} `{Bincode UpgradeableLoaderState}.

Lemma validate_fee_payer_Ok key a i rc fs fee a' :
  validate_fee_payer key a i rc fs fee = Ok a' ->
  a' = set_lamports a (acc_lamports a - fee) /\ fee <= acc_lamports a /\ acc_lamports a <> 0.
Proof.
  unfold validate_fee_payer. destruct (Z.eqb_spec (acc_lamports a) 0) as [|Hne]; [done|]. intros Hv.
  apply result_bind_Ok in Hv as (kind & _ & Hv). destruct (_ <? _); [done|].
  apply result_bind_Ok in Hv as (a1 & Ha1 & Hv). apply result_bind_Ok in Hv as (_ & _ & [= <-]).
  apply map_err_Ok, result_bind_Ok in Ha1 as (n & Hn & [= <-]). apply ok_or_Ok in Hn.
  unfold checked_sub64 in Hn. destruct (Z.leb_spec fee (acc_lamports a)); [|done]. by injection Hn as <-.
Qed.

Variable db : adb.
Variable rc : RentCollector.
Variable fs : FeatureSet.
Hypothesis Hdb : db_typed db.

(** The account at a key, and the rent that was taken from it. *)
Lemma load_existing_spec i key w writable a rent writable' :
  load_existing db rc fs no_overrides i key w writable = (a, rent, writable') ->
  u64 (acc_lamports a) /\ 0 <= rent /\ acc_lamports a + rent = lam db key /\ (w = false -> rent = 0)
  /\ (acc_lamports a <> 0 -> exists a0 slot, adb_load db key = Some (a0, slot)
        /\ acc_data a = acc_data a0 /\ acc_owner a = acc_owner a0).
Proof.
  unfold load_existing. pose proof (lam_bound db key Hdb) as Hb.
  destruct (load_with_fixed_root db (load_zero_lamports fs) key) as [[a0 slot]|] eqn:El.
  2: { apply load_none_lam in El. intros [= <- <- <-]. cbn. rewrite El. u_unfold. split_and!; try done; lia. }
  apply load_lam in El. assert (lam db key = acc_lamports a0) as Hl by (unfold lam; by rewrite El).
  rewrite Hl in *. destruct w; [|intros [= <- <- <-]; split_and!; try done; try lia; eauto].
  destruct (collect_from_existing_account rc key a0 filler_account_suffix (preserve fs)) as [a1 info] eqn:Ec.
  intros [= <- <- <-].
  pose proof (collect_conserves rc key a0 filler_account_suffix (preserve fs) ltac:(u_unfold; lia)) as Hc.
  pose proof (collect_cases rc key a0 filler_account_suffix (preserve fs)) as Hcs.
  rewrite Ec in Hc, Hcs. split_and!; try done; [u_unfold; lia|lia|lia|].
  intros Hne. exists a0, slot. destruct Hcs as [(_ & -> & _)|[(-> & _)|(? & ? & _ & _ & _ & _ & ->)]]; done.
Qed.

Lemma load_deps_typed m a w deps : load_deps db fs m a w = Ok deps -> typed (map snd deps).
Proof.
  unfold load_deps. destruct (N.eqb _ _).
  2: { destruct (_ && _); [done|]. intros [= <-]. constructor. }
  destruct (_ && _); [done|]. destruct (acc_executable a); [|intros [= <-]; constructor].
  destruct (state a) as [[| |pda|]|]; try done.
  destruct (load_with_fixed_root _ _ _) as [[pd slot]|] eqn:El; [|done]. intros [= <-].
  apply load_lam in El. constructor; [by eapply Hdb|constructor].
Qed.

(** One iteration: what is taken from the account, and where it goes. *)
Record loaded_step (m : SanitizedMessage) (fee : Z) (i : nat) (key : Pubkey) (s s' : LoadState)
    (a : AccountSharedData) (rent : Z) : Prop := {
  st_accounts : ls_accounts s' = ls_accounts s ++ [(key, a)];
  st_account_typed : u64 (acc_lamports a);
  st_deps : exists deps, ls_account_deps s' = ls_account_deps s ++ deps /\ typed (map snd deps);
  st_rent_nonneg : 0 <= rent;
  st_rent : ls_tx_rent s' = ls_tx_rent s + rent;
  st_stored : stored_index m i = true ->
    acc_lamports a + rent + (if ls_validated_fee_payer s then 0 else fee) = lam db key
    /\ ls_validated_fee_payer s' = true
    /\ (ls_validated_fee_payer s = false -> exists a0 slot, adb_load db key = Some (a0, slot)
          /\ acc_data a = acc_data a0 /\ acc_owner a = acc_owner a0);
  st_not_stored : stored_index m i = false -> rent = 0;
  st_validated : ls_validated_fee_payer s = true -> ls_validated_fee_payer s' = true;
  st_debits : ls_rent_debits s' = rent_debits_insert (ls_rent_debits s) key rent (acc_lamports a);
}.

Lemma load_account_spec m fee i key s s' :
  message_keys m !! i = Some key -> 0 <= fee ->
  u64 (ls_tx_rent s) -> (stored_index m i = true -> ls_tx_rent s + lam db key <= U64_MAX) ->
  load_account db rc fs no_overrides m fee i key s = Returns (Ok s') ->
  exists a rent, loaded_step m fee i key s s' a rent.
Proof.
  intros Hkey Hfee Hr Hmax Hl. unfold load_account in Hl.
  assert (forall a, u64 (acc_lamports a) -> stored_index m i = false ->
    loaded_step m fee i key s (push_account s key a) a 0) as Hpush.
  { intros a Ha Hs. split; cbn; try done; try congruence; [|lia].
    exists []. rewrite app_nil_r. split; [done|constructor]. }
  destruct (message_is_non_loader_key m i) eqn:Hnl; cbn [negb] in Hl.
  2: { injection Hl as <-. exists account_default, 0. apply Hpush; [u_unfold; cbn; lia|].
       unfold stored_index. by rewrite Hnl. }
  destruct (N.eqb_spec key sysvar_instructions_id) as [->|Hns].
  { apply outcome_bind_Returns in Hl as (a & Ha & [= <-]). exists a, 0.
    apply outcome_bind_Returns in Ha as (ixs & _ & [= <-]).
    apply Hpush; [u_unfold; cbn; lia|by apply sysvar_not_stored]. }
  apply outcome_bind_Returns in Hl as (w & Hw & Hl).
  destruct (load_existing _ _ _ _ _ _ _ _) as [[a rent] writable] eqn:Ele.
  apply load_existing_spec in Ele as (Hta & Hrent & Hsum & Hro & Hdata).
  assert (stored_index m i = w) as Hsi by (unfold stored_index; by rewrite Hnl, Hw).
  assert (exists a' deps, s' = {| ls_validated_fee_payer := true; ls_tx_rent := wrap64 (ls_tx_rent s + rent);
      ls_accounts := ls_accounts s ++ [(key, a')]; ls_mev_writable_accounts_map := writable;
      ls_account_deps := ls_account_deps s ++ deps;
      ls_rent_debits := rent_debits_insert (ls_rent_debits s) key rent (acc_lamports a') |}
    /\ load_deps db fs m a' w = Ok deps
    /\ ((ls_validated_fee_payer s = true /\ a' = a)
        \/ (ls_validated_fee_payer s = false /\ validate_fee_payer key a i rc fs fee = Ok a')))
    as (a' & deps & -> & Hdeps & Hva).
  { destruct (if ls_validated_fee_payer s then _ else _) as [a'|] eqn:Ev; [|done]. cbn in Hl.
    destruct (load_deps _ _ _ _ _) as [deps|] eqn:Ed; [|done]. injection Hl as <-. exists a', deps.
    split_and!; [done|done|]. destruct (ls_validated_fee_payer s); [left|right]; split; congruence. }
  apply load_deps_typed in Hdeps. exists a', rent.
  assert (ls_tx_rent s + rent <= U64_MAX) as Hnow.
  { destruct w; [specialize (Hmax Hsi); u_unfold; lia|rewrite Hro by done; u_unfold; lia]. }
  assert (u64 (acc_lamports a') /\ acc_lamports a' + rent + (if ls_validated_fee_payer s then 0 else fee) = lam db key)
    as [Hta' Hsum'].
  { destruct Hva as [[-> ->]|[-> Hv]]; [split; [done|lia]|].
    apply validate_fee_payer_Ok in Hv as (-> & Hle & _). cbn. u_unfold. split; lia. }
  split; cbn; try done; [by eexists|by apply wrap64_small; u_unfold; lia| |by rewrite Hsi].
  intros _. split_and!; [done|done|]. intros Hnv. destruct Hva as [[? _]|[_ Hv]]; [congruence|].
  apply validate_fee_payer_Ok in Hv as (-> & _ & Hne). by apply Hdata in Hne.
Qed.

Lemma rent_debits_insert_ne d k k' rent post :
  k <> k' -> rent_debits_insert d k rent post !! k' = d !! k'.
Proof. intros Hne. unfold rent_debits_insert. destruct (_ =? _); [done|]. by apply lookup_insert_ne. Qed.

Lemma typed_app l l' : typed (l ++ l') <-> typed l /\ typed l'.
Proof. apply Forall_app. Qed.

Lemma load_loop_spec m fee : forall keys i s s',
  (forall j k, keys !! j = Some k -> message_keys m !! (i + j)%nat = Some k) -> 0 <= fee ->
  ls_validated_fee_payer s = true -> 0 <= ls_tx_rent s ->
  ls_tx_rent s + lam_total db (pick m i keys) <= U64_MAX ->
  load_loop db rc fs no_overrides m fee i keys s = Returns (Ok s') ->
  exists L deps, ls_accounts s' = ls_accounts s ++ L /\ map fst L = keys /\ typed (map snd L)
    /\ ls_account_deps s' = ls_account_deps s ++ deps /\ typed (map snd deps)
    /\ ls_validated_fee_payer s' = true /\ ls_tx_rent s <= ls_tx_rent s'
    /\ lamports_of (map snd (pick m i L)) + ls_tx_rent s' = ls_tx_rent s + lam_total db (pick m i keys)
    /\ forall k, k ∉ keys -> ls_rent_debits s' !! k = ls_rent_debits s !! k.
Proof.
  induction keys as [|key keys IH]; intros i s s' Hkeys Hfee Hv Hr Hmax Hl; cbn [load_loop] in Hl.
  { injection Hl as <-. exists [], []. rewrite !app_nil_r. split_and!; try done; try (by constructor); cbn; lia. }
  destruct (load_account _ _ _ _ _ _ _ _ _) as [[s1|]|] eqn:Hs1; try done. cbn in Hl.
  pose proof (lam_total_nonneg db (pick m (S i) keys) Hdb) as Hnn.
  assert (message_keys m !! i = Some key) as Hkey by (rewrite <- (Nat.add_0_r i); by apply Hkeys).
  apply load_account_spec in Hs1 as (a & rent & []); try done.
  2: { pose proof (lam_total_nonneg db (pick m i (key :: keys)) Hdb). u_unfold; lia. }
  2: { intros Hst. cbn in Hmax. rewrite Hst in Hmax. cbn in Hmax. lia. }
  rewrite Hv in st_stored0.
  assert (lam_total db (pick m i (key :: keys)) = (if stored_index m i then lam db key else 0) + lam_total db (pick m (S i) keys)) as Ht
    by (cbn; by destruct (stored_index m i)).
  assert (rent <= if stored_index m i then lam db key else 0) as Hrle.
  { destruct (stored_index m i); [|rewrite st_not_stored0 by done; lia].
    destruct (st_stored0 eq_refl) as (Hst & _). u_unfold; lia. }
  destruct (IH (S i) s1 s') as (L & deps & Ha & Hf & Hty & Hd & Hdt & Hv' & Hle & Hsum & Hdeb); auto; try lia.
  { intros j k Hj. replace (S i + j)%nat with (i + S j)%nat by lia. by apply Hkeys. }
  destruct st_deps0 as (deps0 & Hd0 & Hdt0). exists ((key, a) :: L), (deps0 ++ deps).
  rewrite Ha, st_accounts0, <- app_assoc, Hd, Hd0, <- app_assoc. split_and!; try done; cbn.
  - by rewrite Hf.
  - by constructor.
  - rewrite map_app. by apply Forall_app.
  - lia.
  - destruct (stored_index m i); cbn; [destruct (st_stored0 eq_refl) as (Hst & _)|rewrite st_not_stored0 in * by done]; lia.
  - intros k [Hne Hk]%not_elem_of_cons. rewrite Hdeb, st_debits0 by done. apply rent_debits_insert_ne. congruence.
Qed.

Lemma Returns_inj {A} (x y : A) : Returns x = Returns y -> x = y.
Proof. by intros [= ->]. Qed.

Lemma load_chain_typed depth : forall accounts pid indices accounts' indices',
  load_chain db fs depth accounts pid indices = Ok (accounts', indices') ->
  exists extra, accounts' = accounts ++ extra /\ typed (map snd extra).
Proof.
  induction depth as [|depth IH]; intros accounts pid indices accounts' indices'; cbn [load_chain];
    destruct (N.eqb pid native_loader_id); try done.
  1, 2: intros [= <- <-]; exists []; rewrite app_nil_r; split; [done|constructor].
  destruct (load_with_fixed_root db (load_zero_lamports fs) pid) as [[program slot]|] eqn:El; [|done].
  apply load_lam, Hdb in El. destruct (acc_executable program); [|done]. cbn [negb].
  destruct (N.eqb _ _).
  - destruct (state program) as [[| |pda|]|]; try done.
    destruct (load_with_fixed_root db (load_zero_lamports fs) pda) as [[pd slot']|] eqn:Ep; [|done].
    apply load_lam, Hdb in Ep. intros (extra & -> & Ht)%IH. eexists. rewrite <- !app_assoc. split; [done|].
    cbn. constructor; [done|]. by constructor.
  - intros (extra & -> & Ht)%IH. eexists. rewrite <- app_assoc. split; [done|]. cbn. by constructor.
Qed.

Lemma load_programs_typed ixs : forall accounts accounts' indices,
  load_programs db fs accounts ixs = Returns (Ok (accounts', indices)) ->
  exists extra, accounts' = accounts ++ extra /\ typed (map snd extra).
Proof.
  induction ixs as [|ix ixs IH]; intros accounts accounts' indices Hl; cbn in Hl.
  { injection Hl as <- _. exists []. rewrite app_nil_r. split; [done|constructor]. }
  destruct (load_executable_accounts _ _ _ _) as [[[acc1 ind1]|]|] eqn:E1; try done. cbn in Hl.
  destruct (load_programs db fs acc1 ixs) as [[[acc2 ind2]|]|] eqn:E2; try done. cbn in Hl. injection Hl as <- _.
  apply outcome_bind_Returns in E1 as ([pid a] & _ & E1). apply Returns_inj, load_chain_typed in E1 as (e1 & -> & Ht1).
  apply IH in E2 as (e2 & -> & Ht2). exists (e1 ++ e2). rewrite <- app_assoc, map_app. split; [done|].
  by apply Forall_app.
Qed.

(** The fee payer after loading: it has paid the rent that is reported for it
    and the fee, and keeps its data. *)
Definition payer_loaded (fee : Z) (debits : RentDebits) (k : Pubkey) (a : AccountSharedData) : Prop :=
  acc_lamports a + get_account_rent_debit debits k + fee = lam db k
  /\ 0 <= get_account_rent_debit debits k
  /\ exists a0 slot, adb_load db k = Some (a0, slot)
       /\ acc_data a = acc_data a0 /\ acc_owner a = acc_owner a0.

(** Loading a transaction takes its rent and its fee, and nothing else. *)
Lemma load_transaction_spec tx fee lt :
  message_ok (st_message tx) -> 0 <= fee ->
  lam_total db (pick (st_message tx) 0 (message_keys (st_message tx))) <= U64_MAX ->
  load_transaction db rc fs no_overrides tx fee = Returns (Ok lt) ->
  exists k0 a0 L extra,
    lt_accounts lt = ((k0, a0) :: L) ++ extra
    /\ map fst ((k0, a0) :: L) = message_keys (st_message tx)
    /\ typed (map snd (lt_accounts lt)) /\ 0 <= lt_rent lt
    /\ lamports_of (map snd (pick (st_message tx) 0 ((k0, a0) :: L))) + lt_rent lt + fee
       = lam_total db (pick (st_message tx) 0 (message_keys (st_message tx)))
    /\ payer_loaded fee (lt_rent_debits lt) k0 a0.
Proof.
  set (m := st_message tx). intros [Hnd _ _ _ Hpay Hne] Hfee Hmax Hl. unfold load_transaction in Hl. fold m in Hl.
  destruct (_ && _); [done|]. destruct (load_loop _ _ _ _ _ _ _ _ _) as [[s|]|] eqn:Hloop; try done. cbn in Hl.
  destruct (message_keys m) as [|k0 keys] eqn:Hk; [done|]. cbn [load_loop] in Hloop.
  destruct (load_account _ _ _ _ _ _ _ _ _) as [[s1|]|] eqn:Hs1; try done. cbn [try_bind] in Hloop.
  pose proof (lam_total_nonneg db (pick m 1 keys) Hdb) as Hnn. cbn in Hmax. rewrite Hpay in Hmax. cbn in Hmax.
  apply load_account_spec in Hs1 as (a0 & rent & []); try done; [|by rewrite Hk|by cbn; lia].
  cbn in st_stored0. destruct (st_stored0 Hpay) as (Hst & Hval & Hdata).
  apply load_loop_spec in Hloop as (L & deps & Ha & Hf & Hty & Hd & Hdt & Hv' & Hle & Hsum & Hdeb); try done.
  2: { intros j k Hj. by rewrite Hk. }
  2: { rewrite st_rent0. cbn. lia. }
  2: { rewrite st_rent0. cbn. u_unfold. lia. }
  rewrite Hv' in Hl. destruct (load_programs _ _ _ _) as [[[accs pis]|]|] eqn:Hp; try done. cbn in Hl.
  injection Hl as <-. cbn [lt_accounts lt_rent lt_rent_debits].
  apply load_programs_typed in Hp as (extra & -> & Hte). destruct st_deps0 as (deps0 & Hd0 & Hdt0).
  cbn in st_accounts0, Hd0. exists k0, a0, L, (ls_account_deps s ++ extra).
  rewrite Ha, st_accounts0, <- !app_assoc. split_and!; try done.
  - cbn. by rewrite Hf.
  - cbn [app map snd]. constructor; [done|]. rewrite !map_app, !typed_app, Hd, Hd0, map_app, typed_app. auto.
  - rewrite st_rent0 in Hle. cbn in Hle. lia.
  - cbn [pick]. rewrite Hpay. cbn. rewrite st_rent0 in Hsum. cbn in Hsum. lia.
  - apply NoDup_cons in Hnd as [Hk0 _].
    assert (get_account_rent_debit (ls_rent_debits s) k0 = rent) as Hg.
    { unfold get_account_rent_debit. rewrite Hdeb, st_debits0 by done. unfold rent_debits_insert.
      destruct (Z.eqb_spec rent 0) as [->|]; [done|]. by rewrite lookup_insert_eq. }
    unfold payer_loaded. rewrite Hg. split_and!; [lia|done|auto].
Qed.

End Load.

(** ** Storing *)

Section Store.
Context `{Bincode NonceVersions}.
Variable rc : RentCollector.
Variable durable_nonce : DurableNonce.
Variable separate_domains : bool.
Variable lps : Z.
Variable preserve : bool.

Lemma set_state_lamports {A} `{Bincode A} a (v : A) a' :
  result_ok (set_state a v) = Some a' -> acc_lamports a' = acc_lamports a.
Proof. unfold set_state. destruct (_ <? _)%nat; [done|]. by intros [= <-]. Qed.

(** The lamports with which an account is written. *)
Lemma prepare_lamports address account status is_payer maybe_nonce a is_nonce :
  prepare_if_nonce_account durable_nonce separate_domains lps address account status is_payer maybe_nonce
    = Returns (a, is_nonce) ->
  match maybe_nonce with
  | Some (nonce, rollback) =>
      if N.eqb address (nf_address nonce)
      then is_nonce = true
        /\ acc_lamports a = acc_lamports (if (rollback : bool) then nf_account nonce else account)
      else is_nonce = false
        /\ a = match nf_fee_payer_account nonce with
               | Some payer => if negb (is_ok status) && is_payer then payer else account
               | None => account
               end
  | None => a = account /\ is_nonce = false
  end.
Proof.
  unfold prepare_if_nonce_account. destruct maybe_nonce as [[nonce rollback]|]; [|by intros [= <- <-]].
  destruct (N.eqb address (nf_address nonce)).
  - intros Hp. apply outcome_bind_Returns in Hp as (v & _ & Hp).
    destruct (versions_state v); [by injection Hp as <- <-|].
    apply outcome_bind_Returns in Hp as (a1 & Ha1 & [= <- <-]). split; [done|].
    destruct (result_ok _) eqn:E in Ha1; [|done]. injection Ha1 as <-. by apply set_state_lamports in E.
  - destruct (nf_fee_payer_account nonce), (negb (is_ok status) && is_payer); by intros [= <- <-].
Qed.

(** One account: kept, or written with the rent that is then due. *)
Lemma store_step_cases m status maybe_nonce i address account s s' :
  store_account_step rc durable_nonce separate_domains lps preserve m status maybe_nonce i (address, account) s
    = Returns s' ->
  let payer := match ss_fee_payer_index s with Some j => j | None => i end in
  (ss_to_store s' = ss_to_store s /\ ss_rent s' = ss_rent s
   /\ ss_fee_payer_index s' = (if message_is_non_loader_key m i then Some payer else ss_fee_payer_index s)
   /\ (stored_index m i = true -> is_ok status = false /\ i <> payer
        /\ match maybe_nonce with Some (nonce, _) => address <> nf_address nonce | None => True end))
  \/ (stored_index m i = true /\ ss_fee_payer_index s' = Some payer
      /\ exists a1 is_nonce a rent, prepare_if_nonce_account durable_nonce separate_domains lps address
             account status (i =? payer)%nat maybe_nonce = Returns (a1, is_nonce)
        /\ is_ok status || is_nonce || (i =? payer)%nat = true
        /\ ss_to_store s' = ss_to_store s ++ [(address, a)]
        /\ (u64 (acc_lamports a1) ->
             0 <= rent /\ acc_lamports a + rent = acc_lamports a1 /\ u64 (acc_lamports a)
             /\ (preserve = true -> rent = 0)
             /\ (0 <= ss_rent s -> ss_rent s + rent <= U64_MAX -> ss_rent s' = ss_rent s + rent))).
Proof.
  intros Hs payer. unfold store_account_step in Hs. unfold stored_index.
  destruct (message_is_non_loader_key m i) eqn:Hnl; cbn [negb] in Hs.
  2: { left. injection Hs as <-. split_and!; done. }
  fold payer in Hs. apply outcome_bind_Returns in Hs as (w & Hw & Hs). rewrite Hw. cbn [andb].
  destruct w; [|left; injection Hs as <-; done].
  apply outcome_bind_Returns in Hs as ([a1 is_nonce] & Hp & Hs). pose proof (prepare_lamports _ _ _ _ _ _ _ Hp) as Hpl.
  destruct (is_ok status || is_nonce || (i =? payer)%nat) eqn:Hst.
  - right. split_and!; [done| |].
    { destruct (_ && _) in Hs; [destruct (collect_from_created_account _ _ _ _)|]; by injection Hs as <-. }
    destruct (negb preserve && (acc_rent_epoch a1 =? 0)) eqn:Hc.
    + destruct (collect_from_created_account rc address a1 preserve) as [a2 info] eqn:Ec.
      unfold collect_from_created_account in Ec.
      pose proof (collect_conserves rc address (set_rent_epoch a1 (rc_epoch rc)) None preserve) as Hcc.
      rewrite Ec in Hcc. injection Hs as <-. exists a1, is_nonce, a2, (ci_rent_amount info). cbn. split_and!; try done.
      intros Hta1. destruct Hcc as (Hc1 & Hc2 & Hc3); [u_unfold; cbn; lia|]. cbn in Hc1. split_and!; try done.
      * u_unfold; lia.
      * intros ->. done.
      * intros Hr Hmax. apply wrap64_small. u_unfold; lia.
    + injection Hs as <-. exists a1, is_nonce, a1, 0. cbn. split_and!; try done. intros Hta1. split_and!; try done; lia.
  - left. injection Hs as <-. cbn. split_and!; try done. intros _.
    apply orb_false_iff in Hst as [[Hst1 Hst2]%orb_false_iff Hst3%Nat.eqb_neq]. split_and!; try done.
    destruct maybe_nonce as [[nonce rb]|]; [|done]. destruct (N.eqb_spec address (nf_address nonce)); [|done].
    destruct Hpl; congruence.
Qed.

(** After a success every stored index is written, and what the accounts lose
    is the rent. *)
Lemma store_loop_Ok m maybe_nonce :
  match maybe_nonce with Some (_, rollback) => rollback = false | None => True end ->
  forall accs i s s',
  typed (map snd accs) -> 0 <= ss_rent s ->
  ss_rent s + lamports_of (map snd (pick m i accs)) <= U64_MAX ->
  store_loop rc durable_nonce separate_domains lps preserve m (Ok tt) maybe_nonce i accs s = Returns s' ->
  exists T, ss_to_store s' = ss_to_store s ++ T /\ map fst T = map fst (pick m i accs)
    /\ typed (map snd T) /\ ss_rent s <= ss_rent s'
    /\ lamports_of (map snd T) + ss_rent s' = lamports_of (map snd (pick m i accs)) + ss_rent s.
Proof.
  intros Hmn. induction accs as [|[address account] accs IH]; intros i s s' Hty Hr Hmax Hs.
  { injection Hs as <-. exists []. rewrite app_nil_r. split_and!; try done; lia. }
  inversion_clear Hty as [|?? Ha Hty']. cbn [store_loop] in Hs. apply outcome_bind_Returns in Hs as (s1 & Hs1 & Hs).
  assert (0 <= lamports_of (map snd (pick m (S i) accs))) as Hnn.
  { clear -Hty'. revert Hty'. generalize (S i) as j. induction accs as [|[k a] accs IH]; intros j Hty; cbn; [done|].
    inversion_clear Hty as [|?? Ha Hty']. destruct (stored_index m j); cbn; [|auto]. pose proof (IH (S j) Hty').
    cbn in Ha. u_unfold; lia. }
  apply store_step_cases in Hs1 as [(Hts & Hrs & _ & Hns)|(Hst & _ & a1 & isn & a & rent & Hp & _ & Hts & Hw)].
  - assert (stored_index m i = false) as Hni by (destruct (stored_index m i); [by destruct Hns|done]).
    cbn [pick] in *. rewrite Hni in *. destruct (IH (S i) s1 s') as (T & -> & ?); try done; rewrite ?Hrs; try done.
    exists T. rewrite Hts. rewrite Hrs in *. done.
  - cbn [pick] in *. rewrite Hst in *. cbn in Hmax, Ha.
    assert (acc_lamports a1 = acc_lamports account) as Hl.
    { apply prepare_lamports in Hp. destruct maybe_nonce as [[nonce rb]|]; [|by destruct Hp as [-> _]].
      rewrite Hmn in Hp. destruct (N.eqb _ _); [by destruct Hp|]. destruct Hp as [_ ->].
      by destruct (nf_fee_payer_account nonce). }
    destruct Hw as (Hr0 & Hsum & Hta & _ & Hrs); [by rewrite Hl|].
    u_unfold. assert (ss_rent s1 = ss_rent s + rent) as Hrs1 by (apply Hrs; lia).
    destruct (IH (S i) s1 s') as (T & -> & Hf & HtT & Hle & Hs'); try done; try lia.
    exists ((address, a) :: T). rewrite Hts, <- app_assoc. cbn. split_and!; try done; try lia.
    + by rewrite Hf.
    + by constructor.
Qed.

(** After a failure with a durable nonce only the nonce account and the fee
    payer are written; here, the accounts after the fee payer. *)
Lemma store_loop_Err_rest db m e nonce : u64 (acc_lamports (nf_account nonce)) -> forall accs i s s',
  NoDup (map fst accs) -> ss_fee_payer_index s = Some 0%nat -> (0 < i)%nat ->
  (nf_address nonce ∈ map fst accs -> acc_lamports (nf_account nonce) = lam db (nf_address nonce)) ->
  store_loop rc durable_nonce separate_domains lps preserve m (Err e) (Some (nonce, true)) i accs s = Returns s' ->
  exists T lost, ss_to_store s' = ss_to_store s ++ T /\ NoDup (map fst T)
    /\ (forall k, k ∈ map fst T -> k ∈ map fst (pick m i accs))
    /\ typed (map snd T) /\ 0 <= lost /\ (preserve = true -> lost = 0)
    /\ lamports_of (map snd T) + lost = lam_total db (map fst T).
Proof.
  intros Htn. induction accs as [|[address account] accs IH]; intros i s s' Hnd Hp Hi Hl Hs.
  { injection Hs as <-. exists [], 0. rewrite app_nil_r. split_and!; try done; by constructor. }
  cbn in Hnd. apply NoDup_cons in Hnd as [Hn Hnd].
  cbn [store_loop] in Hs. apply outcome_bind_Returns in Hs as (s1 & Hs1 & Hs).
  assert (forall k, k ∈ map fst (pick m (S i) accs) -> k ∈ map fst (pick m i ((address, account) :: accs))) as Hpick.
  { intros k Hk. cbn. destruct (stored_index m i); [|done]. cbn. apply elem_of_cons. by right. }
  apply store_step_cases in Hs1. rewrite Hp in Hs1. cbv beta iota zeta in Hs1.
  destruct Hs1 as [(Hts & _ & Hpay & _)|(Hst & Hpay & a1 & isn & a & rent & Hpr & Hor & Hts & Hw)].
  - destruct (IH (S i) s1 s') as (T & lost & -> & HndT & Hin & Hrest); try done; try lia.
    { rewrite Hpay. by destruct (message_is_non_loader_key m i). }
    { intros Hin. apply Hl. cbn. apply elem_of_cons. by right. }
    exists T, lost. rewrite Hts. split_and!; auto; tauto.
  - apply prepare_lamports in Hpr. replace (i =? 0)%nat with false in Hor by (symmetry; apply Nat.eqb_neq; lia).
    cbn [is_ok orb] in Hor.
    destruct (N.eqb_spec address (nf_address nonce)) as [->|]; [|destruct Hpr; by subst].
    destruct Hpr as [-> Ha1]. destruct Hw as (Hr0 & Hsum & Hta & Hpre & _); [by rewrite Ha1|].
    rewrite Hl in Ha1 by (cbn; apply list_elem_of_here).
    destruct (IH (S i) s1 s') as (T & lost & -> & HndT & Hin & HtT & Hl0 & Hlp & HsumT); try done; try lia.
    exists ((nf_address nonce, a) :: T), (rent + lost). rewrite Hts, <- app_assoc. cbn. split_and!; try done; try lia.
    + constructor; [|done]. intros Hk. apply Hn. specialize (Hin _ Hk).
      apply list_elem_of_fmap in Hin as (x & -> & Hx%elem_of_pick). by apply list_elem_of_fmap_2.
    + intros k [->|Hk]%elem_of_cons; [|auto]. rewrite Hst. cbn. apply list_elem_of_here.
    + by constructor.
    + intros Hpres. rewrite Hpre, Hlp by done. lia.
Qed.

End Store.

Section Nonce.
Context `{Bincode NonceVersions}.

(** The fee payer as a failed transaction with a nonce writes it: the rent is
    given back. *)
Lemma from_partial_spec db fee debits partial m k0 a0 L extra nonce :
  db_typed db -> 0 <= fee -> u64 (acc_lamports a0) -> stored_index m 0 = true ->
  account_keys_len (message_account_keys m) = S (length L) ->
  payer_loaded db fee debits k0 a0 ->
  from_partial partial m (((k0, a0) :: L) ++ extra) debits = Ok nonce ->
  nf_address nonce = np_address partial
  /\ (k0 = np_address partial -> acc_lamports (nf_account nonce) = lam db k0 - fee
        /\ nf_fee_payer_account nonce = None /\ acc_data (nf_account nonce) = acc_data a0)
  /\ (k0 <> np_address partial -> nf_account nonce = np_account partial
        /\ exists payer, nf_fee_payer_account nonce = Some payer /\ acc_lamports payer = lam db k0 - fee).
Proof.
  intros Hdb Hfee Hty Hst Hlen (Hsum & Hnn & _) Hf. unfold from_partial in Hf. rewrite Hlen in Hf. cbn in Hf.
  unfold stored_index in Hst. apply andb_true_iff in Hst as [Hnl _]. rewrite Hnl in Hf. injection Hf as <-.
  pose proof (lam_bound db k0 Hdb) as Hb.
  assert (sat_add64 (acc_lamports a0) (get_account_rent_debit debits k0) = lam db k0 - fee) as E.
  { unfold sat_add64. u_unfold. lia. }
  destruct (N.eqb_spec k0 (np_address partial)); cbn; split_and!; try done; intros _; split_and!; try done.
  eexists. split; [done|]. done.
Qed.

End Nonce.
End Conserve.
