(* ===== verification/Bank.v ===== *)
(** * The bank: checking, executing and committing a batch

    Models the path of a batch of transactions through runtime/src/bank.rs:
    the checks of age, nonce and status, loading, execution, the search for an
    arbitrage transaction after each transaction (Solana-MEV), and the commit,
    with runtime/src/bank/transaction_account_state_info.rs.

    The fields of [Bank] that the path reads or writes are in the record;
    atomics and locks are passed as values, since the callers hold the account
    locks of the batch.  The caches of executors and of stakes, the log
    collector, metrics and timings are left out. *)

From S2P Require Import Prelude Keys Message Errors InstructionsSysvar Transaction AccountLocks Float64 ComputeBudget Account Invocation Nonce SystemProgram EpochSchedule RentCollector BlockhashQueue StatusCache PreAccount Runtime Arbitrage Mev AccountsLoad.

(** [BankStatusCache]. *)
Abbreviation BankStatusCache := (@StatusCache (result TransactionError unit)).

Record Bank `{AccountsDb} := {
  b_slot : Slot;
  (** [cluster_type == ClusterType::MainnetBeta] *)
  b_is_mainnet_beta : bool;
  b_accounts_db : adb;
  b_blockhash_queue : BlockhashQueue;
  b_status_cache : BankStatusCache;
  b_ancestors : gset Z;
  b_rent_collector : RentCollector;
  b_feature_set : FeatureSet;
  b_fee_structure : FeeStructure;
  b_compute_budget : option ComputeBudget;
  b_sysvar_cache : SysvarCache;
  b_freeze_started : bool;
  b_accounts_data_size_initial : Z;
  b_accounts_data_size_delta_on_chain : Z;
  b_accounts_data_size_delta_off_chain : Z;
  b_collector_fees : Z;
  b_collected_rent : Z;
  b_transaction_count : Z;
  b_signature_count : Z;
  b_transaction_error_count : Z;
}.

(** The counters a commit changes. *)
Record Counters := {
  c_collector_fees : Z;
  c_collected_rent : Z;
  c_transaction_count : Z;
  c_signature_count : Z;
  c_transaction_error_count : Z;
  c_accounts_data_size_delta_on_chain : Z;
}.

Section Bank.
Context `{AccountsDb}.

Definition bank_counters (b : Bank) : Counters :=
  {| c_collector_fees := b_collector_fees b; c_collected_rent := b_collected_rent b;
     c_transaction_count := b_transaction_count b; c_signature_count := b_signature_count b;
     c_transaction_error_count := b_transaction_error_count b;
     c_accounts_data_size_delta_on_chain := b_accounts_data_size_delta_on_chain b |}.

(** The bank with its mutable parts replaced. *)
Definition bank_update (b : Bank) (db : adb) (sc : BankStatusCache) (c : Counters) : Bank :=
  {| b_slot := b_slot b; b_is_mainnet_beta := b_is_mainnet_beta b; b_accounts_db := db;
     b_blockhash_queue := b_blockhash_queue b; b_status_cache := sc; b_ancestors := b_ancestors b;
     b_rent_collector := b_rent_collector b; b_feature_set := b_feature_set b;
     b_fee_structure := b_fee_structure b; b_compute_budget := b_compute_budget b;
     b_sysvar_cache := b_sysvar_cache b; b_freeze_started := b_freeze_started b;
     b_accounts_data_size_initial := b_accounts_data_size_initial b;
     b_accounts_data_size_delta_on_chain := c_accounts_data_size_delta_on_chain c;
     b_accounts_data_size_delta_off_chain := b_accounts_data_size_delta_off_chain b;
     b_collector_fees := c_collector_fees c; b_collected_rent := c_collected_rent c;
     b_transaction_count := c_transaction_count c; b_signature_count := c_signature_count c;
     b_transaction_error_count := c_transaction_error_count c |}.

Definition active (b : Bank) (f : Feature) : bool := is_active (b_feature_set b) f.

Definition last_blockhash_and_lamports_per_signature (b : Bank) : outcome (Hash * Z) :=
  hash ← last_hash (b_blockhash_queue b);
  lamports_per_signature ← unwrap (get_lamports_per_signature (b_blockhash_queue b) hash);
  Returns (hash, lamports_per_signature).

Definition load_accounts_data_size (b : Bank) : Z :=
  sat_add_signed (b_accounts_data_size_initial b)
    (sat_add_i64 (b_accounts_data_size_delta_on_chain b) (b_accounts_data_size_delta_off_chain b)).

(** ** Checks *)

Section Checks.
Context `{Bincode NonceVersions} `{SystemCodec} `{NonceHash}.

(** [SanitizedMessage::get_ix_signers]; signers out of range are dropped. *)
Definition get_ix_signers (m : SanitizedMessage) (ix_index : nat) : list Pubkey :=
  match message_instructions m !! ix_index with
  | None => []
  | Some ix =>
      omap (account_keys_get (message_account_keys m))
        (List.filter (message_is_signer m) (ci_accounts ix))
  end.

(** [SanitizedMessage::get_durable_nonce].  The limit of four bytes on the
    decoding leaves exactly the instructions without arguments. *)
Definition message_get_durable_nonce (m : SanitizedMessage) (nonce_must_be_writable : bool)
    : outcome (option Pubkey) :=
  match message_instructions m !! 0%nat with
  | None => Returns None
  | Some ix =>
      match account_keys_get (message_account_keys m) (program_id_index ix) with
      | None => Returns None
      | Some program_id =>
          if negb (N.eqb program_id system_program_id) then Returns None
          else match decode_system_instruction (ci_data ix), ci_accounts ix with
          | Some AdvanceNonceAccount, idx :: _ =>
              is_writable ← (if nonce_must_be_writable then message_is_writable m idx
                             else Returns true);
              Returns (if (is_writable : bool) then account_keys_get (message_account_keys m) idx
                       else None)
          | _, _ => Returns None
          end
      end
  end.

Definition check_message_for_nonce (b : Bank) (m : SanitizedMessage)
    : outcome (option TransactionAccount) :=
  nonce_address ← message_get_durable_nonce m (active b nonce_must_be_writable);
  Returns (
    address ← nonce_address;
    nonce_account ← get_account_with_fixed_root (b_accounts_db b) address;
    nonce_data ← verify_nonce_account nonce_account (message_recent_blockhash m)
                   (active b separate_nonce_from_blockhash);
    if active b nonce_must_be_authorized
       && negb (existsb (N.eqb (nd_authority nonce_data)) (get_ix_signers m 0))
    then None
    else Some (address, nonce_account)).

Definition check_transaction_for_nonce (b : Bank) (tx : SanitizedTransaction)
    (enable_durable_nonce : bool) (next_durable_nonce : DurableNonce)
    : outcome (option TransactionAccount) :=
  let durable_nonces_enabled :=
    enable_durable_nonce || (b_slot b <=? 135986379) || negb (b_is_mainnet_beta b) in
  let nonce_is_advanceable :=
    negb (N.eqb (message_recent_blockhash (st_message tx)) next_durable_nonce) in
  if durable_nonces_enabled && (nonce_is_advanceable || negb (active b nonce_must_be_advanceable))
  then check_message_for_nonce b (st_message tx)
  else Returns None.

(** The check of one transaction of [Bank::check_age]. *)
Definition check_transaction_age (b : Bank) (max_age : nat) (next_durable_nonce : DurableNonce)
    (tx : SanitizedTransaction) (lock_res : result TransactionError unit)
    : outcome TransactionCheckResult :=
  match lock_res with
  | Err e => Returns (Err e, None)
  | Ok _ =>
      let hash_age := check_hash_age (b_blockhash_queue b) (message_recent_blockhash (st_message tx))
                        max_age in
      match hash_age with
      | Some true => Returns (Ok tt, None)
      | _ =>
          nonce ← check_transaction_for_nonce b tx
                    (active b separate_nonce_from_blockhash && active b enable_durable_nonce)
                    next_durable_nonce;
          Returns (match nonce with
                   | Some (address, account) =>
                       (Ok tt, Some {| np_address := address; np_account := account |})
                   | None => (Err TE.BlockhashNotFound, None)
                   end)
      end
  end.

Definition bank_check_age (b : Bank) (txs : list SanitizedTransaction)
    (lock_results : list (result TransactionError unit)) (max_age : nat)
    : outcome (list TransactionCheckResult) :=
  last_blockhash ← last_hash (b_blockhash_queue b);
  let next_durable_nonce :=
    from_blockhash last_blockhash (active b separate_nonce_from_blockhash) in
  map_outcome (fun '(tx, lock_res) => check_transaction_age b max_age next_durable_nonce tx lock_res)
    (zip txs lock_results).

Definition is_transaction_already_processed (b : Bank) (tx : SanitizedTransaction) : outcome bool :=
  status ← get_status (b_status_cache b) (hash_bytes (st_message_hash tx))
             (message_recent_blockhash (st_message tx)) (b_ancestors b);
  Returns (is_some status).

Definition check_status (b : Bank) (tx : SanitizedTransaction) (check : TransactionCheckResult)
    : outcome TransactionCheckResult :=
  if is_ok check.1 then
    processed ← is_transaction_already_processed b tx;
    Returns (if (processed : bool) then (Err TE.AlreadyProcessed, None) else check)
  else Returns check.

Definition check_status_cache (b : Bank) (txs : list SanitizedTransaction)
    (lock_results : list TransactionCheckResult) : outcome (list TransactionCheckResult) :=
  map_outcome (fun '(tx, check) => check_status b tx check) (zip txs lock_results).

Definition check_transactions (b : Bank) (txs : list SanitizedTransaction)
    (lock_results : list (result TransactionError unit)) (max_age : nat)
    : outcome (list TransactionCheckResult) :=
  age_results ← bank_check_age b txs lock_results max_age;
  check_status_cache b txs age_results.

End Checks.

(** ** Rent states around execution *)

(** [None] for an account that is not writable. *)
Definition get_transaction_account_state_info (b : Bank) (tc : TransactionContext)
    (message : SanitizedMessage) : outcome (list (option RentState)) :=
  map_outcome (fun i =>
      is_writable ← message_is_writable message i;
      Returns (if (is_writable : bool) then
                 match get_account_at_index tc i with
                 | Ok account => Some (rent_state_from_account account (rc_rent (b_rent_collector b)))
                 | Err _ => None
                 end
               else None))
    (seq 0 (account_keys_len (message_account_keys message))).

Definition check_rent_state (b : Bank) (pre post : option RentState) (tc : TransactionContext)
    (index : nat) : outcome (result TransactionError unit) :=
  match pre, post with
  | Some pre, Some post =>
      key ← unwrap (result_ok (get_key_of_account_at_index tc index));
      _ ← unwrap (result_ok (get_account_at_index tc index));
      Returns (check_rent_state_with_account pre post key (active b do_support_realloc)
                 (if active b include_account_index_in_rent_error then Some index else None)
                 (active b prevent_crediting_accounts_that_end_rent_paying))
  | _, _ => Returns (Ok tt)
  end.

Fixpoint verify_state_changes_loop (b : Bank) (tc : TransactionContext) (i : nat)
    (l : list (option RentState * option RentState)) : outcome (result TransactionError unit) :=
  match l with
  | [] => Returns (Ok tt)
  | (pre, post) :: rest =>
      checked ← check_rent_state b pre post tc i;
      match checked with
      | Err err => if active b require_rent_exempt_accounts then Returns (Err err)
                   else verify_state_changes_loop b tc (S i) rest
      | Ok _ => verify_state_changes_loop b tc (S i) rest
      end
  end.

Definition verify_transaction_account_state_changes (b : Bank) (pre_state_infos post_state_infos
    : list (option RentState)) (tc : TransactionContext) : outcome (result TransactionError unit) :=
  verify_state_changes_loop b tc 0 (zip pre_state_infos post_state_infos).
(** ** Execution *)

Section Execute.
Context `{Bincode UpgradeableLoaderState}.
Variable builtin_programs : list BuiltinProgram.
Variable native_loader : Entrypoint.

(** The loaded transaction with the accounts as execution leaves them, and
    the result. *)
Definition execute_loaded_transaction (b : Bank) (tx : SanitizedTransaction)
    (loaded : LoadedTransaction) (compute_budget : ComputeBudget)
    (durable_nonce_fee : option DurableNonceFee)
    : outcome (LoadedTransaction * TransactionExecutionResult) :=
  let message := st_message tx in
  let tc := transaction_context_new (lt_accounts loaded) (S (max_invoke_depth (budget_costs compute_budget))) in
  pre_account_state_info ← get_transaction_account_state_info b tc message;
  '(blockhash, lamports_per_signature) ← last_blockhash_and_lamports_per_signature b;
  '(rt, executed_units, process_result) ←
    process_message builtin_programs native_loader message (lt_program_indices loaded)
      (runtime_new tc (rc_rent (b_rent_collector b)) (b_sysvar_cache b) compute_budget
         (b_feature_set b) blockhash lamports_per_signature (load_accounts_data_size b));
  let tc := rt_tc rt in
  status ← let? accounts_data_len_delta := Returns process_result in
           post_account_state_info ← get_transaction_account_state_info b tc message;
           let? _ := verify_transaction_account_state_changes b pre_account_state_info
                       post_account_state_info tc in
           Returns (Ok accounts_data_len_delta);
  Returns ({| lt_accounts := deconstruct tc; lt_mev_accounts := lt_mev_accounts loaded;
              lt_program_indices := lt_program_indices loaded; lt_rent := lt_rent loaded;
              lt_rent_debits := lt_rent_debits loaded |},
           Executed {| ted_status := match status with Ok _ => Ok tt | Err e => Err e end;
                       ted_durable_nonce_fee := durable_nonce_fee;
                       ted_executed_units := executed_units;
                       ted_accounts_data_len_delta :=
                         match status with Ok delta => delta | Err _ => 0 end |}).

Context `{BudgetCodec}.

(** The compute budget of a transaction. *)
Definition transaction_compute_budget (b : Bank) (tx : SanitizedTransaction)
    : outcome (result TransactionError ComputeBudget) :=
  match b_compute_budget b with
  | Some compute_budget => Returns (Ok compute_budget)
  | None =>
      if active b tx_wide_compute_cap then
        instructions ← program_instructions_iter (st_message tx);
        Returns (match process_instructions (budget_new MAX_COMPUTE_UNIT_LIMIT) instructions
                         (active b requestable_heap_size) (active b default_units_per_instruction)
                         (active b add_set_compute_unit_price_ix) with
                 | Ok (compute_budget, _) => Ok compute_budget
                 | Err err => Err err
                 end)
      else Returns (Ok (budget_new DEFAULT_INSTRUCTION_COMPUTE_UNIT_LIMIT))
  end.

Context `{Bincode NonceVersions}.

(** [DurableNonceFee::from]. *)
Definition durable_nonce_fee_from (nonce : NonceFull) : DurableNonceFee :=
  match lamports_per_signature_of (nf_account nonce) with
  | Some lamports_per_signature => DNF_Valid lamports_per_signature
  | None => DNF_Invalid
  end.

Context `{OnChain} `{Signing}.

(** What the loop over the loaded transactions has gathered: the loaded
    transactions as execution leaves them, the results, the messages sent to
    the MEV log, and the arbitrage transaction of largest profit. *)
Record ExecuteState := {
  es_loaded : list TransactionLoadResult;
  es_results : list TransactionExecutionResult;
  es_msgs : list MevMsg;
  es_mev_sanitized_tx_profit : option (SanitizedTransaction * Z);
}.

Definition es_push (s : ExecuteState) (loaded : TransactionLoadResult)
    (result : TransactionExecutionResult) : ExecuteState :=
  {| es_loaded := es_loaded s ++ [loaded]; es_results := es_results s ++ [result];
     es_msgs := es_msgs s; es_mev_sanitized_tx_profit := es_mev_sanitized_tx_profit s |}.

(** Replaces the best candidate by a strictly better one. *)
Definition better_candidate (best : option (SanitizedTransaction * Z))
    (candidate : option (SanitizedTransaction * Z)) : option (SanitizedTransaction * Z) :=
  match candidate with
  | None => best
  | Some (tx, profit) =>
      match best with
      | Some (best_tx, best_profit) =>
          if profit <=? best_profit then Some (best_tx, best_profit) else Some (tx, profit)
      | None => Some (tx, profit)
      end
  end.

(** The search after a transaction: the messages and the candidate.  The
    search runs for every executed transaction, whatever its status. *)
Definition mev_search (b : Bank) (mev : option Mev) (tx : SanitizedTransaction)
    (pre_tx_pool_state : option (result ProgramError PoolStates)) (loaded : LoadedTransaction)
    (tx_result : TransactionExecutionResult)
    : outcome (list MevMsg * option (SanitizedTransaction * Z)) :=
  let tx_succeeded := match tx_result with Executed _ => true | NotExecuted _ => false end in
  match pre_tx_pool_state, tx_succeeded with
  | Some (Ok pre_pool_state), true =>
      mev ← unwrap mev;
      log_mev_opportunities_get_max_profit_tx mev tx (b_slot b) pre_pool_state loaded
        (message_recent_blockhash (st_message tx))
  | _, _ => Returns ([], None)
  end.

(** One iteration of the loop over the loaded transactions. *)
Definition execute_one (b : Bank) (mev : option Mev) (tx : SanitizedTransaction)
    (accs : TransactionLoadResult) (s : ExecuteState) : outcome ExecuteState :=
  match accs with
  | (Err e, _) => Returns (es_push s accs (NotExecuted e))
  | (Ok loaded, nonce) =>
      budget ← transaction_compute_budget b tx;
      match budget with
      | Err err => Returns (es_push s accs (NotExecuted err))
      | Ok compute_budget =>
          pre_tx_pool_state ← match mev with
                              | Some _ => get_all_orca_monitored_accounts loaded
                              | None => Returns None
                              end;
          '(loaded, tx_result) ←
            execute_loaded_transaction b tx loaded compute_budget
              (durable_nonce_fee_from <$> nonce);
          '(msgs, candidate) ← mev_search b mev tx pre_tx_pool_state loaded tx_result;
          Returns {| es_loaded := es_loaded s ++ [(Ok loaded, nonce)];
                     es_results := es_results s ++ [tx_result];
                     es_msgs := es_msgs s ++ msgs;
                     es_mev_sanitized_tx_profit :=
                       better_candidate (es_mev_sanitized_tx_profit s) candidate |}
      end
  end.

Fixpoint execute_loop (b : Bank) (mev : option Mev)
    (l : list (SanitizedTransaction * TransactionLoadResult)) (s : ExecuteState)
    : outcome ExecuteState :=
  match l with
  | [] => Returns s
  | (tx, accs) :: rest => s ← execute_one b mev tx accs s; execute_loop b mev rest s
  end.

Definition is_retryable (res : result TransactionError unit) : bool :=
  match res with
  | Err (TE.AccountInUse | TE.WouldExceedMaxBlockCostLimit | TE.WouldExceedMaxVoteCostLimit
         | TE.WouldExceedMaxAccountCostLimit | TE.WouldExceedAccountDataBlockLimit) => true
  | _ => false
  end.

(** The indices of a list at which a test holds. *)
Definition indices_where {A} (test : A -> bool) (l : list A) : list nat :=
  map fst (List.filter (fun p => test p.2) (zip (seq 0 (length l)) l)).

Record LoadAndExecuteTransactionsOutput := {
  lo_loaded_transactions : list TransactionLoadResult;
  lo_execution_results : list TransactionExecutionResult;
  lo_retryable_transaction_indexes : list nat;
  lo_executed_transactions_count : nat;
  lo_executed_with_successful_result_count : nat;
  lo_signature_count : Z;
  lo_mev_sanitized_tx_profit : option (SanitizedTransaction * Z);
}.

Context `{SystemCodec} `{NonceHash}.

(** The output, and the messages sent to the MEV log. *)
Definition load_and_execute_transactions (b : Bank) (txs : list SanitizedTransaction)
    (lock_results : list (result TransactionError unit)) (max_age : nat)
    (account_overrides : Pubkey -> option AccountSharedData) (mev : option Mev)
    : outcome (LoadAndExecuteTransactionsOutput * list MevMsg) :=
  check_results ← check_transactions b txs lock_results max_age;
  loaded_transactions ←
    load_accounts (b_accounts_db b) (b_rent_collector b) (b_feature_set b) account_overrides
      (b_blockhash_queue b) (b_fee_structure b) txs check_results;
  s ← execute_loop b mev (zip txs loaded_transactions)
        {| es_loaded := []; es_results := []; es_msgs := []; es_mev_sanitized_tx_profit := None |};
  let executed := List.filter (fun p => was_executed p.1) (zip (es_results s) txs) in
  Returns ({| lo_loaded_transactions := es_loaded s ++ drop (length (es_loaded s)) loaded_transactions;
              lo_execution_results := es_results s;
              lo_retryable_transaction_indexes := indices_where is_retryable lock_results;
              lo_executed_transactions_count := length executed;
              lo_executed_with_successful_result_count :=
                length (List.filter (fun p => is_ok (flattened_result p.1)) (zip (es_results s) txs));
              lo_signature_count :=
                fold_left (fun n p => wrap64 (n + Z.of_nat (num_required_signatures
                             (message_header (st_message p.2))))) executed 0;
              lo_mev_sanitized_tx_profit := es_mev_sanitized_tx_profit s |},
           es_msgs s).

End Execute.

(** ** Commit *)

Section Commit.
Context `{Bincode NonceVersions} `{BudgetCodec} `{NonceHash}.

(** [Bank::store_account]. *)
Definition store_account (b : Bank) (db : adb) (pubkey : Pubkey) (account : AccountSharedData)
    : outcome adb :=
  _ ← assert_ (negb (b_freeze_started b));
  Returns (adb_store_cached db (b_slot b) [(pubkey, account)]).

Definition withdraw_fee (b : Bank) (db : adb) (pubkey : Pubkey) (lamports : Z)
    : outcome (result TransactionError adb) :=
  match get_account_with_fixed_root db pubkey with
  | None => Returns (Err TE.AccountNotFound)
  | Some account =>
      let min_balance := match get_system_account_kind account with
                         | Some SAK_Nonce =>
                             minimum_balance (rc_rent (b_rent_collector b)) nonce_state_size
                         | _ => 0
                         end in
      match checked_add64 lamports min_balance with
      | None => Returns (Err TE.InsufficientFundsForFee)
      | Some required_balance =>
          if acc_lamports account <? required_balance then Returns (Err TE.InsufficientFundsForFee)
          else match checked_sub_lamports account lamports with
          | Err _ => Returns (Err TE.InsufficientFundsForFee)
          | Ok account => db ← store_account b db pubkey account; Returns (Ok db)
          end
      end
  end.

(** The fee of one transaction: the database and the result, with the fee
    that is counted. *)
Definition collect_fee (b : Bank) (db : adb) (tx : SanitizedTransaction)
    (execution_result : TransactionExecutionResult) : outcome (adb * result TransactionError Z) :=
  match execution_result with
  | NotExecuted err => Returns (db, Err err)
  | Executed details =>
      let '(lamports_per_signature, is_nonce) :=
        match ted_durable_nonce_fee details with
        | Some (DNF_Valid lamports_per_signature) => (Some lamports_per_signature, true)
        | Some DNF_Invalid => (None, true)
        | None => (get_lamports_per_signature (b_blockhash_queue b)
                     (message_recent_blockhash (st_message tx)), false)
        end in
      match lamports_per_signature with
      | None => Returns (db, Err TE.BlockhashNotFound)
      | Some lamports_per_signature =>
          fee ← calculate_fee (st_message tx) lamports_per_signature (b_fee_structure b)
                  (active b tx_wide_compute_cap) (active b add_set_compute_unit_price_ix);
          if negb (is_ok (ted_status details)) && negb is_nonce then
            fee_payer ← unwrap (account_keys_get (message_account_keys (st_message tx)) 0);
            withdrawn ← withdraw_fee b db fee_payer fee;
            Returns (match withdrawn with Ok db => (db, Ok fee) | Err e => (db, Err e) end)
          else Returns (db, Ok fee)
      end
  end.

(** The database, the fees, and the result for each transaction. *)
Fixpoint filter_program_errors_and_collect_fee (b : Bank) (db : adb) (fees : Z)
    (l : list (SanitizedTransaction * TransactionExecutionResult))
    : outcome (adb * Z * list (result TransactionError unit)) :=
  match l with
  | [] => Returns (db, fees, [])
  | (tx, execution_result) :: rest =>
      '(db, r) ← collect_fee b db tx execution_result;
      let fees := match r with Ok fee => wrap64 (fees + fee) | Err _ => fees end in
      '(db, fees, results) ← filter_program_errors_and_collect_fee b db fees rest;
      Returns (db, fees, match r with Ok _ => Ok tt | Err e => Err e end :: results)
  end.

(** The rent of the transactions that succeeded. *)
Definition collected_rent (loaded_txs : list TransactionLoadResult)
    (execution_results : list TransactionExecutionResult) : Z :=
  fold_left (fun rent p => match p with
                           | ((Ok loaded, _), execution_result) =>
                               if was_executed_successfully execution_result
                               then wrap64 (rent + lt_rent loaded) else rent
                           | _ => rent
                           end) (zip loaded_txs execution_results) 0.

(** The offset of the key slices of a new blockhash in the status cache. *)
Variable random_index : Hash -> nat.

Fixpoint update_statuses_loop (slot : Slot) (sc : BankStatusCache)
    (l : list (SanitizedTransaction * TransactionExecutionResult)) : outcome BankStatusCache :=
  match l with
  | [] => Returns sc
  | (tx, Executed details) :: rest =>
      let recent_blockhash := message_recent_blockhash (st_message tx) in
      sc ← sc_insert sc recent_blockhash (hash_bytes (st_message_hash tx)) slot (ted_status details)
             (random_index recent_blockhash);
      signature ← tx_signature tx;
      sc ← sc_insert sc recent_blockhash (signature_bytes signature) slot (ted_status details)
             (random_index recent_blockhash);
      update_statuses_loop slot sc rest
  | (_, NotExecuted _) :: rest => update_statuses_loop slot sc rest
  end.

Definition update_transaction_statuses (b : Bank) (txs : list SanitizedTransaction)
    (execution_results : list TransactionExecutionResult) : outcome BankStatusCache :=
  _ ← assert_ (length txs =? length execution_results)%nat;
  update_statuses_loop (b_slot b) (b_status_cache b) (zip txs execution_results).

Record CommitTransactionCounts := {
  committed_transactions_count : Z;
  committed_with_failure_result_count : Z;
  ctc_signature_count : Z;
}.

(** The bank after the commit, and the result of the fee collection for each
    transaction. *)
Definition commit_transactions (b : Bank) (txs : list SanitizedTransaction)
    (loaded_txs : list TransactionLoadResult) (execution_results : list TransactionExecutionResult)
    (last_blockhash : Hash) (lamports_per_signature : Z) (counts : CommitTransactionCounts)
    : outcome (Bank * list (result TransactionError unit)) :=
  _ ← assert_ (negb (b_freeze_started b));
  let tx_count :=
    if active b bank_tranaction_count_fix then committed_transactions_count counts
    else Z.max 0 (committed_transactions_count counts - committed_with_failure_result_count counts) in
  let separate_domains := active b separate_nonce_from_blockhash in
  let durable_nonce := from_blockhash last_blockhash separate_domains in
  '(db, loaded_txs) ←
    store_cached (b_rent_collector b) durable_nonce separate_domains lamports_per_signature
      (active b leave_nonce_on_success) (active b preserve_rent_epoch_for_rent_exempt_accounts)
      (b_accounts_db b) (b_slot b) txs execution_results loaded_txs;
  let rent := collected_rent loaded_txs execution_results in
  let accounts_data_len_delta :=
    as_i64 (wrap64 (foldr (fun r n => match r with
                                      | Executed details => ted_accounts_data_len_delta details + n
                                      | NotExecuted _ => n
                                      end) 0 execution_results)) in
  sc ← update_transaction_statuses b txs execution_results;
  '(db, fees, results) ←
    filter_program_errors_and_collect_fee b db 0 (zip txs execution_results);
  Returns (bank_update b db sc
             {| c_collector_fees := wrap64 (b_collector_fees b + fees);
                c_collected_rent := wrap64 (b_collected_rent b + rent);
                c_transaction_count := wrap64 (b_transaction_count b + tx_count);
                c_signature_count := wrap64 (b_signature_count b + ctc_signature_count counts);
                c_transaction_error_count :=
                  wrap64 (b_transaction_error_count b + committed_with_failure_result_count counts);
                c_accounts_data_size_delta_on_chain :=
                  sat_add_i64 (b_accounts_data_size_delta_on_chain b) accounts_data_len_delta |},
           results).

End Commit.
End Bank.
