(* ===== verification/BankSample.v ===== *)
(** * A small bank

    The parameters of the bank instantiated with concrete functions, and a
    bank of four accounts and the system program: the witnesses of the
    theorems on the bank evaluate on it. *)

From S2P Require Import Prelude Keys Message Errors Transaction AccountLocks Float64 ComputeBudget Account Invocation Nonce SystemProgram SystemSafety EpochSchedule RentCollector BlockhashQueue StatusCache PreAccount Runtime RuntimeSafety Arbitrage Mev MevCorrect AccountsLoad Bank.

Module BankSample.

(** The database is a finite map. *)
#[global] Instance accounts_db : AccountsDb := {
  adb := gmap N (AccountSharedData * Slot);
  adb_load db k := db !! k;
  adb_store_cached db slot l := fold_right (fun p m => <[p.1 := (p.2, slot)]> m) db l;
  filler_account_suffix := None;
}.

Lemma stored_not_in (db : gmap N (AccountSharedData * Slot)) (slot : Slot)
    (l : list (Pubkey * AccountSharedData)) (k : Pubkey) :
  k ∉ map fst l -> fold_right (fun p m => <[p.1 := (p.2, slot)]> m) db l !! k = db !! k.
Proof.
  induction l as [|[k' a] l IH]; cbn; [done|]. intros [Hne Hl]%not_elem_of_cons.
  rewrite lookup_insert_ne by congruence. auto.
Qed.

#[global] Instance accounts_db_laws : AccountsDbLaws accounts_db.
Proof.
  split; cbn.
  - intros db slot l k a. induction l as [|[k' a'] l IH]; cbn; [intros _ []%not_elem_of_nil|].
    intros [Hk Hnd]%NoDup_cons [[= -> ->]|Hin]%elem_of_cons; [by rewrite lookup_insert_eq|].
    rewrite lookup_insert_ne; [auto|]. intros ->. apply Hk. apply list_elem_of_fmap. by exists (k, a).
  - intros db slot l k. apply stored_not_in.
Qed.

(** Nonces as in the sample of the system program, with a fee rate that is a
    64-bit number. *)
#[global] Instance nonce_bincode : Bincode NonceVersions := {
  serialize := @serialize _ SystemSafety.Sample.nonce_bincode;
  deserialize l :=
    v ← @deserialize _ SystemSafety.Sample.nonce_bincode l;
    match versions_state v with
    | NS_Initialized d => if 0 <=? nd_lamports_per_signature d then Some v else None
    | NS_Uninitialized => Some v
    end;
}.

#[global] Instance loader_bincode : Bincode UpgradeableLoaderState := RuntimeSafety.Sample.loader_bincode.
#[global] Instance budget_codec : BudgetCodec := ComputeBudget.Sample.codec.
#[global] Instance on_chain : OnChain := MevCorrect.Sample.on_chain.
#[global] Instance signing : Signing := MevCorrect.Sample.signing.
(** Transfers and nonce advances in bincode's format: a tag of four bytes and
    an amount of eight, the least significant byte first. *)
#[global] Instance system_codec : SystemCodec := {
  decode_system_instruction data :=
    match data with
    | [2; 0; 0; 0; b0; b1; b2; b3; b4; b5; b6; b7] =>
        Some (Transfer (foldr (fun b n => b + 256 * n) 0 [b0; b1; b2; b3; b4; b5; b6; b7]))
    | [4; 0; 0; 0] => Some AdvanceNonceAccount
    | _ => None
    end;
}.
#[global] Instance hash_nonce : NonceHash := SystemSafety.Sample.nonce_hash_succ.
#[global] Instance hash_seed : SeedHash := SystemSafety.Sample.seed_hash.

Definition programs : list BuiltinProgram :=
  [{| bp_program_id := system_program_id; bp_process_instruction := system_entrypoint |}].

Definition no_loader : Entrypoint := fun _ _ rt => Finish [] (rt_remaining rt) (Err IE.UnsupportedProgramId).

Definition offset (_ : Hash) : nat := 3.

Definition wallet : AccountSharedData := account_new 1000000000 0 system_program_id.

Definition db : gmap N (AccountSharedData * Slot) :=
  {[ 7%N := (wallet, 1); 8%N := (wallet, 1); 9%N := (wallet, 1); 6%N := (wallet, 1);
     system_program_id := (RuntimeSafety.Sample.executable native_loader_id, 0) ]}.

Definition bank : Bank :=
  {| b_slot := 2; b_is_mainnet_beta := false; b_accounts_db := db : adb;
     b_blockhash_queue := register_hash (bq_new 300) 5%N 5000 0;
     b_status_cache := status_cache_default; b_ancestors := {[ 1; 2 ]};
     b_rent_collector := RentCollector.Sample.collector;
     b_feature_set := fun _ => true;
     b_fee_structure := {| fs_lamports_per_signature := 5000; fs_lamports_per_write_lock := 0;
                           compute_fee_bins := [] |};
     b_compute_budget := None; b_sysvar_cache := RuntimeSafety.Sample.sysvars; b_freeze_started := false;
     b_accounts_data_size_initial := 0; b_accounts_data_size_delta_on_chain := 0;
     b_accounts_data_size_delta_off_chain := 0; b_collector_fees := 0; b_collected_rent := 0;
     b_transaction_count := 0; b_signature_count := 0; b_transaction_error_count := 0 |}.

(** The bank with the pools of the arbitrage sample. *)
Definition pools_db : gmap N (AccountSharedData * Slot) :=
  fold_right (fun k m => match MevCorrect.Sample.db k with Some a => <[k := a]> m | None => m end) db
    [10; 11; 12; 20; 21; 22; 30; 31; 32; 101; 102; 103]%N.

Definition pools_bank : Bank :=
  bank_update bank (pools_db : adb) (b_status_cache bank) (bank_counters bank).

(** A transfer between two of the accounts; the amount in eight bytes.  The
    number is in the bytes of the hash that the status cache looks at. *)
Definition transfer_tx (number : N) (from to : Pubkey) (bytes : list Z) : SanitizedTransaction :=
  {| st_message := SanitizedLegacy
       {| lm_header := {| num_required_signatures := 1; num_readonly_signed_accounts := 0;
                          num_readonly_unsigned_accounts := 1 |};
          lm_account_keys := [from; to; system_program_id];
          lm_recent_blockhash := 5%N;
          lm_instructions := [{| program_id_index := 2; ci_accounts := [0%nat; 1%nat];
                                 ci_data := [2; 0; 0; 0] ++ bytes |}] |};
     st_message_hash := (number * 2 ^ 100)%N; st_is_simple_vote_tx := false;
     st_signatures := [(number * 2 ^ 100)%N];
     st_mev_keys := None |}.

(** The first two do not conflict; the last one asks for more than there is. *)
Definition tx1 : SanitizedTransaction := transfer_tx 101 7 8 [30; 0; 0; 0; 0; 0; 0; 0].
Definition tx2 : SanitizedTransaction := transfer_tx 102 9 6 [40; 0; 0; 0; 0; 0; 0; 0].
Definition tx3 : SanitizedTransaction := transfer_tx 103 7 8 [0; 0; 0; 0; 1; 0; 0; 0].

(** A transaction that was seen to touch the monitored pools. *)
Definition monitored (tx : SanitizedTransaction) : SanitizedTransaction :=
  {| st_message := st_message tx; st_message_hash := st_message_hash tx;
     st_is_simple_vote_tx := st_is_simple_vote_tx tx; st_signatures := st_signatures tx;
     st_mev_keys := Some (mev_keys_of MevCorrect.Sample.monitoring_mev) |}.

(** The bank in which the swaps can be executed: our wallet, the pools with
    the lamports that exempt them from rent, and a swap program that accepts
    every swap. *)
Definition swap_programs : list BuiltinProgram :=
  programs ++ [{| bp_program_id := 500%N;
                  bp_process_instruction := fun _ _ rt => Finish [] (rt_remaining rt) (Ok tt) |}].

Definition swap_db : gmap N (AccountSharedData * Slot) :=
  <[77%N := (wallet, 1)]> (<[500%N := (RuntimeSafety.Sample.executable native_loader_id, 0)]>
    (fold_right (fun k m => match MevCorrect.Sample.db k with
                            | Some (a, slot) => <[k := (set_lamports a 1000000000, slot)]> m
                            | None => m
                            end) db
       [10; 11; 12; 20; 21; 22; 30; 31; 32; 101; 102; 103]%N)).

Definition swap_bank : Bank :=
  bank_update bank (swap_db : adb) (b_status_cache bank) (bank_counters bank).

End BankSample.
