(* ===== verification/BankSafety.v ===== *)
(** * Properties of the bank

    The lamports of a batch: what loading, execution, storing and the fee
    collection do to the accounts database and to the counters of the bank,
    also when other batches commit in between; and that a transaction is
    executed once. *)

From S2P Require Import Prelude Keys Message Errors InstructionsSysvar Transaction AccountLocks Float64 ComputeBudget Account Invocation Nonce SystemProgram EpochSchedule RentCollector BlockhashQueue StatusCache PreAccount Runtime RuntimeSafety Arbitrage Mev AccountsLoad AccountsLoadSafety Bank BankSample.

(** The keys a transaction may store. *)
Definition stored_keys (tx : SanitizedTransaction) : list Pubkey :=
  pick (st_message tx) 0 (message_keys (st_message tx)).

(** ** Fees *)

Lemma count_signatures_nonneg pixs n :
  Forall (fun pix => Forall u8 (ci_data pix.2)) pixs -> 0 <= n -> 0 <= fold_left count_signatures pixs n.
Proof.
  revert n. induction pixs as [|[pid ix] pixs IH]; intros n Hb Hn; cbn; [done|].
  apply Forall_cons in Hb as [Hb Hbs]. apply IH; [done|]. destruct (_ || _); [|done].
  destruct (ci_data ix !! 0%nat) as [z|] eqn:Ez; [|done]. rewrite Forall_forall in Hb.
  cbn in Hb. assert (u8 z) by (apply Hb; by eapply list_elem_of_lookup_2). u_unfold. lia.
Qed.

Lemma round_nonneg x : 0 <= f64_round_as_u64 x.
Proof.
  destruct x as [[]|[]| |[] m e]; cbn -[Z.pow Z.div]; try (u_unfold; lia). destruct (Z.leb_spec 0 e).
  - assert (0 <= 2 ^ e) by (by apply Z.pow_nonneg). u_unfold. nia.
  - assert (0 < 2 ^ (- e)) by (apply Z.pow_pos_nonneg; lia). assert (0 <= 2 ^ (- e - 1)) by (by apply Z.pow_nonneg).
    assert (0 <= (Z.pos m + 2 ^ (- e - 1)) / 2 ^ (- e)) by (apply Z.div_pos; lia). u_unfold. lia.
Qed.

Lemma calculate_fee_nonneg `{BudgetCodec} m lps fs wide price fee :
  message_ok m -> 0 <= lps -> calculate_fee m lps fs wide price = Returns fee -> 0 <= fee.
Proof.
  intros Hm Hl Hf. unfold calculate_fee in Hf. apply outcome_bind_Returns in Hf as (n & Hn & Hf).
  destruct wide.
  - apply outcome_bind_Returns in Hf as (ixs & _ & Hf). destruct (match process_instructions _ _ _ _ _ with Ok _ => _ | Err _ => _ end).
    apply Returns_inj in Hf as <-. apply round_nonneg.
  - apply Returns_inj in Hf as <-. apply outcome_bind_Returns in Hn as (ixs & Hixs & [= <-]).
    assert (0 <= fold_left count_signatures ixs (Z.of_nat (num_required_signatures (message_header m)))).
    { apply count_signatures_nonneg; [|lia]. apply Forall_forall. intros [pid ix] Hin.
      destruct (map_outcome_elem _ _ _ _ Hixs Hin) as (ix0 & Hix0 & He).
      apply outcome_bind_Returns in He as (? & _ & [= _ <-]).
      pose proof (mo_data m Hm) as Hd. rewrite Forall_forall in Hd. by apply Hd. }
    unfold sat_mul64. u_unfold. nia.
Qed.

Section Safety.
Context `{AccountsDb} {Hlaws : AccountsDbLaws _}.
Context `{Bincode UpgradeableLoaderState} `{BudgetCodec} `{Bincode NonceVersions}.
Variable builtin_programs : list BuiltinProgram.
Variable native_loader : Entrypoint.

(** ** Execution *)

(** An account that an instruction may write is one that is stored. *)
Lemma named_is_stored m i : message_ok m -> names_writable m i -> stored_index m i = true.
Proof.
  intros Hm [Hw (ix & Hix & Hi)]. unfold stored_index. rewrite Hw, andb_true_r.
  unfold message_is_non_loader_key. apply orb_true_iff. right. unfold message_is_key_passed_to_program.
  pose proof (mo_indices m Hm) as Hs. rewrite Forall_forall in Hs. specialize (Hs ix Hix).
  rewrite Forall_forall in Hs. specialize (Hs i Hi). pose proof (mo_length m Hm) as Hl.
  destruct (Nat.ltb_spec i 256); [|lia]. apply existsb_exists. exists ix. split; [by apply list_elem_of_In|].
  apply existsb_exists. exists i. split; [by apply list_elem_of_In|apply Nat.eqb_refl].
Qed.

Lemma pick_lamports m : forall (l l' : list AccountSharedData) i,
  length l' = length l ->
  (forall j a, l !! j = Some a -> stored_index m (i + j) = false ->
     exists a', l' !! j = Some a' /\ acc_lamports a' = acc_lamports a) ->
  lamports_of l' - lamports_of (pick m i l') = lamports_of l - lamports_of (pick m i l).
Proof.
  induction l as [|a l IH]; intros [|a' l'] i Hlen Hf; try done.
  injection Hlen as Hlen. cbn. specialize (IH l' (S i) Hlen).
  assert (forall j b, l !! j = Some b -> stored_index m (S i + j) = false ->
    exists b', l' !! j = Some b' /\ acc_lamports b' = acc_lamports b) as Hf'.
  { intros j b Hb Hs. apply (Hf (S j) b Hb). by replace (i + S j)%nat with (S i + j)%nat by lia. }
  specialize (IH Hf'). destruct (stored_index m i) eqn:Hi; cbn; [lia|].
  destruct (Hf 0%nat a eq_refl) as (? & [= <-] & ?); [by rewrite Nat.add_0_r|]. lia.
Qed.

Lemma lamports_pointwise : forall l l' : list AccountSharedData,
  length l' = length l ->
  (forall j a, l !! j = Some a -> exists a', l' !! j = Some a' /\ acc_lamports a' = acc_lamports a) ->
  lamports_of l' = lamports_of l.
Proof.
  induction l as [|a l IH]; intros [|a' l'] Hlen Hf; try done. injection Hlen as Hlen. cbn.
  destruct (Hf 0%nat a eq_refl) as (? & [= <-] & ->). rewrite (IH l' Hlen); [done|]. intros j. apply (Hf (S j)).
Qed.

(** A message that succeeds keeps the lamports of the stored accounts. *)
Lemma message_conserves m loaded L extra pis rt rt' u delta :
  message_ok m -> loaded = L ++ extra -> map fst L = message_keys m -> typed (map snd loaded) ->
  rt_tc rt = transaction_context_new loaded (instruction_context_capacity (rt_tc rt)) ->
  process_message builtin_programs native_loader m pis rt = Returns (rt', u, Ok delta) ->
  typed (map snd (deconstruct (rt_tc rt')))
  /\ lamports_of (map snd (pick m 0 (take (length L) (deconstruct (rt_tc rt')))))
     = lamports_of (map snd (pick m 0 L)).
Proof.
  intros Hm -> HL Hty Htc Hrun.
  assert (account_keys_len (message_account_keys m) = length L) as Hn
    by (rewrite account_keys_len_iter, <- HL; apply length_map).
  apply (message_isolated _ _ m (map fst (L ++ extra)) (map snd (L ++ extra))) in Hrun.
  2: { rewrite Hn, map_app, take_app_length' by (by rewrite length_map). rewrite HL. apply Hm. }
  2: { rewrite Hn, length_map, length_app. lia. }
  2: { rewrite Htc. apply message_inv_new. }
  2: { eapply Forall_impl; [apply (mo_indices m Hm)|]. cbn. intros ix Hix. by rewrite account_keys_len_iter. }
  destruct Hrun. unfold deconstruct. rewrite mi_keys. rewrite !length_map in mi_length.
  assert (map snd (zip (map fst (L ++ extra)) (tc_accounts (rt_tc rt'))) = tc_accounts (rt_tc rt')) as Hsnd.
  { apply snd_zip. rewrite length_map. lia. }
  rewrite Hsnd. split; [auto|]. rewrite <- !pick_map. change (@map ?A ?B) with (@fmap list _ A B) at 1.
  rewrite fmap_take. change (@fmap list _ ?A ?B) with (@map A B). rewrite Hsnd.
  rewrite length_app in mi_length. set (acc := tc_accounts (rt_tc rt')) in *.
  rewrite <- (take_drop (length L) acc) in mi_lamports.
  rewrite map_app, !lamports_of_app in mi_lamports.
  assert (forall i, (length L <= i)%nat -> ~ names_writable m i) as Hout.
  { intros i Hi [_ (ix & Hix & Hin)]. pose proof (mo_indices m Hm) as Hs. rewrite Forall_forall in Hs.
    specialize (Hs ix Hix). rewrite Forall_forall in Hs. specialize (Hs i Hin). rewrite <- HL, length_map in Hs. lia. }
  assert (lamports_of (drop (length L) acc) = lamports_of (map snd extra)) as Hex.
  { apply lamports_pointwise; [rewrite length_drop, length_map; lia|]. intros j a Ha.
    destruct (mi_unnamed (length L + j)%nat a) as (a' & Ha' & Hl); [|apply Hout; lia|].
    - rewrite map_app, lookup_app_r by (rewrite length_map; lia). rewrite length_map.
      by replace (length L + j - length L)%nat with j by lia.
    - exists a'. by rewrite lookup_drop. }
  enough (lamports_of (take (length L) acc) - lamports_of (pick m 0 (take (length L) acc))
    = lamports_of (map snd L) - lamports_of (pick m 0 (map snd L))) by lia.
  apply pick_lamports; [rewrite length_take, length_map; lia|]. intros j a Ha Hs.
  assert (j < length L)%nat as Hj by (apply lookup_lt_Some in Ha; by rewrite length_map in Ha).
  destruct (mi_unnamed j a) as (a' & Ha' & Hl).
  - rewrite map_app, lookup_app_l by (by rewrite length_map). done.
  - intros Hw. apply (named_is_stored m j Hm) in Hw. cbn in Hs. congruence.
  - exists a'. by rewrite lookup_take_lt.
Qed.

(** What execution leaves of a loaded transaction. *)
Lemma execute_spec b tx lt budget dnf lt' r L extra :
  message_ok (st_message tx) -> lt_accounts lt = L ++ extra -> map fst L = message_keys (st_message tx) ->
  typed (map snd (lt_accounts lt)) ->
  execute_loaded_transaction builtin_programs native_loader b tx lt budget dnf = Returns (lt', r) ->
  exists d, r = Executed d /\ ted_durable_nonce_fee d = dnf
    /\ lt_rent lt' = lt_rent lt /\ lt_rent_debits lt' = lt_rent_debits lt
    /\ map fst (lt_accounts lt') = map fst (lt_accounts lt)
    /\ (is_ok (ted_status d) = true -> typed (map snd (lt_accounts lt'))
         /\ lamports_of (map snd (pick (st_message tx) 0 (take (length L) (lt_accounts lt'))))
            = lamports_of (map snd (pick (st_message tx) 0 L))).
Proof.
  intros Hm Ha HL Hty Hx. unfold execute_loaded_transaction in Hx.
  apply outcome_bind_Returns in Hx as (pre & _ & Hx).
  apply outcome_bind_Returns in Hx as ([bh lps] & _ & Hx).
  apply outcome_bind_Returns in Hx as ([[rt u] pr] & Hrun & Hx).
  apply outcome_bind_Returns in Hx as (status & Hst & Hx). apply Returns_inj in Hx. injection Hx as <- <-.
  eexists. cbn [lt_accounts lt_rent lt_rent_debits ted_durable_nonce_fee ted_status]. split_and!; try done.
  - apply message_keys_kept in Hrun as [Hk Hl]. cbn in Hk, Hl. unfold deconstruct. rewrite Hk.
    apply fst_zip. rewrite Hl, !length_map. done.
  - intros Hok. destruct status as [delta|]; [|done].
    destruct pr as [delta'|]; [|done]. by apply (message_conserves _ (lt_accounts lt) L extra) in Hrun.
Qed.

(** ** One transaction *)

Lemma lamports_per_signature_data a a' :
  acc_data a = acc_data a' -> lamports_per_signature_of a = lamports_per_signature_of a'.
Proof. intros Hd. unfold lamports_per_signature_of, state. by rewrite Hd. Qed.

(** The nonce account that the check found is in the database. *)
Definition nonce_found (db : adb) (np : NoncePartial) : Prop :=
  exists slot, adb_load db (np_address np) = Some (np_account np, slot).

(** What a loaded transaction has paid, and to what its nonce leads. *)
Record tx_loaded (b : Bank) (tx : SanitizedTransaction) (lt : LoadedTransaction)
    (nonce : option NonceFull) (fee : Z) (k0 : Pubkey) (L extra : list TransactionAccount) : Prop := {
  tl_accounts : lt_accounts lt = L ++ extra;
  tl_keys : map fst L = message_keys (st_message tx);
  tl_payer : message_keys (st_message tx) !! 0%nat = Some k0;
  tl_typed : typed (map snd (lt_accounts lt));
  tl_rent : 0 <= lt_rent lt;
  tl_fee : 0 <= fee <= lam (b_accounts_db b) k0;
  tl_sum : lamports_of (map snd (pick (st_message tx) 0 L)) + lt_rent lt + fee
           = lam_total (b_accounts_db b) (stored_keys tx);
  tl_charge : (fun lps => calculate_fee (st_message tx) lps (b_fee_structure b)
                  (active b tx_wide_compute_cap) (active b add_set_compute_unit_price_ix))
    <$> match nonce with
        | Some n => lamports_per_signature_of (nf_account n)
        | None => get_lamports_per_signature (b_blockhash_queue b) (message_recent_blockhash (st_message tx))
        end = Some (Returns fee);
  tl_nonce : match nonce with
    | None => True
    | Some n =>
        if N.eqb k0 (nf_address n)
        then acc_lamports (nf_account n) = lam (b_accounts_db b) k0 - fee
        else acc_lamports (nf_account n) = lam (b_accounts_db b) (nf_address n)
          /\ exists payer, nf_fee_payer_account n = Some payer
               /\ acc_lamports payer = lam (b_accounts_db b) k0 - fee
    end;
}.

Definition lps_typed (b : Bank) : Prop :=
  (forall h lps, get_lamports_per_signature (b_blockhash_queue b) h = Some lps -> 0 <= lps)
  /\ (forall a lps, lamports_per_signature_of a = Some lps -> 0 <= lps).

Lemma load_checked_spec b tx check lt nonce :
  db_typed (b_accounts_db b) -> lps_typed b -> message_ok (st_message tx) ->
  lam_total (b_accounts_db b) (stored_keys tx) <= U64_MAX ->
  (forall np, check.2 = Some np -> nonce_found (b_accounts_db b) np) ->
  load_checked (b_accounts_db b) (b_rent_collector b) (b_feature_set b) no_overrides
    (b_blockhash_queue b) (b_fee_structure b) tx check = Returns (Ok lt, nonce) ->
  exists fee k0 L extra, tx_loaded b tx lt nonce fee k0 L extra.
Proof.
  intros Hdb [Hq Hn] Hm Hmax Hnp Hl. unfold load_checked in Hl. destruct check as [[[]|e] np]; [|done].
  cbn in Hnp. set (lps := match np with Some _ => _ | None => _ end) in Hl.
  destruct lps as [l|] eqn:Hlps; [|done]. unfold lps in Hlps.
  apply outcome_bind_Returns in Hl as (fee & Hfee & Hl).
  assert (0 <= l) as Hl0 by (destruct np; eauto). pose proof (calculate_fee_nonneg _ _ _ _ _ _ Hm Hl0 Hfee) as Hf0.
  apply outcome_bind_Returns in Hl as ([lt0|e] & Hlt & Hl); [|done].
  destruct (load_transaction_spec _ _ _ Hdb tx fee lt0 Hm Hf0 Hmax Hlt)
    as (k0 & a0 & L & extra & Ha & Hk & Hty & Hr & Hsum & Hpay).
  pose proof Hpay as (Hp1 & Hp2 & (d0 & slot & Hd0 & Hdata & Hown)).
  assert (u64 (acc_lamports a0)) as Hta0 by (rewrite Ha in Hty; by inversion_clear Hty).
  exists fee, k0, ((k0, a0) :: L), extra.
  assert (lt = lt0 /\ match np with
    | None => nonce = None
    | Some p => exists n, nonce = Some n /\ from_partial p (st_message tx) (lt_accounts lt0) (lt_rent_debits lt0) = Ok n
    end) as [-> Hnon].
  { destruct np as [p|]; [|by injection Hl as <- <-]. destruct (from_partial _ _ _ _) as [n|] eqn:Ef; [|done].
    injection Hl as <- <-. eauto. }
  assert (match nonce with None => np = None | Some n => exists p, np = Some p /\ nf_address n = np_address p
      /\ lamports_per_signature_of (nf_account n) = lamports_per_signature_of (np_account p)
      /\ (if N.eqb k0 (nf_address n) then acc_lamports (nf_account n) = lam (b_accounts_db b) k0 - fee
          else nf_account n = np_account p /\ exists payer, nf_fee_payer_account n = Some payer
               /\ acc_lamports payer = lam (b_accounts_db b) k0 - fee) end) as Hnf.
  { destruct np as [p|]; [|by subst]. destruct Hnon as (n & -> & Hfp). rewrite Ha in Hfp. exists p. split; [done|].
    apply (from_partial_spec (b_accounts_db b) fee) in Hfp as (Haddr & Heq & Hne); try done; [|apply Hm|].
    2: { rewrite account_keys_len_iter, <- Hk. cbn. by rewrite length_map. }
    split; [done|]. rewrite Haddr. destruct (Hnp p eq_refl) as (s' & Hps).
    destruct (N.eqb_spec k0 (np_address p)) as [->|Hk0].
    - destruct (Heq eq_refl) as (? & _ & Hd). split; [|done]. apply lamports_per_signature_data.
      rewrite Hps in Hd0. injection Hd0 as -> _. congruence.
    - destruct (Hne Hk0) as [-> ?]. done. }
  split; try done.
  - by rewrite <- Hk.
  - u_unfold. lia.
  - destruct nonce as [n|].
    + destruct Hnf as (p & -> & _ & He & _). rewrite He, Hlps. cbn. by f_equal.
    + subst np. rewrite Hlps. cbn. by f_equal.
  - destruct nonce as [n|]; [|done]. destruct Hnf as (p & -> & Haddr & _ & Hc).
    destruct (N.eqb k0 (nf_address n)); [done|]. destruct Hc as [-> Hpayer]. split; [|done].
    destruct (Hnp p eq_refl) as (s' & Hps). unfold lam. by rewrite Haddr, Hps.
Qed.

(** The accounts that an executed transaction stores, and the fee it is
    charged: what is paid before the commit, or is withdrawn by it. *)
Record settled (b : Bank) (tx : SanitizedTransaction) (d : TransactionExecutionDetails)
    (T : list TransactionAccount) (rent fee lost : Z) : Prop := {
  se_nodup : NoDup (map fst T);
  se_keys : forall k, k ∈ map fst T -> k ∈ stored_keys tx;
  se_typed : typed (map snd T);
  se_rent : 0 <= rent;
  se_fee : 0 <= fee;
  se_lost : 0 <= lost;
  se_bound : rent + fee <= lam_total (b_accounts_db b) (stored_keys tx);
  se_exact : active b preserve_rent_epoch_for_rent_exempt_accounts || is_ok (ted_status d)
             || negb (is_some (ted_durable_nonce_fee d)) = true -> lost = 0;
  se_charge : exists k0, k0 ∈ stored_keys tx /\
    let prepaid := is_ok (ted_status d) || is_some (ted_durable_nonce_fee d) in
    lamports_of (map snd T) + rent + lost + (if prepaid then fee else 0)
      = lam_total (b_accounts_db b) (map fst T)
    /\ forall db, collect_fee b db tx (Executed d)
         = if prepaid then Returns (db, Ok fee)
           else (withdrawn ← withdraw_fee b db k0 fee;
                 Returns (match withdrawn with Ok db' => (db', Ok fee) | Err e => (db, Err e) end));
}.

Lemma payer_stored tx k0 :
  message_ok (st_message tx) -> message_keys (st_message tx) !! 0%nat = Some k0 -> k0 ∈ stored_keys tx.
Proof.
  intros Hm Hk. unfold stored_keys. destruct (message_keys _) as [|k keys]; [done|]. injection Hk as ->. cbn.
  rewrite (mo_payer _ Hm). apply list_elem_of_here.
Qed.

(** The fee at the commit is the fee that was taken at loading. *)
Lemma fee_charged b tx lt nonce fee k0 L extra d db :
  tx_loaded b tx lt nonce fee k0 L extra -> ted_durable_nonce_fee d = durable_nonce_fee_from <$> nonce ->
  collect_fee b db tx (Executed d)
  = if is_ok (ted_status d) || is_some (ted_durable_nonce_fee d) then Returns (db, Ok fee)
    else (withdrawn ← withdraw_fee b db k0 fee;
          Returns (match withdrawn with Ok db' => (db', Ok fee) | Err e => (db, Err e) end)).
Proof.
  intros [] Hd. cbn [collect_fee]. rewrite Hd.
  assert (exists lps, match nonce with
      | Some n => lamports_per_signature_of (nf_account n)
      | None => get_lamports_per_signature (b_blockhash_queue b) (message_recent_blockhash (st_message tx))
      end = Some lps
    /\ calculate_fee (st_message tx) lps (b_fee_structure b)
         (active b tx_wide_compute_cap) (active b add_set_compute_unit_price_ix) = Returns fee) as (lps & Hl & Hc).
  { apply fmap_Some in tl_charge0 as (lps & Hl & Hc). by exists lps. }
  destruct nonce as [n|]; cbn [fmap option_fmap option_map].
  - unfold durable_nonce_fee_from. rewrite Hl, Hc. cbn. rewrite orb_true_r, andb_false_r. done.
  - rewrite Hl, Hc. cbn -[withdraw_fee]. rewrite orb_false_r, andb_true_r, account_keys_get_iter, tl_payer0.
    by destruct (is_ok (ted_status d)).
Qed.

Lemma stored_total b tx lt nonce fee k0 L extra :
  message_ok (st_message tx) -> tx_loaded b tx lt nonce fee k0 L extra ->
  NoDup (stored_keys tx) /\ k0 ∈ stored_keys tx /\ pick (st_message tx) 0 (map fst L) = stored_keys tx
  /\ account_keys_len (message_account_keys (st_message tx)) = length L.
Proof.
  intros Hm []. split_and!.
  - apply NoDup_pick, Hm.
  - by apply payer_stored.
  - by rewrite tl_keys0.
  - by rewrite account_keys_len_iter, <- tl_keys0, length_map.
Qed.

Lemma typed_nonneg l : typed l -> 0 <= lamports_of l.
Proof. induction 1 as [|a l Ha _ IH]; cbn; [done|]. u_unfold. lia. Qed.

Section Settle.
Variable b : Bank.
Variable tx : SanitizedTransaction.
Variable durable_nonce : DurableNonce.
Variable separate_domains : bool.
Variable lps : Z.
Variable leave_nonce_on_success : bool.
Hypothesis Hdb : db_typed (b_accounts_db b).
Hypothesis Hm : message_ok (st_message tx).
Hypothesis Hmax : lam_total (b_accounts_db b) (stored_keys tx) <= U64_MAX.

Let collect := collect_transaction (b_rent_collector b) durable_nonce separate_domains lps
  leave_nonce_on_success (active b preserve_rent_epoch_for_rent_exempt_accounts).

(** The loaded transaction after execution. *)
Record tx_executed (lt lt' : LoadedTransaction) (nonce : option NonceFull)
    (L : list TransactionAccount) (d : TransactionExecutionDetails) : Prop := {
  te_fee : ted_durable_nonce_fee d = durable_nonce_fee_from <$> nonce;
  te_rent : lt_rent lt' = lt_rent lt;
  te_keys : map fst (lt_accounts lt') = map fst (lt_accounts lt);
  te_ok : is_ok (ted_status d) = true -> typed (map snd (lt_accounts lt'))
    /\ lamports_of (map snd (pick (st_message tx) 0 (take (length L) (lt_accounts lt'))))
       = lamports_of (map snd (pick (st_message tx) 0 L));
}.

(** The keys of the message's accounts after execution. *)
Lemma executed_keys lt lt' nonce fee k0 L extra d :
  tx_loaded b tx lt nonce fee k0 L extra -> tx_executed lt lt' nonce L d ->
  map fst (take (length L) (lt_accounts lt')) = message_keys (st_message tx).
Proof.
  intros [] []. change (map fst ?l) with (l.*1) in *. rewrite fmap_take, te_keys0, tl_accounts0, fmap_app.
  rewrite take_app_length'; [done|]. by rewrite length_fmap.
Qed.

Lemma settles_success lt lt' nonce fee k0 L extra d accs T :
  tx_loaded b tx lt nonce fee k0 L extra -> tx_executed lt lt' nonce L d -> is_ok (ted_status d) = true ->
  collect tx (Executed d) (Ok lt', nonce) = Returns (accs, T) ->
  exists lt1 nonce1, accs = (Ok lt1, nonce1) /\ settled b tx d T (lt_rent lt1) fee 0.
Proof.
  intros Hl He Hok Hc. destruct (stored_total _ _ _ _ _ _ _ _ Hm Hl) as (Hnd & Hk0 & Hpick & Hlen).
  pose proof (executed_keys _ _ _ _ _ _ _ _ Hl He) as Hkeys. destruct (te_ok _ _ _ _ _ He Hok) as [Hty Hsum].
  pose proof (tl_sum _ _ _ _ _ _ _ _ Hl) as Hs. pose proof (tl_fee _ _ _ _ _ _ _ _ Hl) as Hf.
  unfold collect, collect_transaction in Hc. destruct (ted_status d) as [[]|e] eqn:Hst; [|done].
  assert (exists mn, nonce_to_store leave_nonce_on_success (Ok ()) nonce = Some mn
    /\ match mn with Some (_, rb) => rb = false | None => True end) as (mn & Hmn & Hrb).
  { destruct nonce; cbn; [|by exists None]. by destruct leave_nonce_on_success; eexists. }
  rewrite Hmn, Hlen in Hc. apply outcome_bind_Returns in Hc as (s & Hloop & [= <- <-]).
  assert (typed (map snd (take (length L) (lt_accounts lt')))) as Hty'.
  { change (map snd ?l) with (l.*2) in *. rewrite fmap_take. by apply Forall_take. }
  apply store_loop_Ok in Hloop as (T & HT & HfT & HtT & Hle & Hsum'); try done; cbn [ss_rent] in *.
  2, 3: rewrite (te_rent _ _ _ _ _ He); pose proof (tl_rent _ _ _ _ _ _ _ _ Hl); lia.
  cbn [ss_to_store app] in HT. rewrite (te_rent _ _ _ _ _ He) in *. pose proof (tl_rent _ _ _ _ _ _ _ _ Hl).
  rewrite <- pick_map, Hkeys in HfT. fold (stored_keys tx) in HfT. pose proof (typed_nonneg _ HtT).
  do 2 eexists. split; [done|]. cbn [lt_rent]. rewrite HT. split; rewrite ?HfT; try done; try lia.
  exists k0. split; [done|]. rewrite Hst. cbn [is_ok orb]. split; [lia|]. intros db.
  rewrite (fee_charged _ _ _ _ _ _ _ _ _ _ Hl (te_fee _ _ _ _ _ He)), Hst. done.
Qed.

Lemma settles_failure lt lt' fee k0 L extra d e accs T :
  tx_loaded b tx lt None fee k0 L extra -> tx_executed lt lt' None L d -> ted_status d = Err e ->
  collect tx (Executed d) (Ok lt', None) = Returns (accs, T) -> settled b tx d T 0 fee 0.
Proof.
  intros Hl He Hst Hc. destruct (stored_total _ _ _ _ _ _ _ _ Hm Hl) as (Hnd & Hk0 & Hpick & Hlen).
  pose proof (tl_fee _ _ _ _ _ _ _ _ Hl) as Hf. unfold collect, collect_transaction in Hc.
  rewrite Hst in Hc. injection Hc as <- <-. cbn.
  assert (lam (b_accounts_db b) k0 <= lam_total (b_accounts_db b) (stored_keys tx)).
  { pose proof (lam_total_mono (b_accounts_db b) [k0] (stored_keys tx) Hdb) as Ht. cbn in Ht.
    rewrite Z.add_0_r in Ht. apply Ht; [apply NoDup_singleton|done|]. by intros k ->%list_elem_of_singleton. }
  split; cbn [map lamports_of lam_total]; try done; try lia; [by apply NoDup_nil|set_solver|by apply Forall_nil|].
  exists k0. split; [done|]. pose proof (te_fee _ _ _ _ _ He) as Htf. cbv zeta.
  split; [by rewrite Htf, Hst|]. intros db. exact (fee_charged _ _ _ _ _ _ _ _ d db Hl Htf).
Qed.

(** The fee payer of a failed transaction with a nonce, as it is written. *)
Lemma payer_written lt nonce fee k0 L extra e account a1 is_nonce :
  tx_loaded b tx lt (Some nonce) fee k0 L extra ->
  prepare_if_nonce_account durable_nonce separate_domains lps k0 account (Err e) true (Some (nonce, true))
    = Returns (a1, is_nonce) ->
  acc_lamports a1 = lam (b_accounts_db b) k0 - fee.
Proof.
  intros Hl Hp. apply prepare_lamports in Hp. pose proof (tl_nonce _ _ _ _ _ _ _ _ Hl) as Hn. cbn in Hn.
  destruct (N.eqb k0 (nf_address nonce)); [by destruct Hp as [_ ->]|].
  destruct Hn as [_ (payer & Hpay & Hlam)]. rewrite Hpay in Hp. destruct Hp as [_ ->]. done.
Qed.

Lemma settles_nonce_failure lt lt' nonce fee k0 L extra d e accs T :
  tx_loaded b tx lt (Some nonce) fee k0 L extra -> tx_executed lt lt' (Some nonce) L d -> ted_status d = Err e ->
  collect tx (Executed d) (Ok lt', Some nonce) = Returns (accs, T) ->
  exists lost, settled b tx d T 0 fee lost.
Proof.
  intros Hl He Hst Hc. destruct (stored_total _ _ _ _ _ _ _ _ Hm Hl) as (Hnd & Hk0 & Hpick & Hlen).
  pose proof (executed_keys _ _ _ _ _ _ _ _ Hl He) as Hkeys. pose proof (tl_fee _ _ _ _ _ _ _ _ Hl) as Hf.
  pose proof (lam_bound _ k0 Hdb) as Hb0. pose proof (mo_payer _ Hm) as Hpay.
  unfold collect, collect_transaction in Hc. rewrite Hst, Hlen in Hc. cbn [nonce_to_store] in Hc.
  apply outcome_bind_Returns in Hc as (s & Hloop & Hc). apply Returns_inj in Hc. injection Hc as <- <-.
  pose proof (tl_payer _ _ _ _ _ _ _ _ Hl) as Hp0. pose proof (mo_keys _ Hm) as Hndk.
  rewrite <- Hkeys in Hp0, Hndk.
  destruct (take (length L) (lt_accounts lt')) as [|[k a0] rest]; [done|]. injection Hp0 as ->.
  assert (stored_keys tx = k0 :: map fst (pick (st_message tx) 1 rest)) as Hsk.
  { unfold stored_keys. rewrite <- Hkeys, <- pick_map. cbn. by rewrite Hpay. }
  cbn [map fst] in *. apply NoDup_cons in Hndk as [Hn0 Hndk]. cbn [store_loop] in Hloop.
  apply outcome_bind_Returns in Hloop as (s1 & Hs1 & Hloop).
  apply store_step_cases in Hs1. cbn [ss_fee_payer_index ss_to_store app] in Hs1.
  destruct Hs1 as [(_ & _ & _ & Hns)|(_ & Hpi & a1 & isn & a & rent & Hp & _ & Hts & Hw)]; [by destruct (Hns Hpay) as (_ & ? & _)|].
  rewrite Nat.eqb_refl in Hp. pose proof (payer_written _ _ _ _ _ _ _ _ _ _ Hl Hp) as Ha1.
  destruct Hw as (Hr0 & Hsum & Hta & Hpre & _); [rewrite Ha1; u_unfold; lia|].
  pose proof (tl_nonce _ _ _ _ _ _ _ _ Hl) as Htn. cbn in Htn.
  apply (store_loop_Err_rest _ _ _ _ _ (b_accounts_db b)) in Hloop
    as (T & lost & HT & HnT & HinT & HtT & Hl0 & Hlp & HsT); try done; try lia.
  2: { destruct (N.eqb _ _); [rewrite Htn; u_unfold; lia|]. destruct Htn as [-> _]. by apply lam_bound. }
  2: { intros Hin. destruct (N.eqb_spec k0 (nf_address nonce)) as [->|]; [done|]. apply Htn. }
  exists (rent + lost). rewrite HT, Hts. cbn [app]. split; cbn [map fst snd lamports_of lam_total]; try lia.
  - constructor; [|done]. intros Hin%HinT. apply Hn0. rewrite list_elem_of_fmap in Hin.
    destruct Hin as (x & -> & Hx%elem_of_pick). by apply list_elem_of_fmap_2.
  - rewrite Hsk. intros k. rewrite !elem_of_cons. naive_solver.
  - by constructor.
  - rewrite Hsk. cbn. pose proof (lam_total_nonneg (b_accounts_db b) (map fst (pick (st_message tx) 1 rest)) Hdb). lia.
  - rewrite (te_fee _ _ _ _ _ He), Hst. cbn. rewrite !orb_false_r. intros Hpr. rewrite Hpre, Hlp by done. lia.
  - exists k0. split; [done|]. cbv zeta. split; [|intros db; exact (fee_charged _ _ _ _ _ _ _ _ d db Hl (te_fee _ _ _ _ _ He))].
    rewrite (te_fee _ _ _ _ _ He), orb_true_r. lia.
Qed.

End Settle.

(** ** A batch *)

Lemma map_outcome_results {A B} (f : A -> outcome B) l l' :
  map_outcome f l = Returns l' -> Forall2 (fun x y => f x = Returns y) l l'.
Proof.
  revert l'. induction l as [|x l IH]; intros l' Hl; cbn in Hl; [injection Hl as <-; constructor|].
  apply outcome_bind_Returns in Hl as (y & Hy & Hl). apply outcome_bind_Returns in Hl as (ys & Hys & [= <-]).
  constructor; auto.
Qed.

(** A pass over the batch that uses the results of the pass before it. *)
Lemma map_outcome_chain {X Y Z W} (R : X * Y -> Z -> Prop) (g : X * Z -> outcome W) xs ys zs ws :
  length ys = length xs -> Forall2 R (zip xs ys) zs -> map_outcome g (zip xs zs) = Returns ws ->
  Forall2 (fun p w => exists z, R p z /\ g (p.1, z) = Returns w) (zip xs ys) ws.
Proof.
  revert ys zs ws. induction xs as [|x xs IH]; intros [|y ys] zs ws Hlen HR Hg; try done.
  { inversion HR; subst. injection Hg as <-. constructor. }
  cbn in HR. inversion HR as [|? z ? zs' Hz HR']; subst. cbn in Hg.
  apply outcome_bind_Returns in Hg as (w & Hw & Hg). apply outcome_bind_Returns in Hg as (ws' & Hws & [= <-]).
  cbn. constructor; [by exists z|]. apply (IH ys zs'); [by injection Hlen|done|done].
Qed.

Context `{OnChain} `{Signing} `{SystemCodec} `{NonceHash}.

(** What the checks of a transaction establish. *)
Definition checked (b : Bank) (p : SanitizedTransaction * result TransactionError unit)
    (check : TransactionCheckResult) : Prop :=
  (is_ok check.1 = true -> p.2 = Ok tt /\ is_transaction_already_processed b p.1 = Returns false)
  /\ forall np, check.2 = Some np -> nonce_found (b_accounts_db b) np.

Lemma check_transaction_age_spec b max_age next tx lock check :
  check_transaction_age b max_age next tx lock = Returns check ->
  (is_ok check.1 = true -> lock = Ok tt) /\ forall np, check.2 = Some np -> nonce_found (b_accounts_db b) np.
Proof.
  unfold check_transaction_age. destruct lock as [[]|e]; [|by intros [= <-]].
  intros Hc. split; [done|]. intros np Hnp.
  assert (exists nonce, check_transaction_for_nonce b tx
      (active b separate_nonce_from_blockhash && active b enable_durable_nonce) next = Returns nonce
    /\ nonce = Some (np_address np, np_account np)) as (nonce & Hn & ->).
  { destruct (check_hash_age _ _ _) as [[]|]; [by injection Hc as <-| |];
      apply outcome_bind_Returns in Hc as (nonce & Hn & [= <-]); exists nonce; (split; [done|]);
      destruct nonce as [[addr acc]|]; try done; by injection Hnp as <-. }
  unfold check_transaction_for_nonce in Hn. cbv zeta in Hn. destruct (_ && (_ || _)) in Hn; [|done].
  apply outcome_bind_Returns in Hn as (address & _ & Hn). injection Hn as Hn.
  apply option_bind_Some in Hn as (addr & -> & Hn). apply option_bind_Some in Hn as (acc & Hacc & Hn).
  apply option_bind_Some in Hn as (data & _ & Hn). destruct (_ && _) in Hn; [done|]. injection Hn as -> ->.
  unfold get_account_with_fixed_root in Hacc. unfold nonce_found.
  destruct (adb_load _ _) as [[a slot]|]; [|done]. destruct (_ <? _); [|done]. injection Hacc as ->. by exists slot.
Qed.

Lemma check_transactions_spec b txs locks max_age checks :
  length locks = length txs -> check_transactions b txs locks max_age = Returns checks ->
  Forall2 (checked b) (zip txs locks) checks.
Proof.
  intros Hlen Hc. apply outcome_bind_Returns in Hc as (ages & Ha & Hs).
  apply outcome_bind_Returns in Ha as (h & _ & Ha). apply map_outcome_results in Ha.
  apply (map_outcome_chain _ _ _ _ _ _ Hlen Ha) in Hs. eapply Forall2_impl; [exact Hs|].
  intros [tx lock] check (age & Hage & Hst). apply check_transaction_age_spec in Hage as [Hok Hnp].
  cbn in Hst. unfold check_status in Hst. unfold checked. cbn [fst snd].
  destruct (is_ok age.1) eqn:Hage; [|injection Hst as <-; rewrite Hage; split; [done|auto]].
  apply outcome_bind_Returns in Hst as (processed & Hp & Hst). destruct processed; injection Hst as <-; [done|].
  split; [|done]. intros _. split; [auto|done].
Qed.

(** What execution did for one transaction of the batch. *)
Definition ran (b : Bank) (tx : SanitizedTransaction) (accs accs' : TransactionLoadResult)
    (r : TransactionExecutionResult) : Prop :=
  (exists e, r = NotExecuted e /\ accs' = accs)
  \/ exists lt nonce budget lt', accs = (Ok lt, nonce) /\ accs' = (Ok lt', nonce)
       /\ execute_loaded_transaction builtin_programs native_loader b tx lt budget
            (durable_nonce_fee_from <$> nonce) = Returns (lt', r).

Lemma execute_loop_spec b mev : forall l s s',
  execute_loop builtin_programs native_loader b mev l s = Returns s' ->
  exists loaded results, es_loaded s' = es_loaded s ++ loaded /\ es_results s' = es_results s ++ results
    /\ Forall3 (fun p => ran b p.1 p.2) l loaded results.
Proof.
  induction l as [|[tx accs] l IH]; intros s s' Hl; cbn in Hl.
  { injection Hl as <-. exists [], []. rewrite !app_nil_r. split_and!; [done..|constructor]. }
  apply outcome_bind_Returns in Hl as (s1 & H1' & Hl). apply IH in Hl as (loaded & results & Hlo & Hre & Hf).
  assert (exists accs' r, es_loaded s1 = es_loaded s ++ [accs'] /\ es_results s1 = es_results s ++ [r]
    /\ ran b tx accs accs' r) as (accs' & r & E1 & E2 & Hr).
  { unfold execute_one in H1'. destruct accs as [[lt|e] nonce].
    2: { injection H1' as <-. do 2 eexists. split_and!; [done..|]. left. by eexists. }
    apply outcome_bind_Returns in H1' as ([budget|e] & _ & H1').
    2: { injection H1' as <-. do 2 eexists. split_and!; [done..|]. left. by eexists. }
    apply outcome_bind_Returns in H1' as (pre & _ & H1').
    apply outcome_bind_Returns in H1' as ([lt' r] & Hx & H1').
    apply outcome_bind_Returns in H1' as ([msgs cand] & _ & [= <-]).
    do 2 eexists. split_and!; [done..|]. right. by exists lt, nonce, budget, lt'. }
  exists (accs' :: loaded), (r :: results). rewrite Hlo, Hre, E1, E2, <- !app_assoc. split_and!; [done..|].
  by constructor.
Qed.

(** One transaction of a batch after [load_and_execute_transactions]. *)
Inductive tx_run (b : Bank) : SanitizedTransaction * result TransactionError unit ->
    TransactionLoadResult -> TransactionExecutionResult -> Prop :=
| run_not_executed tx lock accs e : tx_run b (tx, lock) accs (NotExecuted e)
| run_executed tx lt lt' nonce d fee k0 L extra :
    is_transaction_already_processed b tx = Returns false ->
    tx_loaded b tx lt nonce fee k0 L extra -> tx_executed tx lt lt' nonce L d ->
    tx_run b (tx, Ok tt) (Ok lt', nonce) (Executed d).

(** A bank and a batch for which the arithmetic of lamports does not overflow. *)
Record batch_fits (b : Bank) (txs : list SanitizedTransaction)
    (locks : list (result TransactionError unit)) : Prop := {
  bo_typed : db_typed (b_accounts_db b);
  bo_lps : lps_typed b;
  bo_length : length locks = length txs;
  bo_messages : Forall (fun tx => message_ok (st_message tx)
                          /\ lam_total (b_accounts_db b) (stored_keys tx) <= U64_MAX) txs;
  bo_locks : ForallOrdPairs compatible (batch_locksets txs locks);
}.

Lemma batch_run b txs locks max_age mev out msgs :
  batch_fits b txs locks ->
  load_and_execute_transactions builtin_programs native_loader b txs locks max_age no_overrides mev
    = Returns (out, msgs) ->
  Forall3 (tx_run b) (zip txs locks) (lo_loaded_transactions out) (lo_execution_results out).
Proof.
  intros [Hdb Hlps Hlen Hok _] Hx. unfold load_and_execute_transactions in Hx.
  apply outcome_bind_Returns in Hx as (checks & Hc & Hx).
  apply outcome_bind_Returns in Hx as (accs & Hl & Hx). apply outcome_bind_Returns in Hx as (s & Hs & Hx).
  injection Hx as <- _. cbn [lo_loaded_transactions lo_execution_results].
  apply (check_transactions_spec _ _ _ _ _ Hlen) in Hc. apply (map_outcome_chain _ _ _ _ _ _ Hlen Hc) in Hl.
  apply execute_loop_spec in Hs as (loaded & results & -> & -> & Hf). cbn [es_loaded es_results app].
  assert (length accs = length txs) as Hla.
  { apply Forall2_length in Hl. rewrite length_zip_with in Hl. lia. }
  assert (length loaded = length txs) as Hlo.
  { apply Forall3_length_lm in Hf. rewrite length_zip_with in Hf. lia. }
  rewrite drop_ge, app_nil_r by lia. clear Hc checks Hla Hlo msgs s.
  revert locks accs loaded results Hlen Hl Hf. induction txs as [|tx txs IH]; intros [|lock locks] accs loaded results Hlen Hl Hf; try done.
  { inversion Hl; subst. cbn in *. inversion Hf; subst. constructor. }
  cbn in Hl. inversion Hl as [|? acc ? accs' (check & Hck & Hld) Hl']; subst.
  cbn in Hf. apply Forall3_cons_inv_l in Hf as (lo & los & r & rs & -> & -> & Hr & Hf). cbn in Hr |- *.
  apply Forall_cons in Hok as [[Hm Hmax] Hok].
  constructor; [|apply (IH Hok locks accs'); [by injection Hlen|done..]].
  destruct Hr as [(e & -> & _)|(lt & nonce & budget & lt' & -> & -> & Hx)]; [constructor|].
  destruct Hck as [Hlock Hnp]. cbn in Hlock.
  assert (is_ok check.1 = true) as Hcok.
  { destruct check as [[[]|e] np]; [done|]. cbn in Hld. injection Hld as Hld. done. }
  destruct (Hlock Hcok) as [-> Hnew]. cbn in Hld.
  apply load_checked_spec in Hld as (fee & k0 & L & extra & Hload); try done.
  pose proof Hload as [].
  apply (execute_spec _ _ _ _ _ _ _ L extra) in Hx as (d & -> & Hdn & Hrent & _ & Hkeys & Hsucc); try done.
  by eapply run_executed.
Qed.

(** ** Committing a batch *)

(** The keys that the batch holds and may store. *)
Fixpoint locked_keys (l : list (SanitizedTransaction * result TransactionError unit)) : list Pubkey :=
  match l with
  | [] => []
  | (tx, lock) :: rest => (if is_ok lock then stored_keys tx else []) ++ locked_keys rest
  end.

Lemma locked_keys_elem l k :
  k ∈ locked_keys l -> exists tx, (tx, Ok tt) ∈ l /\ k ∈ stored_keys tx.
Proof.
  induction l as [|[tx [[]|e]] l IH]; cbn; [set_solver| |].
  - intros [Hk|Hk]%elem_of_app; [exists tx; set_solver|]. destruct (IH Hk) as (tx' & ? & ?). exists tx'. set_solver.
  - intros Hk. destruct (IH Hk) as (tx' & ? & ?). exists tx'. set_solver.
Qed.

Lemma stored_write_locked tx k : k ∈ stored_keys tx -> k ∈ ls_write (lockset_of (tx_locks tx)).
Proof.
  intros Hk%pick_locked. unfold lockset_of, get_readable_and_writable_locks_vec.
  destruct (tal_readonly_mev _); cbn; apply elem_of_list_to_set; [|done].
  apply elem_of_elements. unfold get_write_accounts.
  assert (k ∈ (list_to_set (tal_writable (tx_locks tx)) : gset N)) as Hs by (by apply elem_of_list_to_set).
  revert Hs. generalize (list_to_set (tal_writable (tx_locks tx)) : gset N) as s0.
  induction (mk_pool_keys m) as [|p ps IH]; intros s0 Hs; cbn; [done|]. apply IH.
  unfold pool_write_accounts. destruct (mpk_source p), (mpk_destination p); rewrite ?elem_of_union; auto 10.
Qed.

(** The locks of a batch are compatible, so what its transactions may store
    is disjoint. *)
Lemma locked_keys_NoDup txs : forall locks,
  Forall (fun tx => message_ok (st_message tx)) txs -> ForallOrdPairs compatible (batch_locksets txs locks) ->
  NoDup (locked_keys (zip txs locks)).
Proof.
  induction txs as [|tx txs IH]; intros [|lock locks] Hm Hc; try apply NoDup_nil_2.
  apply Forall_cons in Hm as [Hm Hms]. cbn. unfold batch_locksets in Hc. cbn in Hc.
  destruct lock as [[]|e]; cbn in *; [|by apply IH]. inversion Hc as [|? ? Hhd Htl]; subst.
  apply NoDup_app. split_and!; [apply NoDup_pick, Hm| |by apply IH].
  intros k Hk (tx' & Hin & Hk')%locked_keys_elem. apply stored_write_locked in Hk, Hk'.
  rewrite Forall_forall in Hhd. specialize (Hhd (lockset_of (tx_locks tx'))).
  assert (compatible (lockset_of (tx_locks tx)) (lockset_of (tx_locks tx'))) as Hcc.
  { apply Hhd. apply list_elem_of_omap. by exists (tx', Ok tt). }
  destruct Hcc as [Hcc _]. by apply (Hcc k).
Qed.

Record Settlement := {
  sm_stored : list TransactionAccount;
  sm_rent : Z;
  sm_fee : Z;
  sm_lost : Z;
}.

Definition settles (b : Bank) (p : SanitizedTransaction * result TransactionError unit)
    (r : TransactionExecutionResult) (s : Settlement) : Prop :=
  match r with
  | NotExecuted _ => s = {| sm_stored := []; sm_rent := 0; sm_fee := 0; sm_lost := 0 |}
  | Executed d => p.2 = Ok tt /\ settled b p.1 d (sm_stored s) (sm_rent s) (sm_fee s) (sm_lost s)
  end.

Definition sum_of (f : Settlement -> Z) (l : list Settlement) : Z := foldr (fun s n => f s + n) 0 l.

Definition stored_of (l : list Settlement) : list TransactionAccount := concat (map sm_stored l).

(** What [collect_rent] counts for one transaction. *)
Definition rent_counted (accs : TransactionLoadResult) (r : TransactionExecutionResult) (s : Settlement) : Prop :=
  match accs with
  | (Ok lt, _) => if was_executed_successfully r then lt_rent lt = sm_rent s else sm_rent s = 0
  | (Err _, _) => sm_rent s = 0
  end.

Section Commit.
Variable b : Bank.
Variable durable_nonce : DurableNonce.
Variable separate_domains : bool.
Variable lps : Z.
Variable leave_nonce_on_success : bool.
Hypothesis Hdb : db_typed (b_accounts_db b).

Lemma collect_one tx lock accs r accs' T :
  message_ok (st_message tx) -> lam_total (b_accounts_db b) (stored_keys tx) <= U64_MAX ->
  tx_run b (tx, lock) accs r ->
  collect_transaction (b_rent_collector b) durable_nonce separate_domains lps leave_nonce_on_success
    (active b preserve_rent_epoch_for_rent_exempt_accounts) tx r accs = Returns (accs', T) ->
  exists s, sm_stored s = T /\ settles b (tx, lock) r s /\ rent_counted accs' r s.
Proof.
  intros Hm Hmax Hrun Hc. inversion Hrun as [? ? ? e|? lt lt' nonce d fee k0 L extra Hnew Hload Hexec]; subst.
  { exists {| sm_stored := []; sm_rent := 0; sm_fee := 0; sm_lost := 0 |}. cbn.
    destruct accs as [[lt|e'] nonce]; by injection Hc as <- <-. }
  destruct (ted_status d) as [[]|e] eqn:Hst.
  - destruct (settles_success b tx durable_nonce separate_domains lps leave_nonce_on_success Hm Hmax
      lt lt' nonce fee k0 L extra d accs' T) as (lt1 & n1 & -> & Hs); try done; [by rewrite Hst|].
    exists {| sm_stored := T; sm_rent := lt_rent lt1; sm_fee := fee; sm_lost := 0 |}. cbn. by rewrite Hst.
  - assert (exists lost, settled b tx d T 0 fee lost) as [lost Hs].
    { destruct nonce as [n|]; [by eapply settles_nonce_failure|]. exists 0. by eapply settles_failure. }
    exists {| sm_stored := T; sm_rent := 0; sm_fee := fee; sm_lost := lost |}. cbn.
    split_and!; try done. destruct accs' as [[lt1|] n1]; cbn; by rewrite ?Hst.
Qed.

Lemma collect_accounts_cons rc preserve tx txs r results accs loaded :
  collect_accounts_to_store rc durable_nonce separate_domains lps leave_nonce_on_success preserve
    (tx :: txs) (r :: results) (accs :: loaded)
  = ('(accs', T) ← collect_transaction rc durable_nonce separate_domains lps leave_nonce_on_success
                     preserve tx r accs;
     '(loaded', stored) ← collect_accounts_to_store rc durable_nonce separate_domains lps
                            leave_nonce_on_success preserve txs results loaded;
     Returns (accs' :: loaded', T ++ stored)).
Proof. by destruct accs as [[]]. Qed.

Lemma collect_settles : forall txs locks loaded results loaded' stored,
  length locks = length txs ->
  Forall (fun tx => message_ok (st_message tx) /\ lam_total (b_accounts_db b) (stored_keys tx) <= U64_MAX) txs ->
  Forall3 (tx_run b) (zip txs locks) loaded results ->
  collect_accounts_to_store (b_rent_collector b) durable_nonce separate_domains lps leave_nonce_on_success
    (active b preserve_rent_epoch_for_rent_exempt_accounts) txs results loaded = Returns (loaded', stored) ->
  exists sts, Forall3 (settles b) (zip txs locks) results sts /\ stored = stored_of sts
    /\ Forall3 rent_counted loaded' results sts.
Proof.
  induction txs as [|tx txs IH]; intros [|lock locks] loaded results loaded' stored Hlen Hok Hrun Hc; try done.
  { inversion Hrun; subst. injection Hc as <- <-. exists []. split_and!; [constructor|done|constructor]. }
  cbn in Hrun. apply Forall3_cons_inv_l in Hrun as (accs & loaded1 & r & results1 & -> & -> & Hr & Hrun).
  apply Forall_cons in Hok as [[Hm Hmax] Hok]. rewrite collect_accounts_cons in Hc.
  apply outcome_bind_Returns in Hc as ([accs' T] & Hc1 & Hc).
  apply outcome_bind_Returns in Hc as ([loaded2 stored2] & Hc2 & [= <- <-]).
  destruct (collect_one _ _ _ _ _ _ Hm Hmax Hr Hc1) as (s & <- & Hs & Hrc).
  injection Hlen as Hlen. destruct (IH _ _ _ _ _ Hlen Hok Hrun Hc2) as (sts & Hsts & -> & Hrcs).
  exists (s :: sts). split_and!; [by constructor|done|by constructor].
Qed.

End Commit.

(** The fee was paid before the commit. *)
Definition prepaid (r : TransactionExecutionResult) : bool :=
  match r with
  | Executed d => is_ok (ted_status d) || is_some (ted_durable_nonce_fee d)
  | NotExecuted _ => false
  end.

Fixpoint prepaid_fees (results : list TransactionExecutionResult) (sts : list Settlement) : Z :=
  match results, sts with
  | r :: results, s :: sts => (if prepaid r then sm_fee s else 0) + prepaid_fees results sts
  | _, _ => 0
  end.

(** The accounts of a batch are stored once each, and what they lose is
    counted as rent or as fees. *)
Record batch_settled (b : Bank) (l : list (SanitizedTransaction * result TransactionError unit))
    (results : list TransactionExecutionResult) (sts : list Settlement) : Prop := {
  bs_nodup : NoDup (map fst (stored_of sts));
  bs_keys : forall k, k ∈ map fst (stored_of sts) -> k ∈ locked_keys l;
  bs_typed : typed (map snd (stored_of sts));
  bs_nonneg : Forall (fun s => 0 <= sm_rent s /\ 0 <= sm_fee s /\ 0 <= sm_lost s) sts;
  bs_bound : sum_of sm_rent sts + sum_of sm_fee sts <= lam_total (b_accounts_db b) (locked_keys l);
  bs_sum : lamports_of (map snd (stored_of sts)) + sum_of sm_rent sts + sum_of sm_lost sts
           + prepaid_fees results sts = lam_total (b_accounts_db b) (map fst (stored_of sts));
}.

Lemma settles_batch b l results sts :
  db_typed (b_accounts_db b) -> NoDup (locked_keys l) -> Forall3 (settles b) l results sts ->
  batch_settled b l results sts.
Proof.
  intros Hdb Hnd Hs. induction Hs as [|[tx lock] r s l results sts Hs _ IH].
  { split; cbn; try done; apply Forall_nil_2. }
  cbn in Hnd. apply NoDup_app in Hnd as (_ & Hdis & Hnd). destruct (IH Hnd) as []. clear IH.
  pose proof (lam_total_nonneg _ (if is_ok lock then stored_keys tx else []) Hdb) as Hnn.
  destruct r as [d|e]; cbn in Hs.
  2: { subst s. split; cbn; rewrite ?lam_total_app; unfold sum_of in *; try done; try lia; [|by constructor].
       intros k Hk. apply elem_of_app. auto. }
  destruct Hs as [-> Hs]. cbn [is_ok] in *. destruct Hs. destruct se_charge0 as (k0 & _ & Hsum & _).
  assert (stored_of (s :: sts) = sm_stored s ++ stored_of sts) as Hcons by done.
  split; rewrite ?Hcons, ?map_app; cbn [locked_keys sum_of foldr prepaid_fees prepaid is_ok];
    rewrite ?lam_total_app, ?lamports_of_app; unfold sum_of in *; try lia.
  - apply NoDup_app. split_and!; [done| |done]. intros k Hk Hk'. apply (Hdis k); auto.
  - intros k. rewrite !elem_of_app. naive_solver.
  - by apply typed_app.
  - by constructor.
Qed.

Lemma withdraw_fee_spec b db k fee db' K :
  0 <= fee -> db_typed db -> NoDup K -> k ∈ K -> withdraw_fee b db k fee = Returns (Ok db') ->
  lam_total db' K = lam_total db K - fee /\ db_typed db' /\ forall k', k' <> k -> adb_load db' k' = adb_load db k'.
Proof.
  intros Hfee Hdb HK Hk Hw. unfold withdraw_fee, get_account_with_fixed_root in Hw.
  destruct (adb_load db k) as [[a slot]|] eqn:Ea; [|done]. destruct (Z.ltb_spec 0 (acc_lamports a)); [|done].
  destruct (checked_add64 _ _); [|done]. destruct (_ <? _); [done|].
  destruct (checked_sub_lamports a fee) as [a'|] eqn:Es; [|done].
  apply result_bind_Ok in Es as (n & Hn & [= <-]). apply ok_or_Ok in Hn. unfold checked_sub64 in Hn.
  destruct (Z.leb_spec fee (acc_lamports a)); [|done]. injection Hn as <-.
  apply outcome_bind_Returns in Hw as (db1 & Hst & [= <-]).
  apply outcome_bind_Returns in Hst as (_ & _ & [= <-]). pose proof (Hdb _ _ _ Ea).
  assert (NoDup (map fst [(k, set_lamports a (acc_lamports a - fee))])) as Hnd by apply NoDup_singleton.
  split_and!.
  - rewrite lam_total_store by (try done; cbn; set_solver). cbn. unfold lam. rewrite Ea. lia.
  - apply store_typed; [done|done|]. constructor; [|by apply Forall_nil]. cbn. u_unfold; lia.
  - intros k' Hne. apply adb_load_other. cbn. set_solver.
Qed.

Lemma fees_nonneg b l results sts : Forall3 (settles b) l results sts -> 0 <= sum_of sm_fee sts.
Proof.
  induction 1 as [|p [d|e] s l results sts Hs _ IH]; cbn; [done| |]; fold (sum_of sm_fee sts).
  - destruct Hs as [_ []]. lia.
  - by rewrite Hs.
Qed.

Lemma fees_collected b K : NoDup K -> forall l results sts, Forall3 (settles b) l results sts ->
  (forall k, k ∈ locked_keys l -> k ∈ K) -> forall db fees db' fees' rs,
  db_typed db -> 0 <= fees -> fees + sum_of sm_fee sts <= U64_MAX ->
  filter_program_errors_and_collect_fee b db fees (zip (map fst l) results) = Returns (db', fees', rs) ->
  fees' - fees - prepaid_fees results sts = lam_total db K - lam_total db' K
  /\ fees <= fees' /\ db_typed db' /\ forall k, k ∉ locked_keys l -> adb_load db' k = adb_load db k.
Proof.
  intros HK l results sts Hs. induction Hs as [|[tx lock] r s l results sts Hs Hrest IH];
    intros Hin db fees db' fees' rs Hdb Hf Hmax Hc; cbn in Hc.
  { injection Hc as <- <- _. cbn. split_and!; [lia|lia|done|done]. }
  apply outcome_bind_Returns in Hc as ([db1 r1] & H1' & Hc).
  apply outcome_bind_Returns in Hc as ([[db2 fees2] rs2] & H2' & [= <- <- _]).
  cbn [locked_keys prepaid_fees] in *. cbn in Hmax. fold (sum_of sm_fee sts) in Hmax.
  assert (forall k, k ∈ locked_keys l -> k ∈ K) as Hin' by (intros k Hk; apply Hin, elem_of_app; by right).
  destruct r as [d|e]; cbn [settles] in Hs.
  2: { subst s. injection H1' as <- <-. destruct (IH Hin' _ _ _ _ _ Hdb Hf Hmax H2') as (? & ? & ? & Hk).
       cbn. split_and!; [lia|lia|done|]. intros k Hn. apply Hk. intros Hk'. apply Hn, elem_of_app. by right. }
  destruct Hs as [Hlock Hs]. cbn in Hlock. subst lock. destruct Hs. destruct se_charge0 as (k0 & Hk0 & _ & Hcf).
  cbn [fst] in *. rewrite Hcf in H1'. pose proof (fees_nonneg _ _ _ _ Hrest) as Hfn.
  assert (wrap64 (fees + sm_fee s) = fees + sm_fee s) as Hwrap by (apply wrap64_small; u_unfold; lia).
  assert (forall d1, (forall k, k ∉ locked_keys l -> adb_load db2 k = adb_load d1 k) ->
    (forall k, k <> k0 -> adb_load d1 k = adb_load db k) ->
    forall k, k ∉ stored_keys tx ++ locked_keys l -> adb_load db2 k = adb_load db k) as Hframe.
  { intros d1 He He1 k [Hk1 Hk2]%not_elem_of_app. rewrite He by done. apply He1. by intros ->. }
  assert (0 <= fees + sm_fee s) as Hf1 by lia. assert (fees + sum_of sm_fee sts <= U64_MAX) as Hmax0 by lia.
  assert (fees + sm_fee s + sum_of sm_fee sts <= U64_MAX) as Hmax1 by lia.
  cbn [prepaid]. destruct (is_ok (ted_status d) || is_some (ted_durable_nonce_fee d)).
  - injection H1' as <- <-. rewrite Hwrap in H2'.
    destruct (IH Hin' _ _ _ _ _ Hdb Hf1 Hmax1 H2') as (Heq & Hle & Hty & He).
    split_and!; [lia|lia|done|]. by apply (Hframe db).
  - apply outcome_bind_Returns in H1' as ([db3|e] & Hw & H1'); injection H1' as <- <-.
    + apply (withdraw_fee_spec _ _ _ _ _ K) in Hw as (Ht & Hty & He1); try done.
      2: { apply Hin, elem_of_app. by left. }
      rewrite Hwrap in H2'. destruct (IH Hin' _ _ _ _ _ Hty Hf1 Hmax1 H2') as (Heq & Hle & Hty' & He).
      split_and!; [lia|lia|done|]. by apply (Hframe db3).
    + destruct (IH Hin' _ _ _ _ _ Hdb Hf Hmax0 H2') as (Heq & Hle & Hty & He).
      split_and!; [lia|lia|done|]. by apply (Hframe db).
Qed.

(** The rent that is counted is the rent that was taken. *)
Lemma rent_collected loaded results sts : Forall3 rent_counted loaded results sts ->
  Forall (fun s => 0 <= sm_rent s /\ 0 <= sm_fee s /\ 0 <= sm_lost s) sts ->
  sum_of sm_rent sts <= U64_MAX -> collected_rent loaded results = sum_of sm_rent sts.
Proof.
  unfold collected_rent. intros Hr Hn Hmax. match goal with |- fold_left ?f _ _ = _ => set (count := f) end.
  enough (forall acc, 0 <= acc -> acc + sum_of sm_rent sts <= U64_MAX ->
    fold_left count (zip loaded results) acc = acc + sum_of sm_rent sts) as He by (apply (He 0); lia).
  clear Hmax. induction Hr as [|accs r s loaded results sts Hs _ IH]; intros acc Hacc Hmax; cbn [zip_with fold_left].
  { cbn. lia. }
  apply Forall_cons in Hn as [Hn Hns]. change (sum_of sm_rent (s :: sts)) with (sm_rent s + sum_of sm_rent sts) in *.
  assert (0 <= sum_of sm_rent sts) as Hnn.
  { clear -Hns. induction Hns as [|x l Hx _ IH]; cbn; [done|]. fold (sum_of sm_rent l). lia. }
  assert (count acc (accs, r) = acc + sm_rent s) as ->.
  { unfold count. destruct accs as [[lt|e] n]; cbn in Hs; [|lia].
    destruct (was_executed_successfully r); [|lia]. rewrite Hs. apply wrap64_small. u_unfold; lia. }
  rewrite IH by (done || lia). lia.
Qed.

(** The lamports of the given accounts, of the fees and of the rent. *)
Definition supply (K : list Pubkey) (b : Bank) : Z :=
  lam_total (b_accounts_db b) K + b_collector_fees b + b_collected_rent b.

Record supply_ok (K : list Pubkey) (b : Bank) : Prop := {
  so_nodup : NoDup K;
  so_typed : db_typed (b_accounts_db b);
  so_lps : lps_typed b;
  so_fees : 0 <= b_collector_fees b;
  so_rent : 0 <= b_collected_rent b;
  so_max : supply K b <= U64_MAX;
}.

(** A failed transaction with a nonce, before the rent epoch of exempt
    accounts is preserved: the rent of its accounts is not counted. *)
Definition may_lose (b : Bank) (r : TransactionExecutionResult) : bool :=
  match r with
  | Executed d => negb (active b preserve_rent_epoch_for_rent_exempt_accounts
                        || is_ok (ted_status d) || negb (is_some (ted_durable_nonce_fee d)))
  | NotExecuted _ => false
  end.

Lemma lost_bounds b l results sts : Forall3 (settles b) l results sts ->
  0 <= sum_of sm_lost sts /\ (Forall (fun r => may_lose b r = false) results -> sum_of sm_lost sts = 0).
Proof.
  induction 1 as [|p r s l results sts Hs _ [IH1 IH2]]; [done|].
  change (sum_of sm_lost (s :: sts)) with (sm_lost s + sum_of sm_lost sts).
  destruct r as [d|e]; cbn in Hs.
  - destruct Hs as [_ []]. split; [lia|]. intros [Hr Hrs]%Forall_cons. cbn in Hr.
    apply negb_false_iff in Hr. rewrite se_exact0, IH2 by done. done.
  - subst s. cbn. split; [lia|]. intros [_ Hrs]%Forall_cons. rewrite IH2 by done. done.
Qed.

(** The fees depend only on the parts of the bank that no commit changes. *)
Lemma fees_bank_update b db2 sc2 c2 l : forall db fees,
  filter_program_errors_and_collect_fee (bank_update b db2 sc2 c2) db fees l
  = filter_program_errors_and_collect_fee b db fees l.
Proof.
  induction l as [|[tx r] l IH]; intros db fees; cbn [filter_program_errors_and_collect_fee]; [done|].
  change (collect_fee (bank_update b db2 sc2 c2) db tx r) with (collect_fee b db tx r).
  destruct (collect_fee b db tx r) as [[db1 r1]|]; [|done]. cbn. by rewrite IH.
Qed.

Lemma prepaid_le b l results sts : Forall3 (settles b) l results sts ->
  0 <= prepaid_fees results sts <= sum_of sm_fee sts.
Proof.
  induction 1 as [|p r s l results sts Hs _ IH]; [done|]. cbn [prepaid_fees].
  change (sum_of sm_fee (s :: sts)) with (sm_fee s + sum_of sm_fee sts).
  assert (0 <= sm_fee s) by (destruct r as [d|e]; cbn in Hs; [by destruct Hs as [_ []]|by subst s]).
  destruct (prepaid r); lia.
Qed.

Variable random_index : Hash -> nat.

(** A commit moves lamports only between the accounts that the batch holds and
    the counters of fees and rent.  The bank may have changed since the batch
    was executed, outside of those accounts. *)
Lemma commit_conserves b db2 sc2 c2 txs locks loaded results last lps counts b' rs K :
  let b2 := bank_update b db2 sc2 c2 in
  batch_fits b txs locks -> supply_ok K b2 ->
  (forall k, k ∈ locked_keys (zip txs locks) ->
     k ∈ K /\ adb_load db2 k = adb_load (b_accounts_db b) k) ->
  Forall3 (tx_run b) (zip txs locks) loaded results ->
  commit_transactions random_index b2 txs loaded results last lps counts = Returns (b', rs) ->
  (exists db' sc' c', b' = bank_update b db' sc' c') /\ supply_ok K b'
  /\ (exists lost, 0 <= lost /\ supply K b' + lost = supply K b2
       /\ (Forall (fun r => may_lose b r = false) results -> lost = 0))
  /\ forall k, k ∉ locked_keys (zip txs locks) -> adb_load (b_accounts_db b') k = adb_load db2 k.
Proof.
  intros b2 Hfits Hok Hagree Hrun Hc. unfold commit_transactions in Hc.
  apply outcome_bind_Returns in Hc as (_ & _ & Hc). apply outcome_bind_Returns in Hc as ([db3 loaded'] & Hst & Hc).
  apply outcome_bind_Returns in Hst as ([loaded1 stored] & Hcol & [= <- <-]).
  apply outcome_bind_Returns in Hc as (sc & _ & Hc).
  apply outcome_bind_Returns in Hc as ([[db4 fees] results'] & Hfees & Hc). apply Returns_inj in Hc. injection Hc as <- _.
  destruct Hfits. apply (collect_settles b _ _ _ _ bo_typed0 txs locks) in Hcol as (sts & Hsts & -> & Hrc); [|done..].
  assert (NoDup (locked_keys (zip txs locks))) as Hnd.
  { apply locked_keys_NoDup; [|done]. eapply Forall_impl; [exact bo_messages0|]. by intros tx []. }
  pose proof (settles_batch _ _ _ _ bo_typed0 Hnd Hsts) as []. destruct (lost_bounds _ _ _ _ Hsts) as [Hl0 Hl1].
  destruct Hok. unfold supply in so_max0. cbn in so_fees0, so_rent0, so_typed0, so_max0, Hfees.
  assert (forall l, (forall k, k ∈ l -> k ∈ locked_keys (zip txs locks)) ->
    lam_total db2 l = lam_total (b_accounts_db b) l) as Hext.
  { intros l Hl. apply lam_total_ext. intros k Hk. unfold lam. by destruct (Hagree k (Hl k Hk)) as [_ ->]. }
  rewrite <- (Hext (locked_keys _)) in bs_bound0 by done. rewrite <- (Hext (map fst _)) in bs_sum0 by done.
  assert (lam_total db2 (locked_keys (zip txs locks)) <= lam_total db2 K) as Hle.
  { apply lam_total_mono; try done. intros k Hk. by apply Hagree. }
  assert (map fst (zip txs locks) = txs) as Hfst by (apply fst_zip; lia).
  pose proof (fees_nonneg _ _ _ _ Hsts) as Hfn.
  assert (0 <= sum_of sm_rent sts) as Hrn.
  { clear -bs_nonneg0. induction bs_nonneg0 as [|x l Hx _ IH]; [done|].
    change (sum_of sm_rent (x :: l)) with (sm_rent x + sum_of sm_rent l). lia. }
  rewrite <- Hfst in Hfees. unfold b2 in Hfees. rewrite fees_bank_update in Hfees.
  apply (fees_collected b K so_nodup0 _ _ _ Hsts) in Hfees as (Hf & Hf0 & Hty4 & Hframe); [|by apply Hagree| |done|lia].
  2: { by apply store_typed. }
  rewrite lam_total_store in Hf; [|done..|intros k Hk; by apply Hagree, bs_keys0].
  pose proof (lam_total_nonneg db4 K Hty4) as Hn4. rewrite (rent_collected _ _ _ Hrc) by (done || lia).
  set (R := sum_of sm_rent sts) in *. set (F := sum_of sm_fee sts) in *. set (lost := sum_of sm_lost sts) in *.
  set (c' := {| c_collector_fees := _ |}).
  assert (prepaid_fees results sts <= F) as Hpf by apply (prepaid_le b _ _ _ Hsts).
  assert (b_collector_fees (bank_update b2 db4 sc c') = c_collector_fees c2 + fees) as Ecf.
  { cbn. apply wrap64_small. u_unfold. lia. }
  assert (b_collected_rent (bank_update b2 db4 sc c') = c_collected_rent c2 + R) as Ecr.
  { cbn. apply wrap64_small. u_unfold. lia. }
  assert (supply K (bank_update b2 db4 sc c') + lost = supply K b2) as Hsupply.
  { unfold supply. rewrite Ecf, Ecr. cbn [b_accounts_db bank_update b_collector_fees b_collected_rent b2]. lia. }
  split_and!.
  - by exists db4, sc, c'.
  - split; [done|done|done|rewrite Ecf; lia|rewrite Ecr; lia|].
    enough (supply K b2 <= U64_MAX) by lia. exact so_max0.
  - exists lost. split_and!; [done|done|auto].
  - intros k Hk. cbn. rewrite Hframe by done. apply adb_load_other. auto.
Qed.

End Safety.

(** ** The arbitrage candidate *)

Abbreviation candidate := (option (SanitizedTransaction * Z)).

(** The first of the candidates with the largest profit. *)
Definition first_best (cands : list candidate) (best : candidate) : Prop :=
  match best with
  | None => Forall (fun c => c = None) cands
  | Some (tx, profit) => exists i, cands !! i = Some (Some (tx, profit))
      /\ forall j tx' profit', cands !! j = Some (Some (tx', profit')) ->
         profit' <= profit /\ ((j < i)%nat -> profit' < profit)
  end.

Lemma first_best_snoc cands best c :
  first_best cands best -> first_best (cands ++ [c]) (better_candidate best c).
Proof.
  intros Hb. destruct c as [[tx p]|]; cbn.
  - assert ((forall j tx' p', cands !! j = Some (Some (tx', p')) -> p' < p) ->
      first_best (cands ++ [Some (tx, p)]) (Some (tx, p))) as Hnew.
    { intros Hlt. exists (length cands). split; [by apply lookup_snoc_Some; right|]. intros j tx' p' Hj.
      apply lookup_snoc_Some in Hj as [[_ Hj]|[-> [= <- <-]]]; [apply Hlt in Hj|]; split; intros; lia. }
    destruct best as [[btx bp]|]; cbn in Hb.
    + destruct Hb as (i & Hi & Hmax). pose proof (lookup_lt_Some _ _ _ Hi) as Hlt.
      destruct (Z.leb_spec p bp) as [Hle|Hgt].
      * exists i. split; [by apply lookup_snoc_Some; left|]. intros j tx' p' Hj.
        apply lookup_snoc_Some in Hj as [[_ Hj]|[-> [= <- <-]]]; [eauto|split; intros; lia].
      * apply Hnew. intros j tx' p' Hj. destruct (Hmax _ _ _ Hj). lia.
    + apply Hnew. intros j tx' p' Hj. rewrite Forall_forall in Hb. by apply list_elem_of_lookup_2, Hb in Hj.
  - destruct best as [[btx bp]|]; cbn in *.
    + destruct Hb as (i & Hi & Hmax). exists i. split; [apply lookup_snoc_Some; left; split; [by eapply lookup_lt_Some|done]|].
      intros j tx' p' Hj. apply lookup_snoc_Some in Hj as [[_ Hj]|[_ [=]]]. eauto.
    + apply Forall_app. split; [done|]. by constructor.
Qed.

Section Candidates.
Context `{AccountsDb} `{Bincode UpgradeableLoaderState} `{BudgetCodec} `{Bincode NonceVersions}.
Context `{OnChain} `{Signing} `{SystemCodec} `{NonceHash}.
Variable builtin_programs : list BuiltinProgram.
Variable native_loader : Entrypoint.

Definition pools_before (mev : option Mev) (before : LoadedTransaction)
    : outcome (option (result ProgramError PoolStates)) :=
  match mev with Some _ => get_all_orca_monitored_accounts before | None => Returns None end.

(** What the search after one transaction found, on the pools as loaded before
    it and the accounts as its execution left them; nothing when the
    transaction was not executed. *)
Definition searched (b : Bank) (mev : option Mev) (p : SanitizedTransaction * TransactionLoadResult)
    (r : TransactionExecutionResult) (c : candidate) : Prop :=
  match r with
  | NotExecuted _ => c = None
  | Executed _ => exists before nonce budget pre after msgs, p.2 = (Ok before, nonce)
      /\ pools_before mev before = Returns pre
      /\ execute_loaded_transaction builtin_programs native_loader b p.1 before budget
           (durable_nonce_fee_from <$> nonce) = Returns (after, r)
      /\ mev_search b mev p.1 pre after r = Returns (msgs, c)
  end.

Lemma execute_loop_candidates b mev : forall l s s' cands0,
  first_best cands0 (es_mev_sanitized_tx_profit s) ->
  execute_loop builtin_programs native_loader b mev l s = Returns s' ->
  exists results cands, es_results s' = es_results s ++ results
    /\ Forall3 (searched b mev) l results cands
    /\ first_best (cands0 ++ cands) (es_mev_sanitized_tx_profit s').
Proof.
  induction l as [|[tx accs] l IH]; intros s s' cands0 Hb Hl; cbn in Hl.
  { injection Hl as <-. exists [], []. rewrite !app_nil_r. split_and!; [done|constructor|done]. }
  apply outcome_bind_Returns in Hl as (s1 & H1' & Hl).
  assert (exists r c, es_results s1 = es_results s ++ [r] /\ searched b mev (tx, accs) r c
    /\ es_mev_sanitized_tx_profit s1 = better_candidate (es_mev_sanitized_tx_profit s) c) as (r & c & E1 & Hs & E2).
  { unfold execute_one in H1'. destruct accs as [[lt|e] nonce].
    2: { injection H1' as <-. by exists (NotExecuted e), None. }
    apply outcome_bind_Returns in H1' as ([budget|e] & _ & H1').
    2: { injection H1' as <-. by exists (NotExecuted e), None. }
    apply outcome_bind_Returns in H1' as (pre & Hp & H1').
    apply outcome_bind_Returns in H1' as ([lt' r] & He & H1').
    apply outcome_bind_Returns in H1' as ([msgs c] & Hm & [= <-]). exists r, c. split_and!; try done.
    destruct r as [d|e]; cbn; [by exists lt, nonce, budget, pre, lt', msgs|]. unfold mev_search in Hm. by destruct pre as [[]|]; injection Hm as _ <-. }
  apply (IH s1 s' (cands0 ++ [c])) in Hl as (results & cands & Hre & Hf & Hbest); [|rewrite E2; by apply first_best_snoc].
  exists (r :: results), (c :: cands). rewrite Hre, E1, <- !app_assoc in *. split_and!; [done|by constructor|done].
Qed.

End Candidates.

(** ** Properties *)

(** C24: The arbitrage transaction of a batch is the first most profitable one.
    Each executed transaction of the batch, also one that failed, contributes
    what the search after it found; one that was not executed contributes
    nothing.  What
    the batch answers is the candidate of largest profit, the earliest one
    among equals, and nothing exactly when no search found anything. *)
Theorem mev_candidate_first_best `{AccountsDb} `{Bincode UpgradeableLoaderState} `{BudgetCodec}
    `{Bincode NonceVersions} `{OnChain} `{Signing} `{SystemCodec} `{NonceHash}
    (builtin_programs : list BuiltinProgram) (native_loader : Entrypoint) (b : Bank)
    (txs : list SanitizedTransaction) (lock_results : list (result TransactionError unit)) (max_age : nat)
    (account_overrides : Pubkey -> option AccountSharedData) (mev : option Mev)
    (out : LoadAndExecuteTransactionsOutput) (msgs : list MevMsg)
    (Hrun : load_and_execute_transactions builtin_programs native_loader b txs lock_results max_age
              account_overrides mev = Returns (out, msgs)) :
  exists checks loaded cands, check_transactions b txs lock_results max_age = Returns checks
    /\ load_accounts (b_accounts_db b) (b_rent_collector b) (b_feature_set b) account_overrides
         (b_blockhash_queue b) (b_fee_structure b) txs checks = Returns loaded
    /\ Forall3 (searched builtin_programs native_loader b mev) (zip txs loaded) (lo_execution_results out) cands
    /\ match lo_mev_sanitized_tx_profit out with
       | None => Forall (fun c => c = None) cands
       | Some (tx, profit) => exists i, cands !! i = Some (Some (tx, profit))
           /\ forall j tx' profit', cands !! j = Some (Some (tx', profit')) ->
              profit' <= profit /\ ((j < i)%nat -> profit' < profit)
       end.
Proof.
  unfold load_and_execute_transactions in Hrun. apply outcome_bind_Returns in Hrun as (checks & Hc & Hrun).
  apply outcome_bind_Returns in Hrun as (loaded & Hl & Hrun). apply outcome_bind_Returns in Hrun as (s & Hs & Hrun).
  injection Hrun as <- _. cbn [lo_execution_results lo_mev_sanitized_tx_profit]. exists checks, loaded.
  apply (execute_loop_candidates _ _ _ _ _ _ _ []) in Hs as (results & cands & -> & Hf & Hb); [|by apply Forall_nil_2].
  exists cands. split_and!; [done..|exact Hb].
Qed.

Lemma mev_candidate_first_best_witness :
  exists out msgs tx profit,
    load_and_execute_transactions BankSample.programs BankSample.no_loader BankSample.pools_bank
      [BankSample.monitored BankSample.tx1; BankSample.tx2; BankSample.monitored BankSample.tx3]
      [Ok tt; Ok tt; Ok tt] 150 (fun _ => None) (Some MevCorrect.Sample.monitoring_mev) = Returns (out, msgs)
    /\ lo_mev_sanitized_tx_profit out = Some (tx, profit)
    /\ exists (cands : list candidate) i, cands !! i = Some (Some (tx, profit))
        /\ forall j tx' profit', cands !! j = Some (Some (tx', profit')) ->
           profit' <= profit /\ ((j < i)%nat -> profit' < profit).
Proof.
  destruct (load_and_execute_transactions BankSample.programs BankSample.no_loader BankSample.pools_bank
      [BankSample.monitored BankSample.tx1; BankSample.tx2; BankSample.monitored BankSample.tx3]
      [Ok tt; Ok tt; Ok tt] 150 (fun _ => None) (Some MevCorrect.Sample.monitoring_mev)) as [[out msgs]|] eqn:Hrun.
  - assert (match lo_mev_sanitized_tx_profit out with Some _ => true | None => false end = true) as Hm.
    { apply (f_equal (fun o => match o with Returns (out, _) => match lo_mev_sanitized_tx_profit out with Some _ => true | None => false end | Panics => false end)) in Hrun.
      rewrite <- Hrun. by vm_compute. }
    destruct (lo_mev_sanitized_tx_profit out) as [[tx profit]|] eqn:Hp; [|done].
    exists out, msgs, tx, profit. split_and!; [done|done|].
    destruct (mev_candidate_first_best _ _ _ _ _ _ _ _ _ _ Hrun) as (_ & _ & cands & _ & _ & _ & Hb).
    rewrite Hp in Hb. by exists cands.
  - exfalso. apply (f_equal (fun o => match o with Returns _ => true | Panics => false end)) in Hrun.
    revert Hrun. vm_compute. discriminate.
Defined.
