(* ===== verification/MevCandidate.v ===== *)
(** * The accounts of an arbitrage transaction

    The transactions that the bank crafts enter the block like any other, so
    they have to be as well formed as sanitized ones.  This file follows the
    keys from the configuration of [Mev] through loading (AccountsLoad.v),
    the reading of the pools and the search (Mev.v) to the compiled message,
    and shows that a crafted transaction is well formed and writes only
    accounts of the configured pools and the account of its payer. *)

From S2P Require Import Prelude Keys Message Errors InstructionsSysvar Transaction AccountLocks Float64 ComputeBudget Account Invocation Nonce SystemProgram EpochSchedule RentCollector BlockhashQueue StatusCache PreAccount Runtime RuntimeSafety Arbitrage Mev MevCorrect AccountsLoad AccountsLoadSafety Bank BankSample BankSafety.

(** [SwapInstruction::pack] answers bytes. *)
Class TokenSwapBytes `(TokenSwap) : Prop :=
  pack_swap_bytes : forall amount minimum, Forall u8 (pack_swap amount minimum).

(** ** Lemmas: the map of writable accounts *)

(** The map gives the position at which an account was loaded. *)
Definition indexed (wm : gmap N nat) (accs : list TransactionAccount) : Prop :=
  forall k i, wm !! k = Some i -> accs.*1 !! i = Some k.

Lemma indexed_app wm accs extra : indexed wm accs -> indexed wm (accs ++ extra).
Proof. intros Hi k i Hk. rewrite fmap_app. apply lookup_app_l_Some. auto. Qed.

Lemma indexed_snoc wm accs k a : indexed wm accs -> indexed (<[k := length accs]> wm) (accs ++ [(k, a)]).
Proof.
  intros Hi k' i [[<- <-]|[_ Hk]]%lookup_insert_Some; [|by eapply indexed_app].
  rewrite fmap_app, lookup_app_r by (by rewrite length_fmap). by rewrite length_fmap, Nat.sub_diag.
Qed.

Section Loading.
Context `{AccountsDb} `{Bincode UpgradeableLoaderState} `{BudgetCodec} `{Bincode NonceVersions}.
Variable db : adb.
Variable rc : RentCollector.
Variable fs : FeatureSet.
Variable overrides : Pubkey -> option AccountSharedData.

Lemma load_existing_map i key w wm a rent wm' :
  load_existing db rc fs overrides i key w wm = (a, rent, wm') -> wm' = wm \/ wm' = <[key := i]> wm.
Proof.
  unfold load_existing. destruct (overrides key); [intros [= _ _ <-]; by left|].
  destruct (load_with_fixed_root _ _ _) as [[acc slot]|]; [|intros [= _ _ <-]; by left].
  destruct w; [|intros [= _ _ <-]; by left].
  destruct (collect_from_existing_account _ _ _ _ _). intros [= _ _ <-]. by right.
Qed.

Definition load_indexed (s : LoadState) : Prop := indexed (ls_mev_writable_accounts_map s) (ls_accounts s).

Lemma load_account_indexed m fee i key s s' :
  length (ls_accounts s) = i -> load_indexed s ->
  load_account db rc fs overrides m fee i key s = Returns (Ok s') ->
  length (ls_accounts s') = S i /\ load_indexed s'.
Proof.
  intros Hlen Hi Hl. unfold load_account in Hl.
  assert (forall a, length (ls_accounts (push_account s key a)) = S i /\ load_indexed (push_account s key a)) as Hpush.
  { intros a. cbn. rewrite length_app. cbn. split; [lia|]. by apply indexed_app. }
  destruct (negb _); [by injection Hl as <-|]. destruct (N.eqb _ _).
  { by apply outcome_bind_Returns in Hl as (a & _ & [= <-]). }
  apply outcome_bind_Returns in Hl as (w & _ & Hl).
  destruct (load_existing _ _ _ _ _ _ _ _) as [[a rent] wm] eqn:Ee. apply load_existing_map in Ee.
  destruct (if ls_validated_fee_payer s then _ else _) as [a'|]; [|done]. cbn in Hl.
  destruct (load_deps _ _ _ _ _) as [deps|]; [|done]. injection Hl as <-. cbn. rewrite length_app. cbn.
  split; [lia|]. unfold load_indexed. cbn. subst i. destruct Ee as [-> | ->]; [by apply indexed_app|by apply indexed_snoc].
Qed.

Lemma load_loop_indexed m fee : forall keys i s s',
  length (ls_accounts s) = i -> load_indexed s ->
  load_loop db rc fs overrides m fee i keys s = Returns (Ok s') -> load_indexed s'.
Proof.
  induction keys as [|key keys IH]; intros i s s' Hlen Hi Hl; cbn in Hl; [by injection Hl as <-|].
  destruct (load_account _ _ _ _ _ _ _ _ _) as [[s1|]|] eqn:Hs1; try done. cbn in Hl.
  apply load_account_indexed in Hs1 as [Hlen1 Hi1]; [|done|done]. by eapply IH.
Qed.

Lemma load_chain_extends depth : forall accounts pid indices accounts' indices',
  load_chain db fs depth accounts pid indices = Ok (accounts', indices') -> exists extra, accounts' = accounts ++ extra.
Proof.
  induction depth as [|depth IH]; intros accounts pid indices accounts' indices'; cbn [load_chain];
    destruct (N.eqb pid native_loader_id); try done; try (intros [= <- _]; exists []; by rewrite app_nil_r).
  destruct (load_with_fixed_root _ _ _) as [[program slot]|]; [|done]. destruct (negb _); [done|].
  destruct (N.eqb _ _).
  - destruct (state program) as [[| |pda|]|]; try done. destruct (load_with_fixed_root _ _ _) as [[pd slot']|]; [|done].
    intros (extra & ->)%IH. rewrite <- !app_assoc. by eexists.
  - intros (extra & ->)%IH. rewrite <- !app_assoc. by eexists.
Qed.

Lemma load_programs_extends ixs : forall accounts accounts' indices,
  load_programs db fs accounts ixs = Returns (Ok (accounts', indices)) -> exists extra, accounts' = accounts ++ extra.
Proof.
  induction ixs as [|ix ixs IH]; intros accounts accounts' indices Hl; cbn in Hl.
  { injection Hl as <- _. exists []. by rewrite app_nil_r. }
  destruct (load_executable_accounts _ _ _ _) as [[[acc1 ind1]|]|] eqn:E1; try done. cbn in Hl.
  destruct (load_programs db fs acc1 ixs) as [[[acc2 ind2]|]|] eqn:E2; try done. cbn in Hl. injection Hl as <- _.
  apply outcome_bind_Returns in E1 as ([pid a] & _ & E1). apply Returns_inj, load_chain_extends in E1 as (e1 & ->).
  apply IH in E2 as (e2 & ->). rewrite <- app_assoc. by eexists.
Qed.

(** The monitored accounts of a loaded transaction are the configured ones,
    and the map points at the loaded accounts. *)
Definition monitored_by (mk : option MevKeys) (lt : LoadedTransaction) : Prop :=
  exists load wm, lt_mev_accounts lt = get_accounts_data load wm <$> mk /\ indexed wm (lt_accounts lt).

Lemma load_transaction_monitored tx fee lt :
  load_transaction db rc fs overrides tx fee = Returns (Ok lt) -> monitored_by (st_mev_keys tx) lt.
Proof.
  unfold load_transaction. destruct (_ && _); [done|].
  destruct (load_loop _ _ _ _ _ _ _ _ _) as [[s|]|] eqn:Hloop; try done. cbn.
  apply load_loop_indexed in Hloop; [|done|intros k i Hk; cbn in Hk; by rewrite lookup_empty in Hk].
  destruct (ls_validated_fee_payer s); [|done].
  destruct (load_programs _ _ _ _) as [[[accs pis]|]|] eqn:Hp; try done. cbn. intros [= <-].
  apply load_programs_extends in Hp as (extra & ->). eexists _, _. split; [done|]. cbn. by do 2 apply indexed_app.
Qed.

Variable bq : BlockhashQueue.
Variable fees : FeeStructure.

Lemma load_checked_monitored tx check lt nonce :
  load_checked db rc fs overrides bq fees tx check = Returns (Ok lt, nonce) -> monitored_by (st_mev_keys tx) lt.
Proof.
  unfold load_checked. destruct check as [[[]|e] np]; [|done].
  destruct (match np with Some _ => _ | None => _ end) as [lps|]; [|done].
  intros Hl. apply outcome_bind_Returns in Hl as (fee & _ & Hl). apply outcome_bind_Returns in Hl as ([lt'|e] & Hlt & Hl); [|done].
  apply load_transaction_monitored in Hlt. destruct np as [np|]; [|by injection Hl as <- _].
  destruct (from_partial _ _ _ _); [|done]. by injection Hl as <- _.
Qed.

End Loading.

(** ** Lemmas: the keys of the pools *)

(** The accounts that a swap against a pool writes. *)
Definition pool_writes (pk : MevPoolKeys) : list Pubkey :=
  [mpk_token_a pk; mpk_token_b pk; mpk_pool_mint pk; mpk_pool_fee pk]
  ++ option_list (mpk_source pk) ++ option_list (mpk_destination pk).

Section Pools.
Context `{OnChain}.

Definition pool_is (pk : MevPoolKeys) (p : OrcaPoolAddresses) : Prop :=
  pool_a_account p = mpk_token_a pk /\ pool_b_account p = mpk_token_b pk /\ pool_mint p = mpk_pool_mint pk
  /\ pool_fee p = mpk_pool_fee pk /\ source p = mpk_source pk /\ destination p = mpk_destination pk.

Lemma get_account_key lt load wm mk k acc :
  indexed wm (lt_accounts lt) -> get_account lt (get_accounts_data load wm mk) k = Returns acc -> acc.1 = k.
Proof.
  intros Hi. unfold get_account. rewrite lookup_accounts_data. case_decide; [|done]. cbn. unfold mev_entry.
  destruct (wm !! k) as [i|] eqn:E.
  - apply Hi in E. rewrite list_lookup_fmap in E. destruct (lt_accounts lt !! i) as [a|]; [|done].
    injection E as E. by intros [= <-].
  - destruct (default _ _). by intros [= <-].
Qed.

Lemma owned_account_key lt load wm mk o r :
  indexed wm (lt_accounts lt) -> owned_token_account lt (get_accounts_data load wm mk) o = Returns (Ok r) ->
  fst <$> r = o.
Proof.
  intros Hi Ho. destruct o as [k|]; cbn in Ho; [|by injection Ho as <-].
  apply outcome_bind_Returns in Ho as ([k' a] & Hk & Ho). apply get_account_key in Hk; [|done]. cbn in Hk. subst k'.
  destruct (token_unpack _); [|done]. by injection Ho as <-.
Qed.

Lemma read_pool_is lt load wm mk pk k st :
  indexed wm (lt_accounts lt) ->
  read_pool lt (get_accounts_data load wm mk) (pool_accounts_of pk) = Returns (Ok (k, st)) -> pool_is pk (pool st).
Proof.
  intros Hi Hr. unfold read_pool in Hr. apply outcome_bind_Returns in Hr as (acc1 & _ & Hr).
  destruct (swap_unpack _) as [[fs c]|]; cbn [try_] in Hr; [|done].
  apply outcome_bind_Returns in Hr as (acc2 & K2 & Hr). destruct (token_unpack _); cbn [try_] in Hr; [|done].
  apply outcome_bind_Returns in Hr as (acc3 & K3 & Hr). destruct (token_unpack _); cbn [try_] in Hr; [|done].
  apply outcome_bind_Returns in Hr as ([src|] & K4 & Hr); cbn [try_] in Hr; [|done].
  apply outcome_bind_Returns in Hr as ([dst|] & K5 & Hr); cbn [try_] in Hr; [|done].
  apply outcome_bind_Returns in Hr as (acc4 & K6 & Hr). apply outcome_bind_Returns in Hr as (acc5 & K7 & [= _ <-]).
  apply get_account_key in K2, K3, K6, K7; [|done..]. apply owned_account_key in K4, K5; [|done..]. done.
Qed.

(** Every pool that was read is a configured one. *)
Definition pools_from (pks : list MevPoolKeys) (ps : PoolStates) : Prop :=
  forall k st, ps !! k = Some st -> exists pk, pk ∈ pks /\ pool_is pk (pool st).

Lemma collect_pools_from lt load wm mk pks : indexed wm (lt_accounts lt) ->
  forall l acc ps, (forall pk, pk ∈ l -> pk ∈ pks) -> pools_from pks acc ->
  collect_pools lt (get_accounts_data load wm mk) (map pool_accounts_of l) acc = Returns (Ok ps) -> pools_from pks ps.
Proof.
  intros Hi. induction l as [|pk l IH]; intros acc ps Hin Hacc Hc; cbn in Hc; [by injection Hc as <-|].
  apply outcome_bind_Returns in Hc as ([[k st]|] & Hr & Hc); [|done]. apply read_pool_is in Hr; [|done].
  eapply IH; [intros pk' Hpk'; apply Hin; by right| |exact Hc].
  intros k' st' [->|Hk']%pool_states_insert; [|by eapply Hacc]. exists pk. split; [apply Hin; by left|done].
Qed.

Lemma monitored_pools_from mk lt ps :
  monitored_by mk lt -> get_all_orca_monitored_accounts lt = Returns (Some (Ok ps)) ->
  exists k, mk = Some k /\ pools_from (mk_pool_keys k) ps.
Proof.
  intros (load & wm & Hma & Hi) Hg. unfold get_all_orca_monitored_accounts in Hg. rewrite Hma in Hg.
  destruct mk as [k|]; [|done]. cbn in Hg. apply outcome_bind_Returns in Hg as (r & Hc & [= ->]).
  exists k. split; [done|]. eapply collect_pools_from; [exact Hi| | |exact Hc]; [done|].
  intros k' st Hk. unfold PoolStates in *. by rewrite lookup_empty in Hk.
Qed.

End Pools.

(** ** Lemmas: the arguments of the swaps *)

(** The accounts that a swap writes. *)
Definition arg_writes (a : SwapArguments) : list Pubkey :=
  [source_pubkey a; swap_source_pubkey a; swap_destination_pubkey a; destination_pubkey a;
   pool_mint_pubkey a; pool_fee_pubkey a].

Lemma arg_writes_from `{TokenSwap} pks ps p a :
  pools_from pks ps -> arg_for ps p a -> forall k, k ∈ arg_writes a -> k ∈ concat (map pool_writes pks).
Proof.
  intros Hps (st & Hst & _ & _ & Hacc & Hmint & Hfee) k Hk. destruct (Hps _ _ Hst) as (pk & Hpk & Ha & Hb & Hm & Hf & Hs & Hd).
  apply list_elem_of_In, in_concat. exists (pool_writes pk). split; [apply in_map; by apply list_elem_of_In|].
  apply list_elem_of_In. unfold pool_writes, swap_accounts, arg_writes in *.
  rewrite <- Ha, <- Hb, <- Hm, <- Hf, <- Hs, <- Hd, <- Hmint, <- Hfee.
  destruct (pi_direction p); injection Hacc as -> -> -> ->; cbn [option_list]; set_solver.
Qed.

Lemma simulate_args `{TokenSwap} ps po path first fp initial s :
  simulate_path ps po path = Some (first, fp, initial, s) -> length (ss_args s) = length (mp_path path) ->
  Forall2 (arg_for ps) (mp_path path) (ss_args s).
Proof.
  unfold simulate_path. intros E. apply bind_Some in E as (p & Hp & E). apply bind_Some in E as (st & Hst & E).
  apply bind_Some in E as (s1 & Hs1 & E). injection E as <- <- <- <-. cbn. rewrite set_last_minimum_length. intros Hlen.
  pose proof (loop_inv_loop _ _ _ [] _ _ (loop_inv_init ps _) Hs1) as [_ _ Hf _ _]. apply set_last_arg_for. by apply Hf.
Qed.

(** ** Lemmas: the crafted message *)

Lemma sanitized_programs len cis :
  legacy_sanitize_instructions len cis = Ok tt -> Forall (fun ci => program_id_index ci <> 0%nat) cis.
Proof.
  induction cis as [|ci cis IH]; cbn; [constructor|]. destruct (_ <=? _)%nat; [done|].
  destruct (Nat.eqb_spec (program_id_index ci) 0); [done|]. destruct (existsb _ _); [done|]. constructor; auto.
Qed.

Lemma elem_of_pick_lookup {A} m (x : A) : forall l i, x ∈ pick m i l ->
  exists j, l !! j = Some x /\ stored_index m (i + j)%nat = true.
Proof.
  induction l as [|y l IH]; intros i Hx; cbn in Hx; [by apply not_elem_of_nil in Hx|].
  assert (x ∈ pick m (S i) l -> exists j, (y :: l) !! j = Some x /\ stored_index m (i + j)%nat = true) as Hrest.
  { intros (j & Hj & Hs)%IH. exists (S j). split; [done|]. by replace (i + S j)%nat with (S i + j)%nat by lia. }
  destruct (stored_index m i) eqn:E; [|auto]. apply elem_of_cons in Hx as [->|Hx]; [|auto].
  exists 0%nat. by rewrite Nat.add_0_r.
Qed.

Lemma legacy_keys m : message_keys (SanitizedLegacy m) = lm_account_keys m.
Proof. unfold account_keys_iter, key_segment_iter. cbn. by rewrite app_nil_r. Qed.

Section Crafted.
Context `{TokenSwap} `{!TokenSwapBytes _} `{!Signing} `{!SigningLaws _}.

(** A payer whose account can be written. *)
Definition can_pay (key : Pubkey) : Prop :=
  is_sysvar_id key = false /\ key ∉ BUILTIN_PROGRAMS_KEYS.

Record crafted (args : list SwapArguments) (kp : Keypair) (m : LegacyMessage) : Prop := {
  cr_message : exists bh, message_for (map (swap_instruction (keypair_pubkey kp)) args) (keypair_pubkey kp) bh m;
  cr_sanitized : legacy_sanitize m = Ok tt;
  cr_signatures : num_required_signatures (lm_header m) = 1%nat;
  cr_readonly : num_readonly_signed_accounts (lm_header m) = 0%nat;
  cr_length : (length (lm_account_keys m) <= 255)%nat;
}.

Lemma create_swap_tx_crafted args bh kp tx :
  (length args <= 25)%nat -> create_swap_tx args bh kp = Returns tx ->
  exists m, st_message tx = SanitizedLegacy m /\ st_mev_keys tx = None /\ crafted args kp m.
Proof.
  intros Hlen Hc. unfold create_swap_tx, new_signed_with_payer, legacy_new in Hc.
  set (user := keypair_pubkey kp) in *. set (ixs := map (swap_instruction user) args) in *.
  pose proof (swap_keys_bound args user) as Hb. fold ixs in Hb.
  destruct (legacy_new_with_blockhash_sanitized ixs user 0%N) as (m & Hm' & Hm); [lia|]. rewrite Hm' in Hc.
  assert (num_required_signatures (lm_header m) = 1%nat) as Hreq.
  { rewrite (mf_signed _ _ _ _ Hm). unfold compile_keys; cbn.
    rewrite !keys_with_signer_nil by (intros; by eapply swap_signers). done. }
  cbn [mbind outcome_bind] in Hc. rewrite transaction_new_single in Hc by (done || apply Hm).
  unfold try_from_legacy_transaction, transaction_sanitize in Hc. cbn -[legacy_sanitize] in Hc.
  destruct (_ <? _)%nat; [done|]. destruct (_ <? _)%nat; [done|].
  destruct (legacy_sanitize (set_blockhash m bh)) as [[]|] eqn:Hs; cbn in Hc; [|done]. injection Hc as <-.
  exists (set_blockhash m bh). split_and!; [done|done|]. split; [|done|done| |].
  - exists bh. by split; try apply Hm.
  - cbn. rewrite (mf_readonly_signed _ _ _ _ Hm). unfold compile_keys. cbn.
    by rewrite keys_with_signer_nil by (intros; by eapply swap_signers).
  - cbn. rewrite (mf_keys _ _ _ _ Hm), compiled_list_length. lia.
Qed.

Lemma crafted_not_called args kp m : crafted args kp m -> legacy_is_key_called_as_program m 0 = false.
Proof.
  intros []. unfold legacy_sanitize in cr_sanitized0. repeat (destruct (_ <? _)%nat in cr_sanitized0; [done|]).
  destruct (_ <=? _)%nat in cr_sanitized0; [done|]. apply sanitized_programs in cr_sanitized0.
  unfold legacy_is_key_called_as_program. cbn. apply not_true_is_false. intros (ci & Hin & Heq)%existsb_exists.
  rewrite Forall_forall in cr_sanitized0. apply (cr_sanitized0 ci); [by apply list_elem_of_In|]. by apply Nat.eqb_eq.
Qed.

Lemma crafted_payer_stored args kp m :
  crafted args kp m -> can_pay (keypair_pubkey kp) -> stored_index (SanitizedLegacy m) 0 = true.
Proof.
  intros Hc [Hsys Hprog]. pose proof (crafted_not_called _ _ _ Hc) as Hcall. destruct Hc as [[bh []]].
  unfold stored_index, message_is_non_loader_key, message_is_invoked. cbn [message_is_writable].
  rewrite Hcall. cbn [negb orb]. rewrite ?orb_true_r. cbn [andb]. unfold legacy_is_writable.
  rewrite Hcall, cr_signatures0, cr_readonly0. cbn [Z.of_nat Pos.of_succ_nat].
  replace (0 <? wrap8 (1 - 0)) with true by done. cbn [orb]. rewrite mf_payer. cbn [unwrap mbind outcome_bind]. rewrite Hsys.
  rewrite existsb_eqb_elem, bool_decide_false by done. done.
Qed.

Lemma crafted_ok args kp m :
  crafted args kp m -> can_pay (keypair_pubkey kp) -> message_ok (SanitizedLegacy m).
Proof.
  intros Hc Hpay. pose proof (crafted_payer_stored _ _ _ Hc Hpay) as Hst. destruct Hc as [[bh []]].
  split; rewrite ?legacy_keys; cbn [message_instructions]; try done.
  - lia.
  - apply Forall_forall. intros ci Hci. apply list_elem_of_lookup in Hci as [n Hn].
    destruct (Forall2_lookup_r _ _ _ _ _ mf_instructions Hn) as (ix & _ & _ & Ha & _).
    apply Forall_forall. intros i Hi. apply list_elem_of_lookup in Hi as [j Hj].
    destruct (Forall2_lookup_r _ _ _ _ _ Ha Hj) as (am & _ & Ham). by apply lookup_lt_Some in Ham.
  - apply Forall_forall. intros ci Hci. apply list_elem_of_lookup in Hci as [n Hn].
    destruct (Forall2_lookup_r _ _ _ _ _ mf_instructions Hn) as (ix & Hix & _ & _ & ->).
    apply list_elem_of_lookup_2, list_elem_of_In, in_map_iff in Hix as (a & <- & _). apply pack_swap_bytes.
  - intros E. by rewrite E in mf_payer.
Qed.

(** A crafted transaction writes what its swaps write, and its payer. *)
Lemma crafted_writes args kp m k :
  crafted args kp m -> k ∈ pick (SanitizedLegacy m) 0 (message_keys (SanitizedLegacy m)) ->
  k = keypair_pubkey kp \/ exists a, a ∈ args /\ k ∈ arg_writes a.
Proof.
  intros [[bh Hm]] Hk. rewrite legacy_keys in Hk.
  apply elem_of_pick_lookup in Hk as (i & Hi & Hst). rewrite Nat.add_0_l in Hst.
  unfold stored_index in Hst. apply andb_true_iff in Hst as [_ Hw]. cbn in Hw.
  destruct (legacy_is_writable m i) as [[]|] eqn:Hwr; try done.
  destruct (message_for_writable _ _ _ _ _ _ Hm cr_length0 Hi Hwr) as [->|(ix & am & Hix & Ham & <- & Haw)]; [by left|right].
  apply list_elem_of_In, in_map_iff in Hix as (a & <- & Ha). exists a. split; [by apply list_elem_of_In|].
  apply list_elem_of_In in Ham. cbn in Ham. unfold arg_writes.
  repeat (destruct Ham as [<-|Ham]; [by cbn in Haw |- *; try done; set_solver|]). done.
Qed.

End Crafted.

(** ** Lemmas: the candidates of a batch *)

Section Search.
Context `{AccountsDb} `{Bincode UpgradeableLoaderState} `{BudgetCodec} `{Bincode NonceVersions}.
Context `{OnChain} `{!TokenSwapBytes _} `{!Signing} `{!SigningLaws _} `{SystemCodec} `{NonceHash}.
Variable builtin_programs : list BuiltinProgram.
Variable native_loader : Entrypoint.

(** Execution keeps the keys of the accounts. *)
Lemma execute_monitored b tx lt budget dnf lt' r mk :
  execute_loaded_transaction builtin_programs native_loader b tx lt budget dnf = Returns (lt', r) ->
  monitored_by mk lt -> monitored_by mk lt'.
Proof.
  intros Hx (load & wm & Hma & Hi). unfold execute_loaded_transaction in Hx.
  apply outcome_bind_Returns in Hx as (pre & _ & Hx). apply outcome_bind_Returns in Hx as ([bh lps] & _ & Hx).
  apply outcome_bind_Returns in Hx as ([[rt u] pr] & Hrun & Hx).
  apply outcome_bind_Returns in Hx as (status & _ & Hx). apply Returns_inj in Hx. injection Hx as <- _.
  exists load, wm. split; [done|]. intros k i Hk. apply Hi in Hk. cbn [lt_accounts].
  apply message_keys_kept in Hrun as [Hkeys Hl]. cbn in Hkeys, Hl. unfold deconstruct. rewrite Hkeys.
  change (@fmap list _ ?A ?B) with (@map A B) in *. rewrite fst_zip; [done|]. by rewrite Hl, !length_map.
Qed.

(** A configuration whose transactions can be built and paid. *)
Record mev_ok (self : Mev) : Prop := {
  mk_paths : forall p, p ∈ mev_paths self -> (length (mp_path p) <= 25)%nat;
  mk_payer : forall kp, user_authority self = Some kp -> can_pay (keypair_pubkey kp);
}.

(** The keys that an arbitrage transaction may write. *)
Definition mev_writes (self : Mev) : list Pubkey :=
  option_list (keypair_pubkey <$> user_authority self)
  ++ concat (map (fun p => pool_writes (mev_pool_keys p)) (orca_monitored_accounts self)).

Definition marked_by (self : Mev) (tx : SanitizedTransaction) : Prop :=
  st_mev_keys tx = None \/ st_mev_keys tx = Some (mev_keys_of self).

(** What a crafted transaction promises to the banks and threads that will
    process it. *)
Definition candidate_ok (self : Mev) (tx : SanitizedTransaction) : Prop :=
  message_ok (st_message tx) /\ st_mev_keys tx = None
  /\ forall k, k ∈ stored_keys tx -> k ∈ mev_writes self.

Lemma path_candidate_ok self ps bh i path o tx :
  mev_ok self -> path ∈ mev_paths self -> pools_from (mk_pool_keys (mev_keys_of self)) ps ->
  arbitrage_for_path self ps bh i path = Returns (Some o) -> mto_sanitized_tx o = Some tx -> candidate_ok self tx.
Proof.
  intros [Hpaths Hpay] Hpath Hps Hp Htx.
  apply arbitrage_for_path_Some in Hp as (po & first & fp & initial & s & _ & Hsim & _ & _ & _ & _ & _ & Hcase).
  destruct Hcase as [(Hlen & kp & tx' & Hkp & Hc & Ho)|[_ Ho]]; rewrite Htx in Ho; [injection Ho as <-|done].
  apply create_swap_tx_crafted in Hc as (m & Hm & Hnone & Hcr); [|rewrite Hlen; by apply Hpaths].
  pose proof (simulate_args _ _ _ _ _ _ _ Hsim Hlen) as Hargs. unfold candidate_ok, stored_keys, mev_writes.
  rewrite Hm, Hkp. split_and!; [by eapply crafted_ok, Hpay|done|]. intros k Hk.
  apply (crafted_writes _ _ _ _ Hcr) in Hk as [->|(a & Ha & Hk)]; cbn [fmap option_fmap option_map option_list];
    apply elem_of_cons; [by left|right].
  apply list_elem_of_lookup in Ha as [n Hn]. destruct (Forall2_lookup_r _ _ _ _ _ Hargs Hn) as (p & _ & Harg).
  eapply (arg_writes_from _ _ _ _ Hps Harg) in Hk. cbn in Hk. by rewrite map_map in Hk.
Qed.

Lemma search_candidate_ok self tx slot pre lt bh msgs ctx profit :
  mev_ok self -> marked_by self tx -> monitored_by (st_mev_keys tx) lt ->
  log_mev_opportunities_get_max_profit_tx self tx slot pre lt bh = Returns (msgs, Some (ctx, profit)) ->
  candidate_ok self ctx.
Proof.
  intros Hok Hmk Hmon Hl. unfold log_mev_opportunities_get_max_profit_tx in Hl.
  apply outcome_bind_Returns in Hl as ([[ps|]|] & Hg & Hl); try done.
  destruct (monitored_pools_from _ _ _ Hmon Hg) as (k & Hk & Hps).
  assert (k = mev_keys_of self) as -> by (destruct Hmk; congruence).
  apply outcome_bind_Returns in Hl as (outs & Ho & Hl). apply outcome_bind_Returns in Hl as (sig & _ & Hl).
  destruct (max_by_profit None 0 outs) as [[j best]|] eqn:Emax; [|done].
  destruct (mto_sanitized_tx best) as [btx|] eqn:Ebest; [|done]. injection Hl as _ <- _.
  apply max_by_profit_spec in Emax as ([?|[_ Hj]] & _); [done|]. rewrite Nat.sub_0_r in Hj.
  destruct (arbitrage_loop_elem _ _ _ _ _ _ best Ho) as (n & p & Hp & Hpo); [by eapply list_elem_of_lookup_2|].
  eapply path_candidate_ok; [done|by eapply list_elem_of_lookup_2|exact Hps|exact Hpo|done].
Qed.

Lemma candidate_in_batch b txs locks max_age overrides self out msgs ctx profit :
  mev_ok self -> Forall (marked_by self) txs ->
  load_and_execute_transactions builtin_programs native_loader b txs locks max_age overrides (Some self)
    = Returns (out, msgs) ->
  lo_mev_sanitized_tx_profit out = Some (ctx, profit) -> candidate_ok self ctx.
Proof.
  intros Hok Hmk Hrun Hc. unfold load_and_execute_transactions in Hrun.
  apply outcome_bind_Returns in Hrun as (checks & _ & Hrun). apply outcome_bind_Returns in Hrun as (loaded & Hl & Hrun).
  apply outcome_bind_Returns in Hrun as (s & Hs & Hrun). injection Hrun as <- _. cbn [lo_mev_sanitized_tx_profit] in Hc.
  apply (execute_loop_candidates _ _ _ _ _ _ _ []) in Hs as (results & cands & _ & Hf & Hb); [|by apply Forall_nil_2].
  rewrite Hc in Hb. destruct Hb as (i & Hi & _). cbn in Hi.
  destruct (Forall3_lookup_r _ _ _ _ _ _ Hf Hi) as ([tx accs] & r & Htx & _ & Hsearch).
  unfold searched in Hsearch. destruct r as [d|]; [|done].
  destruct Hsearch as (before & nonce & budget & pre & after & msgs' & Hacc & _ & Hx & Hm). cbn in Hacc, Hx, Hm. subst accs.
  apply lookup_zip_with_Some in Htx as (tx' & acc' & [= <- <-] & Htx & Hacc).
  unfold mev_search in Hm. destruct pre as [[ps|]|]; try done. cbn in Hm.
  rewrite Forall_forall in Hmk. eapply search_candidate_ok; [done|by eapply Hmk, list_elem_of_lookup_2| |exact Hm].
  eapply execute_monitored; [exact Hx|]. apply map_outcome_results in Hl.
  destruct (Forall2_lookup_r _ _ _ _ _ Hl Hacc) as ([tx'' check] & Hz & Hload).
  apply lookup_zip_with_Some in Hz as (? & ? & [= <- <-] & Htx'' & _). rewrite Htx in Htx''. injection Htx'' as <-.
  by eapply load_checked_monitored.
Qed.

End Search.

Lemma fill_marked `{Signing} self tx : st_mev_keys tx = None -> marked_by self (fill_tx_mev_accounts self tx).
Proof. intros Hn. unfold fill_tx_mev_accounts, marked_by. destruct (is_monitored_account self tx); [by right|by left]. Qed.

(** ** The sample *)

#[export] Instance sample_swap_bytes : TokenSwapBytes MevCorrect.Sample.token_swap.
Proof.
  intros a m. apply Forall_cons. split; [u_unfold; lia|].
  apply Forall_app. split; apply Forall_map, Forall_forall; intros i _; pose proof (Z.mod_pos_bound (Z.shiftr a (8 * i)) 256);
    pose proof (Z.mod_pos_bound (Z.shiftr m (8 * i)) 256); u_unfold; lia.
Qed.

Lemma sample_mev_ok : mev_ok MevCorrect.Sample.monitoring_mev.
Proof.
  split.
  - intros p ->%list_elem_of_singleton. cbn. lia.
  - intros kp [= <-]. split; [by vm_compute|]. by apply (bool_decide_unpack _).
Qed.

(** The arbitrage transaction that a batch of the sample finds. *)
Definition sample_candidate : option (SanitizedTransaction * Z) :=
  match load_and_execute_transactions BankSample.swap_programs BankSample.no_loader BankSample.swap_bank
          [BankSample.monitored BankSample.tx1; BankSample.tx2] [Ok tt; Ok tt] 150 (fun _ => None)
          (Some MevCorrect.Sample.monitoring_mev) with
  | Returns (out, _) => lo_mev_sanitized_tx_profit out
  | Panics => None
  end.

(** ** Properties *)

(** C16: Every arbitrage transaction that the bank proposes is well formed, and
    it can write only accounts of the configured pools and the account of its
    payer.  When the transactions of a batch were marked by the MEV
    component, no configured path is longer than 25 swaps and the payer is
    neither a system variable nor a built-in program, the transaction that
    the batch answers has distinct keys, at most 256 of them, instructions
    whose account indices are in range, and a payer it can charge; and
    whatever pools the batch left behind, each account it may write is the
    payer, or a token account, the mint, the fee account or our own accounts
    of a configured pool. *)
Theorem arbitrage_tx_writes_pools `{AccountsDb} `{Bincode UpgradeableLoaderState} `{BudgetCodec}
    `{Bincode NonceVersions} `{OnChain} `{!TokenSwapBytes _} `{!Signing} `{!SigningLaws _} `{SystemCodec} `{NonceHash}
    (builtin_programs : list BuiltinProgram) (native_loader : Entrypoint) (b : Bank)
    (txs : list SanitizedTransaction) (lock_results : list (result TransactionError unit)) (max_age : nat)
    (account_overrides : Pubkey -> option AccountSharedData) (self : Mev)
    (out : LoadAndExecuteTransactionsOutput) (msgs : list MevMsg) (tx : SanitizedTransaction) (profit : Z)
    (Hself : mev_ok self)
    (Hmarked : Forall (fun t => st_mev_keys t = None \/ st_mev_keys t = Some (mev_keys_of self)) txs)
    (Hrun : load_and_execute_transactions builtin_programs native_loader b txs lock_results max_age
              account_overrides (Some self) = Returns (out, msgs))
    (Htx : lo_mev_sanitized_tx_profit out = Some (tx, profit)) :
  message_ok (st_message tx) /\ st_mev_keys tx = None
  /\ forall k, k ∈ stored_keys tx ->
     (exists kp, user_authority self = Some kp /\ k = keypair_pubkey kp)
     \/ exists p, p ∈ orca_monitored_accounts self
          /\ (k ∈ [pool_a_account p; pool_b_account p; pool_mint p; pool_fee p]
              \/ source p = Some k \/ destination p = Some k).
Proof.
  destruct (candidate_in_batch _ _ _ _ _ _ _ _ _ _ _ _ Hself Hmarked Hrun Htx) as (Hm & Hk & Hw).
  split_and!; [done|done|]. intros k [Hin|Hin]%Hw%elem_of_app.
  - left. destruct (user_authority self) as [kp|]; cbn in Hin; [|by apply not_elem_of_nil in Hin].
    apply list_elem_of_singleton in Hin as ->. by exists kp.
  - right. apply list_elem_of_In, in_concat in Hin as (l & Hl & Hin). apply in_map_iff in Hl as (p & <- & Hp).
    exists p. split; [by apply list_elem_of_In|]. apply list_elem_of_In in Hin. unfold pool_writes in Hin.
    rewrite !elem_of_app in Hin. destruct Hin as [Hin|[Hin|Hin]]; [by left|right; left|right; right].
    + cbn in Hin. destruct (source p); cbn in Hin; [|by apply not_elem_of_nil in Hin]. set_solver.
    + cbn in Hin. destruct (destination p); cbn in Hin; [|by apply not_elem_of_nil in Hin]. set_solver.
Qed.

Lemma arbitrage_tx_writes_pools_witness :
  exists tx profit, sample_candidate = Some (tx, profit)
    /\ message_ok (st_message tx) /\ st_mev_keys tx = None
    /\ forall k, k ∈ stored_keys tx ->
       (exists kp, user_authority MevCorrect.Sample.monitoring_mev = Some kp /\ k = keypair_pubkey kp)
       \/ exists p, p ∈ orca_monitored_accounts MevCorrect.Sample.monitoring_mev
            /\ (k ∈ [pool_a_account p; pool_b_account p; pool_mint p; pool_fee p]
                \/ source p = Some k \/ destination p = Some k).
Proof.
  assert (exists tx profit, sample_candidate = Some (tx, profit)) as (tx & profit & Hc).
  { assert (is_some sample_candidate = true) as Hs by by vm_compute.
    destruct sample_candidate as [[tx profit]|]; [by exists tx, profit|done]. }
  exists tx, profit. split; [exact Hc|]. unfold sample_candidate in Hc.
  destruct (load_and_execute_transactions _ _ _ _ _ _ _ _) as [[out msgs]|] eqn:Hrun in Hc; [|done].
  apply (arbitrage_tx_writes_pools _ _ _ _ _ _ _ _ _ _ tx profit sample_mev_ok) with (2 := Hrun); [|exact Hc].
  apply Forall_cons; split; [by right|]. apply Forall_cons; split; [by left|]. by apply Forall_nil.
Defined.
