(* ===== verification/BankSystem.v ===== *)
(** * The bank under concurrent batches

    Threads of the banking stage prepare batches (account locks), execute
    them against the bank, commit what they executed and give the locks back,
    in any order.  This file composes the lock service (AccountLocks.v) with
    the bank (Bank.v) into one transition system and proves what holds in
    every state it reaches: no lamports are created, no transaction is
    committed twice, and locks can always be given back.

    Between the steps of a bank its blockhash queue, features and rent
    parameters stay as they are. *)

From S2P Require Import Prelude Keys Message Errors InstructionsSysvar Transaction AccountLocks Float64 ComputeBudget Account Invocation Nonce SystemProgram EpochSchedule RentCollector BlockhashQueue StatusCache PreAccount Runtime RuntimeSafety Arbitrage Mev AccountsLoad AccountsLoadSafety Bank BankSample BankSafety.

(** ** The system *)

Inductive BatchState :=
| Prepared
| RunDone (out : LoadAndExecuteTransactionsOutput)
| CommitDone.

(** A batch that holds locks. *)
Record InFlight := {
  fl_txs : list SanitizedTransaction;
  fl_locks : list (result TransactionError unit);
  fl_state : BatchState;
}.

Definition with_state (x : InFlight) (st : BatchState) : InFlight :=
  {| fl_txs := fl_txs x; fl_locks := fl_locks x; fl_state := st |}.

(** The transactions of a batch that were executed. *)
Definition executed_txs (txs : list SanitizedTransaction) (results : list TransactionExecutionResult)
    : list SanitizedTransaction :=
  omap (fun '(tx, r) => if was_executed r then Some tx else None) (zip txs results).

Section System.
Context `{AccountsDb} {Hlaws : AccountsDbLaws _}.
Context `{Bincode UpgradeableLoaderState} `{BudgetCodec} `{Bincode NonceVersions}.
Context `{OnChain} `{Signing} `{SystemCodec} `{NonceHash}.
Variable builtin_programs : list BuiltinProgram.
Variable native_loader : Entrypoint.
Variable random_index : Hash -> nat.
(** The limit on locked accounts. *)
Variable limit : nat.
(** The transactions that may be processed. *)
Variable universe : SanitizedTransaction -> Prop.

Record System := {
  sy_table : AccountLocks;
  sy_batches : list InFlight;
  sy_bank : Bank;
  (** the executed transactions of the committed batches, newest batch last *)
  sy_committed : list SanitizedTransaction;
}.

Definition system_locks (s : System) : lock_state :=
  {| ls_table := sy_table s; ls_batches := map (fun x => (fl_txs x, fl_locks x)) (sy_batches s) |}.

Inductive system_step : System -> System -> Prop :=
| sys_prepare s txs qos results al' :
    Forall universe txs -> length qos = length txs ->
    forallb may_prepare qos = true ->
    Z.of_nat (length (held_locksets (system_locks s)) + length txs) <= U64_MAX ->
    lock_accounts_with_results (sy_table s) txs qos limit = Returns (results, al') ->
    system_step s
      {| sy_table := al';
         sy_batches := {| fl_txs := txs; fl_locks := results; fl_state := Prepared |} :: sy_batches s;
         sy_bank := sy_bank s; sy_committed := sy_committed s |}
| sys_execute s l1 x l2 max_age mev out msgs :
    sy_batches s = l1 ++ x :: l2 -> fl_state x = Prepared ->
    load_and_execute_transactions builtin_programs native_loader (sy_bank s) (fl_txs x) (fl_locks x)
      max_age no_overrides mev = Returns (out, msgs) ->
    system_step s
      {| sy_table := sy_table s; sy_batches := l1 ++ with_state x (RunDone out) :: l2;
         sy_bank := sy_bank s; sy_committed := sy_committed s |}
| sys_commit s l1 x l2 out last_blockhash lps counts bank' fee_results :
    sy_batches s = l1 ++ x :: l2 -> fl_state x = RunDone out ->
    commit_transactions random_index (sy_bank s) (fl_txs x) (lo_loaded_transactions out)
      (lo_execution_results out) last_blockhash lps counts = Returns (bank', fee_results) ->
    system_step s
      {| sy_table := sy_table s; sy_batches := l1 ++ with_state x CommitDone :: l2; sy_bank := bank';
         sy_committed := sy_committed s ++ executed_txs (fl_txs x) (lo_execution_results out) |}
| sys_drop s l1 x l2 al' :
    sy_batches s = l1 ++ x :: l2 ->
    unlock_accounts (sy_table s) (fl_txs x) (fl_locks x) = Returns al' ->
    system_step s
      {| sy_table := al'; sy_batches := l1 ++ l2; sy_bank := sy_bank s;
         sy_committed := sy_committed s |}.

Definition system_init (b : Bank) : System :=
  {| sy_table := no_locks; sy_batches := []; sy_bank := b; sy_committed := [] |}.

Definition system_reachable (b : Bank) : System -> Prop := rtc system_step (system_init b).

(** ** The steps as a function *)

Inductive Action :=
| APrepare (txs : list SanitizedTransaction) (qos : list (result TransactionError unit))
| AExecute (i : nat) (max_age : nat) (mev : option Mev)
| ACommit (i : nat) (last_blockhash : Hash) (lps : Z) (counts : CommitTransactionCounts)
| ADrop (i : nat).

(** The system after an action; [None] when it is not possible.  That the
    transactions are from [universe] is left to the caller. *)
Definition act_on (s : System) (a : Action) : option System :=
  match a with
  | APrepare txs qos =>
      if (length qos =? length txs)%nat && forallb may_prepare qos
         && (Z.of_nat (length (held_locksets (system_locks s)) + length txs) <=? U64_MAX) then
        match lock_accounts_with_results (sy_table s) txs qos limit with
        | Returns (results, al') =>
            Some {| sy_table := al';
                    sy_batches := {| fl_txs := txs; fl_locks := results; fl_state := Prepared |} :: sy_batches s;
                    sy_bank := sy_bank s; sy_committed := sy_committed s |}
        | Panics => None
        end
      else None
  | AExecute i max_age mev =>
      x ← sy_batches s !! i;
      match fl_state x, load_and_execute_transactions builtin_programs native_loader (sy_bank s) (fl_txs x)
              (fl_locks x) max_age no_overrides mev with
      | Prepared, Returns (out, _) =>
          Some {| sy_table := sy_table s;
                  sy_batches := take i (sy_batches s) ++ with_state x (RunDone out) :: drop (S i) (sy_batches s);
                  sy_bank := sy_bank s; sy_committed := sy_committed s |}
      | _, _ => None
      end
  | ACommit i last_blockhash lps counts =>
      x ← sy_batches s !! i;
      match fl_state x with
      | RunDone out =>
          match commit_transactions random_index (sy_bank s) (fl_txs x) (lo_loaded_transactions out)
                  (lo_execution_results out) last_blockhash lps counts with
          | Returns (bank', _) =>
              Some {| sy_table := sy_table s;
                      sy_batches := take i (sy_batches s) ++ with_state x CommitDone :: drop (S i) (sy_batches s);
                      sy_bank := bank';
                      sy_committed := sy_committed s ++ executed_txs (fl_txs x) (lo_execution_results out) |}
          | Panics => None
          end
      | _ => None
      end
  | ADrop i =>
      x ← sy_batches s !! i;
      match unlock_accounts (sy_table s) (fl_txs x) (fl_locks x) with
      | Returns al' => Some {| sy_table := al'; sy_batches := take i (sy_batches s) ++ drop (S i) (sy_batches s);
                               sy_bank := sy_bank s; sy_committed := sy_committed s |}
      | Panics => None
      end
  end.

Fixpoint act_all (s : System) (l : list Action) : option System :=
  match l with
  | [] => Some s
  | a :: rest => s ← act_on s a; act_all s rest
  end.

Definition in_universe (a : Action) : Prop :=
  match a with APrepare txs _ => Forall universe txs | _ => True end.

Lemma act_on_step s a s' : in_universe a -> act_on s a = Some s' -> system_step s s'.
Proof.
  destruct a as [txs qos|i max_age mev|i last lps counts|i]; cbn; intros Hu Ha.
  - destruct (_ && _ && _) eqn:Hc; [|done]. apply andb_true_iff in Hc as [[H1'%Nat.eqb_eq H2']%andb_true_iff H3'%Z.leb_le].
    destruct (lock_accounts_with_results _ _ _ _) as [[results al']|] eqn:El; [|done]. injection Ha as <-.
    by eapply sys_prepare.
  - apply option_bind_Some in Ha as (x & Hx & Ha). destruct (fl_state x) eqn:Hst; try done.
    destruct (load_and_execute_transactions _ _ _ _ _ _ _ _) as [[out msgs]|] eqn:El; [|done]. injection Ha as <-.
    eapply sys_execute; [by rewrite take_drop_middle|done|done].
  - apply option_bind_Some in Ha as (x & Hx & Ha). destruct (fl_state x) as [|out|] eqn:Hst; try done.
    destruct (commit_transactions _ _ _ _ _ _ _ _) as [[bank' rs]|] eqn:El; [|done]. injection Ha as <-.
    eapply sys_commit; [by rewrite take_drop_middle|done|done].
  - apply option_bind_Some in Ha as (x & Hx & Ha).
    destruct (unlock_accounts _ _ _) as [al'|] eqn:El; [|done]. injection Ha as <-.
    eapply sys_drop; [by rewrite take_drop_middle|done].
Qed.

Lemma act_all_reachable b l s : Forall in_universe l -> act_all (system_init b) l = Some s -> system_reachable b s.
Proof.
  unfold system_reachable. generalize (system_init b) as s0. induction l as [|a l IH]; intros s0 Hu Ha; cbn in Ha.
  { injection Ha as <-. apply rtc_refl. }
  apply Forall_cons in Hu as [Hu0 Hu]. apply option_bind_Some in Ha as (s1 & Hs1 & Ha).
  eapply rtc_l; [by eapply act_on_step|]. by apply IH.
Qed.

(** ** Lemmas: the locks of the system *)

(** Forgetting the bank, the system is the transition system of the locks. *)
Lemma system_step_locks s s' : system_step s s' -> rtc (lock_step limit) (system_locks s) (system_locks s').
Proof.
  destruct 1 as [s txs qos results al' Hu Hlen Hq Hn Hl|s l1 x l2 max_age mev out msgs Hx Hst Hrun
                |s l1 x l2 out last lps counts bank' rs Hx Hst Hc|s l1 x l2 al' Hx Hun].
  - apply rtc_once. by eapply step_prepare.
  - unfold system_locks. cbn. rewrite Hx, !map_app. apply rtc_refl.
  - unfold system_locks. cbn. rewrite Hx, !map_app. apply rtc_refl.
  - apply rtc_once. unfold system_locks. cbn. rewrite Hx, !map_app. by apply step_drop.
Qed.

Lemma system_lock_inv b s : system_reachable b s -> lock_inv (system_locks s).
Proof.
  intros Hs. apply (lock_inv_reachable limit). unfold system_reachable in Hs.
  change (rtc (lock_step limit) (system_locks (system_init b)) (system_locks s)).
  induction Hs as [|x y z Hxy _ IH]; [apply rtc_refl|]. etrans; [by apply system_step_locks|done].
Qed.

(** A batch can always give its locks back. *)
Lemma drop_possible s l1 x l2 :
  lock_inv (system_locks s) -> sy_batches s = l1 ++ x :: l2 ->
  exists al', unlock_accounts (sy_table s) (fl_txs x) (fl_locks x) = Returns al'
    /\ represents (concat (map (fun y => batch_locksets (fl_txs y) (fl_locks y)) (l1 ++ l2))) al'.
Proof.
  intros [Hrep Hok] Hx. unfold held_locksets, system_locks in Hrep. cbn in Hrep, Hok.
  rewrite Hx, map_map in Hrep. rewrite Hx, map_app in Hok. apply Forall_app in Hok as [_ Hok].
  cbn in Hok. apply Forall_cons in Hok as [Hok _]. rewrite !map_app, !concat_app in *. cbn in Hrep.
  rewrite Permutation_app_swap_app in Hrep. exact (unlock_batch_refines _ _ _ _ Hrep Hok).
Qed.

Lemma drop_all : forall n s, length (sy_batches s) = n -> lock_inv (system_locks s) ->
  exists s', nsteps system_step n s s' /\ sy_batches s' = [] /\ sy_table s' = no_locks
    /\ sy_bank s' = sy_bank s /\ sy_committed s' = sy_committed s.
Proof.
  induction n as [|n IH]; intros s Hn Hinv.
  - apply nil_length_inv in Hn. exists s. split_and!; try done; [constructor|].
    destruct Hinv as [Hrep _]. unfold held_locksets, system_locks in Hrep. cbn in Hrep. rewrite Hn in Hrep.
    exact (represents_inj [] _ _ Hrep represents_no_locks).
  - destruct (sy_batches s) as [|x l] eqn:Hx; [done|]. injection Hn as Hn.
    destruct (drop_possible s [] x l Hinv Hx) as (al' & Hun & _).
    pose proof (sys_drop s [] x l al' Hx Hun) as Hstep.
    destruct (IH {| sy_table := al'; sy_batches := [] ++ l; sy_bank := sy_bank s;
                    sy_committed := sy_committed s |} Hn) as (s' & Hs' & Hb & Ht & Hbk & Hc).
    { pose proof (system_step_locks _ _ Hstep) as Hl.
      refine (rtc_ind_l (fun y => lock_inv y -> lock_inv _) _ _ _ _ Hl Hinv); [done|].
      intros y z Hyz _ IHl Hy. apply IHl. by eapply lock_inv_step. }
    exists s'. split_and!; try done. by eapply nsteps_l.
Qed.

(** ** The invariant *)

Variable K : list Pubkey.
Variable b0 : Bank.
Hypothesis Hsupply0 : supply_ok K b0.
Hypothesis Huniverse : forall tx, universe tx -> message_ok (st_message tx) /\ forall k, k ∈ stored_keys tx -> k ∈ K.

Definition hashes (txs : list SanitizedTransaction) : list Hash := map st_message_hash txs.

(** The transaction is in the status cache of the bank. *)
Definition tx_recorded (b : Bank) (tx : SanitizedTransaction) : Prop :=
  recorded (b_status_cache b) (hash_bytes (st_message_hash tx))
    (message_recent_blockhash (st_message tx)) (b_ancestors b).

(** What a batch that has been executed may rely on until it commits: the
    accounts it holds are as they were. *)
Definition run_ok (b : Bank) (x : InFlight) : Prop :=
  match fl_state x with
  | RunDone out => exists b1 db sc c,
      b = bank_update b1 db sc c /\ batch_fits b1 (fl_txs x) (fl_locks x)
      /\ Forall3 (tx_run b1) (zip (fl_txs x) (fl_locks x)) (lo_loaded_transactions out)
           (lo_execution_results out)
      /\ (forall k, k ∈ locked_keys (zip (fl_txs x) (fl_locks x)) ->
            adb_load db k = adb_load (b_accounts_db b1) k)
  | _ => True
  end.

Record system_inv (s : System) : Prop := {
  sv_locks : lock_inv (system_locks s);
  sv_bank : exists db sc c, sy_bank s = bank_update b0 db sc c;
  sv_supply : supply_ok K (sy_bank s);
  sv_total : supply K (sy_bank s) <= supply K b0;
  sv_exact : active b0 preserve_rent_epoch_for_rent_exempt_accounts = true ->
    supply K (sy_bank s) = supply K b0;
  sv_batches : Forall (fun x => length (fl_locks x) = length (fl_txs x)
                        /\ Forall universe (fl_txs x)
                        /\ run_ok (sy_bank s) x) (sy_batches s);
  sv_outside : forall k, k ∉ K -> adb_load (b_accounts_db (sy_bank s)) k = adb_load (b_accounts_db b0) k;
}.

(** ** Lemmas: the locks of two batches *)

Lemma locked_write_held x k :
  k ∈ locked_keys (zip (fl_txs x) (fl_locks x)) ->
  exists h, h ∈ batch_locksets (fl_txs x) (fl_locks x) /\ k ∈ ls_write h.
Proof.
  intros (tx & Hin & Hk)%locked_keys_elem. exists (lockset_of (tx_locks tx)). split; [|by apply stored_write_locked].
  apply list_elem_of_omap. by exists (tx, Ok tt).
Qed.

Lemma ordpairs_app l l' : ForallOrdPairs compatible (l ++ l') ->
  ForallOrdPairs compatible l /\ forall a b, a ∈ l -> b ∈ l' -> compatible a b.
Proof.
  induction l as [|h l IH]; cbn; [split; [constructor|set_solver]|]. intros Hc. inversion Hc as [|? ? Hh Hl]; subst.
  destruct (IH Hl) as [H1' H2']. apply Forall_app in Hh as [Hh1 Hh2]. split; [by constructor|].
  intros a b [->|Ha]%elem_of_cons Hb; [|auto]. rewrite Forall_forall in Hh2. auto.
Qed.

(** What a batch may store no other batch may store. *)
Lemma inflight_disjoint s l1 x l2 :
  lock_inv (system_locks s) -> sy_batches s = l1 ++ x :: l2 ->
  ForallOrdPairs compatible (batch_locksets (fl_txs x) (fl_locks x))
  /\ forall y k, y ∈ l1 ++ l2 -> k ∈ locked_keys (zip (fl_txs x) (fl_locks x)) ->
     k ∉ locked_keys (zip (fl_txs y) (fl_locks y)).
Proof.
  intros [Hrep _] Hx. apply rep_compat in Hrep. unfold held_locksets, system_locks in Hrep. cbn in Hrep.
  rewrite Hx, map_map in Hrep.
  apply (ForallOrdPairs_perm _ (batch_locksets (fl_txs x) (fl_locks x)
    ++ concat (map (fun y => batch_locksets (fl_txs y) (fl_locks y)) (l1 ++ l2)))) in Hrep.
  2: { rewrite !map_app, !concat_app. cbn. by rewrite Permutation_app_swap_app. }
  apply ordpairs_app in Hrep as [Hc Hd]. split; [done|].
  intros y k Hy (h & Hh & Hk)%locked_write_held (h' & Hh' & Hk')%locked_write_held.
  destruct (Hd h h') as [Hdis _]; [done| |by apply (Hdis k)].
  apply list_elem_of_In, in_concat. exists (batch_locksets (fl_txs y) (fl_locks y)).
  split; [|by apply list_elem_of_In]. apply in_map_iff. exists y. split; [done|by apply list_elem_of_In].
Qed.

(** ** Lemmas: executed transactions *)

Lemma executed_txs_cons tx txs r results :
  executed_txs (tx :: txs) (r :: results) = (if was_executed r then [tx] else []) ++ executed_txs txs results.
Proof. unfold executed_txs. cbn. by destruct (was_executed r). Qed.

(** An executed transaction was locked, and was not in the status cache. *)
Lemma executed_run b : forall txs locks loaded results,
  Forall3 (tx_run b) (zip txs locks) loaded results -> length locks = length txs ->
  forall tx, tx ∈ executed_txs txs results ->
  (tx, Ok tt) ∈ zip txs locks /\ is_transaction_already_processed b tx = Returns false.
Proof.
  induction txs as [|tx0 txs IH]; intros [|lock locks] loaded results Hrun Hlen tx Htx; try done.
  { by apply not_elem_of_nil in Htx. }
  cbn in Hrun. apply Forall3_cons_inv_l in Hrun as (accs & loaded' & r & results' & -> & -> & Hr & Hrun).
  rewrite executed_txs_cons in Htx. injection Hlen as Hlen. cbn.
  apply elem_of_app in Htx as [Htx|Htx].
  - inversion Hr; subst; cbn in Htx; [by apply not_elem_of_nil in Htx|].
    apply list_elem_of_singleton in Htx as ->. split; [apply list_elem_of_here|done].
  - destruct (IH locks loaded' results' Hrun Hlen tx Htx). split; [by apply list_elem_of_further|done].
Qed.

Lemma locked_keys_in l tx k : (tx, Ok tt) ∈ l -> k ∈ stored_keys tx -> k ∈ locked_keys l.
Proof.
  intros Hin Hk. induction l as [|[tx' lock] l IH]; [by apply not_elem_of_nil in Hin|].
  cbn. apply elem_of_app. apply elem_of_cons in Hin as [[= <- <-]|Hin]; auto.
Qed.

Lemma locked_payer l tx :
  (tx, Ok tt) ∈ l -> message_ok (st_message tx) -> exists k, k ∈ stored_keys tx /\ k ∈ locked_keys l.
Proof.
  intros Hin Hm. destruct (message_keys (st_message tx)) as [|k keys] eqn:Hk; [by destruct (mo_nonempty _ Hm)|].
  assert (k ∈ stored_keys tx) as Hs by (apply payer_stored; [done|by rewrite Hk]).
  exists k. split; [done|]. by eapply locked_keys_in.
Qed.

Lemma universe_ok tx : universe tx -> message_ok (st_message tx) /\ forall k, k ∈ stored_keys tx -> k ∈ K.
Proof. apply Huniverse. Qed.

(** ** Lemmas: the status cache *)

Lemma update_statuses_recorded slot anc : forall l sc sc',
  update_statuses_loop random_index slot sc l = Returns sc' ->
  (forall key bh, recorded sc key bh anc -> recorded sc' key bh anc)
  /\ (slot ∈ anc -> forall tx d, (tx, Executed d) ∈ l ->
       recorded sc' (hash_bytes (st_message_hash tx)) (message_recent_blockhash (st_message tx)) anc).
Proof.
  induction l as [|[tx [d|e]] l IH]; intros sc sc' Hl; cbn in Hl.
  - injection Hl as <-. split; [done|]. intros _ tx d []%not_elem_of_nil.
  - apply outcome_bind_Returns in Hl as (sc1 & H1' & Hl). apply outcome_bind_Returns in Hl as (sig & _ & Hl).
    apply outcome_bind_Returns in Hl as (sc2 & H2' & Hl). apply IH in Hl as [Hk Hr]. split.
    + intros key bh Hrec. apply Hk. eapply insert_keeps; [exact H2'|]. by eapply insert_keeps.
    + intros Hs tx' d' [[= -> ->]|Hin]%elem_of_cons; [|by eapply Hr].
      apply Hk. eapply insert_keeps; [exact H2'|]. by eapply insert_recorded.
  - apply IH in Hl as [Hk Hr]. split; [done|]. intros Hs tx' d' [[=]|Hin]%elem_of_cons. by eapply Hr.
Qed.

Lemma commit_recorded b txs loaded results last lps counts b' rs :
  commit_transactions random_index b txs loaded results last lps counts = Returns (b', rs) ->
  (forall tx, tx_recorded b tx -> tx_recorded b' tx)
  /\ (b_slot b ∈ b_ancestors b -> forall tx, tx ∈ executed_txs txs results -> tx_recorded b' tx).
Proof.
  unfold commit_transactions. intros Hc. apply outcome_bind_Returns in Hc as (_ & _ & Hc).
  apply outcome_bind_Returns in Hc as ([db loaded'] & _ & Hc). apply outcome_bind_Returns in Hc as (sc & Hsc & Hc).
  apply outcome_bind_Returns in Hc as ([[db' fees] results'] & _ & Hc). apply Returns_inj in Hc. injection Hc as <- _.
  apply outcome_bind_Returns in Hsc as (_ & _ & Hsc).
  apply (update_statuses_recorded _ (b_ancestors b)) in Hsc as [Hk Hr]. split.
  - intros tx Hrec. by apply Hk.
  - intros Hs tx ([tx' r] & Hin & Hr')%list_elem_of_omap. destruct r as [d|e]; [|done]. injection Hr' as ->.
    by eapply Hr.
Qed.

(** A recorded transaction is not executed again. *)
Lemma recorded_processed b tx : tx_recorded b tx -> is_transaction_already_processed b tx = Returns true.
Proof.
  intros (st & Hst)%recorded_status. unfold is_transaction_already_processed. rewrite Hst. done.
Qed.

(** ** Lemmas: the steps *)

Lemma Forall_replace_mid {A} (P Q : A -> Prop) l1 x l2 x' :
  Forall P (l1 ++ x :: l2) -> Q x' -> (forall y, y ∈ l1 ++ l2 -> P y -> Q y) -> Forall Q (l1 ++ x' :: l2).
Proof.
  rewrite !Forall_app, !Forall_cons, !Forall_forall. intros (H1' & _ & H2') Hx HPQ. split_and!; [|done|].
  - intros y Hy. apply HPQ; [|auto]. apply elem_of_app. by left.
  - intros y Hy. apply HPQ; [|auto]. apply elem_of_app. by right.
Qed.

Lemma inv_prepare s txs qos results al' :
  system_inv s -> Forall universe txs -> length qos = length txs ->
  forallb may_prepare qos = true ->
  Z.of_nat (length (held_locksets (system_locks s)) + length txs) <= U64_MAX ->
  lock_accounts_with_results (sy_table s) txs qos limit = Returns (results, al') ->
  system_inv {| sy_table := al';
    sy_batches := {| fl_txs := txs; fl_locks := results; fl_state := Prepared |} :: sy_batches s;
    sy_bank := sy_bank s; sy_committed := sy_committed s |}.
Proof.
  intros [] Hu Hlen Hq Hb Hl. split; try done.
  - eapply (lock_inv_step limit); [|exact sv_locks0]. by eapply step_prepare.
  - constructor; [|done]. cbn. destruct sv_locks0 as [Hrep _].
    destruct (lock_batch_refines txs qos limit _ _ Hrep Hq Hb) as (rs & al1 & E & _ & _ & Hlr).
    cbn in E. rewrite Hl in E. injection E as <- <-. split; [lia|done].
Qed.

(** The bank's arithmetic fits for every batch of the universe. *)
Lemma batch_fits_ok b txs locks :
  supply_ok K b -> Forall universe txs -> length locks = length txs ->
  ForallOrdPairs compatible (batch_locksets txs locks) -> batch_fits b txs locks.
Proof.
  intros [] Hu Hlen Hc. split; try done. apply Forall_forall. intros tx Htx. rewrite Forall_forall in Hu.
  destruct (universe_ok tx (Hu tx Htx)) as [Hm Hk]. split; [done|].
  assert (lam_total (b_accounts_db b) (stored_keys tx) <= lam_total (b_accounts_db b) K)
    by (apply lam_total_mono; try done; by apply NoDup_pick, Hm). unfold supply in so_max.
  lia.
Qed.

Lemma system_locks_map s l1 l2 x st :
  sy_batches s = l1 ++ x :: l2 ->
  map (fun y => (fl_txs y, fl_locks y)) (l1 ++ with_state x st :: l2)
  = map (fun y => (fl_txs y, fl_locks y)) (sy_batches s).
Proof. intros ->. by rewrite !map_app. Qed.

Lemma inv_execute s l1 x l2 max_age mev out msgs :
  system_inv s -> sy_batches s = l1 ++ x :: l2 ->
  load_and_execute_transactions builtin_programs native_loader (sy_bank s) (fl_txs x) (fl_locks x)
    max_age no_overrides mev = Returns (out, msgs) ->
  system_inv {| sy_table := sy_table s; sy_batches := l1 ++ with_state x (RunDone out) :: l2;
    sy_bank := sy_bank s; sy_committed := sy_committed s |}.
Proof.
  intros [] Hx Hrun. split; try done.
  { unfold system_locks in *. cbn. by rewrite (system_locks_map s). }
  destruct (inflight_disjoint s l1 x l2 sv_locks0 Hx) as [Hc _].
  rewrite Hx in sv_batches0. apply Forall_app in sv_batches0 as [Hb1 Hb2]. apply Forall_cons in Hb2 as [(Hlen & Hu & _) Hb2].
  apply Forall_app. split; [done|]. constructor; [|done]. cbn. split_and!; [done|done|].
  pose proof (batch_fits_ok (sy_bank s) _ _ sv_supply0 Hu Hlen Hc) as Hfits.
  apply (batch_run _ _ _ _ _ _ _ _ _ Hfits) in Hrun.
  exists (sy_bank s), (b_accounts_db (sy_bank s)), (b_status_cache (sy_bank s)), (bank_counters (sy_bank s)).
  split_and!; try done. by destruct (sy_bank s).
Qed.

Lemma inv_drop s l1 x l2 al' :
  system_inv s -> sy_batches s = l1 ++ x :: l2 ->
  unlock_accounts (sy_table s) (fl_txs x) (fl_locks x) = Returns al' ->
  system_inv {| sy_table := al'; sy_batches := l1 ++ l2; sy_bank := sy_bank s; sy_committed := sy_committed s |}.
Proof.
  intros [] Hx Hun. split; try done.
  - eapply (lock_inv_step limit); [|exact sv_locks0]. unfold system_locks. cbn. rewrite Hx, !map_app. cbn. by apply step_drop.
  - rewrite Hx in sv_batches0. apply Forall_app in sv_batches0 as [Hb1 Hb2]. apply Forall_cons in Hb2 as [_ Hb2].
    by apply Forall_app.
Qed.

(** A batch that waits for its commit is not disturbed by the commit of
    another one. *)
Lemma run_ok_kept b x y b' :
  (exists db sc c, b' = bank_update b db sc c) ->
  (forall k, k ∉ locked_keys (zip (fl_txs x) (fl_locks x)) ->
     adb_load (b_accounts_db b') k = adb_load (b_accounts_db b) k) ->
  (forall k, k ∈ locked_keys (zip (fl_txs x) (fl_locks x)) -> k ∉ locked_keys (zip (fl_txs y) (fl_locks y))) ->
  run_ok b y -> run_ok b' y.
Proof.
  unfold run_ok. intros (db' & sc' & c' & ->) Hframe Hdis. destruct (fl_state y) as [|out'|]; try done.
  intros (b1 & db & sc & c & -> & Hfits & Hrun & Hagree). exists b1, db', sc', c'. split_and!; try done.
  intros k Hk. rewrite <- Hagree by done. apply (Hframe k). intros Hx. by apply (Hdis k).
Qed.

Lemma preserve_no_loss b results :
  active b preserve_rent_epoch_for_rent_exempt_accounts = true ->
  Forall (fun r => may_lose b r = false) results.
Proof. intros Hp. apply Forall_forall. intros [d|e] _; cbn; [by rewrite Hp|done]. Qed.

Lemma inv_commit s l1 x l2 out last lps counts bank' rs :
  system_inv s -> sy_batches s = l1 ++ x :: l2 -> fl_state x = RunDone out ->
  commit_transactions random_index (sy_bank s) (fl_txs x) (lo_loaded_transactions out)
    (lo_execution_results out) last lps counts = Returns (bank', rs) ->
  system_inv {| sy_table := sy_table s; sy_batches := l1 ++ with_state x CommitDone :: l2; sy_bank := bank';
    sy_committed := sy_committed s ++ executed_txs (fl_txs x) (lo_execution_results out) |}.
Proof.
  intros [] Hx Hst Hc. destruct (inflight_disjoint s l1 x l2 sv_locks0 Hx) as [Hcomp Hdis].
  pose proof sv_batches0 as Hb. rewrite Hx in Hb. apply Forall_app in Hb as [Hb1 Hb2].
  apply Forall_cons in Hb2 as [(Hlen & Hu & Hok) Hb2]. unfold run_ok in Hok. rewrite Hst in Hok.
  destruct Hok as (b1 & db & sc & c & Hb & Hfits & Hrun & Hagree).
  assert (forall k, k ∈ locked_keys (zip (fl_txs x) (fl_locks x)) -> k ∈ K) as HK.
  { intros k (tx & Hz & Hk)%locked_keys_elem. apply elem_of_zip_l in Hz. rewrite Forall_forall in Hu.
    destruct (universe_ok tx) as [_ Hin]; auto. }
  pose proof sv_supply0 as Hsup. rewrite Hb in Hc, Hsup.
  edestruct (commit_conserves random_index b1 db sc c) as (Hupd & Hsup' & (lost & Hl0 & Hsum & Hl1) & Hframe);
    [exact Hfits|exact Hsup| |exact Hrun|exact Hc|].
  { intros k Hk. split; auto. }
  rewrite <- Hb in Hsum.
  assert (exists db' sc' c', bank' = bank_update (sy_bank s) db' sc' c') as Hupd'
    by (destruct Hupd as (db' & sc' & c' & ->); rewrite Hb; by exists db', sc', c').
  assert (active b1 preserve_rent_epoch_for_rent_exempt_accounts = active b0 preserve_rent_epoch_for_rent_exempt_accounts) as Hact.
  { destruct sv_bank0 as (db' & sc' & c' & Hb'). rewrite Hb in Hb'.
    change (active (bank_update b1 db sc c) preserve_rent_epoch_for_rent_exempt_accounts
      = active b0 preserve_rent_epoch_for_rent_exempt_accounts). by rewrite Hb'. }
  split.
  - unfold system_locks in *. cbn. by rewrite (system_locks_map s).
  - destruct sv_bank0 as (db0 & sc0 & c0 & Hb0'). destruct Hupd' as (db' & sc' & c' & ->). rewrite Hb0'. by exists db', sc', c'.
  - done.
  - cbn. lia.
  - intros Hp. cbn. rewrite <- Hact in Hp. rewrite (Hl1 (preserve_no_loss b1 _ Hp)), Hact in *. rewrite <- sv_exact0 by done. lia.
  - cbn. rewrite Hx in sv_batches0. eapply (Forall_replace_mid _ _ _ _ _ _ sv_batches0); [by split_and!|].
    intros y Hin (Hly & Huy & Hoky). split_and!; [done..|]. eapply (run_ok_kept (sy_bank s) x); eauto.
    intros k Hk. rewrite Hb. by apply Hframe.
  - intros k Hk. cbn. rewrite <- sv_outside0 by done. rewrite Hb. apply Hframe. auto.
Qed.

Lemma system_inv_step s s' :
  system_step s s' -> system_inv s -> system_inv s'.
Proof.
  intros Hstep Hinv. destruct Hstep.
  - by eapply inv_prepare.
  - by eapply inv_execute.
  - by eapply inv_commit.
  - by eapply inv_drop.
Qed.

Lemma system_inv_init : system_inv (system_init b0).
Proof.
  split; cbn; try done.
  - split; [apply represents_no_locks|constructor].
  - exists (b_accounts_db b0), (b_status_cache b0), (bank_counters b0). by destruct b0.
Qed.

(** ** Lemmas: no transaction is committed twice *)

Hypothesis Hslot : b_slot b0 ∈ b_ancestors b0.
Hypothesis Hcollision : forall tx tx', universe tx -> universe tx' ->
  st_message_hash tx = st_message_hash tx' -> st_message tx = st_message tx'.

(** No executed transaction that waits for its commit was committed before. *)
Definition fresh (committed : list SanitizedTransaction) (x : InFlight) : Prop :=
  match fl_state x with
  | RunDone out => Forall (fun tx => st_message_hash tx ∉ hashes committed)
                     (executed_txs (fl_txs x) (lo_execution_results out))
  | _ => True
  end.

Record once_inv (s : System) : Prop := {
  oi_once : NoDup (hashes (sy_committed s));
  oi_recorded : Forall (fun tx => universe tx /\ tx_recorded (sy_bank s) tx) (sy_committed s);
  oi_fresh : Forall (fresh (sy_committed s)) (sy_batches s);
}.

Lemma same_hash_stored tx tx' : universe tx -> universe tx' ->
  st_message_hash tx = st_message_hash tx' -> stored_keys tx = stored_keys tx'.
Proof. intros H1' H2' He. unfold stored_keys. by rewrite (Hcollision tx tx'). Qed.

(** Two transactions of one batch with the same hash are not both executed. *)
Lemma executed_NoDup b : forall txs locks loaded results,
  Forall3 (tx_run b) (zip txs locks) loaded results -> length locks = length txs ->
  Forall universe txs -> NoDup (locked_keys (zip txs locks)) ->
  NoDup (hashes (executed_txs txs results)).
Proof.
  induction txs as [|tx0 txs IH]; intros [|lock locks] loaded results Hrun Hlen Hu Hnd; try apply NoDup_nil_2; try done.
  cbn in Hrun. apply Forall3_cons_inv_l in Hrun as (accs & loaded' & r & results' & -> & -> & Hr & Hrun).
  apply Forall_cons in Hu as [Hu0 Hu]. injection Hlen as Hlen. cbn in Hnd. apply NoDup_app in Hnd as (_ & Hdis & Hnd).
  specialize (IH locks loaded' results' Hrun Hlen Hu Hnd). rewrite executed_txs_cons.
  inversion Hr; subst; [done|]. cbn. constructor; [|done].
  intros (tx & Heq & Htx)%list_elem_of_fmap. pose proof (executed_run _ _ _ _ _ Hrun Hlen tx Htx) as [Hin _].
  assert (universe tx) as Hut.
  { apply elem_of_zip_l in Hin. rewrite Forall_forall in Hu. auto. }
  destruct (locked_payer _ _ Hin) as (k & Hk & Hkl); [by apply universe_ok|].
  apply (Hdis k); [|done]. cbn. by rewrite (same_hash_stored tx0 tx).
Qed.

Lemma once_execute s l1 x l2 max_age mev out msgs :
  system_inv s -> once_inv s -> sy_batches s = l1 ++ x :: l2 ->
  load_and_execute_transactions builtin_programs native_loader (sy_bank s) (fl_txs x) (fl_locks x)
    max_age no_overrides mev = Returns (out, msgs) ->
  once_inv {| sy_table := sy_table s; sy_batches := l1 ++ with_state x (RunDone out) :: l2;
    sy_bank := sy_bank s; sy_committed := sy_committed s |}.
Proof.
  intros [] [] Hx Hrun. split; try done. rewrite Hx in oi_fresh0.
  eapply (Forall_replace_mid _ _ _ _ _ _ oi_fresh0); [|auto]. cbn. unfold fresh. cbn.
  destruct (inflight_disjoint s l1 x l2 sv_locks0 Hx) as [Hc _].
  rewrite Hx in sv_batches0. apply Forall_app in sv_batches0 as [_ Hb2]. apply Forall_cons in Hb2 as [(Hlen & Hu & _) _].
  apply (batch_run _ _ _ _ _ _ _ _ _ (batch_fits_ok (sy_bank s) _ _ sv_supply0 Hu Hlen Hc)) in Hrun.
  apply Forall_forall. intros tx Htx Hin. destruct (executed_run _ _ _ _ _ Hrun Hlen tx Htx) as [Hz Hnew].
  apply list_elem_of_fmap in Hin as (tx' & Heq & Htx'). rewrite Forall_forall in oi_recorded0.
  destruct (oi_recorded0 tx' Htx') as [Hu' Hrec]. apply elem_of_zip_l in Hz. rewrite Forall_forall in Hu.
  assert (tx_recorded (sy_bank s) tx) as Hrec'.
  { unfold tx_recorded in *. by rewrite Heq, (Hcollision tx tx') by auto. }
  apply recorded_processed in Hrec'. congruence.
Qed.

(** An executed transaction of one batch is not one of another batch. *)
Lemma fresh_kept b committed x y out :
  (forall k, k ∈ locked_keys (zip (fl_txs x) (fl_locks x)) -> k ∉ locked_keys (zip (fl_txs y) (fl_locks y))) ->
  (forall tx, tx ∈ executed_txs (fl_txs x) (lo_execution_results out) ->
     universe tx /\ (tx, Ok tt) ∈ zip (fl_txs x) (fl_locks x)) ->
  length (fl_locks y) = length (fl_txs y) -> Forall universe (fl_txs y) ->
  run_ok b y -> fresh committed y ->
  fresh (committed ++ executed_txs (fl_txs x) (lo_execution_results out)) y.
Proof.
  unfold run_ok, fresh. intros Hdis Hex Hlen Hu. destruct (fl_state y) as [|out'|]; try done.
  intros (b1 & _ & _ & _ & _ & _ & Hrun & _) Hnew. apply Forall_forall. intros tx Htx. rewrite Forall_forall in Hnew.
  unfold hashes. rewrite map_app, elem_of_app. intros [Hin|Hin]; [by apply (Hnew tx)|].
  apply list_elem_of_fmap in Hin as (tx' & Heq & Htx'). destruct (Hex tx' Htx') as [Hu' Hz'].
  destruct (executed_run _ _ _ _ _ Hrun Hlen tx Htx) as [Hz _].
  assert (universe tx) as Hut by (apply elem_of_zip_l in Hz; rewrite Forall_forall in Hu; auto).
  destruct (locked_payer _ _ Hz) as (k & Hk & Hkl); [by apply universe_ok|].
  apply (Hdis k); [|done]. rewrite (same_hash_stored tx tx') in Hk by done. by eapply locked_keys_in.
Qed.

Lemma once_commit s l1 x l2 out last lps counts bank' rs :
  system_inv s -> once_inv s -> sy_batches s = l1 ++ x :: l2 -> fl_state x = RunDone out ->
  commit_transactions random_index (sy_bank s) (fl_txs x) (lo_loaded_transactions out)
    (lo_execution_results out) last lps counts = Returns (bank', rs) ->
  once_inv {| sy_table := sy_table s; sy_batches := l1 ++ with_state x CommitDone :: l2; sy_bank := bank';
    sy_committed := sy_committed s ++ executed_txs (fl_txs x) (lo_execution_results out) |}.
Proof.
  intros [] [] Hx Hst Hc. destruct (inflight_disjoint s l1 x l2 sv_locks0 Hx) as [Hcomp Hdis].
  rewrite Forall_forall in sv_batches0. assert (x ∈ sy_batches s) as Hxin by (rewrite Hx; set_solver).
  destruct (sv_batches0 x Hxin) as (Hlen & Hu & Hok). unfold run_ok in Hok. rewrite Hst in Hok.
  destruct Hok as (b1 & _ & _ & _ & _ & _ & Hrun & _). destruct (commit_recorded _ _ _ _ _ _ _ _ _ Hc) as [Hkeep Hrec].
  assert (Forall (fun tx => st_message_hash tx ∉ hashes (sy_committed s))
    (executed_txs (fl_txs x) (lo_execution_results out))) as Hnew.
  { pose proof oi_fresh0 as Hf. rewrite Forall_forall in Hf. specialize (Hf x Hxin). unfold fresh in Hf. by rewrite Hst in Hf. }
  rewrite Forall_forall in Hu, Hnew. assert (forall tx, tx ∈ executed_txs (fl_txs x) (lo_execution_results out) ->
    universe tx /\ (tx, Ok tt) ∈ zip (fl_txs x) (fl_locks x)) as Hex.
  { intros tx Htx. destruct (executed_run _ _ _ _ _ Hrun Hlen tx Htx) as [Hz _]. split; [|done].
    apply elem_of_zip_l in Hz. auto. }
  split; cbn.
  - unfold hashes. rewrite map_app. apply NoDup_app. split_and!; [done| |].
    + intros h Hh (tx & -> & Htx)%list_elem_of_fmap. by apply (Hnew tx).
    + apply (executed_NoDup b1 _ (fl_locks x) (lo_loaded_transactions out)); try done; [by apply Forall_forall|].
      apply locked_keys_NoDup; [|done]. apply Forall_forall. intros tx Htx. by apply universe_ok, Hu.
  - apply Forall_app. split.
    + eapply Forall_impl; [exact oi_recorded0|]. intros tx [Htx Hr]. split; [done|]. by apply Hkeep.
    + apply Forall_forall. intros tx Htx. split; [by apply Hex|]. apply Hrec; [|done].
      destruct sv_bank0 as (db' & sc' & c' & ->). exact Hslot.
  - rewrite Hx in oi_fresh0. eapply (Forall_replace_mid _ _ _ _ _ _ oi_fresh0); [done|]. intros y Hin Hfy.
    destruct (sv_batches0 y) as (Hly & Huy & Hoky); [rewrite Hx; set_solver|].
    eapply fresh_kept; eauto.
Qed.

Lemma once_inv_step s s' : system_step s s' -> system_inv s -> once_inv s -> once_inv s'.
Proof.
  intros Hstep Hinv Hone. destruct Hstep as [| | |s l1 x l2 al' Hx Hun].
  - destruct Hone. split; try done. by constructor.
  - by eapply once_execute.
  - by eapply once_commit.
  - destruct Hone. split; try done. rewrite Hx in oi_fresh0. cbn.
    apply Forall_app in oi_fresh0 as [Hb1 Hb2]. apply Forall_cons in Hb2 as [_ Hb2]. by apply Forall_app.
Qed.

Lemma reachable_inv s : system_reachable b0 s -> system_inv s.
Proof.
  unfold system_reachable. intros Hs.
  refine (rtc_ind_l (fun x => system_inv x -> system_inv s) s _ _ _ Hs system_inv_init); [done|].
  intros x y Hxy _ IH Hx. apply IH. by eapply system_inv_step.
Qed.

Lemma reachable_once s : system_reachable b0 s -> once_inv s.
Proof.
  unfold system_reachable. intros Hs.
  refine (proj2 (rtc_ind_l (fun x => system_inv x /\ once_inv x -> system_inv s /\ once_inv s) s _ _ _ Hs _)); [done| |].
  - intros x y Hxy _ IH [Hx Ho]. apply IH. split; [by eapply system_inv_step|by eapply once_inv_step].
  - split; [apply system_inv_init|]. split; cbn; [apply NoDup_nil_2|done|done].
Qed.

End System.

(** ** A run of two batches *)

Module Run.
Import BankSample.

Definition keys : list Pubkey := [7%N; 8%N; 9%N; 6%N].
Definition txs : list SanitizedTransaction := [tx1; tx2; tx3].

Lemma transfer_ok hash from to bytes :
  from <> to -> from ∈ keys -> to ∈ keys -> Forall u8 bytes ->
  let tx := transfer_tx hash from to bytes in
  message_ok (st_message tx) /\ forall k, k ∈ stored_keys tx -> k ∈ keys.
Proof.
  intros Hne Hf Ht Hb tx.
  assert (stored_keys tx = [from; to]) as Hs.
  { unfold keys in Hf, Ht. rewrite !elem_of_cons, elem_of_nil in Hf, Ht.
    destruct Hf as [->|[->|[->|[->|[]]]]], Ht as [->|[->|[->|[->|[]]]]]; done. }
  assert (system_program_id ∉ keys) as Hsys by by apply (bool_decide_unpack _).
  split; [|rewrite Hs; set_solver]. split.
  - change (message_keys (st_message tx)) with [from; to; system_program_id].
    apply NoDup_cons; split; [set_solver|]. apply NoDup_cons; split; [set_solver|apply NoDup_singleton].
  - cbn. lia.
  - repeat constructor; cbn; lia.
  - constructor; [|constructor]. cbn [ci_data]. apply Forall_app. split; [|done]. repeat constructor; u_unfold; lia.
  - unfold keys in Hf. rewrite !elem_of_cons, elem_of_nil in Hf. by destruct Hf as [->|[->|[->|[->|[]]]]].
  - done.
Qed.

Definition universe (tx : SanitizedTransaction) : Prop := tx ∈ txs.

Lemma run_universe_ok tx : universe tx -> message_ok (st_message tx) /\ forall k, k ∈ stored_keys tx -> k ∈ keys.
Proof.
  assert (Forall (fun tx => message_ok (st_message tx) /\ forall k, k ∈ stored_keys tx -> k ∈ keys) txs) as Hall;
    [|rewrite Forall_forall in Hall; apply Hall].
  repeat (apply Forall_cons; split; [apply transfer_ok; try done; try (by apply (bool_decide_unpack _))|]);
    try done; repeat (apply Forall_cons; split; [u_unfold; lia|]); done.
Qed.

Lemma bank_supply_ok : supply_ok keys bank.
Proof.
  split; try done.
  - by apply (bool_decide_unpack _).
  - intros k a slot Hk. assert (map_Forall (fun _ (p : AccountSharedData * Slot) => 0 <= acc_lamports p.1 <= U64_MAX) db)
      as Hall by (by apply (bool_decide_unpack _)). exact (Hall k (a, slot) Hk).
  - split.
    + intros h l. cbn. unfold get_lamports_per_signature. cbn. destruct (decide (h = 5%N)) as [->|Hne].
      * by intros [= <-].
      * by rewrite lookup_insert_ne by congruence.
    + intros a l. unfold lamports_per_signature_of, state. cbn [deserialize nonce_bincode].
      destruct (@deserialize _ SystemSafety.Sample.nonce_bincode (acc_data a)) as [v|]; cbn; [|done].
      destruct (versions_state v) as [|d] eqn:Ev; cbn; rewrite ?Ev; [done|].
      destruct (Z.leb_spec 0 (nd_lamports_per_signature d)); cbn; [rewrite Ev; by intros [= <-]|done].
Qed.

Definition counts : CommitTransactionCounts :=
  {| committed_transactions_count := 1; committed_with_failure_result_count := 0; ctc_signature_count := 1 |}.

(** Two batches are prepared and executed before either commits; the third
    comes when the first transaction's accounts are free again. *)
Definition actions : list Action :=
  [APrepare [tx1] [Ok tt]; APrepare [tx2] [Ok tt]; AExecute 1 150 None; AExecute 0 150 None;
   ACommit 0 5%N 5000 counts; ACommit 1 5%N 5000 counts; ADrop 1; APrepare [tx3; tx1] [Ok tt; Ok tt];
   AExecute 0 150 None; ACommit 0 5%N 5000 counts].

Lemma actions_ok : Forall (in_universe universe) actions.
Proof.
  apply Forall_forall. intros a Ha. unfold actions in Ha. rewrite !elem_of_cons, elem_of_nil in Ha.
  destruct_or! Ha; try done; subst a; cbn [in_universe]; unfold universe, txs;
    repeat (apply Forall_cons; split; [rewrite !elem_of_cons; auto|]); done.
Qed.

Definition final : option System := act_all programs no_loader offset 64 (system_init bank) actions.

(** What the run ends with, as a test. *)
Definition final_ok (s : System) : bool :=
  bool_decide (map st_message_hash (sy_committed s) = map st_message_hash [tx2; tx1; tx3])
  && (b_collector_fees (sy_bank s) =? 15000)
  && (lam_total (b_accounts_db (sy_bank s)) keys =? 3999985000).

Lemma final_some : exists s, final = Some s /\ final_ok s = true.
Proof.
  assert (match final with Some s => final_ok s | None => false end = true) as Hf by by vm_compute.
  destruct final as [s|]; [by exists s|done].
Qed.

End Run.

(** ** Properties *)

(** C6: No sequence of batches creates lamports.  From a bank whose lamports
    fit in 64 bits, threads may prepare, execute, commit and drop batches of
    sanitized transactions in any interleaving; in every state they reach,
    the lamports of the accounts, the fees and the collected rent together
    are at most what they were, and exactly what they were when the rent epoch
    of exempt accounts is preserved.  Every balance still fits in 64 bits, and
    accounts that no transaction may write are as they were. *)
Theorem bank_conserves_lamports `{AccountsDb} `{!AccountsDbLaws _}
    `{Bincode UpgradeableLoaderState} `{BudgetCodec} `{Bincode NonceVersions}
    `{OnChain} `{Signing} `{SystemCodec} `{NonceHash}
    (builtin_programs : list BuiltinProgram) (native_loader : Entrypoint) (random_index : Hash -> nat)
    (limit : nat) (universe : SanitizedTransaction -> Prop) (K : list Pubkey) (b0 : Bank) (s : System)
    (Hb0 : supply_ok K b0)
    (Huniverse : forall tx, universe tx ->
       message_ok (st_message tx) /\ forall k, k ∈ stored_keys tx -> k ∈ K)
    (Hs : system_reachable builtin_programs native_loader random_index limit universe b0 s) :
  let b := sy_bank s in
  lam_total (b_accounts_db b) K + b_collector_fees b + b_collected_rent b
    <= lam_total (b_accounts_db b0) K + b_collector_fees b0 + b_collected_rent b0
  /\ (active b0 preserve_rent_epoch_for_rent_exempt_accounts = true ->
      lam_total (b_accounts_db b) K + b_collector_fees b + b_collected_rent b
      = lam_total (b_accounts_db b0) K + b_collector_fees b0 + b_collected_rent b0)
  /\ (forall k a slot, adb_load (b_accounts_db b) k = Some (a, slot) -> u64 (acc_lamports a))
  /\ (forall k, k ∉ K -> adb_load (b_accounts_db b) k = adb_load (b_accounts_db b0) k).
Proof.
  destruct (reachable_inv builtin_programs native_loader random_index limit universe K b0 Hb0 Huniverse s Hs) as [].
  split_and!; try done. apply (so_typed _ _ sv_supply0).
Qed.

Lemma bank_conserves_lamports_witness :
  exists s, Run.final = Some s
    /\ map st_message_hash (sy_committed s) = map st_message_hash [BankSample.tx2; BankSample.tx1; BankSample.tx3]
    /\ lam_total (b_accounts_db (sy_bank s)) Run.keys + b_collector_fees (sy_bank s)
         + b_collected_rent (sy_bank s) = 4000000000.
Proof.
  destruct Run.final_some as (s & Hs & Hok). exists s. split; [done|].
  apply andb_true_iff in Hok as [[Hok _]%andb_true_iff _]. split; [by apply bool_decide_eq_true in Hok|].
  apply (bank_conserves_lamports BankSample.programs BankSample.no_loader BankSample.offset 64 Run.universe Run.keys
    BankSample.bank s Run.bank_supply_ok Run.run_universe_ok); [|done].
  exact (act_all_reachable _ _ _ _ _ _ _ _ Run.actions_ok Hs).
Defined.

(** C9: No transaction is committed twice.  In every state that the threads
    reach, the committed transactions have pairwise different message hashes,
    provided hashes of different messages differ; and each of them is refused
    as already processed by every later check of the bank. *)
Theorem transactions_commit_once `{AccountsDb} `{!AccountsDbLaws _}
    `{Bincode UpgradeableLoaderState} `{BudgetCodec} `{Bincode NonceVersions}
    `{OnChain} `{Signing} `{SystemCodec} `{NonceHash}
    (builtin_programs : list BuiltinProgram) (native_loader : Entrypoint) (random_index : Hash -> nat)
    (limit : nat) (universe : SanitizedTransaction -> Prop) (K : list Pubkey) (b0 : Bank) (s : System)
    (Hb0 : supply_ok K b0)
    (Huniverse : forall tx, universe tx ->
       message_ok (st_message tx) /\ forall k, k ∈ stored_keys tx -> k ∈ K)
    (Hslot : b_slot b0 ∈ b_ancestors b0)
    (Hcollision : forall tx tx', universe tx -> universe tx' ->
       st_message_hash tx = st_message_hash tx' -> st_message tx = st_message tx')
    (Hs : system_reachable builtin_programs native_loader random_index limit universe b0 s) :
  NoDup (map st_message_hash (sy_committed s))
  /\ forall tx check, tx ∈ sy_committed s -> is_ok check.1 = true ->
     check_status (sy_bank s) tx check = Returns (Err TE.AlreadyProcessed, None).
Proof.
  destruct (reachable_once builtin_programs native_loader random_index limit universe K b0 Hb0 Huniverse
    Hslot Hcollision s Hs) as []. split; [done|].
  intros tx check Htx Hok. rewrite Forall_forall in oi_recorded0. destruct (oi_recorded0 tx Htx) as [_ Hrec].
  unfold check_status. rewrite Hok, (recorded_processed _ _ Hrec). done.
Qed.

Lemma transactions_commit_once_witness :
  exists s, Run.final = Some s /\ length (sy_committed s) = 3%nat
    /\ NoDup (map st_message_hash (sy_committed s))
    /\ forall tx check, tx ∈ sy_committed s -> is_ok check.1 = true ->
       check_status (sy_bank s) tx check = Returns (Err TE.AlreadyProcessed, None).
Proof.
  destruct Run.final_some as (s & Hs & Hok). exists s. split; [done|].
  apply andb_true_iff in Hok as [[Hok _]%andb_true_iff _]. apply bool_decide_eq_true, (f_equal length) in Hok.
  rewrite !length_map in Hok. split; [done|].
  apply (transactions_commit_once BankSample.programs BankSample.no_loader BankSample.offset 64 Run.universe Run.keys
    BankSample.bank s Run.bank_supply_ok Run.run_universe_ok).
  - by apply (bool_decide_unpack _).
  - intros tx tx' Htx Htx'. unfold Run.universe, Run.txs in *. rewrite !elem_of_cons, elem_of_nil in Htx, Htx'.
    destruct Htx as [->|[->|[->|[]]]], Htx' as [->|[->|[->|[]]]]; done.
  - exact (act_all_reachable _ _ _ _ _ _ _ _ Run.actions_ok Hs).
Defined.

(** C28: Locks are always given back.  In every state that the threads reach,
    whatever batches are in flight and however far each of them is, every
    batch can be dropped next without a panic, and dropping all of them, one
    step per batch, leaves an empty lock table, the bank and the committed
    transactions untouched. *)
Theorem locks_are_released `{AccountsDb}
    `{Bincode UpgradeableLoaderState} `{BudgetCodec} `{Bincode NonceVersions}
    `{OnChain} `{Signing} `{SystemCodec} `{NonceHash}
    (builtin_programs : list BuiltinProgram) (native_loader : Entrypoint) (random_index : Hash -> nat)
    (limit : nat) (universe : SanitizedTransaction -> Prop) (b0 : Bank) (s : System)
    (Hs : system_reachable builtin_programs native_loader random_index limit universe b0 s) :
  (forall x, x ∈ sy_batches s -> exists al', unlock_accounts (sy_table s) (fl_txs x) (fl_locks x) = Returns al')
  /\ exists s', nsteps (system_step builtin_programs native_loader random_index limit universe)
                 (length (sy_batches s)) s s'
     /\ sy_batches s' = [] /\ sy_table s' = no_locks
     /\ sy_bank s' = sy_bank s /\ sy_committed s' = sy_committed s.
Proof.
  apply system_lock_inv in Hs as Hinv. split.
  - intros x (l1 & l2 & Hx)%list_elem_of_split. destruct (drop_possible s l1 x l2 Hinv Hx) as (al' & Hun & _).
    by exists al'.
  - by apply drop_all.
Qed.

Lemma locks_are_released_witness :
  exists s s', Run.final = Some s /\ length (sy_batches s) = 2%nat
    /\ nsteps (system_step BankSample.programs BankSample.no_loader BankSample.offset 64 Run.universe) 2 s s'
    /\ sy_table s' = no_locks.
Proof.
  destruct Run.final_some as (s & Hs & Hok).
  assert (length (sy_batches s) = 2%nat) as Hlen.
  { assert (match Run.final with Some s => length (sy_batches s) | None => O end = 2%nat) as Hf by by vm_compute.
    rewrite Hs in Hf. exact Hf. }
  destruct (locks_are_released BankSample.programs BankSample.no_loader BankSample.offset 64 Run.universe
    BankSample.bank s) as (_ & s' & Hn & _ & Ht & _).
  { exact (act_all_reachable _ _ _ _ _ _ _ _ Run.actions_ok Hs). }
  rewrite Hlen in Hn. exists s, s'. split_and!; [exact Hs|exact Hlen|exact Hn|exact Ht].
Defined.
