(* ===== verification/Merkle.v ===== *)
(** * Hashes and Merkle trees

    Models sdk/program/src/hash.rs over the SHA-256 crate, and
    merkle-tree/src/merkle_tree.rs: the tree that hashes the signatures of the
    transactions of an entry, its root and its inclusion proofs.

    Nothing is assumed of the hash function but the length of its output;
    what rests on its collision resistance names the inputs that do not
    collide. *)

From S2P Require Import Prelude Message InstructionsSysvar.

(** ** Hashes *)

(** SHA-256 of the sha2 crate. *)
Class Sha256 := { sha256 : list Z -> Hash }.

(** The output is 32 bytes. *)
Class Sha256Laws `(Sha256) : Prop := { sha256_size x : (sha256 x < 256 ^ 32)%N }.

Section Merkle.
Context `{Sha256}.

(** [hashv], which updates one hasher with each value in turn. *)
Definition sha_hashv (vals : list (list Z)) : Hash := sha256 (concat vals).

(** [hash]. *)
Definition sha_hash (val : list Z) : Hash := sha_hashv [val].

(** ** The tree *)

Definition LEAF_PREFIX : list Z := [0].
Definition INTERMEDIATE_PREFIX : list Z := [1].

Definition hash_leaf (d : list Z) : Hash := sha_hashv [LEAF_PREFIX; d].
Definition hash_intermediate (l r : Hash) : Hash :=
  sha_hashv [INTERMEDIATE_PREFIX; hash_bytes l; hash_bytes r].

Record MerkleTree := { leaf_count : nat; nodes : list Hash }.

(** The targets of the path from a leaf to the root with the sibling that the
    node below them is hashed with. *)
Record ProofEntry := {
  pe_target : Hash;
  pe_left_sibling : option Hash;
  pe_right_sibling : option Hash;
}.

Definition proof_entry_new (target : Hash) (left_sibling right_sibling : option Hash) : outcome ProofEntry :=
  _ ← assert_ (xorb (negb (is_some left_sibling)) (negb (is_some right_sibling)));
  Returns {| pe_target := target; pe_left_sibling := left_sibling; pe_right_sibling := right_sibling |}.

Fixpoint proof_fold (entries : list ProofEntry) (candidate : Hash) : option Hash :=
  match entries with
  | [] => Some candidate
  | pe :: rest =>
      let lsib := default candidate (pe_left_sibling pe) in
      let rsib := default candidate (pe_right_sibling pe) in
      let hash := hash_intermediate lsib rsib in
      if N.eqb hash (pe_target pe) then proof_fold rest hash else None
  end.

(** [Proof::verify]. *)
Definition proof_verify (entries : list ProofEntry) (candidate : Hash) : bool :=
  is_some (proof_fold entries candidate).

Definition next_level_len (level_len : nat) : nat :=
  if (level_len =? 1)%nat then 0%nat else Nat.div2 (level_len + 1).

(** The body of the [for] loop over one level. *)
Fixpoint push_level (ns : list Hash) (prev_level_start prev_level_len : nat) (is_ : list nat)
    : outcome (list Hash) :=
  match is_ with
  | [] => Returns ns
  | i :: rest =>
      let prev_level_idx := (2 * i)%nat in
      lsib ← unwrap (ns !! (prev_level_start + prev_level_idx)%nat);
      rsib ← if (prev_level_idx + 1 <? prev_level_len)%nat
             then unwrap (ns !! (prev_level_start + prev_level_idx + 1)%nat)
             else unwrap (ns !! (prev_level_start + prev_level_idx)%nat);
      push_level (ns ++ [hash_intermediate lsib rsib]) prev_level_start prev_level_len rest
  end.

(** The [while] loop; every level but the first is shorter than the one
    before, so the number of leaves bounds the levels. *)
Fixpoint push_levels (fuel : nat) (ns : list Hash)
    (level_len level_start prev_level_len prev_level_start : nat) : outcome (list Hash) :=
  if (level_len =? 0)%nat then Returns ns
  else match fuel with
  | O => Panics
  | S fuel =>
      ns ← push_level ns prev_level_start prev_level_len (seq 0 level_len);
      push_levels fuel ns (next_level_len level_len) (level_start + level_len) level_len level_start
  end.

Definition merkle_new (items : list (list Z)) : outcome MerkleTree :=
  let n := length items in
  ns ← push_levels n (map hash_leaf items) (next_level_len n) n n 0;
  Returns {| leaf_count := n; nodes := ns |}.

Definition get_root (mt : MerkleTree) : option Hash := last (nodes mt).

(** [&nodes[start..start + len]]. *)
Definition level_slice (ns : list Hash) (start len : nat) : outcome (list Hash) :=
  if (start + len <=? length ns)%nat then Returns (take len (drop start ns)) else Panics.

Fixpoint path_loop (fuel : nat) (ns : list Hash) (level_len level_start node_index : nat)
    (lsib rsib : option Hash) (path : list ProofEntry) : outcome (list ProofEntry) :=
  if (level_len =? 0)%nat then Returns path
  else match fuel with
  | O => Panics
  | S fuel =>
      level ← level_slice ns level_start level_len;
      target ← unwrap (level !! node_index);
      path ← if is_some lsib || is_some rsib
             then entry ← proof_entry_new target lsib rsib; Returns (path ++ [entry])
             else Returns path;
      '(lsib, rsib) ←
        if Nat.even node_index then
          sib ← if (node_index + 1 <? length level)%nat
                then unwrap (level !! (node_index + 1)%nat) else unwrap (level !! node_index);
          Returns (None, Some sib)
        else sib ← unwrap (level !! (node_index - 1)%nat); Returns (Some sib, None);
      path_loop fuel ns (next_level_len level_len) (level_start + level_len) (Nat.div2 node_index)
        lsib rsib path
  end.

Definition find_path (mt : MerkleTree) (index : nat) : outcome (option (list ProofEntry)) :=
  if (leaf_count mt <=? index)%nat then Returns None
  else path ← path_loop (S (leaf_count mt)) (nodes mt) (leaf_count mt) 0 index None None [];
       Returns (Some path).

(** ** The tree by levels *)

(** The level above. *)
Fixpoint pair_up (l : list Hash) : list Hash :=
  match l with
  | a :: b :: rest => hash_intermediate a b :: pair_up rest
  | [a] => [hash_intermediate a a]
  | [] => []
  end.

(** All levels of the tree over the nodes [l]. *)
Fixpoint levels (fuel : nat) (l : list Hash) : list (list Hash) :=
  match fuel with
  | O => [l]
  | S fuel => if (length l <=? 1)%nat then [l] else l :: levels fuel (pair_up l)
  end.

(** The siblings that node [i] of a level is hashed with. *)
Definition siblings (l : list Hash) (i : nat) : option Hash * option Hash :=
  if Nat.even i then (None, Some (default (l !!! i) (l !! S i))) else (Some (l !!! (i - 1)%nat), None).

(** The path from node [i] of the level [l] to the root. *)
Fixpoint path_from (fuel : nat) (l : list Hash) (i : nat) : list ProofEntry :=
  match fuel with
  | O => []
  | S fuel =>
      if (length l <=? 1)%nat then []
      else {| pe_target := pair_up l !!! Nat.div2 i;
              pe_left_sibling := (siblings l i).1; pe_right_sibling := (siblings l i).2 |}
           :: path_from fuel (pair_up l) (Nat.div2 i)
  end.

(** The inputs that the hash function is applied to, by the nodes of a tree
    and by the verification of a proof. *)
Definition node_input (l r : Hash) : list Z := INTERMEDIATE_PREFIX ++ hash_bytes l ++ hash_bytes r.

Fixpoint pair_inputs (l : list Hash) : list (list Z) :=
  match l with
  | a :: b :: rest => node_input a b :: pair_inputs rest
  | [a] => [node_input a a]
  | [] => []
  end.

Fixpoint level_inputs (fuel : nat) (l : list Hash) : list (list Z) :=
  match fuel with
  | O => []
  | S fuel => if (length l <=? 1)%nat then [] else pair_inputs l ++ level_inputs fuel (pair_up l)
  end.

Definition tree_inputs (items : list (list Z)) : list (list Z) :=
  map (fun d => LEAF_PREFIX ++ d) items ++ level_inputs (length items) (map hash_leaf items).

Fixpoint proof_inputs (entries : list ProofEntry) (candidate : Hash) : list (list Z) :=
  match entries with
  | [] => []
  | pe :: rest =>
      let lsib := default candidate (pe_left_sibling pe) in
      let rsib := default candidate (pe_right_sibling pe) in
      node_input lsib rsib :: proof_inputs rest (hash_intermediate lsib rsib)
  end.

(** No input of [xs] and input of [ys] collide. *)
Definition no_collision (xs ys : list (list Z)) : Prop :=
  forall x y, x ∈ xs -> y ∈ ys -> sha256 x = sha256 y -> x = y.

(** ** Lemmas: levels *)

(** Induction by pairs. *)
Lemma pair_ind (P : list Hash -> Prop) :
  P [] -> (forall a, P [a]) -> (forall a b l, P l -> P (a :: b :: l)) -> forall l, P l.
Proof.
  intros H0 H1 H2 l. assert (P l /\ forall a, P (a :: l)) as [Hl _]; [|done].
  induction l as [|b l [IH1 IH2]]; split; auto.
Qed.

Lemma length_pair_up l : length (pair_up l) = Nat.div2 (length l + 1).
Proof. induction l as [|a|a b l IH] using pair_ind; cbn; [done..|]. by rewrite IH. Qed.

Lemma next_level_pair_up (l : list Hash) : (1 < length l)%nat -> next_level_len (length l) = length (pair_up l).
Proof. intros Hl. unfold next_level_len. rewrite length_pair_up. destruct (Nat.eqb_spec (length l) 1); [lia|done]. Qed.

Lemma next_level_short (l : list Hash) : (length l <= 1)%nat -> next_level_len (length l) = 0%nat.
Proof. intros Hl. unfold next_level_len. destruct (Nat.eqb_spec (length l) 1); [done|]. by replace (length l) with 0%nat by lia. Qed.

Lemma pair_up_shorter (l : list Hash) : (1 < length l)%nat -> (0 < length (pair_up l) < length l)%nat.
Proof.
  rewrite length_pair_up. intros Hl. pose proof (Nat.div2_odd (length l + 1)).
  destruct (Nat.odd (length l + 1)); cbn in *; lia.
Qed.

(** A node above is the hash of the node and its sibling, in order. *)
Lemma pair_up_lookup l : forall i x, l !! i = Some x ->
  pair_up l !! Nat.div2 i = Some (hash_intermediate (default x (siblings l i).1) (default x (siblings l i).2)).
Proof.
  induction l as [|a|a b l IH] using pair_ind; intros i x Hx; [done| |].
  - destruct i; [|done]. injection Hx as <-. done.
  - destruct i as [|[|i]]; [by injection Hx as <-|by injection Hx as <-|].
    change (pair_up l !! Nat.div2 i = Some (hash_intermediate (default x (siblings (a :: b :: l) (S (S i))).1)
      (default x (siblings (a :: b :: l) (S (S i))).2))).
    rewrite (IH i x Hx). unfold siblings. cbn [Nat.even].
    destruct (Nat.even i) eqn:He; [done|]. destruct i as [|i]; [done|]. cbn. by rewrite Nat.sub_0_r.
Qed.

Lemma siblings_one l i : xorb (negb (is_some (siblings l i).1)) (negb (is_some (siblings l i).2)) = true.
Proof. unfold siblings. by destruct (Nat.even i). Qed.

Lemma lookup_suffix (pre l : list Hash) i : (pre ++ l) !! (length pre + i)%nat = l !! i.
Proof. rewrite lookup_app_r by lia. f_equal. lia. Qed.

(** ** Lemmas: construction *)

Lemma push_level_pairs l pl l' : forall ns ps i,
  pl = length l -> l' = drop (2 * i) l -> (forall j, (j < length l)%nat -> ns !! (ps + j)%nat = l !! j) ->
  push_level ns ps pl (seq i (length (pair_up l'))) = Returns (ns ++ pair_up l').
Proof.
  induction l' as [|a|a b l' IH] using pair_ind; intros ns ps i -> Hd Hns; cbn [pair_up length seq push_level].
  - by rewrite app_nil_r.
  - assert (length l = 2 * i + 1)%nat as Hlen.
    { assert (length (drop (2 * i) l) = 1%nat) as Hd1 by by rewrite <- Hd. rewrite length_drop in Hd1. lia. }
    assert (l !! (2 * i)%nat = Some a) as Ha by by rewrite <- (Nat.add_0_r (2 * i)), <- lookup_drop, <- Hd.
    rewrite Hns, Ha by lia. cbn [unwrap]. destruct (Nat.ltb_spec (2 * i + 1) (length l)); [lia|]. done.
  - assert (2 * i + 1 < length l)%nat as Hlen.
    { assert (length (drop (2 * i) l) = 2 + length l')%nat as Hd1 by by rewrite <- Hd. rewrite length_drop in Hd1. lia. }
    assert (l !! (2 * i)%nat = Some a) as Ha by by rewrite <- (Nat.add_0_r (2 * i)), <- lookup_drop, <- Hd.
    assert (l !! (2 * i + 1)%nat = Some b) as Hb by by rewrite <- lookup_drop, <- Hd.
    rewrite Hns, Ha by lia. cbn [unwrap mbind outcome_bind].
    destruct (Nat.ltb_spec (2 * i + 1) (length l)); [|lia]. rewrite <- Nat.add_assoc, Hns, Hb by lia. cbn [unwrap mbind outcome_bind].
    rewrite (IH (ns ++ [hash_intermediate a b]) ps (S i)); [by rewrite <- app_assoc|done| |].
    + replace (2 * S i)%nat with (2 * i + 2)%nat by lia. by rewrite <- drop_drop, <- Hd.
    + intros j Hj. rewrite lookup_app_l; [by apply Hns|]. apply lookup_lt_is_Some. rewrite Hns by done. by apply lookup_lt_is_Some.
Qed.

Lemma push_levels_spec : forall fuel pre l, (length l <= S fuel)%nat ->
  push_levels fuel (pre ++ l) (next_level_len (length l)) (length (pre ++ l)) (length l) (length pre)
  = Returns (pre ++ concat (levels fuel l)).
Proof.
  induction fuel as [|fuel IH]; intros pre l Hl; cbn [push_levels levels].
  { rewrite next_level_short by lia. cbn. by rewrite app_nil_r. }
  destruct (Nat.leb_spec (length l) 1) as [Hs|Hs].
  { rewrite next_level_short by lia. cbn. by rewrite app_nil_r. }
  pose proof (pair_up_shorter l Hs). rewrite next_level_pair_up by done.
  destruct (Nat.eqb_spec (length (pair_up l)) 0); [lia|].
  rewrite (push_level_pairs l (length l) l); [|done|by rewrite Nat.mul_0_r, drop_0|intros j _; by apply lookup_suffix].
  cbn [mbind outcome_bind]. replace (length (pre ++ l) + length (pair_up l))%nat with (length ((pre ++ l) ++ pair_up l))
    by (by rewrite !length_app).
  rewrite IH by lia. cbn. by rewrite <- app_assoc.
Qed.

Lemma merkle_new_levels items :
  merkle_new items = Returns {| leaf_count := length items;
    nodes := concat (levels (length items) (map hash_leaf items)) |}.
Proof.
  unfold merkle_new. pose proof (push_levels_spec (length items) [] (map hash_leaf items)) as Hp.
  rewrite length_map in Hp. cbn [app length] in Hp. rewrite length_map in Hp. rewrite Hp by lia. done.
Qed.

Lemma levels_prefix fuel l : exists rest, concat (levels fuel l) = l ++ rest.
Proof. destruct fuel; cbn; [by exists []|]. destruct (_ <=? _)%nat; cbn; eauto. Qed.

(** ** Lemmas: proofs *)

Lemma level_slice_mid (pre l rest : list Hash) :
  level_slice (pre ++ l ++ rest) (length pre) (length l) = Returns l.
Proof.
  unfold level_slice. rewrite !length_app. destruct (Nat.leb_spec (length pre + length l) (length pre + (length l + length rest))); [|lia].
  rewrite drop_app_length. by rewrite take_app_length.
Qed.

Lemma lookup_total_unwrap (l : list Hash) i : (i < length l)%nat -> l !! i = Some (l !!! i).
Proof. intros Hi. by apply list_lookup_lookup_total_lt. Qed.

(** The entry for a node, when there is a sibling below it. *)
Definition entry_of (target : Hash) (sibs : option Hash * option Hash) : list ProofEntry :=
  if is_some sibs.1 || is_some sibs.2
  then [{| pe_target := target; pe_left_sibling := sibs.1; pe_right_sibling := sibs.2 |}] else [].

(** The siblings as the loop computes them. *)
Lemma siblings_loop l i : (i < length l)%nat ->
  (if Nat.even i then
     sib ← (if (i + 1 <? length l)%nat then unwrap (l !! (i + 1)%nat) else unwrap (l !! i)); Returns (None, Some sib)
   else sib ← unwrap (l !! (i - 1)%nat); Returns (Some sib, None)) = Returns (siblings l i).
Proof.
  intros Hi. unfold siblings. destruct (Nat.even i) eqn:He.
  - rewrite Nat.add_1_r. destruct (Nat.ltb_spec (S i) (length l)).
    + by rewrite (lookup_total_unwrap l (S i)).
    + rewrite (lookup_total_unwrap l i), (lookup_ge_None_2 l (S i)) by lia. done.
  - destruct i; [done|]. by rewrite (lookup_total_unwrap l (S i - 1)) by lia.
Qed.

Definition one_sibling (sibs : option Hash * option Hash) : Prop :=
  xorb (negb (is_some sibs.1)) (negb (is_some sibs.2)) = true \/ sibs = (None, None).

Lemma path_loop_step f pre l rest i sibs path :
  (i < length l)%nat -> one_sibling sibs ->
  path_loop (S f) (pre ++ l ++ rest) (length l) (length pre) i sibs.1 sibs.2 path
  = path_loop f (pre ++ l ++ rest) (next_level_len (length l)) (length pre + length l) (Nat.div2 i)
      (siblings l i).1 (siblings l i).2 (path ++ entry_of (l !!! i) sibs).
Proof.
  intros Hi Hs. cbn [path_loop]. destruct (Nat.eqb_spec (length l) 0); [lia|].
  rewrite level_slice_mid. cbn [mbind outcome_bind]. rewrite (lookup_total_unwrap l i) by done. cbn [unwrap mbind outcome_bind].
  assert ((if is_some sibs.1 || is_some sibs.2
     then entry ← proof_entry_new (l !!! i) sibs.1 sibs.2; Returns (path ++ [entry]) else Returns path)
     = Returns (path ++ entry_of (l !!! i) sibs)) as ->.
  { unfold entry_of, proof_entry_new. destruct Hs as [Hs| ->]; cbn; [|by rewrite app_nil_r].
    rewrite Hs. cbn. destruct (_ || _); [done|by rewrite app_nil_r]. }
  cbn [mbind outcome_bind]. pose proof (siblings_loop l i Hi) as E. rewrite (lookup_total_unwrap l i) in E by done.
  cbn [unwrap mbind outcome_bind] in E. rewrite E. cbn [mbind outcome_bind]. by destruct (siblings l i).
Qed.

Lemma path_loop_end f ns start i ls rs path : path_loop f ns 0 start i ls rs path = Returns path.
Proof. by destruct f. Qed.

Lemma div2_index i n : (i < n)%nat -> (Nat.div2 i < Nat.div2 (n + 1))%nat.
Proof.
  pose proof (Nat.div2_odd i). pose proof (Nat.div2_odd (n + 1)).
  destruct (Nat.odd i), (Nat.odd (n + 1)); cbn [Nat.b2n] in *; lia.
Qed.

Lemma path_loop_spec : forall fuel l pre i sibs path,
  (length l <= S fuel)%nat -> (i < length l)%nat -> one_sibling sibs ->
  path_loop (S fuel) (pre ++ concat (levels fuel l)) (length l) (length pre) i sibs.1 sibs.2 path
  = Returns (path ++ entry_of (l !!! i) sibs ++ path_from fuel l i).
Proof.
  induction fuel as [|fuel IH]; intros l pre i sibs path Hl Hi Hs.
  { cbn [levels concat]. rewrite path_loop_step, next_level_short, path_loop_end by (done || lia). cbn. by rewrite app_nil_r. }
  cbn [levels path_from]. destruct (Nat.leb_spec (length l) 1) as [Hshort|Hlong]; cbn [concat].
  { rewrite path_loop_step, next_level_short, path_loop_end by (done || lia). by rewrite app_nil_r. }
  pose proof (pair_up_shorter l Hlong). rewrite path_loop_step, next_level_pair_up, app_assoc, <- length_app by done.
  rewrite IH; [|lia|rewrite length_pair_up; by apply div2_index|left; apply siblings_one].
  rewrite <- !app_assoc. do 3 f_equal. pose proof (siblings_one l i) as Hone. unfold entry_of.
  by destruct (siblings l i) as [[?|] [?|]].
Qed.

(** The root of the tree over a level. *)
Definition root_of (fuel : nat) (l : list Hash) : Hash := default 0%N (last (concat (levels fuel l))).

Lemma levels_last fuel l : l <> [] -> is_Some (last (concat (levels fuel l))).
Proof.
  intros Hl. destruct (levels_prefix fuel l) as (rest & ->). destruct (last (l ++ rest)) eqn:E; [by eexists|].
  apply last_None, app_eq_nil in E. by destruct E.
Qed.

Lemma root_of_S fuel l : (1 < length l)%nat -> root_of (S fuel) l = root_of fuel (pair_up l).
Proof.
  intros Hl. unfold root_of. cbn [levels]. destruct (Nat.leb_spec (length l) 1); [lia|]. cbn [concat].
  rewrite last_app. destruct (levels_last fuel (pair_up l)) as (x & ->); [|done].
  intros E. pose proof (pair_up_shorter l Hl) as Hlen. rewrite E in Hlen. cbn in Hlen. lia.
Qed.

Lemma root_of_one fuel (x : Hash) : root_of fuel [x] = x.
Proof. by destruct fuel. Qed.

Lemma path_from_verifies : forall fuel l i, (length l <= S fuel)%nat -> (i < length l)%nat ->
  proof_fold (path_from fuel l i) (l !!! i) = Some (root_of fuel l).
Proof.
  assert (forall (l : list Hash) i, (length l <= 1)%nat -> (i < length l)%nat -> l = [l !!! i]) as Hone.
  { intros [|x [|]] [|i]; cbn; try lia. done. }
  induction fuel as [|fuel IH]; intros l i Hl Hi; cbn [path_from].
  { rewrite (Hone l i) at 2 by lia. by rewrite root_of_one. }
  destruct (Nat.leb_spec (length l) 1) as [Hshort|Hlong].
  { rewrite (Hone l i) at 2 by lia. by rewrite root_of_one. }
  pose proof (pair_up_shorter l Hlong). rewrite root_of_S by done. cbn [proof_fold pe_left_sibling pe_right_sibling pe_target].
  pose proof (pair_up_lookup l i (l !!! i) (lookup_total_unwrap l i Hi)) as Hp.
  pose proof (list_lookup_total_correct _ _ _ Hp) as Ht. rewrite Ht, N.eqb_refl, <- Ht.
  apply IH; [lia|]. rewrite length_pair_up. by apply div2_index.
Qed.

(** ** Lemmas: what a root commits to *)

Lemma be_bytes_inj len a b :
  (a < 256 ^ N.of_nat len)%N -> (b < 256 ^ N.of_nat len)%N -> be_bytes len a = be_bytes len b -> a = b.
Proof.
  intros Ha Hb E. pose proof (fold_be_bytes len a 0) as Fa. pose proof (fold_be_bytes len b 0) as Fb.
  rewrite E, Fb in Fa. rewrite !N.mod_small in Fa by done. lia.
Qed.

Lemma hash_intermediate_input l r : hash_intermediate l r = sha256 (node_input l r).
Proof. unfold hash_intermediate, sha_hashv, node_input. cbn [concat]. by rewrite app_nil_r. Qed.

Lemma hash_leaf_input d : hash_leaf d = sha256 (LEAF_PREFIX ++ d).
Proof. unfold hash_leaf, sha_hashv. cbn [concat]. by rewrite app_nil_r. Qed.

Definition hash_sized (h : Hash) : Prop := (h < 256 ^ 32)%N.

Lemma node_input_inj l r l' r' : hash_sized l -> hash_sized r -> hash_sized l' -> hash_sized r' ->
  node_input l r = node_input l' r' -> l = l' /\ r = r'.
Proof.
  intros Hl Hr Hl' Hr' E. unfold node_input in E. apply app_inv_head in E.
  apply app_inj_1 in E as [E1 E2]; [|unfold hash_bytes; rewrite !length_be_bytes; exact eq_refl].
  split; [exact (be_bytes_inj 32 l l' Hl Hl' E1)|exact (be_bytes_inj 32 r r' Hr Hr' E2)].
Qed.

Lemma pair_up_inj l : forall l', length l = length l' -> Forall hash_sized l -> Forall hash_sized l' ->
  no_collision (pair_inputs l) (pair_inputs l') -> pair_up l = pair_up l' -> l = l'.
Proof.
  induction l as [|a|a b l IH] using pair_ind; intros l' Hlen Hs Hs' Hc E.
  - by destruct l'.
  - destruct l' as [|a' [|]]; try done. rewrite !Forall_cons in Hs, Hs'. cbn in E. injection E as E.
    rewrite !hash_intermediate_input in E. apply Hc in E; [|apply list_elem_of_here..].
    apply node_input_inj in E as [-> _]; tauto.
  - destruct l' as [|a' [|b' l']]; try done. rewrite !Forall_cons in Hs, Hs'. cbn in E. injection E as E El.
    rewrite !hash_intermediate_input in E. apply Hc in E; [|apply list_elem_of_here..].
    apply node_input_inj in E as [-> ->]; try tauto. do 2 f_equal. apply IH; try tauto; [by injection Hlen|].
    intros x y Hx Hy. apply Hc; by apply list_elem_of_further.
Qed.

Context {Hlaws : Sha256Laws _}.

Lemma hash_sized_sha x : hash_sized (sha256 x).
Proof. apply sha256_size. Qed.

Lemma pair_up_sized l : Forall hash_sized (pair_up l).
Proof.
  induction l as [|a|a b l IH] using pair_ind; cbn; repeat (apply Forall_cons; split); try done;
    rewrite hash_intermediate_input; apply hash_sized_sha.
Qed.

Lemma no_collision_app_l xs ys xs' ys' : no_collision (xs ++ xs') (ys ++ ys') -> no_collision xs ys.
Proof. intros Hc x y Hx Hy. apply Hc; apply elem_of_app; by left. Qed.
Lemma no_collision_app_r xs ys xs' ys' : no_collision (xs ++ xs') (ys ++ ys') -> no_collision xs' ys'.
Proof. intros Hc x y Hx Hy. apply Hc; apply elem_of_app; by right. Qed.

Lemma root_of_inj : forall fuel l l', length l = length l' -> (0 < length l <= S fuel)%nat ->
  Forall hash_sized l -> Forall hash_sized l' ->
  no_collision (level_inputs fuel l) (level_inputs fuel l') -> root_of fuel l = root_of fuel l' -> l = l'.
Proof.
  induction fuel as [|fuel IH]; intros l l' Hlen Hl Hs Hs' Hc E.
  { destruct l as [|x [|]], l' as [|x' [|]]; cbn in Hl, Hlen; try lia. by rewrite !root_of_one in E; subst. }
  destruct (Nat.leb_spec (length l) 1) as [Hshort|Hlong].
  { destruct l as [|x [|]], l' as [|x' [|]]; cbn in Hl, Hlen, Hshort; try lia. by rewrite !root_of_one in E; subst. }
  cbn [level_inputs] in Hc. rewrite <- Hlen in Hc. destruct (Nat.leb_spec (length l) 1); [lia|].
  rewrite !root_of_S in E by lia. pose proof (pair_up_shorter l Hlong). 
  apply (pair_up_inj l l'); try done; [by apply no_collision_app_l in Hc|].
  apply IH; try apply pair_up_sized; try done; [by rewrite !length_pair_up, Hlen|lia|by apply no_collision_app_r in Hc].
Qed.

Lemma leaves_inj items : forall items', length items = length items' ->
  no_collision (map (fun d => LEAF_PREFIX ++ d) items) (map (fun d => LEAF_PREFIX ++ d) items') ->
  map hash_leaf items = map hash_leaf items' -> items = items'.
Proof.
  induction items as [|d items IH]; intros [|d' items'] Hlen Hc E; try done.
  cbn [map] in E. injection E as E El. rewrite !hash_leaf_input in E.
  apply Hc in E; [|apply list_elem_of_here..]. apply app_inv_head in E as ->. f_equal. apply IH; [by injection Hlen| |done].
  intros x y Hx Hy. apply Hc; by apply list_elem_of_further.
Qed.

Lemma get_root_of items : items <> [] ->
  last (concat (levels (length items) (map hash_leaf items))) = Some (root_of (length items) (map hash_leaf items)).
Proof.
  intros Hi. unfold root_of. destruct (levels_last (length items) (map hash_leaf items)) as (x & ->); [|done].
  by destruct items.
Qed.

Lemma leaves_sized items : Forall hash_sized (map hash_leaf items).
Proof. apply Forall_forall. intros h (d & -> & _)%list_elem_of_fmap. rewrite hash_leaf_input. apply hash_sized_sha. Qed.

(** The root commits to the items, when their number is known. *)
Lemma root_commits items items' mt mt' :
  merkle_new items = Returns mt -> merkle_new items' = Returns mt' -> length items = length items' ->
  no_collision (tree_inputs items) (tree_inputs items') -> get_root mt = get_root mt' -> items = items'.
Proof.
  rewrite !merkle_new_levels. intros [= <-] [= <-] Hlen Hc E. unfold get_root in E. cbn [nodes] in E.
  destruct (decide (items = [])) as [->|Hne]; [by destruct items'|].
  rewrite !get_root_of in E by (done || by intros ->; destruct items). injection E as E.
  unfold tree_inputs in Hc. rewrite <- Hlen in E, Hc. apply leaves_inj; [done|by apply no_collision_app_l in Hc|].
  apply (root_of_inj (length items)); rewrite ?length_map; try apply leaves_sized; try done.
  - destruct items; cbn; [done|lia].
  - by apply no_collision_app_r in Hc.
Qed.

Lemma pair_inputs_elem l : forall i, (i < length l)%nat ->
  node_input (default (l !!! i) (siblings l i).1) (default (l !!! i) (siblings l i).2) ∈ pair_inputs l.
Proof.
  induction l as [|a|a b l IH] using pair_ind; intros i Hi; [cbn in Hi; lia| |].
  - destruct i; [|cbn in Hi; lia]. apply list_elem_of_here.
  - destruct i as [|[|i]]; [apply list_elem_of_here..|]. cbn [pair_inputs]. apply list_elem_of_further.
    specialize (IH i ltac:(cbn in Hi; lia)). unfold siblings in *. cbn [Nat.even]. destruct (Nat.even i) eqn:He; [done|].
    destruct i as [|i]; [done|]. cbn in IH |- *. by rewrite Nat.sub_0_r in IH.
Qed.

(** The first entry of a path pins the candidate. *)
Lemma path_from_pins fuel l i c :
  (length l <= S fuel)%nat -> (1 < length l)%nat -> (i < length l)%nat -> Forall hash_sized l -> hash_sized c ->
  no_collision (level_inputs fuel l) (proof_inputs (path_from fuel l i) c) ->
  proof_verify (path_from fuel l i) c = true -> c = l !!! i.
Proof.
  intros Hl H1 Hi Hs Hsc Hc Hv. destruct fuel as [|fuel]; [lia|]. unfold proof_verify in Hv.
  cbn [path_from level_inputs] in *. destruct (Nat.leb_spec (length l) 1); [lia|].
  cbn [proof_fold proof_inputs pe_left_sibling pe_right_sibling pe_target] in *.
  destruct (N.eqb_spec (hash_intermediate (default c (siblings l i).1) (default c (siblings l i).2))
    (pair_up l !!! Nat.div2 i)) as [E|]; [|done].
  pose proof (pair_up_lookup l i (l !!! i) (lookup_total_unwrap l i Hi)) as Hp.
  rewrite (list_lookup_total_correct _ _ _ Hp), !hash_intermediate_input in E. symmetry in E.
  assert (forall j, hash_sized (l !!! j)) as Hsl.
  { intros j. destruct (decide (j < length l)%nat) as [Hj|Hj].
    - rewrite Forall_forall in Hs. apply Hs, list_elem_of_lookup_2 with j, lookup_total_unwrap. done.
    - rewrite list_lookup_total_alt, lookup_ge_None_2 by lia. done. }
  apply Hc in E; [|apply elem_of_app; left; by apply pair_inputs_elem|apply list_elem_of_here].
  assert (forall j, hash_sized (default (l !!! i) (l !! j))) as Hsd.
  { intros j. destruct (l !! j) as [x|] eqn:Ej; [|apply Hsl]. rewrite <- (list_lookup_total_correct _ _ _ Ej). apply Hsl. }
  unfold siblings in E. destruct (Nat.even i); cbn in E; apply node_input_inj in E as [E1 E2]; auto.
Qed.

End Merkle.

(** ** A sample hash function *)

Module MerkleSample.

#[export] Instance toy : Sha256 :=
  {| sha256 := fun x => fold_left (fun acc b => (acc * 257 + Z.to_N b + 1) mod 1000003)%N x 0%N |}.

#[export] Instance toy_laws : Sha256Laws toy.
Proof.
  split. intros x. cbn [sha256 toy]. destruct x as [|b x _] using rev_ind; [done|].
  rewrite fold_left_app. eapply N.lt_trans; [by apply N.mod_lt|done].
Qed.

Definition items : list (list Z) := [[1]; [2; 3]; [4]].

End MerkleSample.

(** ** Properties *)

(** C32: The inclusion proofs of a Merkle tree.  Building the tree and finding a
    path never panic; there is a path for each item and for no index past the
    last; folding the path over the item's hash gives the root of the tree.
    With two items or more, and no collision of the hash function among the
    inputs involved, a path accepts no other candidate; in a tree of one item
    the path is empty and accepts every candidate. *)
Theorem merkle_proofs_exact `{Sha256} `{!Sha256Laws _} (items : list (list Z)) :
  exists mt, merkle_new items = Returns mt /\ forall i,
    match items !! i with
    | None => find_path mt i = Returns None
    | Some d => exists path, find_path mt i = Returns (Some path)
        /\ proof_fold path (hash_leaf d) = get_root mt
        /\ (length items = 1%nat -> forall c, proof_verify path c = true)
        /\ ((2 <= length items)%nat -> forall c, hash_sized c ->
            no_collision (tree_inputs items) (proof_inputs path c) ->
            proof_verify path c = true -> c = hash_leaf d)
    end.
Proof.
  eexists. split; [apply merkle_new_levels|]. intros i. unfold find_path, get_root. cbn [leaf_count nodes].
  destruct (items !! i) as [d|] eqn:Hd; destruct (Nat.leb_spec (length items) i) as [Hi|Hi].
  - apply lookup_lt_Some in Hd. lia.
  - set (leaves := map hash_leaf items). assert (length leaves = length items) as Hlen by apply length_map.
    assert (leaves !!! i = hash_leaf d) as Hleaf.
    { apply list_lookup_total_correct. unfold leaves. rewrite list_lookup_fmap, Hd. done. }
    pose proof (path_loop_spec (length items) leaves [] i (None, None) []) as Hp. cbn [app length fst snd] in Hp.
    rewrite Hlen in Hp. rewrite Hp by (lia || by right).
    cbn [entry_of is_some orb fst snd app mbind outcome_bind]. eexists. split; [done|]. split_and!.
    + rewrite <- Hleaf, path_from_verifies by lia. symmetry. apply get_root_of. intros ->. done.
    + intros H1 c. rewrite H1. cbn [path_from]. by rewrite Hlen, H1.
    + intros H2 c Hsc Hc Hv. rewrite <- Hleaf. apply (path_from_pins (length items)); try lia; try done; [apply leaves_sized|].
      intros x y Hx. apply Hc. unfold tree_inputs. apply elem_of_app. by right.
  - done.
  - apply lookup_ge_None_1 in Hd. lia.
Qed.

Import MerkleSample.

Lemma merkle_proofs_exact_witness :
  exists mt path c, merkle_new MerkleSample.items = Returns mt /\ find_path mt 2 = Returns (Some path)
    /\ length path = 2%nat /\ proof_fold path (hash_leaf [4]) = get_root mt
    /\ c <> hash_leaf [4] /\ proof_verify path c = false.
Proof.
  destruct (merkle_proofs_exact MerkleSample.items) as (mt & Hmt & Hall).
  destruct (Hall 2%nat) as (path & Hpath & Hroot & _ & Hpin).
  assert (length path = 2%nat) as Hlen.
  { assert (match merkle_new MerkleSample.items with
            | Returns mt => match find_path mt 2 with Returns (Some p) => length p | _ => 0%nat end
            | Panics => 0%nat end = 2%nat) as E by by vm_compute.
    rewrite Hmt, Hpath in E. exact E. }
  exists mt, path, 5%N. split_and!; [exact Hmt|exact Hpath|exact Hlen|exact Hroot|by vm_compute|].
  destruct (proof_verify path 5%N) eqn:Hv; [|done]. exfalso.
  assert (5%N = hash_leaf [4]) as Hbad; [|by vm_compute in Hbad].
  apply Hpin; [cbn; lia|done| |exact Hv].
  assert (path = match merkle_new MerkleSample.items with
            | Returns mt => match find_path mt 2 with Returns (Some p) => p | _ => [] end
            | Panics => [] end) as -> by by rewrite Hmt, Hpath.
  assert (Forall (fun x => Forall (fun y => sha256 x = sha256 y -> x = y)
    (proof_inputs match merkle_new MerkleSample.items with
            | Returns mt => match find_path mt 2 with Returns (Some p) => p | _ => [] end
            | Panics => [] end 5%N)) (tree_inputs MerkleSample.items)) as Hf
    by (apply (bool_decide_unpack _); by vm_compute).
  intros x y Hx Hy. rewrite Forall_forall in Hf. specialize (Hf x Hx). rewrite Forall_forall in Hf. auto.
Defined.
