(* ===== verification/Poh.v ===== *)
(** * Proof of history and entries

    Models entry/src/poh.rs, the hash chain whose length stands for time, and
    entry/src/entry.rs, the entries of the ledger that are cut out of it and
    their verification on the CPU, with SIMD instructions and on a GPU.  The
    time at which a slot started is left out.

    The routines of the perf library that hash many entries at once are the
    class [PerfLibs]. *)

From S2P Require Import Prelude Message InstructionsSysvar Transaction Merkle.

(** ** The hash chain *)

Record Poh := {
  poh_hash : Hash;
  poh_num_hashes : Z;
  poh_hashes_per_tick : Z;
  poh_remaining_hashes : Z;
  poh_ticks_per_slot : Z;
  poh_tick_number : Z;
}.

Record PohEntry := { pohe_num_hashes : Z; pohe_hash : Hash }.

Definition new_with_slot_info (hash : Hash) (hashes_per_tick : option Z) (ticks_per_slot tick_number : Z)
    : outcome Poh :=
  let hashes_per_tick := default U64_MAX hashes_per_tick in
  _ ← assert_ (1 <? hashes_per_tick);
  Returns {| poh_hash := hash; poh_num_hashes := 0; poh_hashes_per_tick := hashes_per_tick;
             poh_remaining_hashes := hashes_per_tick; poh_ticks_per_slot := ticks_per_slot;
             poh_tick_number := tick_number |}.

Definition poh_new (hash : Hash) (hashes_per_tick : option Z) : outcome Poh :=
  new_with_slot_info hash hashes_per_tick 0 0.

Definition poh_reset (self : Poh) (hash : Hash) (hashes_per_tick : option Z) : outcome Poh :=
  new_with_slot_info hash hashes_per_tick (poh_ticks_per_slot self) 0.

Section Poh.
Context `{Sha256}.

(** The loop [for _ in 0..n] that hashes [h] again and again. *)
Definition hash_times (n : Z) (h : Hash) : Hash := Z.iter n (fun h => sha_hash (hash_bytes h)) h.

(** [Poh::hash]; [true] when the caller needs to tick next. *)
Definition hash_up_to (self : Poh) (max_num_hashes : Z) : outcome (Poh * bool) :=
  let num_hashes := Z.min (wrap64 (poh_remaining_hashes self - 1)) max_num_hashes in
  let remaining_hashes := wrap64 (poh_remaining_hashes self - num_hashes) in
  let self :=
    {| poh_hash := hash_times num_hashes (poh_hash self);
       poh_num_hashes := wrap64 (poh_num_hashes self + num_hashes);
       poh_hashes_per_tick := poh_hashes_per_tick self;
       poh_remaining_hashes := remaining_hashes;
       poh_ticks_per_slot := poh_ticks_per_slot self;
       poh_tick_number := poh_tick_number self |} in
  _ ← assert_ (0 <? remaining_hashes);
  Returns (self, remaining_hashes =? 1).

(** [Poh::record]. *)
Definition poh_record (self : Poh) (mixin : Hash) : Poh * option PohEntry :=
  if poh_remaining_hashes self =? 1 then (self, None)
  else
    let hash := sha_hashv [hash_bytes (poh_hash self); hash_bytes mixin] in
    ({| poh_hash := hash; poh_num_hashes := 0; poh_hashes_per_tick := poh_hashes_per_tick self;
        poh_remaining_hashes := wrap64 (poh_remaining_hashes self - 1);
        poh_ticks_per_slot := poh_ticks_per_slot self; poh_tick_number := poh_tick_number self |},
     Some {| pohe_num_hashes := wrap64 (poh_num_hashes self + 1); pohe_hash := hash |}).

(** [Poh::tick]. *)
Definition poh_tick (self : Poh) : Poh * option PohEntry :=
  let hash := sha_hash (hash_bytes (poh_hash self)) in
  let num_hashes := wrap64 (poh_num_hashes self + 1) in
  let remaining_hashes := wrap64 (poh_remaining_hashes self - 1) in
  if (poh_hashes_per_tick self <? U64_MAX) && negb (remaining_hashes =? 0) then
    ({| poh_hash := hash; poh_num_hashes := num_hashes; poh_hashes_per_tick := poh_hashes_per_tick self;
        poh_remaining_hashes := remaining_hashes; poh_ticks_per_slot := poh_ticks_per_slot self;
        poh_tick_number := poh_tick_number self |}, None)
  else
    ({| poh_hash := hash; poh_num_hashes := 0; poh_hashes_per_tick := poh_hashes_per_tick self;
        poh_remaining_hashes := poh_hashes_per_tick self; poh_ticks_per_slot := poh_ticks_per_slot self;
        poh_tick_number := wrap64 (poh_tick_number self + 1) |},
     Some {| pohe_num_hashes := num_hashes; pohe_hash := hash |}).

(** ** Entries *)

Record Entry := {
  en_num_hashes : Z;
  en_hash : Hash;
  en_transactions : list VersionedTransaction;
}.

Definition is_tick (e : Entry) : bool := match en_transactions e with [] => true | _ => false end.

(** The signatures of the transactions, as the leaves of the Merkle tree. *)
Definition signature_leaves (transactions : list VersionedTransaction) : list (list Z) :=
  map signature_bytes (concat (map vt_signatures transactions)).

Definition hash_transactions (transactions : list VersionedTransaction) : outcome Hash :=
  merkle_tree ← merkle_new (signature_leaves transactions);
  Returns (default 0%N (get_root merkle_tree)).

Definition next_hash (start_hash : Hash) (num_hashes : Z) (transactions : list VersionedTransaction)
    : outcome Hash :=
  match transactions with
  | [] =>
      if num_hashes =? 0 then Returns start_hash
      else poh ← poh_new start_hash None;
           '(poh, _) ← hash_up_to poh (sat_sub64 num_hashes 1);
           entry ← unwrap (poh_tick poh).2;
           Returns (pohe_hash entry)
  | _ =>
      poh ← poh_new start_hash None;
      '(poh, _) ← hash_up_to poh (sat_sub64 num_hashes 1);
      mixin ← hash_transactions transactions;
      entry ← unwrap (poh_record poh mixin).2;
      Returns (pohe_hash entry)
  end.

(** [From<Transaction> for VersionedTransaction]. *)
Definition versioned_from (tx : Transaction) : VersionedTransaction :=
  {| vt_signatures := tx_signatures tx; vt_message := VersionedLegacy (tx_message tx) |}.

Definition entry_new (prev_hash : Hash) (num_hashes : Z) (transactions : list Transaction) : outcome Entry :=
  let num_hashes :=
    match transactions with [] => num_hashes | _ => if num_hashes =? 0 then 1 else num_hashes end in
  let transactions := map versioned_from transactions in
  hash ← next_hash prev_hash num_hashes transactions;
  Returns {| en_num_hashes := num_hashes; en_hash := hash; en_transactions := transactions |}.

Definition entry_verify (self : Entry) (start_hash : Hash) : outcome bool :=
  ref_hash ← next_hash start_hash (en_num_hashes self) (en_transactions self);
  Returns (N.eqb (en_hash self) ref_hash).

(** [next_entry_mut], with the hash that it leaves in [start]. *)
Definition next_entry_mut (start : Hash) (num_hashes : Z) (transactions : list Transaction)
    : outcome (Hash * Entry) :=
  entry ← entry_new start num_hashes transactions;
  Returns (en_hash entry, entry).

Fixpoint create_ticks (num_ticks : nat) (hashes_per_tick : Z) (hash : Hash) : outcome (list Entry) :=
  match num_ticks with
  | O => Returns []
  | S num_ticks =>
      '(hash, new_tick) ← next_entry_mut hash hashes_per_tick [];
      ticks ← create_ticks num_ticks hashes_per_tick hash;
      Returns (new_tick :: ticks)
  end.

(** ** Slices of entries *)

(** [iter.all(f)] for a test that may panic. *)
Fixpoint all_outcome {A} (f : A -> outcome bool) (l : list A) : outcome bool :=
  match l with
  | [] => Returns true
  | x :: rest => b ← f x; if (b : bool) then all_outcome f rest else Returns false
  end.

(** The hash before each entry: [genesis.iter().chain(self)] cut to the
    length of [self]. *)
Definition prev_hashes (start_hash : Hash) (entries : list Entry) : list Hash :=
  take (length entries) (start_hash :: map en_hash entries).

Definition verify_cpu_generic (start_hash : Hash) (entries : list Entry) : outcome bool :=
  all_outcome (fun '(x0, x1) => entry_verify x1 x0) (zip (prev_hashes start_hash entries) entries).

(** The hashes of the perf library: each hash is hashed as many times as the
    count at its index says, in place. *)
Class PerfLibs := {
  poh_verify_many : list Hash -> list Z -> list Hash;
  (** Eight hashes at a time, and sixteen. *)
  poh_verify_many_simd_avx2 : list Hash -> list Z -> list Hash;
  poh_verify_many_simd_avx512skx : list Hash -> list Z -> list Hash;
}.

Definition many_hashes (hashes : list Hash) (counts : list Z) : list Hash :=
  zip_with (fun h n => hash_times n h) hashes counts.

Class PerfLibsLaws `(PerfLibs) : Prop := {
  poh_verify_many_spec hashes counts : length hashes = length counts ->
    poh_verify_many hashes counts = many_hashes hashes counts;
  poh_verify_many_simd_avx2_spec hashes counts : length hashes = 8%nat -> length counts = 8%nat ->
    poh_verify_many_simd_avx2 hashes counts = many_hashes hashes counts;
  poh_verify_many_simd_avx512skx_spec hashes counts : length hashes = 16%nat -> length counts = 16%nat ->
    poh_verify_many_simd_avx512skx hashes counts = many_hashes hashes counts;
}.

Definition compare_hashes (computed_hash : Hash) (ref_entry : Entry) : outcome bool :=
  actual ←
    match en_transactions ref_entry with
    | _ :: _ =>
        tx_hash ← hash_transactions (en_transactions ref_entry);
        poh ← poh_new computed_hash None;
        entry ← unwrap (poh_record poh tx_hash).2;
        Returns (pohe_hash entry)
    | [] =>
        if 0 <? en_num_hashes ref_entry then
          poh ← poh_new computed_hash None;
          entry ← unwrap (poh_tick poh).2;
          Returns (pohe_hash entry)
        else Returns computed_hash
    end;
  Returns (N.eqb actual (en_hash ref_entry)).

(** [slice.chunks(n)]. *)
Fixpoint chunks {A} (fuel n : nat) (l : list A) : list (list A) :=
  match fuel with
  | O => []
  | S fuel => match l with [] => [] | _ => take n l :: chunks fuel n (drop n l) end
  end.

Context `{PerfLibs}.

(** The hashes of a chunk, for the two widths the code knows; another width
    panics ("unsupported simd len"). *)
Definition simd_hashes (simd_len : nat) (chunk : list Hash) (num_hashes : list Z) : outcome (list Hash) :=
  match simd_len with
  | 8%nat => Returns (poh_verify_many_simd_avx2 chunk num_hashes)
  | 16%nat => Returns (poh_verify_many_simd_avx512skx chunk num_hashes)
  | _ => Panics
  end.

(** One chunk: the entries from [entry_start] on against the hashes of the
    chunk. *)
Definition verify_chunk (entries : list Entry) (simd_len : nat) (c : nat * (list Hash * list Z))
    : outcome bool :=
  let '(i, (chunk, num_hashes)) := c in
  chunk ← simd_hashes simd_len chunk num_hashes;
  let entry_start := (i * simd_len)%nat in
  let entry_end := Nat.min (entry_start + simd_len) (length entries) in
  all_outcome (fun '(j, ref_entry) => hash ← unwrap (chunk !! j); compare_hashes hash ref_entry)
    (imap pair (take (entry_end - entry_start) (drop entry_start entries))).

(** A width of zero is a division by zero; any other width than the two of
    [simd_hashes] panics at the first chunk, if there is one. *)
Definition verify_cpu_x86_simd (simd_len : nat) (start_hash : Hash) (entries : list Entry) : outcome bool :=
  _ ← assert_ (negb (simd_len =? 0)%nat);
  let len := length entries in
  let aligned_len := ((len + simd_len - 1) / simd_len * simd_len)%nat in
  let hashes := prev_hashes start_hash entries ++ replicate (aligned_len - len) 0%N in
  let num_hashes := map (fun e => sat_sub64 (en_num_hashes e) 1) entries ++ replicate (aligned_len - len) 0 in
  all_outcome (verify_chunk entries simd_len)
    (imap pair (zip (chunks aligned_len simd_len hashes) (chunks aligned_len simd_len num_hashes))).

(** [verify_cpu]: the choice by the instruction sets of the processor. *)
Definition verify_cpu (has_api has_avx2 has_avx512 : bool) (start_hash : Hash) (entries : list Entry)
    : outcome bool :=
  if has_api then
    if has_avx512 && (128 <=? length entries)%nat then verify_cpu_x86_simd 16 start_hash entries
    else if has_avx2 && (48 <=? length entries)%nat then verify_cpu_x86_simd 8 start_hash entries
    else verify_cpu_generic start_hash entries
  else verify_cpu_generic start_hash entries.

(** Last action required to verify an entry. *)
Inductive VerifyAction := Mixin (mixin : Hash) | Tick | NoAction.

Definition verification_of (entry : Entry) : outcome (VerifyAction * Hash) :=
  match en_transactions entry with
  | [] => Returns (if en_num_hashes entry =? 0 then NoAction else Tick, en_hash entry)
  | _ => mixin ← hash_transactions (en_transactions entry); Returns (Mixin mixin, en_hash entry)
  end.

Definition finish_action (hash : Hash) (v : VerifyAction * Hash) : outcome bool :=
  let '(action, expected) := v in
  actual ←
    match action with
    | Mixin mixin => poh ← poh_new hash None; entry ← unwrap (poh_record poh mixin).2; Returns (pohe_hash entry)
    | Tick => poh ← poh_new hash None; entry ← unwrap (poh_tick poh).2; Returns (pohe_hash entry)
    | NoAction => Returns hash
    end;
  Returns (N.eqb actual expected).

(** [start_verify] on a GPU and its [finish_verify]. *)
Definition verify_gpu (start_hash : Hash) (entries : list Entry) : outcome bool :=
  let hashes := poh_verify_many (prev_hashes start_hash entries)
                  (map (fun e => sat_sub64 (en_num_hashes e) 1) entries) in
  verifications ← map_outcome verification_of entries;
  all_outcome (fun '(hash, v) => finish_action hash v) (zip hashes verifications).

(** [EntrySlice::verify]. *)
Definition entries_verify (has_api : bool) (start_hash : Hash) (entries : list Entry) : outcome bool :=
  if has_api then verify_gpu start_hash entries
  else verify_cpu false false false start_hash entries.

(** The count that is carried over to the next slice, and the answer. *)
Fixpoint tick_hash_loop (entries : list Entry) (tick_hash_count hashes_per_tick : Z) : Z * bool :=
  match entries with
  | [] => (tick_hash_count, tick_hash_count <? hashes_per_tick)
  | entry :: rest =>
      let tick_hash_count := sat_add64 tick_hash_count (en_num_hashes entry) in
      if is_tick entry then
        if negb (tick_hash_count =? hashes_per_tick) then (tick_hash_count, false)
        else tick_hash_loop rest 0 hashes_per_tick
      else tick_hash_loop rest tick_hash_count hashes_per_tick
  end.

Definition verify_tick_hash_count (entries : list Entry) (tick_hash_count hashes_per_tick : Z) : Z * bool :=
  if hashes_per_tick =? 0 then (tick_hash_count, true)
  else tick_hash_loop entries tick_hash_count hashes_per_tick.

Definition tick_count (entries : list Entry) : Z := Z.of_nat (length (List.filter is_tick entries)).

End Poh.
