(* ===== verification/PohChain.v ===== *)
(** * What the hash chain proves

    Theorems about Poh.v: however hashing, recording and ticking are
    interleaved, the entries that come out verify and have the right number
    of hashes in every tick; the three ways of verifying agree; and the hash
    of an entry commits to the signatures of its transactions. *)

From S2P Require Import Prelude Message InstructionsSysvar Transaction Merkle Poh.

#[local] Arguments sha_hash : simpl never.
#[local] Arguments sha_hashv : simpl never.
#[local] Arguments hash_bytes : simpl never.
#[local] Arguments hash_times : simpl never.

(** ** Runs of the chain *)

Section Chain.
Context `{Sha256}.

Inductive PohOp :=
| OpHash (max_num_hashes : Z)
| OpRecord (transactions : list VersionedTransaction)
| OpTick.

Definition entry_from (e : option PohEntry) (transactions : list VersionedTransaction) : list Entry :=
  match e with
  | Some e => [{| en_num_hashes := pohe_num_hashes e; en_hash := pohe_hash e; en_transactions := transactions |}]
  | None => []
  end.

(** One operation, with the entry that the recorder makes of its answer. *)
Definition poh_step (p : Poh) (op : PohOp) : outcome (Poh * list Entry) :=
  match op with
  | OpHash n => '(p, _) ← hash_up_to p n; Returns (p, [])
  | OpRecord transactions =>
      mixin ← hash_transactions transactions;
      let '(p, e) := poh_record p mixin in Returns (p, entry_from e transactions)
  | OpTick => let '(p, e) := poh_tick p in Returns (p, entry_from e [])
  end.

Fixpoint poh_run (p : Poh) (ops : list PohOp) : outcome (Poh * list Entry) :=
  match ops with
  | [] => Returns (p, [])
  | op :: rest =>
      '(p, e) ← poh_step p op;
      '(p, es) ← poh_run p rest;
      Returns (p, e ++ es)
  end.

Definition op_ok (op : PohOp) : Prop :=
  match op with
  | OpHash n => u64 n
  | OpRecord transactions => transactions <> []
  | OpTick => True
  end.

(** [p] continues the chain [poh_num_hashes p] hashes after [prev], the hash
    of the last entry. *)
Record continues (prev : Hash) (p : Poh) : Prop := {
  pc_hash : poh_hash p = hash_times (poh_num_hashes p) prev;
  pc_num : 0 <= poh_num_hashes p <= poh_hashes_per_tick p - poh_remaining_hashes p;
  pc_remaining : 1 <= poh_remaining_hashes p <= poh_hashes_per_tick p;
  pc_per_tick : 1 < poh_hashes_per_tick p <= U64_MAX;
}.

(** The hashes of the current tick that are in entries. *)
Definition carried (p : Poh) : Z := poh_hashes_per_tick p - poh_remaining_hashes p - poh_num_hashes p.

(** What the mixin of transactions is. *)
Definition mixin_of (transactions : list VersionedTransaction) : Hash :=
  let leaves := signature_leaves transactions in
  default 0%N (last (concat (levels (length leaves) (map hash_leaf leaves)))).

(** The hash of an entry after [start]. *)
Definition entry_hash (start : Hash) (num_hashes : Z) (transactions : list VersionedTransaction) : Hash :=
  match transactions with
  | [] => hash_times num_hashes start
  | _ => sha_hashv [hash_bytes (hash_times (sat_sub64 num_hashes 1) start); hash_bytes (mixin_of transactions)]
  end.

(** An entry that verification can hash. *)
Definition entry_ok (e : Entry) : Prop :=
  0 <= en_num_hashes e <= U64_MAX /\ (en_transactions e <> [] -> en_num_hashes e < U64_MAX).

(** ** Lemmas: hashing *)

Lemma hash_times_0 h : hash_times 0 h = h.
Proof. done. Qed.

Lemma hash_times_add a b h : 0 <= a -> 0 <= b -> hash_times (a + b) h = hash_times b (hash_times a h).
Proof.
  intros Ha Hb. unfold hash_times. rewrite !iter_nat_of_Z by lia.
  replace (Z.abs_nat (a + b)) with (Z.abs_nat b + Z.abs_nat a)%nat by lia. apply Nat.iter_add.
Qed.

Lemma hash_times_S n h : 0 <= n -> sha_hash (hash_bytes (hash_times n h)) = hash_times (n + 1) h.
Proof. intros Hn. by rewrite hash_times_add. Qed.

Lemma hash_transactions_returns transactions : hash_transactions transactions = Returns (mixin_of transactions).
Proof. unfold hash_transactions. by rewrite merkle_new_levels. Qed.

Lemma poh_new_None h : poh_new h None = Returns {| poh_hash := h; poh_num_hashes := 0;
  poh_hashes_per_tick := U64_MAX; poh_remaining_hashes := U64_MAX; poh_ticks_per_slot := 0; poh_tick_number := 0 |}.
Proof. done. Qed.

Lemma next_hash_spec start n transactions :
  0 <= n <= U64_MAX -> (transactions <> [] -> n < U64_MAX) ->
  next_hash start n transactions = Returns (entry_hash start n transactions).
Proof.
  intros Hn Ht. unfold next_hash, entry_hash. destruct transactions as [|tx txs].
  - destruct (Z.eqb_spec n 0) as [->|Hn0]; [done|]. rewrite poh_new_None. cbn [mbind outcome_bind].
    unfold hash_up_to. cbn [poh_remaining_hashes poh_num_hashes poh_hash poh_hashes_per_tick].
    replace (Z.min (wrap64 (U64_MAX - 1)) (sat_sub64 n 1)) with (n - 1)
      by (rewrite wrap64_small by (u_unfold; lia); u_unfold; lia).
    rewrite (wrap64_small (U64_MAX - (n - 1))) by (u_unfold; lia).
    destruct (Z.ltb_spec 0 (U64_MAX - (n - 1))); [|u_unfold; lia]. cbn [assert_ mbind outcome_bind].
    unfold poh_tick. cbn [poh_hashes_per_tick poh_hash]. rewrite Z.ltb_irrefl. cbn [andb snd unwrap mbind outcome_bind pohe_hash].
    rewrite hash_times_S by lia. do 2 f_equal. lia.
  - rewrite poh_new_None. cbn [mbind outcome_bind].
    unfold hash_up_to. cbn [poh_remaining_hashes poh_num_hashes poh_hash poh_hashes_per_tick].
    assert (n < U64_MAX) as Hlt by by apply Ht.
    replace (Z.min (wrap64 (U64_MAX - 1)) (sat_sub64 n 1)) with (sat_sub64 n 1)
      by (rewrite wrap64_small by (u_unfold; lia); u_unfold; lia).
    rewrite (wrap64_small (U64_MAX - sat_sub64 n 1)) by (u_unfold; lia).
    destruct (Z.ltb_spec 0 (U64_MAX - sat_sub64 n 1)); [|u_unfold; lia]. cbn [assert_ mbind outcome_bind].
    rewrite hash_transactions_returns. cbn [mbind outcome_bind]. unfold poh_record. cbn [poh_remaining_hashes].
    destruct (Z.eqb_spec (U64_MAX - sat_sub64 n 1) 1); [u_unfold; lia|]. done.
Qed.

Lemma entry_verify_spec e start : entry_ok e ->
  entry_verify e start = Returns (N.eqb (en_hash e) (entry_hash start (en_num_hashes e) (en_transactions e))).
Proof. intros [Hn Ht]. unfold entry_verify. by rewrite next_hash_spec. Qed.

(** ** Lemmas: verification of a slice *)

Lemma prev_hashes_cons start e es : prev_hashes start (e :: es) = start :: prev_hashes (en_hash e) es.
Proof. done. Qed.

Lemma verify_generic_cons start e es :
  verify_cpu_generic start (e :: es) =
  (b ← entry_verify e start; if (b : bool) then verify_cpu_generic (en_hash e) es else Returns false).
Proof. done. Qed.

Lemma verify_generic_one start e es :
  entry_ok e -> en_hash e = entry_hash start (en_num_hashes e) (en_transactions e) ->
  verify_cpu_generic start (e :: es) = verify_cpu_generic (en_hash e) es.
Proof. intros He Hh. rewrite verify_generic_cons, entry_verify_spec by done. cbn. by rewrite Hh, N.eqb_refl. Qed.

(** ** Lemmas: one step *)

(** An operation keeps the chain going; what it emits verifies and is
    counted. *)
Lemma poh_step_chain prev p op : op_ok op -> continues prev p ->
  exists p' es, poh_step p op = Returns (p', es)
    /\ continues (match last es with Some e => en_hash e | None => prev end) p'
    /\ poh_hashes_per_tick p' = poh_hashes_per_tick p
    /\ match es with
       | [] => carried p' = carried p
       | [e] => entry_ok e /\ en_hash e = entry_hash prev (en_num_hashes e) (en_transactions e)
           /\ (if is_tick e then carried p' = 0 /\ (poh_hashes_per_tick p < U64_MAX ->
                 carried p + en_num_hashes e = poh_hashes_per_tick p)
               else carried p' = carried p + en_num_hashes e)
       | _ => False
       end.
Proof.
  intros Hop [Hh Hn Hr Ht]. unfold carried. destruct op as [n|txs|]; cbn [poh_step op_ok] in *.
  - unfold hash_up_to. rewrite (wrap64_small (poh_remaining_hashes p - 1)) by (u_unfold; lia).
    set (k := Z.min (poh_remaining_hashes p - 1) n). assert (0 <= k <= poh_remaining_hashes p - 1) by (u_unfold; lia).
    rewrite !wrap64_small by (u_unfold; lia).
    destruct (Z.ltb_spec 0 (poh_remaining_hashes p - k)); [|lia]. cbn. do 2 eexists. split; [done|]. cbn.
    split_and!; [|done|lia]. split; cbn; try lia. rewrite Hh, hash_times_add by lia. done.
  - rewrite hash_transactions_returns. cbn [mbind outcome_bind]. unfold poh_record.
    destruct (Z.eqb_spec (poh_remaining_hashes p) 1).
    { do 2 eexists. split; [done|]. cbn. split_and!; done. }
    rewrite !wrap64_small by (u_unfold; lia). do 2 eexists. split; [done|]. cbn [entry_from last pohe_hash pohe_num_hashes
      en_hash en_num_hashes en_transactions poh_hashes_per_tick poh_remaining_hashes poh_num_hashes].
    split_and!; [split; cbn; try lia; done|done| | |].
    + split; cbn; u_unfold; lia.
    + unfold entry_hash. destruct txs; [done|]. rewrite Hh. do 4 f_equal. u_unfold. lia.
    + unfold is_tick. cbn. destruct txs; [done|]. lia.
  - unfold poh_tick. rewrite !wrap64_small by (u_unfold; lia).
    destruct ((poh_hashes_per_tick p <? U64_MAX) && negb (poh_remaining_hashes p - 1 =? 0)) eqn:Hc.
    { zbool. do 2 eexists. split; [done|]. cbn. split_and!; [|done|lia]. split; cbn; try lia.
      by rewrite Hh, hash_times_S by lia. }
    do 2 eexists. split; [done|]. cbn [entry_from last pohe_hash pohe_num_hashes
      en_hash en_num_hashes en_transactions poh_hashes_per_tick poh_remaining_hashes poh_num_hashes].
    split_and!; [split; cbn; try lia; done|done| | |].
    + split; cbn; [u_unfold; lia|done].
    + cbn. by rewrite Hh, hash_times_S by lia.
    + cbn. split; [lia|]. intros Hlt. apply andb_false_iff in Hc as [Hc|Hc]; zbool; lia.
Qed.

(** ** Lemmas: runs *)

Definition end_hash (prev : Hash) (es : list Entry) : Hash :=
  match last es with Some e => en_hash e | None => prev end.

Lemma poh_run_chain : forall ops prev p, Forall op_ok ops -> continues prev p ->
  exists p' es, poh_run p ops = Returns (p', es)
    /\ continues (end_hash prev es) p' /\ poh_hashes_per_tick p' = poh_hashes_per_tick p
    /\ Forall entry_ok es /\ verify_cpu_generic prev es = Returns true
    /\ (poh_hashes_per_tick p < U64_MAX ->
        tick_hash_loop es (carried p) (poh_hashes_per_tick p) = (carried p', true)).
Proof.
  induction ops as [|op ops IH]; intros prev p Hops Hp; cbn [poh_run].
  { exists p, []. split_and!; try done. intros _. cbn. unfold carried. destruct Hp.
    destruct (Z.ltb_spec (poh_hashes_per_tick p - poh_remaining_hashes p - poh_num_hashes p) (poh_hashes_per_tick p)); [done|lia]. }
  apply Forall_cons in Hops as [Hop Hops].
  destruct (poh_step_chain prev p op Hop Hp) as (p1 & e & -> & Hp1 & Ht1 & He). cbn [mbind outcome_bind].
  destruct (IH _ p1 Hops Hp1) as (p' & es & -> & Hp' & Ht' & Hok & Hv & Hc). cbn [mbind outcome_bind].
  exists p', (e ++ es). rewrite Ht' in *. rewrite Ht1 in *.
  assert (end_hash prev (e ++ es) = end_hash (match last e with Some e => en_hash e | None => prev end) es) as ->.
  { unfold end_hash. rewrite last_app. by destruct (last es). }
  destruct e as [|e [|]]; [| |done].
  - split_and!; try done. intros Hlt. cbn [app]. rewrite <- He. auto.
  - destruct He as (Heok & Hh & Hcount). split_and!; try done.
    + by apply Forall_cons.
    + cbn [app]. by rewrite verify_generic_one.
    + intros Hlt. cbn [app tick_hash_loop].
      destruct Hp as [_ Hn Hr Hpt], Heok as [Hen _], Hp1 as [_ Hn1 Hr1 Hpt1]. unfold carried in *. rewrite Ht1 in *.
      destruct (is_tick e).
      * destruct Hcount as [Hc0 Hsum]. specialize (Hsum Hlt).
        replace (sat_add64 _ _) with (poh_hashes_per_tick p) by (u_unfold; lia).
        rewrite Z.eqb_refl. cbn [negb]. rewrite <- Hc0. auto.
      * replace (sat_add64 _ _) with (poh_hashes_per_tick p - poh_remaining_hashes p1 - poh_num_hashes p1) by (u_unfold; lia).
        auto.
Qed.

Lemma new_continues start hashes_per_tick ticks_per_slot tick_number p :
  u64 (default U64_MAX hashes_per_tick) ->
  new_with_slot_info start hashes_per_tick ticks_per_slot tick_number = Returns p ->
  continues start p /\ poh_hashes_per_tick p = default U64_MAX hashes_per_tick /\ carried p = 0.
Proof.
  intros Hu Hp. unfold new_with_slot_info in Hp. destruct (Z.ltb_spec 1 (default U64_MAX hashes_per_tick)); [|done].
  injection Hp as <-. unfold carried. cbn. unfold u64 in Hu. split_and!; [|done|lia]. split; cbn; try done; lia.
Qed.

(** ** Lemmas: the ways of verifying *)

Lemma all_outcome_returns {A} (f : A -> outcome bool) (g : A -> bool) l :
  (forall x, x ∈ l -> f x = Returns (g x)) -> all_outcome f l = Returns (forallb g l).
Proof.
  induction l as [|x l IH]; intros Hf; cbn; [done|]. rewrite Hf by apply list_elem_of_here. cbn.
  destruct (g x); cbn; [|done]. apply IH. intros y Hy. by apply Hf, list_elem_of_further.
Qed.

(** The entry is what its predecessor's hash says. *)
Definition entry_right (start : Hash) (e : Entry) : bool :=
  N.eqb (en_hash e) (entry_hash start (en_num_hashes e) (en_transactions e)).

Definition slice_right (start : Hash) (entries : list Entry) : bool :=
  forallb (fun '(s, e) => entry_right s e) (zip (prev_hashes start entries) entries).

Lemma verify_generic_right start entries :
  Forall entry_ok entries -> verify_cpu_generic start entries = Returns (slice_right start entries).
Proof.
  intros Hok. apply all_outcome_returns. intros [s e] Hin. apply entry_verify_spec.
  rewrite Forall_forall in Hok. apply Hok. by eapply elem_of_zip_r.
Qed.

Lemma tick_after n s : 0 < n ->
  sha_hash (hash_bytes (hash_times (sat_sub64 n 1) s)) = hash_times n s.
Proof. intros Hn. rewrite hash_times_S by (u_unfold; lia). f_equal. u_unfold. lia. Qed.

Lemma compare_hashes_right s e : 0 <= en_num_hashes e ->
  compare_hashes (hash_times (sat_sub64 (en_num_hashes e) 1) s) e = Returns (entry_right s e).
Proof.
  intros Hn. unfold compare_hashes, entry_right, entry_hash. destruct (en_transactions e) as [|tx txs].
  - destruct (Z.ltb_spec 0 (en_num_hashes e)).
    + rewrite <- (tick_after (en_num_hashes e) s) by done. cbn. by rewrite N.eqb_sym.
    + replace (en_num_hashes e) with 0 by lia. cbn. by rewrite N.eqb_sym.
  - rewrite hash_transactions_returns. cbn. by rewrite N.eqb_sym.
Qed.

Lemma finish_action_right s e : 0 <= en_num_hashes e ->
  exists v, verification_of e = Returns v
    /\ finish_action (hash_times (sat_sub64 (en_num_hashes e) 1) s) v = Returns (entry_right s e).
Proof.
  intros Hn. unfold verification_of, entry_right, entry_hash. destruct (en_transactions e) as [|tx txs].
  - eexists. split; [done|]. destruct (Z.eqb_spec (en_num_hashes e) 0) as [->|]; [cbn; by rewrite N.eqb_sym|].
    rewrite <- (tick_after (en_num_hashes e) s) by lia. cbn. by rewrite N.eqb_sym.
  - rewrite hash_transactions_returns. eexists. split; [done|]. cbn. by rewrite N.eqb_sym.
Qed.

Context `{PerfLibs} {Hperf : PerfLibsLaws _}.

Lemma length_prev_hashes start entries : length (prev_hashes start entries) = length entries.
Proof. unfold prev_hashes. rewrite length_take. cbn. rewrite length_map. lia. Qed.

Lemma verify_gpu_right start entries :
  Forall entry_ok entries -> verify_gpu start entries = Returns (slice_right start entries).
Proof.
  intros Hok. unfold verify_gpu. rewrite poh_verify_many_spec by (by rewrite length_prev_hashes, length_map).
  revert start. induction Hok as [|e entries [He _] Hok IH]; intros start; [done|].
  specialize (IH (en_hash e)). cbn [map_outcome]. destruct (finish_action_right start e) as (v & -> & Hv); [lia|].
  cbn [mbind outcome_bind] in IH |- *. destruct (map_outcome verification_of entries) as [vs|]; [|done].
  cbn [mbind outcome_bind] in IH |- *. rewrite prev_hashes_cons. cbn [map many_hashes zip_with zip all_outcome].
  rewrite Hv. cbn [mbind outcome_bind]. unfold slice_right. rewrite prev_hashes_cons. cbn [zip zip_with forallb].
  destruct (entry_right start e); [exact IH|done].
Qed.

(** ** Lemmas: verification in chunks *)

Lemma chunks_lookup {A} n : (0 < n)%nat -> forall fuel (l : list A) i,
  (i < fuel)%nat -> (i * n < length l)%nat -> chunks fuel n l !! i = Some (take n (drop (i * n) l)).
Proof.
  intros Hn. induction fuel as [|fuel IH]; intros l i Hi Hl; [lia|]. cbn [chunks].
  destruct l as [|x l]; [cbn in Hl; lia|]. destruct i as [|i]; [done|]. cbn [lookup list_lookup].
  change (chunks fuel n (drop n (x :: l)) !! i = Some (take n (drop (S i * n) (x :: l)))).
  rewrite IH by (rewrite ?length_drop; lia). by rewrite drop_drop.
Qed.

Lemma chunks_lookup_Some {A} n fuel (l : list A) i c : (0 < n)%nat -> chunks fuel n l !! i = Some c ->
  c = take n (drop (i * n) l) /\ (i * n < length l)%nat.
Proof.
  intros Hn. revert l i. induction fuel as [|fuel IH]; intros l i Hc; cbn [chunks] in Hc; [done|].
  destruct l as [|x l]; [done|]. destruct i as [|i].
  { injection Hc as <-. split; [done|]. cbn. lia. }
  change (chunks fuel n (drop n (x :: l)) !! i = Some c) in Hc. apply IH in Hc as [-> Hi].
  rewrite drop_drop, length_drop in *. split; [done|lia].
Qed.

Lemma forallb_zip {A B} (g : A * B -> bool) (a : list A) (b : list B) :
  forallb g (zip a b) = true <-> forall j x y, a !! j = Some x -> b !! j = Some y -> g (x, y) = true.
Proof.
  rewrite forallb_forall. split.
  - intros Hall j x y Hx Hy. apply Hall, list_elem_of_In, (list_elem_of_lookup_2 _ j).
    rewrite lookup_zip_with, Hx. cbn. by rewrite Hy.
  - intros Hall [x y] Hin%list_elem_of_In. apply list_elem_of_lookup in Hin as [j Hj].
    apply lookup_zip_with_Some in Hj as (x' & y' & [= <- <-] & Hx & Hy). by eapply Hall.
Qed.

Lemma elem_of_indexed {A} (l : list A) j x : (j, x) ∈ imap pair l <-> l !! j = Some x.
Proof.
  rewrite elem_of_lookup_imap. split; [by intros (i & y & [= -> ->] & Hy)|]. intros Hx. by exists j, x.
Qed.

Lemma forallb_indexed {A} (g : nat * A -> bool) (l : list A) :
  forallb g (imap pair l) = true <-> forall j x, l !! j = Some x -> g (j, x) = true.
Proof.
  rewrite forallb_forall. split.
  - intros Hall j x Hx. by apply Hall, list_elem_of_In, elem_of_indexed.
  - intros Hall [j x] Hin%list_elem_of_In%elem_of_indexed. by apply Hall.
Qed.

(** The entries of a chunk. *)
Definition chunk_entries (entries : list Entry) (n i : nat) : list Entry :=
  take (Nat.min (i * n + n) (length entries) - i * n) (drop (i * n) entries).

Lemma chunk_entries_lookup entries n i j e :
  chunk_entries entries n i !! j = Some e <-> (j < n)%nat /\ entries !! (i * n + j)%nat = Some e.
Proof.
  unfold chunk_entries. rewrite lookup_take_Some, lookup_drop. split.
  - intros [He Hj]. split; [lia|done].
  - intros [Hj He]. split; [done|]. apply lookup_lt_Some in He. lia.
Qed.

Definition chunk_right (start : Hash) (entries : list Entry) (n i : nat) : bool :=
  forallb (fun '(j, e) => entry_right (prev_hashes start entries !!! (i * n + j)%nat) e)
    (imap pair (chunk_entries entries n i)).

(** The widths of the two instruction sets. *)
Definition simd_width (n : nat) : Prop := n = 8%nat \/ n = 16%nat.

Lemma simd_hashes_right n hashes counts : simd_width n -> length hashes = n -> length counts = n ->
  simd_hashes n hashes counts = Returns (many_hashes hashes counts).
Proof.
  intros [-> | ->] Hh Hc; cbn.
  - by rewrite poh_verify_many_simd_avx2_spec.
  - by rewrite poh_verify_many_simd_avx512skx_spec.
Qed.

Lemma simd_hashes_unsupported n hashes counts : ~ simd_width n -> simd_hashes n hashes counts = Panics.
Proof.
  intros Hn. unfold simd_hashes, simd_width in *. do 17 (destruct n as [|n]; [try tauto|]); done.
Qed.

Lemma verify_chunk_right start entries n i pad : simd_width n -> Forall entry_ok entries ->
  (i * n + n <= length entries + pad)%nat ->
  verify_chunk entries n (i, (take n (drop (i * n) (prev_hashes start entries ++ replicate pad 0%N)),
    take n (drop (i * n) (map (fun e => sat_sub64 (en_num_hashes e) 1) entries ++ replicate pad 0))))
  = Returns (chunk_right start entries n i).
Proof.
  intros Hn Hok Hi. unfold verify_chunk. rewrite simd_hashes_right; [|done|
    rewrite length_take, length_drop, length_app, length_replicate, ?length_prev_hashes, ?length_map; lia..].
  cbn [mbind outcome_bind].
  apply all_outcome_returns. intros [j e] Hin%elem_of_indexed. fold (chunk_entries entries n i) in Hin.
  apply chunk_entries_lookup in Hin as [Hj He]. pose proof (lookup_lt_Some _ _ _ He) as Hlt.
  rewrite Forall_forall in Hok. destruct (Hok e) as [Hnum _]; [by eapply list_elem_of_lookup_2|].
  assert (prev_hashes start entries !! (i * n + j)%nat = Some (prev_hashes start entries !!! (i * n + j)%nat)) as Hp
    by (apply list_lookup_lookup_total_lt; by rewrite length_prev_hashes).
  unfold many_hashes. rewrite lookup_zip_with, !lookup_take, !lookup_drop, !lookup_app_l by
    (rewrite ?length_prev_hashes, ?length_map; lia).
  destruct (decide (j < n)%nat); [|lia]. rewrite Hp. cbn [option_bind mbind]. rewrite list_lookup_fmap, He.
  cbn. apply compare_hashes_right. lia.
Qed.

Lemma slice_right_iff start entries : slice_right start entries = true <->
  forall k e, entries !! k = Some e -> entry_right (prev_hashes start entries !!! k) e = true.
Proof.
  unfold slice_right. rewrite forallb_zip. split; intros Hall.
  - intros k e He. apply (Hall k); [|done]. apply list_lookup_lookup_total_lt. rewrite length_prev_hashes. by eapply lookup_lt_Some.
  - intros k s e Hs He. rewrite <- (list_lookup_total_correct _ _ _ Hs). by apply Hall.
Qed.

Lemma aligned_len_ge len n : (0 < n)%nat -> (len <= (len + n - 1) / n * n)%nat.
Proof.
  intros Hn. pose proof (Nat.div_mod (len + n - 1) n). pose proof (Nat.mod_upper_bound (len + n - 1) n). nia.
Qed.

Lemma aligned_chunk n k i : (i * n < k * n)%nat -> (i * n + n <= k * n)%nat.
Proof.
  intros Hlt. assert (i < k)%nat as Hi by (apply Nat.lt_nge; intros Hle; pose proof (Nat.mul_le_mono_r k i n Hle); lia).
  pose proof (Nat.mul_le_mono_r (S i) k n Hi). lia.
Qed.

Lemma verify_simd_right n start entries : simd_width n -> Forall entry_ok entries ->
  verify_cpu_x86_simd n start entries = Returns (slice_right start entries).
Proof.
  intros Hw Hok. assert (0 < n)%nat as Hn by (destruct Hw; lia). unfold verify_cpu_x86_simd.
  rewrite (proj2 (Nat.eqb_neq n 0)) by lia. cbn [negb assert_ mbind outcome_bind]. pose proof (aligned_len_ge (length entries) n Hn) as Hal.
  set (al := ((length entries + n - 1) / n * n)%nat) in *. set (pad := (al - length entries)%nat).
  set (hs := prev_hashes start entries ++ replicate pad 0%N).
  set (ns := map (fun e => sat_sub64 (en_num_hashes e) 1) entries ++ replicate pad 0).
  assert (length hs = al) as Hhs by (unfold hs; rewrite length_app, length_prev_hashes, length_replicate; lia).
  assert (length ns = al) as Hns by (unfold ns; rewrite length_app, length_map, length_replicate; lia).
  rewrite (all_outcome_returns _ (fun '(i, _) => chunk_right start entries n i)).
  2: { intros [i [c d]] Hin%elem_of_indexed. apply lookup_zip_with_Some in Hin as (c' & d' & [= <- <-] & Hc & Hd).
       apply chunks_lookup_Some in Hc as [-> Hi]; [|done]. apply chunks_lookup_Some in Hd as [-> _]; [|done].
       apply verify_chunk_right; [done|done|]. rewrite Hhs in Hi.
       replace (length entries + pad)%nat with al by lia. by apply aligned_chunk. }
  f_equal. apply eq_true_iff_eq. rewrite forallb_indexed, slice_right_iff. split.
  - intros Hall k e He. pose proof (lookup_lt_Some _ _ _ He) as Hk. pose proof (Nat.div_mod k n ltac:(lia)) as Hdm.
    pose proof (Nat.mod_upper_bound k n ltac:(lia)) as Hm. pose proof (Nat.Div0.div_le_upper_bound k n k ltac:(nia)).
    assert (chunk_right start entries n (k / n) = true) as Hc.
    { apply (Hall (k / n)%nat (take n (drop (k / n * n) hs), take n (drop (k / n * n) ns))).
      rewrite lookup_zip_with, !chunks_lookup by lia. done. }
    unfold chunk_right in Hc. rewrite forallb_indexed in Hc. replace k with (k / n * n + k mod n)%nat by lia.
    apply (Hc (k mod n)%nat). apply chunk_entries_lookup. split; [done|]. by replace (k / n * n + k mod n)%nat with k by lia.
  - intros Hall i [c d] _. unfold chunk_right. rewrite forallb_indexed. intros j e [_ He]%chunk_entries_lookup. by apply Hall.
Qed.

Lemma verify_chunk_unsupported entries n c : ~ simd_width n -> verify_chunk entries n c = Panics.
Proof. intros Hn. destruct c as [i [chunk counts]]. unfold verify_chunk. by rewrite simd_hashes_unsupported. Qed.

Lemma verify_simd_unsupported n start entries : ~ simd_width n -> entries <> [] ->
  verify_cpu_x86_simd n start entries = Panics.
Proof.
  intros Hw Hne. unfold verify_cpu_x86_simd. destruct (Nat.eqb_spec n 0) as [|Hn]; [done|].
  cbn [negb assert_ mbind outcome_bind]. pose proof (aligned_len_ge (length entries) n ltac:(lia)) as Hal.
  destruct entries as [|e entries]; [done|]. set (al := ((length (e :: entries) + n - 1) / n * n)%nat) in *.
  destruct al as [|al']; [cbn in Hal; lia|]. cbn [chunks prev_hashes length take map app zip zip_with imap all_outcome].
  by rewrite verify_chunk_unsupported.
Qed.

(** ** Lemmas: what the hash of an entry commits to *)

(** The last input of the hash function for an entry with transactions. *)
Definition final_input (start : Hash) (num_hashes : Z) (transactions : list VersionedTransaction) : list Z :=
  hash_bytes (hash_times (sat_sub64 num_hashes 1) start) ++ hash_bytes (mixin_of transactions).

Lemma entry_hash_input start n tx txs : entry_hash start n (tx :: txs) = sha256 (final_input start n (tx :: txs)).
Proof. unfold entry_hash, final_input, sha_hashv. cbn [concat]. by rewrite app_nil_r. Qed.

Context {Hsha : Sha256Laws _}.

Lemma levels_sized fuel : forall l, Forall hash_sized l -> Forall hash_sized (concat (levels fuel l)).
Proof.
  induction fuel as [|fuel IH]; intros l Hl; cbn [levels]; [by rewrite concat_cons, app_nil_r|].
  destruct (_ <=? _)%nat; rewrite concat_cons; [by rewrite app_nil_r|]. apply Forall_app. split; [done|].
  apply IH, pair_up_sized.
Qed.

Lemma mixin_sized transactions : hash_sized (mixin_of transactions).
Proof.
  unfold mixin_of. destruct (last _) as [h|] eqn:Hh; [|done]. apply last_Some in Hh as (l & Hl).
  pose proof (levels_sized (length (signature_leaves transactions)) _ (leaves_sized (signature_leaves transactions))) as Hs.
  rewrite Hl in Hs. apply Forall_app in Hs as [_ Hs]. by apply Forall_cons in Hs as [Hs _].
Qed.

Lemma mixin_commits transactions transactions' :
  length (signature_leaves transactions) = length (signature_leaves transactions') ->
  no_collision (tree_inputs (signature_leaves transactions)) (tree_inputs (signature_leaves transactions')) ->
  mixin_of transactions = mixin_of transactions' -> signature_leaves transactions = signature_leaves transactions'.
Proof.
  intros Hlen Hc E. eapply root_commits; [apply merkle_new_levels..|done|done|].
  unfold get_root, mixin_of in *. cbn [nodes].
  destruct (decide (signature_leaves transactions = [])) as [Hn|Hn].
  { rewrite Hn in *. by destruct (signature_leaves transactions'). }
  rewrite !get_root_of in * by (done || intros Hn'; rewrite Hn' in Hlen; by destruct (signature_leaves transactions)).
  cbn in E. by rewrite E.
Qed.

End Chain.

Lemma signature_leaves_inj txs txs' :
  Forall (fun s => (s < 256 ^ 64)%N) (concat (map vt_signatures txs)) ->
  Forall (fun s => (s < 256 ^ 64)%N) (concat (map vt_signatures txs')) ->
  signature_leaves txs = signature_leaves txs' -> concat (map vt_signatures txs) = concat (map vt_signatures txs').
Proof.
  unfold signature_leaves. intros Hs. revert txs'.
  assert (forall (l l' : list Signature), Forall (fun s => (s < 256 ^ 64)%N) l -> Forall (fun s => (s < 256 ^ 64)%N) l' ->
    map signature_bytes l = map signature_bytes l' -> l = l') as Hinj.
  { induction l as [|s l IH]; intros [|s' l'] H1 H2 E; try done. apply Forall_cons in H1 as [H1 Hl].
    apply Forall_cons in H2 as [H2 Hl']. cbn [map] in E.
    assert (signature_bytes s = signature_bytes s' /\ map signature_bytes l = map signature_bytes l') as [Es El]
      by (split; congruence).
    f_equal; [exact (be_bytes_inj 64 s s' H1 H2 Es)|auto]. }
  intros txs' Hs' E. by apply Hinj.
Qed.

(** ** Samples *)

Module PohSample.
Export MerkleSample.

#[export] Instance perf : PerfLibs :=
  {| poh_verify_many := many_hashes; poh_verify_many_simd_avx2 := many_hashes;
     poh_verify_many_simd_avx512skx := many_hashes |}.
#[export] Instance perf_laws : PerfLibsLaws perf.
Proof. done. Qed.

Definition message (blockhash : Hash) : VersionedMessage :=
  VersionedLegacy {| lm_header := {| num_required_signatures := 1; num_readonly_signed_accounts := 0;
                                     num_readonly_unsigned_accounts := 0 |};
                     lm_account_keys := [7%N]; lm_recent_blockhash := blockhash; lm_instructions := [] |}.
Definition tx (blockhash : Hash) (signature : Signature) : VersionedTransaction :=
  {| vt_signatures := [signature]; vt_message := message blockhash |}.

(** The entry with two signatures; the messages differ by their blockhash. *)
Definition entry (blockhash : Hash) : Entry :=
  let txs := [tx blockhash 1; tx blockhash 2] in
  {| en_num_hashes := 2; en_hash := entry_hash 9 2 txs; en_transactions := txs |}.

Definition ops : list PohOp :=
  [OpHash 3; OpRecord [tx 5 1; tx 5 2]; OpTick; OpRecord [tx 5 3]; OpHash 100; OpTick; OpRecord [tx 5 4]; OpHash 1; OpTick].

End PohSample.

(** ** Properties *)

(** C29: Whatever is hashed, recorded and ticked, in any order, the chain
    never panics and the entries it gives verify from the hash it started
    with; when the number of hashes in a tick is fixed, every tick entry
    closes exactly that many, and the hashes since the last tick are fewer. *)
Theorem poh_entries_verify `{Sha256} (start : Hash) (hashes_per_tick : option Z) (ticks_per_slot tick_number : Z)
    (p : Poh) (ops : list PohOp) (Hu : u64 (default U64_MAX hashes_per_tick))
    (Hp : new_with_slot_info start hashes_per_tick ticks_per_slot tick_number = Returns p)
    (Hops : Forall op_ok ops) :
  exists p' entries, poh_run p ops = Returns (p', entries)
    /\ verify_cpu_generic start entries = Returns true
    /\ (forall n, hashes_per_tick = Some n -> n < U64_MAX ->
        exists carry, verify_tick_hash_count entries 0 n = (carry, true) /\ 0 <= carry < n).
Proof.
  destruct (new_continues start hashes_per_tick ticks_per_slot tick_number p Hu Hp) as (Hc & Ht & Hc0).
  destruct (poh_run_chain ops start p Hops Hc) as (p' & es & Hrun & [_ Hn' Hr' _] & Ht' & _ & Hv & Hcount).
  exists p', es. split_and!; [done..|]. intros n -> Hlt. cbn in Ht. rewrite Ht, Hc0 in *. exists (carried p').
  unfold verify_tick_hash_count. destruct (Z.eqb_spec n 0) as [->|]; [destruct Hc; lia|].
  split; [auto|]. unfold carried. lia.
Qed.

Import PohSample.

Lemma poh_entries_verify_witness :
  exists p' entries p, new_with_slot_info 9 (Some 6) 64 0 = Returns p
    /\ poh_run p ops = Returns (p', entries) /\ verify_cpu_generic 9 entries = Returns true
    /\ tick_count entries = 1 /\ length entries = 3%nat.
Proof.
  assert (match new_with_slot_info 9 (Some 6) 64 0 with
          | Returns p => match poh_run p ops with
                         | Returns (_, es) => tick_count es = 1 /\ length es = 3%nat
                         | Panics => False end
          | Panics => False end) as Hcount by (vm_compute; by split).
  destruct (new_with_slot_info 9 (Some 6) 64 0) as [p|] eqn:Hp; [|done].
  destruct (poh_entries_verify 9 (Some 6) 64 0 p ops) as (p' & entries & Hrun & Hv & _).
  - u_unfold. cbn. lia.
  - exact Hp.
  - unfold ops. repeat (apply Forall_cons; split; [cbn; try done; u_unfold; lia|]). done.
  - rewrite Hrun in Hcount. exists p', entries, p. tauto.
Defined.

(** C30: Verifying a slice of entries one by one, with SIMD instructions of either
    of the two widths, eight and sixteen, on a GPU, or as [verify_cpu] chooses gives the
    same answer and does not panic.  With a width other than these two [verify_cpu_x86_simd]
    panics on every slice that is not empty. *)
Theorem entry_verifiers_agree `{Sha256} `{PerfLibs} `{!PerfLibsLaws _} (start : Hash) (entries : list Entry)
    (Hok : Forall entry_ok entries) :
  exists b, verify_cpu_generic start entries = Returns b
    /\ verify_cpu_x86_simd 8 start entries = Returns b
    /\ verify_cpu_x86_simd 16 start entries = Returns b
    /\ verify_gpu start entries = Returns b
    /\ (forall has_api has_avx2 has_avx512, verify_cpu has_api has_avx2 has_avx512 start entries = Returns b)
    /\ (forall simd_len, simd_len <> 8%nat -> simd_len <> 16%nat -> entries <> [] ->
          verify_cpu_x86_simd simd_len start entries = Panics).
Proof.
  exists (slice_right start entries).
  assert (forall n, simd_width n -> verify_cpu_x86_simd n start entries = Returns (slice_right start entries)) as Hs
    by (intros n Hn; by apply verify_simd_right).
  split_and!.
  - by apply verify_generic_right.
  - apply Hs. by left.
  - apply Hs. by right.
  - by apply verify_gpu_right.
  - intros [] [] []; unfold verify_cpu; cbn [andb]; repeat case_match; subst; try (by apply verify_generic_right);
      apply Hs; (by left) || (by right).
  - intros n H8 H16 Hne. apply verify_simd_unsupported; [|done]. by intros [? | ?].
Qed.

Lemma entry_verifiers_agree_witness :
  exists entries, create_ticks 5 3 9 = Returns entries
    /\ verify_cpu_generic 9 entries = Returns true
    /\ verify_cpu_x86_simd 8 9 entries = Returns true /\ verify_gpu 9 entries = Returns true
    /\ verify_cpu_x86_simd 2 9 entries = Panics.
Proof.
  destruct (create_ticks 5 3 9) as [entries|] eqn:Hc.
  - exists entries. split; [done|].
    assert (match create_ticks 5 3 9 with
            | Returns es => verify_cpu_generic 9 es = Returns true
                /\ Forall (fun e => en_num_hashes e = 3 /\ en_transactions e = []) es
            | Panics => False end) as Hv by (vm_compute; split; [done|]; repeat constructor).
    rewrite Hc in Hv. destruct Hv as [Hv Hall].
    destruct (entry_verifiers_agree 9 entries) as (b & E1 & E2 & _ & E3 & _ & E4).
    + eapply Forall_impl; [exact Hall|]. intros e [Hn Ht]. unfold entry_ok. rewrite Hn, Ht. split; [u_unfold; lia|done].
    + rewrite Hv in E1. injection E1 as <-. split_and!; [done..|]. apply E4; [done|done|].
      intros ->. revert Hc. by vm_compute.
  - exfalso. revert Hc. by vm_compute.
Defined.

(** The hash of an entry commits to the signatures of its transactions.
    Two entries that verify after the same hash, with the same number of
    hashes, the same hash and the same number of signatures, hold the same
    signatures in the same order, unless two of the inputs that were hashed
    for them collide. *)
Theorem entry_commits_to_signatures `{Sha256} `{!Sha256Laws _} (start : Hash) (e e' : Entry)
    (Hok : entry_ok e) (Hok' : entry_ok e')
    (Htx : en_transactions e <> []) (Htx' : en_transactions e' <> [])
    (Hv : entry_verify e start = Returns true) (Hv' : entry_verify e' start = Returns true)
    (Hn : en_num_hashes e = en_num_hashes e') (Hh : en_hash e = en_hash e')
    (Hsize : Forall (fun s => (s < 256 ^ 64)%N) (concat (map vt_signatures (en_transactions e))))
    (Hsize' : Forall (fun s => (s < 256 ^ 64)%N) (concat (map vt_signatures (en_transactions e'))))
    (Hlen : length (signature_leaves (en_transactions e)) = length (signature_leaves (en_transactions e')))
    (Hc : no_collision
            (final_input start (en_num_hashes e) (en_transactions e) :: tree_inputs (signature_leaves (en_transactions e)))
            (final_input start (en_num_hashes e') (en_transactions e')
               :: tree_inputs (signature_leaves (en_transactions e')))) :
  concat (map vt_signatures (en_transactions e)) = concat (map vt_signatures (en_transactions e')).
Proof.
  rewrite entry_verify_spec in Hv, Hv' by done. injection Hv as Hv%N.eqb_eq. injection Hv' as Hv'%N.eqb_eq.
  rewrite Hv, Hv' in Hh. destruct (en_transactions e) as [|tx txs] eqn:Et; [done|].
  destruct (en_transactions e') as [|tx' txs'] eqn:Et'; [done|]. rewrite !entry_hash_input in Hh.
  apply Hc in Hh; [|apply list_elem_of_here..]. unfold final_input in Hh. rewrite Hn in Hh. apply app_inv_head in Hh.
  apply signature_leaves_inj; [done..|]. apply mixin_commits; [done| |].
  - intros x y Hx Hy. apply Hc; by apply list_elem_of_further.
  - exact (be_bytes_inj 32 _ _ (mixin_sized _) (mixin_sized _) Hh).
Qed.

Lemma entry_commits_to_signatures_witness :
  entry 5 <> entry 6
  /\ concat (map vt_signatures (en_transactions (entry 5))) = concat (map vt_signatures (en_transactions (entry 6))).
Proof.
  split.
  { intros E. apply (f_equal (fun e => map vt_message (en_transactions e))) in E. discriminate E. }
  assert (forall h, entry_ok (entry h)) as Hok by (intros h; split; cbn; u_unfold; lia).
  apply (entry_commits_to_signatures 9 (entry 5) (entry 6) (Hok 5%N) (Hok 6%N)).
  - discriminate.
  - discriminate.
  - by vm_compute.
  - by vm_compute.
  - reflexivity.
  - by vm_compute.
  - by repeat constructor.
  - by repeat constructor.
  - by vm_compute.
  - assert (Forall (fun x => Forall (fun y => sha256 x = sha256 y -> x = y)
      (final_input 9 2 (en_transactions (entry 6)) :: tree_inputs (signature_leaves (en_transactions (entry 6)))))
      (final_input 9 2 (en_transactions (entry 5)) :: tree_inputs (signature_leaves (en_transactions (entry 5))))) as Hf
      by (apply (bool_decide_unpack _); by vm_compute).
    intros x y Hx Hy. rewrite Forall_forall in Hf. specialize (Hf x Hx). rewrite Forall_forall in Hf. auto.
Defined.
