(* ===== verification/PohRecorder.v ===== *)
(** * The recorder of the ledger

    Models poh/src/poh_recorder.rs: the recorder turns the ticks of the hash
    chain and the transactions of the banking stage into entries of the
    working bank, registers the ticks with the bank, and sends the entries to
    the ledger.  The part of the bank that the recorder works with
    ([register_tick] and the heights) is of runtime/src/bank.rs.

    The channel to the ledger is the list of what was sent; sending fails when
    the receiver is gone.  The leader schedule is an argument.  Signals,
    metrics and waiting are left out. *)

From S2P Require Import Prelude Message InstructionsSysvar Transaction BlockhashQueue Merkle Poh.

(** ** The bank as the recorder sees it *)

Record BankTicks := {
  bk_slot : Slot;
  bk_ticks_per_slot : Z;
  bk_tick_height : Z;
  bk_max_tick_height : Z;
  bk_freeze_started : bool;
  bk_lamports_per_signature : Z;
  bk_blockhash_queue : BlockhashQueue;
}.

(** Division by zero panics. *)
Definition is_block_boundary (b : BankTicks) (tick_height : Z) : outcome bool :=
  _ ← assert_ (negb (bk_ticks_per_slot b =? 0));
  Returns (tick_height mod bk_ticks_per_slot b =? 0).

(** The time stamp of the new blockhash is the argument [now]. *)
Definition register_tick (b : BankTicks) (hash : Hash) (now : Z) : outcome BankTicks :=
  _ ← assert_ (negb (bk_freeze_started b));
  boundary ← is_block_boundary b (wrap64 (bk_tick_height b + 1));
  Returns {| bk_slot := bk_slot b; bk_ticks_per_slot := bk_ticks_per_slot b;
             bk_tick_height := wrap64 (bk_tick_height b + 1);
             bk_max_tick_height := bk_max_tick_height b; bk_freeze_started := bk_freeze_started b;
             bk_lamports_per_signature := bk_lamports_per_signature b;
             bk_blockhash_queue :=
               if (boundary : bool)
               then register_hash (bk_blockhash_queue b) hash (bk_lamports_per_signature b) now
               else bk_blockhash_queue b |}.

Definition is_complete (b : BankTicks) : bool := bk_tick_height b =? bk_max_tick_height b.

(** ** The recorder *)

Inductive PohRecorderError :=
| InvalidCallingObject
| MaxHeightReached
| MinHeightNotReached
| SendError.

Record WorkingBank := {
  wb_bank : BankTicks;
  wb_min_tick_height : Z;
  wb_max_tick_height : Z;
}.

Inductive PohLeaderStatus :=
| NotReached
| Reached (poh_slot parent_slot : Slot).

Record PohRecorder := {
  pr_poh : Poh;
  pr_tick_height : Z;
  pr_start_bank : BankTicks;
  pr_start_tick_height : Z;
  pr_tick_cache : list (Entry * Z);
  pr_working_bank : option WorkingBank;
  (** what was sent: the slot of the bank, the entry and its tick height *)
  pr_sent : list (Slot * (Entry * Z));
  pr_leader_first_tick_height : option Z;
  pr_leader_last_tick_height : Z;
  pr_grace_ticks : Z;
}.

Definition GRACE_TICKS_FACTOR : Z := 2.
Definition MAX_GRACE_SLOTS : Z := 2.
Definition NUM_CONSECUTIVE_LEADER_SLOTS : Z := 4.

(** The first tick height as a leader, grace ticks included, the last one, and
    the grace ticks. *)
Definition compute_leader_slot_tick_heights (next_leader_slot : option (Slot * Slot)) (ticks_per_slot : Z)
    : option Z * Z * Z :=
  match next_leader_slot with
  | Some (first_slot, last_slot) =>
      let leader_first_tick_height := wrap64 (wrap64 (first_slot * ticks_per_slot) + 1) in
      let last_tick_height := wrap64 (wrap64 (last_slot + 1) * ticks_per_slot) in
      let num_slots := wrap64 (wrap64 (last_slot - first_slot) + 1) in
      let grace_ticks := Z.min (wrap64 (ticks_per_slot * MAX_GRACE_SLOTS))
                           (wrap64 (ticks_per_slot * num_slots) / GRACE_TICKS_FACTOR) in
      (Some (wrap64 (leader_first_tick_height + grace_ticks)), last_tick_height, grace_ticks)
  | None =>
      (None, 0, Z.min (wrap64 (ticks_per_slot * MAX_GRACE_SLOTS))
                  (wrap64 (ticks_per_slot * NUM_CONSECUTIVE_LEADER_SLOTS) / GRACE_TICKS_FACTOR))
  end.

Definition set_leader (s : PohRecorder) (l : option Z * Z * Z) : PohRecorder :=
  let '(first, last_, grace) := l in
  {| pr_poh := pr_poh s; pr_tick_height := pr_tick_height s; pr_start_bank := pr_start_bank s;
     pr_start_tick_height := pr_start_tick_height s; pr_tick_cache := pr_tick_cache s;
     pr_working_bank := pr_working_bank s; pr_sent := pr_sent s;
     pr_leader_first_tick_height := first; pr_leader_last_tick_height := last_;
     pr_grace_ticks := grace |}.

Definition set_poh (s : PohRecorder) (poh : Poh) : PohRecorder :=
  {| pr_poh := poh; pr_tick_height := pr_tick_height s; pr_start_bank := pr_start_bank s;
     pr_start_tick_height := pr_start_tick_height s; pr_tick_cache := pr_tick_cache s;
     pr_working_bank := pr_working_bank s; pr_sent := pr_sent s;
     pr_leader_first_tick_height := pr_leader_first_tick_height s;
     pr_leader_last_tick_height := pr_leader_last_tick_height s; pr_grace_ticks := pr_grace_ticks s |}.

Definition set_working_bank (s : PohRecorder) (w : option WorkingBank) : PohRecorder :=
  {| pr_poh := pr_poh s; pr_tick_height := pr_tick_height s; pr_start_bank := pr_start_bank s;
     pr_start_tick_height := pr_start_tick_height s; pr_tick_cache := pr_tick_cache s;
     pr_working_bank := w; pr_sent := pr_sent s;
     pr_leader_first_tick_height := pr_leader_first_tick_height s;
     pr_leader_last_tick_height := pr_leader_last_tick_height s; pr_grace_ticks := pr_grace_ticks s |}.

Definition set_start (s : PohRecorder) (bank : BankTicks) (start_tick_height : Z) : PohRecorder :=
  {| pr_poh := pr_poh s; pr_tick_height := pr_tick_height s; pr_start_bank := bank;
     pr_start_tick_height := start_tick_height; pr_tick_cache := pr_tick_cache s;
     pr_working_bank := pr_working_bank s; pr_sent := pr_sent s;
     pr_leader_first_tick_height := pr_leader_first_tick_height s;
     pr_leader_last_tick_height := pr_leader_last_tick_height s; pr_grace_ticks := pr_grace_ticks s |}.

Definition set_cache (s : PohRecorder) (tick_height : Z) (cache : list (Entry * Z)) : PohRecorder :=
  {| pr_poh := pr_poh s; pr_tick_height := tick_height; pr_start_bank := pr_start_bank s;
     pr_start_tick_height := pr_start_tick_height s; pr_tick_cache := cache;
     pr_working_bank := pr_working_bank s; pr_sent := pr_sent s;
     pr_leader_first_tick_height := pr_leader_first_tick_height s;
     pr_leader_last_tick_height := pr_leader_last_tick_height s; pr_grace_ticks := pr_grace_ticks s |}.

Definition set_sent (s : PohRecorder) (sent : list (Slot * (Entry * Z))) : PohRecorder :=
  {| pr_poh := pr_poh s; pr_tick_height := pr_tick_height s; pr_start_bank := pr_start_bank s;
     pr_start_tick_height := pr_start_tick_height s; pr_tick_cache := pr_tick_cache s;
     pr_working_bank := pr_working_bank s; pr_sent := sent;
     pr_leader_first_tick_height := pr_leader_first_tick_height s;
     pr_leader_last_tick_height := pr_leader_last_tick_height s; pr_grace_ticks := pr_grace_ticks s |}.

Section PohRecorder.
Context `{Sha256}.
(** The configured hashes per tick and ticks per slot, the recorder's key. *)
Variable hashes_per_tick : option Z.
Variable ticks_per_slot : Z.
Variable id : Pubkey.
(** [leader_schedule_cache.next_leader_slot] for this validator after a
    slot, and [slot_leader_at]. *)
Variable next_leader_slot : Slot -> option (Slot * Slot).
Variable slot_leader_at : Slot -> option Pubkey.
(** Whether the receiver of the entries is still there. *)
Variable connected : bool.
Variable now : Z.

Definition start_slot (s : PohRecorder) : Slot := bk_slot (pr_start_bank s).

Definition has_bank (s : PohRecorder) : bool := is_some (pr_working_bank s).

Definition clear_bank (s : PohRecorder) : outcome PohRecorder :=
  match pr_working_bank s with
  | None => Returns s
  | Some w =>
      _ ← assert_ (ticks_per_slot =? bk_ticks_per_slot (wb_bank w));
      Returns (set_leader (set_working_bank s None)
        (compute_leader_slot_tick_heights (next_leader_slot (bk_slot (wb_bank w))) ticks_per_slot))
  end.

(** [sender.send]. *)
Definition send (sent : list (Slot * (Entry * Z))) (msg : Slot * (Entry * Z))
    : result PohRecorderError (list (Slot * (Entry * Z))) :=
  if connected then Ok (sent ++ [msg]) else Err SendError.

(** The loop over the cached ticks: the bank, what was sent, and whether the
    last send succeeded. *)
Fixpoint flush_loop (bank : BankTicks) (sent : list (Slot * (Entry * Z))) (ticks : list (Entry * Z))
    : outcome (BankTicks * list (Slot * (Entry * Z)) * bool) :=
  match ticks with
  | [] => Returns (bank, sent, true)
  | tick :: rest =>
      bank ← register_tick bank (en_hash tick.1) now;
      match send sent (bk_slot bank, tick) with
      | Ok sent => flush_loop bank sent rest
      | Err _ => Returns (bank, sent, false)
      end
  end.

(** [tick_cache.iter().take_while(|x| x.1 <= max_tick_height).count()]. *)
Fixpoint entry_count (max_tick_height : Z) (cache : list (Entry * Z)) : nat :=
  match cache with
  | [] => O
  | x :: rest => if x.2 <=? max_tick_height then S (entry_count max_tick_height rest) else O
  end.

Definition flush_cache (s : PohRecorder) (tick : bool)
    : outcome (PohRecorder * result PohRecorderError unit) :=
  match pr_working_bank s with
  | None => Returns (s, Err MaxHeightReached)
  | Some w =>
      if pr_tick_height s <? wb_min_tick_height w then Returns (s, Err MinHeightNotReached)
      else if tick && (pr_tick_height s =? wb_min_tick_height w) then Returns (s, Err MinHeightNotReached)
      else
        let count := entry_count (wb_max_tick_height w) (pr_tick_cache s) in
        '(bank, sent, send_result) ← flush_loop (wb_bank w) (pr_sent s) (take count (pr_tick_cache s));
        let w := {| wb_bank := bank; wb_min_tick_height := wb_min_tick_height w;
                    wb_max_tick_height := wb_max_tick_height w |} in
        let s := set_working_bank (set_sent s sent) (Some w) in
        s ← if wb_max_tick_height w <=? pr_tick_height s
            then clear_bank (set_start s bank (wrap64 (wrap64 (bk_slot bank * ticks_per_slot) + 1)))
            else Returns s;
        s ← if (send_result : bool)
            then Returns (set_cache s (pr_tick_height s) (drop count (pr_tick_cache s)))
            else clear_bank s;
        Returns (s, Ok tt)
  end.

(** [PohRecorder::tick]. *)
Definition tick (s : PohRecorder) : outcome PohRecorder :=
  let '(poh, poh_entry) := poh_tick (pr_poh s) in
  let s := set_poh s poh in
  match poh_entry with
  | None => Returns s
  | Some poh_entry =>
      let tick_height := wrap64 (pr_tick_height s + 1) in
      if negb (is_some (pr_leader_first_tick_height s)) then Returns (set_cache s tick_height (pr_tick_cache s))
      else
        let entry := {| en_num_hashes := pohe_num_hashes poh_entry; en_hash := pohe_hash poh_entry;
                        en_transactions := [] |} in
        '(s, _) ← flush_cache (set_cache s tick_height (pr_tick_cache s ++ [(entry, tick_height)])) true;
        Returns s
  end.

(** The loop of [record]; it runs again only after a tick, and then the chain
    can record, so that two turns are enough. *)
Fixpoint record_loop (fuel : nat) (s : PohRecorder) (bank_slot : Slot) (mixin : Hash)
    (transactions : list VersionedTransaction) : outcome (PohRecorder * result PohRecorderError unit) :=
  match fuel with
  | O => Panics
  | S fuel =>
      '(s, flush_cache_res) ← flush_cache s false;
      match flush_cache_res with
      | Err e => Returns (s, Err e)
      | Ok _ =>
          match pr_working_bank s with
          | None => Returns (s, Err MaxHeightReached)
          | Some w =>
              if negb (bank_slot =? bk_slot (wb_bank w)) then Returns (s, Err MaxHeightReached)
              else
                let '(poh, record_mixin_res) := poh_record (pr_poh s) mixin in
                let s := set_poh s poh in
                match record_mixin_res with
                | Some poh_entry =>
                    let entry := {| en_num_hashes := pohe_num_hashes poh_entry; en_hash := pohe_hash poh_entry;
                                    en_transactions := transactions |} in
                    match send (pr_sent s) (bk_slot (wb_bank w), (entry, pr_tick_height s)) with
                    | Ok sent => Returns (set_sent s sent, Ok tt)
                    | Err e => Returns (s, Err e)
                    end
                | None => s ← tick s; record_loop fuel s bank_slot mixin transactions
                end
          end
      end
  end.

Definition record (s : PohRecorder) (bank_slot : Slot) (mixin : Hash)
    (transactions : list VersionedTransaction) : outcome (PohRecorder * result PohRecorderError unit) :=
  _ ← assert_ (match transactions with [] => false | _ => true end);
  record_loop 2 s bank_slot mixin transactions.

(** [PohRecorder::set_bank]. *)
Definition set_bank (s : PohRecorder) (bank : BankTicks) : outcome PohRecorder :=
  _ ← assert_ (bk_ticks_per_slot bank =? ticks_per_slot);
  let w := {| wb_bank := bank; wb_min_tick_height := bk_tick_height bank;
              wb_max_tick_height := bk_max_tick_height bank |} in
  '(s, _) ← flush_cache (set_working_bank s (Some w)) false;
  Returns s.

(** [PohRecorder::reset]. *)
Definition recorder_reset (s : PohRecorder) (reset_bank : BankTicks) (next : option (Slot * Slot))
    : outcome PohRecorder :=
  s ← clear_bank s;
  blockhash ← last_hash (bk_blockhash_queue reset_bank);
  poh ← poh_reset (pr_poh s) blockhash hashes_per_tick;
  let s := set_poh s poh in
  let tick_height := wrap64 (wrap64 (bk_slot reset_bank + 1) * ticks_per_slot) in
  let s := set_start (set_cache s tick_height []) reset_bank (wrap64 (tick_height + 1)) in
  Returns (set_leader s (compute_leader_slot_tick_heights next ticks_per_slot)).

(** [PohRecorder::new]. *)
Definition recorder_new (tick_height : Z) (last_entry_hash : Hash) (start_bank : BankTicks)
    (next : option (Slot * Slot)) : outcome PohRecorder :=
  poh ← new_with_slot_info last_entry_hash hashes_per_tick ticks_per_slot 0;
  Returns (set_leader
    {| pr_poh := poh; pr_tick_height := tick_height; pr_start_bank := start_bank;
       pr_start_tick_height := wrap64 (tick_height + 1); pr_tick_cache := []; pr_working_bank := None;
       pr_sent := []; pr_leader_first_tick_height := None; pr_leader_last_tick_height := 0;
       pr_grace_ticks := 0 |} (compute_leader_slot_tick_heights next ticks_per_slot)).

(** ** Leader slots *)

Definition would_be_leader (s : PohRecorder) (within_next_n_ticks : Z) : bool :=
  has_bank s
  || match pr_leader_first_tick_height s with
     | None => false
     | Some first =>
         let ideal_leader_tick_height := sat_sub64 first (pr_grace_ticks s) in
         (ideal_leader_tick_height <=? wrap64 (pr_tick_height s + within_next_n_ticks))
         && (pr_tick_height s <=? pr_leader_last_tick_height s)
     end.

Definition slot_for_tick_height (tick_height : Z) : outcome Slot :=
  _ ← assert_ (negb (ticks_per_slot =? 0));
  Returns (sat_sub64 tick_height 1 / ticks_per_slot).

(** [(slot.saturating_sub(4)..slot).any(|slot| slot == self.start_slot())]. *)
Definition is_same_fork_as_previous_leader (s : PohRecorder) (slot : Slot) : bool :=
  (sat_sub64 slot NUM_CONSECUTIVE_LEADER_SLOTS <=? start_slot s) && (start_slot s <? slot).

Definition prev_slot_was_mine (current_slot : Slot) : bool :=
  match slot_leader_at (sat_sub64 current_slot 1) with
  | Some leader_id => N.eqb leader_id id
  | None => false
  end.

Definition reached_leader_tick (s : PohRecorder) (leader_first : Z) : outcome bool :=
  let target_tick_height := sat_sub64 leader_first 1 in
  let ideal_target_tick_height := sat_sub64 target_tick_height (pr_grace_ticks s) in
  let next_tick_height := sat_add64 (pr_tick_height s) 1 in
  next_slot ← slot_for_tick_height next_tick_height;
  Returns ((target_tick_height <=? pr_tick_height s)
           || (wrap64 (pr_start_tick_height s + pr_grace_ticks s) =? leader_first)
           || ((ideal_target_tick_height <=? pr_tick_height s)
               && (prev_slot_was_mine next_slot || negb (is_same_fork_as_previous_leader s next_slot)))).

Definition reached_leader_slot (s : PohRecorder) : outcome PohLeaderStatus :=
  let next_tick_height := wrap64 (pr_tick_height s + 1) in
  next_poh_slot ← slot_for_tick_height next_tick_height;
  match pr_leader_first_tick_height s with
  | None => Returns NotReached
  | Some leader_first =>
      reached ← reached_leader_tick s leader_first;
      if (reached : bool) then
        _ ← assert_ (pr_start_tick_height s <=? next_tick_height);
        Returns (Reached next_poh_slot (start_slot s))
      else Returns NotReached
  end.

End PohRecorder.
