(* ===== verification/PohRecorderSafety.v ===== *)
(** * What the recorder sends to the ledger

    Theorems about PohRecorder.v.  From a reset on, however ticks, records,
    hashing and new working banks follow each other, the entries that were
    sent, in the order they were sent, are one verifiable chain from the
    blockhash of the reset, with consecutive tick heights inside the ranges of
    their banks; a record is in the ledger exactly when it succeeded. *)

From S2P Require Import Prelude Message InstructionsSysvar Transaction BlockhashQueue Merkle Poh PohChain PohRecorder.

#[local] Arguments sha_hash : simpl never.
#[local] Arguments sha_hashv : simpl never.
#[local] Arguments hash_bytes : simpl never.
#[local] Arguments hash_times : simpl never.

(** ** Definitions *)

Section Safety.
Context `{Sha256}.

(** [es] are the entries of a chain from [h0], and [p] continues it. *)
Record chain_inv (h0 : Hash) (es : list Entry) (p : Poh) : Prop := {
  ci_continues : continues (end_hash h0 es) p;
  ci_ok : Forall entry_ok es;
  ci_verify : verify_cpu_generic h0 es = Returns true;
  ci_count : poh_hashes_per_tick p < U64_MAX ->
    tick_hash_loop es 0 (poh_hashes_per_tick p) = (carried p, true);
}.

(** The entries of what was sent. *)
Definition ledger (sent : list (Slot * (Entry * Z))) : list Entry := map (fun x => x.2.1) sent.

(** The tick heights of what was sent: from [t] on, a tick is one height
    further, transactions are at the height of the last tick; [t'] is the
    height at the end. *)
Fixpoint heights_ok (t : Z) (sent : list (Slot * (Entry * Z))) (t' : Z) : Prop :=
  match sent with
  | [] => t = t'
  | (_, (e, h)) :: rest => h = (if is_tick e then t + 1 else t) /\ heights_ok h rest t'
  end.

(** The tick height is in the range of the bank's slot. *)
Definition in_slot (ticks_per_slot : Z) (x : Slot * (Entry * Z)) : Prop :=
  let '(slot, (e, h)) := x in
  if is_tick e then h <= (slot + 1) * ticks_per_slot else h < (slot + 1) * ticks_per_slot.

(** The cached ticks follow the height [base]. *)
Definition cache_ok (base : Z) (cache : list (Entry * Z)) : Prop :=
  forall i e h, cache !! i = Some (e, h) -> h = base + Z.of_nat i + 1 /\ en_transactions e = [].

(** The bank after [n] more ticks. *)
Definition ticked (b b' : BankTicks) (n : nat) : Prop :=
  bk_slot b' = bk_slot b /\ bk_ticks_per_slot b' = bk_ticks_per_slot b
  /\ bk_max_tick_height b' = bk_max_tick_height b /\ bk_freeze_started b' = bk_freeze_started b
  /\ bk_tick_height b' = bk_tick_height b + Z.of_nat n.

(** ** Lemmas: chains *)

Lemma verify_generic_app : forall es h0 es',
  verify_cpu_generic h0 es = Returns true ->
  verify_cpu_generic h0 (es ++ es') = verify_cpu_generic (end_hash h0 es) es'.
Proof.
  induction es as [|e es IH]; intros h0 es' Hv; [done|]. rewrite verify_generic_cons in Hv. cbn [app].
  rewrite verify_generic_cons. destruct (entry_verify e h0) as [[]|]; try done. cbn in Hv |- *.
  rewrite IH by done. unfold end_hash. rewrite last_cons. by destruct (last es).
Qed.

Lemma tick_hash_app n es' : forall es c c', tick_hash_loop es c n = (c', true) ->
  tick_hash_loop (es ++ es') c n = tick_hash_loop es' c' n.
Proof.
  induction es as [|e es IH]; intros c c' Hl; cbn in Hl |- *; [by injection Hl as -> _|].
  destruct (is_tick e); [|by apply IH]. destruct (_ =? _); cbn in Hl |- *; [by apply IH|done].
Qed.

Lemma end_hash_snoc h0 es e : end_hash h0 (es ++ [e]) = en_hash e.
Proof. unfold end_hash. by rewrite last_snoc. Qed.

(** An operation extends the chain. *)
Lemma chain_step h0 es p op p' e :
  chain_inv h0 es p -> op_ok op -> poh_step p op = Returns (p', e) -> chain_inv h0 (es ++ e) p'.
Proof.
  intros [Hc Hok Hv Hn] Hop Hs. destruct (poh_step_chain _ p op Hop Hc) as (p1 & e1 & Hs1 & Hc1 & Ht1 & He).
  rewrite Hs in Hs1. injection Hs1 as <- <-. destruct e as [|e [|]]; [| |done].
  - rewrite app_nil_r. split; try done. rewrite Ht1, He. done.
  - destruct He as (Heok & Hh & Hcount). split.
    + by rewrite end_hash_snoc.
    + apply Forall_app. by split; [|apply Forall_singleton].
    + rewrite verify_generic_app by done. by rewrite verify_generic_one.
    + rewrite Ht1. intros Hlt. rewrite (tick_hash_app _ _ _ _ _ (Hn Hlt)). cbn [tick_hash_loop].
      destruct Hc as [_ Hn0 Hr0 Hp0], Heok as [Hen _], Hc1 as [_ Hn1 Hr1 Hp1]. unfold carried in *. rewrite Ht1 in *.
      destruct (is_tick e).
      * destruct Hcount as [Hc0 Hsum]. specialize (Hsum Hlt).
        replace (sat_add64 _ _) with (poh_hashes_per_tick p) by (u_unfold; lia).
        rewrite Z.eqb_refl. cbn. destruct (Z.ltb_spec 0 (poh_hashes_per_tick p)); [|lia]. f_equal. lia.
      * replace (sat_add64 _ _) with (poh_hashes_per_tick p - poh_remaining_hashes p' - poh_num_hashes p') by (u_unfold; lia).
        f_equal. apply Z.ltb_lt. lia.
Qed.

Lemma heights_app : forall l t t' l' t'', heights_ok t l t' -> heights_ok t' l' t'' -> heights_ok t (l ++ l') t''.
Proof.
  induction l as [|[sl [e h]] l IH]; intros t t' l' t'' H1 H2; cbn in *; [by subst|].
  destruct H1 as [Hh H1]. split; [done|]. by eapply IH.
Qed.

Lemma heights_ticks slot : forall ticks base, cache_ok base ticks ->
  heights_ok base (map (pair slot) ticks) (base + Z.of_nat (length ticks)).
Proof.
  induction ticks as [|[e h] ticks IH]; intros base Hc; cbn [map heights_ok length]; [lia|].
  destruct (Hc 0%nat e h eq_refl) as [-> He]. unfold is_tick. rewrite He. split; [lia|].
  replace (base + Z.of_nat 0 + 1) with (base + 1) by lia. replace (base + Z.of_nat (S (length ticks))) with (base + 1 + Z.of_nat (length ticks)) by lia.
  apply IH. intros i e' h' Hi. destruct (Hc (S i) e' h' Hi) as [-> He']. split; [lia|done].
Qed.

(** ** Lemmas: flushing the cache *)

Lemma cache_ok_drop base k cache : cache_ok base cache -> (k <= length cache)%nat ->
  cache_ok (base + Z.of_nat k) (drop k cache).
Proof. intros Hc Hk i e h. rewrite lookup_drop. intros Hi. destruct (Hc _ _ _ Hi) as [-> He]. split; [lia|done]. Qed.

Lemma cache_ok_take base k cache : cache_ok base cache -> cache_ok base (take k cache).
Proof. intros Hc i e h Hi. apply lookup_take_Some in Hi as [Hi _]. by apply Hc in Hi. Qed.

Lemma entry_count_le max_height : forall cache base, cache_ok base cache -> base <= max_height ->
  Z.of_nat (entry_count max_height cache) = Z.min (Z.of_nat (length cache)) (max_height - base).
Proof.
  induction cache as [|[e h] cache IH]; intros base Hc Hle; cbn [entry_count length]; [lia|].
  destruct (Hc 0%nat e h eq_refl) as [-> _]. cbn [snd]. destruct (Z.leb_spec (base + Z.of_nat 0 + 1) max_height); [|lia].
  rewrite Nat2Z.inj_succ, (IH (base + 1)); [lia| |lia].
  intros i e' h' Hi. destruct (Hc (S i) e' h' Hi) as [-> He']. split; [lia|done].
Qed.

Lemma flush_loop_spec now : forall ticks bank sent,
  bk_freeze_started bank = false -> bk_ticks_per_slot bank <> 0 ->
  0 <= bk_tick_height bank -> bk_tick_height bank + Z.of_nat (length ticks) <= U64_MAX ->
  exists bank', flush_loop true now bank sent ticks = Returns (bank', sent ++ map (pair (bk_slot bank)) ticks, true)
    /\ ticked bank bank' (length ticks).
Proof.
  induction ticks as [|t ticks IH]; intros bank sent Hf Ht H0 Hmax; cbn [flush_loop].
  { exists bank. cbn. rewrite app_nil_r. split; [done|]. unfold ticked. split_and!; done || cbn; lia. }
  cbn [length] in Hmax. unfold register_tick, is_block_boundary. rewrite Hf. cbn [negb assert_ mbind outcome_bind].
  destruct (Z.eqb_spec (bk_ticks_per_slot bank) 0); [done|]. cbn [negb assert_ mbind outcome_bind].
  rewrite wrap64_small by (u_unfold; lia). unfold send. cbn [bk_slot].
  match goal with |- context [flush_loop true now ?b ?s ticks] => destruct (IH b s) as (bank' & -> & Ht') end;
    cbn; try done; try lia.
  exists bank'. cbn [map]. rewrite <- app_assoc. split; [done|]. unfold ticked in *. cbn in Ht'. cbn [length].
  destruct Ht' as (? & ? & ? & ? & ?). split_and!; congruence || lia.
Qed.

(** ** Runs of the recorder *)

Variable hashes_per_tick : option Z.
Variable ticks_per_slot : Z.
Variable next_leader_slot : Slot -> option (Slot * Slot).
Variable now : Z.

Abbreviation flush := (flush_cache ticks_per_slot next_leader_slot true now).
Abbreviation do_tick := (tick ticks_per_slot next_leader_slot true now).
Abbreviation do_record := (record ticks_per_slot next_leader_slot true now).
Abbreviation do_set_bank := (set_bank ticks_per_slot next_leader_slot true now).

(** The banks that the replay stage hands to the recorder: a child of the
    start bank, whose ticks so far are those of its complete parent. *)
Definition child_bank (s : PohRecorder) (b : BankTicks) : Prop :=
  bk_tick_height b = (start_slot s + 1) * ticks_per_slot
  /\ bk_max_tick_height b = (bk_slot b + 1) * ticks_per_slot /\ start_slot s < bk_slot b
  /\ bk_ticks_per_slot b = ticks_per_slot /\ bk_freeze_started b = false
  /\ bk_max_tick_height b <= U64_MAX.

(** One operation on the recorder, by the service that hashes and ticks, the
    banking stage that records, or the replay stage that sets the bank.  The
    recorder knows a next leader slot when it ticks. *)
Inductive recorder_step : PohRecorder -> PohRecorder -> Prop :=
| rs_hash s n p b :
    u64 n -> hash_up_to (pr_poh s) n = Returns (p, b) -> recorder_step s (set_poh s p)
| rs_tick s s' :
    pr_leader_first_tick_height s <> None -> pr_tick_height s < U64_MAX ->
    do_tick s = Returns s' -> recorder_step s s'
| rs_record s slot mixin transactions s' r :
    pr_leader_first_tick_height s <> None -> pr_tick_height s < U64_MAX ->
    transactions <> [] -> hash_transactions transactions = Returns mixin ->
    do_record s slot mixin transactions = Returns (s', r) -> recorder_step s s'
| rs_set_bank s b s' :
    pr_working_bank s = None -> child_bank s b ->
    do_set_bank s b = Returns s' -> recorder_step s s'.

(** ** The invariant *)

(** The hash and the bank of the reset, and what was sent before. *)
Variable h0 : Hash.
Variable reset_bank : BankTicks.
Variable sent0 : list (Slot * (Entry * Z)).
Hypothesis Htps : 0 < ticks_per_slot.
Hypothesis Hslot0 : 0 <= bk_slot reset_bank.

(** The height of the last tick that is not in the cache. *)
Definition base (s : PohRecorder) : Z := pr_tick_height s - Z.of_nat (length (pr_tick_cache s)).

(** The working bank has had the ticks that were sent. *)
Record loaded (w : WorkingBank) (s : PohRecorder) : Prop := {
  lb_max : wb_max_tick_height w = bk_max_tick_height (wb_bank w);
  lb_slot : bk_max_tick_height (wb_bank w) = (bk_slot (wb_bank w) + 1) * ticks_per_slot;
  lb_bound : bk_max_tick_height (wb_bank w) <= U64_MAX;
  lb_tps : bk_ticks_per_slot (wb_bank w) = ticks_per_slot;
  lb_open : bk_freeze_started (wb_bank w) = false;
  lb_height : bk_tick_height (wb_bank w) = base s;
  lb_range : 0 <= wb_min_tick_height w <= base s;
  lb_below : base s < wb_max_tick_height w;
}.

Record pre_inv (s : PohRecorder) (since : list (Slot * (Entry * Z))) : Prop := {
  ri_sent : pr_sent s = sent0 ++ since;
  ri_chain : chain_inv h0 (ledger since ++ map fst (pr_tick_cache s)) (pr_poh s);
  ri_hpt : poh_hashes_per_tick (pr_poh s) = default U64_MAX hashes_per_tick;
  ri_cache : cache_ok (base s) (pr_tick_cache s);
  ri_heights : heights_ok ((bk_slot reset_bank + 1) * ticks_per_slot) since (base s);
  ri_slots : Forall (in_slot ticks_per_slot) since;
  ri_start : pr_start_bank s = reset_bank \/ is_complete (pr_start_bank s) = true;
  ri_bound : 0 <= base s /\ pr_tick_height s <= U64_MAX;
  ri_bank : match pr_working_bank s with
            | Some w => loaded w s
            | None => base s = (start_slot s + 1) * ticks_per_slot
            end;
}.

(** Between two operations nothing of a working bank is left in the cache. *)
Definition rec_inv (s : PohRecorder) (since : list (Slot * (Entry * Z))) : Prop :=
  pre_inv s since /\ (pr_working_bank s <> None -> pr_tick_cache s = []).

(** ** Lemmas: the invariant *)

Definition flushed (s : PohRecorder) (w : WorkingBank) (s' : PohRecorder) (k : nat) (bank' : BankTicks) : Prop :=
  ticked (wb_bank w) bank' k
  /\ pr_sent s' = pr_sent s ++ map (pair (bk_slot (wb_bank w))) (take k (pr_tick_cache s))
  /\ pr_tick_cache s' = drop k (pr_tick_cache s) /\ pr_tick_height s' = pr_tick_height s
  /\ pr_poh s' = pr_poh s.

Lemma flush_spec s w b :
  pr_working_bank s = Some w -> loaded w s -> cache_ok (base s) (pr_tick_cache s) ->
  pr_tick_height s <= U64_MAX -> (b = true -> pr_tick_cache s <> []) ->
  exists s' k bank', flush s b = Returns (s', Ok tt) /\ flushed s w s' k bank'
    /\ (k <= length (pr_tick_cache s))%nat
    /\ if wb_max_tick_height w <=? pr_tick_height s
       then pr_working_bank s' = None /\ pr_start_bank s' = bank' /\ base s + Z.of_nat k = wb_max_tick_height w
       else pr_working_bank s' = Some {| wb_bank := bank'; wb_min_tick_height := wb_min_tick_height w;
                                         wb_max_tick_height := wb_max_tick_height w |}
            /\ pr_start_bank s' = pr_start_bank s /\ k = length (pr_tick_cache s)
            /\ pr_leader_first_tick_height s' = pr_leader_first_tick_height s.
Proof.
  intros Hw [] Hc Hb Htick. unfold flush_cache. rewrite Hw. unfold base in *.
  set (cache := pr_tick_cache s) in *. set (h := pr_tick_height s) in *.
  destruct (Z.ltb_spec h (wb_min_tick_height w)); [lia|].
  assert (b && (h =? wb_min_tick_height w) = false) as ->.
  { destruct b; [|done]. specialize (Htick eq_refl). apply Z.eqb_neq. destruct cache; [done|]. cbn [length] in *. lia. }
  pose proof (entry_count_le (wb_max_tick_height w) cache _ Hc ltac:(lia)) as Hk.
  set (k := entry_count (wb_max_tick_height w) cache) in *.
  destruct (flush_loop_spec now (take k cache) (wb_bank w) (pr_sent s)) as (bank' & -> & Ht);
    [done|lia|lia|rewrite length_take; lia|].
  rewrite length_take, Nat.min_l in Ht by lia. cbn [mbind outcome_bind wb_max_tick_height].
  pose proof Ht as (Hsl & Htp & Hmx & _ & Hth).
  change (pr_tick_height (set_working_bank (set_sent s _) _)) with h.
  exists (if wb_max_tick_height w <=? h
          then set_cache (set_leader (set_working_bank (set_start (set_working_bank (set_sent s
                 (pr_sent s ++ map (pair (bk_slot (wb_bank w))) (take k cache))) (Some {| wb_bank := bank'; wb_min_tick_height := wb_min_tick_height w;
                                         wb_max_tick_height := wb_max_tick_height w |}))
                 bank' (wrap64 (wrap64 (bk_slot bank' * ticks_per_slot) + 1))) None)
                 (compute_leader_slot_tick_heights (next_leader_slot (bk_slot bank')) ticks_per_slot)) h (drop k cache)
          else set_cache (set_working_bank (set_sent s (pr_sent s ++ map (pair (bk_slot (wb_bank w))) (take k cache)))
                 (Some {| wb_bank := bank'; wb_min_tick_height := wb_min_tick_height w;
                          wb_max_tick_height := wb_max_tick_height w |})) h (drop k cache)), k, bank'.
  destruct (Z.leb_spec (wb_max_tick_height w) h).
  - unfold clear_bank. cbn [pr_working_bank set_start set_working_bank wb_bank]. rewrite Htp, lb_tps0, Z.eqb_refl.
    cbn [assert_ mbind outcome_bind]. destruct (compute_leader_slot_tick_heights _ _) as [[f l] g].
    split; [done|]. split_and!; try done; lia.
  - cbn [mbind outcome_bind]. split; [done|]. split_and!; try done; lia.
Qed.

Lemma ledger_ticks slot ticks : ledger (map (pair slot) ticks) = map fst ticks.
Proof. unfold ledger. rewrite map_map. done. Qed.

(** The ticks that a flush sends are in the range of the bank. *)
Lemma in_slot_ticks slot ticks b : cache_ok b ticks -> b + Z.of_nat (length ticks) <= (slot + 1) * ticks_per_slot ->
  Forall (in_slot ticks_per_slot) (map (pair slot) ticks).
Proof.
  intros Hc Hle. apply Forall_forall. intros [sl [e h]] Hin%list_elem_of_fmap. destruct Hin as ([e' h'] & [= -> -> ->] & Hi).
  apply list_elem_of_lookup in Hi as [i Hi]. pose proof (lookup_lt_Some _ _ _ Hi). apply Hc in Hi as [-> He].
  unfold in_slot, is_tick. rewrite He. lia.
Qed.

(** A flush of a loaded bank leads to a state between operations; it sends
    ticks only. *)
Lemma flush_inv s w since b :
  pre_inv s since -> pr_working_bank s = Some w -> (b = true -> pr_tick_cache s <> []) ->
  exists s' k, flush s b = Returns (s', Ok tt)
    /\ rec_inv s' (since ++ map (pair (bk_slot (wb_bank w))) (take k (pr_tick_cache s)))
    /\ pr_poh s' = pr_poh s /\ pr_tick_height s' = pr_tick_height s
    /\ (pr_tick_height s < wb_max_tick_height w ->
        pr_leader_first_tick_height s' = pr_leader_first_tick_height s
        /\ exists w', pr_working_bank s' = Some w' /\ bk_slot (wb_bank w') = bk_slot (wb_bank w)
             /\ wb_max_tick_height w' = wb_max_tick_height w).
Proof.
  intros [] Hw Htick. rewrite Hw in ri_bank0. pose proof ri_bank0 as Hl. destruct Hl.
  destruct (flush_spec s w b Hw ri_bank0 ri_cache0 (proj2 ri_bound0) Htick)
    as (s' & k & bank' & Hf & (Ht & Hsent & Hcache & Hheight & Hpoh) & Hk & Hcase).
  destruct Ht as (Hsl & Htp & Hmx & Hfr & Hth).
  assert (base s' = base s + Z.of_nat k) as Hbase by (unfold base; rewrite Hcache, Hheight, length_drop; lia).
  assert (base s + Z.of_nat k <= wb_max_tick_height w /\ base s + Z.of_nat k <= pr_tick_height s) as [Hkm Hkt].
  { unfold base in *. destruct (Z.leb_spec (wb_max_tick_height w) (pr_tick_height s)); [destruct Hcase as (_ & _ & E)|destruct Hcase as (_ & _ & E & _)]; lia. }
  assert (match pr_working_bank s' with
          | Some w' => loaded w' s' /\ pr_tick_cache s' = []
          | None => base s' = (start_slot s' + 1) * ticks_per_slot
          end) as Hwb.
  { destruct (Z.leb_spec (wb_max_tick_height w) (pr_tick_height s)); destruct Hcase as (-> & Hst & Hcase).
    - unfold start_slot. rewrite Hst, Hbase, Hsl. lia.
    - destruct Hcase as [-> _]. rewrite Hcache, drop_all. split; [|done].
      split; cbn; rewrite ?Hbase; try congruence; unfold base in *; lia. }
  exists s', k. split; [done|]. split_and!; try done.
  - split.
    + split.
      * by rewrite Hsent, ri_sent0, <- app_assoc.
      * rewrite Hpoh, Hcache. unfold ledger in *. rewrite map_app, map_map. cbn [snd fst].
        rewrite <- app_assoc. change (map (fun x => x.1) (take k (pr_tick_cache s))) with (map fst (take k (pr_tick_cache s))).
        by rewrite <- map_app, take_drop.
      * by rewrite Hpoh.
      * rewrite Hcache, Hbase. by apply cache_ok_drop.
      * rewrite Hbase. eapply heights_app; [exact ri_heights0|].
        pose proof (heights_ticks (bk_slot (wb_bank w)) _ _ (cache_ok_take _ k _ ri_cache0)) as Hh.
        rewrite length_take, Nat.min_l in Hh by lia. exact Hh.
      * apply Forall_app. split; [done|]. apply (in_slot_ticks _ _ (base s)); [by apply cache_ok_take|].
        rewrite length_take, Nat.min_l by lia. lia.
      * destruct (_ <=? _); destruct Hcase as (_ & -> & Hcase); [|done]. right. unfold is_complete. apply Z.eqb_eq. lia.
      * rewrite Hbase, Hheight. lia.
      * destruct (pr_working_bank s'); [by destruct Hwb|done].
    + intros Hsome. destruct (pr_working_bank s'); [by destruct Hwb|done].
  - intros Hlt. destruct (Z.leb_spec (wb_max_tick_height w) (pr_tick_height s)); [lia|].
    destruct Hcase as (Hw' & _ & _ & Hld). split; [done|]. eexists. split; [exact Hw'|]. split; [exact Hsl|done].
Qed.

Lemma pre_inv_poh s since p :
  pre_inv s since -> chain_inv h0 (ledger since ++ map fst (pr_tick_cache s)) p ->
  poh_hashes_per_tick p = poh_hashes_per_tick (pr_poh s) -> pre_inv (set_poh s p) since.
Proof.
  intros [] Hc Hp. split; try done; cbn; [congruence|]. destruct (pr_working_bank s); [|done]. by destruct ri_bank0.
Qed.

Lemma poh_tick_per_tick p : poh_hashes_per_tick (poh_tick p).1 = poh_hashes_per_tick p.
Proof. unfold poh_tick. by destruct (_ && _). Qed.

Lemma poh_record_per_tick p m : poh_hashes_per_tick (poh_record p m).1 = poh_hashes_per_tick p.
Proof. unfold poh_record. by destruct (_ =? _). Qed.

Lemma tick_inv s since :
  rec_inv s since -> pr_leader_first_tick_height s <> None -> pr_tick_height s < U64_MAX ->
  exists s' ticks, do_tick s = Returns s' /\ rec_inv s' (since ++ ticks)
    /\ Forall (fun x => is_tick x.2.1 = true) ticks /\ pr_poh s' = (poh_tick (pr_poh s)).1.
Proof.
  intros [Hpre Hcache] Hld Hmax. unfold tick.
  pose proof (ri_chain _ _ Hpre) as Hchain. pose proof (poh_tick_per_tick (pr_poh s)) as Hpt.
  pose proof (fun p' e => chain_step h0 _ (pr_poh s) OpTick p' e Hchain I) as Hstep. cbn [poh_step] in Hstep.
  destruct (poh_tick (pr_poh s)) as [p [e|]] eqn:Ep; cbn [fst] in *.
  2: { specialize (Hstep p [] eq_refl). rewrite app_nil_r in Hstep. exists (set_poh s p), []. rewrite app_nil_r.
       split_and!; try done. split; [by apply pre_inv_poh|done]. }
  specialize (Hstep p _ eq_refl). cbn [entry_from] in Hstep. cbn [pr_leader_first_tick_height set_poh].
  destruct (pr_leader_first_tick_height s) as [ld|]; [|done]. cbn [is_some negb].
  pose proof Hpre as []. rewrite wrap64_small by (cbn; unfold base in *; u_unfold; lia).
  match goal with |- context [flush ?x true] => set (s1 := x) end.
  assert (base s1 = base s) as Hbase by (unfold base, s1; cbn; rewrite length_app; cbn; lia).
  assert (pre_inv s1 since) as Hpre1.
  { split; try done.
    - cbn. rewrite map_app, app_assoc. exact Hstep.
    - cbn. congruence.
    - rewrite Hbase. intros i e' h Hi. cbn in Hi. apply lookup_app_Some in Hi as [Hi|[Hi1 Hi2]]; [by apply ri_cache0|].
      destruct (i - length (pr_tick_cache s))%nat eqn:Ei; [|done]. cbn in Hi2. injection Hi2 as <- <-.
      split; [unfold base; lia|done].
    - by rewrite Hbase.
    - rewrite Hbase. cbn. lia.
    - cbn. destruct (pr_working_bank s) as [w|]; [|by rewrite Hbase].
      destruct ri_bank0. split; rewrite ?Hbase; done. }
  destruct (pr_working_bank s) as [w|] eqn:Hw.
  - destruct (flush_inv s1 w since true Hpre1) as (s' & k & -> & Hinv & Hpoh & _); [done|intros _; cbn; by destruct (pr_tick_cache s)|].
    cbn [mbind outcome_bind]. eexists _, _. split_and!; [done|exact Hinv| |by rewrite Hpoh].
    apply Forall_forall. intros [sl [e' h]] Hin%list_elem_of_fmap. destruct Hin as ([e1 h1] & [= -> -> ->] & Hi).
    apply list_elem_of_lookup in Hi as [i Hi]. apply lookup_take_Some in Hi as [Hi _].
    apply (ri_cache _ _ Hpre1) in Hi as [_ He]. unfold is_tick. cbn. by rewrite He.
  - exists s1, []. unfold flush_cache. change (pr_working_bank s1) with (pr_working_bank s). rewrite Hw, app_nil_r.
    split_and!; done.
Qed.

(** What a record adds to the ledger. *)
Definition recorded_as (r : result PohRecorderError unit) (slot : Slot) (transactions : list VersionedTransaction)
    (tail : list (Slot * (Entry * Z))) : Prop :=
  match r with
  | Ok _ => exists e h, tail = [(slot, (e, h))] /\ en_transactions e = transactions
  | Err e => e = MaxHeightReached /\ tail = []
  end.

Abbreviation turn := (record_loop ticks_per_slot next_leader_slot true now).

Definition bank_is (s : PohRecorder) (slot : Slot) : Prop :=
  exists w, pr_working_bank s = Some w /\ bk_slot (wb_bank w) = slot.

(** One turn of the loop of [record]: it is over, or the chain needs a tick
    first. *)
Lemma record_turn fuel s since slot mixin transactions :
  rec_inv s since -> transactions <> [] -> hash_transactions transactions = Returns mixin ->
  (exists s' r tail, turn (S fuel) s slot mixin transactions = Returns (s', r)
     /\ rec_inv s' (since ++ tail) /\ recorded_as r slot transactions tail /\ (r = Ok tt -> bank_is s slot))
  \/ (bank_is s slot /\ poh_remaining_hashes (pr_poh s) = 1 /\ exists s', rec_inv s' since /\ pr_poh s' = pr_poh s
      /\ pr_leader_first_tick_height s' = pr_leader_first_tick_height s /\ pr_tick_height s' = pr_tick_height s
      /\ turn (S fuel) s slot mixin transactions = (s ← do_tick s'; turn fuel s slot mixin transactions)).
Proof.
  intros Hinv Htx Hm. cbn [record_loop]. destruct (pr_working_bank s) as [w|] eqn:Hw.
  2: { left. exists s, (Err MaxHeightReached), []. unfold flush_cache. rewrite Hw, app_nil_r. done. }
  destruct Hinv as [Hpre Hcache]. assert (pr_tick_cache s = []) as Hc by (apply Hcache; by rewrite Hw).
  assert (bank_is s (bk_slot (wb_bank w))) as Hbank by by exists w.
  pose proof (ri_bank _ _ Hpre) as Hl. rewrite Hw in Hl. destruct (flush_inv s w since false Hpre Hw) as
    (s1 & k & -> & Hinv1 & Hpoh & Hth & Hsame); [done|].
  destruct Hsame as (Hld & w1 & Hw1 & Hslot & Hmax1).
  { destruct Hl. unfold base in *. rewrite Hc in *. cbn in *. lia. }
  rewrite Hc, take_nil in Hinv1. cbn [map] in Hinv1. rewrite app_nil_r in Hinv1. cbn [mbind outcome_bind].
  rewrite Hw1. destruct (Z.eqb_spec slot (bk_slot (wb_bank w1))) as [->|]; cbn [negb].
  2: { left. exists s1, (Err MaxHeightReached), []. by rewrite app_nil_r. }
  destruct Hinv1 as [Hpre1 Hcache1]. assert (pr_tick_cache s1 = []) as Hc1 by (apply Hcache1; by rewrite Hw1).
  pose proof (ri_chain _ _ Hpre1) as Hchain. rewrite Hc1 in Hchain. cbn [map] in Hchain. rewrite app_nil_r in Hchain.
  pose proof (poh_record_per_tick (pr_poh s1) mixin) as Hpt.
  pose proof (fun p' e => chain_step h0 _ (pr_poh s1) (OpRecord transactions) p' e Hchain Htx) as Hstep.
  cbn [poh_step] in Hstep. rewrite Hm in Hstep. cbn [mbind outcome_bind] in Hstep.
  destruct (poh_record (pr_poh s1) mixin) as [p [e|]] eqn:Ep; cbn [fst] in *.
  2: { right. unfold poh_record in Ep. destruct (Z.eqb_spec (poh_remaining_hashes (pr_poh s1)) 1) as [H1|]; [|done].
       injection Ep as <-. split; [by rewrite Hslot|]. split; [by rewrite <- Hpoh|]. exists s1. split_and!; done. }
  left. specialize (Hstep p _ eq_refl). cbn [entry_from] in Hstep. unfold send. cbn [pr_sent set_poh].
  eexists _, (Ok tt), [(bk_slot (wb_bank w1), ({| en_num_hashes := pohe_num_hashes e; en_hash := pohe_hash e;
    en_transactions := transactions |}, pr_tick_height s1))].
  split; [done|]. split; [|split; [by eexists _, _|by rewrite Hslot]].
  pose proof Hpre1 as []. rewrite Hw1 in ri_bank0. split.
  - split; try done.
    + cbn. by rewrite ri_sent0, <- app_assoc.
    + cbn. rewrite Hc1. unfold ledger in *. cbn. rewrite map_app, app_nil_r. exact Hstep.
    + cbn. congruence.
    + eapply heights_app; [exact ri_heights0|]. cbn. unfold is_tick. cbn. destruct transactions; [done|].
      unfold base. cbn. rewrite Hc1. cbn. lia.
    + apply Forall_app. split; [done|]. apply Forall_singleton. unfold in_slot, is_tick. cbn.
      destruct transactions; [done|]. destruct ri_bank0. unfold base in *. rewrite Hc1 in *. cbn in *. lia.
    + cbn. rewrite Hw1. by destruct ri_bank0.
  - cbn. done.
Qed.

Lemma tick_refills p : poh_remaining_hashes p = 1 -> poh_remaining_hashes (poh_tick p).1 = poh_hashes_per_tick p.
Proof.
  intros H1. unfold poh_tick. rewrite H1. cbn [Z.sub]. change (wrap64 (1 - 1) =? 0) with true.
  cbn [negb]. by rewrite andb_false_r.
Qed.

Lemma record_inv s since slot mixin transactions :
  rec_inv s since -> pr_leader_first_tick_height s <> None -> pr_tick_height s < U64_MAX ->
  transactions <> [] -> hash_transactions transactions = Returns mixin ->
  exists s' r ticks tail, do_record s slot mixin transactions = Returns (s', r)
    /\ rec_inv s' (since ++ ticks ++ tail) /\ Forall (fun x => is_tick x.2.1 = true) ticks
    /\ recorded_as r slot transactions tail /\ (r = Ok tt -> bank_is s slot).
Proof.
  intros Hinv Hld Hmax Htx Hm. unfold record.
  assert (match transactions with [] => false | _ => true end = true) as -> by by destruct transactions.
  cbn [assert_ mbind outcome_bind].
  destruct (record_turn 1 s since slot mixin transactions Hinv Htx Hm)
    as [(s' & r & tail & -> & Hinv' & Hr & Hb)|(Hb & H1 & s1 & Hinv1 & Hpoh & Hld1 & Hth1 & ->)].
  { exists s', r, [], tail. by split_and!. }
  destruct (tick_inv s1 since Hinv1) as (s2 & ticks & -> & Hinv2 & Hticks & Hpoh2); [by rewrite Hld1|by rewrite Hth1|].
  cbn [mbind outcome_bind].
  destruct (record_turn 0 s2 (since ++ ticks) slot mixin transactions Hinv2 Htx Hm)
    as [(s' & r & tail & -> & Hinv' & Hr & _)|(_ & H2 & _)].
  { exists s', r, ticks, tail. rewrite <- app_assoc in Hinv'. by split_and!. }
  exfalso. rewrite Hpoh2, Hpoh, tick_refills in H2 by done.
  pose proof (ci_continues _ _ _ (ri_chain _ _ (proj1 Hinv))) as []. lia.
Qed.

Lemma set_bank_inv s since b :
  rec_inv s since -> pr_working_bank s = None -> child_bank s b ->
  exists s' ticks, do_set_bank s b = Returns s' /\ rec_inv s' (since ++ ticks).
Proof.
  intros [Hpre _] Hw (Hh & Hm & Hs & Ht & Hf & Hu). unfold set_bank. rewrite Ht, Z.eqb_refl. cbn [assert_ mbind outcome_bind].
  match goal with |- context [flush ?x false] => set (s1 := x) end.
  pose proof Hpre as []. rewrite Hw in ri_bank0.
  assert (pre_inv s1 since) as Hpre1.
  { split; try done. cbn. change (base s1) with (base s) in *. split; cbn; change (base s1) with (base s); try done; nia. }
  destruct (flush_inv s1 _ since false Hpre1 eq_refl) as (s' & k & -> & Hinv & _); [done|].
  cbn [mbind outcome_bind]. eauto.
Qed.

Lemma hash_inv s since n p b :
  rec_inv s since -> u64 n -> hash_up_to (pr_poh s) n = Returns (p, b) -> rec_inv (set_poh s p) since.
Proof.
  intros [Hpre Hc] Hn Hp. split; [|done]. pose proof (ri_chain _ _ Hpre) as Hchain.
  apply pre_inv_poh; [done| |].
  - pose proof (chain_step h0 _ (pr_poh s) (OpHash n) p [] Hchain Hn) as Hs. cbn [poh_step] in Hs.
    rewrite Hp, app_nil_r in Hs. by apply Hs.
  - unfold hash_up_to in Hp. destruct (0 <? _); [|done]. by injection Hp as <- _.
Qed.

Lemma recorder_step_inv s s' since :
  recorder_step s s' -> rec_inv s since -> exists more, rec_inv s' (since ++ more).
Proof.
  intros Hstep Hinv. destruct Hstep as [s n p b Hn Hp|s s' Hld Hmax Ht|s slot mixin txs s' r Hld Hmax Htx Hm Hr|s b s' Hw Hb Hs].
  - exists []. rewrite app_nil_r. by eapply hash_inv.
  - destruct (tick_inv s since Hinv Hld Hmax) as (s1 & ticks & E & Hinv1 & _). rewrite Ht in E. injection E as <-. eauto.
  - destruct (record_inv s since slot mixin txs Hinv Hld Hmax Htx Hm) as (s1 & r1 & ticks & tail & E & Hinv1 & _).
    rewrite Hr in E. injection E as <- _. eauto.
  - destruct (set_bank_inv s since b Hinv Hw Hb) as (s1 & ticks & E & Hinv1). rewrite Hs in E. injection E as <-. eauto.
Qed.

Lemma recorder_run_inv s s' since :
  rtc recorder_step s s' -> rec_inv s since -> exists more, rec_inv s' (since ++ more).
Proof.
  intros Hr. revert since. induction Hr as [s|s s1 s' Hstep _ IH]; intros since Hinv.
  { exists []. by rewrite app_nil_r. }
  destruct (recorder_step_inv s s1 since Hstep Hinv) as (m1 & H1). destruct (IH _ H1) as (m2 & H2).
  exists (m1 ++ m2). by rewrite app_assoc.
Qed.

Lemma reset_inv s s' next h :
  last_hash (bk_blockhash_queue reset_bank) = Returns h -> h = h0 -> u64 (default U64_MAX hashes_per_tick) ->
  (bk_slot reset_bank + 1) * ticks_per_slot < U64_MAX ->
  recorder_reset hashes_per_tick ticks_per_slot next_leader_slot s reset_bank next = Returns s' ->
  sent0 = pr_sent s' -> rec_inv s' [].
Proof.
  intros Hh -> Hu Hmax Hr Hs0. unfold recorder_reset in Hr. apply outcome_bind_Returns in Hr as (s1 & Hs1 & Hr).
  assert (pr_working_bank s1 = None) as Hw.
  { unfold clear_bank in Hs1. destruct (pr_working_bank s) as [w|] eqn:Ew; [|by injection Hs1 as <-].
    apply outcome_bind_Returns in Hs1 as (_ & _ & Hs1). destruct (compute_leader_slot_tick_heights _ _) as [[f l] g].
    by injection Hs1 as <-. }
  rewrite Hh in Hr. cbn [mbind outcome_bind] in Hr. apply outcome_bind_Returns in Hr as (p & Hp & Hr).
  apply new_continues in Hp as (Hc & Hpt & Hcar); [|done].
  rewrite (wrap64_small (bk_slot reset_bank + 1)), wrap64_small in Hr by (u_unfold; nia).
  destruct (compute_leader_slot_tick_heights next ticks_per_slot) as [[f l] g]. injection Hr as <-. cbn in Hs0.
  assert (0 <= (bk_slot reset_bank + 1) * ticks_per_slot) by nia.
  assert (chain_inv h0 [] p) as Hchain.
  { split; try done. intros Hlt. cbn. rewrite Hcar. destruct Hc. destruct (Z.ltb_spec 0 (poh_hashes_per_tick p)); [done|lia]. }
  split; [|done]. split; unfold base, start_slot; cbn; rewrite ?app_nil_r; try done; try (u_unfold; lia).
  - by left.
  - rewrite Hw. lia.
Qed.

(** What the invariant says of the ledger. *)
Lemma rec_inv_ledger s since : rec_inv s since ->
  pr_sent s = sent0 ++ since
  /\ verify_cpu_generic h0 (ledger since ++ map fst (pr_tick_cache s)) = Returns true
  /\ (forall n, hashes_per_tick = Some n -> n < U64_MAX -> exists carry,
        verify_tick_hash_count (ledger since ++ map fst (pr_tick_cache s)) 0 n = (carry, true) /\ 0 <= carry < n)
  /\ heights_ok ((bk_slot reset_bank + 1) * ticks_per_slot) since
       (pr_tick_height s - Z.of_nat (length (pr_tick_cache s)))
  /\ Forall (in_slot ticks_per_slot) since
  /\ match pr_working_bank s with
     | Some w => pr_tick_cache s = [] /\ bk_tick_height (wb_bank w) = pr_tick_height s
     | None => pr_start_bank s = reset_bank \/ is_complete (pr_start_bank s) = true
     end.
Proof.
  intros [[] Hcache]. destruct ri_chain0 as [[_ Hn Hr Ht] Hok Hv Hcount]. split_and!; try done.
  - intros n Hn' Hlt. rewrite Hn' in ri_hpt0. cbn in ri_hpt0. rewrite ri_hpt0 in *. exists (carried (pr_poh s)).
    unfold verify_tick_hash_count. destruct (Z.eqb_spec n 0); [lia|]. split; [auto|]. unfold carried. lia.
  - destruct (pr_working_bank s) as [w|]; [|done]. destruct ri_bank0. split; [by apply Hcache|].
    rewrite lb_height0. unfold base. rewrite Hcache by done. cbn. lia.
Qed.

(** ** Lemmas: the leader *)

(** A recorder with a working bank knows its next leader slot. *)
Definition led (s : PohRecorder) : Prop := pr_working_bank s <> None -> pr_leader_first_tick_height s <> None.

Lemma clear_bank_led s s' : clear_bank ticks_per_slot next_leader_slot s = Returns s' -> led s'.
Proof.
  unfold clear_bank. destruct (pr_working_bank s) as [w|] eqn:Hw.
  - intros Hs. apply outcome_bind_Returns in Hs as (_ & _ & Hs). destruct (compute_leader_slot_tick_heights _ _) as [[f l] g].
    injection Hs as <-. intros Hn. by destruct Hn.
  - intros [= <-] Hn. by rewrite Hw in Hn.
Qed.

Lemma flush_led s b s' r : led s -> flush s b = Returns (s', r) -> led s'.
Proof.
  intros Hl Hf. unfold flush_cache in Hf. destruct (pr_working_bank s) as [w|] eqn:Hw; [|by injection Hf as <- _].
  destruct (_ <? _); [by injection Hf as <- _|]. destruct (_ && _); [by injection Hf as <- _|].
  apply outcome_bind_Returns in Hf as ([[bank sent] sr] & _ & Hf). apply outcome_bind_Returns in Hf as (s1 & H1' & Hf).
  apply outcome_bind_Returns in Hf as (s2 & H2' & [= <- _]).
  assert (led s1) as Hl1.
  { destruct (_ <=? _); [by apply clear_bank_led in H1'|]. injection H1' as <-. intros _. apply Hl. by rewrite Hw. }
  destruct sr; [by injection H2' as <-|by apply clear_bank_led in H2'].
Qed.

Lemma tick_led s s' : led s -> do_tick s = Returns s' -> led s'.
Proof.
  intros Hl Ht. unfold tick in Ht. destruct (poh_tick (pr_poh s)) as [p [e|]]; [|by injection Ht as <-].
  destruct (negb _); [by injection Ht as <-|]. apply outcome_bind_Returns in Ht as ([s1 r] & Hf & [= <-]).
  by apply flush_led in Hf.
Qed.

Lemma record_loop_led slot mixin transactions : forall fuel s s' r,
  led s -> turn fuel s slot mixin transactions = Returns (s', r) -> led s'.
Proof.
  induction fuel as [|fuel IH]; intros s s' r Hl Hr; cbn [record_loop] in Hr; [done|].
  apply outcome_bind_Returns in Hr as ([s1 fr] & Hf & Hr). apply flush_led in Hf; [|done].
  destruct fr; [|by injection Hr as <- _]. destruct (pr_working_bank s1) as [w|] eqn:Hw; [|by injection Hr as <- _].
  destruct (negb _); [by injection Hr as <- _|]. destruct (poh_record (pr_poh s1) mixin) as [p [e|]].
  - cbn in Hr. injection Hr as <- _. by intros _; apply Hf; rewrite Hw.
  - apply outcome_bind_Returns in Hr as (s2 & Ht & Hr). apply tick_led in Ht; [by eapply IH|].
    by intros _; apply Hf; rewrite Hw.
Qed.

(** ** Runs as a function *)

Inductive RecorderOp :=
| RHash (n : Z)
| RTick
| RRecord (slot : Slot) (transactions : list VersionedTransaction)
| RSetBank (b : BankTicks).

Definition child_bankb (s : PohRecorder) (b : BankTicks) : bool :=
  (bk_tick_height b =? (start_slot s + 1) * ticks_per_slot)
  && (bk_max_tick_height b =? (bk_slot b + 1) * ticks_per_slot) && (start_slot s <? bk_slot b)
  && (bk_ticks_per_slot b =? ticks_per_slot) && negb (bk_freeze_started b) && (bk_max_tick_height b <=? U64_MAX).

(** The recorder after an operation; [None] when it is not possible. *)
Definition recorder_op (s : PohRecorder) (op : RecorderOp) : option PohRecorder :=
  match op with
  | RHash n =>
      if (0 <=? n) && (n <=? U64_MAX) then
        match hash_up_to (pr_poh s) n with Returns (p, _) => Some (set_poh s p) | Panics => None end
      else None
  | RTick =>
      if is_some (pr_leader_first_tick_height s) && (pr_tick_height s <? U64_MAX) then
        match do_tick s with Returns s' => Some s' | Panics => None end
      else None
  | RRecord slot transactions =>
      if is_some (pr_leader_first_tick_height s) && (pr_tick_height s <? U64_MAX) then
        match transactions, hash_transactions transactions with
        | _ :: _, Returns mixin =>
            match do_record s slot mixin transactions with Returns (s', _) => Some s' | Panics => None end
        | _, _ => None
        end
      else None
  | RSetBank b =>
      if negb (has_bank s) && child_bankb s b then
        match do_set_bank s b with Returns s' => Some s' | Panics => None end
      else None
  end.

Lemma is_some_not_None {A} (o : option A) : is_some o = true -> o <> None.
Proof. by destruct o. Qed.

Lemma recorder_op_step s op s' : recorder_op s op = Some s' -> recorder_step s s'.
Proof.
  destruct op as [n| |slot txs|b]; cbn [recorder_op]; intros Hs.
  - destruct (_ && _) eqn:Hc in Hs; [|done]. zbool. destruct (hash_up_to _ _) as [[p b]|] eqn:Hh; [|done].
    injection Hs as <-. apply (rs_hash s n p b); [by split|done].
  - destruct (_ && _) eqn:Hc in Hs; [|done]. zbool. destruct (do_tick s) as [s1|] eqn:Ht; [|done]. injection Hs as <-.
    apply rs_tick; [by apply is_some_not_None|done|done].
  - destruct (_ && _) eqn:Hc in Hs; [|done]. zbool. destruct txs as [|tx txs]; [done|].
    destruct (hash_transactions _) as [mixin|] eqn:Hm; [|done].
    destruct (do_record s slot mixin _) as [[s1 r]|] eqn:Hr; [|done]. injection Hs as <-.
    apply (rs_record s slot mixin (tx :: txs) s1 r); [by apply is_some_not_None|done..].
  - destruct (_ && _) eqn:Hc in Hs; [|done]. apply andb_true_iff in Hc as [Hb Hc]. unfold child_bankb in Hc. zbool.
    destruct (do_set_bank s b) as [s1|] eqn:Ht; [|done]. injection Hs as <-.
    apply (rs_set_bank s b); [unfold has_bank in Hb; revert Hb; by destruct (pr_working_bank s)|by split_and!|done].
Qed.

Definition recorder_ops (s : PohRecorder) (ops : list RecorderOp) : option PohRecorder :=
  fold_left (fun s op => s ← s; recorder_op s op) ops (Some s).

Lemma recorder_ops_run s ops s' : recorder_ops s ops = Some s' -> rtc recorder_step s s'.
Proof.
  revert s. induction ops as [|op ops IH]; intros s Hs; cbn in Hs; [injection Hs as <-; apply rtc_refl|].
  destruct (recorder_op s op) as [s1|] eqn:Ho.
  - eapply rtc_l; [by eapply recorder_op_step|]. by apply IH.
  - exfalso. clear IH Ho. unfold recorder_ops in Hs. induction ops as [|o ops IH]; [done|]. by apply IH.
Qed.
End Safety.

(** ** A sample run *)

Module RecorderSample.
Import PohSample.

Definition queue : BlockhashQueue := register_hash (bq_new 150) 5%N 5000 0.

Definition bank (slot : Slot) (height : Z) : BankTicks :=
  {| bk_slot := slot; bk_ticks_per_slot := 2; bk_tick_height := height; bk_max_tick_height := (slot + 1) * 2;
     bk_freeze_started := false; bk_lamports_per_signature := 5000; bk_blockhash_queue := queue |}.

(** The validator leads every slot. *)
Definition schedule (slot : Slot) : option (Slot * Slot) := Some (slot + 1, slot + 1).

Definition started : outcome PohRecorder :=
  s ← recorder_new (Some 4) 2 0 9%N (bank 0 2) (schedule 0);
  recorder_reset (Some 4) 2 schedule s (bank 0 2) (schedule 0).

(** Hashes are spent before the bank is there; the second record finds that a
    tick is due; the last one comes after the bank's last tick. *)
Definition ops : list RecorderOp :=
  [RHash 2; RSetBank (bank 1 2); RRecord 1 [tx 5 1; tx 5 2]; RRecord 1 [tx 5 3]; RHash 10; RTick; RRecord 1 [tx 5 4]; RHash 1].

Definition final : option PohRecorder :=
  match started with Returns s => recorder_ops 2 schedule 0 s ops | Panics => None end.

End RecorderSample.

(** ** Properties *)

(** C20: The ledger of a slot verifies.  From a reset on, let ticks, records,
    hashing and new working banks follow each other in any order.  What was
    sent since, followed by the ticks that are still in the cache, is a chain
    that verifies from the blockhash of the reset, with the configured number
    of hashes in each tick.  Tick heights are consecutive, and each entry is
    in the range of its bank's slot: ticks up to its last height,
    transactions before it.  A working bank has registered every tick so far,
    with nothing left in the cache; the bank that the recorder has moved on
    from is complete. *)
Theorem recorder_ledger_verifies `{Sha256} (hashes_per_tick : option Z) (ticks_per_slot : Z)
    (next_leader_slot : Slot -> option (Slot * Slot)) (now : Z) (reset_bank : BankTicks) (h : Hash)
    (next : option (Slot * Slot)) (s0 s s' : PohRecorder)
    (Htps : 0 < ticks_per_slot) (Hslot : 0 <= bk_slot reset_bank)
    (Hmax : (bk_slot reset_bank + 1) * ticks_per_slot < U64_MAX) (Hhpt : u64 (default U64_MAX hashes_per_tick))
    (Hh : last_hash (bk_blockhash_queue reset_bank) = Returns h)
    (Hreset : recorder_reset hashes_per_tick ticks_per_slot next_leader_slot s0 reset_bank next = Returns s)
    (Hrun : rtc (recorder_step ticks_per_slot next_leader_slot now) s s') :
  exists since, pr_sent s' = pr_sent s ++ since
    /\ verify_cpu_generic h (ledger since ++ map fst (pr_tick_cache s')) = Returns true
    /\ (forall n, hashes_per_tick = Some n -> n < U64_MAX -> exists carry,
          verify_tick_hash_count (ledger since ++ map fst (pr_tick_cache s')) 0 n = (carry, true) /\ 0 <= carry < n)
    /\ heights_ok ((bk_slot reset_bank + 1) * ticks_per_slot) since
         (pr_tick_height s' - Z.of_nat (length (pr_tick_cache s')))
    /\ Forall (in_slot ticks_per_slot) since
    /\ match pr_working_bank s' with
       | Some w => pr_tick_cache s' = [] /\ bk_tick_height (wb_bank w) = pr_tick_height s'
       | None => pr_start_bank s' = reset_bank \/ is_complete (pr_start_bank s') = true
       end.
Proof.
  pose proof (reset_inv hashes_per_tick ticks_per_slot next_leader_slot h reset_bank (pr_sent s) Htps Hslot
    s0 s next h Hh eq_refl Hhpt Hmax Hreset eq_refl) as Hinv.
  destruct (recorder_run_inv hashes_per_tick ticks_per_slot next_leader_slot now h reset_bank (pr_sent s) Htps
    s s' [] Hrun Hinv) as (since & Hinv').
  exists since. by apply (rec_inv_ledger hashes_per_tick ticks_per_slot h reset_bank (pr_sent s)).
Qed.

Import PohSample.

Lemma recorder_ledger_verifies_witness :
  exists s s' since, RecorderSample.started = Returns s /\ RecorderSample.final = Some s'
    /\ pr_sent s' = pr_sent s ++ since /\ length since = 4%nat
    /\ verify_cpu_generic 5 (ledger since ++ map fst (pr_tick_cache s')) = Returns true
    /\ heights_ok 2 since (pr_tick_height s' - Z.of_nat (length (pr_tick_cache s'))).
Proof.
  assert (match RecorderSample.started, RecorderSample.final with
          | Returns s, Some s' => (length (pr_sent s') =? length (pr_sent s) + 4)%nat
          | _, _ => false end = true) as Hlen by by vm_compute.
  unfold RecorderSample.final in Hlen |- *.
  destruct RecorderSample.started as [s|] eqn:Hs; [|discriminate Hlen].
  destruct (recorder_ops 2 RecorderSample.schedule 0 s RecorderSample.ops) as [s'|] eqn:Hr; [|discriminate Hlen].
  unfold RecorderSample.started in Hs. apply outcome_bind_Returns in Hs as (s0 & _ & Hs).
  destruct (recorder_ledger_verifies (Some 4) 2 RecorderSample.schedule 0 (RecorderSample.bank 0 2) 5%N
    (RecorderSample.schedule 0) s0 s s') as (since & Hsent & Hv & _ & Hheights & _).
  - reflexivity.
  - cbn. lia.
  - cbn. u_unfold. lia.
  - cbn. u_unfold. lia.
  - reflexivity.
  - exact Hs.
  - exact (recorder_ops_run _ _ _ _ _ _ Hr).
  - exists s, s', since. split_and!; [reflexivity|reflexivity|exact Hsent| |exact Hv|exact Hheights].
    apply Nat.eqb_eq in Hlen. rewrite Hsent, length_app in Hlen. lia.
Defined.

(** A record is in the ledger exactly when it succeeded.  In every state of
    a run since a reset, [record] returns; before it answers it may send the
    ticks that are due; then it has sent exactly one entry with the given
    transactions for the given slot if it answers [Ok], and nothing if it
    answers that the slot is over, which is the only error.  It never succeeds without a working bank of that
    slot. *)
Theorem record_sends_exactly `{Sha256} (hashes_per_tick : option Z) (ticks_per_slot : Z)
    (next_leader_slot : Slot -> option (Slot * Slot)) (now : Z) (reset_bank : BankTicks) (h : Hash)
    (next : option (Slot * Slot)) (s0 s s' : PohRecorder) (slot : Slot) (mixin : Hash)
    (transactions : list VersionedTransaction)
    (Htps : 0 < ticks_per_slot) (Hslot : 0 <= bk_slot reset_bank)
    (Hmax : (bk_slot reset_bank + 1) * ticks_per_slot < U64_MAX) (Hhpt : u64 (default U64_MAX hashes_per_tick))
    (Hh : last_hash (bk_blockhash_queue reset_bank) = Returns h)
    (Hreset : recorder_reset hashes_per_tick ticks_per_slot next_leader_slot s0 reset_bank next = Returns s)
    (Hrun : rtc (recorder_step ticks_per_slot next_leader_slot now) s s')
    (Hleader : pr_leader_first_tick_height s' <> None) (Hheight : pr_tick_height s' < U64_MAX)
    (Htx : transactions <> []) (Hmixin : hash_transactions transactions = Returns mixin) :
  exists s'' r ticks tail,
    record ticks_per_slot next_leader_slot true now s' slot mixin transactions = Returns (s'', r)
    /\ pr_sent s'' = pr_sent s' ++ ticks ++ tail
    /\ Forall (fun x => is_tick x.2.1 = true) ticks
    /\ match r with
       | Ok _ => exists e height, tail = [(slot, (e, height))] /\ en_transactions e = transactions
           /\ exists w, pr_working_bank s' = Some w /\ bk_slot (wb_bank w) = slot
       | Err e => e = MaxHeightReached /\ tail = []
       end.
Proof.
  pose proof (reset_inv hashes_per_tick ticks_per_slot next_leader_slot h reset_bank (pr_sent s) Htps Hslot
    s0 s next h Hh eq_refl Hhpt Hmax Hreset eq_refl) as Hinv.
  destruct (recorder_run_inv hashes_per_tick ticks_per_slot next_leader_slot now h reset_bank (pr_sent s) Htps
    s s' [] Hrun Hinv) as (since & Hinv').
  destruct (record_inv hashes_per_tick ticks_per_slot next_leader_slot now h reset_bank (pr_sent s)
    s' since slot mixin transactions Hinv' Hleader Hheight Htx Hmixin) as (s'' & r & ticks & tail & Hr & Hinv'' & Ht & Hrec & Hb).
  exists s'', r, ticks, tail. split_and!; try done.
  - destruct Hinv' as [Hp _], Hinv'' as [Hp'' _]. rewrite (ri_sent _ _ _ _ _ _ _ Hp), (ri_sent _ _ _ _ _ _ _ Hp'').
    by rewrite <- app_assoc.
  - destruct r as [[]|e]; [|done]. destruct Hrec as (e & height & -> & He). eexists _, _. split_and!; try done.
    by apply Hb.
Qed.

Lemma record_sends_exactly_witness :
  exists s s' mixin s'' r ticks tail, RecorderSample.started = Returns s
    /\ recorder_ops 2 RecorderSample.schedule 0 s (take 3 RecorderSample.ops) = Some s'
    /\ hash_transactions [tx 5 3] = Returns mixin
    /\ record 2 RecorderSample.schedule true 0 s' 1 mixin [tx 5 3] = Returns (s'', r)
    /\ r = Ok tt /\ pr_sent s'' = pr_sent s' ++ ticks ++ tail /\ length ticks = 1%nat /\ length tail = 1%nat.
Proof.
  assert (match RecorderSample.started with
          | Returns s =>
              match recorder_ops 2 RecorderSample.schedule 0 s (take 3 RecorderSample.ops), hash_transactions [tx 5 3] with
              | Some s', Returns mixin =>
                  is_some (pr_leader_first_tick_height s') && (pr_tick_height s' <? 100)
                  && match record 2 RecorderSample.schedule true 0 s' 1 mixin [tx 5 3] with
                     | Returns (s'', Ok _) => (length (pr_sent s'') =? length (pr_sent s') + 2)%nat
                     | _ => false end
              | _, _ => false end
          | Panics => false end = true) as Hok by by vm_compute.
  destruct RecorderSample.started as [s|] eqn:Hs; [|discriminate Hok].
  destruct (recorder_ops 2 _ 0 s _) as [s'|] eqn:Hr; [|discriminate Hok].
  destruct (hash_transactions [tx 5 3]) as [mixin|] eqn:Hm; [|discriminate Hok].
  apply andb_true_iff in Hok as [[Hld Hth]%andb_true_iff Hok].
  unfold RecorderSample.started in Hs. apply outcome_bind_Returns in Hs as (s0 & _ & Hs).
  destruct (record_sends_exactly (Some 4) 2 RecorderSample.schedule 0 (RecorderSample.bank 0 2) 5%N
    (RecorderSample.schedule 0) s0 s s' 1 mixin [tx 5 3]) as (s'' & r & ticks & tail & Hrec & Hsent & _ & Hres).
  - reflexivity.
  - cbn. lia.
  - cbn. u_unfold. lia.
  - cbn. u_unfold. lia.
  - reflexivity.
  - exact Hs.
  - exact (recorder_ops_run _ _ _ _ _ _ Hr).
  - by apply is_some_not_None.
  - apply Z.ltb_lt in Hth. u_unfold. lia.
  - discriminate.
  - exact Hm.
  - rewrite Hrec in Hok. destruct r as [[]|]; [|discriminate Hok]. destruct Hres as (e & height & -> & _).
    apply Nat.eqb_eq in Hok. rewrite Hsent, !length_app in Hok. cbn [length] in Hok.
    exists s, s', mixin, s'', (Ok tt), ticks, [(1, (e, height))].
    split_and!; [reflexivity|exact Hr|reflexivity|exact Hrec|reflexivity|exact Hsent|lia|reflexivity].
Defined.
