(* ===== verification/AuthorizedVoters.v ===== *)
(** * Authorized voters

    Models programs/vote/src/authorized_voters.rs: the map from epochs to the
    key authorized to vote from that epoch on, its lookup with inheritance
    from earlier epochs, and the purge of past epochs. *)

From S2P Require Import Prelude.

(** [AuthorizedVoters { authorized_voters: BTreeMap<Epoch, Pubkey> }]. *)
Record AuthorizedVoters := { av_map : gmap Z N }.

Definition av_default : AuthorizedVoters := {| av_map := ∅ |}.

Definition av_new (epoch : Epoch) (pubkey : Pubkey) : AuthorizedVoters :=
  {| av_map := {[ epoch := pubkey ]} |}.

(** [self.authorized_voters.range(0..epoch)], in key order. *)
Definition range_below (m : gmap Z N) (epoch : Epoch) : list (Z * N) :=
  List.filter (fun p => (0 <=? p.1) && (p.1 <? epoch)) (btree_iterZ m).

Definition get_or_calculate_authorized_voter_for_epoch (self : AuthorizedVoters) (epoch : Epoch)
    : option (Pubkey * bool) :=
  match av_map self !! epoch with
  | Some pubkey => Some (pubkey, true)
  | None => '(_, pubkey) ← last (range_below (av_map self) epoch); Some (pubkey, false)
  end.

Definition av_get_authorized_voter (self : AuthorizedVoters) (epoch : Epoch) : option Pubkey :=
  fst <$> get_or_calculate_authorized_voter_for_epoch self epoch.

Definition av_insert (self : AuthorizedVoters) (epoch : Epoch) (authorized_voter : Pubkey)
    : AuthorizedVoters :=
  {| av_map := <[epoch := authorized_voter]> (av_map self) |}.

Definition get_and_cache_authorized_voter_for_epoch (self : AuthorizedVoters) (epoch : Epoch)
    : option Pubkey * AuthorizedVoters :=
  match get_or_calculate_authorized_voter_for_epoch self epoch with
  | Some (pubkey, existed) =>
      (Some pubkey, if existed : bool then self else av_insert self epoch pubkey)
  | None => (None, self)
  end.

Definition av_is_empty (self : AuthorizedVoters) : bool := bool_decide (av_map self = ∅).

(** Removes the entries below [current_epoch]; asserts that one remains. *)
Definition purge_authorized_voters (self : AuthorizedVoters) (current_epoch : Epoch)
    : outcome (bool * AuthorizedVoters) :=
  let expired_keys := (range_below (av_map self) current_epoch).*1 in
  let m := fold_left (fun m key => delete key m) expired_keys (av_map self) in
  if av_is_empty {| av_map := m |} then Panics else Returns (true, {| av_map := m |}).

Definition av_first (self : AuthorizedVoters) : option (Epoch * Pubkey) :=
  head (btree_iterZ (av_map self)).

Definition av_last (self : AuthorizedVoters) : option (Epoch * Pubkey) :=
  last (btree_iterZ (av_map self)).

Definition av_len (self : AuthorizedVoters) : nat := size (av_map self).

Definition av_contains (self : AuthorizedVoters) (epoch : Epoch) : bool :=
  bool_decide (is_Some (av_map self !! epoch)).

(** ** Specification *)

(** Epochs are unsigned. *)
Definition av_wf (self : AuthorizedVoters) : Prop :=
  forall e k, av_map self !! e = Some k -> 0 <= e.

(** [e'] is the latest epoch up to [e] with an entry. *)
Definition latest_entry (m : gmap Z N) (e : Epoch) (e' : Epoch) (k : Pubkey) : Prop :=
  m !! e' = Some k /\ e' <= e /\ forall e'', is_Some (m !! e'') -> e'' <= e -> e'' <= e'.

(** ** Lemmas *)

Lemma elem_of_range_below m epoch e k :
  (e, k) ∈ range_below m epoch <-> m !! e = Some k /\ 0 <= e < epoch.
Proof.
  unfold range_below. rewrite list_elem_of_In, filter_In, <- list_elem_of_In, elem_of_btree_iterZ.
  cbn. rewrite andb_true_iff, Z.leb_le, Z.ltb_lt. done.
Qed.

Lemma StronglySorted_filter {A} (R : A -> A -> Prop) f (l : list A) :
  StronglySorted R l -> StronglySorted R (List.filter f l).
Proof.
  induction 1 as [|x l Hs IH Hx]; cbn; [constructor|]. destruct (f x); [|done].
  constructor; [done|]. rewrite Forall_forall in *. intros y Hy. apply Hx.
  apply list_elem_of_In in Hy. apply filter_In in Hy as [? _]. by apply list_elem_of_In.
Qed.

Lemma StronglySorted_last {A} (R : A -> A -> Prop) (l : list A) x :
  StronglySorted R l -> last l = Some x -> forall y, y ∈ l -> y = x \/ R y x.
Proof.
  induction 1 as [|z l Hs IH Hz]; intros Hl y Hy; [done|].
  destruct l as [|z' l]; cbn in *.
  - injection Hl as ->. apply list_elem_of_singleton in Hy. auto.
  - apply elem_of_cons in Hy as [->|Hy]; [|auto]. right.
    rewrite Forall_forall in Hz. apply Hz. by apply last_Some_elem_of.
Qed.

Lemma range_below_last m epoch e k :
  last (range_below m epoch) = Some (e, k) ->
  (m !! e = Some k /\ 0 <= e < epoch)
  /\ forall e', is_Some (m !! e') -> 0 <= e' < epoch -> e' <= e.
Proof.
  intros Hl. split.
  - apply elem_of_range_below. by apply last_Some_elem_of.
  - intros e' [k' Hk'] He'.
    assert ((e', k') ∈ range_below m epoch) as Hin by by apply elem_of_range_below.
    pose proof (StronglySorted_last key_leZ _ _ (StronglySorted_filter _ _ _ (btree_iterZ_sorted m)) Hl _ Hin)
      as [Heq|Hle]; [by simplify_eq|by unfold key_leZ in Hle].
Qed.

Lemma range_below_nil m epoch :
  last (range_below m epoch) = None -> forall e k, m !! e = Some k -> 0 <= e -> epoch <= e.
Proof.
  intros Hl e k Hm He. apply last_None in Hl. apply Z.nlt_ge. intros Hlt.
  assert ((e, k) ∈ range_below m epoch) as Hin by by apply elem_of_range_below.
  rewrite Hl in Hin. by apply not_elem_of_nil in Hin.
Qed.

(** Lookup is inheritance: the voter of an epoch is the entry of the latest
    epoch up to it. *)
Lemma get_authorized_voter_latest av e k :
  av_wf av -> av_get_authorized_voter av e = Some k <->
    exists e', latest_entry (av_map av) e e' k.
Proof.
  intros Hwf. unfold av_get_authorized_voter, get_or_calculate_authorized_voter_for_epoch, latest_entry.
  destruct (av_map av !! e) as [k0|] eqn:E; cbn.
  - split.
    + intros [= ->]. exists e. split_and!; [done|lia|]. intros; lia.
    + intros (e' & Hk & Hle & Hmax). assert (e <= e') by (apply Hmax; [eauto|lia]).
      assert (e' = e) as -> by lia. congruence.
  - destruct (last (range_below (av_map av) e)) as [[e0 k0]|] eqn:El; cbn.
    + apply range_below_last in El as [[Hk0 He0] Hmax0]. split.
      * intros [= ->]. exists e0. split_and!; [done|lia|]. intros e'' He'' Hle. apply Hmax0; [done|].
        destruct He'' as [k'' Hk'']. pose proof (Hwf _ _ Hk''). split; [done|].
        assert (e'' <> e) by congruence. lia.
      * intros (e' & Hk & Hle & Hmax). assert (e' <> e) by congruence.
        assert (e' <= e0) by (apply Hmax0; [eauto|]; pose proof (Hwf _ _ Hk); lia).
        assert (e0 <= e') by (apply Hmax; [eauto|lia]). assert (e' = e0) as -> by lia. congruence.
    + split; [done|]. intros (e' & Hk & Hle & _). exfalso.
      pose proof (range_below_nil _ _ El _ _ Hk (Hwf _ _ Hk)). assert (e' = e) as -> by lia. congruence.
Qed.

Lemma lookup_fold_delete (ks : list Z) (m : gmap Z N) e :
  fold_left (fun m key => delete key m) ks m !! e = if decide (e ∈ ks) then None else m !! e.
Proof.
  revert m. induction ks as [|k ks IH]; intros m; cbn.
  { by rewrite decide_False by apply not_elem_of_nil. }
  rewrite IH. destruct (decide (e ∈ ks)); [by rewrite decide_True by set_solver|].
  destruct (decide (e = k)) as [->|].
  - by rewrite lookup_delete_eq, decide_True by set_solver.
  - by rewrite lookup_delete_ne, decide_False by set_solver.
Qed.

Lemma purge_lookup av cur e :
  av_wf av ->
  fold_left (fun m key => delete key m) (range_below (av_map av) cur).*1 (av_map av) !! e =
    if decide (e < cur) then None else av_map av !! e.
Proof.
  intros Hwf. rewrite lookup_fold_delete. destruct (decide (e < cur)) as [Hlt|Hge].
  - destruct (av_map av !! e) as [k|] eqn:E; [|by case_decide].
    rewrite decide_True; [done|]. apply list_elem_of_fmap. exists (e, k). split; [done|].
    apply elem_of_range_below. split; [done|]. split; [by eapply Hwf|done].
  - rewrite decide_False; [done|]. intros ((e' & k) & -> & Hin)%list_elem_of_fmap.
    apply elem_of_range_below in Hin. cbn in Hge. lia.
Qed.

(** The cache-then-purge of an epoch with a voter: it never panics, drops
    the past, and changes no answer from that epoch on. *)
Lemma cache_and_purge av cur k :
  av_wf av -> 0 <= cur -> av_get_authorized_voter av cur = Some k ->
  exists av1 av', get_and_cache_authorized_voter_for_epoch av cur = (Some k, av1)
    /\ purge_authorized_voters av1 cur = Returns (true, av')
    /\ av_wf av' /\ av_map av' !! cur = Some k
    /\ (forall e, is_Some (av_map av' !! e) -> cur <= e)
    /\ (forall e, cur < e -> av_map av' !! e = av_map av !! e).
Proof.
  intros Hwf Hcur Hget.
  assert (exists av1, get_and_cache_authorized_voter_for_epoch av cur = (Some k, av1)
    /\ av_wf av1 /\ av_map av1 !! cur = Some k
    /\ forall e, e <> cur -> av_map av1 !! e = av_map av !! e) as (av1 & E1 & Hwf1 & Hk1 & Ho1).
  { unfold get_and_cache_authorized_voter_for_epoch.
    unfold av_get_authorized_voter, get_or_calculate_authorized_voter_for_epoch in *.
    destruct (av_map av !! cur) as [k0|] eqn:E.
    - cbn in Hget. injection Hget as <-. exists av. by split_and!.
    - destruct (last _) as [[e0 k0]|]; [|done]. cbn in Hget. injection Hget as <-. cbn.
      exists (av_insert av cur k0). split_and!; [done| | |]; cbn.
      + intros e k' Hk'. cbn in Hk'. apply lookup_insert_Some in Hk' as [[<- _]|[_ Hk']];
          [done|by eapply Hwf].
      + by rewrite lookup_insert_eq.
      + intros e He. by rewrite lookup_insert_ne. }
  pose proof (purge_lookup av1 cur) as Hp.
  set (m := fold_left _ _ _) in Hp.
  exists av1, {| av_map := m |}. split; [done|]. unfold purge_authorized_voters. fold m.
  assert (m !! cur = Some k) as Hm by (rewrite Hp by done; rewrite decide_False by lia; done).
  unfold av_is_empty. rewrite bool_decide_eq_false_2.
  2:{ cbn. intros Hempty. rewrite Hempty in Hm. by rewrite lookup_empty in Hm. }
  split_and!; [done| | | |]; cbn.
  - intros e k'. rewrite Hp by done. case_decide; [done|]. apply Hwf1.
  - done.
  - intros e. rewrite Hp by done. case_decide; [by intros [? ?]|lia].
  - intros e He. rewrite Hp by done. rewrite decide_False by lia. apply Ho1. lia.
Qed.

(** A map whose entries are those of [av] after [cur], and [cur]'s own voter
    at [cur], answers like [av] from [cur] on. *)
Lemma purged_lookup av av' cur k e :
  av_wf av -> av_wf av' -> av_get_authorized_voter av cur = Some k ->
  av_map av' !! cur = Some k ->
  (forall e, is_Some (av_map av' !! e) -> cur <= e) ->
  (forall e, cur < e -> av_map av' !! e = av_map av !! e) ->
  cur <= e -> av_get_authorized_voter av' e = av_get_authorized_voter av e.
Proof.
  intros Hwf Hwf' Hget Hk Hlow Hsame He.
  apply get_authorized_voter_latest in Hget as (e0 & Hk0 & Hle0 & Hmax0); [|done].
  apply option_eq. intros k'. rewrite !get_authorized_voter_latest by done.
  unfold latest_entry. split.
  - intros (e' & Hk' & Hle' & Hmax'). assert (cur <= e') by (apply Hlow; eauto).
    destruct (decide (e' = cur)) as [->|].
    + exists e0. split_and!; [congruence|lia|]. intros e'' Hs Hl.
      destruct (decide (e'' <= cur)); [by apply Hmax0|].
      assert (e'' <= cur); [|done]. apply Hmax'; [by rewrite Hsame by lia|done].
    + exists e'. split_and!; [by rewrite <- Hsame by lia|done|]. intros e'' Hs Hl.
      destruct (decide (e'' <= cur)); [lia|]. apply Hmax'; [by rewrite Hsame by lia|done].
  - intros (e' & Hk' & Hle' & Hmax'). destruct (decide (e' <= cur)).
    + assert (e' = e0) as ->.
      { assert (e' <= e0) by (apply Hmax0; eauto). assert (e0 <= e') by (apply Hmax'; [eauto|lia]). lia. }
      exists cur. split_and!; [congruence|done|]. intros e'' Hs Hl.
      destruct (decide (e'' <= cur)); [done|]. rewrite Hsame in Hs by lia.
      pose proof (Hmax' e'' Hs Hl). lia.
    + exists e'. split_and!; [by rewrite Hsame by lia|done|]. intros e'' Hs Hl.
      destruct (decide (e'' <= cur)); [lia|]. apply Hmax'; [by rewrite <- Hsame by lia|done].
Qed.

(** An entry for a later epoch does not change the answer. *)
Lemma insert_later_lookup av target k e :
  av_wf av -> 0 <= target -> e < target ->
  av_get_authorized_voter (av_insert av target k) e = av_get_authorized_voter av e.
Proof.
  intros Hwf Ht He. apply option_eq. intros k'.
  assert (av_wf (av_insert av target k)) as Hwf'.
  { intros e1 k1. cbn. intros [[<- _]|[_ Hk1]]%lookup_insert_Some; [done|by eapply Hwf]. }
  rewrite !get_authorized_voter_latest by done. unfold latest_entry. cbn.
  split; intros (e' & Hk' & Hle & Hmax); exists e'.
  - rewrite lookup_insert_ne in Hk' by lia. split_and!; [done|done|]. intros e'' Hs Hl. apply Hmax; [|done].
    rewrite lookup_insert_ne by lia. done.
  - rewrite lookup_insert_ne by lia. split_and!; [done|done|]. intros e'' Hs Hl. apply Hmax; [|done].
    rewrite lookup_insert_ne in Hs by lia. done.
Qed.

(** ** Properties *)

(** Looking up the voter of the current epoch and purging the past (what
    every vote instruction does first) is transparent.  If the epoch has a
    voter, the purge's assertion holds, the answer is the entry of the latest
    epoch up to it, only epochs from the current one on remain, and every
    later lookup answers the same as before. *)
Theorem cache_and_purge_transparent (av : AuthorizedVoters) (cur : Epoch) (k : Pubkey)
    (Hwf : av_wf av) (Hcur : 0 <= cur) (Hget : av_get_authorized_voter av cur = Some k) :
  exists av1 av', get_and_cache_authorized_voter_for_epoch av cur = (Some k, av1)
    /\ purge_authorized_voters av1 cur = Returns (true, av')
    /\ (exists e', latest_entry (av_map av) cur e' k)
    /\ (forall e, is_Some (av_map av' !! e) -> cur <= e)
    /\ (forall e, cur <= e -> av_get_authorized_voter av' e = av_get_authorized_voter av e).
Proof.
  destruct (cache_and_purge av cur k Hwf Hcur Hget) as (av1 & av' & E1 & E2 & Hwf' & Hk & Hlow & Hsame).
  exists av1, av'. split_and!; [done..|by apply get_authorized_voter_latest|done|].
  intros e He. by eapply purged_lookup.
Qed.

Lemma cache_and_purge_transparent_witness :
  let av := av_insert (av_new 1 11%N) 4 22%N in
  exists av1 av', get_and_cache_authorized_voter_for_epoch av 3 = (Some 11%N, av1)
    /\ purge_authorized_voters av1 3 = Returns (true, av')
    /\ (exists e', latest_entry (av_map av) 3 e' 11%N)
    /\ (forall e, is_Some (av_map av' !! e) -> 3 <= e)
    /\ (forall e, 3 <= e -> av_get_authorized_voter av' e = av_get_authorized_voter av e).
Proof.
  apply (cache_and_purge_transparent (av_insert (av_new 1 11%N) 4 22%N) 3 11%N).
  - intros e k Hk. cbn in Hk. apply lookup_insert_Some in Hk as [[<- _]|[_ Hk]]; [lia|].
    apply lookup_singleton_Some in Hk as [<- _]. lia.
  - lia.
  - vm_compute. reflexivity.
Defined.
