(* ===== verification/VoteState.v ===== *)
(** * Vote state

    Models programs/vote/src/vote_state/mod.rs: lockouts and towers, the
    checks of submitted votes and of submitted tower states against the bank's
    slot hashes, the processing of votes, credits, commission and voter
    authorization.

    A method that takes [&mut self] returns the new state with its result
    where the state changes before an error can occur; [outcome] marks the
    ones that assert.  Arithmetic on slots is 64-bit and wraps. *)

From S2P Require Import Prelude Errors Account Invocation AuthorizedVoters.

Definition MAX_LOCKOUT_HISTORY : nat := 31.
Definition INITIAL_LOCKOUT : Z := 2.
Definition MAX_EPOCH_CREDITS_HISTORY : nat := 64.
Definition MAX_ITEMS : nat := 32.

(** ** Data *)

Record Lockout := { slot : Slot; confirmation_count : Z }.

Record Vote := { slots : list Slot; vote_hash : Hash; vote_timestamp : option Z }.

Record VoteStateUpdate := {
  lockouts : list Lockout;
  root : option Slot;
  vsu_hash : Hash;
  vsu_timestamp : option Z;
}.

Inductive VoteTransaction :=
| VT_Vote (vote : Vote)
| VT_VoteStateUpdate (vote_state_update : VoteStateUpdate).

Record VoteInit := {
  vi_node_pubkey : Pubkey;
  vi_authorized_voter : Pubkey;
  vi_authorized_withdrawer : Pubkey;
  vi_commission : Z;
}.

Inductive VoteAuthorize := Voter | Withdrawer.

Record BlockTimestamp := { bt_slot : Slot; bt_timestamp : Z }.

#[global] Instance Lockout_eq_dec : EqDecision Lockout.
Proof. solve_decision. Defined.
#[global] Instance BlockTimestamp_eq_dec : EqDecision BlockTimestamp.
Proof. solve_decision. Defined.

Record CircBuf (I : Type) := { buf : list I; idx : nat; is_empty : bool }.
Arguments Build_CircBuf {I} _ _ _.
Arguments buf {I} _.
Arguments idx {I} _.
Arguments is_empty {I} _.

Record VoteState := {
  node_pubkey : Pubkey;
  authorized_withdrawer : Pubkey;
  commission : Z;
  votes : list Lockout;
  root_slot : option Slot;
  authorized_voters : AuthorizedVoters;
  prior_voters : CircBuf (Pubkey * Epoch * Epoch);
  epoch_credits : list (Epoch * Z * Z);
  last_timestamp : BlockTimestamp;
}.

(** ** Votes in transactions *)

Definition vsu_slots (u : VoteStateUpdate) : list Slot := map slot (lockouts u).

Definition vt_slots (t : VoteTransaction) : list Slot :=
  match t with VT_Vote v => slots v | VT_VoteStateUpdate u => vsu_slots u end.

Definition vt_slot (t : VoteTransaction) (i : nat) : outcome Slot :=
  match t with
  | VT_Vote v => unwrap (slots v !! i)
  | VT_VoteStateUpdate u => l ← unwrap (lockouts u !! i); Returns (slot l)
  end.

Definition vt_len (t : VoteTransaction) : nat :=
  match t with VT_Vote v => length (slots v) | VT_VoteStateUpdate u => length (lockouts u) end.

Definition vt_is_empty (t : VoteTransaction) : bool :=
  match t with
  | VT_Vote v => match slots v with [] => true | _ => false end
  | VT_VoteStateUpdate u => match lockouts u with [] => true | _ => false end
  end.

Definition vt_hash (t : VoteTransaction) : Hash :=
  match t with VT_Vote v => vote_hash v | VT_VoteStateUpdate u => vsu_hash u end.

Definition vt_timestamp (t : VoteTransaction) : option Z :=
  match t with VT_Vote v => vote_timestamp v | VT_VoteStateUpdate u => vsu_timestamp u end.

Definition vt_set_timestamp (t : VoteTransaction) (ts : option Z) : VoteTransaction :=
  match t with
  | VT_Vote v => VT_Vote {| slots := slots v; vote_hash := vote_hash v; vote_timestamp := ts |}
  | VT_VoteStateUpdate u =>
      VT_VoteStateUpdate {| lockouts := lockouts u; root := root u; vsu_hash := vsu_hash u;
                            vsu_timestamp := ts |}
  end.

Definition vt_last_voted_slot (t : VoteTransaction) : option Slot :=
  match t with
  | VT_Vote v => last (slots v)
  | VT_VoteStateUpdate u => l ← last (lockouts u); Some (slot l)
  end.

Definition vt_last_voted_slot_hash (t : VoteTransaction) : option (Slot * Hash) :=
  s ← vt_last_voted_slot t; Some (s, vt_hash t).

Definition vote_new (slots : list Slot) (hash : Hash) : Vote :=
  {| slots := slots; vote_hash := hash; vote_timestamp := None |}.

Definition vsu_from (recent_slots : list (Slot * Z)) : VoteStateUpdate :=
  {| lockouts := map (fun '(s, c) => {| slot := s; confirmation_count := c |}) recent_slots;
     root := None; vsu_hash := 0%N; vsu_timestamp := None |}.

Definition vsu_new (lockouts : list Lockout) (root : option Slot) (hash : Hash) : VoteStateUpdate :=
  {| lockouts := lockouts; root := root; vsu_hash := hash; vsu_timestamp := None |}.

(** ** Lockouts *)

Definition lockout_new (s : Slot) : Lockout := {| slot := s; confirmation_count := 1 |}.

(** [(INITIAL_LOCKOUT as u64).pow(confirmation_count)]. *)
Definition lockout (l : Lockout) : Z := wrap64 (INITIAL_LOCKOUT ^ confirmation_count l).

Definition last_locked_out_slot (l : Lockout) : Slot := wrap64 (slot l + lockout l).

Definition is_locked_out_at_slot (l : Lockout) (s : Slot) : bool := s <=? last_locked_out_slot l.

(** ** The circular buffer of prior voters *)

Definition circ_default {I} (x : I) : CircBuf I :=
  {| buf := replicate MAX_ITEMS x; idx := MAX_ITEMS - 1; is_empty := true |}.

Definition circ_append {I} (c : CircBuf I) (item : I) : CircBuf I :=
  let i := ((idx c + 1) mod MAX_ITEMS)%nat in
  {| buf := <[i := item]> (buf c); idx := i; is_empty := false |}.

Definition circ_last {I} (c : CircBuf I) : option I :=
  if is_empty c then None else buf c !! idx c.

(** ** Construction and accessors *)

Definition vote_state_default : VoteState :=
  {| node_pubkey := pubkey_default; authorized_withdrawer := pubkey_default; commission := 0;
     votes := []; root_slot := None; authorized_voters := av_default;
     prior_voters := circ_default (pubkey_default, 0, 0); epoch_credits := [];
     last_timestamp := {| bt_slot := 0; bt_timestamp := 0 |} |}.

Definition vote_state_new (vote_init : VoteInit) (clock : Clock) : VoteState :=
  {| node_pubkey := vi_node_pubkey vote_init;
     authorized_withdrawer := vi_authorized_withdrawer vote_init;
     commission := vi_commission vote_init;
     votes := []; root_slot := None;
     authorized_voters := av_new (clk_epoch clock) (vi_authorized_voter vote_init);
     prior_voters := circ_default (pubkey_default, 0, 0); epoch_credits := [];
     last_timestamp := {| bt_slot := 0; bt_timestamp := 0 |} |}.

(** Field updates. *)
Definition with_votes (st : VoteState) (vs : list Lockout) (r : option Slot) : VoteState :=
  {| node_pubkey := node_pubkey st; authorized_withdrawer := authorized_withdrawer st;
     commission := commission st; votes := vs; root_slot := r;
     authorized_voters := authorized_voters st; prior_voters := prior_voters st;
     epoch_credits := epoch_credits st; last_timestamp := last_timestamp st |}.

Definition with_credits (st : VoteState) (c : list (Epoch * Z * Z)) : VoteState :=
  {| node_pubkey := node_pubkey st; authorized_withdrawer := authorized_withdrawer st;
     commission := commission st; votes := votes st; root_slot := root_slot st;
     authorized_voters := authorized_voters st; prior_voters := prior_voters st;
     epoch_credits := c; last_timestamp := last_timestamp st |}.

Definition with_timestamp (st : VoteState) (t : BlockTimestamp) : VoteState :=
  {| node_pubkey := node_pubkey st; authorized_withdrawer := authorized_withdrawer st;
     commission := commission st; votes := votes st; root_slot := root_slot st;
     authorized_voters := authorized_voters st; prior_voters := prior_voters st;
     epoch_credits := epoch_credits st; last_timestamp := t |}.

Definition with_voters (st : VoteState) (av : AuthorizedVoters)
    (pv : CircBuf (Pubkey * Epoch * Epoch)) : VoteState :=
  {| node_pubkey := node_pubkey st; authorized_withdrawer := authorized_withdrawer st;
     commission := commission st; votes := votes st; root_slot := root_slot st;
     authorized_voters := av; prior_voters := pv;
     epoch_credits := epoch_credits st; last_timestamp := last_timestamp st |}.

Definition get_authorized_voter (st : VoteState) (epoch : Epoch) : option Pubkey :=
  av_get_authorized_voter (authorized_voters st) epoch.

Definition last_lockout (st : VoteState) : option Lockout := last (votes st).

Definition last_voted_slot (st : VoteState) : option Slot := slot <$> last_lockout st.

Definition nth_recent_vote (st : VoteState) (position : nat) : option Lockout :=
  if (position <? length (votes st))%nat then votes st !! (length (votes st) - 1 - position)%nat
  else None.

Definition tower (st : VoteState) : list Slot := map slot (votes st).

Definition current_epoch (st : VoteState) : Epoch :=
  match last (epoch_credits st) with Some (e, _, _) => e | None => 0 end.

Definition credits (st : VoteState) : Z :=
  match last (epoch_credits st) with Some (_, c, _) => c | None => 0 end.

(** [(voter_portion, staker_portion, was_split)]. *)
Definition commission_split (st : VoteState) (on : Z) : Z * Z * bool :=
  let split := Z.min (commission st) 100 in
  if split =? 0 then (0, on, false)
  else if split =? 100 then (on, 0, false)
  else
    let mine := on * split / 100 in
    let theirs := on * (100 - split) / 100 in
    (wrap64 mine, wrap64 theirs, true).

(** [votes.binary_search_by(|lockout| lockout.slot.cmp(&candidate)).is_ok()],
    on the positions from [left] up to [left + size]. *)
Fixpoint binary_search (vs : list Lockout) (candidate : Slot) (fuel left size : nat) : bool :=
  match fuel with
  | O => false
  | S fuel =>
      if (size =? 0)%nat then false
      else
        let mid := (left + size / 2)%nat in
        match vs !! mid with
        | None => false
        | Some l =>
            match slot l ?= candidate with
            | Lt => binary_search vs candidate fuel (mid + 1) (left + size - (mid + 1))
            | Gt => binary_search vs candidate fuel left (mid - left)
            | Eq => true
            end
        end
  end.

Definition contains_slot (st : VoteState) (candidate : Slot) : bool :=
  binary_search (votes st) candidate (S (length (votes st))) 0 (length (votes st)).

(** ** Checking a submitted tower *)

(** The loop of [check_update_vote_state_slots_are_valid] runs over an index
    into the proposed lockouts, oldest first, and an index [j] into the slot
    hashes, counting down from their number.  The model walks the remaining
    lockouts and the reversed remaining slot hashes [hs], so that
    [slot_hashes[j - 1]] is the head of [hs].  While the proposed root is
    being checked ([check_root] is [Some]) the lockout index stays at 0: that
    first phase is [root_loop], which answers where the second phase starts,
    or [None] when the slot hashes are exhausted. *)
Fixpoint root_loop (self_root : option Slot) (earliest : Slot) (len : nat) (r : Slot)
    (hs : list (Slot * Hash)) (j : nat)
    : outcome (result VoteError (option (list (Slot * Hash) * nat))) :=
  match hs with
  | [] => Returns (Ok None)
  | (ancestor_slot, _) :: hs' =>
      match r ?= ancestor_slot with
      | Lt =>
          if (j =? len)%nat then
            _ ← assert_ (r <? earliest);
            self_root ← unwrap self_root;
            _ ← assert_ (self_root <? earliest);
            Returns (Ok (Some (hs, j)))
          else Returns (Err VE.RootOnDifferentFork)
      | Gt => root_loop self_root earliest len r hs' (j - 1)
      | Eq => Returns (Ok (Some (hs, j)))
      end
  end.

(** The second phase; answers the final indices and the lockout indices to
    filter out. *)
Fixpoint slots_loop (st : VoteState) (earliest : Slot) (len : nat) (prev : option Slot) (i : nat)
    (filtered : list nat) (ls : list Lockout)
    : list (Slot * Hash) -> nat -> outcome (result VoteError (nat * nat * list nat)) :=
  fix over_hashes (hs : list (Slot * Hash)) (j : nat) {struct hs} :=
  match ls, hs with
  | l :: ls', (ancestor_slot, _) :: hs' =>
      let proposed_vote_slot := slot l in
      if match prev with Some p => proposed_vote_slot <=? p | None => false end
      then Returns (Err VE.SlotsNotOrdered)
      else
        match proposed_vote_slot ?= ancestor_slot with
        | Lt =>
            if (j =? len)%nat then
              _ ← assert_ (proposed_vote_slot <? earliest);
              let filtered :=
                if negb (contains_slot st proposed_vote_slot) then filtered ++ [i] else filtered in
              slots_loop st earliest len (Some proposed_vote_slot) (S i) filtered ls' hs j
            else Returns (Err VE.SlotsMismatch)
        | Gt => over_hashes hs' (j - 1)%nat
        | Eq => slots_loop st earliest len (Some proposed_vote_slot) (S i) filtered ls' hs' (j - 1)
        end
  | _, _ => Returns (Ok (i, j, filtered))
  end.

(** [lockouts.retain(..)] by position: [filter] lists the positions to drop
    in increasing order. *)
Fixpoint retain_lockouts (ls : list Lockout) (i : nat) (filter : list nat) : list Lockout :=
  match ls with
  | [] => []
  | l :: ls' =>
      match filter with
      | [] => l :: retain_lockouts ls' (S i) []
      | f :: filter' =>
          if (i =? f)%nat then retain_lockouts ls' (S i) filter'
          else l :: retain_lockouts ls' (S i) filter
      end
  end.

Definition vsu_with_root (u : VoteStateUpdate) (r : option Slot) : VoteStateUpdate :=
  {| lockouts := lockouts u; root := r; vsu_hash := vsu_hash u; vsu_timestamp := vsu_timestamp u |}.

Definition vsu_with_lockouts (u : VoteStateUpdate) (ls : list Lockout) : VoteStateUpdate :=
  {| lockouts := ls; root := root u; vsu_hash := vsu_hash u; vsu_timestamp := vsu_timestamp u |}.

(** The proposed root, or the current one when the proposed root is older
    than the slot hash history. *)
Definition clamp_root (st : VoteState) (earliest : Slot) (u : VoteStateUpdate) : VoteStateUpdate :=
  match root u with
  | Some new_proposed_root =>
      if new_proposed_root <? earliest then vsu_with_root u (root_slot st) else u
  | None => u
  end.

(** Both phases: the indices where the loop ends. *)
Definition update_loop (st : VoteState) (earliest : Slot) (u : VoteStateUpdate)
    (slot_hashes : list (Slot * Hash)) : outcome (result VoteError (nat * nat * list nat)) :=
  let len := length slot_hashes in
  match root u with
  | None => slots_loop st earliest len None 0 [] (lockouts u) (rev slot_hashes) len
  | Some r =>
      phase ← root_loop (root_slot st) earliest len r (rev slot_hashes) len;
      match phase with
      | Err e => Returns (Err e)
      | Ok None => Returns (Ok (0%nat, 0%nat, []))
      | Ok (Some (hs, j)) => slots_loop st earliest len None 0 [] (lockouts u) hs j
      end
  end.

(** The checks after the loop. *)
Definition finish_update (last_slot : Slot) (u : VoteStateUpdate) (slot_hashes : list (Slot * Hash))
    (i j : nat) (filter : list nat) : outcome (VoteStateUpdate * result VoteError unit) :=
  if negb (i =? length (lockouts u))%nat then Returns (u, Err VE.SlotsMismatch)
  else
    '(s, h) ← unwrap (slot_hashes !! j);
    _ ← assert_ (last_slot =? s);
    if negb (N.eqb h (vsu_hash u)) then Returns (u, Err VE.SlotHashMismatch)
    else Returns (vsu_with_lockouts u (retain_lockouts (lockouts u) 0 filter), Ok tt).

Definition check_update_vote_state_slots_are_valid (st : VoteState) (u : VoteStateUpdate)
    (slot_hashes : list (Slot * Hash)) : outcome (VoteStateUpdate * result VoteError unit) :=
  match last (lockouts u) with
  | None => Returns (u, Err VE.EmptySlots)
  | Some last_lockout_proposed =>
      let last_slot := slot last_lockout_proposed in
      if match last_voted_slot st with Some s => last_slot <=? s | None => false end
      then Returns (u, Err VE.VoteTooOld)
      else
        match last slot_hashes with
        | None => Returns (u, Err VE.SlotsMismatch)
        | Some (earliest, _) =>
            if last_slot <? earliest then Returns (u, Err VE.VoteTooOld)
            else
              let u := clamp_root st earliest u in
              r ← update_loop st earliest u slot_hashes;
              match r with
              | Err e => Returns (u, Err e)
              | Ok (i, j, filter) => finish_update last_slot u slot_hashes i j filter
              end
        end
  end.

(** ** Checking a submitted vote *)

(** The loop of [check_slots_are_valid], again over the remaining vote slots
    and the reversed remaining slot hashes; answers what remains of the vote
    and the index into the slot hashes. *)
Fixpoint vote_slots_loop (last_voted : option Slot) (ss : list Slot)
    : list (Slot * Hash) -> nat -> list Slot * nat :=
  fix over_hashes (hs : list (Slot * Hash)) (j : nat) {struct hs} :=
  match ss, hs with
  | s :: ss', (h_slot, _) :: hs' =>
      if match last_voted with Some lv => s <=? lv | None => false end
      then vote_slots_loop last_voted ss' hs j
      else if negb (s =? h_slot) then over_hashes hs' (j - 1)%nat
      else vote_slots_loop last_voted ss' hs' (j - 1)%nat
  | _, _ => (ss, j)
  end.

Definition check_slots_are_valid (st : VoteState) (vote_slots : list Slot) (hash : Hash)
    (slot_hashes : list (Slot * Hash)) : outcome (result VoteError unit) :=
  let '(remaining, j) :=
    vote_slots_loop (last_voted_slot st) vote_slots (rev slot_hashes) (length slot_hashes) in
  if (j =? length slot_hashes)%nat then Returns (Err VE.VoteTooOld)
  else
    match remaining with
    | _ :: _ => Returns (Err VE.SlotsMismatch)
    | [] =>
        '(_, h) ← unwrap (slot_hashes !! j);
        Returns (if negb (N.eqb h hash) then Err VE.SlotHashMismatch else Ok tt)
    end.

(** ** Processing votes *)

(** [epoch_credits.last_mut().unwrap().1 += 1]. *)
Fixpoint bump_last (c : list (Epoch * Z * Z)) : list (Epoch * Z * Z) :=
  match c with
  | [] => []
  | [(e, credits, prev)] => [(e, wrap64 (credits + 1), prev)]
  | x :: rest => x :: bump_last rest
  end.

(** [epoch_credits.last_mut().unwrap().0 = epoch]. *)
Fixpoint move_last (c : list (Epoch * Z * Z)) (epoch : Epoch) : list (Epoch * Z * Z) :=
  match c with
  | [] => []
  | [(_, credits, prev)] => [(epoch, credits, prev)]
  | x :: rest => x :: move_last rest epoch
  end.

Definition increment_credits (st : VoteState) (epoch : Epoch) : VoteState :=
  let c := epoch_credits st in
  let c :=
    match last c with
    | None => c ++ [(epoch, 0, 0)]
    | Some (last_epoch, credits, prev_credits) =>
        if negb (epoch =? last_epoch) then
          let c := if negb (credits =? prev_credits) then c ++ [(epoch, credits, credits)]
                   else move_last c epoch in
          if (MAX_EPOCH_CREDITS_HISTORY <? length c)%nat then drop 1 c else c
        else c
    end in
  with_credits st (bump_last c).

Definition process_timestamp (st : VoteState) (s : Slot) (timestamp : Z)
    : result VoteError VoteState :=
  let last_ts := last_timestamp st in
  let new := {| bt_slot := s; bt_timestamp := timestamp |} in
  if (s <? bt_slot last_ts) || (timestamp <? bt_timestamp last_ts)
     || ((s =? bt_slot last_ts) && negb (bool_decide (new = last_ts)) && negb (bt_slot last_ts =? 0))
  then Err VE.TimestampTooOld
  else Ok (with_timestamp st new).

(** [while let Some(vote) = last_lockout() { .. pop_back() .. }], on the
    reversed tower. *)
Fixpoint drop_expired (rev_votes : list Lockout) (next_vote_slot : Slot) : list Lockout :=
  match rev_votes with
  | [] => []
  | v :: rest => if negb (is_locked_out_at_slot v next_vote_slot) then drop_expired rest next_vote_slot
                 else rev_votes
  end.

Definition pop_expired_votes (vs : list Lockout) (next_vote_slot : Slot) : list Lockout :=
  rev (drop_expired (rev vs) next_vote_slot).

Fixpoint double_lockouts_from (stack_depth : nat) (i : nat) (vs : list Lockout) : list Lockout :=
  match vs with
  | [] => []
  | v :: rest =>
      (if Z.of_nat i + confirmation_count v <? Z.of_nat stack_depth
       then {| slot := slot v; confirmation_count := wrap32 (confirmation_count v + 1) |} else v)
      :: double_lockouts_from stack_depth (S i) rest
  end.

Definition double_lockouts (vs : list Lockout) : list Lockout :=
  double_lockouts_from (length vs) 0 vs.

Definition process_next_vote_slot (st : VoteState) (next_vote_slot : Slot) (epoch : Epoch)
    : VoteState :=
  if match last_voted_slot st with Some s => next_vote_slot <=? s | None => false end then st
  else
    let vote := lockout_new next_vote_slot in
    let vs := pop_expired_votes (votes st) next_vote_slot in
    let st := with_votes st vs (root_slot st) in
    let st :=
      if (length vs =? MAX_LOCKOUT_HISTORY)%nat then
        match vs with
        | oldest :: rest => increment_credits (with_votes st rest (Some (slot oldest))) epoch
        | [] => st
        end
      else st in
    with_votes st (double_lockouts (votes st ++ [vote])) (root_slot st).

(** [filter_active] stands for the feature [filter_votes_outside_slot_hashes]:
    [None] when no feature set is given. *)
Definition process_vote_state (st : VoteState) (vote : Vote) (slot_hashes : list (Slot * Hash))
    (epoch : Epoch) (filter_active : option bool) : outcome (VoteState * result VoteError unit) :=
  match slots vote with
  | [] => Returns (st, Err VE.EmptySlots)
  | _ :: _ =>
      let vote_slots :=
        match filter_active with
        | Some true =>
            let earliest_slot_in_history :=
              match last slot_hashes with Some (s, _) => s | None => 0 end in
            List.filter (fun s => earliest_slot_in_history <=? s) (slots vote)
        | _ => slots vote
        end in
      match vote_slots with
      | [] => Returns (st, Err VE.VotesTooOldAllFiltered)
      | _ :: _ =>
          r ← check_slots_are_valid st vote_slots (vote_hash vote) slot_hashes;
          match r with
          | Err e => Returns (st, Err e)
          | Ok _ => Returns (fold_left (fun st s => process_next_vote_slot st s epoch) vote_slots st,
                             Ok tt)
          end
      end
  end.

Definition process_vote_unchecked (st : VoteState) (vote : Vote) : outcome VoteState :=
  let slot_hashes := map (fun x => (x, vote_hash vote)) (rev (slots vote)) in
  '(st, _) ← process_vote_state st vote slot_hashes (current_epoch st) None;
  Returns st.

Definition process_slot_vote_unchecked (st : VoteState) (s : Slot) : outcome VoteState :=
  process_vote_unchecked st (vote_new [s] 0%N).

(** ** Processing a submitted tower *)

(** The checks of each proposed vote against the root and its predecessor. *)
Definition check_new_vote (new_root : option Slot) (previous : option Lockout) (vote : Lockout)
    : result VoteError unit :=
  if confirmation_count vote =? 0 then Err VE.ZeroConfirmations
  else if Z.of_nat MAX_LOCKOUT_HISTORY <? confirmation_count vote then Err VE.ConfirmationTooLarge
  else if match new_root with Some r => (slot vote <=? r) && negb (r =? 0) | None => false end
  then Err VE.SlotSmallerThanRoot
  else
    match previous with
    | None => Ok tt
    | Some p =>
        if slot vote <=? slot p then Err VE.SlotsNotOrdered
        else if confirmation_count p <=? confirmation_count vote then Err VE.ConfirmationsNotOrdered
        else if last_locked_out_slot p <? slot vote then Err VE.NewVoteStateLockoutMismatch
        else Ok tt
    end.

Fixpoint check_new_votes (new_root : option Slot) (previous : option Lockout) (vs : list Lockout)
    : result VoteError unit :=
  match vs with
  | [] => Ok tt
  | v :: rest =>
      match check_new_vote new_root previous v with
      | Err e => Err e
      | Ok _ => check_new_votes new_root (Some v) rest
      end
  end.

(** The votes of the current tower from the first one above the new root. *)
Fixpoint skip_rooted (new_root : option Slot) (vs : list Lockout) : list Lockout :=
  match vs with
  | [] => []
  | v :: rest =>
      match new_root with
      | Some r => if slot v <=? r then skip_rooted new_root rest else vs
      | None => vs
      end
  end.

(** The loop that compares the current tower with the new one. *)
Fixpoint compare_towers (current : list Lockout) : list Lockout -> result VoteError unit :=
  fix over_new (new : list Lockout) {struct new} :=
  match current, new with
  | c :: current', n :: new' =>
      match slot c ?= slot n with
      | Lt => if slot n <=? last_locked_out_slot c then Err VE.LockoutConflict
              else compare_towers current' new
      | Eq => if confirmation_count n <? confirmation_count c then Err VE.ConfirmationRollBack
              else compare_towers current' new'
      | Gt => over_new new'
      end
  | _, _ => Ok tt
  end.

Definition root_rolls_back (new_root current_root : option Slot) : bool :=
  match new_root, current_root with
  | Some n, Some c => n <? c
  | None, Some _ => true
  | _, None => false
  end.

Definition process_new_vote_state (st : VoteState) (new_state : list Lockout)
    (new_root : option Slot) (timestamp : option Z) (epoch : Epoch)
    : outcome (VoteState * result VoteError unit) :=
  match last new_state with
  | None => Panics
  | Some newest =>
      if (MAX_LOCKOUT_HISTORY <? length new_state)%nat then Returns (st, Err VE.TooManyVotes)
      else if root_rolls_back new_root (root_slot st) then Returns (st, Err VE.RootRollBack)
      else
        match check_new_votes new_root None new_state with
        | Err e => Returns (st, Err e)
        | Ok _ =>
        match compare_towers (skip_rooted new_root (votes st)) new_state with
        | Err e => Returns (st, Err e)
        | Ok _ =>
            let st := if negb (bool_decide (root_slot st = new_root))
                      then increment_credits st epoch else st in
            match match timestamp with
                  | Some ts => process_timestamp st (slot newest) ts
                  | None => Ok st
                  end with
            | Err e => Returns (st, Err e)
            | Ok st => Returns (with_votes st new_state new_root, Ok tt)
            end
        end end
  end.

(** ** Voter authorization *)

Definition get_and_update_authorized_voter (st : VoteState) (current_epoch : Epoch)
    : outcome (result InstructionError (Pubkey * VoteState)) :=
  let '(voter, av) :=
    get_and_cache_authorized_voter_for_epoch (authorized_voters st) current_epoch in
  match voter with
  | None => Returns (Err IE.InvalidAccountData)
  | Some pubkey =>
      '(_, av) ← purge_authorized_voters av current_epoch;
      Returns (Ok (pubkey, with_voters st av (prior_voters st)))
  end.

Definition set_new_authorized_voter (st : VoteState) (authorized_pubkey : Pubkey)
    (current_epoch target_epoch : Epoch) (verify : Pubkey -> result InstructionError unit)
    : outcome (result InstructionError VoteState) :=
  r ← get_and_update_authorized_voter st current_epoch;
  match r with
  | Err e => Returns (Err e)
  | Ok (epoch_authorized_voter, st) =>
  match verify epoch_authorized_voter with
  | Err e => Returns (Err e)
  | Ok _ =>
      if av_contains (authorized_voters st) target_epoch
      then Returns (Err (vote_error_into VE.TooSoonToReauthorize))
      else
        match av_last (authorized_voters st) with
        | None => Returns (Err IE.InvalidAccountData)
        | Some (latest_epoch, latest_authorized_pubkey) =>
            prior ← (if negb (N.eqb latest_authorized_pubkey authorized_pubkey) then
                       let epoch_of_last_authorized_switch :=
                         match circ_last (prior_voters st) with Some (_, _, e) => e | None => 0 end in
                       _ ← assert_ (latest_epoch <? target_epoch);
                       Returns (circ_append (prior_voters st)
                         (latest_authorized_pubkey, epoch_of_last_authorized_switch, target_epoch))
                     else Returns (prior_voters st));
            Returns (Ok (with_voters st
              (av_insert (authorized_voters st) target_epoch authorized_pubkey) prior))
        end
  end end.
