(* ===== verification/VoteTower.v ===== *)
(** * Towers

    The invariant of a vote account's tower and that every way of changing
    the tower establishes it: voting slot by slot
    ([process_next_vote_slot]) and submitting a whole tower
    ([process_new_vote_state]). *)

From S2P Require Import Prelude Errors AuthorizedVoters VoteState.

(** ** The invariant *)

(** A confirmation count between 1 and [MAX_LOCKOUT_HISTORY]. *)
Definition vote_ok (v : Lockout) : Prop := 1 <= confirmation_count v <= Z.of_nat MAX_LOCKOUT_HISTORY.

(** [v] may stand directly on [p]: a later slot, fewer confirmations, and
    [p] still locked out at it. *)
Definition follows (p v : Lockout) : Prop :=
  slot p < slot v /\ confirmation_count v < confirmation_count p
  /\ slot v <= last_locked_out_slot p.

Fixpoint tower_from (prev : option Lockout) (vs : list Lockout) : Prop :=
  match vs with
  | [] => True
  | v :: rest =>
      vote_ok v /\ (match prev with Some p => follows p v | None => True end)
      /\ tower_from (Some v) rest
  end.

Definition tower_wf (vs : list Lockout) : Prop :=
  tower_from None vs /\ (length vs <= MAX_LOCKOUT_HISTORY)%nat.

(** The invariant of a vote state: a well-formed tower, on top of its root;
    a state with a root has votes. *)
Definition vote_state_wf (st : VoteState) : Prop :=
  tower_wf (votes st) /\ Forall (fun v => 0 <= slot v) (votes st)
  /\ (forall r, root_slot st = Some r -> votes st <> [] /\ forall v, v ∈ votes st -> r <= slot v).

(** A slot far enough from the end of the 64-bit range for the longest
    lockout not to overflow. *)
Definition slot_small (s : Slot) : Prop := 0 <= s /\ s + 2 ^ 31 <= U64_MAX.

(** What doubling does to the count of the vote at position [i]. *)
Definition doubled (depth i : nat) (v : Lockout) : Lockout :=
  if Z.of_nat i + confirmation_count v <? Z.of_nat depth
  then {| slot := slot v; confirmation_count := wrap32 (confirmation_count v + 1) |} else v.

(** ** Lemmas: lockouts *)

Lemma last_locked_out_slot_small v :
  vote_ok v -> slot_small (slot v) ->
  last_locked_out_slot v = slot v + 2 ^ confirmation_count v.
Proof.
  unfold vote_ok, slot_small, last_locked_out_slot, lockout, INITIAL_LOCKOUT, MAX_LOCKOUT_HISTORY.
  intros Hc [H0 Hs].
  assert (2 ^ confirmation_count v <= 2 ^ 31) by (apply Z.pow_le_mono_r; lia).
  assert (0 < 2 ^ confirmation_count v) by (apply Z.pow_pos_nonneg; lia).
  rewrite (wrap64_small (2 ^ _)) by (u_unfold; lia). rewrite wrap64_small; [done|u_unfold; lia].
Qed.

Lemma doubled_slot d i v : slot (doubled d i v) = slot v.
Proof. unfold doubled. by case_match. Qed.

(** With at least [depth - i - 1] confirmations, doubling raises the count
    to [depth - i] if it was lower. *)
Lemma doubled_count d i v :
  vote_ok v -> Z.of_nat d - Z.of_nat i - 1 <= confirmation_count v ->
  confirmation_count (doubled d i v) = Z.max (confirmation_count v) (Z.of_nat d - Z.of_nat i).
Proof.
  unfold vote_ok, MAX_LOCKOUT_HISTORY. intros Hc Hlow. unfold doubled.
  destruct (Z.ltb_spec (Z.of_nat i + confirmation_count v) (Z.of_nat d)); cbn; [|lia].
  rewrite wrap32_small; [lia|u_unfold; lia].
Qed.

Lemma doubled_ok d i v :
  (d <= MAX_LOCKOUT_HISTORY)%nat -> vote_ok v ->
  Z.of_nat d - Z.of_nat i - 1 <= confirmation_count v -> vote_ok (doubled d i v).
Proof.
  intros Hd Hv Hlow. unfold vote_ok. rewrite doubled_count by done.
  unfold vote_ok, MAX_LOCKOUT_HISTORY in *. lia.
Qed.

Lemma doubled_locked d i v :
  (d <= MAX_LOCKOUT_HISTORY)%nat -> vote_ok v -> slot_small (slot v) ->
  Z.of_nat d - Z.of_nat i - 1 <= confirmation_count v ->
  last_locked_out_slot v <= last_locked_out_slot (doubled d i v).
Proof.
  intros Hd Hv Hs Hlow. rewrite !last_locked_out_slot_small;
    try (by apply doubled_ok); rewrite ?doubled_slot; try done.
  rewrite doubled_count by done.
  assert (2 ^ confirmation_count v
          <= 2 ^ Z.max (confirmation_count v) (Z.of_nat d - Z.of_nat i)); [|lia].
  apply Z.pow_le_mono_r; lia.
Qed.

(** ** Lemmas: towers *)

Lemma tower_from_app prev vs ws :
  tower_from prev (vs ++ ws) <->
    tower_from prev vs /\ tower_from (match last vs with Some v => Some v | None => prev end) ws.
Proof.
  revert prev. induction vs as [|v vs IH]; intros prev; cbn [app tower_from]; [tauto|].
  rewrite IH. destruct vs as [|w vs]; [cbn; tauto|].
  rewrite last_cons_cons. destruct (last (w :: vs)) eqn:E; [tauto|].
  apply last_None in E. done.
Qed.

Lemma tower_from_weaken prev vs : tower_from prev vs -> tower_from None vs.
Proof. destruct vs; cbn; tauto. Qed.

Lemma tower_from_ok prev vs : tower_from prev vs -> Forall vote_ok vs.
Proof.
  revert prev. induction vs as [|v vs IH]; intros prev; cbn; [constructor|].
  intros (? & _ & ?). constructor; eauto.
Qed.

(** Counts strictly decrease down to at least 1, so a vote has at least as
    many confirmations as there are votes from it to the top. *)
Lemma tower_count_low prev vs v :
  tower_from prev (v :: vs) -> Z.of_nat (length (v :: vs)) <= confirmation_count v.
Proof.
  revert prev v. induction vs as [|w vs IH]; intros prev v (Hv & _ & Ht).
  - unfold vote_ok in Hv. cbn. lia.
  - pose proof (IH _ _ Ht). destruct Ht as (_ & (_ & Hc & _) & _). cbn in *. lia.
Qed.

(** Slots increase: everything is above the predecessor. *)
Lemma tower_slots_above prev vs v :
  tower_from (Some prev) vs -> v ∈ vs -> slot prev < slot v.
Proof.
  revert prev. induction vs as [|w vs IH]; intros prev Ht Hv; [by apply not_elem_of_nil in Hv|].
  destruct Ht as (_ & (Hlt & _) & Ht). apply elem_of_cons in Hv as [->|Hv]; [done|].
  pose proof (IH _ Ht Hv). lia.
Qed.

Lemma tower_slots_below prev vs l v :
  tower_from prev vs -> last vs = Some l -> v ∈ vs -> slot v <= slot l.
Proof.
  revert prev. induction vs as [|w vs IH]; intros prev Ht Hl Hv; [done|].
  destruct Ht as (_ & _ & Ht). destruct vs as [|u vs].
  - cbn in Hl. injection Hl as ->. apply list_elem_of_singleton in Hv as ->. lia.
  - apply elem_of_cons in Hv as [->|Hv]; [|by eapply IH].
    rewrite last_cons_cons in Hl. assert (slot w < slot l); [|lia].
    eapply tower_slots_above; [done|]. by apply last_Some_elem_of.
Qed.

Lemma double_lockouts_from_app d i vs ws :
  double_lockouts_from d i (vs ++ ws) =
    double_lockouts_from d i vs ++ double_lockouts_from d (i + length vs) ws.
Proof.
  revert i. induction vs as [|v vs IH]; intros i; cbn; [by rewrite Nat.add_0_r|].
  rewrite IH. by rewrite Nat.add_succ_r.
Qed.

Lemma double_lockouts_from_cons d i v vs :
  double_lockouts_from d i (v :: vs) = doubled d i v :: double_lockouts_from d (S i) vs.
Proof. done. Qed.

Lemma double_lockouts_from_slots d i vs : map slot (double_lockouts_from d i vs) = map slot vs.
Proof.
  revert i. induction vs as [|v vs IH]; intros i; [done|].
  rewrite double_lockouts_from_cons. cbn [map]. by rewrite doubled_slot, IH.
Qed.

Lemma double_lockouts_from_length d i vs : length (double_lockouts_from d i vs) = length vs.
Proof. rewrite <- (length_map slot), double_lockouts_from_slots, length_map. done. Qed.

(** Doubling all but the newest vote keeps a tower a tower. *)
Lemma double_tower d i vs prev prev' :
  (d <= MAX_LOCKOUT_HISTORY)%nat -> d = (i + length vs + 1)%nat ->
  tower_from prev vs -> Forall (fun v => slot_small (slot v)) vs ->
  match prev, prev' with
  | Some p, Some p' => slot p' = slot p /\ last_locked_out_slot p <= last_locked_out_slot p'
      /\ Z.max (confirmation_count p) (Z.of_nat d - Z.of_nat i + 1) <= confirmation_count p'
  | None, None => True
  | _, _ => False
  end ->
  tower_from prev' (double_lockouts_from d i vs).
Proof.
  revert i prev prev'. induction vs as [|v vs IH]; intros i prev prev' Hd Hdi Ht Hs Hp; [done|].
  rewrite double_lockouts_from_cons. pose proof (tower_count_low _ _ _ Ht) as Hlow. cbn in Hdi, Hlow.
  destruct Ht as (Hv & Hf & Ht). apply Forall_cons in Hs as [Hsv Hs].
  assert (Z.of_nat d - Z.of_nat i - 1 <= confirmation_count v) as Hl by lia.
  pose proof (doubled_count d i v Hv Hl) as Hc. cbn [tower_from]. split_and!.
  - by apply doubled_ok.
  - destruct prev as [p|], prev' as [p'|]; try done. destruct Hp as (Hsp & Hlp & Hcp).
    destruct Hf as (Hf1 & Hf2 & Hf3). unfold follows. rewrite doubled_slot, Hc. lia.
  - apply (IH (S i) (Some v) (Some (doubled d i v))); [done|lia|done|done|].
    rewrite doubled_slot, Hc. split_and!; [done|by apply doubled_locked|lia].
Qed.

(** Pushing a vote on a tower whose newest vote is still locked out. *)
Lemma push_tower vs s :
  tower_from None vs -> (length vs < MAX_LOCKOUT_HISTORY)%nat ->
  Forall (fun v => slot_small (slot v)) vs ->
  (forall l, last vs = Some l -> slot l < s /\ s <= last_locked_out_slot l) ->
  tower_from None (double_lockouts (vs ++ [lockout_new s])).
Proof.
  intros Ht Hlen Hs Hlast. unfold double_lockouts. rewrite length_app. cbn [length].
  set (d := (length vs + 1)%nat). rewrite double_lockouts_from_app. apply tower_from_app. split.
  { apply (double_tower d 0 vs None None); try done; unfold d; lia. }
  cbn [double_lockouts_from].
  replace (Z.of_nat (0 + length vs) + confirmation_count (lockout_new s) <? Z.of_nat d) with false
    by (symmetry; apply Z.ltb_ge; cbn; unfold d; lia).
  cbn [tower_from]. split_and!; [unfold vote_ok, MAX_LOCKOUT_HISTORY; cbn; lia| |done].
  destruct vs as [|l ws _] using rev_ind; [done|].
  rewrite double_lockouts_from_app, last_snoc in *. cbn [double_lockouts_from]. rewrite last_snoc.
  destruct (Hlast l eq_refl) as [Hlt Hle]. apply tower_from_app in Ht as [Hw Hl].
  apply Forall_app in Hs as [_ Hsl]. apply Forall_cons in Hsl as [Hsl _].
  rewrite length_app in *. cbn [length] in *.
  assert (d = length ws + 2)%nat as Hd by (unfold d; rewrite length_app; cbn; lia).
  clearbody d. assert (vote_ok l) as Hok by (cbn in Hl; tauto).
  assert (Z.of_nat d - Z.of_nat (0 + length ws) - 1 <= confirmation_count l) as Hlow
    by (unfold vote_ok in Hok; lia).
  fold (doubled d (0 + length ws) l). unfold follows. rewrite doubled_slot, (doubled_count _ _ _ Hok Hlow).
  pose proof (doubled_locked d (0 + length ws) l) as Hlk. cbn [slot lockout_new confirmation_count].
  split_and!; [done|lia|]. etrans; [exact Hle|]. apply Hlk; [lia|done..].
Qed.

(** ** Lemmas: voting on a slot *)

Lemma drop_expired_spec rvs s :
  exists popped, rvs = popped ++ drop_expired rvs s
    /\ Forall (fun v => is_locked_out_at_slot v s = false) popped
    /\ (forall l, head (drop_expired rvs s) = Some l -> is_locked_out_at_slot l s = true).
Proof.
  induction rvs as [|v rvs (popped & E & Hp & Hh)]; cbn.
  { exists []. by split_and!. }
  destruct (is_locked_out_at_slot v s) eqn:Ev; cbn.
  - exists []. split_and!; [done|constructor|]. by intros l [= <-].
  - exists (v :: popped). split_and!; [cbn; congruence|by constructor|done].
Qed.

(** Popping removes votes from the top, all of them expired, and stops at
    the newest vote that is still locked out. *)
Lemma pop_expired_votes_spec vs s :
  exists popped, vs = pop_expired_votes vs s ++ popped
    /\ Forall (fun v => is_locked_out_at_slot v s = false) popped
    /\ (forall l, last (pop_expired_votes vs s) = Some l -> is_locked_out_at_slot l s = true).
Proof.
  unfold pop_expired_votes. destruct (drop_expired_spec (rev vs) s) as (popped & E & Hp & Hh).
  exists (rev popped). split_and!.
  - rewrite <- rev_app_distr, <- E. by rewrite rev_involutive.
  - by apply Forall_rev.
  - intros l. rewrite <- (rev_involutive (rev (drop_expired (rev vs) s))), rev_involutive.
    rewrite <- head_reverse. unfold reverse. rewrite <- rev_alt. intros Hl. apply Hh.
    by rewrite rev_involutive in Hl.
Qed.

Lemma increment_credits_votes st epoch :
  votes (increment_credits st epoch) = votes st
  /\ root_slot (increment_credits st epoch) = root_slot st.
Proof. done. Qed.

(** The tower after a vote on a newer slot: what remains of the old one with
    the oldest vote rooted if it was full, the new vote, and doubled counts. *)
Lemma process_next_vote_slot_shape st s epoch :
  (forall l, last_voted_slot st = Some l -> l < s) ->
  let vs := pop_expired_votes (votes st) s in
  exists base, votes (process_next_vote_slot st s epoch) = double_lockouts (base ++ [lockout_new s])
    /\ ((length vs <> MAX_LOCKOUT_HISTORY /\ base = vs
         /\ root_slot (process_next_vote_slot st s epoch) = root_slot st)
        \/ exists oldest, length vs = MAX_LOCKOUT_HISTORY /\ vs = oldest :: base
           /\ root_slot (process_next_vote_slot st s epoch) = Some (slot oldest)).
Proof.
  intros Hnew vs. unfold process_next_vote_slot.
  replace (match last_voted_slot st with Some s0 => s <=? s0 | None => false end) with false.
  2:{ destruct (last_voted_slot st); [|done]. symmetry. apply Z.leb_gt. auto. }
  fold vs. destruct (Nat.eqb_spec (length vs) MAX_LOCKOUT_HISTORY) as [Hlen|Hlen].
  - destruct vs as [|oldest rest] eqn:E; [done|]. exists rest. split; [done|]. right.
    exists oldest. done.
  - exists vs. split; [done|]. left. done.
Qed.

Section NextVote.
Variables (st : VoteState) (s : Slot) (epoch : Epoch).
Hypothesis Hwf : tower_wf (votes st).
Hypothesis Hpos : Forall (fun v => 0 <= slot v) (votes st).
Hypothesis Hs : slot_small s.
Hypothesis Hnew : forall l, last_voted_slot st = Some l -> l < s.

Lemma old_votes_below v : v ∈ votes st -> slot v < s.
Proof.
  intros Hv. destruct Hwf as (Ht & _).
  destruct (last (votes st)) as [l|] eqn:El; [|apply last_None in El; rewrite El in Hv;
    by apply not_elem_of_nil in Hv].
  pose proof (tower_slots_below _ _ _ _ Ht El Hv).
  assert (slot l < s); [|lia]. apply Hnew. unfold last_voted_slot, last_lockout. by rewrite El.
Qed.

Lemma old_votes_small : Forall (fun v => slot_small (slot v)) (votes st).
Proof.
  apply Forall_forall. intros v Hv. pose proof (old_votes_below v Hv).
  assert (0 <= slot v) by exact (proj1 (Forall_forall _ _) Hpos v Hv). destruct Hs. unfold slot_small. lia.
Qed.

Lemma next_vote_base base :
  base = pop_expired_votes (votes st) s
  \/ (exists oldest, pop_expired_votes (votes st) s = oldest :: base) ->
  (length base < MAX_LOCKOUT_HISTORY)%nat ->
  tower_from None (double_lockouts (base ++ [lockout_new s]))
  /\ (forall v, v ∈ base -> v ∈ votes st).
Proof.
  intros Hbase Hlen. destruct (pop_expired_votes_spec (votes st) s) as (popped & E & _ & Hlock).
  set (vs := pop_expired_votes (votes st) s) in *.
  assert (exists pre, vs = pre ++ base) as [pre Hpre].
  { destruct Hbase as [->|[o ->]]; [by exists []|by exists [o]]. }
  assert (forall v, v ∈ base -> v ∈ votes st) as Hin.
  { intros v Hv. rewrite E, Hpre. set_solver. }
  split; [|done]. destruct Hwf as (Ht & _). apply push_tower; try done.
  - rewrite E, Hpre in Ht. apply tower_from_app in Ht as [Ht _]. apply tower_from_app in Ht as [_ Ht].
    by eapply tower_from_weaken.
  - apply Forall_forall. intros v Hv. pose proof old_votes_small as Hsm.
    rewrite Forall_forall in Hsm. auto.
  - intros l Hl. split; [apply old_votes_below, Hin; by apply last_Some_elem_of|].
    apply Z.leb_le. apply Hlock. rewrite Hpre, last_app, Hl. done.
Qed.

End NextVote.

(** The counts of a doubled list never decrease. *)
Lemma double_lockouts_from_mono d i vs v :
  v ∈ vs -> vote_ok v -> exists v', v' ∈ double_lockouts_from d i vs /\ slot v' = slot v
    /\ confirmation_count v <= confirmation_count v'.
Proof.
  revert i. induction vs as [|w vs IH]; intros i Hv Hok; [by apply not_elem_of_nil in Hv|].
  rewrite double_lockouts_from_cons. apply elem_of_cons in Hv as [->|Hv].
  - exists (doubled d i w). split; [by left|]. rewrite doubled_slot. split; [done|].
    unfold doubled. case_match; cbn; [|lia]. unfold vote_ok, MAX_LOCKOUT_HISTORY in Hok.
    rewrite wrap32_small; u_unfold; lia.
  - destruct (IH (S i) Hv Hok) as (v' & ? & ? & ?). exists v'. split_and!; [by right|done..].
Qed.

Lemma double_lockouts_elem d i vs v' :
  v' ∈ double_lockouts_from d i vs -> exists v, v ∈ vs /\ slot v' = slot v.
Proof.
  revert i. induction vs as [|w vs IH]; intros i Hv; [by apply not_elem_of_nil in Hv|].
  rewrite double_lockouts_from_cons in Hv. apply elem_of_cons in Hv as [->|Hv].
  - exists w. rewrite doubled_slot. split; [by left|done].
  - destruct (IH _ Hv) as (v & ? & ?). exists v. split; [by right|done].
Qed.

Lemma last_double_lockouts base s :
  last (double_lockouts (base ++ [lockout_new s])) = Some (lockout_new s).
Proof.
  unfold double_lockouts. rewrite double_lockouts_from_app, double_lockouts_from_cons.
  cbn [double_lockouts_from]. rewrite last_snoc.
  f_equal. unfold doubled. rewrite length_app. cbn [length].
  replace (_ <? _) with false; [done|]. symmetry. apply Z.ltb_ge. cbn. lia.
Qed.

(** A vote on a slot that is not newer changes nothing. *)
Lemma next_vote_cases st s epoch :
  (forall l, last_voted_slot st = Some l -> l < s)
  \/ exists l, last_voted_slot st = Some l /\ s <= l /\ process_next_vote_slot st s epoch = st.
Proof.
  unfold process_next_vote_slot. destruct (last_voted_slot st) as [l|] eqn:E; [|by left].
  destruct (Z.leb_spec s l); [right; eauto|left; intros l' [= <-]; done].
Qed.

Lemma next_vote_base_in st s v : v ∈ pop_expired_votes (votes st) s -> v ∈ votes st.
Proof.
  destruct (pop_expired_votes_spec (votes st) s) as (popped & E & _). intros Hv. rewrite E. set_solver.
Qed.

(** Where the slots of the new tower come from. *)
Lemma next_vote_elem base s v' :
  v' ∈ double_lockouts (base ++ [lockout_new s]) -> slot v' = s \/ exists v, v ∈ base /\ slot v' = slot v.
Proof.
  intros (v & Hv' & ->)%double_lockouts_elem. apply elem_of_app in Hv' as [?|Hv']; [eauto|].
  apply list_elem_of_singleton in Hv' as ->. by left.
Qed.

Lemma next_vote_tower_wf st s epoch :
  tower_wf (votes st) -> Forall (fun v => 0 <= slot v) (votes st) -> slot_small s ->
  (forall l, last_voted_slot st = Some l -> l < s) ->
  let st' := process_next_vote_slot st s epoch in
  tower_wf (votes st') /\ Forall (fun v => 0 <= slot v) (votes st') /\ last_voted_slot st' = Some s.
Proof.
  intros Hwf Hpos Hs Hnew. cbn zeta.
  destruct (process_next_vote_slot_shape st s epoch Hnew) as (base & Hv & Hcase).
  destruct (pop_expired_votes_spec (votes st) s) as (popped & E & _ & _).
  assert (length (pop_expired_votes (votes st) s) <= MAX_LOCKOUT_HISTORY)%nat as Hlv.
  { destruct Hwf as [_ Hl31]. rewrite E, length_app in Hl31. lia. }
  assert (length base < MAX_LOCKOUT_HISTORY)%nat as Hlen.
  { destruct Hcase as [(Hne & -> & _)|(o & Hlen & Ho & _)]; [lia|].
    rewrite Ho in Hlen. cbn in Hlen. lia. }
  destruct (next_vote_base st s Hwf Hpos Hs Hnew base) as [Htow Hin]; [|done|].
  { destruct Hcase as [(_ & -> & _)|(o & _ & Ho & _)]; [by left|right; eauto]. }
  unfold tower_wf, last_voted_slot, last_lockout. rewrite Hv, last_double_lockouts. split_and!; [done| | |done].
  - unfold double_lockouts. rewrite double_lockouts_from_length, length_app. cbn. lia.
  - apply Forall_forall. rewrite Forall_forall in Hpos. destruct Hs as [Hs0 _].
    intros v' [->|(v & Hb & ->)]%next_vote_elem; [done|auto].
Qed.

Lemma next_vote_state_wf st s epoch :
  vote_state_wf st -> slot_small s -> (forall l, last_voted_slot st = Some l -> l < s) ->
  vote_state_wf (process_next_vote_slot st s epoch).
Proof.
  intros (Hwf & Hpos & Hroot) Hs Hnew.
  destruct (next_vote_tower_wf st s epoch Hwf Hpos Hs Hnew) as (Hwf' & Hpos' & Hlast).
  split_and!; [done..|]. intros r Hr. split; [|].
  { unfold last_voted_slot, last_lockout in Hlast. by intros Hnil; rewrite Hnil in Hlast. }
  destruct (process_next_vote_slot_shape st s epoch Hnew) as (base & Hv & Hcase).
  assert (forall v, v ∈ votes st -> slot v < s) as Hbelow by (intros; by apply (old_votes_below st s)).
  intros v'. rewrite Hv. intros Hv'%next_vote_elem.
  destruct Hcase as [(_ & -> & Hrr)|(o & _ & Ho & Hrr)]; rewrite Hrr in Hr.
  - destruct (Hroot r Hr) as [Hne Hrv].
    destruct Hv' as [->|(v & Hb & ->)]; [|by apply Hrv, (next_vote_base_in st s)].
    destruct (votes st) as [|w ws]; [done|]. pose proof (Hbelow w (list_elem_of_here _ _)).
    pose proof (Hrv w (list_elem_of_here _ _)). lia.
  - injection Hr as <-. destruct (pop_expired_votes_spec (votes st) s) as (popped & E & _ & _).
    destruct Hwf as [Ht _]. rewrite E, Ho in Ht. destruct Ht as (_ & _ & Ht).
    assert (o ∈ votes st) as Hov by (apply (next_vote_base_in st s); rewrite Ho; by left).
    destruct Hv' as [->|(v & Hb & ->)]; [pose proof (Hbelow o Hov); lia|].
    assert (slot o < slot v); [|lia]. eapply tower_slots_above; [exact Ht|]. set_solver.
Qed.

(** Votes that are still locked out are kept, or rooted. *)
Lemma next_vote_keeps_locked st s epoch v :
  tower_wf (votes st) -> (forall l, last_voted_slot st = Some l -> l < s) ->
  v ∈ votes st -> is_locked_out_at_slot v s = true ->
  root_slot (process_next_vote_slot st s epoch) = Some (slot v)
  \/ exists v', v' ∈ votes (process_next_vote_slot st s epoch) /\ slot v' = slot v
       /\ confirmation_count v <= confirmation_count v'.
Proof.
  intros Hwf Hnew Hin Hlk. destruct (process_next_vote_slot_shape st s epoch Hnew) as (base & Hv & Hcase).
  destruct (pop_expired_votes_spec (votes st) s) as (popped & E & Hp & _).
  assert (vote_ok v) as Hok.
  { destruct Hwf as (Ht & _). apply tower_from_ok in Ht. rewrite Forall_forall in Ht. auto. }
  assert (v ∈ pop_expired_votes (votes st) s) as Hkept.
  { rewrite E in Hin. apply elem_of_app in Hin as [?|Hin]; [done|].
    rewrite Forall_forall in Hp. rewrite (Hp v Hin) in Hlk. done. }
  rewrite Hv. destruct Hcase as [(_ & -> & _)|(o & _ & Ho & ->)].
  - right. apply double_lockouts_from_mono; [set_solver|done].
  - rewrite Ho in Hkept. apply elem_of_cons in Hkept as [->|Hkept]; [by left|].
    right. apply double_lockouts_from_mono; [set_solver|done].
Qed.

(** ** Lemmas: submitted towers *)

(** The checks of a proposed tower decide the invariant, and that every vote
    is above the root (unless the root is slot 0). *)
Lemma check_new_votes_spec new_root prev vs :
  Forall (fun v => 0 <= confirmation_count v) vs ->
  check_new_votes new_root prev vs = Ok tt <->
    tower_from prev vs
    /\ Forall (fun v => forall r, new_root = Some r -> r < slot v \/ r = 0) vs.
Proof.
  revert prev. induction vs as [|v vs IH]; intros prev Hc; cbn [check_new_votes tower_from].
  { split; [|done]. by split; [|constructor]. }
  apply Forall_cons in Hc as [Hv Hc]. rewrite Forall_cons. specialize (IH (Some v) Hc).
  assert (check_new_vote new_root prev v = Ok tt <->
    vote_ok v /\ (match prev with Some p => follows p v | None => True end)
    /\ forall r, new_root = Some r -> r < slot v \/ r = 0) as Hone.
  { unfold check_new_vote, vote_ok, follows.
    destruct (Z.eqb_spec (confirmation_count v) 0); [split; [done|lia]|].
    destruct (Z.ltb_spec (Z.of_nat MAX_LOCKOUT_HISTORY) (confirmation_count v)); [split; [done|lia]|].
    destruct new_root as [r|].
    - destruct (Z.leb_spec (slot v) r), (Z.eqb_spec r 0); cbn;
        try (split; [done|]; intros (_ & _ & Hr); specialize (Hr r eq_refl); lia);
        (destruct prev as [p|]; [|split; [intros _; split_and!; [lia|lia|done|]; intros r' [= <-]; lia|done]];
         repeat case_match; zbool; (split; [intros Hok|]; try done; try lia;
           split_and!; try lia; intros r' [= <-]; lia)).
    - destruct prev as [p|]; [|split; [intros _; split_and!; [lia|lia|done|done]|done]].
      repeat case_match; zbool; (split; [intros Hok|]; try done; try lia; split_and!; try lia; done). }
  destruct (check_new_vote new_root prev v) as [[]|e].
  - rewrite IH. destruct Hone as [Hone _]. specialize (Hone eq_refl). tauto.
  - split; [done|]. intros [(H1 & H2 & _) [H3 _]]. destruct Hone as [_ Hone].
    discriminate Hone. done.
Qed.

(** The comparison with the current tower: no lockout is broken. *)
Lemma compare_towers_sound cur : forall new,
  compare_towers cur new = Ok tt ->
  tower_from None cur -> tower_from None new ->
  (forall c, c ∈ cur -> exists n, n ∈ new /\ slot c < slot n) ->
  forall c, c ∈ cur ->
    (forall n, n ∈ new -> slot n = slot c -> confirmation_count c <= confirmation_count n)
    /\ ((forall n, n ∈ new -> slot n <> slot c) ->
        forall n, n ∈ new -> slot c < slot n -> last_locked_out_slot c < slot n).
Proof.
  induction cur as [|c cur IHc]; [intros ????? c Hc; by apply not_elem_of_nil in Hc|].
  induction new as [|n new IHn]; intros E Hcur Hnew Habove c0 Hc0.
  { destruct (Habove c0 Hc0) as (n & Hn & _). by apply not_elem_of_nil in Hn. }
  pose proof Hcur as (_ & _ & Hcur'). pose proof Hnew as (_ & _ & Hnew').
  pose proof (tower_slots_above c cur) as Hc_lt. pose proof (tower_slots_above n new) as Hn_lt.
  cbn in E. destruct (Z.compare_spec (slot c) (slot n)) as [Heq|Hlt|Hgt].
  - destruct (Z.ltb_spec (confirmation_count n) (confirmation_count c)); [done|].
    apply elem_of_cons in Hc0 as [->|Hc0].
    + split; [|intros Hne; exfalso; apply (Hne n); [by left|done]].
      intros n' Hn' Hs. apply elem_of_cons in Hn' as [->|Hn']; [done|].
      pose proof (Hn_lt n' Hnew' Hn'). lia.
    + pose proof (Hc_lt c0 Hcur' Hc0).
      destruct (IHc new E (tower_from_weaken _ _ Hcur') (tower_from_weaken _ _ Hnew')) with (c := c0)
        as [H1 H2]; [|done|].
      { intros c' Hc'. destruct (Habove c') as (n' & Hn' & Hl); [by right|].
        pose proof (Hc_lt c' Hcur' Hc'). apply elem_of_cons in Hn' as [->|Hn']; [lia|eauto]. }
      split.
      * intros n' Hn' Hs. apply elem_of_cons in Hn' as [->|Hn']; [lia|by apply H1].
      * intros Hne n' Hn' Hl. apply elem_of_cons in Hn' as [->|Hn']; [lia|].
        apply H2; [|done|done]. intros n'' Hn''. apply Hne. by right.
  - destruct (Z.leb_spec (slot n) (last_locked_out_slot c)); [done|].
    apply elem_of_cons in Hc0 as [->|Hc0].
    + split.
      * intros n' Hn' Hs. apply elem_of_cons in Hn' as [->|Hn']; [lia|].
        pose proof (Hn_lt n' Hnew' Hn'). lia.
      * intros _ n' Hn' _. apply elem_of_cons in Hn' as [->|Hn']; [lia|].
        pose proof (Hn_lt n' Hnew' Hn'). lia.
    + apply (IHc (n :: new) E (tower_from_weaken _ _ Hcur') Hnew); [|done].
      intros c' Hc'. apply Habove. by right.
  - assert (forall c', c' ∈ c :: cur -> slot n < slot c') as Hall.
    { intros c' Hc'. apply elem_of_cons in Hc' as [->|Hc']; [done|].
      pose proof (Hc_lt c' Hcur' Hc'). lia. }
    pose proof (Hall c0 Hc0).
    destruct (IHn E Hcur (tower_from_weaken _ _ Hnew')) with (c := c0) as [H1 H2]; [|done|].
    { intros c' Hc'. destruct (Habove c' Hc') as (n' & Hn' & Hl). pose proof (Hall c' Hc').
      apply elem_of_cons in Hn' as [->|Hn']; [lia|eauto]. }
    split.
    + intros n' Hn' Hs. apply elem_of_cons in Hn' as [->|Hn']; [lia|by apply H1].
    + intros Hne n' Hn' Hl. apply elem_of_cons in Hn' as [->|Hn']; [lia|].
      apply H2; [|done|done]. intros n'' Hn''. apply Hne. by right.
Qed.

Lemma skip_rooted_spec new_root vs :
  exists pre, vs = pre ++ skip_rooted new_root vs
    /\ forall v, v ∈ pre -> exists r, new_root = Some r /\ slot v <= r.
Proof.
  induction vs as [|v vs (pre & E & Hpre)]; cbn.
  { exists []. split; [done|]. intros ? ?%not_elem_of_nil. done. }
  destruct new_root as [r|].
  - destruct (Z.leb_spec (slot v) r).
    + exists (v :: pre). split; [cbn; congruence|].
      intros w [->|Hw]%elem_of_cons; [eauto|by apply Hpre].
    + exists []. split; [done|]. intros ? ?%not_elem_of_nil. done.
  - exists []. split; [done|]. intros ? ?%not_elem_of_nil. done.
Qed.

(** The parts of an accepted tower. *)
Lemma process_new_vote_state_Ok st new new_root ts epoch st' :
  process_new_vote_state st new new_root ts epoch = Returns (st', Ok tt) ->
  new <> [] /\ (length new <= MAX_LOCKOUT_HISTORY)%nat
  /\ root_rolls_back new_root (root_slot st) = false
  /\ check_new_votes new_root None new = Ok tt
  /\ compare_towers (skip_rooted new_root (votes st)) new = Ok tt
  /\ votes st' = new /\ root_slot st' = new_root.
Proof.
  unfold process_new_vote_state. destruct (last new) as [newest|] eqn:El; [|done].
  destruct (Nat.ltb_spec MAX_LOCKOUT_HISTORY (length new)); [done|].
  destruct (root_rolls_back _ _) eqn:Er; [done|].
  destruct (check_new_votes _ _ _) as [[]|] eqn:Ec; [|done].
  destruct (compare_towers _ _) as [[]|] eqn:Et; [|done].
  destruct (match ts with Some _ => _ | None => _ end) as [st1|]; [|done]. intros [= <-].
  split_and!; try done. by intros ->.
Qed.

Lemma new_tower_wf st new new_root ts epoch st' :
  Forall (fun v => 0 <= confirmation_count v /\ 0 <= slot v) new ->
  process_new_vote_state st new new_root ts epoch = Returns (st', Ok tt) ->
  tower_from None new /\ vote_state_wf st'.
Proof.
  intros Hnew Hok.
  apply process_new_vote_state_Ok in Hok as (Hne & Hlen & Hroll & Hcheck & Hcomp & Hv & Hr).
  assert (Forall (fun v => 0 <= confirmation_count v) new) as Hcc.
  { eapply Forall_impl; [exact Hnew|]. cbn. tauto. }
  apply check_new_votes_spec in Hcheck as [Htow Habove]; [|done].
  split; [done|]. unfold vote_state_wf. rewrite Hv, Hr. split_and!; [by split| |].
  - eapply Forall_impl; [exact Hnew|]. cbn. tauto.
  - intros r ->. split; [done|]. intros v Hin. rewrite Forall_forall in Habove, Hnew.
    destruct (Hnew v Hin), (Habove v Hin r eq_refl); lia.
Qed.

(** ** Properties *)

(** C27: Voting on a slot preserves the tower invariant and respects lockouts.
    For a well-formed vote state and any slot, afterwards the state is well
    formed again (slots strictly increase, confirmations strictly decrease
    and stay in 1..31, no vote is expired by the next one, at most 31 votes);
    if the slot was newer it is now the last voted slot; every vote that was
    still locked out at the slot is kept with at least its confirmations, or
    has become the root; and the root never moves back. *)
Theorem process_next_vote_slot_preserves (st : VoteState) (s : Slot) (epoch : Epoch)
    (Hwf : vote_state_wf st) (Hs : slot_small s) :
  let st' := process_next_vote_slot st s epoch in
  vote_state_wf st'
  /\ (last_voted_slot st' = last_voted_slot st \/ last_voted_slot st' = Some s)
  /\ ((forall l, last_voted_slot st = Some l -> l < s) -> last_voted_slot st' = Some s)
  /\ (forall v, v ∈ votes st -> is_locked_out_at_slot v s = true ->
        root_slot st' = Some (slot v)
        \/ exists v', v' ∈ votes st' /\ slot v' = slot v
             /\ confirmation_count v <= confirmation_count v')
  /\ (forall r, root_slot st = Some r -> exists r', root_slot st' = Some r' /\ r <= r').
Proof.
  cbn zeta. destruct (next_vote_cases st s epoch) as [Hnew|(l & Hl & Hle & ->)].
  - destruct (process_next_vote_slot_shape st s epoch Hnew) as (base & Hv & Hcase).
    pose proof (next_vote_state_wf st s epoch Hwf Hs Hnew) as Hwf'.
    assert (last_voted_slot (process_next_vote_slot st s epoch) = Some s) as Hlast.
    { unfold last_voted_slot, last_lockout. by rewrite Hv, last_double_lockouts. }
    split_and!; [done|by right|done| |].
    + intros v Hin Hlk. destruct Hwf as [Hwf _]. eapply next_vote_keeps_locked; done.
    + intros r Hr. destruct Hcase as [(_ & _ & ->)|(o & _ & Ho & ->)]; [exists r; split; [done|lia]|].
      exists (slot o). split; [done|]. destruct Hwf as (_ & _ & Hroot). apply (Hroot r Hr).
      apply (next_vote_base_in st s). rewrite Ho. by left.
  - split_and!; [done|by left| | |].
    + intros Hnew. specialize (Hnew l Hl). lia.
    + intros v Hv _. right. exists v. by split_and!.
    + intros r Hr. exists r. split; [done|lia].
Qed.

Lemma process_next_vote_slot_preserves_witness :
  let st := with_votes vote_state_default
    [{| slot := 1; confirmation_count := 3 |}; {| slot := 2; confirmation_count := 2 |};
     {| slot := 3; confirmation_count := 1 |}] (Some 0) in
  vote_state_wf st /\ vote_state_wf (process_next_vote_slot st 6 0)
  /\ last_voted_slot (process_next_vote_slot st 6 0) = Some 6.
Proof.
  cbn zeta. assert (vote_state_wf (with_votes vote_state_default
    [{| slot := 1; confirmation_count := 3 |}; {| slot := 2; confirmation_count := 2 |};
     {| slot := 3; confirmation_count := 1 |}] (Some 0))) as Hwf.
  { split; [split; [|cbn; unfold MAX_LOCKOUT_HISTORY; lia]|split].
    - repeat split; vm_compute; (reflexivity || discriminate).
    - repeat constructor; cbn; lia.
    - intros r [= <-]. split; [done|]. intros v Hv.
      repeat (apply elem_of_cons in Hv as [->|Hv]; [cbn; lia|]). by apply not_elem_of_nil in Hv. }
  split; [exact Hwf|].
  destruct (process_next_vote_slot_preserves _ 6 0 Hwf) as (H1 & _ & H2 & _).
  - unfold slot_small, U64_MAX. lia.
  - split; [exact H1|]. apply H2. intros l [= <-]. lia.
Defined.

(** C26: An accepted tower submission is a well-formed tower and breaks no lockout.
    This is the contract written above [process_new_vote_state]: the new
    votes satisfy the tower invariant and become the tower on the new root,
    which is not behind the old one; and, for a current tower all of whose
    votes are older than the newest new vote, every current vote above the
    new root is either kept with at least its confirmations, or is absent and
    its lockout ended before every later vote of the new tower. *)
Theorem process_new_vote_state_sound (st st' : VoteState) (new : list Lockout)
    (new_root : option Slot) (ts : option Z) (epoch : Epoch)
    (Hcur : tower_wf (votes st))
    (Hnew : Forall (fun v => 0 <= confirmation_count v /\ 0 <= slot v) new)
    (Hnewest : forall l c, last new = Some l -> c ∈ votes st -> slot c < slot l)
    (Hok : process_new_vote_state st new new_root ts epoch = Returns (st', Ok tt)) :
  votes st' = new /\ root_slot st' = new_root /\ vote_state_wf st'
  /\ (forall r, root_slot st = Some r -> exists r', new_root = Some r' /\ r <= r')
  /\ (forall c, c ∈ votes st -> (forall r, new_root = Some r -> r < slot c) ->
        (forall n, n ∈ new -> slot n = slot c -> confirmation_count c <= confirmation_count n)
        /\ ((forall n, n ∈ new -> slot n <> slot c) ->
            forall n, n ∈ new -> slot c < slot n -> last_locked_out_slot c < slot n)).
Proof.
  pose proof (new_tower_wf _ _ _ _ _ _ Hnew Hok) as (Htow & Hwf').
  apply process_new_vote_state_Ok in Hok as (Hne & Hlen & Hroll & Hcheck & Hcomp & Hv & Hr).
  split_and!; [done|done|done| |].
  - intros r Hrs. rewrite Hrs in Hroll. destruct new_root as [r'|]; [|done]. cbn in Hroll.
    apply Z.ltb_ge in Hroll. eauto.
  - intros c Hc Hroot. destruct (skip_rooted_spec new_root (votes st)) as (pre & E & Hpre).
    assert (c ∈ skip_rooted new_root (votes st)) as Hin.
    { rewrite E in Hc. apply elem_of_app in Hc as [Hc|Hc]; [|done]. exfalso.
      destruct (Hpre c Hc) as (r & Er & Hle). pose proof (Hroot r Er). lia. }
    apply (compare_towers_sound _ _ Hcomp); [|done| |done].
    + destruct Hcur as [Hcur _]. rewrite E in Hcur. apply tower_from_app in Hcur as [_ Hcur].
      by eapply tower_from_weaken.
    + intros c' Hc'. destruct (last new) as [l|] eqn:El; [|by apply last_None in El].
      exists l. split; [by apply last_Some_elem_of|]. apply (Hnewest l c' eq_refl). rewrite E. set_solver.
Qed.

Lemma process_new_vote_state_sound_witness :
  let st := with_votes vote_state_default [{| slot := 1; confirmation_count := 2 |};
              {| slot := 2; confirmation_count := 1 |}] None in
  let new := [{| slot := 1; confirmation_count := 4 |}; {| slot := 5; confirmation_count := 1 |}] in
  exists st', process_new_vote_state st new None None 0 = Returns (st', Ok tt)
    /\ votes st' = new /\ vote_state_wf st'
    /\ (forall c, c ∈ votes st -> (forall r : Slot, None = Some r -> r < slot c) ->
          (forall n, n ∈ new -> slot n = slot c -> confirmation_count c <= confirmation_count n)
          /\ ((forall n, n ∈ new -> slot n <> slot c) ->
              forall n, n ∈ new -> slot c < slot n -> last_locked_out_slot c < slot n)).
Proof.
  cbn zeta. eexists.
  assert (forall a b : Prop, a -> (a -> b) -> a /\ b) as Hand by tauto.
  apply Hand; [vm_compute; reflexivity|intros Hok].
  refine (_ (fun Hc Hn Hl => process_new_vote_state_sound _ _ _ _ _ _ Hc Hn Hl Hok)).
  intros Hthm. destruct Hthm as (H1 & _ & H2 & _ & H3).
  - split; [|cbn; unfold MAX_LOCKOUT_HISTORY; lia].
    repeat split; vm_compute; (reflexivity || discriminate).
  - repeat constructor; cbn; lia.
  - intros l c [= <-] Hc. repeat (apply elem_of_cons in Hc as [->|Hc]; [cbn; lia|]).
    by apply not_elem_of_nil in Hc.
  - split; [exact H1|]. split; [exact H2|exact H3].
Defined.
