(* ===== verification/VoteChecks.v ===== *)
(** * The checks of submitted votes

    What [check_slots_are_valid] and [check_update_vote_state_slots_are_valid]
    guarantee, that none of their assertions can fail, and that the binary
    search of [contains_slot] is membership on a tower. *)

From S2P Require Import Prelude Errors AuthorizedVoters VoteState VoteTower.

(** ** Specification *)

(** [hs] is what remains of the reversed slot hashes when [j] of them are
    left. *)
Definition remaining (sh hs : list (Slot * Hash)) (j : nat) : Prop :=
  length hs = j /\ exists pre, rev sh = pre ++ hs.

(** Slots strictly increase, starting above [prev]. *)
Fixpoint slots_increase (prev : option Slot) (ss : list Slot) : Prop :=
  match ss with
  | [] => True
  | s :: rest =>
      (match prev with Some p => p < s | None => True end) /\ slots_increase (Some s) rest
  end.

(** A lockout that the check lets through: its slot is in the bank's
    history, or is already in the tower. *)
Definition vouched (st : VoteState) (sh : list (Slot * Hash)) (l : Lockout) : Prop :=
  (exists h, (slot l, h) ∈ sh) \/ contains_slot st (slot l) = true.

Definition newer (last_voted : option Slot) (s : Slot) : Prop :=
  match last_voted with Some lv => lv < s | None => True end.

(** ** Lemmas: binary search *)

Lemma tower_lookup_lt prev vs i j a b :
  tower_from prev vs -> (i < j)%nat -> vs !! i = Some a -> vs !! j = Some b -> slot a < slot b.
Proof.
  revert prev i j. induction vs as [|v vs IH]; intros prev i j Ht Hij Ha Hb; [done|].
  destruct Ht as (_ & _ & Ht). destruct j as [|j]; [lia|]. cbn in Hb. destruct i as [|i]; cbn in Ha.
  - injection Ha as ->. eapply tower_slots_above; [done|]. by eapply list_elem_of_lookup_2.
  - eapply (IH _ i j); [done|lia|done|done].
Qed.

Lemma binary_search_spec vs c fuel : forall left size,
  tower_from None vs -> (size < fuel)%nat -> (left + size <= length vs)%nat ->
  binary_search vs c fuel left size = true <->
    exists i v, (left <= i < left + size)%nat /\ vs !! i = Some v /\ slot v = c.
Proof.
  induction fuel as [|fuel IH]; intros left size Ht Hf Hl; [lia|]. cbn [binary_search].
  destruct (Nat.eqb_spec size 0) as [->|Hne].
  { split; [done|]. intros (i & v & Hi & _). lia. }
  assert (size / 2 < size)%nat by (apply Nat.div_lt; lia).
  set (mid := (left + size / 2)%nat) in *.
  destruct (vs !! mid) as [m|] eqn:Em.
  2:{ apply lookup_ge_None in Em. lia. }
  destruct (Z.compare_spec (slot m) c) as [Heq|Hlt|Hgt].
  - split; [|done]. intros _. exists mid, m. split_and!; [lia|lia|done|done].
  - rewrite IH by (done || lia). split; intros (i & v & Hi & Hv & Hs); exists i, v.
    + split_and!; [lia|lia|done|done].
    + destruct (Nat.lt_trichotomy i mid) as [Hlm|[->|Hgm]].
      * pose proof (tower_lookup_lt _ _ _ _ _ _ Ht Hlm Hv Em). lia.
      * rewrite Em in Hv. injection Hv as <-. lia.
      * split_and!; [lia|lia|done|done].
  - rewrite IH by (done || lia). split; intros (i & v & Hi & Hv & Hs); exists i, v.
    + split_and!; [lia|lia|done|done].
    + destruct (Nat.lt_trichotomy i mid) as [Hlm|[->|Hgm]].
      * split_and!; [lia|lia|done|done].
      * rewrite Em in Hv. injection Hv as <-. lia.
      * pose proof (tower_lookup_lt _ _ _ _ _ _ Ht Hgm Em Hv). lia.
Qed.

Lemma contains_slot_elem st c :
  tower_from None (votes st) ->
  contains_slot st c = true <-> exists v, v ∈ votes st /\ slot v = c.
Proof.
  intros Ht. unfold contains_slot. rewrite binary_search_spec by (done || lia).
  setoid_rewrite list_elem_of_lookup. split.
  - intros (i & v & _ & Hv & Hs). eauto.
  - intros (v & (i & Hv) & Hs). exists i, v. pose proof (lookup_lt_Some _ _ _ Hv).
    split_and!; [lia|lia|done|done].
Qed.

(** ** Lemmas: positions in the slot hashes *)

Lemma remaining_all sh : remaining sh (rev sh) (length sh).
Proof. split; [apply length_rev|by exists []]. Qed.

Lemma remaining_tail sh h hs j :
  remaining sh (h :: hs) j -> remaining sh hs (j - 1) /\ sh !! (j - 1)%nat = Some h.
Proof.
  intros [Hlen [pre E]]. cbn in Hlen. subst j. replace (S (length hs) - 1)%nat with (length hs) by lia.
  split.
  - split; [done|]. exists (pre ++ [h]). by rewrite <- app_assoc.
  - apply (f_equal (@rev _)) in E. rewrite rev_involutive, rev_app_distr in E. cbn in E.
    rewrite E, <- app_assoc. rewrite lookup_app_r by (rewrite length_rev; lia). rewrite length_rev, Nat.sub_diag. done.
Qed.

Lemma remaining_full sh hs :
  remaining sh hs (length sh) -> hs = rev sh.
Proof.
  intros [Hlen [pre E]]. apply (f_equal length) in E as El. rewrite length_rev, length_app in El.
  destruct pre; [by cbn in E|cbn in El; lia].
Qed.

Lemma remaining_le sh hs j : remaining sh hs j -> (j <= length sh)%nat.
Proof.
  intros [<- [pre E]]. apply (f_equal length) in E. rewrite length_rev, length_app in E. lia.
Qed.

(** The oldest slot hash is the head of the reversed list. *)
Lemma earliest_head (sh : list (Slot * Hash)) e eh a ah hs :
  last sh = Some (e, eh) -> rev sh = (a, ah) :: hs -> a = e.
Proof.
  intros Hl E. apply (f_equal (@rev _)) in E. rewrite rev_involutive in E. cbn in E.
  rewrite E, last_snoc in Hl. congruence.
Qed.

(** ** Lemmas: the loops over a submitted tower *)

Section UpdateLoops.
Variables (st : VoteState) (sh : list (Slot * Hash)) (earliest : Slot) (eh : Hash).
Hypothesis Hearliest : last sh = Some (earliest, eh).

Lemma oldest_reached h hs a ah :
  remaining sh hs (length sh) -> hs = (a, ah) :: h -> a = earliest.
Proof. intros Hr ->. apply remaining_full in Hr. symmetry in Hr. by eapply earliest_head. Qed.

(** The root phase: its assertions hold, because a root older than the
    history has been replaced by the current root. *)
Lemma root_loop_spec self_root r : forall hs j,
  remaining sh hs j -> (r < earliest -> self_root = Some r) ->
  exists res, root_loop self_root earliest (length sh) r hs j = Returns res
    /\ (forall hs' j', res = Ok (Some (hs', j')) -> remaining sh hs' j'
          /\ ((exists h, (r, h) ∈ sh) \/ r < earliest)).
Proof.
  induction hs as [|[a ah] hs IH]; intros j Hrem Hroot; cbn [root_loop].
  { eexists. split; [done|]. done. }
  destruct (remaining_tail _ _ _ _ Hrem) as [Hrem' Hlook].
  destruct (Z.compare_spec r a) as [Heq|Hlt|Hgt].
  - eexists. split; [done|]. intros hs' j' [= <- <-]. split; [done|]. left. exists ah.
    subst r. by eapply list_elem_of_lookup_2.
  - destruct (Nat.eqb_spec j (length sh)) as [->|]; [|by eexists].
    assert (a = earliest) as -> by by eapply oldest_reached.
    rewrite (Hroot Hlt). unfold assert_. rewrite (proj2 (Z.ltb_lt r earliest) Hlt). cbn.
    rewrite (proj2 (Z.ltb_lt r earliest) Hlt). cbn.
    eexists. split; [done|]. intros hs' j' [= <- <-]. auto.
  - by apply IH.
Qed.

(** What the second phase establishes when it consumes every lockout. *)
Record consumed (prev : option Slot) (i : nat) (filtered : list nat) (ls : list Lockout)
    (j' : nat) (f : list nat) : Prop := {
  con_increase : slots_increase prev (map slot ls);
  con_newest : forall l, last ls = Some l -> earliest <= slot l ->
    exists h, sh !! j' = Some (slot l, h);
  con_filter : exists new, f = filtered ++ new /\ Forall (fun k => (i <= k)%nat) new
    /\ Forall (vouched st sh) (retain_lockouts ls i new)
    /\ (forall l, last ls = Some l -> earliest <= slot l -> last (retain_lockouts ls i new) = Some l);
}.

Lemma retain_keep l ls i new :
  Forall (fun k => (S i <= k)%nat) new ->
  retain_lockouts (l :: ls) i new = l :: retain_lockouts ls (S i) new.
Proof.
  intros Hn. cbn. destruct new as [|k new]; [done|]. apply Forall_cons in Hn as [Hk _].
  destruct (Nat.eqb_spec i k); [lia|done].
Qed.

Lemma last_cons_Some {A} (x : A) l y : last (x :: l) = Some y -> (l = [] /\ x = y) \/ last l = Some y.
Proof. destruct l; cbn; naive_solver. Qed.

(** One more lockout in front, kept. *)
Lemma consumed_keep prev i filtered l ls j' f :
  (match prev with Some p => p < slot l | None => True end) -> vouched st sh l ->
  (ls = [] -> earliest <= slot l -> exists h, sh !! j' = Some (slot l, h)) ->
  consumed (Some (slot l)) (S i) filtered ls j' f -> consumed prev i filtered (l :: ls) j' f.
Proof.
  intros Hp Hv Hlast [Hinc Hnew (new & -> & Hge & Hvs & Hl)]. split; [done| |].
  - intros l' Hl' He. apply last_cons_Some in Hl' as [[-> <-]|Hl']; eauto.
  - exists new. split; [done|]. split; [eapply Forall_impl; [exact Hge|]; cbn; lia|].
    rewrite retain_keep by done. split; [by constructor|].
    intros l' Hl' He. apply last_cons_Some in Hl' as [[-> <-]|Hl'].
    + by destruct new.
    + specialize (Hl l' Hl' He). destruct (retain_lockouts ls (S i) new); [done|by rewrite last_cons_cons].
Qed.

(** One more lockout in front, older than the history and filtered out. *)
Lemma consumed_drop prev i filtered l ls j' f :
  (match prev with Some p => p < slot l | None => True end) -> slot l < earliest ->
  consumed (Some (slot l)) (S i) (filtered ++ [i]) ls j' f -> consumed prev i filtered (l :: ls) j' f.
Proof.
  intros Hp Hlt [Hinc Hnew (new & -> & Hge & Hvs & Hl)]. split; [done| |].
  - intros l' Hl' He. apply last_cons_Some in Hl' as [[-> <-]|Hl']; [lia|eauto].
  - exists (i :: new). split; [by rewrite <- app_assoc|]. split.
    { constructor; [lia|]. eapply Forall_impl; [exact Hge|]. cbn. lia. }
    cbn. rewrite Nat.eqb_refl. split; [done|].
    intros l' Hl' He. apply last_cons_Some in Hl' as [[-> <-]|Hl']; [lia|eauto].
Qed.

Lemma slots_loop_cons len prev i filtered l ls a ah hs j :
  slots_loop st earliest len prev i filtered (l :: ls) ((a, ah) :: hs) j =
    if match prev with Some p => slot l <=? p | None => false end
    then Returns (Err VE.SlotsNotOrdered)
    else
      match slot l ?= a with
      | Lt =>
          if (j =? len)%nat then
            _ ← assert_ (slot l <? earliest);
            slots_loop st earliest len (Some (slot l)) (S i)
              (if negb (contains_slot st (slot l)) then filtered ++ [i] else filtered)
              ls ((a, ah) :: hs) j
          else Returns (Err VE.SlotsMismatch)
      | Gt => slots_loop st earliest len prev i filtered (l :: ls) hs (j - 1)
      | Eq => slots_loop st earliest len (Some (slot l)) (S i) filtered ls hs (j - 1)
      end.
Proof. done. Qed.

Lemma slots_loop_spec ls : forall prev i filtered hs j,
  remaining sh hs j ->
  exists res, slots_loop st earliest (length sh) prev i filtered ls hs j = Returns res
    /\ (forall i' j' f, res = Ok (i', j', f) -> i' = (i + length ls)%nat ->
          consumed prev i filtered ls j' f).
Proof.
  induction ls as [|l ls IHl]; intros prev i filtered hs j Hrem.
  { exists (Ok (i, j, filtered)). split; [by destruct hs|]. intros i' j' f [= <- <- <-] _.
    split; [done|done|]. exists []. rewrite app_nil_r. split_and!; try done; constructor. }
  revert j Hrem. induction hs as [|[a ah] hs IHh]; intros j Hrem.
  { eexists. split; [done|]. intros i' j' f [= <- <- <-] Hi. cbn in Hi. lia. }
  rewrite slots_loop_cons.
  destruct (remaining_tail _ _ _ _ Hrem) as [Hrem' Hlook].
  destruct (match prev with Some p => slot l <=? p | None => false end) eqn:Eprev.
  { eexists. split; [done|]. done. }
  assert (match prev with Some p => p < slot l | None => True end) as Hp.
  { destruct prev; [|done]. by apply Z.leb_gt. }
  destruct (Z.compare_spec (slot l) a) as [Heq|Hlt|Hgt].
  - destruct (IHl (Some (slot l)) (S i) filtered hs (j - 1)%nat Hrem') as (res & E & Hres).
    exists res. split; [done|]. intros i' j' f Hr Hi.
    apply consumed_keep; [done| | |apply (Hres i'); [done|cbn in Hi; lia]].
    + left. exists ah. rewrite Heq. by eapply list_elem_of_lookup_2.
    + intros -> _. assert (res = Ok (S i, (j - 1)%nat, filtered)) as Hres'.
      { destruct hs; cbn in E; congruence. }
      rewrite Hr in Hres'. injection Hres' as -> -> ->. exists ah. by rewrite Heq.
  - destruct (Nat.eqb_spec j (length sh)) as [->|]; [|by eexists].
    assert (a = earliest) as -> by by eapply oldest_reached.
    unfold assert_. rewrite (proj2 (Z.ltb_lt (slot l) earliest) Hlt). cbn [mbind outcome_bind].
    destruct (contains_slot st (slot l)) eqn:Ec; cbn [negb].
    + destruct (IHl (Some (slot l)) (S i) filtered _ _ Hrem) as (res & E & Hres).
      exists res. split; [done|]. intros i' j' f Hr Hi.
      apply consumed_keep; [done|by right|lia|apply (Hres i'); [done|cbn in Hi; lia]].
    + destruct (IHl (Some (slot l)) (S i) (filtered ++ [i]) _ _ Hrem) as (res & E & Hres).
      exists res. split; [done|]. intros i' j' f Hr Hi.
      apply consumed_drop; [done|done|apply (Hres i'); [done|cbn in Hi; lia]].
  - exact (IHh _ Hrem').
Qed.

End UpdateLoops.

Lemma retain_elem ls : forall i f l, l ∈ retain_lockouts ls i f -> l ∈ ls.
Proof.
  induction ls as [|x ls IH]; intros i f l Hl; cbn in Hl; [done|].
  destruct f as [|k f]; [|destruct (i =? k)%nat];
    try (apply elem_of_cons in Hl as [->|Hl]; [by left|]); right; by eapply IH.
Qed.

Lemma clamp_root_old st earliest u r :
  root (clamp_root st earliest u) = Some r -> r < earliest -> root_slot st = Some r.
Proof.
  unfold clamp_root. destruct (root u) as [p|] eqn:E; [|congruence].
  destruct (Z.ltb_spec p earliest); [done|]. rewrite E. intros [= ->]. lia.
Qed.

Lemma clamp_root_rest st earliest u :
  lockouts (clamp_root st earliest u) = lockouts u
  /\ vsu_hash (clamp_root st earliest u) = vsu_hash u
  /\ vsu_timestamp (clamp_root st earliest u) = vsu_timestamp u.
Proof. unfold clamp_root. repeat case_match; done. Qed.

(** Both phases together. *)
Lemma update_loop_spec st sh earliest eh u :
  last sh = Some (earliest, eh) -> lockouts u <> [] ->
  (forall r, root u = Some r -> r < earliest -> root_slot st = Some r) ->
  exists res, update_loop st earliest u sh = Returns res
    /\ (forall i j f, res = Ok (i, j, f) -> i = length (lockouts u) ->
          consumed st sh earliest None 0 [] (lockouts u) j f
          /\ forall r, root u = Some r -> (exists h, (r, h) ∈ sh) \/ r < earliest).
Proof.
  intros He Hne Hroot. unfold update_loop. destruct (root u) as [r|] eqn:Er.
  - destruct (root_loop_spec sh earliest eh He (root_slot st) r (rev sh) (length sh)) as (res & -> & Hres);
      [apply remaining_all|eauto|]. cbn [mbind outcome_bind].
    destruct res as [[[hs j]|]|e].
    + destruct (Hres hs j eq_refl) as [Hrem Hr].
      destruct (slots_loop_spec st sh earliest eh He (lockouts u) None 0 [] hs j Hrem) as (res2 & E2 & H2).
      exists res2. split; [done|]. intros i j' f Hok Hi. split; [by apply (H2 i)|].
      intros r' [= <-]. done.
    + eexists. split; [done|]. intros i j f [= <- <- <-] Hi. by destruct (lockouts u).
    + eexists. split; [done|]. done.
  - destruct (slots_loop_spec st sh earliest eh He (lockouts u) None 0 [] (rev sh) (length sh))
      as (res2 & E2 & H2); [apply remaining_all|].
    exists res2. split; [done|]. intros i j' f Hok Hi. split; [by apply (H2 i)|done].
Qed.

(** What an accepted update satisfies. *)
Record update_ok (st : VoteState) (sh : list (Slot * Hash)) (u u' : VoteStateUpdate)
    (newest : Lockout) : Prop := {
  uo_newest : last (lockouts u) = Some newest;
  uo_newer : newer (last_voted_slot st) (slot newest);
  uo_hash : (slot newest, vsu_hash u) ∈ sh;
  uo_increase : slots_increase None (map slot (lockouts u));
  uo_vouched : Forall (vouched st sh) (lockouts u');
  uo_kept : last (lockouts u') = Some newest;
  uo_subset : forall l, l ∈ lockouts u' -> l ∈ lockouts u;
  uo_root : forall r, root u' = Some r -> (exists h, (r, h) ∈ sh) \/ root_slot st = Some r;
  uo_timestamp : vsu_timestamp u' = vsu_timestamp u;
}.

Lemma check_update_spec st u sh :
  exists u' r, check_update_vote_state_slots_are_valid st u sh = Returns (u', r)
    /\ (r = Ok tt -> exists newest, update_ok st sh u u' newest).
Proof.
  unfold check_update_vote_state_slots_are_valid.
  destruct (last (lockouts u)) as [newest|] eqn:El; [|by eexists _, _].
  destruct (match last_voted_slot st with Some s => slot newest <=? s | None => false end) eqn:En;
    [by eexists _, _|].
  destruct (last sh) as [[earliest eh]|] eqn:Es; [|by eexists _, _].
  destruct (Z.ltb_spec (slot newest) earliest) as [|Hge]; [by eexists _, _|].
  destruct (clamp_root_rest st earliest u) as (Hls & Hh & Hts). cbv zeta.
  destruct (update_loop_spec st sh earliest eh (clamp_root st earliest u) Es) as (res & -> & Hres).
  { rewrite Hls. intros Hnil. by rewrite Hnil in El. }
  { intros r. apply clamp_root_old. }
  cbn [mbind outcome_bind]. destruct res as [[[i j] f]|e]; [|by eexists _, _].
  specialize (Hres i j f eq_refl). unfold finish_update. rewrite Hls in *.
  destruct (Nat.eqb_spec i (length (lockouts u))) as [Hi|]; cbn [negb]; [|by eexists _, _].
  destruct (Hres Hi) as [[Hinc Hnew (new & Hf & _ & Hv & Hl)] Hroot].
  destruct (Hnew newest El Hge) as [h Hj]. rewrite Hj. cbn [unwrap mbind outcome_bind].
  rewrite Z.eqb_refl. cbn [assert_]. rewrite Hh.
  destruct (N.eqb_spec h (vsu_hash u)) as [->|]; cbn [negb]; [|by eexists _, _].
  eexists _, _. split; [done|]. intros _. exists newest. rewrite Hf.
  split; cbn [lockouts root vsu_timestamp vsu_with_lockouts]; rewrite ?Hls; try done.
  - unfold newer. destruct (last_voted_slot st); [|done]. by apply Z.leb_gt.
  - by eapply list_elem_of_lookup_2.
  - by apply Hl.
  - intros l. apply retain_elem.
  - intros r Hr. destruct (Hroot r Hr) as [?|Hlt]; [by left|right]. by eapply clamp_root_old.
Qed.

(** ** Lemmas: the loop over a submitted vote *)

Lemma vote_slots_loop_cons lv s ss h_slot hh hs j :
  vote_slots_loop lv (s :: ss) ((h_slot, hh) :: hs) j =
    if match lv with Some l => s <=? l | None => false end
    then vote_slots_loop lv ss ((h_slot, hh) :: hs) j
    else if negb (s =? h_slot) then vote_slots_loop lv (s :: ss) hs (j - 1)
    else vote_slots_loop lv ss hs (j - 1).
Proof. done. Qed.

Lemma not_newer lv s :
  match lv with Some l => s <=? l | None => false end = true <-> ~ newer lv s.
Proof.
  unfold newer. destruct lv as [l|]; [|split; [done|tauto]]. rewrite Z.leb_le. lia.
Qed.

Lemma slots_increase_above p ss s : slots_increase (Some p) ss -> s ∈ ss -> p < s.
Proof.
  revert p. induction ss as [|x ss IH]; intros p; cbn; [by intros _ ?%not_elem_of_nil|].
  intros [Hlt Hi] [->|Hs]%elem_of_cons; [done|]. pose proof (IH _ Hi Hs). lia.
Qed.

Lemma slots_increase_weaken p ss : slots_increase p ss -> slots_increase None ss.
Proof. destruct ss; cbn; tauto. Qed.

#[global] Instance newer_dec lv s : Decision (newer lv s).
Proof. unfold newer. destruct lv; apply _. Defined.

Lemma newer_mono lv s s' : newer lv s -> s <= s' -> newer lv s'.
Proof. unfold newer. destruct lv; [lia|done]. Qed.

Lemma slots_increase_last p ss l s : slots_increase p ss -> last ss = Some l -> s ∈ ss -> s <= l.
Proof.
  revert p. induction ss as [|x ss IH]; intros p Hi Hl Hs; [done|].
  destruct Hi as [_ Hi]. destruct ss as [|y ss].
  - cbn in Hl. injection Hl as ->. apply list_elem_of_singleton in Hs as ->. lia.
  - rewrite last_cons_cons in Hl. apply elem_of_cons in Hs as [->|Hs]; [|by eapply IH].
    assert (x < l); [|lia]. eapply slots_increase_above; [exact Hi|]. by apply last_Some_elem_of.
Qed.

Section VoteLoop.
Variables (lv : option Slot) (sh : list (Slot * Hash)).

Lemma vote_slots_loop_bound ss : forall hs j rest j',
  remaining sh hs j -> vote_slots_loop lv ss hs j = (rest, j') -> (j' <= j)%nat.
Proof.
  induction ss as [|s ss IHs]; intros hs j rest j' Hrem E.
  { destruct hs; cbn in E; injection E as <- <-; lia. }
  revert j Hrem E. induction hs as [|[a ah] hs IHh]; intros j Hrem E.
  { cbn in E. injection E as <- <-. lia. }
  destruct (remaining_tail _ _ _ _ Hrem) as [Hrem' _]. rewrite vote_slots_loop_cons in E.
  destruct (match lv with Some l => s <=? l | None => false end); [by eapply IHs|].
  destruct (negb (s =? a)); [specialize (IHh _ Hrem' E)|specialize (IHs _ _ _ _ Hrem' E)]; lia.
Qed.

(** When every slot of the vote is consumed: the newer ones are in the
    history, and the index ends on the last one if it is newer. *)
Lemma vote_slots_loop_sound ss : forall hs j j',
  remaining sh hs j -> vote_slots_loop lv ss hs j = ([], j') ->
  (forall s, s ∈ ss -> newer lv s -> exists h, (s, h) ∈ sh)
  /\ (forall s, last ss = Some s -> newer lv s -> exists h, sh !! j' = Some (s, h))
  /\ ((forall s, s ∈ ss -> ~ newer lv s) -> j' = j).
Proof.
  induction ss as [|s ss IHs]; intros hs j j' Hrem E.
  { destruct hs; cbn in E; injection E as <-; split_and!; try done;
      intros ? ?%not_elem_of_nil; done. }
  revert j Hrem E. induction hs as [|[a ah] hs IHh]; intros j Hrem E; [done|].
  destruct (remaining_tail _ _ _ _ Hrem) as [Hrem' Hlook]. rewrite vote_slots_loop_cons in E.
  destruct (match lv with Some l => s <=? l | None => false end) eqn:Enew.
  - apply not_newer in Enew. destruct (IHs _ _ _ Hrem E) as (H1 & H2 & H3). split_and!.
    + intros s' [->|Hs']%elem_of_cons Hn; [done|eauto].
    + intros s' Hl Hn. destruct ss as [|x ss]; [cbn in Hl; injection Hl as <-; done|eauto].
    + intros Hall. apply H3. intros s' Hs'. apply Hall. by right.
  - assert (newer lv s) as Hnew.
    { destruct lv; [|done]. apply Z.leb_gt in Enew. done. }
    destruct (Z.eqb_spec s a) as [->|]; cbn [negb] in E.
    + destruct (IHs _ _ _ Hrem' E) as (H1 & H2 & H3). split_and!.
      * intros s' [->|Hs']%elem_of_cons Hn; [|eauto]. exists ah. by eapply list_elem_of_lookup_2.
      * intros s' Hl Hn. destruct ss as [|x ss]; [|eauto]. cbn in Hl. injection Hl as <-.
        exists ah. destruct hs; cbn in E; injection E as <-; done.
      * intros Hall. exfalso. apply (Hall a); [by left|done].
    + destruct (IHh _ Hrem' E) as (H1 & H2 & _). split_and!; [done|done|].
      intros Hall. exfalso. apply (Hall s); [by left|done].
Qed.

End VoteLoop.

(** The check of a vote returns for every input; when it accepts, some slot
    is newer than the last vote, and the newer ones are in the history. *)
Lemma check_slots_spec st ss hash sh :
  exists r, check_slots_are_valid st ss hash sh = Returns r
    /\ (r = Ok tt ->
        (exists s, s ∈ ss /\ newer (last_voted_slot st) s)
        /\ (forall s, last ss = Some s -> newer (last_voted_slot st) s -> (s, hash) ∈ sh)
        /\ forall s, s ∈ ss -> newer (last_voted_slot st) s -> exists h, (s, h) ∈ sh).
Proof.
  unfold check_slots_are_valid.
  destruct (vote_slots_loop (last_voted_slot st) ss (rev sh) (length sh)) as [rest j] eqn:E.
  pose proof (vote_slots_loop_bound _ sh _ _ _ _ _ (remaining_all sh) E) as Hj.
  destruct (Nat.eqb_spec j (length sh)) as [|Hne]; [by eexists|].
  destruct rest as [|]; [|by eexists].
  destruct (lookup_lt_is_Some_2 sh j ltac:(lia)) as [[hs h] Hh]. rewrite Hh. cbn.
  eexists. split; [done|]. destruct (N.eqb_spec h hash) as [->|]; cbn; [|done]. intros _.
  destruct (vote_slots_loop_sound _ sh _ _ _ _ (remaining_all sh) E) as (H1 & H2 & H3).
  split_and!; [|intros s Hl Hn|done].
  - destruct (Exists_dec (newer (last_voted_slot st)) ss) as [He|He]; [by apply Exists_exists in He|].
    exfalso. apply Hne, H3. intros s Hs Hn. apply He, Exists_exists. eauto.
  - destruct (H2 s Hl Hn) as [h' Hh']. rewrite Hh in Hh'. injection Hh' as -> ->.
    by eapply list_elem_of_lookup_2.
Qed.

(** ** Properties *)

(** The check of a submitted tower never panics and is sound, for every vote
    state, update and slot hash list: each assertion and index in it
    succeeds.  If it answers [Ok], the newest proposed slot is newer than the
    last vote and occurs in the slot hashes with the proposed hash, the
    proposed slots strictly increase, every retained lockout is in the slot
    hashes or already in the tower, the newest lockout is retained (so what
    is passed on is not empty), and the root is in the slot hashes or is the
    current root. *)
Theorem check_update_total_and_sound (st : VoteState) (u : VoteStateUpdate)
    (sh : list (Slot * Hash)) :
  exists u' r, check_update_vote_state_slots_are_valid st u sh = Returns (u', r)
    /\ (r = Ok tt -> exists newest, update_ok st sh u u' newest).
Proof. apply check_update_spec. Qed.

(** The check of a submitted vote never panics and is sound.  For strictly
    increasing vote slots that pass, the newest slot is newer than the last
    vote and occurs in the slot hashes with the vote's hash, and every slot
    newer than the last vote occurs in the slot hashes. *)
Theorem check_slots_sound (st : VoteState) (ss : list Slot) (hash : Hash)
    (sh : list (Slot * Hash)) (Hinc : slots_increase None ss) :
  exists r, check_slots_are_valid st ss hash sh = Returns r
    /\ (r = Ok tt ->
        (exists s, last ss = Some s /\ newer (last_voted_slot st) s /\ (s, hash) ∈ sh)
        /\ forall s, s ∈ ss -> newer (last_voted_slot st) s -> exists h, (s, h) ∈ sh).
Proof.
  destruct (check_slots_spec st ss hash sh) as (r & -> & Hr). exists r. split; [done|]. intros Hok.
  destruct (Hr Hok) as ((s0 & Hs0 & Hn0) & Hlast & Hall). split; [|done].
  destruct (last ss) as [s|] eqn:El; [|apply last_None in El; subst; by apply not_elem_of_nil in Hs0].
  assert (newer (last_voted_slot st) s) as Hnew.
  { eapply newer_mono; [exact Hn0|]. by eapply slots_increase_last. }
  exists s. auto.
Qed.

Lemma check_slots_sound_witness :
  exists r, check_slots_are_valid vote_state_default [2; 4] 44%N [(5, 55%N); (4, 44%N); (2, 22%N)]
              = Returns r
    /\ (r = Ok tt ->
        (exists s, last [2; 4] = Some s /\ newer (last_voted_slot vote_state_default) s
           /\ (s, 44%N) ∈ [(5, 55%N); (4, 44%N); (2, 22%N)])
        /\ forall s, s ∈ [2; 4] -> newer (last_voted_slot vote_state_default) s ->
           exists h, (s, h) ∈ [(5, 55%N); (4, 44%N); (2, 22%N)]).
Proof. apply check_slots_sound. cbn. lia. Defined.

(** The binary search that looks a slot up in the tower is membership, for
    every well-formed tower. *)
Theorem contains_slot_iff (st : VoteState) (c : Slot) (Hwf : tower_wf (votes st)) :
  contains_slot st c = true <-> exists v, v ∈ votes st /\ slot v = c.
Proof. apply contains_slot_elem, Hwf. Qed.

Lemma contains_slot_iff_witness :
  contains_slot (with_votes vote_state_default [{| slot := 1; confirmation_count := 2 |};
    {| slot := 2; confirmation_count := 1 |}] None) 2 = true <->
  exists v, v ∈ [{| slot := 1; confirmation_count := 2 |}; {| slot := 2; confirmation_count := 1 |}]
    /\ slot v = 2.
Proof.
  apply (contains_slot_iff (with_votes vote_state_default [{| slot := 1; confirmation_count := 2 |};
    {| slot := 2; confirmation_count := 1 |}] None) 2).
  split; [|cbn; unfold MAX_LOCKOUT_HISTORY; lia].
  repeat split; vm_compute; (reflexivity || discriminate).
Defined.
