(* ===== verification/VoteProgram.v ===== *)
(** * The vote program's instruction handlers

    Models the account-level functions of
    programs/vote/src/vote_state/mod.rs and vote_state_versions.rs: a vote
    account holds a serialized, versioned vote state; each handler reads it,
    checks signatures, updates it and writes it back.  The byte format is
    bincode's, which is not part of the sources: the class [Bincode]. *)

From S2P Require Import Prelude Keys Errors Account Invocation AuthorizedVoters VoteState VoteTower VoteChecks.

(** ** Versioned states *)

Record VoteState0_23_5 := {
  v0_node_pubkey : Pubkey;
  v0_authorized_voter : Pubkey;
  v0_authorized_voter_epoch : Epoch;
  v0_prior_voters : list (Pubkey * Epoch * Epoch * Slot) * nat;
  v0_authorized_withdrawer : Pubkey;
  v0_commission : Z;
  v0_votes : list Lockout;
  v0_root_slot : option Slot;
  v0_epoch_credits : list (Epoch * Z * Z);
  v0_last_timestamp : BlockTimestamp;
}.

Inductive VoteStateVersions :=
| V0_23_5 (state : VoteState0_23_5)
| Current (state : VoteState).

Definition convert_to_current (versioned : VoteStateVersions) : VoteState :=
  match versioned with
  | V0_23_5 state =>
      {| node_pubkey := v0_node_pubkey state;
         authorized_withdrawer := v0_authorized_withdrawer state;
         commission := v0_commission state;
         votes := v0_votes state;
         root_slot := v0_root_slot state;
         authorized_voters := av_new (v0_authorized_voter_epoch state) (v0_authorized_voter state);
         prior_voters := circ_default (pubkey_default, 0, 0);
         epoch_credits := v0_epoch_credits state;
         last_timestamp := v0_last_timestamp state |}
  | Current state => state
  end.

Definition is_uninitialized (versioned : VoteStateVersions) : bool :=
  match versioned with
  | V0_23_5 vote_state => N.eqb (v0_authorized_voter vote_state) pubkey_default
  | Current vote_state => av_is_empty (authorized_voters vote_state)
  end.

(** ** Handlers *)

Definition with_withdrawer (st : VoteState) (k : Pubkey) : VoteState :=
  {| node_pubkey := node_pubkey st; authorized_withdrawer := k;
     commission := commission st; votes := votes st; root_slot := root_slot st;
     authorized_voters := authorized_voters st; prior_voters := prior_voters st;
     epoch_credits := epoch_credits st; last_timestamp := last_timestamp st |}.

Definition with_node_pubkey (st : VoteState) (k : Pubkey) : VoteState :=
  {| node_pubkey := k; authorized_withdrawer := authorized_withdrawer st;
     commission := commission st; votes := votes st; root_slot := root_slot st;
     authorized_voters := authorized_voters st; prior_voters := prior_voters st;
     epoch_credits := epoch_credits st; last_timestamp := last_timestamp st |}.

Definition with_commission (st : VoteState) (c : Z) : VoteState :=
  {| node_pubkey := node_pubkey st; authorized_withdrawer := authorized_withdrawer st;
     commission := c; votes := votes st; root_slot := root_slot st;
     authorized_voters := authorized_voters st; prior_voters := prior_voters st;
     epoch_credits := epoch_credits st; last_timestamp := last_timestamp st |}.

(** The largest number of epochs ahead a leader schedule is known. *)
Definition MAX_LEADER_SCHEDULE_EPOCH_OFFSET : nat := 3.

(** Its voters' keys are random in the source; any keys give the same
    size. *)
Definition get_max_sized_vote_state : VoteState :=
  let voters := fold_left (fun av i => av_insert av (Z.of_nat i) 1%N)
                  (seq 0 (S MAX_LEADER_SCHEDULE_EPOCH_OFFSET)) av_default in
  let st := with_votes vote_state_default
              (replicate MAX_LOCKOUT_HISTORY {| slot := 0; confirmation_count := 0 |})
              (Some U64_MAX) in
  with_voters (with_credits st (replicate MAX_EPOCH_CREDITS_HISTORY (0, 0, 0))) voters
    (prior_voters st).

Definition verify_authorized_signer (authorized : Pubkey) (signers : gset N)
    : result InstructionError unit :=
  if bool_decide (authorized ∈ signers) then Ok tt else Err IE.MissingRequiredSignature.

Section Handlers.
Context `{Bincode VoteStateVersions}.

Definition size_of : nat := length (serialize (Current get_max_sized_vote_state)).

(** [may_change] stands for the feature
    [vote_withdraw_authority_may_change_authorized_voter]. *)
Definition authorize (vote_account : AccountSharedData) (authorized : Pubkey)
    (vote_authorize : VoteAuthorize) (signers : gset N) (clock : Clock) (may_change : bool)
    : outcome (result InstructionError AccountSharedData) :=
  match state vote_account with
  | Err e => Returns (Err e)
  | Ok versioned =>
      let vote_state := convert_to_current versioned in
      updated ← match vote_authorize with
        | Voter =>
            let authorized_withdrawer_signer :=
              if may_change
              then is_ok (verify_authorized_signer (authorized_withdrawer vote_state) signers)
              else false in
            set_new_authorized_voter vote_state authorized (clk_epoch clock)
              (wrap64 (clk_leader_schedule_epoch clock + 1))
              (fun epoch_authorized_voter =>
                 if authorized_withdrawer_signer : bool then Ok tt
                 else verify_authorized_signer epoch_authorized_voter signers)
        | Withdrawer =>
            Returns (_ ← verify_authorized_signer (authorized_withdrawer vote_state) signers;
                     Ok (with_withdrawer vote_state authorized))
        end;
      Returns (vote_state ← updated; set_state vote_account (Current vote_state))
  end.

Definition update_validator_identity (vote_account : AccountSharedData) (node : Pubkey)
    (signers : gset N) : result InstructionError AccountSharedData :=
  versioned ← state vote_account;
  let vote_state := convert_to_current versioned in
  _ ← verify_authorized_signer (authorized_withdrawer vote_state) signers;
  _ ← verify_authorized_signer node signers;
  set_state vote_account (Current (with_node_pubkey vote_state node)).

Definition update_commission (vote_account : AccountSharedData) (c : Z) (signers : gset N)
    : result InstructionError AccountSharedData :=
  versioned ← state vote_account;
  let vote_state := convert_to_current versioned in
  _ ← verify_authorized_signer (authorized_withdrawer vote_state) signers;
  set_state vote_account (Current (with_commission vote_state c)).

(** The accounts at the point of return, also on an error: the runtime
    discards them then. *)
Definition withdraw (accounts : accounts_store) (vote_key : Pubkey) (lamports : Z)
    (to_key : Pubkey) (signers : gset N) (rent_sysvar : option Rent) (clock : option Clock)
    : accounts_store * result InstructionError unit :=
  let vote_account := accounts vote_key in
  match state vote_account with
  | Err e => (accounts, Err e)
  | Ok versioned =>
  let vote_state := convert_to_current versioned in
  match verify_authorized_signer (authorized_withdrawer vote_state) signers with
  | Err e => (accounts, Err e)
  | Ok _ =>
  match checked_sub64 (acc_lamports vote_account) lamports with
  | None => (accounts, Err IE.InsufficientFunds)
  | Some remaining_balance =>
  let checked :=
    if remaining_balance =? 0 then
      let reject_active_vote_account_close :=
        match clock, last (epoch_credits vote_state) with
        | Some clock, Some (last_epoch_with_credits, _, _) =>
            sat_sub64 (clk_epoch clock) last_epoch_with_credits <? 2
        | _, _ => false
        end in
      if reject_active_vote_account_close then Err (vote_error_into VE.ActiveVoteAccountClose)
      else (a ← set_state vote_account (Current vote_state_default);
            Ok (store_set accounts vote_key a))
    else
      match rent_sysvar with
      | Some rent =>
          if remaining_balance <? minimum_balance rent (length (acc_data vote_account))
          then Err IE.InsufficientFunds else Ok accounts
      | None => Ok accounts
      end in
  match checked with
  | Err e => (accounts, Err e)
  | Ok accounts =>
  match checked_sub_lamports (accounts vote_key) lamports with
  | Err e => (accounts, Err (lamports_error_into e))
  | Ok a =>
  let accounts := store_set accounts vote_key a in
  match checked_add_lamports (accounts to_key) lamports with
  | Err e => (accounts, Err (lamports_error_into e))
  | Ok a => (store_set accounts to_key a, Ok tt)
  end end end end end end.

Definition initialize_account (vote_account : AccountSharedData) (vote_init : VoteInit)
    (signers : gset N) (clock : Clock) : result InstructionError AccountSharedData :=
  if negb (length (acc_data vote_account) =? size_of)%nat then Err IE.InvalidAccountData
  else
    versioned ← state vote_account;
    if negb (is_uninitialized versioned) then Err IE.AccountAlreadyInitialized
    else
      _ ← verify_authorized_signer (vi_node_pubkey vote_init) signers;
      set_state vote_account (Current (vote_state_new vote_init clock)).

Definition verify_and_get_vote_state (vote_account : AccountSharedData) (clock : Clock)
    (signers : gset N) : outcome (result InstructionError VoteState) :=
  match state vote_account with
  | Err e => Returns (Err e)
  | Ok versioned =>
      if is_uninitialized versioned then Returns (Err IE.UninitializedAccount)
      else
        r ← get_and_update_authorized_voter (convert_to_current versioned) (clk_epoch clock);
        Returns ('(authorized_voter, vote_state) ← r;
                 _ ← verify_authorized_signer authorized_voter signers;
                 Ok vote_state)
  end.

(** [vote.slots.iter().max()]. *)
Definition max_slot (ss : list Slot) : option Slot :=
  match ss with [] => None | s :: rest => Some (fold_left Z.max rest s) end.

(** [filter_active] stands for the feature [filter_votes_outside_slot_hashes]. *)
Definition process_vote (vote_account : AccountSharedData) (slot_hashes : list (Slot * Hash))
    (clock : Clock) (vote : Vote) (signers : gset N) (filter_active : bool)
    : outcome (result InstructionError AccountSharedData) :=
  r ← verify_and_get_vote_state vote_account clock signers;
  match r with
  | Err e => Returns (Err e)
  | Ok vote_state =>
      '(vote_state, r) ← process_vote_state vote_state vote slot_hashes (clk_epoch clock)
                           (Some filter_active);
      Returns (_ ← map_err vote_error_into r;
               vote_state ← map_err vote_error_into
                 match vote_timestamp vote with
                 | Some timestamp =>
                     slot ← ok_or (max_slot (slots vote)) VE.EmptySlots;
                     process_timestamp vote_state slot timestamp
                 | None => Ok vote_state
                 end;
               set_state vote_account (Current vote_state))
  end.

Definition process_vote_state_update (vote_account : AccountSharedData)
    (slot_hashes : list (Slot * Hash)) (clock : Clock) (vote_state_update : VoteStateUpdate)
    (signers : gset N) : outcome (result InstructionError AccountSharedData) :=
  r ← verify_and_get_vote_state vote_account clock signers;
  match r with
  | Err e => Returns (Err e)
  | Ok vote_state =>
      '(u, r) ← check_update_vote_state_slots_are_valid vote_state vote_state_update slot_hashes;
      match r with
      | Err e => Returns (Err (vote_error_into e))
      | Ok _ =>
          '(vote_state, r) ← process_new_vote_state vote_state (lockouts u) (root u)
                               (vsu_timestamp u) (clk_epoch clock);
          Returns (_ ← map_err vote_error_into r; set_state vote_account (Current vote_state))
      end
  end.

Definition clock_default : Clock :=
  {| clk_slot := 0; clk_epoch_start_timestamp := 0; clk_epoch := 0;
     clk_leader_schedule_epoch := 0; clk_unix_timestamp := 0 |}.

(** [VoteState::to(..)]: serializes into the account's data; [None] when it
    does not fit. *)
Definition vote_state_to (versioned : VoteStateVersions) (a : AccountSharedData)
    : option AccountSharedData :=
  result_ok (set_state a versioned).

Definition create_account_with_authorized (node authorized_voter withdrawer : Pubkey)
    (c lamports : Z) : outcome AccountSharedData :=
  let vote_account := account_new lamports size_of vote_program_id in
  let vote_state := vote_state_new
    {| vi_node_pubkey := node; vi_authorized_voter := authorized_voter;
       vi_authorized_withdrawer := withdrawer; vi_commission := c |} clock_default in
  unwrap (vote_state_to (Current vote_state) vote_account).

End Handlers.
