(* ===== verification/VoteProcessor.v ===== *)
(** * The vote program's processor

    Models programs/vote/src/vote_processor.rs: decoding an instruction,
    fetching the accounts and sysvars it names, and dispatching to the
    handlers of VoteProgram.v; with [Pubkey::create_with_seed]
    (sdk/program/src/pubkey.rs) for the instructions on derived
    authorities. *)

From S2P Require Import Prelude Keys Errors Account Invocation AuthorizedVoters VoteState VoteProgram.

(** ** Instructions *)

Record VoteAuthorizeWithSeedArgs := {
  ws_authorization_type : VoteAuthorize;
  ws_current_authority_derived_key_owner : Pubkey;
  ws_current_authority_derived_key_seed : list Z;
  ws_new_authority : Pubkey;
}.

Record VoteAuthorizeCheckedWithSeedArgs := {
  cws_authorization_type : VoteAuthorize;
  cws_current_authority_derived_key_owner : Pubkey;
  cws_current_authority_derived_key_seed : list Z;
}.

Inductive VoteInstruction :=
| InitializeAccount (vote_init : VoteInit)
| Authorize (pubkey : Pubkey) (vote_authorize : VoteAuthorize)
| VI_Vote (vote : Vote)
| Withdraw (lamports : Z)
| UpdateValidatorIdentity
| UpdateCommission (commission : Z)
| VoteSwitch (vote : Vote) (hash : Hash)
| AuthorizeChecked (vote_authorize : VoteAuthorize)
| UpdateVoteState (vote_state_update : VoteStateUpdate)
| UpdateVoteStateSwitch (vote_state_update : VoteStateUpdate) (hash : Hash)
| AuthorizeWithSeed (args : VoteAuthorizeWithSeedArgs)
| AuthorizeCheckedWithSeed (args : VoteAuthorizeCheckedWithSeedArgs).

(** The decoding of instruction data (bincode). *)
Class InstructionCodec := {
  decode_instruction : list Z -> option VoteInstruction;
}.

(** ** The processor *)

Definition verify_rent_exemption (a : AccountSharedData) (rent : Rent)
    : result InstructionError unit :=
  if negb (is_exempt rent (acc_lamports a) (length (acc_data a))) then Err IE.InsufficientFunds
  else Ok tt.

(** Writes the updated account of a handler back. *)
Definition finish (accounts : accounts_store) (key : Pubkey)
    (r : result InstructionError AccountSharedData) : instruction_result :=
  match r with
  | Ok a => (store_set accounts key a, Ok tt)
  | Err e => (accounts, Err e)
  end.

Section Processor.
Context `{Bincode VoteStateVersions} `{InstructionCodec} `{SeedHash}.

Definition process_authorize_with_seed_instruction (keyed_accounts : list KeyedAccount)
    (first_instruction_account : nat) (vote_account : AccountSharedData)
    (new_authority : Pubkey) (authorization_type : VoteAuthorize)
    (current_authority_derived_key_owner : Pubkey) (current_authority_derived_key_seed : list Z)
    (clock : Clock) (feature_set : FeatureSet)
    : outcome (result InstructionError AccountSharedData) :=
  match
    base_account ← keyed_account_at_index keyed_accounts (first_instruction_account + 2);
    match signer_key base_account with
    | Some base_pubkey =>
        k ← map_err pubkey_error_into
              (create_with_seed base_pubkey current_authority_derived_key_seed
                 current_authority_derived_key_owner);
        Ok ({[ k ]} : gset N)
    | None => Ok (∅ : gset N)
    end
  with
  | Err e => Returns (Err e)
  | Ok expected_authority_keys =>
      authorize vote_account new_authority authorization_type expected_authority_keys clock
        (is_active feature_set vote_withdraw_authority_may_change_authorized_voter)
  end.

Definition handle (ctx : InvokeContext) (me : KeyedAccount)
    (r : outcome (result InstructionError AccountSharedData)) : outcome instruction_result :=
  r ← r; Returns (finish (ic_accounts ctx) (ka_key me) r).

(** The [match] of [process_instruction] over the decoded instruction. *)
Definition dispatch (first : nat) (ctx : InvokeContext) (me : KeyedAccount) (signers : gset N)
    (instruction : VoteInstruction) : outcome instruction_result :=
  let vote_account := ic_accounts ctx (ka_key me) in
  let account_at i := keyed_account_at_index (ic_keyed_accounts ctx) (first + i) in
  let features := ic_feature_set ctx in
  let may_change := is_active features vote_withdraw_authority_may_change_authorized_voter in
  match instruction with
  | InitializeAccount vote_init =>
      fetch ctx (ka ← account_at 1%nat; sysvar_rent ka ctx) (fun rent =>
      fetch ctx (verify_rent_exemption vote_account rent) (fun _ =>
      fetch ctx (ka ← account_at 2%nat; sysvar_clock ka ctx) (fun clock =>
      handle ctx me (Returns (initialize_account vote_account vote_init signers clock)))))
  | Authorize voter_pubkey vote_authorize =>
      fetch ctx (ka ← account_at 1%nat; sysvar_clock ka ctx) (fun clock =>
      handle ctx me (authorize vote_account voter_pubkey vote_authorize signers clock may_change))
  | AuthorizeWithSeed args =>
      if negb (is_active features vote_authorize_with_seed) then fails ctx IE.InvalidInstructionData
      else
        fetch ctx (ka ← account_at 1%nat; sysvar_clock ka ctx) (fun clock =>
        handle ctx me (process_authorize_with_seed_instruction (ic_keyed_accounts ctx) first
          vote_account (ws_new_authority args) (ws_authorization_type args)
          (ws_current_authority_derived_key_owner args)
          (ws_current_authority_derived_key_seed args) clock features))
  | AuthorizeCheckedWithSeed args =>
      if negb (is_active features vote_authorize_with_seed) then fails ctx IE.InvalidInstructionData
      else
        fetch ctx (ka ← account_at 3%nat; ok_or (signer_key ka) IE.MissingRequiredSignature)
          (fun new_authority =>
        fetch ctx (ka ← account_at 1%nat; sysvar_clock ka ctx) (fun clock =>
        handle ctx me (process_authorize_with_seed_instruction (ic_keyed_accounts ctx) first
          vote_account new_authority (cws_authorization_type args)
          (cws_current_authority_derived_key_owner args)
          (cws_current_authority_derived_key_seed args) clock features)))
  | UpdateValidatorIdentity =>
      fetch ctx (account_at 1%nat) (fun ka =>
      handle ctx me (Returns (update_validator_identity vote_account (ka_key ka) signers)))
  | UpdateCommission commission =>
      handle ctx me (Returns (update_commission vote_account commission signers))
  | VI_Vote vote | VoteSwitch vote _ =>
      fetch ctx (ka ← account_at 1%nat; sysvar_slot_hashes ka ctx) (fun slot_hashes =>
      fetch ctx (ka ← account_at 2%nat; sysvar_clock ka ctx) (fun clock =>
      handle ctx me (process_vote vote_account slot_hashes clock vote signers
        (is_active features filter_votes_outside_slot_hashes))))
  | UpdateVoteState vote_state_update | UpdateVoteStateSwitch vote_state_update _ =>
      if is_active features allow_votes_to_directly_update_vote_state then
        fetch ctx (get_slot_hashes (ic_sysvar_cache ctx)) (fun slot_hashes =>
        fetch ctx (get_clock (ic_sysvar_cache ctx)) (fun clock =>
        handle ctx me
          (process_vote_state_update vote_account slot_hashes clock vote_state_update signers)))
      else fails ctx IE.InvalidInstructionData
  | Withdraw lamports =>
      fetch ctx (account_at 1%nat) (fun to =>
      fetch ctx (if is_active features reject_non_rent_exempt_vote_withdraws
                 then (r ← get_rent (ic_sysvar_cache ctx); Ok (Some r)) else Ok None)
        (fun rent_sysvar =>
      fetch ctx (if is_active features reject_vote_account_close_unless_zero_credit_epoch
                 then (c ← get_clock (ic_sysvar_cache ctx); Ok (Some c)) else Ok None)
        (fun clock =>
      Returns (withdraw (ic_accounts ctx) (ka_key me) lamports (ka_key to) signers rent_sysvar
        clock))))
  | AuthorizeChecked vote_authorize =>
      if is_active features vote_stake_checked_instructions then
        fetch ctx (ka ← account_at 3%nat; ok_or (signer_key ka) IE.MissingRequiredSignature)
          (fun voter_pubkey =>
        fetch ctx (ka ← account_at 1%nat; sysvar_clock ka ctx) (fun clock =>
        handle ctx me
          (authorize vote_account voter_pubkey vote_authorize signers clock may_change)))
      else fails ctx IE.InvalidInstructionData
  end.

Definition process_instruction (first_instruction_account : nat) (data : list Z)
    (ctx : InvokeContext) : outcome instruction_result :=
  fetch ctx (keyed_account_at_index (ic_keyed_accounts ctx) first_instruction_account) (fun me =>
  if negb (N.eqb (acc_owner (ic_accounts ctx (ka_key me))) vote_program_id)
  then fails ctx IE.InvalidAccountOwner
  else
    let signers := get_signers (drop first_instruction_account (ic_keyed_accounts ctx)) in
    fetch ctx (ok_or (decode_instruction data) IE.InvalidInstructionData) (fun instruction =>
    dispatch first_instruction_account ctx me signers instruction)).

End Processor.
