(* ===== verification/VoteSafety.v ===== *)
(** * Safety of the vote program

    Every instruction of the vote program returns, whatever its data and
    accounts, and keeps every vote account well formed; votes need the
    authorized voter's signature and withdrawals the withdrawer's; lamports
    are conserved; credits and commissions are computed as documented. *)

From S2P Require Import Prelude Keys Errors Account Invocation AuthorizedVoters VoteState VoteTower VoteChecks VoteProgram VoteProcessor.

(** ** Specification *)

(** The invariant of a vote state: a well-formed tower, and authorized voters
    for epochs up to [bound], the epoch after the last leader schedule. *)
Definition state_ok (bound : Epoch) (st : VoteState) : Prop :=
  vote_state_wf st /\ av_wf (authorized_voters st)
  /\ forall e, is_Some (av_map (authorized_voters st) !! e) -> e <= bound.

(** The invariant of an account: if its data is a vote state, a good one. *)
Definition account_ok `{Bincode VoteStateVersions} (bound : Epoch) (a : AccountSharedData) : Prop :=
  forall v, deserialize (acc_data a) = Some v -> state_ok bound (convert_to_current v).

(** The epoch after the last leader schedule. *)
Definition voter_bound (clock : Clock) : Epoch := wrap64 (clk_leader_schedule_epoch clock + 1).

Definition clock_ok (clock : Clock) : Prop := 0 <= clk_epoch clock <= voter_bound clock.

Definition hashes_ok (sh : list (Slot * Hash)) : Prop := Forall (fun p => slot_small p.1) sh.

(** The slots and counts of an update are unsigned. *)
Definition lockouts_typed (ls : list Lockout) : Prop :=
  Forall (fun v => 0 <= confirmation_count v /\ 0 <= slot v) ls.

Definition instruction_typed (i : VoteInstruction) : Prop :=
  match i with
  | UpdateVoteState u | UpdateVoteStateSwitch u _ => lockouts_typed (lockouts u)
  | _ => True
  end.

(** A handler that returns, and whose updated account satisfies [P]. *)
Definition returns_with (P : AccountSharedData -> Prop)
    (r : outcome (result InstructionError AccountSharedData)) : Prop :=
  exists r', r = Returns r' /\ forall a, r' = Ok a -> P a.

(** What every handler on one account guarantees: the account's state is
    good, and its lamports and owner are untouched. *)
Definition kept `{Bincode VoteStateVersions} (bound : Epoch) (a a' : AccountSharedData) : Prop :=
  account_ok bound a' /\ acc_lamports a' = acc_lamports a /\ acc_owner a' = acc_owner a
  /\ length (acc_data a') = length (acc_data a).

(** The sysvars of a bank: the clock's epoch is not past the bound, and the
    slot hashes are of reachable slots. *)
Definition context_ok (bound : Epoch) (ctx : InvokeContext) : Prop :=
  (forall c, sv_clock (ic_sysvar_cache ctx) = Some c -> clock_ok c /\ bound = voter_bound c)
  /\ (forall sh, sv_slot_hashes (ic_sysvar_cache ctx) = Some sh -> hashes_ok sh).

(** What a successful instruction leaves. *)
Definition accounts_kept `{Bincode VoteStateVersions} (bound : Epoch) (ctx : InvokeContext)
    (accounts : accounts_store) : Prop :=
  (forall k, account_ok bound (ic_accounts ctx k) -> account_ok bound (accounts k))
  /\ forall keys, NoDup keys -> (forall ka, ka ∈ ic_keyed_accounts ctx -> ka_key ka ∈ keys) ->
       total_lamports accounts keys = total_lamports (ic_accounts ctx) keys.

Definition instruction_safe `{Bincode VoteStateVersions} (bound : Epoch) (ctx : InvokeContext)
    (o : outcome instruction_result) : Prop :=
  exists accounts r, o = Returns (accounts, r) /\ (r = Ok tt -> accounts_kept bound ctx accounts).

(** A history of credits: the totals are chained, each entry's previous
    total being the total of the entry before it. *)
Fixpoint credits_chained (c : list (Epoch * Z * Z)) : Prop :=
  match c with
  | (_, total, _) :: (((_, _, prev) :: _) as rest) => total = prev /\ credits_chained rest
  | _ => True
  end.

(** The credits at the start of the epoch that a credit is added in: those
    recorded for the current epoch, or the total when the epoch is new. *)
Definition epoch_start_credits (st : VoteState) (epoch : Epoch) : Z :=
  match last (epoch_credits st) with
  | Some (e, total, prev) => if epoch =? e then prev else total
  | None => 0
  end.

(** ** Lemmas: states *)

Lemma process_timestamp_Ok st s t st' :
  process_timestamp st s t = Ok st' ->
  st' = with_timestamp st {| bt_slot := s; bt_timestamp := t |}
  /\ bt_slot (last_timestamp st) <= s /\ bt_timestamp (last_timestamp st) <= t.
Proof.
  unfold process_timestamp. destruct (_ || _) eqn:E; [done|]. intros [= <-]. zbool. done.
Qed.

Lemma get_and_update_ok bound st cur :
  state_ok bound st -> 0 <= cur <= bound ->
  exists r, get_and_update_authorized_voter st cur = Returns r
    /\ forall k st', r = Ok (k, st') ->
       state_ok bound st' /\ get_authorized_voter st cur = Some k
       /\ (exists av', st' = with_voters st av' (prior_voters st))
       /\ av_map (authorized_voters st') !! cur = Some k
       /\ forall e, cur <= e -> get_authorized_voter st' e = get_authorized_voter st e.
Proof.
  intros (Hwf & Hav & Hb) Hcur. unfold get_and_update_authorized_voter.
  destruct (av_get_authorized_voter (authorized_voters st) cur) as [k|] eqn:Ek.
  - destruct (cache_and_purge _ _ _ Hav (proj1 Hcur) Ek) as (av1 & av' & -> & E2 & Hwf' & Hk & Hlow & Hsame).
    rewrite E2. cbn. eexists. split; [done|]. intros k' st' [= <- <-]. split_and!; try done.
    + split_and!; [done|done|]. cbn. intros e He. destruct (decide (e = cur)) as [->|]; [lia|].
      pose proof (Hlow e He). rewrite Hsame in He by lia. by apply Hb.
    + by exists av'.
    + intros e. by eapply purged_lookup.
  - unfold av_get_authorized_voter in Ek. unfold get_and_cache_authorized_voter_for_epoch.
    destruct (get_or_calculate_authorized_voter_for_epoch _ _) as [[? ?]|]; [done|].
    eexists. split; [done|]. done.
Qed.

Lemma av_last_elem av e k : av_last av = Some (e, k) -> is_Some (av_map av !! e).
Proof.
  intros Hl. unfold av_last in Hl. apply last_Some_elem_of in Hl. apply elem_of_btree_iterZ in Hl. eauto.
Qed.

(** Setting a voter for [target], the bound: never panics; the new voter is
    in force from [target] on, and the answers before it are those of the
    state that was read. *)
Lemma set_new_authorized_voter_ok target st new cur verify :
  state_ok target st -> 0 <= cur <= target ->
  exists r, set_new_authorized_voter st new cur target verify = Returns r
    /\ forall st', r = Ok st' ->
       state_ok target st' /\ (exists k, get_authorized_voter st cur = Some k /\ verify k = Ok tt)
       /\ votes st' = votes st /\ get_authorized_voter st' target = Some new
       /\ (forall e, cur <= e < target -> get_authorized_voter st' e = get_authorized_voter st e)
       /\ (exists av pv, st' = with_voters st av pv).
Proof.
  intros Hok Hcur. unfold set_new_authorized_voter.
  destruct (get_and_update_ok target st cur Hok Hcur) as (r & -> & Hr). cbn [mbind outcome_bind].
  destruct r as [[k st1]|e]; [|by eexists].
  destruct (Hr k st1 eq_refl) as (Hok1 & Hk & (av' & Est1) & Hcurk & Hsame).
  destruct (verify k) as [[]|e] eqn:Ev; [|by eexists].
  destruct (av_contains (authorized_voters st1) target) eqn:Ec; [by eexists|].
  destruct (av_last (authorized_voters st1)) as [[le lk]|] eqn:El; [|by eexists].
  apply av_last_elem in El as Hle. unfold av_contains in Ec. apply bool_decide_eq_false in Ec.
  destruct Hok1 as (Hwf1 & Hav1 & Hb1).
  assert (le < target) as Hlt.
  { pose proof (Hb1 le Hle). assert (le <> target) by (intros ->; done). lia. }
  apply Z.ltb_lt in Hlt. rewrite Hlt.
  match goal with |- context [mbind _ ?m] => destruct m as [pv|] eqn:Epv end.
  2:{ by destruct (negb _). }
  cbn [mbind outcome_bind]. eexists. split; [done|]. intros st' [= <-]. split_and!.
  - split_and!; [exact Hwf1| |]; cbn.
    + intros e k' Hk'. cbn in Hk'. apply lookup_insert_Some in Hk' as [[<- _]|[_ Hk']];
        [lia|by eapply Hav1].
    + intros e. rewrite lookup_insert_is_Some. intros [<-|[_ He]]; [lia|by apply Hb1].
  - eauto.
  - by rewrite Est1.
  - unfold get_authorized_voter, av_get_authorized_voter, get_or_calculate_authorized_voter_for_epoch.
    cbn. by rewrite lookup_insert_eq.
  - intros e He. rewrite <- Hsame by lia. by apply insert_later_lookup; [|lia|lia].
  - rewrite Est1. by eexists _, _.
Qed.

(** A sequence of votes, each either stale or small. *)
Lemma fold_votes_wf epoch ss : forall st,
  vote_state_wf st ->
  (forall s, s ∈ ss -> newer (last_voted_slot st) s -> slot_small s) ->
  vote_state_wf (fold_left (fun st s => process_next_vote_slot st s epoch) ss st).
Proof.
  induction ss as [|s ss IH]; intros st Hwf Hss; [done|]. cbn [fold_left].
  destruct (next_vote_cases st s epoch) as [Hnew|(l & Hl & Hle & ->)].
  2:{ apply IH; [done|]. intros s' Hs'. apply Hss. by right. }
  assert (newer (last_voted_slot st) s) as Hn.
  { unfold newer. destruct (last_voted_slot st); [by apply Hnew|done]. }
  assert (slot_small s) as Hs by (apply Hss; [by left|done]).
  apply IH; [by apply next_vote_state_wf|]. intros s' Hs' Hn'.
  destruct (process_next_vote_slot_shape st s epoch Hnew) as (base & Hv & _).
  assert (last_voted_slot (process_next_vote_slot st s epoch) = Some s) as Hlast.
  { unfold last_voted_slot, last_lockout. by rewrite Hv, last_double_lockouts. }
  rewrite Hlast in Hn'. cbn in Hn'. apply Hss; [by right|].
  eapply newer_mono; [exact Hn|]. lia.
Qed.

(** Voting touches neither the voters nor the timestamp. *)
Lemma next_vote_voters st s epoch :
  authorized_voters (process_next_vote_slot st s epoch) = authorized_voters st
  /\ last_timestamp (process_next_vote_slot st s epoch) = last_timestamp st.
Proof.
  unfold process_next_vote_slot. case_match; [done|]. cbn.
  destruct (_ =? _)%nat; [|done]. by destruct (pop_expired_votes _ _).
Qed.

Lemma fold_votes_voters epoch ss st :
  authorized_voters (fold_left (fun st s => process_next_vote_slot st s epoch) ss st)
    = authorized_voters st.
Proof.
  revert st. induction ss as [|s ss IH]; intros st; cbn [fold_left]; [done|].
  rewrite IH. apply next_vote_voters.
Qed.

Lemma process_vote_state_ok bound st vote sh epoch f :
  state_ok bound st -> hashes_ok sh ->
  exists st' r, process_vote_state st vote sh epoch f = Returns (st', r)
    /\ (r = Ok tt -> state_ok bound st').
Proof.
  intros (Hwf & Hav & Hb) Hsh. unfold process_vote_state.
  destruct (slots vote) as [|s0 ss0] eqn:Es; [by eexists _, _|].
  set (vs := match f with Some true => _ | _ => _ end). destruct vs as [|s ss] eqn:Evs; [by eexists _, _|].
  destruct (check_slots_spec st (s :: ss) (vote_hash vote) sh) as (r & -> & Hr).
  cbn [mbind outcome_bind]. destruct r as [[]|e]; [|by eexists _, _].
  eexists _, _. split; [done|]. intros _. destruct (Hr eq_refl) as (_ & _ & Hin).
  unfold state_ok. rewrite fold_votes_voters. split_and!; [|done|done].
  apply fold_votes_wf; [done|]. intros s' Hs' Hn. destruct (Hin s' Hs' Hn) as [h Hh].
  unfold hashes_ok in Hsh. rewrite Forall_forall in Hsh. apply (Hsh (s', h) Hh).
Qed.

(** Processing a non-empty tower returns, and keeps the voters. *)
Lemma process_new_vote_state_returns st new new_root ts epoch :
  new <> [] -> exists st' r, process_new_vote_state st new new_root ts epoch = Returns (st', r).
Proof.
  intros Hne. unfold process_new_vote_state.
  destruct (last new) eqn:El; [|by apply last_None in El].
  repeat case_match; eauto.
Qed.

Lemma process_new_vote_state_voters st new new_root ts epoch st' :
  process_new_vote_state st new new_root ts epoch = Returns (st', Ok tt) ->
  authorized_voters st' = authorized_voters st.
Proof.
  unfold process_new_vote_state. destruct (last new) as [newest|] eqn:El; [|done].
  destruct (_ <? _)%nat; [done|]. destruct (root_rolls_back _ _); [done|].
  destruct (check_new_votes _ _ _) as [[]|]; [|done].
  destruct (compare_towers _ _) as [[]|]; [|done].
  set (st1 := if negb _ then _ else _).
  assert (authorized_voters st1 = authorized_voters st) as Hst1 by (unfold st1; by case_match).
  destruct ts as [t|].
  - destruct (process_timestamp _ _ _) as [st2|] eqn:Et; [|done].
    apply process_timestamp_Ok in Et as (-> & _). intros [= <-]. exact Hst1.
  - intros [= <-]. exact Hst1.
Qed.

(** ** Lemmas: handlers *)

Lemma returns_with_impl (P Q : AccountSharedData -> Prop) r :
  returns_with P r -> (forall a, P a -> Q a) -> returns_with Q r.
Proof. intros (r' & -> & H) HPQ. exists r'. split; [done|]. intros a Ha. apply HPQ, H, Ha. Qed.

Lemma returns_with_Err P e : returns_with P (Returns (Err e)).
Proof. by eexists. Qed.

#[export] Hint Resolve returns_with_Err : sol.

Lemma verify_signer_Ok k signers u : verify_authorized_signer k signers = Ok u -> k ∈ signers.
Proof. unfold verify_authorized_signer. case_bool_decide; done. Qed.

Section Handlers.
Context `{BincodeLaws VoteStateVersions}.
Variables (bound : Epoch).

Lemma set_state_kept a st a' :
  state_ok bound st -> set_state a (Current st) = Ok a' -> kept bound a a'.
Proof.
  intros Hst (Hd & Hl & Ho & Hn)%set_state_Ok. split_and!; try done.
  intros v Hv. rewrite Hd in Hv. by injection Hv as <-.
Qed.

Lemma set_state_returns a st :
  state_ok bound st -> returns_with (kept bound a) (Returns (set_state a (Current st))).
Proof. intros Hst. eexists. split; [done|]. intros a'. by apply set_state_kept. Qed.

Lemma state_Ok a v : account_ok bound a -> state a = Ok v -> state_ok bound (convert_to_current v).
Proof.
  intros Ha. unfold state. destruct (deserialize _) eqn:E; [|done]. intros [= <-]. by apply Ha.
Qed.

Variables (clock : Clock).
Hypothesis (Hclock : clock_ok clock).
Hypothesis (Hbound : bound = voter_bound clock).

Lemma authorize_ok a k va signers may_change :
  account_ok bound a -> returns_with (kept bound a) (authorize a k va signers clock may_change).
Proof.
  intros Ha. unfold authorize. destruct (state a) as [v|] eqn:Es; [|auto with sol].
  apply state_Ok in Es as Hst; [|done]. destruct va.
  - fold (voter_bound clock). rewrite <- Hbound.
    match goal with |- context [set_new_authorized_voter _ _ _ _ ?f] => set (verify := f) end.
    destruct (set_new_authorized_voter_ok bound _ k (clk_epoch clock) verify Hst)
      as (r & -> & Hr); [rewrite Hbound; exact Hclock|].
    cbn. destruct r as [st'|]; [|apply returns_with_Err]. cbn.
    apply set_state_returns. by apply Hr.
  - cbn. destruct (verify_authorized_signer _ _); cbn; [|apply returns_with_Err].
    by apply set_state_returns.
Qed.

Lemma verify_and_get_ok a signers :
  account_ok bound a ->
  exists r, verify_and_get_vote_state a clock signers = Returns r
    /\ forall st', r = Ok st' -> state_ok bound st'
       /\ exists v k, state a = Ok v
          /\ get_authorized_voter (convert_to_current v) (clk_epoch clock) = Some k /\ k ∈ signers
          /\ exists av, st' = with_voters (convert_to_current v) av
                                (prior_voters (convert_to_current v)).
Proof.
  intros Ha. unfold verify_and_get_vote_state. destruct (state a) as [v|] eqn:Es; [|by eexists].
  apply state_Ok in Es as Hst; [|done]. destruct (is_uninitialized v); [by eexists|].
  destruct (get_and_update_ok bound _ (clk_epoch clock) Hst) as (r & -> & Hr);
    [rewrite Hbound; exact Hclock|].
  cbn. eexists. split; [done|]. intros st' Hok. destruct r as [[k st1]|]; [|done]. cbn in Hok.
  destruct (verify_authorized_signer k signers) eqn:Ev; [|done]. cbn in Hok. injection Hok as <-.
  destruct (Hr _ _ eq_refl) as (Hok1 & Hk & Hav & _). split; [done|].
  exists v, k. split_and!; [done|done|by eapply verify_signer_Ok|done].
Qed.

Lemma process_vote_ok a sh vote signers f :
  account_ok bound a -> hashes_ok sh ->
  returns_with (kept bound a) (process_vote a sh clock vote signers f).
Proof.
  intros Ha Hsh. unfold process_vote.
  destruct (verify_and_get_ok a signers Ha) as (r & -> & Hr). cbn [mbind outcome_bind].
  destruct r as [st|]; [|apply returns_with_Err]. destruct (Hr st eq_refl) as (Hst & _).
  destruct (process_vote_state_ok bound st vote sh (clk_epoch clock) (Some f) Hst Hsh)
    as (st1 & r & -> & Hr1). cbn [mbind outcome_bind].
  destruct r as [[]|]; [|apply returns_with_Err]. cbn [map_err mbind result_bind].
  specialize (Hr1 eq_refl). destruct (vote_timestamp vote) as [t|]; cbn.
  - destruct (max_slot (slots vote)) as [m|]; cbn; [|apply returns_with_Err].
    destruct (process_timestamp st1 m t) as [st2|] eqn:Et; cbn; [|apply returns_with_Err].
    apply process_timestamp_Ok in Et as (-> & _). apply set_state_returns. exact Hr1.
  - by apply set_state_returns.
Qed.

(** An accepted tower submission, with everything its checks established. *)
Lemma process_vote_state_update_Ok a sh u signers :
  account_ok bound a -> lockouts_typed (lockouts u) ->
  exists r, process_vote_state_update a sh clock u signers = Returns r
    /\ forall a', r = Ok a' ->
       exists v k u' newest st', state a = Ok v
         /\ get_authorized_voter (convert_to_current v) (clk_epoch clock) = Some k /\ k ∈ signers
         /\ update_ok (convert_to_current v) sh u u' newest
         /\ votes st' = lockouts u' /\ root_slot st' = root u'
         /\ state_ok bound st' /\ deserialize (acc_data a') = Some (Current st') /\ kept bound a a'.
Proof.
  intros Ha Hu. unfold process_vote_state_update.
  destruct (verify_and_get_ok a signers Ha) as (r & -> & Hr). cbn [mbind outcome_bind].
  destruct r as [st|]; [|by eexists].
  destruct (Hr st eq_refl) as (Hst & v & k & Hv & Hk & Hsig & av & ->). clear Hr.
  set (st := with_voters _ _ _) in *.
  destruct (check_update_spec st u sh) as (u' & r & -> & Hr). cbn [mbind outcome_bind].
  destruct r as [[]|]; [|by eexists]. destruct (Hr eq_refl) as (newest & Hupd). clear Hr.
  destruct (process_new_vote_state_returns st (lockouts u') (root u') (vsu_timestamp u')
              (clk_epoch clock)) as (st' & r & E).
  { intros Hnil. pose proof (uo_kept _ _ _ _ _ Hupd) as Hl. by rewrite Hnil in Hl. }
  rewrite E. cbn [mbind outcome_bind]. destruct r as [[]|]; [|by eexists]. cbn.
  eexists. split; [done|]. intros a' Hset.
  assert (lockouts_typed (lockouts u')) as Hu'.
  { apply Forall_forall. intros l Hl. unfold lockouts_typed in Hu. rewrite Forall_forall in Hu.
    apply Hu, (uo_subset _ _ _ _ _ Hupd), Hl. }
  destruct (new_tower_wf _ _ _ _ _ _ Hu' E) as [_ Hwf'].
  pose proof (process_new_vote_state_voters _ _ _ _ _ _ E) as Hav.
  apply process_new_vote_state_Ok in E as (_ & _ & _ & _ & _ & Hvotes & Hroot).
  assert (state_ok bound st') as Hst'.
  { destruct Hst as (_ & Hst). unfold state_ok. rewrite Hav. by split. }
  apply set_state_Ok in Hset as Hd. exists v, k, u', newest, st'.
  split_and!; try done; try apply Hd; [|by eapply set_state_kept].
  destruct Hupd. by constructor.
Qed.

Lemma vote_state_new_ok vote_init : state_ok bound (vote_state_new vote_init clock).
Proof.
  unfold state_ok, vote_state_new. cbn. destruct Hclock. split_and!.
  - split_and!; [split; cbn; [done|unfold MAX_LOCKOUT_HISTORY; lia]|constructor|done].
  - intros e k. cbn. rewrite lookup_singleton_Some. intros [<- _]. lia.
  - intros e. rewrite lookup_singleton_is_Some. intros <-. lia.
Qed.

Lemma initialize_account_ok a vote_init signers :
  returns_with (kept bound a) (Returns (initialize_account a vote_init signers clock)).
Proof.
  unfold initialize_account. case_match; [apply returns_with_Err|].
  destruct (state a); cbn; [|apply returns_with_Err]. case_match; [apply returns_with_Err|].
  destruct (verify_authorized_signer _ _); cbn; [|apply returns_with_Err].
  apply set_state_returns, vote_state_new_ok.
Qed.

Lemma update_validator_identity_ok a k signers :
  account_ok bound a -> returns_with (kept bound a) (Returns (update_validator_identity a k signers)).
Proof.
  intros Ha. unfold update_validator_identity. destruct (state a) eqn:Es; cbn; [|apply returns_with_Err].
  destruct (verify_authorized_signer (authorized_withdrawer _) _); cbn; [|apply returns_with_Err].
  destruct (verify_authorized_signer k _); cbn; [|apply returns_with_Err].
  apply set_state_returns. by apply state_Ok in Es.
Qed.

Lemma update_commission_ok a c signers :
  account_ok bound a -> returns_with (kept bound a) (Returns (update_commission a c signers)).
Proof.
  intros Ha. unfold update_commission. destruct (state a) eqn:Es; cbn; [|apply returns_with_Err].
  destruct (verify_authorized_signer _ _); cbn; [|apply returns_with_Err].
  apply set_state_returns. by apply state_Ok in Es.
Qed.

Lemma process_vote_state_update_ok a sh u signers :
  account_ok bound a -> lockouts_typed (lockouts u) ->
  returns_with (kept bound a) (process_vote_state_update a sh clock u signers).
Proof.
  intros Ha Hu. destruct (process_vote_state_update_Ok a sh u signers Ha Hu) as (r & -> & Hr).
  exists r. split; [done|]. intros a' Ha'. destruct (Hr a' Ha') as (v & k & u' & n & st' & Hrest).
  apply Hrest.
Qed.

Lemma authorize_with_seed_ok `{SeedHash} kas first a k va owner seed features :
  account_ok bound a ->
  returns_with (kept bound a)
    (process_authorize_with_seed_instruction kas first a k va owner seed clock features).
Proof.
  intros Ha. unfold process_authorize_with_seed_instruction.
  case_match; [by apply authorize_ok|apply returns_with_Err].
Qed.

End Handlers.

(** ** Lemmas: withdrawal *)

Section Withdraw.
Context `{BincodeLaws VoteStateVersions}.
Variables (accounts accounts' : accounts_store) (vk tk : Pubkey) (l : Z).
Variables (signers : gset N) (rent : option Rent) (clk : option Clock).
Hypothesis (Hok : withdraw accounts vk l tk signers rent clk = (accounts', Ok tt)).

(** A successful withdrawal in three steps: the balance checks, which may
    deinitialize the account, then the debit, then the credit. *)
Lemma withdraw_steps :
  exists v base, state (accounts vk) = Ok v
    /\ authorized_withdrawer (convert_to_current v) ∈ signers
    /\ l <= acc_lamports (accounts vk)
    /\ ((l = acc_lamports (accounts vk)
         /\ (forall c e cr p, clk = Some c -> last (epoch_credits (convert_to_current v)) = Some (e, cr, p) ->
               2 <= sat_sub64 (clk_epoch c) e)
         /\ exists a, set_state (accounts vk) (Current vote_state_default) = Ok a
                 /\ base = store_set accounts vk a)
        \/ (l < acc_lamports (accounts vk)
            /\ (forall r, rent = Some r ->
                  minimum_balance r (length (acc_data (accounts vk))) <= acc_lamports (accounts vk) - l)
            /\ base = accounts))
    /\ let mid := store_set base vk (set_lamports (base vk) (acc_lamports (base vk) - l)) in
       accounts' = store_set mid tk (set_lamports (mid tk) (acc_lamports (mid tk) + l)).
Proof.
  revert Hok. unfold withdraw. destruct (state (accounts vk)) as [v|]; [|done].
  destruct (verify_authorized_signer _ _) as [[]|] eqn:Ev; [|done]. apply verify_signer_Ok in Ev.
  unfold checked_sub64. destruct (Z.leb_spec l (acc_lamports (accounts vk))) as [Hl|]; [|done].
  match goal with |- match ?c with Ok _ => _ | Err _ => _ end = _ -> _ => destruct c as [base|] eqn:Ec end;
    [|done].
  destruct (checked_sub_lamports _ _) as [a1|] eqn:E1; [|done].
  apply checked_sub_lamports_Ok in E1 as [-> _].
  destruct (checked_add_lamports _ _) as [a2|] eqn:E2; [|done].
  apply checked_add_lamports_Ok in E2 as [-> _]. intros [= <-].
  exists v, base. split_and!; [done|done|done| |done].
  destruct (Z.eqb_spec (acc_lamports (accounts vk) - l) 0).
  - left. split; [lia|]. destruct clk as [c|].
    + destruct (last _) as [[[e0 cr] p]|].
      * destruct (Z.ltb_spec (sat_sub64 (clk_epoch c) e0) 2) as [|Hge]; [done|].
        destruct (set_state _ _) as [a|]; [|done]. injection Ec as <-.
        split; [|eauto]. by intros ? ? ? ? [= <-] [= <- <- <-].
      * destruct (set_state _ _) as [a|]; [|done]. injection Ec as <-. split; [done|eauto].
    + destruct (set_state _ _) as [a|]; [|done]. injection Ec as <-. split; [done|eauto].
  - right. split; [lia|]. destruct rent as [r|].
    + destruct (Z.ltb_spec (acc_lamports (accounts vk) - l) (minimum_balance r (length (acc_data (accounts vk)))));
        [done|]. injection Ec as <-. split; [|done]. by intros ? [= <-].
    + by injection Ec as <-.
Qed.

(** What the first step leaves: lamports everywhere, and the data of every
    account but a deinitialized one. *)
Lemma withdraw_data k bound :
  account_ok bound (accounts k) -> account_ok bound (accounts' k).
Proof.
  destruct withdraw_steps as (v & base & _ & _ & _ & Hbase & Hfin). cbn zeta in Hfin.
  intros Hk. assert (account_ok bound (base k)) as Hbk.
  { destruct Hbase as [(_ & _ & a & Ha & ->)|(_ & _ & ->)]; [|done].
    destruct (decide (k = vk)) as [->|]; [|by rewrite store_set_ne].
    rewrite store_set_eq. eapply set_state_kept in Ha; [by apply Ha|].
    split_and!; [split_and!; [split; cbn; [done|unfold MAX_LOCKOUT_HISTORY; lia]|constructor|done]| |].
    - intros e k'. cbn. by rewrite lookup_empty.
    - intros e. cbn. rewrite lookup_empty. by intros [? ?]. }
  assert (acc_data (accounts' k) = acc_data (base k)) as Hdata; [|unfold account_ok; by rewrite Hdata].
  rewrite Hfin. destruct (decide (k = tk)) as [->|Ht]; [rewrite store_set_eq|rewrite store_set_ne by done];
    (destruct (decide (vk = tk)) as [->|]); rewrite ?store_set_eq, ?store_set_ne by done; try done.
  all: destruct (decide (k = vk)) as [->|]; by rewrite ?store_set_eq, ?store_set_ne by done.
Qed.

Lemma withdraw_total keys :
  NoDup keys -> vk ∈ keys -> tk ∈ keys -> total_lamports accounts' keys = total_lamports accounts keys.
Proof.
  intros Hnd Hv Ht. destruct withdraw_steps as (v & base & _ & _ & _ & Hbase & ->).
  assert (total_lamports base keys = total_lamports accounts keys) as <-.
  { destruct Hbase as [(_ & _ & a & Ha & ->)|(_ & _ & ->)]; [|done].
    rewrite total_lamports_set, decide_True by done. apply set_state_Ok in Ha as (_ & -> & _). lia. }
  cbn zeta. rewrite total_lamports_set, decide_True by done.
  rewrite total_lamports_set, decide_True by done. cbn. lia.
Qed.

End Withdraw.

(** ** Lemmas: dispatch *)

Section Dispatch.
Context `{BincodeLaws VoteStateVersions} `{InstructionCodec} `{SeedHash}.
Variables (bound : Epoch) (first : nat) (ctx : InvokeContext) (me : KeyedAccount).
Hypothesis (Hctx : context_ok bound ctx).
Hypothesis (Hat : ic_keyed_accounts ctx !! first = Some me).
Hypothesis (Hme : account_ok bound (ic_accounts ctx (ka_key me))).

Lemma fetch_safe {A} (r : result InstructionError A) k :
  (forall a, r = Ok a -> instruction_safe bound ctx (k a)) -> instruction_safe bound ctx (fetch ctx r k).
Proof. intros Hk. destruct r as [a|e]; cbn; [by apply Hk|by eexists _, _]. Qed.

Lemma fails_safe e : instruction_safe bound ctx (fails ctx e).
Proof. by eexists _, _. Qed.

Lemma handle_safe r :
  returns_with (kept bound (ic_accounts ctx (ka_key me))) r -> instruction_safe bound ctx (handle ctx me r).
Proof.
  intros (r' & -> & Hr). unfold handle. cbn. destruct r' as [a|e]; [|by eexists _, _].
  destruct (Hr a eq_refl) as (Ha & Hl & Ho & _). cbn. eexists _, _. split; [done|]. intros _. split.
  - intros k Hk. destruct (decide (k = ka_key me)) as [->|];
      [by rewrite store_set_eq|by rewrite store_set_ne].
  - intros keys Hnd Hkeys. rewrite total_lamports_set by done. case_decide; lia.
Qed.

Lemma clock_fetched i c :
  (ka ← keyed_account_at_index (ic_keyed_accounts ctx) i; sysvar_clock ka ctx) = Ok c ->
  clock_ok c /\ bound = voter_bound c.
Proof.
  intros (ka & _ & E)%result_bind_Ok. apply result_bind_Ok in E as (_ & _ & E).
  unfold get_clock in E. destruct (sv_clock _) as [c'|] eqn:Ec; [|done]. injection E as <-. by apply Hctx.
Qed.

Lemma hashes_fetched i sh :
  (ka ← keyed_account_at_index (ic_keyed_accounts ctx) i; sysvar_slot_hashes ka ctx) = Ok sh ->
  hashes_ok sh.
Proof.
  intros (ka & _ & E)%result_bind_Ok. apply result_bind_Ok in E as (_ & _ & E).
  unfold get_slot_hashes in E. destruct (sv_slot_hashes _) as [sh'|] eqn:Es; [|done].
  injection E as <-. by apply Hctx.
Qed.

Lemma withdraw_safe l ka i signers rent clk :
  keyed_account_at_index (ic_keyed_accounts ctx) i = Ok ka ->
  instruction_safe bound ctx
    (Returns (withdraw (ic_accounts ctx) (ka_key me) l (ka_key ka) signers rent clk)).
Proof.
  intros Hka. destruct (withdraw _ _ _ _ _ _ _) as [accounts r] eqn:E. eexists _, _. split; [done|].
  intros ->. split.
  - intros k. by eapply withdraw_data.
  - intros keys Hnd Hkeys. eapply withdraw_total; [exact E|done| |]; apply Hkeys.
    + by eapply list_elem_of_lookup_2.
    + unfold keyed_account_at_index in Hka. destruct (ic_keyed_accounts ctx !! i) as [ka'|] eqn:Ei; [|done].
      injection Hka as <-. by eapply list_elem_of_lookup_2.
Qed.

Lemma dispatch_safe signers i :
  instruction_typed i -> instruction_safe bound ctx (dispatch first ctx me signers i).
Proof.
  intros Hi. destruct i; unfold dispatch; cbn zeta; repeat (case_match; [|apply fails_safe]);
    repeat (case_match; [apply fails_safe|]).
  all: repeat (apply fetch_safe; intros ? ?).
  all: try apply handle_safe.
  all: try match goal with H : _ = Ok ?c |- context [?c] => apply clock_fetched in H as [? ?] end.
  all: try match goal with H : _ = Ok ?c |- context [?c] => apply hashes_fetched in H end.
  all: eauto using initialize_account_ok, authorize_ok, process_vote_ok, withdraw_safe,
    update_validator_identity_ok, update_commission_ok, authorize_with_seed_ok.
  all: match goal with Hc : get_clock _ = Ok ?c |- _ =>
    unfold get_clock in Hc; destruct (sv_clock _) as [c'|] eqn:Ec; [|done]; injection Hc as <-;
    destruct (proj1 Hctx _ Ec); by apply process_vote_state_update_ok end.
Qed.

End Dispatch.

(** ** Lemmas: credits *)

Lemma bump_last_snoc c e t p : bump_last (c ++ [(e, t, p)]) = c ++ [(e, wrap64 (t + 1), p)].
Proof.
  induction c as [|x c IH]; [done|]. destruct c as [|y c]; [by destruct x as [[? ?] ?]|].
  cbn [app bump_last] in *. destruct x as [[? ?] ?]. by rewrite IH.
Qed.

Lemma move_last_snoc c e t p epoch : move_last (c ++ [(e, t, p)]) epoch = c ++ [(epoch, t, p)].
Proof.
  induction c as [|x c IH]; [done|]. destruct c as [|y c]; [by destruct x as [[? ?] ?]|].
  cbn [app move_last] in *. destruct x as [[? ?] ?]. by rewrite IH.
Qed.

Lemma credits_chained_snoc c e t p :
  credits_chained (c ++ [(e, t, p)]) <->
  credits_chained c /\ match last c with Some (_, t', _) => t' = p | None => True end.
Proof.
  induction c as [|[[e1 t1] p1] c IH]; [cbn; tauto|].
  destruct c as [|[[e2 t2] p2] c]; [cbn; tauto|].
  cbn [app credits_chained] in *. rewrite last_cons_cons. tauto.
Qed.

Lemma credits_chained_tail x c : credits_chained (x :: c) -> credits_chained c.
Proof. destruct x as [[? ?] ?]. destruct c as [|[[? ?] ?] c]; cbn; tauto. Qed.

Lemma increment_credits_spec st epoch :
  u64 (credits st + 1) -> credits_chained (epoch_credits st) ->
  (length (epoch_credits st) <= MAX_EPOCH_CREDITS_HISTORY)%nat ->
  let c := epoch_credits (increment_credits st epoch) in
  last c = Some (epoch, credits st + 1, epoch_start_credits st epoch)
  /\ credits_chained c /\ (length c <= MAX_EPOCH_CREDITS_HISTORY)%nat.
Proof.
  intros Hu Hch Hlen. revert Hu Hch Hlen.
  unfold epoch_start_credits, credits. unfold increment_credits.
  destruct (epoch_credits st) as [|x c0 _] eqn:Ec using rev_ind.
  { cbn. intros. split_and!; [done|done|unfold MAX_EPOCH_CREDITS_HISTORY; lia]. }
  destruct x as [[e t] p]. rewrite last_snoc. intros Hu Hch Hlen. rewrite length_app in Hlen. cbn in Hlen.
  apply credits_chained_snoc in Hch as [Hch Hlast].
  destruct (Z.eqb_spec epoch e) as [->|Hne]; cbn [negb].
  { cbn. rewrite bump_last_snoc, wrap64_small, last_snoc, length_app by done.
    split_and!; [done|by apply credits_chained_snoc|cbn; lia]. }
  destruct (Z.eqb_spec t p) as [->|Htp]; cbn [negb].
  { rewrite move_last_snoc, length_app. cbn [length].
    destruct (Nat.ltb_spec MAX_EPOCH_CREDITS_HISTORY (length c0 + 1)); [lia|]. cbn.
    rewrite bump_last_snoc, wrap64_small, last_snoc, length_app by done.
    split_and!; [done|by apply credits_chained_snoc|cbn; lia]. }
  assert (credits_chained (c0 ++ [(e, t, p)])) as Hch1 by by apply credits_chained_snoc.
  rewrite length_app, length_app. cbn [length].
  destruct (Nat.ltb_spec MAX_EPOCH_CREDITS_HISTORY (length c0 + 1 + 1)).
  - destruct c0 as [|y c0]; [unfold MAX_EPOCH_CREDITS_HISTORY in *; cbn in *; lia|].
    cbn [app drop]. rewrite drop_0. cbn [epoch_credits with_credits]. rewrite bump_last_snoc, wrap64_small, last_snoc by done.
    rewrite !length_app. cbn in *. split_and!; [done| |lia]. apply credits_chained_snoc.
    rewrite last_snoc. split; [|done]. eapply credits_chained_tail. exact Hch1.
  - cbn [epoch_credits with_credits]. rewrite bump_last_snoc, wrap64_small, last_snoc by done.
    rewrite !length_app. cbn in *. split_and!; [done| |lia]. apply credits_chained_snoc.
    rewrite last_snoc. done.
Qed.

(** ** A concrete encoding *)

(** An instance of the class of byte formats: one number per state, by an
    injection of states into the positive numbers. *)
Module Sample.

#[global] Instance CircBuf_eq_dec : EqDecision (CircBuf (Pubkey * Epoch * Epoch)).
Proof. solve_decision. Defined.
#[global] Instance AuthorizedVoters_eq_dec : EqDecision AuthorizedVoters.
Proof. solve_decision. Defined.
#[global] Instance VoteState_eq_dec : EqDecision VoteState.
Proof. solve_decision. Defined.
#[global] Instance VoteState0_23_5_eq_dec : EqDecision VoteState0_23_5.
Proof. solve_decision. Defined.
#[global] Instance VoteStateVersions_eq_dec : EqDecision VoteStateVersions.
Proof. solve_decision. Defined.

Definition lockout_pair (l : Lockout) : Z * Z := (slot l, confirmation_count l).
Definition pair_lockout (p : Z * Z) : Lockout := {| slot := p.1; confirmation_count := p.2 |}.

#[global] Instance Lockout_countable : Countable Lockout.
Proof. by apply (inj_countable' lockout_pair pair_lockout); intros []. Defined.

#[global] Instance BlockTimestamp_countable : Countable BlockTimestamp.
Proof.
  by apply (inj_countable' (fun b => (bt_slot b, bt_timestamp b))
    (fun p => {| bt_slot := p.1; bt_timestamp := p.2 |})); intros [].
Defined.

#[global] Instance AuthorizedVoters_countable : Countable AuthorizedVoters.
Proof. by apply (inj_countable' av_map Build_AuthorizedVoters); intros []. Defined.

#[global] Instance CircBuf_countable : Countable (CircBuf (Pubkey * Epoch * Epoch)).
Proof.
  by apply (inj_countable' (fun c => (buf c, idx c, is_empty c))
    (fun '(b, i, e) => {| buf := b; idx := i; is_empty := e |})); intros [].
Defined.

#[global] Instance VoteState_countable : Countable VoteState.
Proof.
  by apply (inj_countable' (fun s => (node_pubkey s, authorized_withdrawer s, commission s, votes s,
      root_slot s, authorized_voters s, prior_voters s, epoch_credits s, last_timestamp s))
    (fun '(n, w, c, v, r, av, pv, ec, t) => Build_VoteState n w c v r av pv ec t)); intros [].
Defined.

#[global] Instance VoteState0_23_5_countable : Countable VoteState0_23_5.
Proof.
  by apply (inj_countable' (fun s => (v0_node_pubkey s, v0_authorized_voter s,
      v0_authorized_voter_epoch s, v0_prior_voters s, v0_authorized_withdrawer s, v0_commission s,
      v0_votes s, v0_root_slot s, v0_epoch_credits s, v0_last_timestamp s))
    (fun '(n, a, ae, pv, w, c, v, r, ec, t) => Build_VoteState0_23_5 n a ae pv w c v r ec t)); intros [].
Defined.

#[global] Instance VoteStateVersions_countable : Countable VoteStateVersions.
Proof.
  by apply (inj_countable' (fun v => match v with V0_23_5 s => inl s | Current s => inr s end)
    (fun v => match v with inl s => V0_23_5 s | inr s => Current s end)); intros [].
Defined.

#[global] Instance bincode : Bincode VoteStateVersions := {
  serialize := fun v => [Z.pos (encode v)];
  deserialize := fun bytes => match bytes with Z.pos p :: _ => decode p | _ => None end;
}.

#[global] Instance bincode_laws : BincodeLaws VoteStateVersions.
Proof. constructor. intros v rest. cbn. apply decode_encode. Qed.

(** A vote account with a tower of two votes, voter 7, withdrawer 8 and a
    credit in epoch 3. *)
Definition st : VoteState :=
  with_credits
    (with_votes
       (vote_state_new {| vi_node_pubkey := 6%N; vi_authorized_voter := 7%N;
                          vi_authorized_withdrawer := 8%N; vi_commission := 10 |}
          {| clk_slot := 0; clk_epoch_start_timestamp := 0; clk_epoch := 2;
             clk_leader_schedule_epoch := 3; clk_unix_timestamp := 0 |})
       [{| slot := 1; confirmation_count := 2 |}; {| slot := 2; confirmation_count := 1 |}] None)
    [(3, 5, 4)].

Definition vote_account : AccountSharedData :=
  {| acc_lamports := 1000; acc_data := serialize (Current st); acc_owner := vote_program_id;
     acc_executable := false; acc_rent_epoch := 0 |}.

(** Account 1 is the vote account; the others hold 5 lamports each. *)
Definition accounts : accounts_store :=
  store_set (fun _ => account_new 5 0 system_program_id) 1%N vote_account.

Definition clock : Clock :=
  {| clk_slot := 9; clk_epoch_start_timestamp := 0; clk_epoch := 5;
     clk_leader_schedule_epoch := 6; clk_unix_timestamp := 0 |}.

Definition slot_hashes : list (Slot * Hash) := [(5, 55%N); (2, 22%N); (1, 11%N)].

(** A new tower that keeps the first vote and adds slot 5. *)
Definition update : VoteStateUpdate :=
  {| lockouts := [{| slot := 1; confirmation_count := 3 |}; {| slot := 5; confirmation_count := 1 |}];
     root := None; vsu_hash := 55%N; vsu_timestamp := None |}.

#[global] Instance codec : InstructionCodec := {
  decode_instruction := fun data =>
    match data with
    | [0] => Some (UpdateVoteState update)
    | [1; l] => Some (Withdraw l)
    | _ => None
    end;
}.

#[global] Instance seed_hash : SeedHash := { hashv := fun base _ _ => base }.

Definition ctx : InvokeContext :=
  {| ic_keyed_accounts := [{| ka_is_signer := false; ka_is_writable := true; ka_key := 1%N |};
                           {| ka_is_signer := true; ka_is_writable := false; ka_key := 7%N |}];
     ic_accounts := accounts;
     ic_sysvar_cache := {| sv_clock := Some clock; sv_rent := Some rent_default;
                           sv_slot_hashes := Some slot_hashes;
                           sv_recent_blockhashes := None; sv_stake_history := None |};
     ic_feature_set := fun _ => true;
     ic_blockhash := 0%N; ic_lamports_per_signature := 0 |}.

Lemma state_wf : state_ok 7 st.
Proof.
  split; [split_and!|split].
  - split; [repeat split; vm_compute; (reflexivity || discriminate)|].
    cbn. unfold MAX_LOCKOUT_HISTORY. lia.
  - repeat constructor; cbn; lia.
  - done.
  - intros e k Hk. change (({[2 := 7%N]} : gmap Z N) !! e = Some k) in Hk.
    apply lookup_singleton_Some in Hk as [<- _]. lia.
  - intros e He. change (is_Some (({[2 := 7%N]} : gmap Z N) !! e)) in He.
    apply lookup_singleton_is_Some in He as <-. lia.
Qed.

Lemma account_wf : account_ok 7 vote_account.
Proof.
  intros v Hv. unfold vote_account in Hv. cbn [acc_data] in Hv.
  rewrite <- (app_nil_r (serialize _)), deserialize_serialize in Hv. injection Hv as <-.
  apply state_wf.
Qed.

Lemma hashes_small : hashes_ok slot_hashes.
Proof. repeat constructor; cbn; unfold slot_small, U64_MAX; lia. Qed.

Lemma context_wf : context_ok 7 ctx.
Proof.
  split; cbn.
  - intros c [= <-]. split; [|done]. split; vm_compute; discriminate.
  - intros sh [= <-]. apply hashes_small.
Qed.

Lemma update_typed : lockouts_typed (lockouts update).
Proof. repeat constructor; cbn; lia. Qed.

End Sample.

(** ** Properties *)

(** C25: Every instruction of the vote program returns and preserves the vote
    accounts.  For any instruction data and accounts, with a well-formed vote
    account first and a bank's sysvars, [process_instruction] never panics.
    If it succeeds, every account that held a well-formed vote state (or none) still does: a
    tower of at most 31 increasing votes with decreasing confirmations above
    the root, and voters up to the next leader schedule epoch; and the
    lamports of the accounts of the instruction sum to what they did. *)
Theorem process_instruction_safe `{BincodeLaws VoteStateVersions} `{InstructionCodec} `{SeedHash} (bound : Epoch) (first : nat)
    (data : list Z) (ctx : InvokeContext) (Hctx : context_ok bound ctx)
    (Hme : forall me, ic_keyed_accounts ctx !! first = Some me ->
             account_ok bound (ic_accounts ctx (ka_key me)))
    (Hdata : forall i, decode_instruction data = Some i -> instruction_typed i) :
  exists accounts r, process_instruction first data ctx = Returns (accounts, r)
    /\ (r = Ok tt ->
        (forall k, account_ok bound (ic_accounts ctx k) -> account_ok bound (accounts k))
        /\ forall keys, NoDup keys -> (forall ka, ka ∈ ic_keyed_accounts ctx -> ka_key ka ∈ keys) ->
             total_lamports accounts keys = total_lamports (ic_accounts ctx) keys).
Proof.
  change (instruction_safe bound ctx (process_instruction first data ctx)).
  unfold process_instruction. apply fetch_safe. intros me Eme.
  unfold keyed_account_at_index in Eme.
  destruct (ic_keyed_accounts ctx !! first) as [me'|] eqn:Eat; [|done]. injection Eme as ->.
  case_match; [apply fails_safe|]. apply fetch_safe. intros i Ei.
  destruct (decode_instruction data) as [i'|] eqn:Ed; [|done]. injection Ei as ->.
  apply dispatch_safe; auto.
Qed.

Lemma process_instruction_safe_witness :
  exists accounts r, process_instruction 0 [0] Sample.ctx = Returns (accounts, r)
    /\ is_ok r = true /\ account_ok 7 (accounts 1%N)
    /\ total_lamports accounts [1%N; 7%N] = 1005.
Proof.
  destruct (process_instruction_safe 7 0 [0] Sample.ctx Sample.context_wf) as (accounts & r & E & Hr).
  - intros me [= <-]. apply Sample.account_wf.
  - intros i [= <-]. apply Sample.update_typed.
  - exists accounts, r.
    assert (is_ok r = true) as Hok.
    { assert (match process_instruction 0 [0] Sample.ctx with
              | Returns (_, r) => is_ok r | Panics => false end = true) as Hc by (vm_compute; reflexivity).
      rewrite E in Hc. exact Hc. }
    destruct r as [[]|]; [|discriminate]. destruct (Hr eq_refl) as [Hacc Htot].
    split; [exact E|]. split; [done|]. split.
    + apply Hacc, Sample.account_wf.
    + rewrite (Htot [1%N; 7%N]).
      * vm_compute. reflexivity.
      * apply NoDup_cons; split; [intros Hin; apply list_elem_of_singleton in Hin; discriminate|].
        apply NoDup_singleton.
      * intros ka Hka. cbn in Hka. apply elem_of_cons in Hka as [->|Hka]; [left|].
        apply list_elem_of_singleton in Hka as ->. right. left.
Defined.

(** An accepted tower submission is signed, current and well formed.
    [process_vote_state_update] never panics; if it accepts, the key
    authorized to vote in the clock's epoch signed, the newest submitted slot
    is newer than the account's last vote and occurs in the slot hashes with
    the submitted hash, every retained lockout is in the slot hashes or was
    in the tower, and the account now holds a well-formed state whose tower
    is what the checks retained, ending in that newest slot.  Lamports and
    owner are untouched. *)
Theorem vote_update_accepted `{BincodeLaws VoteStateVersions} (a : AccountSharedData) (sh : list (Slot * Hash))
    (clock : Clock) (u : VoteStateUpdate) (signers : gset N)
    (Hclock : clock_ok clock) (Ha : account_ok (voter_bound clock) a)
    (Hu : lockouts_typed (lockouts u)) :
  exists r, process_vote_state_update a sh clock u signers = Returns r
    /\ forall a', r = Ok a' ->
       exists v k newest st', state a = Ok v
         /\ get_authorized_voter (convert_to_current v) (clk_epoch clock) = Some k /\ k ∈ signers
         /\ last (lockouts u) = Some newest
         /\ newer (last_voted_slot (convert_to_current v)) (slot newest)
         /\ (slot newest, vsu_hash u) ∈ sh
         /\ deserialize (acc_data a') = Some (Current st')
         /\ state_ok (voter_bound clock) st' /\ last (votes st') = Some newest
         /\ Forall (vouched (convert_to_current v) sh) (votes st')
         /\ acc_lamports a' = acc_lamports a /\ acc_owner a' = acc_owner a.
Proof.
  destruct (process_vote_state_update_Ok (voter_bound clock) clock Hclock eq_refl a sh u signers Ha Hu)
    as (r & -> & Hr).
  exists r. split; [done|]. intros a' Ha'.
  destruct (Hr a' Ha') as (v & k & u' & newest & st' & Hv & Hk & Hsig & Hupd & Hvotes & _ & Hst & Hd & Hkept).
  destruct Hupd, Hkept as (_ & Hl & Ho & _). exists v, k, newest, st'. rewrite Hvotes. by split_and!.
Qed.

Lemma vote_update_accepted_witness :
  exists a', process_vote_state_update Sample.vote_account Sample.slot_hashes Sample.clock
               Sample.update {[ 7%N ]} = Returns (Ok a')
    /\ exists st', deserialize (acc_data a') = Some (Current st') /\ state_ok 7 st'
         /\ last (votes st') = Some {| slot := 5; confirmation_count := 1 |}.
Proof.
  destruct (vote_update_accepted Sample.vote_account Sample.slot_hashes Sample.clock
              Sample.update {[ 7%N ]}) as (r & E & Hr).
  - split; vm_compute; discriminate.
  - apply Sample.account_wf.
  - apply Sample.update_typed.
  - assert (match process_vote_state_update Sample.vote_account Sample.slot_hashes Sample.clock
               Sample.update {[ 7%N ]} with Returns r => is_ok r | Panics => false end = true) as Hc
      by (vm_compute; reflexivity).
    rewrite E in Hc. destruct r as [a'|]; [|discriminate]. exists a'. split; [exact E|].
    destruct (Hr a' eq_refl) as (v & k & newest & st' & _ & _ & _ & Hn & _ & _ & Hd & Hst & Hl & _).
    exists st'. split; [exact Hd|]. split; [exact Hst|]. rewrite Hl. cbn in Hn. by injection Hn as <-.
Defined.

(** A withdrawal moves lamports and never mints them.  If [withdraw]
    succeeds, the withdrawer signed and the balance covered the amount; what
    remains is either nothing, and then the account is deinitialized and (when
    the clock is consulted) earned no credits in this or the last epoch, or at least the
    rent-exempt minimum (when rent is consulted); the lamports of any set of
    accounts containing both sum to what they did, also when the recipient is
    the vote account itself; and no other account changes. *)
Theorem withdraw_conserves `{BincodeLaws VoteStateVersions} (accounts accounts' : accounts_store) (vk tk : Pubkey)
    (l : Z) (signers : gset N) (rent : option Rent) (clk : option Clock)
    (Hok : withdraw accounts vk l tk signers rent clk = (accounts', Ok tt)) :
  exists v, state (accounts vk) = Ok v /\ authorized_withdrawer (convert_to_current v) ∈ signers
    /\ l <= acc_lamports (accounts vk)
    /\ (l = acc_lamports (accounts vk) ->
          deserialize (acc_data (accounts' vk)) = Some (Current vote_state_default)
          /\ forall c e cr p, clk = Some c ->
               last (epoch_credits (convert_to_current v)) = Some (e, cr, p) ->
               2 <= sat_sub64 (clk_epoch c) e)
    /\ (l <> acc_lamports (accounts vk) -> forall r, rent = Some r ->
          minimum_balance r (length (acc_data (accounts vk))) <= acc_lamports (accounts vk) - l)
    /\ (forall keys, NoDup keys -> vk ∈ keys -> tk ∈ keys ->
          total_lamports accounts' keys = total_lamports accounts keys)
    /\ (forall k, k <> vk -> k <> tk -> accounts' k = accounts k).
Proof.
  pose proof (withdraw_total _ _ _ _ _ _ _ _ Hok) as Htot.
  destruct (withdraw_steps _ _ _ _ _ _ _ _ Hok) as (v & base & Hv & Hs & Hl & Hbase & Hfin).
  cbn zeta in Hfin. exists v. split_and!; [done|done|done| | |done|].
  - intros El. destruct Hbase as [(_ & Hcr & a & Ha & Hb)|(Hlt & _)]; [|lia]. split; [|done].
    apply set_state_Ok in Ha as (Hd & _). subst accounts' base.
    destruct (decide (vk = tk)) as [->|]; rewrite ?store_set_eq, ?store_set_ne, ?store_set_eq by done; done.
  - intros Hne. destruct Hbase as [(El & _)|(_ & Hr & _)]; done.
  - intros k Hk1 Hk2. subst accounts'. rewrite !store_set_ne by done.
    destruct Hbase as [(_ & _ & a & _ & ->)|(_ & _ & ->)]; [by rewrite store_set_ne|done].
Qed.

Lemma withdraw_conserves_witness :
  exists accounts', withdraw Sample.accounts 1%N 1000 9%N {[ 8%N ]} (Some rent_default)
                      (Some Sample.clock) = (accounts', Ok tt)
    /\ deserialize (acc_data (accounts' 1%N)) = Some (Current vote_state_default)
    /\ accounts' 3%N = Sample.accounts 3%N.
Proof.
  destruct (withdraw Sample.accounts 1%N 1000 9%N {[ 8%N ]} (Some rent_default) (Some Sample.clock))
    as [accounts' r] eqn:E.
  assert (is_ok (snd (withdraw Sample.accounts 1%N 1000 9%N {[ 8%N ]} (Some rent_default)
    (Some Sample.clock))) = true) as Hc by (vm_compute; reflexivity).
  rewrite E in Hc. destruct r as [[]|]; [|discriminate].
  destruct (withdraw_conserves _ _ _ _ _ _ _ _ E) as (v & _ & _ & _ & Hz & _ & _ & Hother).
  exists accounts'. split; [done|]. split; [by apply Hz|]. by apply Hother.
Defined.

(** Authorizing a voter takes effect at the next leader schedule epoch and
    not before.  [authorize] with [Voter] never panics (the assertion on the
    epoch order holds); if it succeeds, the current epoch's voter signed, or
    the withdrawer did and the feature for that is active; from the epoch
    after the last leader schedule the new key votes; and for every epoch
    from the current one up to it the voter is who it was. *)
Theorem authorize_voter_effective `{BincodeLaws VoteStateVersions} (a : AccountSharedData) (new : Pubkey)
    (signers : gset N) (clock : Clock) (may_change : bool)
    (Hclock : clock_ok clock) (Ha : account_ok (voter_bound clock) a) :
  exists r, authorize a new Voter signers clock may_change = Returns r
    /\ forall a', r = Ok a' ->
       exists v st', state a = Ok v /\ deserialize (acc_data a') = Some (Current st')
         /\ (exists k, get_authorized_voter (convert_to_current v) (clk_epoch clock) = Some k
              /\ (k ∈ signers
                  \/ may_change = true /\ authorized_withdrawer (convert_to_current v) ∈ signers))
         /\ get_authorized_voter st' (voter_bound clock) = Some new
         /\ (forall e, clk_epoch clock <= e < voter_bound clock ->
               get_authorized_voter st' e = get_authorized_voter (convert_to_current v) e)
         /\ votes st' = votes (convert_to_current v).
Proof.
  unfold authorize. destruct (state a) as [v|] eqn:Es; [|by eexists].
  pose proof (state_Ok _ _ _ Ha Es) as Hst. fold (voter_bound clock).
  match goal with |- context [set_new_authorized_voter _ _ _ _ ?f] => set (verify := f) end.
  destruct (set_new_authorized_voter_ok (voter_bound clock) _ new (clk_epoch clock) verify Hst Hclock)
    as (r & -> & Hr).
  cbn. eexists. split; [done|]. intros a' Ha'. destruct r as [st'|]; [|done]. cbn in Ha'.
  destruct (Hr st' eq_refl) as (_ & (k & Hk & Hver) & Hvotes & Hnew & Hold & _).
  apply set_state_Ok in Ha' as (Hd & _). exists v, st'. split_and!; try done.
  exists k. split; [done|]. unfold verify in Hver. destruct may_change.
  - destruct (verify_authorized_signer (authorized_withdrawer _) signers) eqn:Ew; cbn in Hver.
    + right. split; [done|]. by eapply verify_signer_Ok.
    + left. by eapply verify_signer_Ok.
  - left. by eapply verify_signer_Ok.
Qed.

Lemma authorize_voter_effective_witness :
  exists a', authorize Sample.vote_account 12%N Voter {[ 7%N ]} Sample.clock true = Returns (Ok a')
    /\ exists st', deserialize (acc_data a') = Some (Current st')
         /\ get_authorized_voter st' 7 = Some 12%N
         /\ (forall e, 5 <= e < 7 -> get_authorized_voter st' e = get_authorized_voter Sample.st e).
Proof.
  destruct (authorize_voter_effective Sample.vote_account 12%N {[ 7%N ]} Sample.clock true)
    as (r & E & Hr); [split; vm_compute; discriminate|apply Sample.account_wf|].
  assert (match authorize Sample.vote_account 12%N Voter {[ 7%N ]} Sample.clock true with
          | Returns r => is_ok r | Panics => false end = true) as Hc by (vm_compute; reflexivity).
  rewrite E in Hc. destruct r as [a'|]; [|discriminate]. exists a'. split; [exact E|].
  destruct (Hr a' eq_refl) as (v & st' & Hv & Hd & _ & Hnew & Hold & _). exists st'.
  split; [exact Hd|]. split; [exact Hnew|]. intros e He. rewrite (Hold e He).
  assert (state Sample.vote_account = Ok (Current Sample.st)) as Es.
  { unfold state, Sample.vote_account. cbn [acc_data].
    by rewrite <- (app_nil_r (serialize _)), deserialize_serialize. }
  rewrite Es in Hv. injection Hv as <-. done.
Defined.

(** Splitting a reward by commission never pays out more than the reward
    and loses at most one lamport: the voter's and the stakers' shares are
    the percentages rounded down, with the commission capped at 100, and the
    split flag is set exactly when both could get a share. *)
Theorem commission_split_exact (st : VoteState) (on : Z) (Hc : u8 (commission st)) (Hon : u64 on) :
  let c := Z.min (commission st) 100 in
  let '(mine, theirs, was_split) := commission_split st on in
  mine = on * c / 100 /\ theirs = on * (100 - c) / 100
  /\ on - 1 <= mine + theirs <= on
  /\ (was_split = true <-> 0 < c < 100).
Proof.
  unfold commission_split. cbn zeta. set (c := Z.min (commission st) 100).
  assert (0 <= c <= 100) by (u_unfold; lia).
  assert (on - 1 <= on * c / 100 + on * (100 - c) / 100 <= on) as Hsum.
  { assert (on * (100 - c) = on * 100 - on * c) as -> by lia.
    pose proof (Z.div_mod (on * c) 100 ltac:(lia)). pose proof (Z.mod_pos_bound (on * c) 100 ltac:(lia)).
    pose proof (Z.div_mod (on * 100 - on * c) 100 ltac:(lia)).
    pose proof (Z.mod_pos_bound (on * 100 - on * c) 100 ltac:(lia)). lia. }
  destruct (Z.eqb_spec c 0) as [->|]; [|destruct (Z.eqb_spec c 100) as [->|]].
  - change (100 - 0) with 100 in *. rewrite Z.mul_0_r, Z.div_mul in * by lia. split_and!; try done; lia.
  - change (100 - 100) with 0 in *. rewrite Z.mul_0_r, Z.div_mul in * by lia. split_and!; try done; lia.
  - assert (0 <= on * c / 100) by (apply Z.div_pos; u_unfold; nia).
    assert (0 <= on * (100 - c) / 100) by (apply Z.div_pos; u_unfold; nia).
    rewrite !wrap64_small by (u_unfold; lia). split_and!; try done; lia.
Qed.

Lemma commission_split_exact_witness :
  let '(mine, theirs, was_split) := commission_split Sample.st 1005 in
  mine = 100 /\ theirs = 904 /\ 1004 <= mine + theirs <= 1005 /\ (was_split = true <-> 0 < 10 < 100).
Proof. apply (commission_split_exact Sample.st 1005); split; vm_compute; discriminate. Defined.

(** A credit is accounted once, in its epoch.  For a chained history of at
    most 64 epochs, [increment_credits] adds one to the total, records it for
    the given epoch with the total at the start of that epoch, keeps the
    history chained (each entry starts where the one before it ended) and at
    most 64 entries long. *)
Theorem increment_credits_exact (st : VoteState) (epoch : Epoch) (Hu : u64 (credits st + 1))
    (Hch : credits_chained (epoch_credits st))
    (Hlen : (length (epoch_credits st) <= MAX_EPOCH_CREDITS_HISTORY)%nat) :
  let st' := increment_credits st epoch in
  credits st' = credits st + 1 /\ current_epoch st' = epoch
  /\ last (epoch_credits st') = Some (epoch, credits st + 1, epoch_start_credits st epoch)
  /\ credits_chained (epoch_credits st')
  /\ (length (epoch_credits st') <= MAX_EPOCH_CREDITS_HISTORY)%nat.
Proof.
  cbn zeta. destruct (increment_credits_spec st epoch Hu Hch Hlen) as (Hl & Hc & Hn).
  split_and!; try done; unfold credits, current_epoch; by rewrite Hl.
Qed.

Lemma increment_credits_exact_witness :
  credits (increment_credits Sample.st 5) = 6 /\ current_epoch (increment_credits Sample.st 5) = 5.
Proof.
  destruct (increment_credits_exact Sample.st 5) as (H1 & H2 & _).
  - split; vm_compute; discriminate.
  - done.
  - cbn. unfold MAX_EPOCH_CREDITS_HISTORY. lia.
  - split; [exact H1|exact H2].
Defined.
