(* ===== verification/StakeState.v ===== *)
(** * Stake accounts

    sdk/program/src/stake/state.rs: the state of a stake account with its authorities
    and lockup, and how much of a delegation is effective, activating or deactivating
    at an epoch, which depends on the history of the cluster's stake and is computed
    in [f64]; with the errors of sdk/program/src/stake/instruction.rs and the
    configuration of sdk/program/src/stake/config.rs.

    The two loops walk from epoch to epoch through the history; its length is their
    fuel, and [StakeActivation] shows that it is enough. *)

From S2P Require Import Prelude Errors Float64 StakeHistory Account Invocation.

#[local] Open Scope arith_scope.

Module SE.
Inductive StakeError :=
| NoCreditsToRedeem | LockupInForce | AlreadyDeactivated | TooSoonToRedelegate | InsufficientStake
| MergeTransientStake | MergeMismatch | CustodianMissing | CustodianSignatureMissing.

Definition stake_to_u32 (e : StakeError) : Z :=
  match e with
  | NoCreditsToRedeem => 0 | LockupInForce => 1 | AlreadyDeactivated => 2 | TooSoonToRedelegate => 3
  | InsufficientStake => 4 | MergeTransientStake => 5 | MergeMismatch => 6 | CustodianMissing => 7
  | CustodianSignatureMissing => 8
  end.
End SE.

Abbreviation StakeError := SE.StakeError.

Definition stake_error_into (e : StakeError) : InstructionError := IE.Custom (SE.stake_to_u32 e).

(** ** Configuration *)

(** 0.25. *)
Definition DEFAULT_WARMUP_COOLDOWN_RATE : f64 := of_u64 1 ⊘ of_u64 4.
Definition DEFAULT_SLASH_PENALTY : Z := 5 * 255 / 100.

Record StakeConfig := {
  warmup_cooldown_rate : f64;
  slash_penalty : Z;
}.

Definition stake_config_default : StakeConfig :=
  {| warmup_cooldown_rate := DEFAULT_WARMUP_COOLDOWN_RATE; slash_penalty := DEFAULT_SLASH_PENALTY |}.

(** ** Lockups and authorities *)

Record Lockup := {
  lk_unix_timestamp : Z;
  lk_epoch : Epoch;
  lk_custodian : Pubkey;
}.

Definition lockup_default : Lockup :=
  {| lk_unix_timestamp := 0; lk_epoch := 0; lk_custodian := pubkey_default |}.

(** [Lockup::is_in_force]. *)
Definition is_in_force (lockup : Lockup) (clock : Clock) (custodian : option Pubkey) : bool :=
  if bool_decide (custodian = Some (lk_custodian lockup)) then false
  else (clk_unix_timestamp clock <? lk_unix_timestamp lockup) || (clk_epoch clock <? lk_epoch lockup).

Inductive StakeAuthorize := SA_Staker | SA_Withdrawer.

Record Authorized := {
  staker : Pubkey;
  withdrawer : Pubkey;
}.

(** [Authorized::check]. *)
Definition authorized_check (a : Authorized) (signers : gset N) (stake_authorize : StakeAuthorize)
    : result InstructionError unit :=
  match stake_authorize with
  | SA_Staker => if decide (staker a ∈ signers) then Ok tt else Err IE.MissingRequiredSignature
  | SA_Withdrawer => if decide (withdrawer a ∈ signers) then Ok tt else Err IE.MissingRequiredSignature
  end.

(** The check of the lockup when the withdrawer changes. *)
Definition check_custodian (signers : gset N) (lockup : Lockup) (clock : Clock) (custodian : option Pubkey)
    : result InstructionError unit :=
  if is_in_force lockup clock None then
    match custodian with
    | None => Err (stake_error_into SE.CustodianMissing)
    | Some custodian =>
        if negb (bool_decide (custodian ∈ signers)) then Err (stake_error_into SE.CustodianSignatureMissing)
        else if is_in_force lockup clock (Some custodian) then Err (stake_error_into SE.LockupInForce)
        else Ok tt
    end
  else Ok tt.

(** [Authorized::authorize]. *)
Definition authorized_authorize (a : Authorized) (signers : gset N) (new_authorized : Pubkey)
    (stake_authorize : StakeAuthorize) (lockup_custodian_args : option (Lockup * Clock * option Pubkey))
    : result InstructionError Authorized :=
  match stake_authorize with
  | SA_Staker =>
      if negb (bool_decide (staker a ∈ signers)) && negb (bool_decide (withdrawer a ∈ signers))
      then Err IE.MissingRequiredSignature
      else Ok {| staker := new_authorized; withdrawer := withdrawer a |}
  | SA_Withdrawer =>
      _ ← (match lockup_custodian_args with
           | Some (lockup, clock, custodian) => check_custodian signers lockup clock custodian
           | None => Ok tt
           end);
      _ ← authorized_check a signers stake_authorize;
      Ok {| staker := staker a; withdrawer := new_authorized |}
  end.

Record Meta := {
  rent_exempt_reserve : Z;
  meta_authorized : Authorized;
  meta_lockup : Lockup;
}.

Record LockupArgs := {
  la_unix_timestamp : option Z;
  la_epoch : option Epoch;
  la_custodian : option Pubkey;
}.

Definition with_authorized (meta : Meta) (a : Authorized) : Meta :=
  {| rent_exempt_reserve := rent_exempt_reserve meta; meta_authorized := a; meta_lockup := meta_lockup meta |}.

Definition with_reserve (meta : Meta) (reserve : Z) : Meta :=
  {| rent_exempt_reserve := reserve; meta_authorized := meta_authorized meta; meta_lockup := meta_lockup meta |}.

(** [Meta::set_lockup]. *)
Definition meta_set_lockup (meta : Meta) (lockup : LockupArgs) (signers : gset N) (clock : Clock)
    : result InstructionError Meta :=
  let old := meta_lockup meta in
  let required := if is_in_force old clock None then lk_custodian old else withdrawer (meta_authorized meta) in
  if negb (bool_decide (required ∈ signers)) then Err IE.MissingRequiredSignature
  else
    Ok {| rent_exempt_reserve := rent_exempt_reserve meta; meta_authorized := meta_authorized meta;
          meta_lockup := {| lk_unix_timestamp := default (lk_unix_timestamp old) (la_unix_timestamp lockup);
                            lk_epoch := default (lk_epoch old) (la_epoch lockup);
                            lk_custodian := default (lk_custodian old) (la_custodian lockup) |} |}.

(** ** Delegations *)

Record Delegation := {
  voter_pubkey : Pubkey;
  dg_stake : Z;
  activation_epoch : Epoch;
  deactivation_epoch : Epoch;
  dg_warmup_cooldown_rate : f64;
}.

(** [Delegation::new]. *)
Definition delegation_new (voter : Pubkey) (stake : Z) (activation : Epoch) (rate : f64) : Delegation :=
  {| voter_pubkey := voter; dg_stake := stake; activation_epoch := activation;
     deactivation_epoch := U64_MAX; dg_warmup_cooldown_rate := rate |}.

Definition is_bootstrap (d : Delegation) : bool := activation_epoch d =? U64_MAX.

(** The part of the cluster's change at an epoch that a stake is entitled to. *)
Definition entitlement (stake cluster_moving cluster_effective : Z) (rate : f64) : Z :=
  let weight := of_u64 stake ⊘ of_u64 cluster_moving in
  let newly_cluster := of_u64 cluster_effective ⊗ rate in
  Z.max (f64_as_u64 (weight ⊗ newly_cluster)) 1.

(** The loop of [stake_and_activating]. *)
Fixpoint activation_loop (fuel : nat) (d : Delegation) (target_epoch : Epoch) (history : StakeHistory)
    (prev_epoch : Epoch) (prev_cluster_stake : StakeHistoryEntry) (current_effective_stake : Z) : Z :=
  let current_epoch := wrap64 (prev_epoch + 1) in
  if activating prev_cluster_stake =? 0 then current_effective_stake
  else
    let remaining_activating_stake := wrap64 (dg_stake d - current_effective_stake) in
    let newly_effective_stake :=
      entitlement remaining_activating_stake (activating prev_cluster_stake)
        (effective prev_cluster_stake) (dg_warmup_cooldown_rate d) in
    let current_effective_stake := wrap64 (current_effective_stake + newly_effective_stake) in
    if dg_stake d <=? current_effective_stake then dg_stake d
    else if (target_epoch <=? current_epoch) || (deactivation_epoch d <=? current_epoch)
    then current_effective_stake
    else
      match fuel, stake_history_get history current_epoch with
      | S fuel, Some current_cluster_stake =>
          activation_loop fuel d target_epoch history current_epoch current_cluster_stake
            current_effective_stake
      | _, _ => current_effective_stake
      end.

(** [stake_and_activating]: the effective and the activating stake. *)
Definition stake_and_activating (d : Delegation) (target_epoch : Epoch) (history : option StakeHistory)
    : Z * Z :=
  let delegated_stake := dg_stake d in
  if is_bootstrap d then (delegated_stake, 0)
  else if activation_epoch d =? deactivation_epoch d then (0, 0)
  else if target_epoch =? activation_epoch d then (0, delegated_stake)
  else if target_epoch <? activation_epoch d then (0, 0)
  else
    match h ← history; c ← stake_history_get h (activation_epoch d); Some (h, c) with
    | Some (h, cluster_stake_at_activation_epoch) =>
        let current_effective_stake :=
          activation_loop (length h) d target_epoch h (activation_epoch d)
            cluster_stake_at_activation_epoch 0 in
        (current_effective_stake, wrap64 (delegated_stake - current_effective_stake))
    | None => (delegated_stake, 0)
    end.

(** The loop of [stake_activating_and_deactivating]. *)
Fixpoint deactivation_loop (fuel : nat) (d : Delegation) (target_epoch : Epoch) (history : StakeHistory)
    (prev_epoch : Epoch) (prev_cluster_stake : StakeHistoryEntry) (current_effective_stake : Z) : Z :=
  let current_epoch := wrap64 (prev_epoch + 1) in
  if deactivating prev_cluster_stake =? 0 then current_effective_stake
  else
    let newly_not_effective_stake :=
      entitlement current_effective_stake (deactivating prev_cluster_stake)
        (effective prev_cluster_stake) (dg_warmup_cooldown_rate d) in
    let current_effective_stake := sat_sub64 current_effective_stake newly_not_effective_stake in
    if current_effective_stake =? 0 then current_effective_stake
    else if target_epoch <=? current_epoch then current_effective_stake
    else
      match fuel, stake_history_get history current_epoch with
      | S fuel, Some current_cluster_stake =>
          deactivation_loop fuel d target_epoch history current_epoch current_cluster_stake
            current_effective_stake
      | _, _ => current_effective_stake
      end.

(** [stake_activating_and_deactivating]. *)
Definition stake_activating_and_deactivating (d : Delegation) (target_epoch : Epoch)
    (history : option StakeHistory) : StakeHistoryEntry :=
  let '(effective_stake, activating_stake) := stake_and_activating d target_epoch history in
  if target_epoch <? deactivation_epoch d then
    if activating_stake =? 0 then with_effective effective_stake
    else with_effective_and_activating effective_stake activating_stake
  else if target_epoch =? deactivation_epoch d then with_deactivating effective_stake
  else
    match h ← history; c ← stake_history_get h (deactivation_epoch d); Some (h, c) with
    | Some (h, cluster_stake_at_deactivation_epoch) =>
        with_deactivating
          (deactivation_loop (length h) d target_epoch h (deactivation_epoch d)
             cluster_stake_at_deactivation_epoch effective_stake)
    | None => entry_default
    end.

(** [Delegation::stake]. *)
Definition delegation_stake (d : Delegation) (epoch : Epoch) (history : option StakeHistory) : Z :=
  effective (stake_activating_and_deactivating d epoch history).

(** ** Stakes *)

Record Stake := {
  delegation : Delegation;
  credits_observed : Z;
}.

Definition with_stake (s : Stake) (amount : Z) : Stake :=
  let d := delegation s in
  {| delegation := {| voter_pubkey := voter_pubkey d; dg_stake := amount;
                      activation_epoch := activation_epoch d; deactivation_epoch := deactivation_epoch d;
                      dg_warmup_cooldown_rate := dg_warmup_cooldown_rate d |};
     credits_observed := credits_observed s |}.

Definition with_deactivation (s : Stake) (epoch : Epoch) : Stake :=
  let d := delegation s in
  {| delegation := {| voter_pubkey := voter_pubkey d; dg_stake := dg_stake d;
                      activation_epoch := activation_epoch d; deactivation_epoch := epoch;
                      dg_warmup_cooldown_rate := dg_warmup_cooldown_rate d |};
     credits_observed := credits_observed s |}.

Definition with_credits_observed (s : Stake) (credits : Z) : Stake :=
  {| delegation := delegation s; credits_observed := credits |}.

(** [Stake::split]: the stake that remains and the new one. *)
Definition stake_split (s : Stake) (remaining_stake_delta split_stake_amount : Z)
    : result StakeError (Stake * Stake) :=
  if dg_stake (delegation s) <? remaining_stake_delta then Err SE.InsufficientStake
  else
    let s := with_stake s (wrap64 (dg_stake (delegation s) - remaining_stake_delta)) in
    Ok (s, with_stake s split_stake_amount).

(** [Stake::deactivate]. *)
Definition stake_deactivate (s : Stake) (epoch : Epoch) : result StakeError Stake :=
  if negb (deactivation_epoch (delegation s) =? U64_MAX) then Err SE.AlreadyDeactivated
  else Ok (with_deactivation s epoch).

Inductive StakeState :=
| SS_Uninitialized
| SS_Initialized (meta : Meta)
| SS_Stake (meta : Meta) (stake : Stake)
| SS_RewardsPool.

(** [std::mem::size_of::<StakeState>()]. *)
Definition size_of_stake_state : nat := 200.
