(* ===== verification/StakeActivation.v ===== *)
(** * Warmup and cooldown

    What [stake_activating_and_deactivating] promises for every history of the cluster:
    no more than the delegated stake is ever effective or activating, the walks through
    the history end, and the effective stake of a deactivated delegation never grows
    again. *)

From S2P Require Import Prelude Errors Float64 StakeHistory Account Invocation StakeState.

(** ** Bounds *)

Definition delegation_ok (d : Delegation) : Prop := 0 <= dg_stake d <= U64_MAX.

Lemma entitlement_pos stake moving eff rate : 1 <= entitlement stake moving eff rate.
Proof. unfold entitlement. lia. Qed.

Lemma activation_loop_bound fuel : forall d target h prev c cur,
  delegation_ok d -> 0 <= cur <= dg_stake d ->
  0 <= activation_loop fuel d target h prev c cur <= dg_stake d.
Proof.
  induction fuel as [|fuel IH]; intros d target h prev c cur Hd Hcur; cbn [activation_loop].
  all: destruct (_ =? 0); [lia|]; set (cur' := wrap64 (cur + _));
    pose proof (wrap64_bound (cur + entitlement (wrap64 (dg_stake d - cur)) (activating c) (effective c)
      (dg_warmup_cooldown_rate d))) as Hw; fold cur' in Hw;
    destruct (Z.leb_spec (dg_stake d) cur'); [unfold delegation_ok in *; lia|]; u_unfold;
    destruct (_ || _); [lia|].
  - lia.
  - destruct (stake_history_get h _); [apply IH; [done|lia]|lia].
Qed.

Lemma deactivation_loop_bound fuel : forall d target h prev c cur,
  0 <= cur -> 0 <= deactivation_loop fuel d target h prev c cur <= cur.
Proof.
  induction fuel as [|fuel IH]; intros d target h prev c cur Hcur; cbn [deactivation_loop].
  all: destruct (_ =? 0); [lia|]; set (cur' := sat_sub64 cur _);
    assert (0 <= cur' <= cur) by (unfold cur', sat_sub64;
      pose proof (entitlement_pos cur (deactivating c) (effective c) (dg_warmup_cooldown_rate d)); lia);
    destruct (_ =? 0); [lia|]; destruct (_ <=? _); [lia|].
  - lia.
  - destruct (stake_history_get h _) as [c'|]; [|lia].
    pose proof (IH d target h (wrap64 (prev + 1)) c' cur'). lia.
Qed.

Lemma stake_and_activating_bound d target history e a :
  delegation_ok d -> stake_and_activating d target history = (e, a) ->
  0 <= e /\ 0 <= a /\ e + a <= dg_stake d.
Proof.
  intros Hd. pose proof Hd as [? ?]. unfold stake_and_activating.
  destruct (is_bootstrap d); [intros [= <- <-]; lia|].
  destruct (_ =? _); [intros [= <- <-]; lia|]. destruct (_ =? _); [intros [= <- <-]; lia|].
  destruct (_ <? _); [intros [= <- <-]; lia|].
  destruct (h ← history; _) as [[h c]|]; [|intros [= <- <-]; lia].
  intros [= <- <-]. pose proof (activation_loop_bound (length h) d target h (activation_epoch d) c 0 Hd) as Hb.
  rewrite wrap64_small by (u_unfold; unfold delegation_ok in *; lia). lia.
Qed.

(** ** Fuel *)

(** The entries of the history after an epoch. *)
Definition later_entries (h : StakeHistory) (epoch : Epoch) : nat :=
  length (filter (fun p => epoch < p.1) h).

Lemma later_entries_next (h : StakeHistory) epoch c :
  history_sorted h -> stake_history_get h (epoch + 1) = Some c ->
  (later_entries h (epoch + 1) < later_entries h epoch)%nat.
Proof.
  intros Hs Hin%stake_history_get_spec; [|done]. unfold later_entries. clear Hs.
  assert (forall l : StakeHistory,
    (length (filter (fun p => (epoch + 1 < p.1)%Z) l) <= length (filter (fun p => (epoch < p.1)%Z) l))%nat) as Hle.
  { induction l as [|p l IH]; [done|]. rewrite !filter_cons.
    destruct (decide (epoch + 1 < p.1)), (decide (epoch < p.1)); cbn; lia. }
  induction h as [|p h IH]; [by apply not_elem_of_nil in Hin|]. rewrite !filter_cons.
  apply elem_of_cons in Hin as [<-|Hin].
  - cbn [fst]. rewrite decide_False, decide_True by lia. cbn. specialize (Hle h). lia.
  - specialize (IH Hin). destruct (decide (epoch + 1 < p.1)), (decide (epoch < p.1)); cbn; lia.
Qed.

Lemma later_entries_length (h : StakeHistory) epoch : (later_entries h epoch <= length h)%nat.
Proof. apply length_filter. Qed.

(** More fuel than there are entries left does not change the result. *)
Lemma activation_loop_fuel fuel : forall fuel' d target h prev c cur,
  history_sorted h -> 0 <= prev < target -> target <= U64_MAX ->
  (later_entries h prev <= fuel)%nat -> (later_entries h prev <= fuel')%nat ->
  activation_loop fuel d target h prev c cur = activation_loop fuel' d target h prev c cur.
Proof.
  induction fuel as [|fuel IH]; intros [|fuel'] d target h prev c cur Hs Hp Ht Hf Hf';
    cbn [activation_loop]; [done|..].
  all: rewrite (wrap64_small (prev + 1)) by (u_unfold; lia).
  all: destruct (_ =? 0); [done|]; destruct (_ <=? _); [done|];
    destruct (_ || _) eqn:Eo; [done|]; apply orb_false_iff in Eo as [Eo%Z.leb_gt _].
  all: destruct (stake_history_get h (prev + 1)) as [c'|] eqn:Eg; [|done];
    pose proof (later_entries_next _ _ _ Hs Eg); try lia.
  apply IH; [done|lia|done|lia|lia].
Qed.

Lemma deactivation_loop_fuel fuel : forall fuel' d target h prev c cur,
  history_sorted h -> 0 <= prev < target -> target <= U64_MAX ->
  (later_entries h prev <= fuel)%nat -> (later_entries h prev <= fuel')%nat ->
  deactivation_loop fuel d target h prev c cur = deactivation_loop fuel' d target h prev c cur.
Proof.
  induction fuel as [|fuel IH]; intros [|fuel'] d target h prev c cur Hs Hp Ht Hf Hf';
    cbn [deactivation_loop]; [done|..].
  all: rewrite (wrap64_small (prev + 1)) by (u_unfold; lia).
  all: destruct (_ =? 0); [done|]; destruct (_ =? 0); [done|]; destruct (_ <=? _) eqn:Eo; [done|];
    apply Z.leb_gt in Eo.
  all: destruct (stake_history_get h (prev + 1)) as [c'|] eqn:Eg; [|done];
    pose proof (later_entries_next _ _ _ Hs Eg); try lia.
  apply IH; [done|lia|done|lia|lia].
Qed.

(** ** Time *)

(** The later history has the same entries before the epoch. *)
Definition history_extends (epoch : Epoch) (h h' : StakeHistory) : Prop :=
  forall x, x < epoch -> stake_history_get h' x = stake_history_get h x.

(** The activation of a deactivated delegation ends at its deactivation. *)
Lemma activation_loop_ended fuel : forall d t t' h h' prev c cur,
  0 <= prev < deactivation_epoch d -> deactivation_epoch d <= t -> deactivation_epoch d <= t' ->
  t <= U64_MAX -> history_extends (deactivation_epoch d) h h' ->
  activation_loop fuel d t' h' prev c cur = activation_loop fuel d t h prev c cur.
Proof.
  induction fuel as [|fuel IH]; intros d t t' h h' prev c cur Hp Ht Ht' Hmax Hext; cbn [activation_loop].
  all: rewrite (wrap64_small (prev + 1)) by (u_unfold; lia).
  all: destruct (_ =? 0); [done|]; destruct (_ <=? _); [done|].
  all: destruct (Z.leb_spec (deactivation_epoch d) (prev + 1)); [by rewrite !orb_true_r|]; rewrite !orb_false_r;
    destruct (Z.leb_spec t' (prev + 1)); [lia|]; destruct (Z.leb_spec t (prev + 1)); [lia|].
  - done.
  - rewrite (Hext (prev + 1)) by lia. destruct (stake_history_get h (prev + 1)); [|done].
    apply IH; try done; lia.
Qed.

Lemma deactivation_loop_decreases fuel : forall d t t' h h' prev c cur,
  0 <= cur -> 0 <= prev < t -> t <= t' -> t <= U64_MAX -> history_extends t h h' ->
  deactivation_loop fuel d t' h' prev c cur <= deactivation_loop fuel d t h prev c cur.
Proof.
  induction fuel as [|fuel IH]; intros d t t' h h' prev c cur Hcur Hp Ht Hmax Hext; cbn [deactivation_loop].
  all: rewrite (wrap64_small (prev + 1)) by (u_unfold; lia).
  all: destruct (_ =? 0); [lia|]; set (cur' := sat_sub64 cur _);
    assert (0 <= cur') by (unfold cur', sat_sub64; lia); destruct (_ =? 0); [lia|].
  - destruct (_ <=? _), (_ <=? _); lia.
  - destruct (Z.leb_spec t (prev + 1)).
    + destruct (_ <=? _); [lia|]. destruct (stake_history_get h' _) as [c'|]; [|lia].
      pose proof (deactivation_loop_bound fuel d t' h' (prev + 1) c' cur'). lia.
    + destruct (Z.leb_spec t' (prev + 1)); [lia|]. rewrite (Hext (prev + 1)) by lia.
      destruct (stake_history_get h (prev + 1)); [|lia]. apply IH; try done; lia.
Qed.

(** A delegation as the stake program makes it: activated before it is deactivated, or
    a bootstrap stake. *)
Definition epochs_ok (d : Delegation) : Prop :=
  0 <= activation_epoch d /\ 0 <= deactivation_epoch d <= U64_MAX
  /\ (is_bootstrap d = true \/ activation_epoch d <= deactivation_epoch d).

Lemma ended_activation_same d t t' h h' :
  history_sorted h -> history_sorted h' -> epochs_ok d ->
  deactivation_epoch d <= t -> t <= t' -> t' <= U64_MAX -> history_extends t h h' ->
  (stake_and_activating d t' (Some h')).1 = (stake_and_activating d t (Some h)).1.
Proof.
  intros Hs Hs' (Ha & Hd & Hor) Ht Ht' Hmax Hext. unfold stake_and_activating.
  destruct (is_bootstrap d); [done|]. destruct Hor as [|Hle]; [done|].
  destruct (Z.eqb_spec (activation_epoch d) (deactivation_epoch d)) as [|Hne]; [done|].
  destruct (Z.eqb_spec t (activation_epoch d)), (Z.eqb_spec t' (activation_epoch d)); try lia.
  destruct (Z.ltb_spec t (activation_epoch d)), (Z.ltb_spec t' (activation_epoch d)); try lia.
  cbn [mbind option_bind]. rewrite (Hext (activation_epoch d)) by lia.
  destruct (stake_history_get h (activation_epoch d)) as [c|]; [|done]. cbn [fst mbind option_bind].
  pose proof (later_entries_length h (activation_epoch d)). pose proof (later_entries_length h' (activation_epoch d)).
  rewrite (activation_loop_fuel (length h') (length h + length h')) by (done || lia).
  rewrite (activation_loop_fuel (length h) (length h + length h')) by (done || lia).
  apply activation_loop_ended; try lia. intros x Hx. apply Hext. lia.
Qed.

(** The effective stake of a deactivated delegation never grows. *)
Lemma deactivated_effective_decreases d t t' h h' :
  history_sorted h -> history_sorted h' -> delegation_ok d -> epochs_ok d ->
  deactivation_epoch d <= t -> t <= t' -> t' <= U64_MAX -> history_extends t h h' ->
  delegation_stake d t' (Some h') <= delegation_stake d t (Some h).
Proof.
  intros Hs Hs' Hd He Ht Ht' Hmax Hext.
  pose proof (ended_activation_same d t t' h h' Hs Hs' He Ht Ht' Hmax Hext) as Heq.
  unfold delegation_stake, stake_activating_and_deactivating.
  destruct (stake_and_activating d t' (Some h')) as [e' a'] eqn:E'.
  destruct (stake_and_activating d t (Some h)) as [e a] eqn:E. cbn in Heq. subst e'.
  destruct (stake_and_activating_bound _ _ _ _ _ Hd E) as (He0 & _ & _).
  destruct (Z.ltb_spec t (deactivation_epoch d)), (Z.ltb_spec t' (deactivation_epoch d)); try lia.
  destruct (Z.eqb_spec t' (deactivation_epoch d)) as [|Hne'];
    [destruct (Z.eqb_spec t (deactivation_epoch d)); [cbn; lia|lia]|].
  cbn [mbind option_bind]. destruct (Z.eqb_spec t (deactivation_epoch d)) as [|Hne].
  - destruct (stake_history_get h' _) as [c|]; [|cbn; lia]. cbn [effective with_deactivating mbind option_bind].
    pose proof (deactivation_loop_bound (length h') d t' h' (deactivation_epoch d) c e He0). lia.
  - rewrite (Hext (deactivation_epoch d)) by lia.
    destruct (stake_history_get h (deactivation_epoch d)) as [c|]; [|cbn; lia].
    cbn [effective with_deactivating mbind option_bind]. destruct He as (_ & Hdr & _).
    pose proof (later_entries_length h (deactivation_epoch d)).
    pose proof (later_entries_length h' (deactivation_epoch d)).
    rewrite (deactivation_loop_fuel (length h') (length h + length h')) by (done || lia).
    rewrite (deactivation_loop_fuel (length h) (length h + length h')) by (done || lia).
    apply deactivation_loop_decreases; done || lia.
Qed.

Lemma delegation_stake_bound d epoch h : delegation_ok d -> 0 <= delegation_stake d epoch h <= dg_stake d.
Proof.
  intros Hd. unfold delegation_stake, stake_activating_and_deactivating.
  destruct (stake_and_activating d epoch h) as [e a] eqn:E.
  destruct (stake_and_activating_bound _ _ _ _ _ Hd E) as (He & Ha & Hs). unfold delegation_ok in Hd.
  destruct (_ <? _); [destruct (_ =? 0); cbn; lia|]. destruct (_ =? _); [cbn; lia|].
  destruct (_ ← h; _) as [[h' c]|]; [|cbn; lia]. cbn [effective with_deactivating].
  pose proof (deactivation_loop_bound (length h') d epoch h' (deactivation_epoch d) c e He). lia.
Qed.

(** The effective stake of a delegation is between nothing and the delegated lamports at every
    epoch and for every history of the cluster, although it is computed in floating
    point; with what is still activating it does not exceed the delegation; and once the
    delegation is deactivated it never grows from an epoch to a later one. *)
Theorem deactivated_stake_decreases d t t' h h' :
  history_sorted h -> history_sorted h' -> delegation_ok d -> epochs_ok d ->
  deactivation_epoch d <= t -> t <= t' -> t' <= U64_MAX -> history_extends t h h' ->
  0 <= delegation_stake d t' (Some h') <= delegation_stake d t (Some h)
  /\ delegation_stake d t (Some h) <= dg_stake d
  /\ forall epoch history, let '(e, a) := stake_and_activating d epoch history in
       0 <= e /\ 0 <= a /\ e + a <= dg_stake d.
Proof.
  intros Hs Hs' Hd He Ht Ht' Hmax Hext. split_and!.
  - by apply delegation_stake_bound.
  - by apply deactivated_effective_decreases.
  - by apply delegation_stake_bound.
  - intros epoch history. destruct (stake_and_activating d epoch history) as [e a] eqn:E.
    by eapply stake_and_activating_bound.
Qed.
