(* ===== verification/StakeProgram.v ===== *)
(** * The stake program's instruction handlers

    Models the account-level functions of programs/stake/src/stake_state.rs and
    config.rs: a stake account holds a serialized [StakeState]; a handler checks the
    authorities, updates the states and moves lamports.  A handler works on the store
    of the transaction's accounts, so that two arguments may be one account, and what it
    has written before an error stays written: the monad [handler]. *)

From S2P Require Import Prelude Keys Errors Float64 StakeHistory Account Invocation VoteState VoteProgram StakeState.
From Stdlib Require Import SpecFloat.

#[local] Open Scope arith_scope.

(** ** Handlers *)

Definition handler (A : Type) : Type :=
  accounts_store -> outcome (accounts_store * result InstructionError A).

Definition h_ok {A} (a : A) : handler A := fun s => Returns (s, Ok a).
Definition h_err {A} (e : InstructionError) : handler A := fun s => Returns (s, Err e).
Definition h_try {A} (r : result InstructionError A) : handler A := fun s => Returns (s, r).

Definition h_bind {A B} (m : handler A) (k : A -> handler B) : handler B := fun s =>
  '(s, r) ← m s; match r with Ok a => k a s | Err e => Returns (s, Err e) end.

Declare Scope handler_scope.
Notation "'let!' x := m 'in' k" := (h_bind m (fun x => k))
  (at level 10, x pattern, m at level 200, k at level 200,
   format "'let!'  x  :=  m  'in' '//' k") : handler_scope.
#[local] Open Scope handler_scope.

(** A keyed account's fields. *)
Definition account_of (key : Pubkey) : handler AccountSharedData := fun s => Returns (s, Ok (s key)).

(** [try_account_ref_mut()?.checked_add_lamports(..)?]. *)
Definition h_add_lamports (key : Pubkey) (lamports : Z) : handler unit := fun s =>
  match checked_add_lamports (s key) lamports with
  | Ok a => Returns (store_set s key a, Ok tt)
  | Err e => Returns (s, Err (lamports_error_into e))
  end.

Definition h_sub_lamports (key : Pubkey) (lamports : Z) : handler unit := fun s =>
  match checked_sub_lamports (s key) lamports with
  | Ok a => Returns (store_set s key a, Ok tt)
  | Err e => Returns (s, Err (lamports_error_into e))
  end.

Definition h_assert (b : bool) : handler unit := fun s => _ ← assert_ b; Returns (s, Ok tt).

(** [if b { return Err(e) }]. *)
Definition h_return_if (b : bool) (e : InstructionError) : handler unit := if b then h_err e else h_ok tt.

(** ** Amounts *)

Definition MINIMUM_STAKE_DELEGATION : Z := 1.

(** [instruction::checked_add]. *)
Definition checked_add (a b : Z) : result InstructionError Z := ok_or (checked_add64 a b) IE.InsufficientFunds.

(** [f64::EPSILON]. *)
Definition F64_EPSILON : f64 := of_u64 1 ⊘ of_u64 (2 ^ 52).

(** [calculate_split_rent_exempt_reserve]. *)
Definition calculate_split_rent_exempt_reserve (source_rent_exempt_reserve source_data_len split_data_len : Z) : Z :=
  let lamports_per_byte_year :=
    source_rent_exempt_reserve / wrap64 (source_data_len + ACCOUNT_STORAGE_OVERHEAD) in
  wrap64 (lamports_per_byte_year * wrap64 (split_data_len + ACCOUNT_STORAGE_OVERHEAD)).

Definition validate_delegated_amount (account : AccountSharedData) (meta : Meta) : Z :=
  sat_sub64 (acc_lamports account) (rent_exempt_reserve meta).

Record ValidatedSplitInfo := {
  source_remaining_balance : Z;
  destination_rent_exempt_reserve : Z;
}.

Definition validate_split_amount (source_account destination_account : AccountSharedData) (lamports : Z)
    (source_meta : Meta) (source_stake : option Stake) : result InstructionError ValidatedSplitInfo :=
  let source_lamports := acc_lamports source_account in
  let destination_lamports := acc_lamports destination_account in
  if lamports =? 0 then Err IE.InsufficientFunds
  else if source_lamports <? lamports then Err IE.InsufficientFunds
  else
    let source_minimum_balance := sat_add64 (rent_exempt_reserve source_meta) MINIMUM_STAKE_DELEGATION in
    let source_remaining := sat_sub64 source_lamports lamports in
    if negb (source_remaining =? 0) && (source_remaining <? source_minimum_balance)
    then Err IE.InsufficientFunds
    else
      let destination_reserve :=
        calculate_split_rent_exempt_reserve (rent_exempt_reserve source_meta)
          (Z.of_nat (length (acc_data source_account))) (Z.of_nat (length (acc_data destination_account))) in
      let destination_minimum_balance := sat_add64 destination_reserve MINIMUM_STAKE_DELEGATION in
      let destination_balance_deficit := sat_sub64 destination_minimum_balance destination_lamports in
      if lamports <? destination_balance_deficit then Err IE.InsufficientFunds
      else if is_some source_stake && (lamports <? MINIMUM_STAKE_DELEGATION) then Err IE.InsufficientFunds
      else Ok {| source_remaining_balance := source_remaining;
                 destination_rent_exempt_reserve := destination_reserve |}.

(** ** Delegation *)

(** The delegation is scheduled to deactivate in this epoch and goes to the same voter. *)
Definition rescinds (d : Delegation) (voter : Pubkey) (epoch : Epoch) : bool :=
  N.eqb (voter_pubkey d) voter && (epoch =? deactivation_epoch d).

Definition redelegate (stake : Stake) (stake_lamports : Z) (voter : Pubkey) (vote_state : VoteState)
    (clock : Clock) (stake_history : StakeHistory) (config : StakeConfig) : result StakeError Stake :=
  if negb (delegation_stake (delegation stake) (clk_epoch clock) (Some stake_history) =? 0) then
    if rescinds (delegation stake) voter (clk_epoch clock) then Ok (with_deactivation stake U64_MAX)
    else Err SE.TooSoonToRedelegate
  else
    Ok {| delegation := {| voter_pubkey := voter; dg_stake := stake_lamports;
                           activation_epoch := clk_epoch clock; deactivation_epoch := U64_MAX;
                           dg_warmup_cooldown_rate := warmup_cooldown_rate config |};
          credits_observed := credits vote_state |}.

Definition new_stake (stake : Z) (voter : Pubkey) (vote_state : VoteState) (activation : Epoch)
    (config : StakeConfig) : Stake :=
  {| delegation := delegation_new voter stake activation (warmup_cooldown_rate config);
     credits_observed := credits vote_state |}.

(** ** Merging *)

#[global] Instance Lockup_eq_dec : EqDecision Lockup.
Proof. solve_decision. Defined.
#[global] Instance Authorized_eq_dec : EqDecision Authorized.
Proof. solve_decision. Defined.

Inductive MergeKind :=
| MK_Inactive (meta : Meta) (lamports : Z)
| MK_ActivationEpoch (meta : Meta) (stake : Stake)
| MK_FullyActive (meta : Meta) (stake : Stake).

Definition merge_meta (k : MergeKind) : Meta :=
  match k with MK_Inactive meta _ | MK_ActivationEpoch meta _ | MK_FullyActive meta _ => meta end.

Definition active_stake (k : MergeKind) : option Stake :=
  match k with MK_Inactive _ _ => None | MK_ActivationEpoch _ stake | MK_FullyActive _ stake => Some stake end.

(** [MergeKind::get_if_mergeable] on the state and the lamports of the account. *)
Definition get_if_mergeable (st : StakeState) (lamports : Z) (clock : Clock) (stake_history : StakeHistory)
    : result InstructionError MergeKind :=
  match st with
  | SS_Stake meta stake =>
      let status := stake_activating_and_deactivating (delegation stake) (clk_epoch clock) (Some stake_history) in
      if (effective status =? 0) && (activating status =? 0) && (deactivating status =? 0)
      then Ok (MK_Inactive meta lamports)
      else if effective status =? 0 then Ok (MK_ActivationEpoch meta stake)
      else if (activating status =? 0) && (deactivating status =? 0) then Ok (MK_FullyActive meta stake)
      else Err (stake_error_into SE.MergeTransientStake)
  | SS_Initialized meta => Ok (MK_Inactive meta lamports)
  | _ => Err IE.InvalidAccountData
  end.

Definition metas_can_merge (stake source : Meta) (clock : Clock) : result InstructionError unit :=
  let can_merge_lockups :=
    bool_decide (meta_lockup stake = meta_lockup source)
    || (negb (is_in_force (meta_lockup stake) clock None) && negb (is_in_force (meta_lockup source) clock None)) in
  if bool_decide (meta_authorized stake = meta_authorized source) && can_merge_lockups then Ok tt
  else Err (stake_error_into SE.MergeMismatch).

Definition active_delegations_can_merge (stake source : Delegation) : result InstructionError unit :=
  if negb (N.eqb (voter_pubkey stake) (voter_pubkey source)) then Err (stake_error_into SE.MergeMismatch)
  else if SFltb (SFabs (dg_warmup_cooldown_rate stake ⊖ dg_warmup_cooldown_rate source)) F64_EPSILON
          && (deactivation_epoch stake =? U64_MAX) && (deactivation_epoch source =? U64_MAX)
  then Ok tt
  else Err (stake_error_into SE.MergeMismatch).

Definition active_stakes_can_merge (stake source : Stake) : result InstructionError unit :=
  _ ← active_delegations_can_merge (delegation stake) (delegation source);
  if credits_observed stake =? credits_observed source then Ok tt
  else Err (stake_error_into SE.MergeMismatch).

Definition u64_try_from (z : Z) : option Z := if z <=? U64_MAX then Some z else None.

Definition checked_mul128 (a b : Z) : option Z := if a * b <=? U128_MAX then Some (a * b) else None.
Definition checked_div128 (a b : Z) : option Z := if b =? 0 then None else Some (a / b).

Definition stake_weighted_credits_observed (stake : Stake) (absorbed_lamports absorbed_credits_observed : Z)
    : option Z :=
  if credits_observed stake =? absorbed_credits_observed then Some (credits_observed stake)
  else
    total_stake ← checked_add64 (dg_stake (delegation stake)) absorbed_lamports;
    stake_weighted_credits ← checked_mul128 (credits_observed stake) (dg_stake (delegation stake));
    absorbed_weighted_credits ← checked_mul128 absorbed_credits_observed absorbed_lamports;
    a ← checked_add128 stake_weighted_credits absorbed_weighted_credits;
    b ← checked_add128 a total_stake;
    total_weighted_credits ← checked_sub128 b 1;
    q ← checked_div128 total_weighted_credits total_stake;
    u64_try_from q.

(** [unmatched] stands for the feature [stake_merge_with_unmatched_credits_observed]. *)
Definition merge_delegation_stake_and_credits_observed (unmatched : bool) (stake : Stake)
    (absorbed_lamports absorbed_credits_observed : Z) : result InstructionError Stake :=
  stake ← (if unmatched then
             c ← ok_or (stake_weighted_credits_observed stake absorbed_lamports absorbed_credits_observed)
                   IE.ArithmeticOverflow;
             Ok (with_credits_observed stake c)
           else Ok stake);
  amount ← checked_add (dg_stake (delegation stake)) absorbed_lamports;
  Ok (with_stake stake amount).

(** [MergeKind::merge]. *)
Definition merge_kinds (unmatched : bool) (self source : MergeKind) (clock : Clock)
    : result InstructionError (option StakeState) :=
  _ ← metas_can_merge (merge_meta self) (merge_meta source) clock;
  _ ← (match active_stake self, active_stake source with
       | Some stake, Some source =>
           if unmatched then active_delegations_can_merge (delegation stake) (delegation source)
           else active_stakes_can_merge stake source
       | _, _ => Ok tt
       end);
  match self, source with
  | MK_Inactive _ _, MK_Inactive _ _ => Ok None
  | MK_Inactive _ _, MK_ActivationEpoch _ _ => Ok None
  | MK_ActivationEpoch meta stake, MK_Inactive _ source_lamports =>
      amount ← checked_add (dg_stake (delegation stake)) source_lamports;
      Ok (Some (SS_Stake meta (with_stake stake amount)))
  | MK_ActivationEpoch meta stake, MK_ActivationEpoch source_meta source_stake =>
      source_lamports ← checked_add (rent_exempt_reserve source_meta) (dg_stake (delegation source_stake));
      stake ← merge_delegation_stake_and_credits_observed unmatched stake source_lamports
                (credits_observed source_stake);
      Ok (Some (SS_Stake meta stake))
  | MK_FullyActive meta stake, MK_FullyActive _ source_stake =>
      stake ← merge_delegation_stake_and_credits_observed unmatched stake
                (dg_stake (delegation source_stake)) (credits_observed source_stake);
      Ok (Some (SS_Stake meta stake))
  | _, _ => Err (stake_error_into SE.MergeMismatch)
  end.

(** ** The handlers *)

(** [solana_config_program::ConfigKeys]. *)
Record ConfigKeys := { config_keys : list (Pubkey * bool) }.

Section StakeHandlers.
Context `{Bincode StakeState} `{Bincode VoteStateVersions} `{SeedHash}.

Definition stake_state_of (key : Pubkey) : handler StakeState := fun s => Returns (s, state (s key)).

Definition vote_state_of (key : Pubkey) : handler VoteState := fun s =>
  Returns (s, versioned ← state (s key); Ok (convert_to_current versioned)).

Definition set_stake_state (key : Pubkey) (st : StakeState) : handler unit := fun s =>
  match set_state (s key) st with
  | Ok a => Returns (store_set s key a, Ok tt)
  | Err e => Returns (s, Err e)
  end.

Definition stake_initialize (self : Pubkey) (authorized : Authorized) (lockup : Lockup) (rent : Rent)
    : handler unit :=
  let! account := account_of self in
  let! _ := h_return_if (negb (length (acc_data account) =? size_of_stake_state)%nat) IE.InvalidAccountData in
  let! st := stake_state_of self in
  match st with
  | SS_Uninitialized =>
      let reserve := minimum_balance rent (length (acc_data account)) in
      let minimum := wrap64 (reserve + MINIMUM_STAKE_DELEGATION) in
      if minimum <=? acc_lamports account then
        set_stake_state self (SS_Initialized {| rent_exempt_reserve := reserve; meta_authorized := authorized;
                                                meta_lockup := lockup |})
      else h_err IE.InsufficientFunds
  | _ => h_err IE.InvalidAccountData
  end.

(** [require_custodian] stands for the feature [require_custodian_for_locked_stake_authorize]. *)
Definition stake_authorize_with (self : Pubkey) (signers : gset N) (new_authority : Pubkey)
    (stake_authorize : StakeAuthorize) (require_custodian : bool) (clock : Clock) (custodian : option Pubkey)
    : handler unit :=
  let lockup_args meta := if require_custodian then Some (meta_lockup meta, clock, custodian) else None in
  let! st := stake_state_of self in
  match st with
  | SS_Stake meta stake =>
      let! a := h_try (authorized_authorize (meta_authorized meta) signers new_authority stake_authorize
                         (lockup_args meta)) in
      set_stake_state self (SS_Stake (with_authorized meta a) stake)
  | SS_Initialized meta =>
      let! a := h_try (authorized_authorize (meta_authorized meta) signers new_authority stake_authorize
                         (lockup_args meta)) in
      set_stake_state self (SS_Initialized (with_authorized meta a))
  | _ => h_err IE.InvalidAccountData
  end.

(** The signers are the key derived from the base, if the base signed. *)
Definition seed_signers (authority_base : KeyedAccount) (authority_seed : list Z) (authority_owner : Pubkey)
    : result InstructionError (gset N) :=
  match signer_key authority_base with
  | Some base_pubkey =>
      k ← map_err pubkey_error_into (create_with_seed base_pubkey authority_seed authority_owner);
      Ok ({[ k ]} : gset N)
  | None => Ok (∅ : gset N)
  end.

Definition stake_authorize_with_seed (self : Pubkey) (authority_base : KeyedAccount) (authority_seed : list Z)
    (authority_owner new_authority : Pubkey) (stake_authorize : StakeAuthorize) (require_custodian : bool)
    (clock : Clock) (custodian : option Pubkey) : handler unit :=
  let! signers := h_try (seed_signers authority_base authority_seed authority_owner) in
  stake_authorize_with self signers new_authority stake_authorize require_custodian clock custodian.

Definition stake_delegate (self vote_account : Pubkey) (clock : Clock) (stake_history : StakeHistory)
    (config : StakeConfig) (signers : gset N) : handler unit :=
  let! vote := account_of vote_account in
  let! _ := h_return_if (negb (N.eqb (acc_owner vote) vote_program_id)) IE.IncorrectProgramId in
  let! st := stake_state_of self in
  let! account := account_of self in
  match st with
  | SS_Initialized meta =>
      let! _ := h_try (authorized_check (meta_authorized meta) signers SA_Staker) in
      let stake_amount := validate_delegated_amount account meta in
      let! vote_state := vote_state_of vote_account in
      set_stake_state self
        (SS_Stake meta (new_stake stake_amount vote_account vote_state (clk_epoch clock) config))
  | SS_Stake meta stake =>
      let! _ := h_try (authorized_check (meta_authorized meta) signers SA_Staker) in
      let stake_amount := validate_delegated_amount account meta in
      let! vote_state := vote_state_of vote_account in
      let! stake := h_try (map_err stake_error_into
        (redelegate stake stake_amount vote_account vote_state clock stake_history config)) in
      set_stake_state self (SS_Stake meta stake)
  | _ => h_err IE.InvalidAccountData
  end.

Definition stake_deactivate_account (self : Pubkey) (clock : Clock) (signers : gset N) : handler unit :=
  let! st := stake_state_of self in
  match st with
  | SS_Stake meta stake =>
      let! _ := h_try (authorized_check (meta_authorized meta) signers SA_Staker) in
      let! stake := h_try (map_err stake_error_into (stake_deactivate stake (clk_epoch clock))) in
      set_stake_state self (SS_Stake meta stake)
  | _ => h_err IE.InvalidAccountData
  end.

Definition stake_set_lockup (self : Pubkey) (lockup : LockupArgs) (signers : gset N) (clock : Clock)
    : handler unit :=
  let! st := stake_state_of self in
  match st with
  | SS_Initialized meta =>
      let! meta := h_try (meta_set_lockup meta lockup signers clock) in
      set_stake_state self (SS_Initialized meta)
  | SS_Stake meta stake =>
      let! meta := h_try (meta_set_lockup meta lockup signers clock) in
      set_stake_state self (SS_Stake meta stake)
  | _ => h_err IE.InvalidAccountData
  end.

(** [(remaining_stake_delta, split_stake_amount)] of [split]. *)
Definition split_amounts (lamports : Z) (meta : Meta) (info : ValidatedSplitInfo) (split_lamports : Z) : Z * Z :=
  if source_remaining_balance info =? 0 then
    let remaining_stake_delta := sat_sub64 lamports (rent_exempt_reserve meta) in
    (remaining_stake_delta, remaining_stake_delta)
  else
    (lamports, sat_sub64 lamports (sat_sub64 (destination_rent_exempt_reserve info) split_lamports)).

(** The [match] of [split] on the state of the source. *)
Definition split_stake_states (self : Pubkey) (lamports : Z) (split : Pubkey) (signers : gset N)
    (account split_account : AccountSharedData) (st : StakeState) : handler unit :=
  match st with
  | SS_Stake meta stake =>
      let! _ := h_try (authorized_check (meta_authorized meta) signers SA_Staker) in
      let! info := h_try (validate_split_amount account split_account lamports meta (Some stake)) in
      let '(remaining_stake_delta, split_stake_amount) :=
        split_amounts lamports meta info (acc_lamports split_account) in
      let! (stake, split_stake) := h_try (map_err stake_error_into
        (stake_split stake remaining_stake_delta split_stake_amount)) in
      let! _ := set_stake_state self (SS_Stake meta stake) in
      set_stake_state split
        (SS_Stake (with_reserve meta (destination_rent_exempt_reserve info)) split_stake)
  | SS_Initialized meta =>
      let! _ := h_try (authorized_check (meta_authorized meta) signers SA_Staker) in
      let! info := h_try (validate_split_amount account split_account lamports meta None) in
      set_stake_state split
        (SS_Initialized (with_reserve meta (destination_rent_exempt_reserve info)))
  | SS_Uninitialized =>
      h_return_if (negb (bool_decide (self ∈ signers))) IE.MissingRequiredSignature
  | SS_RewardsPool => h_err IE.InvalidAccountData
  end.

Definition stake_split_account (self : Pubkey) (lamports : Z) (split : Pubkey) (signers : gset N)
    : handler unit :=
  let! split_account := account_of split in
  let! _ := h_return_if (negb (N.eqb (acc_owner split_account) stake_program_id)) IE.IncorrectProgramId in
  let! _ := h_return_if (negb (length (acc_data split_account) =? size_of_stake_state)%nat)
              IE.InvalidAccountData in
  let! split_state := stake_state_of split in
  let! _ := h_return_if (match split_state with SS_Uninitialized => false | _ => true end)
              IE.InvalidAccountData in
  let! account := account_of self in
  let! _ := h_return_if (acc_lamports account <? lamports) IE.InsufficientFunds in
  let! st := stake_state_of self in
  let! _ := split_stake_states self lamports split signers account split_account st in
  let! account := account_of self in
  let! _ := (if lamports =? acc_lamports account then set_stake_state self SS_Uninitialized else h_ok tt) in
  let! _ := h_add_lamports split lamports in
  h_sub_lamports self lamports.

Definition stake_merge (unmatched : bool) (self source : Pubkey) (clock : Clock) (stake_history : StakeHistory)
    (signers : gset N) : handler unit :=
  let! source_account := account_of source in
  let! _ := h_return_if (negb (N.eqb (acc_owner source_account) stake_program_id)) IE.IncorrectProgramId in
  let! _ := h_return_if (N.eqb source self) IE.InvalidArgument in
  let! st := stake_state_of self in
  let! account := account_of self in
  let! stake_merge_kind := h_try (get_if_mergeable st (acc_lamports account) clock stake_history) in
  let! _ := h_try (authorized_check (meta_authorized (merge_meta stake_merge_kind)) signers SA_Staker) in
  let! source_st := stake_state_of source in
  let! source_merge_kind :=
    h_try (get_if_mergeable source_st (acc_lamports source_account) clock stake_history) in
  let! merged := h_try (merge_kinds unmatched stake_merge_kind source_merge_kind clock) in
  let! _ := match merged with Some merged_state => set_stake_state self merged_state | None => h_ok tt end in
  let! _ := set_stake_state source SS_Uninitialized in
  let! source_account := account_of source in
  let lamports := acc_lamports source_account in
  let! _ := h_sub_lamports source lamports in
  h_add_lamports self lamports.

(** The [match] of [withdraw]: the lockup, the lamports that have to stay, and whether
    some of them are staked. *)
Definition withdraw_reserve (st : StakeState) (self : Pubkey) (signers : gset N) (clock : Clock)
    (stake_history : StakeHistory) : result InstructionError (Lockup * Z * bool) :=
  match st with
  | SS_Stake meta stake =>
      _ ← authorized_check (meta_authorized meta) signers SA_Withdrawer;
      let staked :=
        if deactivation_epoch (delegation stake) <=? clk_epoch clock
        then delegation_stake (delegation stake) (clk_epoch clock) (Some stake_history)
        else dg_stake (delegation stake) in
      staked_and_reserve ← checked_add staked (rent_exempt_reserve meta);
      Ok (meta_lockup meta, staked_and_reserve, negb (staked =? 0))
  | SS_Initialized meta =>
      _ ← authorized_check (meta_authorized meta) signers SA_Withdrawer;
      reserve ← checked_add (rent_exempt_reserve meta) MINIMUM_STAKE_DELEGATION;
      Ok (meta_lockup meta, reserve, false)
  | SS_Uninitialized =>
      if negb (bool_decide (self ∈ signers)) then Err IE.MissingRequiredSignature
      else Ok (lockup_default, 0, false)
  | SS_RewardsPool => Err IE.InvalidAccountData
  end.

Definition stake_withdraw (self : Pubkey) (lamports : Z) (to : Pubkey) (clock : Clock)
    (stake_history : StakeHistory) (withdraw_authority : KeyedAccount) (custodian : option KeyedAccount)
    : handler unit :=
  let! withdraw_authority_pubkey := h_try (ok_or (signer_key withdraw_authority) IE.MissingRequiredSignature) in
  let signers : gset N := {[ withdraw_authority_pubkey ]} in
  let! st := stake_state_of self in
  let! (lockup, reserve, is_staked) := h_try (withdraw_reserve st self signers clock stake_history) in
  let! _ := h_return_if (is_in_force lockup clock (custodian ≫= signer_key))
              (stake_error_into SE.LockupInForce) in
  let! lamports_and_reserve := h_try (checked_add lamports reserve) in
  let! account := account_of self in
  let! _ := h_return_if (is_staked && (acc_lamports account <? lamports_and_reserve)) IE.InsufficientFunds in
  let! _ := (if negb (lamports =? acc_lamports account) && (acc_lamports account <? lamports_and_reserve) then
               let! _ := h_assert (negb is_staked) in
               h_err IE.InsufficientFunds
             else h_ok tt) in
  let! _ := (if lamports =? acc_lamports account then set_stake_state self SS_Uninitialized else h_ok tt) in
  let! _ := h_sub_lamports self lamports in
  h_add_lamports to lamports.

(** [get_config_data] of programs/config/src/lib.rs: the bytes after the keys. *)
Definition get_config_data `{Bincode ConfigKeys} (bytes : list Z) : outcome (option (list Z)) :=
  match deserialize (A := ConfigKeys) bytes with
  | None => Returns None
  | Some keys =>
      let offset := length (serialize keys) in
      if (offset <=? length bytes)%nat then Returns (Some (drop offset bytes)) else Panics
  end.

(** [config::from]. *)
Definition config_from `{Bincode ConfigKeys} `{Bincode StakeConfig} (account : AccountSharedData)
    : outcome (option StakeConfig) :=
  data ← get_config_data (acc_data account);
  Returns (bytes ← data; deserialize bytes).

End StakeHandlers.
