(* ===== verification/StakeProcessor.v ===== *)
(** * The stake program's processor

    Models programs/stake/src/stake_instruction.rs: decoding an instruction
    (sdk/program/src/stake/instruction.rs), fetching the accounts and sysvars it names,
    and dispatching to the handlers of StakeProgram.v. *)

From S2P Require Import Prelude Keys Errors StakeHistory Account Invocation VoteProgram StakeState StakeProgram.

(** ** Instructions *)

Record LockupCheckedArgs := {
  lca_unix_timestamp : option Z;
  lca_epoch : option Epoch;
}.

Record AuthorizeWithSeedArgs := {
  aws_new_authorized_pubkey : Pubkey;
  aws_stake_authorize : StakeAuthorize;
  aws_authority_seed : list Z;
  aws_authority_owner : Pubkey;
}.

Record AuthorizeCheckedWithSeedArgs := {
  acws_stake_authorize : StakeAuthorize;
  acws_authority_seed : list Z;
  acws_authority_owner : Pubkey;
}.

Inductive StakeInstruction :=
| SI_Initialize (authorized : Authorized) (lockup : Lockup)
| SI_Authorize (authorized_pubkey : Pubkey) (stake_authorize : StakeAuthorize)
| SI_DelegateStake
| SI_Split (lamports : Z)
| SI_Withdraw (lamports : Z)
| SI_Deactivate
| SI_SetLockup (lockup : LockupArgs)
| SI_Merge
| SI_AuthorizeWithSeed (args : AuthorizeWithSeedArgs)
| SI_InitializeChecked
| SI_AuthorizeChecked (stake_authorize : StakeAuthorize)
| SI_AuthorizeCheckedWithSeed (args : AuthorizeCheckedWithSeedArgs)
| SI_SetLockupChecked (lockup_checked : LockupCheckedArgs).

(** The decoding of instruction data (bincode). *)
Class StakeInstructionCodec := {
  decode_stake_instruction : list Z -> option StakeInstruction;
}.

(** ** The processor *)

Section StakeProcessor.
Context `{Bincode StakeState} `{Bincode VoteStateVersions} `{Bincode ConfigKeys} `{Bincode StakeConfig}.
Context `{SeedHash} `{StakeInstructionCodec}.

(** The [match] of [process_instruction] over the decoded instruction. *)
Definition stake_dispatch (first : nat) (ctx : InvokeContext) (me : KeyedAccount) (signers : gset N)
    (instruction : StakeInstruction) : outcome instruction_result :=
  let self := ka_key me in
  let account_at i := keyed_account_at_index (ic_keyed_accounts ctx) (first + i) in
  let key_at i := ka_key <$> result_ok (account_at i) in
  let signer_at i := ka ← account_at i; ok_or (signer_key ka) IE.MissingRequiredSignature in
  let features := ic_feature_set ctx in
  let run (h : handler unit) := h (ic_accounts ctx) in
  let require_custodian := is_active features require_custodian_for_locked_stake_authorize in
  match instruction with
  | SI_Initialize authorized lockup =>
      fetch ctx (ka ← account_at 1%nat; sysvar_rent ka ctx) (fun rent =>
      run (stake_initialize self authorized lockup rent))
  | SI_Authorize authorized_pubkey stake_authorize =>
      if require_custodian then
        fetch ctx (ka ← account_at 1%nat; sysvar_clock ka ctx) (fun clock =>
        fetch ctx (account_at 2%nat) (fun _ =>
        run (stake_authorize_with self signers authorized_pubkey stake_authorize true clock (key_at 3%nat))))
      else run (stake_authorize_with self signers authorized_pubkey stake_authorize false clock_default None)
  | SI_AuthorizeWithSeed args =>
      fetch ctx (account_at 1%nat) (fun authority_base =>
      if require_custodian then
        fetch ctx (ka ← account_at 2%nat; sysvar_clock ka ctx) (fun clock =>
        run (stake_authorize_with_seed self authority_base (aws_authority_seed args)
          (aws_authority_owner args) (aws_new_authorized_pubkey args) (aws_stake_authorize args) true clock
          (key_at 3%nat)))
      else
        run (stake_authorize_with_seed self authority_base (aws_authority_seed args)
          (aws_authority_owner args) (aws_new_authorized_pubkey args) (aws_stake_authorize args) false
          clock_default None))
  | SI_DelegateStake =>
      fetch ctx (account_at 1%nat) (fun vote =>
      fetch ctx (ka ← account_at 2%nat; sysvar_clock ka ctx) (fun clock =>
      fetch ctx (ka ← account_at 3%nat; sysvar_stake_history ka ctx) (fun stake_history =>
      fetch ctx (account_at 4%nat) (fun config_account =>
      if negb (N.eqb (ka_key config_account) stake_config_id) then fails ctx IE.InvalidArgument
      else
        config ← config_from (ic_accounts ctx (ka_key config_account));
        fetch ctx (ok_or config IE.InvalidArgument) (fun config =>
        run (stake_delegate self (ka_key vote) clock stake_history config signers))))))
  | SI_Split lamports =>
      fetch ctx (account_at 1%nat) (fun split_stake =>
      run (stake_split_account self lamports (ka_key split_stake) signers))
  | SI_Merge =>
      fetch ctx (account_at 1%nat) (fun source_stake =>
      fetch ctx (ka ← account_at 2%nat; sysvar_clock ka ctx) (fun clock =>
      fetch ctx (ka ← account_at 3%nat; sysvar_stake_history ka ctx) (fun stake_history =>
      run (stake_merge (is_active features stake_merge_with_unmatched_credits_observed) self
        (ka_key source_stake) clock stake_history signers))))
  | SI_Withdraw lamports =>
      fetch ctx (account_at 1%nat) (fun to =>
      fetch ctx (ka ← account_at 2%nat; sysvar_clock ka ctx) (fun clock =>
      fetch ctx (ka ← account_at 3%nat; sysvar_stake_history ka ctx) (fun stake_history =>
      fetch ctx (account_at 4%nat) (fun withdraw_authority =>
      run (stake_withdraw self lamports (ka_key to) clock stake_history withdraw_authority
        (result_ok (account_at 5%nat)))))))
  | SI_Deactivate =>
      fetch ctx (ka ← account_at 1%nat; sysvar_clock ka ctx) (fun clock =>
      run (stake_deactivate_account self clock signers))
  | SI_SetLockup lockup =>
      fetch ctx (get_clock (ic_sysvar_cache ctx)) (fun clock =>
      run (stake_set_lockup self lockup signers clock))
  | SI_InitializeChecked =>
      if is_active features vote_stake_checked_instructions then
        fetch ctx (account_at 2%nat) (fun staker_account =>
        fetch ctx (signer_at 3%nat) (fun withdrawer_pubkey =>
        fetch ctx (ka ← account_at 1%nat; sysvar_rent ka ctx) (fun rent =>
        run (stake_initialize self {| staker := ka_key staker_account; withdrawer := withdrawer_pubkey |}
          lockup_default rent))))
      else fails ctx IE.InvalidInstructionData
  | SI_AuthorizeChecked stake_authorize =>
      if is_active features vote_stake_checked_instructions then
        fetch ctx (ka ← account_at 1%nat; sysvar_clock ka ctx) (fun clock =>
        fetch ctx (account_at 2%nat) (fun _ =>
        fetch ctx (signer_at 3%nat) (fun authorized_pubkey =>
        run (stake_authorize_with self signers authorized_pubkey stake_authorize true clock (key_at 4%nat)))))
      else fails ctx IE.InvalidInstructionData
  | SI_AuthorizeCheckedWithSeed args =>
      if is_active features vote_stake_checked_instructions then
        fetch ctx (account_at 1%nat) (fun authority_base =>
        fetch ctx (ka ← account_at 2%nat; sysvar_clock ka ctx) (fun clock =>
        fetch ctx (signer_at 3%nat) (fun authorized_pubkey =>
        run (stake_authorize_with_seed self authority_base (acws_authority_seed args)
          (acws_authority_owner args) authorized_pubkey (acws_stake_authorize args) true clock
          (key_at 4%nat)))))
      else fails ctx IE.InvalidInstructionData
  | SI_SetLockupChecked lockup_checked =>
      if is_active features vote_stake_checked_instructions then
        fetch ctx (match account_at 2%nat with
                   | Ok custodian =>
                       k ← ok_or (signer_key custodian) IE.MissingRequiredSignature; Ok (Some k)
                   | Err _ => Ok None
                   end) (fun custodian =>
        let lockup := {| la_unix_timestamp := lca_unix_timestamp lockup_checked;
                         la_epoch := lca_epoch lockup_checked; la_custodian := custodian |} in
        fetch ctx (get_clock (ic_sysvar_cache ctx)) (fun clock =>
        run (stake_set_lockup self lockup signers clock)))
      else fails ctx IE.InvalidInstructionData
  end.

Definition stake_process_instruction (first_instruction_account : nat) (data : list Z)
    (ctx : InvokeContext) : outcome instruction_result :=
  fetch ctx (keyed_account_at_index (ic_keyed_accounts ctx) first_instruction_account) (fun me =>
  if negb (N.eqb (acc_owner (ic_accounts ctx (ka_key me))) stake_program_id)
  then fails ctx IE.InvalidAccountOwner
  else
    let signers := get_signers (drop first_instruction_account (ic_keyed_accounts ctx)) in
    fetch ctx (ok_or (decode_stake_instruction data) IE.InvalidInstructionData) (fun instruction =>
    stake_dispatch first_instruction_account ctx me signers instruction)).

End StakeProcessor.
