(* ===== verification/StakeEffects.v ===== *)
(** * What the stake handlers do

    Each handler of StakeProgram.v described by its effect on the accounts: the lamports
    it moves, the states it writes, and the checks it has passed when it succeeds. *)

From S2P Require Import Prelude Keys Errors StakeHistory Account Invocation VoteState VoteProgram StakeState StakeProgram.

#[local] Open Scope handler_scope.

(** ** Weakest preconditions *)

(** The handler does not panic, and what it leaves when it succeeds satisfies [Q]. *)
Definition wp {A} (m : handler A) (Q : A -> accounts_store -> Prop) (s : accounts_store) : Prop :=
  match m s with
  | Returns (s', Ok a) => Q a s'
  | Returns (_, Err _) => True
  | Panics => False
  end.

Section WP.
Context {A : Type} (s : accounts_store).

Lemma wp_bind {B} (m : handler A) (k : A -> handler B) Q :
  wp m (fun a s' => wp (k a) Q s') s -> wp (h_bind m k) Q s.
Proof. unfold wp, h_bind. by destruct (m s) as [[s' [a|e]]|]. Qed.

Lemma wp_ok (a : A) (Q : A -> accounts_store -> Prop) : Q a s -> wp (h_ok a) Q s.
Proof. done. Qed.

Lemma wp_err e (Q : A -> accounts_store -> Prop) : wp (h_err e) Q s.
Proof. done. Qed.

Lemma wp_try (r : result InstructionError A) (Q : A -> accounts_store -> Prop) :
  (forall a, r = Ok a -> Q a s) -> wp (h_try r) Q s.
Proof. unfold wp, h_try. destruct r; auto. Qed.

Lemma wp_return_if b e (Q : unit -> accounts_store -> Prop) :
  (b = false -> Q tt s) -> wp (h_return_if b e) Q s.
Proof. unfold wp, h_return_if. destruct b; cbn; auto. Qed.

Lemma wp_account key (Q : AccountSharedData -> accounts_store -> Prop) :
  Q (s key) s -> wp (account_of key) Q s.
Proof. done. Qed.

Lemma wp_mono (m : handler A) (Q Q' : A -> accounts_store -> Prop) :
  (forall a s', Q a s' -> Q' a s') -> wp m Q s -> wp m Q' s.
Proof. unfold wp. intros HQ. destruct (m s) as [[s' [a|e]]|]; auto. Qed.
Lemma wp_and (m : handler A) (P Q : accounts_store -> Prop) :
  wp m (fun _ s' => P s') s -> wp m (fun _ s' => Q s') s -> wp m (fun _ s' => P s' /\ Q s') s.
Proof. unfold wp. destruct (m s) as [[s' [a|e]]|]; auto. Qed.
End WP.

(** ** Effects *)

Definition no_change {A} (k : Pubkey) : option A := None.
Definition only {A} (key : Pubkey) (a : A) (k : Pubkey) : option A := if N.eqb k key then Some a else None.
Definition and_then {A} (w w' : Pubkey -> option A) (k : Pubkey) : option A :=
  match w' k with Some a => Some a | None => w k end.

Definition amount (key : Pubkey) (n : Z) (k : Pubkey) : Z := if N.eqb k key then n else 0.

(** Lamports that move from an account to another. *)
Definition move (from to : Pubkey) (n : Z) (k : Pubkey) : Z := amount to n k - amount from n k.

Section Effects.
Context `{BincodeLaws StakeState} `{Bincode VoteStateVersions} `{SeedHash}.

Definition stake_view (a : AccountSharedData) : option StakeState := deserialize (acc_data a).

(** The lamports change by [d] and the states by [w]; nothing else changes. *)
Definition eff (d : Pubkey -> Z) (w : Pubkey -> option StakeState) (s s' : accounts_store) : Prop :=
  forall k, exists data,
    s' k = {| acc_lamports := acc_lamports (s k) + d k; acc_data := data; acc_owner := acc_owner (s k);
              acc_executable := acc_executable (s k); acc_rent_epoch := acc_rent_epoch (s k) |}
    /\ length data = length (acc_data (s k))
    /\ match w k with Some st => deserialize data = Some st | None => data = acc_data (s k) end.

Lemma eff_lamports d w s s' k : eff d w s s' -> acc_lamports (s' k) = acc_lamports (s k) + d k.
Proof. intros He. by destruct (He k) as (data & -> & _). Qed.

Lemma eff_owner d w s s' k : eff d w s s' -> acc_owner (s' k) = acc_owner (s k).
Proof. intros He. by destruct (He k) as (data & -> & _). Qed.

Lemma eff_length d w s s' k : eff d w s s' -> length (acc_data (s' k)) = length (acc_data (s k)).
Proof. intros He. by destruct (He k) as (data & -> & ? & _). Qed.

Lemma eff_view d w s s' k :
  eff d w s s' -> stake_view (s' k) = match w k with Some st => Some st | None => stake_view (s k) end.
Proof.
  intros He. destruct (He k) as (data & -> & _ & Hw). unfold stake_view. cbn. destruct (w k); by rewrite Hw.
Qed.

Lemma eff_frame d w s s' k : eff d w s s' -> d k = 0 -> w k = None -> s' k = s k.
Proof.
  intros He Hd Hw. destruct (He k) as (data & -> & _ & Hdata). rewrite Hw in Hdata. rewrite Hdata, Hd, Z.add_0_r.
  by destruct (s k).
Qed.

Lemma eff_refl s : eff (fun _ => 0) no_change s s.
Proof. intros k. exists (acc_data (s k)). rewrite Z.add_0_r. by destruct (s k). Qed.

Lemma eff_trans d1 w1 d2 w2 s s1 s2 :
  eff d1 w1 s s1 -> eff d2 w2 s1 s2 -> eff (fun k => d1 k + d2 k) (and_then w1 w2) s s2.
Proof.
  intros Ha Hb k. destruct (Ha k) as (x1 & E1 & Hl1 & Hw1), (Hb k) as (x2 & E2 & Hl2 & Hw2).
  exists x2. rewrite E2, E1. cbn. rewrite Hl2, E1. cbn. split_and!; [f_equal; lia|done|]. unfold and_then.
  destruct (w2 k); [done|]. rewrite Hw2, E1. done.
Qed.

Lemma eff_ext d w d' w' s s' :
  eff d w s s' -> (forall k, d' k = d k) -> (forall k, w' k = w k) -> eff d' w' s s'.
Proof. intros He Hd Hw k. rewrite Hd, Hw. apply He. Qed.

Lemma eff_store_set s key a' n w :
  acc_lamports a' = acc_lamports (s key) + n -> acc_owner a' = acc_owner (s key) ->
  acc_executable a' = acc_executable (s key) -> acc_rent_epoch a' = acc_rent_epoch (s key) ->
  length (acc_data a') = length (acc_data (s key)) ->
  match w with Some st => deserialize (acc_data a') = Some st | None => acc_data a' = acc_data (s key) end ->
  eff (amount key n) (fun k => if N.eqb k key then w else None) s (store_set s key a').
Proof.
  intros Hl Ho Hx Hr Hn Hw k. unfold amount. destruct (N.eqb_spec k key) as [->|Hne].
  - exists (acc_data a'). rewrite store_set_eq, <- Hl, <- Ho, <- Hx, <- Hr. by destruct a'.
  - exists (acc_data (s k)). rewrite store_set_ne, Z.add_0_r by done. by destruct (s k).
Qed.

Lemma wp_set_state s key st (Q : unit -> accounts_store -> Prop) :
  (forall s', eff (fun _ => 0) (only key st) s s' -> Q tt s') -> wp (set_stake_state key st) Q s.
Proof.
  intros HQ. unfold wp, set_stake_state. destruct (set_state (s key) st) as [a|e] eqn:Es; [|done].
  destruct (set_state_Ok _ _ _ Es) as (Hd & Hl & Ho & Hn). apply HQ.
  apply (eff_ext (amount key 0) (fun k => if N.eqb k key then Some st else None)).
  - unfold set_state in Es. destruct (_ <? _)%nat; [done|]. injection Es as <-.
    apply eff_store_set; try done. cbn. lia.
  - intros k. unfold amount. by destruct (N.eqb k key).
  - done.
Qed.

Lemma wp_add_lamports s key n (Q : unit -> accounts_store -> Prop) :
  (forall s', acc_lamports (s key) + n <= U64_MAX -> eff (amount key n) no_change s s' -> Q tt s') ->
  wp (h_add_lamports key n) Q s.
Proof.
  intros HQ. unfold wp, h_add_lamports. destruct (checked_add_lamports (s key) n) as [a|e] eqn:E; [|done].
  apply checked_add_lamports_Ok in E as [-> Hle]. apply HQ; [done|].
  eapply eff_ext; [by apply (eff_store_set _ _ _ n None)|done|]. intros k. cbn. by destruct (N.eqb k key).
Qed.

Lemma wp_sub_lamports s key n (Q : unit -> accounts_store -> Prop) :
  (forall s', n <= acc_lamports (s key) -> eff (amount key (- n)) no_change s s' -> Q tt s') ->
  wp (h_sub_lamports key n) Q s.
Proof.
  intros HQ. unfold wp, h_sub_lamports. destruct (checked_sub_lamports (s key) n) as [a|e] eqn:E; [|done].
  apply checked_sub_lamports_Ok in E as [-> Hle]. apply HQ; [done|].
  eapply eff_ext; [by apply (eff_store_set _ _ _ (- n) None)|done|]. intros k. cbn. by destruct (N.eqb k key).
Qed.

Lemma wp_stake_state s key (Q : StakeState -> accounts_store -> Prop) :
  (forall st, stake_view (s key) = Some st -> Q st s) -> wp (stake_state_of key) Q s.
Proof.
  intros HQ. unfold wp, stake_state_of, state, stake_view in *.
  destruct (deserialize (acc_data (s key))); cbn; auto.
Qed.

Lemma wp_vote_state s key (Q : VoteState -> accounts_store -> Prop) :
  (forall v, Q v s) -> wp (vote_state_of key) Q s.
Proof. intros HQ. unfold wp, vote_state_of. destruct (state (s key)); cbn; auto. Qed.

End Effects.

(** One step of a handler; the checks it passes become hypotheses. *)
Ltac wp_step :=
  let r := fresh "r" in let Er := fresh "Er" in let Eb := fresh "Eb" in
  let st := fresh "st" in let Est := fresh "Est" in let s := fresh "s" in
  let He := fresh "He" in let Hn := fresh "Hn" in let v := fresh "v" in
  lazymatch goal with
  | |- wp (h_bind _ _) _ _ => apply wp_bind
  | |- wp (h_ok _) _ _ => apply wp_ok
  | |- wp (h_err _) _ _ => apply wp_err
  | |- wp (h_try _) _ _ => apply wp_try; intros r Er
  | |- wp (h_return_if _ _) _ _ => apply wp_return_if; intros Eb
  | |- wp (account_of _) _ _ => apply wp_account
  | |- wp (stake_state_of _) _ _ => apply wp_stake_state; intros st Est
  | |- wp (vote_state_of _) _ _ => apply wp_vote_state; intros v
  | |- wp (set_stake_state _ _) _ _ => apply wp_set_state; intros s He
  | |- wp (h_add_lamports _ _) _ _ => apply wp_add_lamports; intros s Hn He
  | |- wp (h_sub_lamports _ _) _ _ => apply wp_sub_lamports; intros s Hn He
  end.
Ltac wp_steps := repeat wp_step.

(** ** The handlers *)

(** Both states have a [Meta], related by [R], and the same stake. *)
Definition meta_changed (R : Meta -> Meta -> Prop) (st st' : StakeState) : Prop :=
  match st, st' with
  | SS_Initialized m, SS_Initialized m' => R m m'
  | SS_Stake m x, SS_Stake m' x' => R m m' /\ x = x'
  | _, _ => False
  end.

Definition state_meta (st : StakeState) : option Meta :=
  match st with SS_Initialized m | SS_Stake m _ => Some m | _ => None end.

(** The state written to the destination of a split, and to its source while lamports
    remain. *)
Definition split_states (st : StakeState) (info : ValidatedSplitInfo) (lamports split_lamports : Z)
    (st' split_st : StakeState) : Prop :=
  match st with
  | SS_Stake meta stake =>
      exists stake' split_stake,
        let amounts := split_amounts lamports meta info split_lamports in
        stake_split stake amounts.1 amounts.2 = Ok (stake', split_stake)
        /\ st' = SS_Stake meta stake'
        /\ split_st = SS_Stake (with_reserve meta (destination_rent_exempt_reserve info)) split_stake
  | SS_Initialized meta =>
      st' = st /\ split_st = SS_Initialized (with_reserve meta (destination_rent_exempt_reserve info))
  | _ => False
  end.

Definition state_stake (st : StakeState) : option Stake :=
  match st with SS_Stake _ stake => Some stake | _ => None end.

Lemma authorized_check_Ok a signers sa :
  authorized_check a signers sa = Ok tt ->
  (match sa with SA_Staker => staker a | SA_Withdrawer => withdrawer a end) ∈ signers.
Proof. unfold authorized_check. destruct sa; by case_decide. Qed.

Section HandlerSpecs.
Context `{BincodeLaws StakeState} `{Bincode VoteStateVersions} `{SeedHash}.
Implicit Types s : accounts_store.

Lemma stake_initialize_spec self authorized lockup rent s :
  wp (stake_initialize self authorized lockup rent) (fun _ s' => exists meta,
    stake_view (s self) = Some SS_Uninitialized
    /\ length (acc_data (s self)) = size_of_stake_state
    /\ rent_exempt_reserve meta = minimum_balance rent size_of_stake_state
    /\ wrap64 (rent_exempt_reserve meta + MINIMUM_STAKE_DELEGATION) <= acc_lamports (s self)
    /\ eff (fun _ => 0) (only self (SS_Initialized meta)) s s') s.
Proof.
  unfold stake_initialize. wp_steps. destruct st; wp_steps.
  destruct (Z.leb_spec (wrap64 (minimum_balance rent (length (acc_data (s self))) + MINIMUM_STAKE_DELEGATION))
    (acc_lamports (s self))); wp_steps.
  apply negb_false_iff, Nat.eqb_eq in Eb. rewrite Eb in *.
  eexists. split_and!; [done|done| | |exact He]; done.
Qed.

Definition authorize_changes (signers : gset N) (new_authority : Pubkey) (sa : StakeAuthorize)
    (args : Meta -> option (Lockup * Clock * option Pubkey)) (m m' : Meta) : Prop :=
  exists a, authorized_authorize (meta_authorized m) signers new_authority sa (args m) = Ok a
  /\ m' = with_authorized m a.

Lemma stake_authorize_with_spec self signers new_authority sa require_custodian clock custodian s :
  wp (stake_authorize_with self signers new_authority sa require_custodian clock custodian) (fun _ s' =>
    exists st st', stake_view (s self) = Some st
    /\ meta_changed (authorize_changes signers new_authority sa
         (fun m => if require_custodian : bool then Some (meta_lockup m, clock, custodian) else None)) st st'
    /\ eff (fun _ => 0) (only self st') s s') s.
Proof.
  unfold stake_authorize_with. wp_steps. destruct st; wp_steps; eexists _, _; split_and!; try done; cbn;
    unfold authorize_changes; eauto.
Qed.

Lemma stake_set_lockup_spec self args signers clock s :
  wp (stake_set_lockup self args signers clock) (fun _ s' =>
    exists st st', stake_view (s self) = Some st
    /\ meta_changed (fun m m' => meta_set_lockup m args signers clock = Ok m') st st'
    /\ eff (fun _ => 0) (only self st') s s') s.
Proof.
  unfold stake_set_lockup. wp_steps. destruct st; wp_steps; eexists _, _; split_and!; try done; cbn; eauto.
Qed.

Lemma stake_deactivate_account_spec self clock signers s :
  wp (stake_deactivate_account self clock signers) (fun _ s' => exists meta stake,
    stake_view (s self) = Some (SS_Stake meta stake) /\ staker (meta_authorized meta) ∈ signers
    /\ deactivation_epoch (delegation stake) = U64_MAX
    /\ eff (fun _ => 0) (only self (SS_Stake meta (with_deactivation stake (clk_epoch clock)))) s s') s.
Proof.
  unfold stake_deactivate_account. wp_steps. destruct st; wp_steps. destruct r.
  apply (authorized_check_Ok _ _ SA_Staker) in Er. unfold stake_deactivate in Er0.
  destruct (Z.eqb_spec (deactivation_epoch (delegation stake)) U64_MAX); [|done]. injection Er0 as <-. eauto 10.
Qed.

Lemma stake_delegate_spec self vote clock history config signers s :
  wp (stake_delegate self vote clock history config signers) (fun _ s' => exists meta stake' vote_state,
    let stake_amount := validate_delegated_amount (s self) meta in
    staker (meta_authorized meta) ∈ signers
    /\ (stake_view (s self) = Some (SS_Initialized meta)
        /\ stake' = new_stake stake_amount vote vote_state (clk_epoch clock) config
        \/ exists stake, stake_view (s self) = Some (SS_Stake meta stake)
        /\ redelegate stake stake_amount vote vote_state clock history config = Ok stake')
    /\ eff (fun _ => 0) (only self (SS_Stake meta stake')) s s') s.
Proof.
  unfold stake_delegate. wp_steps. destruct st; wp_steps; destruct r;
    apply (authorized_check_Ok _ _ SA_Staker) in Er.
  - eexists _, _, v. split_and!; [done| |done]. by left.
  - destruct (redelegate _ _ _ _ _ _ _) as [stake'|] eqn:Ed; [|done]. injection Er0 as <-.
    eexists _, _, v. split_and!; [done| |done]. right. eauto.
Qed.

(** The states a split writes before the lamports move: [w]. *)
Definition split_writes (self split : Pubkey) (signers : gset N) (lamports : Z) (s : accounts_store)
    (st : StakeState) (w : Pubkey -> option StakeState) : Prop :=
  st = SS_Uninitialized /\ self ∈ signers /\ w = no_change
  \/ exists meta info st' split_st,
       state_meta st = Some meta /\ staker (meta_authorized meta) ∈ signers
       /\ validate_split_amount (s self) (s split) lamports meta (state_stake st) = Ok info
       /\ split_states st info lamports (acc_lamports (s split)) st' split_st
       /\ w split = Some split_st /\ (self <> split -> default st (w self) = st')
       /\ (forall k, k <> self -> k <> split -> w k = None).

Lemma only_eq {A} k (a : A) : only k a k = Some a.
Proof. unfold only. by rewrite N.eqb_refl. Qed.

Lemma only_ne {A} k (a : A) k' : k' <> k -> only k a k' = None.
Proof. unfold only. by intros ->%N.eqb_neq. Qed.

Lemma split_stake_states_spec self lamports split signers st s :
  wp (split_stake_states self lamports split signers (s self) (s split) st) (fun _ s' => exists w,
    split_writes self split signers lamports s st w /\ eff (fun _ => 0) w s s') s.
Proof.
  unfold split_stake_states. destruct st; wp_steps.
  - exists no_change. split; [left|apply eff_refl].
    apply negb_false_iff, bool_decide_eq_true in Eb. done.
  - destruct r. apply (authorized_check_Ok _ _ SA_Staker) in Er.
    eexists. split; [right|exact He]. eexists _, _, _, _. split_and!; [done|done|done|by split|apply only_eq| |].
    + intros Hne. by rewrite only_ne.
    + intros k ? ?. by rewrite only_ne.
  - destruct r. apply (authorized_check_Ok _ _ SA_Staker) in Er.
    destruct (split_amounts _ _ _ _) as [delta amt] eqn:Ea. wp_steps.
    destruct (stake_split _ _ _) as [[stake' split_stake]|] eqn:Es; [|done]. injection Er1 as <-. wp_steps.
    eexists. split; [right|eapply eff_ext; [exact (eff_trans _ _ _ _ _ _ _ He He0)|done|done]].
    eexists _, _, _, _. split_and!; [done|done|done| | | |].
    + eexists _, _. rewrite Ea. by split_and!.
    + unfold and_then. by rewrite only_eq.
    + intros Hne. unfold and_then. by rewrite only_ne, only_eq.
    + intros k ? ?. unfold and_then. by rewrite !only_ne.
Qed.

Lemma stake_split_account_spec self lamports split signers s :
  wp (stake_split_account self lamports split signers) (fun _ s' => exists st w,
    stake_view (s self) = Some st /\ stake_view (s split) = Some SS_Uninitialized
    /\ acc_owner (s split) = stake_program_id /\ length (acc_data (s split)) = size_of_stake_state
    /\ lamports <= acc_lamports (s self) /\ acc_lamports (s split) + lamports <= U64_MAX
    /\ split_writes self split signers lamports s st w
    /\ eff (move self split lamports)
         (and_then w (if lamports =? acc_lamports (s self) then only self SS_Uninitialized else no_change))
         s s') s.
Proof.
  unfold stake_split_account. wp_steps. eapply wp_mono; [|apply split_stake_states_spec].
  intros _ s1 (w & Hw & He1). wp_steps. rewrite (eff_lamports _ _ _ _ self He1), Z.add_0_r.
  set (w2 := if lamports =? acc_lamports (s self) then only self SS_Uninitialized else no_change).
  apply (wp_mono _ _ (fun _ s2 => eff (fun _ => 0) w2 s1 s2)).
  - intros _ s2 He2. wp_steps. eexists st0, w. apply negb_false_iff, N.eqb_eq in Eb.
    apply negb_false_iff, Nat.eqb_eq in Eb0. apply Z.ltb_ge in Eb2.
    destruct st; try done. split_and!; try done.
    + rewrite (eff_lamports _ _ _ _ split He2), (eff_lamports _ _ _ _ split He1) in Hn. lia.
    + eapply eff_ext; [exact (eff_trans _ _ _ _ _ _ _ (eff_trans _ _ _ _ _ _ _ (eff_trans _ _ _ _ _ _ _ He1 He2) He) He0)| |].
      * intros k. unfold move, amount. destruct (N.eqb k split), (N.eqb k self); lia.
      * intros k. unfold and_then. by destruct (w2 k).
  - unfold w2. destruct (_ =? _); wp_steps; [done|apply eff_refl].
Qed.

Lemma stake_merge_spec unmatched self source clock history signers s :
  wp (stake_merge unmatched self source clock history signers) (fun _ s' =>
    exists st source_st kind source_kind merged,
    stake_view (s self) = Some st /\ stake_view (s source) = Some source_st
    /\ acc_owner (s source) = stake_program_id /\ source <> self
    /\ get_if_mergeable st (acc_lamports (s self)) clock history = Ok kind
    /\ get_if_mergeable source_st (acc_lamports (s source)) clock history = Ok source_kind
    /\ staker (meta_authorized (merge_meta kind)) ∈ signers
    /\ merge_kinds unmatched kind source_kind clock = Ok merged
    /\ acc_lamports (s self) + acc_lamports (s source) <= U64_MAX
    /\ eff (move source self (acc_lamports (s source)))
         (fun k => if N.eqb k self then merged else only source SS_Uninitialized k) s s') s.
Proof.
  unfold stake_merge. wp_steps. apply negb_false_iff, N.eqb_eq in Eb. apply N.eqb_neq in Eb0.
  destruct r0. apply (authorized_check_Ok _ _ SA_Staker) in Er0.
  apply (wp_mono _ _ (fun _ s1 => eff (fun _ => 0) (fun k => if N.eqb k self then r2 else None) s s1)).
  - intros _ s1 He1. wp_steps. eexists st, st0, r, r1, r2.
    assert (acc_lamports (s0 source) = acc_lamports (s source)) as Hl.
    { rewrite (eff_lamports _ _ _ _ source He), (eff_lamports _ _ _ _ source He1). lia. }
    rewrite Hl in *.
    split_and!; try done.
    + rewrite (eff_lamports _ _ _ _ self He0), (eff_lamports _ _ _ _ self He), (eff_lamports _ _ _ _ self He1) in Hn0.
      unfold amount in Hn0. rewrite (proj2 (N.eqb_neq self source)) in Hn0 by done. lia.
    + eapply eff_ext; [exact (eff_trans _ _ _ _ _ _ _ (eff_trans _ _ _ _ _ _ _ (eff_trans _ _ _ _ _ _ _ He1 He) He0) He2)| |].
      * intros k. unfold move, amount. destruct (N.eqb k source), (N.eqb k self); lia.
      * intros k. unfold and_then, only, no_change. destruct (N.eqb_spec k source), (N.eqb_spec k self); congruence || by destruct r2.
  - destruct r2; wp_steps; [done|]. eapply eff_ext; [apply eff_refl|done|]. intros k. cbn. by destruct (N.eqb k self).
Qed.

Lemma stake_withdraw_spec self lamports to clock history authority custodian s :
  wp (stake_withdraw self lamports to clock history authority custodian) (fun _ s' =>
    exists st key lockup reserve is_staked, let balance := acc_lamports (s self) in
    signer_key authority = Some key /\ stake_view (s self) = Some st
    /\ withdraw_reserve st self {[ key ]} clock history = Ok (lockup, reserve, is_staked)
    /\ is_in_force lockup clock (custodian ≫= signer_key) = false
    /\ lamports <= balance /\ (is_staked = false /\ lamports = balance \/ lamports + reserve <= balance)
    /\ (to <> self -> acc_lamports (s to) + lamports <= U64_MAX)
    /\ eff (move self to lamports) (if lamports =? balance then only self SS_Uninitialized else no_change)
         s s') s.
Proof.
  unfold stake_withdraw. wp_steps. destruct (signer_key authority) as [key|] eqn:Ek; [|done].
  injection Er as <-. destruct r0 as [[lockup reserve] is_staked]. wp_steps.
  assert (r = lamports + reserve) as ->.
  { unfold checked_add, checked_add64 in Er. destruct (_ <=? _); [|done]. by injection Er as <-. }
  set (b := acc_lamports (s self) <? lamports + reserve) in *.
  apply (wp_mono _ _ (fun _ s1 => s1 = s /\ (lamports =? acc_lamports (s self)) || negb b = true)).
  - intros _ s1 [-> Hb]. wp_steps.
    set (w := if lamports =? acc_lamports (s self) then only self SS_Uninitialized else no_change).
    apply (wp_mono _ _ (fun _ s1 => eff (fun _ => 0) w s s1)).
    + intros _ s1 He1. wp_steps. exists st, key, lockup, reserve, is_staked.
      rewrite (eff_lamports _ _ _ _ self He1) in Hn. split_and!; try done; [lia| | |].
      * unfold b in *. destruct (Z.ltb_spec (acc_lamports (s self)) (lamports + reserve)); [|right; lia].
        destruct is_staked; [done|]. left. destruct (Z.eqb_spec lamports (acc_lamports (s self))); done.
      * intros Hne. rewrite (eff_lamports _ _ _ _ to He), (eff_lamports _ _ _ _ to He1) in Hn0.
        unfold amount in Hn0. rewrite (proj2 (N.eqb_neq to self)) in Hn0 by done. lia.
      * eapply eff_ext; [exact (eff_trans _ _ _ _ _ _ _ (eff_trans _ _ _ _ _ _ _ He1 He) He0)| |].
        -- intros k. unfold move, amount. destruct (N.eqb k to), (N.eqb k self); lia.
        -- done.
    + unfold w. destruct (_ =? _); wp_steps; [done|apply eff_refl].
  - destruct is_staked, b; cbn in Eb0; try done; destruct (lamports =? acc_lamports (s self)); cbn; wp_steps; done.
Qed.

End HandlerSpecs.
