(* ===== verification/StakeSafety.v ===== *)
(** * Stake accounts are backed by lamports

    The invariant of the stake program: an account that is delegated and not deactivated
    holds its rent-exempt reserve and its whole delegation, and every stake account holds
    its reserve.  Every handler keeps it, except the delegation that rescinds a
    deactivation; and lamports only leave a stake account as its authorities allow. *)

From S2P Require Import Prelude Keys Errors Float64 StakeHistory Account Invocation VoteState VoteProgram StakeState StakeActivation StakeProgram StakeProcessor StakeEffects.

(** The size of a stake account's data: a runtime account is at most 10 MiB. *)
Definition stake_size (len : nat) : Prop := 200 <= Z.of_nat len <= 10 * 1024 * 1024.

(** [lamports] and [len] are the account's. *)
Definition state_backed (epoch : Epoch) (lamports : Z) (len : nat) (st : StakeState) : Prop :=
  match st with
  | SS_Initialized meta =>
      stake_size len /\ 0 <= rent_exempt_reserve meta <= lamports
  | SS_Stake meta stake =>
      stake_size len /\ 0 <= rent_exempt_reserve meta <= lamports
      /\ delegation_ok (delegation stake)
      /\ (epoch < deactivation_epoch (delegation stake) ->
          rent_exempt_reserve meta + dg_stake (delegation stake) <= lamports)
  | _ => True
  end.

Lemma state_backed_more epoch l l' len st : l <= l' -> state_backed epoch l len st -> state_backed epoch l' len st.
Proof. destruct st; cbn; intuition lia. Qed.

(** ** Amounts *)

Lemma minimum_balance_u64 r n : u64 (minimum_balance r n).
Proof.
  unfold minimum_balance, f64_as_u64. set (x := f_mul _ _).
  pose proof (f64_floor_as_u128_bound x) as Hb. u_unfold. lia.
Qed.

(** A split account of the usual size does not need a larger reserve. *)
Lemma split_reserve_bound reserve n :
  0 <= reserve <= U64_MAX -> stake_size n ->
  0 <= calculate_split_rent_exempt_reserve reserve (Z.of_nat n) (Z.of_nat size_of_stake_state) <= reserve.
Proof.
  intros Hr Hn. unfold calculate_split_rent_exempt_reserve, stake_size in *.
  replace (Z.of_nat size_of_stake_state) with 200 by reflexivity.
  unfold ACCOUNT_STORAGE_OVERHEAD. rewrite !(wrap64_small (_ + 128)) by (u_unfold; lia).
  pose proof (Z.mul_div_le reserve (Z.of_nat n + 128)). pose proof (Z.div_pos reserve (Z.of_nat n + 128)).
  rewrite wrap64_small by (u_unfold; nia). nia.
Qed.

Lemma validate_split_amount_Ok source dest lamports meta stake info :
  validate_split_amount source dest lamports meta stake = Ok info ->
  0 <= acc_lamports source <= U64_MAX -> 0 <= acc_lamports dest -> 0 <= lamports ->
  0 <= rent_exempt_reserve meta <= U64_MAX ->
  length (acc_data dest) = size_of_stake_state ->
  stake_size (length (acc_data source)) ->
  let reserve' := destination_rent_exempt_reserve info in
  source_remaining_balance info = acc_lamports source - lamports
  /\ 0 < lamports <= acc_lamports source
  /\ (lamports = acc_lamports source \/ rent_exempt_reserve meta <= acc_lamports source - lamports)
  /\ 0 <= reserve' <= rent_exempt_reserve meta /\ reserve' <= acc_lamports dest + lamports.
Proof.
  intros Hv Hs Hd Hl Hr Hlen Hsize. unfold validate_split_amount in Hv. rewrite Hlen in Hv.
  pose proof (split_reserve_bound _ _ Hr Hsize) as Hb.
  set (reserve' := calculate_split_rent_exempt_reserve _ _ _) in *. unfold MINIMUM_STAKE_DELEGATION in Hv.
  destruct (Z.eqb_spec lamports 0); [done|]. destruct (Z.ltb_spec (acc_lamports source) lamports); [done|].
  destruct (negb _ && _) eqn:Em; [done|]. destruct (Z.ltb_spec lamports (sat_sub64 (sat_add64 reserve' 1) (acc_lamports dest))); [done|].
  destruct (is_some stake && _); [done|]. injection Hv as <-. cbn.
  unfold sat_sub64, sat_add64 in *. split_and!; try lia.
Qed.

(** ** Merging *)

Lemma deactivated_status d epoch h :
  deactivation_epoch d <= epoch ->
  let status := stake_activating_and_deactivating d epoch h in
  activating status = 0 /\ deactivating status = effective status.
Proof.
  intros Hle. unfold stake_activating_and_deactivating. destruct (stake_and_activating d epoch h) as [e a].
  destruct (Z.ltb_spec epoch (deactivation_epoch d)); [lia|]. destruct (_ =? _); [done|].
  destruct (_ ← h; _) as [[? ?]|]; done.
Qed.

(** Stakes that are merged as active stakes are not deactivated. *)
Lemma get_if_mergeable_Ok st lamports clock h kind :
  get_if_mergeable st lamports clock h = Ok kind ->
  state_meta st = Some (merge_meta kind)
  /\ match kind with
     | MK_Inactive _ l => l = lamports
     | MK_ActivationEpoch meta stake | MK_FullyActive meta stake =>
         st = SS_Stake meta stake /\ clk_epoch clock < deactivation_epoch (delegation stake)
     end.
Proof.
  unfold get_if_mergeable. destruct st as [|meta|meta stake|]; try done; [by intros [= <-]|].
  pose proof (deactivated_status (delegation stake) (clk_epoch clock) (Some h)) as Hd. cbv zeta in Hd.
  set (status := stake_activating_and_deactivating _ _ _) in *.
  destruct (Z.eqb_spec (effective status) 0), (Z.eqb_spec (activating status) 0),
    (Z.eqb_spec (deactivating status) 0); cbn; intros [= <-]; split_and!; try done; lia.
Qed.

Lemma merge_delegation_Ok unmatched stake absorbed c stake' :
  merge_delegation_stake_and_credits_observed unmatched stake absorbed c = Ok stake' ->
  dg_stake (delegation stake') = dg_stake (delegation stake) + absorbed
  /\ dg_stake (delegation stake) + absorbed <= U64_MAX
  /\ deactivation_epoch (delegation stake') = deactivation_epoch (delegation stake).
Proof.
  unfold merge_delegation_stake_and_credits_observed, checked_add, checked_add64.
  destruct unmatched; cbn; [destruct (stake_weighted_credits_observed _ _ _); [|done]; cbn|].
  all: destruct (_ <=? _) eqn:E; cbn; [|done]; intros [= <-]; zbool; done.
Qed.

Lemma metas_can_merge_Ok m m' clock :
  metas_can_merge m m' clock = Ok tt ->
  meta_authorized m = meta_authorized m'
  /\ (meta_lockup m = meta_lockup m'
      \/ is_in_force (meta_lockup m) clock None = false /\ is_in_force (meta_lockup m') clock None = false).
Proof.
  unfold metas_can_merge. destruct (bool_decide_reflect (meta_authorized m = meta_authorized m')); [|done].
  destruct (bool_decide_reflect (meta_lockup m = meta_lockup m')); [by auto|]. cbn.
  destruct (is_in_force (meta_lockup m) clock None), (is_in_force (meta_lockup m') clock None); cbn; auto; done.
Qed.

(** A merge adds at most the lamports of the source to the delegation. *)
Lemma merge_kinds_Ok unmatched kind source clock merged :
  merge_kinds unmatched kind source clock = Ok merged ->
  metas_can_merge (merge_meta kind) (merge_meta source) clock = Ok tt
  /\ match merged with
     | None => True
     | Some st' => exists stake stake' absorbed,
         active_stake kind = Some stake /\ st' = SS_Stake (merge_meta kind) stake'
         /\ dg_stake (delegation stake') = dg_stake (delegation stake) + absorbed
         /\ dg_stake (delegation stake) + absorbed <= U64_MAX
         /\ deactivation_epoch (delegation stake') = deactivation_epoch (delegation stake)
         /\ match source with
            | MK_Inactive _ lamports => absorbed = lamports
            | MK_ActivationEpoch m x => absorbed = rent_exempt_reserve m + dg_stake (delegation x)
            | MK_FullyActive _ x => absorbed = dg_stake (delegation x)
            end
     end.
Proof.
  unfold merge_kinds. destruct (metas_can_merge _ _ _) as [[]|]; cbn [mbind result_bind]; [|done].
  destruct (match active_stake kind with Some _ => _ | None => _ end) as [[]|]; cbn [mbind result_bind]; [|done].
  intros Hm. split; [done|]. destruct kind as [m l|m x|m x], source as [m' l'|m' x'|m' x']; try done.
  all: try (injection Hm as <-; done).
  - unfold checked_add, checked_add64 in Hm. destruct (_ <=? _) eqn:E; [|done]. injection Hm as <-. zbool.
    eexists _, _, _. split_and!; done.
  - destruct (checked_add _ _) as [n|] eqn:En; cbn [mbind result_bind] in Hm; [|done].
    destruct (merge_delegation_stake_and_credits_observed _ _ _ _) as [x2|] eqn:Ed; [|done].
    injection Hm as <-. apply merge_delegation_Ok in Ed as (? & ? & ?).
    unfold checked_add, checked_add64 in En. destruct (_ <=? _); [|done]. injection En as <-.
    eexists _, _, _. split_and!; done.
  - destruct (merge_delegation_stake_and_credits_observed _ _ _ _) as [x2|] eqn:Ed; [|done].
    injection Hm as <-. apply merge_delegation_Ok in Ed as (? & ? & ?). eexists _, _, _. split_and!; done.
Qed.

(** ** The invariant *)

Section Backing.
Context `{BincodeLaws StakeState} `{Bincode VoteStateVersions} `{SeedHash} (epoch : Epoch).
Implicit Types s : accounts_store.

Definition account_backed (a : AccountSharedData) : Prop :=
  acc_owner a = stake_program_id ->
  forall st, stake_view a = Some st -> state_backed epoch (acc_lamports a) (length (acc_data a)) st.

(** The balances are machine integers, and the accounts but for [bad] are backed. *)
Definition store_backed_but (bad : Pubkey -> Prop) (s : accounts_store) : Prop :=
  forall k, u64 (acc_lamports (s k)) /\ (bad k \/ account_backed (s k)).

Definition store_backed : accounts_store -> Prop := store_backed_but (fun _ => False).

(** Only lamports between, and states of, the named accounts change. *)
Definition moves (named : Pubkey -> Prop) (s s' : accounts_store) : Prop :=
  exists from to n w, named from /\ named to /\ (forall k, ~ named k -> w k = None)
    /\ eff (move from to n) w s s'.

Lemma backed_same d w s s' k :
  eff d w s s' -> w k = None -> 0 <= d k -> account_backed (s k) -> account_backed (s' k).
Proof.
  intros He Hw Hd Hb Ho st Hst. rewrite (eff_owner _ _ _ _ k He) in Ho.
  rewrite (eff_view _ _ _ _ k He), Hw in Hst.
  rewrite (eff_lamports _ _ _ _ k He), (eff_length _ _ _ _ k He).
  apply (state_backed_more _ (acc_lamports (s k))); [lia|]. by apply Hb.
Qed.

Lemma backed_written d w s s' k st :
  eff d w s s' -> w k = Some st ->
  (state_backed epoch (acc_lamports (s k) + d k) (length (acc_data (s k))) st) -> account_backed (s' k).
Proof.
  intros He Hw Hb Ho st' Hst. rewrite (eff_view _ _ _ _ k He), Hw in Hst. injection Hst as <-.
  by rewrite (eff_lamports _ _ _ _ k He), (eff_length _ _ _ _ k He).
Qed.

Lemma store_backed_at s k st :
  store_backed s -> acc_owner (s k) = stake_program_id -> stake_view (s k) = Some st ->
  state_backed epoch (acc_lamports (s k)) (length (acc_data (s k))) st.
Proof. intros Hs Ho Hst. destruct (Hs k) as [_ [[]|Hb]]. by apply Hb. Qed.

(** A handler that writes one state and moves nothing. *)
Lemma write_keeps bad s s' self st :
  store_backed s -> eff (fun _ => 0) (only self st) s s' ->
  (bad self \/ state_backed epoch (acc_lamports (s self)) (length (acc_data (s self))) st) ->
  store_backed_but bad s'.
Proof.
  intros Hs He Hst k. rewrite (eff_lamports _ _ _ _ k He), Z.add_0_r. destruct (Hs k) as [Hu [[]|Hb]].
  split; [done|]. destruct (decide (k = self)) as [->|Hne].
  - destruct Hst as [|Hst]; [by left|]. right. apply (backed_written _ _ _ _ _ _ He (only_eq _ _)).
    by rewrite Z.add_0_r.
  - right. eapply backed_same; [exact He|by apply only_ne|done|done].
Qed.

Lemma write_moves (named : Pubkey -> Prop) s s' self st :
  named self -> eff (fun _ => 0) (only self st) s s' -> moves named s s'.
Proof.
  intros Hn He. exists self, self, 0, (only self st). split_and!; try done.
  - intros k Hk. apply only_ne. congruence.
  - eapply eff_ext; [exact He| |done]. intros k. unfold move, amount. destruct (N.eqb k self); lia.
Qed.

Lemma write_keeps_moves (named : Pubkey -> Prop) s s' self st :
  store_backed s -> named self -> eff (fun _ => 0) (only self st) s s' ->
  state_backed epoch (acc_lamports (s self)) (length (acc_data (s self))) st ->
  store_backed s' /\ moves named s s'.
Proof. intros. split; [|by eapply write_moves]. eapply write_keeps; [done|done|by right]. Qed.

Lemma meta_changed_backed R st st' l n :
  (forall m m', R m m' -> rent_exempt_reserve m' = rent_exempt_reserve m) ->
  meta_changed R st st' -> state_backed epoch l n st -> state_backed epoch l n st'.
Proof.
  intros HR. destruct st, st'; cbn; try done.
  - by intros ->%HR.
  - by intros [->%HR ->].
Qed.

(** The lamports of an account after a move. *)
Lemma move_u64 from to n s s' w :
  eff (move from to n) w s s' -> (forall k, u64 (acc_lamports (s k))) ->
  0 <= n <= acc_lamports (s from) -> (to <> from -> acc_lamports (s to) + n <= U64_MAX) ->
  forall k, u64 (acc_lamports (s' k)).
Proof.
  intros He Hu Hn Hto k. rewrite (eff_lamports _ _ _ _ k He). specialize (Hu k). unfold move, amount, u64 in *.
  destruct (N.eqb_spec k to) as [Ht|Ht], (N.eqb_spec k from) as [Hf|Hf]; subst; lia.
Qed.

Lemma move_gain from to n k : 0 <= n -> k <> from -> 0 <= move from to n k.
Proof. intros Hn Hk. unfold move, amount. rewrite (proj2 (N.eqb_neq k from)) by done. destruct (N.eqb k to); lia. Qed.

Lemma move_loss from to n : from <> to -> move from to n from = - n.
Proof.
  intros Hne. unfold move, amount. rewrite N.eqb_refl, (proj2 (N.eqb_neq from to)) by done. lia.
Qed.

Lemma move_self from n k : move from from n k = 0.
Proof. unfold move. lia. Qed.

Lemma move_to from to n : from <> to -> move from to n to = n.
Proof.
  intros Hne. unfold move, amount. rewrite N.eqb_refl, (proj2 (N.eqb_neq to from)) by done. lia.
Qed.

(** *** The handlers of one account *)

Section OneAccount.
Context (s : accounts_store) (self : Pubkey) (named : Pubkey -> Prop).
Hypothesis Hs : store_backed s.
Hypothesis Hnamed : named self.
Hypothesis Howner : acc_owner (s self) = stake_program_id.

Lemma stake_initialize_keeps authorized lockup rent :
  minimum_balance rent size_of_stake_state < U64_MAX ->
  wp (stake_initialize self authorized lockup rent) (fun _ s' => store_backed s' /\ moves named s s') s.
Proof.
  intros Hr. eapply wp_mono; [|apply stake_initialize_spec]. intros _ s' (meta & _ & Hlen & Hm & Hl & He).
  eapply write_keeps_moves; [done|done|exact He|]. cbn. rewrite Hlen, Hm.
  pose proof (minimum_balance_u64 rent size_of_stake_state) as Hu. unfold u64 in Hu.
  rewrite Hm in Hl. unfold MINIMUM_STAKE_DELEGATION in Hl. rewrite wrap64_small in Hl by (u_unfold; lia).
  split; [by unfold stake_size|lia].
Qed.

Lemma stake_authorize_with_keeps signers new_authority sa require_custodian clock custodian :
  wp (stake_authorize_with self signers new_authority sa require_custodian clock custodian)
    (fun _ s' => store_backed s' /\ moves named s s') s.
Proof.
  eapply wp_mono; [|apply stake_authorize_with_spec]. intros _ s' (st & st' & Hst & Hc & He).
  eapply write_keeps_moves; [done|done|exact He|]. eapply meta_changed_backed; [|exact Hc|by apply store_backed_at].
  intros m m' (a & _ & ->). done.
Qed.

Lemma stake_authorize_with_seed_keeps base seed owner new_authority sa require_custodian clock custodian :
  wp (stake_authorize_with_seed self base seed owner new_authority sa require_custodian clock custodian)
    (fun _ s' => store_backed s' /\ moves named s s') s.
Proof. unfold stake_authorize_with_seed. wp_steps. apply stake_authorize_with_keeps. Qed.

Lemma stake_set_lockup_keeps args signers clock :
  wp (stake_set_lockup self args signers clock) (fun _ s' => store_backed s' /\ moves named s s') s.
Proof.
  eapply wp_mono; [|apply stake_set_lockup_spec]. intros _ s' (st & st' & Hst & Hc & He).
  eapply write_keeps_moves; [done|done|exact He|]. eapply meta_changed_backed; [|exact Hc|by apply store_backed_at].
  intros m m'. unfold meta_set_lockup. destruct (negb _); [done|]. by intros [= <-].
Qed.

Lemma stake_deactivate_account_keeps clock signers :
  clk_epoch clock = epoch ->
  wp (stake_deactivate_account self clock signers) (fun _ s' => store_backed s' /\ moves named s s') s.
Proof.
  intros Hclock. eapply wp_mono; [|apply stake_deactivate_account_spec].
  intros _ s' (meta & stake & Hst & _ & _ & He). eapply write_keeps_moves; [done|done|exact He|].
  apply (store_backed_at _ _ _ Hs Howner) in Hst. destruct Hst as (Hn & Hr & Hd & _).
  split_and!; try done; cbn; lia.
Qed.

(** The delegation of the account is rescheduled instead of renewed. *)
Definition rescinding (vote : Pubkey) (history : StakeHistory) : Prop :=
  exists meta stake, stake_view (s self) = Some (SS_Stake meta stake)
    /\ rescinds (delegation stake) vote epoch = true
    /\ delegation_stake (delegation stake) epoch (Some history) <> 0.

Lemma stake_delegate_keeps vote clock history config signers :
  clk_epoch clock = epoch ->
  wp (stake_delegate self vote clock history config signers)
    (fun _ s' => store_backed_but (fun k => k = self /\ rescinding vote history) s' /\ moves named s s') s.
Proof.
  intros Hclock. eapply wp_mono; [|apply stake_delegate_spec].
  intros _ s' (meta & stake' & vs & _ & Hcase & He). split; [|by eapply write_moves].
  eapply write_keeps; [done|exact He|]. destruct (Hs self) as [Hu _]. unfold u64 in Hu.
  unfold validate_delegated_amount in Hcase.
  destruct Hcase as [[Hst ->]|(stake & Hst & Hre)]; pose proof (store_backed_at _ _ _ Hs Howner Hst) as Hb.
  - right. destruct Hb as (Hn & Hr). cbn. unfold delegation_ok, sat_sub64. cbn. split_and!; lia || done.
  - destruct Hb as (Hn & Hr & Hd & _). unfold redelegate in Hre. rewrite Hclock in Hre.
    destruct (Z.eqb_spec (delegation_stake (delegation stake) epoch (Some history)) 0); cbn in Hre.
    + injection Hre as <-. right. cbn. unfold delegation_ok, sat_sub64. cbn. split_and!; lia || done.
    + destruct (rescinds _ _ _) eqn:Er; [|done]. left. split; [done|]. by exists meta, stake.
Qed.

End OneAccount.

(** *** The handlers that move lamports *)

Lemma split_states_backed st info lamports l l' n n' st' split_st meta :
  state_meta st = Some meta -> split_states st info lamports l' st' split_st ->
  state_backed epoch l n st -> stake_size n' -> 0 <= l <= U64_MAX -> 0 <= l' ->
  source_remaining_balance info = l - lamports -> 0 < lamports <= l ->
  (lamports = l \/ rent_exempt_reserve meta <= l - lamports) ->
  0 <= destination_rent_exempt_reserve info <= rent_exempt_reserve meta ->
  destination_rent_exempt_reserve info <= l' + lamports ->
  state_backed epoch (l' + lamports) n' split_st
  /\ (lamports <> l -> state_backed epoch (l - lamports) n st').
Proof.
  intros Hm Hsp Hb Hn' Hl Hl' Hrem Hlam Hkeep Hres Hdest. destruct st as [|m|m stake|]; try done; injection Hm as ->.
  - destruct Hsp as [-> ->], Hb as [Hn Hr]. cbn. intuition lia.
  - destruct Hsp as (stake' & split_stake & Hsplit & -> & ->), Hb as (Hn & Hr & Hd & Hlive).
    unfold split_amounts, stake_split, delegation_ok in *. rewrite Hrem in Hsplit.
    destruct (Z.eqb_spec (l - lamports) 0); cbn [fst snd] in Hsplit;
      (destruct (_ <? _) eqn:Elt; [done|]); zbool; injection Hsplit as <- <-; cbn.
    + unfold sat_sub64 in *. unfold delegation_ok. cbn. split; [split_and!; done || lia|lia].
    + rewrite wrap64_small by (u_unfold; lia). unfold delegation_ok, sat_sub64. cbn.
      split; [split_and!; done || lia|]. intros _. split_and!; done || lia.
Qed.

Section Split.
Context (s s' : accounts_store) (self split : Pubkey) (lamports : Z) (signers : gset N) (st : StakeState).
Context (w : Pubkey -> option StakeState).
Hypothesis Hs : store_backed s.
Hypothesis Howner : acc_owner (s self) = stake_program_id.
Hypothesis Hlam : 0 <= lamports <= acc_lamports (s self).
Hypothesis Hst : stake_view (s self) = Some st.
Hypothesis Hsplit : stake_view (s split) = Some SS_Uninitialized.
Hypothesis Hlen : length (acc_data (s split)) = size_of_stake_state.
Let w' := and_then w (if lamports =? acc_lamports (s self) then only self SS_Uninitialized else no_change).
Hypothesis He : eff (move self split lamports) w' s s'.

(** The last write only concerns the source. *)
Lemma split_last_write k : k <> self -> w' k = w k.
Proof using Type. intros Hk. clear He. unfold w', and_then. destruct (_ =? _); [by rewrite only_ne|done]. Qed.

Lemma split_other_backed k : k <> self -> w k = None -> account_backed (s' k).
Proof.
  intros Hk Hw. destruct (Hs k) as [_ [[]|Hb]].
  eapply backed_same; [exact He|by rewrite split_last_write|apply move_gain; [lia|done]|done].
Qed.

(** The source, when the states before the last write are [default st (w self)]. *)
Lemma split_source_backed :
  self <> split ->
  (lamports <> acc_lamports (s self) ->
   state_backed epoch (acc_lamports (s self) - lamports) (length (acc_data (s self))) (default st (w self))) ->
  account_backed (s' self).
Proof.
  intros Hne Hsrc _ st2 Hview. rewrite (eff_view _ _ _ _ self He) in Hview. unfold w', and_then, no_change in Hview.
  rewrite (eff_lamports _ _ _ _ self He), (eff_length _ _ _ _ self He), move_loss by done.
  destruct (Z.eqb_spec lamports (acc_lamports (s self))) as [|Hl].
  - rewrite only_eq in Hview. by injection Hview as <-.
  - replace st2 with (default st (w self)); [by apply Hsrc|]. rewrite Hst in Hview.
    by destruct (w self); injection Hview as <-.
Qed.

Lemma split_accounts_backed k : split_writes self split signers lamports s st w -> account_backed (s' k).
Proof.
  intros [(Est & _ & Ew)|(meta & info & st' & split_st & Hm & _ & Hv & Hsp & Hws & Hwself & Hwn)].
  - destruct (decide (k = self)) as [->|Hk]; [|apply split_other_backed; [done|by rewrite Ew]].
    intros _ st2 Hview. rewrite (eff_view _ _ _ _ self He) in Hview. unfold w', and_then, no_change in Hview.
    rewrite Ew in Hview. destruct (_ =? _); [rewrite only_eq in Hview|cbn in Hview; rewrite Hst, Est in Hview];
      by injection Hview as <-.
  - assert (self <> split) as Hne by (intros Heq; rewrite Heq, Hsplit in Hst; injection Hst as <-; done).
    pose proof (store_backed_at _ _ _ Hs Howner Hst) as Hb.
    assert (stake_size (length (acc_data (s self))) /\ 0 <= rent_exempt_reserve meta <= acc_lamports (s self))
      as [Hsize Hres] by (clear Hv Hsp; destruct st; try done; injection Hm as Hm; rewrite Hm in Hb; cbn in Hb; tauto).
    destruct (Hs self) as [Hus _], (Hs split) as [Hup _]. unfold u64 in *.
    destruct (validate_split_amount_Ok _ _ _ _ _ _ Hv) as (Hrem & Hpos & Hkeep & Hr1 & Hr2); try done || lia.
    destruct (split_states_backed _ _ _ _ _ _ (length (acc_data (s split))) _ _ _ Hm Hsp Hb) as [Hdst Hsrc];
      try done || lia; [by rewrite Hlen|].
    destruct (decide (k = split)) as [->|Hk2]; [|destruct (decide (k = self)) as [->|Hk1]].
    + eapply backed_written; [exact He|by rewrite split_last_write|by rewrite move_to].
    + apply split_source_backed; [done|]. by rewrite Hwself.
    + by apply split_other_backed, Hwn.
Qed.
End Split.

Lemma split_writes_named self split signers lamports s st w k :
  split_writes self split signers lamports s st w -> k <> self -> k <> split -> w k = None.
Proof. intros [(_ & _ & ->)|(? & ? & ? & ? & _ & _ & _ & _ & _ & _ & Hk)]; [done|apply Hk]. Qed.

Lemma stake_split_account_keeps (named : Pubkey -> Prop) s self lamports split signers :
  store_backed s -> named self -> named split -> acc_owner (s self) = stake_program_id -> 0 <= lamports ->
  wp (stake_split_account self lamports split signers) (fun _ s' => store_backed s' /\ moves named s s') s.
Proof.
  intros Hs Hn1 Hn2 Howner Hlam. eapply wp_mono; [|apply stake_split_account_spec].
  intros _ s' (st & w & Hst & Hsplit & _ & Hlen & Hle & Hmax & Hw & He). split.
  - intros k. split; [|right; by eapply split_accounts_backed].
    eapply (move_u64 self split); eauto. intros j. apply Hs.
  - exists self, split, lamports. eexists. split_and!; [done|done| |exact He]. intros k Hk.
    rewrite split_last_write by congruence.
    eapply split_writes_named; [exact Hw|congruence..].
Qed.

Lemma merged_backed unmatched st source_st kind source_kind l l' n n' clock history st' :
  clk_epoch clock = epoch ->
  get_if_mergeable st l clock history = Ok kind -> get_if_mergeable source_st l' clock history = Ok source_kind ->
  merge_kinds unmatched kind source_kind clock = Ok (Some st') ->
  state_backed epoch l n st -> state_backed epoch l' n' source_st -> 0 <= l' ->
  state_backed epoch (l + l') n st'.
Proof.
  intros Hclock Hk Hk' Hm Hb Hb' Hl'. apply get_if_mergeable_Ok in Hk as [_ Hk], Hk' as [_ Hk'].
  apply merge_kinds_Ok in Hm as (_ & stake & stake' & absorbed & Ha & -> & Hd & Hmax & Hde & Habs).
  assert (st = SS_Stake (merge_meta kind) stake /\ epoch < deactivation_epoch (delegation stake)) as [-> Hlive].
  { destruct kind; try done; injection Ha as <-; rewrite <- Hclock; done. }
  assert (0 <= absorbed <= l') as Hx.
  { destruct source_kind as [m x|m x|m x]; [by subst|..]; destruct Hk' as [-> Hlive'];
      destruct Hb' as (_ & Hr' & Hd' & Hl2); rewrite Hclock in Hlive'; specialize (Hl2 Hlive');
      unfold delegation_ok in Hd'; lia. }
  destruct Hb as (Hn & Hr & Hdel & Hlb). specialize (Hlb Hlive). unfold delegation_ok in *. cbn. unfold delegation_ok.
  rewrite Hd, Hde. split_and!; done || lia.
Qed.

Lemma stake_merge_keeps (named : Pubkey -> Prop) s unmatched self source clock history signers :
  store_backed s -> named self -> named source -> acc_owner (s self) = stake_program_id ->
  clk_epoch clock = epoch ->
  wp (stake_merge unmatched self source clock history signers)
    (fun _ s' => store_backed s' /\ moves named s s') s.
Proof.
  intros Hs Hn1 Hn2 Howner Hclock. eapply wp_mono; [|apply stake_merge_spec].
  intros _ s' (st & source_st & kind & source_kind & merged & Hst & Hst' & Ho & Hne & Hk & Hk' & _ & Hm & Hmax & He).
  pose proof (store_backed_at _ _ _ Hs Howner Hst) as Hb. pose proof (store_backed_at _ _ _ Hs Ho Hst') as Hb'.
  destruct (Hs source) as [Husrc _]. unfold u64 in Husrc. split.
  - intros k. split; [eapply (move_u64 source self); eauto; [intros j; apply Hs|lia]|right].
    destruct (Hs k) as [_ [[]|Hbk]]. destruct (decide (k = source)) as [->|Hk2]; [|destruct (decide (k = self)) as [->|Hk1]].
    + eapply (backed_written _ _ _ _ _ SS_Uninitialized); [exact He| |done]. cbn.
      rewrite (proj2 (N.eqb_neq source self)) by done. apply only_eq.
    + destruct merged as [st2|].
      * eapply (backed_written _ _ _ _ _ st2); [exact He|cbn; by rewrite N.eqb_refl|rewrite move_to by done].
        eapply merged_backed; eauto. lia.
      * eapply backed_same; [exact He|cbn; by rewrite N.eqb_refl|rewrite move_to by done; lia|done].
    + eapply backed_same; [exact He| |apply move_gain; [lia|done]|done]. cbn.
      rewrite (proj2 (N.eqb_neq k self)) by done. by apply only_ne.
  - exists source, self, (acc_lamports (s source)). eexists. split_and!; [done|done| |exact He]. intros k Hk0. cbn.
    rewrite (proj2 (N.eqb_neq k self)) by congruence. apply only_ne. congruence.
Qed.

(** What is left after a partial withdrawal. *)
Lemma withdraw_reserve_backed st self signers clock history lockup reserve is_staked l n lamports :
  clk_epoch clock = epoch ->
  withdraw_reserve st self signers clock history = Ok (lockup, reserve, is_staked) ->
  state_backed epoch l n st -> lamports + reserve <= l -> 0 <= lamports ->
  state_backed epoch (l - lamports) n st.
Proof.
  intros Hclock Hw Hb Hle Hpos. unfold withdraw_reserve, checked_add, checked_add64 in Hw. rewrite Hclock in Hw.
  destruct st as [|meta|meta stake|]; try done.
  - destruct Hb as (Hn & Hr). destruct (authorized_check _ _ _); [|done]. cbn [mbind result_bind] in Hw.
    destruct (_ <=? _); [|done]. cbn in Hw. injection Hw as <- <- <-. unfold MINIMUM_STAKE_DELEGATION in Hle.
    cbn. split; [done|lia].
  - destruct Hb as (Hn & Hr & Hd & Hlive). destruct (authorized_check _ _ _); [|done]. cbn [mbind result_bind] in Hw.
    set (staked := if _ <=? epoch then _ else _) in Hw.
    destruct (_ <=? U64_MAX); [|done]. cbn in Hw. injection Hw as <- <- <-.
    assert (0 <= staked /\ (epoch < deactivation_epoch (delegation stake) -> staked = dg_stake (delegation stake)))
      as [Hst Heq].
    { unfold staked. destruct (Z.leb_spec (deactivation_epoch (delegation stake)) epoch).
      - split; [by apply delegation_stake_bound|lia].
      - unfold delegation_ok in Hd. split; [lia|done]. }
    cbn. split_and!; try done; try lia.
Qed.

Lemma stake_withdraw_keeps (named : Pubkey -> Prop) s self lamports to clock history authority custodian :
  store_backed s -> named self -> named to -> acc_owner (s self) = stake_program_id -> 0 <= lamports ->
  clk_epoch clock = epoch ->
  wp (stake_withdraw self lamports to clock history authority custodian)
    (fun _ s' => store_backed s' /\ moves named s s') s.
Proof.
  intros Hs Hn1 Hn2 Howner Hlam Hclock. eapply wp_mono; [|apply stake_withdraw_spec].
  intros _ s' (st & key & lockup & reserve & staked & _ & Hst & Hw & _ & Hle & Hor & Hto & He).
  pose proof (store_backed_at _ _ _ Hs Howner Hst) as Hb. split.
  - intros k. split; [eapply (move_u64 self to); eauto; intros j; apply Hs|right].
    destruct (Hs k) as [_ [[]|Hbk]]. destruct (decide (k = self)) as [->|Hk].
    + destruct (Z.eqb_spec lamports (acc_lamports (s self))) as [|Hl].
      { by eapply (backed_written _ _ _ _ _ SS_Uninitialized); [exact He|by rewrite only_eq|]. }
      destruct (decide (self = to)) as [<-|Hne]; [eapply backed_same; [exact He|done|by rewrite move_self|done]|].
      intros _ st2 Hview. rewrite (eff_view _ _ _ _ self He), Hst in Hview. injection Hview as <-.
      rewrite (eff_lamports _ _ _ _ self He), (eff_length _ _ _ _ self He), move_loss by done.
      eapply withdraw_reserve_backed; eauto. destruct Hor as [[_ Hc]|Hc]; [lia|done].
    + eapply backed_same; [exact He| |by apply move_gain|done]. destruct (_ =? _); [by apply only_ne|done].
  - exists self, to, lamports. eexists. split_and!; [done|done| |exact He]. intros k Hk.
    destruct (_ =? _); [apply only_ne; congruence|done].
Qed.

End Backing.
