(* ===== verification/StakeGuarantees.v ===== *)
(** * Guarantees of the stake program

    The theorems about [stake_process_instruction]: it returns, conserves lamports, only
    touches the accounts it names and keeps every stake account backed; lamports and
    authorities only change hands with the signatures the account asks for; rescinding a
    deactivation is the one operation that leaves an account unbacked. *)

From S2P Require Import Prelude Keys Errors Float64 StakeHistory Account Invocation VoteState VoteProgram StakeState StakeActivation StakeProgram StakeProcessor StakeEffects StakeSafety.

(** ** Instructions *)

(** Amounts are [u64]. *)
Definition stake_instruction_typed (i : StakeInstruction) : Prop :=
  match i with SI_Split lamports | SI_Withdraw lamports => u64 lamports | _ => True end.

Definition named_account (ctx : InvokeContext) (k : Pubkey) : Prop :=
  exists ka, ka ∈ ic_keyed_accounts ctx /\ ka_key ka = k.

(** The instruction does not panic, and what it leaves when it succeeds satisfies [Q]. *)
Definition post (Q : accounts_store -> Prop) (o : outcome instruction_result) : Prop :=
  match o with
  | Returns (s', Ok _) => Q s'
  | Returns (_, Err _) => True
  | Panics => False
  end.

Lemma post_fetch {A} Q ctx (r : result InstructionError A) k :
  (forall a, r = Ok a -> post Q (k a)) -> post Q (fetch ctx r k).
Proof. unfold fetch. destruct r; auto. done. Qed.

Lemma post_wp (Q : accounts_store -> Prop) (h : handler unit) s : wp h (fun _ s' => Q s') s -> post Q (h s).
Proof. done. Qed.

(** Goes through the accounts and sysvars an instruction fetches. *)
Ltac fetches :=
  repeat lazymatch goal with
  | |- post _ (fetch _ _ _) =>
      let a := fresh "a" in let Ha := fresh "Ha" in apply post_fetch; intros a Ha
  | |- post _ (if ?b then _ else _) => destruct b eqn:?
  | |- post _ (fails _ _) => exact I
  end.

Lemma instruction_account_named ctx i ka :
  keyed_account_at_index (ic_keyed_accounts ctx) i = Ok ka -> named_account ctx (ka_key ka).
Proof.
  unfold keyed_account_at_index. destruct (_ !! i) eqn:E; [|done]. intros [= <-]. eexists.
  split; [by eapply list_elem_of_lookup_2|done].
Qed.

Lemma account_at_signer ctx first i ka key :
  keyed_account_at_index (ic_keyed_accounts ctx) (first + i) = Ok ka -> signer_key ka = Some key ->
  key ∈ get_signers (drop first (ic_keyed_accounts ctx)).
Proof.
  unfold keyed_account_at_index. destruct (_ !! _) eqn:E; [|done]. intros [= <-] Hk.
  unfold get_signers. apply elem_of_list_to_set, list_elem_of_omap. eexists. split; [|exact Hk].
  eapply list_elem_of_lookup_2. rewrite lookup_drop. exact E.
Qed.

Lemma sysvar_clock_Ok ctx i clock :
  (ka ← keyed_account_at_index (ic_keyed_accounts ctx) i; sysvar_clock ka ctx) = Ok clock ->
  sv_clock (ic_sysvar_cache ctx) = Some clock.
Proof.
  destruct (keyed_account_at_index _ _) as [ka|]; [|done]. cbn. unfold sysvar_clock, get_clock.
  destruct (check_sysvar_keyed_account _ _); [|done]. cbn. destruct (sv_clock _); [|done]. by intros [= ->].
Qed.

Lemma sysvar_rent_Ok ctx i rent :
  (ka ← keyed_account_at_index (ic_keyed_accounts ctx) i; sysvar_rent ka ctx) = Ok rent ->
  sv_rent (ic_sysvar_cache ctx) = Some rent.
Proof.
  destruct (keyed_account_at_index _ _) as [ka|]; [|done]. cbn. unfold sysvar_rent, get_rent.
  destruct (check_sysvar_keyed_account _ _); [|done]. cbn. destruct (sv_rent _); [|done]. by intros [= ->].
Qed.

Lemma sysvar_stake_history_Ok ctx i h :
  (ka ← keyed_account_at_index (ic_keyed_accounts ctx) i; sysvar_stake_history ka ctx) = Ok h ->
  sv_stake_history (ic_sysvar_cache ctx) = Some h.
Proof.
  destruct (keyed_account_at_index _ _) as [ka|]; [|done]. cbn. unfold sysvar_stake_history, get_stake_history.
  destruct (check_sysvar_keyed_account _ _); [|done]. cbn. destruct (sv_stake_history _); [|done]. by intros [= ->].
Qed.

(** ** Conservation *)

Lemma total_amount s (d : Pubkey -> Z) s' keys :
  (forall k, acc_lamports (s' k) = acc_lamports (s k) + d k) ->
  total_lamports s' keys = total_lamports s keys + zsum d keys.
Proof.
  intros Hd. induction keys as [|k keys IH]; [done|]. cbn.
  fold (total_lamports s' keys) (total_lamports s keys). rewrite IH, Hd. lia.
Qed.

Lemma zsum_amount key n keys : NoDup keys -> key ∈ keys -> zsum (amount key n) keys = n.
Proof.
  assert (forall l, key ∉ l -> zsum (amount key n) l = 0) as H0.
  { induction l as [|x l IH]; [done|]. intros [Hx Hl]%not_elem_of_cons. cbn. rewrite IH by done.
    unfold amount. rewrite (proj2 (N.eqb_neq x key)) by done. lia. }
  induction 1 as [|x keys Hx Hnd IH]; [by intros ?%not_elem_of_nil|]. cbn. intros [<-|Hin]%elem_of_cons.
  - rewrite H0 by done. unfold amount. rewrite N.eqb_refl. lia.
  - rewrite IH by done. unfold amount. destruct (N.eqb_spec x key); [congruence|lia].
Qed.

Lemma zsum_move from to n keys : zsum (move from to n) keys = zsum (amount to n) keys - zsum (amount from n) keys.
Proof. induction keys as [|k keys IH]; [done|]. cbn. rewrite IH. unfold move. lia. Qed.

Lemma moves_total `{BincodeLaws StakeState} (named : Pubkey -> Prop) s s' keys :
  moves named s s' -> NoDup keys -> (forall k, named k -> k ∈ keys) ->
  total_lamports s' keys = total_lamports s keys.
Proof.
  intros (from & to & n & w & Hf & Ht & _ & He) Hnd Hin.
  rewrite (total_amount s (move from to n)) by (intros k; by apply (eff_lamports _ _ _ _ k He)).
  rewrite zsum_move, !zsum_amount by auto. lia.
Qed.

Lemma moves_frame `{BincodeLaws StakeState} (named : Pubkey -> Prop) s s' k :
  moves named s s' -> ~ named k -> s' k = s k.
Proof.
  intros (from & to & n & w & Hf & Ht & Hw & He) Hk. apply (eff_frame _ _ _ _ _ He); [|by apply Hw].
  unfold move, amount. rewrite !(proj2 (N.eqb_neq k _)) by congruence. done.
Qed.

(** ** Every instruction *)

(** Bincode's keys of a configuration are read from at least as many bytes as they are
    written to. *)
Class ConfigKeysFit `{Bincode ConfigKeys} : Prop := {
  config_keys_fit : forall bytes (keys : ConfigKeys), deserialize bytes = Some keys ->
    (length (serialize keys) <= length bytes)%nat;
}.

Section Guarantees.
Context `{BincodeLaws StakeState} `{Bincode VoteStateVersions} `{ConfigKeysFit} `{Bincode StakeConfig}.
Context `{SeedHash} `{StakeInstructionCodec}.

Lemma config_from_returns a : exists c, config_from a = Returns c.
Proof.
  unfold config_from, get_config_data. destruct (deserialize (acc_data a)) as [keys|] eqn:E; cbn; [|eauto].
  rewrite (proj2 (Nat.leb_le _ _)) by (by apply config_keys_fit). cbn. eauto.
Qed.

(** The account whose deactivation a delegation rescinds. *)
Definition rescinded (first : nat) (data : list Z) (ctx : InvokeContext) (epoch : Epoch) (k : Pubkey) : Prop :=
  decode_stake_instruction data = Some SI_DelegateStake
  /\ exists me vote history,
       ic_keyed_accounts ctx !! first = Some me /\ ka_key me = k
       /\ ic_keyed_accounts ctx !! (first + 1)%nat = Some vote
       /\ sv_stake_history (ic_sysvar_cache ctx) = Some history
       /\ rescinding epoch (ic_accounts ctx) k (ka_key vote) history.

Section Context.
Context (epoch : Epoch) (first : nat) (data : list Z) (ctx : InvokeContext).
Hypothesis Hclock : forall c, sv_clock (ic_sysvar_cache ctx) = Some c -> clk_epoch c = epoch.
Hypothesis Hrent : forall r, sv_rent (ic_sysvar_cache ctx) = Some r ->
  minimum_balance r size_of_stake_state < U64_MAX.
Hypothesis Hs : store_backed epoch (ic_accounts ctx).

(** What an instruction leaves. *)
Definition kept (s' : accounts_store) : Prop :=
  store_backed_but epoch (rescinded first data ctx epoch) s' /\ moves (named_account ctx) (ic_accounts ctx) s'.

Lemma handler_kept (h : handler unit) :
  wp h (fun _ s' => store_backed epoch s' /\ moves (named_account ctx) (ic_accounts ctx) s') (ic_accounts ctx) ->
  post kept (h (ic_accounts ctx)).
Proof.
  intros Hw. apply post_wp. eapply wp_mono; [|exact Hw]. intros _ s' [Hb Hm]. split; [|done].
  intros k. destruct (Hb k) as [? [[]|?]]. auto.
Qed.

Lemma dispatch_kept me i :
  keyed_account_at_index (ic_keyed_accounts ctx) first = Ok me ->
  acc_owner (ic_accounts ctx (ka_key me)) = stake_program_id ->
  decode_stake_instruction data = Some i -> stake_instruction_typed i ->
  post kept (stake_dispatch first ctx me (get_signers (drop first (ic_keyed_accounts ctx))) i).
Proof.
  intros Hme Ho Hi Ht. pose proof (instruction_account_named _ _ _ Hme) as Hn.
  destruct i; unfold stake_dispatch; cbv zeta; fetches; try apply handler_kept;
    eauto using stake_authorize_with_keeps, stake_authorize_with_seed_keeps, stake_set_lockup_keeps,
      stake_initialize_keeps, sysvar_rent_Ok, sysvar_clock_Ok, instruction_account_named, stake_deactivate_account_keeps,
      stake_merge_keeps.
  - destruct (config_from_returns (ic_accounts ctx (ka_key a2))) as [c ->].
    cbn [mbind outcome_bind]. fetches. apply post_wp.
    eapply wp_mono; [|eapply stake_delegate_keeps; eauto using sysvar_clock_Ok]. intros _ s' [Hb Hm]. split; [|done].
    intros k. destruct (Hb k) as [Hu [[-> Hre]|?]]; [|auto]. split; [done|left]. split; [done|].
    exists me, a, a1. unfold keyed_account_at_index in Hme, Ha.
    destruct (ic_keyed_accounts ctx !! first); [|done]. destruct (ic_keyed_accounts ctx !! _); [|done].
    injection Hme as ->. injection Ha as ->. split_and!; eauto using sysvar_stake_history_Ok.
  - cbn in Ht. unfold u64 in Ht. eapply stake_split_account_keeps; eauto using instruction_account_named. lia.
  - cbn in Ht. unfold u64 in Ht. eapply stake_withdraw_keeps; eauto using instruction_account_named, sysvar_clock_Ok. lia.
Qed.
End Context.

(** ** Control *)

(** The second account is under the control of the first's authorities. *)
Definition same_control (clock : Clock) (m m' : Meta) : Prop :=
  meta_authorized m' = meta_authorized m
  /\ (meta_lockup m' = meta_lockup m
      \/ is_in_force (meta_lockup m) clock None = false /\ is_in_force (meta_lockup m') clock None = false).

(** Lamports left the account [k]. *)
Definition outflow_allowed (clock : Clock) (signers : gset N) (s s' : accounts_store) (k : Pubkey) : Prop :=
  exists st, stake_view (s k) = Some st /\
  match state_meta st with
  | None => st = SS_Uninitialized /\ k ∈ signers
  | Some meta =>
      (withdrawer (meta_authorized meta) ∈ signers
       /\ exists custodian, is_in_force (meta_lockup meta) clock custodian = false
            /\ forall c, custodian = Some c -> c ∈ signers)
      \/ (staker (meta_authorized meta) ∈ signers
          /\ exists to st' meta', stake_view (s' to) = Some st' /\ state_meta st' = Some meta'
               /\ acc_owner (s' to) = stake_program_id /\ same_control clock meta meta'
               /\ acc_lamports (s' to) + acc_lamports (s' k) = acc_lamports (s to) + acc_lamports (s k))
  end.

Definition outflows_allowed (clock : Clock) (signers : gset N) (s s' : accounts_store) : Prop :=
  forall k, acc_lamports (s' k) < acc_lamports (s k) -> outflow_allowed clock signers s s' k.

Lemma no_outflow clock signers s s' self st :
  eff (fun _ => 0) (only self st) s s' -> outflows_allowed clock signers s s'.
Proof. intros He k Hk. rewrite (eff_lamports _ _ _ _ k He) in Hk. lia. Qed.

(** The lamports a move takes away. *)
Lemma move_outflow from to n s s' w k :
  eff (move from to n) w s s' -> 0 <= n -> acc_lamports (s' k) < acc_lamports (s k) -> k = from /\ from <> to.
Proof.
  intros He Hn Hk. rewrite (eff_lamports _ _ _ _ k He) in Hk. unfold move, amount in Hk.
  destruct (N.eqb_spec k to), (N.eqb_spec k from); (lia || (split; congruence)).
Qed.

Lemma move_balance from to n s s' w :
  eff (move from to n) w s s' -> from <> to ->
  acc_lamports (s' to) + acc_lamports (s' from) = acc_lamports (s to) + acc_lamports (s from).
Proof.
  intros He Hne. rewrite (eff_lamports _ _ _ _ to He), (eff_lamports _ _ _ _ from He), move_to, move_loss by done. lia.
Qed.

Lemma split_outflow clock self lamports split signers s :
  0 <= lamports ->
  wp (stake_split_account self lamports split signers) (fun _ s' => outflows_allowed clock signers s s') s.
Proof.
  intros Hlam. eapply wp_mono; [|apply stake_split_account_spec].
  intros _ s' (st & w & Hst & _ & Ho & _ & _ & _ & Hw & He) k Hk.
  destruct (move_outflow _ _ _ _ _ _ _ He Hlam Hk) as [-> Hne]. exists st. split; [done|].
  destruct Hw as [(-> & Hin & _)|(meta & info & st' & split_st & Hm & Hin & _ & Hsp & Hws & _ & _)]; [done|].
  rewrite Hm. right. split; [done|].
  exists split, split_st, (with_reserve meta (destination_rent_exempt_reserve info)). split_and!.
  - rewrite (eff_view _ _ _ _ split He), split_last_write, Hws; done.
  - destruct st; try done; injection Hm as ->; cbn in Hsp.
    + by destruct Hsp as [_ ->].
    + by destruct Hsp as (? & ? & _ & _ & ->).
  - by rewrite (eff_owner _ _ _ _ split He).
  - by split; [|left].
  - by eapply move_balance.
Qed.

Lemma merge_outflow unmatched self source clock history signers s :
  acc_owner (s self) = stake_program_id -> 0 <= acc_lamports (s source) ->
  wp (stake_merge unmatched self source clock history signers)
    (fun _ s' => outflows_allowed clock signers s s') s.
Proof.
  intros Ho Hpos. eapply wp_mono; [|apply stake_merge_spec].
  intros _ s' (st & source_st & kind & source_kind & merged & Hst & Hst' & _ & Hne & Hk & Hk' & Hin & Hm & _ & He) k Hlt.
  destruct (move_outflow _ _ _ _ _ _ _ He Hpos Hlt) as [-> _]. exists source_st. split; [done|].
  apply get_if_mergeable_Ok in Hk as [Hmeta _], Hk' as [-> _]. apply merge_kinds_Ok in Hm as [Hc Hm].
  apply metas_can_merge_Ok in Hc as [Hauth Hlock]. right. split; [by rewrite <- Hauth|].
  exists self, (default st merged), (merge_meta kind). split_and!.
  - rewrite (eff_view _ _ _ _ self He), N.eqb_refl, Hst. by destruct merged.
  - destruct merged; [|done]. by destruct Hm as (? & ? & ? & _ & -> & _).
  - by rewrite (eff_owner _ _ _ _ self He).
  - split; [done|]. destruct Hlock as [|[? ?]]; [by left|by right].
  - by eapply move_balance.
Qed.

Lemma withdraw_outflow self lamports to clock history authority custodian (signers : gset N) s :
  0 <= lamports -> (forall key, signer_key authority = Some key -> key ∈ signers) ->
  (forall key, custodian ≫= signer_key = Some key -> key ∈ signers) ->
  wp (stake_withdraw self lamports to clock history authority custodian)
    (fun _ s' => outflows_allowed clock signers s s') s.
Proof.
  intros Hlam Hauth Hcust. eapply wp_mono; [|apply stake_withdraw_spec].
  intros _ s' (st & key & lockup & reserve & staked & Hkey & Hst & Hw & Hforce & _ & _ & _ & He) k Hlt.
  destruct (move_outflow _ _ _ _ _ _ _ He Hlam Hlt) as [-> _]. exists st. split; [done|]. apply Hauth in Hkey.
  unfold withdraw_reserve in Hw. destruct st as [|meta|meta stake|]; try done; cbn.
  - destruct (bool_decide_reflect (self ∈ ({[key]} : gset N))) as [Hin|]; [|done].
    apply elem_of_singleton in Hin as ->. done.
  - left. destruct (authorized_check _ _ _) as [[]|] eqn:Ea; [|done].
    apply (authorized_check_Ok _ _ SA_Withdrawer), elem_of_singleton in Ea as ->. split; [done|].
    destruct (checked_add _ _); [|done]. injection Hw as <- <- <-. eauto.
  - left. destruct (authorized_check _ _ _) as [[]|] eqn:Ea; [|done].
    apply (authorized_check_Ok _ _ SA_Withdrawer), elem_of_singleton in Ea as ->. split; [done|].
    cbn [mbind result_bind] in Hw. destruct (checked_add _ _); [|done]. injection Hw as <- <- <-. eauto.
Qed.

(** The key signed, or is derived from a key that did. *)
Definition signed_for (signers : gset N) (key : Pubkey) : Prop :=
  key ∈ signers \/ exists base seed owner, base ∈ signers /\ create_with_seed base seed owner = Ok key.

(** A change of the authorities or the lockup of an account; [locked] says that a lockup
    also protects the withdrawer. *)
Definition meta_change_allowed (clock : Clock) (locked : bool) (signers : gset N) (m m' : Meta) : Prop :=
  let a := meta_authorized m in
  let lockup := meta_lockup m in
  (staker (meta_authorized m') = staker a \/ signed_for signers (staker a) \/ signed_for signers (withdrawer a))
  /\ (withdrawer (meta_authorized m') = withdrawer a
      \/ signed_for signers (withdrawer a)
         /\ (locked = true -> is_in_force lockup clock None = false \/ signed_for signers (lk_custodian lockup)))
  /\ (meta_lockup m' = lockup
      \/ (if is_in_force lockup clock None then lk_custodian lockup else withdrawer a) ∈ signers).

Lemma meta_change_same clock locked signers m m' :
  meta_authorized m' = meta_authorized m -> meta_lockup m' = meta_lockup m ->
  meta_change_allowed clock locked signers m m'.
Proof. unfold meta_change_allowed. intros -> ->. split_and!; by left. Qed.

Definition authorities_allowed (clock : Clock) (locked : bool) (signers : gset N) (s s' : accounts_store) : Prop :=
  forall k st st' m m', stake_view (s k) = Some st -> stake_view (s' k) = Some st' ->
    state_meta st = Some m -> state_meta st' = Some m' -> meta_change_allowed clock locked signers m m'.

Lemma written_authorities clock locked signers d w s s' :
  eff d w s s' ->
  (forall k st st' m m', stake_view (s k) = Some st -> w k = Some st' -> state_meta st = Some m ->
     state_meta st' = Some m' -> meta_change_allowed clock locked signers m m') ->
  authorities_allowed clock locked signers s s'.
Proof.
  intros He Hw k st st' m m' Hst Hst' Hm Hm'. rewrite (eff_view _ _ _ _ k He) in Hst'.
  destruct (w k) as [st2|] eqn:Ew; [injection Hst' as ->; eauto|]. rewrite Hst in Hst'. injection Hst' as ->.
  rewrite Hm in Hm'. injection Hm' as ->. by apply meta_change_same.
Qed.

(** A handler that writes the states of one account. *)
Lemma write_authorities clock locked signers d s s' self st st' :
  eff d (only self st') s s' -> stake_view (s self) = Some st ->
  (forall m m', state_meta st = Some m -> state_meta st' = Some m' ->
     meta_change_allowed clock locked signers m m') ->
  authorities_allowed clock locked signers s s'.
Proof.
  intros He Hst Hm. eapply written_authorities; [exact He|]. intros k st1 st2 m m' Hk Hw.
  unfold only in Hw. destruct (N.eqb_spec k self) as [->|]; [|done]. injection Hw as <-.
  rewrite Hst in Hk. injection Hk as <-. apply Hm.
Qed.

Lemma meta_changed_inv (R : Meta -> Meta -> Prop) st st' m m' :
  meta_changed R st st' -> state_meta st = Some m -> state_meta st' = Some m' -> R m m'.
Proof. destruct st, st'; cbn; try done; [by intros ? [= ->] [= ->]|by intros [? _] [= ->] [= ->]]. Qed.

Lemma check_custodian_Ok signers lockup clock custodian :
  check_custodian signers lockup clock custodian = Ok tt ->
  is_in_force lockup clock None = false \/ lk_custodian lockup ∈ signers.
Proof.
  unfold check_custodian. destruct (is_in_force lockup clock None) eqn:Ef; [|by left]. right.
  destruct custodian as [c|]; [|done]. destruct (bool_decide_reflect (c ∈ signers)); [|done].
  cbn in *. destruct (is_in_force lockup clock (Some c)) eqn:Ec; [done|].
  unfold is_in_force in Ec, Ef. rewrite bool_decide_eq_false_2 in Ef by done.
  destruct (bool_decide_reflect (Some c = Some (lk_custodian lockup))); [by simplify_eq|congruence].
Qed.

(** [signers'] are the signatures the handler counts. *)
Lemma authorize_change_allowed (signers signers' : gset N) new_authority sa (check locked : bool) clock0 clock
    custodian m m' :
  (forall key, key ∈ signers' -> signed_for signers key) ->
  (locked = true -> check = true /\ clock0 = clock) ->
  authorize_changes signers' new_authority sa
    (fun m => if check then Some (meta_lockup m, clock0, custodian) else None) m m' ->
  meta_change_allowed clock locked signers m m'.
Proof.
  intros Hsig Hlock (a & Ha & ->). unfold authorized_authorize in Ha. destruct sa.
  - destruct (bool_decide_reflect (staker (meta_authorized m) ∈ signers'));
      [|destruct (bool_decide_reflect (withdrawer (meta_authorized m) ∈ signers')); [|done]];
      injection Ha as <-; (split_and!; [right; eauto|by left|by left]).
  - destruct (match (if check then _ else _) with Some _ => _ | None => _ end) as [[]|] eqn:Ec;
      cbn [mbind result_bind] in Ha; [|done].
    destruct (authorized_check _ _ _) as [[]|] eqn:Ea; [|done]. injection Ha as <-.
    apply (authorized_check_Ok _ _ SA_Withdrawer) in Ea. split_and!; [by left|right|by left].
    split; [eauto|]. intros Hl. destruct (Hlock Hl) as [Hch Hcl]. rewrite Hch in Ec. subst clock0.
    apply check_custodian_Ok in Ec as [|]; eauto.
Qed.

Definition controlled (clock : Clock) (locked : bool) (signers : gset N) (s s' : accounts_store) : Prop :=
  outflows_allowed clock signers s s' /\ authorities_allowed clock locked signers s s'.

Section Controlled.
Context (clock : Clock) (locked : bool) (signers : gset N) (s : accounts_store) (self : Pubkey).

Lemma authorize_controlled (signers' : gset N) new_authority sa check clock0 custodian :
  (forall key, key ∈ signers' -> signed_for signers key) ->
  (locked = true -> check = true /\ clock0 = clock) ->
  wp (stake_authorize_with self signers' new_authority sa check clock0 custodian)
    (fun _ s' => controlled clock locked signers s s') s.
Proof.
  intros Hsig Hlock. eapply wp_mono; [|apply stake_authorize_with_spec]. intros _ s' (st & st' & Hst & Hc & He).
  split; [by eapply no_outflow|]. eapply write_authorities; [exact He|done|]. intros m m' Hm Hm'.
  eapply authorize_change_allowed; [exact Hsig|exact Hlock|]. eapply meta_changed_inv; [exact Hc|done|done].
Qed.

Lemma seed_signers_signed ka seed owner keys key :
  (forall k, signer_key ka = Some k -> k ∈ signers) ->
  seed_signers ka seed owner = Ok keys -> key ∈ keys -> signed_for signers key.
Proof.
  intros Hka. unfold seed_signers. destruct (signer_key ka) as [base|] eqn:Eb.
  - destruct (create_with_seed base seed owner) as [k|] eqn:Ek; [|done]. cbn. intros [= <-] ->%elem_of_singleton.
    right. exists base, seed, owner. auto.
  - intros [= <-] Hin. by apply not_elem_of_empty in Hin.
Qed.

Lemma authorize_with_seed_controlled ka seed owner new_authority sa check clock0 custodian :
  (forall k, signer_key ka = Some k -> k ∈ signers) ->
  (locked = true -> check = true /\ clock0 = clock) ->
  wp (stake_authorize_with_seed self ka seed owner new_authority sa check clock0 custodian)
    (fun _ s' => controlled clock locked signers s s') s.
Proof.
  intros Hka Hlock. unfold stake_authorize_with_seed. wp_steps. apply authorize_controlled; [|done].
  intros key. by eapply seed_signers_signed.
Qed.

Lemma set_lockup_controlled args :
  wp (stake_set_lockup self args signers clock) (fun _ s' => controlled clock locked signers s s') s.
Proof.
  eapply wp_mono; [|apply stake_set_lockup_spec]. intros _ s' (st & st' & Hst & Hc & He).
  split; [by eapply no_outflow|]. eapply write_authorities; [exact He|done|]. intros m m' Hm Hm'.
  pose proof (meta_changed_inv _ _ _ _ _ Hc Hm Hm') as Hl. unfold meta_set_lockup in Hl.
  set (k := if is_in_force _ _ _ then _ else _) in Hl.
  destruct (bool_decide_reflect (k ∈ signers)); [|done]. injection Hl as <-. split_and!; [by left|by left|by right].
Qed.

Lemma initialize_controlled authorized lockup rent :
  wp (stake_initialize self authorized lockup rent) (fun _ s' => controlled clock locked signers s s') s.
Proof.
  eapply wp_mono; [|apply stake_initialize_spec]. intros _ s' (meta & Hst & _ & _ & _ & He).
  split; [by eapply no_outflow|]. by eapply write_authorities; [exact He|exact Hst|].
Qed.

Lemma deactivate_controlled clock0 :
  wp (stake_deactivate_account self clock0 signers) (fun _ s' => controlled clock locked signers s s') s.
Proof.
  eapply wp_mono; [|apply stake_deactivate_account_spec]. intros _ s' (meta & stake & Hst & _ & _ & He).
  split; [by eapply no_outflow|]. eapply write_authorities; [exact He|exact Hst|]. intros m m' [= ->] [= ->].
  by apply meta_change_same.
Qed.

Lemma delegate_controlled vote clock0 history config :
  wp (stake_delegate self vote clock0 history config signers)
    (fun _ s' => controlled clock locked signers s s') s.
Proof.
  eapply wp_mono; [|apply stake_delegate_spec]. intros _ s' (meta & stake' & vs & _ & Hcase & He).
  split; [by eapply no_outflow|].
  destruct Hcase as [[Hst _]|(stake & Hst & _)]; (eapply write_authorities; [exact He|exact Hst|]);
    intros m m' [= ->] [= ->]; by apply meta_change_same.
Qed.

Lemma split_controlled lamports split :
  0 <= lamports ->
  wp (stake_split_account self lamports split signers) (fun _ s' => controlled clock locked signers s s') s.
Proof.
  intros Hlam. apply wp_and; [by apply split_outflow|]. eapply wp_mono; [|apply stake_split_account_spec].
  intros _ s' (st & w & Hst & Hsplit & _ & _ & _ & _ & Hw & He). eapply written_authorities; [exact He|].
  intros k st1 st2 m m' Hk Hwk Hm Hm'.
  destruct (decide (k = self)) as [->|Hne].
  - rewrite Hst in Hk. injection Hk as <-. unfold and_then in Hwk.
    destruct (_ =? _); [rewrite only_eq in Hwk; injection Hwk as <-; done|cbn in Hwk].
    destruct Hw as [(-> & _)|(meta & info & st' & split_st & Hmeta & _ & _ & Hsp & _ & Hself & _)]; [done|].
    assert (self <> split) as Hne by (intros ->; rewrite Hst in Hsplit; by injection Hsplit as ->).
    specialize (Hself Hne). rewrite Hwk in Hself. cbn in Hself. subst st2. rewrite Hmeta in Hm. injection Hm as ->.
    destruct st; try done; injection Hmeta as ->; cbn in Hsp.
    + destruct Hsp as [-> _]. injection Hm' as ->. by apply meta_change_same.
    + destruct Hsp as (? & ? & _ & -> & _). injection Hm' as ->. by apply meta_change_same.
  - rewrite split_last_write in Hwk by done.
    destruct (decide (k = split)) as [->|Hk2]; [rewrite Hsplit in Hk; by injection Hk as <-|].
    by rewrite (split_writes_named _ _ _ _ _ _ _ _ Hw Hne Hk2) in Hwk.
Qed.

Lemma merge_controlled unmatched source history :
  acc_owner (s self) = stake_program_id -> 0 <= acc_lamports (s source) ->
  wp (stake_merge unmatched self source clock history signers)
    (fun _ s' => controlled clock locked signers s s') s.
Proof.
  intros Ho Hpos. apply wp_and; [by apply merge_outflow|]. eapply wp_mono; [|apply stake_merge_spec].
  intros _ s' (st & source_st & kind & source_kind & merged & Hst & _ & _ & _ & Hk & _ & _ & Hm & _ & He).
  apply get_if_mergeable_Ok in Hk as [Hmeta _]. apply merge_kinds_Ok in Hm as [_ Hm].
  eapply written_authorities; [exact He|]. intros k st1 st2 m m' Hk Hwk Hm1 Hm2. cbn in Hwk.
  destruct (N.eqb_spec k self) as [->|].
  - rewrite Hwk in Hm. destruct Hm as (? & ? & ? & _ & -> & _). rewrite Hst in Hk. injection Hk as <-.
    rewrite Hmeta in Hm1. injection Hm1 as <-. injection Hm2 as <-. by apply meta_change_same.
  - unfold only in Hwk. destruct (N.eqb k source); [|done]. by injection Hwk as <-.
Qed.

Lemma withdraw_controlled lamports to history authority custodian :
  0 <= lamports -> (forall key, signer_key authority = Some key -> key ∈ signers) ->
  (forall key, custodian ≫= signer_key = Some key -> key ∈ signers) ->
  wp (stake_withdraw self lamports to clock history authority custodian)
    (fun _ s' => controlled clock locked signers s s') s.
Proof.
  intros Hlam Hauth Hcust. apply wp_and; [by apply withdraw_outflow|].
  eapply wp_mono; [|apply stake_withdraw_spec]. intros _ s' (st & ? & ? & ? & ? & _ & _ & _ & _ & _ & _ & _ & He).
  eapply written_authorities; [exact He|]. intros k st1 st2 m m' Hk Hwk Hm1 Hm2.
  destruct (_ =? _); [|done]. unfold only in Hwk. destruct (N.eqb k self); [|done]. by injection Hwk as <-.
Qed.
End Controlled.

Section ControlledContext.
Context (first : nat) (ctx : InvokeContext) (clock : Clock).
Hypothesis Hclock : sv_clock (ic_sysvar_cache ctx) = Some clock.
Hypothesis Hs : forall k, 0 <= acc_lamports (ic_accounts ctx k).
Let signers := get_signers (drop first (ic_keyed_accounts ctx)).
Let locked := is_active (ic_feature_set ctx) require_custodian_for_locked_stake_authorize.

Lemma context_clock i c :
  (ka ← keyed_account_at_index (ic_keyed_accounts ctx) i; sysvar_clock ka ctx) = Ok c -> c = clock.
Proof. intros Hc%sysvar_clock_Ok. congruence. Qed.

Lemma context_get_clock c : get_clock (ic_sysvar_cache ctx) = Ok c -> c = clock.
Proof. unfold get_clock. rewrite Hclock. by intros [= ->]. Qed.

Lemma context_signer i ka :
  keyed_account_at_index (ic_keyed_accounts ctx) (first + i) = Ok ka ->
  forall key, signer_key ka = Some key -> key ∈ signers.
Proof. intros Hka key. by eapply account_at_signer. Qed.

Lemma context_optional_signer i key :
  result_ok (keyed_account_at_index (ic_keyed_accounts ctx) (first + i)) ≫= signer_key = Some key -> key ∈ signers.
Proof. destruct (keyed_account_at_index _ _) eqn:E; [|done]. cbn. by eapply context_signer. Qed.

Lemma dispatch_controlled me i :
  acc_owner (ic_accounts ctx (ka_key me)) = stake_program_id -> stake_instruction_typed i ->
  post (controlled clock locked signers (ic_accounts ctx)) (stake_dispatch first ctx me signers i).
Proof.
  intros Ho Ht. assert (forall key, key ∈ signers -> signed_for signers key) as Hsf by (by left).
  destruct i; unfold stake_dispatch; cbv zeta; fetches; try apply post_wp;
    repeat match goal with
    | Hc : _ = Ok ?c |- _ => first [apply context_clock in Hc; subst c|apply context_get_clock in Hc; subst c]
    end;
    eauto using authorize_controlled, authorize_with_seed_controlled, set_lockup_controlled,
      initialize_controlled, deactivate_controlled, merge_controlled, context_signer.
  - apply authorize_controlled; [done|]. unfold locked. congruence.
  - destruct (config_from_returns (ic_accounts ctx (ka_key a2))) as [c ->]. cbn [mbind outcome_bind]. fetches.
    apply post_wp, delegate_controlled.
  - cbn in Ht. unfold u64 in Ht. apply split_controlled. lia.
  - cbn in Ht. unfold u64 in Ht. apply withdraw_controlled; [lia|by eapply context_signer|].
    apply context_optional_signer.
  - eapply authorize_with_seed_controlled; [by eapply context_signer|]. unfold locked. congruence.
Qed.
End ControlledContext.

(** What the processor checks before it dispatches. *)
Lemma process_post Q first data ctx :
  (forall me i, keyed_account_at_index (ic_keyed_accounts ctx) first = Ok me ->
     acc_owner (ic_accounts ctx (ka_key me)) = stake_program_id -> decode_stake_instruction data = Some i ->
     post Q (stake_dispatch first ctx me (get_signers (drop first (ic_keyed_accounts ctx))) i)) ->
  post Q (stake_process_instruction first data ctx).
Proof.
  intros HQ. unfold stake_process_instruction. fetches. apply negb_false_iff, N.eqb_eq in Heqb.
  cbv zeta. fetches. destruct (decode_stake_instruction data); [|done]. injection Ha0 as ->. by apply HQ.
Qed.

(** An invocation of the stake program: its sysvars and its data are well-formed. *)
Record stake_invocation (epoch : Epoch) (data : list Z) (ctx : InvokeContext) : Prop := {
  si_clock : forall c, sv_clock (ic_sysvar_cache ctx) = Some c -> clk_epoch c = epoch;
  si_rent : forall r, sv_rent (ic_sysvar_cache ctx) = Some r ->
    minimum_balance r size_of_stake_state < U64_MAX;
  si_data : forall i, decode_stake_instruction data = Some i -> stake_instruction_typed i;
}.

(** C4: the stake program returns on every instruction: no assertion fails.  When it succeeds, lamports are
    conserved over the accounts it was given, no other account changes, balances stay in
    range, and every stake account is still backed: it holds its rent-exempt reserve and,
    while it is not deactivated, its whole delegation.  The one exception is the account
    whose deactivation a [DelegateStake] rescinds. *)
Theorem stake_program_keeps_backing epoch first data ctx keys :
  stake_invocation epoch data ctx -> store_backed epoch (ic_accounts ctx) ->
  NoDup keys -> (forall k, named_account ctx k -> k ∈ keys) ->
  exists s' r, stake_process_instruction first data ctx = Returns (s', r)
    /\ (r = Ok tt ->
        store_backed_but epoch (rescinded first data ctx epoch) s'
        /\ total_lamports s' keys = total_lamports (ic_accounts ctx) keys
        /\ forall k, ~ named_account ctx k -> s' k = ic_accounts ctx k).
Proof.
  intros [Hc Hr Ht] Hs Hnd Hin.
  assert (post (kept epoch first data ctx) (stake_process_instruction first data ctx)) as Hp.
  { apply process_post. intros me i Hme Ho Hi. apply dispatch_kept; eauto. }
  destruct (stake_process_instruction first data ctx) as [[s' [[]|e]]|]; [|by eexists _, _|done].
  destruct Hp as [Hb Hm]. exists s', (Ok tt). split; [done|]. intros _.
  split_and!; [done|by eapply moves_total|intros k; by eapply moves_frame].
Qed.

(** C7: who controls a stake account.  When an instruction of the stake program takes lamports out of
    an account, the withdrawer signed and no lockup is in force or its custodian signed;
    or the staker signed and the lamports are in a stake account under the same
    authorities and lockup; or the account was uninitialized and signed itself.  When it
    changes an authority, that authority or the withdrawer signed (or a base key it is
    derived from); a new withdrawer in a lockup also needs the custodian; and a new lockup
    needs the custodian during the old one, the withdrawer after it. *)
Theorem stake_control_guarded first data ctx clock s' :
  let signers := get_signers (drop first (ic_keyed_accounts ctx)) in
  let locked := is_active (ic_feature_set ctx) require_custodian_for_locked_stake_authorize in
  sv_clock (ic_sysvar_cache ctx) = Some clock ->
  (forall k, 0 <= acc_lamports (ic_accounts ctx k)) ->
  (forall i, decode_stake_instruction data = Some i -> stake_instruction_typed i) ->
  stake_process_instruction first data ctx = Returns (s', Ok tt) ->
  outflows_allowed clock signers (ic_accounts ctx) s'
  /\ authorities_allowed clock locked signers (ic_accounts ctx) s'.
Proof.
  intros signers locked Hc Hl Ht Hp.
  assert (post (controlled clock locked signers (ic_accounts ctx)) (stake_process_instruction first data ctx)) as Hpost.
  { apply process_post. intros me i _ Ho Hi. apply dispatch_controlled; eauto. }
  by rewrite Hp in Hpost.
Qed.

(** The signature of the custodian does not count: the signers are the derived key. *)
Lemma seed_authorize_in_lockup self ka seed owner new_authority clock custodian st meta s :
  stake_view (s self) = Some st -> state_meta st = Some meta ->
  is_in_force (meta_lockup meta) clock None = true ->
  (forall base, create_with_seed base seed owner <> Ok (lk_custodian (meta_lockup meta))) ->
  wp (stake_authorize_with_seed self ka seed owner new_authority SA_Withdrawer true clock custodian)
    (fun _ _ => False) s.
Proof.
  intros Hst Hm Hf Hc. unfold stake_authorize_with_seed. wp_steps.
  eapply wp_mono; [|apply stake_authorize_with_spec]. intros _ s' (st1 & st2 & Hst1 & Hch & _).
  rewrite Hst in Hst1. injection Hst1 as <-.
  assert (exists m', authorize_changes r new_authority SA_Withdrawer
    (fun m => Some (meta_lockup m, clock, custodian)) meta m') as (m' & a & Ha & _).
  { destruct st, st2; try done; injection Hm as ->; cbn in Hch; [|destruct Hch as [Hch _]]; eauto. }
  cbn in Ha. destruct (check_custodian _ _ _ _) as [[]|] eqn:Ec; [|done].
  apply check_custodian_Ok in Ec as [|Hin]; [congruence|].
  unfold seed_signers in Er. destruct (signer_key ka) as [base|].
  - destruct (create_with_seed base seed owner) as [k|] eqn:Ek; [|done]. injection Er as <-.
    apply elem_of_singleton in Hin. apply (Hc base). by rewrite Ek, Hin.
  - injection Er as <-. by apply not_elem_of_empty in Hin.
Qed.

(** The seed and the owner of an instruction that changes the withdrawer by a derived key
    and checks the lockup. *)
Definition seed_withdrawer_change (features : FeatureSet) (i : StakeInstruction) : option (list Z * Pubkey) :=
  match i with
  | SI_AuthorizeWithSeed args =>
      match aws_stake_authorize args with
      | SA_Withdrawer =>
          if is_active features require_custodian_for_locked_stake_authorize
          then Some (aws_authority_seed args, aws_authority_owner args) else None
      | SA_Staker => None
      end
  | SI_AuthorizeCheckedWithSeed args =>
      match acws_stake_authorize args with
      | SA_Withdrawer => Some (acws_authority_seed args, acws_authority_owner args)
      | SA_Staker => None
      end
  | _ => None
  end.

(** C35: A withdrawer that is a derived key cannot be changed during a lockup, whoever signs:
    [AuthorizeWithSeed], with the feature that makes it check the lockup
    ([require_custodian_for_locked_stake_authorize]) active, and [AuthorizeCheckedWithSeed]
    count the derived key as the only signature.  So the signature of the custodian does not
    help, although both instructions document it as an optional signer for this case; the one
    exception, which is excluded here, is a custodian that is itself a key derived with the
    same seed and owner. *)
Theorem seed_authorize_ignores_custodian first data ctx i seed owner me st meta clock :
  decode_stake_instruction data = Some i ->
  seed_withdrawer_change (ic_feature_set ctx) i = Some (seed, owner) ->
  sv_clock (ic_sysvar_cache ctx) = Some clock ->
  ic_keyed_accounts ctx !! first = Some me ->
  stake_view (ic_accounts ctx (ka_key me)) = Some st -> state_meta st = Some meta ->
  is_in_force (meta_lockup meta) clock None = true ->
  (forall base, create_with_seed base seed owner <> Ok (lk_custodian (meta_lockup meta))) ->
  exists s' e, stake_process_instruction first data ctx = Returns (s', Err e).
Proof.
  intros Hd Hi Hc Hme Hst Hm Hforce Hcust.
  assert (post (fun _ => False) (stake_process_instruction first data ctx)) as Hp.
  { apply process_post. intros me' i' Hme' _ Hi'. rewrite Hd in Hi'. injection Hi' as <-.
    unfold keyed_account_at_index in Hme'. rewrite Hme in Hme'. injection Hme' as <-.
    destruct i as [| | | | | | | |args| | |args|]; try done; cbn in Hi; [destruct (aws_stake_authorize args) eqn:Hsa; [done|];
      destruct (is_active _ _) eqn:Hf; [|done]|destruct (acws_stake_authorize args) eqn:Hsa; [done|]];
      injection Hi as <- <-; unfold stake_dispatch; cbv zeta; fetches; try congruence; apply sysvar_clock_Ok in Ha0;
      rewrite Hc in Ha0; injection Ha0 as <-; rewrite Hsa; apply post_wp; by eapply seed_authorize_in_lockup. }
  destruct (stake_process_instruction first data ctx) as [[s' [[]|e]]|]; [done|by eexists _, _|done].
Qed.

End Guarantees.

(** ** A deactivation that is rescinded

    The one operation that does not keep a stake account backed, in general: an account
    that is only partly effective is deactivated, the rest is withdrawn, and the account
    is delegated to the same voter within the epoch. *)

#[local] Open Scope handler_scope.

(** The handler succeeds, and what it leaves satisfies [Q]. *)
Definition runs {A} (m : handler A) (Q : A -> accounts_store -> Prop) (s : accounts_store) : Prop :=
  exists a s', m s = Returns (s', Ok a) /\ Q a s'.

Section Rescind.
Context `{BincodeLaws StakeState} `{Bincode VoteStateVersions} `{SeedHash}.

(** Deactivate [self], withdraw [lamports] of it, and delegate it again. *)
Definition rescind (self to vote : Pubkey) (lamports : Z) (clock : Clock) (history : StakeHistory)
    (config : StakeConfig) (signers : gset N) (withdraw_authority : KeyedAccount) : handler unit :=
  let! _ := stake_deactivate_account self clock signers in
  let! _ := stake_withdraw self lamports to clock history withdraw_authority None in
  stake_delegate self vote clock history config signers.

Implicit Types (s : accounts_store) (Q : unit -> accounts_store -> Prop).

Lemma runs_bind {A B} (m : handler A) (k : A -> handler B) (Q' : B -> accounts_store -> Prop) s :
  runs m (fun a s' => runs (k a) Q' s') s -> runs (h_bind m k) Q' s.
Proof. intros (a & s' & E & b & s2 & E2 & HQ). exists b, s2. unfold h_bind. by rewrite E. Qed.

Lemma runs_try {A} (r : result InstructionError A) a (Q' : A -> accounts_store -> Prop) s :
  r = Ok a -> Q' a s -> runs (h_try r) Q' s.
Proof. intros -> HQ. by exists a, s. Qed.

Lemma runs_return_if b e Q s : b = false -> Q tt s -> runs (h_return_if b e) Q s.
Proof. intros -> HQ. by exists tt, s. Qed.

Lemma runs_account key (Q' : AccountSharedData -> accounts_store -> Prop) s : Q' (s key) s -> runs (account_of key) Q' s.
Proof. intros HQ. by exists (s key), s. Qed.

Lemma runs_stake_state key st (Q' : StakeState -> accounts_store -> Prop) s :
  stake_view (s key) = Some st -> Q' st s -> runs (stake_state_of key) Q' s.
Proof. intros Hst HQ. exists st, s. unfold stake_state_of, state, stake_view in *. by rewrite Hst. Qed.

(** A handler that succeeds has the effects its specification gives. *)
Lemma runs_wp {A} (m : handler A) (Q' : A -> accounts_store -> Prop) s :
  runs m (fun _ _ => True) s -> wp m Q' s -> runs m Q' s.
Proof. intros (a & s' & E & _). unfold wp. rewrite E. by exists a, s'. Qed.

Lemma runs_set_state key st Q s :
  (length (serialize st) <= length (acc_data (s key)))%nat ->
  (forall s', eff (fun _ => 0) (only key st) s s' -> Q tt s') -> runs (set_stake_state key st) Q s.
Proof.
  intros Hlen HQ. apply runs_wp; [|by apply wp_set_state]. unfold runs, set_stake_state, set_state.
  rewrite (proj2 (Nat.ltb_ge _ _)) by done. by eexists tt, _.
Qed.

Lemma runs_sub_lamports key n Q s :
  n <= acc_lamports (s key) -> (forall s', eff (amount key (- n)) no_change s s' -> Q tt s') ->
  runs (h_sub_lamports key n) Q s.
Proof.
  intros Hn HQ. apply runs_wp; [|apply wp_sub_lamports; auto].
  unfold runs, h_sub_lamports, checked_sub_lamports, checked_sub64.
  rewrite (proj2 (Z.leb_le _ _)) by lia. by eexists tt, _.
Qed.

Lemma runs_add_lamports key n Q s :
  acc_lamports (s key) + n <= U64_MAX -> (forall s', eff (amount key n) no_change s s' -> Q tt s') ->
  runs (h_add_lamports key n) Q s.
Proof.
  intros Hn HQ. apply runs_wp; [|apply wp_add_lamports; auto].
  unfold runs, h_add_lamports, checked_add_lamports, checked_add64.
  rewrite (proj2 (Z.leb_le _ _)) by lia. by eexists tt, _.
Qed.

Lemma checked_add_run a b : a + b <= U64_MAX -> checked_add a b = Ok (a + b).
Proof. intros Hle. unfold checked_add, checked_add64. by rewrite (proj2 (Z.leb_le _ _)). Qed.

(** ** The deactivation *)

Lemma activation_loop_deactivated fuel stake epoch h : forall prev c cur,
  epoch < deactivation_epoch (delegation stake) ->
  activation_loop fuel (delegation (with_deactivation stake epoch)) epoch h prev c cur
  = activation_loop fuel (delegation stake) epoch h prev c cur.
Proof.
  induction fuel as [|fuel IH]; intros prev c cur Hlt; cbn [activation_loop with_deactivation delegation
    dg_stake deactivation_epoch dg_warmup_cooldown_rate].
  all: set (next := wrap64 (prev + 1)).
  all: assert ((epoch <=? next) || (deactivation_epoch (delegation stake) <=? next)
         = (epoch <=? next) || (epoch <=? next)) as ->
    by (destruct (Z.leb_spec epoch next), (Z.leb_spec (deactivation_epoch (delegation stake)) next); cbn; lia || done).
  - done.
  - destruct (stake_history_get h next) as [c'|]; [|done]. by rewrite <- (IH next c').
Qed.

(** In the epoch of its deactivation a stake is as effective as it was, if it was
    delegated before. *)
Lemma deactivating_is_effective stake epoch h :
  deactivation_epoch (delegation stake) = U64_MAX -> epoch < U64_MAX ->
  0 < delegation_stake (delegation stake) epoch h < dg_stake (delegation stake) ->
  delegation_stake (delegation (with_deactivation stake epoch)) epoch h = delegation_stake (delegation stake) epoch h.
Proof.
  intros Hd He. unfold delegation_stake, stake_activating_and_deactivating, stake_and_activating, is_bootstrap.
  cbn [with_deactivation delegation dg_stake deactivation_epoch activation_epoch].
  rewrite Hd, Z.ltb_irrefl, Z.eqb_refl, (proj2 (Z.ltb_lt _ _) He).
  destruct (Z.eqb_spec (activation_epoch (delegation stake)) U64_MAX); [done|].
  destruct (Z.eqb_spec epoch (activation_epoch (delegation stake))) as [<-|];
    [by destruct (_ =? 0); intros [Hpos _]|].
  rewrite (proj2 (Z.eqb_neq _ epoch)) by done. destruct (_ <? _); [by intros [Hpos _]|].
  destruct (_ ← h; _) as [[h' c]|]; [|done].
  pose proof (activation_loop_deactivated (length h') stake epoch h' (activation_epoch (delegation stake)) c 0
    ltac:(by rewrite Hd)) as Hloop.
  cbn [with_deactivation delegation] in Hloop. rewrite Hloop. by destruct (_ =? 0).
Qed.

Lemma rescind_restores stake epoch :
  deactivation_epoch (delegation stake) = U64_MAX -> with_deactivation (with_deactivation stake epoch) U64_MAX = stake.
Proof. intros <-. by destruct stake as [[] ?]. Qed.

(** ** The three steps *)

Section Steps.
Context (self to vote : Pubkey) (clock : Clock) (history : StakeHistory) (config : StakeConfig) (signers : gset N)
  (authority : KeyedAccount) (meta : Meta) (stake : Stake).
Let epoch := clk_epoch clock.
Let effective := delegation_stake (delegation stake) epoch (Some history).
Let stopped := with_deactivation stake epoch.
Hypothesis Hactive : deactivation_epoch (delegation stake) = U64_MAX.
Hypothesis Hepoch : epoch < U64_MAX.
Hypothesis Hpartly : 0 < effective < dg_stake (delegation stake).
Hypothesis Hstaker : staker (meta_authorized meta) ∈ signers.

Lemma staker_signs : authorized_check (meta_authorized meta) signers SA_Staker = Ok tt.
Proof. unfold authorized_check. by rewrite decide_True. Qed.

Lemma deactivate_runs s :
  stake_view (s self) = Some (SS_Stake meta stake) ->
  (length (serialize (SS_Stake meta stopped)) <= length (acc_data (s self)))%nat ->
  runs (stake_deactivate_account self clock signers)
    (fun _ s' => eff (fun _ => 0) (only self (SS_Stake meta stopped)) s s') s.
Proof.
  intros Hst Hlen. unfold stake_deactivate_account. apply runs_bind. eapply runs_stake_state; [done|].
  apply runs_bind. eapply runs_try; [exact staker_signs|]. apply runs_bind. eapply runs_try.
  { unfold stake_deactivate. by rewrite Hactive. }
  by apply runs_set_state.
Qed.

Lemma withdraw_runs lamports s :
  stake_view (s self) = Some (SS_Stake meta stopped) -> signer_key authority = Some (withdrawer (meta_authorized meta)) ->
  is_in_force (meta_lockup meta) clock None = false -> to <> self ->
  lamports = acc_lamports (s self) - rent_exempt_reserve meta - effective ->
  0 <= lamports -> 0 <= rent_exempt_reserve meta -> acc_lamports (s self) <= U64_MAX ->
  acc_lamports (s to) + lamports <= U64_MAX ->
  runs (stake_withdraw self lamports to clock history authority None)
    (fun _ s' => eff (move self to lamports) no_change s s') s.
Proof.
  intros Hst Hkey Hlock Hto Hl Hpos Hres Hu Hfit. unfold stake_withdraw.
  apply runs_bind. eapply runs_try; [by rewrite Hkey|]. apply runs_bind. eapply runs_stake_state; [done|].
  apply runs_bind. eapply runs_try.
  { unfold withdraw_reserve, authorized_check. rewrite decide_True by set_solver. cbn [mbind result_bind].
    unfold stopped. rewrite deactivating_is_effective by done. cbn [with_deactivation delegation deactivation_epoch].
    fold epoch effective. rewrite Z.leb_refl, checked_add_run by lia. reflexivity. }
  apply runs_bind. apply runs_return_if; [done|]. apply runs_bind.
  eapply runs_try; [apply checked_add_run; lia|]. apply runs_bind, runs_account, runs_bind.
  assert ((acc_lamports (s self) <? lamports + (effective + rent_exempt_reserve meta)) = false) as Hlt by (apply Z.ltb_ge; lia).
  apply runs_return_if; [by rewrite Hlt, andb_false_r|]. rewrite Hlt, andb_false_r, (proj2 (Z.eqb_neq _ _)) by lia.
  apply runs_bind. exists tt, s. split; [done|]. apply runs_bind. exists tt, s. split; [done|].
  apply runs_bind, runs_sub_lamports; [lia|]. intros s1 He1. apply runs_add_lamports.
  { rewrite (eff_lamports _ _ _ _ to He1). unfold amount. rewrite (proj2 (N.eqb_neq to self)) by done. lia. }
  intros s2 He2. eapply eff_ext; [exact (eff_trans _ _ _ _ _ _ _ He1 He2)| |done].
  intros k. unfold move, amount. destruct (N.eqb k to), (N.eqb k self); lia.
Qed.

Lemma delegate_runs versioned s :
  stake_view (s self) = Some (SS_Stake meta stopped) -> voter_pubkey (delegation stake) = vote ->
  acc_owner (s vote) = vote_program_id -> deserialize (acc_data (s vote)) = Some (versioned : VoteStateVersions) ->
  (length (serialize (SS_Stake meta stake)) <= length (acc_data (s self)))%nat ->
  runs (stake_delegate self vote clock history config signers)
    (fun _ s' => eff (fun _ => 0) (only self (SS_Stake meta stake)) s s') s.
Proof.
  intros Hst Hvoter Howner Hvote Hlen. unfold stake_delegate. apply runs_bind, runs_account, runs_bind.
  apply runs_return_if; [by rewrite Howner|]. apply runs_bind. eapply runs_stake_state; [done|].
  apply runs_bind, runs_account, runs_bind. eapply runs_try; [exact staker_signs|]. apply runs_bind.
  exists (convert_to_current versioned), s. split; [unfold vote_state_of, state; by rewrite Hvote|].
  apply runs_bind. eapply runs_try; [|by apply runs_set_state].
  unfold redelegate, stopped. rewrite deactivating_is_effective by done. fold epoch effective.
  rewrite (proj2 (Z.eqb_neq effective 0)) by lia. cbn [negb]. unfold rescinds.
  cbn [with_deactivation delegation voter_pubkey deactivation_epoch]. rewrite Hvoter, N.eqb_refl. fold epoch.
  rewrite Z.eqb_refl. cbn [andb map_err]. f_equal. by apply rescind_restores.
Qed.

(** The balances move, and the state is the one before. *)
Lemma rescind_runs versioned s :
  let lamports := acc_lamports (s self) - rent_exempt_reserve meta - effective in
  stake_view (s self) = Some (SS_Stake meta stake) -> signer_key authority = Some (withdrawer (meta_authorized meta)) ->
  is_in_force (meta_lockup meta) clock None = false ->
  0 <= lamports -> 0 <= rent_exempt_reserve meta -> acc_lamports (s self) <= U64_MAX ->
  voter_pubkey (delegation stake) = vote -> acc_owner (s vote) = vote_program_id ->
  deserialize (acc_data (s vote)) = Some (versioned : VoteStateVersions) ->
  to <> self -> vote <> self -> acc_lamports (s to) + lamports <= U64_MAX ->
  (forall e, length (serialize (SS_Stake meta (with_deactivation stake e))) <= length (acc_data (s self)))%nat ->
  runs (rescind self to vote lamports clock history config signers authority)
    (fun _ s' => eff (move self to lamports) (only self (SS_Stake meta stake)) s s') s.
Proof.
  intros lamports Hst Hkey Hlock Hpos Hres Hu Hvoter Hvown Hvote Hto Hsv Hfit Hlen. apply runs_bind.
  destruct (deactivate_runs s Hst (Hlen _)) as (a & s1 & E1 & He1). exists a, s1. split; [exact E1|]. apply runs_bind.
  destruct (withdraw_runs lamports s1) as (b & s2 & E2 & He2);
    rewrite ?(eff_view _ _ _ _ _ He1), ?(eff_lamports _ _ _ _ _ He1), ?only_eq, ?Z.add_0_r; try done.
  exists b, s2. split; [exact E2|]. pose proof (eff_trans _ _ _ _ _ _ _ He1 He2) as He12.
  destruct (delegate_runs versioned s2) as (c & s3 & E3 & He3); [..|exists c, s3; split; [exact E3|]].
  - rewrite (eff_view _ _ _ _ _ He2), (eff_view _ _ _ _ _ He1). cbn. by rewrite only_eq.
  - done.
  - by rewrite (eff_owner _ _ _ _ _ He12).
  - destruct (He12 vote) as (data & -> & _ & Hd). unfold and_then, no_change in Hd. cbn in Hd.
    rewrite only_ne in Hd by done. cbn. by rewrite Hd.
  - rewrite (eff_length _ _ _ _ _ He12), <- (rescind_restores stake epoch Hactive). apply (Hlen U64_MAX).
  - eapply eff_ext; [exact (eff_trans _ _ _ _ _ _ _ He12 He3)| |].
    + intros k. cbn beta. lia.
    + intros k. unfold and_then, only, no_change. by destruct (N.eqb k self).
Qed.
End Steps.

(** C31: A deactivation that is rescinded leaves a delegation without its lamports.  Take any
    stake account that is delegated, not deactivated, backed by its lamports and only partly
    effective in the current epoch, whose lockup is over, with a vote account that can be
    read and data that holds the states.  Its authorities can deactivate it, withdraw all that
    is not effective to any other account with room for it, and delegate it to the same voter
    again: the three handlers succeed, the delegation is exactly what it was before, the
    account holds no more than its reserve and the part that was effective, and so it is not
    backed any more. *)
Theorem rescinded_deactivation_unbacked (self to vote : Pubkey) (clock : Clock) (history : StakeHistory)
    (config : StakeConfig) (signers : gset N) (authority : KeyedAccount) (meta : Meta) (stake : Stake)
    (versioned : VoteStateVersions) (s : accounts_store) :
  let epoch := clk_epoch clock in
  let effective := delegation_stake (delegation stake) epoch (Some history) in
  let lamports := acc_lamports (s self) - rent_exempt_reserve meta - effective in
  stake_view (s self) = Some (SS_Stake meta stake) -> acc_owner (s self) = stake_program_id ->
  account_backed epoch (s self) -> acc_lamports (s self) <= U64_MAX ->
  deactivation_epoch (delegation stake) = U64_MAX -> epoch < U64_MAX ->
  0 < effective < dg_stake (delegation stake) ->
  staker (meta_authorized meta) ∈ signers -> signer_key authority = Some (withdrawer (meta_authorized meta)) ->
  is_in_force (meta_lockup meta) clock None = false ->
  voter_pubkey (delegation stake) = vote -> acc_owner (s vote) = vote_program_id ->
  deserialize (acc_data (s vote)) = Some versioned ->
  to <> self -> acc_lamports (s to) + lamports <= U64_MAX ->
  (forall e, length (serialize (SS_Stake meta (with_deactivation stake e))) <= length (acc_data (s self)))%nat ->
  exists s', rescind self to vote lamports clock history config signers authority s = Returns (s', Ok tt)
    /\ stake_view (s' self) = Some (SS_Stake meta stake)
    /\ acc_lamports (s' self) = rent_exempt_reserve meta + effective
    /\ acc_lamports (s' to) = acc_lamports (s to) + lamports
    /\ ~ account_backed epoch (s' self).
Proof.
  intros epoch effective lamports Hst Hown Hback Hu Hact Hepoch Hpart Hsigns Hkey Hlock Hvoter Hvown Hvote Hto Hfit Hlen.
  destruct (Hback Hown _ Hst) as (_ & Hres & _ & Hlive). rewrite Hact in Hlive. specialize (Hlive Hepoch).
  assert (vote <> self) as Hsv by (intros ->; rewrite Hown in Hvown; by vm_compute in Hvown).
  assert (0 <= lamports) as Hpos by (unfold lamports; lia).
  destruct (rescind_runs self to vote clock history config signers authority meta stake Hact Hepoch Hpart Hsigns
    versioned s) as ([] & s' & E & He); try done; [lia|].
  exists s'. split; [exact E|].
  assert (acc_lamports (s' self) = rent_exempt_reserve meta + effective) as Hl.
  { rewrite (eff_lamports _ _ _ _ self He). unfold move, amount. rewrite N.eqb_refl, (proj2 (N.eqb_neq self to)) by done.
    unfold effective, epoch. lia. }
  assert (stake_view (s' self) = Some (SS_Stake meta stake)) as Hv by (by rewrite (eff_view _ _ _ _ self He), only_eq).
  split_and!; [done|done| |].
  - rewrite (eff_lamports _ _ _ _ to He). unfold move, amount. rewrite N.eqb_refl, (proj2 (N.eqb_neq to self)) by done.
    unfold lamports, effective, epoch. lia.
  - intros Hb. rewrite <- (eff_owner _ _ _ _ self He) in Hown. destruct (Hb Hown _ Hv) as (_ & _ & _ & Hlive').
    rewrite Hl, Hact in Hlive'. specialize (Hlive' Hepoch). lia.
Qed.
End Rescind.
