(* ===== verification/StakeRewards.v ===== *)
(** * Staking rewards

    Models the rewards of programs/stake/src/stake_state.rs (points earned since the
    credits a stake has observed, their value in lamports, the split with the voter) and
    their payment to all delegations in runtime/src/bank.rs
    ([pay_validator_rewards_with_thread_pool]); the tracers, which only observe, are left
    out.  The threads of the bank only add to sums, so that the delegations are paid in
    the order of a list. *)

From S2P Require Import Prelude Keys Errors Float64 StakeHistory Account Invocation VoteState VoteProgram VoteSafety StakeState StakeActivation StakeProgram StakeEffects StakeSafety.

#[local] Open Scope arith_scope.

(** ** Points *)

Record PointValue := {
  pv_rewards : Z;
  pv_points : Z;
}.

(** One epoch of the loop of [calculate_stake_points_and_credits]. *)
Definition epoch_points (stake : Stake) (history : option StakeHistory) (acc : Z * Z) (e : Epoch * Z * Z) : Z * Z :=
  let '(points, new_credits_observed) := acc in
  let '(epoch, final_epoch_credits, initial_epoch_credits) := e in
  let stake_amount := delegation_stake (delegation stake) epoch history in
  let earned_credits :=
    if credits_observed stake <? initial_epoch_credits
    then wrap64 (final_epoch_credits - initial_epoch_credits)
    else if credits_observed stake <? final_epoch_credits
    then wrap64 (final_epoch_credits - new_credits_observed)
    else 0 in
  (wrap128 (points + wrap128 (stake_amount * earned_credits)), Z.max new_credits_observed final_epoch_credits).

Definition calculate_stake_points_and_credits (stake : Stake) (new_vote_state : VoteState)
    (history : option StakeHistory) : Z * Z :=
  if credits new_vote_state <=? credits_observed stake then (0, credits_observed stake)
  else fold_left (epoch_points stake history) (epoch_credits new_vote_state) (0, credits_observed stake).

Definition calculate_stake_points (stake : Stake) (vote_state : VoteState) (history : option StakeHistory) : Z :=
  (calculate_stake_points_and_credits stake vote_state history).1.

Definition calculate_points (stake_state : StakeState) (vote_state : VoteState) (history : option StakeHistory)
    : result InstructionError Z :=
  match stake_state with
  | SS_Stake _ stake => Ok (calculate_stake_points stake vote_state history)
  | _ => Err IE.InvalidAccountData
  end.

(** ** Rewards *)

(** [(staker_rewards, voter_rewards, credits_observed)]. *)
Definition calculate_stake_rewards (rewarded_epoch : Epoch) (stake : Stake) (point_value : PointValue)
    (vote_state : VoteState) (history : option StakeHistory) : outcome (option (Z * Z * Z)) :=
  let '(points, new_credits) := calculate_stake_points_and_credits stake vote_state history in
  if (pv_rewards point_value =? 0) || (activation_epoch (delegation stake) =? rewarded_epoch)
  then Returns (Some (0, 0, new_credits))
  else if points =? 0 then Returns None
  else if pv_points point_value =? 0 then Returns None
  else
    product ← unwrap (checked_mul128 points (pv_rewards point_value));
    quotient ← unwrap (checked_div128 product (pv_points point_value));
    rewards ← unwrap (u64_try_from quotient);
    if rewards =? 0 then Returns None
    else
      let '(voter_rewards, staker_rewards, is_split) := commission_split vote_state rewards in
      if ((voter_rewards =? 0) || (staker_rewards =? 0)) && is_split then Returns None
      else Returns (Some (staker_rewards, voter_rewards, new_credits)).

(** The stake after the rewards, and [(stakers_reward, voters_reward)]. *)
Definition redeem_stake_rewards (rewarded_epoch : Epoch) (stake : Stake) (point_value : PointValue)
    (vote_state : VoteState) (history : option StakeHistory) : outcome (option (Stake * (Z * Z))) :=
  r ← calculate_stake_rewards rewarded_epoch stake point_value vote_state history;
  Returns ('(stakers_reward, voters_reward, new_credits) ← r;
           Some (with_stake (with_credits_observed stake new_credits)
                   (wrap64 (dg_stake (delegation stake) + stakers_reward)), (stakers_reward, voters_reward))).

(** ** Payment *)

Inductive RewardType := RT_Fee | RT_Rent | RT_Staking | RT_Voting.

Record RewardInfo := {
  ri_reward_type : RewardType;
  ri_lamports : Z;
  ri_post_balance : Z;
  ri_commission : option Z;
}.

Definition I64_MAX : Z := 9223372036854775807.

(** [x as i64] for a [u64]. *)
Definition u64_as_i64 (z : Z) : Z := if z <=? I64_MAX then z else z - 18446744073709551616.

Record VoteWithStakeDelegations := {
  vw_vote_state : VoteState;
  vw_vote_account : AccountSharedData;
  vw_delegations : list (Pubkey * (StakeState * AccountSharedData));
}.

(** The sum of the points of all delegations. *)
Definition delegation_points (vote_state : VoteState) (history : StakeHistory)
    (d : Pubkey * (StakeState * AccountSharedData)) : Z :=
  default 0 (result_ok (calculate_points d.2.1 vote_state (Some history))).

Definition group_points (history : StakeHistory) (g : Pubkey * VoteWithStakeDelegations) : Z :=
  zsum (delegation_points (vw_vote_state g.2) history) (vw_delegations g.2).

(** What paying delegations has done: the voter's sum and whether its account has to be
    stored, the stored stake accounts, and the rewards to report. *)
Record Payout := {
  po_vote_rewards_sum : Z;
  po_vote_needs_store : bool;
  po_stores : list (Pubkey * AccountSharedData);
  po_rewards : list (Pubkey * RewardInfo);
}.

Definition payout_empty : Payout :=
  {| po_vote_rewards_sum := 0; po_vote_needs_store := false; po_stores := []; po_rewards := [] |}.

Section Payment.
Context `{Bincode StakeState}.

(** The account at the point of return, and [(stakers_reward, voters_reward)]. *)
Definition redeem_rewards (rewarded_epoch : Epoch) (stake_state : StakeState) (stake_account : AccountSharedData)
    (vote_state : VoteState) (point_value : PointValue) (history : option StakeHistory)
    : outcome (AccountSharedData * result InstructionError (Z * Z)) :=
  match stake_state with
  | SS_Stake meta stake =>
      r ← redeem_stake_rewards rewarded_epoch stake point_value vote_state history;
      match r with
      | Some (stake, (stakers_reward, voters_reward)) =>
          match checked_add_lamports stake_account stakers_reward with
          | Err e => Returns (stake_account, Err (lamports_error_into e))
          | Ok stake_account =>
              match set_state stake_account (SS_Stake meta stake) with
              | Err e => Returns (stake_account, Err e)
              | Ok stake_account => Returns (stake_account, Ok (stakers_reward, voters_reward))
              end
          end
      | None => Returns (stake_account, Err (stake_error_into SE.NoCreditsToRedeem))
      end
  | _ => Returns (stake_account, Err IE.InvalidAccountData)
  end.

(** The closure of the second pass, on one delegation. *)
Definition pay_delegation (rewarded_epoch : Epoch) (point_value : PointValue) (history : StakeHistory)
    (vote_state : VoteState) (p : Payout) (d : Pubkey * (StakeState * AccountSharedData)) : outcome Payout :=
  let '(stake_pubkey, (stake_state, stake_account)) := d in
  '(stake_account, redeemed) ←
    redeem_rewards rewarded_epoch stake_state stake_account vote_state point_value (Some history);
  match redeemed with
  | Ok (stakers_reward, voters_reward) =>
      Returns {| po_vote_rewards_sum := sat_add64 (po_vote_rewards_sum p) voters_reward;
                 po_vote_needs_store := true;
                 po_stores := po_stores p ++ [(stake_pubkey, stake_account)];
                 po_rewards := po_rewards p ++
                   (if 0 <? stakers_reward then
                      [(stake_pubkey, {| ri_reward_type := RT_Staking; ri_lamports := u64_as_i64 stakers_reward;
                                         ri_post_balance := acc_lamports stake_account;
                                         ri_commission := Some (commission vote_state) |})]
                    else []) |}
  | Err _ => Returns p
  end.

Fixpoint pay_delegations (rewarded_epoch : Epoch) (point_value : PointValue) (history : StakeHistory)
    (vote_state : VoteState) (p : Payout) (ds : list (Pubkey * (StakeState * AccountSharedData))) : outcome Payout :=
  match ds with
  | [] => Returns p
  | d :: ds =>
      p ← pay_delegation rewarded_epoch point_value history vote_state p d;
      pay_delegations rewarded_epoch point_value history vote_state p ds
  end.

(** The third pass, on one vote account: its store and its reward. *)
Definition pay_vote_account (vote_pubkey : Pubkey) (vote_account : AccountSharedData) (commission : Z) (p : Payout)
    : list (Pubkey * AccountSharedData) * list (Pubkey * RewardInfo) :=
  match checked_add_lamports vote_account (po_vote_rewards_sum p) with
  | Err _ => ([], [])
  | Ok vote_account =>
      (if po_vote_needs_store p then [(vote_pubkey, vote_account)] else [],
       [(vote_pubkey, {| ri_reward_type := RT_Voting; ri_lamports := u64_as_i64 (po_vote_rewards_sum p);
                         ri_post_balance := acc_lamports vote_account; ri_commission := Some commission |})])
  end.

(** The stores, the voters' and the stakers' rewards of all vote accounts. *)
Fixpoint pay_groups (rewarded_epoch : Epoch) (point_value : PointValue) (history : StakeHistory)
    (groups : list (Pubkey * VoteWithStakeDelegations))
    : outcome (list (Pubkey * AccountSharedData) * list (Pubkey * RewardInfo) * list (Pubkey * RewardInfo)) :=
  match groups with
  | [] => Returns ([], [], [])
  | (vote_pubkey, g) :: groups =>
      p ← pay_delegations rewarded_epoch point_value history (vw_vote_state g) payout_empty (vw_delegations g);
      '(stores, vote_rewards, stake_rewards) ← pay_groups rewarded_epoch point_value history groups;
      let '(vote_stores, vote_reward) :=
        pay_vote_account vote_pubkey (vw_vote_account g) (commission (vw_vote_state g)) p in
      Returns (po_stores p ++ vote_stores ++ stores, vote_reward ++ vote_rewards, po_rewards p ++ stake_rewards)
  end.

(** [pay_validator_rewards_with_thread_pool] on the loaded accounts: the stored accounts,
    the reported rewards, and the value of a point. *)
Definition pay_validator_rewards (rewarded_epoch : Epoch) (rewards : Z) (history : StakeHistory)
    (groups : list (Pubkey * VoteWithStakeDelegations))
    : outcome (list (Pubkey * AccountSharedData) * list (Pubkey * RewardInfo) * f64) :=
  let points := wrap128 (zsum (group_points history) groups) in
  if points =? 0 then Returns ([], [], of_u64 0)
  else
    let point_value := {| pv_rewards := rewards; pv_points := points |} in
    '(stores, vote_rewards, stake_rewards) ← pay_groups rewarded_epoch point_value history groups;
    Returns (stores, vote_rewards ++ stake_rewards,
             of_u64 (pv_rewards point_value) ⊘ of_u64 (pv_points point_value)).

End Payment.

(** [new_stake_history_entry]: the entry of an epoch is the sum over the delegations. *)
Definition new_stake_history_entry (epoch : Epoch) (stakes : list Delegation) (history : option StakeHistory)
    : StakeHistoryEntry :=
  fold_left (fun sum d => entry_add sum (stake_activating_and_deactivating d epoch history)) stakes entry_default.

(** ** Lemmas *)

Lemma wrap128_range z : u128 (wrap128 z).
Proof.
  unfold wrap128, u128, U128_MAX.
  pose proof (Z.mod_pos_bound z 340282366920938463463374607431768211456 eq_refl). lia.
Qed.

Lemma epoch_points_fold stake history l acc :
  u128 acc.1 ->
  let r := fold_left (epoch_points stake history) l acc in
  u128 r.1 /\ acc.2 <= r.2 /\ (forall e, e ∈ l -> e.1.2 <= r.2).
Proof.
  revert acc. induction l as [|[[ep fin] ini] l IH]; intros [p c] Hp; cbn zeta.
  { split_and!; [done|cbn; lia|by intros e ?%not_elem_of_nil]. }
  cbn [fold_left]. set (acc := epoch_points _ _ _ _).
  destruct (IH acc) as (Hu & Hle & Hall); [apply wrap128_range|]. cbn zeta in *.
  assert (c <= acc.2 /\ fin <= acc.2) as [Hc Hf] by (cbn; lia).
  split_and!; [done|cbn [snd] in *; lia|]. intros e [->|He]%elem_of_cons; [cbn [fst snd]; lia|by apply Hall].
Qed.

(** The points are a [u128], and all the credits of the voter are observed. *)
Lemma points_and_credits_spec stake vs history :
  let r := calculate_stake_points_and_credits stake vs history in
  u128 r.1 /\ credits_observed stake <= r.2 /\ credits vs <= Z.max 0 r.2.
Proof.
  unfold calculate_stake_points_and_credits. destruct (Z.leb_spec (credits vs) (credits_observed stake)).
  { cbn. split_and!; [by u_unfold|lia|lia]. }
  destruct (epoch_points_fold stake history (epoch_credits vs) (0, credits_observed stake)) as (Hu & Hle & Hall);
    [by u_unfold|]. cbn zeta in *. split_and!; [done|done|].
  unfold credits. destruct (last (epoch_credits vs)) as [[[ep c] i]|] eqn:El; [|lia].
  specialize (Hall (ep, c, i)). cbn in Hall. rewrite last_lookup in El. apply list_elem_of_lookup_2 in El.
  specialize (Hall El). lia.
Qed.

(** The shares of a reward. *)
Definition payable (P R p : Z) (staker_reward voter_reward : Z) : Prop :=
  0 <= staker_reward /\ 0 <= voter_reward /\ (staker_reward + voter_reward) * P <= p * R.

Lemma payable_bound P R p a b : payable P R p a b -> 0 < P -> 0 <= p <= P -> 0 <= R -> a + b <= R.
Proof. intros (Ha & Hb & Hle) HP Hp HR. nia. Qed.

Lemma calculate_stake_rewards_spec rewarded stake P R vs history :
  let p := calculate_stake_points stake vs history in
  u64 R -> 0 < P -> p <= P -> P * R <= U128_MAX -> u8 (commission vs) ->
  exists r, calculate_stake_rewards rewarded stake {| pv_rewards := R; pv_points := P |} vs history = Returns r
  /\ match r with
     | Some (staker_reward, voter_reward, c) =>
         payable P R p staker_reward voter_reward
         /\ c = (calculate_stake_points_and_credits stake vs history).2
     | None => True
     end.
Proof.
  cbn zeta. unfold calculate_stake_points, calculate_stake_rewards, payable.
  destruct (points_and_credits_spec stake vs history) as (Hu & _ & _).
  destruct (calculate_stake_points_and_credits stake vs history) as [p c]. cbn [fst snd pv_rewards pv_points] in *.
  intros HR HP Hp Hmax Hc. unfold u64, u128 in *.
  destruct (_ || _); [eexists; split; [done|]; split; [split_and!; lia|done]|].
  destruct (p =? 0); [by exists None|]. destruct (Z.eqb_spec P 0); [by exists None|].
  unfold checked_mul128, checked_div128, u64_try_from. rewrite (proj2 (Z.leb_le (p * R) _)) by nia. cbn.
  rewrite (proj2 (Z.eqb_neq P 0)) by lia. cbn.
  pose proof (Z.mul_div_le (p * R) P HP) as Hq. assert (0 <= p * R / P) as Hq0 by (apply Z.div_pos; nia).
  assert (p * R / P <= R) as Hq1 by (apply Z.div_le_upper_bound; nia).
  rewrite (proj2 (Z.leb_le _ U64_MAX)) by lia. cbn. set (q := p * R / P) in *. destruct (q =? 0); [by exists None|].
  pose proof (commission_split_exact vs q Hc) as Hs. cbn zeta in Hs.
  destruct (commission_split vs q) as [[voter staker] is_split].
  destruct Hs as (Hv & Hst & Hsum & _); [unfold u64; lia|]. destruct (_ && _); [by exists None|].
  assert (0 <= Z.min (commission vs) 100 <= 100) as Hm by (unfold u8 in Hc; lia).
  assert (0 <= voter) by (subst voter; apply Z.div_pos; nia).
  assert (0 <= staker) by (subst staker; apply Z.div_pos; nia).
  eexists. split; [done|]. split; [|done]. split_and!; nia.
Qed.

Section PaymentLemmas.
Context `{BincodeLaws StakeState} (epoch rewarded : Epoch) (R P : Z) (history : StakeHistory).
Hypothesis HR : 0 <= R <= I64_MAX.
Hypothesis HP : 0 < P.
Hypothesis Hmax : P * R <= U128_MAX.
Let point_value := {| pv_rewards := R; pv_points := P |}.

(** A delegation as it was loaded. *)
Definition delegation_loaded (d : Pubkey * (StakeState * AccountSharedData)) : Prop :=
  stake_view d.2.2 = Some d.2.1 /\ account_backed epoch d.2.2 /\ u64 (acc_lamports d.2.2).

Definition store_ok (e : Pubkey * AccountSharedData) : Prop := account_backed epoch e.2.

Lemma redeemed_backed a meta stake a1 a2 reward c :
  account_backed epoch a -> stake_view a = Some (SS_Stake meta stake) -> 0 <= reward ->
  checked_add_lamports a reward = Ok a1 ->
  set_state a1 (SS_Stake meta (with_stake (with_credits_observed stake c) (wrap64 (dg_stake (delegation stake) + reward))))
    = Ok a2 ->
  account_backed epoch a2.
Proof.
  intros Hb Hv Hr [-> Hle]%checked_add_lamports_Ok (Hd & Hl & Ho & Hn)%set_state_Ok Hown st Hst.
  unfold stake_view in Hst. rewrite Hd in Hst. injection Hst as <-. rewrite Hl, Hn. cbn in Hl, Ho, Hn |- *.
  rewrite Ho in Hown. destruct (Hb Hown _ Hv) as (Hsz & Hres & Hdel & Hlive). unfold delegation_ok in *. cbn.
  pose proof (wrap64_bound (dg_stake (delegation stake) + reward)) as Hw.
  unfold u64 in Hw. split_and!; [done|lia..|]. intros Hep. specialize (Hlive Hep).
  rewrite wrap64_small by (u_unfold; lia). lia.
Qed.

Lemma redeem_rewards_spec vs d :
  u8 (commission vs) -> delegation_points vs history d <= P -> delegation_loaded d ->
  exists a r, redeem_rewards rewarded d.2.1 d.2.2 vs point_value (Some history) = Returns (a, r)
  /\ match r with
     | Ok (staker_reward, voter_reward) =>
         payable P R (delegation_points vs history d) staker_reward voter_reward /\ account_backed epoch a
     | Err _ => True
     end.
Proof.
  intros Hc Hp (Hv & Hb & _). unfold redeem_rewards, delegation_points in *.
  destruct d as [k [st a]]; cbn [fst snd] in *. destruct st as [|m|meta stake|]; [by eexists _, _; split..| |by eexists _, _; split].
  cbn [calculate_points result_ok default] in *. unfold redeem_stake_rewards.
  destruct (calculate_stake_rewards_spec rewarded stake P R vs (Some history)) as (r & Er & Hr);
    [unfold u64, I64_MAX in *; u_unfold; lia|done..|].
  unfold point_value. rewrite Er. cbn [mbind outcome_bind option_bind].
  destruct r as [[[staker_reward voter_reward] c]|]; cbn [mbind option_bind]; [|by eexists _, _; split]. destruct Hr as [Hpay _].
  destruct (checked_add_lamports a staker_reward) as [a1|] eqn:Ea; [|by eexists _, _; split].
  destruct (set_state a1 _) as [a2|] eqn:Es; [|by eexists _, _; split].
  eexists _, _. split; [done|]. split; [done|]. destruct Hpay as (? & _). by eapply redeemed_backed.
Qed.

(** What has been paid for [points] points. *)
Definition payout_ok (points : Z) (p : Payout) : Prop :=
  0 <= po_vote_rewards_sum p /\ Forall (fun e => 0 <= ri_lamports e.2) (po_rewards p)
  /\ (po_vote_rewards_sum p + zsum (fun e => ri_lamports e.2) (po_rewards p)) * P <= points * R
  /\ Forall store_ok (po_stores p).

Lemma delegation_points_nonneg vs d : 0 <= delegation_points vs history d.
Proof.
  unfold delegation_points, calculate_points, calculate_stake_points. destruct d as [k [[] a]]; cbn; try lia.
  by destruct (points_and_credits_spec stake vs (Some history)) as ([? ?] & _).
Qed.

Lemma pay_delegation_ok vs p d points :
  u8 (commission vs) -> delegation_points vs history d <= P -> delegation_loaded d -> payout_ok points p ->
  exists p', pay_delegation rewarded point_value history vs p d = Returns p'
  /\ payout_ok (points + delegation_points vs history d) p'.
Proof.
  intros Hc Hp Hd (Hsum & Hrw & Hle & Hst). pose proof (delegation_points_nonneg vs d) as H0p.
  destruct (redeem_rewards_spec vs d Hc Hp Hd) as (a & r & Er & Hr).
  destruct d as [k [st a0]]. unfold pay_delegation. cbn [fst snd] in *. rewrite Er. cbn [mbind outcome_bind].
  destruct r as [[staker voter]|e].
  - destruct Hr as [Hpay Hb]. pose proof (payable_bound _ _ _ _ _ Hpay HP ltac:(lia) ltac:(lia)) as HleR.
    destruct Hpay as (Hs0 & Hv0 & Hpay).
    assert (u64_as_i64 staker = staker) as Hi by (unfold u64_as_i64; rewrite (proj2 (Z.leb_le _ _)) by lia; done).
    eexists. split; [done|]. unfold payout_ok. cbn [po_vote_rewards_sum po_rewards po_stores].
    assert (0 <= sat_add64 (po_vote_rewards_sum p) voter <= po_vote_rewards_sum p + voter) as Hsat
      by (unfold sat_add64; u_unfold; lia).
    rewrite zsum_app, !Forall_app, Forall_singleton.
    destruct (Z.ltb_spec 0 staker); cbn; rewrite ?Hi; split_and!; try done; try lia.
    + apply Forall_singleton. cbn. lia.
    + nia.
    + assert (staker = 0) by lia. subst. nia.
  - exists p. split; [done|]. split_and!; try done. nia.
Qed.

Lemma pay_delegations_ok vs ds p points :
  u8 (commission vs) -> Forall delegation_loaded ds ->
  (forall d, d ∈ ds -> delegation_points vs history d <= P) -> payout_ok points p ->
  exists p', pay_delegations rewarded point_value history vs p ds = Returns p'
  /\ payout_ok (points + zsum (delegation_points vs history) ds) p'.
Proof.
  intros Hc. revert p points. induction ds as [|d ds IH]; intros p points Hd Hp Hok.
  { exists p. rewrite Z.add_0_r. done. }
  apply Forall_cons in Hd as [Hd1 Hd2].
  destruct (pay_delegation_ok vs p d points Hc) as (p1 & E1 & Hok1); [apply Hp; by left|done|done|].
  destruct (IH p1 _ Hd2 ltac:(intros d' Hin; apply Hp; by right) Hok1) as (p' & E2 & Hok2).
  exists p'. cbn [pay_delegations zsum]. rewrite E1. cbn [mbind outcome_bind]. split; [done|].
  by rewrite Z.add_assoc.
Qed.

(** A vote account and its delegations as they were loaded. *)
Definition group_loaded (g : Pubkey * VoteWithStakeDelegations) : Prop :=
  u8 (commission (vw_vote_state g.2)) /\ acc_owner (vw_vote_account g.2) = vote_program_id
  /\ Forall delegation_loaded (vw_delegations g.2).

Lemma group_points_nonneg g : 0 <= group_points history g.
Proof. apply zsum_nonneg. intros d _. apply delegation_points_nonneg. Qed.

Lemma delegation_in_group_points g d :
  d ∈ vw_delegations g.2 -> delegation_points (vw_vote_state g.2) history d <= group_points history g.
Proof.
  unfold group_points. induction (vw_delegations g.2) as [|x l IH]; [by intros ?%not_elem_of_nil|].
  cbn. pose proof (delegation_points_nonneg (vw_vote_state g.2) x).
  assert (0 <= zsum (delegation_points (vw_vote_state g.2) history) l)
    by (apply zsum_nonneg; intros; apply delegation_points_nonneg).
  intros [->|Hin]%elem_of_cons; [lia|]. specialize (IH Hin). lia.
Qed.

Lemma vote_store_ok k a n a' :
  acc_owner a = vote_program_id -> checked_add_lamports a n = Ok a' -> store_ok (k, a').
Proof.
  intros Ho [-> _]%checked_add_lamports_Ok Hown. cbn in Hown. rewrite Ho in Hown. by vm_compute in Hown.
Qed.

Lemma pay_vote_account_ok k a c points p stores infos :
  acc_owner a = vote_program_id -> payout_ok points p -> points <= P ->
  pay_vote_account k a c p = (stores, infos) ->
  Forall store_ok stores /\ Forall (fun e => 0 <= ri_lamports e.2) infos
  /\ zsum (fun e => ri_lamports e.2) infos <= po_vote_rewards_sum p.
Proof.
  intros Ho (Hsum & Hrw & Hle & _) Hp. unfold pay_vote_account.
  assert (0 <= zsum (fun e => ri_lamports e.2) (po_rewards p)) as Hz
    by (apply zsum_nonneg; by apply Forall_forall).
  assert (po_vote_rewards_sum p <= R) as HleR by nia.
  assert (u64_as_i64 (po_vote_rewards_sum p) = po_vote_rewards_sum p) as Hi
    by (unfold u64_as_i64; rewrite (proj2 (Z.leb_le _ _)) by lia; done).
  destruct (checked_add_lamports a _) as [a'|] eqn:Ea; intros [= <- <-]; [|by split_and!].
  rewrite Hi. split_and!; [|by apply Forall_singleton|cbn; lia].
  destruct (po_vote_needs_store p); [|done]. apply Forall_singleton. by eapply vote_store_ok.
Qed.

Lemma pay_groups_ok groups :
  Forall group_loaded groups -> zsum (group_points history) groups <= P ->
  exists stores vote_rewards stake_rewards,
    pay_groups rewarded point_value history groups = Returns (stores, vote_rewards, stake_rewards)
    /\ Forall store_ok stores /\ Forall (fun e => 0 <= ri_lamports e.2) (vote_rewards ++ stake_rewards)
    /\ zsum (fun e => ri_lamports e.2) (vote_rewards ++ stake_rewards) * P
       <= zsum (group_points history) groups * R.
Proof.
  induction groups as [|[k g] groups IH]; intros Hg Hp; [by exists [], [], []|].
  apply Forall_cons in Hg as [(Hc & Ho & Hd) Hg]. cbn [zsum] in Hp.
  pose proof (group_points_nonneg (k, g)) as Hg0. cbn [snd] in *.
  assert (0 <= zsum (group_points history) groups) as Hz by (apply zsum_nonneg; intros; apply group_points_nonneg).
  destruct (pay_delegations_ok (vw_vote_state g) (vw_delegations g) payout_empty 0) as (p & Ep & Hok); try done.
  { intros d Hin. pose proof (delegation_in_group_points (k, g) d Hin). cbn in *. lia. }
  destruct (IH Hg ltac:(lia)) as (stores & vr & sr & Eg & Hst & Hrw & Hle).
  cbn [pay_groups zsum]. rewrite Ep. cbn [mbind outcome_bind]. rewrite Eg. cbn [mbind outcome_bind].
  destruct (pay_vote_account k (vw_vote_account g) _ p) as [vs vi] eqn:Ev.
  assert (zsum (delegation_points (vw_vote_state g) history) (vw_delegations g) <= P) as HgP
    by (change (group_points history (k, g) <= P); lia).
  destruct (pay_vote_account_ok _ _ _ _ _ _ _ Ho Hok HgP Ev) as (Hvs & Hvi & Hvle).
  destruct Hok as (_ & Hpr & Hple & Hps). eexists _, _, _. split; [done|].
  rewrite !Forall_app, !zsum_app in *. destruct Hrw as [Hrw1 Hrw2]. split_and!; try done.
  change (group_points history (k, g)) with (zsum (delegation_points (vw_vote_state g) history) (vw_delegations g)) in *.
  nia.
Qed.
End PaymentLemmas.

(** ** Properties *)

(** C12: Inflation stays within its budget, where the points fit in 128 bits.  Let the
    delegations and the vote accounts be as they are loaded, with backed stake accounts, let
    the lamports to pay fit in an [i64], and let the points of all delegations, and these points
    times the lamports to pay, fit in a [u128] (the code unwraps the checked product and panics
    where it does not fit).  Then paying all delegations does not panic, the rewards reported
    for voters and stakers are not negative and sum to at most the lamports to pay, and every
    stake account that is stored is still backed by its lamports. *)
Theorem rewards_within_budget `{BincodeLaws StakeState} epoch rewarded_epoch rewards history groups :
  0 <= rewards <= I64_MAX -> Forall (group_loaded epoch) groups ->
  zsum (group_points history) groups <= U128_MAX ->
  zsum (group_points history) groups * rewards <= U128_MAX ->
  exists stores infos value,
    pay_validator_rewards rewarded_epoch rewards history groups = Returns (stores, infos, value)
    /\ Forall (fun e => 0 <= ri_lamports e.2) infos
    /\ zsum (fun e => ri_lamports e.2) infos <= rewards
    /\ Forall (fun e => account_backed epoch e.2) stores.
Proof.
  intros HR Hg Hp Hmax. unfold pay_validator_rewards.
  assert (0 <= zsum (group_points history) groups) as Hz by (apply zsum_nonneg; intros; apply group_points_nonneg).
  replace (wrap128 (zsum (group_points history) groups)) with (zsum (group_points history) groups)
    by (symmetry; apply Z.mod_small; unfold U128_MAX in Hp; lia).
  set (P := zsum (group_points history) groups) in *.
  destruct (Z.eqb_spec P 0) as [|HP];
    [eexists [], [], _; split_and!; [done|done|cbn; lia|done]|].
  destruct (pay_groups_ok epoch rewarded_epoch rewards P history HR ltac:(lia) Hmax groups Hg ltac:(done))
    as (stores & vr & sr & -> & Hst & Hrw & Hle).
  cbn [mbind outcome_bind]. eexists _, _, _. split_and!; [done|done| |done]. fold P in Hle. nia.
Qed.

(** A stake that has observed the credits of the voter earns nothing. *)
Lemma observed_earns_nothing rewarded stake pv vs history :
  credits vs <= credits_observed stake ->
  calculate_stake_rewards rewarded stake pv vs history = Returns None
  \/ calculate_stake_rewards rewarded stake pv vs history = Returns (Some (0, 0, credits_observed stake)).
Proof.
  intros Hle. unfold calculate_stake_rewards, calculate_stake_points_and_credits.
  rewrite (proj2 (Z.leb_le _ _)) by done. destruct (_ || _); auto.
Qed.

Lemma rewarded_credits rewarded stake pv vs history a b c :
  calculate_stake_rewards rewarded stake pv vs history = Returns (Some (a, b, c)) ->
  c = (calculate_stake_points_and_credits stake vs history).2.
Proof.
  unfold calculate_stake_rewards. destruct (calculate_stake_points_and_credits stake vs history) as [p c0].
  destruct (_ || _); [by intros [= _ _ ->]|]. destruct (_ =? 0); [done|]. destruct (_ =? 0); [done|].
  destruct (checked_mul128 _ _); [|done]. cbn. destruct (checked_div128 _ _); [|done]. cbn.
  destruct (u64_try_from _) as [n|]; [|done]. cbn. destruct (n =? 0); [done|].
  destruct (commission_split vs n) as [[v st] b0]. destruct (_ && _); [done|]. by intros [= _ _ ->].
Qed.

(** C21: credits are paid once.  A redemption adds the staker's reward to the account's lamports and to its
    delegation alike; redeeming the account again with the same vote state, for any
    epoch, point value and history, returns and pays nothing. *)
Theorem rewards_redeemed_once `{BincodeLaws StakeState} rewarded_epoch meta stake account vote_state point_value
    history account' staker_reward voter_reward :
  0 <= credits_observed stake ->
  redeem_rewards rewarded_epoch (SS_Stake meta stake) account vote_state point_value history
    = Returns (account', Ok (staker_reward, voter_reward)) ->
  acc_lamports account' = acc_lamports account + staker_reward
  /\ exists stake', stake_view account' = Some (SS_Stake meta stake')
     /\ dg_stake (delegation stake') = wrap64 (dg_stake (delegation stake) + staker_reward)
     /\ forall rewarded_epoch' point_value' history', exists account'' r,
          redeem_rewards rewarded_epoch' (SS_Stake meta stake') account' vote_state point_value' history'
            = Returns (account'', r)
          /\ acc_lamports account'' = acc_lamports account'
          /\ forall rewards, r = Ok rewards -> rewards = (0, 0).
Proof.
  intros Hc0 Hr. unfold redeem_rewards, redeem_stake_rewards in Hr.
  destruct (calculate_stake_rewards _ _ _ _ _) as [[[[s1 v1] c1]|]|] eqn:Er; try done.
  cbn [mbind outcome_bind option_bind] in Hr.
  destruct (checked_add_lamports account s1) as [a1|] eqn:Ea; [|done].
  set (stake' := with_stake _ _) in Hr.
  destruct (set_state a1 _) as [a2|] eqn:Es; [|done]. injection Hr as -> -> ->.
  apply checked_add_lamports_Ok in Ea as [-> _]. apply set_state_Ok in Es as (Hd & Hl & _ & _).
  split; [by rewrite Hl|]. exists stake'. split; [done|]. split; [done|]. intros ep pv h.
  assert (credits vote_state <= credits_observed stake') as Hobs.
  { apply rewarded_credits in Er as ->. cbn. destruct (points_and_credits_spec stake vote_state history). lia. }
  unfold redeem_rewards, redeem_stake_rewards.
  destruct (observed_earns_nothing ep stake' pv vote_state h Hobs) as [-> | ->]; cbn [mbind outcome_bind option_bind].
  - eexists _, _. by split_and!.
  - destruct (checked_add_lamports account' 0) as [a3|] eqn:Ea; [|eexists _, _; by split_and!].
    apply checked_add_lamports_Ok in Ea as [-> _].
    destruct (set_state _ _) as [a4|] eqn:Es; eexists _, _; (split; [done|]); [|split; [cbn; lia|done]].
    apply set_state_Ok in Es as (_ & -> & _). split; [cbn; lia|]. by intros r [= <-].
Qed.
