(* ===== verification/StakeSample.v ===== *)
(** * Stake accounts by example

    A concrete format of stake accounts and a cluster, on which the theorems of the stake
    program are applied, and the sequence of instructions that leaves a delegation
    without its lamports. *)

From S2P Require Import Prelude Keys Errors Float64 StakeHistory Account Invocation VoteState VoteProgram VoteSafety StakeState StakeActivation StakeProgram StakeProcessor StakeEffects StakeSafety StakeGuarantees StakeRewards.
From Stdlib Require Import SpecFloat.

Module StakeSample.

(** ** A format *)

Definition put_f64 (x : f64) : list Z :=
  match x with
  | S754_zero s => [0; Z.b2z s; 0]
  | S754_infinity s => [1; Z.b2z s; 0]
  | S754_nan => [2; 0; 0]
  | S754_finite s m e => [if s then 4 else 3; Z.pos m; e]
  end.

Definition get_f64 (tag m e : Z) : f64 :=
  match tag with
  | 0 => S754_zero (m =? 1)
  | 1 => S754_infinity (m =? 1)
  | 3 => S754_finite false (Z.to_pos m) e
  | 4 => S754_finite true (Z.to_pos m) e
  | _ => S754_nan
  end.

Definition put_meta (m : Meta) : list Z :=
  [rent_exempt_reserve m; Z.of_N (staker (meta_authorized m)); Z.of_N (withdrawer (meta_authorized m));
   lk_unix_timestamp (meta_lockup m); lk_epoch (meta_lockup m); Z.of_N (lk_custodian (meta_lockup m))].

Definition get_meta (r s w t e c : Z) : Meta :=
  {| rent_exempt_reserve := r; meta_authorized := {| staker := Z.to_N s; withdrawer := Z.to_N w |};
     meta_lockup := {| lk_unix_timestamp := t; lk_epoch := e; lk_custodian := Z.to_N c |} |}.

Definition put_stake (x : Stake) : list Z :=
  let d := delegation x in
  [Z.of_N (voter_pubkey d); dg_stake d; activation_epoch d; deactivation_epoch d]
  ++ put_f64 (dg_warmup_cooldown_rate d) ++ [credits_observed x].

Definition put_state (st : StakeState) : list Z :=
  match st with
  | SS_Uninitialized => [0]
  | SS_Initialized m => 1 :: put_meta m
  | SS_Stake m x => 2 :: put_meta m ++ put_stake x
  | SS_RewardsPool => [3]
  end.

Definition get_state (bytes : list Z) : option StakeState :=
  match bytes with
  | 0 :: _ => Some SS_Uninitialized
  | 1 :: r :: s :: w :: t :: e :: c :: _ => Some (SS_Initialized (get_meta r s w t e c))
  | 2 :: r :: s :: w :: t :: e :: c :: v :: n :: a :: d :: f1 :: f2 :: f3 :: o :: _ =>
      Some (SS_Stake (get_meta r s w t e c)
              {| delegation := {| voter_pubkey := Z.to_N v; dg_stake := n; activation_epoch := a;
                                  deactivation_epoch := d; dg_warmup_cooldown_rate := get_f64 f1 f2 f3 |};
                 credits_observed := o |})
  | 3 :: _ => Some SS_RewardsPool
  | _ => None
  end.

#[global] Instance stake_bincode : Bincode StakeState := { serialize := put_state; deserialize := get_state }.

#[global] Instance config_keys_bincode : Bincode ConfigKeys :=
  { serialize := fun _ => []; deserialize := fun _ => Some {| config_keys := [] |} }.

#[global] Instance config_bincode : Bincode StakeConfig :=
  { serialize := fun _ => []; deserialize := fun _ => Some stake_config_default }.

#[global] Instance seed_hash : SeedHash := { hashv := fun base _ _ => (base + 1000)%N }.

Definition seed_args : AuthorizeWithSeedArgs :=
  {| aws_new_authorized_pubkey := 77%N; aws_stake_authorize := SA_Withdrawer; aws_authority_seed := [1];
     aws_authority_owner := 5%N |}.

#[global] Instance stake_codec : StakeInstructionCodec := {
  decode_stake_instruction := fun data =>
    match data with
    | [0] => Some SI_Deactivate
    | [1] => Some SI_DelegateStake
    | [2; l] => if (0 <=? l) && (l <=? U64_MAX) then Some (SI_Withdraw l) else None
    | [3; l] => if (0 <=? l) && (l <=? U64_MAX) then Some (SI_Split l) else None
    | [4] => Some (SI_AuthorizeWithSeed seed_args)
    | _ => None
    end;
}.

(** ** A cluster *)

Definition clock : Clock :=
  {| clk_slot := 100; clk_epoch_start_timestamp := 0; clk_epoch := 11; clk_leader_schedule_epoch := 12;
     clk_unix_timestamp := 50 |}.

(** The rent-exempt reserve of 200 bytes with the default rent. *)
Definition reserve : Z := 2282880.

Definition meta : Meta :=
  {| rent_exempt_reserve := reserve; meta_authorized := {| staker := 7%N; withdrawer := 8%N |};
     meta_lockup := lockup_default |}.

Definition stake : Stake :=
  {| delegation := delegation_new 1%N 10000000 10 DEFAULT_WARMUP_COOLDOWN_RATE; credits_observed := 2 |}.

(** The stake was delegated in epoch 10, beside 2,000,000 lamports that are effective from
    the start; a quarter of what is effective in the cluster may become effective in an
    epoch. *)
Definition bootstrap : Delegation := delegation_new 1%N 2000000 U64_MAX DEFAULT_WARMUP_COOLDOWN_RATE.

(** At the end of an epoch the history gets the entry of the cluster's delegations. *)
Definition close_epoch (d : Delegation) (h : StakeHistory) (epoch : Epoch) : StakeHistory :=
  stake_history_add h epoch (new_stake_history_entry epoch [bootstrap; d] (Some h)).

Definition history : StakeHistory := close_epoch (delegation stake) [] 10.

(** The history after [n] more epochs, if the stake is delegated as in [d] from epoch 11 on. *)
Definition later_history (d : Delegation) (n : nat) : StakeHistory :=
  fold_left (close_epoch d) (seqZ 11 (Z.of_nat n)) history.

Definition stake_account (lamports : Z) (st : StakeState) : AccountSharedData :=
  let bytes := put_state st in
  {| acc_lamports := lamports; acc_data := bytes ++ replicate (200 - length bytes) 0;
     acc_owner := stake_program_id; acc_executable := false; acc_rent_epoch := 0 |}.

(** Account 2 is delegated to the vote account 1, account 3 is an empty stake account,
    account 4 is locked up until epoch 20 with custodian 9. *)
Definition locked_meta : Meta :=
  {| rent_exempt_reserve := reserve; meta_authorized := {| staker := 7%N; withdrawer := 1006%N |};
     meta_lockup := {| lk_unix_timestamp := 0; lk_epoch := 20; lk_custodian := 9%N |} |}.

Definition others : accounts_store := fun _ => account_new 5 0 system_program_id.

Definition accounts : accounts_store :=
  store_set (store_set (store_set (store_set others
    1%N Sample.vote_account)
    2%N (stake_account 12282880 (SS_Stake meta stake)))
    3%N (stake_account 0 SS_Uninitialized))
    4%N (stake_account 12282880 (SS_Initialized locked_meta)).

Definition account (key : Pubkey) (signer : bool) : KeyedAccount :=
  {| ka_is_signer := signer; ka_is_writable := true; ka_key := key |}.

Definition context (s : accounts_store) (keyed : list KeyedAccount) : InvokeContext :=
  {| ic_keyed_accounts := keyed; ic_accounts := s;
     ic_sysvar_cache := {| sv_clock := Some clock; sv_rent := Some rent_default; sv_slot_hashes := None;
                           sv_recent_blockhashes := None; sv_stake_history := Some history |};
     ic_feature_set := fun _ => true; ic_blockhash := 0%N; ic_lamports_per_signature := 0 |}.

Definition split_context : InvokeContext := context accounts [account 2 false; account 3 false; account 7 true].

(** One instruction after another. *)
Definition run (s : accounts_store) (i : list Z * list KeyedAccount) : option accounts_store :=
  match stake_process_instruction 0 i.1 (context s i.2) with
  | Returns (s', Ok _) => Some s'
  | _ => None
  end.

(** In epoch 11: deactivate, withdraw what is not effective, delegate again. *)
Definition rescind_instructions : list (list Z * list KeyedAccount) :=
  [([0], [account 2 false; account sysvar_clock_id false; account 7 true]);
   ([2; 9500000], [account 2 false; account 6 false; account sysvar_clock_id false;
                   account sysvar_stake_history_id false; account 8 true]);
   ([1], [account 2 false; account 1 false; account sysvar_clock_id false; account sysvar_stake_history_id false;
          account stake_config_id false; account 7 true])].

Definition after_rescind : option accounts_store :=
  fold_left (fun s i => s ≫= fun s => run s i) rescind_instructions (Some accounts).

(** A delegation in cooldown that holds its effective part only, and an empty account
    with its reserve: the delegation is split, and the destination withdrawn from. *)
Definition cooldown_accounts : accounts_store :=
  store_set (store_set accounts
    2%N (stake_account (reserve + 500000) (SS_Stake meta (with_deactivation stake 11))))
    3%N (stake_account reserve SS_Uninitialized).

Definition cooldown_instructions : list (list Z * list KeyedAccount) :=
  [([3; 499999], [account 2 false; account 3 false; account 7 true]);
   ([2; 474999], [account 3 false; account 6 false; account sysvar_clock_id false;
                  account sysvar_stake_history_id false; account 8 true])].

Definition after_cooldown : option accounts_store :=
  fold_left (fun s i => s ≫= fun s => run s i) cooldown_instructions (Some cooldown_accounts).

(** The effective stake and the lamports above the reserve of an account. *)
Definition exposure (a : AccountSharedData) : option (Z * Z) :=
  match stake_view a with
  | Some (SS_Stake m x) =>
      Some (delegation_stake (delegation x) 11 (Some history), acc_lamports a - rent_exempt_reserve m)
  | _ => None
  end.

(** ** Rewards *)

(** The voter earned 30 credits in epoch 11 and takes a commission of a tenth. *)
Definition vote_state : VoteState := VoteState.with_credits Sample.st [(11, 40, 10)].

Definition group : Pubkey * VoteWithStakeDelegations :=
  (1%N, {| vw_vote_state := vote_state; vw_vote_account := Sample.vote_account;
           vw_delegations := [(2%N, (SS_Stake meta stake, stake_account 12282880 (SS_Stake meta stake)))] |}).

Definition point_value : PointValue := {| pv_rewards := 1000; pv_points := 15000000 |}.

End StakeSample.

(** ** Lemmas *)

Import StakeSample.

#[global] Instance stake_bincode_laws : BincodeLaws StakeState.
Proof.
  constructor. intros st rest. destruct st as [|[r [s w] [t e c]]|[r [s w] [t e c]] [[v n a d f] o]|]; try done; cbn.
  - unfold get_meta. by rewrite !N2Z.id.
  - unfold get_meta. destruct f as [[]|[]| |[] m x]; cbn; by rewrite !N2Z.id.
Qed.

#[global] Instance config_keys_fit : ConfigKeysFit.
Proof. constructor. intros bytes keys _. cbn. lia. Qed.

Lemma codec_typed data i : decode_stake_instruction data = Some i -> stake_instruction_typed i.
Proof.
  cbn. intros Hd. repeat (case_match; try done); simplify_eq; cbn; unfold u64; lia.
Qed.

Lemma store_set_cases (P : AccountSharedData -> Prop) s key a :
  P a -> (forall k, P (s k)) -> forall k, P (store_set s key a k).
Proof. intros Ha Hs k. unfold store_set. by destruct (N.eqb k key). Qed.

Lemma accounts_backed : store_backed 11 accounts.
Proof.
  assert (forall k, u64 (acc_lamports (accounts k)) /\ account_backed 11 (accounts k)) as Hb.
  { unfold accounts.
    repeat (apply (store_set_cases (fun a => u64 (acc_lamports a) /\ account_backed 11 a)); [|]); try intros k.
    - split; [by vm_compute|]. intros _ st Hst. vm_compute in Hst. injection Hst as <-.
      split_and!; by vm_compute.
    - split; [by vm_compute|]. intros _ st Hst. vm_compute in Hst. by injection Hst as <-.
    - split; [by vm_compute|]. intros _ st Hst. vm_compute in Hst. injection Hst as <-.
      split_and!; try by vm_compute.
    - split; [by vm_compute|]. intros Ho. by vm_compute in Ho.
    - split; [by vm_compute|]. intros Ho. by vm_compute in Ho. }
  intros k. destruct (Hb k). auto.
Qed.

Lemma clock_epoch c : sv_clock (ic_sysvar_cache split_context) = Some c -> clk_epoch c = 11.
Proof. by intros [= <-]. Qed.

Lemma split_invocation data : stake_invocation 11 data split_context.
Proof. split; [apply clock_epoch|intros r [= <-]; by vm_compute|apply codec_typed]. Qed.

(** The accounts of an instruction, as a list of keys. *)
Lemma named_keys s keyed k : named_account (context s keyed) k -> k ∈ ka_key <$> keyed.
Proof. intros (ka & Hin & <-). by apply list_elem_of_fmap_2. Qed.

Lemma balances_nonneg k : 0 <= acc_lamports (accounts k).
Proof. destruct (accounts_backed k) as [[? _] _]. done. Qed.

Lemma history_eq : history = [(10, {| effective := 2000000; activating := 10000000; deactivating := 0 |})].
Proof. by vm_compute. Qed.

(** The history an epoch later, if the stake is deactivated in epoch 11. *)
Definition cooldown_history : StakeHistory := later_history (delegation (with_deactivation stake 11)) 1.

Lemma cooldown_history_eq :
  cooldown_history = (11, {| effective := 2500000; activating := 0; deactivating := 500000 |}) :: history.
Proof. by vm_compute. Qed.

Lemma history_is_sorted : history_sorted history.
Proof. rewrite history_eq. repeat constructor. Qed.

Lemma cooldown_history_is_sorted : history_sorted cooldown_history.
Proof. rewrite cooldown_history_eq, history_eq. repeat constructor. Qed.

Lemma cooldown_history_extends : history_extends 11 history cooldown_history.
Proof.
  intros x Hx. apply option_eq. intros c.
  rewrite !stake_history_get_spec by (apply history_is_sorted || apply cooldown_history_is_sorted).
  rewrite cooldown_history_eq, elem_of_cons. split; [|by right]. intros [[= -> _]|]; [lia|done].
Qed.

(** ** Properties *)

(** The program keeps the backing of a split of a delegated account. *)
Lemma stake_program_keeps_backing_witness :
  exists s' r, stake_process_instruction 0 [3; 3000000] split_context = Returns (s', r) /\ is_ok r = true
    /\ account_backed 11 (s' 2%N) /\ account_backed 11 (s' 3%N)
    /\ total_lamports s' [2%N; 3%N; 7%N] = 12282885.
Proof.
  destruct (stake_program_keeps_backing 11 0 [3; 3000000] split_context [2%N; 3%N; 7%N])
    as (s' & r & E & Hr).
  - apply split_invocation.
  - apply accounts_backed.
  - apply (bool_decide_unpack _). by vm_compute.
  - apply named_keys.
  - exists s', r. assert (is_ok r = true) as Hok.
    { assert (match stake_process_instruction 0 [3; 3000000] split_context with
              | Returns (_, r) => is_ok r | Panics => false end = true) as Hc by (by vm_compute).
      rewrite E in Hc. exact Hc. }
    destruct r as [[]|]; [|discriminate]. destruct (Hr eq_refl) as (Hb & Ht & _).
    assert (forall k, ~ rescinded 0 [3; 3000000] split_context 11 k) as Hno by (by intros k [? _]).
    split; [exact E|]. split; [reflexivity|]. split_and!.
    + destruct (Hb 2%N) as [_ [Hx|Hx]]; [destruct (Hno _ Hx)|exact Hx].
    + destruct (Hb 3%N) as [_ [Hx|Hx]]; [destruct (Hno _ Hx)|exact Hx].
    + rewrite Ht. by vm_compute.
Defined.

(** The withdrawer of account 2 signs for what leaves it. *)
Definition withdraw_context : InvokeContext :=
  context (store_set accounts 2%N (stake_account 12282980 (SS_Stake meta stake)))
    [account 2 false; account 6 false; account sysvar_clock_id false; account sysvar_stake_history_id false;
     account 8 true].

Lemma stake_control_guarded_witness :
  exists s', stake_process_instruction 0 [2; 100] withdraw_context = Returns (s', Ok tt)
    /\ acc_lamports (s' 2%N) = 12282880
    /\ outflow_allowed clock {[ 8%N ]} (ic_accounts withdraw_context) s' 2%N.
Proof.
  destruct (stake_process_instruction 0 [2; 100] withdraw_context) as [[s' r]|] eqn:E;
    [|vm_compute in E; discriminate].
  assert (acc_lamports (s' 2%N) = 12282880 /\ r = Ok tt) as [Hl ->].
  { assert (match stake_process_instruction 0 [2; 100] withdraw_context with
            | Returns (s', r) => (acc_lamports (s' 2%N), is_ok r) | Panics => (0, false) end = (12282880, true)) as Hc
      by (by vm_compute).
    rewrite E in Hc. destruct r as [[]|]; [|discriminate]. by injection Hc as ->. }
  exists s'. split; [reflexivity|]. split; [exact Hl|].
  destruct (stake_control_guarded 0 [2; 100] withdraw_context clock s' eq_refl) as [Ho _].
  - apply (store_set_cases (fun a => 0 <= acc_lamports a)); [by vm_compute|apply balances_nonneg].
  - apply codec_typed.
  - exact E.
  - replace ({[ 8%N ]} : gset N) with (get_signers (drop 0 (ic_keyed_accounts withdraw_context)))
      by (by vm_compute). apply Ho. rewrite Hl. by vm_compute.
Defined.

(** Account 4 is locked up; its withdrawer 1006 is derived from 6, and the custodian 9
    signs as well. *)
Definition locked_context : InvokeContext :=
  context accounts [account 4 false; account 6 true; account sysvar_clock_id false; account 9 true].

Lemma seed_authorize_ignores_custodian_witness :
  exists s' e, stake_process_instruction 0 [4] locked_context = Returns (s', Err e).
Proof.
  apply (seed_authorize_ignores_custodian 0 [4] locked_context (SI_AuthorizeWithSeed seed_args) [1] 5%N (account 4 false)
    (SS_Initialized locked_meta) locked_meta clock); try (by vm_compute).
  intros base Hb. change (create_with_seed base [1] 5%N = Ok 9%N) in Hb.
  assert (create_with_seed base [1] 5%N = Ok (base + 1000)%N) as Hk by reflexivity.
  rewrite Hk in Hb. injection Hb as Hb. lia.
Defined.

(** Account 2 is delegated with ten million lamports, of which half a million are effective
    in epoch 11. *)
Lemma rescinded_deactivation_unbacked_witness :
  account_backed 11 (accounts 2%N)
  /\ exists s', rescind 2%N 6%N 1%N 9500000 clock history stake_config_default {[ 7%N ]} (account 8 true) accounts
       = Returns (s', Ok tt)
     /\ stake_view (s' 2%N) = Some (SS_Stake meta stake) /\ acc_lamports (s' 2%N) = reserve + 500000
     /\ ~ account_backed 11 (s' 2%N).
Proof.
  assert (account_backed 11 (accounts 2%N)) as Hb by (destruct (accounts_backed 2%N) as [_ [[]|Hacc]]; exact Hacc).
  split; [exact Hb|].
  assert (delegation_stake (delegation stake) (clk_epoch clock) (Some history) = 500000) as Heff
    by (vm_compute; reflexivity).
  destruct (rescinded_deactivation_unbacked 2%N 6%N 1%N clock history stake_config_default {[ 7%N ]} (account 8 true)
    meta stake (Current Sample.st) accounts)
    as (s' & E & Hv & Hl & _ & Hno).
  - vm_compute. reflexivity.
  - reflexivity.
  - exact Hb.
  - vm_compute. discriminate.
  - reflexivity.
  - reflexivity.
  - rewrite Heff. split; reflexivity.
  - apply elem_of_singleton. reflexivity.
  - reflexivity.
  - reflexivity.
  - reflexivity.
  - reflexivity.
  - apply (bool_decide_unpack _). vm_compute. exact I.
  - discriminate.
  - rewrite Heff. vm_compute. discriminate.
  - intros e. vm_compute. lia.
  - exists s'. rewrite Heff in E, Hl. split; [exact E|]. split; [exact Hv|]. split; [exact Hl|exact Hno].
Defined.

(** The same by instructions, and what becomes of it.  The three instructions of epoch 11
    succeed; with the history that the cluster's delegations give from there on, 1,125,000
    lamports of the account are effective in epoch 12, when it holds 500,000 above its
    reserve, and all ten million in epoch 19, which is more than its whole balance. *)
Theorem rescinded_stake_takes_effect :
  store_backed 11 accounts
  /\ exists s', after_rescind = Some s'
     /\ stake_view (s' 2%N) = Some (SS_Stake meta stake)
     /\ acc_lamports (s' 2%N) = reserve + 500000
     /\ delegation_stake (delegation stake) 12 (Some (later_history (delegation stake) 1)) = 1125000
     /\ delegation_stake (delegation stake) 19 (Some (later_history (delegation stake) 8)) = 10000000.
Proof.
  split; [apply accounts_backed|].
  assert (match after_rescind with
          | Some s' => stake_view (s' 2%N) = Some (SS_Stake meta stake) /\ acc_lamports (s' 2%N) = reserve + 500000
          | None => False
          end) as Hr by (vm_compute; done).
  destruct after_rescind as [s'|]; [|done]. destruct Hr as (Hv & Hl). exists s'.
  split; [done|]. split; [exact Hv|]. split; [exact Hl|]. split; by vm_compute.
Qed.

(** The reward of account 2 and the commission of its voter are all of the budget. *)
Lemma rewards_within_budget_witness :
  exists stores infos value, pay_validator_rewards 11 1000 history [group] = Returns (stores, infos, value)
    /\ ri_lamports <$> infos.*2 = [100; 900]
    /\ zsum (fun e => ri_lamports e.2) infos <= 1000
    /\ Forall (fun e => account_backed 11 e.2) stores.
Proof.
  destruct (rewards_within_budget 11 11 1000 history [group]) as (stores & infos & value & E & _ & Hz & Hb).
  - by vm_compute.
  - apply Forall_singleton. split; [by vm_compute|]. split; [reflexivity|]. apply Forall_singleton.
    assert (accounts 2%N = stake_account 12282880 (SS_Stake meta stake)) as Ha by reflexivity.
    destruct (accounts_backed 2%N) as [Hu [[]|Hacc]]. rewrite Ha in Hu, Hacc. split; [reflexivity|]. by split.
  - by vm_compute.
  - by vm_compute.
  - exists stores, infos, value. split; [exact E|]. split; [|split; [exact Hz|exact Hb]].
    assert (match pay_validator_rewards 11 1000 history [group] with
            | Returns (_, infos, _) => ri_lamports <$> infos.*2 | Panics => [] end = [100; 900]) as Hc by reflexivity.
    rewrite E in Hc. exact Hc.
Defined.

Lemma rewards_redeemed_once_witness :
  exists a, redeem_rewards 11 (SS_Stake meta stake) (stake_account 12282880 (SS_Stake meta stake)) vote_state
      point_value (Some history) = Returns (a, Ok (900, 100))
    /\ acc_lamports a = 12283780
    /\ exists stake', stake_view a = Some (SS_Stake meta stake') /\ dg_stake (delegation stake') = 10000900
       /\ exists a2 r, redeem_rewards 11 (SS_Stake meta stake') a vote_state point_value (Some history)
              = Returns (a2, r) /\ acc_lamports a2 = 12283780.
Proof.
  set (x := redeem_rewards 11 (SS_Stake meta stake) _ vote_state point_value (Some history)).
  assert (match x with Returns (_, Ok r) => Some r | _ => None end = Some (900, 100)) as Hx by (by vm_compute).
  destruct x as [[a [r|]]|] eqn:E; [|discriminate..]. injection Hx as ->. exists a. split; [reflexivity|].
  destruct (rewards_redeemed_once 11 meta stake (stake_account 12282880 (SS_Stake meta stake)) vote_state
    point_value (Some history) a 900 100 ltac:(by vm_compute) E) as (Hl & stake' & Hv & Hd & Ho).
  split; [exact Hl|]. exists stake'. split; [exact Hv|]. split; [rewrite Hd; by vm_compute|].
  destruct (Ho 11 point_value (Some history)) as (a2 & r & E2 & Ha & _). exists a2, r. split; [exact E2|].
  rewrite Ha, Hl. reflexivity.
Defined.

Lemma deactivated_stake_decreases_witness :
  let d := delegation (with_deactivation stake 11) in
  0 <= delegation_stake d 12 (Some cooldown_history) <= delegation_stake d 11 (Some history)
  /\ delegation_stake d 11 (Some history) <= 10000000.
Proof.
  destruct (deactivated_stake_decreases (delegation (with_deactivation stake 11)) 11 12 history cooldown_history)
    as (Ha & Hb & _).
  - apply history_is_sorted.
  - apply cooldown_history_is_sorted.
  - by vm_compute.
  - split; [by vm_compute|]. split; [by vm_compute|]. right. by vm_compute.
  - by vm_compute.
  - by vm_compute.
  - by vm_compute.
  - apply cooldown_history_extends.
  - split; [exact Ha|exact Hb].
Defined.

(** A stake in cooldown whose effective part is covered is split, and the destination
    gives up what is not effective in it: the two accounts together have 499,999 lamports
    of effective stake and hold 25,001 lamports above their reserves. *)
Theorem cooldown_split_unbacked :
  exposure (cooldown_accounts 2%N) = Some (500000, 500000)
  /\ exists s', after_cooldown = Some s'
     /\ exposure (s' 2%N) = Some (475000, 1) /\ exposure (s' 3%N) = Some (24999, 25000).
Proof.
  split; [by vm_compute|].
  assert (match after_cooldown with
          | Some s' => exposure (s' 2%N) = Some (475000, 1) /\ exposure (s' 3%N) = Some (24999, 25000)
          | None => False
          end) as Hr by (vm_compute; done).
  destruct after_cooldown as [s'|]; [|done]. by exists s'.
Qed.
