(* ===== verification/CostModel.v ===== *)
(** * Transaction costs

    Models runtime/src/cost_model.rs, execute_cost_table.rs and
    block_cost_limits.rs: the estimate of a transaction's compute units from
    its signatures, write locks, data and programs, and the bounded table of
    observed program costs that the estimate reads. *)

From S2P Require Import Prelude Keys Message Errors Transaction Float64 ComputeBudget Account Invocation Nonce SystemProgram.
From Stdlib Require Import SpecFloat.
From Stdlib Require String.

(** ** Limits *)

Definition MAX_BLOCK_REPLAY_TIME_US : Z := 400000.
Definition MAX_CONCURRENCY : Z := 4.
Definition COMPUTE_UNIT_TO_US_RATIO : Z := 30.
Definition SIGNATURE_COST : Z := COMPUTE_UNIT_TO_US_RATIO * 24.
Definition WRITE_LOCK_UNITS : Z := COMPUTE_UNIT_TO_US_RATIO * 10.
Definition DATA_BYTES_UNITS : Z := 550 / COMPUTE_UNIT_TO_US_RATIO.

Definition BUILT_IN_INSTRUCTION_COSTS : gmap N Z :=
  list_to_map
    [(feature_id, COMPUTE_UNIT_TO_US_RATIO * 2);
     (incinerator_id, COMPUTE_UNIT_TO_US_RATIO * 2);
     (native_loader_id, COMPUTE_UNIT_TO_US_RATIO * 2);
     (stake_config_id, COMPUTE_UNIT_TO_US_RATIO * 2);
     (stake_program_id, COMPUTE_UNIT_TO_US_RATIO * 25);
     (config_program_id, COMPUTE_UNIT_TO_US_RATIO * 15);
     (vote_program_id, COMPUTE_UNIT_TO_US_RATIO * 70);
     (secp256k1_program_id, COMPUTE_UNIT_TO_US_RATIO * 24);
     (system_program_id, COMPUTE_UNIT_TO_US_RATIO * 5)].

Definition MAX_BLOCK_UNITS : Z :=
  MAX_BLOCK_REPLAY_TIME_US * COMPUTE_UNIT_TO_US_RATIO * MAX_CONCURRENCY.
Definition MAX_WRITABLE_ACCOUNT_UNITS : Z := MAX_BLOCK_REPLAY_TIME_US * COMPUTE_UNIT_TO_US_RATIO.

(** [0.75_f64], which is exact. *)
Definition three_quarters : f64 := f_div (of_u64 3) (of_u64 4).

Definition MAX_VOTE_UNITS : Z := f64_as_u64 (f_mul (of_u64 MAX_BLOCK_UNITS) three_quarters).
Definition MAX_ACCOUNT_DATA_BLOCK_LEN : Z := 100000000.

(** ** The table of program costs *)

Definition PRUNE_RATIO : f64 := three_quarters.
Definition OCCURRENCES_WEIGHT : Z := 100.
Definition DEFAULT_CAPACITY : nat := 1024.

Record ExecuteCostTable := {
  ect_capacity : nat;
  ect_table : gmap N Z;
  ect_occurrences : gmap N (nat * Z);
}.

(** The order in which a [HashMap] of occurrences is iterated: some order of
    its entries. *)
Class HashOrder := {
  hash_iter : gmap N (nat * Z) -> list (N * (nat * Z));
  hash_iter_perm : forall m, hash_iter m ≡ₚ map_to_list m;
}.

Definition ect_new (cap : nat) : ExecuteCostTable :=
  {| ect_capacity := cap; ect_table := ∅; ect_occurrences := ∅ |}.

Definition ect_default : ExecuteCostTable := ect_new DEFAULT_CAPACITY.

Definition get_count (t : ExecuteCostTable) : nat := size (ect_table t).

Definition get_default_compute_unit_limit (t : ExecuteCostTable) : Z :=
  DEFAULT_INSTRUCTION_COMPUTE_UNIT_LIMIT.

Definition get_global_average_program_cost (t : ExecuteCostTable) : Z :=
  if bool_decide (ect_table t = ∅) then get_default_compute_unit_limit t
  else wrap64 (fold_right Z.add 0 (map_to_list (ect_table t)).*2) / Z.of_nat (get_count t).

Definition get_cost (t : ExecuteCostTable) (key : Pubkey) : option Z := ect_table t !! key.

(** A two's complement 64-bit integer. *)
Definition wrap_i64 (z : Z) : Z := (z + 2 ^ 63) mod 2 ^ 64 - 2 ^ 63.

Definition weighted_age (now : Z) (count : nat) (timestamp : Z) : Z :=
  let age := wrap128 (now - timestamp) in
  wrap_i64 (wrap_i64 (wrap_i64 (Z.of_nat count) * OCCURRENCES_WEIGHT) - wrap_i64 age).

(** A stable sort by weighted age. *)
Fixpoint insert_by_age (x : Z * N) (l : list (Z * N)) : list (Z * N) :=
  match l with
  | [] => [x]
  | y :: rest => if y.1 <=? x.1 then y :: insert_by_age x rest else x :: l
  end.

Definition sort_by_age (l : list (Z * N)) : list (Z * N) :=
  fold_left (fun acc x => insert_by_age x acc) l [].

Definition ect_remove (t : ExecuteCostTable) (key : Pubkey) : ExecuteCostTable :=
  {| ect_capacity := ect_capacity t; ect_table := delete key (ect_table t);
     ect_occurrences := delete key (ect_occurrences t) |}.

(** Removes the entries in order until [new_size] remain. *)
Fixpoint prune_loop (t : ExecuteCostTable) (new_size : nat) (sorted : list (Z * N))
    : ExecuteCostTable :=
  match sorted with
  | [] => t
  | (_, key) :: rest =>
      let t := ect_remove t key in
      if (new_size =? get_count t)%nat then t else prune_loop t new_size rest
  end.

Definition prune_to `{HashOrder} (t : ExecuteCostTable) (new_size : nat) (now : Z)
    : ExecuteCostTable :=
  if (new_size =? get_count t)%nat then t
  else if (new_size =? 0)%nat then
    {| ect_capacity := ect_capacity t; ect_table := ∅; ect_occurrences := ∅ |}
  else
    prune_loop t new_size
      (sort_by_age (map (fun '(key, (count, timestamp)) => (weighted_age now count timestamp, key))
                        (hash_iter (ect_occurrences t)))).

(** [(current_size as f64 * PRUNE_RATIO) as usize]. *)
Definition pruned_size (current_size : nat) : nat :=
  Z.to_nat (f64_as_u64 (f_mul (of_u64 (Z.of_nat current_size)) PRUNE_RATIO)).

(** [now] is the time read when pruning, [now'] the time recorded. *)
Definition upsert `{HashOrder} (t : ExecuteCostTable) (key : Pubkey) (value now now' : Z)
    : ExecuteCostTable :=
  let need_to_add := negb (bool_decide (is_Some (ect_table t !! key))) in
  let current_size := get_count t in
  let t := if (current_size =? ect_capacity t)%nat && need_to_add
           then prune_to t (pruned_size current_size) now else t in
  let program_cost := default value (ect_table t !! key) in
  let count := (default (0%nat, now') (ect_occurrences t !! key)).1 in
  {| ect_capacity := ect_capacity t;
     ect_table := <[key := wrap64 (program_cost + value) / 2]> (ect_table t);
     ect_occurrences := <[key := (S count, now')]> (ect_occurrences t) |}.

(** ** The cost of a transaction *)

Record TransactionCost := {
  writable_accounts : list Pubkey;
  signature_cost : Z;
  write_lock_cost : Z;
  data_bytes_cost : Z;
  builtins_execution_cost : Z;
  bpf_execution_cost : Z;
  tc_account_data_size : Z;
  is_simple_vote : bool;
}.

Definition cost_default : TransactionCost :=
  {| writable_accounts := []; signature_cost := 0; write_lock_cost := 0; data_bytes_cost := 0;
     builtins_execution_cost := 0; bpf_execution_cost := 0; tc_account_data_size := 0;
     is_simple_vote := false |}.

(** [TransactionCost::reset]. *)
Definition cost_reset (c : TransactionCost) : TransactionCost :=
  {| writable_accounts := []; signature_cost := 0; write_lock_cost := 0; data_bytes_cost := 0;
     builtins_execution_cost := 0; bpf_execution_cost := 0;
     tc_account_data_size := tc_account_data_size c; is_simple_vote := false |}.

Definition sum (c : TransactionCost) : Z :=
  sat_add64 (sat_add64 (sat_add64 (sat_add64 (signature_cost c) (write_lock_cost c))
    (data_bytes_cost c)) (builtins_execution_cost c)) (bpf_execution_cost c).

Record CostModel := { instruction_execution_cost_table : ExecuteCostTable }.

Definition cost_model_new : CostModel := {| instruction_execution_cost_table := ect_default |}.

Definition upsert_instruction_cost `{HashOrder} (m : CostModel) (program_key : Pubkey)
    (cost now now' : Z) : CostModel :=
  {| instruction_execution_cost_table :=
       upsert (instruction_execution_cost_table m) program_key cost now now' |}.

(** Each cost comes with the times read when it is recorded. *)
Definition initialize_cost_table `{HashOrder} (m : CostModel)
    (cost_table : list (Pubkey * Z * (Z * Z))) : CostModel :=
  fold_left (fun m '(program_id, cost, (now, now')) =>
               upsert_instruction_cost m program_id cost now now') cost_table m.

Definition find_instruction_cost (m : CostModel) (program_key : Pubkey) : Z :=
  match get_cost (instruction_execution_cost_table m) program_key with
  | Some cost => cost
  | None => get_default_compute_unit_limit (instruction_execution_cost_table m)
  end.

Definition get_signature_cost (tx : SanitizedTransaction) : Z :=
  wrap64 (Z.of_nat (length (st_signatures tx)) * SIGNATURE_COST).

(** The loop of [get_write_lock_cost]: the writable keys in order, each
    adding to the cost. *)
Fixpoint write_lock_loop (m : SanitizedMessage) (i : nat) (keys : list Pubkey)
    (acc : list Pubkey * Z) : outcome (list Pubkey * Z) :=
  match keys with
  | [] => Returns acc
  | k :: rest =>
      w ← message_is_writable m i;
      write_lock_loop m (S i) rest
        (if w : bool then (acc.1 ++ [k], wrap64 (acc.2 + WRITE_LOCK_UNITS)) else acc)
  end.

Definition get_write_lock_cost (tx : SanitizedTransaction) : outcome (list Pubkey * Z) :=
  write_lock_loop (st_message tx) 0
    (account_keys_iter (message_account_keys (st_message tx))) ([], 0).

Definition get_data_bytes_cost (tx : SanitizedTransaction) : outcome Z :=
  ixs ← program_instructions_iter (st_message tx);
  Returns (fold_left (fun acc '(_, ix) =>
             wrap64 (acc + Z.of_nat (length (ci_data ix)) / DATA_BYTES_UNITS)) ixs 0).

(** One instruction's part of [(builtin, bpf)]. *)
Definition add_instruction_cost (m : CostModel) (acc : Z * Z) (program_id : Pubkey) : Z * Z :=
  match BUILT_IN_INSTRUCTION_COSTS !! program_id with
  | Some builtin_cost => (sat_add64 acc.1 builtin_cost, acc.2)
  | None => (acc.1, sat_add64 acc.2 (find_instruction_cost m program_id))
  end.

Definition get_transaction_cost (m : CostModel) (tx : SanitizedTransaction) : outcome (Z * Z) :=
  ixs ← program_instructions_iter (st_message tx);
  Returns (fold_left (fun acc '(program_id, _) => add_instruction_cost m acc program_id) ixs (0, 0)).

Definition calculate_account_data_size_on_deserialized_system_instruction
    (instruction : SystemInstruction) : Z :=
  match instruction with
  | CreateAccount _ space _ => space
  | CreateAccountWithSeed _ _ _ space _ => space
  | Allocate space => space
  | AllocateWithSeed _ _ space _ => space
  | _ => 0
  end.

Definition calculate_account_data_size_on_instruction `{SystemCodec} (program_id : Pubkey)
    (instruction : CompiledInstruction) : Z :=
  if N.eqb program_id system_program_id then
    match decode_system_instruction (ci_data instruction) with
    | Some instruction => calculate_account_data_size_on_deserialized_system_instruction instruction
    | None => 0
    end
  else 0.

Definition calculate_account_data_size `{SystemCodec} (tx : SanitizedTransaction) : outcome Z :=
  ixs ← program_instructions_iter (st_message tx);
  Returns (fold_left (fun acc '(program_id, ix) =>
             wrap64 (acc + calculate_account_data_size_on_instruction program_id ix)) ixs 0).

Definition calculate_cost `{SystemCodec} (m : CostModel) (tx : SanitizedTransaction)
    : outcome TransactionCost :=
  '(accounts, write_lock) ← get_write_lock_cost tx;
  data_bytes ← get_data_bytes_cost tx;
  '(builtins, bpf) ← get_transaction_cost m tx;
  data_size ← calculate_account_data_size tx;
  Returns {| writable_accounts := accounts; signature_cost := get_signature_cost tx;
             write_lock_cost := write_lock; data_bytes_cost := data_bytes;
             builtins_execution_cost := builtins; bpf_execution_cost := bpf;
             tc_account_data_size := data_size; is_simple_vote := st_is_simple_vote_tx tx |}.

(** ** Specification *)

(** The invariant of the table: the two maps have the same programs, at most
    [capacity] of them, and the costs are 64-bit. *)
Definition table_ok (t : ExecuteCostTable) : Prop :=
  dom (ect_table t) = dom (ect_occurrences t)
  /\ (size (ect_table t) <= ect_capacity t)%nat
  /\ map_Forall (fun _ c => u64 c) (ect_table t).

(** ** Lemmas: the table *)

Lemma insert_by_age_perm x l : insert_by_age x l ≡ₚ x :: l.
Proof.
  induction l as [|y l IH]; cbn; [done|]. case_match; [|done]. rewrite IH. apply Permutation_swap.
Qed.

Lemma sort_by_age_perm l : sort_by_age l ≡ₚ l.
Proof.
  unfold sort_by_age. rewrite <- (app_nil_r l) at 2. generalize (@nil (Z * N)) as acc.
  induction l as [|x l IH]; intros acc; cbn; [done|].
  rewrite IH, insert_by_age_perm. symmetry. apply Permutation_middle.
Qed.

Lemma prune_loop_ok sorted : forall t new_size,
  table_ok t -> NoDup sorted.*2 -> (forall k, k ∈ sorted.*2 -> k ∈ dom (ect_table t)) ->
  (size (ect_table t) <= length sorted + new_size)%nat -> (new_size < size (ect_table t))%nat ->
  let t' := prune_loop t new_size sorted in
  table_ok t' /\ size (ect_table t') = new_size /\ ect_capacity t' = ect_capacity t.
Proof.
  induction sorted as [|[a key] sorted IH]; intros t new_size (Hd & Hs & Hu) Hnd Hin Hlen Hlt.
  { cbn in Hlen. lia. }
  cbn in Hnd. apply NoDup_cons in Hnd as [Hk Hnd]. cbn in Hlen.
  assert (is_Some (ect_table t !! key)) as Hkey by (apply elem_of_dom, Hin; by left).
  assert (size (ect_table (ect_remove t key)) = (size (ect_table t) - 1)%nat) as Hsz.
  { cbn. destruct Hkey as [x Hx]. rewrite map_size_delete, Hx. cbn. lia. }
  assert (table_ok (ect_remove t key)) as Hok.
  { split_and!; [cbn; by rewrite !dom_delete_L, Hd|rewrite Hsz; cbn; lia|].
    cbn. by apply map_Forall_delete. }
  cbn [prune_loop]. unfold get_count. rewrite Hsz.
  destruct (Nat.eqb_spec new_size (size (ect_table t) - 1)) as [->|Hne].
  { by split_and!. }
  destruct (IH (ect_remove t key) new_size Hok Hnd) as (H1 & H2 & H3); [|lia|lia|by split_and!].
  intros k Hk'. cbn. rewrite dom_delete_L. apply elem_of_difference. split; [apply Hin; by right|].
  rewrite elem_of_singleton. by intros ->.
Qed.

Lemma prune_to_ok `{HashOrder} t new_size now :
  table_ok t -> (new_size <= size (ect_table t))%nat ->
  let t' := prune_to t new_size now in
  table_ok t' /\ size (ect_table t') = new_size /\ ect_capacity t' = ect_capacity t.
Proof.
  intros Hok Hle. unfold prune_to, get_count. pose proof Hok as (Hd & Hs & Hu).
  destruct (Nat.eqb_spec new_size (size (ect_table t))) as [->|Hne]; [done|].
  destruct (Nat.eqb_spec new_size 0) as [->|Hnz].
  { cbn. split_and!; [|by rewrite map_size_empty|done]. split_and!; cbn.
    - set_solver.
    - rewrite map_size_empty. lia.
    - apply map_Forall_empty. }
  assert (forall l : list (N * (nat * Z)),
    (map (fun '(key, (count, timestamp)) => (weighted_age now count timestamp, key)) l).*2 = l.*1) as Hmap.
  { induction l as [|[k [c ts]] l IHl]; cbn; [done|]. by rewrite IHl. }
  assert ((sort_by_age (map (fun '(key, (count, timestamp)) => (weighted_age now count timestamp, key))
             (hash_iter (ect_occurrences t)))).*2 ≡ₚ (map_to_list (ect_occurrences t)).*1) as Hp.
  { by rewrite sort_by_age_perm, Hmap, hash_iter_perm. }
  apply prune_loop_ok; [done| | | |lia].
  - rewrite Hp. apply NoDup_fst_map_to_list.
  - intros k. rewrite Hp, Hd. intros ([k' v] & -> & Hkv)%list_elem_of_fmap. apply elem_of_map_to_list in Hkv.
    apply elem_of_dom. eauto.
  - apply Permutation_length in Hp. rewrite !length_fmap in Hp. rewrite Hp, length_map_to_list.
    assert (size (ect_table t) = size (ect_occurrences t)); [|lia].
    by rewrite <- !size_dom, Hd.
Qed.

(** ** Lemmas: costs *)

Lemma write_lock_loop_spec m keys : forall i acc,
  write_lock_loop m i keys acc =
    ('(w, _) ← split_keys m i keys;
     Returns (acc.1 ++ w,
              fold_left (fun c _ => wrap64 (c + WRITE_LOCK_UNITS)) w acc.2)).
Proof.
  induction keys as [|k keys IH]; intros i [ks c]; cbn; [by rewrite app_nil_r|].
  destruct (message_is_writable m i) as [w|]; cbn; [|done]. rewrite IH.
  destruct (split_keys m (S i) keys) as [[ws rs]|]; cbn; [|done].
  destruct w; cbn; [|done]. by rewrite <- app_assoc.
Qed.

Lemma write_lock_fold (ws : list Pubkey) c :
  u64 (c + WRITE_LOCK_UNITS * Z.of_nat (length ws)) -> 0 <= c ->
  fold_left (fun c _ => wrap64 (c + WRITE_LOCK_UNITS)) ws c = c + WRITE_LOCK_UNITS * Z.of_nat (length ws).
Proof.
  revert c. induction ws as [|k ws IH]; intros c Hu Hc; cbn [fold_left length]; [lia|].
  cbn [length] in Hu. assert (u64 (c + WRITE_LOCK_UNITS)) as Hu'.
  { unfold WRITE_LOCK_UNITS, COMPUTE_UNIT_TO_US_RATIO in *. u_unfold. lia. }
  rewrite wrap64_small by done. rewrite IH; [lia|..].
  - replace (c + WRITE_LOCK_UNITS + WRITE_LOCK_UNITS * Z.of_nat (length ws))
      with (c + WRITE_LOCK_UNITS * Z.of_nat (S (length ws))) by lia. done.
  - unfold u64 in Hu'. lia.
Qed.

Lemma builtin_cost_bound k c : BUILT_IN_INSTRUCTION_COSTS !! k = Some c -> u64 c.
Proof.
  intros Hk. apply elem_of_map_to_list in Hk.
  assert (forallb (fun p => (0 <=? p.2) && (p.2 <=? U64_MAX)) (map_to_list BUILT_IN_INSTRUCTION_COSTS)
          = true) as Hall by (vm_compute; reflexivity).
  rewrite forallb_forall in Hall. apply list_elem_of_In in Hk. specialize (Hall _ Hk). cbn in Hall.
  zbool. by split.
Qed.

Lemma add_instruction_cost_bound m acc k :
  table_ok (instruction_execution_cost_table m) -> u64 acc.1 -> u64 acc.2 ->
  u64 (add_instruction_cost m acc k).1 /\ u64 (add_instruction_cost m acc k).2.
Proof.
  intros (_ & _ & Hu) H1 H2. unfold add_instruction_cost.
  destruct (BUILT_IN_INSTRUCTION_COSTS !! k) as [c|] eqn:E; cbn.
  - split; [|done]. apply sat_add64_bound; [done|]. by eapply builtin_cost_bound.
  - split; [done|]. apply sat_add64_bound; [done|]. unfold find_instruction_cost, get_cost.
    destruct (ect_table _ !! k) as [c|] eqn:Ec; [by apply (Hu _ _ Ec)|]. split; vm_compute; discriminate.
Qed.

Lemma fold_instruction_cost_bound m ixs : forall acc : Z * Z,
  table_ok (instruction_execution_cost_table m) -> u64 acc.1 -> u64 acc.2 ->
  let r := fold_left (fun acc '(program_id, _) => add_instruction_cost m acc program_id)
             (ixs : list (Pubkey * CompiledInstruction)) acc in
  u64 r.1 /\ u64 r.2.
Proof.
  induction ixs as [|[k ix] ixs IH]; intros acc Hm H1 H2; cbn; [done|].
  destruct (add_instruction_cost_bound m acc k Hm H1 H2). by apply IH.
Qed.

Lemma fold_u64 {A} (f : Z -> A -> Z) (l : list A) c :
  (forall acc x, u64 (f acc x)) -> u64 c -> u64 (fold_left f l c).
Proof. intros Hf. revert c. induction l as [|x l IH]; intros c Hc; cbn; [done|]. by apply IH. Qed.

Lemma sum_bpf c :
  u64 (signature_cost c) -> u64 (write_lock_cost c) -> u64 (data_bytes_cost c) ->
  u64 (builtins_execution_cost c) -> u64 (bpf_execution_cost c) ->
  bpf_execution_cost c <= sum c <= U64_MAX.
Proof. unfold sum. u_unfold. lia. Qed.

(** ** Properties *)

(** The cost table stays within its capacity.  Recording a program's cost in
    a well-formed table of the default capacity, pruning first when the table
    is full, keeps the two maps on the same programs and at most 1024 of
    them, whatever the order in which the hash map is iterated; the program
    is in the table afterwards. *)
Theorem upsert_bounded `{HashOrder} (t : ExecuteCostTable) (key : Pubkey) (value now now' : Z)
    (Hok : table_ok t) (Hcap : ect_capacity t = DEFAULT_CAPACITY) (Hv : u64 value) :
  let t' := upsert t key value now now' in
  table_ok t' /\ ect_capacity t' = DEFAULT_CAPACITY /\ is_Some (get_cost t' key).
Proof.
  cbn zeta. unfold upsert, get_count.
  set (t1 := if _ && _ then _ else t).
  assert (table_ok t1 /\ ect_capacity t1 = DEFAULT_CAPACITY
    /\ ((size (ect_table t1) < DEFAULT_CAPACITY)%nat \/ is_Some (ect_table t1 !! key))) as (H1 & Hc1 & Hroom).
  { unfold t1. pose proof Hok as (_ & Hs & _). rewrite Hcap in Hs |- *.
    destruct (Nat.eqb_spec (size (ect_table t)) DEFAULT_CAPACITY) as [Hfull|Hne]; cbn [andb].
    - destruct (bool_decide (is_Some (ect_table t !! key))) eqn:Ek; cbn [negb].
      + apply bool_decide_eq_true in Ek. auto.
      + rewrite Hfull. assert (pruned_size DEFAULT_CAPACITY = 768%nat) as -> by (vm_compute; reflexivity).
        destruct (prune_to_ok t 768 now Hok) as (? & Hsz & ?); [rewrite Hfull; unfold DEFAULT_CAPACITY; lia|].
        split_and!; [done|congruence|left; rewrite Hsz; unfold DEFAULT_CAPACITY; lia].
    - split_and!; [done|done|left; lia]. }
  clearbody t1. clear Hok Hcap. destruct H1 as (Hd & Hs & Hu). split_and!; cbn; [|done|].
  - split_and!; cbn.
    + by rewrite !dom_insert_L, Hd.
    + rewrite map_size_insert. destruct Hroom as [Hlt|[x Hx]]; [destruct (_ !! key); cbn; lia|by rewrite Hx].
    + apply map_Forall_insert_2; [|done]. pose proof (wrap64_bound (default value (ect_table t1 !! key) + value)).
      u_unfold. split; [apply Z.div_pos; lia|]. apply Z.div_le_upper_bound; lia.
  - unfold get_cost. cbn. by rewrite lookup_insert_eq.
Qed.

#[global] Instance sample_order : HashOrder := { hash_iter := map_to_list; hash_iter_perm := fun m => reflexivity _ }.

Lemma upsert_bounded_witness :
  let t' := upsert (upsert ect_default 7%N 100 5 5) 7%N 300 6 6 in
  table_ok t' /\ get_cost t' 7%N = Some 200.
Proof.
  assert (table_ok (upsert ect_default 7%N 100 5 5)) as H1.
  { apply upsert_bounded; [|reflexivity|split; vm_compute; discriminate].
    split_and!; cbn; [set_solver|rewrite map_size_empty; lia|apply map_Forall_empty]. }
  split; [|vm_compute; reflexivity].
  apply (upsert_bounded _ 7%N 300 6 6 H1); [reflexivity|split; vm_compute; discriminate].
Defined.

(** The cost of a transaction charges its write locks.  For a transaction
    whose program indices resolve, the estimate is computed without a panic;
    the accounts it charges are exactly the accounts the transaction locks
    for writing by its message, in order and, when the locks are granted,
    without repetition; it costs 300 units per such account and 720 per
    signature; and the execution part, which is later replaced by the actual
    units, never exceeds the total. *)
Theorem calculate_cost_charges_locks `{SystemCodec} (m : CostModel) (tx : SanitizedTransaction)
    (ixs : list (Pubkey * CompiledInstruction))
    (Htable : table_ok (instruction_execution_cost_table m))
    (Hprog : program_instructions_iter (st_message tx) = Returns ixs)
    (Hkeys : Z.of_nat (length (account_keys_iter (message_account_keys (st_message tx)))) <= 256)
    (Hsigs : Z.of_nat (length (st_signatures tx)) <= 256) :
  exists c, calculate_cost m tx = Returns c
    /\ writable_accounts c = tal_writable (tx_locks tx)
    /\ (forall limit locks, get_account_locks tx limit = Returns (Ok locks) -> NoDup (writable_accounts c))
    /\ write_lock_cost c = 300 * Z.of_nat (length (writable_accounts c))
    /\ signature_cost c = 720 * Z.of_nat (length (st_signatures tx))
    /\ 0 <= bpf_execution_cost c <= sum c /\ sum c <= U64_MAX
    /\ is_simple_vote c = st_is_simple_vote_tx tx.
Proof.
  unfold calculate_cost, get_write_lock_cost. rewrite write_lock_loop_spec.
  pose proof (locks_unchecked_perm tx) as Hperm. pose proof (locks_unchecked_returns tx) as Hlocks.
  unfold get_account_locks_unchecked in Hlocks.
  destruct (split_keys (st_message tx) 0 _) as [[w r]|]; [|done]. cbn in Hlocks. injection Hlocks as Hlocks.
  rewrite <- Hlocks in Hperm. cbn in Hperm. apply Permutation_length in Hperm as Hlen.
  rewrite length_app in Hlen. cbn [mbind outcome_bind fst snd app].
  assert (fold_left (fun c _ => wrap64 (c + WRITE_LOCK_UNITS)) w 0 = 300 * Z.of_nat (length w)) as Hwl.
  { rewrite write_lock_fold; unfold WRITE_LOCK_UNITS, COMPUTE_UNIT_TO_US_RATIO; [lia|u_unfold; lia|lia]. }
  unfold get_data_bytes_cost, get_transaction_cost, calculate_account_data_size. rewrite Hprog.
  cbn [mbind outcome_bind].
  destruct (fold_instruction_cost_bound m ixs (0, 0) Htable) as [Hb1 Hb2]; [split; vm_compute; discriminate..|].
  destruct (fold_left _ ixs (0, 0)) as [builtins bpf] eqn:Ecost. cbn in Hb1, Hb2.
  match goal with |- exists c, Returns ?x = _ /\ _ =>
    assert (bpf_execution_cost x <= sum x <= U64_MAX) as Hsum end.
  { apply sum_bpf; cbn [signature_cost write_lock_cost data_bytes_cost builtins_execution_cost
      bpf_execution_cost]; [apply wrap64_bound|rewrite Hwl; u_unfold; lia| |done|done].
    apply fold_u64; [intros acc [? ?]; apply wrap64_bound|split; vm_compute; discriminate]. }
  eexists. split; [reflexivity|]. cbn [writable_accounts write_lock_cost signature_cost is_simple_vote].
  rewrite Hwl in Hsum |- *. split_and!.
  - by rewrite <- Hlocks.
  - intros limit locks Hok. apply get_account_locks_Ok in Hok as (-> & Hnd & _).
    rewrite <- Hlocks in Hnd. cbn in Hnd. by apply NoDup_app in Hnd as [? _].
  - done.
  - unfold get_signature_cost, SIGNATURE_COST, COMPUTE_UNIT_TO_US_RATIO.
    rewrite wrap64_small by (u_unfold; lia). lia.
  - cbn. unfold u64 in Hb2. lia.
  - apply Hsum.
  - apply Hsum.
  - done.
Qed.

#[global] Instance sample_system_codec : SystemCodec := { decode_system_instruction := fun _ => None }.

(** A legacy transaction that transfers between its first two accounts. *)
Definition sample_cost_tx : SanitizedTransaction :=
  {| st_message := SanitizedLegacy
       {| lm_header := {| num_required_signatures := 1; num_readonly_signed_accounts := 0;
                          num_readonly_unsigned_accounts := 1 |};
          lm_account_keys := [1%N; 2%N; system_program_id]; lm_recent_blockhash := 7%N;
          lm_instructions := [{| program_id_index := 2; ci_accounts := [0%nat; 1%nat];
                                 ci_data := replicate 40 0 |}] |};
     st_message_hash := 1%N; st_is_simple_vote_tx := false; st_signatures := [5%N];
     st_mev_keys := None |}.

Lemma calculate_cost_charges_locks_witness :
  exists c, calculate_cost cost_model_new sample_cost_tx = Returns c
    /\ writable_accounts c = tal_writable (tx_locks sample_cost_tx)
    /\ write_lock_cost c = 600 /\ sum c <= U64_MAX.
Proof.
  destruct (calculate_cost_charges_locks cost_model_new sample_cost_tx
    [(system_program_id, {| program_id_index := 2; ci_accounts := [0%nat; 1%nat];
                            ci_data := replicate 40 0 |})]) as (c & Hc & Hw & _ & Hl & _ & _ & Hs & _).
  - split_and!; cbn; [set_solver|rewrite map_size_empty; lia|apply map_Forall_empty].
  - vm_compute. reflexivity.
  - vm_compute. discriminate.
  - vm_compute. discriminate.
  - exists c. split; [exact Hc|]. split; [exact Hw|]. split; [|exact Hs]. rewrite Hl, Hw.
    vm_compute. reflexivity.
Defined.
