(* ===== verification/CostTracker.v ===== *)
(** * The block's cost tracker and the quality of service

    Models runtime/src/cost_tracker.rs, the limits on the compute units and
    account data of a block, and the functions of core/src/qos_service.rs
    that select transactions against it and settle their costs after
    execution.  The specification is the multiset of the costs of the
    transactions in the block. *)

From S2P Require Import Prelude Errors CostModel.

Inductive CostTrackerError :=
| WouldExceedBlockMaxLimit | WouldExceedVoteMaxLimit | WouldExceedAccountMaxLimit
| WouldExceedAccountDataBlockLimit | WouldExceedAccountDataTotalLimit.

Record CostTracker := {
  account_cost_limit : Z;
  block_cost_limit : Z;
  vote_cost_limit : Z;
  cost_by_writable_accounts : gmap N Z;
  block_cost : Z;
  vote_cost : Z;
  transaction_count : Z;
  account_data_size : Z;
  account_data_size_limit : option Z;
}.

(** [new_with_account_data_size_limit]; [Default] is [None]. *)
Definition cost_tracker_new (limit : option Z) : CostTracker :=
  {| account_cost_limit := MAX_WRITABLE_ACCOUNT_UNITS; block_cost_limit := MAX_BLOCK_UNITS;
     vote_cost_limit := MAX_VOTE_UNITS; cost_by_writable_accounts := ∅; block_cost := 0;
     vote_cost := 0; transaction_count := 0; account_data_size := 0;
     account_data_size_limit := limit |}.

Definition set_limits (t : CostTracker) (account block vote : Z) : CostTracker :=
  {| account_cost_limit := account; block_cost_limit := block; vote_cost_limit := vote;
     cost_by_writable_accounts := cost_by_writable_accounts t; block_cost := block_cost t;
     vote_cost := vote_cost t; transaction_count := transaction_count t;
     account_data_size := account_data_size t;
     account_data_size_limit := account_data_size_limit t |}.

(** The costs, with the limits and the size and count of [t]. *)
Definition with_costs (t : CostTracker) (by_account : gmap N Z) (block vote : Z) : CostTracker :=
  {| account_cost_limit := account_cost_limit t; block_cost_limit := block_cost_limit t;
     vote_cost_limit := vote_cost_limit t; cost_by_writable_accounts := by_account;
     block_cost := block; vote_cost := vote; transaction_count := transaction_count t;
     account_data_size := account_data_size t;
     account_data_size_limit := account_data_size_limit t |}.

Definition with_size_count (t : CostTracker) (size count : Z) : CostTracker :=
  {| account_cost_limit := account_cost_limit t; block_cost_limit := block_cost_limit t;
     vote_cost_limit := vote_cost_limit t;
     cost_by_writable_accounts := cost_by_writable_accounts t; block_cost := block_cost t;
     vote_cost := vote_cost t; transaction_count := count; account_data_size := size;
     account_data_size_limit := account_data_size_limit t |}.

(** An account of the loop in [would_fit_internal]. *)
Definition account_fits (t : CostTracker) (cost : Z) (account_key : Pubkey) : bool :=
  match cost_by_writable_accounts t !! account_key with
  | Some chained_cost => sat_add64 chained_cost cost <=? account_cost_limit t
  | None => true
  end.

Definition would_fit_internal (t : CostTracker) (write_lock_accounts : list Pubkey) (cost : Z)
    (is_vote : bool) (data_size : Z) : result CostTrackerError unit :=
  let vote := if is_vote then cost else 0 in
  if block_cost_limit t <? sat_add64 (block_cost t) cost then Err WouldExceedBlockMaxLimit
  else if vote_cost_limit t <? sat_add64 (vote_cost t) vote then Err WouldExceedVoteMaxLimit
  else if account_cost_limit t <? cost then Err WouldExceedAccountMaxLimit
  else
    let size := sat_add64 (account_data_size t) data_size in
    if match account_data_size_limit t with Some limit => limit <? size | None => false end
    then Err WouldExceedAccountDataTotalLimit
    else if MAX_ACCOUNT_DATA_BLOCK_LEN <? size then Err WouldExceedAccountDataBlockLimit
    else if forallb (account_fits t cost) write_lock_accounts then Ok tt
    else Err WouldExceedAccountMaxLimit.

Definition would_fit (t : CostTracker) (tx_cost : TransactionCost) : result CostTrackerError unit :=
  would_fit_internal t (writable_accounts tx_cost) (sum tx_cost) (is_simple_vote tx_cost)
    (tc_account_data_size tx_cost).

(** Updates the entry of an account, inserted as 0 if absent. *)
Definition adjust_account (f : Z -> Z) (m : gmap N Z) (account_key : Pubkey) : gmap N Z :=
  <[account_key := f (default 0 (m !! account_key))]> m.

Definition add_transaction_execution_cost_internal (t : CostTracker)
    (write_lock_accounts : list Pubkey) (is_vote : bool) (adjustment : Z) : CostTracker :=
  with_costs t
    (fold_left (adjust_account (fun c => sat_add64 c adjustment)) write_lock_accounts
       (cost_by_writable_accounts t))
    (sat_add64 (block_cost t) adjustment)
    (if is_vote then sat_add64 (vote_cost t) adjustment else vote_cost t).

Definition add_transaction_execution_cost (t : CostTracker) (tx_cost : TransactionCost)
    (adjustment : Z) : CostTracker :=
  add_transaction_execution_cost_internal t (writable_accounts tx_cost) (is_simple_vote tx_cost)
    adjustment.

Definition sub_transaction_execution_cost (t : CostTracker) (tx_cost : TransactionCost)
    (adjustment : Z) : CostTracker :=
  with_costs t
    (fold_left (adjust_account (fun c => sat_sub64 c adjustment)) (writable_accounts tx_cost)
       (cost_by_writable_accounts t))
    (sat_sub64 (block_cost t) adjustment)
    (if is_simple_vote tx_cost then sat_sub64 (vote_cost t) adjustment else vote_cost t).

Definition add_transaction_cost_internal (t : CostTracker) (write_lock_accounts : list Pubkey)
    (cost : Z) (is_vote : bool) (data_size : Z) : CostTracker :=
  let t := add_transaction_execution_cost_internal t write_lock_accounts is_vote cost in
  with_size_count t (sat_add64 (account_data_size t) data_size)
    (sat_add64 (transaction_count t) 1).

Definition add_transaction_cost (t : CostTracker) (tx_cost : TransactionCost) : CostTracker :=
  add_transaction_cost_internal t (writable_accounts tx_cost) (sum tx_cost)
    (is_simple_vote tx_cost) (tc_account_data_size tx_cost).

(** [remove] and [remove_transaction_cost]. *)
Definition remove_transaction_cost (t : CostTracker) (tx_cost : TransactionCost) : CostTracker :=
  let t := sub_transaction_execution_cost t tx_cost (sum tx_cost) in
  with_size_count t (sat_sub64 (account_data_size t) (tc_account_data_size tx_cost))
    (sat_sub64 (transaction_count t) 1).

Definition try_add (t : CostTracker) (tx_cost : TransactionCost)
    : result CostTrackerError Z * CostTracker :=
  match would_fit t tx_cost with
  | Err e => (Err e, t)
  | Ok _ => let t := add_transaction_cost t tx_cost in (Ok (block_cost t), t)
  end.

Definition try_add_requested_cus (t : CostTracker) (write_lock_accounts : list Pubkey)
    (requested_cus : Z) (is_vote : bool) : result CostTrackerError Z * CostTracker :=
  match would_fit_internal t write_lock_accounts requested_cus is_vote 0 with
  | Err e => (Err e, t)
  | Ok _ =>
      let t := add_transaction_cost_internal t write_lock_accounts requested_cus is_vote 0 in
      (Ok (block_cost t), t)
  end.

Definition update_execution_cost (t : CostTracker) (estimated_tx_cost : TransactionCost)
    (actual_execution_units : Z) : CostTracker :=
  let estimated := bpf_execution_cost estimated_tx_cost in
  match actual_execution_units ?= estimated with
  | Eq => t
  | Gt => add_transaction_execution_cost t estimated_tx_cost (actual_execution_units - estimated)
  | Lt => sub_transaction_execution_cost t estimated_tx_cost (estimated - actual_execution_units)
  end.

(** ** The quality of service *)

Definition cost_error_into (e : CostTrackerError) : TransactionError :=
  match e with
  | WouldExceedBlockMaxLimit => TE.WouldExceedMaxBlockCostLimit
  | WouldExceedVoteMaxLimit => TE.WouldExceedMaxVoteCostLimit
  | WouldExceedAccountMaxLimit => TE.WouldExceedMaxAccountCostLimit
  | WouldExceedAccountDataBlockLimit => TE.WouldExceedAccountDataBlockLimit
  | WouldExceedAccountDataTotalLimit => TE.WouldExceedAccountDataTotalLimit
  end.

(** The results in order, the number included, and the tracker. *)
Fixpoint select_transactions_per_cost (t : CostTracker) (costs : list TransactionCost)
    : list (result TransactionError unit) * nat * CostTracker :=
  match costs with
  | [] => ([], 0%nat, t)
  | cost :: rest =>
      match try_add t cost with
      | (Ok _, t) =>
          let '(rs, n, t) := select_transactions_per_cost t rest in (Ok tt :: rs, S n, t)
      | (Err e, t) =>
          let '(rs, n, t) := select_transactions_per_cost t rest in
          (Err (cost_error_into e) :: rs, n, t)
      end
  end.

Inductive CommitTransactionDetails :=
| Committed (compute_units : Z)
| NotCommitted.

Fixpoint update_transaction_costs (t : CostTracker) (costs : list TransactionCost)
    (qos_results : list (result TransactionError unit)) (status : list CommitTransactionDetails)
    : CostTracker :=
  match costs, qos_results, status with
  | tx_cost :: costs, qos :: qos_results, details :: status =>
      let t :=
        if is_ok qos then
          match details with
          | Committed compute_units => update_execution_cost t tx_cost compute_units
          | NotCommitted => remove_transaction_cost t tx_cost
          end
        else t in
      update_transaction_costs t costs qos_results status
  | _, _, _ => t
  end.

Fixpoint remove_transaction_costs (t : CostTracker) (costs : list TransactionCost)
    (qos_results : list (result TransactionError unit)) : CostTracker :=
  match costs, qos_results with
  | tx_cost :: costs, qos :: qos_results =>
      remove_transaction_costs (if is_ok qos then remove_transaction_cost t tx_cost else t)
        costs qos_results
  | _, _ => t
  end.

Definition update_or_remove_transaction_costs (t : CostTracker) (costs : list TransactionCost)
    (qos_results : list (result TransactionError unit))
    (status : option (list CommitTransactionDetails)) : CostTracker :=
  match status with
  | Some status => update_transaction_costs t costs qos_results status
  | None => remove_transaction_costs t costs qos_results
  end.

(** ** Specification *)

(** A transaction of the block, as the tracker sees it. *)
Record entry := {
  e_accounts : list Pubkey;
  e_cost : Z;
  e_vote : bool;
  e_size : Z;
}.

Definition entry_of (c : TransactionCost) : entry :=
  {| e_accounts := writable_accounts c; e_cost := sum c; e_vote := is_simple_vote c;
     e_size := tc_account_data_size c |}.

(** The entry once its actual execution units are known. *)
Definition entry_actual (c : TransactionCost) (units : Z) : entry :=
  {| e_accounts := writable_accounts c; e_cost := sum c - bpf_execution_cost c + units;
     e_vote := is_simple_vote c; e_size := tc_account_data_size c |}.

Definition total (f : entry -> Z) (es : list entry) : Z := fold_right (fun e acc => f e + acc) 0 es.

Definition vote_part (e : entry) : Z := if e_vote e then e_cost e else 0.
Definition account_part (k : Pubkey) (e : entry) : Z := if decide (k ∈ e_accounts e) then e_cost e else 0.

Definition account_cost (t : CostTracker) (k : Pubkey) : Z :=
  default 0 (cost_by_writable_accounts t !! k).

(** The tracker's sums are those of the transactions [held]. *)
Record tracks (held : list entry) (t : CostTracker) : Prop := {
  tr_block : block_cost t = total e_cost held;
  tr_vote : vote_cost t = total vote_part held;
  tr_account : forall k, account_cost t k = total (account_part k) held;
  tr_size : account_data_size t = total e_size held;
  tr_count : transaction_count t = Z.of_nat (length held);
}.

(** A possible entry: no account twice, as the account locks require, and
    unsigned amounts. *)
Definition entry_ok (e : entry) : Prop := NoDup (e_accounts e) /\ 0 <= e_cost e /\ 0 <= e_size e.

(** The documented limits of the block, on its transactions. *)
Record block_fits (t : CostTracker) (held : list entry) : Prop := {
  bf_block : total e_cost held <= block_cost_limit t;
  bf_vote : total vote_part held <= vote_cost_limit t;
  bf_account : forall k, total (account_part k) held <= account_cost_limit t;
  bf_each : Forall (fun e => e_cost e <= account_cost_limit t) held;
  bf_size : total e_size held <= MAX_ACCOUNT_DATA_BLOCK_LEN;
  bf_size_total : forall l, account_data_size_limit t = Some l -> total e_size held <= l;
}.

(** Limits below the largest integer, so that saturation cannot hide an
    excess. *)
Definition limits_small (t : CostTracker) : Prop :=
  0 <= block_cost_limit t < U64_MAX /\ 0 <= vote_cost_limit t < U64_MAX
  /\ 0 <= account_cost_limit t < U64_MAX
  /\ match account_data_size_limit t with Some l => 0 <= l < U64_MAX | None => True end.

(** Two trackers that no operation tells apart: an absent account is one
    with cost 0. *)
#[global] Instance cost_tracker_equiv : Equiv CostTracker := fun t t' =>
  account_cost_limit t = account_cost_limit t' /\ block_cost_limit t = block_cost_limit t'
  /\ vote_cost_limit t = vote_cost_limit t'
  /\ (forall k, account_cost t k = account_cost t' k)
  /\ block_cost t = block_cost t' /\ vote_cost t = vote_cost t'
  /\ transaction_count t = transaction_count t' /\ account_data_size t = account_data_size t'
  /\ account_data_size_limit t = account_data_size_limit t'.

(** The entries that remain in the block after execution. *)
Fixpoint settled (costs : list TransactionCost) (qos : list (result TransactionError unit))
    (status : list CommitTransactionDetails) : list entry :=
  match costs, qos, status with
  | c :: costs, q :: qos, d :: status =>
      match is_ok q, d with
      | true, Committed units => entry_actual c units :: settled costs qos status
      | _, _ => settled costs qos status
      end
  | _, _, _ => []
  end.

(** The entries of the transactions that were selected. *)
Fixpoint selected (costs : list TransactionCost) (qos : list (result TransactionError unit))
    : list entry :=
  match costs, qos with
  | c :: costs, q :: qos => if is_ok q then entry_of c :: selected costs qos else selected costs qos
  | _, _ => []
  end.

Definition same_limits (t t' : CostTracker) : Prop :=
  account_cost_limit t' = account_cost_limit t /\ block_cost_limit t' = block_cost_limit t
  /\ vote_cost_limit t' = vote_cost_limit t /\ account_data_size_limit t' = account_data_size_limit t.

(** The part of [tracks] that execution costs change. *)
Definition tracks_costs (held : list entry) (t : CostTracker) : Prop :=
  block_cost t = total e_cost held /\ vote_cost t = total vote_part held
  /\ forall k, account_cost t k = total (account_part k) held.

Definition costs_nonneg (held : list entry) : Prop := Forall (fun e => 0 <= e_cost e) held.

(** The compute units that a batch may come to occupy while it is settled:
    the estimates and the actual units together. *)
Fixpoint exposure (costs : list TransactionCost) (status : list CommitTransactionDetails) : Z :=
  match costs, status with
  | c :: costs, d :: status =>
      sum c + (match d with Committed units => units | NotCommitted => 0 end) + exposure costs status
  | _, _ => 0
  end.

(** An estimate that did not saturate, and whose execution part is one of its
    parts. *)
Definition cost_ok (c : TransactionCost) : Prop :=
  entry_ok (entry_of c) /\ 0 <= bpf_execution_cost c <= sum c.

Definition units_ok (d : CommitTransactionDetails) : Prop :=
  match d with Committed units => 0 <= units | NotCommitted => True end.

(** ** Lemmas: sums *)

Lemma total_cons f e es : total f (e :: es) = f e + total f es.
Proof. done. Qed.

Lemma total_app f es es' : total f (es ++ es') = total f es + total f es'.
Proof. induction es as [|e es IH]; cbn; [done|]. fold (total f (es ++ es')) (total f es). lia. Qed.

Lemma total_nonneg f es : (forall e, e ∈ es -> 0 <= f e) -> 0 <= total f es.
Proof.
  induction es as [|e es IH]; intros Hf; [done|]. rewrite total_cons.
  assert (0 <= f e) by (apply Hf; by left). assert (0 <= total f es); [|lia].
  apply IH. intros e' He'. apply Hf. by right.
Qed.

#[global] Instance total_perm f : Proper (Permutation ==> eq) (total f).
Proof. induction 1; rewrite ?total_cons; lia. Qed.

Lemma tracks_perm held held' t : held ≡ₚ held' -> tracks held t -> tracks held' t.
Proof.
  intros Hp []. constructor; intros; rewrite <- Hp; auto.
Qed.

Lemma fold_adjust_lookup f ks : forall m k, NoDup ks ->
  default 0 (fold_left (adjust_account f) ks m !! k)
    = if decide (k ∈ ks) then f (default 0 (m !! k)) else default 0 (m !! k).
Proof.
  induction ks as [|x ks IH]; intros m k Hnd; cbn [fold_left].
  { by rewrite decide_False by apply not_elem_of_nil. }
  apply NoDup_cons in Hnd as [Hx Hnd]. rewrite IH by done. unfold adjust_account.
  destruct (decide (k = x)) as [->|Hne].
  - rewrite decide_False by done. rewrite lookup_insert_eq, decide_True by set_solver. done.
  - rewrite lookup_insert_ne by done. destruct (decide (k ∈ ks)); [by rewrite decide_True by set_solver|].
    by rewrite decide_False by set_solver.
Qed.

(** ** Lemmas: adding and subtracting execution costs *)

Lemma part_bounds held k :
  costs_nonneg held ->
  0 <= total vote_part held <= total e_cost held
  /\ 0 <= total (account_part k) held <= total e_cost held.
Proof.
  induction 1 as [|e held He Hh IH]; [cbn; lia|]. rewrite !total_cons.
  unfold vote_part, account_part in *. destruct (e_vote e), (decide (k ∈ e_accounts e)); lia.
Qed.

Lemma account_part_eq k a c v s :
  account_part k {| e_accounts := a; e_cost := c; e_vote := v; e_size := s |}
    = if decide (k ∈ a) then c else 0.
Proof. done. Qed.

Lemma vote_part_of c : vote_part (entry_of c) = if is_simple_vote c then sum c else 0.
Proof. done. Qed.

Lemma add_exec_costs held t accounts vote adj size :
  tracks_costs held t -> costs_nonneg held -> NoDup accounts -> 0 <= adj ->
  total e_cost held + adj <= U64_MAX ->
  tracks_costs ({| e_accounts := accounts; e_cost := adj; e_vote := vote; e_size := size |} :: held)
    (add_transaction_execution_cost_internal t accounts vote adj).
Proof.
  intros (Hb & Hv & Ha) Hn Hnd H0 Hmax.
  split; [|split]; [..|intros k]; unfold add_transaction_execution_cost_internal; cbn.
  - rewrite Hb. fold (total e_cost held). u_unfold. lia.
  - fold (total vote_part held). destruct (part_bounds held pubkey_default Hn) as [? _].
    unfold vote_part at 1. cbn. destruct vote; u_unfold; lia.
  - fold (total (account_part k) held). destruct (part_bounds held k Hn) as [_ ?].
    unfold account_cost. cbn. rewrite fold_adjust_lookup by done. fold (account_cost t k). rewrite Ha.
    rewrite account_part_eq. destruct (decide (k ∈ accounts)); u_unfold; lia.
Qed.

Lemma sub_exec_costs held t c adj size :
  tracks_costs ({| e_accounts := writable_accounts c; e_cost := adj; e_vote := is_simple_vote c;
                   e_size := size |} :: held) t ->
  costs_nonneg held -> NoDup (writable_accounts c) ->
  tracks_costs held (sub_transaction_execution_cost t c adj).
Proof.
  intros (Hb & Hv & Ha) Hn Hnd. rewrite total_cons in Hb, Hv. cbn in Hb, Hv.
  split; [|split]; [..|intros k]; unfold sub_transaction_execution_cost; cbn.
  - pose proof (part_bounds held pubkey_default Hn). u_unfold. lia.
  - destruct (part_bounds held pubkey_default Hn) as [? _].
    unfold vote_part at 1 in Hv. cbn in Hv. destruct (is_simple_vote c); u_unfold; lia.
  - destruct (part_bounds held k Hn) as [_ ?]. specialize (Ha k). rewrite total_cons in Ha.
    unfold account_cost. cbn. rewrite fold_adjust_lookup by done. fold (account_cost t k). rewrite Ha.
    rewrite account_part_eq. destruct (decide (k ∈ writable_accounts c)); u_unfold; lia.
Qed.

(** Costs of the same accounts add up. *)
Lemma tracks_costs_split accounts c1 c2 vote s s1 s2 held t :
  tracks_costs ({| e_accounts := accounts; e_cost := c1 + c2; e_vote := vote; e_size := s |} :: held) t
  <-> tracks_costs ({| e_accounts := accounts; e_cost := c2; e_vote := vote; e_size := s2 |}
                    :: {| e_accounts := accounts; e_cost := c1; e_vote := vote; e_size := s1 |} :: held) t.
Proof.
  unfold tracks_costs. rewrite !total_cons. cbn.
  assert (forall k, total (account_part k)
    ({| e_accounts := accounts; e_cost := c1 + c2; e_vote := vote; e_size := s |} :: held)
    = total (account_part k) ({| e_accounts := accounts; e_cost := c2; e_vote := vote; e_size := s2 |}
        :: {| e_accounts := accounts; e_cost := c1; e_vote := vote; e_size := s1 |} :: held)) as Hk.
  { intros k. rewrite !total_cons. unfold account_part. cbn. case_decide; lia. }
  assert (vote_part {| e_accounts := accounts; e_cost := c1 + c2; e_vote := vote; e_size := s |}
    = vote_part {| e_accounts := accounts; e_cost := c2; e_vote := vote; e_size := s2 |}
      + vote_part {| e_accounts := accounts; e_cost := c1; e_vote := vote; e_size := s1 |}) as Hv.
  { unfold vote_part. cbn. destruct vote; lia. }
  setoid_rewrite Hk. rewrite Hv. split; intros (? & ? & ?); split_and!; try done; lia.
Qed.

Lemma tracks_costs_of held t : tracks held t -> tracks_costs held t.
Proof. by intros []. Qed.

(** Execution costs leave the size and the count. *)
Lemma tracks_of_costs held held' t t' :
  tracks held t -> tracks_costs held' t' ->
  account_data_size t' = account_data_size t -> transaction_count t' = transaction_count t ->
  total e_size held' = total e_size held -> length held' = length held -> tracks held' t'.
Proof.
  intros [] (? & ? & ?) Hs Hc Hts Hl. constructor; [done|done|done|congruence|congruence].
Qed.

(** ** Lemmas: the operations *)

Lemma held_costs held : Forall entry_ok held -> costs_nonneg held.
Proof. intros Hh. eapply Forall_impl; [exact Hh|]. by intros e (_ & ? & _). Qed.

Lemma held_sizes held : Forall entry_ok held -> 0 <= total e_size held.
Proof. intros Hh. apply total_nonneg. intros e He. rewrite Forall_forall in Hh. by apply Hh. Qed.

Lemma add_transaction_cost_tracks held t c :
  tracks held t -> Forall entry_ok held -> entry_ok (entry_of c) ->
  total e_cost held + sum c <= U64_MAX ->
  total e_size held + tc_account_data_size c <= U64_MAX ->
  Z.of_nat (length held) < U64_MAX ->
  tracks (entry_of c :: held) (add_transaction_cost t c).
Proof.
  intros Ht Hh (Hnd & Hc & Hs) Hmax Hsz Hlen.
  destruct (add_exec_costs held t (writable_accounts c) (is_simple_vote c) (sum c)
    (tc_account_data_size c)) as (Hb & Hv & Ha); try done; [by apply tracks_costs_of|by apply held_costs|].
  pose proof (held_sizes held Hh). destruct Ht as [_ _ _ Hts Htc]. constructor; try done.
  - rewrite total_cons. cbn. rewrite Hts. u_unfold. lia.
  - cbn. rewrite Htc. u_unfold. lia.
Qed.

Lemma remove_transaction_cost_tracks held t c :
  tracks (entry_of c :: held) t -> Forall entry_ok held -> entry_ok (entry_of c) ->
  tracks held (remove_transaction_cost t c).
Proof.
  intros Ht Hh (Hnd & Hc & Hs).
  destruct (sub_exec_costs held t c (sum c) (tc_account_data_size c)) as (Hb & Hv & Ha);
    [by apply tracks_costs_of|by apply held_costs|done|].
  pose proof (held_sizes held Hh). destruct Ht as [_ _ _ Hts Htc]. rewrite total_cons in Hts.
  cbn in Hts, Htc. constructor; try done; cbn; u_unfold; lia.
Qed.

Lemma update_execution_cost_tracks held t c units :
  tracks (entry_of c :: held) t -> Forall entry_ok held -> entry_ok (entry_of c) ->
  0 <= bpf_execution_cost c <= sum c -> 0 <= units ->
  total e_cost held + (sum c - bpf_execution_cost c + units) <= U64_MAX ->
  tracks (entry_actual c units :: held) (update_execution_cost t c units).
Proof.
  intros Ht Hh (Hnd & Hc & Hs) Hbpf Hu Hmax.
  pose proof (tracks_costs_of _ _ Ht) as Hcosts. pose proof (held_costs _ Hh) as Hn.
  unfold update_execution_cost. destruct (Z.compare_spec units (bpf_execution_cost c)) as [->|Hlt|Hgt].
  - replace (entry_actual c (bpf_execution_cost c)) with (entry_of c); [done|].
    unfold entry_actual, entry_of. f_equal. lia.
  - eapply tracks_of_costs; [exact Ht| |done|done|done|done].
    eapply (sub_exec_costs _ _ _ _ 0); [|by constructor; [cbn; lia|]|done].
    apply (tracks_costs_split _ _ _ _ (tc_account_data_size c)).
    replace (sum c - bpf_execution_cost c + units + (bpf_execution_cost c - units)) with (sum c) by lia.
    exact Hcosts.
  - eapply tracks_of_costs; [exact Ht| |done|done|done|done]. unfold entry_actual.
    replace (sum c - bpf_execution_cost c + units) with (sum c + (units - bpf_execution_cost c)) by lia.
    apply (tracks_costs_split _ _ _ _ _ (tc_account_data_size c) 0).
    apply add_exec_costs; [done|by constructor; [cbn|]|done|lia|]. rewrite total_cons. cbn. lia.
Qed.

(** ** Lemmas: limits *)

Lemma same_limits_refl t : same_limits t t.
Proof. done. Qed.

Lemma same_limits_trans t1 t2 t3 : same_limits t1 t2 -> same_limits t2 t3 -> same_limits t1 t3.
Proof. intros (? & ? & ? & ?) (? & ? & ? & ?). split_and!; congruence. Qed.

#[export] Hint Resolve same_limits_refl : sol.

Lemma block_fits_same t t' held : same_limits t t' -> block_fits t held -> block_fits t' held.
Proof.
  intros (Ha & Hb & Hv & Hs) []. by constructor; rewrite ?Ha, ?Hb, ?Hv, ?Hs.
Qed.

Lemma limits_small_same t t' : same_limits t t' -> limits_small t -> limits_small t'.
Proof. intros (Ha & Hb & Hv & Hs). unfold limits_small. by rewrite Ha, Hb, Hv, Hs. Qed.

Lemma block_fits_perm t held held' : held ≡ₚ held' -> block_fits t held -> block_fits t held'.
Proof.
  intros Hp []. constructor; intros; rewrite <- ?Hp; auto.
Qed.

Lemma account_fits_iff t held c k :
  tracks held t -> account_cost_limit t < U64_MAX -> sum c <= account_cost_limit t ->
  k ∈ writable_accounts c ->
  account_fits t (sum c) k = true <->
    total (account_part k) (entry_of c :: held) <= account_cost_limit t.
Proof.
  intros Ht Hl Hc Hk. rewrite total_cons, <- (tr_account _ _ Ht).
  unfold entry_of. rewrite account_part_eq, decide_True by done.
  unfold account_fits, account_cost. destruct (cost_by_writable_accounts t !! k) as [x|]; cbn.
  - rewrite Z.leb_le. unfold sat_add64. lia.
  - split; [lia|done].
Qed.

Lemma account_fits_spec t held c :
  tracks held t -> limits_small t -> sum c <= account_cost_limit t ->
  block_fits t held ->
  forallb (account_fits t (sum c)) (writable_accounts c) = true <->
    forall k, total (account_part k) (entry_of c :: held) <= account_cost_limit t.
Proof.
  intros Ht (_ & _ & Hl & _) Hc Hfit. rewrite forallb_forall. split.
  - intros Hall k. destruct (decide (k ∈ writable_accounts c)) as [Hk|Hk].
    + apply account_fits_iff; [done|lia|done|done|]. apply Hall. by apply list_elem_of_In.
    + rewrite total_cons. unfold entry_of. rewrite account_part_eq, decide_False by done.
      pose proof (bf_account _ _ Hfit k). lia.
  - intros Hall k Hk. apply list_elem_of_In in Hk. by apply (account_fits_iff t held); [|lia|..].
Qed.

(** The check is exact: it accepts a transaction when the block with it
    keeps every limit. *)
Lemma would_fit_spec t held c :
  tracks held t -> limits_small t -> block_fits t held ->
  would_fit t c = Ok tt <-> block_fits t (entry_of c :: held).
Proof.
  intros Ht Hl Hfit. pose proof Hl as (Hlb & Hlv & Hla & Hls).
  pose proof Ht as [Hb Hv _ Hs _]. pose proof Hfit as [F1 F2 F3 F4 F5 F6].
  unfold would_fit, would_fit_internal. split.
  - destruct (Z.ltb_spec (block_cost_limit t) (sat_add64 (block_cost t) (sum c))) as [|H1]; [done|].
    destruct (Z.ltb_spec (vote_cost_limit t)
      (sat_add64 (vote_cost t) (if is_simple_vote c then sum c else 0))) as [|H2]; [done|].
    destruct (Z.ltb_spec (account_cost_limit t) (sum c)) as [|Hc]; [done|].
    destruct (match account_data_size_limit t with Some _ => _ | None => _ end) eqn:Et; [done|].
    destruct (Z.ltb_spec MAX_ACCOUNT_DATA_BLOCK_LEN
      (sat_add64 (account_data_size t) (tc_account_data_size c))) as [|H3]; [done|].
    destruct (forallb _ _) eqn:Ea; [intros _|done].
    pose proof (proj1 (account_fits_spec t held c Ht Hl Hc Hfit) Ea) as Hacc.
    apply sat_add64_le in H1, H2, H3; [|done|lia|lia].
    constructor.
    + rewrite total_cons. cbn. lia.
    + rewrite total_cons, vote_part_of. lia.
    + exact Hacc.
    + by constructor.
    + rewrite total_cons. cbn. lia.
    + intros l El. rewrite El in *. apply Z.ltb_ge, sat_add64_le in Et; [|lia].
      rewrite total_cons. cbn. lia.
  - intros [G1 G2 G3 G4 G5 G6]. rewrite total_cons in G1, G2, G5. cbn in G1, G5.
    apply Forall_cons in G4 as [G4 _]. cbn in G4.
    replace (_ <? _) with false by (symmetry; apply Z.ltb_ge; unfold sat_add64 in *; lia).
    rewrite vote_part_of in G2.
    replace (_ <? _) with false
      by (symmetry; apply Z.ltb_ge; destruct (is_simple_vote c); unfold sat_add64 in *; lia).
    replace (_ <? _) with false by (symmetry; apply Z.ltb_ge; lia).
    replace (match account_data_size_limit t with Some _ => _ | None => _ end) with false.
    2:{ destruct (account_data_size_limit t) as [l|]; [|done]. specialize (G6 l eq_refl).
        rewrite total_cons in G6. cbn in G6. symmetry. apply Z.ltb_ge. unfold sat_add64 in *; lia. }
    replace (_ <? _) with false by (symmetry; apply Z.ltb_ge; unfold sat_add64 in *; lia).
    by rewrite (proj2 (account_fits_spec t held c Ht Hl G4 Hfit) G3).
Qed.

Lemma try_add_spec t held c :
  tracks held t -> limits_small t -> block_fits t held -> Forall entry_ok held ->
  entry_ok (entry_of c) -> Z.of_nat (length held) < U64_MAX ->
  match try_add t c with
  | (Ok b, t') => b = block_cost t' /\ block_fits t (entry_of c :: held)
                  /\ tracks (entry_of c :: held) t' /\ same_limits t t'
  | (Err _, t') => t' = t /\ ~ block_fits t (entry_of c :: held)
  end.
Proof.
  intros Ht Hl Hfit Hh Hc Hlen. pose proof (would_fit_spec t held c Ht Hl Hfit) as Hw.
  unfold try_add. destruct (would_fit t c) as [[]|e].
  - pose proof (proj1 Hw eq_refl) as Hfit'. split_and!; try done.
    destruct Hfit' as [G1 _ _ _ G5 _]. rewrite total_cons in G1, G5. cbn in G1, G5.
    destruct Hl as (Hlb & _). apply add_transaction_cost_tracks; try done; [lia|].
    unfold MAX_ACCOUNT_DATA_BLOCK_LEN in G5. u_unfold. lia.
  - split; [done|]. intros Hfit'. apply Hw in Hfit'. done.
Qed.

(** ** Lemmas: batches *)

Lemma select_spec costs : forall t held,
  tracks held t -> limits_small t -> block_fits t held -> Forall entry_ok held ->
  Forall cost_ok costs -> Z.of_nat (length held + length costs) <= U64_MAX ->
  let '(rs, n, t') := select_transactions_per_cost t costs in
  length rs = length costs /\ n = length (selected costs rs)
  /\ tracks (selected costs rs ++ held) t' /\ block_fits t (selected costs rs ++ held)
  /\ same_limits t t'.
Proof.
  induction costs as [|c costs IH]; intros t held Ht Hl Hfit Hh Hcs Hlen; cbn.
  { by split_and!. }
  apply Forall_cons in Hcs as [[Hc Hbpf] Hcs]. cbn in Hlen.
  pose proof (try_add_spec t held c Ht Hl Hfit Hh Hc ltac:(lia)) as Htry.
  destruct (try_add t c) as [[b|e] t1].
  - destruct Htry as (_ & Hfit1 & Ht1 & Hlim1).
    specialize (IH t1 (entry_of c :: held) Ht1 (limits_small_same _ _ Hlim1 Hl)
      (block_fits_same _ _ _ Hlim1 Hfit1) ltac:(by constructor) Hcs ltac:(cbn; lia)).
    destruct (select_transactions_per_cost t1 costs) as [[rs n] t2].
    destruct IH as (Hlr & Hn & Ht2 & Hfit2 & Hlim2). cbn. split_and!; [lia|lia| | |].
    + eapply tracks_perm; [|exact Ht2]. by rewrite Permutation_middle.
    + eapply block_fits_perm; [|eapply block_fits_same; [|exact Hfit2]].
      * by rewrite Permutation_middle.
      * destruct Hlim1 as (? & ? & ? & ?). by split_and!.
    + by eapply same_limits_trans.
  - destruct Htry as [-> _].
    specialize (IH t held Ht Hl Hfit Hh Hcs ltac:(lia)).
    destruct (select_transactions_per_cost t costs) as [[rs n] t2].
    destruct IH as (Hlr & Hn & Ht2 & Hfit2 & Hlim2). cbn. by split_and!; [lia|..].
Qed.

Lemma exposure_nonneg costs status : Forall cost_ok costs -> Forall units_ok status -> 0 <= exposure costs status.
Proof.
  intros Hcs. revert status. induction Hcs as [|c costs [[_ [Hc _]] _] Hcs IH]; intros status Hs; [done|].
  cbn in Hc. destruct Hs as [|d status Hd Hs]; [done|]. cbn. specialize (IH _ Hs). destruct d; cbn in Hd; lia.
Qed.

Lemma selected_exposure costs rs status :
  Forall cost_ok costs -> Forall units_ok status -> length status = length costs ->
  0 <= total e_cost (selected costs rs) <= exposure costs status.
Proof.
  intros Hcs. revert rs status. induction Hcs as [|c costs [[_ [Hc _]] _] Hcs IH];
    intros rs status Hs Hl; [destruct rs; done|]. cbn in Hc.
  destruct Hs as [|d status Hd Hs]; [done|]. cbn in Hl. destruct rs as [|r rs]; cbn.
  - pose proof (exposure_nonneg _ _ Hcs Hs). destruct d; cbn in *; lia.
  - specialize (IH rs status Hs ltac:(lia)). destruct (is_ok r); cbn; fold (total e_cost (selected costs rs));
      destruct d; cbn in *; lia.
Qed.

Lemma selected_ok costs rs : Forall cost_ok costs -> Forall entry_ok (selected costs rs).
Proof.
  intros Hcs. revert rs. induction Hcs as [|c costs [Hc _] Hcs IH]; intros [|r rs]; cbn; try done.
  destruct (is_ok r); [|done]. by constructor.
Qed.

Lemma update_costs_tracks costs : forall rs status t held,
  tracks (selected costs rs ++ held) t -> Forall entry_ok held -> Forall cost_ok costs ->
  Forall units_ok status -> length rs = length costs -> length status = length costs ->
  total e_cost held + exposure costs status <= U64_MAX ->
  tracks (settled costs rs status ++ held) (update_transaction_costs t costs rs status).
Proof.
  induction costs as [|c costs IH]; intros rs status t held Ht Hh Hcs Hs Hlr Hls Hmax.
  { destruct rs, status; done. }
  destruct rs as [|r rs]; [done|]. destruct status as [|d status]; [done|].
  apply Forall_cons in Hcs as [[Hc Hbpf] Hcs]. apply Forall_cons in Hs as [Hd Hs]. cbn in *.
  pose proof (selected_exposure costs rs status Hcs Hs ltac:(lia)) as Hsel.
  pose proof (selected_ok costs rs Hcs) as Hsok. pose proof Hc as (Hnd & Hc0 & Hs0). cbn in Hnd, Hc0, Hs0.
  destruct (is_ok r); cbn.
  2:{ apply IH; try done; [lia|lia|]. destruct d; cbn in *; lia. }
  destruct d as [units|]; cbn in Hd.
  - eapply tracks_perm; [symmetry; apply Permutation_middle|]. apply IH; try done; [| |lia|lia|].
    + eapply tracks_perm; [apply Permutation_middle|].
      apply update_execution_cost_tracks; try done.
      * by apply Forall_app.
      * rewrite total_app. lia.
    + constructor; [|done]. split_and!; cbn; [done|lia|done].
    + rewrite total_cons. cbn. lia.
  - apply IH; try done; [|lia|lia|lia]. apply remove_transaction_cost_tracks; try done. by apply Forall_app.
Qed.

Lemma remove_costs_tracks costs : forall rs t held,
  tracks (selected costs rs ++ held) t -> Forall entry_ok held -> Forall cost_ok costs ->
  tracks held (remove_transaction_costs t costs rs).
Proof.
  induction costs as [|c costs IH]; intros rs t held Ht Hh Hcs; [by destruct rs|].
  destruct rs as [|r rs]; [done|]. apply Forall_cons in Hcs as [[Hc Hbpf] Hcs]. cbn in *.
  destruct (is_ok r); apply IH; try done. apply remove_transaction_cost_tracks; try done.
  apply Forall_app. split; [by apply selected_ok|done].
Qed.

Lemma update_same_limits costs rs status : forall t, same_limits t (update_transaction_costs t costs rs status).
Proof.
  revert rs status. induction costs as [|c costs IH]; intros [|r rs] [|d status] t; cbn; try done.
  eapply same_limits_trans; [|apply IH]. destruct (is_ok r); [|done]. destruct d; [|done].
  unfold update_execution_cost. by case_match.
Qed.

Lemma remove_same_limits costs rs : forall t, same_limits t (remove_transaction_costs t costs rs).
Proof.
  revert rs. induction costs as [|c costs IH]; intros [|r rs] t; cbn; try done.
  eapply same_limits_trans; [|apply IH]. by destruct (is_ok r).
Qed.

(** ** Lemmas: equivalent trackers *)

#[global] Instance cost_tracker_equivalence : Equivalence (≡@{CostTracker}).
Proof.
  split.
  - intros t. by split_and!.
  - intros t t' (? & ? & ? & ? & ? & ? & ? & ? & ?). by split_and!.
  - intros t1 t2 t3 (? & ? & ? & Hk1 & ? & ? & ? & ? & ?)
      (? & ? & ? & Hk2 & ? & ? & ? & ? & ?).
    split_and!; congruence.
Qed.

Lemma tracks_equiv held t t' : tracks held t -> tracks held t' -> same_limits t t' -> t' ≡ t.
Proof.
  intros [] [] (? & ? & ? & ?). split_and!; try congruence.
Qed.

(** The check does not tell an absent account from one with cost 0. *)
#[global] Instance would_fit_proper : Proper ((≡) ==> (=) ==> (=)) would_fit.
Proof.
  intros t t' (Ha & Hb & Hv & Hk & Hbc & Hvc & _ & Hs & Hsl) c ? <-.
  unfold would_fit, would_fit_internal. rewrite Ha, Hb, Hv, Hbc, Hvc, Hs, Hsl.
  destruct (_ <? _); [done|]. destruct (_ <? _); [done|].
  destruct (Z.ltb_spec (account_cost_limit t') (sum c)) as [|Hc]; [done|].
  destruct (match account_data_size_limit t' with Some _ => _ | None => _ end); [done|].
  destruct (_ <? _); [done|].
  assert (forall k, account_fits t (sum c) k = account_fits t' (sum c) k) as Hf.
  { intros k. specialize (Hk k). unfold account_cost in Hk. unfold account_fits. rewrite Ha.
    destruct (cost_by_writable_accounts t !! k) as [x|], (cost_by_writable_accounts t' !! k) as [y|];
      cbn in Hk; subst; try done; [|symmetry]; apply Z.leb_le; unfold sat_add64; lia. }
  assert (forallb (account_fits t (sum c)) (writable_accounts c)
          = forallb (account_fits t' (sum c)) (writable_accounts c)) as ->; [|done].
  induction (writable_accounts c) as [|k ks IH]; cbn; [done|]. by rewrite Hf, IH.
Qed.

Lemma fold_adjust_equiv f ks : forall m m' : gmap N Z,
  (forall k, default 0 (m !! k) = default 0 (m' !! k)) ->
  forall k, default 0 (fold_left (adjust_account f) ks m !! k)
            = default 0 (fold_left (adjust_account f) ks m' !! k).
Proof.
  induction ks as [|x ks IH]; intros m m' Hm k; cbn [fold_left]; [done|]. apply IH. intros k'.
  unfold adjust_account. destruct (decide (k' = x)) as [->|].
  - rewrite !lookup_insert_eq. cbn. by rewrite Hm.
  - by rewrite !lookup_insert_ne.
Qed.

#[global] Instance add_transaction_cost_proper : Proper ((≡) ==> (=) ==> (≡)) add_transaction_cost.
Proof.
  intros t t' (Ha & Hb & Hv & Hk & Hbc & Hvc & Hc & Hs & Hsl) c ? <-.
  split_and!; cbn; rewrite ?Hbc, ?Hvc, ?Hc, ?Hs; try done.
  intros k. unfold account_cost. cbn. by apply fold_adjust_equiv.
Qed.

Lemma try_add_equiv t t' c : t ≡ t' -> (try_add t c).1 = (try_add t' c).1 /\ (try_add t c).2 ≡ (try_add t' c).2.
Proof.
  intros Ht. unfold try_add. rewrite Ht. destruct (would_fit t' c); cbn; [|done]. split; [|by rewrite Ht].
  f_equal. by destruct Ht as (_ & _ & _ & _ & -> & _).
Qed.

(** Equivalent trackers select the same transactions. *)
Lemma select_equiv costs : forall t t',
  t ≡ t' ->
  (select_transactions_per_cost t costs).1 = (select_transactions_per_cost t' costs).1
  /\ (select_transactions_per_cost t costs).2 ≡ (select_transactions_per_cost t' costs).2.
Proof.
  induction costs as [|c costs IH]; intros t t' Ht; cbn; [done|].
  destruct (try_add_equiv t t' c Ht) as [H1 H2].
  destruct (try_add t c) as [r1 t1], (try_add t' c) as [r2 t2]. cbn in H1, H2. subst r2.
  destruct (IH t1 t2 H2) as [H3 H4].
  destruct (select_transactions_per_cost t1 costs) as [[rs n] u],
    (select_transactions_per_cost t2 costs) as [[rs' n'] u']. cbn in H3, H4. simplify_eq.
  by destruct r1.
Qed.

(** ** A concrete block *)

Module Sample.

Definition cost (accounts : list Pubkey) (bpf : Z) : TransactionCost :=
  {| writable_accounts := accounts; signature_cost := 720; write_lock_cost := 600;
     data_bytes_cost := 2; builtins_execution_cost := 150; bpf_execution_cost := bpf;
     tc_account_data_size := 10; is_simple_vote := false |}.

Definition tracker : CostTracker := cost_tracker_new None.

Lemma tracks_nil : tracks [] tracker.
Proof. by constructor. Qed.

Lemma limits : limits_small tracker.
Proof. split_and!; vm_compute; (reflexivity || discriminate || exact I). Qed.

Lemma fits_nil : block_fits tracker [].
Proof.
  split; [| |intros k|constructor| |discriminate]; vm_compute; discriminate.
Qed.

Lemma cost_wf (a b : Pubkey) bpf : a <> b -> 0 <= bpf <= 100000 -> cost_ok (cost [a; b] bpf).
Proof.
  intros Hab Hb. split; [split_and!|]; cbn; unfold sum, cost; cbn; u_unfold; try lia.
  apply NoDup_cons. split; [by intros ?%list_elem_of_singleton|apply NoDup_singleton].
Qed.

End Sample.

(** ** Properties *)

(** C39: The tracker implements the limits of a block.  If its sums are those of
    the transactions it holds, and they keep the limits, then it accepts a
    transaction exactly when the block with it keeps every limit: the units
    of the block, of its votes and of each written account, and the account
    data of the block and in total.  If it accepts, it holds the transaction;
    if it refuses, it does not change. *)
Theorem try_add_refines (t : CostTracker) (held : list entry) (c : TransactionCost)
    (Ht : tracks held t) (Hl : limits_small t) (Hfit : block_fits t held)
    (Hh : Forall entry_ok held) (Hc : entry_ok (entry_of c))
    (Hlen : Z.of_nat (length held) < U64_MAX) :
  let '(r, t') := try_add t c in
  (is_ok r = true <-> block_fits t (entry_of c :: held))
  /\ (is_ok r = true -> r = Ok (block_cost t') /\ tracks (entry_of c :: held) t' /\ same_limits t t')
  /\ (is_ok r = false -> t' = t).
Proof.
  pose proof (try_add_spec t held c Ht Hl Hfit Hh Hc Hlen) as Hs.
  destruct (try_add t c) as [[b|e] t']; cbn.
  - destruct Hs as (-> & ? & ? & ?). by split_and!.
  - destruct Hs as (-> & ?). by split_and!.
Qed.

Lemma try_add_refines_witness :
  let '(r, t') := try_add Sample.tracker (Sample.cost [1%N; 2%N] 5000) in
  is_ok r = true /\ tracks [entry_of (Sample.cost [1%N; 2%N] 5000)] t'.
Proof.
  assert (entry_ok (entry_of (Sample.cost [1%N; 2%N] 5000))) as Hc.
  { apply (Sample.cost_wf 1%N 2%N 5000); [discriminate|lia]. }
  pose proof (try_add_refines Sample.tracker [] _ Sample.tracks_nil Sample.limits Sample.fits_nil
    (Forall_nil_2 _) Hc ltac:(vm_compute; reflexivity)) as Hr.
  assert (is_ok (try_add Sample.tracker (Sample.cost [1%N; 2%N] 5000)).1 = true) as Hok
    by (vm_compute; reflexivity).
  destruct (try_add _ _) as [r t']. cbn in Hok. destruct Hr as (_ & Hr & _). split; [exact Hok|].
  by apply Hr.
Defined.

(** Selecting a batch and settling it accounts for exactly what was
    committed.  The selected transactions together with those already held
    keep every limit of the block, the count is their number, and after
    settling with the execution results the tracker's sums are those of the
    transactions held before and of the committed ones at their actual units:
    a refused or uncommitted transaction leaves no trace. *)
Theorem qos_settles (t : CostTracker) (held : list entry) (costs : list TransactionCost)
    (status : list CommitTransactionDetails)
    (Ht : tracks held t) (Hl : limits_small t) (Hfit : block_fits t held)
    (Hh : Forall entry_ok held) (Hcs : Forall cost_ok costs) (Hs : Forall units_ok status)
    (Hlen : length status = length costs)
    (Hcount : Z.of_nat (length held + length costs) <= U64_MAX)
    (Hunits : total e_cost held + exposure costs status <= U64_MAX) :
  let '(rs, n, t1) := select_transactions_per_cost t costs in
  block_fits t (selected costs rs ++ held) /\ n = length (selected costs rs)
  /\ tracks (settled costs rs status ++ held)
       (update_or_remove_transaction_costs t1 costs rs (Some status)).
Proof.
  pose proof (select_spec costs t held Ht Hl Hfit Hh Hcs Hcount) as Hsel.
  destruct (select_transactions_per_cost t costs) as [[rs n] t1].
  destruct Hsel as (Hlr & Hn & Ht1 & Hfit1 & _). split_and!; [done|done|]. by apply update_costs_tracks.
Qed.

Lemma qos_settles_witness :
  let costs := [Sample.cost [1%N; 2%N] 5000; Sample.cost [1%N; 3%N] 7000] in
  let '(rs, n, t1) := select_transactions_per_cost Sample.tracker costs in
  n = 2%nat
  /\ tracks [entry_actual (Sample.cost [1%N; 2%N] 5000) 6000]
       (update_or_remove_transaction_costs t1 costs rs (Some [Committed 6000; NotCommitted])).
Proof.
  set (costs := [Sample.cost [1%N; 2%N] 5000; Sample.cost [1%N; 3%N] 7000]). cbn zeta.
  pose proof (qos_settles Sample.tracker [] costs [Committed 6000; NotCommitted] Sample.tracks_nil
    Sample.limits Sample.fits_nil (Forall_nil_2 _)) as Hq.
  assert ((select_transactions_per_cost Sample.tracker costs).1 = ([Ok tt; Ok tt], 2%nat)) as Hsel
    by (vm_compute; reflexivity).
  destruct (select_transactions_per_cost Sample.tracker costs) as [[rs n] t1]. cbn in Hsel.
  injection Hsel as -> ->. destruct Hq as (_ & _ & Hq).
  - constructor; [apply Sample.cost_wf; [discriminate|lia]|].
    constructor; [apply Sample.cost_wf; [discriminate|lia]|constructor].
  - constructor; [cbn; lia|]. constructor; [exact I|constructor].
  - reflexivity.
  - vm_compute. discriminate.
  - vm_compute. discriminate.
  - split; [reflexivity|]. exact Hq.
Defined.

(** A batch that is not recorded leaves the block as it was.  Selecting a
    batch and then removing its costs gives a tracker that cannot be told
    from the one before: same sums, same limits, and every later batch is
    selected the same way. *)
Theorem qos_discard_restores (t : CostTracker) (held : list entry) (costs : list TransactionCost)
    (Ht : tracks held t) (Hl : limits_small t) (Hfit : block_fits t held)
    (Hh : Forall entry_ok held) (Hcs : Forall cost_ok costs)
    (Hcount : Z.of_nat (length held + length costs) <= U64_MAX) :
  let '(rs, n, t1) := select_transactions_per_cost t costs in
  let t2 := update_or_remove_transaction_costs t1 costs rs None in
  t2 ≡ t
  /\ forall later, (select_transactions_per_cost t2 later).1 = (select_transactions_per_cost t later).1.
Proof.
  pose proof (select_spec costs t held Ht Hl Hfit Hh Hcs Hcount) as Hsel.
  destruct (select_transactions_per_cost t costs) as [[rs n] t1].
  destruct Hsel as (Hlr & _ & Ht1 & _ & Hlim).
  assert (remove_transaction_costs t1 costs rs ≡ t) as Heq.
  { eapply tracks_equiv; [exact Ht|by apply remove_costs_tracks|].
    eapply same_limits_trans; [exact Hlim|apply remove_same_limits]. }
  split; [exact Heq|]. intros later. by apply select_equiv.
Qed.

Lemma qos_discard_restores_witness :
  let costs := [Sample.cost [1%N; 2%N] 5000; Sample.cost [1%N; 3%N] 7000] in
  let '(rs, n, t1) := select_transactions_per_cost Sample.tracker costs in
  update_or_remove_transaction_costs t1 costs rs None ≡ Sample.tracker.
Proof.
  set (costs := [Sample.cost [1%N; 2%N] 5000; Sample.cost [1%N; 3%N] 7000]). cbn zeta.
  pose proof (qos_discard_restores Sample.tracker [] costs Sample.tracks_nil
    Sample.limits Sample.fits_nil (Forall_nil_2 _)) as Hq.
  destruct (select_transactions_per_cost Sample.tracker costs) as [[rs n] t1].
  apply Hq.
  - constructor; [apply Sample.cost_wf; [discriminate|lia]|].
    constructor; [apply Sample.cost_wf; [discriminate|lia]|constructor].
  - vm_compute. discriminate.
Defined.
