(* ===== verification/BankingStage.v ===== *)
(** * The banking stage

    Models the path of core/src/banking_stage.rs that turns transactions into
    a block: [process_transactions] takes them in chunks, has each chunk
    selected by cost, locked, executed, recorded and committed, and does the
    same with the arbitrage transaction that executing the chunk found.

    The stage of one thread is a record: the bank, its lock table and cost
    tracker, the recorder and the log of the MEV code.  Packet buffers, vote
    and status senders, balances for clients, metrics and the freeze lock are
    left out; whether the time of the slot is up is an argument. *)

From S2P Require Import Prelude Keys Message Errors InstructionsSysvar Transaction AccountLocks Float64 ComputeBudget Account Invocation Nonce SystemProgram EpochSchedule RentCollector BlockhashQueue StatusCache PreAccount Runtime Arbitrage Mev AccountsLoad Bank Merkle Poh PohRecorder CostModel CostTracker.

(** ** The recorder as the banking stage sees it *)

(** [TransactionRecorder]: a request to record transactions in a slot, and
    what the ledger holds: the transactions of each recorded entry with its
    slot. *)
Class TransactionRecorder (R : Type) := {
  tr_record : R -> Slot -> Hash -> list VersionedTransaction -> outcome (R * result PohRecorderError unit);
  tr_ledger : R -> list (Slot * list VersionedTransaction);
}.

(** What it promises in its states [tr_ok]: a request is answered; [Ok] means that the transactions
    are the next entry of the ledger, an error that the slot is over and that
    nothing was recorded. *)
Class TransactionRecorderLaws (R : Type) `{Sha256} `{TransactionRecorder R} (tr_ok : R -> Prop) : Prop := {
  tr_record_spec (r : R) slot mixin transactions :
    tr_ok r -> transactions <> [] -> hash_transactions transactions = Returns mixin ->
    exists r' res, tr_record r slot mixin transactions = Returns (r', res) /\ tr_ok r'
      /\ match res with
         | Ok _ => tr_ledger r' = tr_ledger r ++ [(slot, transactions)]
         | Err e => e = MaxHeightReached /\ tr_ledger r' = tr_ledger r
         end;
}.

(** ** Data *)

Inductive TransactionBatchType := Normal | MevBatch.

Record RecordTransactionsSummary := {
  rts_result : result PohRecorderError nat;
  rts_retryable_indexes : list nat;
}.

Record ExecuteAndCommitTransactionsOutput := {
  eco_transactions_attempted_execution_count : nat;
  eco_executed_transactions_count : nat;
  eco_executed_with_successful_result_count : nat;
  eco_retryable_transaction_indexes : list nat;
  eco_commit_transactions_result : result PohRecorderError (list CommitTransactionDetails);
  eco_mev_sanitized_tx_profit : option (SanitizedTransaction * Z);
}.

Record ProcessTransactionBatchOutput := {
  ptb_cost_model_throttled_transactions_count : nat;
  ptb_output : ExecuteAndCommitTransactionsOutput;
}.

Record ProcessTransactionsSummary := {
  pts_reached_max_poh_height : bool;
  pts_transactions_attempted_execution_count : nat;
  pts_committed_transactions_count : nat;
  pts_committed_transactions_with_successful_result_count : nat;
  pts_failed_commit_count : nat;
  pts_retryable_transaction_indexes : list nat;
  pts_cost_model_throttled_transactions_count : nat;
}.

Definition MAX_NUM_TRANSACTIONS_PER_BATCH : nat := 64.
Definition MAX_PROCESSING_AGE : nat := 150.
Definition MAX_TX_ACCOUNT_LOCKS : nat := 128.

Section BankingStage.
Context `{AccountsDb} `{Bincode UpgradeableLoaderState} `{BudgetCodec} `{Bincode NonceVersions}.
Context `{OnChain} `{Signing} `{SystemCodec} `{NonceHash} `{Sha256}.
Context {R : Type} {recorder_ops : TransactionRecorder R}.
Variable builtin_programs : list BuiltinProgram.
Variable native_loader : Entrypoint.
Variable random_index : Hash -> nat.
Variable cost_model : CostModel.

Record Stage := {
  sg_bank : Bank;
  sg_locks : AccountLocks;
  sg_cost_tracker : CostTracker;
  sg_recorder : R;
  sg_mev_log : list MevMsg;
  (** for the specification only: the transactions that were committed *)
  sg_committed : list SanitizedTransaction;
}.

(** ** One batch *)

(** Whether the result of a transaction goes into the block. *)
Definition to_record (transaction_batch_type : TransactionBatchType) (r : TransactionExecutionResult) : bool :=
  if was_executed r then
    match transaction_batch_type with
    | MevBatch => was_executed_successfully r
    | Normal => true
    end
  else false.

(** The transactions to record with their indexes, from index [i] on. *)
Fixpoint processed_transactions (transaction_batch_type : TransactionBatchType) (i : nat)
    (execution_results : list TransactionExecutionResult) (txs : list SanitizedTransaction)
    : list (VersionedTransaction * nat) :=
  match execution_results, txs with
  | r :: execution_results, tx :: txs =>
      let rest := processed_transactions transaction_batch_type (S i) execution_results txs in
      if to_record transaction_batch_type r then (to_versioned_transaction tx, i) :: rest else rest
  | _, _ => []
  end.

Definition record_transactions (bank_slot : Slot) (txs : list SanitizedTransaction)
    (transaction_batch_type : TransactionBatchType) (execution_results : list TransactionExecutionResult)
    (recorder : R) : outcome (R * RecordTransactionsSummary) :=
  let processed := processed_transactions transaction_batch_type 0 execution_results txs in
  let num_to_commit := length processed in
  match processed with
  | [] => Returns (recorder, {| rts_result := Ok num_to_commit; rts_retryable_indexes := [] |})
  | _ =>
      hash ← hash_transactions (map fst processed);
      '(recorder, res) ← tr_record recorder bank_slot hash (map fst processed);
      match res with
      | Ok _ => Returns (recorder, {| rts_result := Ok num_to_commit; rts_retryable_indexes := [] |})
      | Err MaxHeightReached =>
          Returns (recorder, {| rts_result := Err MaxHeightReached; rts_retryable_indexes := map snd processed |})
      | Err _ => Panics
      end
  end.

Definition commit_details (r : TransactionExecutionResult) : CommitTransactionDetails :=
  match r with
  | Executed details => Committed (ted_executed_units details)
  | NotExecuted _ => NotCommitted
  end.

(** The statuses after those of [indexes] were set to [NotCommitted]. *)
Fixpoint mark_not_committed (status : list CommitTransactionDetails) (indexes : list nat)
    : outcome (list CommitTransactionDetails) :=
  match indexes with
  | [] => Returns status
  | i :: rest => status ← vec_set status i NotCommitted; mark_not_committed status rest
  end.

Definition set_bank_committed (st : Stage) (bank : Bank) (committed : list SanitizedTransaction) : Stage :=
  {| sg_bank := bank; sg_locks := sg_locks st; sg_cost_tracker := sg_cost_tracker st;
     sg_recorder := sg_recorder st; sg_mev_log := sg_mev_log st;
     sg_committed := sg_committed st ++ committed |}.

Definition set_recorder_log (st : Stage) (recorder : R) (msgs : list MevMsg) : Stage :=
  {| sg_bank := sg_bank st; sg_locks := sg_locks st; sg_cost_tracker := sg_cost_tracker st;
     sg_recorder := recorder; sg_mev_log := sg_mev_log st ++ msgs; sg_committed := sg_committed st |}.

Definition set_locks (st : Stage) (locks : AccountLocks) : Stage :=
  {| sg_bank := sg_bank st; sg_locks := locks; sg_cost_tracker := sg_cost_tracker st;
     sg_recorder := sg_recorder st; sg_mev_log := sg_mev_log st; sg_committed := sg_committed st |}.

Definition set_tracker (st : Stage) (tracker : CostTracker) : Stage :=
  {| sg_bank := sg_bank st; sg_locks := sg_locks st; sg_cost_tracker := tracker;
     sg_recorder := sg_recorder st; sg_mev_log := sg_mev_log st; sg_committed := sg_committed st |}.

(** The transactions that [commit_transactions] commits. *)
Definition committed_of (txs : list SanitizedTransaction) (results : list TransactionExecutionResult)
    : list SanitizedTransaction :=
  omap (fun '(tx, r) => if was_executed r then Some tx else None) (zip txs results).

Definition execute_and_commit_transactions_locked (st : Stage) (txs : list SanitizedTransaction)
    (lock_results : list (result TransactionError unit)) (transaction_batch_type : TransactionBatchType)
    (mev : option Mev) : outcome (Stage * ExecuteAndCommitTransactionsOutput) :=
  let bank := sg_bank st in
  '(out, msgs) ← load_and_execute_transactions builtin_programs native_loader bank txs lock_results
                   MAX_PROCESSING_AGE (fun _ => None) mev;
  let execution_results := lo_execution_results out in
  let status := map commit_details execution_results in
  '(last_blockhash, lamports_per_signature) ← last_blockhash_and_lamports_per_signature bank;
  '(recorder, summary) ← record_transactions (b_slot bank) txs transaction_batch_type execution_results
                           (sg_recorder st);
  let st := set_recorder_log st recorder msgs in
  status ← mark_not_committed status (rts_retryable_indexes summary);
  let retryable := lo_retryable_transaction_indexes out ++ rts_retryable_indexes summary in
  let output result :=
    {| eco_transactions_attempted_execution_count := length execution_results;
       eco_executed_transactions_count := lo_executed_transactions_count out;
       eco_executed_with_successful_result_count := lo_executed_with_successful_result_count out;
       eco_retryable_transaction_indexes := retryable;
       eco_commit_transactions_result := result;
       eco_mev_sanitized_tx_profit := lo_mev_sanitized_tx_profit out |} in
  match rts_result summary with
  | Err e => Returns (st, output (Err e))
  | Ok committed_transaction_count =>
      if (committed_transaction_count =? 0)%nat then Returns (st, output (Ok status))
      else
        '(bank, _) ← commit_transactions random_index bank txs (lo_loaded_transactions out) execution_results
                       last_blockhash lamports_per_signature
                       {| committed_transactions_count := Z.of_nat (lo_executed_transactions_count out);
                          committed_with_failure_result_count :=
                            Z.of_nat (lo_executed_transactions_count out - lo_executed_with_successful_result_count out);
                          ctc_signature_count := lo_signature_count out |};
        Returns (set_bank_committed st bank (committed_of txs execution_results), output (Ok status))
  end.

(** [Bank::get_transaction_account_lock_limit]. *)
Definition get_transaction_account_lock_limit (b : Bank) : nat :=
  if active b increase_tx_account_lock_limit then MAX_TX_ACCOUNT_LOCKS else 64.

(** [QosService::compute_transaction_costs]. *)
Definition compute_transaction_costs (txs : list SanitizedTransaction) : outcome (list TransactionCost) :=
  map_outcome (calculate_cost cost_model) txs.

Definition process_and_record_transactions (st : Stage) (txs : list SanitizedTransaction)
    (chunk_offset : nat) (transaction_batch_type : TransactionBatchType) (mev : option Mev)
    : outcome (Stage * ProcessTransactionBatchOutput) :=
  transaction_costs ← compute_transaction_costs txs;
  let '(transactions_qos_results, num_included, tracker) :=
    select_transactions_per_cost (sg_cost_tracker st) transaction_costs in
  let st := set_tracker st tracker in
  '(lock_results, locks) ← lock_accounts_with_results (sg_locks st) txs transactions_qos_results
                             (get_transaction_account_lock_limit (sg_bank st));
  '(st, out) ← execute_and_commit_transactions_locked (set_locks st locks) txs lock_results
                 transaction_batch_type mev;
  locks ← unlock_accounts (sg_locks st) txs lock_results;
  let st := set_locks st locks in
  let tracker := update_or_remove_transaction_costs (sg_cost_tracker st) transaction_costs
                   transactions_qos_results (result_ok (eco_commit_transactions_result out)) in
  Returns (set_tracker st tracker,
    {| ptb_cost_model_throttled_transactions_count := length txs - num_included;
       ptb_output :=
         {| eco_transactions_attempted_execution_count := eco_transactions_attempted_execution_count out;
            eco_executed_transactions_count := eco_executed_transactions_count out;
            eco_executed_with_successful_result_count := eco_executed_with_successful_result_count out;
            eco_retryable_transaction_indexes :=
              map (fun i => (i + chunk_offset)%nat) (eco_retryable_transaction_indexes out);
            eco_commit_transactions_result := eco_commit_transactions_result out;
            eco_mev_sanitized_tx_profit := eco_mev_sanitized_tx_profit out |} |}).

(** ** All transactions *)

(** The arbitrage transaction of a chunk, in a batch of its own. *)
Definition process_mev_transaction (st : Stage) (chunk_start : nat) (mev : option Mev)
    (mev_sanitized_tx_profit : option (SanitizedTransaction * Z)) : outcome Stage :=
  match mev_sanitized_tx_profit with
  | None => Returns st
  | Some (mev_sanitized_tx, profit) =>
      transaction_signature ← tx_signature mev_sanitized_tx;
      '(st, out) ← process_and_record_transactions st [mev_sanitized_tx] chunk_start MevBatch mev;
      _ ← unwrap mev;
      Returns (set_recorder_log st (sg_recorder st)
        [ExecutedTransaction
           {| eto_transaction_hash := st_message_hash mev_sanitized_tx;
              eto_transaction_signature := transaction_signature;
              is_successful := (eco_executed_with_successful_result_count (ptb_output out) =? 1)%nat;
              possible_profit := profit |}])
  end.

Definition summary_init : ProcessTransactionsSummary :=
  {| pts_reached_max_poh_height := false; pts_transactions_attempted_execution_count := 0;
     pts_committed_transactions_count := 0; pts_committed_transactions_with_successful_result_count := 0;
     pts_failed_commit_count := 0; pts_retryable_transaction_indexes := [];
     pts_cost_model_throttled_transactions_count := 0 |}.

(** The totals after a chunk. *)
Definition add_chunk (s : ProcessTransactionsSummary) (out : ProcessTransactionBatchOutput)
    : ProcessTransactionsSummary :=
  let eco := ptb_output out in
  let ok := is_ok (eco_commit_transactions_result eco) in
  {| pts_reached_max_poh_height := pts_reached_max_poh_height s;
     pts_transactions_attempted_execution_count :=
       pts_transactions_attempted_execution_count s + eco_transactions_attempted_execution_count eco;
     pts_committed_transactions_count :=
       pts_committed_transactions_count s + (if ok then eco_executed_transactions_count eco else 0);
     pts_committed_transactions_with_successful_result_count :=
       pts_committed_transactions_with_successful_result_count s
       + (if ok then eco_executed_with_successful_result_count eco else 0);
     pts_failed_commit_count :=
       pts_failed_commit_count s + (if ok then 0 else eco_executed_transactions_count eco);
     pts_retryable_transaction_indexes :=
       pts_retryable_transaction_indexes s ++ eco_retryable_transaction_indexes eco;
     pts_cost_model_throttled_transactions_count :=
       pts_cost_model_throttled_transactions_count s + ptb_cost_model_throttled_transactions_count out |}.

Definition reached_max (s : ProcessTransactionsSummary) (from len : nat) : ProcessTransactionsSummary :=
  {| pts_reached_max_poh_height := true;
     pts_transactions_attempted_execution_count := pts_transactions_attempted_execution_count s;
     pts_committed_transactions_count := pts_committed_transactions_count s;
     pts_committed_transactions_with_successful_result_count :=
       pts_committed_transactions_with_successful_result_count s;
     pts_failed_commit_count := pts_failed_commit_count s;
     pts_retryable_transaction_indexes :=
       pts_retryable_transaction_indexes s ++ seq from (len - from);
     pts_cost_model_throttled_transactions_count := pts_cost_model_throttled_transactions_count s |}.

(** The [while] loop over the chunks, the first of which starts at
    [chunk_start]; [still_processing] is the clock's answer after a chunk. *)
Fixpoint process_chunks (st : Stage) (chunk_start len : nat) (chunks : list (list SanitizedTransaction))
    (still_processing : nat -> bool) (mev : option Mev) (summary : ProcessTransactionsSummary)
    : outcome (Stage * ProcessTransactionsSummary) :=
  match chunks with
  | [] => Returns (st, summary)
  | chunk :: rest =>
      let chunk_end := (chunk_start + length chunk)%nat in
      '(st, out) ← process_and_record_transactions st chunk chunk_start Normal mev;
      st ← process_mev_transaction st chunk_start mev (eco_mev_sanitized_tx_profit (ptb_output out));
      let summary := add_chunk summary out in
      match eco_commit_transactions_result (ptb_output out), still_processing chunk_start with
      | Err MaxHeightReached, _ | _, false => Returns (st, reached_max summary chunk_end len)
      | _, _ => process_chunks st chunk_end len rest still_processing mev summary
      end
  end.

Definition process_transactions (st : Stage) (transactions : list SanitizedTransaction)
    (still_processing : nat -> bool) (mev : option Mev) : outcome (Stage * ProcessTransactionsSummary) :=
  process_chunks st 0 (length transactions)
    (chunks (length transactions) MAX_NUM_TRANSACTIONS_PER_BATCH transactions)
    still_processing mev summary_init.

End BankingStage.
