(* ===== verification/BankingStageSafety.v ===== *)
(** * The block and the bank agree

    Theorems about BankingStage.v.  Each step of the banking stage is a step of
    the system of BankSystem.v, so what was proved of interleaved batches
    holds of it; and the transactions in the entries that it records are
    exactly the transactions that it commits, in the same order.  The recorder
    of PohRecorder.v keeps the promises that the stage relies on. *)

From S2P Require Import Prelude Keys Message Errors InstructionsSysvar Transaction AccountLocks Float64 ComputeBudget Account Invocation Nonce SystemProgram EpochSchedule RentCollector BlockhashQueue StatusCache PreAccount Runtime RuntimeSafety Arbitrage Mev AccountsLoad AccountsLoadSafety Bank BankSample BankSafety MevCandidate BankSystem Merkle Poh PohChain PohRecorder PohRecorderSafety CostModel CostTracker BankingStage.

(** ** Lemmas: what is recorded *)

(** The transactions of a batch that go into the block. *)
Definition recorded_of (type : TransactionBatchType) (txs : list SanitizedTransaction)
    (results : list TransactionExecutionResult) : list SanitizedTransaction :=
  omap (fun '(tx, r) => if to_record type r then Some tx else None) (zip txs results).

Lemma processed_fst type : forall results txs i,
  map fst (processed_transactions type i results txs) = map to_versioned_transaction (recorded_of type txs results).
Proof.
  unfold recorded_of. induction results as [|r results IH]; intros [|tx txs] i; cbn; try done.
  destruct (to_record type r); cbn; by rewrite IH.
Qed.

Lemma processed_length type results txs i :
  length (processed_transactions type i results txs) = length (recorded_of type txs results).
Proof. by rewrite <- (length_map fst), processed_fst, length_map. Qed.

Lemma recorded_normal txs results : recorded_of Normal txs results = committed_of txs results.
Proof.
  unfold recorded_of, committed_of. revert results. induction txs as [|tx txs IH]; intros [|r results]; cbn; try done.
  rewrite IH. unfold to_record. by destruct (was_executed r).
Qed.

(** A batch of one transaction is recorded as a whole or not at all. *)
Lemma recorded_one type txs results : (type = MevBatch -> (length txs <= 1)%nat) ->
  recorded_of type txs results <> [] -> recorded_of type txs results = committed_of txs results.
Proof.
  intros Hone Hne. destruct type; [apply recorded_normal|]. specialize (Hone eq_refl).
  destruct txs as [|tx [|]]; [by destruct results| |cbn in Hone; lia]. destruct results as [|r results]; [done|].
  unfold recorded_of, committed_of in *. cbn in *. unfold to_record in *.
  destruct (was_executed r); [|done]. by destruct (was_executed_successfully r).
Qed.

Section Stage.
Context `{AccountsDb} `{Bincode UpgradeableLoaderState} `{BudgetCodec} `{Bincode NonceVersions}.
Context `{OnChain} `{Signing} `{SystemCodec} `{NonceHash} `{Sha256}.
Context {R : Type} `{TransactionRecorder R} {tr_ok : R -> Prop} {Hrecorder : TransactionRecorderLaws R tr_ok}.
Variable builtin_programs : list BuiltinProgram.
Variable native_loader : Entrypoint.
Variable random_index : Hash -> nat.
Variable cost_model : CostModel.

(** What recording a batch does to the ledger. *)
Lemma record_transactions_spec slot txs type results (r r' : R) summary :
  tr_ok r -> record_transactions slot txs type results r = Returns (r', summary) ->
  tr_ok r' /\ match rts_result summary with
    | Ok n => n = length (recorded_of type txs results)
        /\ tr_ledger r' = tr_ledger r
             ++ match recorded_of type txs results with
                | [] => [] | l => [(slot, map to_versioned_transaction l)]
                end
    | Err _ => tr_ledger r' = tr_ledger r
    end.
Proof.
  intros Hok Hr. unfold record_transactions in Hr. pose proof (processed_fst type results txs 0) as Hfst.
  pose proof (processed_length type results txs 0) as Hlen.
  destruct (processed_transactions type 0 results txs) as [|p ps] eqn:Hp.
  { injection Hr as <- <-. cbn. split; [done|]. rewrite <- Hlen.
    destruct (recorded_of type txs results); [|done]. by rewrite app_nil_r. }
  apply outcome_bind_Returns in Hr as (mixin & Hm & Hr). apply outcome_bind_Returns in Hr as ([r1 res] & Hrec & Hr).
  destruct (tr_record_spec r slot mixin (map fst (p :: ps)) Hok) as (r2 & res2 & Hrec2 & Hok2 & Hres); [done|done|].
  rewrite Hrec in Hrec2. injection Hrec2 as <- <-. destruct res as [[]|e].
  - injection Hr as <- <-. cbn [rts_result]. split; [done|]. split; [done|]. rewrite Hres, Hfst.
    destruct (recorded_of type txs results); [done|]. done.
  - destruct Hres as [-> Hled]. injection Hr as <- <-. done.
Qed.

(** The transactions in entries. *)
Definition block_txs (block : list (Slot * list VersionedTransaction)) : list VersionedTransaction :=
  concat (map snd block).

(** What a run of the stage adds: entries of the bank's slot, and exactly
    their transactions to the bank. *)
Definition block_added (slot : Slot) (st st' : Stage (R := R)) : Prop :=
  exists block cs, tr_ledger (sg_recorder st') = tr_ledger (sg_recorder st) ++ block
    /\ sg_committed st' = sg_committed st ++ cs
    /\ block_txs block = map to_versioned_transaction cs
    /\ Forall (fun e => e.1 = slot /\ e.2 <> []) block.

Lemma block_added_refl slot st : block_added slot st st.
Proof. exists [], []. by rewrite !app_nil_r. Qed.

Lemma block_added_trans slot st1 st2 st3 :
  block_added slot st1 st2 -> block_added slot st2 st3 -> block_added slot st1 st3.
Proof.
  intros (b1 & c1 & L1 & C1 & E1 & S1) (b2 & c2 & L2 & C2 & E2 & S2). exists (b1 ++ b2), (c1 ++ c2).
  rewrite L2, L1, C2, C1, !app_assoc. split_and!; try done; [|by apply Forall_app].
  unfold block_txs in *. by rewrite !map_app, concat_app, E1, E2.
Qed.

(** ** Lemmas: one batch *)

Lemma commit_bank_update b txs loaded results last lps counts b' rs :
  commit_transactions random_index b txs loaded results last lps counts = Returns (b', rs) ->
  exists db sc c, b' = bank_update b db sc c.
Proof.
  unfold commit_transactions. intros Hc. apply outcome_bind_Returns in Hc as (_ & _ & Hc).
  apply outcome_bind_Returns in Hc as ([db loaded'] & _ & Hc). apply outcome_bind_Returns in Hc as (sc & _ & Hc).
  apply outcome_bind_Returns in Hc as ([[db' fees] results'] & _ & Hc). apply Returns_inj in Hc. injection Hc as <- _. eauto.
Qed.

Abbreviation execute := (execute_and_commit_transactions_locked builtin_programs native_loader random_index).

(** What executing a locked batch did: the batch was executed; it was
    committed, or the bank is as it was. *)
Lemma execute_commit_spec st txs locks type mev st' out :
  tr_ok (sg_recorder st) -> (type = MevBatch -> (length txs <= 1)%nat) ->
  execute st txs locks type mev = Returns (st', out) ->
  tr_ok (sg_recorder st') /\ block_added (b_slot (sg_bank st)) st st'
  /\ sg_locks st' = sg_locks st /\ sg_cost_tracker st' = sg_cost_tracker st
  /\ exists lo msgs, load_and_execute_transactions builtin_programs native_loader (sg_bank st) txs locks
         MAX_PROCESSING_AGE no_overrides mev = Returns (lo, msgs)
     /\ eco_mev_sanitized_tx_profit out = lo_mev_sanitized_tx_profit lo
     /\ ((sg_bank st' = sg_bank st /\ sg_committed st' = sg_committed st)
         \/ exists last lps counts rs, commit_transactions random_index (sg_bank st) txs (lo_loaded_transactions lo)
              (lo_execution_results lo) last lps counts = Returns (sg_bank st', rs)
            /\ sg_committed st' = sg_committed st ++ executed_txs txs (lo_execution_results lo)).
Proof.
  intros Hok Hone He. unfold execute_and_commit_transactions_locked in He.
  apply outcome_bind_Returns in He as ([lo msgs] & Hlo & He). apply outcome_bind_Returns in He as ([last lps] & _ & He).
  apply outcome_bind_Returns in He as ([rec summary] & Hrec & He). apply outcome_bind_Returns in He as (status & _ & He).
  apply (record_transactions_spec _ _ _ _ _ _ _ Hok) in Hrec as [Hok' Hres].
  destruct (rts_result summary) as [n|e].
  - destruct Hres as [-> Hled]. destruct (Nat.eqb_spec (length (recorded_of type txs (lo_execution_results lo))) 0) as [Hz|Hz].
    + injection He as <- <-. destruct (recorded_of type txs _); [|done]. cbn in Hled |- *. rewrite app_nil_r in Hled.
      split_and!; try done; [|by exists lo, msgs; split_and!; try left]. exists [], []. by rewrite !app_nil_r.
    + apply outcome_bind_Returns in He as ([b' rs] & Hcom & [= <- <-]).
      assert (recorded_of type txs (lo_execution_results lo) <> []) as Hne by (by intros E; rewrite E in Hz).
      pose proof (recorded_one _ _ _ Hone Hne) as Heq.
      split_and!; try done.
      * exists [(b_slot (sg_bank st), map to_versioned_transaction (recorded_of type txs (lo_execution_results lo)))],
          (committed_of txs (lo_execution_results lo)). cbn. rewrite Hled. rewrite app_nil_r, <- Heq.
        destruct (recorded_of type txs (lo_execution_results lo)); [done|]. split_and!; try done. by apply Forall_singleton.
      * exists lo, msgs. split_and!; try done. right. exists last, lps. eexists _, rs. by split.
  - injection He as <- <-. split_and!; try done; [|by exists lo, msgs; split_and!; try left].
    exists [], []. cbn. by rewrite !app_nil_r.
Qed.

(** ** The stage as a thread of the system *)

Variable universe : SanitizedTransaction -> Prop.
(** The batches that other threads hold meanwhile. *)
Variable others : list InFlight.
(** The bank at the start. *)
Variable b0 : Bank.
Abbreviation limit := (get_transaction_account_lock_limit b0).
Abbreviation step := (system_step builtin_programs native_loader random_index limit universe).

Definition abs (st : Stage (R := R)) : System :=
  {| sy_table := sg_locks st; sy_batches := others; sy_bank := sg_bank st; sy_committed := sg_committed st |}.

(** The bank is of the block of [b0]. *)
Definition same_block (b : Bank) : Prop := exists db sc c, b = bank_update b0 db sc c.

(** The locks of the other threads and of a batch can be counted. *)
Definition room : Prop :=
  Z.of_nat (length (concat (map (fun x => batch_locksets (fl_txs x) (fl_locks x)) others))
            + MAX_NUM_TRANSACTIONS_PER_BATCH) <= U64_MAX.

Lemma same_block_limit b : same_block b -> get_transaction_account_lock_limit b = limit.
Proof. by intros (db & sc & c & ->). Qed.

Lemma same_block_slot b : same_block b -> b_slot b = b_slot b0.
Proof. by intros (db & sc & c & ->). Qed.

Lemma same_block_commit b txs loaded results last lps counts b' rs :
  same_block b -> commit_transactions random_index b txs loaded results last lps counts = Returns (b', rs) ->
  same_block b'.
Proof.
  intros (db & sc & c & ->) (db' & sc' & c' & ->)%commit_bank_update. by exists db', sc', c'.
Qed.

(** The answers of the cost tracker can be handed to the lock service. *)
Lemma select_may_prepare : forall costs t rs n t',
  select_transactions_per_cost t costs = (rs, n, t') ->
  length rs = length costs /\ forallb may_prepare rs = true.
Proof.
  induction costs as [|c costs IH]; intros t rs n t' Hs; cbn in Hs; [by injection Hs as <- _ _|].
  destruct (try_add t c) as [[u|e] t1]; destruct (select_transactions_per_cost _ costs) as [[rs1 n1] t2] eqn:E;
    injection Hs as <- _ _; destruct (IH _ _ _ _ E) as [IH1 IH2]; cbn; rewrite IH1, IH2; split; try done.
  by destruct e.
Qed.

(** The state of the stage between two batches. *)
Record stage_ok (st : Stage (R := R)) : Prop := {
  sk_recorder : tr_ok (sg_recorder st);
  sk_block : same_block (sg_bank st);
}.

(** What a run of the stage does. *)
Definition stage_run (st st' : Stage) : Prop :=
  stage_ok st' /\ block_added (b_slot b0) st st' /\ rtc step (abs st) (abs st').

Lemma stage_run_refl st : stage_ok st -> stage_run st st.
Proof. intros Hok. split_and!; [done|apply block_added_refl|apply rtc_refl]. Qed.

Lemma stage_run_trans st1 st2 st3 : stage_run st1 st2 -> stage_run st2 st3 -> stage_run st1 st3.
Proof.
  intros (_ & B1 & S1) (H2' & B2 & S2). split_and!; [done|by eapply block_added_trans|by etrans].
Qed.

(** A batch is prepared, executed, committed if it was recorded, and dropped. *)
Lemma process_and_record_run st txs offset type mev st' out :
  room -> stage_ok st -> Forall universe txs -> (length txs <= MAX_NUM_TRANSACTIONS_PER_BATCH)%nat ->
  (type = MevBatch -> (length txs <= 1)%nat) ->
  process_and_record_transactions builtin_programs native_loader random_index cost_model st txs offset type mev
    = Returns (st', out) ->
  stage_run st st'
  /\ exists b locks lo msgs, same_block b
     /\ load_and_execute_transactions builtin_programs native_loader b txs locks MAX_PROCESSING_AGE no_overrides mev
        = Returns (lo, msgs)
     /\ eco_mev_sanitized_tx_profit (ptb_output out) = lo_mev_sanitized_tx_profit lo.
Proof.
  intros Hroom [Hok Hb] Hu Hlen Hone Hp. unfold process_and_record_transactions in Hp.
  apply outcome_bind_Returns in Hp as (costs & Hcosts & Hp).
  destruct (select_transactions_per_cost (sg_cost_tracker st) costs) as [[qos n] tracker] eqn:Hq.
  apply select_may_prepare in Hq as [Hql Hqm].
  assert (length qos = length txs) as Hqt by (rewrite Hql; by rewrite <- (Forall2_length _ _ _ (map_outcome_results _ _ _ Hcosts))).
  apply outcome_bind_Returns in Hp as ([results locks] & Hl & Hp).
  apply outcome_bind_Returns in Hp as ([st1 out1] & He & Hp).
  apply outcome_bind_Returns in Hp as (locks' & Hun & [= <- <-]).
  change (sg_locks (set_tracker st tracker)) with (sg_locks st) in Hl.
  change (sg_bank (set_tracker st tracker)) with (sg_bank st) in Hl. rewrite (same_block_limit _ Hb) in Hl.
  apply execute_commit_spec in He as (Hok1 & Hadd & Hlocks & _ & lo & msgs & Hrun & Hmev & Hcom); [|done|done].
  cbn [set_locks set_tracker sg_bank sg_recorder sg_locks sg_committed] in *. rewrite Hlocks in Hun.
  split.
  2: { exists (sg_bank st), results, lo, msgs. split_and!; try done. }
  pose (x := {| fl_txs := txs; fl_locks := results; fl_state := Prepared |}).
  pose (s1 := {| sy_table := locks; sy_batches := x :: others; sy_bank := sg_bank st; sy_committed := sg_committed st |}).
  assert (step (abs st) s1) as S1.
  { apply (sys_prepare _ _ _ _ _ (abs st) txs qos); try done. unfold room in Hroom.
    unfold held_locksets, system_locks, abs. cbn. rewrite map_map. lia. }
  pose (s2 := {| sy_table := locks; sy_batches := with_state x (RunDone lo) :: others; sy_bank := sg_bank st;
                 sy_committed := sg_committed st |}).
  assert (step s1 s2) as S2 by exact (sys_execute _ _ _ _ _ s1 [] x others _ mev lo msgs eq_refl eq_refl Hrun).
  assert (same_block (sg_bank st1)) as Hb1.
  { destruct Hcom as [[-> _]|(last & lps & counts & rs & Hc & _)]; [done|by eapply same_block_commit]. }
  assert (exists y, fl_txs y = txs /\ fl_locks y = results /\ rtc step s2
    {| sy_table := locks; sy_batches := y :: others; sy_bank := sg_bank st1; sy_committed := sg_committed st1 |})
    as (y & Hy1 & Hy2 & S3).
  { destruct Hcom as [[-> ->]|(last & lps & counts & rs & Hc & ->)]; [by exists (with_state x (RunDone lo))|].
    exists (with_state x CommitDone). split_and!; try done. apply rtc_once.
    exact (sys_commit _ _ _ _ _ s2 [] (with_state x (RunDone lo)) others lo last lps counts _ rs eq_refl eq_refl Hc). }
  subst txs results. split_and!; [by split|by rewrite <- (same_block_slot _ Hb)|].
  eapply rtc_l; [exact S1|]. eapply rtc_l; [exact S2|]. etrans; [exact S3|]. apply rtc_once.
  exact (sys_drop _ _ _ _ _ {| sy_table := locks; sy_batches := y :: others; sy_bank := sg_bank st1;
    sy_committed := sg_committed st1 |} [] y others locks' eq_refl Hun).
Qed.

(** The arbitrage transactions that the search finds are from [universe]. *)
Definition candidates_in (mev : option Mev) : Prop :=
  forall b txs locks lo msgs tx profit, same_block b -> Forall universe txs ->
  load_and_execute_transactions builtin_programs native_loader b txs locks MAX_PROCESSING_AGE no_overrides mev
    = Returns (lo, msgs) ->
  lo_mev_sanitized_tx_profit lo = Some (tx, profit) -> universe tx.

Lemma process_mev_run st start mev found st' :
  room -> stage_ok st -> (forall tx profit, found = Some (tx, profit) -> universe tx) ->
  process_mev_transaction builtin_programs native_loader random_index cost_model st start mev found = Returns st' ->
  stage_run st st'.
Proof.
  intros Hroom Hok Hf Hp. destruct found as [[tx profit]|]; cbn in Hp.
  2: { injection Hp as <-. by apply stage_run_refl. }
  apply outcome_bind_Returns in Hp as (sig & _ & Hp). apply outcome_bind_Returns in Hp as ([st1 out] & H1' & Hp).
  apply outcome_bind_Returns in Hp as (m & _ & [= <-]).
  apply process_and_record_run in H1' as [([] & Hadd & Hs) _]; try done.
  - constructor; [by eapply Hf|constructor].
  - cbn. unfold MAX_NUM_TRANSACTIONS_PER_BATCH. lia.
Qed.

Lemma process_chunks_run mev : room -> candidates_in mev -> forall chunks st start len still summary st' summary',
  stage_ok st -> Forall (fun c => (length c <= MAX_NUM_TRANSACTIONS_PER_BATCH)%nat /\ Forall universe c) chunks ->
  process_chunks builtin_programs native_loader random_index cost_model st start len chunks still mev summary
    = Returns (st', summary') ->
  stage_run st st'.
Proof.
  intros Hroom Hcand. induction chunks as [|c chunks IH]; intros st start len still summary st' summary' Hok Hcs Hp; cbn in Hp.
  { injection Hp as <- _. by apply stage_run_refl. }
  apply Forall_cons in Hcs as [[Hlen Hu] Hcs].
  apply outcome_bind_Returns in Hp as ([st1 out] & H1' & Hp). apply outcome_bind_Returns in Hp as (st2 & H2' & Hp).
  apply process_and_record_run in H1' as (R1 & b & locks & lo & msgs & Hb & Hrun & Hm); try done.
  apply process_mev_run in H2'; [|done|apply R1|].
  2: { intros tx profit Hfound. rewrite Hm in Hfound. by eapply Hcand. }
  assert (stage_run st st2) as R2 by by eapply stage_run_trans.
  destruct (eco_commit_transactions_result (ptb_output out)) as [status|[]]; destruct (still start);
    try (by injection Hp as <- _);
    (eapply stage_run_trans; [exact R2|]; eapply IH; [apply R2|exact Hcs|exact Hp]).
Qed.

Lemma chunks_forall {A} (P : A -> Prop) size : forall fuel (l : list A), (0 < size)%nat -> Forall P l ->
  Forall (fun c => (length c <= size)%nat /\ Forall P c) (chunks fuel size l).
Proof.
  induction fuel as [|fuel IH]; intros l Hs Hl; [constructor|]. cbn. destruct l as [|x l]; [constructor|].
  constructor; [|apply IH; [done|by apply Forall_drop]]. split; [|by apply Forall_take].
  etrans; [apply firstn_le_length|]. done.
Qed.

Lemma process_transactions_run st txs still mev st' summary :
  room -> candidates_in mev -> stage_ok st -> Forall universe txs ->
  process_transactions builtin_programs native_loader random_index cost_model st txs still mev
    = Returns (st', summary) ->
  stage_run st st'.
Proof.
  intros Hroom Hcand Hok Hu Hp. eapply process_chunks_run; [done|exact Hcand|exact Hok| |exact Hp].
  apply chunks_forall; [|done]. unfold MAX_NUM_TRANSACTIONS_PER_BATCH. lia.
Qed.

End Stage.

(** ** The transactions of a run *)

Section Universe.
Context `{AccountsDb} `{Bincode UpgradeableLoaderState} `{BudgetCodec} `{Bincode NonceVersions}.
Context `{OnChain} `{!TokenSwapBytes _} `{!Signing} `{!SigningLaws _} `{SystemCodec} `{NonceHash}.
Variable builtin_programs : list BuiltinProgram.
Variable native_loader : Entrypoint.
Variable txs : list SanitizedTransaction.
Variable mev : option Mev.

(** What the stage may process: what it was given, and what the MEV component
    crafts. *)
Definition stage_universe (tx : SanitizedTransaction) : Prop :=
  tx ∈ txs \/ exists self, mev = Some self /\ candidate_ok self tx.

(** The configuration is one with which transactions can be crafted, and the
    transactions were marked with it. *)
Definition mev_set_up : Prop :=
  forall self, mev = Some self -> mev_ok self /\ Forall (marked_by self) txs.

Lemma no_mev_no_candidate b l locks max_age overrides out msgs :
  load_and_execute_transactions builtin_programs native_loader b l locks max_age overrides None
    = Returns (out, msgs) -> lo_mev_sanitized_tx_profit out = None.
Proof.
  intros Hrun. unfold load_and_execute_transactions in Hrun.
  apply outcome_bind_Returns in Hrun as (checks & _ & Hrun). apply outcome_bind_Returns in Hrun as (loaded & _ & Hrun).
  apply outcome_bind_Returns in Hrun as (s & Hs & Hrun). injection Hrun as <- _. cbn [lo_mev_sanitized_tx_profit].
  apply (execute_loop_candidates _ _ _ _ _ _ _ []) in Hs as (results & cands & _ & Hf & Hb); [|by apply Forall_nil_2].
  destruct (es_mev_sanitized_tx_profit s) as [[tx profit]|]; [|done]. destruct Hb as (i & Hi & _). cbn in Hi.
  destruct (Forall3_lookup_r _ _ _ _ _ _ Hf Hi) as (p & r & _ & _ & Hs). destruct r as [d|]; [|done].
  destruct Hs as (before & nonce & budget & pre & after & msgs' & _ & Hp & _ & Hm). cbn in Hp. injection Hp as <-. done.
Qed.

Lemma stage_candidates b0 : mev_set_up -> candidates_in builtin_programs native_loader stage_universe b0 mev.
Proof.
  intros Hset b l locks lo msgs tx profit _ Hu Hrun Hc. unfold stage_universe, mev_set_up in *. destruct mev as [self|].
  2: { apply no_mev_no_candidate in Hrun. congruence. }
  right. exists self. split; [done|]. destruct (Hset self eq_refl) as [Hok Hmk].
  eapply candidate_in_batch; [exact Hok| |exact Hrun|exact Hc].
  eapply Forall_impl; [exact Hu|]. intros t [Ht|(self' & [= <-] & Hco)].
  - rewrite Forall_forall in Hmk. auto.
  - left. apply Hco.
Qed.

Context `{Sha256} {R : Type} `{TransactionRecorder R} (tr_ok : R -> Prop) `{!TransactionRecorderLaws R tr_ok}.

(** The whole call, from the bank as it is at the start. *)
Lemma stage_process random_index cost_model others (st st' : Stage (R := R)) still summary :
  room others -> tr_ok (sg_recorder st) -> mev_set_up ->
  process_transactions builtin_programs native_loader random_index cost_model st txs still mev
    = Returns (st', summary) ->
  stage_run (tr_ok := tr_ok) builtin_programs native_loader random_index stage_universe others (sg_bank st) st st'.
Proof.
  intros Hroom Hrec Hset Hrun.
  eapply process_transactions_run; [exact Hroom|by apply stage_candidates| | |exact Hrun].
  - split; [done|]. exists (b_accounts_db (sg_bank st)), (b_status_cache (sg_bank st)), (bank_counters (sg_bank st)).
    by destruct (sg_bank st).
  - apply Forall_forall. intros tx Htx. by left.
Qed.

End Universe.

(** ** The recorder of the validator *)

Section PohInstance.
Context `{Sha256}.
Variable hashes_per_tick : option Z.
Variable ticks_per_slot : Z.
Variable next_leader_slot : Slot -> option (Slot * Slot).
Variable now : Z.
Variable h0 : Hash.
Variable reset_bank : BankTicks.
Variable sent0 : list (Slot * (Entry * Z)).

(** The entries with transactions. *)
Definition recorded_entries (sent : list (Slot * (Entry * Z))) : list (Slot * list VersionedTransaction) :=
  omap (fun '(slot, (e, _)) => if is_tick e then None else Some (slot, en_transactions e)) sent.

#[local] Instance poh_transaction_recorder : TransactionRecorder PohRecorder := {
  tr_record := record ticks_per_slot next_leader_slot true now;
  tr_ledger s := recorded_entries (pr_sent s);
}.

Definition recorder_ok (s : PohRecorder) : Prop :=
  (exists since, rec_inv hashes_per_tick ticks_per_slot h0 reset_bank sent0 s since) /\ led s.

Lemma recorded_entries_app l l' : recorded_entries (l ++ l') = recorded_entries l ++ recorded_entries l'.
Proof. unfold recorded_entries. by rewrite omap_app. Qed.

Lemma recorded_entries_ticks l : Forall (fun x => is_tick x.2.1 = true) l -> recorded_entries l = [].
Proof. induction 1 as [|[slot [e h]] l He _ IH]; [done|]. cbn in *. by rewrite He. Qed.

(** [PohRecorder] keeps the promises of [TransactionRecorder]. *)
#[local] Instance poh_recorder_laws : TransactionRecorderLaws PohRecorder recorder_ok.
Proof.
  split. intros s slot mixin txs [(since & Hinv) Hled] Htx Hm. cbn.
  destruct (pr_working_bank s) as [w|] eqn:Hw.
  2: { exists s, (Err MaxHeightReached). unfold record. destruct txs; [done|]. cbn. unfold flush_cache. rewrite Hw.
       split_and!; try done. split; [by exists since|done]. }
  assert (pr_working_bank s <> None) as Hsome by (by rewrite Hw).
  pose proof Hinv as [Hpre Hc]. specialize (Hc Hsome).
  pose proof (ri_bank _ _ _ _ _ _ _ Hpre) as Hl. rewrite Hw in Hl. destruct Hl.
  assert (pr_tick_height s < U64_MAX) as Hmax by (unfold base in *; rewrite Hc in *; cbn in *; lia).
  destruct (record_inv hashes_per_tick ticks_per_slot next_leader_slot now h0 reset_bank sent0 s since slot mixin txs
    Hinv (Hled Hsome) Hmax Htx Hm) as (s' & r & ticks & tail & Hr & Hinv' & Hticks & Hrec & _).
  exists s', r. split; [exact Hr|]. split; [split; [by eexists|]|].
  { unfold record in Hr. apply outcome_bind_Returns in Hr as (_ & _ & Hr). by eapply record_loop_led. }
  destruct Hinv' as [Hpre' _]. rewrite (ri_sent _ _ _ _ _ _ _ Hpre), (ri_sent _ _ _ _ _ _ _ Hpre').
  rewrite !recorded_entries_app, (recorded_entries_ticks ticks), app_nil_l by done.
  destruct r as [[]|e]; cbn in Hrec.
  - destruct Hrec as (e & height & -> & He). cbn. unfold is_tick. rewrite He. destruct txs; [done|]. by rewrite <- app_assoc.
  - destruct Hrec as [-> ->]. by rewrite app_nil_r.
Qed.

End PohInstance.

(** ** A sample run *)

Module StageSample.
Import BankSample PohSample.

(** A recorder that was reset to slot 0 is given the bank of slot 2. *)
Definition recorder_ready (s : PohRecorder) : option PohRecorder :=
  recorder_ops 2 RecorderSample.schedule 0 s [RHash 2; RSetBank (RecorderSample.bank 2 2)].

#[export] Instance poh_recorder : TransactionRecorder PohRecorder :=
  poh_transaction_recorder 2 RecorderSample.schedule 0.

Definition stage (recorder : PohRecorder) : Stage :=
  {| sg_bank := swap_bank; sg_locks := no_locks; sg_cost_tracker := cost_tracker_new None;
     sg_recorder := recorder; sg_mev_log := []; sg_committed := [] |}.

(** The last transaction conflicts with the first. *)
Definition txs : list SanitizedTransaction := [monitored tx1; tx2; tx3].
Definition mev : option Mev := Some MevCorrect.Sample.monitoring_mev.

Definition run (recorder : PohRecorder) : outcome (Stage * ProcessTransactionsSummary) :=
  process_transactions swap_programs no_loader offset cost_model_new (stage recorder) txs (fun _ => true) mev.

(** What the run ends with, as a test: two of the transactions and the
    arbitrage transaction that they led to, in two entries. *)
Definition run_ok (o : outcome (Stage * ProcessTransactionsSummary)) : bool :=
  match o with
  | Returns (st, _) =>
      bool_decide (map st_message_hash (sg_committed st) = map (fun n => n * 2 ^ 100)%N [101; 102; 104]%N)
      && (length (recorded_entries (pr_sent (sg_recorder st))) =? 2)%nat
  | Panics => false
  end.

(** The run from the recorder that is ready. *)
Record ran (s0 s r : PohRecorder) (st : Stage) (summary : ProcessTransactionsSummary) : Prop := {
  rn_reset : recorder_reset (Some 4) 2 RecorderSample.schedule s0 (RecorderSample.bank 0 2)
               (RecorderSample.schedule 0) = Returns s;
  rn_steps : rtc (recorder_step 2 RecorderSample.schedule 0) s r;
  rn_leader : pr_leader_first_tick_height r <> None;
  rn_run : run r = Returns (st, summary);
  rn_hashes : map st_message_hash (sg_committed st) = map (fun n => n * 2 ^ 100)%N [101; 102; 104]%N;
  rn_entries : length (recorded_entries (pr_sent (sg_recorder st))) = 2%nat;
}.

Lemma ready : exists s0 s r st summary, ran s0 s r st summary.
Proof.
  assert (match RecorderSample.started with
          | Returns s => match recorder_ready s with
                         | Some r => is_some (pr_leader_first_tick_height r) && run_ok (run r)
                         | None => false
                         end
          | Panics => false
          end = true) as Hok by by vm_compute.
  destruct RecorderSample.started as [s|] eqn:Hs; [|discriminate Hok].
  destruct (recorder_ready s) as [r|] eqn:Hr; [|discriminate Hok].
  apply andb_true_iff in Hok as [Hl Hok]. destruct (run r) as [[st summary]|] eqn:Hrun; [|discriminate Hok].
  unfold RecorderSample.started in Hs. apply outcome_bind_Returns in Hs as (s0 & _ & Hs).
  apply andb_true_iff in Hok as [Hh He]. apply bool_decide_eq_true in Hh. apply Nat.eqb_eq in He.
  exists s0, s, r, st, summary.
  split; [exact Hs|exact (recorder_ops_run _ _ _ _ _ _ Hr)|by apply is_some_not_None|exact Hrun|exact Hh|exact He].
Qed.

Lemma ran_recorder_ok s0 s r st summary :
  ran s0 s r st summary -> recorder_ok (Some 4) 2 5%N (RecorderSample.bank 0 2) (pr_sent s) r.
Proof.
  intros []. pose proof (reset_inv (Some 4) 2 RecorderSample.schedule 5%N (RecorderSample.bank 0 2) (pr_sent s)
    ltac:(reflexivity) ltac:(discriminate) s0 s (RecorderSample.schedule 0) 5%N eq_refl eq_refl
    ltac:(split; discriminate) ltac:(reflexivity) rn_reset0 eq_refl) as Hinv.
  destruct (recorder_run_inv (Some 4) 2 RecorderSample.schedule 0 5%N (RecorderSample.bank 0 2) (pr_sent s)
    ltac:(reflexivity) s r [] rn_steps0 Hinv) as (since & Hinv').
  split; [exists ([] ++ since); exact Hinv'|intros _; exact rn_leader0].
Qed.

(** The accounts that may be written. *)
Definition keys : list Pubkey :=
  [6; 7; 8; 9; 77; 11; 12; 13; 14; 21; 22; 23; 24; 31; 32; 33; 34; 101; 102; 103]%N.

Lemma swap_bank_supply : supply_ok keys swap_bank.
Proof.
  split.
  - by apply (bool_decide_unpack _).
  - intros k a slot Hk. assert (map_Forall (fun _ (p : AccountSharedData * Slot) => 0 <= acc_lamports p.1 <= U64_MAX) swap_db)
      as Hall by (apply (bool_decide_unpack _); vm_compute; exact I). exact (Hall k (a, slot) Hk).
  - exact (so_lps _ _ Run.bank_supply_ok).
  - cbn. lia.
  - cbn. lia.
  - apply Z.leb_le. by vm_compute.
Qed.

Lemma txs_ok : Forall (fun tx => message_ok (st_message tx) /\ forall k, k ∈ stored_keys tx -> k ∈ keys) txs.
Proof.
  assert (forall k, k ∈ Run.keys -> k ∈ keys) as Hsub.
  { apply Forall_forall. by apply (bool_decide_unpack _). }
  assert (forall tx, Run.universe tx -> message_ok (st_message tx) /\ forall k, k ∈ stored_keys tx -> k ∈ keys) as Hall.
  { intros tx [Hm Hk]%Run.run_universe_ok. auto. }
  apply Forall_cons; split; [exact (Hall tx1 ltac:(apply list_elem_of_here))|].
  apply Forall_cons; split; [exact (Hall tx2 ltac:(apply list_elem_of_further, list_elem_of_here))|].
  apply Forall_singleton. exact (Hall tx3 ltac:(do 2 apply list_elem_of_further; apply list_elem_of_here)).
Qed.

Lemma mev_set : forall self, mev = Some self ->
  mev_ok self /\ Forall (marked_by self) txs /\ forall k, k ∈ mev_writes self -> k ∈ keys.
Proof.
  intros self [= <-]. split_and!; [apply sample_mev_ok| |].
  - apply Forall_cons; split; [by right|]. apply Forall_cons; split; [by left|]. apply Forall_cons; split; [by left|done].
  - apply Forall_forall. by apply (bool_decide_unpack _).
Qed.

End StageSample.

(** ** Properties *)

(** C11: The banking stage is a thread of the system of concurrent batches.
    Whatever batches other threads hold, a call of [process_transactions] that
    returns is a sequence of the steps prepare, execute, commit and drop of
    that system, for the given transactions and the arbitrage transactions
    that their execution leads to, in batches of at most 64; it gives back
    every lock it took.  What it adds to the ledger is a list of non-empty
    entries of the bank's slot whose transactions are, in order, exactly the
    transactions that it commits.  This holds with any recorder that keeps the
    promises of [TransactionRecorder], wherever the slot ends. *)
Theorem banking_stage_refines_system `{AccountsDb} `{Bincode UpgradeableLoaderState} `{BudgetCodec}
    `{Bincode NonceVersions} `{OnChain} `{!TokenSwapBytes _} `{!Signing} `{!SigningLaws _} `{SystemCodec}
    `{NonceHash} `{Sha256} {R : Type} `{TransactionRecorder R} (tr_ok : R -> Prop)
    `{!TransactionRecorderLaws R tr_ok}
    (builtin_programs : list BuiltinProgram) (native_loader : Entrypoint) (random_index : Hash -> nat)
    (cost_model : CostModel) (others : list InFlight) (st st' : Stage) (txs : list SanitizedTransaction)
    (still_processing : nat -> bool) (mev : option Mev) (summary : ProcessTransactionsSummary)
    (Hroom : Z.of_nat (length (concat (map (fun x => batch_locksets (fl_txs x) (fl_locks x)) others)) + 64) <= U64_MAX)
    (Hrecorder : tr_ok (sg_recorder st))
    (Hmev : forall self, mev = Some self -> mev_ok self /\ Forall (marked_by self) txs)
    (Hrun : process_transactions builtin_programs native_loader random_index cost_model st txs still_processing mev
            = Returns (st', summary)) :
  rtc (system_step builtin_programs native_loader random_index
         (get_transaction_account_lock_limit (sg_bank st)) (stage_universe txs mev))
    {| sy_table := sg_locks st; sy_batches := others; sy_bank := sg_bank st; sy_committed := sg_committed st |}
    {| sy_table := sg_locks st'; sy_batches := others; sy_bank := sg_bank st'; sy_committed := sg_committed st' |}
  /\ tr_ok (sg_recorder st')
  /\ exists block committed, tr_ledger (sg_recorder st') = tr_ledger (sg_recorder st) ++ block
       /\ sg_committed st' = sg_committed st ++ committed
       /\ concat (map snd block) = map to_versioned_transaction committed
       /\ Forall (fun e => e.1 = b_slot (sg_bank st) /\ e.2 <> []) block.
Proof.
  by destruct (stage_process _ _ txs mev tr_ok _ _ others st st' _ summary Hroom Hrecorder Hmev Hrun)
    as ([Hok' _] & Hadd & Hsteps).
Qed.

(** C1: Block production is sound, from the recorder to the bank.  Let a
    recorder have been reset and be working for the leader's slot, and let the
    banking stage process transactions into a fresh bank of sanitized
    transactions, the arbitrage transactions that it crafts on the way
    included.  When it returns, everything that the recorder has sent since
    its reset is still one verifiable chain.  The entries with transactions
    that it added are of the bank's slot, and their transactions are exactly
    the committed ones in the order of their commits.  No transaction is in the
    block twice, if messages do not collide; and each of them is refused by
    every later check of the bank.  The lamports of the accounts together
    with fees and rent did not increase, and are the same when the rent epoch
    of exempt accounts is preserved; accounts that no transaction may write
    are as they were; no lock is left. *)
Theorem block_production_sound `{AccountsDb} `{!AccountsDbLaws _} `{Bincode UpgradeableLoaderState} `{BudgetCodec}
    `{Bincode NonceVersions} `{OnChain} `{!TokenSwapBytes _} `{!Signing} `{!SigningLaws _} `{SystemCodec}
    `{NonceHash} `{Sha256}
    (builtin_programs : list BuiltinProgram) (native_loader : Entrypoint) (random_index : Hash -> nat)
    (cost_model : CostModel) (hashes_per_tick : option Z) (ticks_per_slot : Z)
    (next_leader_slot : Slot -> option (Slot * Slot)) (now : Z) (reset_bank : BankTicks) (h : Hash)
    (next : option (Slot * Slot)) (s0 s : PohRecorder) (st st' : Stage) (txs : list SanitizedTransaction)
    (still_processing : nat -> bool) (mev : option Mev) (summary : ProcessTransactionsSummary) (K : list Pubkey)
    (Htps : 0 < ticks_per_slot) (Hslot0 : 0 <= bk_slot reset_bank)
    (Hmax : (bk_slot reset_bank + 1) * ticks_per_slot < U64_MAX) (Hhpt : u64 (default U64_MAX hashes_per_tick))
    (Hh : last_hash (bk_blockhash_queue reset_bank) = Returns h)
    (Hreset : recorder_reset hashes_per_tick ticks_per_slot next_leader_slot s0 reset_bank next = Returns s)
    (Hsteps : rtc (recorder_step ticks_per_slot next_leader_slot now) s (sg_recorder st))
    (Hleader : pr_leader_first_tick_height (sg_recorder st) <> None)
    (Hfresh : sg_locks st = no_locks /\ sg_committed st = [])
    (Hbank : supply_ok K (sg_bank st)) (Hslot : b_slot (sg_bank st) ∈ b_ancestors (sg_bank st))
    (Htxs : Forall (fun tx => message_ok (st_message tx) /\ forall k, k ∈ stored_keys tx -> k ∈ K) txs)
    (Hmev : forall self, mev = Some self ->
       mev_ok self /\ Forall (marked_by self) txs /\ forall k, k ∈ mev_writes self -> k ∈ K)
    (Hrun : process_transactions (recorder_ops := poh_transaction_recorder ticks_per_slot next_leader_slot now)
              builtin_programs native_loader random_index cost_model st txs still_processing mev
            = Returns (st', summary)) :
  exists since block, pr_sent (sg_recorder st') = pr_sent s ++ since
    /\ verify_cpu_generic h (ledger since ++ map fst (pr_tick_cache (sg_recorder st'))) = Returns true
    /\ recorded_entries (pr_sent (sg_recorder st')) = recorded_entries (pr_sent (sg_recorder st)) ++ block
    /\ concat (map snd block) = map to_versioned_transaction (sg_committed st')
    /\ Forall (fun e => e.1 = b_slot (sg_bank st) /\ e.2 <> []) block
    /\ ((forall tx tx', stage_universe txs mev tx -> stage_universe txs mev tx' ->
          st_message_hash tx = st_message_hash tx' -> st_message tx = st_message tx') ->
        NoDup (map st_message_hash (sg_committed st'))
        /\ forall tx check, tx ∈ sg_committed st' -> is_ok check.1 = true ->
           check_status (sg_bank st') tx check = Returns (Err TE.AlreadyProcessed, None))
    /\ supply K (sg_bank st') <= supply K (sg_bank st)
    /\ (active (sg_bank st) preserve_rent_epoch_for_rent_exempt_accounts = true ->
        supply K (sg_bank st') = supply K (sg_bank st))
    /\ (forall k, k ∉ K -> adb_load (b_accounts_db (sg_bank st')) k = adb_load (b_accounts_db (sg_bank st)) k)
    /\ sg_locks st' = no_locks.
Proof.
  pose proof (reset_inv hashes_per_tick ticks_per_slot next_leader_slot h reset_bank (pr_sent s) Htps Hslot0
    s0 s next h Hh eq_refl Hhpt Hmax Hreset eq_refl) as Hinv.
  destruct (recorder_run_inv hashes_per_tick ticks_per_slot next_leader_slot now h reset_bank (pr_sent s) Htps
    s _ [] Hsteps Hinv) as (since0 & Hinv0).
  pose (ops := poh_transaction_recorder ticks_per_slot next_leader_slot now).
  pose proof (poh_recorder_laws hashes_per_tick ticks_per_slot next_leader_slot now h reset_bank (pr_sent s)) as Hlaws.
  destruct Hfresh as [Hlocks Hnone].
  destruct (stage_process builtin_programs native_loader txs mev
    (recorder_ok hashes_per_tick ticks_per_slot h reset_bank (pr_sent s)) random_index cost_model [] st st' still_processing summary)
    as ([Hrec _] & (block & committed & Hled & Hcom & Hblock & Hall) & Hsys); [| | |exact Hrun|].
  { apply Z.leb_le. by vm_compute. }
  { split; [by eexists|by intros _]. }
  { intros self Hself. by destruct (Hmev self Hself) as (? & ? & _). }
  destruct Hrec as [(since & Hinv') _]. unfold abs in Hsys. rewrite Hlocks, Hnone in Hsys. rewrite Hnone in Hcom. cbn in Hcom.
  assert (forall tx, stage_universe txs mev tx -> message_ok (st_message tx) /\ forall k, k ∈ stored_keys tx -> k ∈ K) as Hu.
  { rewrite Forall_forall in Htxs. intros tx [Htx|(self & Hself & Hm & _ & Hw)]; [auto|].
    destruct (Hmev self Hself) as (_ & _ & Hk). auto. }
  pose proof (reachable_inv _ _ _ _ _ K (sg_bank st) Hbank Hu _ Hsys) as [].
  pose proof (rec_inv_ledger _ _ _ _ _ _ _ Hinv') as (Hsent & Hverify & _).
  exists since, block. split_and!; try done.
  - by rewrite Hcom.
  - intros Hcoll. destruct (reachable_once _ _ _ _ _ K (sg_bank st) Hbank Hu Hslot Hcoll _ Hsys) as [].
    split; [done|]. intros tx check Htx Hok. cbn in oi_recorded. rewrite Forall_forall in oi_recorded.
    destruct (oi_recorded tx Htx) as [_ Hr]. unfold check_status. by rewrite Hok, (recorded_processed _ _ Hr).
  - destruct sv_locks as [Hrep _]. exact (represents_inj [] _ _ Hrep represents_no_locks).
Qed.

(** A failed arbitrage transaction stays out of the block but keeps its
    cost.  When the arbitrage transaction of a chunk is selected, locked and
    executed but fails, the recorder, the bank and its accounts are left as
    they were: it is neither recorded nor charged a fee.  Yet the stage
    reports it as committed, so that the cost tracker keeps its cost, with the
    units it used, against the limits of the block; for a transaction that is
    reported as not committed the cost would be taken back. *)
Theorem failed_mev_tx_keeps_cost `{AccountsDb} `{Bincode UpgradeableLoaderState} `{BudgetCodec}
    `{Bincode NonceVersions} `{OnChain} `{Signing} `{SystemCodec} `{NonceHash} `{Sha256} {R : Type}
    `{TransactionRecorder R}
    (builtin_programs : list BuiltinProgram) (native_loader : Entrypoint) (random_index : Hash -> nat)
    (cost_model : CostModel) (st st' : Stage) (tx : SanitizedTransaction) (offset : nat) (mev : option Mev)
    (cost : TransactionCost) (block : Z) (tracker : CostTracker) (locks : list (result TransactionError unit)) (table : AccountLocks)
    (lo : LoadAndExecuteTransactionsOutput) (msgs : list MevMsg) (details : TransactionExecutionDetails)
    (out : ProcessTransactionBatchOutput)
    (Hcost : calculate_cost cost_model tx = Returns cost)
    (Hselected : try_add (sg_cost_tracker st) cost = (Ok block, tracker))
    (Hlocked : lock_accounts_with_results (sg_locks st) [tx] [Ok tt]
                 (get_transaction_account_lock_limit (sg_bank st)) = Returns (locks, table))
    (Hexecuted : load_and_execute_transactions builtin_programs native_loader (sg_bank st) [tx] locks
                   MAX_PROCESSING_AGE (fun _ => None) mev = Returns (lo, msgs))
    (Hresult : lo_execution_results lo = [Executed details]) (Hfailed : is_ok (ted_status details) = false)
    (Hrun : process_and_record_transactions builtin_programs native_loader random_index cost_model st [tx] offset
              MevBatch mev = Returns (st', out)) :
  sg_recorder st' = sg_recorder st /\ sg_bank st' = sg_bank st /\ sg_committed st' = sg_committed st
  /\ eco_commit_transactions_result (ptb_output out) = Ok [Committed (ted_executed_units details)]
  /\ sg_cost_tracker st' = update_execution_cost tracker cost (ted_executed_units details).
Proof.
  unfold process_and_record_transactions, compute_transaction_costs in Hrun. cbn [map_outcome] in Hrun.
  rewrite Hcost in Hrun. cbn [mbind outcome_bind select_transactions_per_cost] in Hrun. rewrite Hselected in Hrun.
  cbn [set_tracker sg_locks sg_bank] in Hrun. rewrite Hlocked in Hrun. cbn [mbind outcome_bind] in Hrun.
  apply outcome_bind_Returns in Hrun as ([st1 out1] & He & Hrun).
  apply outcome_bind_Returns in Hrun as (table' & _ & [= <- <-]).
  unfold execute_and_commit_transactions_locked in He. cbv zeta in He.
  cbn [set_locks set_tracker sg_bank sg_recorder] in He.
  rewrite Hexecuted in He. cbn [mbind outcome_bind] in He. apply outcome_bind_Returns in He as ([bh lps] & _ & He).
  rewrite Hresult in He. unfold record_transactions in He. cbn [processed_transactions] in He.
  unfold to_record in He. cbn in He. unfold was_executed_successfully in He. rewrite Hfailed in He. cbn in He.
  injection He as <- <-. done.
Qed.

Import PohSample StageSample.

Lemma banking_stage_refines_system_witness :
  exists r st summary (block : list (Slot * list VersionedTransaction)), StageSample.run r = Returns (st, summary)
    /\ rtc (system_step BankSample.swap_programs BankSample.no_loader BankSample.offset 128
              (stage_universe StageSample.txs StageSample.mev))
         (system_init BankSample.swap_bank)
         {| sy_table := sg_locks st; sy_batches := []; sy_bank := sg_bank st; sy_committed := sg_committed st |}
    /\ length (sg_committed st) = 3%nat
    /\ concat (map snd block) = map to_versioned_transaction (sg_committed st).
Proof.
  destruct StageSample.ready as (s0 & s & r & st & summary & Hran).
  pose proof (StageSample.ran_recorder_ok _ _ _ _ _ Hran) as Hrec. destruct Hran.
  pose proof (poh_recorder_laws (Some 4) 2 RecorderSample.schedule 0 5%N (RecorderSample.bank 0 2) (pr_sent s)) as Hlaws.
  destruct (banking_stage_refines_system (recorder_ok (Some 4) 2 5%N (RecorderSample.bank 0 2) (pr_sent s))
    BankSample.swap_programs BankSample.no_loader BankSample.offset cost_model_new [] (StageSample.stage r) st
    StageSample.txs (fun _ => true) StageSample.mev summary) as (Hsteps & _ & block & committed & _ & Hc & Hb & _).
  - apply Z.leb_le. by vm_compute.
  - exact Hrec.
  - intros self Hself. destruct (StageSample.mev_set self Hself) as (Hm & Hmk & _). exact (conj Hm Hmk).
  - exact rn_run0.
  - exists r, st, summary, block. split; [exact rn_run0|]. split; [exact Hsteps|].
    cbn [StageSample.stage sg_committed app] in Hc. rewrite Hc. split; [|exact Hb]. rewrite <- Hc.
    apply (f_equal length) in rn_hashes0. rewrite !length_map in rn_hashes0. exact rn_hashes0.
Defined.


Lemma block_production_sound_witness :
  exists s r st summary since block, StageSample.run r = Returns (st, summary)
    /\ pr_sent (sg_recorder st) = pr_sent s ++ since
    /\ verify_cpu_generic 5%N (ledger since ++ map fst (pr_tick_cache (sg_recorder st))) = Returns true
    /\ recorded_entries (pr_sent (sg_recorder st)) = recorded_entries (pr_sent r) ++ block
    /\ concat (map snd block) = map to_versioned_transaction (sg_committed st)
    /\ map st_message_hash (sg_committed st) = map (fun n => n * 2 ^ 100)%N [101; 102; 104]%N
    /\ supply StageSample.keys (sg_bank st) = supply StageSample.keys BankSample.swap_bank
    /\ sg_locks st = no_locks.
Proof.
  destruct StageSample.ready as (s0 & s & r & st & summary & []).
  destruct (block_production_sound BankSample.swap_programs BankSample.no_loader BankSample.offset cost_model_new
    (Some 4) 2 RecorderSample.schedule 0 (RecorderSample.bank 0 2) 5%N (RecorderSample.schedule 0) s0 s
    (StageSample.stage r) st StageSample.txs (fun _ => true) StageSample.mev summary StageSample.keys)
    as (since & block & H1 & H2 & H3 & H4 & _ & _ & _ & H5 & _ & H6).
  - reflexivity.
  - discriminate.
  - reflexivity.
  - split; discriminate.
  - reflexivity.
  - exact rn_reset0.
  - exact rn_steps0.
  - exact rn_leader0.
  - split; reflexivity.
  - exact StageSample.swap_bank_supply.
  - by apply (bool_decide_unpack _).
  - exact StageSample.txs_ok.
  - exact StageSample.mev_set.
  - exact rn_run0.
  - exists s, r, st, summary, since, block. split_and!; [exact rn_run0|exact H1|exact H2|exact H3|exact H4|exact rn_hashes0| |exact H6].
    apply H5. reflexivity.
Defined.

(** A transaction that fails, as the only one of a batch of the MEV kind. *)
Lemma failed_mev_tx_keeps_cost_witness :
  exists r st out tracker cost units, process_and_record_transactions BankSample.swap_programs BankSample.no_loader
      BankSample.offset cost_model_new (StageSample.stage r) [BankSample.tx3] 0 MevBatch None = Returns (st, out)
    /\ sg_bank st = BankSample.swap_bank /\ sg_committed st = []
    /\ sg_cost_tracker st = update_execution_cost tracker cost units.
Proof.
  destruct StageSample.ready as (s0 & s & r & _ & _ & _).
  assert (match calculate_cost cost_model_new BankSample.tx3,
                lock_accounts_with_results (sg_locks (StageSample.stage r)) [BankSample.tx3] [Ok tt]
                  (get_transaction_account_lock_limit (sg_bank (StageSample.stage r))),
                process_and_record_transactions BankSample.swap_programs BankSample.no_loader
                  BankSample.offset cost_model_new (StageSample.stage r) [BankSample.tx3] 0 MevBatch None with
          | Returns cost, Returns (locks, _), Returns _ =>
              match try_add (sg_cost_tracker (StageSample.stage r)) cost,
                    load_and_execute_transactions BankSample.swap_programs BankSample.no_loader
                      (sg_bank (StageSample.stage r)) [BankSample.tx3] locks MAX_PROCESSING_AGE (fun _ => None) None with
              | (Ok _, _), Returns (lo, _) =>
                  match lo_execution_results lo with [Executed d] => negb (is_ok (ted_status d)) | _ => false end
              | _, _ => false
              end
          | _, _, _ => false
          end = true) as Hok by by vm_compute.
  destruct (calculate_cost cost_model_new BankSample.tx3) as [cost|] eqn:Hc; [|discriminate Hok].
  destruct (lock_accounts_with_results _ _ _ _) as [[locks table]|] eqn:Hl; [|discriminate Hok].
  destruct (process_and_record_transactions _ _ _ _ _ _ _ _ _) as [[st out]|] eqn:Ht; [|discriminate Hok].
  destruct (try_add _ cost) as [[block|] tracker] eqn:Ha; [|discriminate Hok].
  destruct (load_and_execute_transactions _ _ _ _ locks _ _ _) as [[lo msgs]|] eqn:He; [|discriminate Hok].
  destruct (lo_execution_results lo) as [|[d|] [|]] eqn:Hr; try discriminate Hok. apply negb_true_iff in Hok.
  destruct (failed_mev_tx_keeps_cost BankSample.swap_programs BankSample.no_loader BankSample.offset cost_model_new
    (StageSample.stage r) st BankSample.tx3 0 None cost block tracker locks table lo msgs d out
    Hc Ha Hl He Hr Hok Ht) as (_ & Hb & Hn & _ & Hu).
  exists r, st, out, tracker, cost, (ted_executed_units d). split; [exact Ht|]. split; [exact Hb|]. split; [exact Hn|exact Hu].
Defined.
