(* ===== verification/ForkChoice.v ===== *)
(** * Heaviest subtree fork choice

    [core/src/heaviest_subtree_fork_choice.rs] and the walk of
    [core/src/tree_diff.rs].

    The blocks a validator has replayed form a tree.  Every node keeps the stake
    that voted for exactly it, the stake that voted in its subtree, and the best
    slot of its subtree; votes, new leaves, validity marks and new roots update
    these fields along one path.  The batches of updates are a [BTreeMap] that is
    processed from its greatest to its smallest key.

    [last_root_time] only decides when the state is logged, and is left out.
    The walks over the tree carry fuel equal to the number of nodes;
    [ForkTree] shows that this is enough on every tree the operations build. *)

From S2P Require Import Prelude EpochSchedule.

(** ** Keys *)

Abbreviation ForkWeight := Z (only parsing).
Abbreviation SlotHashKey := (Z * N)%type (only parsing).

(** [SlotHashKey::default()]. *)
Definition slot_hash_default : SlotHashKey := (0, 0%N).

(** The derived [<] and [<=] on pairs. *)
Definition key_ltb (a b : SlotHashKey) : bool :=
  (a.1 <? b.1) || ((a.1 =? b.1) && (a.2 <? b.2)%N).
Definition key_le (a b : SlotHashKey) : Prop := key_ltb b a = false.
#[global] Instance key_le_dec : RelDecision key_le.
Proof. intros a b. unfold key_le. apply _. Defined.

(** ** Update operations *)

Inductive UpdateLabel :=
| LAggregate
| LAdd
| LMarkValid (slot : Slot)
| LMarkInvalid (slot : Slot)
| LSubtract.

Inductive UpdateOperation :=
| OAdd (stake : Z)
| OMarkValid (slot : Slot)
| OMarkInvalid (slot : Slot)
| OSubtract (stake : Z)
| OAggregate.

#[global] Instance UpdateLabel_eq_dec : EqDecision UpdateLabel.
Proof. solve_decision. Defined.

(** The derived order of [UpdateLabel]: first the constructor, then its slot. *)
Definition label_rank (l : UpdateLabel) : Z * Z :=
  match l with
  | LAggregate => (0, 0)
  | LAdd => (1, 0)
  | LMarkValid slot => (2, slot)
  | LMarkInvalid slot => (3, slot)
  | LSubtract => (4, 0)
  end.

Definition label_of_rank (r : Z * Z) : UpdateLabel :=
  match r.1 with
  | 0 => LAggregate | 1 => LAdd | 2 => LMarkValid r.2 | 3 => LMarkInvalid r.2 | _ => LSubtract
  end.

#[global] Program Instance UpdateLabel_countable : Countable UpdateLabel :=
  inj_countable' label_rank label_of_rank _.
Next Obligation. by intros []. Qed.

Definition label_leb (a b : UpdateLabel) : bool :=
  ((label_rank a).1 <? (label_rank b).1)
  || (((label_rank a).1 =? (label_rank b).1) && ((label_rank a).2 <=? (label_rank b).2)).

Abbreviation UpdateOperations := (gmap (SlotHashKey * UpdateLabel) UpdateOperation) (only parsing).

(** The order of the [BTreeMap]'s keys, on its entries. *)
Definition op_le (p q : (SlotHashKey * UpdateLabel) * UpdateOperation) : Prop :=
  (key_ltb p.1.1 q.1.1 || (bool_decide (p.1.1 = q.1.1) && label_leb p.1.2 q.1.2)) = true.
#[global] Instance op_le_dec : RelDecision op_le.
Proof. intros p q. unfold op_le. apply _. Defined.

(** [UpdateOperation::update_stake]. *)
Definition update_stake (op : UpdateOperation) (new_stake : Z) : outcome UpdateOperation :=
  match op with
  | OAdd stake => Returns (OAdd (wrap64 (stake + new_stake)))
  | OSubtract stake => Returns (OSubtract (wrap64 (stake + new_stake)))
  | OAggregate | OMarkValid _ | OMarkInvalid _ => Panics
  end.

(** [entry(key).and_modify(|update| update.update_stake(stake)).or_insert(op)]. *)
Definition upsert_stake (ops : UpdateOperations) (key : SlotHashKey * UpdateLabel)
    (op : UpdateOperation) (stake : Z) : outcome UpdateOperations :=
  match ops !! key with
  | Some old => new ← update_stake old stake; Returns (<[key := new]> ops)
  | None => Returns (<[key := op]> ops)
  end.

(** ** Nodes *)

Record ForkInfo := {
  fi_stake_voted_at : ForkWeight;
  fi_stake_voted_subtree : ForkWeight;
  fi_best_slot : SlotHashKey;
  fi_parent : option SlotHashKey;
  fi_children : list SlotHashKey;
  fi_latest_invalid_ancestor : option Slot;
  fi_is_duplicate_confirmed : bool;
}.

Definition fi_set_best (fi : ForkInfo) (best : SlotHashKey) : ForkInfo :=
  {| fi_stake_voted_at := fi_stake_voted_at fi;
     fi_stake_voted_subtree := fi_stake_voted_subtree fi;
     fi_best_slot := best;
     fi_parent := fi_parent fi;
     fi_children := fi_children fi;
     fi_latest_invalid_ancestor := fi_latest_invalid_ancestor fi;
     fi_is_duplicate_confirmed := fi_is_duplicate_confirmed fi |}.

Definition fi_set_parent (fi : ForkInfo) (parent : option SlotHashKey) : ForkInfo :=
  {| fi_stake_voted_at := fi_stake_voted_at fi;
     fi_stake_voted_subtree := fi_stake_voted_subtree fi;
     fi_best_slot := fi_best_slot fi;
     fi_parent := parent;
     fi_children := fi_children fi;
     fi_latest_invalid_ancestor := fi_latest_invalid_ancestor fi;
     fi_is_duplicate_confirmed := fi_is_duplicate_confirmed fi |}.

Definition fi_push_child (fi : ForkInfo) (child : SlotHashKey) : ForkInfo :=
  {| fi_stake_voted_at := fi_stake_voted_at fi;
     fi_stake_voted_subtree := fi_stake_voted_subtree fi;
     fi_best_slot := fi_best_slot fi;
     fi_parent := fi_parent fi;
     fi_children := fi_children fi ++ [child];
     fi_latest_invalid_ancestor := fi_latest_invalid_ancestor fi;
     fi_is_duplicate_confirmed := fi_is_duplicate_confirmed fi |}.

Definition fi_set_stakes (fi : ForkInfo) (at_ subtree : ForkWeight) : ForkInfo :=
  {| fi_stake_voted_at := at_;
     fi_stake_voted_subtree := subtree;
     fi_best_slot := fi_best_slot fi;
     fi_parent := fi_parent fi;
     fi_children := fi_children fi;
     fi_latest_invalid_ancestor := fi_latest_invalid_ancestor fi;
     fi_is_duplicate_confirmed := fi_is_duplicate_confirmed fi |}.

Definition fi_set_validity (fi : ForkInfo) (invalid : option Slot) (confirmed : bool) : ForkInfo :=
  {| fi_stake_voted_at := fi_stake_voted_at fi;
     fi_stake_voted_subtree := fi_stake_voted_subtree fi;
     fi_best_slot := fi_best_slot fi;
     fi_parent := fi_parent fi;
     fi_children := fi_children fi;
     fi_latest_invalid_ancestor := invalid;
     fi_is_duplicate_confirmed := confirmed |}.

(** [ForkInfo::is_unconfirmed_duplicate]. *)
Definition fi_is_unconfirmed_duplicate (fi : ForkInfo) (my_slot : Slot) : bool :=
  match fi_latest_invalid_ancestor fi with
  | Some ancestor => ancestor =? my_slot
  | None => false
  end.

(** [ForkInfo::is_candidate]. *)
Definition fi_is_candidate (fi : ForkInfo) : bool :=
  negb (is_some (fi_latest_invalid_ancestor fi)).

(** [ForkInfo::set_duplicate_confirmed]. *)
Definition fi_set_duplicate_confirmed (fi : ForkInfo) : ForkInfo := fi_set_validity fi None true.

(** [ForkInfo::update_with_newly_valid_ancestor]. *)
Definition update_with_newly_valid_ancestor (fi : ForkInfo) (newly_valid_ancestor : Slot)
    : ForkInfo :=
  match fi_latest_invalid_ancestor fi with
  | Some latest_invalid_ancestor =>
      if latest_invalid_ancestor <=? newly_valid_ancestor
      then fi_set_validity fi None (fi_is_duplicate_confirmed fi)
      else fi
  | None => fi
  end.

(** [ForkInfo::update_with_newly_invalid_ancestor]. *)
Definition update_with_newly_invalid_ancestor (fi : ForkInfo) (newly_invalid_ancestor : Slot)
    : outcome ForkInfo :=
  _ ← assert_ (negb (fi_is_duplicate_confirmed fi));
  let later :=
    match fi_latest_invalid_ancestor fi with
    | Some latest_invalid_ancestor => latest_invalid_ancestor <? newly_invalid_ancestor
    | None => true
    end in
  Returns (if later
           then fi_set_validity fi (Some newly_invalid_ancestor) (fi_is_duplicate_confirmed fi)
           else fi).

(** ** The tree walk *)

(** The trait [TreeDiff]: what the walk asks of a tree.  [td_size] is its number
    of nodes, the fuel of the walk. *)
Class TreeDiff (T K : Type) := {
  td_children : T -> K -> option (list K);
  td_contains_slot : T -> K -> bool;
  td_size : T -> nat;
}.

Section SubtreeDiff.
Context {T K : Type} `{TreeDiff T K} `{Countable K}.

(** The [while] loop: [pending] is the vector with its last element first. *)
Fixpoint subtree_diff_loop (fuel : nat) (tree : T) (root2 : K) (pending : list K)
    (reachable_set : gset K) : outcome (gset K) :=
  match pending with
  | [] => Returns reachable_set
  | current_key :: rest =>
      match fuel with
      | O => Panics
      | S fuel =>
          if decide (current_key = root2)
          then subtree_diff_loop fuel tree root2 rest reachable_set
          else
            children ← unwrap (td_children tree current_key);
            subtree_diff_loop fuel tree root2 (rev children ++ rest)
              ({[current_key]} ∪ reachable_set)
      end
  end.

(** [TreeDiff::subtree_diff]: the nodes reachable from [root1], without the
    subtree at [root2]. *)
Definition subtree_diff (tree : T) (root1 root2 : K) : outcome (gset K) :=
  if td_contains_slot tree root1
  then subtree_diff_loop (td_size tree) tree root2 [root1] ∅
  else Returns ∅.
End SubtreeDiff.

(** ** Reading the fork choice *)

Record HeaviestSubtreeForkChoice := {
  fork_infos : gmap SlotHashKey ForkInfo;
  latest_votes : gmap Pubkey SlotHashKey;
  fc_root : SlotHashKey;
}.

Definition fc_set_infos (fc : HeaviestSubtreeForkChoice) (infos : gmap SlotHashKey ForkInfo)
    : HeaviestSubtreeForkChoice :=
  {| fork_infos := infos; latest_votes := latest_votes fc; fc_root := fc_root fc |}.

Definition contains_block (fc : HeaviestSubtreeForkChoice) (key : SlotHashKey) : bool :=
  is_some (fork_infos fc !! key).

Definition best_slot (fc : HeaviestSubtreeForkChoice) (key : SlotHashKey) : option SlotHashKey :=
  fi_best_slot <$> fork_infos fc !! key.

Definition best_overall_slot (fc : HeaviestSubtreeForkChoice) : outcome SlotHashKey :=
  unwrap (best_slot fc (fc_root fc)).

Definition stake_voted_subtree (fc : HeaviestSubtreeForkChoice) (key : SlotHashKey)
    : option ForkWeight :=
  fi_stake_voted_subtree <$> fork_infos fc !! key.

Definition stake_voted_at (fc : HeaviestSubtreeForkChoice) (key : SlotHashKey)
    : option ForkWeight :=
  fi_stake_voted_at <$> fork_infos fc !! key.

Definition latest_invalid_ancestor (fc : HeaviestSubtreeForkChoice) (key : SlotHashKey)
    : option Slot :=
  fork_infos fc !! key ≫= fi_latest_invalid_ancestor.

Definition is_duplicate_confirmed (fc : HeaviestSubtreeForkChoice) (key : SlotHashKey)
    : option bool :=
  fi_is_duplicate_confirmed <$> fork_infos fc !! key.

Definition is_unconfirmed_duplicate (fc : HeaviestSubtreeForkChoice) (key : SlotHashKey)
    : option bool :=
  (fun fi => fi_is_unconfirmed_duplicate fi key.1) <$> fork_infos fc !! key.

Definition is_candidate (fc : HeaviestSubtreeForkChoice) (key : SlotHashKey) : option bool :=
  fi_is_candidate <$> fork_infos fc !! key.

Definition fc_parent (fc : HeaviestSubtreeForkChoice) (key : SlotHashKey) : option SlotHashKey :=
  fork_infos fc !! key ≫= fi_parent.

Definition fc_children (fc : HeaviestSubtreeForkChoice) (key : SlotHashKey)
    : option (list SlotHashKey) :=
  fi_children <$> fork_infos fc !! key.

#[global] Instance fork_choice_tree : TreeDiff HeaviestSubtreeForkChoice SlotHashKey := {
  td_children := fc_children;
  td_contains_slot := contains_block;
  td_size fc := size (fork_infos fc);
}.

(** [max_by_weight]. *)
Definition max_by_weight (fc : HeaviestSubtreeForkChoice) (slot1 slot2 : SlotHashKey)
    : outcome comparison :=
  weight1 ← unwrap (stake_voted_subtree fc slot1);
  weight2 ← unwrap (stake_voted_subtree fc slot2);
  Returns
    (if weight1 =? weight2
     then CompOpp (if key_ltb slot1 slot2 then Lt else if key_ltb slot2 slot1 then Gt else Eq)
     else weight1 ?= weight2).

(** [AncestorIterator]: the parents above a key, nearest first. *)
Fixpoint ancestor_iter (fuel : nat) (infos : gmap SlotHashKey ForkInfo)
    (current_slot_hash_key : SlotHashKey) : list SlotHashKey :=
  match fuel with
  | O => []
  | S fuel =>
      match infos !! current_slot_hash_key ≫= fi_parent with
      | Some parent => parent :: ancestor_iter fuel infos parent
      | None => []
      end
  end.

Definition ancestor_iterator (fc : HeaviestSubtreeForkChoice) (start : SlotHashKey)
    : list SlotHashKey :=
  ancestor_iter (size (fork_infos fc)) (fork_infos fc) start.

(** [is_strict_ancestor]. *)
Definition is_strict_ancestor (fc : HeaviestSubtreeForkChoice)
    (maybe_ancestor_key node_key : SlotHashKey) : bool :=
  if bool_decide (maybe_ancestor_key = node_key) then false
  else if node_key.1 <? maybe_ancestor_key.1 then false
  else existsb (fun a => (a.1 =? maybe_ancestor_key.1) && (a.2 =? maybe_ancestor_key.2)%N)
         (ancestor_iterator fc node_key).

(** ** New leaves and roots *)

(** One child of the loop of [is_best_child]: [false] when it beats the candidate. *)
Definition loses_to (fc : HeaviestSubtreeForkChoice) (maybe_best_child : SlotHashKey)
    (maybe_best_child_weight : ForkWeight) (child : SlotHashKey) : outcome bool :=
  child_weight ← unwrap (stake_voted_subtree fc child);
  candidate ← unwrap (is_candidate fc child);
  Returns
    (candidate
     && ((maybe_best_child_weight <? child_weight)
         || ((maybe_best_child_weight =? child_weight) && key_ltb child maybe_best_child))).

Fixpoint any_beats (fc : HeaviestSubtreeForkChoice) (maybe_best_child : SlotHashKey)
    (weight : ForkWeight) (children : list SlotHashKey) : outcome bool :=
  match children with
  | [] => Returns false
  | child :: rest =>
      lost ← loses_to fc maybe_best_child weight child;
      if (lost : bool) then Returns true else any_beats fc maybe_best_child weight rest
  end.

(** [is_best_child]. *)
Definition is_best_child (fc : HeaviestSubtreeForkChoice) (maybe_best_child : SlotHashKey)
    : outcome bool :=
  weight ← unwrap (stake_voted_subtree fc maybe_best_child);
  match fc_parent fc maybe_best_child with
  | None => Returns true
  | Some parent =>
      children ← unwrap (fc_children fc parent);
      beaten ← any_beats fc maybe_best_child weight children;
      Returns (negb beaten)
  end.

(** The loop of [propagate_new_leaf] over the ancestors. *)
Fixpoint propagate_loop (fuel : nat) (infos : gmap SlotHashKey ForkInfo)
    (slot_hash_key parent_best : SlotHashKey) (ancestor : option SlotHashKey)
    : outcome (gmap SlotHashKey ForkInfo) :=
  match ancestor with
  | None => Returns infos
  | Some key =>
      match fuel with
      | O => Panics
      | S fuel =>
          info ← unwrap (infos !! key);
          if decide (fi_best_slot info = parent_best)
          then propagate_loop fuel (<[key := fi_set_best info slot_hash_key]> infos)
                 slot_hash_key parent_best (fi_parent info)
          else Returns infos
      end
  end.

(** [propagate_new_leaf]. *)
Definition propagate_new_leaf (fc : HeaviestSubtreeForkChoice)
    (slot_hash_key parent_slot_hash_key : SlotHashKey) : outcome HeaviestSubtreeForkChoice :=
  parent_best ← unwrap (best_slot fc parent_slot_hash_key);
  best ← is_best_child fc slot_hash_key;
  if (best : bool) then
    infos ← propagate_loop (size (fork_infos fc)) (fork_infos fc) slot_hash_key parent_best
              (Some parent_slot_hash_key);
    Returns (fc_set_infos fc infos)
  else Returns fc.

(** [add_new_leaf_slot]. *)
Definition add_new_leaf_slot (fc : HeaviestSubtreeForkChoice) (slot_hash_key : SlotHashKey)
    (parent : option SlotHashKey) : outcome HeaviestSubtreeForkChoice :=
  if contains_block fc slot_hash_key then Returns fc
  else
    let leaf :=
      {| fi_stake_voted_at := 0;
         fi_stake_voted_subtree := 0;
         fi_best_slot := slot_hash_key;
         fi_parent := parent;
         fi_children := [];
         fi_latest_invalid_ancestor := parent ≫= latest_invalid_ancestor fc;
         fi_is_duplicate_confirmed := negb (is_some parent) |} in
    let fc := fc_set_infos fc (<[slot_hash_key := leaf]> (fork_infos fc)) in
    match parent with
    | None => Returns fc
    | Some parent =>
        info ← unwrap (fork_infos fc !! parent);
        propagate_new_leaf
          (fc_set_infos fc (<[parent := fi_push_child info slot_hash_key]> (fork_infos fc)))
          slot_hash_key parent
    end.

(** [HeaviestSubtreeForkChoice::new]. *)
Definition fc_new (root : SlotHashKey) : outcome HeaviestSubtreeForkChoice :=
  add_new_leaf_slot {| fork_infos := ∅; latest_votes := ∅; fc_root := root |} root None.

(** What the constructor below reads of a [Bank]. *)
Record FrozenBank := {
  fb_slot : Slot;
  fb_hash : Hash;
  fb_parent_slot : Slot;
  fb_parent_hash : Hash;
  fb_is_frozen : bool;
}.

Fixpoint add_frozen_banks (fc : HeaviestSubtreeForkChoice) (prev_slot : Slot)
    (banks : list FrozenBank) : outcome HeaviestSubtreeForkChoice :=
  match banks with
  | [] => Returns fc
  | bank :: rest =>
      _ ← assert_ (fb_is_frozen bank);
      if (fc_root fc).1 <? fb_slot bank then
        _ ← assert_ (prev_slot <? fb_slot bank);
        _ ← assert_ (negb (fb_hash bank =? 0)%N);
        _ ← assert_ (negb (fb_parent_hash bank =? 0)%N);
        fc ← add_new_leaf_slot fc (fb_slot bank, fb_hash bank)
               (Some (fb_parent_slot bank, fb_parent_hash bank));
        add_frozen_banks fc (fb_slot bank) rest
      else add_frozen_banks fc prev_slot rest
  end.

(** [new_from_frozen_banks]. *)
Definition new_from_frozen_banks (root : SlotHashKey) (frozen_banks : list FrozenBank)
    : outcome HeaviestSubtreeForkChoice :=
  fc ← fc_new root; add_frozen_banks fc root.1 frozen_banks.

Fixpoint remove_all (infos : gmap SlotHashKey ForkInfo) (keys : list SlotHashKey)
    : outcome (gmap SlotHashKey ForkInfo) :=
  match keys with
  | [] => Returns infos
  | key :: rest => _ ← unwrap (infos !! key); remove_all (delete key infos) rest
  end.

(** [set_root]. *)
Definition set_root (fc : HeaviestSubtreeForkChoice) (new_root : SlotHashKey)
    : outcome HeaviestSubtreeForkChoice :=
  remove_set ← subtree_diff fc (fc_root fc) new_root;
  infos ← remove_all (fork_infos fc) (elements remove_set);
  info ← unwrap (infos !! new_root);
  Returns {| fork_infos := <[new_root := fi_set_parent info None]> infos;
             latest_votes := latest_votes fc;
             fc_root := new_root |}.

(** [add_root_parent]. *)
Definition add_root_parent (fc : HeaviestSubtreeForkChoice) (root_parent : SlotHashKey)
    : outcome HeaviestSubtreeForkChoice :=
  _ ← assert_ (root_parent.1 <? (fc_root fc).1);
  _ ← assert_ (negb (is_some (fork_infos fc !! root_parent)));
  root_info ← unwrap (fork_infos fc !! fc_root fc);
  let root_parent_info :=
    {| fi_stake_voted_at := 0;
       fi_stake_voted_subtree := fi_stake_voted_subtree root_info;
       fi_best_slot := fi_best_slot root_info;
       fi_parent := None;
       fi_children := [fc_root fc];
       fi_latest_invalid_ancestor := None;
       fi_is_duplicate_confirmed := fi_is_duplicate_confirmed root_info |} in
  Returns
    {| fork_infos :=
         <[root_parent := root_parent_info]>
           (<[fc_root fc := fi_set_parent root_info (Some root_parent)]> (fork_infos fc));
       latest_votes := latest_votes fc;
       fc_root := root_parent |}.

(** ** Processing updates *)

(** What [aggregate_slot] gathers over the children. *)
Record Aggregate := {
  ag_stake_voted_subtree : ForkWeight;
  ag_best_child_stake : ForkWeight;
  ag_best_child_slot_key : SlotHashKey;
  ag_best_slot_hash_key : SlotHashKey;
  ag_is_duplicate_confirmed : bool;
}.

(** One child of the loop of [aggregate_slot]. *)
Definition aggregate_child (slot_hash_key : SlotHashKey) (acc : Aggregate)
    (child_key : SlotHashKey) (child : ForkInfo) : Aggregate :=
  let better :=
    fi_is_candidate child
    && (bool_decide (ag_best_child_slot_key acc = slot_hash_key)
        || (ag_best_child_stake acc <? fi_stake_voted_subtree child)
        || ((fi_stake_voted_subtree child =? ag_best_child_stake acc)
            && key_ltb child_key (ag_best_child_slot_key acc))) in
  {| ag_stake_voted_subtree := wrap64 (ag_stake_voted_subtree acc + fi_stake_voted_subtree child);
     ag_best_child_stake :=
       if better then fi_stake_voted_subtree child else ag_best_child_stake acc;
     ag_best_child_slot_key := if better then child_key else ag_best_child_slot_key acc;
     ag_best_slot_hash_key := if better then fi_best_slot child else ag_best_slot_hash_key acc;
     ag_is_duplicate_confirmed :=
       ag_is_duplicate_confirmed acc || fi_is_duplicate_confirmed child |}.

Fixpoint aggregate_children (infos : gmap SlotHashKey ForkInfo) (slot_hash_key : SlotHashKey)
    (acc : Aggregate) (children : list SlotHashKey) : outcome Aggregate :=
  match children with
  | [] => Returns acc
  | child_key :: rest =>
      child ← unwrap (infos !! child_key);
      aggregate_children infos slot_hash_key (aggregate_child slot_hash_key acc child_key child) rest
  end.

Definition aggregate_init (slot_hash_key : SlotHashKey) (fi : ForkInfo) : Aggregate :=
  {| ag_stake_voted_subtree := fi_stake_voted_at fi;
     ag_best_child_stake := 0;
     ag_best_child_slot_key := slot_hash_key;
     ag_best_slot_hash_key := slot_hash_key;
     ag_is_duplicate_confirmed := false |}.

(** The fields [aggregate_slot] writes. *)
Definition aggregate_write (fi : ForkInfo) (ag : Aggregate) : ForkInfo :=
  let fi := if ag_is_duplicate_confirmed ag then fi_set_duplicate_confirmed fi else fi in
  fi_set_best (fi_set_stakes fi (fi_stake_voted_at fi) (ag_stake_voted_subtree ag))
    (ag_best_slot_hash_key ag).

(** [aggregate_slot]. *)
Definition aggregate_slot (infos : gmap SlotHashKey ForkInfo) (slot_hash_key : SlotHashKey)
    : outcome (gmap SlotHashKey ForkInfo) :=
  match infos !! slot_hash_key with
  | Some fi =>
      ag ← aggregate_children infos slot_hash_key (aggregate_init slot_hash_key fi) (fi_children fi);
      Returns (<[slot_hash_key := aggregate_write fi ag]> infos)
  | None => Returns infos
  end.

(** [mark_fork_valid]. *)
Definition mark_fork_valid (infos : gmap SlotHashKey ForkInfo) (fork_to_modify_key : SlotHashKey)
    (valid_slot : Slot) : gmap SlotHashKey ForkInfo :=
  match infos !! fork_to_modify_key with
  | Some fi =>
      let fi := update_with_newly_valid_ancestor fi valid_slot in
      <[fork_to_modify_key :=
          if fork_to_modify_key.1 =? valid_slot
          then fi_set_validity fi (fi_latest_invalid_ancestor fi) true else fi]> infos
  | None => infos
  end.

(** [mark_fork_invalid]. *)
Definition mark_fork_invalid (infos : gmap SlotHashKey ForkInfo) (fork_to_modify_key : SlotHashKey)
    (invalid_slot : Slot) : outcome (gmap SlotHashKey ForkInfo) :=
  match infos !! fork_to_modify_key with
  | Some fi =>
      fi ← update_with_newly_invalid_ancestor fi invalid_slot;
      Returns (<[fork_to_modify_key := fi]> infos)
  | None => Returns infos
  end.

(** [add_slot_stake] and [subtract_slot_stake]. *)
Definition add_slot_stake (infos : gmap SlotHashKey ForkInfo) (slot_hash_key : SlotHashKey)
    (stake : Z) : gmap SlotHashKey ForkInfo :=
  match infos !! slot_hash_key with
  | Some fi =>
      <[slot_hash_key := fi_set_stakes fi (wrap64 (fi_stake_voted_at fi + stake))
                           (wrap64 (fi_stake_voted_subtree fi + stake))]> infos
  | None => infos
  end.

Definition subtract_slot_stake (infos : gmap SlotHashKey ForkInfo) (slot_hash_key : SlotHashKey)
    (stake : Z) : gmap SlotHashKey ForkInfo :=
  match infos !! slot_hash_key with
  | Some fi =>
      <[slot_hash_key := fi_set_stakes fi (wrap64 (fi_stake_voted_at fi - stake))
                           (wrap64 (fi_stake_voted_subtree fi - stake))]> infos
  | None => infos
  end.

(** One iteration of [process_update_operations]. *)
Definition process_op (infos : gmap SlotHashKey ForkInfo)
    (entry : (SlotHashKey * UpdateLabel) * UpdateOperation)
    : outcome (gmap SlotHashKey ForkInfo) :=
  match entry.2 with
  | OMarkValid valid_slot => Returns (mark_fork_valid infos entry.1.1 valid_slot)
  | OMarkInvalid invalid_slot => mark_fork_invalid infos entry.1.1 invalid_slot
  | OAggregate => aggregate_slot infos entry.1.1
  | OAdd stake => Returns (add_slot_stake infos entry.1.1 stake)
  | OSubtract stake => Returns (subtract_slot_stake infos entry.1.1 stake)
  end.

Fixpoint process_ops (infos : gmap SlotHashKey ForkInfo)
    (entries : list ((SlotHashKey * UpdateLabel) * UpdateOperation))
    : outcome (gmap SlotHashKey ForkInfo) :=
  match entries with
  | [] => Returns infos
  | entry :: rest => infos ← process_op infos entry; process_ops infos rest
  end.

(** [update_operations.into_iter().rev()]. *)
Definition ops_rev (ops : UpdateOperations) : list ((SlotHashKey * UpdateLabel) * UpdateOperation) :=
  rev (merge_sort op_le (map_to_list ops)).

(** [process_update_operations]. *)
Definition process_update_operations (fc : HeaviestSubtreeForkChoice) (ops : UpdateOperations)
    : outcome HeaviestSubtreeForkChoice :=
  infos ← process_ops (fork_infos fc) (ops_rev ops); Returns (fc_set_infos fc infos).

(** ** Generating updates *)

(** [do_insert_aggregate_operation]. *)
Definition do_insert_aggregate_operation (ops : UpdateOperations)
    (modify_fork_validity : option UpdateOperation) (slot_hash_key : SlotHashKey)
    : UpdateOperations * bool :=
  if is_some (ops !! (slot_hash_key, LAggregate)) then (ops, false)
  else
    let ops :=
      match modify_fork_validity with
      | Some (OMarkValid slot) => <[(slot_hash_key, LMarkValid slot) := OMarkValid slot]> ops
      | Some (OMarkInvalid slot) => <[(slot_hash_key, LMarkInvalid slot) := OMarkInvalid slot]> ops
      | _ => ops
      end in
    (<[(slot_hash_key, LAggregate) := OAggregate]> ops, true).

(** [do_insert_aggregate_operations_across_ancestors], on the iterator's items. *)
Fixpoint insert_across (ops : UpdateOperations) (modify_fork_validity : option UpdateOperation)
    (ancestors : list SlotHashKey) : UpdateOperations :=
  match ancestors with
  | [] => ops
  | parent_slot_hash_key :: rest =>
      let '(ops, inserted) :=
        do_insert_aggregate_operation ops modify_fork_validity parent_slot_hash_key in
      if (inserted : bool) then insert_across ops modify_fork_validity rest else ops
  end.

(** [insert_aggregate_operations]. *)
Definition insert_aggregate_operations (fc : HeaviestSubtreeForkChoice) (ops : UpdateOperations)
    (slot_hash_key : SlotHashKey) : UpdateOperations :=
  insert_across ops None (ancestor_iterator fc slot_hash_key).

(** [EpochStakes], by the stake of its vote accounts. *)
Record EpochStakes := { es_vote_accounts : gmap Pubkey Z }.

(** [EpochStakes::vote_account_stake]. *)
Definition vote_account_stake (es : EpochStakes) (vote_account : Pubkey) : Z :=
  default 0 (es_vote_accounts es !! vote_account).

(** [epoch_stakes.get(&epoch).map(..).unwrap_or(0)] for the epoch of a slot. *)
Definition stake_at (epoch_stakes : gmap Epoch EpochStakes) (epoch_schedule : EpochSchedule)
    (slot : Slot) (pubkey : Pubkey) : Z :=
  match epoch_stakes !! get_epoch epoch_schedule slot with
  | Some es => vote_account_stake es pubkey
  | None => 0
  end.

(** Whether a vote is not newer than the latest one: a smaller slot, or the same
    slot and a hash that is not smaller. *)
Definition outdated (new_vote old_vote : SlotHashKey) : bool :=
  (new_vote.1 <? old_vote.1) || ((new_vote.1 =? old_vote.1) && (old_vote.2 <=? new_vote.2)%N).

(** What the loop of [generate_update_operations] threads: the latest votes, the
    operations and the keys seen. *)
Record VoteLoop := {
  vl_latest_votes : gmap Pubkey SlotHashKey;
  vl_ops : UpdateOperations;
  vl_observed : gset Pubkey;
}.

(** The part of an iteration that moves the stake away from the previous vote. *)
Definition leave_old_vote (fc : HeaviestSubtreeForkChoice) (epoch_stakes : gmap Epoch EpochStakes)
    (epoch_schedule : EpochSchedule) (ops : UpdateOperations) (pubkey : Pubkey)
    (new_vote : SlotHashKey) (old_vote : option SlotHashKey) : outcome UpdateOperations :=
  match old_vote with
  | None => Returns ops
  | Some old_vote =>
      _ ← assert_ (if new_vote.1 =? old_vote.1 then (new_vote.2 <? old_vote.2)%N
                   else old_vote.1 <? new_vote.1);
      let stake_update := stake_at epoch_stakes epoch_schedule old_vote.1 pubkey in
      if 0 <? stake_update then
        ops ← upsert_stake ops (old_vote, LSubtract) (OSubtract stake_update) stake_update;
        Returns (insert_aggregate_operations fc ops old_vote)
      else Returns ops
  end.

(** One iteration of the loop of [generate_update_operations]. *)
Definition vote_step (fc : HeaviestSubtreeForkChoice) (epoch_stakes : gmap Epoch EpochStakes)
    (epoch_schedule : EpochSchedule) (st : VoteLoop) (pubkey_vote : Pubkey * SlotHashKey)
    : outcome VoteLoop :=
  let '(pubkey, new_vote) := pubkey_vote in
  if new_vote.1 <? (fc_root fc).1 then Returns st
  else if decide (pubkey ∈ vl_observed st) then Panics
  else
    let observed := {[pubkey]} ∪ vl_observed st in
    let old_vote := vl_latest_votes st !! pubkey in
    if match old_vote with Some old => outdated new_vote old | None => false end
    then Returns {| vl_latest_votes := vl_latest_votes st; vl_ops := vl_ops st;
                    vl_observed := observed |}
    else
      ops ← leave_old_vote fc epoch_stakes epoch_schedule (vl_ops st) pubkey new_vote old_vote;
      let stake_update := stake_at epoch_stakes epoch_schedule new_vote.1 pubkey in
      ops ← upsert_stake ops (new_vote, LAdd) (OAdd stake_update) stake_update;
      Returns {| vl_latest_votes := <[pubkey := new_vote]> (vl_latest_votes st);
                 vl_ops := insert_aggregate_operations fc ops new_vote;
                 vl_observed := observed |}.

Fixpoint vote_loop (fc : HeaviestSubtreeForkChoice) (epoch_stakes : gmap Epoch EpochStakes)
    (epoch_schedule : EpochSchedule) (st : VoteLoop) (pubkey_votes : list (Pubkey * SlotHashKey))
    : outcome VoteLoop :=
  match pubkey_votes with
  | [] => Returns st
  | vote :: rest =>
      st ← vote_step fc epoch_stakes epoch_schedule st vote;
      vote_loop fc epoch_stakes epoch_schedule st rest
  end.

(** [generate_update_operations]: the fork choice with its new latest votes, and
    the batch. *)
Definition generate_update_operations (fc : HeaviestSubtreeForkChoice)
    (pubkey_votes : list (Pubkey * SlotHashKey)) (epoch_stakes : gmap Epoch EpochStakes)
    (epoch_schedule : EpochSchedule) : outcome (HeaviestSubtreeForkChoice * UpdateOperations) :=
  st ← vote_loop fc epoch_stakes epoch_schedule
         {| vl_latest_votes := latest_votes fc; vl_ops := ∅; vl_observed := ∅ |} pubkey_votes;
  Returns ({| fork_infos := fork_infos fc; latest_votes := vl_latest_votes st;
              fc_root := fc_root fc |}, vl_ops st).

(** [add_votes]. *)
Definition add_votes (fc : HeaviestSubtreeForkChoice) (pubkey_votes : list (Pubkey * SlotHashKey))
    (epoch_stakes : gmap Epoch EpochStakes) (epoch_schedule : EpochSchedule)
    : outcome (HeaviestSubtreeForkChoice * SlotHashKey) :=
  '(fc, ops) ← generate_update_operations fc pubkey_votes epoch_stakes epoch_schedule;
  fc ← process_update_operations fc ops;
  best ← best_overall_slot fc;
  Returns (fc, best).

Fixpoint add_leaves (fc : HeaviestSubtreeForkChoice) (nodes : list (SlotHashKey * SlotHashKey))
    : outcome HeaviestSubtreeForkChoice :=
  match nodes with
  | [] => Returns fc
  | (key, parent) :: rest => fc ← add_new_leaf_slot fc key (Some parent); add_leaves fc rest
  end.

(** The order of [sort_by_key] on nodes paired with their parents. *)
Definition node_le (p q : SlotHashKey * SlotHashKey) : Prop := key_le p.1 q.1.
#[global] Instance node_le_dec : RelDecision node_le.
Proof. intros p q. unfold node_le. apply _. Defined.

(** [merge]. *)
Definition merge_nodes (other : HeaviestSubtreeForkChoice) (merge_leaf : SlotHashKey)
    : list (SlotHashKey * SlotHashKey) :=
  merge_sort node_le
    ((fun e => (e.1, default merge_leaf (fi_parent e.2))) <$> map_to_list (fork_infos other)).

Definition merge (fc other : HeaviestSubtreeForkChoice) (merge_leaf : SlotHashKey)
    (epoch_stakes : gmap Epoch EpochStakes) (epoch_schedule : EpochSchedule)
    : outcome HeaviestSubtreeForkChoice :=
  _ ← assert_ (contains_block fc merge_leaf);
  fc ← add_leaves fc (merge_nodes other merge_leaf);
  '(fc, _) ← add_votes fc (map_to_list (latest_votes other)) epoch_stakes epoch_schedule;
  Returns fc.

(** ** Marking forks *)

(** The operations of a mark over a subtree, and the aggregations above it. *)
Definition mark_operations (fc : HeaviestSubtreeForkChoice) (key : SlotHashKey)
    (op : UpdateOperation) (subtree : gset SlotHashKey) : UpdateOperations :=
  insert_aggregate_operations fc
    (foldl (fun ops child => (do_insert_aggregate_operation ops (Some op) child).1) ∅
       (elements subtree))
    key.

(** [mark_fork_invalid_candidate]. *)
Definition mark_fork_invalid_candidate (fc : HeaviestSubtreeForkChoice)
    (invalid_slot_hash_key : SlotHashKey) : outcome HeaviestSubtreeForkChoice :=
  match fork_infos fc !! invalid_slot_hash_key with
  | None => Returns fc
  | Some fork_info =>
      _ ← assert_ (negb (fi_is_duplicate_confirmed fork_info));
      subtree ← subtree_diff fc invalid_slot_hash_key slot_hash_default;
      process_update_operations fc
        (mark_operations fc invalid_slot_hash_key (OMarkInvalid invalid_slot_hash_key.1) subtree)
  end.

Fixpoint newly_confirmed (fc : HeaviestSubtreeForkChoice) (keys : list SlotHashKey)
    : outcome (list SlotHashKey) :=
  match keys with
  | [] => Returns []
  | key :: rest =>
      confirmed ← unwrap (is_duplicate_confirmed fc key);
      others ← newly_confirmed fc rest;
      Returns (if (confirmed : bool) then others else key :: others)
  end.

(** [mark_fork_valid_candidate]. *)
Definition mark_fork_valid_candidate (fc : HeaviestSubtreeForkChoice)
    (valid_slot_hash_key : SlotHashKey)
    : outcome (HeaviestSubtreeForkChoice * list SlotHashKey) :=
  newly ← newly_confirmed fc (valid_slot_hash_key :: ancestor_iterator fc valid_slot_hash_key);
  subtree ← subtree_diff fc valid_slot_hash_key slot_hash_default;
  fc ← process_update_operations fc
         (mark_operations fc valid_slot_hash_key (OMarkValid valid_slot_hash_key.1) subtree);
  Returns (fc, newly).
