(* ===== verification/ForkTree.v ===== *)
(** * The shape of the block tree

    The parent and child links of [ForkChoice], apart from stakes and validity.
    [tree_ok] says that the links form one tree whose slots grow along every
    edge.  On such a tree the fuel of the walks is enough: the ancestor iterator
    lists exactly the strict ancestors, and [subtree_diff] returns exactly the
    subtree of its first root without the subtree of its second. *)

From S2P Require Import Prelude EpochSchedule ForkChoice.

(** ** Trees of links *)

Abbreviation Links := (gmap SlotHashKey (option SlotHashKey * list SlotHashKey)) (only parsing).

Definition links (infos : gmap SlotHashKey ForkInfo) : Links :=
  (fun fi => (fi_parent fi, fi_children fi)) <$> infos.
#[global] Arguments links : simpl never.

Definition parent_of (t : Links) (k : SlotHashKey) : option SlotHashKey := t !! k ≫= fst.

(** [reach t a k]: [a] is [k] or an ancestor of it. *)
Inductive reach (t : Links) (a : SlotHashKey) : SlotHashKey -> Prop :=
| reach_refl : reach t a a
| reach_up k p : parent_of t k = Some p -> reach t a p -> reach t a k.

Record tree_ok (t : Links) (root : SlotHashKey) : Prop := {
  to_root : exists cs, t !! root = Some (None, cs);
  to_orphan : forall k cs, t !! k = Some (None, cs) -> k = root;
  to_parent : forall k p cs, t !! k = Some (Some p, cs) ->
    p.1 < k.1 /\ exists q cs', t !! p = Some (q, cs') /\ k ∈ cs';
  to_child : forall k q cs c, t !! k = Some (q, cs) -> c ∈ cs -> exists cs', t !! c = Some (Some k, cs');
  to_nodup : forall k q cs, t !! k = Some (q, cs) -> NoDup cs;
  to_slot : forall k, is_Some (t !! k) -> 0 <= k.1;
}.

(** ** Ancestors *)

Lemma links_lookup infos k :
  links infos !! k = (fun fi => (fi_parent fi, fi_children fi)) <$> infos !! k.
Proof. apply lookup_fmap. Qed.

Lemma links_Some infos k fi :
  infos !! k = Some fi -> links infos !! k = Some (fi_parent fi, fi_children fi).
Proof. rewrite links_lookup. by intros ->. Qed.

Lemma links_parent infos k : parent_of (links infos) k = infos !! k ≫= fi_parent.
Proof. unfold parent_of. rewrite links_lookup. by destruct (infos !! k). Qed.

Lemma links_is_Some infos k : is_Some (links infos !! k) <-> is_Some (infos !! k).
Proof. rewrite links_lookup. apply fmap_is_Some. Qed.

Lemma links_dom infos : dom (links infos) = dom infos.
Proof. apply dom_fmap_L. Qed.

Lemma links_size infos : size (links infos) = size infos.
Proof. apply map_size_fmap. Qed.

Section Tree.
Context (t : Links) (root : SlotHashKey) (Hok : tree_ok t root).

Lemma parent_lookup k p : parent_of t k = Some p -> exists cs, t !! k = Some (Some p, cs).
Proof.
  unfold parent_of. destruct (t !! k) as [[q cs]|]; cbn; [|done]. intros ->. eauto.
Qed.

Lemma parent_spec k p :
  parent_of t k = Some p ->
  p.1 < k.1 /\ exists q cs', t !! p = Some (q, cs') /\ k ∈ cs'.
Proof. intros (cs & Hk)%parent_lookup. by apply (to_parent t root Hok) in Hk. Qed.

Lemma child_parent k q cs c : t !! k = Some (q, cs) -> c ∈ cs -> parent_of t c = Some k.
Proof.
  intros Hk Hc. destruct (to_child t root Hok _ _ _ _ Hk Hc) as (cs' & Hcs).
  unfold parent_of. by rewrite Hcs.
Qed.

Lemma child_in k q cs c : t !! k = Some (q, cs) -> c ∈ cs -> is_Some (t !! c).
Proof. intros Hk Hc. destruct (to_child t root Hok _ _ _ _ Hk Hc) as (cs' & ->). eauto. Qed.

Lemma child_slot k q cs c : t !! k = Some (q, cs) -> c ∈ cs -> k.1 < c.1.
Proof. intros Hk Hc. by destruct (parent_spec c k (child_parent _ _ _ _ Hk Hc)). Qed.

Lemma parent_in k p : parent_of t k = Some p -> is_Some (t !! p).
Proof. intros (_ & q & cs & -> & _)%parent_spec. eauto. Qed.

Lemma root_parent : parent_of t root = None.
Proof. destruct (to_root t root Hok) as (cs & H). unfold parent_of. by rewrite H. Qed.

Lemma no_parent_root k : is_Some (t !! k) -> parent_of t k = None -> k = root.
Proof.
  unfold parent_of. intros [[[p|] cs] Hk]; rewrite Hk; [done|]. intros _.
  by apply (to_orphan t root Hok k cs).
Qed.

Lemma reach_slot a k : reach t a k -> a.1 <= k.1.
Proof. induction 1 as [|k p Hp _ IH]; [lia|]. destruct (parent_spec _ _ Hp). lia. Qed.

Lemma reach_slot_eq a k : reach t a k -> a.1 = k.1 -> a = k.
Proof.
  intros H Hs. destruct H as [|k p Hp H]; [done|].
  apply reach_slot in H. destruct (parent_spec _ _ Hp). lia.
Qed.

Lemma reach_trans a b c : reach t a b -> reach t b c -> reach t a c.
Proof. intros Hab. induction 1; [done|]. by eapply reach_up. Qed.

Lemma reach_antisym a b : reach t a b -> reach t b a -> a = b.
Proof.
  intros H1 H2. apply reach_slot_eq; [done|]. apply reach_slot in H1, H2. lia.
Qed.

(** Two ancestors of one node lie on one path. *)
Lemma reach_linear a b k : reach t a k -> reach t b k -> reach t a b \/ reach t b a.
Proof.
  intros Ha. revert b. induction Ha as [|k p Hp Ha IH]; intros b Hb; [by right|].
  inversion Hb as [|k' p' Hp' Hb']; subst.
  - left. by eapply reach_up.
  - simplify_eq. by apply IH.
Qed.

Lemma reach_in a k : reach t a k -> is_Some (t !! k) -> is_Some (t !! a).
Proof. induction 1 as [|k p Hp _ IH]; [done|]. intros _. apply IH. by eapply parent_in. Qed.

Lemma reach_child k q cs c x : t !! k = Some (q, cs) -> c ∈ cs -> reach t c x -> reach t k x.
Proof.
  intros Hk Hc Hx. apply (reach_trans _ c); [|done].
  eapply reach_up; [by eapply child_parent|apply reach_refl].
Qed.

(** A strict descendant lies below exactly one child. *)
Lemma reach_below k x :
  reach t k x -> k <> x -> exists q cs c, t !! k = Some (q, cs) /\ c ∈ cs /\ reach t c x.
Proof.
  induction 1 as [|x p Hp Hr IH]; [done|]. intros Hne.
  destruct (decide (k = p)) as [->|Hkp].
  - destruct (parent_spec _ _ Hp) as (_ & q & cs & Ht & Hin). exists q, cs, x. eauto using reach_refl.
  - destruct (IH Hkp) as (q & cs & c & Ht & Hc & Hrc). exists q, cs, c. eauto using reach_up.
Qed.

Lemma reach_one_child k q cs c1 c2 x :
  t !! k = Some (q, cs) -> c1 ∈ cs -> c2 ∈ cs -> reach t c1 x -> reach t c2 x -> c1 = c2.
Proof.
  intros Hk H1 H2 Hx1 Hx2.
  enough (forall a b, a ∈ cs -> b ∈ cs -> reach t a b -> a = b).
  { destruct (reach_linear _ _ _ Hx1 Hx2); [|symmetry]; auto. }
  intros a b Ha Hb Hab. inversion Hab as [|? p Hp Hr]; subst; [done|].
  rewrite (child_parent _ _ _ _ Hk Hb) in Hp. simplify_eq.
  apply reach_slot in Hr. pose proof (child_slot _ _ _ _ Hk Ha). lia.
Qed.

Lemma reach_child_not_up k q cs c : t !! k = Some (q, cs) -> c ∈ cs -> ~ reach t c k.
Proof. intros Hk Hc Hr%reach_slot. pose proof (child_slot _ _ _ _ Hk Hc). lia. Qed.

(** Every node is below the root. *)
Lemma reach_root k : is_Some (t !! k) -> reach t root k.
Proof.
  intros Hk. pose proof (to_slot t root Hok k Hk) as H0.
  remember (Z.to_nat k.1) as n eqn:Hn. revert k Hk H0 Hn.
  induction n as [n IH] using lt_wf_ind. intros k Hk H0 Hn.
  destruct (parent_of t k) as [p|] eqn:Hp.
  - destruct (parent_spec _ _ Hp) as (Hs & _). pose proof (parent_in _ _ Hp) as Hin.
    pose proof (to_slot t root Hok p Hin).
    eapply reach_up; [done|]. apply (IH (Z.to_nat p.1)); [lia|done|done|done].
  - rewrite (no_parent_root k Hk Hp). apply reach_refl.
Qed.

(** Induction from the leaves to the root. *)
Lemma tree_ind (P : SlotHashKey -> Prop) :
  (forall k q cs, t !! k = Some (q, cs) -> (forall c, c ∈ cs -> P c) -> P k) ->
  forall k, is_Some (t !! k) -> P k.
Proof.
  intros Hstep.
  assert (Hmax : exists m, forall k, is_Some (t !! k) -> k.1 <= m).
  { clear. induction t as [|k v t' _ IH] using map_ind; [exists 0; intros k [? ?%lookup_empty_Some]; done|].
    destruct IH as [m Hm]. exists (Z.max m k.1). intros k' [? H].
    apply lookup_insert_Some in H as [[<- _]|[_ H]]; [lia|]. specialize (Hm k'). rewrite H in Hm.
    assert (k'.1 <= m) by eauto. lia. }
  destruct Hmax as [m Hm]. intros k Hk.
  remember (Z.to_nat (m - k.1)) as n eqn:Hn. revert k Hk Hn.
  induction n as [n IH] using lt_wf_ind. intros k Hk Hn.
  destruct Hk as [[q cs] Hk]. apply (Hstep k q cs Hk). intros c Hc.
  pose proof (child_slot _ _ _ _ Hk Hc). pose proof (child_in _ _ _ _ Hk Hc) as Hin.
  pose proof (Hm c Hin). apply (IH (Z.to_nat (m - c.1))); [lia|done|done].
Qed.
End Tree.

(** ** The ancestor iterator *)

Section Ancestors.
Context (infos : gmap SlotHashKey ForkInfo) (root : SlotHashKey).
Context (Hok : tree_ok (links infos) root).

Lemma ancestor_iter_slots fuel k :
  forall a, a ∈ ancestor_iter fuel infos k -> a.1 < k.1 /\ is_Some (infos !! a).
Proof.
  revert k. induction fuel as [|fuel IH]; intros k a; cbn; [by intros ?%not_elem_of_nil|].
  rewrite <- links_parent. destruct (parent_of (links infos) k) as [p|] eqn:Hp;
    [|by intros ?%not_elem_of_nil].
  destruct (parent_spec _ _ Hok _ _ Hp) as (Hs & _).
  pose proof (proj1 (links_is_Some _ _) (parent_in _ _ Hok _ _ Hp)).
  rewrite elem_of_cons. intros [->|Ha%IH]; [done|]. split; [lia|tauto].
Qed.

Lemma ancestor_iter_nodup fuel k : NoDup (ancestor_iter fuel infos k).
Proof.
  revert k. induction fuel as [|fuel IH]; intros k; cbn; [constructor|].
  destruct (infos !! k ≫= fi_parent) as [p|]; constructor; [|apply IH].
  intros H%ancestor_iter_slots. lia.
Qed.

Lemma ancestor_iter_length fuel k :
  is_Some (infos !! k) -> (length (ancestor_iter fuel infos k) < size infos)%nat.
Proof.
  intros Hk. assert (Hn : NoDup (k :: ancestor_iter fuel infos k)).
  { constructor; [|apply ancestor_iter_nodup]. intros H%ancestor_iter_slots. lia. }
  assert (Hs : list_to_set (k :: ancestor_iter fuel infos k) ⊆ dom infos).
  { intros a. rewrite elem_of_list_to_set, elem_of_cons, elem_of_dom.
    intros [->|Ha%ancestor_iter_slots]; tauto. }
  apply subseteq_size in Hs. rewrite size_list_to_set, size_dom in Hs by done. cbn in Hs. lia.
Qed.

Lemma ancestor_iter_stable fuel k :
  (length (ancestor_iter fuel infos k) < fuel)%nat ->
  ancestor_iter (S fuel) infos k = ancestor_iter fuel infos k.
Proof.
  revert k. induction fuel as [|fuel IH]; intros k; [cbn; lia|].
  change (ancestor_iter (S (S fuel)) infos k) with
    (match infos !! k ≫= fi_parent with
     | Some parent => parent :: ancestor_iter (S fuel) infos parent | None => [] end).
  change (ancestor_iter (S fuel) infos k) with
    (match infos !! k ≫= fi_parent with
     | Some parent => parent :: ancestor_iter fuel infos parent | None => [] end).
  destruct (infos !! k ≫= fi_parent) as [p|]; [|done]. cbn [length].
  intros H. f_equal. apply IH. lia.
Qed.

(** The fuel of the iterator is enough: it satisfies the iterator's equation. *)
Lemma ancestors_unfold fc k :
  fork_infos fc = infos ->
  ancestor_iterator fc k =
  match parent_of (links infos) k with
  | Some p => p :: ancestor_iterator fc p
  | None => []
  end.
Proof.
  intros Hfc. unfold ancestor_iterator. rewrite Hfc, links_parent.
  destruct (infos !! k) as [fi|] eqn:Hk; cbn.
  - rewrite <- ancestor_iter_stable; [cbn; by rewrite Hk|].
    apply ancestor_iter_length. by rewrite Hk.
  - destruct (size infos); cbn; [done|]. by rewrite Hk.
Qed.

(** It lists exactly the strict ancestors. *)
Lemma elem_of_ancestors fc a k :
  fork_infos fc = infos ->
  a ∈ ancestor_iterator fc k <-> reach (links infos) a k /\ a <> k.
Proof.
  intros Hfc. split.
  - intros Ha. split.
    + unfold ancestor_iterator in Ha. rewrite Hfc in Ha.
      remember (size infos) as fuel eqn:E. clear E. revert k Ha.
      induction fuel as [|fuel IH]; intros k; cbn; [by intros ?%not_elem_of_nil|].
      rewrite <- links_parent. destruct (parent_of (links infos) k) as [p|] eqn:Hp;
        [|by intros ?%not_elem_of_nil].
      rewrite elem_of_cons. intros [->|Ha%IH]; eauto using reach_up, reach_refl.
    + intros ->. unfold ancestor_iterator in Ha. rewrite Hfc in Ha.
      apply ancestor_iter_slots in Ha. lia.
  - intros [Hr Hne]. induction Hr as [|k p Hp Hr IH]; [done|].
    rewrite (ancestors_unfold _ _ Hfc), Hp. apply elem_of_cons.
    destruct (decide (a = p)); [by left|right; auto].
Qed.

Lemma reach_decision fc a k :
  fork_infos fc = infos -> Decision (reach (links infos) a k).
Proof.
  intros Hfc. destruct (decide (a = k)) as [->|Hne]; [left; apply reach_refl|].
  destruct (decide (a ∈ ancestor_iterator fc k)) as [Ha|Ha].
  - left. by apply (elem_of_ancestors fc a k Hfc).
  - right. intros Hr. apply Ha. by apply elem_of_ancestors.
Defined.
End Ancestors.

(** ** The walk *)

Section Walk.
Context (fc : HeaviestSubtreeForkChoice).
Abbreviation t := (links (fork_infos fc)).
Context (Hok : tree_ok t (fc_root fc)).

(** Two keys neither of which lies below the other. *)
Definition apart (x y : SlotHashKey) : Prop := ~ reach t x y /\ ~ reach t y x.

Lemma apart_list l :
  NoDup l -> (forall x y, x ∈ l -> y ∈ l -> x <> y -> apart x y) -> StronglySorted apart l.
Proof.
  induction 1 as [|x l Hx Hn IH]; intros Hl; constructor.
  - apply IH. set_solver.
  - apply Forall_forall. intros y Hy. apply Hl; set_solver.
Qed.

Lemma apart_children k q cs : t !! k = Some (q, cs) -> StronglySorted apart (rev cs).
Proof.
  intros Hk. apply apart_list.
  - rewrite <- Permutation_rev. by apply (to_nodup _ _ Hok k q).
  - intros x y. rewrite <- !Permutation_rev. intros Hx Hy Hne.
    split; intros Hr; apply Hne; [|symmetry];
      eapply (reach_one_child _ _ Hok); eauto using reach_refl.
Qed.

(** Replacing a key by its children keeps the keys apart. *)
Lemma apart_step k q cs rest :
  t !! k = Some (q, cs) -> StronglySorted apart (k :: rest) -> StronglySorted apart (rev cs ++ rest).
Proof.
  intros Hk [Hrest Hall]%StronglySorted_inv. apply StronglySorted_app_2; [|by eapply apart_children|done].
  intros c y Hc Hy. rewrite <- Permutation_rev in Hc. rewrite Forall_forall in Hall.
  destruct (Hall y Hy) as [Hky Hyk]. split; intros Hr.
  - by apply Hky, (reach_child _ _ Hok _ _ _ _ _ Hk Hc).
  - inversion Hr as [|c' p Hp Hr']; subst.
    + apply Hky. eapply (reach_child _ _ Hok); eauto using reach_refl.
    + rewrite (child_parent _ _ Hok _ _ _ _ Hk Hc) in Hp. by simplify_eq.
Qed.

(** [x] contributes [k] to a walk that stops at [r2]. *)
Definition walked (r2 x k : SlotHashKey) : Prop := reach t x k /\ ~ (reach t x r2 /\ reach t r2 k).

Lemma walked_stop r2 k : ~ walked r2 r2 k.
Proof. intros [Hr Hn]. apply Hn. split; [apply reach_refl|done]. Qed.

Lemma walked_node r2 x q cs k :
  t !! x = Some (q, cs) -> x <> r2 ->
  walked r2 x k <-> k = x \/ exists c, c ∈ cs /\ walked r2 c k.
Proof.
  intros Hx Hne. split.
  - intros [Hr Hn]. destruct (decide (x = k)) as [->|Hxk]; [by left|right].
    destruct (reach_below _ _ Hok _ _ Hr Hxk) as (q' & cs' & c & Hx' & Hc & Hrc). simplify_eq.
    exists c. split; [done|]. split; [done|]. intros [H1 H2]. apply Hn.
    split; [by eapply (reach_child _ _ Hok)|done].
  - intros [->|(c & Hc & Hr & Hn)].
    + split; [apply reach_refl|]. intros [H1 H2]. by apply Hne, (reach_antisym _ _ Hok).
    + split; [by eapply (reach_child _ _ Hok)|]. intros [H1 H2]. apply Hn. split; [|done].
      destruct (reach_below _ _ Hok _ _ H1 Hne) as (q' & cs' & c' & Hx' & Hc' & Hrc'). simplify_eq.
      by rewrite (reach_one_child _ _ Hok _ _ _ c c' k Hx Hc Hc' Hr (reach_trans _ _ _ _ Hrc' H2)).
Qed.

(** What one iteration does to the list of pending keys. *)
Lemma walked_step r2 x q cs rest k :
  t !! x = Some (q, cs) -> x <> r2 ->
  k = x \/ (exists y, y ∈ rev cs ++ rest /\ walked r2 y k) <-> exists y, y ∈ x :: rest /\ walked r2 y k.
Proof.
  intros Hx Hne. pose proof (walked_node r2 x q cs k Hx Hne) as Hw. split.
  - intros [->|(y & [Hy|Hy]%elem_of_app & Hwy)].
    + exists x. split; [left|]. apply Hw. by left.
    + exists x. split; [left|]. apply Hw. right. exists y. by rewrite <- Permutation_rev in Hy.
    + exists y. split; [by right|done].
  - intros (y & [->|Hy]%elem_of_cons & Hwy).
    + apply Hw in Hwy as [->|(c & Hc & Hwc)]; [by left|right]. exists c.
      rewrite elem_of_app, <- Permutation_rev. auto.
    + right. exists y. rewrite elem_of_app. auto.
Qed.

Lemma subtree_diff_loop_spec (fuel : nat) (r2 : SlotHashKey) (pending : list SlotHashKey) (seen left_ : gset SlotHashKey) :
  StronglySorted apart pending ->
  (forall x, x ∈ pending -> is_Some (fork_infos fc !! x)) ->
  (forall x k, x ∈ pending -> reach t x k -> is_Some (fork_infos fc !! k) -> k ∈ left_) ->
  (size left_ <= fuel)%nat ->
  exists s, subtree_diff_loop fuel fc r2 pending seen = Returns s
    /\ forall k, k ∈ s <-> k ∈ seen \/ (is_Some (fork_infos fc !! k) /\ exists x, x ∈ pending /\ walked r2 x k).
Proof.
  revert pending seen left_. induction fuel as [|fuel IH]; intros pending seen left_ Hap Hin Hleft Hsz;
    destruct pending as [|x rest].
  1, 3: exists seen; split; [done|]; set_solver.
  - assert (x ∈ left_) by (apply (Hleft x); [set_solver|apply reach_refl|apply Hin; set_solver]).
    assert (left_ ≡ ∅) by (apply size_empty_iff; lia). set_solver.
  - destruct (Hin x) as [fi Hx]; [set_solver|]. cbn [subtree_diff_loop].
    pose proof (links_Some _ _ _ Hx) as Hl.
    assert (x ∈ left_) by (apply (Hleft x); [set_solver|apply reach_refl|by rewrite Hx]).
    assert (Hsz' : (size (left_ ∖ {[x]}) <= fuel)%nat).
    { rewrite size_difference by set_solver. rewrite size_singleton. lia. }
    assert (Hap' := Hap). apply StronglySorted_inv in Hap' as [Hrest Hall]. rewrite Forall_forall in Hall.
    assert (Hrestleft : forall y k, y ∈ rest -> reach t y k -> is_Some (fork_infos fc !! k) -> k ∈ left_ ∖ {[x]}).
    { intros y k Hy Hr Hk. apply elem_of_difference. split; [apply (Hleft y); set_solver|].
      rewrite elem_of_singleton. intros ->. by apply (Hall y Hy). }
    destruct (decide (x = r2)) as [->|Hne].
    + destruct (IH rest seen (left_ ∖ {[r2]})) as (s & Hs & Hks); [done|set_solver|done|done|].
      exists s. split; [done|]. intros k. rewrite Hks. pose proof (walked_stop r2 k). set_solver.
    + cbn [td_children fork_choice_tree]. unfold fc_children. rewrite Hx. cbn.
      edestruct (IH (rev (fi_children fi) ++ rest) ({[x]} ∪ seen) (left_ ∖ {[x]})) as (s & Hs & Hks);
        [by eapply apart_step| | |done|].
      * intros y [Hy|Hy]%elem_of_app; [|set_solver]. rewrite <- Permutation_rev in Hy.
        apply links_is_Some. by eapply (child_in _ _ Hok).
      * intros y k [Hy|Hy]%elem_of_app Hr Hk; [|by eapply Hrestleft]. rewrite <- Permutation_rev in Hy.
        apply elem_of_difference. split.
        -- apply (Hleft x); [set_solver| |done]. by eapply (reach_child _ _ Hok).
        -- rewrite elem_of_singleton. intros ->. by eapply (reach_child_not_up _ _ Hok).
      * exists s. split; [done|]. intros k. rewrite Hks, elem_of_union, elem_of_singleton.
        rewrite <- (walked_step r2 x _ _ rest k Hl Hne). split; [|tauto].
        intros [[->|]|]; [|tauto..]. right. split; [by rewrite Hx|by left].
Qed.

(** [subtree_diff] returns, and gives the nodes below [r1] that are not below
    [r2], unless [r2] is itself not below [r1]. *)
Lemma subtree_diff_spec (r1 r2 : SlotHashKey) :
  exists s, subtree_diff fc r1 r2 = Returns s
    /\ forall k, k ∈ s <-> is_Some (fork_infos fc !! k) /\ walked r2 r1 k.
Proof.
  unfold subtree_diff. cbn [td_contains_slot td_size fork_choice_tree]. unfold contains_block.
  destruct (fork_infos fc !! r1) as [fi|] eqn:H1; cbn.
  - destruct (subtree_diff_loop_spec (size (fork_infos fc)) r2 [r1] ∅ (dom (fork_infos fc)))
      as (s & Hs & Hk).
    + repeat constructor.
    + intros x ->%list_elem_of_singleton. by rewrite H1.
    + intros x k _ _ Hk. by apply elem_of_dom.
    + by rewrite size_dom.
    + exists s. split; [done|]. intros k. rewrite Hk. set_solver.
  - exists ∅. split; [done|]. intros k. split; [set_solver|]. intros (Hk & Hr & _).
    assert (Hin : is_Some (links (fork_infos fc) !! r1))
      by (apply (reach_in _ _ Hok _ _ Hr); by apply links_is_Some).
    apply links_is_Some in Hin. rewrite H1 in Hin. by destruct Hin.
Qed.
End Walk.
