(* ===== verification/ForkUpdate.v ===== *)
(** * Batches of updates

    [node_ok] is the rule every node of the fork choice obeys on its own: its
    subtree weight is its own stake plus the weights of its children, and the best
    slot of a candidate is the best slot of its heaviest candidate child (or the
    node itself).  [aggregate_slot] establishes the rule at one node; processing a
    batch from its greatest to its smallest key re-establishes it everywhere,
    because a batch that touches a node aggregates every ancestor of it later. *)

From S2P Require Import Prelude EpochSchedule ForkChoice ForkTree.

(** ** The rule of a node *)

Definition weight_of (infos : gmap SlotHashKey ForkInfo) (c : SlotHashKey) : Z :=
  match infos !! c with Some ci => fi_stake_voted_subtree ci | None => 0 end.

Definition cand (infos : gmap SlotHashKey ForkInfo) (c : SlotHashKey) : bool :=
  match infos !! c with Some ci => fi_is_candidate ci | None => false end.

Definition confirmed (infos : gmap SlotHashKey ForkInfo) (c : SlotHashKey) : bool :=
  match infos !! c with Some ci => fi_is_duplicate_confirmed ci | None => false end.

(** [c] is preferred to [d]: more weight, or the same weight and a smaller key. *)
Definition beats (w : SlotHashKey -> Z) (c d : SlotHashKey) : Prop :=
  w d < w c \/ (w d = w c /\ key_ltb c d = true).

(** [c] is the preferred candidate among [cs]. *)
Definition heaviest (w : SlotHashKey -> Z) (ok : SlotHashKey -> bool) (cs : list SlotHashKey)
    (c : SlotHashKey) : Prop :=
  c ∈ cs /\ ok c = true /\ forall d, d ∈ cs -> ok d = true -> d <> c -> beats w c d.

Definition best_rule (infos : gmap SlotHashKey ForkInfo) (k : SlotHashKey)
    (cs : list SlotHashKey) (b : SlotHashKey) : Prop :=
  (b = k /\ forall c, c ∈ cs -> cand infos c = false)
  \/ exists c ci, heaviest (weight_of infos) (cand infos) cs c
       /\ infos !! c = Some ci /\ b = fi_best_slot ci.

Record node_ok (infos : gmap SlotHashKey ForkInfo) (k : SlotHashKey) (fi : ForkInfo) : Prop := {
  no_at : u64 (fi_stake_voted_at fi);
  no_subtree : fi_stake_voted_subtree fi
    = wrap64 (fi_stake_voted_at fi + zsum (weight_of infos) (fi_children fi));
  no_best : fi_is_candidate fi = true -> best_rule infos k (fi_children fi) (fi_best_slot fi);
}.

(** ** The order of keys *)

Lemma key_ltb_spec a b : key_ltb a b = true <-> a.1 < b.1 \/ (a.1 = b.1 /\ (a.2 < b.2)%N).
Proof.
  unfold key_ltb. rewrite orb_true_iff, andb_true_iff, Z.ltb_lt, Z.eqb_eq, N.ltb_lt. done.
Qed.

Lemma key_ltb_irrefl a : key_ltb a a = false.
Proof. apply not_true_iff_false. rewrite key_ltb_spec. lia. Qed.

Lemma key_ltb_trans a b c : key_ltb a b = true -> key_ltb b c = true -> key_ltb a c = true.
Proof. rewrite !key_ltb_spec. lia. Qed.

Lemma key_ltb_asym a b : key_ltb a b = true -> key_ltb b a = false.
Proof. rewrite <- not_true_iff_false, !key_ltb_spec. lia. Qed.

Lemma key_ltb_total a b : a <> b -> key_ltb a b = false -> key_ltb b a = true.
Proof.
  rewrite <- not_true_iff_false, !key_ltb_spec. destruct a as [s h], b as [s' h']; cbn. intros Hne Hn.
  destruct (decide (s = s')) as [->|]; [|lia]. right. split; [done|].
  assert (h <> h') by congruence. lia.
Qed.

Lemma key_ltb_slot a b : a.1 < b.1 -> key_ltb a b = true.
Proof. rewrite key_ltb_spec. auto. Qed.

Lemma beats_asym w c d : beats w c d -> ~ beats w d c.
Proof.
  unfold beats. intros [|[? H1]] [|[? H2]]; try lia. apply key_ltb_asym in H1. congruence.
Qed.

Lemma beats_trans w a b c : beats w a b -> beats w b c -> beats w a c.
Proof.
  unfold beats. intros [|[? H1]] [|[? H2]]; try (left; lia). right. split; [lia|].
  by eapply key_ltb_trans.
Qed.

Lemma heaviest_unique w ok cs c d : heaviest w ok cs c -> heaviest w ok cs d -> c = d.
Proof.
  intros (Hc & Hok & Hall) (Hd & Hok' & Hall'). destruct (decide (c = d)); [done|].
  exfalso. apply (beats_asym w c d); auto.
Qed.

Lemma heaviest_ext w w' ok ok' cs c :
  (forall d, d ∈ cs -> w d = w' d /\ ok d = ok' d) -> heaviest w ok cs c -> heaviest w' ok' cs c.
Proof.
  intros Hext (Hc & Hok & Hall). destruct (Hext c Hc) as [Hw Ho]. split; [done|]. split; [congruence|].
  intros d Hd Hd' Hne. destruct (Hext d Hd) as [Hwd Hod]. unfold beats. rewrite <- Hw, <- Hwd.
  apply Hall; [done|congruence|done].
Qed.

(** Appending one child to a list. *)
Lemma heaviest_snoc w ok cs c d :
  heaviest w ok cs c -> d ∉ cs ->
  (ok d = true -> beats w d c -> heaviest w ok (cs ++ [d]) d)
  /\ (ok d = false \/ beats w c d -> heaviest w ok (cs ++ [d]) c).
Proof.
  intros (Hc & Hok & Hall) Hd. split.
  - intros Hokd Hb. split; [set_solver|]. split; [done|]. intros e He Hoke Hne.
    apply elem_of_app in He as [He|He]; [|set_solver].
    destruct (decide (e = c)) as [->|]; [done|]. apply (beats_trans w d c e); auto.
  - intros Hb. split; [set_solver|]. split; [done|]. intros e He Hoke Hne.
    apply elem_of_app in He as [He|He]; [auto|]. apply list_elem_of_singleton in He as ->.
    destruct Hb; [congruence|done].
Qed.

Lemma heaviest_first w ok cs d :
  (forall c, c ∈ cs -> ok c = false) -> ok d = true -> heaviest w ok (cs ++ [d]) d.
Proof.
  intros Hno Hd. split; [set_solver|]. split; [done|]. intros e He Hoke Hne.
  apply elem_of_app in He as [He|He]; [|set_solver]. rewrite Hno in Hoke; done.
Qed.

(** ** Aggregating one node *)

Section Aggregate.
Context (infos : gmap SlotHashKey ForkInfo) (k : SlotHashKey).

(** What the loop has computed after the children [done_]. *)
Record aggregated (at_ : Z) (done_ : list SlotHashKey) (acc : Aggregate) : Prop := {
  ad_subtree : ag_stake_voted_subtree acc = wrap64 (at_ + zsum (weight_of infos) done_);
  ad_confirmed : ag_is_duplicate_confirmed acc = existsb (confirmed infos) done_;
  ad_best :
    (ag_best_child_slot_key acc = k /\ ag_best_slot_hash_key acc = k
     /\ forall c, c ∈ done_ -> cand infos c = false)
    \/ (ag_best_child_slot_key acc <> k
        /\ heaviest (weight_of infos) (cand infos) done_ (ag_best_child_slot_key acc)
        /\ exists ci, infos !! ag_best_child_slot_key acc = Some ci
             /\ ag_best_child_stake acc = fi_stake_voted_subtree ci
             /\ ag_best_slot_hash_key acc = fi_best_slot ci);
}.

Lemma aggregate_child_ok at_ done_ acc c ci :
  aggregated at_ done_ acc -> infos !! c = Some ci -> c <> k -> c ∉ done_ ->
  aggregated at_ (done_ ++ [c]) (aggregate_child k acc c ci).
Proof.
  intros [Hsub Hconf Hbest] Hc Hne Hnew.
  assert (Hw : weight_of infos c = fi_stake_voted_subtree ci) by (unfold weight_of; by rewrite Hc).
  assert (Hcand : cand infos c = fi_is_candidate ci) by (unfold cand; by rewrite Hc).
  constructor; unfold aggregate_child; cbn.
  - rewrite Hsub, zsum_app, <- Hw. cbn. wrap64_eq.
  - rewrite existsb_app, Hconf. cbn. unfold confirmed at 3. rewrite Hc. by rewrite orb_false_r.
  - destruct Hbest as [(Hk & Hbs & Hno)|(Hk & Hh & di & Hd & Hst & Hbs)].
    + rewrite bool_decide_true by done. cbn. destruct (fi_is_candidate ci) eqn:Hci; cbn.
      * right. split; [done|]. split; [by apply heaviest_first|eauto].
      * left. split; [done|]. split; [done|]. intros d [Hd|Hd]%elem_of_app; [auto|].
        apply list_elem_of_singleton in Hd as ->. congruence.
    + rewrite bool_decide_false by done. cbn. set (d := ag_best_child_slot_key acc) in *.
      assert (Hwd : weight_of infos d = ag_best_child_stake acc)
        by (unfold weight_of; by rewrite Hd, Hst).
      assert (Hdc : d <> c) by (intros ->; by apply Hnew, Hh).
      destruct (heaviest_snoc _ _ _ _ c Hh Hnew) as [Hwin Hlose].
      destruct (fi_is_candidate ci && _) eqn:Hbetter; right.
      * apply andb_true_iff in Hbetter as [Hci Hor]. split; [done|]. split; [|eauto].
        apply Hwin; [congruence|]. unfold beats. rewrite Hw, Hwd.
        apply orb_true_iff in Hor as [|[? ?]%andb_true_iff]; zbool; auto.
      * split; [done|]. split; [|eauto]. apply Hlose.
        apply andb_false_iff in Hbetter as [|[Hlt Heq]%orb_false_iff]; [left; congruence|right].
        zbool. unfold beats. rewrite Hw, Hwd.
        destruct (decide (ag_best_child_stake acc = fi_stake_voted_subtree ci)) as [E|]; [|lia].
        right. split; [done|]. apply key_ltb_total; [done|].
        rewrite E, Z.eqb_refl in Heq. done.
Qed.

Lemma aggregate_children_ok at_ todo done_ acc :
  aggregated at_ done_ acc -> NoDup (done_ ++ todo) ->
  (forall c, c ∈ todo -> is_Some (infos !! c) /\ c <> k) ->
  exists ag, aggregate_children infos k acc todo = Returns ag /\ aggregated at_ (done_ ++ todo) ag.
Proof.
  revert done_ acc. induction todo as [|c todo IH]; intros done_ acc Hacc Hn Hall; cbn.
  - exists acc. by rewrite app_nil_r.
  - destruct (Hall c) as [[ci Hc] Hck]; [by left|]. rewrite Hc. cbn.
    assert (Hnew : c ∉ done_).
    { intros Hin. apply NoDup_app in Hn as (_ & Hd & _). apply (Hd c Hin). by left. }
    destruct (IH (done_ ++ [c]) (aggregate_child k acc c ci)) as (ag & Hag & Hok).
    + by apply aggregate_child_ok.
    + by rewrite <- app_assoc.
    + intros d Hd. apply Hall. by right.
    + exists ag. by rewrite <- app_assoc in Hok.
Qed.

Lemma aggregated_init fi :
  u64 (fi_stake_voted_at fi) -> aggregated (fi_stake_voted_at fi) [] (aggregate_init k fi).
Proof.
  intros Hat. constructor; cbn; [|done|].
  - rewrite Z.add_0_r. by rewrite wrap64_small.
  - left. split; [done|]. split; [done|]. intros c Hc. by apply not_elem_of_nil in Hc.
Qed.

End Aggregate.

(** ** Changing one node *)

(** The links of a node. *)
Definition same_links (fi fi' : ForkInfo) : Prop :=
  fi_parent fi' = fi_parent fi /\ fi_children fi' = fi_children fi.

Lemma links_update infos k fi fi' :
  infos !! k = Some fi -> same_links fi fi' -> links (<[k := fi']> infos) = links infos.
Proof.
  intros Hk [Hp Hc]. unfold links. rewrite fmap_insert, Hp, Hc. apply insert_id.
  rewrite lookup_fmap, Hk. done.
Qed.

Lemma best_rule_ext infos infos' k cs b :
  (forall c, c ∈ cs -> infos' !! c = infos !! c) -> best_rule infos k cs b -> best_rule infos' k cs b.
Proof.
  intros Hext [[-> Hno]|(c & ci & Hh & Hc & ->)].
  - left. split; [done|]. intros c Hc. unfold cand. rewrite Hext by done. by apply Hno.
  - right. exists c, ci. split; [|by rewrite Hext by apply Hh].
    eapply heaviest_ext; [|exact Hh]. intros d Hd. unfold weight_of, cand. by rewrite Hext.
Qed.

Lemma node_ok_ext infos infos' k fi :
  (forall c, c ∈ fi_children fi -> infos' !! c = infos !! c) ->
  node_ok infos k fi -> node_ok infos' k fi.
Proof.
  intros Hext [Hat Hsub Hbest]. constructor; [done| |].
  - rewrite Hsub. do 2 f_equal. apply zsum_ext. intros c Hc. unfold weight_of. by rewrite Hext.
  - intros Hcand. by apply (best_rule_ext infos); [|apply Hbest].
Qed.

Lemma node_ok_update infos k fi' x fx :
  k ∉ fi_children fx -> node_ok infos x fx -> node_ok (<[k := fi']> infos) x fx.
Proof.
  intros Hk. apply node_ok_ext. intros c Hc. apply lookup_insert_ne. by intros ->.
Qed.

(** The links, stake and weight that [add_slot_stake] leaves. *)
Lemma node_ok_stake infos k fi s :
  node_ok infos k fi ->
  node_ok infos k (fi_set_stakes fi (wrap64 (fi_stake_voted_at fi + s))
                     (wrap64 (fi_stake_voted_subtree fi + s))).
Proof.
  intros [Hat Hsub Hbest]. constructor; cbn; [apply wrap64_bound| |done].
  rewrite Hsub. wrap64_eq.
Qed.

(** What [aggregate_slot] writes at a node of a tree. *)
Record aggregate_spec (infos : gmap SlotHashKey ForkInfo) (k : SlotHashKey) (fi fi' : ForkInfo)
    : Prop := {
  as_links : same_links fi fi';
  as_at : fi_stake_voted_at fi' = fi_stake_voted_at fi;
  as_node : node_ok (<[k := fi']> infos) k fi';
  as_best : best_rule infos k (fi_children fi) (fi_best_slot fi');
  as_validity :
    if existsb (confirmed infos) (fi_children fi)
    then fi_latest_invalid_ancestor fi' = None /\ fi_is_duplicate_confirmed fi' = true
    else fi_latest_invalid_ancestor fi' = fi_latest_invalid_ancestor fi
         /\ fi_is_duplicate_confirmed fi' = fi_is_duplicate_confirmed fi;
}.

(** ** The order of a batch *)

(** [x] comes before [y] when the map is read backwards. *)
Definition earlier (x y : SlotHashKey * UpdateLabel) : Prop :=
  key_ltb y.1 x.1 = true \/ (y.1 = x.1 /\ label_leb y.2 x.2 = true /\ x.2 <> y.2).

Lemma label_leb_spec a b :
  label_leb a b = true <->
  (label_rank a).1 < (label_rank b).1
  \/ ((label_rank a).1 = (label_rank b).1 /\ (label_rank a).2 <= (label_rank b).2).
Proof. unfold label_leb. rewrite orb_true_iff, andb_true_iff, Z.ltb_lt, Z.eqb_eq, Z.leb_le. done. Qed.

Lemma label_rank_inj a b : label_rank a = label_rank b -> a = b.
Proof. destruct a, b; cbn; congruence. Qed.

Lemma label_leb_antisym a b : label_leb a b = true -> label_leb b a = true -> a = b.
Proof.
  rewrite !label_leb_spec. intros H1 H2. apply label_rank_inj.
  destruct (label_rank a), (label_rank b); cbn in *. f_equal; lia.
Qed.

Lemma op_le_spec p q :
  op_le p q <-> key_ltb p.1.1 q.1.1 = true \/ (p.1.1 = q.1.1 /\ label_leb p.1.2 q.1.2 = true).
Proof. unfold op_le. by rewrite orb_true_iff, andb_true_iff, bool_decide_eq_true. Qed.

#[global] Instance op_le_trans : Transitive op_le.
Proof.
  intros p q r. rewrite !op_le_spec. intros [H1|[H1 H1']] [H2|[H2 H2']].
  - left. by eapply key_ltb_trans.
  - left. by rewrite <- H2.
  - left. by rewrite H1.
  - right. split; [congruence|]. rewrite !label_leb_spec in *. lia.
Qed.

#[global] Instance op_le_total : Total op_le.
Proof.
  intros p q. rewrite !op_le_spec. destruct (decide (p.1.1 = q.1.1)) as [->|Hne].
  - assert (label_leb p.1.2 q.1.2 = true \/ label_leb q.1.2 p.1.2 = true)
      by (rewrite !label_leb_spec; lia). tauto.
  - destruct (key_ltb p.1.1 q.1.1) eqn:E; [by left; left|]. right. left. by apply key_ltb_total.
Qed.

Lemma elem_of_ops_rev ops e : e ∈ ops_rev ops <-> ops !! e.1 = Some e.2.
Proof.
  unfold ops_rev. rewrite <- Permutation_rev, merge_sort_Permutation.
  destruct e as [kl op]. apply elem_of_map_to_list.
Qed.

Lemma sorted_rev {A} (R : A -> A -> Prop) l : StronglySorted R l -> StronglySorted (flip R) (rev l).
Proof.
  induction 1 as [|x l Hl IH Hall]; cbn; [constructor|]. apply StronglySorted_app_2; [|done|].
  - intros y z Hy Hz. rewrite <- Permutation_rev in Hy. apply list_elem_of_singleton in Hz as ->.
    rewrite Forall_forall in Hall. by apply Hall.
  - repeat constructor.
Qed.

(** A batch is processed in strictly descending order. *)
Lemma ops_rev_sorted ops : StronglySorted (fun x y => earlier x.1 y.1) (ops_rev ops).
Proof.
  pose proof (sorted_rev _ _ (StronglySorted_merge_sort op_le (map_to_list ops))) as Hs.
  assert (Hn : NoDup ((ops_rev ops).*1)).
  { unfold ops_rev. rewrite <- Permutation_rev, merge_sort_Permutation. apply NoDup_fst_map_to_list. }
  fold (ops_rev ops) in Hs. revert Hs Hn. generalize (ops_rev ops) as l.
  induction l as [|x l IH]; intros Hs Hn; [constructor|].
  apply StronglySorted_inv in Hs as [Hs Hall]. apply NoDup_cons in Hn as [Hx Hn].
  constructor; [auto|]. rewrite Forall_forall in *. intros y Hy. pose proof (Hall y Hy) as Hle.
  unfold flip in Hle. apply op_le_spec in Hle as [Hlt|[Hk Hlab]]; [by left|right].
  split; [done|]. split; [done|]. intros Heq. apply Hx, list_elem_of_fmap. exists y.
  split; [|done]. destruct x as [[? ?] ?], y as [[? ?] ?]; cbn in *. congruence.
Qed.

(** ** Processing a batch *)

(** The operation a label stands for. *)
Definition labelled (l : UpdateLabel) (op : UpdateOperation) : Prop :=
  match l, op with
  | LAggregate, OAggregate => True
  | LAdd, OAdd s | LSubtract, OSubtract s => True
  | LMarkValid s, OMarkValid s' | LMarkInvalid s, OMarkInvalid s' => s = s'
  | _, _ => False
  end.

(** A batch aggregates the parent of every node it touches, and every node it
    marks. *)
Record closed (t : Links) (todo : list ((SlotHashKey * UpdateLabel) * UpdateOperation)) : Prop := {
  cl_labelled : forall e, e ∈ todo -> labelled e.1.2 e.2;
  cl_parent : forall e p, e ∈ todo -> parent_of t e.1.1 = Some p -> ((p, LAggregate), OAggregate) ∈ todo;
  cl_mark : forall e, e ∈ todo ->
    match e.1.2 with LMarkValid _ | LMarkInvalid _ => ((e.1.1, LAggregate), OAggregate) ∈ todo | _ => True end;
}.

(** Every node that is not still to be aggregated obeys its rule. *)
Record batch_inv (t : Links) (todo : list ((SlotHashKey * UpdateLabel) * UpdateOperation))
    (infos : gmap SlotHashKey ForkInfo) : Prop := {
  bi_links : links infos = t;
  bi_at : forall k fi, infos !! k = Some fi -> u64 (fi_stake_voted_at fi);
  bi_node : forall k fi, infos !! k = Some fi ->
    ((k, LAggregate), OAggregate) ∉ todo -> node_ok infos k fi;
}.

Section Batch.
Context (t : Links) (root : SlotHashKey) (Hok : tree_ok t root).

Lemma infos_child infos k fi c :
  links infos = t -> infos !! k = Some fi -> c ∈ fi_children fi ->
  is_Some (infos !! c) /\ c <> k /\ parent_of t c = Some k.
Proof.
  intros Hl Hk Hc. pose proof (links_Some _ _ _ Hk) as Hk'. rewrite Hl in Hk'.
  split; [|split].
  - apply links_is_Some. rewrite Hl. by eapply (child_in _ _ Hok).
  - intros ->. pose proof (child_slot _ _ Hok _ _ _ _ Hk' Hc). lia.
  - by eapply (child_parent _ _ Hok).
Qed.

Lemma aggregate_slot_spec infos k fi :
  links infos = t -> infos !! k = Some fi -> u64 (fi_stake_voted_at fi) ->
  exists fi', aggregate_slot infos k = Returns (<[k := fi']> infos) /\ aggregate_spec infos k fi fi'.
Proof.
  intros Hl Hk Hat. unfold aggregate_slot. rewrite Hk.
  destruct (aggregate_children_ok infos k (fi_stake_voted_at fi) (fi_children fi) []
              (aggregate_init k fi)) as (ag & -> & [Hsub Hconf Hbest]).
  - by apply aggregated_init.
  - pose proof (links_Some _ _ _ Hk) as Hk'. rewrite Hl in Hk'. by apply (to_nodup _ _ Hok) in Hk'.
  - intros c Hc. destruct (infos_child _ _ _ _ Hl Hk Hc) as (? & ? & _). done.
  - cbn in *. eexists. split; [done|].
    assert (Hrule : best_rule infos k (fi_children fi) (ag_best_slot_hash_key ag)).
    { destruct Hbest as [(_ & -> & Hno)|(_ & Hh & ci & Hc & _ & ->)]; [by left|right; eauto]. }
    assert (Hkc : forall c, c ∈ fi_children fi -> c <> k).
    { intros c Hc. by destruct (infos_child _ _ _ _ Hl Hk Hc) as (_ & ? & _). }
    assert (Hw : forall fi', zsum (weight_of (<[k := fi']> infos)) (fi_children fi)
                             = zsum (weight_of infos) (fi_children fi)).
    { intros fi'. apply zsum_ext. intros c Hc. unfold weight_of.
      rewrite lookup_insert_ne; [done|]. by apply not_eq_sym, Hkc. }
    unfold aggregate_write. rewrite Hconf. destruct (existsb _ _) eqn:E; constructor; try done.
    all: try (constructor; cbn; [done|by rewrite Hw|]; intros _;
              eapply best_rule_ext; [|exact Hrule]; intros c Hc;
              apply lookup_insert_ne; by apply not_eq_sym, Hkc).
    all: by rewrite E.
Qed.

Lemma closed_tail e todo :
  StronglySorted (fun x y => earlier x.1 y.1) (e :: todo) -> closed t (e :: todo) -> closed t todo.
Proof.
  intros [_ Hall]%StronglySorted_inv [Hlab Hpar Hmark]. rewrite Forall_forall in Hall.
  constructor.
  - intros x Hx. apply Hlab. by right.
  - intros x p Hx Hp. destruct (parent_spec _ _ Hok _ _ Hp) as (Hs%key_ltb_slot & _).
    pose proof (Hpar x p (list_elem_of_further _ _ _ Hx) Hp) as [<-|]%elem_of_cons; [|done].
    destruct (Hall x Hx) as [H|[H _]]; cbn in H; [|rewrite H, key_ltb_irrefl in Hs; done].
    apply key_ltb_asym in H. congruence.
  - intros x Hx. specialize (Hmark x (list_elem_of_further _ _ _ Hx)).
    destruct (x.1.2) eqn:El; try done; apply elem_of_cons in Hmark as [<-|]; try done;
      destruct (Hall x Hx) as [H|(H & Hlab' & _)]; cbn in *;
      try (rewrite key_ltb_irrefl in H; done); rewrite El in Hlab'; done.
Qed.

(** An update of node [k] that keeps its links keeps the rules of the others. *)
Lemma batch_inv_update e todo infos fi fi' :
  batch_inv t (e :: todo) infos -> closed t (e :: todo) ->
  StronglySorted (fun x y => earlier x.1 y.1) (e :: todo) ->
  infos !! e.1.1 = Some fi -> same_links fi fi' -> u64 (fi_stake_voted_at fi') ->
  (((e.1.1, LAggregate), OAggregate) ∉ todo -> node_ok (<[e.1.1 := fi']> infos) e.1.1 fi') ->
  batch_inv t todo (<[e.1.1 := fi']> infos).
Proof.
  intros [Hl Hat Hnode] Hcl Hs Hk Hsl Hat' Hself. constructor.
  - by rewrite (links_update infos _ fi fi').
  - intros x fx [[<- <-]|[_ Hx]]%lookup_insert_Some; [done|by eapply Hat].
  - intros x fx [[<- <-]|[Hne Hx]]%lookup_insert_Some Hnot; [by apply Hself|].
    apply node_ok_update.
    + intros Hc. destruct (infos_child _ _ _ _ Hl Hx Hc) as (_ & _ & Hp).
      pose proof (cl_parent _ _ Hcl e x (list_elem_of_here _ _) Hp) as [He|]%elem_of_cons; [|done].
      rewrite <- He in Hne. done.
    + apply Hnode; [done|]. intros [He|]%elem_of_cons; [|done]. rewrite <- He in Hne. done.
Qed.
Lemma batch_inv_skip e todo infos :
  batch_inv t (e :: todo) infos -> infos !! e.1.1 = None -> batch_inv t todo infos.
Proof.
  intros [Hl Hat Hnode] Hk. constructor; [done|done|]. intros x fx Hx Hnot. apply Hnode; [done|].
  intros [He|]%elem_of_cons; [|done]. rewrite <- He in Hk. cbn in Hk. congruence.
Qed.

(** A mark leaves a node that is still to be aggregated. *)
Lemma batch_inv_mark e todo infos fi fi' :
  batch_inv t (e :: todo) infos -> closed t (e :: todo) ->
  StronglySorted (fun x y => earlier x.1 y.1) (e :: todo) ->
  infos !! e.1.1 = Some fi -> same_links fi fi' -> fi_stake_voted_at fi' = fi_stake_voted_at fi ->
  match e.1.2 with LMarkValid _ | LMarkInvalid _ => True | _ => False end ->
  batch_inv t todo (<[e.1.1 := fi']> infos).
Proof.
  intros Hinv Hcl Hs Hk Hsl Hat Hl. eapply batch_inv_update; eauto.
  - rewrite Hat. by apply (bi_at _ _ _ Hinv _ _ Hk).
  - intros Hnot. exfalso. pose proof (cl_mark _ _ Hcl e (list_elem_of_here _ _)) as Hm.
    destruct (e.1.2) eqn:El; try done; apply elem_of_cons in Hm as [He|]; try done;
      rewrite <- He in El; done.
Qed.

(** A change of stake keeps the rule of a node that is not to be aggregated. *)
Lemma batch_inv_stake e todo infos fi s :
  batch_inv t (e :: todo) infos -> closed t (e :: todo) ->
  StronglySorted (fun x y => earlier x.1 y.1) (e :: todo) ->
  infos !! e.1.1 = Some fi -> e.2 <> OAggregate ->
  batch_inv t todo
    (<[e.1.1 := fi_set_stakes fi (wrap64 (fi_stake_voted_at fi + s))
                  (wrap64 (fi_stake_voted_subtree fi + s))]> infos).
Proof.
  intros Hinv Hcl Hs Hk He. eapply batch_inv_update; eauto; [done|apply wrap64_bound|].
  intros Hnot. apply node_ok_update.
  - intros Hc. destruct (infos_child _ _ _ _ (bi_links _ _ _ Hinv) Hk Hc) as (_ & ? & _). done.
  - apply node_ok_stake, (bi_node _ _ _ Hinv); [done|]. intros [Heq|]%elem_of_cons; [|done].
    by rewrite <- Heq in He.
Qed.

Lemma process_op_inv e todo infos infos' :
  batch_inv t (e :: todo) infos -> closed t (e :: todo) ->
  StronglySorted (fun x y => earlier x.1 y.1) (e :: todo) ->
  process_op infos e = Returns infos' -> batch_inv t todo infos'.
Proof.
  intros Hinv Hcl Hs. pose proof (cl_labelled _ _ Hcl e (list_elem_of_here _ _)) as Hlab.
  pose proof (batch_inv_skip _ _ _ Hinv) as Hskip.
  unfold process_op, aggregate_slot, mark_fork_valid, mark_fork_invalid, add_slot_stake,
    subtract_slot_stake.
  destruct (infos !! e.1.1) as [fi|] eqn:Hk; [|destruct e.2; intros [= <-]; auto].
  destruct e.2 as [s|s|s|s|] eqn:Eop; destruct e.1.2 eqn:El; try done; intros Hr.
  - injection Hr as <-. apply batch_inv_stake; auto. by rewrite Eop.
  - injection Hr as <-. eapply batch_inv_mark; eauto; [| |by rewrite El]; unfold update_with_newly_valid_ancestor;
      repeat (case_match; simplify_eq/=; try done).
  - apply outcome_bind_Returns in Hr as (fi' & Hfi & [= <-]).
    unfold update_with_newly_invalid_ancestor in Hfi. destruct (fi_is_duplicate_confirmed fi); cbn in Hfi; [done|].
    injection Hfi as <-. eapply batch_inv_mark; eauto; [| |by rewrite El]; by repeat case_match.
  - injection Hr as <-. rewrite <- !Z.add_opp_r. apply batch_inv_stake; auto. by rewrite Eop.
  - destruct (aggregate_slot_spec infos e.1.1 fi) as (fi' & Hag & Hsp).
    + apply (bi_links _ _ _ Hinv).
    + done.
    + by apply (bi_at _ _ _ Hinv _ _ Hk).
    + unfold aggregate_slot in Hag. rewrite Hk in Hag. rewrite Hag in Hr. injection Hr as <-.
      destruct Hsp as [Hsl Hat Hnode _ _]. eapply batch_inv_update; eauto.
      rewrite Hat. by apply (bi_at _ _ _ Hinv _ _ Hk).
Qed.

Lemma process_ops_inv todo infos infos' :
  batch_inv t todo infos -> closed t todo -> StronglySorted (fun x y => earlier x.1 y.1) todo ->
  process_ops infos todo = Returns infos' -> batch_inv t [] infos'.
Proof.
  revert infos. induction todo as [|e todo IH]; intros infos Hinv Hcl Hs; cbn.
  - by intros [= <-].
  - intros (infos1 & H1 & H2)%outcome_bind_Returns. apply (IH infos1).
    + by eapply process_op_inv.
    + by eapply closed_tail.
    + by apply StronglySorted_inv in Hs as [? _].
    + done.
Qed.
End Batch.
