(* ===== verification/ForkVotes.v ===== *)
(** * Votes in the fork choice

    [fc_ok] is the invariant of the whole fork choice: its links form a tree, every
    node obeys its rule, the stake at a node is the stake of the validators whose
    latest vote is that node, and the validity marks are consistent along every
    edge.  This file shows that [add_votes] returns and keeps the invariant: the
    batch it generates is closed under parents, and it moves exactly the stake of
    the votes that changed. *)

From S2P Require Import Prelude EpochSchedule ForkChoice ForkTree ForkUpdate.

(** ** The invariant *)

(** The validity fields of a node. *)
Definition validity (fi : ForkInfo) : option Slot * bool :=
  (fi_latest_invalid_ancestor fi, fi_is_duplicate_confirmed fi).

Definition validities (infos : gmap SlotHashKey ForkInfo) : gmap SlotHashKey (option Slot * bool) :=
  validity <$> infos.
#[global] Arguments validities : simpl never.

(** How the marks of a node and of a child of it are related: a confirmed node is
    not below an invalid one, an invalid ancestor is not later than the node, an
    invalid node has only invalid children, a confirmed child confirms its parent. *)
Record validity_ok (t : Links) (v : gmap SlotHashKey (option Slot * bool)) : Prop := {
  vo_confirmed : forall k l, v !! k = Some (l, true) -> l = None;
  vo_slot : forall k s b, v !! k = Some (Some s, b) -> s <= k.1;
  vo_invalid : forall k p s b, parent_of t k = Some p -> v !! p = Some (Some s, b) ->
    exists s' b', v !! k = Some (Some s', b') /\ s <= s';
  vo_up : forall k p l l' b, parent_of t k = Some p -> v !! k = Some (l, true) ->
    v !! p = Some (l', b) -> b = true;
}.

Section Stake.
Context (stake : Slot -> Pubkey -> Z).

(** The stake whose latest vote is exactly [k]. *)
Definition votes_at (votes : gmap Pubkey SlotHashKey) (k : SlotHashKey) : Z :=
  msum (fun pk v => if decide (v = k) then stake v.1 pk else 0) votes.

Record fc_ok (fc : HeaviestSubtreeForkChoice) : Prop := {
  ok_tree : tree_ok (links (fork_infos fc)) (fc_root fc);
  ok_node : forall k fi, fork_infos fc !! k = Some fi -> node_ok (fork_infos fc) k fi;
  ok_votes : forall k fi, fork_infos fc !! k = Some fi ->
    fi_stake_voted_at fi = wrap64 (votes_at (latest_votes fc) k);
  ok_best : forall k fi, fork_infos fc !! k = Some fi ->
    reach (links (fork_infos fc)) k (fi_best_slot fi) /\ is_Some (fork_infos fc !! fi_best_slot fi);
  ok_valid : validity_ok (links (fork_infos fc)) (validities (fork_infos fc));
}.
End Stake.

(** ** What one update does to stakes, best slots and marks *)

(** The stake an operation adds to the node [k]. *)
Definition delta (k : SlotHashKey) (kl : SlotHashKey * UpdateLabel) (op : UpdateOperation) : Z :=
  if decide (kl.1 = k) then
    match op with OAdd s => s | OSubtract s => - s | _ => 0 end
  else 0.

(** The best slot of every node lies below it. *)
Definition best_below (t : Links) (infos : gmap SlotHashKey ForkInfo) : Prop :=
  forall k fi, infos !! k = Some fi ->
    reach t k (fi_best_slot fi) /\ is_Some (infos !! fi_best_slot fi).

(** An operation of a batch of votes. *)
Definition vote_op (op : UpdateOperation) : Prop :=
  match op with OAdd _ | OSubtract _ | OAggregate => True | _ => False end.

Lemma validities_lookup infos k : validities infos !! k = validity <$> infos !! k.
Proof. apply lookup_fmap. Qed.

Lemma validities_Some infos k fi : infos !! k = Some fi -> validities infos !! k = Some (validity fi).
Proof. rewrite validities_lookup. by intros ->. Qed.

Lemma validities_update infos k fi fi' :
  infos !! k = Some fi -> validity fi' = validity fi -> validities (<[k := fi']> infos) = validities infos.
Proof.
  intros Hk Hv. unfold validities. rewrite fmap_insert, Hv. apply insert_id. by rewrite lookup_fmap, Hk.
Qed.

Lemma best_below_update t infos k fi fi' :
  best_below t infos -> infos !! k = Some fi ->
  (reach t k (fi_best_slot fi') /\ is_Some (infos !! fi_best_slot fi')) ->
  best_below t (<[k := fi']> infos).
Proof.
  intros Hb Hk [Hr Hin] x fx Hx. rewrite lookup_insert_is_Some.
  apply lookup_insert_Some in Hx as [[<- <-]|[Hne Hx]].
  - split; [done|]. destruct (decide (k = fi_best_slot fi')); auto.
  - destruct (Hb x fx Hx) as [? ?]. split; [done|].
    destruct (decide (k = fi_best_slot fx)); auto.
Qed.

Section Process.
Context (t : Links) (root : SlotHashKey) (Hok : tree_ok t root).

(** The best slot that [aggregate_slot] writes lies below the node. *)
Lemma best_rule_below infos k fi b :
  links infos = t -> best_below t infos -> infos !! k = Some fi ->
  best_rule infos k (fi_children fi) b -> reach t k b /\ is_Some (infos !! b).
Proof.
  intros Hl Hb Hk [[-> _]|(c & ci & (Hc & _) & Hci & ->)].
  - split; [apply reach_refl|by rewrite Hk].
  - destruct (Hb c ci Hci) as [Hr Hin]. split; [|done].
    pose proof (links_Some _ _ _ Hk) as Hk'. rewrite Hl in Hk'. by eapply (reach_child _ _ Hok).
Qed.

(** Aggregating a node whose children are consistent with it changes no mark. *)
Lemma aggregate_validity infos k fi fi' :
  links infos = t -> validity_ok t (validities infos) -> infos !! k = Some fi ->
  aggregate_spec infos k fi fi' -> validity fi' = validity fi.
Proof.
  intros Hl Hv Hk [_ _ _ _ Hval]. unfold validity.
  destruct (existsb (confirmed infos) (fi_children fi)) eqn:E; [|by destruct Hval as [-> ->]].
  apply existsb_exists in E as (c & Hc%list_elem_of_In & Hconf).
  destruct (infos_child t root Hok infos k fi c Hl Hk Hc) as ([ci Hci] & _ & Hp).
  unfold confirmed in Hconf. rewrite Hci in Hconf.
  pose proof (validities_Some _ _ _ Hci) as Vc. pose proof (validities_Some _ _ _ Hk) as Vk.
  unfold validity in Vc, Vk. rewrite Hconf in Vc.
  pose proof (vo_up _ _ Hv c k _ _ _ Hp Vc Vk) as Hconfk. rewrite Hconfk in *.
  rewrite (vo_confirmed _ _ Hv _ _ Vk). by destruct Hval as [-> ->].
Qed.

(** What an operation [e] of a batch of votes keeps and changes. *)
Record vote_effect (infos : gmap SlotHashKey ForkInfo)
    (e : (SlotHashKey * UpdateLabel) * UpdateOperation) (infos' : gmap SlotHashKey ForkInfo)
    : Prop := {
  ve_below : best_below t infos';
  ve_valid : validities infos' = validities infos;
  ve_at : forall k fi', infos' !! k = Some fi' -> exists fi, infos !! k = Some fi
    /\ fi_stake_voted_at fi' = wrap64 (fi_stake_voted_at fi + delta k e.1 e.2);
}.

Lemma vote_effect_update infos e fi fi' :
  best_below t infos -> (forall k fi, infos !! k = Some fi -> u64 (fi_stake_voted_at fi)) ->
  infos !! e.1.1 = Some fi ->
  reach t e.1.1 (fi_best_slot fi') /\ is_Some (infos !! fi_best_slot fi') ->
  validity fi' = validity fi ->
  fi_stake_voted_at fi'
    = wrap64 (fi_stake_voted_at fi + match e.2 with OAdd s => s | OSubtract s => - s | _ => 0 end) ->
  vote_effect infos e (<[e.1.1 := fi']> infos).
Proof.
  intros Hb Hat Hk Hbest Hv Hst. constructor.
  - by eapply best_below_update.
  - by eapply validities_update.
  - intros x fx [[<- <-]|[Hne Hx]]%lookup_insert_Some; unfold delta.
    + exists fi. by rewrite decide_True.
    + exists fx. rewrite decide_False by done. split; [done|].
      rewrite Z.add_0_r, wrap64_small; eauto.
Qed.

(** One operation of a batch of votes. *)
Lemma process_vote_op infos e :
  links infos = t -> best_below t infos -> validity_ok t (validities infos) ->
  (forall k fi, infos !! k = Some fi -> u64 (fi_stake_voted_at fi)) -> vote_op e.2 ->
  exists infos', process_op infos e = Returns infos' /\ vote_effect infos e infos'.
Proof.
  intros Hl Hb Hv Hat Hop. unfold process_op, add_slot_stake, subtract_slot_stake.
  destruct (infos !! e.1.1) as [fi|] eqn:Hk.
  - destruct e.2 as [s|s|s|s|] eqn:Eop; try done.
    + eexists. split; [done|]. eapply vote_effect_update; eauto; [by apply (Hb _ _ Hk)|by rewrite Eop].
    + eexists. split; [done|]. eapply vote_effect_update; eauto; [by apply (Hb _ _ Hk)|].
      rewrite Eop. by rewrite Z.add_opp_r.
    + destruct (aggregate_slot_spec t root Hok infos e.1.1 fi Hl Hk (Hat _ _ Hk)) as (fi' & -> & Hsp).
      eexists. split; [done|]. eapply vote_effect_update; eauto.
      * by eapply best_rule_below, (as_best _ _ _ _ Hsp).
      * by eapply aggregate_validity.
      * rewrite (as_at _ _ _ _ Hsp), Eop, Z.add_0_r, wrap64_small; eauto.
  - exists infos. split; [destruct e.2; try done; unfold aggregate_slot; by rewrite Hk|].
    constructor; [done|done|]. intros x fx Hx. exists fx. split; [done|]. unfold delta.
    rewrite decide_False by congruence. rewrite Z.add_0_r, wrap64_small; eauto.
Qed.

(** A batch of votes returns, keeps every mark and adds to every node the stake of
    its operations. *)
Lemma process_vote_ops todo infos :
  batch_inv t todo infos -> closed t todo -> StronglySorted (fun x y => earlier x.1 y.1) todo ->
  best_below t infos -> validity_ok t (validities infos) -> (forall e, e ∈ todo -> vote_op e.2) ->
  exists infos', process_ops infos todo = Returns infos' /\ batch_inv t [] infos'
    /\ best_below t infos' /\ validities infos' = validities infos
    /\ forall k fi', infos' !! k = Some fi' -> exists fi, infos !! k = Some fi
         /\ fi_stake_voted_at fi' = wrap64 (fi_stake_voted_at fi + zsum (fun e => delta k e.1 e.2) todo).
Proof.
  revert infos. induction todo as [|e todo IH]; intros infos Hinv Hcl Hs Hb Hv Hop; cbn.
  - exists infos. split; [done|]. split; [done|]. split; [done|]. split; [done|].
    intros k fi Hk. exists fi. split; [done|].
    rewrite Z.add_0_r, wrap64_small; [done|]. by apply (bi_at _ _ _ Hinv k).
  - destruct (process_vote_op infos e) as (infos1 & H1 & [Hb1 Hv1 Hat1]);
      [apply (bi_links _ _ _ Hinv)|done|done|apply (bi_at _ _ _ Hinv)|apply Hop; by left|].
    destruct (IH infos1) as (infos' & H2 & Hinv2 & Hb2 & Hv2 & Hat2).
    + by eapply (process_op_inv t root Hok).
    + by eapply (closed_tail t root Hok).
    + by apply StronglySorted_inv in Hs as [? _].
    + done.
    + by rewrite Hv1.
    + intros x Hx. apply Hop. by right.
    + exists infos'. rewrite H1. cbn. split; [done|]. split; [done|]. split; [done|].
      split; [congruence|]. intros k fi2 Hk2. destruct (Hat2 k fi2 Hk2) as (fi1 & Hk1 & ->).
      destruct (Hat1 k fi1 Hk1) as (fi & Hk & ->). exists fi. split; [done|]. wrap64_eq.
Qed.
End Process.

(** ** The batch of votes *)

(** The closure of a batch, as a map. *)
Record ops_ok (t : Links) (ops : UpdateOperations) : Prop := {
  oo_labelled : forall kl op, ops !! kl = Some op -> labelled kl.2 op /\ vote_op op;
  oo_parent : forall kl op p, ops !! kl = Some op -> parent_of t kl.1 = Some p ->
    ops !! (p, LAggregate) = Some OAggregate;
}.

(** The same, but for the entries at one key. *)
Record ops_ok_but (t : Links) (k : SlotHashKey) (ops : UpdateOperations) : Prop := {
  ob_labelled : forall kl op, ops !! kl = Some op -> labelled kl.2 op /\ vote_op op;
  ob_parent : forall kl op p, kl.1 <> k -> ops !! kl = Some op -> parent_of t kl.1 = Some p ->
    ops !! (p, LAggregate) = Some OAggregate;
}.

(** The stake a batch adds to a node. *)
Definition ops_delta (ops : UpdateOperations) (k : SlotHashKey) : Z := msum (delta k) ops.

Lemma ops_ok_closed t ops : ops_ok t ops -> closed t (ops_rev ops).
Proof.
  intros [Hlab Hpar]. constructor.
  - intros e He%elem_of_ops_rev. by apply Hlab in He as [? _].
  - intros e p He%elem_of_ops_rev Hp. apply elem_of_ops_rev. by eapply Hpar.
  - intros e He%elem_of_ops_rev. apply Hlab in He as [H1 H2].
    destruct e.1.2, e.2; done.
Qed.

Lemma ops_delta_rev ops k : zsum (fun e => delta k e.1 e.2) (ops_rev ops) = ops_delta ops k.
Proof.
  unfold ops_delta, msum, ops_rev. by rewrite <- Permutation_rev, merge_sort_Permutation.
Qed.


(** The votes a batch leaves as the latest ones. *)
Definition accept (root : SlotHashKey) (latest : gmap Pubkey SlotHashKey)
    (pubkey_vote : Pubkey * SlotHashKey) : gmap Pubkey SlotHashKey :=
  let '(pubkey, new_vote) := pubkey_vote in
  if new_vote.1 <? root.1 then latest
  else if match latest !! pubkey with Some old => outdated new_vote old | None => false end
  then latest
  else <[pubkey := new_vote]> latest.

(** The validators whose votes are not below the root. *)
Definition voters (root : SlotHashKey) (votes : list (Pubkey * SlotHashKey)) : list Pubkey :=
  (filter (fun v => (v.2.1 <? root.1) = false) votes).*1.

Lemma ops_ok_but_insert t k p ops :
  ops_ok_but t k ops -> parent_of t k = Some p ->
  ops_ok_but t p (<[(p, LAggregate) := OAggregate]> ops).
Proof.
  intros [Hlab Hpar] Hp. constructor.
  - intros kl op [[<- <-]|[_ H]]%lookup_insert_Some; [done|eauto].
  - intros kl op q Hne [[<- <-]|[_ H]]%lookup_insert_Some Hq; [done|].
    destruct (decide (q = p)) as [->|Hqp]; [apply lookup_insert_eq|].
    rewrite lookup_insert_ne by congruence.
    destruct (decide (kl.1 = k)) as [Hk|Hk]; [rewrite Hk in Hq; congruence|eauto].
Qed.

Section VoteLoop.
Context (fc : HeaviestSubtreeForkChoice) (Hok : tree_ok (links (fork_infos fc)) (fc_root fc)).
Abbreviation t := (links (fork_infos fc)).

(** Aggregating the ancestors of a key closes the batch, and moves no stake. *)
Lemma insert_aggregate_operations_ok k ops :
  ops_ok_but t k ops ->
  ops_ok t (insert_aggregate_operations fc ops k)
  /\ forall x, ops_delta (insert_aggregate_operations fc ops k) x = ops_delta ops x.
Proof.
  unfold insert_aggregate_operations. remember (ancestor_iterator fc k) as l eqn:Hl. revert k ops Hl.
  induction l as [|p l IH]; intros k ops Hl Hb;
    rewrite (ancestors_unfold (fork_infos fc) _ Hok fc k eq_refl) in Hl;
    destruct (parent_of t k) as [p'|] eqn:Hp; simplify_eq; cbn [insert_across].
  - split; [|done]. destruct Hb as [Hlab Hpar]. constructor; [done|]. intros kl op q H Hq.
    eapply Hpar; eauto. intros Hk. rewrite Hk in Hq. congruence.
  - unfold do_insert_aggregate_operation. destruct (ops !! (p', LAggregate)) as [op|] eqn:Hagg; cbn.
    + split; [|done]. destruct Hb as [Hlab Hpar]. constructor; [done|]. intros kl op' q H Hq.
      destruct (decide (kl.1 = k)) as [Hk|Hk]; [|eauto]. rewrite Hk in Hq. simplify_eq.
      rewrite Hagg. f_equal. apply Hlab in Hagg as [Hl _]. by destruct op.
    + destruct (IH p' (<[(p', LAggregate) := OAggregate]> ops) eq_refl) as [H1 H2];
        [by eapply ops_ok_but_insert|]. split; [done|]. intros x. rewrite H2. unfold ops_delta.
      rewrite msum_insert_new by done. unfold delta at 1. by destruct (decide _).
Qed.

Lemma upsert_stake_ok k l op s ops :
  ops_ok t ops -> labelled l op -> op = OAdd s \/ op = OSubtract s ->
  exists ops', upsert_stake ops (k, l) op s = Returns ops' /\ ops_ok_but t k ops'
    /\ forall x, wrap64 (ops_delta ops' x) = wrap64 (ops_delta ops x + delta x (k, l) op).
Proof.
  intros [Hlab Hpar] Hl Hop. unfold upsert_stake.
  assert (Hkeep : forall op', labelled l op' -> vote_op op' -> ops_ok_but t k (<[(k, l) := op']> ops)).
  { intros op' Hl' Hv'. constructor.
    - intros kl o [[<- <-]|[_ H]]%lookup_insert_Some; [done|eauto].
    - intros kl o q Hne [[<- _]|[_ H]]%lookup_insert_Some Hq; [done|].
      pose proof (Hpar _ _ _ H Hq) as Hq'. destruct (decide ((k, l) = (q, LAggregate))) as [E|];
        [|by rewrite lookup_insert_ne].
      injection E as -> ->. rewrite lookup_insert_eq. f_equal. by destruct op'. }
  destruct (ops !! (k, l)) as [old|] eqn:Hold.
  - destruct (Hlab _ _ Hold) as [Hlo _]. cbn in Hlo.
    assert (exists new, update_stake old s = Returns new /\ labelled l new /\ vote_op new
              /\ forall x, wrap64 (delta x (k, l) new) = wrap64 (delta x (k, l) old + delta x (k, l) op))
      as (new & -> & Hln & Hvn & Hd).
    { destruct Hop as [-> | ->], l, old; try done; eexists; (split; [done|]); (split; [done|]);
        (split; [done|]); intros x; unfold delta; destruct (decide _); try done; [by rewrite wrap64_small; [|apply wrap64_bound]|].
      rewrite <- Z.sub_0_l, wrap64_sub_r. f_equal. lia. }
    cbn. eexists. split; [done|]. split; [auto|]. intros x. unfold ops_delta.
    rewrite msum_insert, Hold. specialize (Hd x).
    replace (delta x (k, l) new + msum (delta x) ops - delta x (k, l) old)
      with (delta x (k, l) new + (msum (delta x) ops - delta x (k, l) old)) by lia.
    rewrite <- wrap64_add_l, Hd, wrap64_add_l. f_equal. lia.
  - eexists. split; [done|]. split; [apply Hkeep; [done|by destruct Hop as [-> | ->]]|].
    intros x. unfold ops_delta. rewrite msum_insert_new by done. f_equal. lia.
Qed.

Context (epoch_stakes : gmap Epoch EpochStakes) (epoch_schedule : EpochSchedule).
Abbreviation stake := (stake_at epoch_stakes epoch_schedule).
Context (Hstake : forall slot pk, 0 <= stake slot pk).

(** The loop of [generate_update_operations] has moved the stake of the votes it
    accepted. *)
Record loop_ok (votes : gmap Pubkey SlotHashKey) (st : VoteLoop) : Prop := {
  lk_ops : ops_ok t (vl_ops st);
  lk_stake : forall k, wrap64 (votes_at stake (vl_latest_votes st) k)
    = wrap64 (votes_at stake votes k + ops_delta (vl_ops st) k);
}.

Lemma votes_at_insert votes pk v k :
  votes_at stake (<[pk := v]> votes) k
  = votes_at stake votes k + delta k (v, LAdd) (OAdd (stake v.1 pk))
    + match votes !! pk with Some old => delta k (old, LSubtract) (OSubtract (stake old.1 pk)) | None => 0 end.
Proof.
  unfold votes_at. rewrite msum_insert. unfold delta. cbn.
  destruct (votes !! pk); repeat (destruct (decide _)); lia.
Qed.

Lemma leave_old_vote_ok ops pk v old :
  ops_ok t ops -> match old with Some o => outdated v o = false | None => True end ->
  exists ops', leave_old_vote fc epoch_stakes epoch_schedule ops pk v old = Returns ops' /\ ops_ok t ops'
    /\ forall k, wrap64 (ops_delta ops' k)
         = wrap64 (ops_delta ops k
             + match old with Some o => delta k (o, LSubtract) (OSubtract (stake o.1 pk)) | None => 0 end).
Proof.
  intros Hops Hold. unfold leave_old_vote. destruct old as [old|].
  - unfold outdated in Hold. apply orb_false_iff in Hold as [H1 H2]. zbool.
    replace (if v.1 =? old.1 then _ else _) with true.
    2: { destruct (Z.eqb_spec v.1 old.1); cbn in H2; symmetry.
         - apply N.leb_gt in H2. by apply N.ltb_lt.
         - apply Z.ltb_lt. lia. }
    cbn. destruct (0 <? stake old.1 pk) eqn:Hpos; zbool.
    + destruct (upsert_stake_ok old LSubtract (OSubtract (stake old.1 pk)) (stake old.1 pk) ops Hops I)
        as (ops' & -> & Hbut & Hd); [by right|]. cbn.
      destruct (insert_aggregate_operations_ok old ops' Hbut) as [Hok' Hd'].
      eexists. split; [done|]. split; [done|]. intros k. by rewrite Hd', Hd.
    + exists ops. split; [done|]. split; [done|]. intros k. f_equal.
      pose proof (Hstake old.1 pk). unfold delta. destruct (decide _); lia.
  - exists ops. split; [done|]. split; [done|]. intros k. f_equal. lia.
Qed.

Lemma vote_step_ok votes st pv :
  loop_ok votes st -> ((pv.2.1 <? (fc_root fc).1) = false -> pv.1 ∉ vl_observed st) ->
  exists st', vote_step fc epoch_stakes epoch_schedule st pv = Returns st' /\ loop_ok votes st'
    /\ vl_latest_votes st' = accept (fc_root fc) (vl_latest_votes st) pv
    /\ vl_observed st' ⊆ vl_observed st ∪ list_to_set (voters (fc_root fc) [pv]).
Proof.
  intros [Hops Hst] Hobs. destruct pv as [pk v]. unfold vote_step, accept, voters.
  rewrite filter_cons, filter_nil. cbn in *.
  destruct (v.1 <? (fc_root fc).1); [exists st; split_and!; [done|done|done|apply union_subseteq_l]|].
  rewrite !decide_False by auto. rewrite decide_True by done.
  destruct (match vl_latest_votes st !! pk with Some old => outdated v old | None => false end) eqn:Hout;
    [eexists; cbn; split_and!; [done|by constructor|done|set_solver]|].
  destruct (leave_old_vote_ok (vl_ops st) pk v (vl_latest_votes st !! pk) Hops) as (ops1 & -> & Hops1 & Hd1);
    [by destruct (vl_latest_votes st !! pk)|]. cbn.
  destruct (upsert_stake_ok v LAdd (OAdd (stake v.1 pk)) (stake v.1 pk) ops1 Hops1 I)
    as (ops2 & -> & Hbut & Hd2); [by left|]. cbn.
  destruct (insert_aggregate_operations_ok v ops2 Hbut) as [Hops3 Hd3].
  eexists. split; [done|]. split; [|split; [done|cbn; set_solver]]. constructor; cbn; [done|].
  intros k. rewrite Hd3, votes_at_insert.
  destruct (proj1 (wrap64_eq_iff _ _) (Hst k)) as [q0 H0].
  destruct (proj1 (wrap64_eq_iff _ _) (Hd1 k)) as [q1 H1].
  destruct (proj1 (wrap64_eq_iff _ _) (Hd2 k)) as [q2 H2].
  apply wrap64_eq_iff. exists (q0 - q1 - q2). rewrite H0, H2, H1. lia.
Qed.

(** The loop returns when no validator votes twice. *)
Lemma vote_loop_ok votes st pvs :
  loop_ok votes st -> NoDup (voters (fc_root fc) pvs) ->
  (forall pk, pk ∈ voters (fc_root fc) pvs -> pk ∉ vl_observed st) ->
  exists st', vote_loop fc epoch_stakes epoch_schedule st pvs = Returns st' /\ loop_ok votes st'
    /\ vl_latest_votes st' = foldl (accept (fc_root fc)) (vl_latest_votes st) pvs.
Proof.
  revert st. induction pvs as [|pv pvs IH]; intros st Hl Hn Hobs; cbn; [eauto|].
  unfold voters in Hn, Hobs. rewrite filter_cons in Hn, Hobs.
  destruct (vote_step_ok votes st pv Hl) as (st1 & -> & Hl1 & Hv1 & Hobs1).
  { intros Hr. apply Hobs. rewrite decide_True by done. by left. }
  cbn. rewrite <- Hv1. apply IH; [done| |].
  - destruct (decide _); [by apply NoDup_cons in Hn as [_ ?]|done].
  - intros pk Hpk Hin. apply Hobs1, elem_of_union in Hin as [Hin|Hin].
    + apply (Hobs pk); [|done]. destruct (decide _); [by right|done].
    + apply elem_of_list_to_set in Hin. unfold voters in Hin, Hpk. rewrite filter_cons, filter_nil in Hin.
      destruct (decide _); cbn in Hin; [|by apply not_elem_of_nil in Hin].
      apply list_elem_of_singleton in Hin as ->. by apply NoDup_cons in Hn as [? _].
Qed.
End VoteLoop.

(** ** Adding votes *)

Lemma ok_best_below stake fc : fc_ok stake fc -> best_below (links (fork_infos fc)) (fork_infos fc).
Proof. intros Hok. exact (ok_best _ _ Hok). Qed.

(** Every node of a consistent fork choice obeys its rule, so a batch may start. *)
Lemma ok_batch stake fc todo :
  fc_ok stake fc -> batch_inv (links (fork_infos fc)) todo (fork_infos fc).
Proof.
  intros Hok. constructor; [done| |].
  - intros k fi Hk. apply (no_at _ _ _ (ok_node _ _ Hok k fi Hk)).
  - intros k fi Hk _. by apply (ok_node _ _ Hok).
Qed.

Lemma root_in stake fc : fc_ok stake fc -> is_Some (fork_infos fc !! fc_root fc).
Proof.
  intros Hok. apply links_is_Some. destruct (to_root _ _ (ok_tree _ _ Hok)) as [cs ->]. eauto.
Qed.

(** [add_votes] returns when no validator votes twice in the batch, keeps the
    invariant, and changes neither the tree nor the marks. *)
Lemma add_votes_ok fc pvs epoch_stakes epoch_schedule :
  let stake := stake_at epoch_stakes epoch_schedule in
  (forall slot pk, 0 <= stake slot pk) ->
  fc_ok stake fc -> NoDup (voters (fc_root fc) pvs) ->
  exists fc' b, add_votes fc pvs epoch_stakes epoch_schedule = Returns (fc', b)
    /\ fc_ok stake fc' /\ best_slot fc' (fc_root fc') = Some b
    /\ fc_root fc' = fc_root fc
    /\ latest_votes fc' = foldl (accept (fc_root fc)) (latest_votes fc) pvs
    /\ links (fork_infos fc') = links (fork_infos fc)
    /\ validities (fork_infos fc') = validities (fork_infos fc).
Proof.
  intros stake Hnn Hok Hn. unfold add_votes, generate_update_operations.
  set (st0 := {| vl_latest_votes := latest_votes fc; vl_ops := ∅; vl_observed := ∅ |}).
  destruct (vote_loop_ok fc (ok_tree _ _ Hok) epoch_stakes epoch_schedule Hnn (latest_votes fc) st0 pvs)
    as (st & -> & [Hops Hst] & Hlv).
  - constructor; [constructor; cbn; intros *; by rewrite lookup_empty|].
    intros k. unfold ops_delta. cbn. by rewrite msum_empty, Z.add_0_r.
  - done.
  - intros pk _. cbn. set_solver.
  - cbn [mbind outcome_bind]. unfold process_update_operations. cbn [fork_infos].
    destruct (process_vote_ops _ _ (ok_tree _ _ Hok) (ops_rev (vl_ops st)) (fork_infos fc))
      as (infos' & -> & Hinv & Hbelow & Hvalid & Hat).
    + by eapply ok_batch.
    + by apply ops_ok_closed.
    + apply ops_rev_sorted.
    + by eapply ok_best_below.
    + apply (ok_valid _ _ Hok).
    + intros e He%elem_of_ops_rev. by apply (oo_labelled _ _ Hops) in He as [_ ?].
    + pose proof (bi_links _ _ _ Hinv) as Hl. cbn [mbind outcome_bind].
      set (fc' := fc_set_infos _ infos').
      assert (Hok' : fc_ok stake fc').
      { constructor; cbn; rewrite ?Hl.
        - apply (ok_tree _ _ Hok).
        - intros k fi Hk. apply (bi_node _ _ _ Hinv); [done|]. by intros ?%not_elem_of_nil.
        - intros k fi Hk. destruct (Hat k fi Hk) as (fi0 & Hk0 & ->).
          rewrite ops_delta_rev, (ok_votes _ _ Hok _ _ Hk0), wrap64_add_l. by rewrite Hst.
        - done.
        - rewrite Hvalid. apply (ok_valid _ _ Hok). }
      destruct (root_in _ _ Hok') as [ri Hri].
      unfold best_overall_slot, best_slot. rewrite Hri. cbn.
      exists fc', (fi_best_slot ri). split_and!; try done. by rewrite Hri.
Qed.
