(* ===== verification/ForkGrow.v ===== *)
(** * New leaves and new roots

    [add_new_leaf_slot], [set_root] and [add_root_parent] keep the invariant of the
    fork choice.  A new leaf has no weight, so it becomes the best slot only where
    every candidate sibling is weightless and has a greater key; the walk that
    announces it stops at the first ancestor with another best slot. *)

From S2P Require Import Prelude EpochSchedule ForkChoice ForkTree ForkUpdate ForkVotes.

(** ** Announcing a new best slot *)

Section Propagate.
Context (t : Links) (root : SlotHashKey) (Hok : tree_ok t root).
Context (x b0 : SlotHashKey).

(** Every node obeys its rule, except that [key] still shows [b0] where it
    should show [x]. *)
Record announcing (infos : gmap SlotHashKey ForkInfo) (key : SlotHashKey) : Prop := {
  an_links : links infos = t;
  an_below : best_below t infos;
  an_leaf : is_Some (infos !! x);
  an_reach : reach t key b0 /\ reach t key x;
  an_others : forall k fi, k <> key -> infos !! k = Some fi -> node_ok infos k fi;
  an_key : forall fi, infos !! key = Some fi ->
    node_ok infos key (if decide (fi_best_slot fi = b0) then fi_set_best fi x else fi);
}.

(** All nodes obey their rules. *)
Record settled (infos : gmap SlotHashKey ForkInfo) : Prop := {
  se_links : links infos = t;
  se_below : best_below t infos;
  se_nodes : forall k fi, infos !! k = Some fi -> node_ok infos k fi;
}.

Lemma announcing_stop infos key fi :
  announcing infos key -> infos !! key = Some fi -> fi_best_slot fi <> b0 -> settled infos.
Proof.
  intros [Hl Hb Hx Hr Ho Hk] Hkey Hne. constructor; [done|done|]. intros k fk Hfk.
  destruct (decide (k = key)) as [->|]; [|by apply Ho]. simplify_eq.
  specialize (Hk fi Hkey). by rewrite decide_False in Hk.
Qed.

(** The rule of the parent after its child [key] shows [x]. *)
Lemma announcing_parent infos key q fi fq :
  announcing infos key -> infos !! key = Some fi -> fi_best_slot fi = b0 -> parent_of t key = Some q ->
  infos !! q = Some fq ->
  node_ok (<[key := fi_set_best fi x]> infos) q
    (if decide (fi_best_slot fq = b0) then fi_set_best fq x else fq).
Proof.
  intros [Hl Hb Hx [Hr0 Hrx] Ho Hk] Hkey Hbest Hq Hfq.
  pose proof (links_Some _ _ _ Hfq) as Htq. rewrite Hl in Htq.
  assert (Hqk : q <> key) by (intros ->; destruct (parent_spec _ _ Hok _ _ Hq); lia).
  destruct (Ho q fq Hqk Hfq) as [Hat Hsub Hrule].
  destruct (parent_spec _ _ Hok _ _ Hq) as (Hslot & q0 & cs & Hcs & Hin). rewrite Hcs in Htq.
  injection Htq as -> ->.
  assert (Hext : forall d, d ∈ fi_children fq ->
            weight_of infos d = weight_of (<[key := fi_set_best fi x]> infos) d
            /\ cand infos d = cand (<[key := fi_set_best fi x]> infos) d).
  { intros d Hd. unfold weight_of, cand. destruct (decide (key = d)) as [<-|];
      [by rewrite lookup_insert_eq, Hkey|by rewrite lookup_insert_ne]. }
  assert (Hsub' : fi_stake_voted_subtree fq
            = wrap64 (fi_stake_voted_at fq
                + zsum (weight_of (<[key := fi_set_best fi x]> infos)) (fi_children fq))).
  { rewrite Hsub. do 2 f_equal. apply zsum_ext. intros d Hd. apply (Hext d Hd). }
  assert (Hnew : fi_is_candidate fq = true ->
            best_rule (<[key := fi_set_best fi x]> infos) q (fi_children fq)
              (if decide (fi_best_slot fq = b0) then x else fi_best_slot fq)).
  { intros Hc. destruct (Hrule Hc) as [[Hbq Hno]|(c & ci & Hh & Hci & Hbq)].
    - rewrite decide_False.
      + left. split; [done|]. intros d Hd. destruct (Hext d Hd) as [_ <-]. auto.
      + rewrite Hbq. intros ->. by eapply (reach_child_not_up _ _ Hok).
    - right. exists c. destruct (decide (c = key)) as [->|Hck].
      + exists (fi_set_best fi x). simplify_eq. split; [by eapply heaviest_ext|].
        rewrite lookup_insert_eq. split; [done|]. by rewrite decide_True by congruence.
      + exists ci. split; [by eapply heaviest_ext|]. rewrite lookup_insert_ne by done. split; [done|].
        rewrite decide_False; [done|]. rewrite Hbq. intros Hb0. apply Hck.
        destruct (Hb c ci Hci) as [Hrc _]. rewrite Hb0 in Hrc.
        by eapply (reach_one_child _ _ Hok _ _ _ _ _ _ Hcs (proj1 Hh) Hin). }
  destruct (decide (fi_best_slot fq = b0)); constructor; done.
Qed.

Lemma announcing_step infos key fi :
  announcing infos key -> infos !! key = Some fi -> fi_best_slot fi = b0 ->
  match parent_of t key with
  | Some q => announcing (<[key := fi_set_best fi x]> infos) q
  | None => settled (<[key := fi_set_best fi x]> infos)
  end.
Proof.
  intros Han Hkey Hbest. pose proof Han as [Hl Hb Hx [Hr0 Hrx] Ho Hk].
  assert (Hl' : links (<[key := fi_set_best fi x]> infos) = t)
    by (by rewrite (links_update infos key fi)).
  assert (Hb' : best_below t (<[key := fi_set_best fi x]> infos))
    by (eapply best_below_update; eauto).
  assert (Hnodes : forall k fk, parent_of t key <> Some k ->
            <[key := fi_set_best fi x]> infos !! k = Some fk ->
            node_ok (<[key := fi_set_best fi x]> infos) k fk).
  { intros k fk Hnp [[<- <-]|[Hne Hfk]]%lookup_insert_Some.
    - specialize (Hk fi Hkey). rewrite decide_True in Hk by done. apply node_ok_update; [|done].
      intros Hc. destruct (infos_child t root Hok _ _ _ _ Hl Hkey Hc) as (_ & ? & _). done.
    - apply node_ok_update; [|by apply Ho]. intros Hc.
      by destruct (infos_child t root Hok _ _ _ _ Hl Hfk Hc) as (_ & _ & ?). }
  destruct (parent_of t key) as [q|] eqn:Hq.
  - constructor; [done|done| | | |].
    + apply lookup_insert_is_Some. destruct (decide (key = x)); auto.
    + split; (eapply (reach_trans _ _ key); [|done]); by eapply reach_up, reach_refl.
    + intros k fk Hne. apply Hnodes. congruence.
    + intros fq [[<- <-]|[Hne Hfq]]%lookup_insert_Some.
      * exfalso. destruct (parent_spec _ _ Hok _ _ Hq); lia.
      * by eapply announcing_parent.
  - constructor; [done|done|]. intros k fk. by apply Hnodes.
Qed.

(** The walk returns, and leaves every node with its rule. *)
Lemma propagate_loop_ok fc1 fuel infos key :
  links (fork_infos fc1) = t -> announcing infos key -> is_Some (infos !! key) ->
  (length (ancestor_iterator fc1 key) < fuel)%nat ->
  exists infos', propagate_loop fuel infos x b0 (Some key) = Returns infos' /\ settled infos'
    /\ (forall k fi', infos' !! k = Some fi' -> exists fi, infos !! k = Some fi
         /\ exists b, fi' = fi_set_best fi b)
    /\ (forall k fi, infos !! k = Some fi -> fi_best_slot fi <> b0 -> infos' !! k = Some fi).
Proof.
  intros Hfc. revert infos key. induction fuel as [|fuel IH]; intros infos key Han [fi Hkey] Hlen; [lia|].
  assert (Hself : forall k fk, infos !! k = Some fk -> exists f, infos !! k = Some f /\ exists b, fk = fi_set_best f b).
  { intros k fk Hfk. exists fk. split; [done|]. exists (fi_best_slot fk). by destruct fk. }
  cbn. rewrite Hkey. cbn. destruct (decide (fi_best_slot fi = b0)) as [Hb|Hb].
  2: { exists infos. split; [done|]. split; [by eapply announcing_stop|]. split; [done|]. done. }
  pose proof (announcing_step _ _ _ Han Hkey Hb) as Hnext.
  pose proof (an_links _ _ Han) as Hl.
  assert (Hpar : fi_parent fi = parent_of t key) by (rewrite <- Hl, links_parent, Hkey; done).
  rewrite Hpar. pose proof Hok as Hok1. rewrite <- Hfc in Hok1.
  rewrite (ancestors_unfold _ _ Hok1 fc1 key eq_refl), Hfc in Hlen.
  assert (Hstep : forall k fk, <[key := fi_set_best fi x]> infos !! k = Some fk ->
            exists f, infos !! k = Some f /\ exists b, fk = fi_set_best f b).
  { intros k fk [[<- <-]|[_ Hfk]]%lookup_insert_Some; eauto. }
  assert (Hkeep : forall k fk, infos !! k = Some fk -> fi_best_slot fk <> b0 ->
            <[key := fi_set_best fi x]> infos !! k = Some fk).
  { intros k fk Hfk Hne. rewrite lookup_insert_ne; congruence. }
  destruct (parent_of t key) as [q|] eqn:Hq.
  - destruct (IH (<[key := fi_set_best fi x]> infos) q Hnext) as (infos' & -> & Hs & Hf & Hk).
    + apply lookup_insert_is_Some. destruct (decide (key = q)) as [|]; [by left|right].
      split; [done|]. apply links_is_Some. rewrite Hl. by eapply (parent_in _ _ Hok).
    + cbn in Hlen. lia.
    + exists infos'. split; [done|]. split; [done|]. split; [|auto].
      intros k f' Hf'. destruct (Hf k f' Hf') as (f1 & Hf1 & b & ->).
      destruct (Hstep k f1 Hf1) as (f & Hff & b' & ->). exists f. split; [done|]. by exists b.
  - eexists. split; [by destruct fuel|]. auto.
Qed.
End Propagate.

(** ** A new leaf *)

(** The links after [x] is added below [p]. *)
Definition links_leaf (t : Links) (x p : SlotHashKey) (q : option SlotHashKey) (cs : list SlotHashKey)
    : Links :=
  <[p := (q, cs ++ [x])]> (<[x := (Some p, [])]> t).

Section LeafLinks.
Context (t : Links) (root : SlotHashKey) (Hok : tree_ok t root).
Context (x p : SlotHashKey) (q : option SlotHashKey) (cs : list SlotHashKey).
Context (Hx : t !! x = None) (Hp : t !! p = Some (q, cs)) (Hslot : p.1 < x.1).

Lemma leaf_not_child k q' cs' : t !! k = Some (q', cs') -> x ∉ cs'.
Proof. intros Hk Hin. destruct (child_in _ _ Hok _ _ _ _ Hk Hin) as [? Hxx]. congruence. Qed.

Lemma leaf_lookup k :
  links_leaf t x p q cs !! k
  = if decide (k = p) then Some (q, cs ++ [x]) else if decide (k = x) then Some (Some p, []) else t !! k.
Proof.
  unfold links_leaf. destruct (decide (k = p)) as [->|]; [apply lookup_insert_eq|].
  rewrite lookup_insert_ne by done. destruct (decide (k = x)) as [->|]; [apply lookup_insert_eq|].
  by rewrite lookup_insert_ne.
Qed.

Lemma leaf_parent k : parent_of (links_leaf t x p q cs) k = if decide (k = x) then Some p else parent_of t k.
Proof.
  unfold parent_of. rewrite leaf_lookup. destruct (decide (k = p)) as [->|].
  - destruct (decide (p = x)) as [->|]; [lia|]. by rewrite Hp.
  - by destruct (decide (k = x)).
Qed.

Lemma leaf_reach a k : reach t a k -> reach (links_leaf t x p q cs) a k.
Proof.
  induction 1 as [|k r Hr _ IH]; [apply reach_refl|]. eapply reach_up; [|done].
  rewrite leaf_parent. destruct (decide (k = x)) as [->|]; [|done].
  unfold parent_of in Hr. by rewrite Hx in Hr.
Qed.

Lemma tree_ok_leaf : tree_ok (links_leaf t x p q cs) root.
Proof.
  constructor.
  - rewrite leaf_lookup. destruct (to_root _ _ Hok) as [cs0 Hr].
    repeat destruct (decide _); simplify_eq; eauto.
  - intros k cs'. rewrite leaf_lookup. repeat destruct (decide _); subst; [|done|apply (to_orphan _ _ Hok)].
    intros [= Hq _]. rewrite Hq in Hp. by apply (to_orphan _ _ Hok p cs).
  - intros k r cs'. rewrite !leaf_lookup. intros Hk.
    assert (Hcase : (k = x /\ r = p) \/ exists cs0, t !! k = Some (Some r, cs0)).
    { repeat destruct (decide _); simplify_eq; eauto. }
    destruct Hcase as [[-> ->]|[cs0 Hk0]].
    + split; [done|]. rewrite decide_True by done. exists q, (cs ++ [x]). split; [done|]. set_solver.
    + destruct (to_parent _ _ Hok _ _ _ Hk0) as (Hs & q' & cs1 & Hr & Hin). split; [done|].
      clear Hk. destruct (decide (r = p)) as [->|].
      * rewrite Hp in Hr. injection Hr as <- <-. exists q, (cs ++ [x]). set_solver.
      * rewrite decide_False by (intros ->; congruence). eauto.
  - intros k q' cs' c Hk Hc. rewrite leaf_lookup in Hk. rewrite leaf_lookup.
    assert (Hcase : (k = p /\ c = x) \/ exists q0 cs0, t !! k = Some (q0, cs0) /\ c ∈ cs0).
    { repeat destruct (decide _); simplify_eq; [|by apply not_elem_of_nil in Hc|eauto].
      apply elem_of_app in Hc as [? | ->%list_elem_of_singleton]; eauto. }
    destruct Hcase as [[-> ->]|(q0 & cs0 & Hk0 & Hc0)].
    + destruct (decide (x = p)) as [E|]; [rewrite E in Hslot; lia|]. rewrite decide_True by done. eauto.
    + destruct (to_child _ _ Hok _ _ _ _ Hk0 Hc0) as [cs1 Hc1].
      repeat destruct (decide _); simplify_eq; eauto.
  - intros k q' cs'. rewrite leaf_lookup. destruct (decide (k = p)); [|destruct (decide (k = x))]; [intros [= <- <-]|intros [= <- <-]|intros Hk].
    + apply NoDup_app. split; [by apply (to_nodup _ _ Hok p q)|]. split; [|apply NoDup_singleton].
      intros c Hc ->%list_elem_of_singleton. by eapply leaf_not_child.
    + constructor.
    + by eapply (to_nodup _ _ Hok).
  - intros k. rewrite leaf_lookup.
    assert (0 <= p.1) by (apply (to_slot _ _ Hok); by rewrite Hp).
    repeat destruct (decide _); subst; [lia|lia|]. apply (to_slot _ _ Hok).
Qed.

(** A leaf that inherits the invalid ancestor of its parent keeps the marks
    consistent. *)
Lemma validity_ok_leaf v l b :
  validity_ok t v -> v !! x = None -> v !! p = Some (l, b) -> (forall k, is_Some (v !! k) <-> is_Some (t !! k)) ->
  validity_ok (links_leaf t x p q cs) (<[x := (l, false)]> v).
Proof.
  intros [V1 V2 V3 V4] Hvx Hvp Hdom. constructor.
  - intros k l' [[_ ?]|[_ Hk]]%lookup_insert_Some; [done|eauto].
  - intros k s b' [[<- [= -> _]]|[_ Hk]]%lookup_insert_Some; [|eauto].
    apply V2 in Hvp. lia.
  - intros k r s b'. rewrite leaf_parent. destruct (decide (k = x)) as [->|Hkx].
    + intros [= <-]. rewrite lookup_insert_ne by (intros ->; lia). rewrite Hvp. intros [= -> ->].
      exists s, false. rewrite lookup_insert_eq. split; [done|lia].
    + intros Hr Hv. rewrite lookup_insert_ne by done.
      apply (V3 k r s b'); [done|]. rewrite lookup_insert_ne in Hv; [done|]. intros ->.
      apply (parent_in _ _ Hok) in Hr as [? ?]. congruence.
  - intros k r l1 l2 b' Hr Hk Hr'. rewrite leaf_parent in Hr.
    apply lookup_insert_Some in Hk as [[_ ?]|[Hne Hk]]; [done|]. rewrite decide_False in Hr by done.
    apply lookup_insert_Some in Hr' as [[<- _]|[_ Hr']]; [|by eapply V4].
    apply (parent_in _ _ Hok) in Hr as [? ?]. congruence.
Qed.
End LeafLinks.

(** [is_best_child] compares the weights of the children. *)
Lemma any_beats_spec fc x w cs :
  (forall c, c ∈ cs -> is_Some (fork_infos fc !! c)) ->
  any_beats fc x w cs
  = Returns (existsb (fun c => cand (fork_infos fc) c
       && ((w <? weight_of (fork_infos fc) c)
           || ((w =? weight_of (fork_infos fc) c) && key_ltb c x))) cs).
Proof.
  induction cs as [|c cs IH]; intros Hin; cbn; [done|].
  destruct (Hin c) as [ci Hci]; [by left|].
  unfold loses_to, stake_voted_subtree, is_candidate, cand, weight_of. rewrite Hci. cbn.
  destruct (fi_is_candidate ci && _); cbn; [done|]. apply IH. intros d Hd. apply Hin. by right.
Qed.

(** Nothing beats the new weightless leaf [x] exactly when it is preferred to the
    heaviest of its siblings. *)
Lemma leaf_heaviest w ok cs c x :
  heaviest w ok cs c -> x ∉ cs -> ok x = true -> w x = 0 -> (forall d, d ∈ cs -> 0 <= w d) ->
  heaviest w ok (cs ++ [x])
    (if existsb (fun d => ok d && ((0 <? w d) || ((0 =? w d) && key_ltb d x))) (cs ++ [x]) then c else x).
Proof.
  intros Hh Hx Hokx Hwx Hnn. destruct (heaviest_snoc _ _ _ _ x Hh Hx) as [Hwin Hlose].
  pose proof Hh as (Hc & Hokc & Hall).
  destruct (existsb _ _) eqn:E.
  - apply Hlose. right. apply existsb_exists in E as (d & Hd%list_elem_of_In & [Hokd Hbeat]%andb_true_iff).
    assert (Hdx : beats w d x).
    { unfold beats. rewrite Hwx. apply orb_true_iff in Hbeat as [|[? ?]%andb_true_iff]; zbool; auto. }
    apply elem_of_app in Hd as [Hd | ->%list_elem_of_singleton]; [|by destruct (beats_asym _ _ _ Hdx Hdx)].
    destruct (decide (d = c)) as [->|]; [done|]. eapply beats_trans; eauto.
  - apply Hwin; [done|]. assert (Hnot : existsb (fun d => ok d && ((0 <? w d) || ((0 =? w d) && key_ltb d x))) (cs ++ [x]) <> true)
      by congruence.
    rewrite existsb_exists in Hnot. unfold beats. rewrite Hwx. pose proof (Hnn c Hc).
    destruct (decide (w c = 0)) as [Hw0|].
    + right. split; [done|]. apply key_ltb_total; [by intros ->|].
      destruct (key_ltb c x) eqn:Hlt; [|done]. exfalso. apply Hnot. exists c.
      split; [apply list_elem_of_In; set_solver|]. rewrite Hokc, Hw0, Hlt. done.
    + exfalso. apply Hnot. exists c. split; [apply list_elem_of_In; set_solver|].
      rewrite Hokc. cbn. apply orb_true_iff. left. apply Z.ltb_lt. lia.
Qed.

Section Leaf.
Context (stake : Slot -> Pubkey -> Z) (fc : HeaviestSubtreeForkChoice) (Hok : fc_ok stake fc).
Context (x p : SlotHashKey) (pi : ForkInfo).
Context (Hx : fork_infos fc !! x = None) (Hp : fork_infos fc !! p = Some pi) (Hslot : p.1 < x.1).

(** The new node, and the nodes before its announcement. *)
Definition leaf_info : ForkInfo :=
  {| fi_stake_voted_at := 0;
     fi_stake_voted_subtree := 0;
     fi_best_slot := x;
     fi_parent := Some p;
     fi_children := [];
     fi_latest_invalid_ancestor := fi_latest_invalid_ancestor pi;
     fi_is_duplicate_confirmed := false |}.

Definition leaf_infos : gmap SlotHashKey ForkInfo :=
  <[p := fi_push_child pi x]> (<[x := leaf_info]> (fork_infos fc)).

Abbreviation t := (links (fork_infos fc)).
Abbreviation t1 := (links_leaf t x p (fi_parent pi) (fi_children pi)).

Lemma leaf_infos_lookup k :
  leaf_infos !! k
  = if decide (k = p) then Some (fi_push_child pi x)
    else if decide (k = x) then Some leaf_info else fork_infos fc !! k.
Proof.
  unfold leaf_infos. destruct (decide (k = p)) as [->|]; [apply lookup_insert_eq|].
  rewrite lookup_insert_ne by done. destruct (decide (k = x)) as [->|]; [apply lookup_insert_eq|].
  by rewrite lookup_insert_ne.
Qed.

Lemma leaf_links_ok :
  links leaf_infos = t1 /\ tree_ok t1 (fc_root fc).
Proof.
  split.
  - unfold leaf_infos, links_leaf, links. by rewrite !fmap_insert.
  - apply tree_ok_leaf; [apply (ok_tree _ _ Hok)| | |done].
    + by rewrite links_lookup, Hx.
    + by apply links_Some.
Qed.

Lemma leaf_child k fk : fork_infos fc !! k = Some fk -> x ∉ fi_children fk.
Proof.
  intros Hk. eapply (leaf_not_child _ _ (ok_tree _ _ Hok)); [|by apply links_Some].
  by rewrite links_lookup, Hx.
Qed.

(** The weight and candidacy of the old nodes are unchanged. *)
Lemma leaf_same k : k <> x ->
  weight_of leaf_infos k = weight_of (fork_infos fc) k /\ cand leaf_infos k = cand (fork_infos fc) k.
Proof.
  intros Hne. unfold weight_of, cand. rewrite leaf_infos_lookup.
  destruct (decide (k = p)) as [->|]; [by rewrite Hp|]. by rewrite decide_False.
Qed.

Lemma leaf_children k fk : fork_infos fc !! k = Some fk ->
  forall c, c ∈ fi_children fk ->
    weight_of (fork_infos fc) c = weight_of leaf_infos c /\ cand (fork_infos fc) c = cand leaf_infos c.
Proof.
  intros Hk c Hc. destruct (leaf_same c) as [-> ->]; [|done]. intros ->. by apply (leaf_child k fk Hk).
Qed.

Lemma leaf_ne : x <> p.
Proof. intros E. rewrite E in Hslot. lia. Qed.

Lemma leaf_self : leaf_infos !! x = Some leaf_info.
Proof. rewrite leaf_infos_lookup, decide_False, decide_True by auto using leaf_ne. done. Qed.

Lemma leaf_weight : weight_of leaf_infos x = 0 /\ cand leaf_infos x = fi_is_candidate pi.
Proof. unfold weight_of, cand. rewrite leaf_self. done. Qed.

Lemma leaf_nonneg d : d ∈ fi_children pi -> 0 <= weight_of leaf_infos d.
Proof.
  intros Hd. destruct (leaf_children _ _ Hp d Hd) as [<- _]. unfold weight_of.
  destruct (fork_infos fc !! d) as [di|] eqn:Hdi; [|done].
  rewrite (no_subtree _ _ _ (ok_node _ _ Hok _ _ Hdi)). apply wrap64_bound.
Qed.

Lemma leaf_other k fk : k <> p -> leaf_infos !! k = Some fk -> node_ok leaf_infos k fk.
Proof.
  intros Hne Hk. rewrite leaf_infos_lookup, decide_False in Hk by done.
  destruct (decide (k = x)) as [->|Hkx].
  - injection Hk as <-. constructor; cbn; [done|done|]. intros _. left. split; [done|].
    by intros c ?%not_elem_of_nil.
  - pose proof (ok_node _ _ Hok _ _ Hk) as [Hat Hsub Hrule]. pose proof (leaf_child _ _ Hk) as Hnx.
    pose proof (leaf_children _ _ Hk) as Hext.
    constructor; [done| |].
    + rewrite Hsub. do 2 f_equal. apply zsum_ext. intros c Hc. by apply Hext.
    + intros Hc. destruct (Hrule Hc) as [[Hb Hno]|(c & ci & Hh & Hci & Hb)].
      * left. split; [done|]. intros c Hc'. destruct (Hext c Hc') as [_ <-]. auto.
      * right. exists c. rewrite leaf_infos_lookup. destruct (decide (c = p)) as [->|].
        -- exists (fi_push_child pi x). rewrite Hp in Hci. injection Hci as <-.
           split; [by eapply heaviest_ext|done].
        -- exists ci. rewrite decide_False by (intros ->; by apply Hnx, Hh).
           split; [by eapply heaviest_ext|done].
Qed.

(** A child beats the new leaf. *)
Definition beats_leaf (d : SlotHashKey) : bool :=
  cand leaf_infos d
  && ((0 <? weight_of leaf_infos d) || ((0 =? weight_of leaf_infos d) && key_ltb d x)).

(** The parent's best slot is the leaf when nothing beats it. *)
Lemma leaf_parent_best :
  fi_is_candidate pi = true ->
  best_rule leaf_infos p (fi_children pi ++ [x])
    (if existsb beats_leaf (fi_children pi ++ [x]) then fi_best_slot pi else x).
Proof.
  intros Hc. pose proof (leaf_child _ _ Hp) as Hnx. destruct leaf_weight as [Hwx Hcx]. rewrite Hc in Hcx.
  pose proof (leaf_children _ _ Hp) as Hext. right.
  destruct (no_best _ _ _ (ok_node _ _ Hok _ _ Hp) Hc) as [[Hb Hno]|(c & ci & Hh & Hci & Hb)].
  - replace (existsb _ _) with false.
    + exists x, leaf_info. rewrite leaf_self.
      split; [|done]. apply heaviest_first; [|done]. intros d Hd. destruct (Hext d Hd) as [_ <-]. auto.
    + symmetry. apply not_true_iff_false. rewrite existsb_exists.
      intros (d & Hd%list_elem_of_In & [Hcd Hdd]%andb_true_iff).
      apply elem_of_app in Hd as [Hd | ->%list_elem_of_singleton].
      * destruct (Hext d Hd) as [_ E]. rewrite Hno in E by done. congruence.
      * rewrite Hwx, key_ltb_irrefl in Hdd. done.
  - pose proof (heaviest_ext _ _ _ _ _ _ Hext Hh) as Hh'.
    pose proof (leaf_heaviest _ _ _ _ x Hh' Hnx Hcx Hwx leaf_nonneg) as Hl.
    unfold beats_leaf. destruct (existsb _ _); [|exists x, leaf_info; by rewrite leaf_self].
    exists c. rewrite leaf_infos_lookup. destruct (decide (c = p)) as [->|].
    + exists (fi_push_child pi x). split; [done|]. split; [done|]. cbn. congruence.
    + exists ci. rewrite decide_False by (intros ->; by apply Hnx, Hh). done.
Qed.

Lemma leaf_parent_rule :
  node_ok leaf_infos p
    (if existsb beats_leaf (fi_children pi ++ [x]) then fi_push_child pi x
     else fi_set_best (fi_push_child pi x) x).
Proof.
  pose proof (ok_node _ _ Hok _ _ Hp) as [Hat Hsub _]. pose proof leaf_parent_best as Hr.
  assert (Hsum : fi_stake_voted_subtree pi
            = wrap64 (fi_stake_voted_at pi + zsum (weight_of leaf_infos) (fi_children pi ++ [x]))).
  { rewrite Hsub, zsum_app. cbn. rewrite (proj1 leaf_weight), !Z.add_0_r. do 2 f_equal.
    apply zsum_ext. intros c Hc. by apply (leaf_children _ _ Hp). }
  destruct (existsb _ _); constructor; done.
Qed.

(** The announcement of the new leaf. *)
Definition leaf_fc : HeaviestSubtreeForkChoice := fc_set_infos fc leaf_infos.

Lemma leaf_best_child :
  is_best_child leaf_fc x = Returns (negb (existsb beats_leaf (fi_children pi ++ [x]))).
Proof.
  unfold is_best_child, stake_voted_subtree, fc_parent, fc_children. cbn. rewrite leaf_self. cbn.
  rewrite leaf_infos_lookup, decide_True by done. cbn. rewrite any_beats_spec; [done|].
  destruct leaf_links_ok as [Hl Ht]. intros c Hc. cbn. apply links_is_Some. rewrite Hl.
  eapply (child_in _ _ Ht); [|exact Hc]. rewrite <- Hl. rewrite links_lookup, leaf_infos_lookup.
  by rewrite decide_True.
Qed.

Lemma leaf_below : best_below t1 leaf_infos.
Proof.
  intros k fk Hk. rewrite leaf_infos_lookup in Hk.
  assert (Hold : forall j, is_Some (fork_infos fc !! j) -> is_Some (leaf_infos !! j)).
  { intros j Hj. rewrite leaf_infos_lookup. repeat destruct (decide _); eauto. }
  assert (Hr : forall a b, reach t a b -> reach t1 a b).
  { intros a b. apply leaf_reach; [by rewrite links_lookup, Hx|by apply links_Some|done]. }
  destruct (decide (k = p)) as [->|]; [|destruct (decide (k = x)) as [->|]].
  - injection Hk as <-. destruct (ok_best _ _ Hok _ _ Hp). auto.
  - injection Hk as <-. split; [apply reach_refl|]. cbn. by rewrite leaf_self.
  - destruct (ok_best _ _ Hok _ _ Hk). auto.
Qed.

Lemma leaf_announcing :
  existsb beats_leaf (fi_children pi ++ [x]) = false -> announcing t1 x (fi_best_slot pi) leaf_infos p.
Proof.
  intros Hb. destruct leaf_links_ok as [Hl Ht]. constructor.
  - done.
  - apply leaf_below.
  - by rewrite leaf_self.
  - split.
    + apply (leaf_below p (fi_push_child pi x)). by rewrite leaf_infos_lookup, decide_True.
    + eapply reach_up; [|apply reach_refl]. rewrite leaf_parent; [by rewrite decide_True|by apply links_Some|done].
  - apply leaf_other.
  - intros fi. rewrite leaf_infos_lookup, decide_True by done. intros [= <-].
    rewrite decide_True by done. pose proof leaf_parent_rule as H. by rewrite Hb in H.
Qed.

Lemma leaf_settled :
  existsb beats_leaf (fi_children pi ++ [x]) = true -> settled t1 leaf_infos.
Proof.
  intros Hb. destruct leaf_links_ok as [Hl Ht]. constructor; [done|apply leaf_below|].
  intros k fk Hk. destruct (decide (k = p)) as [->|]; [|by apply leaf_other].
  rewrite leaf_infos_lookup, decide_True in Hk by done. injection Hk as <-.
  pose proof leaf_parent_rule as H. by rewrite Hb in H.
Qed.

(** Adding the leaf returns, with every node settled and only best slots changed. *)
Lemma propagate_leaf_ok :
  exists infos', propagate_new_leaf leaf_fc x p = Returns (fc_set_infos leaf_fc infos')
    /\ settled t1 infos'
    /\ forall k fi', infos' !! k = Some fi' -> exists fi, leaf_infos !! k = Some fi
         /\ exists b, fi' = fi_set_best fi b.
Proof.
  destruct leaf_links_ok as [Hl Ht]. unfold propagate_new_leaf.
  assert (Hpl : leaf_infos !! p = Some (fi_push_child pi x)) by (by rewrite leaf_infos_lookup, decide_True).
  unfold best_slot. cbn. rewrite Hpl. cbn. rewrite leaf_best_child. cbn.
  destruct (existsb _ _) eqn:Hb; cbn.
  - exists leaf_infos. split; [done|]. split; [by apply leaf_settled|].
    intros k fk Hk. exists fk. split; [done|]. exists (fi_best_slot fk). by destruct fk.
  - destruct (propagate_loop_ok t1 (fc_root fc) Ht x (fi_best_slot pi) leaf_fc (size leaf_infos) leaf_infos p)
      as (infos' & -> & Hs & Hf & _).
    + done.
    + by apply leaf_announcing.
    + by rewrite Hpl.
    + unfold ancestor_iterator. cbn. eapply ancestor_iter_length; [by rewrite Hl|by rewrite Hpl].
    + exists infos'. auto.
Qed.

Lemma leaf_validities infos' :
  links infos' = t1 ->
  (forall k fi', infos' !! k = Some fi' -> exists fi, leaf_infos !! k = Some fi
     /\ exists b, fi' = fi_set_best fi b) ->
  validities infos' = <[x := (fi_latest_invalid_ancestor pi, false)]> (validities (fork_infos fc)).
Proof.
  intros Hl Hf. destruct leaf_links_ok as [Hl1 _].
  assert (Heq : validities infos' = validities leaf_infos).
  { apply map_eq. intros k. rewrite !validities_lookup. destruct (infos' !! k) as [fi'|] eqn:Hk.
    - destruct (Hf k fi' Hk) as (fi & -> & b & ->). done.
    - destruct (leaf_infos !! k) as [fi|] eqn:Hk1; [|done]. exfalso.
      assert (Hin : is_Some (infos' !! k)).
      { apply links_is_Some. rewrite Hl, <- Hl1. apply links_is_Some. by rewrite Hk1. }
      rewrite Hk in Hin. by destruct Hin. }
  rewrite Heq. apply map_eq. intros k. rewrite validities_lookup, leaf_infos_lookup.
  destruct (decide (k = p)) as [->|]; [|destruct (decide (k = x)) as [->|]].
  - rewrite lookup_insert_ne by apply leaf_ne. by rewrite validities_lookup, Hp.
  - by rewrite lookup_insert_eq.
  - by rewrite lookup_insert_ne, validities_lookup.
Qed.

(** [add_new_leaf_slot] below a node of the tree, for a block nobody has voted for. *)
Lemma add_leaf_ok :
  (forall pk, latest_votes fc !! pk <> Some x) ->
  exists fc', add_new_leaf_slot fc x (Some p) = Returns fc' /\ fc_ok stake fc'
    /\ fc_root fc' = fc_root fc /\ latest_votes fc' = latest_votes fc
    /\ links (fork_infos fc') = t1
    /\ validities (fork_infos fc') = <[x := (fi_latest_invalid_ancestor pi, false)]> (validities (fork_infos fc)).
Proof.
  intros Hnovote. destruct leaf_links_ok as [Hl Ht].
  destruct propagate_leaf_ok as (infos' & Hprop & [Hl' Hbelow Hnodes] & Hf).
  pose proof (leaf_validities infos' Hl' Hf) as Hv.
  exists (fc_set_infos leaf_fc infos'). split.
  { unfold add_new_leaf_slot, contains_block. rewrite Hx. cbn [is_some].
    cbn [fc_set_infos fork_infos mbind option_bind]. rewrite lookup_insert_ne by apply leaf_ne.
    rewrite Hp. cbn. rewrite <- Hprop. unfold leaf_fc, leaf_infos, leaf_info, latest_invalid_ancestor.
    by rewrite Hp. }
  split; [|split; [done|]; split; [done|]; by split].
  constructor; cbn; rewrite ?Hl', ?Hv; [done|done| |done|].
  - intros k fk Hk. destruct (Hf k fk Hk) as (fi & Hfi & b & ->). cbn. rewrite leaf_infos_lookup in Hfi.
    destruct (decide (k = p)) as [->|]; [|destruct (decide (k = x)) as [->|]].
    + injection Hfi as <-. by apply (ok_votes _ _ Hok p pi Hp).
    + injection Hfi as <-. cbn. unfold votes_at, msum. rewrite zsum_zero; [done|].
      intros [pk v] Hpk%elem_of_map_to_list. cbn. rewrite decide_False; [done|]. intros ->.
      by apply (Hnovote pk).
    + by apply (ok_votes _ _ Hok).
  - eapply validity_ok_leaf; [apply (ok_tree _ _ Hok)|by rewrite links_lookup, Hx|by apply links_Some|done|
      apply (ok_valid _ _ Hok)|by rewrite validities_lookup, Hx|by apply validities_Some|].
    intros k. rewrite validities_lookup, fmap_is_Some. symmetry. apply links_is_Some.
Qed.
End Leaf.

(** ** A new root *)

Lemma fc_new_ok stake root :
  0 <= root.1 ->
  exists fc, fc_new root = Returns fc /\ fc_ok stake fc /\ fc_root fc = root /\ latest_votes fc = ∅
    /\ fork_infos fc = {[ root := {| fi_stake_voted_at := 0; fi_stake_voted_subtree := 0;
         fi_best_slot := root; fi_parent := None; fi_children := [];
         fi_latest_invalid_ancestor := None; fi_is_duplicate_confirmed := true |} ]}.
Proof.
  intros Hroot. unfold fc_new, add_new_leaf_slot, contains_block. cbn. rewrite lookup_empty. cbn.
  eexists. split; [done|]. cbn. rewrite insert_empty. split; [|done].
  set (fi := Build_ForkInfo _ _ _ _ _ _ _).
  assert (Hl : links {[root := fi]} = {[root := (None, [])]}) by (unfold links; by rewrite map_fmap_singleton).
  constructor; cbn; rewrite ?Hl.
  - constructor.
    + exists []. by rewrite lookup_singleton_eq.
    + by intros k cs [<- _]%lookup_singleton_Some.
    + by intros k p cs [_ ?]%lookup_singleton_Some.
    + intros k q cs c [_ [= <- <-]]%lookup_singleton_Some ?%not_elem_of_nil. done.
    + intros k q cs [_ [= <- <-]]%lookup_singleton_Some. constructor.
    + by intros k [? [<- _]%lookup_singleton_Some].
  - intros k fk [<- <-]%lookup_singleton_Some. constructor; cbn; [done|done|]. left. split; [done|].
    by intros c ?%not_elem_of_nil.
  - intros k fk [<- <-]%lookup_singleton_Some. cbn. unfold votes_at. by rewrite msum_empty.
  - intros k fk [<- <-]%lookup_singleton_Some. cbn. split; [apply reach_refl|by rewrite lookup_singleton_eq].
  - assert (Hpar : forall k p, parent_of {[root := (None, [])]} k <> Some p).
    { intros k p. unfold parent_of. destruct (_ !! k) as [[q cs]|] eqn:E; [|done].
      by apply lookup_singleton_Some in E as [_ [= <- <-]]. }
    unfold validities. rewrite map_fmap_singleton. constructor.
    + by intros k l [_ [= <-]]%lookup_singleton_Some.
    + by intros k s b [_ ?]%lookup_singleton_Some.
    + by intros k p s b ?%Hpar.
    + by intros k p l l' b ?%Hpar.
Qed.

Lemma remove_all_ok infos keys :
  NoDup keys -> (forall k, k ∈ keys -> is_Some (infos !! k)) ->
  exists infos', remove_all infos keys = Returns infos'
    /\ forall k, infos' !! k = if decide (k ∈ keys) then None else infos !! k.
Proof.
  revert infos. induction keys as [|x keys IH]; intros infos Hn Hin; cbn.
  - exists infos. split; [done|]. intros k. by rewrite decide_False by apply not_elem_of_nil.
  - destruct (Hin x) as [fi Hx]; [by left|]. rewrite Hx. cbn. apply NoDup_cons in Hn as [Hxk Hn].
    destruct (IH (delete x infos) Hn) as (infos' & -> & Hl).
    { intros k Hk. rewrite lookup_delete_ne by (by intros ->). apply Hin. by right. }
    exists infos'. split; [done|]. intros k. rewrite Hl.
    destruct (decide (k ∈ keys)) as [Hk|Hk]; [by rewrite decide_True by (by right)|].
    destruct (decide (k = x)) as [->|Hne].
    + by rewrite decide_True, lookup_delete_eq by left.
    + rewrite decide_False by (by intros [?|?]%elem_of_cons). by rewrite lookup_delete_ne.
Qed.

Section NewRoot.
Context (t t' : Links) (root r : SlotHashKey) (Hok : tree_ok t root) (q : option SlotHashKey)
  (cs : list SlotHashKey) (Hr : t !! r = Some (q, cs)).
(** [t'] is the subtree of [r]. *)
Context (Hroot : t' !! r = Some (None, cs)).
Context (Hin : forall k, k <> r -> reach t r k -> t' !! k = t !! k).
Context (Hout : forall k, ~ reach t r k -> t' !! k = None).
Context (Hdec : forall k, Decision (reach t r k)).

Lemma subtree_lookup k v : t' !! k = Some v -> reach t r k /\ (k = r /\ v = (None, cs) \/ k <> r /\ t !! k = Some v).
Proof.
  intros Hk. destruct (Hdec k) as [Hrk|Hn]; [|by rewrite Hout in Hk].
  split; [done|]. destruct (decide (k = r)) as [->|]; [left|right; rewrite <- Hin by done]; split; congruence.
Qed.

Lemma subtree_children k q' cs' : t' !! k = Some (q', cs') -> exists q'', t !! k = Some (q'', cs').
Proof. intros [_ [[-> [= -> ->]]|[_ H]]]%subtree_lookup; eauto. Qed.

Lemma subtree_reach a k : reach t r a -> reach t a k -> reach t' a k.
Proof.
  intros Ha. induction 1 as [|k p Hp Hak IH]; [apply reach_refl|]. apply (reach_up _ _ _ p); [|done].
  assert (Hk : k <> r).
  { intros ->. apply (reach_slot _ _ Hok) in Ha, Hak. destruct (parent_spec _ _ Hok _ _ Hp). lia. }
  unfold parent_of. rewrite Hin; [done|done|]. eapply reach_up; [done|]. by eapply reach_trans.
Qed.

Lemma subtree_parent k p : parent_of t' k = Some p -> parent_of t k = Some p /\ reach t r p.
Proof.
  unfold parent_of. destruct (t' !! k) as [[q' cs']|] eqn:Hk; [|done]. cbn. intros ->.
  apply subtree_lookup in Hk as [Hrk [[_ ?]|[Hne Hk]]]; [done|]. rewrite Hk. split; [done|].
  inversion Hrk as [|? p' Hp' Hrp]; subst; [done|]. unfold parent_of in Hp'. rewrite Hk in Hp'.
  by injection Hp' as ->.
Qed.

Lemma tree_ok_subtree : tree_ok t' r.
Proof.
  constructor.
  - eauto.
  - intros k cs' [Hrk [[-> _]|[Hne Hk]]]%subtree_lookup; [done|].
    apply (to_orphan _ _ Hok) in Hk as ->. apply (reach_antisym _ _ Hok); [|done].
    apply (reach_root _ _ Hok). by rewrite Hr.
  - intros k p cs' Hk. assert (Hp : parent_of t' k = Some p) by (unfold parent_of; by rewrite Hk).
    apply subtree_parent in Hp as [Hp Hrp]. destruct (parent_spec _ _ Hok _ _ Hp) as (Hs & q' & cs1 & Hpp & Hc).
    split; [done|]. destruct (decide (p = r)) as [->|].
    + exists None, cs. split; [done|]. congruence.
    + exists q', cs1. by rewrite Hin.
  - intros k q' cs' c Hk Hc. pose proof Hk as [Hrk _]%subtree_lookup.
    apply subtree_children in Hk as [q'' Hk]. destruct (to_child _ _ Hok _ _ _ _ Hk Hc) as [cs1 Hc1].
    exists cs1. rewrite Hin; [done| |].
    + intros ->. exact (reach_child_not_up _ _ Hok _ _ _ _ Hk Hc Hrk).
    + exact (reach_up _ _ _ _ (child_parent _ _ Hok _ _ _ _ Hk Hc) Hrk).
  - intros k q' cs' [q'' Hk]%subtree_children. by apply (to_nodup _ _ Hok) in Hk.
  - intros k [[q' cs'] [q'' Hk]%subtree_children]. apply (to_slot _ _ Hok). by rewrite Hk.
Qed.
End NewRoot.

Section SetRoot.
Context (stake : Slot -> Pubkey -> Z) (fc : HeaviestSubtreeForkChoice) (Hok : fc_ok stake fc).
Context (r : SlotHashKey) (ri : ForkInfo) (Hr : fork_infos fc !! r = Some ri).
Abbreviation t := (links (fork_infos fc)).
Context (infos' : gmap SlotHashKey ForkInfo).
(** [infos'] holds the subtree of [r]. *)
Context (Hroot : infos' !! r = Some (fi_set_parent ri None)).
Context (Hin : forall k, k <> r -> reach t r k -> infos' !! k = fork_infos fc !! k).
Context (Hout : forall k, ~ reach t r k -> infos' !! k = None).

Lemma subtree_dec k : Decision (reach t r k).
Proof. exact (reach_decision _ _ (ok_tree _ _ Hok) fc r k eq_refl). Defined.

Lemma subtree_links_in k : k <> r -> reach t r k -> links infos' !! k = t !! k.
Proof. intros Hne Hrk. rewrite !links_lookup. by rewrite Hin. Qed.

Lemma subtree_links_out k : ~ reach t r k -> links infos' !! k = None.
Proof. intros Hn. by rewrite links_lookup, Hout. Qed.

Lemma subtree_links_root : links infos' !! r = Some (None, fi_children ri).
Proof. by rewrite links_lookup, Hroot. Qed.

(** A node of the subtree is the old node, up to the parent of the root. *)
Lemma subtree_node k fk :
  infos' !! k = Some fk ->
  reach t r k /\ exists f, fork_infos fc !! k = Some f /\ (fk = f \/ k = r /\ fk = fi_set_parent f None).
Proof.
  intros Hk. destruct (subtree_dec k) as [Hrk|Hn]; [|by rewrite Hout in Hk]. split; [done|].
  destruct (decide (k = r)) as [->|].
  - exists ri. split; [done|]. right. split; congruence.
  - exists fk. rewrite <- Hin by done. auto.
Qed.

Lemma subtree_child k fk c :
  infos' !! k = Some fk -> c ∈ fi_children fk -> infos' !! c = fork_infos fc !! c.
Proof.
  intros (Hrk & f & Hf & Hfk)%subtree_node Hc.
  assert (Hcf : c ∈ fi_children f) by (by destruct Hfk as [->|[_ ->]]).
  pose proof (links_Some _ _ _ Hf) as Hl. pose proof (ok_tree _ _ Hok) as Ht. apply Hin.
  - intros ->. exact (reach_child_not_up _ _ Ht _ _ _ _ Hl Hcf Hrk).
  - exact (reach_up _ _ _ _ (child_parent _ _ Ht _ _ _ _ Hl Hcf) Hrk).
Qed.

Lemma validity_ok_subtree : validity_ok (links infos') (validities infos').
Proof.
  pose proof (ok_valid _ _ Hok) as [V1 V2 V3 V4].
  assert (Hv : forall k v, validities infos' !! k = Some v -> validities (fork_infos fc) !! k = Some v).
  { intros k v. rewrite !validities_lookup. intros (fk & Hk & ->)%fmap_Some.
    apply subtree_node in Hk as (_ & f & -> & [->|[_ ->]]); done. }
  assert (Hv' : forall k v, is_Some (infos' !! k) -> validities (fork_infos fc) !! k = Some v ->
                  validities infos' !! k = Some v).
  { intros k v [fk Hk] Hkv. pose proof (validities_Some _ _ _ Hk) as Hk'. rewrite Hk'.
    apply Hv in Hk'. congruence. }
  assert (Hp : forall k p, parent_of (links infos') k = Some p -> parent_of t k = Some p /\ is_Some (infos' !! k)).
  { intros k p Hkp. split.
    - by destruct (subtree_parent t (links infos') r _ _ (links_Some _ _ _ Hr) subtree_links_root
                     subtree_links_in subtree_links_out subtree_dec k p Hkp).
    - apply links_is_Some. unfold parent_of in Hkp. by destruct (links infos' !! k). }
  constructor.
  - intros k l Hk%Hv. by eapply V1.
  - intros k s b Hk%Hv. by eapply V2.
  - intros k p s b [Hkp Hk]%Hp Hps%Hv. destruct (V3 k p s b Hkp Hps) as (s' & b' & Hk' & Hle).
    exists s', b'. split; [|done]. by apply Hv'.
  - intros k p l l' b [Hkp _]%Hp Hk%Hv Hp'%Hv. by eapply V4.
Qed.

(** The subtree of a node is a consistent fork choice. *)
Lemma subtree_ok :
  fc_ok stake {| fork_infos := infos'; latest_votes := latest_votes fc; fc_root := r |}.
Proof.
  pose proof (ok_tree _ _ Hok) as Ht. constructor; cbn.
  - exact (tree_ok_subtree t (links infos') (fc_root fc) r Ht _ _ (links_Some _ _ _ Hr) subtree_links_root
             subtree_links_in subtree_links_out subtree_dec).
  - intros k fk Hk. apply (node_ok_ext (fork_infos fc)); [intros c; by apply (subtree_child k)|].
    apply subtree_node in Hk as (_ & f & Hf & [->|[-> ->]]); destruct (ok_node _ _ Hok _ _ Hf); by constructor.
  - intros k fk (_ & f & Hf & [->|[-> ->]])%subtree_node; by apply (ok_votes _ _ Hok _ _ Hf).
  - intros k fk (Hrk & f & Hf & Hfk)%subtree_node.
    assert (Hb : fi_best_slot fk = fi_best_slot f) by (by destruct Hfk as [->|[_ ->]]). rewrite Hb.
    destruct (ok_best _ _ Hok _ _ Hf) as [Hrb Hbin].
    assert (Hrr : reach t r (fi_best_slot f)) by (by eapply reach_trans).
    split.
    + by apply (subtree_reach t (links infos') (fc_root fc) r Ht subtree_links_in).
    + destruct (decide (fi_best_slot f = r)) as [->|]; [by rewrite Hroot|by rewrite Hin].
  - apply validity_ok_subtree.
Qed.
End SetRoot.

(** [set_root] to a node of the tree returns, and keeps exactly its subtree. *)
Lemma set_root_ok stake fc r ri :
  fc_ok stake fc -> fork_infos fc !! r = Some ri ->
  exists fc', set_root fc r = Returns fc' /\ fc_ok stake fc'
    /\ fc_root fc' = r /\ latest_votes fc' = latest_votes fc
    /\ fork_infos fc' !! r = Some (fi_set_parent ri None)
    /\ (forall k, k <> r -> reach (links (fork_infos fc)) r k -> fork_infos fc' !! k = fork_infos fc !! k)
    /\ (forall k, ~ reach (links (fork_infos fc)) r k -> fork_infos fc' !! k = None).
Proof.
  intros Hok Hr. pose proof (ok_tree _ _ Hok) as Ht. unfold set_root.
  destruct (subtree_diff_spec fc Ht (fc_root fc) r) as (s & -> & Hs). cbn.
  destruct (remove_all_ok (fork_infos fc) (elements s)) as (infos' & -> & Hl).
  - apply NoDup_elements.
  - intros k Hk%elem_of_elements. by apply Hs in Hk as [? _].
  - assert (Hrs : r ∉ s).
    { intros [_ [_ Hw]]%Hs. apply Hw. split; [|apply reach_refl].
      apply (reach_root _ _ Ht), links_is_Some. by rewrite Hr. }
    cbn. rewrite Hl, decide_False, Hr by (by rewrite elem_of_elements). cbn.
    assert (H1 : <[r := fi_set_parent ri None]> infos' !! r = Some (fi_set_parent ri None))
      by apply lookup_insert_eq.
    assert (H2 : forall k, k <> r -> reach (links (fork_infos fc)) r k ->
              <[r := fi_set_parent ri None]> infos' !! k = fork_infos fc !! k).
    { intros k Hne Hrk. rewrite lookup_insert_ne, Hl, decide_False; [done| |done].
      rewrite elem_of_elements. intros [_ [_ Hw]]%Hs. apply Hw. split; [|done].
      apply (reach_root _ _ Ht), links_is_Some. by rewrite Hr. }
    assert (H3 : forall k, ~ reach (links (fork_infos fc)) r k -> <[r := fi_set_parent ri None]> infos' !! k = None).
    { intros k Hn. rewrite lookup_insert_ne, Hl by (intros ->; apply Hn, reach_refl).
      destruct (decide (k ∈ elements s)) as [|Hk]; [done|]. rewrite elem_of_elements, Hs in Hk.
      destruct (fork_infos fc !! k) as [fk|] eqn:Hfk; [|done]. exfalso. apply Hk. split; [eauto|].
      split; [|tauto]. apply (reach_root _ _ Ht), links_is_Some. by rewrite Hfk. }
    eexists. split; [done|]. split; [by eapply subtree_ok|]. auto.
Qed.

(** ** A new parent of the root *)

Lemma tree_ok_root_parent t root q cs :
  tree_ok t root -> 0 <= q.1 -> q.1 < root.1 -> t !! q = None -> t !! root = Some (None, cs) ->
  tree_ok (<[q := (None, [root])]> (<[root := (Some q, cs)]> t)) q.
Proof.
  intros Hok H0 Hlt Hq Hr. assert (Hne : q <> root) by congruence.
  assert (Hold : forall k v, k <> root -> t !! k = Some v ->
            <[q := (None, [root])]> (<[root := (Some q, cs)]> t) !! k = Some v).
  { intros k v Hk Hkv. rewrite !lookup_insert_ne; congruence. }
  assert (Hrt : <[q := (None, [root])]> (<[root := (Some q, cs)]> t) !! root = Some (Some q, cs)).
  { rewrite lookup_insert_ne by done. apply lookup_insert_eq. }
  constructor.
  - exists [root]. apply lookup_insert_eq.
  - intros k cs'. rewrite lookup_insert_Some, lookup_insert_Some. intros [[<- _]|[_ [[_ ?]|[Hk Hkk]]]]; [done|done|].
    by apply (to_orphan _ _ Hok) in Hkk.
  - intros k p cs'. rewrite lookup_insert_Some, lookup_insert_Some.
    intros [[_ ?]|[_ [[<- [= <- <-]]|[Hk Hkk]]]]; [done| |].
    + split; [done|]. exists None, [root]. rewrite lookup_insert_eq. split; [done|]. by left.
    + destruct (to_parent _ _ Hok _ _ _ Hkk) as (Hs & p' & cs1 & Hp & Hin). split; [done|].
      destruct (decide (p = root)) as [->|]; [|eauto]. rewrite Hrt. rewrite Hr in Hp.
      injection Hp as <- <-. eauto.
  - intros k q' cs' c. rewrite lookup_insert_Some, lookup_insert_Some.
    intros [[<- [= <- <-]]|[_ [[<- [= <- <-]]|[Hk Hkk]]]] Hc.
    + apply list_elem_of_singleton in Hc as ->. eauto.
    + destruct (to_child _ _ Hok _ _ _ _ Hr Hc) as [cs1 Hc1]. exists cs1. apply Hold; [|done]. congruence.
    + destruct (to_child _ _ Hok _ _ _ _ Hkk Hc) as [cs1 Hc1]. exists cs1. apply Hold; [|done]. congruence.
  - intros k q' cs'. rewrite lookup_insert_Some, lookup_insert_Some.
    intros [[_ [= <- <-]]|[_ [[<- [= <- <-]]|[Hk Hkk]]]].
    + apply NoDup_singleton.
    + by eapply (to_nodup _ _ Hok).
    + by eapply (to_nodup _ _ Hok).
  - intros k. rewrite lookup_insert_is_Some, lookup_insert_is_Some.
    intros [<-|[_ [<-|[_ Hk]]]]; [done|lia|by apply (to_slot _ _ Hok)].
Qed.

Section RootParent.
Context (stake : Slot -> Pubkey -> Z) (fc : HeaviestSubtreeForkChoice) (Hok : fc_ok stake fc).
Context (q : SlotHashKey) (ri : ForkInfo) (Hr : fork_infos fc !! fc_root fc = Some ri).
Context (H0 : 0 <= q.1) (Hlt : q.1 < (fc_root fc).1) (Hq : fork_infos fc !! q = None).
Context (Hcand : fi_is_candidate ri = true) (Hnovote : forall pk, latest_votes fc !! pk <> Some q).

Definition root_parent_info : ForkInfo :=
  {| fi_stake_voted_at := 0;
     fi_stake_voted_subtree := fi_stake_voted_subtree ri;
     fi_best_slot := fi_best_slot ri;
     fi_parent := None;
     fi_children := [fc_root fc];
     fi_latest_invalid_ancestor := None;
     fi_is_duplicate_confirmed := fi_is_duplicate_confirmed ri |}.

Definition root_parent_infos : gmap SlotHashKey ForkInfo :=
  <[q := root_parent_info]> (<[fc_root fc := fi_set_parent ri (Some q)]> (fork_infos fc)).

Abbreviation root := (fc_root fc).
Abbreviation t := (links (fork_infos fc)).
Abbreviation t' := (<[q := (None, [root])]> (<[root := (Some q, fi_children ri)]> t)).

Lemma root_parent_none : fi_parent ri = None.
Proof.
  destruct (to_root _ _ (ok_tree _ _ Hok)) as [cs Hc]. rewrite links_lookup, Hr in Hc. by injection Hc.
Qed.

Lemma root_parent_lookup k fk :
  root_parent_infos !! k = Some fk ->
  (k = q /\ fk = root_parent_info) \/ (k = root /\ fk = fi_set_parent ri (Some q))
  \/ (k <> q /\ k <> root /\ fork_infos fc !! k = Some fk).
Proof.
  unfold root_parent_infos. rewrite lookup_insert_Some, lookup_insert_Some.
  intros [[<- <-]|[? [[<- <-]|[? ?]]]]; auto 6.
Qed.

Lemma root_parent_tree : links root_parent_infos = t' /\ tree_ok t' q.
Proof.
  split; [unfold root_parent_infos, links; by rewrite !fmap_insert|].
  apply tree_ok_root_parent; [apply (ok_tree _ _ Hok)|done|done|by rewrite links_lookup, Hq|].
  rewrite (links_Some _ _ _ Hr). by rewrite root_parent_none.
Qed.

Lemma root_parent_reach a k : reach t a k -> reach t' a k.
Proof.
  induction 1 as [|k p Hp _ IH]; [apply reach_refl|]. eapply reach_up; [|done].
  unfold parent_of. rewrite !lookup_insert_ne; [done| |].
  - intros <-. by rewrite (root_parent _ _ (ok_tree _ _ Hok)) in Hp.
  - intros <-. unfold parent_of in Hp. by rewrite links_lookup, Hq in Hp.
Qed.

Lemma root_parent_child k fk c :
  fork_infos fc !! k = Some fk -> c ∈ fi_children fk -> root_parent_infos !! c = fork_infos fc !! c.
Proof.
  intros Hk Hc. pose proof (links_Some _ _ _ Hk) as Hl. pose proof (ok_tree _ _ Hok) as Ht.
  unfold root_parent_infos. rewrite !lookup_insert_ne; [done| |].
  - intros <-. pose proof (child_parent _ _ Ht _ _ _ _ Hl Hc) as Hp. by rewrite (root_parent _ _ Ht) in Hp.
  - intros <-. destruct (child_in _ _ Ht _ _ _ _ Hl Hc) as [? Hx]. by rewrite links_lookup, Hq in Hx.
Qed.

Lemma root_parent_node : node_ok root_parent_infos q root_parent_info.
Proof.
  assert (Hlr : root_parent_infos !! root = Some (fi_set_parent ri (Some q))).
  { unfold root_parent_infos. rewrite lookup_insert_ne by congruence. apply lookup_insert_eq. }
  assert (Hw : weight_of root_parent_infos root = fi_stake_voted_subtree ri)
    by (unfold weight_of; by rewrite Hlr).
  constructor; cbn; [done| |].
  - rewrite Hw, Z.add_0_r, wrap64_small; [done|].
    rewrite (no_subtree _ _ _ (ok_node _ _ Hok _ _ Hr)). apply wrap64_bound.
  - intros _. right. exists root, (fi_set_parent ri (Some q)). split; [|done].
    split; [by left|]. split; [unfold cand; by rewrite Hlr|]. intros d Hd%list_elem_of_singleton. done.
Qed.

Lemma root_parent_validity : validity_ok t' (validities root_parent_infos).
Proof.
  assert (Hv : validities root_parent_infos
            = <[q := (None, fi_is_duplicate_confirmed ri)]> (validities (fork_infos fc))).
  { unfold root_parent_infos, validities. rewrite !fmap_insert. f_equal. apply insert_id.
    by rewrite lookup_fmap, Hr. }
  rewrite Hv. pose proof (ok_valid _ _ Hok) as [V1 V2 V3 V4].
  assert (Hvq : validities (fork_infos fc) !! q = None) by (by rewrite validities_lookup, Hq).
  assert (Hpar : forall k p, parent_of t' k = Some p -> (k = root /\ p = q) \/ (k <> q /\ p <> q /\ parent_of t k = Some p)).
  { intros k p. unfold parent_of at 1. destruct (t' !! k) as [[p' cs]|] eqn:E; [|done]. cbn. intros ->.
    apply lookup_insert_Some in E as [[_ ?]|[Hne E]]; [done|].
    apply lookup_insert_Some in E as [[<- [= <- _]]|[_ E]]; [by left|right].
    assert (Hp : parent_of t k = Some p) by (unfold parent_of; by rewrite E).
    split; [done|]. split; [|done]. intros ->. apply (parent_in _ _ (ok_tree _ _ Hok)) in Hp as [? Hx].
    by rewrite links_lookup, Hq in Hx. }
  constructor.
  - intros k l [[_ [= <- _]]|[_ Hk]]%lookup_insert_Some; [done|eauto].
  - intros k s b [[_ ?]|[_ Hk]]%lookup_insert_Some; [done|eauto].
  - intros k p s b [[-> ->]|(Hk & Hp & Hkp)]%Hpar; [by rewrite lookup_insert_eq|].
    rewrite !lookup_insert_ne by done. by apply V3.
  - intros k p l l' b [[-> ->]|(Hk & Hp & Hkp)]%Hpar.
    + rewrite lookup_insert_eq, lookup_insert_ne by congruence.
      rewrite (validities_Some _ _ _ Hr). unfold validity. congruence.
    + rewrite !lookup_insert_ne by done. by eapply V4.
Qed.

(** [add_root_parent] above a candidate root, for a block nobody has voted for. *)
Lemma add_root_parent_ok :
  exists fc', add_root_parent fc q = Returns fc' /\ fc_ok stake fc' /\ fc_root fc' = q
    /\ latest_votes fc' = latest_votes fc /\ fork_infos fc' = root_parent_infos.
Proof.
  unfold add_root_parent. rewrite (proj2 (Z.ltb_lt _ _) Hlt), Hq, Hr. cbn.
  eexists. split; [done|]. cbn. split; [|done]. destruct root_parent_tree as [Hl Ht].
  fold root_parent_info. fold root_parent_infos.
  constructor; cbn; rewrite ?Hl; [done| | | |apply root_parent_validity].
  - intros k fk [[-> ->]|[[-> ->]|(_ & _ & Hk)]]%root_parent_lookup; [apply root_parent_node| |].
    + apply (node_ok_ext (fork_infos fc)); [intros c; by apply (root_parent_child root ri)|].
      destruct (ok_node _ _ Hok _ _ Hr). by constructor.
    + apply (node_ok_ext (fork_infos fc)); [intros c; by apply (root_parent_child k fk)|by apply (ok_node _ _ Hok)].
  - intros k fk [[-> ->]|[[-> ->]|(_ & _ & Hk)]]%root_parent_lookup.
    + cbn. unfold votes_at, msum. rewrite zsum_zero; [done|].
      intros [pk v] Hpk%elem_of_map_to_list. cbn. rewrite decide_False; [done|]. intros ->.
      by apply (Hnovote pk).
    + by apply (ok_votes _ _ Hok _ _ Hr).
    + by apply (ok_votes _ _ Hok).
  - assert (Hin : forall j, is_Some (fork_infos fc !! j) -> is_Some (root_parent_infos !! j)).
    { intros j Hj. unfold root_parent_infos. rewrite !lookup_insert_is_Some.
      destruct (decide (q = j)); auto. destruct (decide (root = j)); auto. }
    destruct (ok_best _ _ Hok _ _ Hr) as [Hrr Hri].
    intros k fk [[-> ->]|[[-> ->]|(_ & _ & Hk)]]%root_parent_lookup; cbn.
    + split; [|auto]. eapply reach_trans; [|by apply root_parent_reach]. eapply reach_up; [|apply reach_refl].
      unfold parent_of. rewrite lookup_insert_ne by congruence. by rewrite lookup_insert_eq.
    + split; [by apply root_parent_reach|auto].
    + destruct (ok_best _ _ Hok _ _ Hk). split; [by apply root_parent_reach|auto].
Qed.
End RootParent.
