(* ===== verification/ForkMarks.v ===== *)
(** * Marking forks valid and invalid

    A mark at a block touches the block and everything below it, and aggregates
    every ancestor.  This file computes the marks that [mark_fork_invalid_candidate]
    and [mark_fork_valid_candidate] leave, shows that both return on the blocks the
    callers give them, and that they keep the invariant of the fork choice. *)

From S2P Require Import Prelude EpochSchedule ForkChoice ForkTree ForkUpdate ForkVotes.

Lemma existsb_ext {A} (f g : A -> bool) l : (forall x, x ∈ l -> f x = g x) -> existsb f l = existsb g l.
Proof.
  induction l as [|x l IH]; cbn; [done|]. intros H. rewrite (H x) by left. f_equal. apply IH.
  intros y Hy. apply H. by right.
Qed.

(** ** The effect of a mark on one node *)

Abbreviation Validity := (option Slot * bool)%type (only parsing).

Definition mark_label (op : UpdateOperation) : UpdateLabel :=
  match op with
  | OMarkValid s => LMarkValid s
  | OMarkInvalid s => LMarkInvalid s
  | _ => LAggregate
  end.

Definition is_mark (op : UpdateOperation) : Prop :=
  match op with OMarkValid _ | OMarkInvalid _ => True | _ => False end.

(** What a mark makes of the validity of the node [k]; [None] for a panic. *)
Definition mark_validity (op : UpdateOperation) (k : SlotHashKey) (v : Validity) : option Validity :=
  match op with
  | OMarkValid s =>
      Some (match v.1 with Some l => if l <=? s then None else Some l | None => None end,
            if k.1 =? s then true else v.2)
  | OMarkInvalid s =>
      if v.2 then None
      else Some (if match v.1 with Some l => l <? s | None => true end then Some s else v.1, v.2)
  | _ => None
  end.

Lemma process_mark infos k l op fi v :
  is_mark op -> infos !! k = Some fi -> mark_validity op k (validity fi) = Some v ->
  process_op infos ((k, l), op) = Returns (<[k := fi_set_validity fi v.1 v.2]> infos).
Proof.
  intros Hop Hk Hv. unfold process_op, mark_fork_valid, mark_fork_invalid. cbn.
  destruct op; try done; cbn in Hv.
  - injection Hv as <-. rewrite Hk. unfold update_with_newly_valid_ancestor. do 2 f_equal. cbn.
    destruct fi as [a b c d e [i|] f]; cbn; [destruct (i <=? slot)|]; by destruct (k.1 =? slot).
  - rewrite Hk. unfold update_with_newly_invalid_ancestor. destruct fi as [a b c d e i [|]]; cbn in *; [done|].
    injection Hv as <-. cbn. do 2 f_equal. by destruct i as [i|]; [destruct (i <? slot)|].
Qed.

(** ** The operations of a mark *)

Section MarkOps.
Context (op : UpdateOperation) (Hop : is_mark op).

Lemma mark_fold_lookup (l : list SlotHashKey) (ops : UpdateOperations) :
  NoDup l -> (forall k, k ∈ l -> ops !! (k, LAggregate) = None) ->
  forall kl, foldl (fun ops child => (do_insert_aggregate_operation ops (Some op) child).1) ops l !! kl
    = if decide (kl.1 ∈ l /\ kl.2 = LAggregate) then Some OAggregate
      else if decide (kl.1 ∈ l /\ kl.2 = mark_label op) then Some op
      else ops !! kl.
Proof.
  revert ops. induction l as [|x l IH]; intros ops Hn Hfresh kl; cbn.
  - rewrite !decide_False by set_solver. done.
  - apply NoDup_cons in Hn as [Hx Hn].
    assert (Hins : (do_insert_aggregate_operation ops (Some op) x).1
              = <[(x, LAggregate) := OAggregate]> (<[(x, mark_label op) := op]> ops)).
    { unfold do_insert_aggregate_operation. rewrite Hfresh by (by left). by destruct op. }
    assert (Hlab : mark_label op <> LAggregate) by (by destruct op).
    rewrite Hins, IH; [|done|].
    2: { intros k Hk. rewrite !lookup_insert_ne by set_solver. apply Hfresh. by right. }
    destruct kl as [k lab]; cbn.
    destruct (decide (k = x)) as [->|Hkx].
    + rewrite !(decide_False (P := x ∈ l /\ _)) by tauto.
      destruct (decide (lab = LAggregate)) as [->|].
      * rewrite decide_True by (split; [left|done]). by rewrite lookup_insert_eq.
      * rewrite decide_False by tauto. rewrite lookup_insert_ne by congruence.
        destruct (decide (lab = mark_label op)) as [->|].
        -- rewrite decide_True by (split; [left|done]). by rewrite lookup_insert_eq.
        -- rewrite decide_False by tauto. by rewrite lookup_insert_ne by congruence.
    + rewrite !lookup_insert_ne by congruence.
      assert (Hmem : k ∈ x :: l <-> k ∈ l) by set_solver.
      destruct (decide (k ∈ l /\ lab = LAggregate)) as [[? ?]|Hn1].
      * rewrite decide_True by tauto. done.
      * rewrite (decide_False (P := k ∈ x :: l /\ lab = LAggregate)) by tauto.
        destruct (decide (k ∈ l /\ lab = mark_label op)) as [[? ?]|Hn2].
        -- by rewrite decide_True by tauto.
        -- by rewrite decide_False by tauto.
Qed.
End MarkOps.

Lemma insert_across_lookup (l : list SlotHashKey) (ops : UpdateOperations) :
  NoDup l -> (forall k, k ∈ l -> ops !! (k, LAggregate) = None) ->
  forall kl, insert_across ops None l !! kl
    = if decide (kl.1 ∈ l /\ kl.2 = LAggregate) then Some OAggregate else ops !! kl.
Proof.
  revert ops. induction l as [|x l IH]; intros ops Hn Hfresh kl; cbn.
  - rewrite decide_False by set_solver. done.
  - apply NoDup_cons in Hn as [Hx Hn]. unfold do_insert_aggregate_operation.
    rewrite Hfresh by (by left). cbn. rewrite IH; [|done|].
    2: { intros k Hk. rewrite lookup_insert_ne by set_solver. apply Hfresh. by right. }
    destruct kl as [k lab]; cbn. destruct (decide (k ∈ l /\ lab = LAggregate)) as [[? ?]|Hn1].
    + by rewrite decide_True by set_solver.
    + destruct (decide ((x, LAggregate) = (k, lab))) as [E|E].
      * injection E as <- <-. rewrite lookup_insert_eq. by rewrite decide_True by set_solver.
      * rewrite lookup_insert_ne by done. rewrite decide_False; [done|]. intros [Hin ->].
        apply elem_of_cons in Hin as [->|]; tauto.
Qed.

(** ** Processing a mark *)

Section Marking.
Context (stake : Slot -> Pubkey -> Z) (fc : HeaviestSubtreeForkChoice) (Hok : fc_ok stake fc).
Context (key : SlotHashKey) (op : UpdateOperation) (Hop : is_mark op).
Context (subtree : gset SlotHashKey).
Abbreviation t := (links (fork_infos fc)).
Context (Hsub : forall k, k ∈ subtree <-> is_Some (fork_infos fc !! k) /\ reach t key k).
Context (Hkey : is_Some (fork_infos fc !! key)).

(** A strict ancestor of the marked block. *)
Definition above (k : SlotHashKey) : Prop := reach t k key /\ k <> key.

Abbreviation ops := (mark_operations fc key op subtree).

Lemma above_ancestors k : k ∈ ancestor_iterator fc key <-> above k.
Proof. apply (elem_of_ancestors _ _ (ok_tree _ _ Hok)). done. Qed.

Lemma above_not_below k : above k -> k ∉ subtree.
Proof.
  intros [Hr Hne] [_ Hb]%Hsub. by apply Hne, (reach_antisym _ _ (ok_tree _ _ Hok)).
Qed.

Lemma mark_ops_lookup kl o :
  ops !! kl = Some o <->
  (kl.2 = LAggregate /\ o = OAggregate /\ (kl.1 ∈ subtree \/ above kl.1))
  \/ (kl.2 = mark_label op /\ o = op /\ kl.1 ∈ subtree).
Proof.
  assert (Hlab : mark_label op <> LAggregate) by (by destruct op).
  unfold mark_operations, insert_aggregate_operations. rewrite insert_across_lookup.
  - rewrite mark_fold_lookup, lookup_empty; [|done|apply NoDup_elements|intros; apply lookup_empty].
    repeat destruct (decide _) as [?|?]; rewrite ?elem_of_elements, ?above_ancestors in *; intuition congruence.
  - apply (ancestor_iter_nodup _ _ (ok_tree _ _ Hok)).
  - intros k Hk%above_ancestors. rewrite mark_fold_lookup; [|done|apply NoDup_elements|intros; apply lookup_empty].
    apply above_not_below in Hk. cbn. rewrite !decide_False by (rewrite elem_of_elements; tauto).
    apply lookup_empty.
Qed.

Lemma elem_of_mark_ops e :
  e ∈ ops_rev ops <->
  (e.1.2 = LAggregate /\ e.2 = OAggregate /\ (e.1.1 ∈ subtree \/ above e.1.1))
  \/ (e.1.2 = mark_label op /\ e.2 = op /\ e.1.1 ∈ subtree).
Proof. rewrite elem_of_ops_rev. apply mark_ops_lookup. Qed.

Lemma above_parent k p : above k -> parent_of t k = Some p -> above p.
Proof.
  intros [Hr Hne] Hp. pose proof (ok_tree _ _ Hok) as Ht. destruct (parent_spec _ _ Ht _ _ Hp) as (Hs & _).
  split; [eapply reach_trans; [|done]; by eapply reach_up, reach_refl|].
  intros ->. apply (reach_slot _ _ Ht) in Hr. lia.
Qed.

Lemma below_parent k p : k ∈ subtree -> parent_of t k = Some p -> p ∈ subtree \/ above p.
Proof.
  intros [Hk Hr]%Hsub Hp. pose proof (ok_tree _ _ Hok) as Ht.
  inversion Hr as [|? p' Hp' Hr']; subst.
  - right. destruct (parent_spec _ _ Ht _ _ Hp) as (Hs & _).
    split; [by eapply reach_up, reach_refl|]. intros ->. lia.
  - left. rewrite Hp in Hp'. injection Hp' as <-. apply Hsub. split; [|done].
    apply links_is_Some. by eapply (parent_in _ _ Ht).
Qed.

Lemma mark_ops_closed : closed t (ops_rev ops).
Proof.
  constructor.
  - intros [[k l] o] [(Hl & Ho & _)|(Hl & Ho & _)]%elem_of_mark_ops; cbn in *; subst; [done|].
    by destruct op.
  - intros [[k l] o] p He Hp. apply elem_of_mark_ops. left. split; [done|]. split; [done|]. cbn in *.
    apply elem_of_mark_ops in He as [(_ & _ & [Hin|Hin])|(_ & _ & Hin)]; cbn in Hin.
    + by eapply below_parent.
    + right. by eapply above_parent.
    + by eapply below_parent.
  - intros [[k l] o] He. cbn. destruct l; try done; apply elem_of_mark_ops; left; cbn;
      (split; [done|]; split; [done|]); apply elem_of_mark_ops in He as [(? & _)|(_ & _ & Hin)]; try done;
      by left.
Qed.

(** The validity of every node before and after the mark. *)
Context (v0 v1 : SlotHashKey -> Validity).
Context (Hv0 : forall k fi, fork_infos fc !! k = Some fi -> validity fi = v0 k).
Context (Hmark : forall k, k ∈ subtree -> mark_validity op k (v0 k) = Some (v1 k)).
Context (Hframe : forall k, is_Some (fork_infos fc !! k) -> k ∉ subtree -> ~ above k -> v1 k = v0 k).
Context (Hagg : forall k fi, fork_infos fc !! k = Some fi -> k ∈ subtree \/ above k ->
  if existsb (fun c => (v1 c).2) (fi_children fi) then v1 k = (None, true)
  else above k -> v1 k = v0 k).

(** A node whose mark, or whose aggregation above the mark, is still to come. *)
Definition pending (todo : list ((SlotHashKey * UpdateLabel) * UpdateOperation)) (k : SlotHashKey) : Prop :=
  ((k, mark_label op), op) ∈ todo \/ (above k /\ ((k, LAggregate), OAggregate) ∈ todo).

Record mark_inv (todo : list ((SlotHashKey * UpdateLabel) * UpdateOperation))
    (infos : gmap SlotHashKey ForkInfo) : Prop := {
  mi_batch : batch_inv t todo infos;
  mi_below : best_below t infos;
  mi_at : forall k fi, infos !! k = Some fi -> exists f0, fork_infos fc !! k = Some f0
    /\ fi_stake_voted_at fi = fi_stake_voted_at f0;
  mi_pending : forall k fi, infos !! k = Some fi -> pending todo k -> validity fi = v0 k;
  mi_done : forall k fi, infos !! k = Some fi -> ~ pending todo k -> validity fi = v1 k;
}.

Lemma earlier_irrefl x : ~ earlier x x.
Proof. intros [H|(_ & _ & H)]; [by rewrite key_ltb_irrefl in H|done]. Qed.

(** No entry of a node that lies later in the order is left. *)
Lemma later_done (e x : (SlotHashKey * UpdateLabel) * UpdateOperation) todo :
  StronglySorted (fun a b => earlier a.1 b.1) (e :: todo) -> x ∈ e :: todo -> x = e \/ earlier e.1 x.1.
Proof.
  intros [_ Hall]%StronglySorted_inv. rewrite Forall_forall in Hall.
  intros [->|Hx]%elem_of_cons; auto.
Qed.

Lemma earlier_slot (k c : SlotHashKey) l l' : k.1 < c.1 -> ~ earlier (k, l) (c, l').
Proof.
  intros Hlt%key_ltb_slot [H|(H & _)]; cbn in H; [apply key_ltb_asym in H; congruence|].
  rewrite H, key_ltb_irrefl in Hlt. done.
Qed.

(** An update at the node of the first entry. *)
Lemma mark_inv_update e todo infos fi fi' :
  mark_inv (e :: todo) infos -> batch_inv t todo (<[e.1.1 := fi']> infos) ->
  StronglySorted (fun a b => earlier a.1 b.1) (e :: todo) ->
  infos !! e.1.1 = Some fi -> fi_stake_voted_at fi' = fi_stake_voted_at fi ->
  reach t e.1.1 (fi_best_slot fi') /\ is_Some (infos !! fi_best_slot fi') ->
  ~ pending todo e.1.1 -> validity fi' = v1 e.1.1 -> mark_inv todo (<[e.1.1 := fi']> infos).
Proof.
  intros [Hb Hbelow Hat Hpend Hdone] Hb' Hs Hk Hat' Hbest Hnp Hv.
  assert (Hiff : forall x, x <> e.1.1 -> pending (e :: todo) x <-> pending todo x).
  { intros x Hx. unfold pending. rewrite !elem_of_cons.
    split; [|tauto]. intros [[He|]|[? [He|]]]; try tauto; rewrite <- He in Hx; done. }
  constructor; [done| | | |].
  - by eapply best_below_update.
  - intros x fx [[<- <-]|[_ Hx]]%lookup_insert_Some; [|by apply Hat].
    destruct (Hat _ _ Hk) as (f0 & Hf0 & Hfa). exists f0. split; [done|congruence].
  - intros x fx [[<- <-]|[Hne Hx]]%lookup_insert_Some Hp; [done|]. apply Hpend; [done|].
    by apply Hiff.
  - intros x fx [[<- <-]|[Hne Hx]]%lookup_insert_Some Hp; [done|]. apply Hdone; [done|].
    by rewrite Hiff.
Qed.

Lemma mark_step_mark k todo infos :
  mark_inv (((k, mark_label op), op) :: todo) infos -> closed t (((k, mark_label op), op) :: todo) ->
  StronglySorted (fun a b => earlier a.1 b.1) (((k, mark_label op), op) :: todo) -> k ∈ subtree ->
  exists infos', process_op infos ((k, mark_label op), op) = Returns infos' /\ mark_inv todo infos'.
Proof.
  intros Hinv Hcl Hs Hk. pose proof Hinv as [Hb Hbelow _ Hpend _].
  assert (Hin : is_Some (infos !! k)).
  { apply links_is_Some. rewrite (bi_links _ _ _ Hb). apply links_is_Some. by apply Hsub in Hk as [? _]. }
  destruct Hin as [fi Hfi].
  assert (Hv : validity fi = v0 k) by (apply Hpend; [done|]; left; left).
  pose proof (Hmark k Hk) as Hm. rewrite <- Hv in Hm.
  pose proof (process_mark infos k (mark_label op) op fi (v1 k) Hop Hfi Hm) as Hp.
  eexists. split; [exact Hp|].
  apply (mark_inv_update ((k, mark_label op), op) todo infos fi); cbn; auto.
  - by eapply (process_op_inv t _ (ok_tree _ _ Hok)).
  - intros [Hin|[Ha _]]; [|by apply above_not_below in Ha].
    apply StronglySorted_inv in Hs as [_ Hall]. rewrite Forall_forall in Hall.
    by apply (earlier_irrefl (k, mark_label op)), (Hall _ Hin).
  - by destruct (v1 k).
Qed.

Lemma mark_children_done k todo infos fi c :
  mark_inv (((k, LAggregate), OAggregate) :: todo) infos ->
  StronglySorted (fun a b => earlier a.1 b.1) (((k, LAggregate), OAggregate) :: todo) ->
  infos !! k = Some fi -> c ∈ fi_children fi -> confirmed infos c = (v1 c).2.
Proof.
  intros [Hb _ _ _ Hdone] Hs Hfi Hc.
  pose proof (ok_tree _ _ Hok) as Ht. pose proof (bi_links _ _ _ Hb) as Hl.
  pose proof (links_Some _ _ _ Hfi) as Hlk. rewrite Hl in Hlk.
  pose proof (child_slot _ _ Ht _ _ _ _ Hlk Hc) as Hslot.
  destruct (infos_child t _ Ht _ _ _ _ Hl Hfi Hc) as ([ci Hci] & Hne & _).
  assert (Hno : forall l o, ((c, l), o) ∉ ((k, LAggregate), OAggregate) :: todo).
  { intros l o [E|E]%(later_done _ _ _ Hs); [congruence|]. by apply (earlier_slot k c LAggregate l). }
  unfold confirmed. rewrite Hci. assert (Hvc : validity ci = v1 c).
  { apply Hdone; [done|]. intros [H|[_ H]]; by apply Hno in H. }
  by rewrite <- Hvc.
Qed.

Lemma mark_node k todo infos :
  batch_inv t todo infos -> k ∈ subtree \/ above k ->
  exists f0 fi, fork_infos fc !! k = Some f0 /\ infos !! k = Some fi /\ fi_children fi = fi_children f0.
Proof.
  intros Hb Hk. pose proof (bi_links _ _ _ Hb) as Hl.
  assert (Hin0 : is_Some (fork_infos fc !! k)).
  { destruct Hk as [[? _]%Hsub|[Hr _]]; [done|]. apply links_is_Some.
    apply (reach_in _ _ (ok_tree _ _ Hok) _ _ Hr). by apply links_is_Some. }
  destruct Hin0 as [f0 Hf0].
  assert (Hin : is_Some (infos !! k)).
  { apply links_is_Some. rewrite Hl. apply links_is_Some. by rewrite Hf0. }
  destruct Hin as [fi Hfi]. exists f0, fi. split; [done|]. split; [done|].
  pose proof (links_Some _ _ _ Hfi) as H1. rewrite Hl, (links_Some _ _ _ Hf0) in H1. congruence.
Qed.

Lemma mark_step_aggregate k todo infos :
  mark_inv (((k, LAggregate), OAggregate) :: todo) infos -> closed t (((k, LAggregate), OAggregate) :: todo) ->
  StronglySorted (fun a b => earlier a.1 b.1) (((k, LAggregate), OAggregate) :: todo) ->
  k ∈ subtree \/ above k ->
  exists infos', process_op infos ((k, LAggregate), OAggregate) = Returns infos' /\ mark_inv todo infos'.
Proof.
  intros Hinv Hcl Hs Hk. pose proof Hinv as [Hb Hbelow Hat Hpend Hdone].
  pose proof (ok_tree _ _ Hok) as Ht. pose proof (bi_links _ _ _ Hb) as Hl.
  destruct (mark_node k _ _ Hb Hk) as (f0 & fi & Hf0 & Hfi & Hch).
  assert (Hmk : ((k, mark_label op), op) ∉ ((k, LAggregate), OAggregate) :: todo).
  { intros [E|[E|(_ & E & _)]]%(later_done _ _ _ Hs).
    - by destruct op.
    - cbn in E. by rewrite key_ltb_irrefl in E.
    - by destruct op. }
  destruct (aggregate_slot_spec t _ Ht infos k fi Hl Hfi (bi_at _ _ _ Hb _ _ Hfi)) as (fi' & Hag & Hsp).
  exists (<[k := fi']> infos). split; [done|].
  apply (mark_inv_update ((k, LAggregate), OAggregate) todo infos fi); auto.
  - by eapply (process_op_inv t _ Ht).
  - apply (as_at _ _ _ _ Hsp).
  - by eapply (best_rule_below t _ Ht), (as_best _ _ _ _ Hsp).
  - cbn. intros [Hm|[_ Hm]]; [apply Hmk; by right|].
    apply StronglySorted_inv in Hs as [_ Hall]. rewrite Forall_forall in Hall.
    by apply (earlier_irrefl (k, LAggregate)), (Hall _ Hm).
  - cbn. pose proof (Hagg k f0 Hf0 Hk) as Ha. pose proof (as_validity _ _ _ _ Hsp) as Hv.
    assert (Hex : existsb (confirmed infos) (fi_children fi) = existsb (fun c => (v1 c).2) (fi_children f0)).
    { rewrite Hch. apply existsb_ext. intros c Hc. rewrite <- Hch in Hc.
      by eapply mark_children_done. }
    rewrite Hex in Hv. destruct (existsb _ _); [rewrite Ha; unfold validity; by destruct Hv as [-> ->]|].
    assert (Hsame : validity fi' = validity fi) by (unfold validity; by destruct Hv as [-> ->]).
    rewrite Hsame. destruct Hk as [Hk|Hk].
    + apply Hdone; [done|]. intros [H|[H _]]; [by apply Hmk|by apply above_not_below in H].
    + rewrite (Ha Hk). apply Hpend; [done|]. right. split; [done|left].
Qed.

Lemma mark_ops_ok todo infos :
  mark_inv todo infos -> closed t todo -> StronglySorted (fun a b => earlier a.1 b.1) todo ->
  (forall e, e ∈ todo -> e ∈ ops_rev ops) ->
  exists infos', process_ops infos todo = Returns infos' /\ mark_inv [] infos'.
Proof.
  revert infos. induction todo as [|e todo IH]; intros infos Hinv Hcl Hs Hin; cbn; [eauto|].
  assert (Hstep : exists infos1, process_op infos e = Returns infos1 /\ mark_inv todo infos1).
  { destruct e as [[k l] o].
    pose proof (Hin _ (list_elem_of_here _ _)) as [(Hl & Ho & Hk)|(Hl & Ho & Hk)]%elem_of_mark_ops;
      cbn in Hl, Ho, Hk; subst; [by apply mark_step_aggregate|by apply mark_step_mark]. }
  destruct Hstep as (infos1 & -> & Hinv1). cbn. apply IH; [done| | |].
  - by eapply (closed_tail t _ (ok_tree _ _ Hok)).
  - by apply StronglySorted_inv in Hs as [? _].
  - intros x Hx. apply Hin. by right.
Qed.

(** A mark returns; it leaves the validity [v1] at every node and changes neither
    the links nor the stakes. *)
Lemma mark_process_ok :
  exists fc', process_update_operations fc ops = Returns fc'
    /\ fc_root fc' = fc_root fc /\ latest_votes fc' = latest_votes fc
    /\ mark_inv [] (fork_infos fc').
Proof.
  unfold process_update_operations.
  destruct (mark_ops_ok (ops_rev ops) (fork_infos fc)) as (infos' & -> & Hinv).
  - constructor.
    + by eapply ok_batch.
    + by eapply ok_best_below.
    + intros k fi Hk. eauto.
    + intros k fi Hk _. by apply Hv0.
    + intros k fi Hk Hp. rewrite (Hv0 _ _ Hk). symmetry. apply Hframe; [by rewrite Hk| |].
      * intros Hks. apply Hp. left. apply elem_of_mark_ops. right. done.
      * intros Ha. apply Hp. right. split; [done|]. apply elem_of_mark_ops. left. auto.
  - apply mark_ops_closed.
  - apply ops_rev_sorted.
  - done.
  - eexists. split; [done|]. done.
Qed.

(** The invariant after a mark, once its validities are consistent. *)
Lemma mark_fc_ok fc' :
  fc_root fc' = fc_root fc -> latest_votes fc' = latest_votes fc -> mark_inv [] (fork_infos fc') ->
  (forall v, (forall k, v !! k = (fun _ => v1 k) <$> fork_infos fc !! k) -> validity_ok t v) ->
  fc_ok stake fc'.
Proof.
  intros Hroot Hlv [Hb Hbelow Hat _ Hdone] Hvalid. pose proof (bi_links _ _ _ Hb) as Hl.
  constructor; rewrite ?Hl, ?Hroot, ?Hlv.
  - apply (ok_tree _ _ Hok).
  - intros k fi Hk. apply (bi_node _ _ _ Hb); [done|]. by intros ?%not_elem_of_nil.
  - intros k fi Hk. destruct (Hat k fi Hk) as (f0 & Hf0 & ->). by apply (ok_votes _ _ Hok).
  - done.
  - apply Hvalid. intros k. rewrite validities_lookup.
    destruct (fork_infos fc' !! k) as [fi|] eqn:Hk.
    + destruct (Hat k fi Hk) as (f0 & -> & _). cbn. f_equal. apply Hdone; [done|].
      intros [H|[_ H]]; by apply not_elem_of_nil in H.
    + destruct (fork_infos fc !! k) as [f0|] eqn:Hf0; [|done]. exfalso.
      assert (Hin : is_Some (fork_infos fc' !! k)).
      { apply links_is_Some. rewrite Hl. apply links_is_Some. by rewrite Hf0. }
      rewrite Hk in Hin. by destruct Hin.
Qed.
End Marking.

(** ** Confirmed blocks *)

Section Confirmed.
Context (stake : Slot -> Pubkey -> Z) (fc : HeaviestSubtreeForkChoice) (Hok : fc_ok stake fc).
Abbreviation t := (links (fork_infos fc)).

(** The validity of a node, as it is. *)
Definition validity_of (k : SlotHashKey) : Validity :=
  default (None, false) (validities (fork_infos fc) !! k).

Lemma validity_of_Some k fi : fork_infos fc !! k = Some fi -> validity fi = validity_of k.
Proof. intros Hk. unfold validity_of. by rewrite (validities_Some _ _ _ Hk). Qed.

Lemma validity_of_lookup k :
  is_Some (fork_infos fc !! k) -> validities (fork_infos fc) !! k = Some (validity_of k).
Proof. intros [fi Hk]. unfold validity_of. by rewrite (validities_Some _ _ _ Hk). Qed.

Lemma parent_infos k p :
  parent_of t k = Some p -> is_Some (fork_infos fc !! k) /\ is_Some (fork_infos fc !! p).
Proof.
  intros Hp. split; apply links_is_Some; [|by eapply (parent_in _ _ (ok_tree _ _ Hok))].
  unfold parent_of in Hp. by destruct (t !! k).
Qed.

(** The consistency of marks, on [validity_of]. *)
Lemma valid_confirmed k : is_Some (fork_infos fc !! k) -> (validity_of k).2 = true -> (validity_of k).1 = None.
Proof.
  intros Hk%validity_of_lookup Hc. destruct (validity_of k) as [l c]; cbn in *; subst.
  by apply (vo_confirmed _ _ (ok_valid _ _ Hok) k l).
Qed.

Lemma valid_slot k s : is_Some (fork_infos fc !! k) -> (validity_of k).1 = Some s -> s <= k.1.
Proof.
  intros Hk%validity_of_lookup Hs. destruct (validity_of k) as [l c]; cbn in *; subst.
  by apply (vo_slot _ _ (ok_valid _ _ Hok) k s c).
Qed.

Lemma valid_invalid k p s :
  parent_of t k = Some p -> (validity_of p).1 = Some s -> exists s', (validity_of k).1 = Some s' /\ s <= s'.
Proof.
  intros Hp Hs. destruct (parent_infos k p Hp) as [Hk%validity_of_lookup Hpp%validity_of_lookup].
  destruct (validity_of p) as [l c]; cbn in *; subst.
  destruct (vo_invalid _ _ (ok_valid _ _ Hok) k p s c Hp Hpp) as (s' & b' & Hk' & Hle).
  rewrite Hk in Hk'. injection Hk' as ->. eauto.
Qed.

Lemma valid_up k p : parent_of t k = Some p -> (validity_of k).2 = true -> (validity_of p).2 = true.
Proof.
  intros Hp Hc. destruct (parent_infos k p Hp) as [Hk%validity_of_lookup Hpp%validity_of_lookup].
  destruct (validity_of p) as [l c], (validity_of k) as [l' c']; cbn in *; subst.
  by eapply (vo_up _ _ (ok_valid _ _ Hok)).
Qed.

(** A confirmed block confirms all its ancestors. *)
Lemma confirmed_up a k : reach t a k -> (validity_of k).2 = true -> (validity_of a).2 = true.
Proof. induction 1 as [|k p Hp _ IH]; [done|]. intros Hc. by apply IH, (valid_up k). Qed.

Lemma child_of k fi c : fork_infos fc !! k = Some fi -> c ∈ fi_children fi -> parent_of t c = Some k.
Proof. intros Hk Hc. eapply (child_parent _ _ (ok_tree _ _ Hok)); [by apply links_Some|done]. Qed.

(** Marks given by a function, one condition at a time. *)
Lemma validity_ok_fun (w : SlotHashKey -> Validity) v :
  (forall k, v !! k = (fun _ => w k) <$> fork_infos fc !! k) ->
  (forall k, is_Some (fork_infos fc !! k) -> (w k).2 = true -> (w k).1 = None) ->
  (forall k s, is_Some (fork_infos fc !! k) -> (w k).1 = Some s -> s <= k.1) ->
  (forall k p s, parent_of t k = Some p -> (w p).1 = Some s -> exists s', (w k).1 = Some s' /\ s <= s') ->
  (forall k p, parent_of t k = Some p -> (w k).2 = true -> (w p).2 = true) ->
  validity_ok t v.
Proof.
  intros Hv W1 W2 W3 W4.
  assert (Hl : forall k x, v !! k = Some x -> is_Some (fork_infos fc !! k) /\ x = w k).
  { intros k x. rewrite Hv. destruct (fork_infos fc !! k); cbn; [intros [= <-]; eauto|done]. }
  constructor.
  - intros k l [Hk Hx]%Hl. specialize (W1 k Hk). rewrite <- Hx in W1. by apply W1.
  - intros k s b [Hk Hx]%Hl. apply (W2 k s Hk). by rewrite <- Hx.
  - intros k p s b Hp [_ Hx]%Hl. destruct (parent_infos k p Hp) as [[fi Hk] _].
    destruct (W3 k p s Hp) as (s' & Hs' & Hle); [by rewrite <- Hx|].
    exists s', (w k).2. rewrite Hv, Hk, <- Hs'. cbn. by destruct (w k).
  - intros k p l l' b Hp [_ Hx]%Hl [_ Hx']%Hl. specialize (W4 k p Hp).
    rewrite <- Hx, <- Hx' in W4. by apply W4.
Qed.

(** The walk of a mark visits the subtree, except from the default key. *)
Lemma mark_subtree key :
  is_Some (fork_infos fc !! key) ->
  exists s, subtree_diff fc key slot_hash_default = Returns s
    /\ if decide (key = slot_hash_default) then s = ∅
       else forall k, k ∈ s <-> is_Some (fork_infos fc !! k) /\ reach t key k.
Proof.
  intros Hkey. pose proof (ok_tree _ _ Hok) as Ht.
  destruct (subtree_diff_spec fc Ht key slot_hash_default) as (s & -> & Hs). exists s. split; [done|].
  destruct (decide (key = slot_hash_default)) as [->|Hne].
  - apply leibniz_equiv. intros k. rewrite Hs. split; [|set_solver]. intros [_ Hw].
    by apply walked_stop in Hw.
  - intros k. rewrite Hs. unfold walked. split; [tauto|]. intros [Hk Hr]. split; [done|]. split; [done|].
    intros [Hd _]. apply Hne. apply (reach_slot_eq _ _ Ht); [done|].
    pose proof (reach_slot _ _ Ht _ _ Hd) as Hle. cbn in *.
    assert (0 <= key.1) by (apply (to_slot _ _ Ht); by apply links_is_Some). lia.
Qed.

(** Marking the default key, a root at slot zero, does nothing. *)
Lemma mark_default op :
  is_Some (fork_infos fc !! slot_hash_default) ->
  process_update_operations fc (mark_operations fc slot_hash_default op ∅) = Returns fc.
Proof.
  intros Hin. pose proof (ok_tree _ _ Hok) as Ht. unfold mark_operations, insert_aggregate_operations.
  rewrite (ancestors_unfold _ _ Ht fc _ eq_refl).
  destruct (parent_of t slot_hash_default) as [p|] eqn:Hp.
  - exfalso. destruct (parent_spec _ _ Ht _ _ Hp) as (Hlt & _).
    pose proof (to_slot _ _ Ht p (parent_in _ _ Ht _ _ Hp)). cbn in Hlt. lia.
  - rewrite elements_empty. cbn. unfold process_update_operations, ops_rev.
    rewrite map_to_list_empty. cbn. by destruct fc.
Qed.
End Confirmed.

(** ** Marking a fork invalid *)

Section MarkInvalid.
Context (stake : Slot -> Pubkey -> Z) (fc : HeaviestSubtreeForkChoice) (Hok : fc_ok stake fc).
Context (key : SlotHashKey) (Hkey : is_Some (fork_infos fc !! key)).
Abbreviation t := (links (fork_infos fc)).
Context (subtree : gset SlotHashKey).
Context (Hsub : forall k, k ∈ subtree <-> is_Some (fork_infos fc !! k) /\ reach t key k).
Context (Hunconf : (validity_of fc key).2 = false).

(** The validity after the mark: everything below the block has an invalid
    ancestor that is not earlier than the block. *)
Definition invalidated (k : SlotHashKey) : Validity :=
  if decide (k ∈ subtree)
  then (Some (Z.max key.1 (default key.1 (validity_of fc k).1)), false)
  else validity_of fc k.

Lemma below_unconfirmed k : k ∈ subtree -> (validity_of fc k).2 = false.
Proof.
  intros [_ Hr]%Hsub. destruct ((validity_of fc k).2) eqn:E; [|done].
  by rewrite (confirmed_up stake fc Hok key k Hr E) in Hunconf.
Qed.

Lemma invalidated_mark k :
  k ∈ subtree -> mark_validity (OMarkInvalid key.1) k (validity_of fc k) = Some (invalidated k).
Proof.
  intros Hk. unfold invalidated. rewrite decide_True by done. cbn. rewrite (below_unconfirmed k Hk).
  destruct (validity_of fc k) as [[l|] c]; cbn; [|by rewrite Z.max_id].
  destruct (Z.ltb_spec l key.1); do 3 f_equal; lia.
Qed.

Lemma below_child k fi c :
  fork_infos fc !! k = Some fi -> k ∈ subtree -> c ∈ fi_children fi -> c ∈ subtree.
Proof.
  intros Hk [_ Hr]%Hsub Hc. pose proof (child_of stake fc Hok k fi c Hk Hc) as Hp. apply Hsub.
  split; [by destruct (parent_infos stake fc Hok c k Hp)|by eapply reach_up].
Qed.

Lemma invalidated_aggregate k fi :
  fork_infos fc !! k = Some fi -> k ∈ subtree \/ above fc key k ->
  if existsb (fun c => (invalidated c).2) (fi_children fi) then invalidated k = (None, true)
  else above fc key k -> invalidated k = validity_of fc k.
Proof.
  intros Hk Hcase. destruct (existsb _ _) eqn:E.
  - apply existsb_exists in E as (c & Hc%list_elem_of_In & Hconf).
    pose proof (child_of stake fc Hok k fi c Hk Hc) as Hp. unfold invalidated in Hconf.
    destruct (decide (c ∈ subtree)) as [|Hcn]; [done|].
    assert (Hkn : k ∉ subtree) by (intros Hks; by apply Hcn, (below_child k fi)).
    unfold invalidated. rewrite decide_False by done.
    pose proof (valid_up stake fc Hok c k Hp Hconf) as Hkc.
    pose proof (valid_confirmed stake fc Hok k ltac:(eauto) Hkc). destruct (validity_of fc k); cbn in *; congruence.
  - intros Ha. unfold invalidated. rewrite decide_False; [done|].
    by apply (above_not_below stake fc Hok key subtree Hsub).
Qed.

Lemma below_subtree k p : parent_of t k = Some p -> p ∈ subtree -> k ∈ subtree.
Proof.
  intros Hp [_ Hr]%Hsub. apply Hsub. destruct (parent_infos stake fc Hok k p Hp) as [Hk _].
  split; [done|by eapply reach_up].
Qed.

Lemma invalidated_ok v :
  (forall k, v !! k = (fun _ => invalidated k) <$> fork_infos fc !! k) -> validity_ok t v.
Proof.
  intros Hv. apply (validity_ok_fun stake fc Hok invalidated v Hv); unfold invalidated.
  - intros k Hk. destruct (decide (k ∈ subtree)); [done|]. by apply (valid_confirmed stake fc Hok).
  - intros k s Hk. pose proof (valid_slot stake fc Hok k) as Hsl.
    destruct (decide (k ∈ subtree)) as [[_ Hr]%Hsub|]; [|by apply Hsl].
    intros [= <-]. apply (reach_slot _ _ (ok_tree _ _ Hok)) in Hr.
    destruct ((validity_of fc k).1) as [l|]; cbn; [specialize (Hsl l Hk eq_refl)|]; lia.
  - intros k p s Hp. pose proof (valid_invalid stake fc Hok k p) as Hinv.
    destruct (decide (p ∈ subtree)) as [Hps|Hps].
    + rewrite decide_True by (by apply (below_subtree k p)). intros [= <-]. eexists. split; [done|].
      destruct ((validity_of fc p).1) as [l|]; cbn; [|lia].
      destruct (Hinv l Hp eq_refl) as (s' & -> & Hle). cbn. lia.
    + intros Hs. destruct (Hinv s Hp Hs) as (s' & Hs' & Hle).
      destruct (decide (k ∈ subtree)); [|eauto]. eexists. split; [done|]. rewrite Hs'. cbn. lia.
  - intros k p Hp. destruct (decide (k ∈ subtree)) as [|Hk]; [done|].
    rewrite (decide_False (P := p ∈ subtree)); [by apply (valid_up stake fc Hok)|].
    intros Hps. by apply Hk, (below_subtree k p).
Qed.
End MarkInvalid.

(** [mark_fork_invalid_candidate] returns on an unconfirmed block; every block below
    it stops being a candidate, the others keep their marks. *)
Lemma mark_invalid_ok stake fc key fi :
  fc_ok stake fc -> fork_infos fc !! key = Some fi -> fi_is_duplicate_confirmed fi = false ->
  key <> slot_hash_default ->
  exists fc', mark_fork_invalid_candidate fc key = Returns fc' /\ fc_ok stake fc'
    /\ fc_root fc' = fc_root fc /\ latest_votes fc' = latest_votes fc
    /\ links (fork_infos fc') = links (fork_infos fc)
    /\ (forall k, is_Some (fork_infos fc !! k) -> reach (links (fork_infos fc)) key k ->
          is_candidate fc' k = Some false)
    /\ (forall k, is_Some (fork_infos fc !! k) -> ~ reach (links (fork_infos fc)) key k ->
          validities (fork_infos fc') !! k = validities (fork_infos fc) !! k).
Proof.
  intros Hok Hkey Hconf Hne. assert (Hin : is_Some (fork_infos fc !! key)) by eauto.
  destruct (mark_subtree stake fc Hok key Hin) as (s & Hdiff & Hs). rewrite decide_False in Hs by done.
  assert (Hunc : (validity_of fc key).2 = false) by (by rewrite <- (validity_of_Some fc key fi Hkey)).
  unfold mark_fork_invalid_candidate. rewrite Hkey, Hconf. cbn. rewrite Hdiff. cbn.
  destruct (mark_process_ok stake fc Hok key (OMarkInvalid key.1) I s Hs Hin (validity_of fc)
              (invalidated fc key s)) as (fc' & -> & Hroot & Hlv & Hinv).
  - apply validity_of_Some.
  - by apply (invalidated_mark stake fc Hok).
  - intros k _ Hk _. unfold invalidated. by rewrite decide_False.
  - by apply (invalidated_aggregate stake fc Hok).
  - assert (Hdone : forall k f, fork_infos fc' !! k = Some f -> validity f = invalidated fc key s k).
    { intros k f Hf. apply (mi_done _ _ _ _ _ _ _ Hinv _ _ Hf).
      intros [H|[_ H]]; by apply not_elem_of_nil in H. }
    pose proof (bi_links _ _ _ (mi_batch _ _ _ _ _ _ _ Hinv)) as Hl.
    assert (Hex : forall k, is_Some (fork_infos fc !! k) -> is_Some (fork_infos fc' !! k)).
    { intros k Hk. apply links_is_Some. rewrite Hl. by apply links_is_Some. }
    exists fc'. split; [done|]. split.
    + eapply (mark_fc_ok stake fc Hok key (OMarkInvalid key.1)); eauto. by apply (invalidated_ok stake fc Hok).
    + split; [done|]. split; [done|]. split; [done|]. split.
      * intros k Hk Hr. destruct (Hex k Hk) as [f Hf]. unfold is_candidate. rewrite Hf. cbn.
        pose proof (Hdone k f Hf) as Hv. unfold invalidated in Hv. rewrite decide_True in Hv by (by apply Hs).
        injection Hv as Hv _. unfold fi_is_candidate. by rewrite Hv.
      * intros k Hk Hr. destruct (Hex k Hk) as [f Hf]. rewrite (validities_Some _ _ _ Hf), (Hdone k f Hf).
        unfold invalidated. rewrite decide_False by (rewrite Hs; tauto). by rewrite validity_of_lookup.
Qed.

(** ** Marking a fork valid *)

Section MarkValid.
Context (stake : Slot -> Pubkey -> Z) (fc : HeaviestSubtreeForkChoice) (Hok : fc_ok stake fc).
Context (key : SlotHashKey) (Hkey : is_Some (fork_infos fc !! key)).
Abbreviation t := (links (fork_infos fc)).
Context (subtree : gset SlotHashKey).
Context (Hsub : forall k, k ∈ subtree <-> is_Some (fork_infos fc !! k) /\ reach t key k).

(** The validity after the mark: the block and its ancestors are confirmed, and
    below it only later invalid ancestors remain. *)
Definition validated (k : SlotHashKey) : Validity :=
  if decide (k ∈ subtree)
  then (match (validity_of fc k).1 with
        | Some l => if l <=? key.1 then None else Some l | None => None end,
        if k.1 =? key.1 then true else (validity_of fc k).2)
  else if decide (k ∈ ancestor_iterator fc key) then (None, true)
  else validity_of fc k.

Abbreviation above := (above fc key).

Lemma validated_below k : k ∈ subtree ->
  validated k = (match (validity_of fc k).1 with
                 | Some l => if l <=? key.1 then None else Some l | None => None end,
                 if k.1 =? key.1 then true else (validity_of fc k).2).
Proof. intros Hk. unfold validated. by rewrite decide_True. Qed.

Lemma validated_above k : above k -> validated k = (None, true).
Proof.
  intros Ha. unfold validated. rewrite decide_False by (by apply (above_not_below stake fc Hok key subtree Hsub)).
  rewrite decide_True; [done|]. by apply (above_ancestors stake fc Hok key).
Qed.

Lemma validated_other k : k ∉ subtree -> ~ above k -> validated k = validity_of fc k.
Proof.
  intros Hn Ha. unfold validated. rewrite decide_False by done. rewrite decide_False; [done|].
  by rewrite (above_ancestors stake fc Hok key).
Qed.

(** Where a node lies with respect to the block. *)
Lemma place k : k ∈ subtree \/ above k \/ ((k ∉ subtree) /\ ~ above k).
Proof.
  destruct (decide (k ∈ subtree)); [tauto|].
  destruct (decide (k ∈ ancestor_iterator fc key)) as [H|H]; rewrite (above_ancestors stake fc Hok key) in H; tauto.
Qed.

Lemma validated_confirmed_below k :
  k ∈ subtree -> (validity_of fc k).2 = true -> validated k = (None, true).
Proof.
  intros Hk Hc. rewrite (validated_below k Hk). pose proof Hk as [Hin _]%Hsub.
  rewrite (valid_confirmed stake fc Hok k Hin Hc), Hc. by destruct (_ =? _).
Qed.

Lemma validated_aggregate k fi :
  fork_infos fc !! k = Some fi -> k ∈ subtree \/ above k ->
  if existsb (fun c => (validated c).2) (fi_children fi) then validated k = (None, true)
  else above k -> validated k = validity_of fc k.
Proof.
  intros Hk Hcase. pose proof (ok_tree _ _ Hok) as Ht. destruct (existsb _ _) eqn:E.
  - destruct Hcase as [Hks|Ha]; [|by apply validated_above].
    apply existsb_exists in E as (c & Hc%list_elem_of_In & Hconf).
    pose proof (below_child stake fc Hok key subtree Hsub k fi c Hk Hks Hc) as Hcs.
    pose proof (child_of stake fc Hok k fi c Hk Hc) as Hp.
    apply validated_confirmed_below; [done|]. apply (valid_up stake fc Hok c k Hp).
    rewrite (validated_below c Hcs) in Hconf. cbn in Hconf.
    destruct (Z.eqb_spec c.1 key.1); [|done]. exfalso.
    destruct (parent_spec _ _ Ht _ _ Hp) as (Hs & _). apply Hsub in Hks as [_ Hr%(reach_slot _ _ Ht)]. lia.
  - intros [Hr Hne]. exfalso. apply not_true_iff_false in E. apply E. apply existsb_exists.
    destruct (reach_below _ _ Ht _ _ Hr Hne) as (q & cs & c & Hl & Hc & Hrc).
    rewrite (links_Some _ _ _ Hk) in Hl. injection Hl as _ <-. exists c. split; [by apply list_elem_of_In|].
    destruct (decide (c = key)) as [->|Hck]; [|by rewrite validated_above].
    rewrite validated_below by (apply Hsub; split; [done|apply reach_refl]). cbn. by rewrite Z.eqb_refl.
Qed.

Lemma validated_conf k :
  is_Some (fork_infos fc !! k) -> (validated k).2 = true -> (validated k).1 = None.
Proof.
  intros Hk. pose proof (valid_confirmed stake fc Hok k Hk) as Hc.
  destruct (place k) as [Hks|[Ha|[Hn Ha]]].
  - rewrite (validated_below k Hks). cbn. destruct ((validity_of fc k).1) as [l|] eqn:El; [|done].
    pose proof (valid_slot stake fc Hok k l Hk El).
    destruct (Z.eqb_spec k.1 key.1); [by rewrite (proj2 (Z.leb_le _ _)) by lia|]. by intros ?%Hc.
  - by rewrite (validated_above k Ha).
  - by rewrite (validated_other k Hn Ha).
Qed.

Lemma validated_slot k s : is_Some (fork_infos fc !! k) -> (validated k).1 = Some s -> s <= k.1.
Proof.
  intros Hk. pose proof (valid_slot stake fc Hok k) as Hsl. destruct (place k) as [Hks|[Ha|[Hn Ha]]].
  - rewrite (validated_below k Hks). cbn. destruct ((validity_of fc k).1) as [l|]; [|done].
    destruct (l <=? key.1); [done|]. intros [= <-]. by apply Hsl.
  - by rewrite (validated_above k Ha).
  - rewrite (validated_other k Hn Ha). by apply Hsl.
Qed.

(** The parent of a node elsewhere is elsewhere. *)
Lemma place_parent k p : parent_of t k = Some p -> p ∉ subtree -> ~ above p -> (k ∉ subtree) /\ ~ above k.
Proof.
  intros Hp Hn Ha. split.
  - intros Hks. destruct (below_parent stake fc Hok key subtree Hsub k p Hks Hp); tauto.
  - intros Hka. by apply Ha, (above_parent stake fc Hok key k p).
Qed.

Lemma validated_invalid k p s :
  parent_of t k = Some p -> (validated p).1 = Some s -> exists s', (validated k).1 = Some s' /\ s <= s'.
Proof.
  intros Hp. pose proof (valid_invalid stake fc Hok k p) as Hinv. destruct (place p) as [Hps|[Ha|[Hn Ha]]].
  - rewrite (validated_below p Hps). cbn. destruct ((validity_of fc p).1) as [l|]; [|done].
    destruct (Z.leb_spec l key.1); [done|]. intros [= ->].
    destruct (Hinv s Hp eq_refl) as (s' & Hs' & Hle). exists s'.
    rewrite validated_below, Hs' by (by apply (below_subtree stake fc Hok key subtree Hsub k p)). cbn.
    by rewrite (proj2 (Z.leb_gt _ _)) by lia.
  - by rewrite (validated_above p Ha).
  - rewrite (validated_other p Hn Ha). intros Hs. destruct (place_parent k p Hp Hn Ha).
    rewrite validated_other by done. by apply Hinv.
Qed.

Lemma validated_up k p : parent_of t k = Some p -> (validated k).2 = true -> (validated p).2 = true.
Proof.
  intros Hp. pose proof (ok_tree _ _ Hok) as Ht. destruct (place p) as [Hps|[Ha|[Hn Ha]]].
  - rewrite (validated_below k) by (by apply (below_subtree stake fc Hok key subtree Hsub k p)). cbn.
    intros Hconf. rewrite (validated_confirmed_below p Hps); [done|].
    apply (valid_up stake fc Hok k p Hp). destruct (Z.eqb_spec k.1 key.1); [|done].
    destruct (parent_spec _ _ Ht _ _ Hp) as (Hslt & _). apply Hsub in Hps as [_ Hr%(reach_slot _ _ Ht)]. lia.
  - by rewrite (validated_above p Ha).
  - destruct (place_parent k p Hp Hn Ha). rewrite !validated_other by done. by apply (valid_up stake fc Hok).
Qed.

Lemma validated_ok v :
  (forall k, v !! k = (fun _ => validated k) <$> fork_infos fc !! k) -> validity_ok t v.
Proof.
  intros Hv. apply (validity_ok_fun stake fc Hok validated v Hv);
    [apply validated_conf|apply validated_slot|apply validated_invalid|apply validated_up].
Qed.
End MarkValid.

Lemma newly_confirmed_spec fc keys :
  (forall k, k ∈ keys -> is_Some (fork_infos fc !! k)) ->
  newly_confirmed fc keys = Returns (filter (fun k => confirmed (fork_infos fc) k = false) keys).
Proof.
  induction keys as [|k keys IH]; intros Hin; cbn [newly_confirmed]; [done|].
  destruct (Hin k) as [fi Hk]; [by left|]. unfold is_duplicate_confirmed. rewrite Hk.
  cbn [fmap option_fmap option_map unwrap mbind outcome_bind].
  rewrite IH by (intros j Hj; apply Hin; by right). cbn [mbind outcome_bind]. rewrite filter_cons.
  assert (Hc : confirmed (fork_infos fc) k = fi_is_duplicate_confirmed fi) by (unfold confirmed; by rewrite Hk).
  destruct (fi_is_duplicate_confirmed fi); [rewrite decide_False|rewrite decide_True]; congruence.
Qed.

(** [mark_fork_valid_candidate] returns on a block of the tree, with the block and
    its ancestors that were not confirmed before; all of them are then confirmed
    candidates. *)
Lemma mark_valid_ok stake fc key :
  fc_ok stake fc -> is_Some (fork_infos fc !! key) -> key <> slot_hash_default ->
  exists fc', mark_fork_valid_candidate fc key
      = Returns (fc', filter (fun k => confirmed (fork_infos fc) k = false)
                        (key :: ancestor_iterator fc key))
    /\ fc_ok stake fc'
    /\ fc_root fc' = fc_root fc /\ latest_votes fc' = latest_votes fc
    /\ links (fork_infos fc') = links (fork_infos fc)
    /\ (forall k, reach (links (fork_infos fc)) k key ->
          is_duplicate_confirmed fc' k = Some true /\ is_candidate fc' k = Some true)
    /\ (forall k, is_Some (fork_infos fc !! k) ->
          ~ reach (links (fork_infos fc)) key k -> ~ reach (links (fork_infos fc)) k key ->
          validities (fork_infos fc') !! k = validities (fork_infos fc) !! k).
Proof.
  intros Hok Hin Hne. pose proof (ok_tree _ _ Hok) as Ht.
  destruct (mark_subtree stake fc Hok key Hin) as (s & Hdiff & Hs). rewrite decide_False in Hs by done.
  unfold mark_fork_valid_candidate. rewrite newly_confirmed_spec.
  2: { intros k [->|Hk]%elem_of_cons; [done|]. apply (ancestor_iter_slots _ _ Ht) in Hk. tauto. }
  cbn [mbind outcome_bind]. rewrite Hdiff. cbn [mbind outcome_bind].
  destruct (mark_process_ok stake fc Hok key (OMarkValid key.1) I s Hs Hin (validity_of fc)
              (validated fc key s)) as (fc' & -> & Hroot & Hlv & Hinv).
  - apply validity_of_Some.
  - intros k Hk. by rewrite validated_below.
  - intros k _. by apply (validated_other stake fc Hok).
  - by apply (validated_aggregate stake fc Hok).
  - assert (Hdone : forall k f, fork_infos fc' !! k = Some f -> validity f = validated fc key s k).
    { intros k f Hf. apply (mi_done _ _ _ _ _ _ _ Hinv _ _ Hf).
      intros [H|[_ H]]; by apply not_elem_of_nil in H. }
    pose proof (bi_links _ _ _ (mi_batch _ _ _ _ _ _ _ Hinv)) as Hl.
    assert (Hex : forall k, is_Some (fork_infos fc !! k) -> is_Some (fork_infos fc' !! k)).
    { intros k Hk. apply links_is_Some. rewrite Hl. by apply links_is_Some. }
    exists fc'. split; [done|]. split.
    + eapply (mark_fc_ok stake fc Hok key (OMarkValid key.1)); eauto. by apply (validated_ok stake fc Hok).
    + split; [done|]. split; [done|]. split; [done|]. split.
      * intros k Hr. destruct (Hex k) as [f Hf].
        { apply links_is_Some, (reach_in _ _ Ht _ _ Hr). by apply links_is_Some. }
        unfold is_candidate, is_duplicate_confirmed, fi_is_candidate. rewrite Hf. cbn.
        assert (Hv : validity f = (None, true)).
        { rewrite (Hdone k f Hf). destruct (decide (k = key)) as [->|];
            [|apply (validated_above stake fc Hok key s Hs); done].
          assert (Hc : (validated fc key s key).2 = true).
          { rewrite validated_below by (apply Hs; split; [done|apply reach_refl]). cbn. by rewrite Z.eqb_refl. }
          pose proof (validated_conf stake fc Hok key s Hs key Hin Hc). destruct (validated fc key s key); cbn in *; congruence. }
        injection Hv as -> ->. done.
      * intros k Hk Hr Hr'. destruct (Hex k Hk) as [f Hf]. rewrite (validities_Some _ _ _ Hf), (Hdone k f Hf).
        rewrite (validated_other stake fc Hok) by (rewrite ?Hs; unfold above; tauto).
        by rewrite validity_of_lookup.
Qed.
