(* ===== verification/ForkGhost.v ===== *)
(** * The fork choice rule

    What the fork choice promises: the best slot below a candidate is the one the
    greedy heaviest-observed-subtree rule picks from the blocks and the latest
    votes alone.  [ghost] is that rule; [votes_below] is the weight it uses, the
    stake of the validators whose latest vote lies in a subtree.  [fc_step] are the
    operations of the fork choice, in any order, and every state they reach
    satisfies the invariant of [ForkVotes]. *)

From S2P Require Import Prelude EpochSchedule ForkChoice ForkTree ForkUpdate ForkVotes ForkGrow ForkMarks.

(** ** The rule *)

(** [v] is a block of the tree, and is [k] or lies below it. *)
Definition descends (fc : HeaviestSubtreeForkChoice) (k v : SlotHashKey) : bool :=
  contains_block fc v && (bool_decide (k = v) || bool_decide (k ∈ ancestor_iterator fc v)).

(** The stake whose latest vote is [k] or lies below it. *)
Definition votes_below (stake : Slot -> Pubkey -> Z) (fc : HeaviestSubtreeForkChoice)
    (k : SlotHashKey) : Z :=
  msum (fun pk v => if descends fc k v then stake v.1 pk else 0) (latest_votes fc).

(** The stake of all latest votes. *)
Definition votes_total (stake : Slot -> Pubkey -> Z) (fc : HeaviestSubtreeForkChoice) : Z :=
  msum (fun pk v => stake v.1 pk) (latest_votes fc).

(** The blocks whose parent is [k]. *)
Definition children_of (fc : HeaviestSubtreeForkChoice) (k : SlotHashKey) : list SlotHashKey :=
  default [] (fc_children fc k).

(** From [k], walk to the heaviest candidate child until there is none. *)
Inductive ghost (stake : Slot -> Pubkey -> Z) (fc : HeaviestSubtreeForkChoice)
    : SlotHashKey -> SlotHashKey -> Prop :=
| ghost_stop k :
    (forall c, c ∈ children_of fc k -> cand (fork_infos fc) c = false) -> ghost stake fc k k
| ghost_walk k c b :
    heaviest (votes_below stake fc) (cand (fork_infos fc)) (children_of fc k) c ->
    ghost stake fc c b -> ghost stake fc k b.

(** ** The operations *)

Inductive fc_step (epoch_stakes : gmap Epoch EpochStakes) (epoch_schedule : EpochSchedule)
    (fc : HeaviestSubtreeForkChoice) : HeaviestSubtreeForkChoice -> Prop :=
| step_leaf x p fc' :
    p.1 < x.1 -> (forall pk, latest_votes fc !! pk = Some x -> is_Some (fork_infos fc !! x)) ->
    add_new_leaf_slot fc x (Some p) = Returns fc' -> fc_step epoch_stakes epoch_schedule fc fc'
| step_votes pvs fc' b :
    add_votes fc pvs epoch_stakes epoch_schedule = Returns (fc', b) ->
    fc_step epoch_stakes epoch_schedule fc fc'
| step_root r fc' :
    set_root fc r = Returns fc' -> fc_step epoch_stakes epoch_schedule fc fc'
| step_root_parent q fc' :
    0 <= q.1 -> is_candidate fc (fc_root fc) = Some true -> (forall pk, latest_votes fc !! pk <> Some q) ->
    add_root_parent fc q = Returns fc' -> fc_step epoch_stakes epoch_schedule fc fc'
| step_invalid k fc' :
    mark_fork_invalid_candidate fc k = Returns fc' -> fc_step epoch_stakes epoch_schedule fc fc'
| step_valid k fc' newly :
    mark_fork_valid_candidate fc k = Returns (fc', newly) -> fc_step epoch_stakes epoch_schedule fc fc'.

(** The stakes of an epoch are 64-bit integers. *)
Definition stakes_ok (epoch_stakes : gmap Epoch EpochStakes) : Prop :=
  forall epoch es pk s, epoch_stakes !! epoch = Some es -> es_vote_accounts es !! pk = Some s -> u64 s.

(** A state the operations reach from a new fork choice. *)
Definition fc_reachable (epoch_stakes : gmap Epoch EpochStakes) (epoch_schedule : EpochSchedule)
    (fc : HeaviestSubtreeForkChoice) : Prop :=
  exists root fc0, 0 <= root.1 /\ fc_new root = Returns fc0
    /\ rtc (fc_step epoch_stakes epoch_schedule) fc0 fc.

(** ** Weights *)

Lemma zsum_one {A} (f : A -> Z) l x :
  NoDup l -> x ∈ l -> (forall y, y ∈ l -> y <> x -> f y = 0) -> zsum f l = f x.
Proof.
  induction 1 as [|y l Hy Hn IH]; intros Hx Hz; [by apply not_elem_of_nil in Hx|]. cbn.
  apply elem_of_cons in Hx as [->|Hx].
  - rewrite zsum_zero; [lia|]. intros z Hzl. apply Hz; [by right|]. by intros ->.
  - rewrite IH; [|done|].
    + rewrite (Hz y); [done|by left|]. by intros ->.
    + intros z Hzl. apply Hz. by right.
Qed.

Section Weights.
Context (stake : Slot -> Pubkey -> Z) (fc : HeaviestSubtreeForkChoice) (Hok : fc_ok stake fc).
Abbreviation t := (links (fork_infos fc)).

Lemma descends_spec k v :
  descends fc k v = true <-> is_Some (fork_infos fc !! v) /\ reach t k v.
Proof.
  unfold descends, contains_block. rewrite andb_true_iff, orb_true_iff, !bool_decide_eq_true.
  rewrite (elem_of_ancestors _ _ (ok_tree _ _ Hok) fc k v eq_refl).
  assert (Hs : is_some (fork_infos fc !! v) = true <-> is_Some (fork_infos fc !! v)).
  { destruct (fork_infos fc !! v); cbn; split; [eauto|done|done|by intros []]. }
  rewrite Hs. split.
  - intros [? [->|[? ?]]]; auto using reach_refl.
  - intros [? ?]. split; [done|]. destruct (decide (k = v)); auto.
Qed.

(** A vote below [k] is at [k] or below exactly one child. *)
Lemma descends_split k fi v (s : Z) :
  fork_infos fc !! k = Some fi ->
  (if descends fc k v then s else 0)
  = (if decide (v = k) then s else 0)
    + zsum (fun c => if descends fc c v then s else 0) (fi_children fi).
Proof.
  intros Hk. pose proof (ok_tree _ _ Hok) as Ht. pose proof (links_Some _ _ _ Hk) as Hl.
  assert (Hno : (forall c, c ∈ fi_children fi -> descends fc c v = false) ->
            zsum (fun c => if descends fc c v then s else 0) (fi_children fi) = 0).
  { intros H. apply zsum_zero. intros c Hc. by rewrite H. }
  destruct (descends fc k v) eqn:Hd.
  - apply descends_spec in Hd as [Hv Hr]. destruct (decide (v = k)) as [->|Hne].
    + rewrite Hno; [lia|]. intros c Hc. apply not_true_iff_false. rewrite descends_spec.
      intros [_ Hr']. exact (reach_child_not_up _ _ Ht _ _ _ _ Hl Hc Hr').
    + destruct (reach_below _ _ Ht _ _ Hr) as (q & cs & c & Hl' & Hc & Hrc); [congruence|].
      rewrite Hl in Hl'. injection Hl' as _ <-.
      rewrite (zsum_one _ _ c); [|by apply (to_nodup _ _ Ht _ _ _ Hl)|done|].
      * rewrite (proj2 (descends_spec c v)) by done. lia.
      * intros d Hd Hdc. destruct (descends fc d v) eqn:E; [|done]. exfalso. apply Hdc.
        apply descends_spec in E as [_ Hrd]. by eapply (reach_one_child _ _ Ht).
  - apply not_true_iff_false in Hd. rewrite descends_spec in Hd.
    destruct (decide (v = k)) as [->|]; [exfalso; apply Hd; split; [eauto|apply reach_refl]|].
    rewrite Hno; [done|]. intros c Hc. apply not_true_iff_false. rewrite descends_spec.
    intros [Hv Hr]. apply Hd. split; [done|]. by eapply (reach_child _ _ Ht).
Qed.

Lemma votes_below_split k fi :
  fork_infos fc !! k = Some fi ->
  votes_below stake fc k
  = votes_at stake (latest_votes fc) k + zsum (votes_below stake fc) (fi_children fi).
Proof.
  intros Hk. unfold votes_below, votes_at, msum. rewrite zsum_swap, <- zsum_plus.
  apply zsum_ext. intros [pk v] _. cbn. by apply descends_split.
Qed.

(** The weight kept at a node is the stake of the votes below it. *)
Lemma subtree_weight k :
  is_Some (fork_infos fc !! k) -> weight_of (fork_infos fc) k = wrap64 (votes_below stake fc k).
Proof.
  intros Hk%links_is_Some. revert k Hk. apply (tree_ind _ _ (ok_tree _ _ Hok)).
  intros k q cs Hl IH. assert (Hin : is_Some (fork_infos fc !! k)) by (apply links_is_Some; eauto).
  destruct Hin as [fi Hk]. rewrite (links_Some _ _ _ Hk) in Hl. injection Hl as _ <-.
  rewrite (votes_below_split k fi Hk). unfold weight_of at 1. rewrite Hk.
  rewrite (no_subtree _ _ _ (ok_node _ _ Hok _ _ Hk)), (ok_votes _ _ Hok _ _ Hk), wrap64_add_l.
  clear Hk. induction (fi_children fi) as [|c cs IHcs]; [done|]. cbn.
  rewrite (IH c) by left. specialize (IHcs (fun d Hd => IH d (list_elem_of_further _ _ _ Hd))).
  apply wrap64_eq_iff in IHcs as [q1 Hq1].
  destruct (proj1 (wrap64_eq_iff (wrap64 (votes_below stake fc c)) (votes_below stake fc c))) as [q2 Hq2].
  { apply wrap64_small, wrap64_bound. }
  apply wrap64_eq_iff. exists (q1 + q2). lia.
Qed.

Context (Hnn : forall slot pk, 0 <= stake slot pk) (Htotal : votes_total stake fc <= U64_MAX).

Lemma votes_below_bound k : u64 (votes_below stake fc k).
Proof.
  split; [apply msum_nonneg; intros pk v _; destruct (descends fc k v); [apply Hnn|lia]|].
  etrans; [|exact Htotal]. apply msum_le. intros pk v _. pose proof (Hnn v.1 pk).
  destruct (descends fc k v); lia.
Qed.

(** Without overflow it is exactly that stake. *)
Lemma weight_votes k :
  is_Some (fork_infos fc !! k) -> weight_of (fork_infos fc) k = votes_below stake fc k.
Proof. intros Hk. rewrite (subtree_weight k Hk). apply wrap64_small, votes_below_bound. Qed.

Lemma children_of_Some k fi : fork_infos fc !! k = Some fi -> children_of fc k = fi_children fi.
Proof. intros Hk. unfold children_of, fc_children. by rewrite Hk. Qed.

(** The best slot of a candidate is the one the rule picks. *)
Lemma best_slot_ghost k fi :
  fork_infos fc !! k = Some fi -> fi_is_candidate fi = true -> ghost stake fc k (fi_best_slot fi).
Proof.
  intros Hk Hc. assert (Hin : is_Some (t !! k)) by (apply links_is_Some; eauto).
  revert k Hin fi Hk Hc.
  refine (tree_ind _ _ (ok_tree _ _ Hok) _ _). intros k q cs Hl IH fi Hk Hc.
  rewrite (links_Some _ _ _ Hk) in Hl. injection Hl as _ <-.
  destruct (no_best _ _ _ (ok_node _ _ Hok _ _ Hk) Hc) as [[-> Hno]|(c & ci & Hh & Hci & ->)].
  - apply ghost_stop. by rewrite (children_of_Some k fi Hk).
  - apply (ghost_walk _ _ k c).
    + rewrite (children_of_Some k fi Hk). eapply heaviest_ext; [|exact Hh]. intros d Hd.
      split; [|done]. apply weight_votes.
      by destruct (infos_child t _ (ok_tree _ _ Hok) _ _ _ _ eq_refl Hk Hd).
    + apply (IH c (proj1 Hh) ci Hci). destruct Hh as (_ & Hcc & _). unfold cand in Hcc. by rewrite Hci in Hcc.
Qed.
End Weights.

(** The rule picks one block. *)
Lemma ghost_unique stake fc k b b' : ghost stake fc k b -> ghost stake fc k b' -> b = b'.
Proof.
  intros H. revert b'. induction H as [k Hno|k c b Hh _ IH]; intros b' H'.
  - inversion H' as [? _|? c' ? (Hin & Hc & _) _]; subst; [done|]. rewrite Hno in Hc; done.
  - inversion H' as [? Hno|? c' ? Hh' Hg]; subst.
    + destruct Hh as (Hin & Hc & _). rewrite Hno in Hc; done.
    + apply IH. by rewrite (heaviest_unique _ _ _ _ _ Hh Hh').
Qed.

(** It ends at the start or at a candidate. *)
Lemma ghost_candidate stake fc k b :
  ghost stake fc k b -> cand (fork_infos fc) k = true -> cand (fork_infos fc) b = true.
Proof. induction 1 as [|k c b (_ & Hc & _) _ IH]; auto. Qed.

(** ** Reachable states *)

Section Steps.
Context (epoch_stakes : gmap Epoch EpochStakes) (epoch_schedule : EpochSchedule).
Context (Hstakes : stakes_ok epoch_stakes).
Abbreviation stake := (stake_at epoch_stakes epoch_schedule).

Lemma stake_nonneg slot pk : 0 <= stake slot pk.
Proof.
  unfold stake_at, vote_account_stake. destruct (epoch_stakes !! _) as [es|] eqn:He; [|done].
  destruct (es_vote_accounts es !! pk) as [s|] eqn:Hs; cbn; [|done].
  by destruct (Hstakes _ _ _ _ He Hs).
Qed.

(** A batch that was processed held no validator twice. *)
Lemma vote_loop_voters fc st pvs st' :
  vote_loop fc epoch_stakes epoch_schedule st pvs = Returns st' ->
  NoDup (voters (fc_root fc) pvs) /\ forall pk, pk ∈ voters (fc_root fc) pvs -> pk ∉ vl_observed st.
Proof.
  clear Hstakes. revert st. induction pvs as [|[pk v] pvs IH]; intros st; cbn [vote_loop].
  - intros _. unfold voters. rewrite filter_nil. split; [constructor|]. cbn. set_solver.
  - intros (st1 & H1 & H2)%outcome_bind_Returns. destruct (IH st1 H2) as [Hn Hall].
    unfold voters. rewrite filter_cons. cbn. unfold vote_step in H1.
    destruct (v.1 <? (fc_root fc).1) eqn:Hr.
    { injection H1 as <-. by rewrite decide_False. }
    rewrite decide_True by done. destruct (decide (pk ∈ vl_observed st)); [done|].
    assert (Hobs : vl_observed st1 = {[pk]} ∪ vl_observed st).
    { destruct (match vl_latest_votes st !! pk with Some old => outdated v old | None => false end);
        [by injection H1 as <-|].
      apply outcome_bind_Returns in H1 as (ops & _ & H1). cbn in H1.
      apply outcome_bind_Returns in H1 as (ops' & _ & H1). by injection H1 as <-. }
    rewrite Hobs in Hall. fold (voters (fc_root fc) pvs). split.
    + constructor; [|done]. intros Hin. apply Hall in Hin. set_solver.
    + intros x [->|Hx]%elem_of_cons; [done|]. apply Hall in Hx. set_solver.
Qed.

Lemma add_votes_voters fc pvs r :
  add_votes fc pvs epoch_stakes epoch_schedule = Returns r -> NoDup (voters (fc_root fc) pvs).
Proof.
  unfold add_votes, generate_update_operations.
  intros ([fc1 ops] & (st & H & _)%outcome_bind_Returns & _)%outcome_bind_Returns.
  by apply vote_loop_voters in H as [? _].
Qed.

Lemma leaf_parent_in fc x p fc' :
  fork_infos fc !! x = None -> p.1 < x.1 -> add_new_leaf_slot fc x (Some p) = Returns fc' ->
  is_Some (fork_infos fc !! p).
Proof.
  intros Hx Hlt. unfold add_new_leaf_slot, contains_block. rewrite Hx. cbn.
  rewrite lookup_insert_ne by (intros ->; lia). destruct (fork_infos fc !! p); [eauto|done].
Qed.

Lemma set_root_in fc r fc' :
  fc_ok stake fc -> set_root fc r = Returns fc' -> is_Some (fork_infos fc !! r).
Proof.
  intros Hok. unfold set_root. intros (s & Hs & H)%outcome_bind_Returns.
  apply outcome_bind_Returns in H as (infos & Hi & H). apply outcome_bind_Returns in H as (fi & Hf & _).
  destruct (subtree_diff_spec fc (ok_tree _ _ Hok) (fc_root fc) r) as (s' & Hs' & Hk).
  rewrite Hs in Hs'. injection Hs' as <-.
  destruct (remove_all_ok (fork_infos fc) (elements s)) as (infos' & Hi' & Hl).
  - apply NoDup_elements.
  - intros k Hin%elem_of_elements. by apply Hk in Hin as [? _].
  - rewrite Hi in Hi'. injection Hi' as <-. rewrite Hl in Hf.
    destruct (decide _); [done|]. by destruct (fork_infos fc !! r).
Qed.

Lemma mark_invalid_keeps fc k fc' :
  fc_ok stake fc -> mark_fork_invalid_candidate fc k = Returns fc' -> fc_ok stake fc'.
Proof.
  intros Hok H. destruct (fork_infos fc !! k) as [fi|] eqn:Hk.
  - destruct (decide (k = slot_hash_default)) as [->|Hne].
    + destruct (mark_subtree stake fc Hok slot_hash_default) as (s & Hd & Hs); [eauto|].
      rewrite decide_True in Hs by done. subst s. unfold mark_fork_invalid_candidate in H.
      rewrite Hk, Hd in H. cbn in H. destruct (fi_is_duplicate_confirmed fi); [done|]. cbn in H.
      rewrite (mark_default stake fc Hok) in H by eauto. by injection H as <-.
    + assert (Hc : fi_is_duplicate_confirmed fi = false).
      { unfold mark_fork_invalid_candidate in H. rewrite Hk in H. by destruct (fi_is_duplicate_confirmed fi). }
      destruct (mark_invalid_ok stake fc k fi Hok Hk Hc Hne) as (fc1 & H1 & Hok1 & _). congruence.
  - unfold mark_fork_invalid_candidate in H. rewrite Hk in H. congruence.
Qed.

Lemma mark_valid_keeps fc k fc' newly :
  fc_ok stake fc -> mark_fork_valid_candidate fc k = Returns (fc', newly) -> fc_ok stake fc'.
Proof.
  intros Hok H.
  assert (Hk : is_Some (fork_infos fc !! k)).
  { unfold mark_fork_valid_candidate in H. cbn [newly_confirmed] in H. unfold is_duplicate_confirmed in H.
    destruct (fork_infos fc !! k); [eauto|done]. }
  destruct (decide (k = slot_hash_default)) as [->|Hne].
  - destruct (mark_subtree stake fc Hok slot_hash_default Hk) as (s & Hd & Hs).
    rewrite decide_True in Hs by done. subst s. unfold mark_fork_valid_candidate in H.
    apply outcome_bind_Returns in H as (n & _ & H). rewrite Hd in H. cbn [mbind outcome_bind] in H.
    rewrite (mark_default stake fc Hok) in H by done. by injection H as <- _.
  - destruct (mark_valid_ok stake fc k Hok Hk Hne) as (fc1 & H1 & Hok1 & _). congruence.
Qed.

(** Every operation keeps the invariant. *)
Lemma fc_step_ok fc fc' :
  fc_ok stake fc -> fc_step epoch_stakes epoch_schedule fc fc' -> fc_ok stake fc'.
Proof.
  intros Hok [x p fc1 Hlt Hvote H|pvs fc1 b H|r fc1 H|q fc1 H0 Hcand Hvote H|k fc1 H|k fc1 newly H].
  - destruct (fork_infos fc !! x) as [fi|] eqn:Hx.
    + unfold add_new_leaf_slot, contains_block in H. rewrite Hx in H. by injection H as <-.
    + destruct (leaf_parent_in _ _ _ _ Hx Hlt H) as [pi Hp].
      destruct (add_leaf_ok stake fc Hok x p pi Hx Hp Hlt) as (fc2 & H2 & Hok2 & _); [|congruence].
      intros pk Hpk. destruct (Hvote pk Hpk). congruence.
  - destruct (add_votes_ok fc pvs epoch_stakes epoch_schedule stake_nonneg Hok) as (fc2 & b2 & H2 & Hok2 & _);
      [by eapply add_votes_voters|congruence].
  - destruct (set_root_in _ _ _ Hok H) as [ri Hr].
    destruct (set_root_ok stake fc r ri Hok Hr) as (fc2 & H2 & Hok2 & _). congruence.
  - destruct (root_in _ _ Hok) as [ri Hr]. unfold is_candidate in Hcand. rewrite Hr in Hcand.
    injection Hcand as Hcand. pose proof H as H'. unfold add_root_parent in H'.
    destruct (Z.ltb_spec q.1 (fc_root fc).1) as [Hlt|]; [|done]. cbn in H'.
    destruct (fork_infos fc !! q) eqn:Hq; [done|].
    destruct (add_root_parent_ok stake fc Hok q ri Hr H0 Hlt Hq Hcand Hvote) as (fc2 & H2 & Hok2 & _). congruence.
  - by eapply mark_invalid_keeps.
  - by eapply mark_valid_keeps.
Qed.

Lemma fc_reachable_ok fc : fc_reachable epoch_stakes epoch_schedule fc -> fc_ok stake fc.
Proof.
  intros (root & fc0 & H0 & Hnew & Hsteps).
  destruct (fc_new_ok stake root H0) as (fc1 & Hnew' & Hok & _). rewrite Hnew in Hnew'. injection Hnew' as <-.
  clear Hnew. induction Hsteps as [|fc0 fc1 fc2 Hstep _ IH]; [done|]. by apply IH, (fc_step_ok fc0).
Qed.
End Steps.

(** ** Operations that return *)

Lemma contains_block_spec fc k : contains_block fc k = true <-> is_Some (fork_infos fc !! k).
Proof. unfold contains_block. destruct (fork_infos fc !! k); cbn; split; [eauto|done|done|by intros []]. Qed.

Section Returns.
Context (stake : Slot -> Pubkey -> Z) (fc : HeaviestSubtreeForkChoice) (Hok : fc_ok stake fc).

Lemma leaf_returns x p :
  contains_block fc p = true -> p.1 < x.1 ->
  (forall pk, latest_votes fc !! pk = Some x -> contains_block fc x = true) ->
  exists fc', add_new_leaf_slot fc x (Some p) = Returns fc' /\ contains_block fc' x = true.
Proof.
  intros [pi Hp]%contains_block_spec Hlt Hv. destruct (fork_infos fc !! x) as [fi|] eqn:Hx.
  - exists fc. unfold add_new_leaf_slot, contains_block. by rewrite Hx.
  - destruct (add_leaf_ok stake fc Hok x p pi Hx Hp Hlt) as (fc' & H & _ & _ & _ & Hl & _).
    + intros pk Hpk. apply Hv, contains_block_spec in Hpk as [? ?]. congruence.
    + exists fc'. split; [done|]. apply contains_block_spec, links_is_Some. rewrite Hl, leaf_lookup.
      repeat destruct (decide _); try done; eauto.
Qed.

Lemma root_returns r :
  contains_block fc r = true ->
  exists fc', set_root fc r = Returns fc' /\ fc_root fc' = r
    /\ forall k, contains_block fc' k = descends fc r k.
Proof.
  intros [ri Hr]%contains_block_spec.
  destruct (set_root_ok stake fc r ri Hok Hr) as (fc' & H & _ & Hroot & _ & H1 & H2 & H3).
  exists fc'. split; [done|]. split; [done|]. intros k. apply eq_true_iff_eq.
  rewrite contains_block_spec, (descends_spec stake fc Hok). split.
  - intros Hk. destruct (subtree_dec stake fc Hok r k) as [Hrk|Hn]; [|rewrite H3 in Hk by done; by destruct Hk].
    split; [|done]. destruct (decide (k = r)) as [->|]; [by rewrite Hr|by rewrite <- H2].
  - intros [Hk Hrk]. destruct (decide (k = r)) as [->|]; [by rewrite H1|by rewrite H2].
Qed.

Lemma invalid_returns k :
  is_duplicate_confirmed fc k <> Some true -> k <> slot_hash_default ->
  exists fc', mark_fork_invalid_candidate fc k = Returns fc' /\ fc_root fc' = fc_root fc
    /\ links (fork_infos fc') = links (fork_infos fc)
    /\ forall d, descends fc k d = true -> is_candidate fc' d = Some false.
Proof.
  unfold is_duplicate_confirmed. intros Hc Hne. destruct (fork_infos fc !! k) as [fi|] eqn:Hk.
  - destruct (fi_is_duplicate_confirmed fi) eqn:Hf; [by cbn in Hc; rewrite Hf in Hc|].
    destruct (mark_invalid_ok stake fc k fi Hok Hk Hf Hne) as (fc' & H & _ & Hroot & _ & Hl & Hbelow & _).
    exists fc'. split; [done|]. split; [done|]. split; [done|].
    intros d [Hd Hr]%(descends_spec stake fc Hok). by apply Hbelow.
  - exists fc. unfold mark_fork_invalid_candidate. rewrite Hk. split; [done|]. split; [done|]. split; [done|].
    intros d [Hd Hr]%(descends_spec stake fc Hok). exfalso.
    assert (Hin : is_Some (fork_infos fc !! k)).
    { apply links_is_Some, (reach_in _ _ (ok_tree _ _ Hok) _ _ Hr). by apply links_is_Some. }
    rewrite Hk in Hin. by destruct Hin.
Qed.

(** The best slot of a candidate is a candidate. *)
Lemma best_candidate k fi :
  fork_infos fc !! k = Some fi -> fi_is_candidate fi = true -> is_candidate fc (fi_best_slot fi) = Some true.
Proof.
  intros Hk Hc. assert (Hin : is_Some (links (fork_infos fc) !! k)) by (apply links_is_Some; eauto).
  revert k Hin fi Hk Hc.
  refine (tree_ind _ _ (ok_tree _ _ Hok) _ _). intros k q cs Hl IH fi Hk Hc.
  rewrite (links_Some _ _ _ Hk) in Hl. injection Hl as _ <-.
  destruct (no_best _ _ _ (ok_node _ _ Hok _ _ Hk) Hc) as [[-> _]|(c & ci & (Hin & Hcc & _) & Hci & ->)].
  - unfold is_candidate. rewrite Hk. cbn. by rewrite Hc.
  - apply (IH c Hin ci Hci). unfold cand in Hcc. by rewrite Hci in Hcc.
Qed.

(** Nothing below a block that is not a candidate is one. *)
Lemma invalid_below k d :
  is_candidate fc k = Some false -> descends fc k d = true -> is_candidate fc d = Some false.
Proof.
  assert (Hiff : forall j, is_Some (fork_infos fc !! j) ->
            is_candidate fc j = Some false <-> exists s, (validity_of fc j).1 = Some s).
  { intros j [fj Hj]. unfold is_candidate. rewrite Hj, <- (validity_of_Some fc j fj Hj). cbn.
    unfold fi_is_candidate. destruct (fi_latest_invalid_ancestor fj); cbn; split; try done; [eauto|].
    by intros [? ?]. }
  intros Hk [Hd Hr]%(descends_spec stake fc Hok). apply Hiff; [done|].
  assert (Hkin : is_Some (fork_infos fc !! k)).
  { apply links_is_Some, (reach_in _ _ (ok_tree _ _ Hok) _ _ Hr). by apply links_is_Some. }
  apply Hiff in Hk; [|done]. clear Hd Hiff. induction Hr as [|d p Hp Hr IH]; [done|].
  destruct IH as [s Hs]. destruct (valid_invalid stake fc Hok d p s Hp Hs) as (s' & Hs' & _). eauto.
Qed.
End Returns.

(** ** Composite operations *)

Lemma add_new_leaf_votes fc x p fc' :
  add_new_leaf_slot fc x p = Returns fc' -> latest_votes fc' = latest_votes fc /\ fc_root fc' = fc_root fc.
Proof.
  unfold add_new_leaf_slot. destruct (contains_block fc x); [by intros [= <-]|].
  destruct p as [p|]; [|by intros [= <-]]. intros (info & _ & H)%outcome_bind_Returns.
  unfold propagate_new_leaf in H. apply outcome_bind_Returns in H as (b & _ & H).
  apply outcome_bind_Returns in H as ([|] & _ & H); [|by injection H as <-].
  apply outcome_bind_Returns in H as (infos & _ & H). by injection H as <-.
Qed.

Section Composite.
Context (epoch_stakes : gmap Epoch EpochStakes) (epoch_schedule : EpochSchedule).

Lemma add_leaves_steps fc nodes fc' :
  add_leaves fc nodes = Returns fc' ->
  (forall n, n ∈ nodes -> n.2.1 < n.1.1 /\ forall pk, latest_votes fc !! pk <> Some n.1) ->
  rtc (fc_step epoch_stakes epoch_schedule) fc fc' /\ latest_votes fc' = latest_votes fc.
Proof.
  revert fc. induction nodes as [|[k p] nodes IH]; intros fc; cbn; [by intros [= <-]|].
  intros (fc1 & H1 & H2)%outcome_bind_Returns Hall.
  destruct (add_new_leaf_votes _ _ _ _ H1) as [Hlv _].
  destruct (Hall (k, p)) as [Hlt Hv]; [by left|].
  destruct (IH fc1 H2) as [Hs Hl].
  { intros n Hn. rewrite Hlv. apply Hall. by right. }
  split; [|congruence]. eapply rtc_l; [|done]. eapply step_leaf; [done| |done].
  intros pk Hpk. by apply Hv in Hpk.
Qed.

(** Merging another tree below a leaf is a sequence of operations, when the other
    tree is consistent, starts later than the leaf, and holds no block that is
    already voted for. *)
Lemma merge_steps fc other leaf fc' :
  tree_ok (links (fork_infos other)) (fc_root other) -> leaf.1 < (fc_root other).1 ->
  (forall k pk, is_Some (fork_infos other !! k) -> latest_votes fc !! pk <> Some k) ->
  merge fc other leaf epoch_stakes epoch_schedule = Returns fc' ->
  rtc (fc_step epoch_stakes epoch_schedule) fc fc'.
Proof.
  intros Ht Hleaf Hv. unfold merge. destruct (contains_block fc leaf); [|done]. cbn.
  intros (fc1 & H1 & ([fc2 b] & H2 & [= <-])%outcome_bind_Returns)%outcome_bind_Returns.
  destruct (add_leaves_steps _ _ _ H1) as [Hs _]; [|by eapply rtc_r, step_votes].
  intros n Hn. unfold merge_nodes in Hn. rewrite merge_sort_Permutation in Hn.
  apply list_elem_of_fmap in Hn as ([k fi] & -> & Hk%elem_of_map_to_list). cbn.
  split; [|intros pk; apply Hv; eauto].
  pose proof (links_parent (fork_infos other) k) as Hp. rewrite Hk in Hp. cbn in Hp.
  destruct (fi_parent fi) as [p|]; cbn.
  - by destruct (parent_spec _ _ Ht _ _ Hp).
  - assert (Hin : is_Some (links (fork_infos other) !! k)) by (apply links_is_Some; eauto).
    by rewrite (no_parent_root _ _ Ht k Hin Hp).
Qed.

Lemma add_frozen_banks_steps fc prev banks fc' :
  add_frozen_banks fc prev banks = Returns fc' -> latest_votes fc = ∅ ->
  (forall b, b ∈ banks -> fb_parent_slot b < fb_slot b) ->
  rtc (fc_step epoch_stakes epoch_schedule) fc fc'.
Proof.
  revert fc prev. induction banks as [|b banks IH]; intros fc prev; cbn; [by intros [= <-]|].
  intros (u & _ & H)%outcome_bind_Returns Hlv Hall.
  destruct ((fc_root fc).1 <? fb_slot b).
  2: { eapply IH; eauto. intros x Hx. apply Hall. by right. }
  apply outcome_bind_Returns in H as (u1 & _ & H). apply outcome_bind_Returns in H as (u2 & _ & H).
  apply outcome_bind_Returns in H as (u3 & _ & H). apply outcome_bind_Returns in H as (fc1 & H1 & H2).
  eapply rtc_l.
  - eapply step_leaf; [|intros pk; by rewrite Hlv, lookup_empty|exact H1]. apply Hall. by left.
  - eapply IH; [exact H2| |].
    + destruct (add_new_leaf_votes _ _ _ _ H1). congruence.
    + intros x Hx. apply Hall. by right.
Qed.

(** The fork choice of a restarted validator is one the operations reach. *)
Lemma new_from_frozen_banks_reachable root banks fc :
  0 <= root.1 -> (forall b, b ∈ banks -> fb_parent_slot b < fb_slot b) ->
  new_from_frozen_banks root banks = Returns fc -> fc_reachable epoch_stakes epoch_schedule fc.
Proof.
  intros H0 Hall. unfold new_from_frozen_banks. intros (fc0 & Hnew & H)%outcome_bind_Returns.
  exists root, fc0. split; [done|]. split; [done|]. eapply add_frozen_banks_steps; [done| |done].
  destruct (fc_new_ok (fun _ _ => 0) root H0) as (fc1 & Hnew' & _ & _ & Hlv & _). congruence.
Qed.
End Composite.

(** ** What the fork choice promises *)

(** C3: The fork choice follows the heaviest observed subtree.  In every state its
    operations reach, for a block that is eligible, the stake recorded for its subtree
    is the stake of the validators whose latest vote is on it or below it, and the
    recorded best slot is the one and only block that is found by going, from child to
    child, to the eligible child with the heaviest such stake, the smaller key on a tie,
    until no child is eligible. *)
Theorem heaviest_subtree_is_ghost epoch_stakes epoch_schedule fc k :
  stakes_ok epoch_stakes -> fc_reachable epoch_stakes epoch_schedule fc ->
  votes_total (stake_at epoch_stakes epoch_schedule) fc <= U64_MAX ->
  is_candidate fc k = Some true ->
  exists b,
    best_slot fc k = Some b
    /\ (forall b', ghost (stake_at epoch_stakes epoch_schedule) fc k b' <-> b' = b)
    /\ stake_voted_subtree fc k = Some (votes_below (stake_at epoch_stakes epoch_schedule) fc k)
    /\ is_candidate fc b = Some true.
Proof.
  intros Hst Hr Htotal Hc. pose proof (fc_reachable_ok _ _ Hst _ Hr) as Hok.
  pose proof (stake_nonneg _ epoch_schedule Hst) as Hnn. unfold is_candidate in Hc.
  destruct (fork_infos fc !! k) as [fi|] eqn:Hk; [|done]. injection Hc as Hc.
  pose proof (best_slot_ghost _ fc Hok Hnn Htotal k fi Hk Hc) as Hg.
  exists (fi_best_slot fi). unfold best_slot, stake_voted_subtree. rewrite Hk. split; [done|]. split; [|split].
  - intros b'. split; [intros Hb'; by eapply ghost_unique|by intros ->].
  - pose proof (weight_votes _ fc Hok Hnn Htotal k) as Hw. unfold weight_of in Hw. rewrite Hk in Hw.
    cbn. f_equal. by apply Hw.
  - assert (Hb : cand (fork_infos fc) (fi_best_slot fi) = true).
    { eapply ghost_candidate; [exact Hg|]. unfold cand. by rewrite Hk. }
    unfold is_candidate, cand in *. destruct (fork_infos fc !! fi_best_slot fi); cbn; congruence.
Qed.

(** C13: The operations of the fork choice do not panic.  In every state they reach, a
    leaf can be added below a known block; a batch of votes without two counted votes of
    one validator is taken over as the latest votes; any known block can become the
    root, and exactly its subtree is kept; a block that is not confirmed can be marked
    invalid, which makes its whole subtree ineligible; and a known block can be marked
    confirmed, which makes it eligible. *)
Theorem fork_choice_returns epoch_stakes epoch_schedule fc :
  stakes_ok epoch_stakes -> fc_reachable epoch_stakes epoch_schedule fc ->
  (forall x p, contains_block fc p = true -> p.1 < x.1 ->
     (forall pk, latest_votes fc !! pk = Some x -> contains_block fc x = true) ->
     exists fc', add_new_leaf_slot fc x (Some p) = Returns fc' /\ contains_block fc' x = true)
  /\ (forall pvs, NoDup (voters (fc_root fc) pvs) ->
     exists fc' b, add_votes fc pvs epoch_stakes epoch_schedule = Returns (fc', b)
       /\ latest_votes fc' = foldl (accept (fc_root fc)) (latest_votes fc) pvs)
  /\ (forall r, contains_block fc r = true ->
     exists fc', set_root fc r = Returns fc' /\ fc_root fc' = r
       /\ forall k, contains_block fc' k = descends fc r k)
  /\ (forall k, is_duplicate_confirmed fc k <> Some true -> k <> slot_hash_default ->
     exists fc', mark_fork_invalid_candidate fc k = Returns fc'
       /\ forall d, descends fc k d = true -> is_candidate fc' d = Some false)
  /\ (forall k, contains_block fc k = true -> k <> slot_hash_default ->
     exists fc' newly, mark_fork_valid_candidate fc k = Returns (fc', newly)
       /\ is_duplicate_confirmed fc' k = Some true /\ is_candidate fc' k = Some true).
Proof.
  intros Hst Hr. pose proof (fc_reachable_ok _ _ Hst _ Hr) as Hok.
  pose proof (stake_nonneg _ epoch_schedule Hst) as Hnn. split; [|split; [|split; [|split]]].
  - intros x p. by apply (leaf_returns _ _ Hok).
  - intros pvs Hn. destruct (add_votes_ok fc pvs _ _ Hnn Hok Hn) as (fc' & b & H & _ & _ & _ & Hlv & _). eauto.
  - intros r. by apply (root_returns _ _ Hok).
  - intros k Hc Hne. destruct (invalid_returns _ _ Hok k Hc Hne) as (fc' & H & _ & _ & Hb). eauto.
  - intros k Hk%contains_block_spec Hne.
    destruct (mark_valid_ok _ fc k Hok Hk Hne) as (fc' & H & _ & _ & _ & _ & Hconf & _).
    destruct (Hconf k (reach_refl _ _)). eauto.
Qed.

(** C19: A fork that is marked invalid is not built on.  In every state the operations
    reach in which the root is eligible, the best slot is a known, eligible block and
    does not descend from a block that is not eligible. *)
Theorem invalid_fork_not_chosen epoch_stakes epoch_schedule fc k :
  stakes_ok epoch_stakes -> fc_reachable epoch_stakes epoch_schedule fc ->
  is_candidate fc (fc_root fc) = Some true -> is_candidate fc k = Some false ->
  exists b, best_overall_slot fc = Returns b /\ contains_block fc b = true
    /\ is_candidate fc b = Some true /\ descends fc k b = false.
Proof.
  intros Hst Hr Hroot Hk. pose proof (fc_reachable_ok _ _ Hst _ Hr) as Hok.
  unfold is_candidate in Hroot. destruct (fork_infos fc !! fc_root fc) as [ri|] eqn:Hri; [|done].
  injection Hroot as Hroot. pose proof (best_candidate _ _ Hok _ _ Hri Hroot) as Hb.
  exists (fi_best_slot ri). unfold best_overall_slot, best_slot. rewrite Hri. split; [done|].
  split; [apply contains_block_spec; by apply (ok_best _ _ Hok _ _ Hri)|]. split; [done|].
  apply not_true_iff_false. intros Hd.
  rewrite (invalid_below _ _ Hok k (fi_best_slot ri) Hk Hd) in Hb. done.
Qed.

(** Confirming a block does not clear the marks of its siblings: where an ancestor was
    marked invalid, confirming one of its descendants confirms the ancestor, but the
    other descendants keep the mark and stay ineligible. *)
Theorem sibling_stays_invalid epoch_stakes epoch_schedule fc confirmed_key ancestor sibling fc' newly :
  stakes_ok epoch_stakes -> fc_reachable epoch_stakes epoch_schedule fc ->
  confirmed_key <> slot_hash_default ->
  mark_fork_valid_candidate fc confirmed_key = Returns (fc', newly) ->
  descends fc ancestor confirmed_key = true -> descends fc ancestor sibling = true ->
  descends fc confirmed_key sibling = false -> descends fc sibling confirmed_key = false ->
  latest_invalid_ancestor fc sibling = Some ancestor.1 ->
  is_duplicate_confirmed fc' ancestor = Some true /\ is_candidate fc' ancestor = Some true
  /\ latest_invalid_ancestor fc' sibling = Some ancestor.1 /\ is_candidate fc' sibling = Some false.
Proof.
  intros Hst Hr Hne Hmark Ha Hs Hn1 Hn2 Hl. pose proof (fc_reachable_ok _ _ Hst _ Hr) as Hok.
  apply (descends_spec _ _ Hok) in Ha as [Hk Ha]. apply (descends_spec _ _ Hok) in Hs as [Hsib _].
  apply not_true_iff_false in Hn1, Hn2. rewrite (descends_spec _ _ Hok) in Hn1, Hn2.
  destruct (mark_valid_ok _ fc confirmed_key Hok Hk Hne) as (fc1 & H1 & _ & _ & _ & _ & Hconf & Hother).
  rewrite Hmark in H1. injection H1 as <- _. destruct (Hconf ancestor Ha) as [Hc1 Hc2].
  split; [done|]. split; [done|].
  assert (Hv := Hother sibling Hsib ltac:(tauto) ltac:(tauto)). rewrite !validities_lookup in Hv.
  unfold latest_invalid_ancestor, is_candidate in *.
  destruct (fork_infos fc !! sibling) as [f|]; [|done].
  destruct (fork_infos fc' !! sibling) as [f'|]; [|done]. cbn in *. injection Hv as Hv _.
  unfold fi_is_candidate. by rewrite Hv, Hl.
Qed.
