(* ===== verification/ForkSample.v ===== *)
(** * A sample of the fork choice

    Three validators and five blocks.  Two forks start at the root: one block that
    holds the greatest single stake, and one subtree that holds more stake in
    total; the fork choice follows the subtree until it is marked invalid. *)

From S2P Require Import Prelude EpochSchedule ForkChoice ForkTree ForkUpdate ForkVotes ForkGrow ForkMarks ForkGhost.

Module ForkSample.

Definition schedule : EpochSchedule :=
  {| slots_per_epoch := 32; leader_schedule_slot_offset := 32; warmup := false;
     first_normal_epoch := 0; first_normal_slot := 0 |}.

Definition stakes : gmap Epoch EpochStakes :=
  {[ 0 := {| es_vote_accounts := list_to_map [(1%N, 100); (2%N, 60); (3%N, 50)] |} ]}.

Definition root : SlotHashKey := (10, 1%N).
Definition blockA : SlotHashKey := (11, 2%N).
Definition blockB : SlotHashKey := (12, 3%N).
Definition blockC : SlotHashKey := (13, 4%N).
Definition blockD : SlotHashKey := (14, 5%N).

Definition returned (o : outcome HeaviestSubtreeForkChoice) : HeaviestSubtreeForkChoice :=
  match o with Returns fc => fc | Panics => {| fork_infos := ∅; latest_votes := ∅; fc_root := root |} end.

Definition new_fc : HeaviestSubtreeForkChoice := Eval vm_compute in returned (fc_new root).
Definition with_A : HeaviestSubtreeForkChoice :=
  Eval vm_compute in returned (add_new_leaf_slot new_fc blockA (Some root)).
Definition with_B : HeaviestSubtreeForkChoice :=
  Eval vm_compute in returned (add_new_leaf_slot with_A blockB (Some root)).
Definition with_C : HeaviestSubtreeForkChoice :=
  Eval vm_compute in returned (add_new_leaf_slot with_B blockC (Some blockA)).
Definition with_D : HeaviestSubtreeForkChoice :=
  Eval vm_compute in returned (add_new_leaf_slot with_C blockD (Some blockA)).

Definition votes : list (Pubkey * SlotHashKey) := [(1%N, blockB); (2%N, blockC); (3%N, blockD)].

Definition voted : HeaviestSubtreeForkChoice :=
  Eval vm_compute in
    returned ('(fc, _) ← add_votes with_D votes stakes schedule; Returns fc).
Definition invalid_A : HeaviestSubtreeForkChoice :=
  Eval vm_compute in returned (mark_fork_invalid_candidate voted blockA).
Definition valid_C : HeaviestSubtreeForkChoice :=
  Eval vm_compute in returned ('(fc, _) ← mark_fork_valid_candidate invalid_A blockC; Returns fc).

Lemma stakes_are_ok : stakes_ok stakes.
Proof.
  intros epoch es pk s. unfold stakes. intros [_ <-]%lookup_singleton_Some Hs.
  cbn [es_vote_accounts] in Hs. apply elem_of_list_to_map_2 in Hs. rewrite !elem_of_cons in Hs.
  destruct Hs as [[= _ ->]|[[= _ ->]|[[= _ ->]|[]%not_elem_of_nil]]]; by vm_compute.
Qed.

Lemma voted_reachable : fc_reachable stakes schedule voted.
Proof.
  exists root, new_fc. split; [done|]. split; [vm_compute; reflexivity|].
  eapply rtc_l; [apply (step_leaf _ _ _ blockA root with_A)|].
  1: done. 1: intros pk; vm_compute; discriminate. 1: vm_compute; reflexivity.
  eapply rtc_l; [apply (step_leaf _ _ _ blockB root with_B)|].
  1: done. 1: intros pk; vm_compute; discriminate. 1: vm_compute; reflexivity.
  eapply rtc_l; [apply (step_leaf _ _ _ blockC blockA with_C)|].
  1: done. 1: intros pk; vm_compute; discriminate. 1: vm_compute; reflexivity.
  eapply rtc_l; [apply (step_leaf _ _ _ blockD blockA with_D)|].
  1: done. 1: intros pk; vm_compute; discriminate. 1: vm_compute; reflexivity.
  eapply rtc_l; [apply (step_votes _ _ _ votes voted blockC)|apply rtc_refl].
  vm_compute. reflexivity.
Qed.

Lemma invalid_A_reachable : fc_reachable stakes schedule invalid_A.
Proof.
  destruct voted_reachable as (r & fc0 & H0 & Hnew & Hsteps). exists r, fc0. split; [done|]. split; [done|].
  eapply rtc_r; [exact Hsteps|]. apply (step_invalid _ _ _ blockA). vm_compute. reflexivity.
Qed.

End ForkSample.

(** ** Witnesses *)

(** The greedy walk leaves the root for the subtree of 110, and in it takes the
    block of 60. *)
Lemma heaviest_subtree_is_ghost_witness :
  best_slot ForkSample.voted ForkSample.root = Some ForkSample.blockC
  /\ exists b,
    best_slot ForkSample.voted ForkSample.root = Some b
    /\ (forall b', ghost (stake_at ForkSample.stakes ForkSample.schedule) ForkSample.voted ForkSample.root b' <-> b' = b)
    /\ stake_voted_subtree ForkSample.voted ForkSample.root
       = Some (votes_below (stake_at ForkSample.stakes ForkSample.schedule) ForkSample.voted ForkSample.root)
    /\ is_candidate ForkSample.voted b = Some true.
Proof.
  split; [vm_compute; reflexivity|].
  apply (heaviest_subtree_is_ghost ForkSample.stakes ForkSample.schedule ForkSample.voted ForkSample.root).
  - exact ForkSample.stakes_are_ok.
  - exact ForkSample.voted_reachable.
  - vm_compute. discriminate.
  - vm_compute. reflexivity.
Defined.

Lemma fork_choice_returns_witness :
  exists fc', mark_fork_invalid_candidate ForkSample.voted ForkSample.blockA = Returns fc'
    /\ forall d, descends ForkSample.voted ForkSample.blockA d = true -> is_candidate fc' d = Some false.
Proof.
  apply (fork_choice_returns ForkSample.stakes ForkSample.schedule ForkSample.voted
           ForkSample.stakes_are_ok ForkSample.voted_reachable).
  - vm_compute. discriminate.
  - discriminate.
Defined.

Lemma invalid_fork_not_chosen_witness :
  best_overall_slot ForkSample.invalid_A = Returns ForkSample.blockB
  /\ exists b, best_overall_slot ForkSample.invalid_A = Returns b
    /\ contains_block ForkSample.invalid_A b = true
    /\ is_candidate ForkSample.invalid_A b = Some true
    /\ descends ForkSample.invalid_A ForkSample.blockA b = false.
Proof.
  split; [vm_compute; reflexivity|].
  apply (invalid_fork_not_chosen ForkSample.stakes ForkSample.schedule).
  - exact ForkSample.stakes_are_ok.
  - exact ForkSample.invalid_A_reachable.
  - vm_compute. reflexivity.
  - vm_compute. reflexivity.
Defined.

Lemma sibling_stays_invalid_witness :
  is_duplicate_confirmed ForkSample.valid_C ForkSample.blockA = Some true
  /\ is_candidate ForkSample.valid_C ForkSample.blockA = Some true
  /\ latest_invalid_ancestor ForkSample.valid_C ForkSample.blockD = Some 11
  /\ is_candidate ForkSample.valid_C ForkSample.blockD = Some false.
Proof.
  apply (sibling_stays_invalid ForkSample.stakes ForkSample.schedule ForkSample.invalid_A
           ForkSample.blockC ForkSample.blockA ForkSample.blockD ForkSample.valid_C
           [ForkSample.blockC; ForkSample.blockA]).
  - exact ForkSample.stakes_are_ok.
  - exact ForkSample.invalid_A_reachable.
  - discriminate.
  - vm_compute. reflexivity.
  - vm_compute. reflexivity.
  - vm_compute. reflexivity.
  - vm_compute. reflexivity.
  - vm_compute. reflexivity.
  - vm_compute. reflexivity.
Defined.
