(* ===== verification/LatestVotes.v ===== *)
(** * The latest votes for frozen banks

    [core/src/latest_validator_votes_for_frozen_banks.rs] keeps, for every
    validator, the latest slot it voted for and the hashes of the versions of that
    slot, once from gossip and once from replayed blocks; the votes seen in replay
    since the last fork choice update wait in a dirty set, which
    [HeaviestSubtreeForkChoice::compute_bank_stats] drains into [add_votes]. *)

From S2P Require Import Prelude EpochSchedule ForkChoice ForkTree ForkUpdate ForkVotes ForkGhost ForkSample.

Record LatestValidatorVotesForFrozenBanks := {
  max_gossip_frozen_votes : gmap Pubkey (Slot * list Hash);
  max_replay_frozen_votes : gmap Pubkey (Slot * list Hash);
  fork_choice_dirty_set : gmap Pubkey (Slot * list Hash);
}.

Definition lv_default : LatestValidatorVotesForFrozenBanks :=
  {| max_gossip_frozen_votes := ∅; max_replay_frozen_votes := ∅; fork_choice_dirty_set := ∅ |}.

(** [vote_map], chosen by [is_replay_vote]. *)
Definition vote_map (lv : LatestValidatorVotesForFrozenBanks) (is_replay_vote : bool)
    : gmap Pubkey (Slot * list Hash) :=
  if is_replay_vote then max_replay_frozen_votes lv else max_gossip_frozen_votes lv.

(** The vote map and, for replayed votes, the dirty set with new entries. *)
Definition lv_update (lv : LatestValidatorVotesForFrozenBanks) (is_replay_vote : bool)
    (pubkey : Pubkey) (latest : Slot * list Hash) (dirty : Slot * list Hash)
    : LatestValidatorVotesForFrozenBanks :=
  if is_replay_vote then
    {| max_gossip_frozen_votes := max_gossip_frozen_votes lv;
       max_replay_frozen_votes := <[pubkey := latest]> (max_replay_frozen_votes lv);
       fork_choice_dirty_set := <[pubkey := dirty]> (fork_choice_dirty_set lv) |}
  else
    {| max_gossip_frozen_votes := <[pubkey := latest]> (max_gossip_frozen_votes lv);
       max_replay_frozen_votes := max_replay_frozen_votes lv;
       fork_choice_dirty_set := fork_choice_dirty_set lv |}.

(** [hashes.contains(&hash)]. *)
Definition contains_hash (hash : Hash) (hashes : list Hash) : bool := existsb (N.eqb hash) hashes.

(** [fork_choice_dirty_set.entry(pubkey).or_default()]: slot zero and no hash where
    the validator has no entry. *)
Definition dirty_entry (lv : LatestValidatorVotesForFrozenBanks) (pubkey : Pubkey) : Slot * list Hash :=
  default (0, []) (fork_choice_dirty_set lv !! pubkey).

(** [check_add_vote]. *)
Definition check_add_vote (lv : LatestValidatorVotesForFrozenBanks) (vote_pubkey : Pubkey)
    (vote_slot : Slot) (frozen_hash : option Hash) (is_replay_vote : bool)
    : outcome (LatestValidatorVotesForFrozenBanks * (bool * option Slot)) :=
  let max_frozen_votes := vote_map lv is_replay_vote !! vote_pubkey in
  match frozen_hash with
  | Some frozen_hash =>
      match max_frozen_votes with
      | Some (latest_slot, latest_hashes) =>
          if latest_slot <? vote_slot then
            Returns (lv_update lv is_replay_vote vote_pubkey (vote_slot, [frozen_hash])
                       (vote_slot, [frozen_hash]), (true, Some vote_slot))
          else if (vote_slot =? latest_slot) && negb (contains_hash frozen_hash latest_hashes) then
            let '(dirty_slot, dirty_hashes) := dirty_entry lv vote_pubkey in
            _ ← assert_ (negb (is_replay_vote && contains_hash frozen_hash dirty_hashes));
            Returns (lv_update lv is_replay_vote vote_pubkey
                       (latest_slot, latest_hashes ++ [frozen_hash])
                       (dirty_slot, dirty_hashes ++ [frozen_hash]), (true, Some vote_slot))
          else Returns (lv, (false, Some latest_slot))
      | None =>
          Returns (lv_update lv is_replay_vote vote_pubkey (vote_slot, [frozen_hash])
                     (vote_slot, [frozen_hash]), (true, Some vote_slot))
      end
  | None => Returns (lv, (false, fst <$> max_frozen_votes))
  end.

(** The votes of one dirty entry, one for each version of the slot. *)
Definition entry_votes (e : Pubkey * (Slot * list Hash)) : list (Pubkey * SlotHashKey) :=
  map (fun hash => (e.1, (e.2.1, hash))) e.2.2.

(** [take_votes_dirty_set]. *)
Definition take_votes_dirty_set (lv : LatestValidatorVotesForFrozenBanks) (root : Slot)
    : LatestValidatorVotesForFrozenBanks * list (Pubkey * SlotHashKey) :=
  ({| max_gossip_frozen_votes := max_gossip_frozen_votes lv;
      max_replay_frozen_votes := max_replay_frozen_votes lv;
      fork_choice_dirty_set := ∅ |},
   flat_map entry_votes
     (filter (fun e => (root <=? e.2.1) = true) (map_to_list (fork_choice_dirty_set lv)))).

(** [HeaviestSubtreeForkChoice::compute_bank_stats]. *)
Definition compute_bank_stats (fc : HeaviestSubtreeForkChoice)
    (lv : LatestValidatorVotesForFrozenBanks) (epoch_stakes : gmap Epoch EpochStakes)
    (epoch_schedule : EpochSchedule)
    : outcome (HeaviestSubtreeForkChoice * LatestValidatorVotesForFrozenBanks) :=
  let '(lv, new_votes) := take_votes_dirty_set lv (fc_root fc).1 in
  '(fc, _) ← add_votes fc new_votes epoch_stakes epoch_schedule;
  Returns (fc, lv).

(** ** The invariant of the buffer *)

(** What is dirty was seen in replay, and no version is noted twice. *)
Record lv_ok (lv : LatestValidatorVotesForFrozenBanks) : Prop := {
  lv_dirty : forall pk s hs, fork_choice_dirty_set lv !! pk = Some (s, hs) ->
    NoDup hs /\ exists s' hs', max_replay_frozen_votes lv !! pk = Some (s', hs')
      /\ (forall h, h ∈ hs -> h ∈ hs') /\ (s = s' \/ s = 0);
}.

Inductive lv_step (lv : LatestValidatorVotesForFrozenBanks) : LatestValidatorVotesForFrozenBanks -> Prop :=
| lv_vote pk slot hash replay lv' r :
    check_add_vote lv pk slot hash replay = Returns (lv', r) -> lv_step lv lv'
| lv_take root : lv_step lv (take_votes_dirty_set lv root).1.

Lemma contains_hash_spec h hs : contains_hash h hs = true <-> h ∈ hs.
Proof.
  unfold contains_hash. rewrite existsb_exists. split.
  - intros (x & Hx%list_elem_of_In & ->%N.eqb_eq). done.
  - intros Hh. exists h. split; [by apply list_elem_of_In|apply N.eqb_refl].
Qed.

Lemma contains_hash_false h hs : contains_hash h hs = false <-> h ∉ hs.
Proof. by rewrite <- not_true_iff_false, contains_hash_spec. Qed.

(** The assertion of [check_add_vote] holds: a version that is new to the votes of
    a validator is new to its dirty entry. *)
Lemma dirty_new lv pk s hs h :
  lv_ok lv -> max_replay_frozen_votes lv !! pk = Some (s, hs) -> h ∉ hs ->
  h ∉ (dirty_entry lv pk).2.
Proof.
  intros [Hd] Hr Hh. unfold dirty_entry. destruct (fork_choice_dirty_set lv !! pk) as [[s1 hs1]|] eqn:E; cbn.
  - destruct (Hd _ _ _ E) as (_ & s' & hs' & Hr' & Hsub & _). rewrite Hr in Hr'. injection Hr' as <- <-. auto.
  - by intros ?%not_elem_of_nil.
Qed.

Lemma lv_ok_gossip lv pk latest dirty : lv_ok lv -> lv_ok (lv_update lv false pk latest dirty).
Proof. intros [Hd]. constructor. done. Qed.

Lemma lv_ok_replay lv pk s hs s1 hs1 :
  lv_ok lv -> NoDup hs1 -> (forall h, h ∈ hs1 -> h ∈ hs) -> (s1 = s \/ s1 = 0) ->
  lv_ok (lv_update lv true pk (s, hs) (s1, hs1)).
Proof.
  intros [Hd] Hn Hsub Hs. constructor. cbn. intros pk' s' hs'.
  destruct (decide (pk = pk')) as [<-|Hne].
  - rewrite !lookup_insert_eq. intros [= <- <-]. split; [done|]. eauto 8.
  - rewrite !lookup_insert_ne by done. apply Hd.
Qed.

Lemma check_add_vote_ok lv pk slot hash replay :
  lv_ok lv -> exists lv' r, check_add_vote lv pk slot hash replay = Returns (lv', r) /\ lv_ok lv'.
Proof.
  intros Hok. unfold check_add_vote. destruct hash as [h|]; [|eauto].
  assert (Hnew : lv_ok (lv_update lv replay pk (slot, [h]) (slot, [h]))).
  { destruct replay; [|by apply lv_ok_gossip]. apply lv_ok_replay; auto using NoDup_singleton. }
  destruct (vote_map lv replay !! pk) as [[s hs]|] eqn:Hm; [|eauto].
  destruct (s <? slot); [eauto|]. destruct ((slot =? s) && _) eqn:Hc; [|eauto].
  apply andb_true_iff in Hc as [_ Hc%negb_true_iff%contains_hash_false].
  destruct (dirty_entry lv pk) as [s1 hs1] eqn:He. destruct replay; cbn in *.
  - pose proof (dirty_new lv pk s hs h Hok Hm Hc) as Hd. rewrite He in Hd. cbn in Hd.
    rewrite (proj2 (contains_hash_false h hs1) Hd). cbn. eexists _, _. split; [done|].
    unfold dirty_entry in He. destruct (fork_choice_dirty_set lv !! pk) as [[s2 hs2]|] eqn:Ed; cbn in He.
    + injection He as -> ->. destruct Hok as [Hdirty].
      destruct (Hdirty _ _ _ Ed) as (Hn & s' & hs' & Hr & Hsub & Hs). rewrite Hm in Hr. injection Hr as <- <-.
      apply lv_ok_replay; [by constructor| |set_solver|done]. apply NoDup_app. split; [done|].
      split; [set_solver|apply NoDup_singleton].
    + injection He as <- <-. apply lv_ok_replay; [done|apply NoDup_singleton|set_solver|by right].
  - eexists _, _. split; [done|]. exact (lv_ok_gossip lv pk _ (0, []) Hok).
Qed.

Lemma lv_step_ok lv lv' : lv_ok lv -> lv_step lv lv' -> lv_ok lv'.
Proof.
  intros Hok [pk slot hash replay lv1 r H|root].
  - destruct (check_add_vote_ok lv pk slot hash replay Hok) as (lv2 & r2 & H2 & Hok2). congruence.
  - constructor. cbn. intros pk s hs. by rewrite lookup_empty.
Qed.

Lemma lv_reachable_ok lv : rtc lv_step lv_default lv -> lv_ok lv.
Proof.
  assert (H0 : lv_ok lv_default) by (constructor; cbn; intros pk s hs; by rewrite lookup_empty).
  intros Hs. revert H0. induction Hs as [|a b c Hstep _ IH]; [done|]. intros Ha. by apply IH, (lv_step_ok a).
Qed.

(** ** The votes that are taken *)

Lemma elem_of_taken lv root pk s h :
  (pk, (s, h)) ∈ (take_votes_dirty_set lv root).2 <->
  root <= s /\ exists hs, fork_choice_dirty_set lv !! pk = Some (s, hs) /\ h ∈ hs.
Proof.
  cbn. rewrite list_elem_of_In, in_flat_map. split.
  - intros ([pk' [s' hs]] & Hin & Hv). apply list_elem_of_In, list_elem_of_filter in Hin as [Hr Hin].
    apply elem_of_map_to_list in Hin. unfold entry_votes in Hv. cbn in *.
    apply in_map_iff in Hv as (h' & [= <- <- <-] & Hh%list_elem_of_In). zbool. eauto.
  - intros (Hr & hs & Hd & Hh). exists (pk, (s, hs)). split.
    + apply list_elem_of_In, list_elem_of_filter. cbn. split; [by apply Z.leb_le|].
      by apply elem_of_map_to_list.
    + unfold entry_votes. cbn. apply in_map_iff. exists h. split; [done|]. by apply list_elem_of_In.
Qed.

(** One version for every validator gives a batch without repetition. *)
Lemma taken_voters lv (root : Slot) :
  (forall pk s hs, fork_choice_dirty_set lv !! pk = Some (s, hs) -> root <= s -> (length hs <= 1)%nat) ->
  NoDup ((take_votes_dirty_set lv root).2).*1.
Proof.
  intros Hone. cbn.
  assert (Hall : forall e, e ∈ filter (fun e => (root <=? e.2.1) = true) (map_to_list (fork_choice_dirty_set lv)) ->
            (length e.2.2 <= 1)%nat).
  { intros [pk [s hs]] [Hr Hin]%list_elem_of_filter. cbn in *. zbool.
    apply elem_of_map_to_list in Hin. by eapply Hone. }
  assert (Hn : NoDup (filter (fun e => (root <=? e.2.1) = true) (map_to_list (fork_choice_dirty_set lv))).*1).
  { eapply sublist_NoDup; [apply (NoDup_fst_map_to_list (fork_choice_dirty_set lv))|]. apply fmap_sublist, sublist_filter. }
  revert Hn Hall. generalize (filter (fun e => (root <=? e.2.1) = true) (map_to_list (fork_choice_dirty_set lv))).
  intros l. induction l as [|[pk [s hs]] l IH]; cbn; intros Hn Hall; [constructor|].
  apply NoDup_cons in Hn as [Hpk Hn].
  assert (IHl : NoDup (flat_map entry_votes l).*1) by (apply IH; [done|intros e He; apply Hall; by right]).
  pose proof (Hall (pk, (s, hs)) (list_elem_of_here _ _)) as Hlen. unfold entry_votes at 1. cbn in *.
  destruct hs as [|h [|h' hs]]; cbn in *; [done| |lia]. constructor; [|done].
  intros Hin. apply list_elem_of_fmap in Hin as ([pk' v] & -> & Hin%list_elem_of_In). cbn in *.
  apply in_flat_map in Hin as ([pk1 [s1 hs1]] & He%list_elem_of_In & Hv).
  unfold entry_votes in Hv. apply in_map_iff in Hv as (h1 & [= <- _] & _).
  apply Hpk, list_elem_of_fmap. eexists. split; [|exact He]. done.
Qed.

(** A vote that is accepted, or is older than the one that is kept. *)
Lemma accept_newer root votes latest pk v :
  NoDup votes.*1 -> (pk, v) ∈ votes -> root.1 <= v.1 ->
  exists w, foldl (accept root) latest votes !! pk = Some w
    /\ (w = v \/ (latest !! pk = Some w /\ outdated v w = true)).
Proof.
  assert (Hskip : forall l lat, pk ∉ l.*1 -> foldl (accept root) lat l !! pk = lat !! pk).
  { induction l as [|[pk' v'] l IH]; intros lat Hnot; cbn; [done|].
    apply not_elem_of_cons in Hnot as [Hne Hnot]. rewrite IH by done. unfold accept.
    destruct (v'.1 <? root.1); [done|]. case_match; [done|]. by rewrite lookup_insert_ne. }
  revert latest. induction votes as [|[pk' v'] l IH]; intros latest Hn Hin Hr; [by apply not_elem_of_nil in Hin|].
  cbn in Hn |- *. apply NoDup_cons in Hn as [Hpk Hn]. apply elem_of_cons in Hin as [[= <- <-]|Hin].
  - rewrite Hskip by done. unfold accept. rewrite (proj2 (Z.ltb_ge _ _) Hr).
    destruct (latest !! pk) as [old|] eqn:Ho; [|rewrite lookup_insert_eq; eauto].
    destruct (outdated v old) eqn:Eo; [rewrite Ho; eauto|rewrite lookup_insert_eq; eauto].
  - assert (Hne : pk <> pk').
    { intros ->. apply Hpk, list_elem_of_fmap. by exists (pk', v). }
    destruct (IH (accept root latest (pk', v')) Hn Hin Hr) as (w & Hw & Hcase). exists w. split; [done|].
    destruct Hcase as [|[Hl Hout]]; [by left|right]. split; [|done]. rewrite <- Hl. unfold accept.
    destruct (v'.1 <? root.1); [done|]. case_match; [done|]. by rewrite lookup_insert_ne.
Qed.

Lemma voters_sublist root votes : NoDup votes.*1 -> NoDup (voters root votes).
Proof. intros Hn. eapply sublist_NoDup; [exact Hn|]. apply fmap_sublist, sublist_filter. Qed.

(** The votes seen in replay reach the fork choice.  From every buffer that votes and
    drains lead to, recording a vote does not panic; and if no validator waits with two
    versions of a slot at or above the root, draining the buffer into the fork choice
    returns, leaves nothing waiting, and every waiting vote becomes the latest vote of
    its validator unless the fork choice knows a newer one. *)
Theorem votes_reach_fork_choice epoch_stakes epoch_schedule fc lv :
  stakes_ok epoch_stakes -> fc_reachable epoch_stakes epoch_schedule fc ->
  rtc lv_step lv_default lv ->
  (forall pk slot hash is_replay_vote, exists lv' r,
     check_add_vote lv pk slot hash is_replay_vote = Returns (lv', r))
  /\ ((forall pk s hs, fork_choice_dirty_set lv !! pk = Some (s, hs) -> (fc_root fc).1 <= s -> (length hs <= 1)%nat) ->
  exists fc' lv', compute_bank_stats fc lv epoch_stakes epoch_schedule = Returns (fc', lv')
    /\ fork_choice_dirty_set lv' = ∅ /\ max_replay_frozen_votes lv' = max_replay_frozen_votes lv
    /\ forall pk s h, fork_choice_dirty_set lv !! pk = Some (s, [h]) -> (fc_root fc).1 <= s ->
         exists v, latest_votes fc' !! pk = Some v
           /\ (v = (s, h) \/ (latest_votes fc !! pk = Some v /\ outdated (s, h) v = true))).
Proof.
  intros Hst Hr Hlvr. split.
  { intros pk slot hash replay. destruct (check_add_vote_ok lv pk slot hash replay) as (lv1 & r & H & _); [|eauto].
    by apply lv_reachable_ok. }
  intros Hone. pose proof (fc_reachable_ok _ _ Hst _ Hr) as Hok.
  pose proof (taken_voters lv (fc_root fc).1 Hone) as Hn.
  destruct (add_votes_ok fc (take_votes_dirty_set lv (fc_root fc).1).2 epoch_stakes epoch_schedule
              (stake_nonneg _ epoch_schedule Hst) Hok (voters_sublist _ _ Hn))
    as (fc' & b & H & _ & _ & _ & Hlv & _).
  unfold compute_bank_stats. destruct (take_votes_dirty_set lv (fc_root fc).1) as [lv' votes] eqn:Ht.
  cbn [snd] in H, Hlv, Hn. rewrite H. cbn [mbind outcome_bind]. exists fc', lv'. split; [done|].
  assert (Hlv' : lv' = (take_votes_dirty_set lv (fc_root fc).1).1) by (by rewrite Ht). rewrite Hlv'.
  split; [done|]. split; [done|]. intros pk s h Hd Hs. rewrite Hlv. apply accept_newer; [done| |done].
  assert (Hv : votes = (take_votes_dirty_set lv (fc_root fc).1).2) by (by rewrite Ht). rewrite Hv.
  apply elem_of_taken. split; [done|]. exists [h]. split; [done|]. by left.
Qed.

(** A second version of a slot is lost once the dirty set was drained: it waits under
    slot zero, and the next drain leaves it out. *)
Theorem second_version_lost lv pk slot hashes hash root :
  max_replay_frozen_votes lv !! pk = Some (slot, hashes) -> hash ∉ hashes ->
  fork_choice_dirty_set lv !! pk = None -> 0 < root ->
  exists lv', check_add_vote lv pk slot (Some hash) true = Returns (lv', (true, Some slot))
    /\ fork_choice_dirty_set lv' !! pk = Some (0, [hash])
    /\ forall v, (pk, v) ∉ (take_votes_dirty_set lv' root).2.
Proof.
  intros Hr Hh Hd Hroot. unfold check_add_vote, vote_map, dirty_entry. rewrite Hr, Hd.
  rewrite Z.ltb_irrefl, Z.eqb_refl, (proj2 (contains_hash_false hash hashes) Hh). cbn.
  eexists. split; [done|]. split; [cbn; by rewrite lookup_insert_eq|].
  intros [s h] [Hs (hs & Hhs & _)]%elem_of_taken. cbn in Hhs. rewrite lookup_insert_eq in Hhs.
  injection Hhs as <- _. lia.
Qed.

(** Two versions of a slot in one batch stop the fork choice. *)
Theorem two_versions_panic fc lv epoch_stakes epoch_schedule pk slot h1 h2 hashes :
  fork_choice_dirty_set lv !! pk = Some (slot, h1 :: h2 :: hashes) -> (fc_root fc).1 <= slot ->
  compute_bank_stats fc lv epoch_stakes epoch_schedule = Panics.
Proof.
  intros Hd Hr. unfold compute_bank_stats.
  destruct (take_votes_dirty_set lv (fc_root fc).1) as [lv' votes] eqn:Ht.
  destruct (add_votes fc votes epoch_stakes epoch_schedule) as [r|] eqn:Ha; [|done]. exfalso.
  apply add_votes_voters in Ha. unfold voters in Ha.
  assert (Hv : votes = (take_votes_dirty_set lv (fc_root fc).1).2) by (by rewrite Ht).
  cbn [take_votes_dirty_set snd] in Hv. apply elem_of_map_to_list in Hd.
  assert (Hin : (pk, (slot, h1 :: h2 :: hashes)) ∈ filter (fun e => ((fc_root fc).1 <=? e.2.1) = true)
                   (map_to_list (fork_choice_dirty_set lv))).
  { apply list_elem_of_filter. split; [by apply Z.leb_le|done]. }
  apply list_elem_of_split in Hin as (l1 & l2 & Hl). rewrite Hl, flat_map_app in Hv. cbn in Hv.
  rewrite Hv, filter_app, fmap_app in Ha. apply NoDup_app in Ha as (_ & _ & Ha).
  rewrite !filter_cons in Ha. cbn in Ha. rewrite (proj2 (Z.ltb_ge _ _) Hr) in Ha.
  rewrite !decide_True in Ha by done. apply NoDup_cons in Ha as [Ha _]. apply Ha. by left.
Qed.

(** ** Witnesses *)

Module BufferSample.

Definition buffer (o : outcome (LatestValidatorVotesForFrozenBanks * (bool * option Slot)))
    : LatestValidatorVotesForFrozenBanks :=
  match o with Returns (lv, _) => lv | Panics => lv_default end.

(** The first validator moves from block B to block C. *)
Definition one_vote : LatestValidatorVotesForFrozenBanks :=
  Eval vm_compute in buffer (check_add_vote lv_default 1%N 13 (Some 4%N) true).

Definition drained : LatestValidatorVotesForFrozenBanks :=
  Eval vm_compute in (take_votes_dirty_set one_vote 10).1.

Lemma one_vote_reachable : rtc lv_step lv_default one_vote.
Proof.
  apply rtc_once, (lv_vote _ 1%N 13 (Some 4%N) true _ (true, Some 13)). vm_compute. reflexivity.
Qed.

End BufferSample.

Lemma votes_reach_fork_choice_witness :
  (forall pk slot hash is_replay_vote, exists lv' r,
     check_add_vote BufferSample.one_vote pk slot hash is_replay_vote = Returns (lv', r))
  /\ ((forall pk s hs, fork_choice_dirty_set BufferSample.one_vote !! pk = Some (s, hs) ->
         (fc_root ForkSample.voted).1 <= s -> (length hs <= 1)%nat) ->
  exists fc' lv', compute_bank_stats ForkSample.voted BufferSample.one_vote ForkSample.stakes
                    ForkSample.schedule = Returns (fc', lv')
    /\ fork_choice_dirty_set lv' = ∅
    /\ max_replay_frozen_votes lv' = max_replay_frozen_votes BufferSample.one_vote
    /\ forall pk s h, fork_choice_dirty_set BufferSample.one_vote !! pk = Some (s, [h]) ->
         (fc_root ForkSample.voted).1 <= s ->
         exists v, latest_votes fc' !! pk = Some v
           /\ (v = (s, h) \/ (latest_votes ForkSample.voted !! pk = Some v /\ outdated (s, h) v = true))).
Proof.
  apply (votes_reach_fork_choice ForkSample.stakes ForkSample.schedule).
  - exact ForkSample.stakes_are_ok.
  - exact ForkSample.voted_reachable.
  - exact BufferSample.one_vote_reachable.
Defined.

Lemma second_version_lost_witness :
  exists lv', check_add_vote BufferSample.drained 1%N 13 (Some 2%N) true = Returns (lv', (true, Some 13))
    /\ fork_choice_dirty_set lv' !! 1%N = Some (0, [2%N])
    /\ forall v, (1%N, v) ∉ (take_votes_dirty_set lv' 10).2.
Proof.
  apply (second_version_lost BufferSample.drained 1%N 13 [4%N] 2%N 10).
  - vm_compute. reflexivity.
  - intros [?|[]%not_elem_of_nil]%elem_of_cons. discriminate.
  - vm_compute. reflexivity.
  - reflexivity.
Defined.
