(* ===== verification/ClusterSlots.v ===== *)
(** * Agreeing with the cluster on duplicate blocks

    [core/src/cluster_slot_state_verifier.rs]: a leader may produce several versions
    of its block.  Five signals arrive in any order: this validator froze a version
    or found the slot dead, saw that the slot has several versions, saw that the
    cluster confirmed one of them, or sampled which version others have frozen.
    [check_slot_agrees_with_cluster] turns a signal into changes of the fork choice
    and of the set of slots to repair.  [process_gossip_duplicate_confirmed_slots]
    and its siblings are the handlers of [core/src/replay_stage.rs] that receive the
    signals.

    The column of the blockstore with the frozen hashes is a map, and the channel to
    the ancestor hashes service is the list of what was sent. *)

From S2P Require Import Prelude EpochSchedule ForkChoice.

Inductive ClusterConfirmedHash :=
| CC_DuplicateConfirmed (hash : Hash)
| CC_EpochSlotsFrozen (hash : Hash).

Inductive BankStatus := BS_Frozen (hash : Hash) | BS_Dead | BS_Unprocessed.

(** [BankStatus::new]. *)
Definition bank_status_new (is_dead : bool) (hash : option Hash) : BankStatus :=
  if is_dead then BS_Dead
  else match hash with
       | Some hash => if (hash =? 0)%N then BS_Unprocessed else BS_Frozen hash
       | None => BS_Unprocessed
       end.

Definition bs_bank_hash (s : BankStatus) : option Hash :=
  match s with BS_Frozen hash => Some hash | BS_Dead => Some 0%N | BS_Unprocessed => None end.

Definition bs_is_dead (s : BankStatus) : bool :=
  match s with BS_Dead => true | _ => false end.

Record DeadState := { ds_cluster_confirmed_hash : option ClusterConfirmedHash; ds_is_slot_duplicate : bool }.

Record BankFrozenState := {
  bf_frozen_hash : Hash;
  bf_cluster_confirmed_hash : option ClusterConfirmedHash;
  bf_is_slot_duplicate : bool;
}.

Record DuplicateConfirmedState := { dc_hash : Hash; dc_bank_status : BankStatus }.

Record DuplicateState := { du_duplicate_confirmed_hash : option Hash; du_bank_status : BankStatus }.

Record EpochSlotsFrozenState := {
  ef_hash : Hash;
  ef_duplicate_confirmed_hash : option Hash;
  ef_bank_status : BankStatus;
}.

Inductive SlotStateUpdate :=
| SU_BankFrozen (s : BankFrozenState)
| SU_DuplicateConfirmed (s : DuplicateConfirmedState)
| SU_Dead (s : DeadState)
| SU_Duplicate (s : DuplicateState)
| SU_EpochSlotsFrozen (s : EpochSlotsFrozenState).

Inductive AncestorHashesReplayUpdate := AH_Dead (slot : Slot) | AH_DeadDuplicateConfirmed (slot : Slot).

Inductive ResultingStateChange :=
| RS_BankFrozen (hash : Hash)
| RS_MarkSlotDuplicate (hash : Hash)
| RS_RepairDuplicateConfirmedVersion (hash : Hash)
| RS_DuplicateConfirmedSlotMatchesCluster (hash : Hash)
| RS_SendAncestorHashesReplayUpdate (update : AncestorHashesReplayUpdate).

(** [SlotStateUpdate::bank_hash]. *)
Definition su_bank_hash (u : SlotStateUpdate) : option Hash :=
  match u with
  | SU_BankFrozen s => Some (bf_frozen_hash s)
  | SU_DuplicateConfirmed s => bs_bank_hash (dc_bank_status s)
  | SU_Dead _ => Some 0%N
  | SU_Duplicate s => bs_bank_hash (du_bank_status s)
  | SU_EpochSlotsFrozen s => bs_bank_hash (ef_bank_status s)
  end.

(** ** What a signal changes *)

Definition check_duplicate_confirmed_hash_against_frozen_hash (duplicate_confirmed_hash bank_frozen_hash : Hash)
    : list ResultingStateChange :=
  if negb (duplicate_confirmed_hash =? bank_frozen_hash)%N
  then [RS_MarkSlotDuplicate bank_frozen_hash; RS_RepairDuplicateConfirmedVersion duplicate_confirmed_hash]
  else [RS_DuplicateConfirmedSlotMatchesCluster bank_frozen_hash].

Definition check_epoch_slots_hash_against_frozen_hash (epoch_slots_frozen_hash bank_frozen_hash : Hash)
    : list ResultingStateChange :=
  if negb (epoch_slots_frozen_hash =? bank_frozen_hash)%N
  then [RS_MarkSlotDuplicate bank_frozen_hash; RS_RepairDuplicateConfirmedVersion epoch_slots_frozen_hash]
  else [].

Definition on_dead_slot (slot : Slot) (s : DeadState) : list ResultingStateChange :=
  match ds_cluster_confirmed_hash s with
  | Some (CC_DuplicateConfirmed h) =>
      RS_SendAncestorHashesReplayUpdate (AH_DeadDuplicateConfirmed slot)
        :: check_duplicate_confirmed_hash_against_frozen_hash h 0%N
  | Some (CC_EpochSlotsFrozen h) => check_epoch_slots_hash_against_frozen_hash h 0%N
  | None =>
      RS_SendAncestorHashesReplayUpdate (AH_Dead slot)
        :: (if ds_is_slot_duplicate s then [RS_MarkSlotDuplicate 0%N] else [])
  end.

Definition on_frozen_slot (s : BankFrozenState) : list ResultingStateChange :=
  RS_BankFrozen (bf_frozen_hash s)
    :: match bf_cluster_confirmed_hash s with
       | Some (CC_DuplicateConfirmed h) =>
           check_duplicate_confirmed_hash_against_frozen_hash h (bf_frozen_hash s)
       | Some (CC_EpochSlotsFrozen h) => check_epoch_slots_hash_against_frozen_hash h (bf_frozen_hash s)
       | None => if bf_is_slot_duplicate s then [RS_MarkSlotDuplicate (bf_frozen_hash s)] else []
       end.

Definition on_duplicate_confirmed (slot : Slot) (s : DuplicateConfirmedState) : list ResultingStateChange :=
  match bs_bank_hash (dc_bank_status s) with
  | None => []
  | Some bank_hash =>
      (if bs_is_dead (dc_bank_status s)
       then [RS_SendAncestorHashesReplayUpdate (AH_DeadDuplicateConfirmed slot)] else [])
        ++ check_duplicate_confirmed_hash_against_frozen_hash (dc_hash s) bank_hash
  end.

Definition on_duplicate (s : DuplicateState) : list ResultingStateChange :=
  match bs_bank_hash (du_bank_status s) with
  | None => []
  | Some bank_hash =>
      match du_duplicate_confirmed_hash s with None => [RS_MarkSlotDuplicate bank_hash] | Some _ => [] end
  end.

Definition on_epoch_slots_frozen (s : EpochSlotsFrozenState) : list ResultingStateChange :=
  match ef_duplicate_confirmed_hash s with
  | Some _ => []
  | None =>
      match bs_bank_hash (ef_bank_status s) with
      | None => []
      | Some frozen_hash => check_epoch_slots_hash_against_frozen_hash (ef_hash s) frozen_hash
      end
  end.

(** [SlotStateUpdate::into_state_changes]. *)
Definition into_state_changes (u : SlotStateUpdate) (slot : Slot) : list ResultingStateChange :=
  match su_bank_hash u with
  | None => []
  | Some _ =>
      match u with
      | SU_Dead s => on_dead_slot slot s
      | SU_BankFrozen s => on_frozen_slot s
      | SU_DuplicateConfirmed s => on_duplicate_confirmed slot s
      | SU_Duplicate s => on_duplicate s
      | SU_EpochSlotsFrozen s => on_epoch_slots_frozen s
      end
  end.

(** ** The state *)

Record ClusterState := {
  cs_fork_choice : HeaviestSubtreeForkChoice;
  duplicate_slots_tracker : gset Slot;
  gossip_duplicate_confirmed_slots : gmap Slot Hash;
  epoch_slots_frozen_slots : gmap Slot Hash;
  duplicate_slots_to_repair : gmap Slot Hash;
  (** The [BankHash] column of the blockstore: the frozen hash and whether it is
      duplicate confirmed. *)
  bank_hashes : gmap Slot (Hash * bool);
  (** The updates sent to the ancestor hashes service. *)
  sent_updates : list AncestorHashesReplayUpdate;
}.

Definition cs_with (cs : ClusterState) (fc : HeaviestSubtreeForkChoice) (repair : gmap Slot Hash)
    (hashes : gmap Slot (Hash * bool)) (sent : list AncestorHashesReplayUpdate) : ClusterState :=
  {| cs_fork_choice := fc; duplicate_slots_tracker := duplicate_slots_tracker cs;
     gossip_duplicate_confirmed_slots := gossip_duplicate_confirmed_slots cs;
     epoch_slots_frozen_slots := epoch_slots_frozen_slots cs; duplicate_slots_to_repair := repair;
     bank_hashes := hashes; sent_updates := sent |}.

Definition cs_note_duplicate (cs : ClusterState) (slot : Slot) : ClusterState :=
  {| cs_fork_choice := cs_fork_choice cs; duplicate_slots_tracker := {[slot]} ∪ duplicate_slots_tracker cs;
     gossip_duplicate_confirmed_slots := gossip_duplicate_confirmed_slots cs;
     epoch_slots_frozen_slots := epoch_slots_frozen_slots cs;
     duplicate_slots_to_repair := duplicate_slots_to_repair cs; bank_hashes := bank_hashes cs;
     sent_updates := sent_updates cs |}.

Definition cs_note_confirmed (cs : ClusterState) (slot : Slot) (hash : Hash) : ClusterState :=
  {| cs_fork_choice := cs_fork_choice cs; duplicate_slots_tracker := duplicate_slots_tracker cs;
     gossip_duplicate_confirmed_slots := <[slot := hash]> (gossip_duplicate_confirmed_slots cs);
     epoch_slots_frozen_slots := epoch_slots_frozen_slots cs;
     duplicate_slots_to_repair := duplicate_slots_to_repair cs; bank_hashes := bank_hashes cs;
     sent_updates := sent_updates cs |}.

Definition cs_note_epoch_slots (cs : ClusterState) (slot : Slot) (hash : Hash) : ClusterState :=
  {| cs_fork_choice := cs_fork_choice cs; duplicate_slots_tracker := duplicate_slots_tracker cs;
     gossip_duplicate_confirmed_slots := gossip_duplicate_confirmed_slots cs;
     epoch_slots_frozen_slots := <[slot := hash]> (epoch_slots_frozen_slots cs);
     duplicate_slots_to_repair := duplicate_slots_to_repair cs; bank_hashes := bank_hashes cs;
     sent_updates := sent_updates cs |}.

(** [Blockstore::insert_bank_hash]. *)
Definition insert_bank_hash (hashes : gmap Slot (Hash * bool)) (slot : Slot) (frozen_hash : Hash)
    (is_duplicate_confirmed : bool) : gmap Slot (Hash * bool) :=
  match hashes !! slot with
  | Some (h, true) => if (h =? frozen_hash)%N then hashes
                      else <[slot := (frozen_hash, is_duplicate_confirmed)]> hashes
  | _ => <[slot := (frozen_hash, is_duplicate_confirmed)]> hashes
  end.

(** [Blockstore::set_duplicate_confirmed_slots_and_hashes]. *)
Definition set_duplicate_confirmed_slots_and_hashes (hashes : gmap Slot (Hash * bool))
    (keys : list SlotHashKey) : gmap Slot (Hash * bool) :=
  foldl (fun m key => <[key.1 := (key.2, true)]> m) hashes keys.

(** One iteration of [apply_state_changes]; the second component is
    [not_duplicate_confirmed_frozen_hash]. *)
Definition apply_state_change (slot : Slot) (cs : ClusterState) (pending : option Hash)
    (change : ResultingStateChange) : outcome (ClusterState * option Hash) :=
  match change with
  | RS_BankFrozen h =>
      confirmed ← unwrap (is_duplicate_confirmed (cs_fork_choice cs) (slot, h));
      Returns (cs, if negb confirmed then Some h else pending)
  | RS_MarkSlotDuplicate h =>
      fc ← mark_fork_invalid_candidate (cs_fork_choice cs) (slot, h);
      Returns (cs_with cs fc (duplicate_slots_to_repair cs) (bank_hashes cs) (sent_updates cs), pending)
  | RS_RepairDuplicateConfirmedVersion h =>
      Returns (cs_with cs (cs_fork_choice cs) (<[slot := h]> (duplicate_slots_to_repair cs))
                 (bank_hashes cs) (sent_updates cs), pending)
  | RS_DuplicateConfirmedSlotMatchesCluster h =>
      '(fc, newly) ← mark_fork_valid_candidate (cs_fork_choice cs) (slot, h);
      Returns (cs_with cs fc (delete slot (duplicate_slots_to_repair cs))
                 (set_duplicate_confirmed_slots_and_hashes (bank_hashes cs) newly) (sent_updates cs), None)
  | RS_SendAncestorHashesReplayUpdate u =>
      Returns (cs_with cs (cs_fork_choice cs) (duplicate_slots_to_repair cs) (bank_hashes cs)
                 (sent_updates cs ++ [u]), pending)
  end.

Fixpoint apply_changes (slot : Slot) (cs : ClusterState) (pending : option Hash)
    (changes : list ResultingStateChange) : outcome (ClusterState * option Hash) :=
  match changes with
  | [] => Returns (cs, pending)
  | change :: rest =>
      '(cs, pending) ← apply_state_change slot cs pending change;
      apply_changes slot cs pending rest
  end.

(** [apply_state_changes]. *)
Definition apply_state_changes (slot : Slot) (cs : ClusterState) (changes : list ResultingStateChange)
    : outcome ClusterState :=
  '(cs, pending) ← apply_changes slot cs None changes;
  Returns (match pending with
           | Some frozen_hash =>
               cs_with cs (cs_fork_choice cs) (duplicate_slots_to_repair cs)
                 (insert_bank_hash (bank_hashes cs) slot frozen_hash false) (sent_updates cs)
           | None => cs
           end).

(** [check_slot_agrees_with_cluster]. *)
Definition check_slot_agrees_with_cluster (slot root : Slot) (cs : ClusterState) (u : SlotStateUpdate)
    : outcome ClusterState :=
  if slot <=? root then Returns cs
  else
    match u with
    | SU_Duplicate _ =>
        if decide (slot ∈ duplicate_slots_tracker cs) then Returns cs
        else apply_state_changes slot (cs_note_duplicate cs slot) (into_state_changes u slot)
    | SU_DuplicateConfirmed s =>
        if match bs_bank_hash (dc_bank_status s) with
           | Some h => bool_decide (is_duplicate_confirmed (cs_fork_choice cs) (slot, h) = Some true)
           | None => false
           end
        then Returns cs
        else apply_state_changes slot cs (into_state_changes u slot)
    | SU_EpochSlotsFrozen s =>
        let cs' := cs_note_epoch_slots cs slot (ef_hash s) in
        if bool_decide (epoch_slots_frozen_slots cs !! slot = Some (ef_hash s)) then Returns cs'
        else apply_state_changes slot cs' (into_state_changes u slot)
    | _ => apply_state_changes slot cs (into_state_changes u slot)
    end.

(** ** The signals *)

(** [get_duplicate_confirmed_hash]. *)
Definition get_duplicate_confirmed_hash (gossip_duplicate_confirmed_hash bank_frozen_hash : option Hash)
    (is_local_replay_duplicate_confirmed : bool) : outcome (option Hash) :=
  local_duplicate_confirmed_hash ←
    (if is_local_replay_duplicate_confirmed then
       h ← unwrap bank_frozen_hash;
       _ ← assert_ (negb (h =? 0)%N);
       Returns (Some h)
     else Returns None);
  Returns (match local_duplicate_confirmed_hash with
           | Some h => Some h
           | None => gossip_duplicate_confirmed_hash
           end).

(** [get_duplicate_confirmed_hash_from_state]. *)
Definition get_duplicate_confirmed_hash_from_state (slot : Slot) (cs : ClusterState)
    (bank_frozen_hash : option Hash) : outcome (option Hash) :=
  get_duplicate_confirmed_hash (gossip_duplicate_confirmed_slots cs !! slot) bank_frozen_hash
    (match bank_frozen_hash with
     | Some h => default false (is_duplicate_confirmed (cs_fork_choice cs) (slot, h))
     | None => false
     end).

(** [get_cluster_confirmed_hash_from_state]. *)
Definition get_cluster_confirmed_hash_from_state (slot : Slot) (cs : ClusterState)
    (bank_frozen_hash : option Hash) : outcome (option ClusterConfirmedHash) :=
  confirmed ← get_duplicate_confirmed_hash_from_state slot cs bank_frozen_hash;
  Returns (match confirmed with
           | Some h => Some (CC_DuplicateConfirmed h)
           | None => CC_EpochSlotsFrozen <$> epoch_slots_frozen_slots cs !! slot
           end).

(** [BankFrozenState::new_from_state] and the check, as [replay_active_banks] does it
    for a bank it has frozen. *)
Definition on_bank_frozen (slot root : Slot) (hash : Hash) (cs : ClusterState) : outcome ClusterState :=
  confirmed ← get_cluster_confirmed_hash_from_state slot cs (Some hash);
  _ ← assert_ (negb (hash =? 0)%N);
  check_slot_agrees_with_cluster slot root cs
    (SU_BankFrozen {| bf_frozen_hash := hash; bf_cluster_confirmed_hash := confirmed;
                      bf_is_slot_duplicate := bool_decide (slot ∈ duplicate_slots_tracker cs) |}).

(** [DeadState::new_from_state] and the check, as in [mark_dead_slot]. *)
Definition on_bank_dead (slot root : Slot) (cs : ClusterState) : outcome ClusterState :=
  confirmed ← get_cluster_confirmed_hash_from_state slot cs (Some 0%N);
  check_slot_agrees_with_cluster slot root cs
    (SU_Dead {| ds_cluster_confirmed_hash := confirmed;
                ds_is_slot_duplicate := bool_decide (slot ∈ duplicate_slots_tracker cs) |}).

(** [DuplicateState::new_from_state] and the check, for one slot of
    [process_duplicate_slots]. *)
Definition on_duplicate_slot (slot root : Slot) (is_dead : bool) (bank_hash : option Hash)
    (cs : ClusterState) : outcome ClusterState :=
  let status := bank_status_new is_dead bank_hash in
  confirmed ← get_duplicate_confirmed_hash_from_state slot cs (bs_bank_hash status);
  check_slot_agrees_with_cluster slot root cs
    (SU_Duplicate {| du_duplicate_confirmed_hash := confirmed; du_bank_status := status |}).

(** [EpochSlotsFrozenState::new_from_state] and the check, for one slot of
    [process_epoch_slots_frozen_dead_slots]. *)
Definition on_epoch_slots (slot root : Slot) (hash : Hash) (is_dead : bool) (bank_hash : option Hash)
    (cs : ClusterState) : outcome ClusterState :=
  let status := bank_status_new is_dead bank_hash in
  confirmed ← get_duplicate_confirmed_hash_from_state slot cs (bs_bank_hash status);
  check_slot_agrees_with_cluster slot root cs
    (SU_EpochSlotsFrozen {| ef_hash := hash; ef_duplicate_confirmed_hash := confirmed;
                            ef_bank_status := status |}).

(** [DuplicateConfirmedState::new_from_state] and the check. *)
Definition on_confirmed_slot (slot root : Slot) (hash : Hash) (is_dead : bool) (bank_hash : option Hash)
    (cs : ClusterState) : outcome ClusterState :=
  check_slot_agrees_with_cluster slot root cs
    (SU_DuplicateConfirmed {| dc_hash := hash; dc_bank_status := bank_status_new is_dead bank_hash |}).

(** The loop over one batch of [process_gossip_duplicate_confirmed_slots]; [None] is
    the [return] from the whole function. [dead] and [hash_of] are what the progress
    map and [BankForks] say of a slot. *)
Fixpoint gossip_confirmed_batch (root : Slot) (dead : Slot -> bool) (hash_of : Slot -> option Hash)
    (cs : ClusterState) (batch : list (Slot * Hash)) : outcome (ClusterState * bool) :=
  match batch with
  | [] => Returns (cs, true)
  | (slot, hash) :: rest =>
      if slot <=? root then gossip_confirmed_batch root dead hash_of cs rest
      else
        let prev := gossip_duplicate_confirmed_slots cs !! slot in
        let cs := cs_note_confirmed cs slot hash in
        match prev with
        | Some prev_hash =>
            _ ← assert_ (prev_hash =? hash)%N;
            Returns (cs, false)
        | None =>
            cs ← on_confirmed_slot slot root hash (dead slot) (hash_of slot) cs;
            gossip_confirmed_batch root dead hash_of cs rest
        end
  end.

(** [process_gossip_duplicate_confirmed_slots]: the state, and the batches that are
    still in the channel. *)
Fixpoint process_gossip_duplicate_confirmed_slots (root : Slot) (dead : Slot -> bool)
    (hash_of : Slot -> option Hash) (cs : ClusterState) (batches : list (list (Slot * Hash)))
    : outcome (ClusterState * list (list (Slot * Hash))) :=
  match batches with
  | [] => Returns (cs, [])
  | batch :: rest =>
      '(cs, continue) ← gossip_confirmed_batch root dead hash_of cs batch;
      if (continue : bool) then process_gossip_duplicate_confirmed_slots root dead hash_of cs rest
      else Returns (cs, rest)
  end.
