(* ===== verification/ClusterSlotsSafety.v ===== *)
(** * Duplicate blocks and the fork choice

    Every signal about a slot leaves the fork choice consistent and does not panic;
    a confirmation and the freezing of the local version, in either order, make the
    local version and its descendants candidates or exclude them, according to
    whether it is the confirmed one. *)

From S2P Require Import Prelude EpochSchedule ForkChoice ForkTree ForkUpdate ForkVotes ForkGrow ForkMarks ForkGhost ForkSample ClusterSlots.

(** ** The invariant *)

(** The fork choice satisfies its invariant, no block above the root has the default
    hash, and no version with that hash was confirmed. *)
Record cs_ok (stake : Slot -> Pubkey -> Z) (root : Slot) (cs : ClusterState) : Prop := {
  cs_root : 0 <= root;
  cs_fc : fc_ok stake (cs_fork_choice cs);
  cs_hashes : forall s, root < s -> contains_block (cs_fork_choice cs) (s, 0%N) = false;
  cs_gossip : forall s h, gossip_duplicate_confirmed_slots cs !! s = Some h -> h <> 0%N;
  cs_epoch_slots : forall s h, epoch_slots_frozen_slots cs !! s = Some h -> h <> 0%N;
}.

(** What the replay of a slot has come to: dead, or frozen and in the fork choice. *)
Definition status_ok (cs : ClusterState) (slot : Slot) (st : BankStatus) : Prop :=
  match st with
  | BS_Frozen h => h <> 0%N /\ contains_block (cs_fork_choice cs) (slot, h) = true
  | _ => True
  end.

(** Only the fork choice, the repair map, the column of hashes and the sent updates
    differ, and the blocks of the fork choice are the same. *)
Record cs_same (cs cs' : ClusterState) : Prop := {
  same_tracker : duplicate_slots_tracker cs' = duplicate_slots_tracker cs;
  same_gossip : gossip_duplicate_confirmed_slots cs' = gossip_duplicate_confirmed_slots cs;
  same_epoch : epoch_slots_frozen_slots cs' = epoch_slots_frozen_slots cs;
  same_links : links (fork_infos (cs_fork_choice cs')) = links (fork_infos (cs_fork_choice cs));
}.

(** The version is confirmed and eligible. *)
Definition accepted (cs : ClusterState) (slot : Slot) (h : Hash) : Prop :=
  is_duplicate_confirmed (cs_fork_choice cs) (slot, h) = Some true
  /\ is_candidate (cs_fork_choice cs) (slot, h) = Some true.

(** Nothing at or below the version is eligible. *)
Definition excluded (cs : ClusterState) (slot : Slot) (h : Hash) : Prop :=
  forall d, descends (cs_fork_choice cs) (slot, h) d = true ->
    is_candidate (cs_fork_choice cs) d = Some false.

Lemma cs_same_refl cs : cs_same cs cs.
Proof. by constructor. Qed.

Lemma cs_same_trans cs1 cs2 cs3 : cs_same cs1 cs2 -> cs_same cs2 cs3 -> cs_same cs1 cs3.
Proof. intros [????] [????]. constructor; congruence. Qed.

Lemma same_contains cs cs' k :
  cs_same cs cs' -> contains_block (cs_fork_choice cs') k = contains_block (cs_fork_choice cs) k.
Proof.
  intros [_ _ _ Hl]. apply eq_true_iff_eq. rewrite !contains_block_spec, <- !links_is_Some. by rewrite Hl.
Qed.

Lemma cs_ok_same stake root cs cs' :
  cs_ok stake root cs -> cs_same cs cs' -> fc_ok stake (cs_fork_choice cs') -> cs_ok stake root cs'.
Proof.
  intros [H0 _ Hz Hg He] Hs Hfc. constructor; [done|done| | |].
  - intros s Hs'. rewrite (same_contains _ _ _ Hs). auto.
  - rewrite (same_gossip _ _ Hs). done.
  - rewrite (same_epoch _ _ Hs). done.
Qed.

Lemma key_not_default stake root cs slot h : cs_ok stake root cs -> root < slot -> (slot, h) <> slot_hash_default.
Proof. intros [H0 _ _ _ _] Hs. unfold slot_hash_default. intros [= ->]. lia. Qed.

Lemma descends_same stake cs cs' k d :
  fc_ok stake (cs_fork_choice cs) -> fc_ok stake (cs_fork_choice cs') -> cs_same cs cs' ->
  descends (cs_fork_choice cs') k d = descends (cs_fork_choice cs) k d.
Proof.
  intros H1 H2 [_ _ _ Hl]. apply eq_true_iff_eq. rewrite (descends_spec _ _ H1), (descends_spec _ _ H2).
  rewrite <- !links_is_Some. by rewrite Hl.
Qed.

(** ** Single changes *)

Section Changes.
Context (stake : Slot -> Pubkey -> Z) (root slot : Slot).
Hypothesis Hslot : root < slot.

Lemma mark_duplicate_change cs pending h :
  cs_ok stake root cs -> is_duplicate_confirmed (cs_fork_choice cs) (slot, h) <> Some true ->
  exists cs', apply_state_change slot cs pending (RS_MarkSlotDuplicate h) = Returns (cs', pending)
    /\ cs_ok stake root cs' /\ cs_same cs cs' /\ excluded cs' slot h.
Proof.
  intros Hok Hc. pose proof (cs_fc _ _ _ Hok) as Hfc.
  destruct (invalid_returns stake _ Hfc (slot, h) Hc) as (fc' & E & _ & Hl & Hex); [by eapply key_not_default|].
  assert (fc_ok stake fc') as Hfc'.
  { unfold mark_fork_invalid_candidate in E. destruct (fork_infos (cs_fork_choice cs) !! (slot, h)) as [fi|] eqn:Ek;
      [|by injection E as <-].
    unfold is_duplicate_confirmed in Hc. rewrite Ek in Hc. cbn in Hc.
    destruct (mark_invalid_ok stake _ (slot, h) fi Hfc Ek) as (fc2 & E2 & ? & _);
      [destruct (fi_is_duplicate_confirmed fi); congruence|by eapply key_not_default|].
    unfold mark_fork_invalid_candidate in E2. rewrite Ek in E2. congruence. }
  eexists. unfold apply_state_change. rewrite E. cbn [mbind outcome_bind]. split; [done|].
  assert (cs_same cs (cs_with cs fc' (duplicate_slots_to_repair cs) (bank_hashes cs) (sent_updates cs))) as Hs
    by (by constructor).
  split; [by eapply cs_ok_same|]. split; [done|]. intros d Hd. apply Hex.
  by rewrite (descends_same stake cs (cs_with cs fc' _ _ _) _ _ Hfc Hfc' Hs) in Hd.
Qed.

Lemma matches_cluster_change cs pending h :
  cs_ok stake root cs -> contains_block (cs_fork_choice cs) (slot, h) = true ->
  exists cs', apply_state_change slot cs pending (RS_DuplicateConfirmedSlotMatchesCluster h) = Returns (cs', None)
    /\ cs_ok stake root cs' /\ cs_same cs cs' /\ accepted cs' slot h
    /\ duplicate_slots_to_repair cs' = delete slot (duplicate_slots_to_repair cs).
Proof.
  intros Hok Hin%contains_block_spec. pose proof (cs_fc _ _ _ Hok) as Hfc.
  destruct (mark_valid_ok stake _ (slot, h) Hfc Hin) as (fc' & E & Hfc' & _ & _ & Hl & Hconf & _);
    [by eapply key_not_default|].
  eexists. unfold apply_state_change. rewrite E. cbn [mbind outcome_bind]. split; [done|]. split; [eapply cs_ok_same; [done|by constructor|done]|].
  split; [by constructor|]. split; [|done]. apply Hconf, reach_refl.
Qed.

(** The outcome of comparing the confirmed version with the local one. *)
Definition compared (confirmed local : Hash) (cs' : ClusterState) : Prop :=
  (confirmed = local -> accepted cs' slot local /\ duplicate_slots_to_repair cs' !! slot = None)
  /\ (confirmed <> local -> excluded cs' slot local /\ duplicate_slots_to_repair cs' !! slot = Some confirmed).

Lemma check_confirmed_changes cs pending h h0 :
  cs_ok stake root cs ->
  (h = h0 -> contains_block (cs_fork_choice cs) (slot, h0) = true) ->
  (h <> h0 -> is_duplicate_confirmed (cs_fork_choice cs) (slot, h0) <> Some true) ->
  exists cs' p, apply_changes slot cs pending (check_duplicate_confirmed_hash_against_frozen_hash h h0)
      = Returns (cs', p)
    /\ cs_ok stake root cs' /\ cs_same cs cs' /\ compared h h0 cs'.
Proof.
  intros Hok Heq Hne. unfold check_duplicate_confirmed_hash_against_frozen_hash.
  destruct (N.eqb_spec h h0) as [E|E]; cbn [negb apply_changes].
  - destruct (matches_cluster_change cs pending h0 Hok (Heq E)) as (cs' & -> & ? & ? & ? & Hr). cbn.
    eexists _, _. split; [done|]. split_and!; [done..|]. split; [|done].
    intros _. split; [done|]. rewrite Hr. apply lookup_delete_eq.
  - destruct (mark_duplicate_change cs pending h0 Hok (Hne E)) as (cs' & -> & Hok' & [] & ?). cbn.
    eexists _, _. split; [done|]. split; [eapply (cs_ok_same _ _ cs'); [done|by constructor|exact (cs_fc _ _ _ Hok')]|].
    split; [by constructor|]. split; [done|]. intros _. split; [done|]. apply lookup_insert_eq.
Qed.

Lemma check_epoch_slots_changes cs pending h h0 :
  cs_ok stake root cs ->
  (h <> h0 -> is_duplicate_confirmed (cs_fork_choice cs) (slot, h0) <> Some true) ->
  exists cs', apply_changes slot cs pending (check_epoch_slots_hash_against_frozen_hash h h0)
      = Returns (cs', pending)
    /\ cs_ok stake root cs' /\ cs_same cs cs' /\ (h = h0 -> cs' = cs)
    /\ (h <> h0 -> excluded cs' slot h0 /\ duplicate_slots_to_repair cs' !! slot = Some h).
Proof.
  intros Hok Hne. unfold check_epoch_slots_hash_against_frozen_hash.
  destruct (N.eqb_spec h h0) as [E|E]; cbn [negb apply_changes].
  - eexists. split; [done|]. split_and!; [done|apply cs_same_refl|done|done].
  - destruct (mark_duplicate_change cs pending h0 Hok (Hne E)) as (cs' & -> & Hok' & [] & ?). cbn.
    eexists. split; [done|]. split; [eapply (cs_ok_same _ _ cs'); [done|by constructor|exact (cs_fc _ _ _ Hok')]|].
    split; [by constructor|]. split; [done|]. intros _. split; [done|]. apply lookup_insert_eq.
Qed.
End Changes.

(** ** The signals *)

(** Equal up to the hashes noted in the blockstore. *)
Definition cs_agree (cs1 cs' : ClusterState) : Prop :=
  cs_fork_choice cs' = cs_fork_choice cs1 /\ duplicate_slots_to_repair cs' = duplicate_slots_to_repair cs1.

Lemma compared_agree slot h h0 cs1 cs' : cs_agree cs1 cs' -> compared slot h h0 cs1 -> compared slot h h0 cs'.
Proof. intros [E1 E2]. unfold compared, accepted, excluded. by rewrite E1, E2. Qed.

(** A frozen hash that was not confirmed is noted in the blockstore last. *)
Lemma finish_changes stake root slot cs l cs1 p :
  apply_changes slot cs None l = Returns (cs1, p) -> cs_ok stake root cs1 -> cs_same cs cs1 ->
  exists cs', apply_state_changes slot cs l = Returns cs' /\ cs_ok stake root cs' /\ cs_same cs cs'
    /\ cs_agree cs1 cs'.
Proof.
  intros E Hok [????]. unfold apply_state_changes. rewrite E. cbn [mbind outcome_bind].
  destruct p as [h|]; eexists; (split; [done|]); (split; [|by split_and!]); [|done].
  eapply (cs_ok_same _ _ cs1); [done|by constructor|exact (cs_fc _ _ _ Hok)].
Qed.

Lemma confirmed_hash_ok stake root slot cs bh :
  root < slot -> cs_ok stake root cs ->
  exists r, get_duplicate_confirmed_hash_from_state slot cs bh = Returns r
    /\ (forall h, r = Some h -> h <> 0%N)
    /\ (forall h0, bh = Some h0 -> is_duplicate_confirmed (cs_fork_choice cs) (slot, h0) = Some true -> r = Some h0)
    /\ ((forall h0, bh = Some h0 -> is_duplicate_confirmed (cs_fork_choice cs) (slot, h0) <> Some true) ->
          r = gossip_duplicate_confirmed_slots cs !! slot).
Proof.
  intros Hs Hok. unfold get_duplicate_confirmed_hash_from_state, get_duplicate_confirmed_hash.
  assert (forall h, gossip_duplicate_confirmed_slots cs !! slot = Some h -> h <> 0%N) as Hg
    by (intros h; apply (cs_gossip _ _ _ Hok)).
  destruct bh as [h0|]; [|cbn; eexists; split_and!; [done|done|done|done]].
  destruct (is_duplicate_confirmed (cs_fork_choice cs) (slot, h0)) as [[|]|] eqn:E; cbn.
  - assert (h0 <> 0%N) as Hne.
    { intros ->. pose proof (cs_hashes _ _ _ Hok slot Hs) as Hz. unfold is_duplicate_confirmed, contains_block in *.
      by destruct (fork_infos (cs_fork_choice cs) !! (slot, 0%N)). }
    apply N.eqb_neq in Hne as Hb. rewrite Hb. cbn. eexists. split_and!; [done|congruence|congruence|].
    intros Hno. by destruct (Hno h0 eq_refl).
  - eexists. split_and!; [done|done| |done]. intros ? [= <-]. congruence.
  - eexists. split_and!; [done|done| |done]. intros ? [= <-]. congruence.
Qed.

Inductive ClusterSignal :=
| SigFrozen (hash : Hash)
| SigDead
| SigDuplicate (is_dead : bool) (bank_hash : option Hash)
| SigEpochSlots (hash : Hash) (is_dead : bool) (bank_hash : option Hash)
| SigConfirmed (hash : Hash) (is_dead : bool) (bank_hash : option Hash).

Definition handle_signal (slot root : Slot) (sig : ClusterSignal) (cs : ClusterState) : outcome ClusterState :=
  match sig with
  | SigFrozen h => on_bank_frozen slot root h cs
  | SigDead => on_bank_dead slot root cs
  | SigDuplicate d bh => on_duplicate_slot slot root d bh cs
  | SigEpochSlots h d bh => on_epoch_slots slot root h d bh cs
  | SigConfirmed h d bh => on_confirmed_slot slot root h d bh cs
  end.

(** Signals name real versions, and frozen banks are in the fork choice. *)
Definition signal_ok (cs : ClusterState) (slot : Slot) (sig : ClusterSignal) : Prop :=
  match sig with
  | SigFrozen h => status_ok cs slot (BS_Frozen h)
  | SigDead => True
  | SigDuplicate d bh => status_ok cs slot (bank_status_new d bh)
  | SigEpochSlots h d bh | SigConfirmed h d bh => h <> 0%N /\ status_ok cs slot (bank_status_new d bh)
  end.

Section Signals.
Context (stake : Slot -> Pubkey -> Z) (root slot : Slot).
Hypothesis Hslot : root < slot.

Lemma confirmed_contains cs h :
  is_duplicate_confirmed (cs_fork_choice cs) (slot, h) = Some true ->
  contains_block (cs_fork_choice cs) (slot, h) = true.
Proof.
  unfold is_duplicate_confirmed, contains_block. by destruct (fork_infos (cs_fork_choice cs) !! (slot, h)).
Qed.

Lemma dead_not_confirmed cs :
  cs_ok stake root cs -> is_duplicate_confirmed (cs_fork_choice cs) (slot, 0%N) <> Some true.
Proof.
  intros Hok H%confirmed_contains. by rewrite (cs_hashes _ _ _ Hok slot Hslot) in H.
Qed.

(** The changes after a bank was frozen, for the confirmed hash [r]. *)
Lemma frozen_changes cs h0 r c pending :
  cs_ok stake root cs -> is_duplicate_confirmed (cs_fork_choice cs) (slot, h0) = Some c ->
  (forall h, r = Some (CC_DuplicateConfirmed h) -> h <> h0 -> c <> true) ->
  (forall h, r = Some (CC_EpochSlotsFrozen h) -> c <> true) -> (r = None -> c <> true) ->
  exists cs1 p,
    apply_changes slot cs pending
      match r with
      | Some (CC_DuplicateConfirmed h) => check_duplicate_confirmed_hash_against_frozen_hash h h0
      | Some (CC_EpochSlotsFrozen h) => check_epoch_slots_hash_against_frozen_hash h h0
      | None => if bool_decide (slot ∈ duplicate_slots_tracker cs) then [RS_MarkSlotDuplicate h0] else []
      end = Returns (cs1, p)
    /\ cs_ok stake root cs1 /\ cs_same cs cs1
    /\ (forall h, r = Some (CC_DuplicateConfirmed h) -> compared slot h h0 cs1)
    /\ (r = Some (CC_EpochSlotsFrozen h0) -> cs1 = cs).
Proof.
  intros Hok Hc H1 H2 H3. assert (contains_block (cs_fork_choice cs) (slot, h0) = true) as Hin.
  { unfold is_duplicate_confirmed, contains_block in *. by destruct (fork_infos _ !! _). }
  destruct r as [[h|h]|].
  - destruct (check_confirmed_changes stake root slot Hslot cs pending h h0 Hok) as (cs1 & p & ? & ? & ? & ?);
      [done|intros Hh; rewrite Hc; intros [= Ht]; by apply (H1 h)|].
    exists cs1, p. split_and!; try done. by intros ? [= <-].
  - destruct (check_epoch_slots_changes stake root slot Hslot cs pending h h0 Hok) as (cs1 & ? & ? & ? & ? & _);
      [intros _; rewrite Hc; intros [= Ht]; by apply (H2 h)|].
    exists cs1, pending. split_and!; try done. intros [= ->]. auto.
  - destruct (bool_decide _); [|exists cs, pending; split_and!; [done|done|apply cs_same_refl|done|done]].
    destruct (mark_duplicate_change stake root slot Hslot cs pending h0 Hok) as (cs1 & E & ? & ? & _);
      [rewrite Hc; intros [= Ht]; by apply H3|].
    exists cs1, pending. cbn [apply_changes]. rewrite E. done.
Qed.

(** A frozen bank, with what the cluster has confirmed. *)
Lemma frozen_ok cs h0 :
  cs_ok stake root cs -> status_ok cs slot (BS_Frozen h0) ->
  exists cs', on_bank_frozen slot root h0 cs = Returns cs' /\ cs_ok stake root cs' /\ cs_same cs cs'
    /\ (forall h, is_duplicate_confirmed (cs_fork_choice cs) (slot, h0) <> Some true ->
          gossip_duplicate_confirmed_slots cs !! slot = Some h -> compared slot h h0 cs')
    /\ (is_duplicate_confirmed (cs_fork_choice cs) (slot, h0) <> Some true ->
          gossip_duplicate_confirmed_slots cs !! slot = None ->
          epoch_slots_frozen_slots cs !! slot = Some h0 -> cs_fork_choice cs' = cs_fork_choice cs)
    /\ (is_duplicate_confirmed (cs_fork_choice cs) (slot, h0) = Some true -> compared slot h0 h0 cs').
Proof.
  intros Hok [Hne Hin]. unfold on_bank_frozen, get_cluster_confirmed_hash_from_state.
  destruct (confirmed_hash_ok stake root slot cs (Some h0) Hslot Hok) as (r & -> & _ & Hloc & Hgos).
  cbn [mbind outcome_bind]. apply N.eqb_neq in Hne as ->. cbn [negb assert_ mbind outcome_bind].
  unfold check_slot_agrees_with_cluster. replace (slot <=? root) with false by (symmetry; apply Z.leb_gt; lia).
  unfold into_state_changes, on_frozen_slot. cbn [su_bank_hash bf_frozen_hash bf_cluster_confirmed_hash bf_is_slot_duplicate].
  assert (exists c, is_duplicate_confirmed (cs_fork_choice cs) (slot, h0) = Some c) as [c Hc].
  { unfold is_duplicate_confirmed, contains_block in *. destruct (fork_infos _ !! _); [cbn; eauto|done]. }
  assert (c = true -> r = Some h0) as Hr by (intros ->; by apply Hloc).
  assert (c <> true -> r = gossip_duplicate_confirmed_slots cs !! slot) as Hg.
  { intros Hct. apply Hgos. intros ? [= <-]. rewrite Hc. congruence. }
  set (cc := match r with Some h => Some (CC_DuplicateConfirmed h) | None => _ end).
  destruct (frozen_changes cs h0 cc c (if negb c then Some h0 else None) Hok Hc) as (cs1 & p & E1 & Hok1 & Hs1 & Hcmp & Hsame).
  - intros h Hcc Hh Ht. unfold cc in Hcc. rewrite (Hr Ht) in Hcc. congruence.
  - intros h Hcc Ht. unfold cc in Hcc. rewrite (Hr Ht) in Hcc. congruence.
  - intros Hcc Ht. unfold cc in Hcc. rewrite (Hr Ht) in Hcc. congruence.
  - destruct (finish_changes stake root slot cs (RS_BankFrozen h0 :: match cc with
        | Some (CC_DuplicateConfirmed h) => check_duplicate_confirmed_hash_against_frozen_hash h h0
        | Some (CC_EpochSlotsFrozen h) => check_epoch_slots_hash_against_frozen_hash h h0
        | None => if bool_decide (slot ∈ duplicate_slots_tracker cs) then [RS_MarkSlotDuplicate h0] else []
        end) cs1 p) as (cs' & E & ? & ? & Ha); [|done|done|].
    { cbn [apply_changes apply_state_change]. rewrite Hc. cbn [unwrap mbind outcome_bind]. exact E1. }
    exists cs'. split; [exact E|]. split_and!; [done|done| | |].
    + intros h Hno Hh. apply (compared_agree _ _ _ cs1); [done|]. apply Hcmp. unfold cc.
      rewrite Hg, Hh; [done|]. congruence.
    + intros Hno Hn He. rewrite (proj1 Ha). f_equal. apply Hsame. unfold cc. rewrite Hg, Hn, He; [done|]. congruence.
    + intros Hyes. apply (compared_agree _ _ _ cs1); [done|]. apply Hcmp. unfold cc. rewrite Hr; [done|congruence].
Qed.

Lemma above_root : (slot <=? root) = false.
Proof. apply Z.leb_gt. lia. Qed.

(** The hash of a bank that was not dead is in the fork choice; a dead bank has the
    default hash. *)
Lemma status_hash cs st h :
  cs_ok stake root cs -> status_ok cs slot st -> bs_bank_hash st = Some h ->
  (h = 0%N /\ st = BS_Dead) \/ (h <> 0%N /\ contains_block (cs_fork_choice cs) (slot, h) = true).
Proof. intros Hok Hst. destruct st; cbn; [intros [= <-]; right; apply Hst|intros [= <-]; by left|done]. Qed.

Lemma confirmed_ok cs h st :
  cs_ok stake root cs -> status_ok cs slot st -> h <> 0%N ->
  exists cs', check_slot_agrees_with_cluster slot root cs
      (SU_DuplicateConfirmed {| dc_hash := h; dc_bank_status := st |}) = Returns cs'
    /\ cs_ok stake root cs'
    /\ (forall h0, bs_bank_hash st = Some h0 -> is_duplicate_confirmed (cs_fork_choice cs) (slot, h0) <> Some true ->
          compared slot h h0 cs')
    /\ (forall h0, bs_bank_hash st = Some h0 -> is_duplicate_confirmed (cs_fork_choice cs) (slot, h0) = Some true ->
          cs' = cs).
Proof.
  intros Hok Hst Hh. unfold check_slot_agrees_with_cluster. rewrite above_root. cbn [dc_bank_status].
  destruct (bs_bank_hash st) as [h0|] eqn:Eh.
  2:{ unfold into_state_changes. cbn [su_bank_hash dc_bank_status]. rewrite Eh. exists cs. by split_and!. }
  destruct (bool_decide_reflect (is_duplicate_confirmed (cs_fork_choice cs) (slot, h0) = Some true)) as [Hc|Hc].
  { exists cs. split_and!; [done|done| |done]. by intros ? [= <-]. }
  unfold into_state_changes, on_duplicate_confirmed. cbn [su_bank_hash dc_bank_status dc_hash]. rewrite Eh.
  set (cs0 := if bs_is_dead st then cs_with cs (cs_fork_choice cs) (duplicate_slots_to_repair cs) (bank_hashes cs)
    (sent_updates cs ++ [AH_DeadDuplicateConfirmed slot]) else cs).
  assert (cs_same cs cs0) as Hs0 by (unfold cs0; destruct (bs_is_dead st); by constructor).
  assert (cs_fork_choice cs0 = cs_fork_choice cs) as Hf0 by (unfold cs0; by destruct (bs_is_dead st)).
  assert (cs_ok stake root cs0) as Hok0 by (eapply cs_ok_same; [done|done|rewrite Hf0; apply Hok]).
  destruct (check_confirmed_changes stake root slot Hslot cs0 None h h0 Hok0) as (cs1 & p & E1 & Hok1 & Hs1 & Hcmp);
    rewrite ?Hf0; [|done|].
  { intros ->. by destruct (status_hash cs st h0 Hok Hst Eh) as [[-> _]|[_ ?]]. }
  destruct (finish_changes stake root slot cs ((if bs_is_dead st
      then [RS_SendAncestorHashesReplayUpdate (AH_DeadDuplicateConfirmed slot)] else [])
        ++ check_duplicate_confirmed_hash_against_frozen_hash h h0) cs1 p) as (cs' & -> & ? & ? & Ha);
    [|done|by eapply cs_same_trans|].
  { rewrite <- E1. unfold cs0. by destruct (bs_is_dead st). }
  exists cs'. split_and!; [done|done| |by intros ? [= <-]]. intros ? [= <-] _. by eapply compared_agree.
Qed.

Lemma duplicate_ok cs dead bh :
  cs_ok stake root cs -> status_ok cs slot (bank_status_new dead bh) ->
  exists cs', on_duplicate_slot slot root dead bh cs = Returns cs' /\ cs_ok stake root cs'
    /\ (forall h0, bs_bank_hash (bank_status_new dead bh) = Some h0 -> slot ∉ duplicate_slots_tracker cs ->
          gossip_duplicate_confirmed_slots cs !! slot = None ->
          is_duplicate_confirmed (cs_fork_choice cs) (slot, h0) <> Some true -> excluded cs' slot h0).
Proof.
  intros Hok Hst. unfold on_duplicate_slot. set (st := bank_status_new dead bh) in *.
  destruct (confirmed_hash_ok stake root slot cs (bs_bank_hash st) Hslot Hok) as (r & -> & _ & Hloc & Hg).
  cbn [mbind outcome_bind]. unfold check_slot_agrees_with_cluster. rewrite above_root.
  destruct (decide (slot ∈ duplicate_slots_tracker cs)) as [Hin|Hin].
  { exists cs. split_and!; [done|done|]. by intros h0 _ Hno. }
  assert (cs_ok stake root (cs_note_duplicate cs slot)) as Hok' by (by destruct Hok; constructor).
  unfold into_state_changes, on_duplicate. cbn [su_bank_hash du_bank_status du_duplicate_confirmed_hash].
  destruct (bs_bank_hash st) as [h0|] eqn:Eh; [|by exists (cs_note_duplicate cs slot)].
  destruct r as [h|].
  { exists (cs_note_duplicate cs slot). split_and!; [done|done|]. intros ? [= <-] _ Hn Hno.
    assert (Some h = None); [|done]. rewrite <- Hn. apply Hg. by intros ? [= <-]. }
  destruct (mark_duplicate_change stake root slot Hslot (cs_note_duplicate cs slot) None h0 Hok') as (cs1 & E1 & Hok1 & Hs1 & Hex).
  { intros Hc. by specialize (Hloc h0 eq_refl Hc). }
  destruct (finish_changes stake root slot (cs_note_duplicate cs slot) [RS_MarkSlotDuplicate h0] cs1 None) as (cs' & -> & ? & ? & [Ef _]);
    [cbn [apply_changes]; by rewrite E1|done|done|].
  exists cs'. split_and!; [done|done|]. intros ? [= <-] _ _ _. unfold excluded. by rewrite Ef.
Qed.

Lemma epoch_slots_ok cs h dead bh :
  cs_ok stake root cs -> status_ok cs slot (bank_status_new dead bh) -> h <> 0%N ->
  exists cs', on_epoch_slots slot root h dead bh cs = Returns cs' /\ cs_ok stake root cs'.
Proof.
  intros Hok Hst Hh. unfold on_epoch_slots. set (st := bank_status_new dead bh) in *.
  destruct (confirmed_hash_ok stake root slot cs (bs_bank_hash st) Hslot Hok) as (r & -> & _ & Hloc & _).
  cbn [mbind outcome_bind]. unfold check_slot_agrees_with_cluster. rewrite above_root. cbn [ef_hash].
  assert (cs_ok stake root (cs_note_epoch_slots cs slot h)) as Hok'.
  { destruct Hok as [? ? ? ? He]. constructor; try done. cbn. intros s h'.
    destruct (decide (s = slot)) as [->|]; [rewrite lookup_insert_eq; congruence|rewrite lookup_insert_ne by done; eauto]. }
  destruct (bool_decide _); [by eexists|].
  unfold into_state_changes, on_epoch_slots_frozen. cbn [su_bank_hash ef_bank_status ef_hash ef_duplicate_confirmed_hash].
  destruct (bs_bank_hash st) as [h0|] eqn:Eh; [|by eexists]. destruct r as [hc|]; [by eexists|].
  destruct (check_epoch_slots_changes stake root slot Hslot (cs_note_epoch_slots cs slot h) None h h0 Hok')
    as (cs1 & E1 & Hok1 & Hs1 & _); [intros _ Hc; by specialize (Hloc h0 eq_refl Hc)|].
  destruct (finish_changes stake root slot _ _ _ _ E1 Hok1 Hs1) as (cs' & -> & ? & _). eauto.
Qed.

Lemma dead_ok cs :
  cs_ok stake root cs -> exists cs', on_bank_dead slot root cs = Returns cs' /\ cs_ok stake root cs'.
Proof.
  intros Hok. unfold on_bank_dead, get_cluster_confirmed_hash_from_state.
  destruct (confirmed_hash_ok stake root slot cs (Some 0%N) Hslot Hok) as (r & -> & Hr0 & _ & Hg).
  cbn [mbind outcome_bind]. unfold check_slot_agrees_with_cluster. rewrite above_root.
  unfold into_state_changes, on_dead_slot. cbn [su_bank_hash ds_cluster_confirmed_hash ds_is_slot_duplicate].
  pose proof (dead_not_confirmed cs Hok) as Hno.
  set (sent u := cs_with cs (cs_fork_choice cs) (duplicate_slots_to_repair cs) (bank_hashes cs) (sent_updates cs ++ [u])).
  assert (forall u, cs_ok stake root (sent u)) as Hoks by (intros u; eapply cs_ok_same; [done|by constructor|apply Hok]).
  destruct r as [h|]; [|destruct (epoch_slots_frozen_slots cs !! slot) as [h|] eqn:Ee; cbn [fmap option_fmap option_map]].
  - destruct (check_confirmed_changes stake root slot Hslot (sent (AH_DeadDuplicateConfirmed slot)) None h 0%N (Hoks _))
      as (cs1 & p & E1 & Hok1 & Hs1 & _); [intros ->; by destruct (Hr0 0%N)|done|].
    destruct (finish_changes stake root slot cs (RS_SendAncestorHashesReplayUpdate (AH_DeadDuplicateConfirmed slot)
      :: check_duplicate_confirmed_hash_against_frozen_hash h 0%N) cs1 p E1 Hok1) as (cs' & -> & ? & _); [by destruct Hs1|eauto].
  - destruct (check_epoch_slots_changes stake root slot Hslot cs None h 0%N Hok) as (cs1 & E1 & Hok1 & Hs1 & _); [done|].
    destruct (finish_changes stake root slot _ _ _ _ E1 Hok1 Hs1) as (cs' & -> & ? & _). eauto.
  - destruct (bool_decide _); [|by exists (sent (AH_Dead slot))].
    destruct (mark_duplicate_change stake root slot Hslot (sent (AH_Dead slot)) None 0%N (Hoks _)) as (cs1 & E1 & Hok1 & Hs1 & _);
      [done|].
    destruct (finish_changes stake root slot cs [RS_SendAncestorHashesReplayUpdate (AH_Dead slot); RS_MarkSlotDuplicate 0%N] cs1 None)
      as (cs' & -> & ? & _); [|done|by destruct Hs1|eauto].
    cbn [apply_changes apply_state_change mbind outcome_bind]. fold (sent (AH_Dead slot)).
    unfold apply_state_change in E1. by rewrite E1.
Qed.
End Signals.

(** ** What the signals promise *)

(** C23: No signal about a slot above the root panics or breaks the fork choice.  The
    five signals may come in any order: the frozen bank, a dead slot, a duplicate, a
    sampled version and a confirmed version. *)
Theorem cluster_signals_return stake root slot cs sig :
  cs_ok stake root cs -> signal_ok cs slot sig -> root < slot ->
  exists cs', handle_signal slot root sig cs = Returns cs' /\ cs_ok stake root cs'.
Proof.
  intros Hok Hsig Hslot. destruct sig as [h| |d bh|h d bh|h d bh]; cbn in Hsig |- *.
  - destruct (frozen_ok stake root slot Hslot cs h Hok Hsig) as (cs' & ? & ? & _). eauto.
  - by apply dead_ok.
  - destruct (duplicate_ok stake root slot Hslot cs d bh Hok Hsig) as (cs' & ? & ? & _). eauto.
  - destruct Hsig. by apply epoch_slots_ok.
  - destruct Hsig as [Hh Hst].
    destruct (confirmed_ok stake root slot Hslot cs h _ Hok Hst Hh) as (cs' & ? & ? & _). eauto.
Qed.

(** C14: The confirmed version decides, whichever of the two signals comes last, and the
    first confirmation of the local version is final.  Once this validator has frozen a
    version of a slot and the cluster has confirmed one, and the fork choice does not have
    the local version as confirmed yet, the local version ends confirmed and eligible, and
    not to be repaired, if it is the confirmed one; otherwise neither it nor anything built
    on it is eligible, and the confirmed version is to be repaired.  If the fork choice has
    the local version as confirmed already, a later confirmation of whatever version
    changes nothing, and freezing the bank leaves it confirmed and eligible. *)
Theorem confirmation_decides stake root slot cs confirmed local :
  cs_ok stake root cs -> status_ok cs slot (BS_Frozen local) -> root < slot -> confirmed <> 0%N ->
  (exists cs', on_confirmed_slot slot root confirmed false (Some local) cs = Returns cs'
     /\ (is_duplicate_confirmed (cs_fork_choice cs) (slot, local) <> Some true -> compared slot confirmed local cs')
     /\ (is_duplicate_confirmed (cs_fork_choice cs) (slot, local) = Some true -> cs' = cs))
  /\ (gossip_duplicate_confirmed_slots cs !! slot = Some confirmed ->
      exists cs', on_bank_frozen slot root local cs = Returns cs'
        /\ (is_duplicate_confirmed (cs_fork_choice cs) (slot, local) <> Some true -> compared slot confirmed local cs')
        /\ (is_duplicate_confirmed (cs_fork_choice cs) (slot, local) = Some true -> compared slot local local cs')).
Proof.
  intros Hok Hst Hslot Hh. split.
  - destruct (confirmed_ok stake root slot Hslot cs confirmed (BS_Frozen local) Hok Hst Hh) as (cs' & E & _ & Hc & Hs).
    exists cs'. split_and!; [|by apply Hc|by apply Hs]. unfold on_confirmed_slot, bank_status_new.
    destruct Hst as [Hl _]. apply N.eqb_neq in Hl as ->. exact E.
  - intros Hg. destruct (frozen_ok stake root slot Hslot cs local Hok Hst) as (cs' & E & _ & _ & Hc & _ & Hs). eauto.
Qed.

(** A duplicate slot may stay eligible, depending on the order of the signals.
    Where other validators' samples agree with the local version, a duplicate signal
    after the bank was frozen excludes the version, but freezing it after the
    duplicate signal leaves the fork choice as it is. *)
Theorem duplicate_order_matters stake root slot cs local :
  cs_ok stake root cs -> status_ok cs slot (BS_Frozen local) -> root < slot ->
  is_duplicate_confirmed (cs_fork_choice cs) (slot, local) <> Some true ->
  gossip_duplicate_confirmed_slots cs !! slot = None ->
  epoch_slots_frozen_slots cs !! slot = Some local ->
  (slot ∈ duplicate_slots_tracker cs ->
     exists cs', on_bank_frozen slot root local cs = Returns cs' /\ cs_fork_choice cs' = cs_fork_choice cs)
  /\ (slot ∉ duplicate_slots_tracker cs ->
     exists cs', on_duplicate_slot slot root false (Some local) cs = Returns cs' /\ excluded cs' slot local).
Proof.
  intros Hok Hst Hslot Hno Hg He. split.
  - intros _. destruct (frozen_ok stake root slot Hslot cs local Hok Hst) as (cs' & E & _ & _ & _ & Hc & _). eauto.
  - intros Hin. assert (bank_status_new false (Some local) = BS_Frozen local) as Hbs.
    { unfold bank_status_new. destruct Hst as [Hl _]. apply N.eqb_neq in Hl as ->. done. }
    destruct (duplicate_ok stake root slot Hslot cs false (Some local) Hok) as (cs' & E & _ & Hex);
      rewrite Hbs in *; [done|]. exists cs'. split; [done|]. by apply Hex.
Qed.

(** A confirmation that was already seen ends the whole batch: the confirmations after
    it are neither recorded nor acted upon. *)
Theorem repeated_confirmation_drops_batch root dead hash_of cs slot hash rest batches :
  root < slot -> gossip_duplicate_confirmed_slots cs !! slot = Some hash ->
  process_gossip_duplicate_confirmed_slots root dead hash_of cs (((slot, hash) :: rest) :: batches)
  = Returns (cs, batches).
Proof.
  intros Hslot Hg. cbn [process_gossip_duplicate_confirmed_slots gossip_confirmed_batch].
  replace (slot <=? root) with false by (symmetry; apply Z.leb_gt; lia). rewrite Hg, N.eqb_refl.
  cbn [assert_ mbind outcome_bind]. f_equal. f_equal. unfold cs_note_confirmed. rewrite insert_id by done.
  by destruct cs.
Qed.

(** ** A sample *)

Module ClusterSample.

(** Block A of the sample fork choice is the local version of slot 11; the cluster has
    been seen to freeze the same version. *)
Definition state : ClusterState :=
  {| cs_fork_choice := ForkSample.voted; duplicate_slots_tracker := ∅;
     gossip_duplicate_confirmed_slots := ∅; epoch_slots_frozen_slots := {[ 11 := 2%N ]};
     duplicate_slots_to_repair := ∅; bank_hashes := ∅; sent_updates := [] |}.

Lemma state_ok : cs_ok (stake_at ForkSample.stakes ForkSample.schedule) 10 state.
Proof.
  constructor; cbn [cs_fork_choice gossip_duplicate_confirmed_slots epoch_slots_frozen_slots state].
  - lia.
  - apply (fc_reachable_ok ForkSample.stakes ForkSample.schedule ForkSample.stakes_are_ok).
    exact ForkSample.voted_reachable.
  - intros s _. unfold contains_block. destruct (fork_infos ForkSample.voted !! (s, 0%N)) as [fi|] eqn:E; [|done].
    exfalso. apply elem_of_map_to_list in E. vm_compute in E.
    repeat (apply elem_of_cons in E as [E|E]; [discriminate E|]). by apply not_elem_of_nil in E.
  - intros s h. by rewrite lookup_empty.
  - intros s h [_ <-]%lookup_singleton_Some. done.
Qed.

Lemma local_ok : status_ok state 11 (BS_Frozen 2%N).
Proof. split; [done|vm_compute; reflexivity]. Qed.

End ClusterSample.

Lemma cluster_signals_return_witness :
  exists cs', handle_signal 11 10 (SigConfirmed 9%N false (Some 2%N)) ClusterSample.state = Returns cs'
    /\ cs_ok (stake_at ForkSample.stakes ForkSample.schedule) 10 cs'.
Proof.
  apply (cluster_signals_return (stake_at ForkSample.stakes ForkSample.schedule) 10 11 ClusterSample.state).
  - exact ClusterSample.state_ok.
  - split; [done|exact ClusterSample.local_ok].
  - lia.
Defined.

Lemma confirmation_decides_witness :
  exists cs', on_confirmed_slot 11 10 9%N false (Some 2%N) ClusterSample.state = Returns cs'
    /\ compared 11 9%N 2%N cs'.
Proof.
  destruct (confirmation_decides (stake_at ForkSample.stakes ForkSample.schedule) 10 11 ClusterSample.state 9%N 2%N)
    as [(cs' & E & Hc & _) _].
  - exact ClusterSample.state_ok.
  - exact ClusterSample.local_ok.
  - lia.
  - done.
  - exists cs'. split; [exact E|]. apply Hc. vm_compute. discriminate.
Defined.

Lemma duplicate_order_matters_witness :
  exists cs', on_duplicate_slot 11 10 false (Some 2%N) ClusterSample.state = Returns cs'
    /\ excluded cs' 11 2%N.
Proof.
  destruct (duplicate_order_matters (stake_at ForkSample.stakes ForkSample.schedule) 10 11 ClusterSample.state 2%N
    ClusterSample.state_ok ClusterSample.local_ok) as [_ H].
  - lia.
  - vm_compute. discriminate.
  - reflexivity.
  - reflexivity.
  - apply H. apply not_elem_of_empty.
Defined.
