(* ===== verification/SlotHistory.v ===== *)
(** * Slot history

    [sdk/program/src/slot_history.rs]: which of the last [MAX_ENTRIES] slots
    were rooted, one bit for each slot modulo [MAX_ENTRIES].  The [BitVec] of
    [MAX_ENTRIES] bits is the set of the positions that are set.

    [slot_history_check] shows that the ring of bits answers exactly the
    question about the set of all slots ever added, for the slots of its window. *)

From S2P Require Import Prelude.

Definition MAX_ENTRIES : Z := 1024 * 1024.

Record SlotHistory := { bits : gset Z; next_slot : Slot }.

Inductive SlotCheck := Future | TooOld | Found | NotFound.

#[global] Instance SlotCheck_eq_dec : EqDecision SlotCheck.
Proof. solve_decision. Defined.

(** [SlotHistory::default]. *)
Definition sh_default : SlotHistory := {| bits := {[0]}; next_slot := 1 |}.

(** [for skipped in self.next_slot..slot { self.bits.set(skipped % MAX_ENTRIES, false) }]. *)
Definition clear_skipped (b : gset Z) (next_slot slot : Slot) : gset Z :=
  foldl (fun b skipped => b ∖ {[skipped mod MAX_ENTRIES]}) b (seqZ next_slot (slot - next_slot)).

(** [SlotHistory::add]. *)
Definition sh_add (sh : SlotHistory) (slot : Slot) : SlotHistory :=
  let b := if (next_slot sh <? slot) && (MAX_ENTRIES <=? slot - next_slot sh) then ∅
           else clear_skipped (bits sh) (next_slot sh) slot in
  {| bits := {[slot mod MAX_ENTRIES]} ∪ b; next_slot := wrap64 (slot + 1) |}.

Definition sh_oldest (sh : SlotHistory) : Slot := sat_sub64 (next_slot sh) MAX_ENTRIES.

Definition sh_newest (sh : SlotHistory) : Slot := wrap64 (next_slot sh - 1).

(** [SlotHistory::check]. *)
Definition sh_check (sh : SlotHistory) (slot : Slot) : SlotCheck :=
  if sh_newest sh <? slot then Future
  else if slot <? sh_oldest sh then TooOld
  else if decide (slot mod MAX_ENTRIES ∈ bits sh) then Found
  else NotFound.

(** ** The history as a set of slots *)

(** What a history of the slots [added], the last of which is [newest], answers. *)
Definition check_spec (added : gset Slot) (newest slot : Slot) : SlotCheck :=
  if newest <? slot then Future
  else if slot <? newest + 1 - MAX_ENTRIES then TooOld
  else if decide (slot ∈ added) then Found
  else NotFound.

(** The histories [add] builds from the default one, with slots that increase, the
    set of slots added and the newest of them. *)
Inductive sh_history : SlotHistory -> gset Slot -> Slot -> Prop :=
| history_default : sh_history sh_default {[0]} 0
| history_add sh added newest slot :
    sh_history sh added newest -> newest < slot < U64_MAX ->
    sh_history (sh_add sh slot) ({[slot]} ∪ added) slot.

(** The bits agree with the set on the window. *)
Record sh_ok (sh : SlotHistory) (added : gset Slot) (newest : Slot) : Prop := {
  sh_range : 0 <= newest < U64_MAX;
  sh_next : next_slot sh = newest + 1;
  sh_added : forall s, s ∈ added -> 0 <= s <= newest;
  sh_bits : forall s, 0 <= s -> newest + 1 - MAX_ENTRIES <= s <= newest ->
    s mod MAX_ENTRIES ∈ bits sh <-> s ∈ added;
}.

Lemma elem_of_clear_skipped b next slot x :
  x ∈ clear_skipped b next slot <->
    x ∈ b /\ forall s, next <= s < slot -> x <> s mod MAX_ENTRIES.
Proof.
  unfold clear_skipped.
  assert (forall l b', x ∈ foldl (fun b skipped => b ∖ {[skipped mod MAX_ENTRIES]}) b' l <->
    x ∈ b' /\ forall s, s ∈ l -> x <> s mod MAX_ENTRIES) as ->.
  { induction l as [|s l IH]; intros b'; cbn; [set_solver|]. rewrite IH. set_solver. }
  setoid_rewrite elem_of_seqZ. split; intros [? Hs]; (split; [done|]); intros s ?; apply Hs; lia.
Qed.

(** Two slots of one window share no bit. *)
Lemma window_mod lo a b :
  lo <= a < lo + MAX_ENTRIES -> lo <= b < lo + MAX_ENTRIES ->
  a mod MAX_ENTRIES = b mod MAX_ENTRIES -> a = b.
Proof. unfold MAX_ENTRIES. Z.to_euclidean_division_equations. lia. Qed.

Lemma sh_add_ok sh added newest slot :
  sh_ok sh added newest -> newest < slot < U64_MAX -> sh_ok (sh_add sh slot) ({[slot]} ∪ added) slot.
Proof.
  intros [Hr Hn Ha Hb] Hs. constructor; cbn [next_slot bits sh_add].
  - lia.
  - apply wrap64_small. u_unfold. lia.
  - intros s [->%elem_of_singleton|Hin]%elem_of_union; [lia|]. specialize (Ha s Hin). lia.
  - intros s H0 Hwin. rewrite !elem_of_union, !elem_of_singleton.
    assert (s mod MAX_ENTRIES = slot mod MAX_ENTRIES <-> s = slot) as ->.
    { split; [|by intros ->]. apply (window_mod (slot + 1 - MAX_ENTRIES)); lia. }
    destruct (decide (s = slot)) as [|Hne]; [tauto|].
    enough (s mod MAX_ENTRIES ∈ (if (next_slot sh <? slot) && (MAX_ENTRIES <=? slot - next_slot sh)
      then ∅ else clear_skipped (bits sh) (next_slot sh) slot) <-> s ∈ added) by tauto.
    rewrite Hn. destruct (_ && _) eqn:E.
    + zbool. split; [set_solver|]. intros Hin. specialize (Ha s Hin). lia.
    + rewrite elem_of_clear_skipped. destruct (decide (s <= newest)) as [Hle|Hgt].
      * rewrite Hb by lia. split; [tauto|]. intros Hin. split; [done|]. intros k Hk Heq.
        assert (s = k); [|lia]. apply (window_mod (slot + 1 - MAX_ENTRIES)); lia.
      * split; [|intros Hin; specialize (Ha s Hin); lia].
        intros [_ Hno]. destruct (Hno s); [lia|done].
Qed.

Lemma sh_history_ok sh added newest : sh_history sh added newest -> sh_ok sh added newest.
Proof.
  induction 1 as [|sh added newest slot _ IH Hs]; [|by eapply sh_add_ok].
  constructor; cbn; [u_unfold; lia|done|set_solver by lia|].
  intros s H0 Hs. replace s with 0 by lia. set_solver.
Qed.

Lemma sh_ok_check sh added newest slot :
  sh_ok sh added newest -> 0 <= slot -> sh_check sh slot = check_spec added newest slot.
Proof.
  intros [Hr Hn Ha Hb] H0. unfold sh_check, check_spec, sh_newest, sh_oldest, sat_sub64.
  rewrite Hn, wrap64_small by (u_unfold; lia). replace (newest + 1 - 1) with newest by lia.
  destruct (Z.ltb_spec newest slot); [done|].
  destruct (Z.ltb_spec slot (Z.max (newest + 1 - MAX_ENTRIES) 0)),
    (Z.ltb_spec slot (newest + 1 - MAX_ENTRIES)); try done; try lia.
  destruct (decide (slot mod MAX_ENTRIES ∈ bits sh)) as [Hin|Hin], (decide (slot ∈ added)) as [Hin'|Hin'];
    try done; rewrite Hb in Hin by lia; done.
Qed.

(** The ring of bits answers for the set of all the slots that were added: a slot
    after the newest one is in the future, one before the window is too old, and
    in the window exactly the added slots are found. *)
Theorem slot_history_check sh added newest slot :
  sh_history sh added newest -> 0 <= slot -> sh_check sh slot = check_spec added newest slot.
Proof. intros H. apply sh_ok_check. by apply sh_history_ok. Qed.

Lemma slot_history_check_witness :
  sh_check (sh_add (sh_add sh_default 2) 5) 3 = NotFound
  /\ check_spec {[5; 2; 0]} 5 3 = NotFound.
Proof.
  assert (sh_check (sh_add (sh_add sh_default 2) 5) 3 = check_spec ({[5]} ∪ ({[2]} ∪ {[0]})) 5 3) as E.
  { apply slot_history_check; [|lia]. apply history_add with 2; [apply history_add with 0; [constructor|]|]; unfold U64_MAX; lia. }
  rewrite E. split; vm_compute; reflexivity.
Defined.
