(* ===== verification/ProgressMap.v ===== *)
(** * The progress map

    [core/src/progress_map.rs]: for every block in replay the statistics of its
    fork ([ForkStats]) and how far the blocks this validator produced are known
    to have spread ([PropagatedStats]); with the two functions of
    [core/src/replay_stage.rs] that count the validators that have seen a block
    ([update_slot_propagated_threshold_from_votes] and
    [update_fork_propagated_threshold_from_votes]).

    [ReplayBank] is what voting reads of a bank.  The replay timings, the
    retransmit times and the two weights that are only logged are left out; the
    handles to the gossip trackers a slot caches are the lists of public keys read
    from them. *)

From S2P Require Import Prelude Errors Float64 AuthorizedVoters VoteState EpochSchedule ForkChoice.

#[local] Open Scope arith_scope.

(** ** Banks as voting sees them *)

(** [VoteAccount]: the vote state it deserializes to, or the error. *)
Record VoteAccount := { va_vote_state : result InstructionError VoteState }.

Record ReplayBank := {
  rb_slot : Slot;
  rb_hash : Hash;
  rb_parent_slot : Slot;
  rb_collector_id : Pubkey;
  rb_block_height : Z;
  rb_is_frozen : bool;
  (** [vote_accounts()]: the stakes as of this bank. *)
  rb_vote_accounts : gmap Pubkey (Z * VoteAccount);
  (** [epoch_vote_accounts(bank.epoch())], [total_epoch_stake()] and the vote
      accounts of each node, all of the bank's own epoch. *)
  rb_epoch_vote_accounts : gmap Pubkey (Z * VoteAccount);
  rb_total_epoch_stake : Z;
  rb_node_vote_accounts : gmap Pubkey (list Pubkey);
  (** [epoch_stakes_map()] and [epoch_schedule()]. *)
  rb_epoch_stakes : gmap Epoch EpochStakes;
  rb_epoch_schedule : EpochSchedule;
  (** The feature [allow_votes_to_directly_update_vote_state]. *)
  rb_direct_vote_state_update : bool;
}.

(** [epoch_vote_accounts.get(pubkey).map(|(stake, _)| *stake).unwrap_or(0)]. *)
Definition epoch_stake (epoch_vote_accounts : gmap Pubkey (Z * VoteAccount)) (pubkey : Pubkey) : Z :=
  default 0 (fst <$> epoch_vote_accounts !! pubkey).

(** ** The map *)

Record ForkStats := {
  fs_total_stake : Z;
  fs_block_height : Z;
  fs_has_voted : bool;
  fs_is_recent : bool;
  fs_vote_threshold : bool;
  fs_is_locked_out : bool;
  fs_voted_stakes : gmap Slot Z;
  fs_is_supermajority_confirmed : bool;
  fs_computed : bool;
  fs_lockout_intervals : gmap Slot (list (Slot * Pubkey));
  fs_bank_hash : option Hash;
  fs_my_latest_landed_vote : option Slot;
}.

Definition fork_stats_default : ForkStats :=
  {| fs_total_stake := 0; fs_block_height := 0; fs_has_voted := false; fs_is_recent := false;
     fs_vote_threshold := false; fs_is_locked_out := false; fs_voted_stakes := ∅;
     fs_is_supermajority_confirmed := false; fs_computed := false; fs_lockout_intervals := ∅;
     fs_bank_hash := None; fs_my_latest_landed_vote := None |}.

Record PropagatedStats := {
  propagated_validators : gset Pubkey;
  propagated_node_ids : gset Pubkey;
  propagated_validators_stake : Z;
  ps_is_propagated : bool;
  is_leader_slot : bool;
  prev_leader_slot : option Slot;
  total_epoch_stake : Z;
}.

Record ForkProgress := {
  fp_is_dead : bool;
  fork_stats : ForkStats;
  propagated_stats : PropagatedStats;
}.

Abbreviation ProgressMap := (gmap Slot ForkProgress).

Definition SUPERMINORITY_THRESHOLD : f64 := of_u64 1 ⊘ of_u64 3.

(** [stake as f64 / total_stake as f64 > threshold]. *)
Definition stake_above (stake total_stake : Z) (threshold : f64) : bool :=
  f_gtb (of_u64 stake ⊘ of_u64 total_stake) threshold.

Record ValidatorStakeInfo := {
  validator_vote_pubkey : Pubkey;
  vsi_stake : Z;
  vsi_total_epoch_stake : Z;
}.

(** [ForkProgress::new]. *)
Definition fork_progress_new (prev_leader_slot : option Slot)
    (validator_stake_info : option ValidatorStakeInfo) : ForkProgress :=
  {| fp_is_dead := false; fork_stats := fork_stats_default;
     propagated_stats :=
       match validator_stake_info with
       | Some info =>
           {| propagated_validators := {[validator_vote_pubkey info]}; propagated_node_ids := ∅;
              propagated_validators_stake := vsi_stake info;
              ps_is_propagated :=
                if vsi_total_epoch_stake info =? 0 then true
                else stake_above (vsi_stake info) (vsi_total_epoch_stake info) SUPERMINORITY_THRESHOLD;
              is_leader_slot := true; prev_leader_slot := prev_leader_slot;
              total_epoch_stake := vsi_total_epoch_stake info |}
       | None =>
           {| propagated_validators := ∅; propagated_node_ids := ∅; propagated_validators_stake := 0;
              ps_is_propagated := false; is_leader_slot := false;
              prev_leader_slot := prev_leader_slot; total_epoch_stake := 0 |}
       end |}.

Definition with_bank_hash (fp : ForkProgress) (hash : option Hash) : ForkProgress :=
  let fs := fork_stats fp in
  {| fp_is_dead := fp_is_dead fp;
     fork_stats :=
       {| fs_total_stake := fs_total_stake fs; fs_block_height := fs_block_height fs;
          fs_has_voted := fs_has_voted fs; fs_is_recent := fs_is_recent fs;
          fs_vote_threshold := fs_vote_threshold fs; fs_is_locked_out := fs_is_locked_out fs;
          fs_voted_stakes := fs_voted_stakes fs;
          fs_is_supermajority_confirmed := fs_is_supermajority_confirmed fs;
          fs_computed := fs_computed fs; fs_lockout_intervals := fs_lockout_intervals fs;
          fs_bank_hash := hash; fs_my_latest_landed_vote := fs_my_latest_landed_vote fs |};
     propagated_stats := propagated_stats fp |}.

(** [ForkProgress::new_from_bank]. *)
Definition fork_progress_new_from_bank (bank : ReplayBank) (validator_identity vote_pubkey : Pubkey)
    (prev_leader_slot : option Slot) : ForkProgress :=
  let validator_stake_info :=
    if (rb_collector_id bank =? validator_identity)%N then
      Some {| validator_vote_pubkey := vote_pubkey;
              vsi_stake := epoch_stake (rb_epoch_vote_accounts bank) vote_pubkey;
              vsi_total_epoch_stake := rb_total_epoch_stake bank |}
    else None in
  let new_progress := fork_progress_new prev_leader_slot validator_stake_info in
  if rb_is_frozen bank then with_bank_hash new_progress (Some (rb_hash bank)) else new_progress.

(** ** Lookups *)

Definition get_propagated_stats (p : ProgressMap) (slot : Slot) : option PropagatedStats :=
  propagated_stats <$> p !! slot.

Definition get_fork_stats (p : ProgressMap) (slot : Slot) : option ForkStats :=
  fork_stats <$> p !! slot.

Definition get_hash (p : ProgressMap) (slot : Slot) : option Hash :=
  fp ← p !! slot; fs_bank_hash (fork_stats fp).

Definition is_propagated (p : ProgressMap) (slot : Slot) : option bool :=
  ps_is_propagated <$> get_propagated_stats p slot.

Definition get_latest_leader_slot_must_exist (p : ProgressMap) (slot : Slot) : outcome (option Slot) :=
  ps ← unwrap (get_propagated_stats p slot);
  Returns (if is_leader_slot ps then Some slot else prev_leader_slot ps).

Definition get_leader_propagation_slot_must_exist (p : ProgressMap) (slot : Slot)
    : outcome (bool * option Slot) :=
  latest ← get_latest_leader_slot_must_exist p slot;
  Returns (match latest with
           | Some leader_slot => (default true (is_propagated p leader_slot), Some leader_slot)
           | None => (true, None)
           end).

Definition get_bank_prev_leader_slot (p : ProgressMap) (bank : ReplayBank) : option Slot :=
  match get_propagated_stats p (rb_parent_slot bank) with
  | Some stats => if is_leader_slot stats then Some (rb_parent_slot bank) else prev_leader_slot stats
  | None => None
  end.

(** [handle_new_root]: [live] are the slots of [BankForks]. *)
Definition progress_handle_new_root (p : ProgressMap) (live : gset Slot) : ProgressMap :=
  filter (fun e => e.1 ∈ live) p.

Definition set_fork_stats (p : ProgressMap) (slot : Slot) (fs : ForkStats) : ProgressMap :=
  alter (fun fp => {| fp_is_dead := fp_is_dead fp; fork_stats := fs;
                      propagated_stats := propagated_stats fp |}) slot p.

Definition set_propagated_stats (p : ProgressMap) (slot : Slot) (ps : PropagatedStats) : ProgressMap :=
  alter (fun fp => {| fp_is_dead := fp_is_dead fp; fork_stats := fork_stats fp;
                      propagated_stats := ps |}) slot p.

(** ** Propagation *)

Definition with_propagated (ps : PropagatedStats) (b : bool) : PropagatedStats :=
  {| propagated_validators := propagated_validators ps; propagated_node_ids := propagated_node_ids ps;
     propagated_validators_stake := propagated_validators_stake ps; ps_is_propagated := b;
     is_leader_slot := is_leader_slot ps; prev_leader_slot := prev_leader_slot ps;
     total_epoch_stake := total_epoch_stake ps |}.

(** [PropagatedStats::add_vote_pubkey]. *)
Definition add_vote_pubkey (ps : PropagatedStats) (vote_pubkey : Pubkey) (stake : Z) : PropagatedStats :=
  if decide (vote_pubkey ∈ propagated_validators ps) then ps
  else
    {| propagated_validators := {[vote_pubkey]} ∪ propagated_validators ps;
       propagated_node_ids := propagated_node_ids ps;
       propagated_validators_stake := wrap64 (propagated_validators_stake ps + stake);
       ps_is_propagated := ps_is_propagated ps; is_leader_slot := is_leader_slot ps;
       prev_leader_slot := prev_leader_slot ps; total_epoch_stake := total_epoch_stake ps |}.

Definition with_node_id (ps : PropagatedStats) (node_pubkey : Pubkey) : PropagatedStats :=
  {| propagated_validators := propagated_validators ps;
     propagated_node_ids := {[node_pubkey]} ∪ propagated_node_ids ps;
     propagated_validators_stake := propagated_validators_stake ps;
     ps_is_propagated := ps_is_propagated ps; is_leader_slot := is_leader_slot ps;
     prev_leader_slot := prev_leader_slot ps; total_epoch_stake := total_epoch_stake ps |}.

Definition add_vote_pubkeys (ps : PropagatedStats) (vote_pubkeys : list Pubkey)
    (epoch_vote_accounts : gmap Pubkey (Z * VoteAccount)) : PropagatedStats :=
  foldl (fun ps pk => add_vote_pubkey ps pk (epoch_stake epoch_vote_accounts pk)) ps vote_pubkeys.

(** [PropagatedStats::add_node_pubkey] with [add_node_pubkey_internal]. *)
Definition add_node_pubkey (ps : PropagatedStats) (node_pubkey : Pubkey) (bank : ReplayBank)
    : PropagatedStats :=
  if decide (node_pubkey ∈ propagated_node_ids ps) then ps
  else
    match rb_node_vote_accounts bank !! node_pubkey with
    | Some vote_accounts =>
        add_vote_pubkeys (with_node_id ps node_pubkey) vote_accounts (rb_epoch_vote_accounts bank)
    | None => ps
    end.

(** [newly_voted_pubkeys.retain(..)]: the keys that are new to the slot stay for the
    leader slots before it. *)
Fixpoint record_votes (ps : PropagatedStats) (bank : ReplayBank) (pubkeys : list Pubkey)
    : PropagatedStats * list Pubkey :=
  match pubkeys with
  | [] => (ps, [])
  | pk :: rest =>
      let exists_ := bool_decide (pk ∈ propagated_validators ps) in
      let ps := add_vote_pubkey ps pk (epoch_stake (rb_epoch_vote_accounts bank) pk) in
      let '(ps, kept) := record_votes ps bank rest in
      (ps, if exists_ then kept else pk :: kept)
  end.

(** [cluster_slot_pubkeys.retain(..)]. *)
Fixpoint record_nodes (ps : PropagatedStats) (bank : ReplayBank) (pubkeys : list Pubkey)
    : PropagatedStats * list Pubkey :=
  match pubkeys with
  | [] => (ps, [])
  | pk :: rest =>
      let exists_ := bool_decide (pk ∈ propagated_node_ids ps) in
      let ps := add_node_pubkey ps pk bank in
      let '(ps, kept) := record_nodes ps bank rest in
      (ps, if exists_ then kept else pk :: kept)
  end.

(** [update_slot_propagated_threshold_from_votes]: the statistics of the leader slot,
    the keys that are left, and whether the slot newly reached the threshold. *)
Definition update_slot_propagated_threshold_from_votes (newly_voted_pubkeys cluster_slot_pubkeys : list Pubkey)
    (leader_bank : ReplayBank) (ps : PropagatedStats) (did_child_reach_threshold : bool)
    : PropagatedStats * list Pubkey * list Pubkey * bool :=
  if did_child_reach_threshold then
    if negb (ps_is_propagated ps)
    then (with_propagated ps true, newly_voted_pubkeys, cluster_slot_pubkeys, true)
    else (ps, newly_voted_pubkeys, cluster_slot_pubkeys, false)
  else if ps_is_propagated ps then (ps, newly_voted_pubkeys, cluster_slot_pubkeys, false)
  else
    let '(ps, voted) := record_votes ps leader_bank newly_voted_pubkeys in
    let '(ps, nodes) := record_nodes ps leader_bank cluster_slot_pubkeys in
    if (total_epoch_stake ps =? 0)
       || stake_above (propagated_validators_stake ps) (total_epoch_stake ps) SUPERMINORITY_THRESHOLD
    then (with_propagated ps true, voted, nodes, true)
    else (ps, voted, nodes, false).

Definition no_keys (l : list Pubkey) : bool := match l with [] => true | _ => false end.

(** The loop of [update_fork_propagated_threshold_from_votes].  Every iteration goes
    to an earlier leader slot of the map, so that the size of the map is enough fuel. *)
Fixpoint propagate_threshold (fuel : nat) (p : ProgressMap) (banks : gmap Slot ReplayBank) (root : Slot)
    (newly_voted_pubkeys cluster_slot_pubkeys : list Pubkey) (current_leader_slot : option Slot)
    (did_newly_reach_threshold : bool) : outcome ProgressMap :=
  match current_leader_slot with
  | None => Returns p
  | Some leader_slot =>
      if leader_slot <? root then Returns p
      else
        ps ← unwrap (get_propagated_stats p leader_slot);
        if ps_is_propagated ps
           || (no_keys newly_voted_pubkeys && no_keys cluster_slot_pubkeys
               && negb did_newly_reach_threshold)
        then Returns p
        else
          _ ← assert_ (is_leader_slot ps);
          leader_bank ← unwrap (banks !! leader_slot);
          let '(ps, voted, nodes, reached) :=
            update_slot_propagated_threshold_from_votes newly_voted_pubkeys cluster_slot_pubkeys
              leader_bank ps did_newly_reach_threshold in
          match fuel with
          | O => Panics
          | S fuel =>
              propagate_threshold fuel (set_propagated_stats p leader_slot ps) banks root voted nodes
                (prev_leader_slot ps) (reached || did_newly_reach_threshold)
          end
  end.

(** [update_fork_propagated_threshold_from_votes]. *)
Definition update_fork_propagated_threshold_from_votes (p : ProgressMap)
    (newly_voted_pubkeys cluster_slot_pubkeys : list Pubkey) (fork_tip : Slot)
    (banks : gmap Slot ReplayBank) (root : Slot) : outcome ProgressMap :=
  current_leader_slot ← get_latest_leader_slot_must_exist p fork_tip;
  propagate_threshold (size p) p banks root newly_voted_pubkeys cluster_slot_pubkeys
    current_leader_slot false.

(** [update_propagation_status]: [voted_updates] and [slot_pubkeys] are what the vote
    tracker and the cluster slots know of a slot. *)
Definition update_propagation_status (p : ProgressMap) (slot : Slot) (banks : gmap Slot ReplayBank)
    (root : Slot) (voted_updates slot_pubkeys : Slot -> list Pubkey) : outcome ProgressMap :=
  '(confirmed, _) ← get_leader_propagation_slot_must_exist p slot;
  if (confirmed : bool) then Returns p
  else update_fork_propagated_threshold_from_votes p (voted_updates slot) (slot_pubkeys slot) slot banks root.
