(* ===== verification/Propagation.v ===== *)
(** * Counting the propagation of leader blocks

    A block this validator produced counts as propagated once validators with more
    than a third of the stake have seen it, or a later block of its own on the fork
    has propagated.  [update_propagation_status] does not panic on a coherent map,
    the size of the map is enough fuel for its walk over the leader slots, and it
    keeps that equivalence for every leader slot. *)

From S2P Require Import Prelude Errors Float64 AuthorizedVoters VoteState EpochSchedule ForkChoice ProgressMap.

(** ** What the statistics of a slot mean *)

(** The stake counted for the slot is enough. *)
Definition threshold_met (ps : PropagatedStats) : bool :=
  (total_epoch_stake ps =? 0)
  || stake_above (propagated_validators_stake ps) (total_epoch_stake ps) SUPERMINORITY_THRESHOLD.

(** The stake counted is that of the validators counted, in the epoch of the bank. *)
Definition stake_counted (b : ReplayBank) (ps : PropagatedStats) : Prop :=
  propagated_validators_stake ps
  = wrap64 (zsum (epoch_stake (rb_epoch_vote_accounts b)) (elements (propagated_validators ps))).

(** The parts of the statistics that counting does not change, and that it only adds
    validators. *)
Record stats_grow (ps ps' : PropagatedStats) : Prop := {
  grow_leader : is_leader_slot ps' = is_leader_slot ps;
  grow_prev : prev_leader_slot ps' = prev_leader_slot ps;
  grow_total : total_epoch_stake ps' = total_epoch_stake ps;
  grow_validators : propagated_validators ps ⊆ propagated_validators ps';
  grow_propagated : ps_is_propagated ps = true -> ps_is_propagated ps' = true;
}.

(** A later leader slot of the fork has propagated. *)
Definition child_propagated (p : ProgressMap) (s : Slot) : Prop :=
  exists c ps, get_propagated_stats p c = Some ps /\ is_leader_slot ps = true
    /\ prev_leader_slot ps = Some s /\ ps_is_propagated ps = true.

Section Coherent.
Context (banks : gmap Slot ReplayBank) (root : Slot).

(** The leader slots form chains of known blocks, and the stake is counted. *)
Record chains_ok (p : ProgressMap) : Prop := {
  chain_prev : forall s ps l, get_propagated_stats p s = Some ps -> prev_leader_slot ps = Some l ->
    l < s /\ (root <= l -> exists psl, get_propagated_stats p l = Some psl /\ is_leader_slot psl = true);
  chain_bank : forall s ps, get_propagated_stats p s = Some ps -> is_leader_slot ps = true -> root <= s ->
    exists b, banks !! s = Some b /\ stake_counted b ps;
}.

(** A leader slot has propagated exactly if enough stake is counted for it or a later
    leader slot has propagated. *)
Definition exact_at (p : ProgressMap) (s : Slot) : Prop :=
  forall ps, get_propagated_stats p s = Some ps -> is_leader_slot ps = true -> root <= s ->
    (ps_is_propagated ps = true <-> threshold_met ps = true \/ child_propagated p s).

Definition propagation_ok (p : ProgressMap) : Prop := chains_ok p /\ forall s, exact_at p s.

End Coherent.

(** ** Counting *)

Lemma stats_grow_refl ps : stats_grow ps ps.
Proof. by constructor. Qed.

Lemma stats_grow_trans ps1 ps2 ps3 : stats_grow ps1 ps2 -> stats_grow ps2 ps3 -> stats_grow ps1 ps3.
Proof. intros [? ? ? ? ?] [? ? ? ? ?]. constructor; [congruence..|set_solver|auto]. Qed.

(** Counting keeps the flag. *)
Definition counts (b : ReplayBank) (ps ps' : PropagatedStats) : Prop :=
  stats_grow ps ps' /\ ps_is_propagated ps' = ps_is_propagated ps /\ (stake_counted b ps -> stake_counted b ps').

Lemma counts_refl b ps : counts b ps ps.
Proof. split_and!; [apply stats_grow_refl|done|done]. Qed.

Lemma counts_trans b ps1 ps2 ps3 : counts b ps1 ps2 -> counts b ps2 ps3 -> counts b ps1 ps3.
Proof. intros (? & ? & ?) (? & ? & ?). split_and!; [by eapply stats_grow_trans|congruence|auto]. Qed.

Lemma add_vote_pubkey_counts b ps pk : counts b ps (add_vote_pubkey ps pk (epoch_stake (rb_epoch_vote_accounts b) pk)).
Proof.
  unfold add_vote_pubkey. destruct (decide _) as [|Hpk]; [apply counts_refl|]. split_and!; [|done|].
  - constructor; cbn; [done..| |done]. set_solver.
  - unfold stake_counted. cbn. intros ->. rewrite wrap64_add_l. f_equal.
    rewrite (zsum_perm _ _ _ (elements_union_singleton _ _ Hpk)). cbn [zsum]. lia.
Qed.

Lemma add_vote_pubkeys_counts b l : forall ps, counts b ps (add_vote_pubkeys ps l (rb_epoch_vote_accounts b)).
Proof.
  induction l as [|pk l IH]; intros ps; [apply counts_refl|]. cbn.
  eapply counts_trans; [apply add_vote_pubkey_counts|apply IH].
Qed.

Lemma add_node_pubkey_counts b ps pk : counts b ps (add_node_pubkey ps pk b).
Proof.
  unfold add_node_pubkey. destruct (decide _); [apply counts_refl|].
  destruct (rb_node_vote_accounts b !! pk); [|apply counts_refl].
  eapply counts_trans; [|apply add_vote_pubkeys_counts]. split_and!; [by constructor|done|done].
Qed.

Lemma record_votes_counts b l : forall ps ps' kept, record_votes ps b l = (ps', kept) -> counts b ps ps'.
Proof.
  induction l as [|pk l IH]; intros ps ps' kept; cbn [record_votes]; [intros [= <- _]; apply counts_refl|].
  destruct (record_votes _ _ l) as [ps1 kept1] eqn:E. intros [= <- _].
  eapply counts_trans; [apply add_vote_pubkey_counts|by eapply IH].
Qed.

Lemma record_nodes_counts b l : forall ps ps' kept, record_nodes ps b l = (ps', kept) -> counts b ps ps'.
Proof.
  induction l as [|pk l IH]; intros ps ps' kept; cbn [record_nodes]; [intros [= <- _]; apply counts_refl|].
  destruct (record_nodes _ _ l) as [ps1 kept1] eqn:E. intros [= <- _].
  eapply counts_trans; [apply add_node_pubkey_counts|by eapply IH].
Qed.

(** One leader slot that had not propagated. *)
Lemma update_slot_spec voted nodes b ps reached ps' voted' nodes' reached' :
  ps_is_propagated ps = false ->
  update_slot_propagated_threshold_from_votes voted nodes b ps reached = (ps', voted', nodes', reached') ->
  stats_grow ps ps' /\ (stake_counted b ps -> stake_counted b ps')
  /\ reached' || reached = ps_is_propagated ps'
  /\ (ps_is_propagated ps' = true -> reached = true \/ threshold_met ps' = true)
  /\ (ps_is_propagated ps' = false -> threshold_met ps' = false).
Proof.
  intros Hno. unfold update_slot_propagated_threshold_from_votes. rewrite Hno. destruct reached; cbn [negb].
  { intros [= <- _ _ <-]. split_and!; [by constructor|done|done|by left|done]. }
  destruct (record_votes ps b voted) as [ps1 kept1] eqn:E1.
  destruct (record_nodes ps1 b nodes) as [ps2 kept2] eqn:E2.
  pose proof (counts_trans _ _ _ _ (record_votes_counts _ _ _ _ _ E1) (record_nodes_counts _ _ _ _ _ E2))
    as ([? ? ? ? ?] & Hp & Hc). fold (threshold_met ps2).
  destruct (threshold_met ps2) eqn:Et; intros [= <- _ _ <-].
  - split_and!; [by constructor|done|done|by right|done].
  - split_and!; [by constructor|done|cbn; congruence|congruence|done].
Qed.

(** ** The walk over the leader slots *)

Lemma set_propagated_lookup p l ps s ps0 :
  get_propagated_stats p l = Some ps0 ->
  get_propagated_stats (set_propagated_stats p l ps) s
  = if decide (s = l) then Some ps else get_propagated_stats p s.
Proof.
  unfold get_propagated_stats, set_propagated_stats. intros H. destruct (decide (s = l)) as [->|].
  - rewrite lookup_alter_eq. by destruct (p !! l).
  - by rewrite lookup_alter_ne.
Qed.

(** The leader slots that are left for the walk. *)
Definition slots_upto (p : ProgressMap) (l : Slot) : gset Slot := filter (fun s => s <= l) (dom p).

Lemma slots_upto_set p l ps l' : slots_upto (set_propagated_stats p l ps) l' = slots_upto p l'.
Proof. unfold slots_upto, set_propagated_stats. by rewrite dom_alter_L. Qed.

Lemma slots_upto_smaller p l l' ps :
  get_propagated_stats p l = Some ps -> l' < l -> (size (slots_upto p l') < size (slots_upto p l))%nat.
Proof.
  intros Hl Hlt. apply subset_size. split.
  - intros s. unfold slots_upto. rewrite !elem_of_filter. intros [? ?]. split; [lia|done].
  - intros Hsub. assert (l ∈ slots_upto p l') as Hin.
    { apply Hsub. unfold slots_upto. rewrite elem_of_filter, elem_of_dom. split; [lia|].
      unfold get_propagated_stats in Hl. destruct (p !! l); [by eexists|done]. }
    unfold slots_upto in Hin. apply elem_of_filter in Hin. lia.
Qed.

Section Walk.
Context (banks : gmap Slot ReplayBank) (root : Slot).

(** The invariant before the leader slot [cur] is visited: the equivalence holds for
    all other slots, and for [cur] as well unless a later slot has just propagated. *)
Record walk_ok (p : ProgressMap) (cur : option Slot) (reached : bool) : Prop := {
  walk_chains : chains_ok banks root p;
  walk_others : forall s, cur <> Some s -> exact_at root p s;
  walk_cur : forall l, cur = Some l -> root <= l ->
    (exists ps, get_propagated_stats p l = Some ps /\ is_leader_slot ps = true)
    /\ if reached then child_propagated p l else exact_at root p l;
}.

(** The statistics of one leader slot change. *)
Section Update.
Context (p : ProgressMap) (l : Slot) (ps ps' : PropagatedStats).
Hypothesis Hl : get_propagated_stats p l = Some ps.
Hypothesis Hgrow : stats_grow ps ps'.
Hypothesis Hno : ps_is_propagated ps = false.
Let p' := set_propagated_stats p l ps'.

Lemma updated_lookup s : get_propagated_stats p' s = if decide (s = l) then Some ps' else get_propagated_stats p s.
Proof. by eapply set_propagated_lookup. Qed.

Lemma updated_chains :
  chains_ok banks root p -> (forall b, banks !! l = Some b -> stake_counted b ps -> stake_counted b ps') ->
  chains_ok banks root p'.
Proof.
  intros [Hprev Hbank] Hcount. destruct Hgrow as [Eleader Eprev _ _ _].
  assert (forall x psx, get_propagated_stats p x = Some psx -> is_leader_slot psx = true ->
    exists psx', get_propagated_stats p' x = Some psx' /\ is_leader_slot psx' = true) as Hkeep.
  { intros x psx Hx Hlx. rewrite updated_lookup. destruct (decide (x = l)) as [->|]; [|eauto].
    rewrite Hl in Hx. injection Hx as ->. exists ps'. by rewrite Eleader. }
  constructor.
  - intros s ps0 l0. rewrite updated_lookup. intros Hs Hp.
    assert (exists ps1, get_propagated_stats p s = Some ps1 /\ prev_leader_slot ps1 = Some l0) as (ps1 & Hs1 & Hp1).
    { destruct (decide (s = l)) as [->|]; [injection Hs as <-; exists ps; by rewrite <- Eprev|eauto]. }
    destruct (Hprev _ _ _ Hs1 Hp1) as [? Hk]. split; [done|]. intros Hr. destruct (Hk Hr) as (x & ? & ?). eauto.
  - intros s ps0. rewrite updated_lookup. destruct (decide (s = l)) as [->|]; [|by eapply Hbank].
    intros [= <-] Hlead Hr. rewrite Eleader in Hlead. destruct (Hbank _ _ Hl Hlead Hr) as (b & ? & ?). eauto.
Qed.

(** A slot other than the one before [l] keeps its propagated children. *)
Lemma updated_child s :
  child_propagated p' s
  <-> child_propagated p s \/ (is_leader_slot ps' = true /\ prev_leader_slot ps' = Some s /\ ps_is_propagated ps' = true).
Proof.
  split.
  - intros (c & psc & Hc & ? & ? & ?). rewrite updated_lookup in Hc. destruct (decide (c = l)) as [->|].
    + injection Hc as <-. by right.
    + left. by exists c, psc.
  - intros [(c & psc & Hc & ? & ? & Hp)|(? & ? & ?)].
    + exists c, psc. rewrite updated_lookup, decide_False; [done|]. intros ->. congruence.
    + exists l, ps'. by rewrite updated_lookup, decide_True.
Qed.

Lemma updated_exact s :
  s <> l -> prev_leader_slot ps' <> Some s \/ ps_is_propagated ps' = false -> exact_at root p s -> exact_at root p' s.
Proof.
  intros Hs Hne Hex ps0. rewrite updated_lookup, decide_False by done. intros Hp0 Hlead Hr.
  rewrite (Hex _ Hp0 Hlead Hr), updated_child. destruct Hne as [|Hf]; [tauto|]. rewrite Hf. intuition congruence.
Qed.

End Update.

Lemma walk_step p l reached ps b voted nodes ps' voted' nodes' reached' :
  walk_ok p (Some l) reached -> root <= l ->
  get_propagated_stats p l = Some ps -> ps_is_propagated ps = false -> banks !! l = Some b ->
  update_slot_propagated_threshold_from_votes voted nodes b ps reached = (ps', voted', nodes', reached') ->
  walk_ok (set_propagated_stats p l ps') (prev_leader_slot ps') (reached' || reached).
Proof.
  intros [Hch Hoth Hcur] Hr Hl Hno Hb Hup.
  destruct (update_slot_spec _ _ _ _ _ _ _ _ _ Hno Hup) as (Hgrow & Hcount & Hreach & Hyes & Hmet).
  destruct (Hcur l eq_refl Hr) as [(ps1 & Hps1 & Hlead) Hl']. rewrite Hl in Hps1. injection Hps1 as <-.
  pose proof Hgrow as [Elead Eprev _ _ _].
  assert (exact_at root (set_propagated_stats p l ps') l) as Hexl.
  { intros ps0 Hps0 _ _. rewrite (updated_lookup p l ps ps' Hl), decide_True in Hps0 by done. injection Hps0 as <-.
    rewrite (updated_child p l ps ps' Hl Hno). destruct (ps_is_propagated ps') eqn:Ep.
    - split; [intros _|done]. destruct (Hyes eq_refl) as [->|]; [|by left]. right. by left.
    - apply orb_false_iff in Hreach as [_ ->]. rewrite (Hmet eq_refl). split; [done|].
      intros [?|[Hc|(_ & _ & ?)]]; [done| |done]. by rewrite <- Hno, (Hl' _ Hl Hlead Hr); right. }
  assert (forall s, prev_leader_slot ps' <> Some s \/ ps_is_propagated ps' = false ->
    exact_at root (set_propagated_stats p l ps') s) as Hex.
  { intros s Hs. destruct (decide (s = l)) as [->|Hne]; [done|].
    apply (updated_exact p l ps ps'); [done..|]. apply Hoth. congruence. }
  rewrite Hreach. constructor.
  - apply (updated_chains p l ps ps'); [done..|]. intros b' Hb'. rewrite Hb in Hb'. by injection Hb' as <-.
  - intros s Hs. apply Hex. by left.
  - intros l0 Hl0 Hr0. rewrite Eprev in Hl0. destruct (chain_prev _ _ _ Hch _ _ _ Hl Hl0) as [Hlt Hk]. split.
    + rewrite (updated_lookup p l ps ps' Hl), decide_False by lia. auto.
    + destruct (ps_is_propagated ps') eqn:Ep; [|apply Hex; auto].
      apply (updated_child p l ps ps' Hl Hno). right. split_and!; [congruence|congruence|done].
Qed.

(** Where the walk stops, the equivalence holds everywhere. *)
Lemma walk_stop p cur reached :
  walk_ok p cur reached ->
  (forall l, cur = Some l -> root <= l ->
     exists ps, get_propagated_stats p l = Some ps /\ (ps_is_propagated ps = true \/ reached = false)) ->
  propagation_ok banks root p.
Proof.
  intros [Hch Hoth Hcur] Hstop. split; [done|]. intros s. destruct (decide (cur = Some s)) as [->|]; [|auto].
  intros ps Hps Hlead Hr. destruct (Hcur s eq_refl Hr) as [_ Hc]. destruct (Hstop s eq_refl Hr) as (ps1 & Hps1 & Hor).
  rewrite Hps in Hps1. injection Hps1 as <-. destruct reached; [|by apply Hc].
  destruct Hor as [->|]; [|done]. split; [by right|done].
Qed.

(** What the walk leaves of the map. *)
Definition map_grows (p p' : ProgressMap) : Prop :=
  forall s ps, get_propagated_stats p s = Some ps ->
    exists ps', get_propagated_stats p' s = Some ps' /\ stats_grow ps ps'.

Lemma map_grows_refl p : map_grows p p.
Proof. intros s ps Hs. eauto using stats_grow_refl. Qed.

Lemma map_grows_set p l ps ps' p' :
  get_propagated_stats p l = Some ps -> stats_grow ps ps' ->
  map_grows (set_propagated_stats p l ps') p' -> map_grows p p'.
Proof.
  intros Hl Hgrow Hm s ps0 Hs. specialize (Hm s). rewrite (updated_lookup p l ps ps' Hl) in Hm.
  destruct (decide (s = l)) as [->|]; [|by apply Hm].
  rewrite Hl in Hs. injection Hs as <-. destruct (Hm _ eq_refl) as (ps2 & ? & ?). eauto using stats_grow_trans.
Qed.

Lemma propagate_threshold_ok fuel : forall p voted nodes cur reached,
  walk_ok p cur reached -> (forall l, cur = Some l -> size (slots_upto p l) <= fuel)%nat ->
  exists p', propagate_threshold fuel p banks root voted nodes cur reached = Returns p'
    /\ propagation_ok banks root p' /\ map_grows p p'.
Proof.
  induction fuel as [|fuel IH]; intros p voted nodes cur reached Hw Hfuel; cbn [propagate_threshold].
  all: destruct cur as [l|]; [|exists p; split_and!; [done|by eapply walk_stop|apply map_grows_refl]].
  all: destruct (Z.ltb_spec l root) as [Hlt|Hge];
    [exists p; split_and!; [done| |apply map_grows_refl]; eapply walk_stop; [done|]; intros ? [= <-]; lia|].
  all: destruct (walk_cur _ _ _ Hw l eq_refl Hge) as [(ps & Hl & Hlead) Hc]; rewrite Hl; cbn [unwrap mbind outcome_bind].
  all: destruct (ps_is_propagated ps) eqn:Ep; cbn [orb];
    [exists p; split_and!; [done| |apply map_grows_refl]; eapply walk_stop; [done|]; intros ? [= <-]; eauto|].
  all: destruct (_ && _ && _) eqn:Ek;
    [apply andb_true_iff in Ek as [_ Hre%negb_true_iff]; exists p; split_and!; [done| |apply map_grows_refl];
     eapply walk_stop; [done|]; intros ? [= <-]; eauto|].
  all: rewrite Hlead; cbn [assert_ mbind outcome_bind];
    destruct (chain_bank _ _ _ (walk_chains _ _ _ Hw) _ _ Hl Hlead Hge) as (b & Hb & _); rewrite Hb;
    cbn [unwrap mbind outcome_bind].
  all: destruct (update_slot_propagated_threshold_from_votes _ _ _ _ _) as [[[ps' voted'] nodes'] reached'] eqn:Eu.
  - specialize (Hfuel l eq_refl). pose proof (slots_upto_smaller p l (l - 1) ps Hl). lia.
  - pose proof (walk_step _ _ _ _ _ _ _ _ _ _ _ Hw Hge Hl Ep Hb Eu) as Hw'.
    destruct (update_slot_spec _ _ _ _ _ _ _ _ _ Ep Eu) as (Hgrow & _).
    destruct (IH _ voted' nodes' _ _ Hw') as (p' & E & Hok & Hm).
    { intros l' Hl'. rewrite slots_upto_set. rewrite (grow_prev _ _ Hgrow) in Hl'.
      destruct (chain_prev _ _ _ (walk_chains _ _ _ Hw) _ _ _ Hl Hl') as [Hlt _].
      pose proof (slots_upto_smaller p l l' ps Hl Hlt). specialize (Hfuel l eq_refl). lia. }
    exists p'. split_and!; [done|done|by eapply map_grows_set].
Qed.

End Walk.

(** C22: Propagation is counted exactly.  On a progress map whose leader slots form
    chains of known blocks and in which a leader slot has propagated exactly if enough
    stake is counted for it or a later leader slot has propagated,
    [update_propagation_status] does not panic, its walk ends, and the map has the same
    property afterwards: the counted stake is that of distinct validators, validators
    are only added and no slot loses its mark. *)
Theorem propagation_is_exact banks root p slot voted_updates slot_pubkeys :
  propagation_ok banks root p -> is_Some (p !! slot) ->
  exists p', update_propagation_status p slot banks root voted_updates slot_pubkeys = Returns p'
    /\ propagation_ok banks root p' /\ map_grows p p'.
Proof.
  intros [Hch Hex] [fp Hfp]. unfold update_propagation_status, get_leader_propagation_slot_must_exist.
  unfold update_fork_propagated_threshold_from_votes, get_latest_leader_slot_must_exist.
  assert (get_propagated_stats p slot = Some (propagated_stats fp)) as Hps by (unfold get_propagated_stats; by rewrite Hfp).
  rewrite Hps. cbn [unwrap mbind outcome_bind].
  set (cur := if is_leader_slot _ then _ else _).
  destruct (match cur with Some _ => _ | None => _ end) as [confirmed ?].
  destruct confirmed; [exists p; split_and!; [done|by split|apply map_grows_refl]|].
  apply propagate_threshold_ok.
  - constructor; [done|auto|]. intros l Hl Hr. split; [|auto]. unfold cur in Hl.
    destruct (is_leader_slot (propagated_stats fp)) eqn:El; [injection Hl as <-; eauto|].
    by eapply (chain_prev _ _ _ Hch).
  - intros l _. unfold slots_upto. rewrite <- size_dom. apply subseteq_size. set_solver.
Qed.
