(* ===== verification/Tower.v ===== *)
(** * The tower of a validator

    [core/src/consensus.rs]: the votes this validator has cast and their lockouts,
    which decide whether it may vote for a block ([is_locked_out]), whether enough
    stake is locked out elsewhere to leave the fork of the last vote
    ([check_switch_threshold]), whether enough stake has voted deep in its tower
    ([check_vote_stake_threshold]), and how the tower is recorded, initialized and
    adjusted after a restart.

    [ancestors] and [descendants] are the maps [BankForks] gives out; hash maps are
    read in the order of [map_to_list].  The clock is an argument; logging and the
    serialization of a saved tower are left out. *)

From Stdlib Require Import String.
From S2P Require Import Prelude Errors Float64 AuthorizedVoters VoteState EpochSchedule ForkChoice LatestVotes SlotHistory ProgressMap.

#[local] Open Scope arith_scope.

(** ** Decisions *)

Inductive SwitchForkDecision :=
| SwitchProof (hash : Hash)
| SameFork
| FailedSwitchThreshold (switch_proof_stake total_stake : Z)
| FailedSwitchDuplicateRollback (latest_duplicate_ancestor : Slot).

#[global] Instance SwitchForkDecision_eq_dec : EqDecision SwitchForkDecision.
Proof. solve_decision. Defined.

(** The instruction [to_vote_instruction] builds: the kind of vote, and the proof hash
    of a switching vote. *)
Inductive TowerVote :=
| TV_Vote (vote : Vote)
| TV_UpdateVoteState (vote_state_update : VoteStateUpdate)
| TV_VoteSwitch (vote : Vote) (hash : Hash)
| TV_UpdateVoteStateSwitch (vote_state_update : VoteStateUpdate) (hash : Hash).

Definition to_vote_instruction (decision : SwitchForkDecision) (vote : VoteTransaction)
    : outcome (option TowerVote) :=
  match decision, vote with
  | FailedSwitchThreshold _ total_stake, _ =>
      _ ← assert_ (negb (total_stake =? 0)); Returns None
  | FailedSwitchDuplicateRollback _, _ => Returns None
  | SameFork, VT_Vote v => Returns (Some (TV_Vote v))
  | SameFork, VT_VoteStateUpdate v => Returns (Some (TV_UpdateVoteState v))
  | SwitchProof h, VT_Vote v => Returns (Some (TV_VoteSwitch v h))
  | SwitchProof h, VT_VoteStateUpdate v => Returns (Some (TV_UpdateVoteStateSwitch v h))
  end.

Definition can_vote (decision : SwitchForkDecision) : bool :=
  match decision with
  | FailedSwitchThreshold _ _ | FailedSwitchDuplicateRollback _ => false
  | SameFork | SwitchProof _ => true
  end.

Definition VOTE_THRESHOLD_DEPTH : nat := 8.
(** [0.38]: the double nearest to the quotient. *)
Definition SWITCH_FORK_THRESHOLD : f64 := of_u64 38 ⊘ of_u64 100.
Definition VOTE_THRESHOLD_SIZE : f64 := of_u64 2 ⊘ of_u64 3.

Abbreviation Ancestors := (gmap Slot (gset Slot)).

Inductive TowerError :=
| TooOldTower (newest_in_tower oldest_in_history : Slot)
| FatallyInconsistent (what : string).

(** ** The tower *)

Record Tower := {
  tw_node_pubkey : Pubkey;
  threshold_depth : nat;
  threshold_size : f64;
  vote_state : VoteState;
  last_vote : VoteTransaction;
  last_vote_tx_blockhash : Hash;
  tw_last_timestamp : BlockTimestamp;
  stray_restored_slot : option Slot;
  last_switch_threshold_check : option (Slot * SwitchForkDecision);
}.

Definition with_vote_state (tw : Tower) (st : VoteState) : Tower :=
  {| tw_node_pubkey := tw_node_pubkey tw; threshold_depth := threshold_depth tw;
     threshold_size := threshold_size tw; vote_state := st; last_vote := last_vote tw;
     last_vote_tx_blockhash := last_vote_tx_blockhash tw; tw_last_timestamp := tw_last_timestamp tw;
     stray_restored_slot := stray_restored_slot tw;
     last_switch_threshold_check := last_switch_threshold_check tw |}.

Definition with_last_vote (tw : Tower) (v : VoteTransaction) (ts : BlockTimestamp) : Tower :=
  {| tw_node_pubkey := tw_node_pubkey tw; threshold_depth := threshold_depth tw;
     threshold_size := threshold_size tw; vote_state := vote_state tw; last_vote := v;
     last_vote_tx_blockhash := last_vote_tx_blockhash tw; tw_last_timestamp := ts;
     stray_restored_slot := stray_restored_slot tw;
     last_switch_threshold_check := last_switch_threshold_check tw |}.

Definition with_stray (tw : Tower) (s : option Slot) : Tower :=
  {| tw_node_pubkey := tw_node_pubkey tw; threshold_depth := threshold_depth tw;
     threshold_size := threshold_size tw; vote_state := vote_state tw; last_vote := last_vote tw;
     last_vote_tx_blockhash := last_vote_tx_blockhash tw; tw_last_timestamp := tw_last_timestamp tw;
     stray_restored_slot := s; last_switch_threshold_check := last_switch_threshold_check tw |}.

Definition with_switch_check (tw : Tower) (c : option (Slot * SwitchForkDecision)) : Tower :=
  {| tw_node_pubkey := tw_node_pubkey tw; threshold_depth := threshold_depth tw;
     threshold_size := threshold_size tw; vote_state := vote_state tw; last_vote := last_vote tw;
     last_vote_tx_blockhash := last_vote_tx_blockhash tw; tw_last_timestamp := tw_last_timestamp tw;
     stray_restored_slot := stray_restored_slot tw; last_switch_threshold_check := c |}.

(** [VoteTransaction::from(VoteStateUpdate::default())] and
    [VoteTransaction::from(Vote::default())]. *)
Definition no_vote_state_update : VoteTransaction := VT_VoteStateUpdate (vsu_new [] None 0%N).
Definition no_vote : VoteTransaction := VT_Vote (vote_new [] 0%N).

#[global] Instance VoteTransaction_eq_dec : EqDecision VoteTransaction.
Proof.
  intros [[]|[]] [[]|[]]; unfold Decision; decide equality; try (decide equality; fail);
    repeat (apply _ || decide equality).
Defined.

(** [initialize_root]. *)
Definition initialize_root (tw : Tower) (root : Slot) : Tower :=
  with_vote_state tw (with_votes (vote_state tw) (votes (vote_state tw)) (Some root)).

(** [initialize_lockouts]: [retain]. *)
Definition initialize_lockouts (tw : Tower) (should_retain : Lockout -> bool) : Tower :=
  with_vote_state tw (with_votes (vote_state tw) (List.filter should_retain (votes (vote_state tw)))
                        (root_slot (vote_state tw))).

Definition tower_default : Tower :=
  {| tw_node_pubkey := pubkey_default; threshold_depth := VOTE_THRESHOLD_DEPTH;
     threshold_size := VOTE_THRESHOLD_SIZE; vote_state := with_votes vote_state_default [] (Some 0);
     last_vote := no_vote_state_update; last_vote_tx_blockhash := 0%N;
     tw_last_timestamp := {| bt_slot := 0; bt_timestamp := 0 |}; stray_restored_slot := None;
     last_switch_threshold_check := None |}.

(** [initialize_lockouts_from_bank]: [vote_account] is what the bank has for the vote
    account. *)
Definition initialize_lockouts_from_bank (tw : Tower) (root : Slot) (vote_account : option VoteAccount)
    : outcome Tower :=
  match vote_account with
  | Some va =>
      match va_vote_state va with
      | Ok st =>
          let tw := initialize_root (with_vote_state tw st) root in
          Returns (initialize_lockouts tw (fun v => root <? slot v))
      | Err _ => Panics
      end
  | None => Returns (initialize_root tw root)
  end.

(** [Tower::new]. *)
Definition tower_new (node_pubkey vote_account_pubkey : Pubkey) (root : Slot) (bank : ReplayBank)
    : outcome Tower :=
  initialize_lockouts_from_bank
    {| tw_node_pubkey := node_pubkey; threshold_depth := threshold_depth tower_default;
       threshold_size := threshold_size tower_default; vote_state := vote_state tower_default;
       last_vote := last_vote tower_default;
       last_vote_tx_blockhash := last_vote_tx_blockhash tower_default;
       tw_last_timestamp := tw_last_timestamp tower_default;
       stray_restored_slot := stray_restored_slot tower_default;
       last_switch_threshold_check := last_switch_threshold_check tower_default |}
    root (snd <$> rb_vote_accounts bank !! vote_account_pubkey).

(** ** Voting *)

(** [Tower::last_voted_slot]. *)
Definition tw_last_voted_slot (tw : Tower) : outcome (option Slot) :=
  if vt_is_empty (last_vote tw) then Returns None
  else s ← vt_slot (last_vote tw) (vt_len (last_vote tw) - 1); Returns (Some s).

Definition tw_last_voted_slot_hash (tw : Tower) : outcome (option (Slot * Hash)) :=
  last ← tw_last_voted_slot tw; Returns (option_map (fun s => (s, vt_hash (last_vote tw))) last).

(** [Tower::root]. *)
Definition tw_root (tw : Tower) : outcome Slot := unwrap (root_slot (vote_state tw)).

(** [skip_while(|s| *s <= last_voted_slot)]. *)
Fixpoint skip_voted (last_voted_slot : Slot) (l : list Slot) : list Slot :=
  match l with
  | [] => []
  | s :: rest => if s <=? last_voted_slot then skip_voted last_voted_slot rest else l
  end.

(** [apply_vote_and_generate_vote_diff]. *)
Definition apply_vote_and_generate_vote_diff (st : VoteState) (s : Slot) (hash : Hash)
    (last_voted_slot_in_bank : option Slot) : outcome (VoteState * VoteTransaction) :=
  st ← process_vote_unchecked st (vote_new [s] hash);
  let slots := match last_voted_slot_in_bank with
               | Some l => skip_voted l (tower st)
               | None => tower st
               end in
  Returns (st, VT_Vote (vote_new slots hash)).

(** [maybe_timestamp]: [now] is [Utc::now().timestamp()]. *)
Definition maybe_timestamp (last : BlockTimestamp) (current_slot : Slot) (now : Z)
    : BlockTimestamp * option Z :=
  if (bt_slot last <? current_slot) || ((bt_slot last =? 0) && (current_slot =? bt_slot last)) then
    if bt_timestamp last <=? now
    then ({| bt_slot := current_slot; bt_timestamp := now |}, Some now)
    else (last, None)
  else (last, None).

(** [record_bank_vote_and_update_lockouts]: the tower and the new root, if there is one.
    [maybe_timestamp] is asked with the slot of the vote before. *)
Definition record_bank_vote_and_update_lockouts (tw : Tower) (vote_slot : Slot) (vote_hash : Hash)
    (last_voted_slot_in_bank : option Slot) (is_direct_vote_state_update_enabled : bool) (now : Z)
    : outcome (Tower * option Slot) :=
  old_root ← tw_root tw;
  '(st, new_vote) ←
    (if is_direct_vote_state_update_enabled then
       st ← process_vote_unchecked (vote_state tw) (vote_new [vote_slot] vote_hash);
       Returns (st, VT_VoteStateUpdate (vsu_new (votes st) (root_slot st) vote_hash))
     else apply_vote_and_generate_vote_diff (vote_state tw) vote_slot vote_hash last_voted_slot_in_bank);
  last ← tw_last_voted_slot tw;
  let '(ts, timestamp) := maybe_timestamp (tw_last_timestamp tw) (default 0 last) now in
  let tw := with_last_vote (with_vote_state tw st) (vt_set_timestamp new_vote timestamp) ts in
  new_root ← tw_root tw;
  Returns (tw, if negb (old_root =? new_root) then Some new_root else None).

(** [Tower::last_voted_slot_in_bank]. *)
Definition last_voted_slot_in_bank (bank : ReplayBank) (vote_account_pubkey : Pubkey) : option Slot :=
  '(_, vote_account) ← rb_vote_accounts bank !! vote_account_pubkey;
  st ← result_ok (va_vote_state vote_account);
  last_voted_slot st.

(** [record_bank_vote]. *)
Definition record_bank_vote (tw : Tower) (bank : ReplayBank) (vote_account_pubkey : Pubkey) (now : Z)
    : outcome (Tower * option Slot) :=
  record_bank_vote_and_update_lockouts tw (rb_slot bank) (rb_hash bank)
    (last_voted_slot_in_bank bank vote_account_pubkey) (rb_direct_vote_state_update bank) now.

(** ** Lockouts *)

(** [Tower::is_recent]. *)
Definition is_recent (tw : Tower) (s : Slot) : bool :=
  match last_voted_slot (vote_state tw) with
  | Some l => negb (s <=? l)
  | None => match root_slot (vote_state tw) with Some r => negb (s <=? r) | None => true end
  end.

Definition has_voted (tw : Tower) (s : Slot) : bool :=
  existsb (fun v => s =? slot v) (votes (vote_state tw)).

(** [Tower::is_locked_out]. *)
Definition is_locked_out (tw : Tower) (s : Slot) (ancestors : gset Slot) : outcome bool :=
  if negb (is_recent tw s) then Returns true
  else
    st ← process_slot_vote_unchecked (vote_state tw) s;
    if existsb (fun v => negb (s =? slot v) && negb (bool_decide (slot v ∈ ancestors))) (votes st)
    then Returns true
    else
      match root_slot st with
      | Some root =>
          _ ← assert_ ((s =? root) || bool_decide (root ∈ ancestors));
          Returns false
      | None => Returns false
      end.

(** [is_slot_confirmed]. *)
Definition is_slot_confirmed (tw : Tower) (s : Slot) (voted_stakes : gmap Slot Z) (total_stake : Z)
    : bool :=
  match voted_stakes !! s with
  | Some stake => stake_above stake total_stake (threshold_size tw)
  | None => false
  end.

(** [check_vote_stake_threshold]. *)
Definition check_vote_stake_threshold (tw : Tower) (s : Slot) (voted_stakes : gmap Slot Z)
    (total_stake : Z) : outcome bool :=
  st ← process_slot_vote_unchecked (vote_state tw) s;
  Returns
    match nth_recent_vote st (threshold_depth tw) with
    | Some vote =>
        match voted_stakes !! slot vote with
        | Some fork_stake =>
            if (Z.of_nat (threshold_depth tw) <? confirmation_count vote)
               && existsb (fun old_vote => (slot old_vote =? slot vote)
                             && (confirmation_count old_vote =? confirmation_count vote))
                    (votes (vote_state tw))
            then true
            else stake_above fork_stake total_stake (threshold_size tw)
        | None => false
        end
    | None => true
    end.

(** [is_stray_last_vote]. *)
Definition is_stray_last_vote (tw : Tower) : outcome bool :=
  last ← tw_last_voted_slot tw;
  Returns (is_some (stray_restored_slot tw) && bool_decide (stray_restored_slot tw = last)).

(** ** Votes landed in a bank *)

(** [update_ancestor_voted_stakes]: the stake is added to the slot and its ancestors. *)
Definition update_ancestor_voted_stakes (voted_stakes : gmap Slot Z) (voted_slot : Slot)
    (voted_stake : Z) (ancestors : Ancestors) : gmap Slot Z :=
  let bump vs s := <[s := wrap64 (default 0 (vs !! s) + voted_stake)]> vs in
  match ancestors !! voted_slot with
  | Some vote_slot_ancestors => foldl bump (bump voted_stakes voted_slot) (elements vote_slot_ancestors)
  | None => voted_stakes
  end.

(** [voted_stakes.entry(slot).or_default()]. *)
Definition or_default_stake (voted_stakes : gmap Slot Z) (s : Slot) : gmap Slot Z :=
  <[s := default 0 (voted_stakes !! s)]> voted_stakes.

(** [populate_ancestor_voted_stakes]. *)
Definition populate_ancestor_voted_stakes (voted_stakes : gmap Slot Z) (vote_slots : gset Slot)
    (ancestors : Ancestors) : gmap Slot Z :=
  foldl (fun vs vote_slot =>
           match ancestors !! vote_slot with
           | Some slot_ancestors => foldl or_default_stake (or_default_stake vs vote_slot) (elements slot_ancestors)
           | None => vs
           end) voted_stakes (elements vote_slots).

(** [lockout_intervals.entry(end).or_insert_with(Vec::new).push((start, key))]. *)
Definition push_interval (key : Pubkey) (intervals : gmap Slot (list (Slot * Pubkey))) (vote : Lockout)
    : gmap Slot (list (Slot * Pubkey)) :=
  <[last_locked_out_slot vote :=
      default [] (intervals !! last_locked_out_slot vote) ++ [(slot vote, key)]]> intervals.

Record ComputedBankState := {
  cb_voted_stakes : gmap Slot Z;
  cb_total_stake : Z;
  cb_bank_weight : Z;
  cb_lockout_intervals : gmap Slot (list (Slot * Pubkey));
  cb_my_latest_landed_vote : option Slot;
}.

(** What the loop over the vote accounts carries. *)
Record Collect := {
  co_state : ComputedBankState;
  co_vote_slots : gset Slot;
  co_latest_votes : LatestValidatorVotesForFrozenBanks;
}.

(** [bank_weight += vote.lockout() as u128 * voted_stake as u128]. *)
Definition add_weight (voted_stake : Z) (bank_weight : Z) (vote : Lockout) : Z :=
  wrap128 (bank_weight + lockout vote * voted_stake).

Definition root_lockout (root : Slot) : Lockout :=
  {| slot := root; confirmation_count := Z.of_nat MAX_LOCKOUT_HISTORY |}.

(** The votes whose weight and slots the loop counts after the simulated vote: those of
    the tower, the old root if the root has moved, and the root. *)
Definition weighed_votes (start_root : option Slot) (st : VoteState) : list Lockout :=
  votes st
    ++ (if bool_decide (start_root = root_slot st) then []
        else match start_root with Some r => [root_lockout r] | None => [] end)
    ++ match root_slot st with Some r => [root_lockout r] | None => [] end.

(** One vote account of [collect_vote_lockouts]. *)
Definition collect_account (vote_account_pubkey : Pubkey) (bank_slot : Slot) (ancestors : Ancestors)
    (get_frozen_hash : Slot -> option Hash) (c : Collect) (key : Pubkey) (voted_stake : Z)
    (account : VoteAccount) : outcome Collect :=
  if voted_stake =? 0 then Returns c
  else
    match va_vote_state account with
    | Err _ => Returns c
    | Ok st =>
        let cb := co_state c in
        let intervals := foldl (push_interval key) (cb_lockout_intervals cb) (votes st) in
        let mine := if (key =? vote_account_pubkey)%N
                    then option_map slot (nth_recent_vote st 0) else cb_my_latest_landed_vote cb in
        lv ← (match last_voted_slot st with
              | Some s =>
                  '(lv, _) ← check_add_vote (co_latest_votes c) key s (get_frozen_hash s) true;
                  Returns lv
              | None => Returns (co_latest_votes c)
              end);
        st' ← process_slot_vote_unchecked st bank_slot;
        let weighed := weighed_votes (root_slot st) st' in
        _ ← assert_ (bool_decide (option_map slot (nth_recent_vote st' 0) = Some bank_slot));
        let voted_stakes :=
          match nth_recent_vote st' 1 with
          | Some vote =>
              update_ancestor_voted_stakes (cb_voted_stakes cb) (slot vote) voted_stake ancestors
          | None => cb_voted_stakes cb
          end in
        Returns
          {| co_state :=
               {| cb_voted_stakes := voted_stakes;
                  cb_total_stake := wrap64 (cb_total_stake cb + voted_stake);
                  cb_bank_weight := foldl (add_weight voted_stake) (cb_bank_weight cb) weighed;
                  cb_lockout_intervals := intervals; cb_my_latest_landed_vote := mine |};
             co_vote_slots := list_to_set (map slot weighed) ∪ co_vote_slots c;
             co_latest_votes := lv |}
    end.

Fixpoint collect_accounts (vote_account_pubkey : Pubkey) (bank_slot : Slot) (ancestors : Ancestors)
    (get_frozen_hash : Slot -> option Hash) (c : Collect) (l : list (Pubkey * (Z * VoteAccount)))
    : outcome Collect :=
  match l with
  | [] => Returns c
  | (key, (stake, account)) :: rest =>
      c ← collect_account vote_account_pubkey bank_slot ancestors get_frozen_hash c key stake account;
      collect_accounts vote_account_pubkey bank_slot ancestors get_frozen_hash c rest
  end.

Definition collect_init (lv : LatestValidatorVotesForFrozenBanks) : Collect :=
  {| co_state := {| cb_voted_stakes := ∅; cb_total_stake := 0; cb_bank_weight := 0;
                    cb_lockout_intervals := ∅; cb_my_latest_landed_vote := None |};
     co_vote_slots := ∅; co_latest_votes := lv |}.

(** [collect_vote_lockouts]. *)
Definition collect_vote_lockouts (vote_account_pubkey : Pubkey) (bank_slot : Slot)
    (vote_accounts : gmap Pubkey (Z * VoteAccount)) (ancestors : Ancestors)
    (get_frozen_hash : Slot -> option Hash) (lv : LatestValidatorVotesForFrozenBanks)
    : outcome (ComputedBankState * LatestValidatorVotesForFrozenBanks) :=
  c ← collect_accounts vote_account_pubkey bank_slot ancestors get_frozen_hash (collect_init lv)
        (map_to_list vote_accounts);
  let cb := co_state c in
  Returns
    ({| cb_voted_stakes := populate_ancestor_voted_stakes (cb_voted_stakes cb) (co_vote_slots c) ancestors;
        cb_total_stake := cb_total_stake cb; cb_bank_weight := cb_bank_weight cb;
        cb_lockout_intervals := cb_lockout_intervals cb;
        cb_my_latest_landed_vote := cb_my_latest_landed_vote cb |}, co_latest_votes c).

(** ** Switching forks *)

(** [is_candidate_slot_descendant_of_last_vote]. *)
Definition is_candidate_slot_descendant_of_last_vote (candidate_slot last_voted_slot : Slot)
    (ancestors : Ancestors) : option bool :=
  (fun a : gset Slot => bool_decide (last_voted_slot ∈ a)) <$> ancestors !! candidate_slot.

(** The locked out stake, and the vote accounts that were counted. *)
Record LockedOut := { locked_out_stake : Z; locked_out_vote_accounts : gset Pubkey }.

Section Switch.
Context (ancestors : Ancestors) (progress : ProgressMap) (total_stake : Z)
  (epoch_vote_accounts : gmap Pubkey (Z * VoteAccount)).
Context (last_voted_slot root : Slot) (last_vote_ancestors : gset Slot).

(** Count the stake of an account; [None] when the threshold is passed and the
    function returns a switch proof. *)
Definition count_locked_out (lo : LockedOut) (pubkey : Pubkey) : option LockedOut :=
  let stake := wrap64 (locked_out_stake lo + epoch_stake epoch_vote_accounts pubkey) in
  if stake_above stake total_stake SWITCH_FORK_THRESHOLD then None
  else Some {| locked_out_stake := stake;
               locked_out_vote_accounts := {[pubkey]} ∪ locked_out_vote_accounts lo |}.

(** One lockout interval of a candidate bank. *)
Definition count_interval (lo : LockedOut) (interval : Slot * Pubkey) : option LockedOut :=
  if decide (interval.2 ∈ locked_out_vote_accounts lo) then Some lo
  else if negb (bool_decide (interval.1 ∈ last_vote_ancestors)) && (root <? interval.1)
  then count_locked_out lo interval.2
  else Some lo.

Fixpoint count_intervals (lo : LockedOut) (l : list (Slot * Pubkey)) : option LockedOut :=
  match l with
  | [] => Some lo
  | i :: rest => lo ← count_interval lo i; count_intervals lo rest
  end.

(** [lockout_intervals.range((Included(last_voted_slot), Unbounded))], flattened. *)
Definition intervals_at (lockout_intervals : gmap Slot (list (Slot * Pubkey))) : list (Slot * Pubkey) :=
  flat_map snd (filter (fun e => last_voted_slot <= e.1) (btree_iterZ lockout_intervals)).

Definition is_computed (s : Slot) : bool := default false (fs_computed <$> get_fork_stats progress s).

(** The conditions under which the bank at a slot is not the tip of another fork. *)
Definition skip_candidate (candidate_slot : Slot) (descendants : gset Slot) : outcome bool :=
  if negb (is_computed candidate_slot) then Returns true
  else if existsb is_computed (elements descendants) then Returns true
  else if candidate_slot =? last_voted_slot then Returns true
  else
    descendant ← unwrap (is_candidate_slot_descendant_of_last_vote candidate_slot last_voted_slot ancestors);
    Returns (descendant || (candidate_slot <=? root)).

(** One entry of [descendants]. *)
Definition count_candidate (lo : LockedOut) (candidate_slot : Slot) (descendants : gset Slot)
    : outcome (option LockedOut) :=
  skip ← skip_candidate candidate_slot descendants;
  if (skip : bool) then Returns (Some lo)
  else
    _ ← assert_ (negb (bool_decide (candidate_slot ∈ last_vote_ancestors)));
    stats ← unwrap (get_fork_stats progress candidate_slot);
    Returns (count_intervals lo (intervals_at (fs_lockout_intervals stats))).

Fixpoint count_candidates (lo : LockedOut) (l : list (Slot * gset Slot)) : outcome (option LockedOut) :=
  match l with
  | [] => Returns (Some lo)
  | (candidate_slot, descendants) :: rest =>
      r ← count_candidate lo candidate_slot descendants;
      match r with
      | Some lo => count_candidates lo rest
      | None => Returns None
      end
  end.

(** One entry of [max_gossip_frozen_votes]. *)
Definition count_gossip (lo : LockedOut) (pubkey : Pubkey) (candidate_latest_frozen_vote : Slot)
    : option LockedOut :=
  if decide (pubkey ∈ locked_out_vote_accounts lo) then Some lo
  else if (last_voted_slot <? candidate_latest_frozen_vote)
          && negb (default true (is_candidate_slot_descendant_of_last_vote candidate_latest_frozen_vote
                                   last_voted_slot ancestors))
  then count_locked_out lo pubkey
  else Some lo.

Fixpoint count_gossips (lo : LockedOut) (l : list (Pubkey * (Slot * list Hash))) : option LockedOut :=
  match l with
  | [] => Some lo
  | (pubkey, (s, _)) :: rest => lo ← count_gossip lo pubkey s; count_gossips lo rest
  end.

(** The search for a switch proof, once the slot is known to be on another fork. *)
Definition find_switch_proof (descendants : Ancestors) (lv : LatestValidatorVotesForFrozenBanks)
    : outcome SwitchForkDecision :=
  r ← count_candidates {| locked_out_stake := 0; locked_out_vote_accounts := ∅ |} (map_to_list descendants);
  Returns
    match r with
    | None => SwitchProof 0%N
    | Some lo =>
        match count_gossips lo (map_to_list (max_gossip_frozen_votes lv)) with
        | None => SwitchProof 0%N
        | Some lo => FailedSwitchThreshold (locked_out_stake lo) total_stake
        end
    end.

End Switch.

(** The duplicate check at the start of [make_check_switch_threshold_decision]: [Some]
    is the decision returned early. *)
Definition rollback_decision (progress : ProgressMap) (fc : HeaviestSubtreeForkChoice)
    (switch last : SlotHashKey) : option SwitchForkDecision :=
  match latest_invalid_ancestor fc last with
  | Some latest_duplicate_ancestor =>
      if is_strict_ancestor fc switch last
      then Some (FailedSwitchDuplicateRollback latest_duplicate_ancestor)
      else if match get_hash progress last.1 with Some h => negb (h =? last.2)%N | None => true end
      then Some (SwitchProof 0%N)
      else None
  | None => None
  end.

(** The rest of the function, on the ancestors of the last vote. *)
Definition decide_switch (tw : Tower) (switch_slot last_voted_slot root : Slot) (ancestors descendants : Ancestors)
    (progress : ProgressMap) (total_stake : Z) (epoch_vote_accounts : gmap Pubkey (Z * VoteAccount))
    (lv : LatestValidatorVotesForFrozenBanks) : outcome SwitchForkDecision :=
  stray ← is_stray_last_vote tw;
  last_vote_ancestors ←
    match ancestors !! last_voted_slot with
    | Some a => Returns a
    | None => if (stray : bool) then Returns ∅ else Panics
    end;
  switch_slot_ancestors ← unwrap (ancestors !! switch_slot);
  if (switch_slot =? last_voted_slot) || bool_decide (last_voted_slot ∈ (switch_slot_ancestors : gset Slot))
  then Returns SameFork
  else if bool_decide (switch_slot ∈ (last_vote_ancestors : gset Slot))
  then if (stray : bool) then Returns (FailedSwitchThreshold 0 total_stake) else Panics
  else find_switch_proof ancestors progress total_stake epoch_vote_accounts last_voted_slot root
         last_vote_ancestors descendants lv.

(** [make_check_switch_threshold_decision]. *)
Definition make_check_switch_threshold_decision (tw : Tower) (switch_slot : Slot)
    (ancestors descendants : Ancestors) (progress : ProgressMap) (total_stake : Z)
    (epoch_vote_accounts : gmap Pubkey (Z * VoteAccount)) (lv : LatestValidatorVotesForFrozenBanks)
    (fc : HeaviestSubtreeForkChoice) : outcome SwitchForkDecision :=
  last ← tw_last_voted_slot_hash tw;
  match last with
  | None => Returns SameFork
  | Some (last_voted_slot, last_voted_hash) =>
      root ← tw_root tw;
      switch_hash ← unwrap (get_hash progress switch_slot);
      match rollback_decision progress fc (switch_slot, switch_hash) (last_voted_slot, last_voted_hash) with
      | Some decision => Returns decision
      | None => decide_switch tw switch_slot last_voted_slot root ancestors descendants progress
                  total_stake epoch_vote_accounts lv
      end
  end.

(** [check_switch_threshold]. *)
Definition check_switch_threshold (tw : Tower) (switch_slot : Slot)
    (ancestors descendants : Ancestors) (progress : ProgressMap) (total_stake : Z)
    (epoch_vote_accounts : gmap Pubkey (Z * VoteAccount)) (lv : LatestValidatorVotesForFrozenBanks)
    (fc : HeaviestSubtreeForkChoice) : outcome (Tower * SwitchForkDecision) :=
  decision ← make_check_switch_threshold_decision tw switch_slot ancestors descendants progress
               total_stake epoch_vote_accounts lv fc;
  let new_check := Some (switch_slot, decision) in
  Returns (if bool_decide (new_check = last_switch_threshold_check tw) then tw
           else with_switch_check tw new_check, decision).

(** [HeaviestSubtreeForkChoice::heaviest_slot_on_same_voted_fork]. *)
Definition heaviest_slot_on_same_voted_fork (fc : HeaviestSubtreeForkChoice) (tw : Tower)
    : outcome (option SlotHashKey) :=
  last ← tw_last_voted_slot_hash tw;
  match last with
  | None => Returns None
  | Some last_voted_slot_hash =>
      match is_candidate fc last_voted_slot_hash with
      | Some true => Returns (best_slot fc last_voted_slot_hash)
      | Some false => Returns None
      | None =>
          stray ← is_stray_last_vote tw;
          if negb stray then Panics else Returns None
      end
  end.

(** ** After a restart *)

(** What the loop of [adjust_lockouts_with_slot_history] carries; the flags are
    pushed newest vote first, and the head of [retain_flags] is the last pushed. *)
Record Adjust := {
  still_in_future : bool;
  past_outside_history : bool;
  checked_slot : option Slot;
  anchored_slot : option Slot;
  retain_flags : list bool;
}.

Definition adjust_init : Adjust :=
  {| still_in_future := true; past_outside_history := false; checked_slot := None;
     anchored_slot := None; retain_flags := [] |}.

(** One slot of the tower, against the slot history. *)
Definition adjust_slot (sh : SlotHistory) (tower_root : Slot) (a : Adjust) (slot_in_tower : Slot)
    : outcome (result TowerError Adjust) :=
  let check := sh_check sh slot_in_tower in
  let? anchored :=
    (if negb (is_some (anchored_slot a)) && bool_decide (check = Found)
     then Returns (Ok (Some slot_in_tower))
     else if is_some (anchored_slot a) && bool_decide (check = NotFound)
     then Returns (Err (FatallyInconsistent "diverged ancestor?"%string))
     else Returns (Ok (anchored_slot a))) in
  let? future :=
    (if still_in_future a && negb (bool_decide (check = Future)) then Returns (Ok false)
     else if negb (still_in_future a) && bool_decide (check = Future)
     then Returns (Err (FatallyInconsistent "time warped?"%string))
     else Returns (Ok (still_in_future a))) in
  let? past :=
    (if negb (past_outside_history a) && bool_decide (check = TooOld) then Returns (Ok true)
     else if past_outside_history a && negb (bool_decide (check = TooOld))
     then Returns (Err (FatallyInconsistent "not too old once after got too old?"%string))
     else Returns (Ok (past_outside_history a))) in
  _ ← assert_ (match checked_slot a with
               | Some checked =>
                   ((slot_in_tower =? checked) && (slot_in_tower =? tower_root))
                   || (slot_in_tower <? checked)
               | None => true
               end);
  Returns (Ok {| still_in_future := future; past_outside_history := past;
                 checked_slot := Some slot_in_tower; anchored_slot := anchored;
                 retain_flags := negb (is_some anchored) :: retain_flags a |}).

Fixpoint adjust_slots (sh : SlotHistory) (tower_root : Slot) (a : Adjust) (l : list Slot)
    : outcome (result TowerError Adjust) :=
  match l with
  | [] => Returns (Ok a)
  | s :: rest => let? a := adjust_slot sh tower_root a s in adjust_slots sh tower_root a rest
  end.

(** [retain(|_| flags.next().unwrap())]. *)
Fixpoint retain_by (flags : list bool) (vs : list Lockout) : outcome (list Lockout) :=
  match vs, flags with
  | [], _ => Returns []
  | v :: vs, f :: flags =>
      kept ← retain_by flags vs; Returns (if (f : bool) then v :: kept else kept)
  | _ :: _, [] => Panics
  end.

(** [adjust_lockouts_with_slot_history].  The flag of the tower root, the last one
    pushed, is popped. *)
Definition adjust_lockouts_with_slot_history (tw : Tower) (sh : SlotHistory)
    : outcome (result TowerError Tower) :=
  tower_root ← tw_root tw;
  let slots_in_tower := tower_root :: tower (vote_state tw) in
  let? a := adjust_slots sh tower_root adjust_init (rev slots_in_tower) in
  match anchored_slot a with
  | None => Returns (Err (FatallyInconsistent "no common slot for rooted tower"%string))
  | Some _ =>
      _ ← assert_ (length slots_in_tower =? length (retain_flags a))%nat;
      kept ← retain_by (drop 1 (retain_flags a)) (votes (vote_state tw));
      let tw := with_vote_state tw (with_votes (vote_state tw) kept (root_slot (vote_state tw))) in
      match kept with
      | [] => Returns (Ok (with_last_vote tw no_vote (tw_last_timestamp tw)))
      | _ :: _ =>
          last ← tw_last_voted_slot tw;
          _ ← assert_ (bool_decide (last = list.last (tower (vote_state tw))));
          Returns (Ok (with_stray tw (vt_last_voted_slot (last_vote tw))))
      end
  end.

Definition no_votes (tw : Tower) : bool := match votes (vote_state tw) with [] => true | _ => false end.

(** [adjust_lockouts_after_replay]. *)
Definition adjust_lockouts_after_replay (tw : Tower) (replayed_root : Slot) (sh : SlotHistory)
    : outcome (result TowerError Tower) :=
  tower_root ← tw_root tw;
  _ ← assert_ (bool_decide (sh_check sh replayed_root = Found));
  _ ← assert_ ((bool_decide (last_vote tw = no_vote_state_update) && no_votes tw)
               || (negb (bool_decide (last_vote tw = no_vote_state_update)) && negb (no_votes tw)));
  last ← tw_last_voted_slot tw;
  match last with
  | Some last_voted_slot =>
      if tower_root <=? replayed_root then
        if bool_decide (sh_check sh last_voted_slot = TooOld)
        then Returns (Err (TooOldTower last_voted_slot (sh_oldest sh)))
        else
          let? tw := adjust_lockouts_with_slot_history tw sh in
          Returns (Ok (initialize_root tw replayed_root))
      else adjust_lockouts_with_slot_history tw (sh_add sh tower_root)
  | None =>
      _ ← assert_ (tower_root =? replayed_root);
      Returns (Ok tw)
  end.
