(* ===== verification/TowerSafety.v ===== *)
(** * Voting and lockouts

    The invariant of the tower, and that a vote the tower allows breaks no lockout:
    the votes of a tower always lie on one fork. *)

From S2P Require Import Prelude Errors Float64 AuthorizedVoters VoteState VoteTower EpochSchedule ForkChoice LatestVotes SlotHistory ProgressMap Tower.

(** ** The invariant *)

(** The tower has a root and its votes are well formed. *)
Record tower_ok (tw : Tower) : Prop := {
  tok_root : exists r, root_slot (vote_state tw) = Some r;
  tok_wf : tower_wf (votes (vote_state tw));
  tok_slots : Forall (fun v => 0 <= slot v) (votes (vote_state tw));
}.

(** Every slot is an ancestor of the slots after it, in the block tree [anc]. *)
Definition one_fork (anc : Slot -> gset Slot) (l : list Slot) : Prop :=
  StronglySorted (fun a b => a ∈ anc b) l.

(** ** Processing a vote on one slot *)

Lemma process_vote_unchecked_eq st s h :
  process_vote_unchecked st (vote_new [s] h)
  = Returns (process_next_vote_slot st s (current_epoch st)).
Proof.
  unfold process_vote_unchecked, process_vote_state, check_slots_are_valid. cbn [slots vote_new].
  cbn [vote_hash rev app map length vote_slots_loop].
  destruct (match last_voted_slot st with Some lv => s <=? lv | None => false end) eqn:E.
  - cbn [Nat.eqb mbind outcome_bind]. replace (process_next_vote_slot st s (current_epoch st)) with st; [done|].
    unfold process_next_vote_slot. by rewrite E.
  - rewrite Z.eqb_refl. cbn. by rewrite N.eqb_refl.
Qed.

(** The slots left in the tower by a vote on a newer slot, and the root. *)
Lemma next_vote_slots st s epoch :
  (forall l, last_voted_slot st = Some l -> l < s) ->
  let st' := process_next_vote_slot st s epoch in
  exists pre base popped, tower st = pre ++ base ++ popped /\ tower st' = base ++ [s]
    /\ (root_slot st' = root_slot st \/ exists r, pre = [r] /\ root_slot st' = Some r).
Proof.
  intros Hnew st'. destruct (process_next_vote_slot_shape st s epoch Hnew) as (base & Hv & Hcase).
  destruct (pop_expired_votes_spec (votes st) s) as (popped & E & _ & _).
  assert (tower st' = map slot base ++ [s]) as Ht'.
  { unfold tower, st'. rewrite Hv. unfold double_lockouts.
    rewrite double_lockouts_from_slots, map_app. done. }
  destruct Hcase as [(_ & -> & Hr)|(o & _ & Ho & Hr)].
  - exists [], (map slot (pop_expired_votes (votes st) s)), (map slot popped). split_and!; [|done|by left].
    unfold tower. by rewrite E at 1; rewrite map_app.
  - exists [slot o], (map slot base), (map slot popped). split_and!; [|done|by right; eauto].
    unfold tower. rewrite E, Ho, map_app. done.
Qed.

Lemma one_fork_snoc anc l s : one_fork anc l -> (forall x, x ∈ l -> x ∈ anc s) -> one_fork anc (l ++ [s]).
Proof.
  intros Hl Hs. apply StronglySorted_app. split_and!; [|done|repeat constructor].
  intros x1 x2 H1 ->%list_elem_of_singleton. auto.
Qed.

Lemma one_fork_middle anc pre base popped : one_fork anc (pre ++ base ++ popped) -> one_fork anc base.
Proof. intros (_ & _ & (_ & ? & _)%StronglySorted_app)%StronglySorted_app. done. Qed.

(** ** What an allowed vote gives *)

Lemma is_recent_last tw s l : is_recent tw s = true -> last_voted_slot (vote_state tw) = Some l -> l < s.
Proof. unfold is_recent. intros H Hl. rewrite Hl in H. zbool. lia. Qed.

Lemma is_locked_out_false tw s ancestors :
  is_locked_out tw s ancestors = Returns false ->
  let st' := process_next_vote_slot (vote_state tw) s (current_epoch (vote_state tw)) in
  is_recent tw s = true /\ (forall x, x ∈ tower st' -> x = s \/ x ∈ ancestors)
  /\ (forall r, root_slot st' = Some r -> r = s \/ r ∈ ancestors).
Proof.
  unfold is_locked_out, process_slot_vote_unchecked. rewrite process_vote_unchecked_eq.
  destruct (is_recent tw s); [|done]. cbn [negb mbind outcome_bind].
  set (st' := process_next_vote_slot _ _ _). destruct (existsb _ _) eqn:E; [done|].
  intros Hroot. split_and!; [done| |].
  - intros x (v & -> & Hv)%list_elem_of_fmap. apply not_true_iff_false in E.
    destruct (decide (slot v = s)) as [|Hne]; [by left|right]. apply dec_stable. intros Hno. apply E.
    apply existsb_exists. exists v. split; [by apply list_elem_of_In|].
    rewrite bool_decide_eq_false_2 by done. apply andb_true_iff. split; [|done].
    apply negb_true_iff, Z.eqb_neq. congruence.
  - intros r Hr. rewrite Hr in Hroot. unfold assert_ in Hroot. destruct (_ || _) eqn:Eo; [|done].
    apply orb_true_iff in Eo as [->%Z.eqb_eq|?%bool_decide_eq_true]; [by left|by right].
Qed.

(** [record_bank_vote_and_update_lockouts] in terms of the tower update. *)
Lemma record_vote_eq tw s hash bank_last direct now r last :
  root_slot (vote_state tw) = Some r -> tw_last_voted_slot tw = Returns last ->
  let st' := process_next_vote_slot (vote_state tw) s (current_epoch (vote_state tw)) in
  forall r', root_slot st' = Some r' ->
  exists tw', record_bank_vote_and_update_lockouts tw s hash bank_last direct now
    = Returns (tw', if negb (r =? r') then Some r' else None)
  /\ vote_state tw' = st'
  /\ vt_slots (last_vote tw') = (if direct then tower st'
       else match bank_last with Some l => skip_voted l (tower st') | None => tower st' end)
  /\ vt_hash (last_vote tw') = hash
  /\ stray_restored_slot tw' = stray_restored_slot tw.
Proof.
  intros Hr Hl st' r' Hr'. unfold record_bank_vote_and_update_lockouts, apply_vote_and_generate_vote_diff, tw_root.
  rewrite Hr. rewrite process_vote_unchecked_eq. fold st'. cbn [unwrap mbind outcome_bind].
  destruct direct; cbn [mbind outcome_bind]; rewrite Hl; cbn [mbind outcome_bind];
    destruct (maybe_timestamp _ _ _) as [ts t]; cbn [vote_state with_last_vote with_vote_state];
    rewrite Hr'; cbn [unwrap mbind outcome_bind]; eexists; split_and!; try done.
Qed.

Lemma skip_voted_last x l s : last l = Some s -> x < s -> last (skip_voted x l) = Some s.
Proof.
  intros Hl Hx. induction l as [|y l IH]; [done|]. cbn [skip_voted]. destruct (Z.leb_spec y x); [|done].
  destruct l as [|z l]; [cbn in Hl; simplify_eq; lia|]. apply IH. done.
Qed.

Lemma tw_last_voted_slot_eq tw : tw_last_voted_slot tw = Returns (last (vt_slots (last_vote tw))).
Proof.
  unfold tw_last_voted_slot, vt_slots, vsu_slots. destruct (last_vote tw) as [v|u]; cbn.
  - destruct (slots v) as [|x l] eqn:E; [done|]. rewrite last_lookup. cbn [length Nat.pred].
    rewrite Nat.sub_succ, Nat.sub_0_r.
    destruct (lookup_lt_is_Some_2 (x :: l) (length l)) as [y Hy]; [cbn; lia|]. rewrite Hy. done.
  - destruct (lockouts u) as [|x l] eqn:E; [done|]. rewrite last_lookup, length_map. cbn [length Nat.pred].
    rewrite Nat.sub_succ, Nat.sub_0_r. rewrite list_lookup_fmap.
    destruct (lookup_lt_is_Some_2 (x :: l) (length l)) as [y Hy]; [cbn; lia|]. rewrite Hy. done.
Qed.

(** The votes still locked out at a slot are ancestors of it, if the tower allows a
    vote for the slot. *)
Lemma locked_votes_are_ancestors tw s ancestors v :
  tower_ok tw -> is_locked_out tw s ancestors = Returns false ->
  v ∈ votes (vote_state tw) -> is_locked_out_at_slot v s = true -> slot v ∈ ancestors.
Proof.
  intros [_ Hwf _] (Hrec & Hvotes & Hroot)%is_locked_out_false Hv Hlk.
  assert (forall l, last_voted_slot (vote_state tw) = Some l -> l < s) as Hnew
    by (intros l; by apply is_recent_last).
  assert (slot v <> s) as Hne.
  { destruct (last (votes (vote_state tw))) as [l|] eqn:El; [|apply last_None in El; rewrite El in Hv; by apply not_elem_of_nil in Hv].
    pose proof (tower_slots_below _ _ _ _ (proj1 Hwf) El Hv).
    assert (slot l < s); [|lia]. apply Hnew. unfold last_voted_slot, last_lockout. by rewrite El. }
  destruct (next_vote_keeps_locked _ s (current_epoch (vote_state tw)) v Hwf Hnew Hv Hlk)
    as [Hr|(v' & Hv' & Hs & _)].
  - destruct (Hroot _ Hr); [congruence|done].
  - destruct (Hvotes (slot v')) as [|Hin]; [by apply list_elem_of_fmap_2|congruence|]. by rewrite <- Hs.
Qed.

(** A vote the tower allows: it is recorded, the tower stays well formed and on one
    fork, and a new root is an earlier vote below the new one. *)
Lemma record_vote_ok anc tw s ancestors hash bank_last direct now :
  tower_ok tw -> slot_small s -> one_fork anc (tower (vote_state tw)) -> ancestors ⊆ anc s ->
  (forall l, bank_last = Some l -> l < s) ->
  is_locked_out tw s ancestors = Returns false ->
  exists tw' new_root, record_bank_vote_and_update_lockouts tw s hash bank_last direct now
      = Returns (tw', new_root)
    /\ tower_ok tw' /\ one_fork anc (tower (vote_state tw'))
    /\ tw_last_voted_slot_hash tw' = Returns (Some (s, hash))
    /\ last_voted_slot (vote_state tw') = Some s
    /\ (forall x, x ∈ tower (vote_state tw') -> x = s \/ (x ∈ ancestors /\ x ∈ tower (vote_state tw)))
    /\ (forall r, new_root = Some r -> r ∈ ancestors /\ r ∈ tower (vote_state tw)).
Proof.
  intros [[r Hr] Hwf Hpos] Hs Hfork Hanc Hbank Hout.
  destruct (is_locked_out_false _ _ _ Hout) as (Hrec & Hvotes & Hroot).
  assert (forall l, last_voted_slot (vote_state tw) = Some l -> l < s) as Hnew
    by (intros l; by apply is_recent_last).
  set (st' := process_next_vote_slot _ _ _) in *.
  destruct (next_vote_tower_wf _ s (current_epoch (vote_state tw)) Hwf Hpos Hs Hnew) as (Hwf' & Hpos' & Hlast).
  destruct (next_vote_slots _ s (current_epoch (vote_state tw)) Hnew) as (pre & base & popped & Et & Et' & Hcase).
  fold st' in Hwf', Hpos', Hlast, Et', Hcase.
  assert (forall x, x ∈ tower (vote_state tw) -> x < s) as Hlow.
  { intros x (v & -> & Hv)%list_elem_of_fmap. by apply (old_votes_below _ _ Hwf Hnew). }
  assert (exists r', root_slot st' = Some r' /\ (r' = r \/ pre = [r'])) as (r' & Hr' & Hrr).
  { destruct Hcase as [->|(r' & -> & ->)]; eauto. }
  destruct (record_vote_eq tw s hash bank_last direct now r _ Hr (tw_last_voted_slot_eq tw) r' Hr')
    as (tw' & E & Est & Evt & Eh & _). fold st' in Est, Evt.
  assert (last (tower st') = Some s) as Hl' by (by rewrite Et', last_snoc).
  exists tw', (if negb (r =? r') then Some r' else None). rewrite Est. split_and!; [done| | | |done| |].
  - constructor; rewrite Est; eauto.
  - rewrite Et'. apply one_fork_snoc; [by rewrite Et in Hfork; eapply one_fork_middle|].
    intros x Hx. apply Hanc. destruct (Hvotes x) as [->|]; [rewrite Et'; set_solver| |done].
    specialize (Hlow s). rewrite Et in Hlow. assert (s < s); [apply Hlow; set_solver|lia].
  - unfold tw_last_voted_slot_hash. rewrite tw_last_voted_slot_eq, Evt, Eh. cbn [mbind outcome_bind].
    destruct direct; [by rewrite Hl'|]. destruct bank_last as [l|]; [|by rewrite Hl'].
    by rewrite (skip_voted_last l _ s) by auto.
  - intros x Hx. destruct (Hvotes x Hx) as [|Hin]; [by left|]. rewrite Et' in Hx.
    apply elem_of_app in Hx as [Hx|Hx%list_elem_of_singleton]; [|by left].
    right. split; [done|]. rewrite Et. set_solver.
  - intros r1. destruct (Z.eqb_spec r r') as [|Hne]; [done|]. intros [= <-].
    destruct Hrr as [|Hpre]; [congruence|].
    assert (r' ∈ tower (vote_state tw)) as Hin by (rewrite Et, Hpre; by left). split; [|done].
    destruct (Hroot r' Hr') as [->|]; [|done]. specialize (Hlow s Hin). lia.
Qed.
