(* ===== verification/TowerCollect.v ===== *)
(** * The votes landed in a bank

    What [collect_vote_lockouts] computes: the stake that has voted for a slot or a
    descendant of it, the lockout intervals of the vote accounts, and the total
    stake; and that it does not panic on the vote accounts of a bank. *)

From S2P Require Import Prelude Errors Float64 AuthorizedVoters VoteState VoteTower EpochSchedule ForkChoice LatestVotes SlotHistory ProgressMap Tower TowerSafety.

(** The slot an account's stake is counted for: its newest vote that is still locked
    out at the bank. *)
Definition landed_vote (bank_slot : Slot) (st : VoteState) : option Slot :=
  slot <$> last (pop_expired_votes (votes st) bank_slot).

(** The stake an account gives to a slot. *)
Definition stake_for (ancestors : Ancestors) (bank_slot s : Slot) (e : Z * VoteAccount) : Z :=
  match va_vote_state e.2 with
  | Ok st =>
      match landed_vote bank_slot st with
      | Some v =>
          match ancestors !! v with
          | Some a => if decide (s = v \/ s ∈ a) then e.1 else 0
          | None => 0
          end
      | None => 0
      end
  | Err _ => 0
  end.

(** The stake of an account with a vote state. *)
Definition voting_stake (e : Z * VoteAccount) : Z :=
  match va_vote_state e.2 with Ok _ => e.1 | Err _ => 0 end.

(** The account has a vote on [start] that is locked out until [ends]. *)
Definition has_lockout (e : Z * VoteAccount) (ends start : Slot) : Prop :=
  e.1 <> 0 /\ exists st v, va_vote_state e.2 = Ok st /\ v ∈ votes st
    /\ slot v = start /\ last_locked_out_slot v = ends.

(** ** One vote account *)

Lemma bump_lookup (vs : gmap Slot Z) x stake s :
  default 0 (<[x := wrap64 (default 0 (vs !! x) + stake)]> vs !! s)
  = if decide (s = x) then wrap64 (default 0 (vs !! s) + stake) else default 0 (vs !! s).
Proof.
  destruct (decide (s = x)) as [->|Hne]; [by rewrite lookup_insert_eq|by rewrite lookup_insert_ne].
Qed.

Lemma bump_list_lookup l : forall (vs : gmap Slot Z) stake s,
  NoDup l ->
  default 0 (foldl (fun vs x => <[x := wrap64 (default 0 (vs !! x) + stake)]> vs) vs l !! s)
  = if decide (s ∈ l) then wrap64 (default 0 (vs !! s) + stake) else default 0 (vs !! s).
Proof.
  induction l as [|x l IH]; intros vs stake s Hnd.
  { rewrite decide_False; [done|apply not_elem_of_nil]. }
  apply NoDup_cons in Hnd as [Hx Hnd]. cbn [foldl]. rewrite IH, bump_lookup by done.
  destruct (decide (s = x)) as [->|Hne].
  - rewrite decide_False by done. by rewrite decide_True by left.
  - destruct (decide (s ∈ l)); [by rewrite decide_True by (by right)|].
    rewrite decide_False; [done|]. by intros [?|?]%elem_of_cons.
Qed.

Lemma update_ancestor_lookup voted_stakes v stake ancestors s :
  (forall a, ancestors !! v = Some a -> v ∉ a) ->
  default 0 (update_ancestor_voted_stakes voted_stakes v stake ancestors !! s)
  = match ancestors !! v with
    | Some a => if decide (s = v \/ s ∈ a) then wrap64 (default 0 (voted_stakes !! s) + stake)
                else default 0 (voted_stakes !! s)
    | None => default 0 (voted_stakes !! s)
    end.
Proof.
  intros Hirr. unfold update_ancestor_voted_stakes. destruct (ancestors !! v) as [a|] eqn:Ea; [|done].
  specialize (Hirr a eq_refl).
  pose proof (bump_list_lookup (v :: elements a) voted_stakes stake s) as E. cbn [foldl] in E. rewrite E.
  - destruct (decide (s ∈ v :: elements a)) as [Hin|Hin]; rewrite elem_of_cons, elem_of_elements in Hin.
    + by rewrite decide_True.
    + by rewrite decide_False.
  - apply NoDup_cons. split; [by rewrite elem_of_elements|apply NoDup_elements].
Qed.

(** The vote below the simulated one. *)
Lemma simulated_votes st bank_slot epoch :
  (forall l, last_voted_slot st = Some l -> l < bank_slot) ->
  let st' := process_next_vote_slot st bank_slot epoch in
  option_map slot (nth_recent_vote st' 0) = Some bank_slot
  /\ option_map slot (nth_recent_vote st' 1) = landed_vote bank_slot st.
Proof.
  intros Hnew st'. destruct (process_next_vote_slot_shape st bank_slot epoch Hnew) as (base & Hv & Hcase).
  assert (forall i, option_map slot (nth_recent_vote st' i)
    = if (i <? length (votes st'))%nat then tower st' !! (length (votes st') - 1 - i)%nat else None) as Hnth.
  { intros i. unfold nth_recent_vote, tower. destruct (_ <? _)%nat; [|done].
    by rewrite list_lookup_fmap. }
  assert (tower st' = map slot base ++ [bank_slot]) as Ht.
  { unfold tower, st'. rewrite Hv. unfold double_lockouts. by rewrite double_lockouts_from_slots, map_app. }
  assert (length (votes st') = S (length base)) as Hlen.
  { rewrite <- (length_map slot). unfold tower in Ht. rewrite Ht, length_app, length_map. cbn. lia. }
  rewrite !Hnth, Hlen, Ht. split.
  - replace (S (length base) - 1 - 0)%nat with (length (map slot base)) by (rewrite length_map; lia).
    rewrite list_lookup_middle by done. done.
  - assert (slot <$> last (pop_expired_votes (votes st) bank_slot) = last (map slot base)) as E.
    { destruct Hcase as [(_ & -> & _)|(o & Hl & Ho & _)]; [by rewrite fmap_last|].
      rewrite Ho in Hl |- *. destruct base as [|b base]; [done|]. rewrite last_cons_cons. by rewrite <- fmap_last. }
    unfold landed_vote. rewrite E, last_lookup, length_map.
    destruct base as [|b base]; [done|]. cbn [length]. rewrite lookup_app_l by (cbn; rewrite length_map; lia).
    replace (1 <? S (S (length base)))%nat with true by (symmetry; apply Nat.ltb_lt; lia). f_equal. lia.
Qed.

Lemma elem_of_push_interval key intervals v ends start pk :
  (start, pk) ∈ default [] (push_interval key intervals v !! ends) <->
    (start, pk) ∈ default [] (intervals !! ends)
    \/ (pk = key /\ slot v = start /\ last_locked_out_slot v = ends).
Proof.
  unfold push_interval. destruct (decide (last_locked_out_slot v = ends)) as [<-|Hne].
  - rewrite lookup_insert_eq. cbn [default from_option id]. rewrite elem_of_app, list_elem_of_singleton.
    split; (intros [?|H]; [by left|right]); [by injection H|destruct H as (-> & <- & _); done].
  - rewrite lookup_insert_ne by done. split; [by left|]. by intros [?|(_ & _ & ?)].
Qed.

Lemma elem_of_push_intervals key vs : forall intervals ends start pk,
  (start, pk) ∈ default [] (foldl (push_interval key) intervals vs !! ends) <->
    (start, pk) ∈ default [] (intervals !! ends)
    \/ (pk = key /\ exists v, v ∈ vs /\ slot v = start /\ last_locked_out_slot v = ends).
Proof.
  induction vs as [|v vs IH]; intros intervals ends start pk; cbn [foldl].
  { split; [by left|]. intros [?|(_ & v & Hv & _)]; [done|by apply not_elem_of_nil in Hv]. }
  rewrite IH, elem_of_push_interval. setoid_rewrite elem_of_cons. split.
  - intros [[?|(? & ? & ?)]|(? & w & ? & ? & ?)]; eauto 8.
  - intros [?|(? & w & [->|?] & ? & ?)]; eauto 8.
Qed.

(** What the loop has collected from the accounts [l] on top of [c]. *)
Record collected (ancestors : Ancestors) (bank_slot : Slot) (c c' : Collect)
    (l : list (Pubkey * (Z * VoteAccount))) : Prop := {
  cd_votes : lv_ok (co_latest_votes c');
  cd_total : cb_total_stake (co_state c')
    = wrap64 (cb_total_stake (co_state c) + zsum (fun e => voting_stake e.2) l);
  cd_stakes : forall s, default 0 (cb_voted_stakes (co_state c') !! s)
    = wrap64 (default 0 (cb_voted_stakes (co_state c) !! s)
              + zsum (fun e => stake_for ancestors bank_slot s e.2) l);
  cd_intervals : forall ends start pk,
    (start, pk) ∈ default [] (cb_lockout_intervals (co_state c') !! ends) <->
      (start, pk) ∈ default [] (cb_lockout_intervals (co_state c) !! ends)
      \/ exists acc, (pk, acc) ∈ l /\ has_lockout acc ends start;
}.

Lemma collected_trans ancestors bank_slot c1 c2 c3 l1 l2 :
  collected ancestors bank_slot c1 c2 l1 -> collected ancestors bank_slot c2 c3 l2 ->
  collected ancestors bank_slot c1 c3 (l1 ++ l2).
Proof.
  intros [_ T1 S1 I1] [V2 T2 S2 I2]. constructor; [done|..].
  - rewrite T2, T1, wrap64_add_l, zsum_app. f_equal. lia.
  - intros s. rewrite S2, S1, wrap64_add_l, zsum_app. f_equal. lia.
  - intros ends start pk. rewrite I2, I1. setoid_rewrite elem_of_app. split.
    + intros [[?|(acc & ? & ?)]|(acc & ? & ?)]; eauto 6.
    + intros [?|(acc & [?|?] & ?)]; eauto 6.
Qed.

(** An account that is skipped. *)
Lemma collected_skip ancestors bank_slot c key e :
  lv_ok (co_latest_votes c) -> u64 (cb_total_stake (co_state c)) ->
  (forall s, u64 (default 0 (cb_voted_stakes (co_state c) !! s))) ->
  (e.1 = 0 \/ exists err, va_vote_state e.2 = Err err) ->
  collected ancestors bank_slot c c [(key, e)].
Proof.
  intros Hlv Ht Hs He.
  assert (voting_stake e = 0) as E1.
  { unfold voting_stake. destruct He as [He|[err He]]; rewrite He; [by destruct (va_vote_state _)|done]. }
  assert (forall s, stake_for ancestors bank_slot s e = 0) as E2.
  { intros s. unfold stake_for. destruct He as [He|[err He]]; rewrite He; [by repeat case_match|done]. }
  constructor; [done|..].
  - cbn. rewrite E1, wrap64_small; [lia|]. by rewrite Z.add_0_r.
  - intros s. cbn. rewrite E2, wrap64_small; [lia|]. rewrite Z.add_0_r. apply Hs.
  - intros ends start pk. split; [by left|]. intros [?|(acc & Hin & Hl)]; [done|]. exfalso.
    apply list_elem_of_singleton in Hin. injection Hin as -> ->.
    destruct Hl as (Hz & st & v & Hst & _). destruct He as [|[err He]]; [done|]. by rewrite He in Hst.
Qed.

Section Collect.
Context (vote_account_pubkey : Pubkey) (bank_slot : Slot) (ancestors : Ancestors)
  (get_frozen_hash : Slot -> option Hash).
Hypothesis Hirr : forall v a, ancestors !! v = Some a -> v ∉ a.

(** The votes of an account are older than the bank. *)
Definition account_ok (e : Z * VoteAccount) : Prop :=
  forall st l, va_vote_state e.2 = Ok st -> last_voted_slot st = Some l -> l < bank_slot.

Lemma collect_account_ok c key e :
  lv_ok (co_latest_votes c) -> u64 (cb_total_stake (co_state c)) ->
  (forall s, u64 (default 0 (cb_voted_stakes (co_state c) !! s))) -> account_ok e ->
  exists c', collect_account vote_account_pubkey bank_slot ancestors get_frozen_hash c key e.1 e.2 = Returns c'
    /\ collected ancestors bank_slot c c' [(key, e)].
Proof.
  intros Hlv Ht Hs Hok. unfold collect_account.
  destruct (Z.eqb_spec e.1 0) as [Hz|Hz]; [exists c; split; [done|apply collected_skip; auto]|].
  destruct (va_vote_state e.2) as [st|err] eqn:Est; [|exists c; split; [done|apply collected_skip; eauto]].
  assert (exists lv', (match last_voted_slot st with
     | Some s => '(lv, _) ← check_add_vote (co_latest_votes c) key s (get_frozen_hash s) true; Returns lv
     | None => Returns (co_latest_votes c) end) = Returns lv' /\ lv_ok lv') as (lv' & -> & Hlv').
  { destruct (last_voted_slot st) as [s|]; [|eauto].
    destruct (check_add_vote_ok (co_latest_votes c) key s (get_frozen_hash s) true Hlv) as (lv' & r & -> & ?).
    cbn. eauto. }
  cbn [mbind outcome_bind]. unfold process_slot_vote_unchecked. rewrite process_vote_unchecked_eq.
  cbn [mbind outcome_bind]. set (st' := process_next_vote_slot _ _ _).
  destruct (simulated_votes st bank_slot (current_epoch st)) as [E0 E1]; [intros l; by apply Hok|].
  fold st' in E0, E1. rewrite E0, bool_decide_eq_true_2 by done. cbn [assert_ mbind outcome_bind].
  eexists. split; [done|]. constructor; cbn [co_state co_latest_votes cb_total_stake cb_voted_stakes cb_lockout_intervals zsum]; [done|..].
  - unfold voting_stake. cbn. rewrite Est. f_equal. lia.
  - intros s. unfold stake_for. cbn [snd fst]. rewrite Est, <- E1.
    destruct (nth_recent_vote st' 1) as [v|]; cbn [option_map].
    2:{ rewrite wrap64_small; [lia|]. rewrite Z.add_0_r. apply Hs. }
    rewrite update_ancestor_lookup by (intros a; apply Hirr).
    assert (wrap64 (default 0 (cb_voted_stakes (co_state c) !! s) + (0 + 0)) = default 0 (cb_voted_stakes (co_state c) !! s))
      as E by (rewrite wrap64_small; [lia|]; rewrite Z.add_0_r; apply Hs).
    destruct (ancestors !! slot v) as [a|]; [|done]. destruct (decide _); [f_equal; lia|done].
  - intros ends start pk. rewrite elem_of_push_intervals. split.
    + intros [?|(-> & v & ? & ? & ?)]; [by left|right]. exists e. split; [by left|]. split; [done|]. eauto 8.
    + intros [?|(acc & Hin & _ & st1 & v & Hst & ? & ? & ?)]; [by left|right].
      apply list_elem_of_singleton in Hin. injection Hin as -> ->. rewrite Est in Hst. injection Hst as <-.
      eauto 8.
Qed.

Lemma collect_accounts_ok l : forall c,
  lv_ok (co_latest_votes c) -> u64 (cb_total_stake (co_state c)) ->
  (forall s, u64 (default 0 (cb_voted_stakes (co_state c) !! s))) ->
  (forall key e, (key, e) ∈ l -> account_ok e) ->
  exists c', collect_accounts vote_account_pubkey bank_slot ancestors get_frozen_hash c l = Returns c'
    /\ collected ancestors bank_slot c c' l.
Proof.
  induction l as [|[key [stake account]] l IH]; intros c Hlv Ht Hs Hok; cbn [collect_accounts].
  { exists c. split; [done|]. constructor; [done|..].
    - cbn. by rewrite Z.add_0_r, wrap64_small.
    - intros s. cbn. by rewrite Z.add_0_r, wrap64_small.
    - intros ends start pk. split; [by left|]. intros [?|(acc & Hin & _)]; [done|by apply not_elem_of_nil in Hin]. }
  destruct (collect_account_ok c key (stake, account) Hlv Ht Hs) as (c1 & E1 & Hc1); [by apply (Hok key); left|].
  cbn [fst snd] in E1. rewrite E1. cbn [mbind outcome_bind].
  destruct (IH c1) as (c2 & E2 & Hc2).
  - apply Hc1.
  - rewrite (cd_total _ _ _ _ _ Hc1). apply wrap64_bound.
  - intros s. rewrite (cd_stakes _ _ _ _ _ Hc1). apply wrap64_bound.
  - intros key' e' Hin. apply (Hok key'). by right.
  - exists c2. split; [done|]. by apply (collected_trans _ _ _ c1 _ [(key, (stake, account))]).
Qed.
End Collect.

(** [populate_ancestor_voted_stakes] only adds zeros. *)
Lemma or_default_lookup vs x (s : Slot) : default 0 (or_default_stake vs x !! s) = default 0 (vs !! s).
Proof.
  unfold or_default_stake. destruct (decide (s = x)) as [->|]; [by rewrite lookup_insert_eq|by rewrite lookup_insert_ne].
Qed.

Lemma populate_lookup vs slots ancestors (s : Slot) :
  default 0 (populate_ancestor_voted_stakes vs slots ancestors !! s) = default 0 (vs !! s).
Proof.
  assert (forall (l : list Slot) vs, default 0 (foldl or_default_stake vs l !! s) = default 0 (vs !! s)) as Hl.
  { induction l as [|x l IH]; intros vs'; cbn [foldl]; [done|]. by rewrite IH, or_default_lookup. }
  unfold populate_ancestor_voted_stakes. generalize (elements slots). intros l.
  revert vs. induction l as [|x l IH]; intros vs; cbn [foldl]; [done|]. rewrite IH.
  destruct (ancestors !! x); [|done]. by rewrite Hl, or_default_lookup.
Qed.

(** C18: What the vote accounts of a bank give to the slots below it.  On vote accounts
    whose votes are older than the bank, [collect_vote_lockouts] does not panic; the
    voted stake of every slot is the stake of the accounts whose newest unexpired
    vote is on the slot or on a descendant of it, modulo 2^64; the lockout intervals
    are exactly the lockouts of the accounts with stake; and the total is the stake of
    all accounts that have a vote state. *)
Theorem collect_vote_lockouts_spec vote_account_pubkey bank_slot vote_accounts ancestors get_frozen_hash lv :
  lv_ok lv ->
  (forall v a, ancestors !! v = Some a -> v ∉ a) ->
  (forall key e, vote_accounts !! key = Some e -> account_ok bank_slot e) ->
  exists cb lv', collect_vote_lockouts vote_account_pubkey bank_slot vote_accounts ancestors get_frozen_hash lv
      = Returns (cb, lv') /\ lv_ok lv'
    /\ cb_total_stake cb = wrap64 (msum (fun _ => voting_stake) vote_accounts)
    /\ (forall s, default 0 (cb_voted_stakes cb !! s)
          = wrap64 (msum (fun _ => stake_for ancestors bank_slot s) vote_accounts))
    /\ (forall ends start pk, (start, pk) ∈ default [] (cb_lockout_intervals cb !! ends) <->
          exists e, vote_accounts !! pk = Some e /\ has_lockout e ends start).
Proof.
  intros Hlv Hirr Hok. unfold collect_vote_lockouts.
  destruct (collect_accounts_ok vote_account_pubkey bank_slot ancestors get_frozen_hash Hirr
    (map_to_list vote_accounts) (collect_init lv)) as (c & -> & [Hv Ht Hs Hi]); [done|u_unfold; cbn; lia|..].
  - intros s. cbn. rewrite lookup_empty. u_unfold. cbn. lia.
  - intros key e ?%elem_of_map_to_list. by eapply Hok.
  - cbn [mbind outcome_bind]. eexists _, _. split; [done|]. cbn. split_and!; [done|done| |].
    + intros s. rewrite populate_lookup, Hs. cbn. by rewrite lookup_empty.
    + intros ends start pk. rewrite Hi. cbn. rewrite lookup_empty. cbn. split.
      * intros [H%not_elem_of_nil|(e & ?%elem_of_map_to_list & ?)]; [done|eauto].
      * intros (e & ? & ?). right. exists e. by rewrite elem_of_map_to_list.
Qed.
