(* ===== verification/TowerSwitch.v ===== *)
(** * Switching forks

    When [make_check_switch_threshold_decision] answers which decision: a switch
    proof needs the stake of vote accounts that are locked out on another fork at the
    last vote, or have voted on another fork since, to pass the threshold; a failed
    switch reports the stake of all such accounts; and the function does not panic
    on coherent maps. *)

From S2P Require Import Prelude Errors Float64 AuthorizedVoters VoteState VoteTower EpochSchedule ForkChoice LatestVotes SlotHistory ProgressMap Tower TowerSafety.

Section SwitchProof.
Context (ancestors descendants : Ancestors) (progress : ProgressMap) (total_stake : Z)
  (epoch_vote_accounts : gmap Pubkey (Z * VoteAccount)) (lv : LatestValidatorVotesForFrozenBanks).
Context (last_voted_slot root : Slot) (last_vote_ancestors : gset Slot).

(** A lockout interval on a slot above the root that is not below the last vote. *)
Definition diverges (start : Slot) : Prop := (start ∉ last_vote_ancestors) /\ root < start.

(** The bank at the slot is the latest with statistics on a fork that does not contain
    the last vote. *)
Definition other_tip (c : Slot) (ds : gset Slot) : Prop :=
  is_computed progress c = true /\ (forall d, d ∈ ds -> is_computed progress d = false)
  /\ c <> last_voted_slot /\ (exists a, ancestors !! c = Some a /\ last_voted_slot ∉ a) /\ root < c.

(** The account is locked out at the last vote, in the tip of another fork. *)
Definition locked_at (c : Slot) (pk : Pubkey) : Prop :=
  exists stats ends l start, get_fork_stats progress c = Some stats
    /\ fs_lockout_intervals stats !! ends = Some l /\ (start, pk) ∈ l
    /\ last_voted_slot <= ends /\ diverges start.

Definition locked_out_in_bank (pk : Pubkey) : Prop :=
  exists c ds, descendants !! c = Some ds /\ other_tip c ds /\ locked_at c pk.

(** The account was seen in gossip to vote, after the last vote, for a bank that does
    not descend from it. *)
Definition voted_elsewhere (pk : Pubkey) : Prop :=
  exists s hs a, max_gossip_frozen_votes lv !! pk = Some (s, hs) /\ last_voted_slot < s
    /\ ancestors !! s = Some a /\ last_voted_slot ∉ a.

Definition on_other_fork (pk : Pubkey) : Prop := locked_out_in_bank pk \/ voted_elsewhere pk.

(** The stake of a set of accounts, as the loop adds it up, and whether it is enough. *)
Definition stake_of (L : gset Pubkey) : Z :=
  wrap64 (zsum (epoch_stake epoch_vote_accounts) (elements L)).
Definition enough (L : gset Pubkey) : bool := stake_above (stake_of L) total_stake SWITCH_FORK_THRESHOLD.

Definition lo_ok (lo : LockedOut) : Prop :=
  locked_out_stake lo = stake_of (locked_out_vote_accounts lo)
  /\ enough (locked_out_vote_accounts lo) = false.

(** A loop counted the accounts [P] on top of [lo], or stopped with enough of them. *)
Definition counted (lo : LockedOut) (P : Pubkey -> Prop) (r : option LockedOut) : Prop :=
  match r with
  | Some lo' => lo_ok lo' /\ forall pk, pk ∈ locked_out_vote_accounts lo' <->
                  pk ∈ locked_out_vote_accounts lo \/ P pk
  | None => exists L : gset Pubkey, (forall pk, pk ∈ L -> pk ∈ locked_out_vote_accounts lo \/ P pk) /\ enough L = true
  end.

Lemma counted_none lo P : lo_ok lo -> (forall pk, P pk -> pk ∈ locked_out_vote_accounts lo) -> counted lo P (Some lo).
Proof. intros Hlo HP. split; [done|]. intros pk. split; [by left|]. intros [?|?]; auto. Qed.

Lemma counted_iff lo (P Q : Pubkey -> Prop) r : (forall pk, P pk <-> Q pk) -> counted lo P r -> counted lo Q r.
Proof.
  intros E. destruct r as [lo'|]; cbn.
  - intros [? H]. split; [done|]. intros pk. by rewrite H, E.
  - intros (L & HL & ?). exists L. split; [|done]. intros pk Hpk. rewrite <- E. auto.
Qed.

Lemma counted_stop lo (P Q : Pubkey -> Prop) : counted lo P None -> counted lo (fun pk => P pk \/ Q pk) None.
Proof.
  intros (L & HL & He). exists L. split; [|done]. intros pk Hpk. specialize (HL pk Hpk). tauto.
Qed.

Lemma counted_trans lo lo1 (P Q : Pubkey -> Prop) r :
  counted lo P (Some lo1) -> counted lo1 Q r -> counted lo (fun pk => P pk \/ Q pk) r.
Proof.
  intros [Hlo1 Hin] Hr. unfold counted in *. destruct r as [lo2|].
  - destruct Hr as [Hlo2 Hin2]. split; [done|]. intros pk. rewrite Hin2, Hin. tauto.
  - destruct Hr as (L & HL & He). exists L. split; [|done]. intros pk Hpk.
    specialize (HL pk Hpk). rewrite Hin in HL. tauto.
Qed.

Lemma counted_bind lo (P Q : Pubkey -> Prop) r (f : LockedOut -> option LockedOut) :
  counted lo P r -> (forall lo', lo_ok lo' -> counted lo' Q (f lo')) ->
  counted lo (fun pk => P pk \/ Q pk) (r ≫= f).
Proof.
  intros Hr Hf. destruct r as [lo1|]; [|by apply counted_stop].
  apply (counted_trans _ lo1); [done|]. apply Hf. apply Hr.
Qed.

Lemma counted_one lo pk :
  lo_ok lo -> pk ∉ locked_out_vote_accounts lo ->
  counted lo (fun x => x = pk) (count_locked_out total_stake epoch_vote_accounts lo pk).
Proof.
  intros [Hs He] Hpk. unfold count_locked_out, counted.
  assert (wrap64 (locked_out_stake lo + epoch_stake epoch_vote_accounts pk)
    = stake_of ({[pk]} ∪ locked_out_vote_accounts lo)) as ->.
  { rewrite Hs. unfold stake_of. rewrite wrap64_add_l. f_equal.
    rewrite (zsum_perm _ _ _ (elements_union_singleton _ _ Hpk)). cbn [zsum]. lia. }
  destruct (stake_above _ _ _) eqn:E; cbn.
  - exists ({[pk]} ∪ locked_out_vote_accounts lo). split; [|done].
    intros x [?%elem_of_singleton|?]%elem_of_union; [by right|by left].
  - split; [by split|]. intros x. rewrite elem_of_union, elem_of_singleton. tauto.
Qed.

Lemma count_interval_counted lo i :
  lo_ok lo ->
  counted lo (fun pk => i.2 = pk /\ diverges i.1)
    (count_interval total_stake epoch_vote_accounts root last_vote_ancestors lo i).
Proof.
  intros Hlo. unfold count_interval. destruct (decide _) as [Hin|Hin].
  { apply counted_none; [done|]. by intros pk [<- _]. }
  destruct (_ && _) eqn:E.
  - apply andb_true_iff in E as [Hd%negb_true_iff%bool_decide_eq_false Hr%Z.ltb_lt].
    apply (counted_iff _ (fun x => x = i.2)); [|by apply counted_one].
    intros pk. split; [by intros ->|by intros [-> _]].
  - apply counted_none; [done|]. intros pk [_ [Hd Hr]]. exfalso.
    rewrite bool_decide_eq_false_2 in E by done. cbn in E. zbool. lia.
Qed.

Lemma count_intervals_counted l : forall lo,
  lo_ok lo ->
  counted lo (fun pk => exists start, (start, pk) ∈ l /\ diverges start)
    (count_intervals total_stake epoch_vote_accounts root last_vote_ancestors lo l).
Proof.
  induction l as [|i l IH]; intros lo Hlo; cbn [count_intervals].
  { apply counted_none; [done|]. intros pk (s & Hs & _). by apply not_elem_of_nil in Hs. }
  eapply counted_iff; [|apply counted_bind; [by apply count_interval_counted|exact IH]].
  intros pk. cbn beta. split.
  - intros [[<- Hd]|(s & Hs & Hd)]; [exists i.1|exists s]; (split; [|done]); [|by right].
    rewrite <- surjective_pairing. by left.
  - intros (s & [<-|Hs]%elem_of_cons & Hd); [by left|right; eauto].
Qed.

Lemma elem_of_intervals_at intervals start pk :
  (start, pk) ∈ intervals_at last_voted_slot intervals <->
    exists ends l, intervals !! ends = Some l /\ last_voted_slot <= ends /\ (start, pk) ∈ l.
Proof.
  unfold intervals_at. rewrite list_elem_of_In, in_flat_map. split.
  - intros ([ends l] & He%list_elem_of_In & Hl%list_elem_of_In).
    apply list_elem_of_filter in He as [Hle He%elem_of_btree_iterZ]. eauto.
  - intros (ends & l & He & Hle & Hl). exists (ends, l). split; [|by apply list_elem_of_In].
    apply list_elem_of_In, list_elem_of_filter. split; [done|]. by apply elem_of_btree_iterZ.
Qed.

(** The conditions on a candidate decide whether it is the tip of another fork. *)
Lemma skip_candidate_spec c ds b :
  skip_candidate ancestors progress last_voted_slot root c ds = Returns b ->
  b = true /\ ~ other_tip c ds \/ b = false /\ other_tip c ds.
Proof.
  unfold skip_candidate, other_tip. destruct (is_computed progress c); [|intros [= <-]; left; split; [done|]; by intros (? & _)].
  destruct (existsb _ _) eqn:Ee; cbn [negb].
  { intros [= <-]. left. split; [done|]. intros (_ & Hd & _). apply existsb_exists in Ee as (d & Hin & Hc).
    rewrite Hd in Hc; [done|]. by apply elem_of_elements, list_elem_of_In. }
  assert (forall d, d ∈ ds -> is_computed progress d = false) as Hds.
  { intros d Hd. apply not_true_iff_false. intros Hc. apply not_true_iff_false in Ee. apply Ee.
    apply existsb_exists. exists d. split; [by apply list_elem_of_In, elem_of_elements|done]. }
  destruct (Z.eqb_spec c last_voted_slot); [intros [= <-]; left; tauto|].
  unfold is_candidate_slot_descendant_of_last_vote. destruct (ancestors !! c) as [a|] eqn:Ea; [|done].
  cbn. intros [= <-]. destruct (bool_decide_reflect (last_voted_slot ∈ a)) as [Hin|Hin]; cbn.
  - left. split; [done|]. intros (_ & _ & _ & (a' & [= <-] & Hno) & _). done.
  - destruct (Z.leb_spec c root); [left; split; [done|]; lia|right; split_and!; eauto].
Qed.

Lemma count_candidate_counted lo c ds r :
  lo_ok lo ->
  count_candidate ancestors progress total_stake epoch_vote_accounts last_voted_slot root
    last_vote_ancestors lo c ds = Returns r ->
  counted lo (fun pk => other_tip c ds /\ locked_at c pk) r.
Proof.
  intros Hlo. unfold count_candidate. destruct (skip_candidate _ _ _ _ _ _) as [b|] eqn:Es; [|done].
  cbn [mbind outcome_bind]. apply skip_candidate_spec in Es as [[-> Hno]|[-> Htip]].
  { intros [= <-]. apply counted_none; [done|]. by intros pk [? _]. }
  unfold assert_. destruct (negb _); [|done]. cbn [mbind outcome_bind].
  destruct (get_fork_stats progress c) as [stats|] eqn:Est; [|done]. cbn [unwrap mbind outcome_bind].
  intros [= <-]. eapply counted_iff; [|by apply count_intervals_counted].
  intros pk. cbn beta. setoid_rewrite elem_of_intervals_at. unfold locked_at. split.
  - intros (start & (ends & l & ? & ? & ?) & ?). split; [done|]. rewrite Est. eauto 10.
  - intros (_ & stats' & ends & l & start & Hst & ? & ? & ? & ?). rewrite Est in Hst.
    injection Hst as <-. eauto 10.
Qed.

Lemma count_candidates_counted l : forall lo r,
  lo_ok lo ->
  count_candidates ancestors progress total_stake epoch_vote_accounts last_voted_slot root
    last_vote_ancestors lo l = Returns r ->
  counted lo (fun pk => exists c ds, (c, ds) ∈ l /\ other_tip c ds /\ locked_at c pk) r.
Proof.
  induction l as [|[c ds] l IH]; intros lo r Hlo; cbn [count_candidates].
  { intros [= <-]. apply counted_none; [done|]. intros pk (? & ? & H & _). by apply not_elem_of_nil in H. }
  destruct (count_candidate _ _ _ _ _ _ _ _ _ _) as [r1|] eqn:E1; [|done]. cbn [mbind outcome_bind].
  apply count_candidate_counted in E1; [|done]. intros Hr.
  assert (forall pk, (other_tip c ds /\ locked_at c pk)
      \/ (exists c' ds', (c', ds') ∈ l /\ other_tip c' ds' /\ locked_at c' pk)
    <-> exists c' ds', (c', ds') ∈ (c, ds) :: l /\ other_tip c' ds' /\ locked_at c' pk) as Hiff.
  { intros pk. split.
    - intros [?|(c' & ds' & Hin & ?)]; [exists c, ds|exists c', ds']; (split; [|done]); [by left|by right].
    - intros (c' & ds' & [[= -> ->]|Hin]%elem_of_cons & ?); [by left|right; eauto]. }
  eapply counted_iff; [exact Hiff|]. destruct r1 as [lo1|].
  - apply (counted_trans _ lo1); [done|]. apply IH; [apply E1|done].
  - injection Hr as <-. by apply counted_stop.
Qed.

Lemma count_gossip_counted lo pk s :
  lo_ok lo ->
  counted lo (fun x => x = pk /\ last_voted_slot < s /\ exists a, ancestors !! s = Some a /\ last_voted_slot ∉ a)
    (count_gossip ancestors total_stake epoch_vote_accounts last_voted_slot lo pk s).
Proof.
  intros Hlo. unfold count_gossip. destruct (decide _) as [Hin|Hin].
  { apply counted_none; [done|]. by intros x [-> _]. }
  unfold is_candidate_slot_descendant_of_last_vote. destruct (_ && _) eqn:E.
  - apply andb_true_iff in E as [Hlt%Z.ltb_lt Hd%negb_true_iff].
    destruct (ancestors !! s) as [a|] eqn:Ea; [|discriminate Hd]. cbn in Hd. apply bool_decide_eq_false in Hd.
    apply (counted_iff _ (fun x => x = pk)); [|by apply counted_one].
    intros x. split; [|by intros [? _]]. intros ->. eauto 6.
  - apply counted_none; [done|]. intros x (_ & Hlt & a & Ea & Hno). rewrite Ea in E. cbn in E.
    rewrite bool_decide_eq_false_2 in E by done. apply Z.ltb_lt in Hlt. by rewrite Hlt in E.
Qed.

Lemma count_gossips_counted l : forall lo,
  lo_ok lo ->
  counted lo (fun pk => exists s hs a, (pk, (s, hs)) ∈ l /\ last_voted_slot < s
      /\ ancestors !! s = Some a /\ last_voted_slot ∉ a)
    (count_gossips ancestors total_stake epoch_vote_accounts last_voted_slot lo l).
Proof.
  induction l as [|[pk [s hs]] l IH]; intros lo Hlo; cbn [count_gossips].
  { apply counted_none; [done|]. intros pk (? & ? & ? & H & _). by apply not_elem_of_nil in H. }
  eapply counted_iff; [|apply counted_bind; [by apply count_gossip_counted|exact IH]].
  intros x. cbn beta. split.
  - intros [(-> & ? & a & ? & ?)|(s' & hs' & a & ? & ? & ? & ?)].
    + exists s, hs, a. split_and!; [by left|done..].
    + exists s', hs', a. split_and!; [by right|done..].
  - intros (s' & hs' & a & [[= -> -> ->]|Hin]%elem_of_cons & ? & ? & ?); [left|right]; eauto 10.
Qed.

Lemma enough_nothing : enough ∅ = false.
Proof.
  unfold enough, stake_of, stake_above. rewrite elements_empty. cbn [zsum].
  replace (wrap64 0) with 0 by done. replace (of_u64 0 : f64) with (SpecFloat.S754_zero false) by done.
  cbn [f_div f_gtb f64_arith]. destruct (of_u64 total_stake : f64) as [| | |]; vm_compute; done.
Qed.

(** The search counts exactly the accounts on another fork. *)
Lemma find_switch_proof_spec d :
  find_switch_proof ancestors progress total_stake epoch_vote_accounts last_voted_slot root
    last_vote_ancestors descendants lv = Returns d ->
  (d = SwitchProof 0%N /\ exists L : gset Pubkey, (forall pk, pk ∈ L -> on_other_fork pk) /\ enough L = true)
  \/ (exists L : gset Pubkey, d = FailedSwitchThreshold (stake_of L) total_stake
      /\ (forall pk, pk ∈ L <-> on_other_fork pk) /\ enough L = false).
Proof.
  unfold find_switch_proof. set (lo0 := Build_LockedOut 0 ∅).
  assert (lo_ok lo0) as Hlo0 by (split; [done|exact enough_nothing]).
  destruct (count_candidates _ _ _ _ _ _ _ _ _) as [r|] eqn:E; [|done]. cbn [mbind outcome_bind].
  apply count_candidates_counted in E; [|done].
  assert (counted lo0 on_other_fork (r ≫= fun lo => count_gossips ancestors total_stake epoch_vote_accounts
    last_voted_slot lo (map_to_list (max_gossip_frozen_votes lv)))) as Hc.
  { eapply counted_iff; [|apply counted_bind; [exact E|intros lo' Hlo'; by apply count_gossips_counted]].
    intros pk. cbn beta. unfold on_other_fork, locked_out_in_bank, voted_elsewhere.
    by setoid_rewrite elem_of_map_to_list. }
  intros [= <-]. destruct r as [lo1|]; cbn [mbind option_bind] in Hc.
  - destruct (count_gossips _ _ _ _ lo1 _) as [lo2|].
    + right. destruct Hc as [[Hs He] Hin]. exists (locked_out_vote_accounts lo2). rewrite Hs.
      split_and!; [done| |done]. intros pk. rewrite Hin. cbn. rewrite elem_of_empty. tauto.
    + left. destruct Hc as (L & HL & He). split; [done|]. exists L. split; [|done].
      intros pk [Hpk|]%HL; [by apply elem_of_empty in Hpk|assumption].
  - left. destruct Hc as (L & HL & He). split; [done|]. exists L. split; [|done].
    intros pk [Hpk|]%HL; [by apply elem_of_empty in Hpk|assumption].
Qed.
End SwitchProof.

(** ** The decision *)

Lemma is_stray_eq tw :
  is_stray_last_vote tw
  = Returns (is_some (stray_restored_slot tw)
      && bool_decide (stray_restored_slot tw = last (vt_slots (last_vote tw)))).
Proof. unfold is_stray_last_vote. by rewrite tw_last_voted_slot_eq. Qed.

Section Decision.
Context (tw : Tower) (switch_slot : Slot) (ancestors descendants : Ancestors) (progress : ProgressMap)
  (total_stake : Z) (epoch_vote_accounts : gmap Pubkey (Z * VoteAccount))
  (lv : LatestValidatorVotesForFrozenBanks) (fc : HeaviestSubtreeForkChoice).

(** What a decision means, for a last vote on [last] and a root [root]. *)
Definition decision_ok (last_key : SlotHashKey) (root : Slot) (d : SwitchForkDecision) : Prop :=
  let last_voted_slot := last_key.1 in
  let lva := default ∅ (ancestors !! last_voted_slot) in
  let other := on_other_fork ancestors descendants progress lv last_voted_slot root lva in
  match d with
  | SameFork =>
      switch_slot = last_voted_slot \/ exists a, ancestors !! switch_slot = Some a /\ last_voted_slot ∈ a
  | SwitchProof h =>
      h = 0%N
      /\ ((is_Some (latest_invalid_ancestor fc last_key) /\ get_hash progress last_voted_slot <> Some last_key.2)
          \/ exists L : gset Pubkey, (forall pk, pk ∈ L -> other pk)
               /\ enough total_stake epoch_vote_accounts L = true)
  | FailedSwitchThreshold s t =>
      t = total_stake
      /\ ((switch_slot ∈ lva /\ stray_restored_slot tw = Some last_voted_slot)
          \/ exists L : gset Pubkey, s = stake_of epoch_vote_accounts L
               /\ (forall pk, pk ∈ L <-> other pk) /\ enough total_stake epoch_vote_accounts L = false)
  | FailedSwitchDuplicateRollback a =>
      latest_invalid_ancestor fc last_key = Some a
      /\ exists h, get_hash progress switch_slot = Some h
           /\ is_strict_ancestor fc (switch_slot, h) last_key = true
  end.

Lemma decide_switch_ok last_key root d :
  last (vt_slots (last_vote tw)) = Some last_key.1 ->
  decide_switch tw switch_slot last_key.1 root ancestors descendants progress total_stake
    epoch_vote_accounts lv = Returns d ->
  decision_ok last_key root d.
Proof.
  intros Hlast. unfold decide_switch. rewrite is_stray_eq, Hlast. cbn [mbind outcome_bind].
  set (stray := is_some _ && _).
  assert (stray = true -> stray_restored_slot tw = Some last_key.1) as Hstray
    by (intros [_ ?%bool_decide_eq_true]%andb_true_iff; done).
  destruct (match ancestors !! last_key.1 with Some a => Returns a | None => _ end) as [lva|] eqn:Elva; [|done].
  assert (lva = default ∅ (ancestors !! last_key.1)) as ->.
  { destruct (ancestors !! last_key.1); [by injection Elva|]. destruct stray; [by injection Elva|done]. }
  cbn [mbind outcome_bind]. destruct (ancestors !! switch_slot) as [sa|] eqn:Esa; [|done].
  cbn [unwrap mbind outcome_bind]. destruct (_ || _) eqn:Eo.
  { intros [= <-]. cbn. apply orb_true_iff in Eo as [?%Z.eqb_eq|?%bool_decide_eq_true]; eauto. }
  destruct (bool_decide_reflect (switch_slot ∈ default ∅ (ancestors !! last_key.1))) as [Hin|Hin].
  { destruct stray; [|done]. intros [= <-]. cbn. split; [done|]. left. auto. }
  intros [(-> & L & HL & He)|(L & -> & HL & He)]%find_switch_proof_spec; cbn; (split; [done|]); right; eauto.
Qed.

(** The last vote is on a fork found invalid, and the bank of its slot is another one. *)
Lemma rollback_ok last_key root h d :
  get_hash progress switch_slot = Some h ->
  rollback_decision progress fc (switch_slot, h) last_key = Some d -> decision_ok last_key root d.
Proof.
  intros Hh. unfold rollback_decision. destruct (latest_invalid_ancestor fc last_key) as [a|] eqn:Ea; [|done].
  destruct (is_strict_ancestor _ _ _) eqn:Es; [intros [= <-]; cbn; eauto|].
  destruct (match get_hash progress last_key.1 with Some _ => _ | None => _ end) eqn:Eh; [|done].
  intros [= <-]. cbn. split; [done|]. left. split; [eauto|]. intros Heq. rewrite Heq in Eh.
  by rewrite N.eqb_refl in Eh.
Qed.

Lemma make_decision_ok d :
  make_check_switch_threshold_decision tw switch_slot ancestors descendants progress total_stake
    epoch_vote_accounts lv fc = Returns d ->
  match last (vt_slots (last_vote tw)) with
  | None => d = SameFork
  | Some l => exists root, root_slot (vote_state tw) = Some root
                /\ decision_ok (l, vt_hash (last_vote tw)) root d
  end.
Proof.
  unfold make_check_switch_threshold_decision, tw_last_voted_slot_hash. rewrite tw_last_voted_slot_eq.
  cbn [mbind outcome_bind]. destruct (last (vt_slots (last_vote tw))) as [l|] eqn:El; cbn [option_map];
    [|by intros [= <-]].
  unfold tw_root. destruct (root_slot (vote_state tw)) as [root|]; [|done]. cbn [unwrap mbind outcome_bind].
  destruct (get_hash progress switch_slot) as [h|] eqn:Eh; [|done]. cbn [unwrap mbind outcome_bind].
  intros Hd. exists root. split; [done|]. destruct (rollback_decision _ _ _ _) as [d'|] eqn:Er.
  - injection Hd as <-. by eapply rollback_ok.
  - by apply decide_switch_ok.
Qed.
End Decision.

(** ** The decision does not panic *)

(** The maps of [BankForks] agree with each other, and the bank of the last vote, if
    it is there, has its statistics. *)
Record maps_ok (ancestors descendants : Ancestors) (progress : ProgressMap) (last_voted_slot : Slot) : Prop := {
  maps_ancestors : forall c ds, descendants !! c = Some ds -> is_Some (ancestors !! c);
  maps_inverse : forall a c ds, ancestors !! last_voted_slot = Some a -> c ∈ a ->
    descendants !! c = Some ds -> last_voted_slot ∈ ds;
  maps_last : is_Some (ancestors !! last_voted_slot) -> is_computed progress last_voted_slot = true;
}.

Section Returns.
Context (ancestors descendants : Ancestors) (progress : ProgressMap) (total_stake : Z)
  (epoch_vote_accounts : gmap Pubkey (Z * VoteAccount)) (last_voted_slot root : Slot).
Hypothesis Hmaps : maps_ok ancestors descendants progress last_voted_slot.
Let lva := default ∅ (ancestors !! last_voted_slot).

Lemma count_candidate_returns lo c ds :
  descendants !! c = Some ds ->
  exists r, count_candidate ancestors progress total_stake epoch_vote_accounts last_voted_slot root lva
    lo c ds = Returns r.
Proof.
  intros Hc. unfold count_candidate. destruct (skip_candidate _ _ _ _ _ _) as [b|] eqn:Es.
  - cbn [mbind outcome_bind]. apply skip_candidate_spec in Es as [[-> Hno]|[-> Htip]]; [eauto|].
    destruct Htip as (Hcomp & Hds & _).
    assert (c ∉ lva) as Hin.
    { unfold lva. destruct (ancestors !! last_voted_slot) as [a|] eqn:Ea; [|apply not_elem_of_empty].
      intros Hin. pose proof (maps_inverse _ _ _ _ Hmaps a c ds Ea Hin Hc) as Hl.
      pose proof (maps_last _ _ _ _ Hmaps (mk_is_Some _ _ Ea)) as Hcl.
      by rewrite (Hds _ Hl) in Hcl. }
    rewrite bool_decide_eq_false_2 by done. cbn [negb assert_ mbind outcome_bind].
    unfold is_computed in Hcomp. destruct (get_fork_stats progress c); [cbn; eauto|done].
  - exfalso. revert Es. unfold skip_candidate, is_candidate_slot_descendant_of_last_vote.
    destruct (maps_ancestors _ _ _ _ Hmaps c ds Hc) as [a Ea]. rewrite Ea. by repeat case_match.
Qed.

Lemma count_candidates_returns l : forall lo,
  (forall c ds, (c, ds) ∈ l -> descendants !! c = Some ds) ->
  exists r, count_candidates ancestors progress total_stake epoch_vote_accounts last_voted_slot root lva
    lo l = Returns r.
Proof.
  induction l as [|[c ds] l IH]; intros lo Hl; cbn [count_candidates]; [eauto|].
  destruct (count_candidate_returns lo c ds) as [r ->]; [apply Hl; by left|]. cbn [mbind outcome_bind].
  destruct r as [lo'|]; [|eauto]. apply IH. intros c' ds' Hin. apply Hl. by right.
Qed.
End Returns.

(** When the decision panics: the duplicate check leaves it open, the last vote was not
    restored from disk, and it is either on no bank that is known, or the slot to switch
    to is one of its strict ancestors. *)
Definition switch_panics (tw : Tower) (switch_slot : Slot) (ancestors : Ancestors) (progress : ProgressMap)
    (fc : HeaviestSubtreeForkChoice) (last_voted_slot : Slot) : Prop :=
  (forall h, get_hash progress switch_slot = Some h ->
     rollback_decision progress fc (switch_slot, h) (last_voted_slot, vt_hash (last_vote tw)) = None)
  /\ stray_restored_slot tw <> Some last_voted_slot
  /\ (ancestors !! last_voted_slot = None
      \/ (switch_slot <> last_voted_slot
          /\ (forall a, ancestors !! switch_slot = Some a -> last_voted_slot ∉ a)
          /\ exists a, ancestors !! last_voted_slot = Some a /\ switch_slot ∈ a)).

Lemma decide_switch_panics tw switch_slot last_voted_slot root ancestors descendants progress total_stake
    epoch_vote_accounts lv sa :
  last (vt_slots (last_vote tw)) = Some last_voted_slot -> ancestors !! switch_slot = Some sa ->
  maps_ok ancestors descendants progress last_voted_slot ->
  decide_switch tw switch_slot last_voted_slot root ancestors descendants progress total_stake
    epoch_vote_accounts lv = Panics
  <-> stray_restored_slot tw <> Some last_voted_slot
      /\ (ancestors !! last_voted_slot = None
          \/ (switch_slot <> last_voted_slot /\ (last_voted_slot ∉ sa)
              /\ exists a, ancestors !! last_voted_slot = Some a /\ switch_slot ∈ a)).
Proof.
  intros Hlast Hsa Hmaps. unfold decide_switch. rewrite is_stray_eq, Hlast. cbn [mbind outcome_bind].
  set (stray := is_some _ && _).
  assert (stray = true <-> stray_restored_slot tw = Some last_voted_slot) as Hstray.
  { unfold stray. rewrite andb_true_iff, bool_decide_eq_true. split; [by intros [_ ?]|]. by intros ->. }
  rewrite <- Hstray, Hsa. clearbody stray.
  destruct (count_candidates_returns ancestors descendants progress total_stake epoch_vote_accounts last_voted_slot root
    Hmaps (map_to_list descendants) {| locked_out_stake := 0; locked_out_vote_accounts := ∅ |}) as [r Hr].
  { intros c ds. by rewrite elem_of_map_to_list. }
  revert Hr. destruct (ancestors !! last_voted_slot) as [a|] eqn:Ea; cbn [default].
  2: { intros Hr. destruct stray; cbn [mbind outcome_bind unwrap]; [|intuition congruence].
       destruct (_ || _); [intuition congruence|]. unfold find_switch_proof.
       rewrite bool_decide_eq_false_2 by apply not_elem_of_empty. rewrite Hr. intuition (done || congruence). }
  unfold id. intros Hr. cbn [mbind outcome_bind unwrap]. destruct (_ || _) eqn:Eo.
  - split; [done|]. intros (_ & [?|(Hne & Hno & _)]); [done|].
    apply orb_true_iff in Eo as [?%Z.eqb_eq|?%bool_decide_eq_true]; done.
  - apply orb_false_iff in Eo as [Hne%Z.eqb_neq Hno%bool_decide_eq_false].
    destruct (bool_decide_reflect (switch_slot ∈ a)) as [Hin|Hin].
    + destruct stray; [split; [done|by intros [[] _]]|]. split; [|done]. intros _. split; [done|]. right. eauto.
    + unfold find_switch_proof. rewrite Hr. split; [done|]. intros (_ & [?|(_ & _ & a' & [= <-] & ?)]); done.
Qed.

Lemma make_decision_panics tw switch_slot ancestors descendants progress total_stake
    epoch_vote_accounts lv fc last_voted_slot root h sa :
  root_slot (vote_state tw) = Some root -> get_hash progress switch_slot = Some h ->
  ancestors !! switch_slot = Some sa -> last (vt_slots (last_vote tw)) = Some last_voted_slot ->
  maps_ok ancestors descendants progress last_voted_slot ->
  make_check_switch_threshold_decision tw switch_slot ancestors descendants progress total_stake
    epoch_vote_accounts lv fc = Panics
  <-> switch_panics tw switch_slot ancestors progress fc last_voted_slot.
Proof.
  intros Hroot Hh Hsa Hlast Hmaps.
  pose proof (decide_switch_panics tw switch_slot last_voted_slot root ancestors descendants progress total_stake
    epoch_vote_accounts lv sa Hlast Hsa Hmaps) as Hp.
  unfold make_check_switch_threshold_decision, tw_last_voted_slot_hash. rewrite tw_last_voted_slot_eq, Hlast.
  unfold tw_root, switch_panics. rewrite Hroot, Hh, Hsa. cbn [mbind outcome_bind option_map unwrap].
  destruct (rollback_decision _ _ _ _) as [d|] eqn:Er.
  - split; [done|]. intros [Hno _]. specialize (Hno h eq_refl). congruence.
  - rewrite Hp. split.
    + intros (Hs & Hor). split_and!; [by intros ? [= <-]|done|]. naive_solver.
    + intros (_ & Hs & Hor). split; [done|]. naive_solver.
Qed.

(** C8: The switch decision is justified, and it is known exactly when it is not made.
    On coherent maps, for a slot to switch to that is frozen and has ancestors,
    [make_check_switch_threshold_decision] panics if and only if the duplicate check does
    not decide, the last vote was not restored from disk, and the last vote is on no known
    bank or the slot to switch to is a strict ancestor of it.  If it returns: it allows a
    switch to another fork only if the last vote's own version of its slot was replaced
    after an ancestor was marked invalid, or if accounts that are locked out on another
    fork at the last vote, or were seen to vote on another fork after it, hold more than
    the threshold of the stake; if it refuses, the stake it reports is that of all such
    accounts and is not enough, or the last vote was restored from disk and the slot is an
    ancestor of it; and it answers that the fork is the same only for the last vote itself
    and its descendants. *)
Theorem switch_decision_sound tw switch_slot ancestors descendants progress total_stake
    epoch_vote_accounts lv fc last_voted_slot root :
  root_slot (vote_state tw) = Some root -> is_Some (get_hash progress switch_slot) ->
  is_Some (ancestors !! switch_slot) ->
  last (vt_slots (last_vote tw)) = Some last_voted_slot ->
  maps_ok ancestors descendants progress last_voted_slot ->
  match make_check_switch_threshold_decision tw switch_slot ancestors descendants progress total_stake
          epoch_vote_accounts lv fc with
  | Returns d =>
      ~ switch_panics tw switch_slot ancestors progress fc last_voted_slot
      /\ decision_ok tw switch_slot ancestors descendants progress total_stake epoch_vote_accounts lv fc
           (last_voted_slot, vt_hash (last_vote tw)) root d
  | Panics => switch_panics tw switch_slot ancestors progress fc last_voted_slot
  end.
Proof.
  intros Hroot [h Hh] [sa Hsa] Hlast Hmaps.
  pose proof (make_decision_ok tw switch_slot ancestors descendants progress total_stake epoch_vote_accounts lv fc) as Hok.
  pose proof (make_decision_panics tw switch_slot ancestors descendants progress total_stake epoch_vote_accounts lv fc
    last_voted_slot root h sa Hroot Hh Hsa Hlast Hmaps) as Hp.
  destruct (make_check_switch_threshold_decision _ _ _ _ _ _ _ _ _) as [d|]; [|by apply Hp].
  specialize (Hok d eq_refl). rewrite Hlast in Hok. destruct Hok as (root' & Hr & Hd).
  rewrite Hroot in Hr. injection Hr as <-. split; [|done]. by intros ?%Hp.
Qed.
