(* ===== verification/TowerRestore.v ===== *)
(** * The tower after a restart

    [adjust_lockouts_after_replay] drops from a restored tower the votes that the
    replayed ledger has rooted and keeps, with their lockouts, the votes that are
    newer or on another fork. *)

From S2P Require Import Prelude Errors Float64 AuthorizedVoters VoteState VoteTower EpochSchedule ForkChoice LatestVotes SlotHistory ProgressMap Tower TowerSafety.

(** ** The loop over the slots of the tower *)

Section Adjust.
Context (sh : SlotHistory) (tower_root : Slot).

(** Once a slot is anchored, every older slot is dropped, and must not be missing from
    the history or in its future. *)
Lemma adjust_anchored l : forall a a' x,
  anchored_slot a = Some x -> still_in_future a = false ->
  adjust_slots sh tower_root a l = Returns (Ok a') ->
  anchored_slot a' = Some x /\ retain_flags a' = replicate (length l) false ++ retain_flags a
  /\ Forall (fun s => sh_check sh s = Found \/ sh_check sh s = TooOld) l.
Proof.
  induction l as [|s l IH]; intros a a' x Hx Hf; cbn [adjust_slots].
  { intros [= <-]. by split_and!. }
  unfold adjust_slot. rewrite Hx, Hf. cbn [is_some negb andb].
  destruct (bool_decide_reflect (sh_check sh s = NotFound)) as [|Hn]; [done|]. cbn [try_bind].
  destruct (bool_decide_reflect (sh_check sh s = Future)) as [|Hfu]; [done|]. cbn [try_bind].
  destruct (if negb (past_outside_history a) && _ then _ else _) as [[past|]|]; try done. cbn [try_bind].
  destruct (assert_ _); [|done]. cbn [mbind outcome_bind try_bind].
  intros H. apply IH with (x := x) in H as (? & -> & ?); [|done..]. split_and!; [done| |].
  - cbn [retain_flags is_some negb length]. by rewrite replicate_S_end, <- app_assoc.
  - constructor; [|done]. destruct (sh_check sh s); auto; done.
Qed.

(** Before, every slot is kept up to the first that is found. *)
Lemma adjust_unanchored l : forall a a',
  anchored_slot a = None -> adjust_slots sh tower_root a l = Returns (Ok a') ->
  (anchored_slot a' = None)
  \/ (exists l1 x l2, l = l1 ++ x :: l2 /\ Forall (fun s => sh_check sh s <> Found) l1 /\ sh_check sh x = Found
      /\ Forall (fun s => sh_check sh s = Found \/ sh_check sh s = TooOld) l2
      /\ anchored_slot a' = Some x
      /\ retain_flags a' = replicate (S (length l2)) false ++ replicate (length l1) true ++ retain_flags a).
Proof.
  induction l as [|s l IH]; intros a a' Ha; cbn [adjust_slots].
  { intros [= <-]. by left. }
  unfold adjust_slot. rewrite Ha. cbn [is_some negb andb].
  destruct (bool_decide_reflect (sh_check sh s = Found)) as [Hfound|Hno]; cbn [try_bind].
  - rewrite !Hfound. destruct (if still_in_future a && _ then _ else _) as [[fut|]|] eqn:Ef; try done. cbn [try_bind].
    assert (fut = false) as -> by (by destruct (still_in_future a); injection Ef).
    destruct (if negb (past_outside_history a) && _ then _ else _) as [[past|]|]; try done. cbn [try_bind].
    destruct (assert_ _); [|done]. cbn [mbind outcome_bind try_bind].
    intros H. eapply adjust_anchored in H as (? & Hr & ?); [|done..]. right. exists [], s, l.
    split_and!; try done. rewrite Hr, replicate_S_end, <- app_assoc. done.
  - destruct (if still_in_future a && _ then _ else _) as [[fut|]|]; try done. cbn [try_bind].
    destruct (if negb (past_outside_history a) && _ then _ else _) as [[past|]|]; try done. cbn [try_bind].
    destruct (assert_ _); [|done]. cbn [mbind outcome_bind try_bind].
    intros [?|(l1 & x & l2 & -> & ? & ? & ? & ? & Hr)]%IH; [by left| |done]. right. exists (s :: l1), x, l2.
    split_and!; try done; [by constructor|]. rewrite Hr. cbn [retain_flags is_some negb length].
    f_equal. by rewrite (replicate_S_end (length l1)), <- app_assoc.
Qed.
End Adjust.

Lemma retain_by_suffix n : forall m vs, (n + m = length vs)%nat ->
  retain_by (replicate n false ++ replicate m true) vs = Returns (drop n vs).
Proof.
  induction n as [|n IH]; intros m vs Hlen.
  - cbn [replicate app drop]. revert m Hlen. induction vs as [|v vs IHv]; intros m Hlen; [by destruct m|].
    destruct m as [|m]; [done|]. cbn. rewrite (IHv m) by (cbn in Hlen; lia). done.
  - destruct vs as [|v vs]; [done|]. cbn. rewrite IH by (cbn in Hlen; lia). done.
Qed.

(** What is kept and what is dropped. *)
Record adjusted (sh : SlotHistory) (tower_root : Slot) (vs dropped kept : list Lockout) : Prop := {
  adj_votes : vs = dropped ++ kept;
  adj_anchor : exists x, last (tower_root :: map slot dropped) = Some x /\ sh_check sh x = Found;
  adj_dropped : Forall (fun v => sh_check sh (slot v) = Found \/ sh_check sh (slot v) = TooOld) dropped;
  adj_kept : Forall (fun v => sh_check sh (slot v) <> Found) kept;
}.

Lemma split_reversed {A} (r : A) (vs l1 l2 : list A) x :
  rev (r :: vs) = l1 ++ x :: l2 ->
  (length l2 + length l1 = length vs)%nat /\ r :: take (length l2) vs = rev l2 ++ [x] /\ drop (length l2) vs = rev l1.
Proof.
  intros H. apply (f_equal (@rev A)) in H. rewrite rev_involutive, rev_app_distr in H. cbn [rev] in H.
  assert (length (r :: vs) = length (((rev l2) ++ [x]) ++ rev l1)) as Hlen by (by rewrite H).
  rewrite !length_app, !length_rev in Hlen. cbn in Hlen. split; [lia|].
  assert (length (rev l2 ++ [x]) = S (length l2)) as Hl by (rewrite length_app, length_rev; cbn; lia).
  split.
  - change (r :: take (length l2) vs) with (take (S (length l2)) (r :: vs)). rewrite H. by rewrite take_app_length'.
  - change (drop (length l2) vs) with (drop (S (length l2)) (r :: vs)). rewrite H. by rewrite drop_app_length'.
Qed.

Lemma adjust_with_history_spec tw sh tw' :
  adjust_lockouts_with_slot_history tw sh = Returns (Ok tw') ->
  exists r dropped kept, root_slot (vote_state tw) = Some r
    /\ adjusted sh r (votes (vote_state tw)) dropped kept
    /\ votes (vote_state tw') = kept /\ root_slot (vote_state tw') = Some r
    /\ match kept with
       | [] => last_vote tw' = no_vote
       | _ => last_vote tw' = last_vote tw /\ stray_restored_slot tw' = vt_last_voted_slot (last_vote tw)
       end.
Proof.
  unfold adjust_lockouts_with_slot_history, tw_root. destruct (root_slot (vote_state tw)) as [r|] eqn:Hr; [|done].
  cbn [unwrap mbind outcome_bind].
  destruct (adjust_slots _ _ _ _) as [[a|]|] eqn:Ea; try done. cbn [try_bind].
  apply adjust_unanchored in Ea as [->|(l1 & x & l2 & El & Hl1 & Hx & Hl2 & -> & ->)]; [done| |done].
  destruct (split_reversed _ _ _ _ _ El) as (Hlen & Htake & Hdrop). unfold tower in *. rewrite length_map in Hlen.
  destruct (assert_ _); [|done]. cbn [mbind outcome_bind replicate app drop retain_flags adjust_init].
  rewrite drop_0, app_nil_r, retain_by_suffix by done. cbn [mbind outcome_bind].
  set (kept := drop (length l2) (votes (vote_state tw))). intros H.
  exists r, (take (length l2) (votes (vote_state tw))), kept. split; [done|]. split.
  - constructor.
    + symmetry. apply take_drop.
    + exists x. split; [|done]. rewrite <- firstn_map, Htake. by rewrite last_snoc.
    + assert (Forall (fun s => sh_check sh s = Found \/ sh_check sh s = TooOld)
        (r :: take (length l2) (map slot (votes (vote_state tw))))) as Hf.
      { rewrite Htake. apply Forall_app. split; [by apply Forall_rev|]. constructor; [by left|done]. }
      apply Forall_inv_tail in Hf. rewrite firstn_map in Hf. exact (proj1 (Forall_map _ _ _) Hf).
    + assert (Forall (fun s => sh_check sh s <> Found) (drop (length l2) (map slot (votes (vote_state tw))))) as Hf
        by (rewrite Hdrop; by apply Forall_rev).
      rewrite skipn_map in Hf. exact (proj1 (Forall_map _ _ _) Hf).
  - destruct kept as [|v kept]; [injection H as <-; by split_and!|].
    destruct (tw_last_voted_slot _); [|done]. cbn [mbind outcome_bind] in H.
    destruct (assert_ _); [|done]. injection H as <-. by split_and!.
Qed.

(** ** The invariant *)

Lemma tower_wf_suffix dropped kept : tower_wf (dropped ++ kept) -> tower_wf kept.
Proof.
  intros [Ht Hl]. apply tower_from_app in Ht as [_ Ht]. split; [by eapply tower_from_weaken|].
  rewrite length_app in Hl. lia.
Qed.

(** A restored tower is well formed, and on one fork. *)
Lemma adjust_after_replay_ok anc tw replayed_root sh tw' :
  tower_ok tw -> one_fork anc (tower (vote_state tw)) ->
  adjust_lockouts_after_replay tw replayed_root sh = Returns (Ok tw') ->
  tower_ok tw' /\ one_fork anc (tower (vote_state tw'))
  /\ ((last (vt_slots (last_vote tw)) = None /\ tw' = tw) \/ exists r dropped kept, root_slot (vote_state tw) = Some r
        /\ adjusted (if r <=? replayed_root then sh else sh_add sh r) r (votes (vote_state tw)) dropped kept
        /\ votes (vote_state tw') = kept
        /\ root_slot (vote_state tw') = Some (if r <=? replayed_root then replayed_root else r)).
Proof.
  intros Hok Hfork. unfold adjust_lockouts_after_replay, tw_root.
  destruct (root_slot (vote_state tw)) as [r|] eqn:Hr; [|done]. cbn [unwrap mbind outcome_bind].
  destruct (assert_ (bool_decide (_ = Found))); [|done]. cbn [mbind outcome_bind].
  destruct (assert_ (_ || _)); [|done]. cbn [mbind outcome_bind].
  rewrite tw_last_voted_slot_eq. cbn [mbind outcome_bind].
  enough (forall sh' tw1, adjust_lockouts_with_slot_history tw sh' = Returns (Ok tw1) ->
    (exists dropped kept, adjusted sh' r (votes (vote_state tw)) dropped kept /\ votes (vote_state tw1) = kept)
    /\ root_slot (vote_state tw1) = Some r
    /\ tower_wf (votes (vote_state tw1)) /\ Forall (fun v => 0 <= slot v) (votes (vote_state tw1))
    /\ one_fork anc (tower (vote_state tw1))) as Hadj.
  { destruct (last (vt_slots (last_vote tw))) as [l|].
    - destruct (r <=? replayed_root) eqn:Hle.
      + destruct (bool_decide _); [done|].
        destruct (adjust_lockouts_with_slot_history tw sh) as [[tw1|]|] eqn:E; try done. cbn [try_bind].
        intros [= <-]. apply Hadj in E as ((dropped & kept & ? & ?) & ? & ? & ? & ?).
        split_and!; [constructor; cbn; eauto|done|]. right. exists r, dropped, kept. by rewrite Hle.
      + intros ((dropped & kept & ? & ?) & ? & ? & ? & ?)%Hadj.
        split_and!; [constructor; eauto|done|]. right. exists r, dropped, kept. by rewrite Hle.
    - destruct (assert_ _); [|done]. cbn [mbind outcome_bind]. intros [= <-]. auto 6. }
  intros sh' tw1 (r' & dropped & kept & Hr' & Hadj & Hv & Hr1 & _)%adjust_with_history_spec.
  rewrite Hr in Hr'. injection Hr' as <-. destruct Hok as [_ Hwf Hpos]. pose proof (adj_votes _ _ _ _ _ Hadj) as Ev.
  split_and!; [eauto|done|..]; unfold tower in *; rewrite ?Hv; rewrite Ev in Hwf, Hpos, Hfork.
  - by eapply tower_wf_suffix.
  - by apply Forall_app in Hpos as [_ ?].
  - rewrite map_app in Hfork. by apply StronglySorted_app in Hfork as (_ & _ & ?).
Qed.

(** ** No assertion fails *)

(** Each slot is below the one before, the root may repeat. *)
Fixpoint steps_down (root : Slot) (prev : option Slot) (l : list Slot) : Prop :=
  match l with
  | [] => True
  | s :: rest =>
      match prev with Some p => s < p \/ (s = p /\ s = root) | None => True end
      /\ steps_down root (Some s) rest
  end.

Lemma steps_down_snoc root x l : forall prev,
  steps_down root prev l ->
  (match last l with Some p => x < p \/ (x = p /\ x = root)
   | None => match prev with Some p => x < p \/ (x = p /\ x = root) | None => True end end) ->
  steps_down root prev (l ++ [x]).
Proof.
  induction l as [|s l IH]; intros prev; cbn [app steps_down]; [done|]. intros [? ?] Hx. split; [done|].
  apply IH; [done|]. destruct l as [|s' l]; [done|]. rewrite last_cons_cons in Hx.
  destruct (last (s' :: l)) eqn:E; [done|]. by apply last_None in E.
Qed.

Lemma last_rev {A} (l : list A) : last (rev l) = head l.
Proof. destruct l as [|x l]; [done|]. cbn [rev head]. by rewrite last_snoc. Qed.

Lemma tower_steps_down root prev vs :
  tower_from prev vs -> (forall v, v ∈ vs -> root <= slot v) ->
  steps_down root None (rev (root :: map slot vs)).
Proof.
  intros Ht Hr. cbn [rev]. apply steps_down_snoc.
  - clear Hr. revert prev Ht. induction vs as [|v vs IH]; intros prev Ht; [done|]. cbn [map rev].
    destruct Ht as (_ & _ & Ht). apply steps_down_snoc; [by eapply IH|]. rewrite last_rev.
    destruct vs as [|w vs]; [done|]. cbn. destruct Ht as (_ & (? & _) & _). by left.
  - rewrite last_rev. destruct vs as [|v vs]; [done|]. cbn. specialize (Hr v (list_elem_of_here _ _)). lia.
Qed.

Lemma adjust_slots_returns sh root l : forall a,
  steps_down root (checked_slot a) l -> exists r, adjust_slots sh root a l = Returns r.
Proof.
  induction l as [|s l IH]; intros a Hl; cbn [adjust_slots]; [eauto|]. destruct Hl as [Hs Hl].
  assert (exists r, adjust_slot sh root a s = Returns r
    /\ (forall a', r = Ok a' -> checked_slot a' = Some s)) as (r & -> & Hr).
  { unfold adjust_slot.
    destruct (if negb (is_some (anchored_slot a)) && _ then _ else _) as [[anchored|]|] eqn:E1;
      [cbn [try_bind]|by eexists|by repeat case_match].
    destruct (if still_in_future a && _ then _ else _) as [[fut|]|] eqn:E2;
      [cbn [try_bind]|by eexists|by repeat case_match].
    destruct (if negb (past_outside_history a) && _ then _ else _) as [[past|]|] eqn:E3;
      [cbn [try_bind]|by eexists|by repeat case_match].
    replace (match checked_slot a with Some checked => _ | None => true end) with true.
    - cbn [assert_ mbind outcome_bind]. eexists. split; [done|]. by intros a' [= <-].
    - symmetry. destruct (checked_slot a) as [p|]; [|done]. apply orb_true_iff.
      destruct Hs as [?|[-> ->]]; [right; by apply Z.ltb_lt|left; by rewrite Z.eqb_refl]. }
  destruct r as [a'|e]; cbn [try_bind]; [|eauto]. apply IH. by rewrite (Hr a').
Qed.

(** What a tower saved after a vote satisfies: its votes are above its root, and its
    last vote is the top of the tower. *)
Record saved_ok (tw : Tower) (r : Slot) : Prop := {
  saved_tower : tower_ok tw;
  saved_root : root_slot (vote_state tw) = Some r;
  saved_above : forall v, v ∈ votes (vote_state tw) -> r <= slot v;
  saved_votes : votes (vote_state tw) <> [];
  saved_last : last (vt_slots (last_vote tw)) = last (tower (vote_state tw));
}.

Lemma tower_sorted prev vs : tower_from prev vs -> StronglySorted Z.lt (map slot vs).
Proof.
  revert prev. induction vs as [|v vs IH]; intros prev; [constructor|]. intros (_ & _ & Ht). cbn.
  constructor; [by eapply IH|]. apply Forall_forall. intros x (w & -> & Hw)%list_elem_of_fmap.
  by eapply tower_slots_above.
Qed.

(** A tower is saved right after a vote, when this holds. *)
Lemma record_vote_saved tw r s ancestors hash bank_last direct now :
  tower_ok tw -> root_slot (vote_state tw) = Some r -> (forall v, v ∈ votes (vote_state tw) -> r <= slot v) ->
  slot_small s -> (forall l, bank_last = Some l -> l < s) -> is_locked_out tw s ancestors = Returns false ->
  exists tw' new_root r', record_bank_vote_and_update_lockouts tw s hash bank_last direct now
      = Returns (tw', new_root) /\ saved_ok tw' r' /\ r <= r'.
Proof.
  intros Hok Hr Hab Hs Hbank Hout. pose proof Hok as [_ [Ht Hl31] Hpos].
  destruct (is_locked_out_false _ _ _ Hout) as (Hrec & _ & _).
  assert (forall l, last_voted_slot (vote_state tw) = Some l -> l < s) as Hnew
    by (intros l; by apply is_recent_last).
  set (epoch := current_epoch (vote_state tw)).
  destruct (next_vote_tower_wf _ s epoch (conj Ht Hl31) Hpos Hs Hnew) as (Hwf' & Hpos' & Hlast).
  destruct (next_vote_slots _ s epoch Hnew) as (pre & base & popped & Et & Et' & Hcase).
  set (st' := process_next_vote_slot (vote_state tw) s epoch) in *.
  assert (forall x, x ∈ tower (vote_state tw) -> r <= x /\ x < s) as Hrange.
  { intros x (v & -> & Hv)%list_elem_of_fmap. split; [auto|]. by apply (old_votes_below _ _ (conj Ht Hl31) Hnew). }
  assert (r < s) as Hrs.
  { unfold is_recent, last_voted_slot, last_lockout in Hrec. destruct (last (votes (vote_state tw))) as [l|] eqn:El.
    - apply last_Some_elem_of in El. destruct (Hrange (slot l)); [by apply list_elem_of_fmap_2|lia].
    - rewrite Hr in Hrec. cbn in Hrec. zbool. lia. }
  assert (exists r', root_slot st' = Some r' /\ r <= r' < s /\ forall x, x ∈ base -> r' <= x) as (r' & Hr' & Hrr & Hb).
  { destruct Hcase as [E|(o & -> & E)].
    - exists r. rewrite E. split_and!; [done|lia|done|]. intros x Hx. apply Hrange. rewrite Et. set_solver.
    - exists o. pose proof (Hrange o). rewrite Et in H. split; [done|]. split; [apply H; by left|].
      intros x Hx. pose proof (tower_sorted _ _ Ht) as Hsort. unfold tower in Et. rewrite Et in Hsort.
      apply StronglySorted_app in Hsort as (Hlt & _). assert (o < x); [apply Hlt; set_solver|lia]. }
  destruct (record_vote_eq tw s hash bank_last direct now r _ Hr (tw_last_voted_slot_eq tw) r' Hr')
    as (tw' & E & Est & Evt & _). fold epoch in Est, Evt. fold st' in Est, Evt.
  exists tw', (if negb (r =? r') then Some r' else None), r'. split_and!; [done| |lia]. constructor; rewrite ?Est.
  - constructor; rewrite Est; eauto.
  - done.
  - intros v Hv. assert (slot v ∈ tower st') as Hin by (by apply list_elem_of_fmap_2). rewrite Et' in Hin.
    apply elem_of_app in Hin as [? | ->%list_elem_of_singleton]; [auto|lia].
  - intros E0. unfold tower in Et'. rewrite E0 in Et'. by destruct base.
  - rewrite Evt, Et'. destruct direct; [done|]. destruct bank_last as [l|]; [|done].
    rewrite (skip_voted_last l _ s); [by rewrite last_snoc|by rewrite last_snoc|auto].
Qed.

Lemma adjust_with_history_returns tw r sh :
  saved_ok tw r -> exists res, adjust_lockouts_with_slot_history tw sh = Returns res.
Proof.
  intros [[_ [Ht _] _] Hr Hab Hne Hlast]. unfold adjust_lockouts_with_slot_history, tw_root. rewrite Hr.
  cbn [unwrap mbind outcome_bind].
  destruct (adjust_slots_returns sh r (rev (r :: tower (vote_state tw))) adjust_init) as [res Eres];
    [by eapply tower_steps_down|].
  rewrite Eres. destruct res as [a|e]; cbn [try_bind]; [|eauto].
  apply adjust_unanchored in Eres as [->|(l1 & x & l2 & El & _ & _ & _ & -> & ->)]; [eauto| |done].
  destruct (split_reversed _ _ _ _ _ El) as (Hlen & _ & _). unfold tower in Hlen. rewrite length_map in Hlen.
  replace (length _ =? length _)%nat with true.
  2:{ symmetry. apply Nat.eqb_eq. cbn [length retain_flags adjust_init]. unfold tower.
      rewrite !length_app, !length_replicate, length_map. cbn. lia. }
  cbn [assert_ mbind outcome_bind replicate app drop retain_flags adjust_init].
  rewrite drop_0, app_nil_r, retain_by_suffix by done. cbn [mbind outcome_bind].
  destruct (drop (length l2) (votes (vote_state tw))) as [|v kept] eqn:Ek; [eauto|].
  rewrite tw_last_voted_slot_eq. cbn [mbind outcome_bind last_vote with_vote_state vote_state votes with_votes].
  rewrite bool_decide_eq_true_2; [cbn; eauto|]. rewrite Hlast. unfold tower. cbn [votes with_votes].
  rewrite <- (take_drop (length l2) (votes (vote_state tw))), Ek, map_app, last_app. cbn [map].
  destruct (last (slot v :: map slot kept)) eqn:E; [done|]. by apply last_None in E.
Qed.

Lemma adjust_after_replay_returns tw r replayed_root sh :
  saved_ok tw r -> sh_check sh replayed_root = Found ->
  exists res, adjust_lockouts_after_replay tw replayed_root sh = Returns res.
Proof.
  intros Hsaved Hrep. pose proof Hsaved as [Hok Hroot _ Hne Hlast].
  unfold adjust_lockouts_after_replay, tw_root. rewrite Hroot. cbn [unwrap mbind outcome_bind].
  rewrite (bool_decide_eq_true_2 _ Hrep). cbn [assert_ mbind outcome_bind].
  assert (exists l, last (tower (vote_state tw)) = Some l) as [l Hl].
  { destruct (last (tower (vote_state tw))) as [l|] eqn:E; [eauto|]. apply last_None in E. unfold tower in E.
    by destruct (votes (vote_state tw)). }
  rewrite tw_last_voted_slot_eq, Hlast, Hl.
  assert (no_votes tw = false) as -> by (unfold no_votes; by destruct (votes _)).
  rewrite (bool_decide_eq_false_2 (last_vote tw = _)) by (intros E; rewrite E, Hl in Hlast; done).
  cbn [negb andb orb assert_ mbind outcome_bind]. destruct (r <=? replayed_root).
  - destruct (bool_decide _); [eauto|].
    destruct (adjust_with_history_returns tw r sh Hsaved) as [[tw1|e] ->]; cbn; eauto.
  - by eapply adjust_with_history_returns.
Qed.

(** The answers of the history, as facts about the slots that were added. *)
Lemma check_Found sh added newest s : sh_history sh added newest -> 0 <= s -> sh_check sh s = Found -> s ∈ added.
Proof.
  intros Hsh Hs. rewrite (sh_ok_check _ _ _ _ (sh_history_ok _ _ _ Hsh) Hs). unfold check_spec.
  by repeat case_match.
Qed.

Lemma check_cases sh added newest s :
  sh_history sh added newest -> 0 <= s ->
  (sh_check sh s = TooOld -> s < newest + 1 - MAX_ENTRIES)
  /\ (sh_check sh s <> Found -> newest < s \/ s < newest + 1 - MAX_ENTRIES \/ s ∉ added).
Proof.
  intros Hsh Hs. rewrite (sh_ok_check _ _ _ _ (sh_history_ok _ _ _ Hsh) Hs). unfold check_spec.
  repeat case_match; zbool; split; intros; try done; auto.
Qed.

(** C17: A restart keeps the lockouts that still matter.  For a tower saved after a vote
    and the history of the slots rooted by the replayed ledger,
    [adjust_lockouts_after_replay] does not panic; if it gives a tower back, that
    tower is well formed and on one fork, and the saved votes split into a lower part
    that is dropped and an upper part that is kept unchanged: every dropped vote is
    rooted in the history or older than it, every kept vote is not rooted there, and
    the newest slot below the kept votes is. *)
Theorem restore_keeps_unrooted_votes anc tw r replayed_root sh added newest :
  saved_ok tw r -> 0 <= r -> one_fork anc (tower (vote_state tw)) ->
  sh_history sh added newest -> sh_check sh replayed_root = Found -> newest < r < U64_MAX \/ r <= replayed_root ->
  let added' := if r <=? replayed_root then added else {[r]} ∪ added in
  let newest' := if r <=? replayed_root then newest else r in
  exists res, adjust_lockouts_after_replay tw replayed_root sh = Returns res
    /\ forall tw', res = Ok tw' ->
       tower_ok tw' /\ one_fork anc (tower (vote_state tw'))
       /\ exists dropped, votes (vote_state tw) = dropped ++ votes (vote_state tw')
          /\ Forall (fun v => slot v ∈ added' \/ slot v < newest' + 1 - MAX_ENTRIES) dropped
          /\ Forall (fun v => newest' < slot v \/ slot v < newest' + 1 - MAX_ENTRIES \/ slot v ∉ added')
               (votes (vote_state tw'))
          /\ exists x, last (r :: map slot dropped) = Some x /\ x ∈ added'.
Proof.
  intros Hsaved Hr0 Hfork Hsh Hrep Hr added' newest'. pose proof Hsaved as [Hok Hroot _ Hne Hlast].
  destruct (adjust_after_replay_returns tw r replayed_root sh Hsaved Hrep) as [res Eres].
  exists res. split; [done|]. intros tw' ->.
  destruct (adjust_after_replay_ok anc _ _ _ _ Hok Hfork Eres) as (? & ? & [[Hno _]|Hadj]).
  { rewrite Hno in Hlast. symmetry in Hlast. apply last_None in Hlast. unfold tower in Hlast.
    by destruct (votes (vote_state tw)). }
  destruct Hadj as (r' & dropped & kept & Hr' & [Hv (x & Hx & Hfx) Hd Hk] & <- & _).
  rewrite Hroot in Hr'. injection Hr' as <-. split_and!; [done|done|]. exists dropped. split; [done|].
  destruct Hok as [_ _ Hpos]. rewrite Hv, Forall_app in Hpos. destruct Hpos as [Hpd Hpk].
  assert (sh_history (if r <=? replayed_root then sh else sh_add sh r) added' newest') as Hsh'.
  { unfold added', newest'. destruct (r <=? replayed_root) eqn:E; [done|].
    eapply history_add; [done|]. apply Z.leb_gt in E. lia. }
  rewrite Forall_forall in Hpd, Hpk, Hd, Hk. rewrite !Forall_forall. split_and!.
  - intros v Hin. destruct (Hd v Hin) as [Hf|Ho]; [left; by eapply check_Found; eauto|right].
    by eapply (check_cases _ _ _ _ Hsh' (Hpd v Hin)).
  - intros v Hin. by eapply (check_cases _ _ _ _ Hsh' (Hpk v Hin)), Hk.
  - exists x. split; [done|]. eapply check_Found; [done| |done]. apply last_Some_elem_of in Hx.
    apply elem_of_cons in Hx as [->|(v & -> & Hin)%list_elem_of_fmap]; [done|by apply Hpd].
Qed.

(** A tower whose votes were all dropped cannot be adjusted again: the last vote is
    reset to an empty [Vote], while the assertion at the start of the function only
    accepts an empty [VoteStateUpdate] for a tower without votes. *)
Theorem adjust_twice_panics tw replayed_root sh tw' :
  adjust_lockouts_with_slot_history tw sh = Returns (Ok tw') -> votes (vote_state tw') = [] ->
  forall root' sh', adjust_lockouts_after_replay tw' root' sh' = Panics
    /\ adjust_lockouts_after_replay (initialize_root tw' replayed_root) root' sh' = Panics.
Proof.
  intros (r & dropped & kept & _ & _ & Hv & Hr & Hl)%adjust_with_history_spec Hnil root' sh'.
  rewrite Hnil in Hv. subst kept.
  assert (forall t, root_slot (vote_state t) <> None -> last_vote t = no_vote -> votes (vote_state t) = [] ->
    adjust_lockouts_after_replay t root' sh' = Panics) as Hp.
  { intros t Hrt Hlt Hvt. unfold adjust_lockouts_after_replay, tw_root, no_votes.
    destruct (root_slot (vote_state t)); [|done]. cbn [unwrap mbind outcome_bind]. rewrite Hlt, Hvt.
    destruct (assert_ (bool_decide (_ = Found))); done. }
  split; apply Hp; cbn; try done. by rewrite Hr.
Qed.
