(* ===== verification/ReplayVote.v ===== *)
(** * Choosing the block to vote for

    The part of [core/src/replay_stage.rs] between replay and the vote:
    [compute_bank_stats] updates the statistics of every frozen bank, adopts the
    vote state of a bank that is ahead of the tower, and feeds the landed votes to
    the fork choice; [confirm_forks] and [mark_slots_confirmed] confirm the slots
    that enough stake has voted for; [select_forks] reads the fork choice;
    [select_vote_and_reset_forks] decides whether to vote and which bank to build
    on; [handle_new_root] prunes the state when a vote makes a new root.
    [replay_vote] composes them with [record_bank_vote] the way the loop of the
    replay stage does.  Sending and resending the vote, the commitment cache and the
    notifications of other services are left out. *)

From S2P Require Import Prelude Errors Float64 AuthorizedVoters VoteState EpochSchedule ForkChoice LatestVotes ClusterSlots SlotHistory ProgressMap Tower.

(** What the replay stage owns and these functions change. *)
Record ReplayState := {
  rs_tower : Tower;
  rs_progress : ProgressMap;
  rs_cluster : ClusterState;
  rs_latest_votes : LatestValidatorVotesForFrozenBanks;
}.

Definition rs_fork_choice (rs : ReplayState) : HeaviestSubtreeForkChoice := cs_fork_choice (rs_cluster rs).

(** What they read: the identity, the ancestor maps of [BankForks], its banks and
    root, and the gossip trackers. *)
Record ReplayEnv := {
  my_vote_pubkey : Pubkey;
  env_ancestors : Ancestors;
  env_descendants : Ancestors;
  env_banks : gmap Slot ReplayBank;
  env_root : Slot;
  env_voted_updates : Slot -> list Pubkey;
  env_slot_pubkeys : Slot -> list Pubkey;
}.

Definition rs_with (rs : ReplayState) (tw : Tower) (p : ProgressMap) : ReplayState :=
  {| rs_tower := tw; rs_progress := p; rs_cluster := rs_cluster rs;
     rs_latest_votes := rs_latest_votes rs |}.

Definition cs_with_fork_choice (cs : ClusterState) (fc : HeaviestSubtreeForkChoice) : ClusterState :=
  cs_with cs fc (duplicate_slots_to_repair cs) (bank_hashes cs) (sent_updates cs).

(** ** The statistics of the frozen banks *)

(** [a > b] on optional slots: [None] is the smallest. *)
Definition opt_slot_gtb (a b : option Slot) : bool :=
  match a, b with
  | Some a, Some b => b <? a
  | Some _, None => true
  | None, _ => false
  end.

(** A vote state from a bank below the local root: the local root is kept, the votes
    at or below it are dropped, and the oldest vote left must descend from it. *)
Definition raise_root (ancestors : Ancestors) (local_root : option Slot) (st : VoteState) : outcome VoteState :=
  match local_root with
  | Some local_root =>
      if match root_slot st with Some bank_root => bank_root <? local_root | None => true end then
        let kept := List.filter (fun l => local_root <? slot l) (votes st) in
        _ ← (match kept with
             | first_vote :: _ =>
                 a ← unwrap (ancestors !! slot first_vote);
                 assert_ (bool_decide (local_root ∈ (a : gset Slot)))
             | [] => Returns tt
             end);
        Returns (with_votes st kept (Some local_root))
      else Returns st
  | None => Returns st
  end.

(** The tower adopts the vote state of a bank in which a later vote of this validator
    has landed. *)
Definition adopt_bank_vote_state (my_vote_pubkey : Pubkey) (ancestors : Ancestors) (bank : ReplayBank)
    (tw : Tower) : outcome Tower :=
  match rb_direct_vote_state_update bank, rb_vote_accounts bank !! my_vote_pubkey with
  | true, Some (_, vote_account) =>
      match va_vote_state vote_account with
      | Ok bank_vote_state =>
          if opt_slot_gtb (last_voted_slot bank_vote_state) (last_voted_slot (vote_state tw)) then
            st ← raise_root ancestors (root_slot (vote_state tw)) bank_vote_state;
            Returns (with_vote_state tw (with_votes (vote_state tw) (votes st) (root_slot st)))
          else Returns tw
      | Err _ => Returns tw
      end
  | _, _ => Returns tw
  end.

Definition stats_computed (fs : ForkStats) (cb : ComputedBankState) (block_height : Z) : ForkStats :=
  {| fs_total_stake := cb_total_stake cb; fs_block_height := block_height;
     fs_has_voted := fs_has_voted fs; fs_is_recent := fs_is_recent fs;
     fs_vote_threshold := fs_vote_threshold fs; fs_is_locked_out := fs_is_locked_out fs;
     fs_voted_stakes := cb_voted_stakes cb;
     fs_is_supermajority_confirmed := fs_is_supermajority_confirmed fs; fs_computed := true;
     fs_lockout_intervals := cb_lockout_intervals cb; fs_bank_hash := fs_bank_hash fs;
     fs_my_latest_landed_vote := cb_my_latest_landed_vote cb |}.

Definition stats_checked (fs : ForkStats) (vote_threshold is_locked_out has_voted is_recent : bool)
    : ForkStats :=
  {| fs_total_stake := fs_total_stake fs; fs_block_height := fs_block_height fs;
     fs_has_voted := has_voted; fs_is_recent := is_recent; fs_vote_threshold := vote_threshold;
     fs_is_locked_out := is_locked_out; fs_voted_stakes := fs_voted_stakes fs;
     fs_is_supermajority_confirmed := fs_is_supermajority_confirmed fs;
     fs_computed := fs_computed fs; fs_lockout_intervals := fs_lockout_intervals fs;
     fs_bank_hash := fs_bank_hash fs; fs_my_latest_landed_vote := fs_my_latest_landed_vote fs |}.

(** The first half of an iteration, for a bank whose statistics are not computed. *)
Definition compute_new_stats (env : ReplayEnv) (rs : ReplayState) (bank : ReplayBank)
    : outcome ReplayState :=
  tw ← adopt_bank_vote_state (my_vote_pubkey env) (env_ancestors env) bank (rs_tower rs);
  '(cb, lv) ← collect_vote_lockouts (my_vote_pubkey env) (rb_slot bank) (rb_vote_accounts bank)
                (env_ancestors env) (get_hash (rs_progress rs)) (rs_latest_votes rs);
  '(fc, lv) ← compute_bank_stats (rs_fork_choice rs) lv (rb_epoch_stakes bank) (rb_epoch_schedule bank);
  fs ← unwrap (get_fork_stats (rs_progress rs) (rb_slot bank));
  Returns
    {| rs_tower := tw;
       rs_progress := set_fork_stats (rs_progress rs) (rb_slot bank)
                        (stats_computed fs cb (rb_block_height bank));
       rs_cluster := cs_with_fork_choice (rs_cluster rs) fc; rs_latest_votes := lv |}.

(** The second half: propagation, and the checks of the tower. *)
Definition check_bank (env : ReplayEnv) (rs : ReplayState) (bank : ReplayBank) : outcome ReplayState :=
  let tw := rs_tower rs in
  let bank_slot := rb_slot bank in
  p ← update_propagation_status (rs_progress rs) bank_slot (env_banks env) (env_root env)
        (env_voted_updates env) (env_slot_pubkeys env);
  fs ← unwrap (get_fork_stats p bank_slot);
  vote_threshold ← check_vote_stake_threshold tw bank_slot (fs_voted_stakes fs) (fs_total_stake fs);
  bank_ancestors ← unwrap (env_ancestors env !! bank_slot);
  locked_out ← is_locked_out tw bank_slot bank_ancestors;
  Returns (rs_with rs tw (set_fork_stats p bank_slot
             (stats_checked fs vote_threshold locked_out (has_voted tw bank_slot) (is_recent tw bank_slot)))).

(** One iteration of [ReplayStage::compute_bank_stats]; [new_stats] collects the slots
    whose statistics are new. *)
Definition bank_stats (env : ReplayEnv) (rs : ReplayState) (bank : ReplayBank)
    : outcome (ReplayState * list Slot) :=
  fs ← unwrap (get_fork_stats (rs_progress rs) (rb_slot bank));
  '(rs, new_stats) ←
    (if fs_computed fs then Returns (rs, [])
     else rs ← compute_new_stats env rs bank; Returns (rs, [rb_slot bank]));
  rs ← check_bank env rs bank;
  Returns (rs, new_stats).

Fixpoint all_bank_stats (env : ReplayEnv) (rs : ReplayState) (banks : list ReplayBank)
    : outcome (ReplayState * list Slot) :=
  match banks with
  | [] => Returns (rs, [])
  | bank :: rest =>
      '(rs, new) ← bank_stats env rs bank;
      '(rs, news) ← all_bank_stats env rs rest;
      Returns (rs, new ++ news)
  end.

Definition bank_slot_le (a b : ReplayBank) : Prop := rb_slot a <= rb_slot b.
#[global] Instance bank_slot_le_dec : RelDecision bank_slot_le.
Proof. intros a b. unfold bank_slot_le. apply _. Defined.

(** [ReplayStage::compute_bank_stats]: the banks in the order of their slots. *)
Definition replay_compute_bank_stats (env : ReplayEnv) (rs : ReplayState) (frozen_banks : list ReplayBank)
    : outcome (ReplayState * list Slot) :=
  all_bank_stats env rs (merge_sort bank_slot_le frozen_banks).

(** ** Confirmed slots *)

(** [confirm_forks]: the frozen banks that the votes seen in one bank confirm. *)
Fixpoint confirm_forks_loop (tw : Tower) (voted_stakes : gmap Slot Z) (total_stake : Z)
    (banks : gmap Slot ReplayBank) (l : list (Slot * ForkProgress)) : outcome (list SlotHashKey) :=
  match l with
  | [] => Returns []
  | (slot, prog) :: rest =>
      if fs_is_supermajority_confirmed (fork_stats prog)
      then confirm_forks_loop tw voted_stakes total_stake banks rest
      else
        bank ← unwrap (banks !! slot);
        confirmed ← confirm_forks_loop tw voted_stakes total_stake banks rest;
        Returns (if rb_is_frozen bank && is_slot_confirmed tw slot voted_stakes total_stake
                 then (slot, rb_hash bank) :: confirmed else confirmed)
  end.

Definition confirm_forks (tw : Tower) (voted_stakes : gmap Slot Z) (total_stake : Z) (p : ProgressMap)
    (banks : gmap Slot ReplayBank) : outcome (list SlotHashKey) :=
  confirm_forks_loop tw voted_stakes total_stake banks (map_to_list p).

Definition stats_confirmed (fs : ForkStats) : ForkStats :=
  {| fs_total_stake := fs_total_stake fs; fs_block_height := fs_block_height fs;
     fs_has_voted := fs_has_voted fs; fs_is_recent := fs_is_recent fs;
     fs_vote_threshold := fs_vote_threshold fs; fs_is_locked_out := fs_is_locked_out fs;
     fs_voted_stakes := fs_voted_stakes fs; fs_is_supermajority_confirmed := true;
     fs_computed := fs_computed fs; fs_lockout_intervals := fs_lockout_intervals fs;
     fs_bank_hash := fs_bank_hash fs; fs_my_latest_landed_vote := fs_my_latest_landed_vote fs |}.

(** [mark_slots_confirmed]. *)
Fixpoint mark_slots_confirmed (root : Slot) (confirmed_forks : list SlotHashKey) (p : ProgressMap)
    (cs : ClusterState) : outcome (ProgressMap * ClusterState) :=
  match confirmed_forks with
  | [] => Returns (p, cs)
  | (slot, frozen_hash) :: rest =>
      match get_fork_stats p slot with
      | Some fs =>
          if fs_is_supermajority_confirmed fs then mark_slots_confirmed root rest p cs
          else
            _ ← assert_ (negb (frozen_hash =? 0)%N);
            cs ← on_confirmed_slot slot root frozen_hash false (Some frozen_hash) cs;
            mark_slots_confirmed root rest (set_fork_stats p slot (stats_confirmed fs)) cs
      | None => mark_slots_confirmed root rest p cs
      end
  end.

(** The loop over the slots whose statistics are new. *)
Fixpoint confirm_new_slots (env : ReplayEnv) (rs : ReplayState) (new_stats : list Slot) : outcome ReplayState :=
  match new_stats with
  | [] => Returns rs
  | slot :: rest =>
      fs ← unwrap (get_fork_stats (rs_progress rs) slot);
      confirmed ← confirm_forks (rs_tower rs) (fs_voted_stakes fs) (fs_total_stake fs) (rs_progress rs)
                    (env_banks env);
      '(p, cs) ← mark_slots_confirmed (env_root env) confirmed (rs_progress rs) (rs_cluster rs);
      confirm_new_slots env
        {| rs_tower := rs_tower rs; rs_progress := p; rs_cluster := cs;
           rs_latest_votes := rs_latest_votes rs |} rest
  end.

(** ** The decision *)

Inductive HeaviestForkFailures :=
| HF_LockedOut (slot : Slot)
| HF_FailedThreshold (slot : Slot)
| HF_FailedSwitchThreshold (slot : Slot)
| HF_NoPropagatedConfirmation (slot : Slot).

Record SelectVoteAndResetForkResult := {
  vote_bank : option (ReplayBank * SwitchForkDecision);
  reset_bank : option ReplayBank;
  heaviest_fork_failures : list HeaviestForkFailures;
}.

(** [BankForks::get_with_checked_hash]. *)
Definition get_with_checked_hash (banks : gmap Slot ReplayBank) (key : SlotHashKey) : outcome (option ReplayBank) :=
  match banks !! key.1 with
  | Some bank => _ ← assert_ (rb_hash bank =? key.2)%N; Returns (Some bank)
  | None => Returns None
  end.

(** [HeaviestSubtreeForkChoice::select_forks]. *)
Definition select_forks (fc : HeaviestSubtreeForkChoice) (tw : Tower) (banks : gmap Slot ReplayBank)
    : outcome (ReplayBank * option ReplayBank) :=
  best ← best_overall_slot fc;
  heaviest ← get_with_checked_hash banks best;
  heaviest ← unwrap heaviest;
  same ← heaviest_slot_on_same_voted_fork fc tw;
  match same with
  | Some key =>
      on_same ← get_with_checked_hash banks key;
      on_same ← unwrap on_same;
      Returns (heaviest, Some on_same)
  | None => Returns (heaviest, None)
  end.

(** The bank the decision is about, and the failure noted so far. *)
Definition selected_fork (heaviest_bank : ReplayBank) (same_voted_fork : option ReplayBank)
    (decision : SwitchForkDecision)
    : option (ReplayBank * SwitchForkDecision) * list HeaviestForkFailures :=
  match decision with
  | FailedSwitchThreshold _ _ =>
      ((fun b => (b, decision)) <$> same_voted_fork, [HF_FailedSwitchThreshold (rb_slot heaviest_bank)])
  | FailedSwitchDuplicateRollback _ =>
      (Some (heaviest_bank, decision), [HF_FailedSwitchThreshold (rb_slot heaviest_bank)])
  | _ => (Some (heaviest_bank, decision), [])
  end.

(** [select_vote_and_reset_forks]. *)
Definition select_vote_and_reset_forks (env : ReplayEnv) (heaviest_bank : ReplayBank)
    (same_voted_fork : option ReplayBank) (p : ProgressMap) (tw : Tower)
    (lv : LatestValidatorVotesForFrozenBanks) (fc : HeaviestSubtreeForkChoice)
    : outcome (Tower * SelectVoteAndResetForkResult) :=
  '(tw, decision) ←
    check_switch_threshold tw (rb_slot heaviest_bank) (env_ancestors env) (env_descendants env) p
      (rb_total_epoch_stake heaviest_bank) (rb_epoch_vote_accounts heaviest_bank) lv fc;
  match selected_fork heaviest_bank same_voted_fork decision with
  | (Some (bank, decision), failures) =>
      fs ← unwrap (get_fork_stats p (rb_slot bank));
      ps ← unwrap (get_propagated_stats p (rb_slot bank));
      '(leader_confirmed, _) ← (if is_leader_slot ps then Returns (true, None)
                                else get_leader_propagation_slot_must_exist p (rb_slot bank));
      let propagation_confirmed := is_leader_slot ps || leader_confirmed in
      let failures :=
        failures
          ++ (if fs_is_locked_out fs then [HF_LockedOut (rb_slot bank)] else [])
          ++ (if negb (fs_vote_threshold fs) then [HF_FailedThreshold (rb_slot bank)] else [])
          ++ (if negb propagation_confirmed then [HF_NoPropagatedConfirmation (rb_slot bank)] else []) in
      Returns
        (tw, {| vote_bank :=
                  if negb (fs_is_locked_out fs) && fs_vote_threshold fs && propagation_confirmed
                     && can_vote decision
                  then Some (bank, decision) else None;
                reset_bank := Some bank; heaviest_fork_failures := failures |})
  | (None, failures) =>
      Returns (tw, {| vote_bank := None; reset_bank := None; heaviest_fork_failures := failures |})
  end.

(** [ReplayStage::handle_new_root]: [live] are the slots [BankForks] keeps.  The
    tracked slots below the root are dropped. *)
Definition handle_new_root (env : ReplayEnv) (live : gset Slot) (rs : ReplayState) (new_root : Slot)
    : outcome ReplayState :=
  bank ← unwrap (env_banks env !! new_root);
  let cs := rs_cluster rs in
  fc ← set_root (cs_fork_choice cs) (new_root, rb_hash bank);
  Returns
    {| rs_tower := rs_tower rs; rs_progress := progress_handle_new_root (rs_progress rs) live;
       rs_cluster :=
         {| cs_fork_choice := fc;
            duplicate_slots_tracker := filter (fun s => new_root <= s) (duplicate_slots_tracker cs);
            gossip_duplicate_confirmed_slots :=
              filter (fun e => new_root <= e.1) (gossip_duplicate_confirmed_slots cs);
            epoch_slots_frozen_slots := filter (fun e => new_root <= e.1) (epoch_slots_frozen_slots cs);
            duplicate_slots_to_repair := duplicate_slots_to_repair cs; bank_hashes := bank_hashes cs;
            sent_updates := sent_updates cs |};
       rs_latest_votes := rs_latest_votes rs |}.

(** One round of the replay loop, from the frozen banks to the vote: the state, the
    result of the selection and the new root.  [live] gives the slots kept for a new
    root. *)
Definition replay_vote (env : ReplayEnv) (live : Slot -> gset Slot) (rs : ReplayState)
    (frozen_banks : list ReplayBank) (now : Z)
    : outcome (ReplayState * SelectVoteAndResetForkResult * option Slot) :=
  '(rs, new_stats) ← replay_compute_bank_stats env rs frozen_banks;
  rs ← confirm_new_slots env rs new_stats;
  '(heaviest_bank, same_voted_fork) ← select_forks (rs_fork_choice rs) (rs_tower rs) (env_banks env);
  '(tw, selected) ← select_vote_and_reset_forks env heaviest_bank same_voted_fork (rs_progress rs)
                      (rs_tower rs) (rs_latest_votes rs) (rs_fork_choice rs);
  let rs := rs_with rs tw (rs_progress rs) in
  match vote_bank selected with
  | Some (bank, _) =>
      '(tw, new_root) ← record_bank_vote (rs_tower rs) bank (my_vote_pubkey env) now;
      let rs := rs_with rs tw (rs_progress rs) in
      rs ← (match new_root with
            | Some new_root => handle_new_root env (live new_root) rs new_root
            | None => Returns rs
            end);
      Returns (rs, selected, new_root)
  | None => Returns (rs, selected, None)
  end.
