(* ===== verification/ReplayVoteSafety.v ===== *)
(** * The vote that is cast

    One round of the replay loop votes only for the block the fork choice prefers,
    only if no lockout of the tower forbids it, the stake threshold is met and the
    switch was allowed; and the tower after the vote is again well formed and on one
    fork.  The tower must not adopt a vote state in the same round:
    [adopted_vote_is_not_checked] shows what happens otherwise. *)

From S2P Require Import Prelude Errors Float64 AuthorizedVoters VoteState VoteTower EpochSchedule ForkChoice LatestVotes ClusterSlots SlotHistory ProgressMap Tower TowerSafety TowerSwitch ReplayVote.

(** ** Statistics that stay *)

Lemma set_propagated_fork_stats p s ps s' : get_fork_stats (set_propagated_stats p s ps) s' = get_fork_stats p s'.
Proof.
  unfold get_fork_stats, set_propagated_stats. destruct (decide (s' = s)) as [->|].
  - rewrite lookup_alter_eq. by destruct (p !! s).
  - by rewrite lookup_alter_ne.
Qed.

Lemma set_fork_stats_lookup p s fs s' :
  get_fork_stats (set_fork_stats p s fs) s'
  = if decide (s' = s) then (fun _ => fs) <$> get_fork_stats p s else get_fork_stats p s'.
Proof.
  unfold get_fork_stats, set_fork_stats. destruct (decide (s' = s)) as [->|].
  - rewrite lookup_alter_eq. by destruct (p !! s).
  - by rewrite lookup_alter_ne.
Qed.

Lemma propagate_threshold_stats fuel : forall p banks root voted nodes leader reached p',
  propagate_threshold fuel p banks root voted nodes leader reached = Returns p' ->
  forall s, get_fork_stats p' s = get_fork_stats p s.
Proof.
  induction fuel as [|fuel IH]; intros p banks root voted nodes leader reached p' H s;
    cbn [propagate_threshold] in H; (destruct leader as [l|]; [|by injection H as <-]);
    (destruct (l <? root); [by injection H as <-|]);
    (destruct (get_propagated_stats p l) as [ps|]; [|done]); cbn [unwrap mbind outcome_bind] in H;
    (destruct (_ || _); [by injection H as <-|]);
    (destruct (assert_ _); [|done]); cbn [mbind outcome_bind] in H;
    (destruct (banks !! l) as [b|]; [|done]); cbn [unwrap mbind outcome_bind] in H;
    destruct (update_slot_propagated_threshold_from_votes _ _ _ _ _) as [[[ps' v'] n'] r'].
  - done.
  - apply IH with (s := s) in H. rewrite H. apply set_propagated_fork_stats.
Qed.

Lemma propagation_stats p slot banks root vu sp p' :
  update_propagation_status p slot banks root vu sp = Returns p' ->
  forall s, get_fork_stats p' s = get_fork_stats p s.
Proof.
  unfold update_propagation_status. destruct (get_leader_propagation_slot_must_exist p slot) as [[c ?]|]; [|done].
  cbn [mbind outcome_bind]. destruct c; [by intros [= <-]|].
  unfold update_fork_propagated_threshold_from_votes. destruct (get_latest_leader_slot_must_exist p slot); [|done].
  cbn [mbind outcome_bind]. intros H s. by eapply propagate_threshold_stats.
Qed.

(** ** The checks of the tower on each bank *)

(** The statistics of the bank hold the answers of the tower. *)
Definition checked (env : ReplayEnv) (tw : Tower) (p : ProgressMap) (slot : Slot) : Prop :=
  exists fs a, get_fork_stats p slot = Some fs /\ env_ancestors env !! slot = Some a
    /\ is_locked_out tw slot a = Returns (fs_is_locked_out fs)
    /\ check_vote_stake_threshold tw slot (fs_voted_stakes fs) (fs_total_stake fs)
       = Returns (fs_vote_threshold fs).

Lemma check_bank_checked env rs bank rs' :
  check_bank env rs bank = Returns rs' ->
  rs_tower rs' = rs_tower rs /\ checked env (rs_tower rs) (rs_progress rs') (rb_slot bank)
  /\ forall s, s <> rb_slot bank -> get_fork_stats (rs_progress rs') s = get_fork_stats (rs_progress rs) s.
Proof.
  unfold check_bank. destruct (update_propagation_status _ _ _ _ _ _) as [p|] eqn:Ep; [|done].
  cbn [mbind outcome_bind]. destruct (get_fork_stats p (rb_slot bank)) as [fs|] eqn:Ef; [|done].
  cbn [unwrap mbind outcome_bind]. destruct (check_vote_stake_threshold _ _ _ _) as [th|] eqn:Et; [|done].
  cbn [mbind outcome_bind]. destruct (env_ancestors env !! rb_slot bank) as [a|] eqn:Ea; [|done].
  cbn [unwrap mbind outcome_bind]. destruct (is_locked_out _ _ _) as [lo|] eqn:El; [|done].
  cbn [mbind outcome_bind]. intros [= <-]. cbn [rs_with rs_tower rs_progress]. split; [done|]. split.
  - eexists _, a. rewrite set_fork_stats_lookup, decide_True, Ef by done. cbn. split_and!; done.
  - intros s Hs. rewrite set_fork_stats_lookup, decide_False by done. by eapply propagation_stats.
Qed.

(** No bank is ahead of the tower. *)
Definition nothing_to_adopt (env : ReplayEnv) (tw : Tower) (banks : list ReplayBank) : Prop :=
  forall b, b ∈ banks -> adopt_bank_vote_state (my_vote_pubkey env) (env_ancestors env) b tw = Returns tw.

Lemma compute_new_stats_tower env rs bank rs' :
  adopt_bank_vote_state (my_vote_pubkey env) (env_ancestors env) bank (rs_tower rs) = Returns (rs_tower rs) ->
  compute_new_stats env rs bank = Returns rs' ->
  rs_tower rs' = rs_tower rs
  /\ forall s, s <> rb_slot bank -> get_fork_stats (rs_progress rs') s = get_fork_stats (rs_progress rs) s.
Proof.
  intros Hadopt. unfold compute_new_stats. rewrite Hadopt. cbn [mbind outcome_bind].
  destruct (collect_vote_lockouts _ _ _ _ _ _) as [[cb lv]|]; [|done]. cbn [mbind outcome_bind].
  destruct (compute_bank_stats _ _ _ _) as [[fc lv']|]; [|done]. cbn [mbind outcome_bind].
  destruct (get_fork_stats _ _) as [fs|]; [|done]. cbn [unwrap mbind outcome_bind]. intros [= <-].
  split; [done|]. intros s Hs. cbn [rs_progress]. by rewrite set_fork_stats_lookup, decide_False.
Qed.

Lemma bank_stats_checked env rs bank rs' new :
  adopt_bank_vote_state (my_vote_pubkey env) (env_ancestors env) bank (rs_tower rs) = Returns (rs_tower rs) ->
  bank_stats env rs bank = Returns (rs', new) ->
  rs_tower rs' = rs_tower rs /\ checked env (rs_tower rs) (rs_progress rs') (rb_slot bank)
  /\ forall s, s <> rb_slot bank -> get_fork_stats (rs_progress rs') s = get_fork_stats (rs_progress rs) s.
Proof.
  intros Hadopt. unfold bank_stats. destruct (get_fork_stats _ _) as [fs|]; [|done]. cbn [unwrap mbind outcome_bind].
  destruct (fs_computed fs); cbn [mbind outcome_bind].
  - destruct (check_bank env rs bank) as [rs1|] eqn:E; [|done]. cbn. intros [= <- _]. by apply check_bank_checked.
  - destruct (compute_new_stats env rs bank) as [rs1|] eqn:E1; [|done]. cbn [mbind outcome_bind].
    apply compute_new_stats_tower in E1 as [Ht1 Hs1]; [|done].
    destruct (check_bank env rs1 bank) as [rs2|] eqn:E2; [|done]. cbn. intros [= <- _].
    apply check_bank_checked in E2 as (Ht2 & Hc & Hs2). rewrite Ht1 in *. split_and!; [congruence|done|].
    intros s Hs. by rewrite Hs2, Hs1.
Qed.

Lemma checked_same env tw p p' slot :
  get_fork_stats p' slot = get_fork_stats p slot -> checked env tw p slot -> checked env tw p' slot.
Proof. unfold checked. by intros ->. Qed.

Lemma all_bank_stats_checked env tw banks : forall rs rs' news,
  rs_tower rs = tw -> NoDup (map rb_slot banks) -> nothing_to_adopt env tw banks ->
  all_bank_stats env rs banks = Returns (rs', news) ->
  rs_tower rs' = tw /\ (forall b, b ∈ banks -> checked env tw (rs_progress rs') (rb_slot b))
  /\ forall s, s ∉ map rb_slot banks -> get_fork_stats (rs_progress rs') s = get_fork_stats (rs_progress rs) s.
Proof.
  induction banks as [|b banks IH]; intros rs rs' news Htw Hnd Hno; cbn [all_bank_stats].
  { intros [= <- _]. split_and!; [done| |done]. intros b Hb. by apply not_elem_of_nil in Hb. }
  cbn [map] in Hnd. apply NoDup_cons in Hnd as [Hb Hnd].
  destruct (bank_stats env rs b) as [[rs1 new]|] eqn:E1; [|done]. cbn [mbind outcome_bind].
  apply bank_stats_checked in E1 as (Ht1 & Hc1 & Hs1); [|rewrite Htw; apply Hno; by left]. rewrite Htw in *.
  destruct (all_bank_stats env rs1 banks) as [[rs2 news2]|] eqn:E2; [|done]. cbn [mbind outcome_bind].
  intros [= <- _]. apply IH in E2 as (Ht2 & Hc2 & Hs2); [|done|done|intros b' Hb'; apply Hno; by right].
  split_and!; [done| |].
  - intros b' [->|Hb']%elem_of_cons; [|auto]. eapply checked_same; [by apply Hs2|done].
  - intros s [Hne Hs]%not_elem_of_cons. by rewrite Hs2, Hs1.
Qed.

(** Confirming slots changes neither the tower nor its answers. *)
Lemma mark_slots_checked env tw root l slot : forall p cs p' cs',
  mark_slots_confirmed root l p cs = Returns (p', cs') -> checked env tw p slot -> checked env tw p' slot.
Proof.
  induction l as [|[s h] l IH]; intros p cs p' cs'; cbn [mark_slots_confirmed]; [by intros [= <- <-]|].
  destruct (get_fork_stats p s) as [fs|] eqn:Ef; [|apply IH].
  destruct (fs_is_supermajority_confirmed fs); [apply IH|].
  destruct (assert_ _) as [[]|]; [|done]. cbn [mbind outcome_bind].
  destruct (on_confirmed_slot _ _ _ _ _ _) as [cs1|]; [|done]. cbn [mbind outcome_bind].
  intros H Hc. eapply IH; [exact H|]. destruct Hc as (fs0 & a & Hf & Ha & Hl & Ht).
  unfold checked. rewrite set_fork_stats_lookup. destruct (decide (slot = s)) as [->|]; [|by exists fs0, a].
  rewrite Hf in Ef. injection Ef as <-. rewrite Hf. by exists (stats_confirmed fs0), a.
Qed.

Lemma confirm_new_slots_checked env l : forall rs rs',
  confirm_new_slots env rs l = Returns rs' ->
  rs_tower rs' = rs_tower rs
  /\ forall slot, checked env (rs_tower rs) (rs_progress rs) slot -> checked env (rs_tower rs) (rs_progress rs') slot.
Proof.
  induction l as [|s l IH]; intros rs rs'; cbn [confirm_new_slots]; [by intros [= <-]|].
  destruct (get_fork_stats _ _) as [fs|]; [|done]. cbn [unwrap mbind outcome_bind].
  destruct (confirm_forks _ _ _ _ _) as [conf|]; [|done]. cbn [mbind outcome_bind].
  destruct (mark_slots_confirmed _ _ _ _) as [[p cs]|] eqn:Em; [|done]. cbn [mbind outcome_bind].
  intros H. apply IH in H as [Ht Hc]. cbn [rs_tower rs_progress] in *. split; [done|].
  intros slot Hs. apply Hc. by eapply mark_slots_checked.
Qed.

(** ** The selection *)

(** The switch check only notes its decision in the tower. *)
Lemma check_switch_tower tw s anc desc p total eva lv fc tw' d :
  check_switch_threshold tw s anc desc p total eva lv fc = Returns (tw', d) ->
  make_check_switch_threshold_decision tw s anc desc p total eva lv fc = Returns d
  /\ vote_state tw' = vote_state tw /\ last_vote tw' = last_vote tw.
Proof.
  unfold check_switch_threshold. destruct (make_check_switch_threshold_decision _ _ _ _ _ _ _ _ _) as [d0|]; [|done].
  cbn [mbind outcome_bind]. intros [= <- <-]. by destruct (bool_decide _).
Qed.

(** A bank is selected for a vote only if all the checks passed on it. *)
Lemma select_vote_spec env heaviest same p tw lv fc tw' sel bank d :
  select_vote_and_reset_forks env heaviest same p tw lv fc = Returns (tw', sel) ->
  vote_bank sel = Some (bank, d) ->
  bank = heaviest /\ can_vote d = true
  /\ make_check_switch_threshold_decision tw (rb_slot heaviest) (env_ancestors env) (env_descendants env) p
       (rb_total_epoch_stake heaviest) (rb_epoch_vote_accounts heaviest) lv fc = Returns d
  /\ vote_state tw' = vote_state tw /\ last_vote tw' = last_vote tw
  /\ exists fs, get_fork_stats p (rb_slot heaviest) = Some fs /\ fs_is_locked_out fs = false
       /\ fs_vote_threshold fs = true.
Proof.
  unfold select_vote_and_reset_forks. destruct (check_switch_threshold _ _ _ _ _ _ _ _ _) as [[tw1 d1]|] eqn:Ec; [|done].
  cbn [mbind outcome_bind]. apply check_switch_tower in Ec as (Hd & Hv & Hl).
  destruct (selected_fork heaviest same d1) as [[[b d2]|] fails] eqn:Es; [|intros [= <- <-]; done].
  destruct (get_fork_stats p (rb_slot b)) as [fs|] eqn:Ef; [|done]. cbn [unwrap mbind outcome_bind].
  destruct (get_propagated_stats p (rb_slot b)) as [ps|]; [|done]. cbn [unwrap mbind outcome_bind].
  destruct (if is_leader_slot ps then _ else _) as [[c ?]|]; [|done]. cbn [mbind outcome_bind].
  intros [= <- <-]. cbn [vote_bank]. destruct (_ && _) eqn:E; [|done]. intros [= <- <-].
  rewrite !andb_true_iff in E. destruct E as [[[Hlo%negb_true_iff Hth] _] Hcan].
  assert (b = heaviest /\ d2 = d1) as [-> ->].
  { destruct d1; cbn in Es; try (by injection Es).
    destruct same; cbn in Es; [|done]. injection Es as <- <- _. done. }
  split_and!; eauto.
Qed.

Lemma get_with_checked_hash_Some banks k b :
  get_with_checked_hash banks k = Returns (Some b) -> banks !! k.1 = Some b /\ rb_hash b = k.2.
Proof.
  unfold get_with_checked_hash. destruct (banks !! k.1) as [b'|]; [|done]. unfold assert_.
  destruct (N.eqb_spec (rb_hash b') k.2); [|done]. by intros [= <-].
Qed.

Lemma select_forks_heaviest fc tw banks heaviest same :
  select_forks fc tw banks = Returns (heaviest, same) ->
  exists k, best_overall_slot fc = Returns k /\ banks !! k.1 = Some heaviest /\ rb_hash heaviest = k.2.
Proof.
  unfold select_forks. destruct (best_overall_slot fc) as [k|]; [|done]. cbn [mbind outcome_bind].
  destruct (get_with_checked_hash banks k) as [[b|]|] eqn:Eb; [|done|done]. cbn [mbind outcome_bind unwrap].
  apply get_with_checked_hash_Some in Eb as [? ?].
  destruct (heaviest_slot_on_same_voted_fork fc tw) as [[key|]|]; [| |done]; cbn [mbind outcome_bind].
  - destruct (get_with_checked_hash banks key) as [[b'|]|]; [|done|done]. intros [= <- _]. eauto.
  - intros [= <- _]. eauto.
Qed.

(** ** The round *)

(** Only the vote state of the tower matters for its lockouts. *)
Lemma is_locked_out_same tw tw' s a :
  vote_state tw' = vote_state tw -> is_locked_out tw' s a = is_locked_out tw s a.
Proof. unfold is_locked_out, is_recent. by intros ->. Qed.

Lemma tower_ok_same tw tw' : vote_state tw' = vote_state tw -> tower_ok tw -> tower_ok tw'.
Proof. intros H [? ? ?]. by constructor; rewrite H. Qed.

Lemma handle_new_root_tower env live rs r rs' :
  handle_new_root env live rs r = Returns rs' -> rs_tower rs' = rs_tower rs.
Proof.
  unfold handle_new_root. destruct (env_banks env !! r); [|done]. cbn [unwrap mbind outcome_bind].
  destruct (set_root _ _); [|done]. by intros [= <-].
Qed.

(** The state in which the round selects the bank to vote for. *)
Definition selection_state (env : ReplayEnv) (rs : ReplayState) (frozen_banks : list ReplayBank)
    : outcome ReplayState :=
  '(rs, new_stats) ← replay_compute_bank_stats env rs frozen_banks;
  confirm_new_slots env rs new_stats.

Lemma selection_state_checked env rs frozen_banks rs1 :
  NoDup (map rb_slot frozen_banks) -> nothing_to_adopt env (rs_tower rs) frozen_banks ->
  selection_state env rs frozen_banks = Returns rs1 ->
  rs_tower rs1 = rs_tower rs
  /\ forall b, b ∈ frozen_banks -> checked env (rs_tower rs) (rs_progress rs1) (rb_slot b).
Proof.
  intros Hnd Hno. unfold selection_state, replay_compute_bank_stats.
  assert (merge_sort bank_slot_le frozen_banks ≡ₚ frozen_banks) as Hperm by apply merge_sort_Permutation.
  destruct (all_bank_stats _ _ _) as [[rs0 news]|] eqn:E0; [|done]. cbn [mbind outcome_bind].
  eapply all_bank_stats_checked in E0 as (Ht0 & Hc0 & _);
    [|done|by rewrite Hperm|intros b Hb; apply Hno; by rewrite Hperm in Hb].
  intros [Ht1 Hc1]%confirm_new_slots_checked. rewrite Ht0 in *. split; [done|].
  intros b Hb. apply Hc1, Hc0. by rewrite Hperm.
Qed.

(** The steps of a round that votes. *)
Lemma replay_vote_steps env live rs frozen_banks now rs' sel new_root bank d :
  replay_vote env live rs frozen_banks now = Returns (rs', sel, new_root) ->
  vote_bank sel = Some (bank, d) ->
  exists rs1 heaviest same tw tw', selection_state env rs frozen_banks = Returns rs1
    /\ select_forks (rs_fork_choice rs1) (rs_tower rs1) (env_banks env) = Returns (heaviest, same)
    /\ select_vote_and_reset_forks env heaviest same (rs_progress rs1) (rs_tower rs1) (rs_latest_votes rs1)
         (rs_fork_choice rs1) = Returns (tw, sel)
    /\ record_bank_vote tw bank (my_vote_pubkey env) now = Returns (tw', new_root) /\ rs_tower rs' = tw'.
Proof.
  unfold replay_vote, selection_state. destruct (replay_compute_bank_stats _ _ _) as [[rs0 news]|]; [|done].
  cbn [mbind outcome_bind]. destruct (confirm_new_slots env rs0 news) as [rs1|]; [|done]. cbn [mbind outcome_bind].
  destruct (select_forks _ _ _) as [[heaviest same]|] eqn:E2; [|done]. cbn [mbind outcome_bind].
  destruct (select_vote_and_reset_forks _ _ _ _ _ _ _) as [[tw sel0]|] eqn:E3; [|done].
  cbn [mbind outcome_bind rs_tower rs_with]. intros H Hsel.
  destruct (vote_bank sel0) as [[b d0]|] eqn:Eb; [|injection H as <- <- <-; congruence].
  destruct (record_bank_vote _ _ _ _) as [[tw' nr]|] eqn:E4; [|done]. cbn [mbind outcome_bind] in H.
  destruct nr as [r|].
  - destruct (handle_new_root _ _ _ _) as [rs2|] eqn:E5; [|done]. cbn [mbind outcome_bind] in H.
    injection H as <- <- <-. rewrite Eb in Hsel. injection Hsel as -> ->.
    apply handle_new_root_tower in E5. by exists rs1, heaviest, same, tw, tw'.
  - cbn [mbind outcome_bind] in H. injection H as <- <- <-. rewrite Eb in Hsel. injection Hsel as -> ->.
    by exists rs1, heaviest, same, tw, tw'.
Qed.

(** C2: The vote cast in a round obeys the lockouts, the threshold and the switch rule.
    If a round of the replay loop votes for one of the frozen banks, and no frozen bank
    is ahead of the tower, then the bank is the one the fork choice prefers; every vote
    of the tower still locked out at the bank is an ancestor of it; the stake threshold
    is met by the votes seen in the bank; the switch decision allows the vote; and the
    new tower is well formed, has the bank as its last vote and all its votes on one
    fork.  A new root is one of the earlier votes and an ancestor of the bank. *)
Theorem replay_vote_obeys_lockouts anc env live rs frozen_banks now rs' sel new_root bank d :
  tower_ok (rs_tower rs) -> one_fork anc (tower (vote_state (rs_tower rs))) ->
  nothing_to_adopt env (rs_tower rs) frozen_banks -> NoDup (map rb_slot frozen_banks) ->
  (forall s a, env_ancestors env !! s = Some a -> a ⊆ anc s) ->
  (forall s b, env_banks env !! s = Some b -> rb_slot b = s) ->
  replay_vote env live rs frozen_banks now = Returns (rs', sel, new_root) ->
  vote_bank sel = Some (bank, d) -> bank ∈ frozen_banks -> slot_small (rb_slot bank) ->
  (forall l, last_voted_slot_in_bank bank (my_vote_pubkey env) = Some l -> l < rb_slot bank) ->
  exists rs1 fs ancestors,
    selection_state env rs frozen_banks = Returns rs1
    /\ best_overall_slot (rs_fork_choice rs1) = Returns (rb_slot bank, rb_hash bank)
    /\ env_ancestors env !! rb_slot bank = Some ancestors
    /\ (forall v, v ∈ votes (vote_state (rs_tower rs)) -> is_locked_out_at_slot v (rb_slot bank) = true ->
          slot v ∈ ancestors)
    /\ get_fork_stats (rs_progress rs1) (rb_slot bank) = Some fs
    /\ check_vote_stake_threshold (rs_tower rs) (rb_slot bank) (fs_voted_stakes fs) (fs_total_stake fs) = Returns true
    /\ make_check_switch_threshold_decision (rs_tower rs) (rb_slot bank) (env_ancestors env) (env_descendants env)
         (rs_progress rs1) (rb_total_epoch_stake bank) (rb_epoch_vote_accounts bank) (rs_latest_votes rs1)
         (rs_fork_choice rs1) = Returns d
    /\ can_vote d = true
    /\ tower_ok (rs_tower rs') /\ one_fork anc (tower (vote_state (rs_tower rs')))
    /\ tw_last_voted_slot_hash (rs_tower rs') = Returns (Some (rb_slot bank, rb_hash bank))
    /\ (forall r, new_root = Some r -> r ∈ ancestors /\ r ∈ tower (vote_state (rs_tower rs))).
Proof.
  intros Hok Hfork Hno Hnd Hanc Hbanks Hrun Hvote Hin Hsmall Hlast.
  eapply replay_vote_steps in Hrun as (rs1 & heaviest & same & tw & tw' & E1 & E2 & E3 & E4 & Htw'); [|done].
  pose proof (selection_state_checked _ _ _ _ Hnd Hno E1) as [Ht1 Hc]. rewrite Ht1 in *.
  apply select_forks_heaviest in E2 as ([s h] & Hbest & Hk & Hh).
  destruct (select_vote_spec _ _ _ _ _ _ _ _ _ _ _ E3 Hvote) as (-> & Hcan & Hd & Hvs & _ & fs & Hfs & Hlo & Hth).
  destruct (Hc _ Hin) as (fs' & a & Hfs' & Ha & Hl & Ht). rewrite Hfs in Hfs'. injection Hfs' as <-.
  rewrite Hlo in Hl. rewrite Hth in Ht.
  destruct (record_vote_ok anc tw (rb_slot heaviest) a (rb_hash heaviest)
    (last_voted_slot_in_bank heaviest (my_vote_pubkey env)) (rb_direct_vote_state_update heaviest) now)
    as (tw2 & nr & E & Hok' & Hfork' & Hlast' & _ & _ & Hroot); rewrite ?Hvs; eauto using tower_ok_same.
  { by rewrite (is_locked_out_same _ _ _ _ Hvs). }
  unfold record_bank_vote in E4. rewrite E4 in E. injection E as <- <-. subst tw'.
  cbn [fst snd] in *. rewrite <- (Hbanks _ _ Hk), <- Hh in Hbest. rewrite Hvs in Hroot.
  exists rs1, fs, a. split_and!; eauto using locked_votes_are_ancestors.
Qed.
