(* ===== verification/VotingSample.v ===== *)
(** * A sample of the replay loop

    Three validators and six blocks: the root 10, a fork 11, 13, 16 and a fork 12, 15.
    The third validator is the local one.  The witnesses of the theorems about voting,
    and the round in which a vote breaks an adopted lockout. *)

From S2P Require Import Prelude Errors Float64 AuthorizedVoters VoteState VoteTower EpochSchedule ForkChoice ForkGhost ForkSample LatestVotes ClusterSlots SlotHistory ProgressMap Propagation Tower TowerSafety TowerCollect TowerSwitch TowerRestore ReplayVote ReplayVoteSafety.

Module VotingSample.

Definition me : Pubkey := 3%N.

Definition lockout (s count : Z) : Lockout := {| slot := s; confirmation_count := count |}.

(** A vote account with the votes, as it is found in a bank. *)
Definition account (stake : Z) (vs : list Lockout) : Z * VoteAccount :=
  (stake, {| va_vote_state := Ok (with_votes vote_state_default vs (Some 10)) |}).

Definition accounts (one two three : list Lockout) : gmap Pubkey (Z * VoteAccount) :=
  list_to_map [(1%N, account 100 one); (2%N, account 60 two); (3%N, account 50 three)].

Definition bank (s : Slot) (hash : Hash) (parent : Slot) (accts : gmap Pubkey (Z * VoteAccount)) : ReplayBank :=
  {| rb_slot := s; rb_hash := hash; rb_parent_slot := parent; rb_collector_id := 20%N; rb_block_height := s;
     rb_is_frozen := true; rb_vote_accounts := accts; rb_epoch_vote_accounts := accounts [] [] [];
     rb_total_epoch_stake := 210; rb_node_vote_accounts := ∅; rb_epoch_stakes := ForkSample.stakes;
     rb_epoch_schedule := ForkSample.schedule; rb_direct_vote_state_update := true |}.

(** The votes of the local validator that landed in block 16. *)
Definition my_votes : list Lockout := [lockout 11 3; lockout 13 2].

(** The blocks: [fifteen] are the accounts in block 15, the others are empty or hold
    [my_votes]. *)
Definition banks (fifteen sixteen : gmap Pubkey (Z * VoteAccount)) : list ReplayBank :=
  [bank 10 1%N 9 (accounts [] [] []); bank 11 2%N 10 (accounts [] [] []); bank 12 3%N 10 (accounts [] [] []);
   bank 13 4%N 11 (accounts [] [] []); bank 15 5%N 12 fifteen; bank 16 6%N 13 sixteen].

Definition ancestors : Ancestors :=
  list_to_map [(10, ∅); (11, {[10]}); (12, {[10]}); (13, {[10; 11]}); (15, {[10; 12]}); (16, {[10; 11; 13]})].
Definition descendants : Ancestors :=
  list_to_map [(10, {[11; 12; 13; 15; 16]}); (11, {[13; 16]}); (12, {[15]}); (13, {[16]}); (15, ∅); (16, ∅)].

Definition env (bs : list ReplayBank) : ReplayEnv :=
  {| my_vote_pubkey := me; env_ancestors := ancestors; env_descendants := descendants;
     env_banks := list_to_map (map (fun b => (rb_slot b, b)) bs); env_root := 10;
     env_voted_updates := fun _ => []; env_slot_pubkeys := fun _ => [] |}.

Definition fork_choice : HeaviestSubtreeForkChoice :=
  Eval vm_compute in
    ForkSample.returned
      (fc ← fc_new (10, 1%N); fc ← add_new_leaf_slot fc (11, 2%N) (Some (10, 1%N));
       fc ← add_new_leaf_slot fc (12, 3%N) (Some (10, 1%N)); fc ← add_new_leaf_slot fc (13, 4%N) (Some (11, 2%N));
       fc ← add_new_leaf_slot fc (15, 5%N) (Some (12, 3%N)); add_new_leaf_slot fc (16, 6%N) (Some (13, 4%N))).

Definition tower_with (vs : list Lockout) (last : VoteTransaction) : Tower :=
  with_last_vote (with_vote_state tower_default (with_votes vote_state_default vs (Some 10))) last (last_timestamp vote_state_default).

Definition start (tw : Tower) (bs : list ReplayBank) : ReplayState :=
  {| rs_tower := tw;
     rs_progress := list_to_map (map (fun b => (rb_slot b, fork_progress_new_from_bank b 30%N me None)) bs);
     rs_cluster := {| cs_fork_choice := fork_choice; duplicate_slots_tracker := ∅;
                      gossip_duplicate_confirmed_slots := ∅; epoch_slots_frozen_slots := ∅;
                      duplicate_slots_to_repair := ∅; bank_hashes := ∅; sent_updates := [] |};
     rs_latest_votes := lv_default |}.

Definition live (_ : Slot) : gset Slot := {[10; 11; 12; 13; 15; 16]}.

(** Everyone follows the fork of block 16, and the tower knows its votes. *)
Definition banks16 : list ReplayBank := banks (accounts [] [] []) (accounts [lockout 13 1] [lockout 13 1] my_votes).
Definition last13 : VoteTransaction := VT_Vote (vote_new [13] 4%N).
Definition start16 : ReplayState := start (tower_with my_votes last13) banks16.

(** The first validator is on the other fork. *)
Definition banks15 : list ReplayBank := banks (accounts [lockout 12 1] [] []) (accounts [] [] my_votes).
Definition start15 : ReplayState := start (tower_with [] no_vote_state_update) banks15.

(** The round on the first state, and the state in which it selects the bank. *)
Definition round16 : outcome (ReplayState * SelectVoteAndResetForkResult * option Slot) :=
  Eval vm_compute in replay_vote (env banks16) live start16 banks16 0.
Definition round15 : outcome (ReplayState * SelectVoteAndResetForkResult * option Slot) :=
  Eval vm_compute in replay_vote (env banks15) live start15 banks15 0.
Definition selecting15 : outcome ReplayState := Eval vm_compute in selection_state (env banks15) start15 banks15.

Definition final (o : outcome (ReplayState * SelectVoteAndResetForkResult * option Slot)) : ReplayState :=
  match o with Returns (rs, _, _) => rs | Panics => start16 end.
Definition selected (o : outcome (ReplayState * SelectVoteAndResetForkResult * option Slot))
    : SelectVoteAndResetForkResult :=
  match o with
  | Returns (_, sel, _) => sel
  | Panics => {| vote_bank := None; reset_bank := None; heaviest_fork_failures := [] |}
  end.
Definition selecting (o : outcome ReplayState) : ReplayState :=
  match o with Returns rs => rs | Panics => start16 end.

(** The tree of the blocks, as the ancestors of every slot. *)
Definition anc (s : Slot) : gset Slot := default ∅ (ancestors !! s).

Lemma my_tower_ok : tower_ok (rs_tower start16).
Proof.
  constructor; cbn.
  - by eexists.
  - split; [vm_compute; repeat split; discriminate|by apply Nat.leb_le].
  - repeat constructor; cbn; lia.
Qed.

Lemma my_votes_one_fork : one_fork anc (tower (vote_state (rs_tower start16))).
Proof. repeat constructor. Qed.

Lemma nothing_to_adopt16 : nothing_to_adopt (env banks16) (rs_tower start16) banks16.
Proof.
  intros b Hb. unfold banks16, banks in Hb. rewrite !elem_of_cons in Hb.
  destruct Hb as [->|[->|[->|[->|[->|[->|[]%not_elem_of_nil]]]]]]; vm_compute; reflexivity.
Qed.

Lemma env_banks16 (s : Slot) b : env_banks (env banks16) !! s = Some b -> rb_slot b = s.
Proof.
  cbn. rewrite !lookup_insert_Some, lookup_empty.
  intros H. repeat destruct H as [[<- <-]|[_ H]]; done.
Qed.

(** Block 13 as a block of the local validator, seen by nobody else yet. *)
Definition bank13 : ReplayBank := bank 13 4%N 11 (accounts [] [] []).
Definition produced : ForkProgress := fork_progress_new_from_bank bank13 20%N me None.

Lemma produced_ok : propagation_ok {[ 13 := bank13 ]} 10 {[ 13 := produced ]}.
Proof.
  assert (forall s ps, get_propagated_stats {[ 13 := produced ]} s = Some ps ->
    s = 13 /\ ps = propagated_stats produced) as Hone.
  { intros s ps. unfold get_propagated_stats. rewrite fmap_Some. by intros (fp & [<- <-]%lookup_singleton_Some & ->). }
  split; [constructor|].
  - intros s ps l [-> ->]%Hone. discriminate.
  - intros s ps [-> ->]%Hone _ _. exists bank13. split; [apply lookup_singleton_eq|vm_compute; reflexivity].
  - intros s ps [-> ->]%Hone _ _. split; [intros H; by vm_compute in H|].
    intros [H|(c & ps & [-> ->]%Hone & _ & H & _)]; by vm_compute in H.
Qed.

End VotingSample.

(** ** Witnesses *)

Lemma collect_vote_lockouts_spec_witness :
  exists cb lv', collect_vote_lockouts 3%N 15 (VotingSample.accounts [VotingSample.lockout 12 1] [] [])
      VotingSample.ancestors (fun _ => None) lv_default = Returns (cb, lv') /\ lv_ok lv'
    /\ default 0 (cb_voted_stakes cb !! 10)
       = wrap64 (msum (fun _ => stake_for VotingSample.ancestors 15 10)
           (VotingSample.accounts [VotingSample.lockout 12 1] [] [])).
Proof.
  destruct (collect_vote_lockouts_spec 3%N 15 (VotingSample.accounts [VotingSample.lockout 12 1] [] [])
    VotingSample.ancestors (fun _ => None) lv_default) as (cb & lv' & E & Hlv & _ & Hs & _).
  - constructor. intros pk s hs. cbn. by rewrite lookup_empty.
  - intros v a. unfold VotingSample.ancestors. cbn. rewrite !lookup_insert_Some, lookup_empty.
    intros H. repeat destruct H as [[<- <-]|[_ H]]; [set_solver..|done].
  - intros key e. cbn. rewrite !lookup_insert_Some, lookup_empty.
    intros H. repeat destruct H as [[<- <-]|[_ H]]; [| | |done]; intros st l [= <-]; cbn; [intros [= <-]; lia|done|done].
  - exists cb, lv'. split_and!; [done|done|apply Hs].
Defined.

Lemma switch_decision_sound_witness :
  let rs := VotingSample.selecting VotingSample.selecting15 in
  let tw := VotingSample.tower_with VotingSample.my_votes VotingSample.last13 in
  exists d, make_check_switch_threshold_decision tw 15 VotingSample.ancestors VotingSample.descendants
      (rs_progress rs) 210 (VotingSample.accounts [] [] []) (rs_latest_votes rs) (rs_fork_choice rs) = Returns d
    /\ decision_ok tw 15 VotingSample.ancestors VotingSample.descendants (rs_progress rs) 210
         (VotingSample.accounts [] [] []) (rs_latest_votes rs) (rs_fork_choice rs) (13, 4%N) 10 d.
Proof.
  intros rs tw.
  assert (make_check_switch_threshold_decision tw 15 VotingSample.ancestors VotingSample.descendants
      (rs_progress rs) 210 (VotingSample.accounts [] [] []) (rs_latest_votes rs) (rs_fork_choice rs) <> Panics) as Hret
    by (vm_compute; discriminate).
  pose proof (switch_decision_sound tw 15 VotingSample.ancestors VotingSample.descendants (rs_progress rs) 210
    (VotingSample.accounts [] [] []) (rs_latest_votes rs) (rs_fork_choice rs) 13 10) as H.
  destruct (make_check_switch_threshold_decision _ _ _ _ _ _ _ _ _) as [d|]; [|by destruct Hret].
  exists d. split; [done|]. apply H.
  - reflexivity.
  - eexists. vm_compute. reflexivity.
  - eexists. vm_compute. reflexivity.
  - reflexivity.
  - constructor.
    + intros c ds. cbn. rewrite !lookup_insert_Some, lookup_empty.
      intros H'. repeat destruct H' as [[<- _]|[_ H']]; [eexists; vm_compute; reflexivity..|done].
    + intros a c ds. cbn. intros [= <-] Hc. rewrite !lookup_insert_Some, lookup_empty.
      intros H'. repeat destruct H' as [[<- <-]|[_ H']]; [set_solver..|done].
    + intros _. vm_compute. reflexivity.
Defined.

Lemma restore_keeps_unrooted_votes_witness :
  let tw := VotingSample.tower_with VotingSample.my_votes VotingSample.last13 in
  let sh := sh_add (sh_add sh_default 10) 11 in
  exists res, adjust_lockouts_after_replay tw 11 sh = Returns res
    /\ forall tw', res = Ok tw' -> tower_ok tw' /\ one_fork VotingSample.anc (tower (vote_state tw')).
Proof.
  intros tw sh.
  destruct (restore_keeps_unrooted_votes VotingSample.anc tw 10 11 sh ({[11]} ∪ ({[10]} ∪ {[0]})) 11) as (res & E & H).
  - constructor; [exact VotingSample.my_tower_ok|reflexivity| |discriminate|reflexivity].
    intros v [->|[->|[]%not_elem_of_nil]%elem_of_cons]%elem_of_cons; cbn; lia.
  - lia.
  - exact VotingSample.my_votes_one_fork.
  - apply (history_add _ _ 10); [apply (history_add _ _ 0); [apply history_default|]|]; by vm_compute.
  - vm_compute. reflexivity.
  - right. lia.
  - exists res. split; [exact E|]. intros tw' Hr. destruct (H tw' Hr) as (? & ? & _). by split.
Defined.

Lemma replay_vote_obeys_lockouts_witness :
  replay_vote (VotingSample.env VotingSample.banks16) VotingSample.live VotingSample.start16 VotingSample.banks16 0
    = VotingSample.round16
  /\ tower_ok (rs_tower (VotingSample.final VotingSample.round16))
  /\ one_fork VotingSample.anc (tower (vote_state (rs_tower (VotingSample.final VotingSample.round16))))
  /\ tw_last_voted_slot_hash (rs_tower (VotingSample.final VotingSample.round16)) = Returns (Some (16, 6%N)).
Proof.
  split; [vm_compute; reflexivity|].
  destruct (replay_vote_obeys_lockouts VotingSample.anc (VotingSample.env VotingSample.banks16) VotingSample.live
    VotingSample.start16 VotingSample.banks16 0 (VotingSample.final VotingSample.round16)
    (VotingSample.selected VotingSample.round16) None
    (VotingSample.bank 16 6%N 13 (VotingSample.accounts [VotingSample.lockout 13 1] [VotingSample.lockout 13 1]
       VotingSample.my_votes)) SameFork)
    as (rs1 & fs & a & _ & _ & _ & _ & _ & _ & _ & _ & Hok & Hfork & Hlast & _).
  - exact VotingSample.my_tower_ok.
  - exact VotingSample.my_votes_one_fork.
  - exact VotingSample.nothing_to_adopt16.
  - apply (bool_decide_unpack _). vm_compute. exact I.
  - intros s a Ha. unfold VotingSample.anc. cbn [env_ancestors VotingSample.env] in Ha. by rewrite Ha.
  - exact VotingSample.env_banks16.
  - vm_compute. reflexivity.
  - vm_compute. reflexivity.
  - unfold VotingSample.banks16, VotingSample.banks. set_solver.
  - by vm_compute.
  - intros l. vm_compute. intros [= <-]. reflexivity.
  - by split_and!.
Defined.

Lemma propagation_is_exact_witness :
  exists p', update_propagation_status {[ 13 := VotingSample.produced ]} 13 {[ 13 := VotingSample.bank13 ]} 10
      (fun _ => [2%N]) (fun _ => []) = Returns p'
    /\ propagation_ok {[ 13 := VotingSample.bank13 ]} 10 p' /\ map_grows {[ 13 := VotingSample.produced ]} p'.
Proof.
  apply (propagation_is_exact {[ 13 := VotingSample.bank13 ]} 10 {[ 13 := VotingSample.produced ]} 13).
  - exact VotingSample.produced_ok.
  - eexists. apply lookup_singleton_eq.
Defined.

(** ** A lockout that is adopted too late *)

(** C37: A round may vote against a lockout it has just adopted.  The tower takes over
    the vote state found in block 16, with a vote on block 13 that is locked out until
    slot 17; but the lockout flag of block 15 was computed before, with the old tower,
    and the fork choice prefers block 15.  The round votes for it, and the tower ends
    with votes on both forks. *)
Theorem adopted_lockout_is_broken :
  let rs := VotingSample.start15 in
  let env := VotingSample.env VotingSample.banks15 in
  exists rs1 rs' sel, selection_state env rs VotingSample.banks15 = Returns rs1
    /\ votes (vote_state (rs_tower rs1)) = VotingSample.my_votes
    /\ is_locked_out (rs_tower rs1) 15 {[10; 12]} = Returns true
    /\ replay_vote env VotingSample.live rs VotingSample.banks15 0 = Returns (rs', sel, None)
    /\ (rb_slot ∘ fst <$> vote_bank sel) = Some 15
    /\ tower (vote_state (rs_tower rs')) = [11; 13; 15]
    /\ env_ancestors env !! 15 = Some {[10; 12]}.
Proof.
  intros rs env. exists (VotingSample.selecting VotingSample.selecting15),
    (VotingSample.final VotingSample.round15), (VotingSample.selected VotingSample.round15).
  split_and!; vm_compute; reflexivity.
Qed.
